(* ===== verification/_CoqProject ===== *)
-Q . S2P
Prelude.v
LockWord.v
RWLock.v
TwoPLHelper.v
SharedWord.v
SCC.v
CXLMemory.v
PashaState.v
PashaHelper.v
PashaMigration.v
PashaRow.v
PashaOps.v
PashaMove.v
PashaTable.v
RWKey.v
Tracker.v
Policy.v
LRU.v
Clock.v
Queue.v
RingBuffer.v
EBR.v
Wire.v
Message.v
Transport.v
Commit.v
Execute.v
ExecuteSpec.v
HashTable.v
BTreeNode.v
BTree.v
BTreeInv.v
BTreeInsert.v
BTreeTree.v
BTreeRemove.v
BTreeSpec.v
BTreeScan.v
BTreeCXL.v
BTreeAdjacent.v
NodeLock.v
LocalIndex.v
Scan.v
BTreeCXLSpec.v
Table.v
TableSpec.v
HashMap.v
HashMapSpec.v
HashTables.v
HashTableSpec.v
Partitioner.v
Interleave.v
SundialRow.v
SundialSpec.v
Sundial.v
SundialTxn.v
SundialCommit.v
SundialSerial.v
TwoPL.v
TwoPLSpec.v
TwoPLTxn.v
TwoPLCommit.v
TwoPLSerial.v
WAL.v
WALSpec.v
WALPasha.v
SundialPasha.v
SundialPashaSpec.v
SundialPashaMove.v
Witness.v
IndexWitness.v
TableWitness.v
CommitWitness.v
SundialWitness.v
SundialPashaWitness.v
TwoPLWitness.v
WALWitness.v
Findings.v
PolicyWitness.v
