(* ===== verification/Prelude.v ===== *)
(** * A verification of Tigon's two-phase locking over shared CXL memory

    Tigon is a transactional database for several hosts that share a CXL memory
    pool.  A row lives in the partition of its owner host, and is moved into CXL
    memory when another host needs it.  The pool is only in part kept coherent
    by hardware: a 64-bit word per row is, and the row's data object is kept
    coherent in software.  This library models the concurrency-control core of
    the system and proves what makes it correct.

    ** The parts and the files that model them

    - [Prelude]: machine integers as [Z] with [wrap] and [fits], bit fields,
      [memcpy], and the monad [M] in which operations are written.  An operation
      returns a value and a state, or does not return: it busy-waits ([Spin]), a
      [CHECK] fails ([Abort]), or it follows a bad pointer ([Fault]).  The build
      defines [NDEBUG], so [DCHECK] has no effect.
    - [LockWord]: the version word of a tuple (write bit, reader count, sequence
      number), for the two layouts of protocol/TwoPL/TwoPLHelper.h and
      protocol/TwoPLPasha/TwoPLPashaHelper.h.
    - [RWLock]: the abstract contract of a table of reader-writer locks, the
      class [LockTable]; what clients can rely on (mutual exclusion, repeatable
      reads, exact counts) is proved against it, over every interleaving.
    - [TwoPLHelper]: the class of that name; it implements [LockTable].
    - [SharedWord]: [TwoPLPashaMetadataShared], the word that hardware keeps
      coherent: latch, coherence bits, lock bits, flags, offset of the data.
    - [SCC]: the software-coherence managers TwoPLPashaSCC*.h, the class
      [SCCProtocol] of what a manager promises, and a model of hosts with private
      caches whose lines are written back and dropped by clwb and clflush, over the
      lengths that the callers pass, and by evictions.
    - [CXLMemory]: the usage counters of common/CXLMemory.h.
    - [PashaState], [PashaHelper], [PashaMigration]: [TwoPLPashaHelper].  The
      state [world] has the rows of a partition, the shared words, the data
      objects, the CXL index, the counters and the list of retired objects;
      there is one definition per operation, on the owner and on other hosts
      ([remote_*]), and per direction of migration, for unordered and for ordered
      tables (with next-key information).
    - [PashaRow]: the invariant [winv] of a [world] and the abstraction [abs],
      which gives the tuple (lock state, version, value, valid flag) of a key
      wherever the row is.  [PashaOps]: each operation as a step on the tuple.
      [PashaMove]: migration.  [PashaTable]: the operations together implement
      [LockTable].
    - [RWKey]: [TwoPLPashaRWKey], the entries of read and write sets.
    - [Tracker]: the doubly linked lists of the migration policies, and what
      linking, unlinking and walking do to the list behind the pointers.
    - [Policy], [LRU], [Clock], [Queue]: the migration policies
      protocol/Pasha/Policy*.h, over the class [Mover] of what the functions that
      move rows promise to a policy.
    - [RingBuffer]: common/MPSCRingBuffer.h, the receive queue of a host in CXL
      memory: the methods, and the accesses of many producers and a consumer
      interleaved.
    - [EBR]: common/CXL_EBR.h, epoch-based reclamation, in the same way.
    - [Wire]: serialization, [Encoder], [Decoder] and [StringPiece]; the class
      [Serializable] of what can be read back.  [Message]: message pieces,
      messages and their iterator.  [Transport]: common/BufferedReader.h over the
      class [ByteSource], grouped messages, and common/CXLTransport.h.
    - [Commit]: protocol/TwoPLPasha/TwoPLPasha.h, committing and aborting a
      transaction over the operations of [PashaHelper].  [Execute]: its requests
      (TwoPLPashaTransaction.h), the handlers that lock, scan, insert and delete
      (TwoPLPashaExecutor.h) and the messages between a host and the owners
      (TwoPLPashaMessage.h).  [ExecuteSpec]: a transaction from its requests to
      its end, over the law [owners] of what the owners do meanwhile, which
      their own handlers satisfy.  [Scan]: a scan that locks the key after its
      range.
    - [Partitioner]: core/Partitioner.h, which host has which partition.
    - [Interleave]: programs whose atomic steps are interleaved, and the method to
      prove them safe.  [SundialRow] and [Sundial]: protocol/Sundial, a protocol
      with timestamps and leases instead of read locks; a transaction is a program
      over the rows of all hosts, and so is the work on its messages.
      [SundialSpec]: what its operations do to the history of the rows, and what
      a transaction knows of it; [SundialTxn], [SundialCommit] and
      [SundialSerial]: the phases of a transaction, and all of them together.
    - [TwoPL]: protocol/TwoPL, two-phase locking for rows that do not move, on the
      locks of [TwoPLHelper]: entries, requests, handlers, messages, commit and
      abort, as programs in the same way; the shared state is the rows and the log.
      [TwoPLSpec]: the holders of the locks, the database that the log describes,
      and what a transaction knows of them; [TwoPLTxn], [TwoPLCommit] and
      [TwoPLSerial]: the phases of a transaction, and all of them together.
    - [SundialPasha]: protocol/SundialPasha/SundialPashaHelper.h, the rows of Sundial
      when they move between their host and CXL memory, over the coherence managers
      of protocol/Pasha.  [SundialPashaSpec]: the rows that are shown, the law
      [SundialSCCLaws] of a manager and its instances, and the operations on rows;
      [SundialPashaMove]: moving rows, and runs of calls.
    - [WAL]: common/WALLogger.h and common/BufferedFileWriter.h, the writers of log
      files and the loggers, over the class [Os] of what the operating system answers.
      [WALSpec]: buffered writers and group commit; [WALPasha]: the log of a host, with
      its workers, the epochs and the logger thread interleaved.
    - [HashTable]: common/CCSet.h, common/CCHashTable.h and [CXLTableHashMap] of
      core/CXLTable.h, the index of rows in CXL memory.  [BTreeCXL], [BTreeCXLSpec]:
      the B+ tree of common/btree_olc_cxl/BTreeOLC_CXL.h with the pages it allocates
      and retires, and [CXLTableBTreeOLC], the index of ordered tables.
    - [BTreeNode], [BTree], [BTreeScan]: the B+ tree of common/btree_olc/BTreeOLC.h,
      the index of ordered tables: the nodes; lookup, insertion and removal; scans
      and the methods that show neighbouring keys.  A node is a value of a type
      indexed by its height; leaves have addresses, which the links refer to.
      [BTreeInv], [BTreeInsert], [BTreeTree], [BTreeRemove], [BTreeSpec] and
      [BTreeAdjacent] have the invariant and the proofs.  [NodeLock]: the
      optimistic lock of a node, with its threads interleaved.  [LocalIndex]: the
      tree as the index of a table that [PashaMigration] works on.
    - [Table], [TableSpec]: [TableBTreeOLC] of core/Table.h, for any type of rows.
      [HashMap], [HashMapSpec]: common/HashMap.h, over the class [UnorderedMap] of
      what [std::unordered_map] does.  [HashTables], [HashTableSpec]: the unordered
      tables of core/Table.h, and the checkpoints of [HStoreCOWTable].
    - [Witness], [PolicyWitness], [CommitWitness], [IndexWitness],
      [SundialWitness], [TwoPLWitness], [SundialPashaWitness], [WALWitness],
      [TableWitness]: concrete states on which the theorems are applied.  [Findings]: runs in which the code goes wrong.

    ** What the theorems show

    - Across hosts and migrations, two-phase locking works: a write lock
      excludes, a lock makes reads repeatable, the lock words count exactly the
      locks held, and a locking read gives the current value.
    - Moving a row of an unordered table in or out is invisible: no tuple changes,
      whatever the outcome, and a pinned row does not leave.  The theorems on moving in,
      and on repeatable reads across moves, are for [enable_scc] or no migration
      optimisation; [unmodified_row_lost] shows why.
    - Under the tuple's lock, software coherence gives every host the latest contents
      of every cache line that the lengths passed to the managers reach, and the
      [CHECK] of the write path never fails.  The length that the release of a write
      lock passes does not always reach the end of the value ([tail_not_written_back]).
    - The words keep their fields apart, in both directions of the encoding.
    - The policies keep track of exactly the rows in CXL memory, their loops end,
      and they move out the rows they are meant to; the queues of the FIFO and the
      eager policy do if no two rows differ in the partition only
      ([delete_untracks_other_partition]).
    - The counters of CXL memory are exact.
    - A ring buffer is a bounded FIFO queue whatever the interleaving, and never
      blocks for good; a message arrives through it byte for byte, and the
      receiver reads the pieces the sender wrote, however the stream is cut.
    - The epochs of all workers stay within one of each other; an object retired
      in the global epoch is freed only after every worker has left the critical
      section it was in ([ebr_frees_early] shows the case that is not covered).
    - A transaction that reads and updates existing rows is atomic, from its first
      request to the end, and no [CHECK] fails: it gets all the locks it asked for and the current values, and its
      commit puts its writes in place with versions that only grow, gives back the
      locks and changes nothing else; or it leaves no trace.  A scan holds the
      locks of its range and of the next key, so that nothing can be inserted
      into the range.
    - Sundial is serializable by commit timestamps: whatever the interleaving, a
      committed transaction has read and written what is current at its timestamp,
      an aborted one has written nothing, and no lock is left behind.  This is for
      transactions that read rows and update those read for update; local reads
      of versions newer than the commit timestamp ([sundial_read_skew]) and of indexes
      are excepted.
    - Two-phase locking is serializable, and the log is the serial order: whatever
      the interleaving, a committed transaction has read the values of one point of
      the log, and its commit record comes next with its writes; rows that nobody
      writes are as the log says, and no lock is left behind
      ([twopl_serializable]).
    - In SundialPasha the place of a row is invisible: every run of its calls is a
      run of the operations of Sundial on the rows that are shown, with the same
      answers, and no call fails that would not fail in Sundial
      ([sundial_pasha_refines]); [sundial_pasha_errors] has what it refuses.
    - The log of a host loses, repeats and splits no record, whatever the order of the
      workers and the logger and whatever the operating system answers
      ([pasha_log_exact]), and what a worker has written is handed to [write] and
      [fdatasync] after its next write in a later epoch ([pasha_records_issued]).  That
      it is on the disk then holds if no call fails ([pasha_log_on_disk]): the code
      ignores the results ([failed_write_counted]).
      [WALWitness] shows that transactions of one epoch do not become durable together.
    - The hosts agree on the master and the replicas of a partition, as far as its
      partitioner has them.
    - The CXL hash index is a finite map, the one that migration is verified
      against, and has no bad access unless an insertion finds no memory; the B+ tree is an ordered list, under any insertions and removals,
      its scans are complete, and it shows the neighbouring keys that next-key
      locking and migration work with.  In CXL memory it is the ordered index that
      migration is verified against, and its pages are counted exactly
      ([cxl_ordered_index_refines]).  Reads under the optimistic lock of a node
      that validate are reads of an unchanged node.
    - A table is a finite map of rows, and its methods are operations on it
      ([table_refines], [unordered_table_rows]); a checkpoint has the rows of when it
      was started, whatever is updated while it is dumped ([cow_checkpoint]).
    - [Findings], [SCC], [IndexWitness] and [PolicyWitness] show runs in which the code does not
      do what it means to; the hypotheses of the other theorems exclude them.

    ** Choices

    An operation on a row runs with the latches of the row held from its first
    to its last access, so it is one step and concurrency is the interleaving of
    steps.  Hosts are numbered below 16, the width of the coherence bits in
    the shared word.  The data of a [world] is what the last writer wrote; that
    readers see it is the subject of [SCC].  The loops of the LRU and the clock policy
    are run with [n * n + n + 1] steps for [n] nodes: between two rows that
    leave, the cursor visits each node at most once.  Retired objects stay
    allocated in a [world]; reclaiming them is the subject of [EBR].  [RingBuffer]
    and [EBR] interleave single accesses to shared memory, in sequential
    consistency, and assume that 64-bit counters do not run over.  [NodeLock] does the same for a node, for as many
    steps as the version has numbers; the methods of the tree are modelled when
    they are not disturbed, so a method goes back to its start only after it has
    split a node.  Its loop has the sum of the squares of the node sizes as fuel,
    which every split of an inner node lowers, and a multiple of the number of full
    leaves besides where a split of a leaf starts again too.  The capacities of
    nodes are parameters, at least 3 for leaves (as the code asserts) and 5 for
    inner nodes (below that a split makes a node without keys).  The allocator is a parameter
    ([CxlAlloc]): it returns unused offsets that fit in 37 bits, or fails.

    In [Sundial] a step is one operation of [SundialHelper], under the latch of its
    row; timestamps are assumed not to run over.  The network has as much fuel as
    the messages need steps ([cost]).  The same goes for [TwoPL] and the operations
    of [TwoPLHelper]; version numbers are assumed not to run over.  A record in its
    log has the transaction that wrote it, which the code does not write; the
    proofs are for tables without replicas.  In [SundialPasha] too an operation is one
    step; memory that is freed can be handed out again.

    In [Table] a row is an object behind a pointer and its three parts are one
    pointer; the data of an unordered table are in its element.  A dump of
    [HStoreCOWTable] goes on bucket by bucket and element by element beside the updates.
    The loops of [HashMap] do not lock, so adding an element to the map that is gone
    through is undefined: such steps are excluded.

    In [WAL] the sizes of blocks, buffers and queues are parameters; the theorems
    assume that a buffer is a number of blocks, as the constants are.  Those about a log
    file hold for any answers of the operating system and are about the calls issued;
    those about what is on the disk assume that no call fails ([OsHealthy]).  A queue is emptied in as many
    rounds as it has places, and one more.

    ** What is not modelled yet

    Theorems on commits that insert, delete or scan and on the next-key information of ordered tables, the version checks of the B+ tree
    methods between threads, its iterator, and the other protocols (the transactions of
    SundialPasha, Silo and others).  Sockets, threads and benchmarks are left out for good. *)

From stdpp Require Export base tactics numbers list gmap.
From Stdlib Require Export ZArith Lia.
From Stdlib Require Import Init.Byte.
#[global] Open Scope Z_scope.

(** ** Machine integers

    An unsigned [n]-bit integer of the code is a [Z] in the range [fits n];
    arithmetic that can leave the range goes through [wrap n]. *)

Definition wrap (n : Z) (x : Z) : Z := x mod 2 ^ n.

Definition fits (n : Z) (x : Z) : Prop := 0 <= x < 2 ^ n.

(** [~m] on a [uint64_t]. *)
Definition not64 (m : Z) : Z := Z.land (Z.lnot m) (Z.ones 64).

(** The bit field of width [n] at offset [off]: what the code reads with
    [(w >> off) & mask] and rewrites with [(w & ~(mask << off)) | (v << off)]. *)
Definition getf (off n w : Z) : Z := Z.land (Z.shiftr w off) (Z.ones n).

Definition setf (off n v w : Z) : Z :=
  Z.lor (Z.land w (Z.lnot (Z.shiftl (Z.ones n) off))) (Z.shiftl v off).

#[global] Arguments getf : simpl never.
#[global] Arguments setf : simpl never.
#[global] Arguments wrap : simpl never.

Create HintDb fields.

Lemma wrap_small n x : fits n x -> wrap n x = x.
Proof. apply Z.mod_small. Qed.

Lemma wrap_fits n x : 0 <= n -> fits n (wrap n x).
Proof. intros. apply Z.mod_pos_bound, Z.pow_pos_nonneg; lia. Qed.

Lemma wrap_add_l a b : wrap 64 (wrap 64 a + b) = wrap 64 (a + b).
Proof. apply Zplus_mod_idemp_l. Qed.
Lemma wrap_sub_l a b : wrap 64 (wrap 64 a - b) = wrap 64 (a - b).
Proof. apply Zminus_mod_idemp_l. Qed.

Lemma fits_testbit n x i : fits n x -> n <= i -> 0 <= n -> Z.testbit x i = false.
Proof.
  intros Hx Hi Hn. rewrite <- (Z.mod_small x (2 ^ n)) by exact Hx.
  now apply Z.mod_pow2_bits_high.
Qed.

Lemma testbit_fits n x :
  0 <= n -> 0 <= x -> (forall i, n <= i -> Z.testbit x i = false) -> fits n x.
Proof.
  intros Hn Hx Hbits. cut (x = x mod 2 ^ n).
  - intros ->. now apply wrap_fits.
  - apply Z.bits_inj'. intros i Hi. destruct (Z.ltb_spec i n).
    + now rewrite Z.mod_pow2_bits_low.
    + now rewrite Z.mod_pow2_bits_high, Hbits.
Qed.

Lemma testbit_ones n i : 0 <= n -> 0 <= i -> Z.testbit (Z.ones n) i = (i <? n).
Proof.
  intros. destruct (Z.ltb_spec i n).
  - now apply Z.ones_spec_low.
  - apply Z.ones_spec_high; lia.
Qed.

(** [bits] reduces an equation on integers to its bits and decides the
    comparisons of bit positions that are left. *)
Ltac bits_rewrite :=
  repeat first
    [ rewrite Z.land_spec | rewrite Z.lor_spec | rewrite Z.lnot_spec by lia
    | rewrite Z.shiftr_spec by lia | rewrite Z.shiftl_spec by lia
    | rewrite testbit_ones by lia | rewrite Z.bits_0 ].
Ltac bits_case :=
  repeat match goal with
  | |- context [Z.ltb ?a ?b] => destruct (Z.ltb_spec a b); try lia
  end.
Ltac bits :=
  apply Z.bits_inj'; intros ?i ?Hi; bits_rewrite; bits_case;
  rewrite ?andb_false_r, ?andb_true_r, ?orb_false_r, ?orb_false_l.

Lemma land_not64 w m : fits 64 w -> Z.land w (not64 m) = Z.land w (Z.lnot m).
Proof.
  intros Hw. unfold not64. bits; [easy|].
  rewrite (fits_testbit 64 w) by (easy || lia). easy.
Qed.

Lemma getf_fits off n w : 0 <= n -> fits n (getf off n w).
Proof.
  intros. unfold getf. rewrite Z.land_ones by lia. now apply wrap_fits.
Qed.

Lemma getf_testbit off n w i :
  0 <= off -> 0 <= n -> 0 <= i ->
  Z.testbit (getf off n w) i = (i <? n) && Z.testbit w (i + off).
Proof. intros. unfold getf. bits_rewrite. apply andb_comm. Qed.

Lemma setf_testbit off n v w i :
  0 <= off -> 0 <= n -> fits n v -> 0 <= i ->
  Z.testbit (setf off n v w) i =
    if (off <=? i) && (i <? off + n) then Z.testbit v (i - off) else Z.testbit w i.
Proof.
  intros Ho Hn Hv Hi. unfold setf. bits_rewrite.
  destruct (Z.leb_spec off i); cbn.
  - rewrite testbit_ones by lia.
    destruct (Z.ltb_spec (i - off) n), (Z.ltb_spec i (off + n)); try lia; cbn.
    + now rewrite andb_false_r.
    + rewrite andb_true_r, (fits_testbit n v) by (easy || lia). apply orb_false_r.
  - rewrite !(Z.testbit_neg_r _ (i - off)) by lia. cbn.
    now rewrite andb_true_r, orb_false_r.
Qed.

Lemma getf_setf off n v w :
  0 <= off -> 0 <= n -> fits n v -> getf off n (setf off n v w) = v.
Proof.
  intros Ho Hn Hv. apply Z.bits_inj'. intros i Hi.
  rewrite getf_testbit, setf_testbit by (easy || lia).
  destruct (Z.ltb_spec i n); cbn.
  - rewrite (proj2 (Z.leb_le _ _)), (proj2 (Z.ltb_lt _ _)) by lia.
    cbn. f_equal. lia.
  - now rewrite (fits_testbit n v) by (easy || lia).
Qed.

Lemma getf_setf_ne off n off' n' v w :
  0 <= off -> 0 <= n -> 0 <= off' -> 0 <= n' -> fits n' v ->
  off + n <= off' \/ off' + n' <= off ->
  getf off n (setf off' n' v w) = getf off n w.
Proof.
  intros ????? Hd. apply Z.bits_inj'. intros i Hi.
  rewrite !getf_testbit, setf_testbit by (easy || lia).
  destruct (Z.ltb_spec i n); [|easy]. cbn.
  destruct (Z.leb_spec off' (i + off)), (Z.ltb_spec (i + off) (off' + n')); cbn; easy || lia.
Qed.

Lemma setf_setf off n v v' w :
  0 <= off -> 0 <= n -> fits n v -> fits n v' ->
  setf off n v (setf off n v' w) = setf off n v w.
Proof.
  intros. apply Z.bits_inj'. intros i Hi. rewrite !setf_testbit by (easy || lia).
  now destruct ((off <=? i) && (i <? off + n)).
Qed.

Lemma setf_comm off n off' n' v v' w :
  0 <= off -> 0 <= n -> 0 <= off' -> 0 <= n' -> fits n v -> fits n' v' ->
  off + n <= off' \/ off' + n' <= off ->
  setf off n v (setf off' n' v' w) = setf off' n' v' (setf off n v w).
Proof.
  intros. apply Z.bits_inj'. intros i Hi. rewrite !setf_testbit by (easy || lia).
  destruct (Z.leb_spec off i), (Z.ltb_spec i (off + n)),
    (Z.leb_spec off' i), (Z.ltb_spec i (off' + n')); cbn; easy || lia.
Qed.

Lemma setf_subsume off n off' n' v v' w :
  0 <= off -> 0 <= n -> 0 <= off' -> 0 <= n' -> fits n v -> fits n' v' ->
  off <= off' -> off' + n' <= off + n ->
  setf off n v (setf off' n' v' w) = setf off n v w.
Proof.
  intros. apply Z.bits_inj'. intros i Hi. rewrite !setf_testbit by (easy || lia).
  destruct (Z.leb_spec off i), (Z.ltb_spec i (off + n)),
    (Z.leb_spec off' i), (Z.ltb_spec i (off' + n')); cbn; easy || lia.
Qed.

Lemma setf_getf off n w : 0 <= off -> 0 <= n -> setf off n (getf off n w) w = w.
Proof.
  intros. apply Z.bits_inj'. intros i Hi.
  rewrite setf_testbit by (try apply getf_fits; lia).
  destruct (Z.leb_spec off i), (Z.ltb_spec i (off + n)); cbn; try easy.
  rewrite getf_testbit by lia. rewrite (proj2 (Z.ltb_lt _ _)) by lia.
  cbn. f_equal. lia.
Qed.

Lemma setf_fits off n v w :
  0 <= off -> 0 <= n -> off + n <= 64 -> fits n v -> fits 64 w -> fits 64 (setf off n v w).
Proof.
  intros Ho Hn Hon Hv Hw. apply testbit_fits; [lia| |].
  - unfold setf. apply Z.lor_nonneg. split.
    + apply Z.land_nonneg. left. apply Hw.
    + apply Z.shiftl_nonneg. apply Hv.
  - intros i Hi. rewrite setf_testbit by (easy || lia).
    destruct (Z.leb_spec off i), (Z.ltb_spec i (off + n)); cbn; try lia;
      apply (fits_testbit 64); easy || lia.
Qed.

(** Clearing a field, and adding to or subtracting from it without leaving
    its range, are updates of that field alone. *)
Lemma clear_setf off n w :
  fits 64 w -> Z.land w (not64 (Z.shiftl (Z.ones n) off)) = setf off n 0 w.
Proof.
  intros. unfold setf. rewrite land_not64 by easy.
  now rewrite Z.shiftl_0_l, Z.lor_0_r.
Qed.

Lemma setf_add off n v w :
  0 <= off -> 0 <= n -> fits n v ->
  setf off n v w = setf off n 0 w + v * 2 ^ off.
Proof.
  intros Ho Hn Hv.
  pose proof (Z.add_lor_land (Z.land w (Z.lnot (Z.shiftl (Z.ones n) off))) (Z.shiftl v off)) as E.
  assert (Z.land (Z.land w (Z.lnot (Z.shiftl (Z.ones n) off))) (Z.shiftl v off) = 0) as H0.
  - apply Z.bits_inj'. intros i Hi. bits_rewrite.
    destruct (Z.leb_spec off i).
    + rewrite testbit_ones by lia. destruct (Z.ltb_spec (i - off) n); cbn.
      * now rewrite andb_false_r.
      * rewrite (fits_testbit n v) by (easy || lia). apply andb_false_r.
    + rewrite (Z.testbit_neg_r v) by lia. apply andb_false_r.
  - unfold setf. rewrite Z.shiftl_0_l, Z.lor_0_r, <- (Z.shiftl_mul_pow2 v) by lia. lia.
Qed.

Lemma field_split off n w :
  0 <= off -> 0 <= n -> w = setf off n 0 w + getf off n w * 2 ^ off.
Proof.
  intros. rewrite <- setf_add by (try apply getf_fits; lia).
  now rewrite setf_getf by lia.
Qed.

Lemma add_setf off n d w :
  0 <= off -> 0 <= n -> fits n (getf off n w + d) ->
  w + d * 2 ^ off = setf off n (getf off n w + d) w.
Proof.
  intros. rewrite setf_add by easy. rewrite (field_split off n w) at 1 by lia. lia.
Qed.

Lemma getf_bit_testbit i w : 0 <= i -> getf i 1 w = Z.b2z (Z.testbit w i).
Proof.
  intros. apply Z.bits_inj'. intros j Hj. rewrite getf_testbit by lia.
  destruct (Z.ltb_spec j 1).
  - assert (j = 0) as -> by lia. rewrite Z.b2z_bit0. easy.
  - destruct (Z.testbit w i); cbn; [|now rewrite Z.bits_0].
    rewrite Z.bits_above_log2; easy || (cbn; lia).
Qed.

Lemma b2z_fits b : fits 1 (Z.b2z b).
Proof. now destruct b. Qed.

Lemma fits_mask n : 0 <= n -> fits n (Z.ones n).
Proof. intros. unfold fits. rewrite Z.ones_equiv. pose proof (Z.pow_pos_nonneg 2 n). lia. Qed.

(** Reading back the field just written, or another one; the side conditions
    are comparisons of literal offsets and widths. *)
Ltac fields_side :=
  solve [ lia | assumption | unfold fits; cbn; lia | apply getf_fits; lia ].
Ltac fields :=
  repeat first
    [ rewrite getf_setf by fields_side
    | rewrite getf_setf_ne by fields_side
    | rewrite setf_setf by fields_side ].

Lemma fits_pow n x : 0 <= x < 2 ^ n -> fits n x.
Proof. easy. Qed.

#[export] Hint Resolve getf_fits wrap_fits setf_fits : fields.
#[export] Hint Extern 1 (_ <= _)%Z => lia : fields.
#[export] Hint Extern 1 (_ < _)%Z => lia : fields.
#[export] Hint Extern 2 (fits _ _) => (unfold fits; lia) : fields.

(** ** Byte buffers *)

Abbreviation bytes := (list Byte.byte).

#[export] Instance byte_eq_decision : EqDecision Byte.byte := Byte.byte_eq_dec.

(** [memcpy(dst, src, n)]: the first [n] bytes of [dst] become those of [src]. *)
Definition memcpy (dst src : bytes) (n : nat) : bytes := take n src ++ drop n dst.

Lemma memcpy_full dst src n :
  length dst = n -> length src = n -> memcpy dst src n = src.
Proof.
  intros Hd Hs. unfold memcpy. rewrite take_ge, drop_ge, app_nil_r by lia. easy.
Qed.

Lemma memcpy_length dst src n :
  (n <= length src)%nat -> (n <= length dst)%nat -> length (memcpy dst src n) = length dst.
Proof.
  intros. unfold memcpy. rewrite length_app, length_take, length_drop. lia.
Qed.

(** ** Outcomes

    A step of the code returns a value and a new state, or does not return:
    it busy-waits on a latch that is taken ([Spin]), a [CHECK] fails
    ([Abort]), or it follows a pointer that refers to no live object
    ([Fault]).  [DCHECK] is compiled out (the build defines [NDEBUG]) and has
    no effect. *)

Inductive outcome (S A : Type) : Type :=
| Ret (a : A) (s : S)
| Spin
| Abort
| Fault.
Arguments Ret {S A} a s.
Arguments Spin {S A}.
Arguments Abort {S A}.
Arguments Fault {S A}.

Definition M (S A : Type) : Type := S -> outcome S A.

#[export] Instance M_ret {S} : MRet (M S) := fun A a s => Ret a s.

#[export] Instance M_bind {S} : MBind (M S) := fun A B f m s =>
  match m s with
  | Ret a s' => f a s'
  | Spin => Spin
  | Abort => Abort
  | Fault => Fault
  end.

Section monad_ops.
Context {S : Type}.

Definition spin {A} : M S A := fun _ => Spin.
Definition abort {A} : M S A := fun _ => Abort.
Definition fault {A} : M S A := fun _ => Fault.
Definition gets {A} (f : S -> A) : M S A := fun s => Ret (f s) s.
Definition modify (f : S -> S) : M S unit := fun s => Ret tt (f s).

(** glog's [CHECK(b)]. *)
Definition CHECK (b : bool) : M S unit := if b then mret tt else abort.

(** Dereferencing: the code that follows a null or dangling pointer. *)
Definition deref {A} (f : S -> option A) : M S A := fun s =>
  match f s with Some a => Ret a s | None => Fault end.

Definition when_ (b : bool) (m : M S unit) : M S unit := if b then m else mret tt.
End monad_ops.

(** A computation on a part of the state. *)
Definition lift_with {S S' A} (get : S -> S') (put : S' -> S -> S) (m : M S' A) : M S A :=
  fun s => match m (get s) with
           | Ret a s' => Ret a (put s' s)
           | Spin => Spin
           | Abort => Abort
           | Fault => Fault
           end.

Lemma bind_Ret {S A B} (m : M S A) (f : A -> M S B) s a s' :
  m s = Ret a s' -> (m ≫= f) s = f a s'.
Proof. intros H. cbv [mbind M_bind]. now rewrite H. Qed.

Lemma bind_inv {S A B} (m : M S A) (f : A -> M S B) s b s' :
  (m ≫= f) s = Ret b s' -> exists a s1, m s = Ret a s1 /\ f a s1 = Ret b s'.
Proof. cbv [mbind M_bind]. destruct (m s); naive_solver. Qed.

Lemma bind_assoc {S A B C} (m : M S A) (f : A -> M S B) (g : B -> M S C) s :
  ((m ≫= f) ≫= g) s = (m ≫= (fun a => f a ≫= g)) s.
Proof. cbv [mbind M_bind]. now destruct (m s). Qed.

(** [m] run from [s] returns, and its result and final state satisfy [Q]. *)
Definition runs {S A} (m : M S A) (s : S) (Q : A -> S -> Prop) : Prop :=
  match m s with Ret a s' => Q a s' | _ => False end.

Lemma runs_bind {S A B} (m : M S A) (f : A -> M S B) s Q :
  runs m s (fun a s' => runs (f a) s' Q) -> runs (m ≫= f) s Q.
Proof. cbv [runs mbind M_bind]. now destruct (m s). Qed.

Lemma runs_mono {S A} (m : M S A) s (P Q : A -> S -> Prop) :
  runs m s P -> (forall a s', P a s' -> Q a s') -> runs m s Q.
Proof. unfold runs. destruct (m s); naive_solver. Qed.

Lemma runs_eq {S A} (m : M S A) s (Q : A -> S -> Prop) a s' :
  m s = Ret a s' -> Q a s' -> runs m s Q.
Proof. unfold runs. now intros ->. Qed.

Lemma runs_inv {S A} (m : M S A) s (Q : A -> S -> Prop) a s' :
  runs m s Q -> m s = Ret a s' -> Q a s'.
Proof. unfold runs. intros H E. now rewrite E in H. Qed.

(** [mrun] unfolds the monad so that a program applied to a state computes. *)
Ltac mrun :=
  cbv [mbind M_bind mret M_ret gets modify CHECK spin abort fault deref when_]; cbn.

(** ** Fields of a word, as the entries of a transaction write them *)

Lemma field_set_other w off n off' n' v : 0 <= n -> 0 <= n' -> 0 <= off -> 0 <= off' ->
  fits n' v -> off + n <= 64 -> off' + n' <= 64 -> off + n <= off' \/ off' + n' <= off ->
  Z.land (Z.shiftr (Z.lor (Z.land w (not64 (Z.shiftl (Z.ones n') off'))) (wrap 64 (Z.shiftl v off'))) off) (Z.ones n) = Z.land (Z.shiftr w off) (Z.ones n).
Proof.
  intros ? ? ? ? Hv ? ? Hd. unfold not64. rewrite wrap_small.
  2: { unfold fits in *. rewrite Z.shiftl_mul_pow2 by lia. assert (2 ^ n' * 2 ^ off' <= 2 ^ 64) by (rewrite <- Z.pow_add_r by lia; apply Z.pow_le_mono_r; lia).
       pose proof (Z.pow_pos_nonneg 2 off' ltac:(lia) ltac:(lia)). split; [nia|]. eapply Z.lt_le_trans; [|eassumption]. apply Z.mul_lt_mono_pos_r; lia. }
  apply Z.bits_inj'. intros i Hi. rewrite !Z.land_spec, testbit_ones by lia. destruct (Z.ltb_spec i n); [|now rewrite !andb_false_r].
  rewrite !andb_true_r, !Z.shiftr_spec, Z.lor_spec, !Z.land_spec, Z.lnot_spec, !Z.shiftl_spec, (testbit_ones 64) by lia.
  rewrite (proj2 (Z.ltb_lt _ _)) by lia. rewrite andb_true_r. destruct (Z.leb_spec off' (i + off)).
  - rewrite testbit_ones, (fits_testbit n' v) by (easy || lia). rewrite (proj2 (Z.ltb_ge _ _)) by lia. cbn. now rewrite andb_true_r, orb_false_r.
  - rewrite !(Z.testbit_neg_r _ (i + off - off')) by lia. cbn. now rewrite andb_true_r, orb_false_r.
Qed.

Lemma field_set_bit w off : 0 <= off < 64 ->
  Z.land (Z.shiftr (Z.lor (Z.land w (not64 (Z.shiftl 1 off))) (wrap 64 (Z.shiftl 1 off))) off) 1 = 1.
Proof.
  intros Hoff. rewrite wrap_small by (split; rewrite Z.shiftl_1_l; [apply Z.pow_nonneg; lia|apply Z.pow_lt_mono_r; lia]).
  change 1 with (Z.ones 1) at 3. rewrite Z.land_ones by lia. change (2 ^ 1) with 2. rewrite <- Z.bit0_mod, Z.shiftr_spec, Z.lor_spec, Z.shiftl_1_l, Z.pow2_bits_true by lia. now rewrite orb_true_r.
Qed.

(** ** Sums over a list that changes at one place *)

Lemma sum_insert {A} (f : A -> nat) (l : list A) i x y : l !! i = Some x ->
  (sum_list_with f (<[i := y]> l) + f x = sum_list_with f l + f y)%nat.
Proof.
  revert i. induction l as [|a l IH]; intros [|i] E; try discriminate E; [cbn in *; simplify_eq; lia|]. specialize (IH i E).
  change (sum_list_with f (<[S i := y]> (a :: l))) with (f a + sum_list_with f (<[i := y]> l))%nat. cbn [sum_list_with]. lia.
Qed.
Lemma sum_delete {A} (f : A -> nat) (l : list A) i x : l !! i = Some x -> (sum_list_with f (delete i l) + f x = sum_list_with f l)%nat.
Proof.
  revert i. induction l as [|a l IH]; intros [|i] E; try discriminate E; [cbn in *; simplify_eq; lia|]. specialize (IH i E).
  change (sum_list_with f (delete (S i) (a :: l))) with (f a + sum_list_with f (delete i l))%nat. cbn [sum_list_with]. lia.
Qed.

Lemma alter_at {A} (f : A -> A) (l : list A) i x : l !! i = Some x -> alter f i l = <[i := f x]> l.
Proof. revert i. induction l as [|a l IH]; intros [|i] E; try discriminate E; cbn in *; [congruence|]. f_equal. now apply IH. Qed.
