(* ===== verification/LockWord.v ===== *)
(** * The transaction-id word of a tuple

    [TwoPLHelper] (protocol/TwoPL/TwoPLHelper.h) and [TwoPLPashaHelper]
    (protocol/TwoPLPasha/TwoPLPashaHelper.h) keep a tuple's version and its
    reader-writer lock in one [uint64_t]:

      [write lock bit | read lock count | sequence number].

    The two classes have the same functions and different offsets, so the
    functions are defined once over a [LockLayout], with one instance per
    class.  The word is given its meaning by [view] (reader count, writer
    flag, sequence number); the lemmas here say what each bit operation does
    to the three components, and that a word is determined by its view. *)

From S2P Require Import Prelude.

(** The constants of the two helper classes, and the facts about them that
    the bit operations rely on. *)
Class LockLayout := {
  LOCK_BIT_OFFSET : Z;
  LOCK_BIT_MASK : Z;
  READ_LOCK_BIT_OFFSET : Z;
  READ_LOCK_BIT_MASK : Z;
  WRITE_LOCK_BIT_OFFSET : Z;
  WRITE_LOCK_BIT_MASK : Z;
  READ_LOCK_BITS : Z;
  READ_LOCK_BITS_pos : 0 < READ_LOCK_BITS;
  READ_LOCK_BIT_OFFSET_pos : 0 < READ_LOCK_BIT_OFFSET;
  READ_LOCK_BIT_MASK_eq : READ_LOCK_BIT_MASK = Z.ones READ_LOCK_BITS;
  WRITE_LOCK_BIT_OFFSET_eq : WRITE_LOCK_BIT_OFFSET = READ_LOCK_BIT_OFFSET + READ_LOCK_BITS;
  WRITE_LOCK_BIT_OFFSET_top : WRITE_LOCK_BIT_OFFSET = 63;
  WRITE_LOCK_BIT_MASK_eq : WRITE_LOCK_BIT_MASK = 1;
  LOCK_BIT_OFFSET_eq : LOCK_BIT_OFFSET = READ_LOCK_BIT_OFFSET;
  LOCK_BIT_MASK_eq : LOCK_BIT_MASK = Z.ones (READ_LOCK_BITS + 1)
}.

(** The constants of [TwoPLHelper]: nine reader bits above a 54-bit sequence number. *)
Program Definition twopl_layout : LockLayout := {|
  LOCK_BIT_OFFSET := 54; LOCK_BIT_MASK := 0x3ff;
  READ_LOCK_BIT_OFFSET := 54; READ_LOCK_BIT_MASK := 0x1ff;
  WRITE_LOCK_BIT_OFFSET := 63; WRITE_LOCK_BIT_MASK := 0x1;
  READ_LOCK_BITS := 9
|}.
Solve Obligations with (lia || reflexivity).

(** The constants of [TwoPLPashaHelper]: five reader bits above a 58-bit sequence number. *)
Program Definition pasha_layout : LockLayout := {|
  LOCK_BIT_OFFSET := 58; LOCK_BIT_MASK := 0x3f;
  READ_LOCK_BIT_OFFSET := 58; READ_LOCK_BIT_MASK := 0x1f;
  WRITE_LOCK_BIT_OFFSET := 63; WRITE_LOCK_BIT_MASK := 0x1;
  READ_LOCK_BITS := 5
|}.
Solve Obligations with (lia || reflexivity).

Section lock_word.
Context {L : LockLayout}.

(** ** The static functions on the word *)

Definition is_read_locked (value : Z) : bool :=
  negb (Z.land value (Z.shiftl READ_LOCK_BIT_MASK READ_LOCK_BIT_OFFSET) =? 0).

Definition is_write_locked (value : Z) : bool :=
  negb (Z.land value (Z.shiftl WRITE_LOCK_BIT_MASK WRITE_LOCK_BIT_OFFSET) =? 0).

Definition read_lock_num (value : Z) : Z :=
  Z.land (Z.shiftr value READ_LOCK_BIT_OFFSET) READ_LOCK_BIT_MASK.

Definition read_lock_max : Z := READ_LOCK_BIT_MASK.

Definition remove_lock_bit (value : Z) : Z :=
  Z.land value (not64 (Z.shiftl LOCK_BIT_MASK LOCK_BIT_OFFSET)).

Definition remove_read_lock_bit (value : Z) : Z :=
  Z.land value (not64 (Z.shiftl READ_LOCK_BIT_MASK READ_LOCK_BIT_OFFSET)).

Definition remove_write_lock_bit (value : Z) : Z :=
  Z.land value (not64 (Z.shiftl WRITE_LOCK_BIT_MASK WRITE_LOCK_BIT_OFFSET)).

(** [value &= ~mask; value += reader_count << off] *)
Definition set_read_lock_num (value reader_count : Z) : Z :=
  wrap 64 (Z.land value (not64 (Z.shiftl READ_LOCK_BIT_MASK READ_LOCK_BIT_OFFSET))
           + wrap 64 (Z.shiftl reader_count READ_LOCK_BIT_OFFSET)).

Definition set_write_lock_bit (value : Z) : Z :=
  Z.lor value (Z.shiftl WRITE_LOCK_BIT_MASK WRITE_LOCK_BIT_OFFSET).

Definition clear_write_lock_bit (value : Z) : Z :=
  Z.land value (not64 (Z.shiftl WRITE_LOCK_BIT_MASK WRITE_LOCK_BIT_OFFSET)).

(** The arithmetic of the lock operations:
    [old_value + (1ull << READ_LOCK_BIT_OFFSET)] and so on. *)
Definition add_reader (old_value : Z) : Z :=
  wrap 64 (old_value + Z.shiftl 1 READ_LOCK_BIT_OFFSET).

Definition sub_reader (old_value : Z) : Z :=
  wrap 64 (old_value - Z.shiftl 1 READ_LOCK_BIT_OFFSET).

Definition add_writer (old_value : Z) : Z :=
  wrap 64 (old_value + Z.shiftl WRITE_LOCK_BIT_MASK WRITE_LOCK_BIT_OFFSET).

Definition sub_writer (old_value : Z) : Z :=
  wrap 64 (old_value - Z.shiftl 1 WRITE_LOCK_BIT_OFFSET).
End lock_word.

(** ** The meaning of a word *)

Record rwlock := RW { readers : Z; writer : bool; seq_no : Z }.

#[export] Instance rwlock_eq_dec : EqDecision rwlock.
Proof. solve_decision. Defined.

Section view.
Context {L : LockLayout}.
#[local] Abbreviation ro := READ_LOCK_BIT_OFFSET.
#[local] Abbreviation rb := READ_LOCK_BITS.

Definition view (w : Z) : rwlock :=
  RW (read_lock_num w) (is_write_locked w) (remove_lock_bit w).

(** A reader-writer lock that a word can represent. *)
Definition rw_ok (l : rwlock) : Prop :=
  fits rb (readers l) /\ fits ro (seq_no l).

(** The specification of the lock: any number of readers up to the maximum,
    or one writer. *)
Definition exclusive (l : rwlock) : Prop := writer l = true -> readers l = 0.

Definition encode (l : rwlock) : Z :=
  setf 63 1 (Z.b2z (writer l)) (setf ro rb (readers l) (seq_no l)).

Lemma exclusive_readers r s : exclusive (RW r false s).
Proof. intros H. discriminate H. Qed.

Lemma exclusive_no_readers b s : exclusive (RW 0 b s).
Proof. intros _. reflexivity. Qed.

Lemma layout_facts :
  0 < rb /\ 0 < ro /\ ro + rb = 63 /\ WRITE_LOCK_BIT_OFFSET = 63.
Proof.
  pose proof READ_LOCK_BITS_pos. pose proof READ_LOCK_BIT_OFFSET_pos.
  pose proof WRITE_LOCK_BIT_OFFSET_eq. pose proof WRITE_LOCK_BIT_OFFSET_top.
  lia.
Qed.

Ltac facts := pose proof layout_facts as (?Hrb & ?Hro & ?Hsum & ?Hw).

Lemma land_mask off n w :
  0 <= off -> 0 <= n -> Z.land w (Z.shiftl (Z.ones n) off) = Z.shiftl (getf off n w) off.
Proof.
  intros. unfold getf. apply Z.bits_inj'. intros i Hi. bits_rewrite.
  destruct (Z.leb_spec off i).
  - rewrite Z.shiftr_spec, testbit_ones by lia. repeat f_equal; lia.
  - rewrite !(Z.testbit_neg_r _ (i - off)) by lia. apply andb_false_r.
Qed.

Lemma land_mask_eqb off n w :
  0 <= off -> 0 <= n -> (Z.land w (Z.shiftl (Z.ones n) off) =? 0) = (getf off n w =? 0).
Proof.
  intros. rewrite land_mask, Z.shiftl_mul_pow2 by lia.
  pose proof (Z.pow_pos_nonneg 2 off).
  destruct (Z.eqb_spec (getf off n w) 0) as [->|Hn]; [easy|].
  apply Z.eqb_neq. nia.
Qed.

Lemma read_lock_num_getf w : read_lock_num w = getf ro rb w.
Proof. unfold read_lock_num, getf. now rewrite READ_LOCK_BIT_MASK_eq. Qed.

Lemma is_read_locked_getf w : is_read_locked w = negb (getf ro rb w =? 0).
Proof.
  facts. unfold is_read_locked. rewrite READ_LOCK_BIT_MASK_eq.
  now rewrite land_mask_eqb by lia.
Qed.

Lemma is_write_locked_getf w : is_write_locked w = negb (getf 63 1 w =? 0).
Proof.
  unfold is_write_locked. rewrite WRITE_LOCK_BIT_MASK_eq, WRITE_LOCK_BIT_OFFSET_top.
  change 1 with (Z.ones 1) at 1. now rewrite land_mask_eqb by lia.
Qed.

Lemma write_bit w : Z.b2z (is_write_locked w) = getf 63 1 w.
Proof.
  rewrite is_write_locked_getf, getf_bit_testbit by lia.
  now destruct (Z.testbit w 63).
Qed.

Lemma remove_lock_bit_setf w :
  fits 64 w -> remove_lock_bit w = setf ro (rb + 1) 0 w.
Proof.
  intros. unfold remove_lock_bit. rewrite LOCK_BIT_MASK_eq, LOCK_BIT_OFFSET_eq.
  now apply clear_setf.
Qed.

Lemma is_read_locked_num w : is_read_locked w = (0 <? read_lock_num w).
Proof.
  facts. rewrite is_read_locked_getf, read_lock_num_getf.
  pose proof (getf_fits ro rb w) as [? _]; [lia|].
  destruct (Z.eqb_spec (getf ro rb w) 0), (Z.ltb_spec 0 (getf ro rb w)); easy || lia.
Qed.

Lemma negb_b2z_eqb b : negb (Z.b2z b =? 0) = b.
Proof. now destruct b. Qed.

(** The view of a word in which one component was rewritten. *)
Lemma view_set_readers r w :
  fits 64 w -> fits rb r ->
  fits 64 (setf ro rb r w) /\
  view (setf ro rb r w) = RW r (is_write_locked w) (remove_lock_bit w).
Proof.
  facts. intros Hw64 Hr. assert (fits 64 (setf ro rb r w)) as Hf by (apply setf_fits; lia || easy).
  split; [easy|]. unfold view.
  rewrite read_lock_num_getf, !is_write_locked_getf, !remove_lock_bit_setf by easy.
  rewrite getf_setf, getf_setf_ne, setf_subsume by (try easy; try (unfold fits; lia); lia).
  easy.
Qed.

Lemma view_set_writer b w :
  fits 64 w ->
  fits 64 (setf 63 1 (Z.b2z b) w) /\
  view (setf 63 1 (Z.b2z b) w) = RW (read_lock_num w) b (remove_lock_bit w).
Proof.
  facts. intros Hw64. pose proof (b2z_fits b) as Hb.
  assert (fits 64 (setf 63 1 (Z.b2z b) w)) as Hf by (apply setf_fits; lia || easy).
  split; [easy|]. unfold view.
  rewrite !read_lock_num_getf, !is_write_locked_getf, !remove_lock_bit_setf by easy.
  rewrite getf_setf, getf_setf_ne, setf_subsume by (try easy; try (unfold fits; lia); lia).
  now rewrite negb_b2z_eqb.
Qed.

(** A word whose lock bits are all clear, such as a fresh version number. *)
Lemma view_seq s : fits ro s -> fits 64 s /\ view s = RW 0 false s.
Proof.
  facts. intros Hs.
  assert (fits 64 s) as H64.
  { unfold fits in *. pose proof (Z.pow_le_mono_r 2 ro 64). lia. }
  assert (forall off n, ro <= off -> 0 <= n -> getf off n s = 0) as H0.
  { intros off n Ho Hn. apply Z.bits_inj'. intros i Hi.
    rewrite getf_testbit, Z.bits_0, (fits_testbit ro s) by (easy || lia). apply andb_false_r. }
  split; [easy|]. unfold view.
  rewrite read_lock_num_getf, is_write_locked_getf, remove_lock_bit_setf, !H0 by (easy || lia).
  f_equal. rewrite <- (H0 ro (rb + 1)) by lia. apply setf_getf; lia.
Qed.

Lemma remove_lock_bit_fits w : fits 64 w -> fits ro (remove_lock_bit w).
Proof.
  facts. intros Hw64. rewrite remove_lock_bit_setf by easy.
  apply testbit_fits; [lia| |].
  - apply setf_fits; unfold fits in *; lia.
  - intros i Hi. rewrite setf_testbit by (unfold fits; lia).
    destruct (Z.leb_spec ro i), (Z.ltb_spec i (ro + (rb + 1))); cbn; try lia.
    + apply Z.bits_0.
    + apply (fits_testbit 64); easy || lia.
Qed.

Lemma view_ok w : fits 64 w -> rw_ok (view w).
Proof.
  facts. intros. split; cbn.
  - rewrite read_lock_num_getf. apply getf_fits; lia.
  - now apply remove_lock_bit_fits.
Qed.

Lemma view_encode l : rw_ok l -> fits 64 (encode l) /\ view (encode l) = l.
Proof.
  facts. intros [Hr Hs]. destruct l as [r b s]; cbn in *.
  destruct (view_seq s Hs) as [Hs64 Hvs].
  destruct (view_set_readers r s) as [H1 E1]; [easy..|].
  destruct (view_set_writer b (setf ro rb r s)) as [H2 E2]; [easy|].
  unfold encode; cbn. split; [easy|]. rewrite E2.
  unfold view in E1, Hvs. injection E1 as -> _ ->. injection Hvs as _ _ ->. easy.
Qed.

Lemma encode_view w : fits 64 w -> encode (view w) = w.
Proof.
  facts. intros Hw64. unfold encode, view; cbn.
  rewrite write_bit, read_lock_num_getf, remove_lock_bit_setf by easy.
  apply Z.bits_inj'. intros i Hi.
  rewrite !setf_testbit by (try apply getf_fits; unfold fits; lia).
  destruct (Z.leb_spec 63 i), (Z.ltb_spec i (63 + 1)), (Z.leb_spec ro i),
    (Z.ltb_spec i (ro + rb)), (Z.ltb_spec i (ro + (rb + 1))); cbn; try lia; try easy.
  all: try (rewrite getf_testbit by lia; rewrite (proj2 (Z.ltb_lt _ _)) by lia; cbn; f_equal; lia).
Qed.

Lemma view_inj w w' : fits 64 w -> fits 64 w' -> view w = view w' -> w = w'.
Proof. intros H H' E. now rewrite <- (encode_view w), <- (encode_view w'), E. Qed.

(** ** What the bit operations do to the view *)

Lemma view_add_reader w :
  fits 64 w -> read_lock_num w < read_lock_max ->
  fits 64 (add_reader w) /\
  view (add_reader w) = RW (read_lock_num w + 1) (is_write_locked w) (remove_lock_bit w).
Proof.
  facts. intros Hw64 Hmax.
  assert (fits rb (getf ro rb w + 1)) as Hr.
  { unfold read_lock_max in Hmax. rewrite READ_LOCK_BIT_MASK_eq, read_lock_num_getf, Z.ones_equiv in Hmax.
    pose proof (getf_fits ro rb w) as [? ?]; [lia|]. unfold fits in *. lia. }
  destruct (view_set_readers (getf ro rb w + 1) w) as [Hf E]; [easy..|].
  unfold add_reader. rewrite Z.shiftl_mul_pow2, (add_setf ro rb 1 w), wrap_small by (easy || lia).
  rewrite read_lock_num_getf. easy.
Qed.

Lemma view_sub_reader w :
  fits 64 w -> 0 < read_lock_num w ->
  fits 64 (sub_reader w) /\
  view (sub_reader w) = RW (read_lock_num w - 1) (is_write_locked w) (remove_lock_bit w).
Proof.
  facts. intros Hw64 Hpos. rewrite read_lock_num_getf in *.
  assert (fits rb (getf ro rb w + -1)) as Hr.
  { pose proof (getf_fits ro rb w) as [? ?]; [lia|]. unfold fits in *. lia. }
  destruct (view_set_readers (getf ro rb w + -1) w) as [Hf E]; [easy..|].
  unfold sub_reader. rewrite Z.shiftl_mul_pow2 by lia.
  replace (w - 1 * 2 ^ ro) with (w + -1 * 2 ^ ro) by lia.
  rewrite (add_setf ro rb (-1) w), wrap_small by (easy || lia). easy.
Qed.

Lemma view_add_writer w :
  fits 64 w -> is_write_locked w = false ->
  fits 64 (add_writer w) /\
  view (add_writer w) = RW (read_lock_num w) true (remove_lock_bit w).
Proof.
  intros Hw64 Hf. destruct (view_set_writer true w) as [H1 E1]; [easy|].
  pose proof (write_bit w) as Hb. rewrite Hf in Hb. cbn in Hb, H1, E1.
  unfold add_writer. rewrite WRITE_LOCK_BIT_MASK_eq, WRITE_LOCK_BIT_OFFSET_top.
  rewrite Z.shiftl_mul_pow2, (add_setf 63 1 1 w), wrap_small by (rewrite <- ?Hb; easy || lia).
  now rewrite <- Hb.
Qed.

Lemma view_sub_writer w :
  fits 64 w -> is_write_locked w = true ->
  fits 64 (sub_writer w) /\
  view (sub_writer w) = RW (read_lock_num w) false (remove_lock_bit w).
Proof.
  intros Hw64 Hf. destruct (view_set_writer false w) as [H1 E1]; [easy|].
  pose proof (write_bit w) as Hb. rewrite Hf in Hb. cbn in Hb, H1, E1.
  unfold sub_writer. rewrite WRITE_LOCK_BIT_OFFSET_top.
  replace (w - Z.shiftl 1 63) with (w + -1 * 2 ^ 63) by (rewrite Z.shiftl_mul_pow2; lia).
  rewrite (add_setf 63 1 (-1) w), wrap_small by (rewrite <- ?Hb; easy || lia).
  now rewrite <- Hb.
Qed.

Lemma view_set_read_lock_num w r :
  fits 64 w -> fits rb r ->
  fits 64 (set_read_lock_num w r) /\
  view (set_read_lock_num w r) = RW r (is_write_locked w) (remove_lock_bit w).
Proof.
  facts. intros Hw64 Hr. destruct (view_set_readers r w) as [Hf E]; [easy..|].
  unfold set_read_lock_num. rewrite READ_LOCK_BIT_MASK_eq, clear_setf by easy.
  assert (fits 64 (Z.shiftl r ro)) as Hs.
  { rewrite Z.shiftl_mul_pow2 by lia. unfold fits in *.
    replace 64 with (rb + ro + 1) by lia. rewrite !Z.pow_add_r by lia.
    pose proof (Z.pow_pos_nonneg 2 ro). nia. }
  rewrite (wrap_small 64 (Z.shiftl r ro)) by easy.
  rewrite Z.shiftl_mul_pow2 by lia.
  rewrite <- setf_add, wrap_small by (easy || lia). easy.
Qed.

Lemma set_write_lock_bit_setf w : set_write_lock_bit w = setf 63 1 1 w.
Proof.
  unfold set_write_lock_bit. rewrite WRITE_LOCK_BIT_MASK_eq, WRITE_LOCK_BIT_OFFSET_top.
  apply Z.bits_inj'. intros i Hi. rewrite setf_testbit, Z.lor_spec by (unfold fits; lia).
  rewrite Z.shiftl_spec by lia.
  destruct (Z.leb_spec 63 i), (Z.ltb_spec i (63 + 1)); cbn; try lia.
  - replace (i - 63) with 0 by lia. cbn. apply orb_true_r.
  - rewrite (Z.bits_above_log2 1) by (cbn; lia). apply orb_false_r.
  - rewrite (Z.testbit_neg_r 1) by lia. apply orb_false_r.
Qed.

Lemma view_set_write_lock_bit w :
  fits 64 w ->
  fits 64 (set_write_lock_bit w) /\
  view (set_write_lock_bit w) = RW (read_lock_num w) true (remove_lock_bit w).
Proof. intros. rewrite set_write_lock_bit_setf. now apply (view_set_writer true). Qed.

Lemma view_clear_write_lock_bit w :
  fits 64 w ->
  fits 64 (clear_write_lock_bit w) /\
  view (clear_write_lock_bit w) = RW (read_lock_num w) false (remove_lock_bit w).
Proof.
  intros. unfold clear_write_lock_bit.
  rewrite WRITE_LOCK_BIT_MASK_eq, WRITE_LOCK_BIT_OFFSET_top.
  change (Z.shiftl 1 63) with (Z.shiftl (Z.ones 1) 63). rewrite clear_setf by easy.
  now apply (view_set_writer false).
Qed.

(** ** Theorems *)

(** The version word is a faithful encoding of a reader-writer lock and a
    version.  Every lock state within the field widths has a 64-bit word from
    which it is read back, and every 64-bit word is determined by the reader
    count, write bit and version that the code reads from it: the fields do
    not overlap and leave no bit out. *)
Theorem lock_word_roundtrip :
  (forall l, rw_ok l -> fits 64 (encode l) /\ view (encode l) = l) /\
  (forall w, fits 64 w -> encode (view w) = w).
Proof using Type. split; [exact view_encode|exact encode_view]. Qed.

(** The lock arithmetic stays in its field.  Below the maximum, adding
    [1 << READ_LOCK_BIT_OFFSET] counts one more reader; above zero,
    subtracting it counts one less; adding and subtracting the write bit
    takes and frees the write lock.  Nothing else changes, and no carry or
    borrow leaves the field or the word. *)
Theorem lock_word_operations w :
  fits 64 w ->
  let l := view w in
  (readers l < read_lock_max ->
    fits 64 (add_reader w) /\ view (add_reader w) = RW (readers l + 1) (writer l) (seq_no l)) /\
  (0 < readers l ->
    fits 64 (sub_reader w) /\ view (sub_reader w) = RW (readers l - 1) (writer l) (seq_no l)) /\
  (writer l = false ->
    fits 64 (add_writer w) /\ view (add_writer w) = RW (readers l) true (seq_no l)) /\
  (writer l = true ->
    fits 64 (sub_writer w) /\ view (sub_writer w) = RW (readers l) false (seq_no l)).
Proof using Type.
  intros Hw. split; [|split; [|split]]; intros H.
  - exact (view_add_reader w Hw H).
  - exact (view_sub_reader w Hw H).
  - exact (view_add_writer w Hw H).
  - exact (view_sub_writer w Hw H).
Qed.
End view.

(** Two readers of version 7, in the layout of [TwoPLHelper]. *)
Lemma lock_word_operations_witness :
  view (L := twopl_layout) (add_reader (L := twopl_layout) (2 * 2 ^ 54 + 7)) = RW 3 false 7.
Proof.
  assert (fits 64 (2 * 2 ^ 54 + 7)) as Hf by (unfold fits; lia).
  refine (proj2 (proj1 (lock_word_operations (L := twopl_layout) _ Hf) _)). vm_compute. reflexivity.
Defined.
