(* ===== verification/RWLock.v ===== *)
(** * The lock table that the protocols promise to transactions

    [LockTable] is the interface between an implementation of tuple locks
    (the helper classes) and the transactions that use them: a state that has
    for every key an abstract reader count, writer flag and value, operations
    of six kinds on one key each, and the effect that each kind has on the key
    it is about (and on no other key).  The clients are modelled against the
    interface: [sys_step] interleaves the operations of any number of clients
    on any keys, and [reachable_exclusive] (mutual exclusion),
    [reachable_counted] (the counters are exact) and [holding_stable]
    (repeatable reads) are proved for every implementation. *)

From stdpp Require Import functions.
From S2P Require Import Prelude.

Inductive mode := Rd | Wr.

#[export] Instance mode_eq_dec : EqDecision mode.
Proof. solve_decision. Defined.

Inductive op_kind := AcqR | AcqW | RelR | RelW | Update | Internal.

(** What a lock operation may be called on: a client only releases what is held. *)
Definition lock_pre (k : op_kind) (r : Z) (w : bool) : Prop :=
  match k with
  | RelR => 0 < r /\ w = false
  | RelW | Update => w = true
  | _ => True
  end.

(** The effect of an operation that reported [b] on the reader count and the
    writer flag. *)
Definition lock_effect (k : op_kind) (b : bool) (r : Z) (w : bool) (r' : Z) (w' : bool) : Prop :=
  match k with
  | AcqR => if b then w = false /\ r' = r + 1 /\ w' = false else r' = r /\ w' = w
  | AcqW => if b then w = false /\ r = 0 /\ r' = 0 /\ w' = true else r' = r /\ w' = w
  | RelR => b = true /\ r' = r - 1 /\ w' = w
  | RelW => b = true /\ r' = r /\ w' = false
  | Update | Internal => r' = r /\ w' = w
  end.

Class LockTable := {
  lstate : Type;
  lkey : Type;
  lkey_eq_dec :: EqDecision lkey;
  lop : Type;
  lval : Type;
  lkey_of : lop -> lkey;
  lkind : lop -> op_kind;
  (** An operation reports whether it succeeded and the value it read, if any. *)
  lexec : lop -> M lstate (bool * option lval);
  linv : lstate -> Prop;
  lreaders : lkey -> lstate -> Z;
  lwriter : lkey -> lstate -> bool;
  lvalue : lkey -> lstate -> option lval;
  lexec_law s o b v s' :
    linv s -> lock_pre (lkind o) (lreaders (lkey_of o) s) (lwriter (lkey_of o) s) ->
    lexec o s = Ret (b, v) s' ->
    linv s' /\
    lock_effect (lkind o) b (lreaders (lkey_of o) s) (lwriter (lkey_of o) s)
      (lreaders (lkey_of o) s') (lwriter (lkey_of o) s') /\
    (lkind o <> Update -> lvalue (lkey_of o) s' = lvalue (lkey_of o) s) /\
    (forall x, v = Some x -> lvalue (lkey_of o) s = Some x) /\
    (forall k, k <> lkey_of o ->
      lreaders k s' = lreaders k s /\ lwriter k s' = lwriter k s /\ lvalue k s' = lvalue k s)
}.

(** ** Counting the locks on one key *)

Section counting.
Context {C : Type} `{Countable C}.
Implicit Types h : gmap C mode.

Definition read_holders h : gmap C mode :=
  filter (fun kv => kv.2 = Rd) h.

(** The abstract counters describe the clients' locks, and a writer is alone. *)
Definition counted_rw (r : Z) (w : bool) h : Prop :=
  r = Z.of_nat (size (read_holders h)) /\
  (w = true <-> exists c, h !! c = Some Wr) /\
  (forall c c', h !! c = Some Wr -> is_Some (h !! c') -> c = c').

Lemma read_holders_Rd h c : h !! c = Some Rd -> read_holders h !! c = Some Rd.
Proof. intros. now apply map_lookup_filter_Some. Qed.

Lemma read_holders_insert_Rd h c :
  h !! c = None -> size (read_holders (<[c := Rd]> h)) = S (size (read_holders h)).
Proof.
  intros Hc. unfold read_holders. rewrite map_filter_insert_True by easy.
  apply map_size_insert_None. rewrite map_lookup_filter_None. now left.
Qed.

Lemma read_holders_pos h c : h !! c = Some Rd -> (0 < size (read_holders h))%nat.
Proof.
  intros Hc%read_holders_Rd. apply Nat.neq_0_lt_0. intros H0%map_size_empty_inv.
  now rewrite H0 in Hc.
Qed.

Lemma read_holders_delete_Rd h c :
  h !! c = Some Rd -> S (size (read_holders (delete c h))) = size (read_holders h).
Proof.
  intros Hc. pose proof (read_holders_pos h c Hc). unfold read_holders in *.
  rewrite map_filter_delete, map_size_delete_Some by (eexists; now apply read_holders_Rd).
  lia.
Qed.

Lemma no_readers_empty h :
  size (read_holders h) = 0%nat -> (~ exists c, h !! c = Some Wr) -> h = ∅.
Proof.
  intros Hr Hw. apply map_empty. intros i.
  destruct (h !! i) as [[]|] eqn:E; [|naive_solver|easy].
  apply read_holders_pos in E. lia.
Qed.

Lemma counted_acquire_read r w h c r' w' :
  counted_rw r w h -> h !! c = None -> lock_effect AcqR true r w r' w' ->
  counted_rw r' w' (<[c := Rd]> h).
Proof.
  intros (Hr & Hw & He) Hc (-> & -> & ->).
  assert (~ exists d, h !! d = Some Wr) as Hnw by (rewrite <- Hw; easy).
  split_and!.
  - rewrite read_holders_insert_Rd by easy. lia.
  - split; [easy|]. intros [d Hd]. destruct (decide (c = d)); simplify_map_eq. destruct Hnw. eauto.
  - intros d d' Hd. destruct (decide (c = d)); simplify_map_eq. destruct Hnw. eauto.
Qed.

Lemma counted_acquire_write r w h c r' w' :
  counted_rw r w h -> h !! c = None -> lock_effect AcqW true r w r' w' ->
  counted_rw r' w' (<[c := Wr]> h).
Proof.
  intros (Hr & Hw & He) Hc (-> & -> & -> & ->).
  assert (h = ∅) as -> by (apply no_readers_empty; [lia|rewrite <- Hw; easy]).
  split_and!.
  - unfold read_holders. rewrite map_filter_insert_False by easy.
    now rewrite delete_empty, map_filter_empty, map_size_empty.
  - split; [|easy]. intros _. exists c. now simplify_map_eq.
  - intros d d' Hd [m Hd']. destruct (decide (c = d)), (decide (c = d')); simplify_map_eq; easy.
Qed.

Lemma counted_held_read r w h c : counted_rw r w h -> h !! c = Some Rd -> 0 < r /\ w = false.
Proof.
  intros (Hr & Hw & He) Hc. pose proof (read_holders_pos h c Hc). split; [lia|].
  destruct w; [|easy]. destruct (proj1 Hw eq_refl) as [d Hd].
  rewrite (He d c) in Hd by eauto. congruence.
Qed.

Lemma counted_held_write r w h c : counted_rw r w h -> h !! c = Some Wr -> w = true.
Proof. intros (Hr & Hw & He) Hc. apply Hw. eauto. Qed.

(** Nobody reads while a client holds the write lock. *)
Lemma writer_no_readers r w h c : counted_rw r w h -> h !! c = Some Wr -> r = 0.
Proof.
  intros (-> & _ & He) Hc.
  assert (read_holders h = ∅) as ->; [|now rewrite map_size_empty].
  apply map_empty. intros i. apply map_lookup_filter_None. right.
  intros m Hi Hm. cbn in Hm. subst m. rewrite <- (He c i) in Hi by eauto. congruence.
Qed.

Lemma counted_release_read r w h c r' w' :
  counted_rw r w h -> h !! c = Some Rd -> r' = r - 1 -> w' = w -> counted_rw r' w' (delete c h).
Proof.
  intros Hcnt Hc -> ->. destruct (counted_held_read r w h c Hcnt Hc) as [_ ->].
  destruct Hcnt as (Hr & Hw & He). split_and!.
  - pose proof (read_holders_delete_Rd h c Hc). lia.
  - split; [easy|]. intros [d [_ Hd]%lookup_delete_Some]. apply Hw. eauto.
  - intros d d' [_ Hd]%lookup_delete_Some [m [_ Hd']%lookup_delete_Some]. eauto.
Qed.

Lemma counted_release_write r w h c r' w' :
  counted_rw r w h -> h !! c = Some Wr -> r' = r -> w' = false -> counted_rw r' w' (delete c h).
Proof.
  intros Hcnt Hc -> ->. rewrite (writer_no_readers _ _ _ _ Hcnt Hc).
  destruct Hcnt as (_ & _ & He).
  assert (delete c h = ∅) as ->.
  { apply map_empty. intros i. apply lookup_delete_None.
    destruct (h !! i) eqn:Ei; [left; eauto|now right]. }
  split_and!.
  - unfold read_holders. now rewrite map_filter_empty, map_size_empty.
  - split; [easy|]. intros [d Hd]. easy.
  - intros d d' Hd. easy.
Qed.

End counting.

(** ** Interleaving the operations of many clients *)

Section system.
Context {O : LockTable}.

(** The table and, for each key, the locks the clients hold on it. *)
Record sys := Sys { s_obj : lstate; s_held : lkey -> gmap nat mode }.

(** The client and the key it writes, in a step that writes. *)
Definition label := option (nat * lkey).

Inductive sys_step : label -> sys -> sys -> Prop :=
| acquire_read s s' h c o v :
    lkind o = AcqR -> h (lkey_of o) !! c = None -> lexec o s = Ret (true, v) s' ->
    sys_step None (Sys s h) (Sys s' (<[lkey_of o := <[c := Rd]> (h (lkey_of o))]> h))
| acquire_write s s' h c o v :
    lkind o = AcqW -> h (lkey_of o) !! c = None -> lexec o s = Ret (true, v) s' ->
    sys_step None (Sys s h) (Sys s' (<[lkey_of o := <[c := Wr]> (h (lkey_of o))]> h))
| acquire_fail s s' h o v :
    lkind o = AcqR \/ lkind o = AcqW -> lexec o s = Ret (false, v) s' ->
    sys_step None (Sys s h) (Sys s' h)
| release_read s s' h c o b v :
    lkind o = RelR -> h (lkey_of o) !! c = Some Rd -> lexec o s = Ret (b, v) s' ->
    sys_step None (Sys s h) (Sys s' (<[lkey_of o := delete c (h (lkey_of o))]> h))
| release_write s s' h c o b v :
    lkind o = RelW -> h (lkey_of o) !! c = Some Wr -> lexec o s = Ret (b, v) s' ->
    sys_step None (Sys s h) (Sys s' (<[lkey_of o := delete c (h (lkey_of o))]> h))
| update s s' h c o b v :
    lkind o = Update -> h (lkey_of o) !! c = Some Wr -> lexec o s = Ret (b, v) s' ->
    sys_step (Some (c, lkey_of o)) (Sys s h) (Sys s' h)
| internal s s' h o b v :
    lkind o = Internal -> lexec o s = Ret (b, v) s' ->
    sys_step None (Sys s h) (Sys s' h).

Inductive reachable (s0 : lstate) : sys -> Prop :=
| reach_init : reachable s0 (Sys s0 (fun _ => ∅))
| reach_step l x y : reachable s0 x -> sys_step l x y -> reachable s0 y.

Definition counted (x : sys) : Prop :=
  linv (s_obj x) /\
  forall k, counted_rw (lreaders k (s_obj x)) (lwriter k (s_obj x)) (s_held x k).

(** An operation whose kind and precondition are known. *)
Lemma exec_kind s o kd b v s' :
  linv s -> lkind o = kd -> lock_pre kd (lreaders (lkey_of o) s) (lwriter (lkey_of o) s) ->
  lexec o s = Ret (b, v) s' ->
  linv s' /\
  lock_effect kd b (lreaders (lkey_of o) s) (lwriter (lkey_of o) s)
    (lreaders (lkey_of o) s') (lwriter (lkey_of o) s') /\
  (forall k, k <> lkey_of o -> lreaders k s' = lreaders k s /\ lwriter k s' = lwriter k s).
Proof.
  intros Hi <- Hp E. destruct (lexec_law s o b v s' Hi Hp E) as (? & ? & _ & _ & Hk).
  split_and!; try easy; naive_solver.
Qed.

(** A step changes the locks of one key only. *)
Lemma counted_update s s' h k0 h0 :
  linv s' -> counted (Sys s h) ->
  (forall k, k <> k0 -> lreaders k s' = lreaders k s /\ lwriter k s' = lwriter k s) ->
  counted_rw (lreaders k0 s') (lwriter k0 s') h0 -> counted (Sys s' (<[k0 := h0]> h)).
Proof.
  intros Hi [_ Hc] Hk H0. split; [exact Hi|]. intros k. cbn.
  destruct (decide (k = k0)) as [->|Hne].
  - now rewrite fn_lookup_insert.
  - rewrite fn_lookup_insert_ne by congruence. destruct (Hk k Hne) as [-> ->]. apply Hc.
Qed.

Lemma counted_same s s' h k0 :
  linv s' -> counted (Sys s h) ->
  (forall k, k <> k0 -> lreaders k s' = lreaders k s /\ lwriter k s' = lwriter k s) ->
  lreaders k0 s' = lreaders k0 s -> lwriter k0 s' = lwriter k0 s -> counted (Sys s' h).
Proof.
  intros Hi [_ Hc] Hk Er Ew. split; [exact Hi|]. intros k. cbn.
  destruct (decide (k = k0)) as [->|Hne]; [rewrite Er, Ew|destruct (Hk k Hne) as [-> ->]]; apply Hc.
Qed.

Lemma counted_step l x y : counted x -> sys_step l x y -> counted y.
Proof.
  intros Hcnt Hs. pose proof Hcnt as [Hi Hc].
  destruct Hs as [s s' h c o v Hk Hh E|s s' h c o v Hk Hh E|s s' h o v Hk E
                 |s s' h c o b v Hk Hh E|s s' h c o b v Hk Hh E|s s' h c o b v Hk Hh E
                 |s s' h o b v Hk E]; cbn in *; specialize (Hc (lkey_of o)).
  - destruct (exec_kind _ _ _ _ _ _ Hi Hk I E) as (Hi' & He & Hf).
    eapply counted_update; eauto using counted_acquire_read.
  - destruct (exec_kind _ _ _ _ _ _ Hi Hk I E) as (Hi' & He & Hf).
    eapply counted_update; eauto using counted_acquire_write.
  - destruct Hk as [Hk|Hk]; destruct (exec_kind _ _ _ _ _ _ Hi Hk I E) as (Hi' & [Er Ew] & Hf);
      eapply counted_same; eauto.
  - destruct (exec_kind _ _ _ _ _ _ Hi Hk (counted_held_read _ _ _ _ Hc Hh) E) as (Hi' & (_ & Er & Ew) & Hf).
    eapply counted_update; eauto using counted_release_read.
  - destruct (exec_kind _ _ _ _ _ _ Hi Hk (counted_held_write _ _ _ _ Hc Hh) E) as (Hi' & (_ & Er & Ew) & Hf).
    eapply counted_update; eauto using counted_release_write.
  - destruct (exec_kind _ _ _ _ _ _ Hi Hk (counted_held_write _ _ _ _ Hc Hh) E) as (Hi' & [Er Ew] & Hf).
    eapply counted_same; eauto.
  - destruct (exec_kind _ _ _ _ _ _ Hi Hk I E) as (Hi' & [Er Ew] & Hf). eapply counted_same; eauto.
Qed.

Definition unlocked (s : lstate) : Prop := forall k, lreaders k s = 0 /\ lwriter k s = false.

Lemma reachable_counted s0 x : linv s0 -> unlocked s0 -> reachable s0 x -> counted x.
Proof.
  intros Hi Hu. induction 1 as [|l x y _ IH Hs]; [|eauto using counted_step].
  split; [exact Hi|]. intros k. cbn. destruct (Hu k) as [-> ->]. split_and!.
  - unfold read_holders. now rewrite map_filter_empty.
  - split; [easy|]. now intros [c ?].
  - easy.
Qed.

(** Mutual exclusion: a client that holds the write lock on a key excludes
    every other client, whatever operations were interleaved before. *)
Lemma reachable_exclusive s0 x k c c' :
  linv s0 -> unlocked s0 -> reachable s0 x ->
  s_held x k !! c = Some Wr -> c <> c' -> s_held x k !! c' = None.
Proof.
  intros Hi Hu Hx Hc Hne. destruct (reachable_counted s0 x Hi Hu Hx) as [_ Hk].
  destruct (Hk k) as (_ & _ & He). destruct (s_held x k !! c') eqn:E; [|easy]. exfalso. eauto.
Qed.

(** The value of a key changes only in a step of a client that holds its
    write lock. *)
Lemma step_value l x y k :
  counted x -> sys_step l x y ->
  match l with
  | Some (c, k') => s_held x k' !! c = Some Wr /\ (k <> k' -> lvalue k (s_obj y) = lvalue k (s_obj x))
  | None => lvalue k (s_obj y) = lvalue k (s_obj x)
  end.
Proof.
  intros [Hi Hcnt] Hs.
  assert (forall o b v s', lexec o (s_obj x) = Ret (b, v) s' ->
    lock_pre (lkind o) (lreaders (lkey_of o) (s_obj x)) (lwriter (lkey_of o) (s_obj x)) ->
    (k = lkey_of o -> lkind o <> Update) -> lvalue k s' = lvalue k (s_obj x)) as Hv.
  { intros o b v s' E Hp Hk. destruct (lexec_law _ _ _ _ _ Hi Hp E) as (_ & _ & H & _ & Hf).
    destruct (decide (k = lkey_of o)) as [->|Hne]; [auto|now apply Hf]. }
  destruct Hs as [s s' h c o v Hk Hc E|s s' h c o v Hk Hc E|s s' h o v Hk E
                 |s s' h c o b v Hk Hc E|s s' h c o b v Hk Hc E|s s' h c o b v Hk Hc E
                 |s s' h o b v Hk E]; cbn in *; specialize (Hcnt (lkey_of o));
    try (eapply Hv; [exact E|rewrite Hk; easy|congruence]).
  - eapply Hv; [exact E|destruct Hk as [-> | ->]; easy|destruct Hk; congruence].
  - eapply Hv; [exact E|rewrite Hk; eapply counted_held_read; eauto|congruence].
  - eapply Hv; [exact E|rewrite Hk; eapply counted_held_write; eauto|congruence].
  - split; [easy|]. intros Hne. eapply Hv; [exact E|rewrite Hk; eapply counted_held_write; eauto|easy].
Qed.

(** A run in which client [c] keeps its lock on [k], with the clients that
    wrote [k]. *)
Inductive holding (c : nat) (k : lkey) : list nat -> sys -> sys -> Prop :=
| holding_nil x : holding c k [] x x
| holding_cons l ws x y z :
    is_Some (s_held x k !! c) -> sys_step l x y -> holding c k ws y z ->
    holding c k (match l with Some (d, k') => if decide (k' = k) then d :: ws else ws | None => ws end) x z.

(** Repeatable reads: while [c] holds its lock on [k], nobody else writes
    [k], so its value stays what it was unless [c] itself writes it. *)
Lemma holding_stable c k ws x y :
  counted x -> holding c k ws x y ->
  Forall (eq c) ws /\ (ws = [] -> lvalue k (s_obj y) = lvalue k (s_obj x)).
Proof.
  intros Hx Hh. induction Hh as [x|l ws x y z Hc Hs Hh IH]; [easy|].
  pose proof (step_value l x y k Hx Hs) as Hv.
  destruct (IH (counted_step l x y Hx Hs)) as [IH1 IH2].
  destruct l as [[d k']|]; [destruct (decide (k' = k)) as [->|Hne]|].
  - split; [|easy]. constructor; [|easy]. destruct Hx as [_ Hx]. destruct (Hx k) as (_ & _ & He).
    symmetry. now apply (He d c).
  - split; [easy|]. intros Hn. rewrite (IH2 Hn). now apply Hv.
  - split; [easy|]. intros Hn. now rewrite (IH2 Hn).
Qed.
End system.
