(* ===== verification/TwoPLHelper.v ===== *)
(** * Two-phase locking on a tuple (protocol/TwoPL/TwoPLHelper.h)

    The state is one tuple: its [TwoPLMetadata] (spin latch, transaction-id
    word, valid flag) and its bytes.  Every operation of [TwoPLHelper] is a
    step of the outcome monad over that state, with the latch taken and
    released where the code does it, so that a path that forgot to release it
    would show up as a state with [latch = true]. *)

From stdpp Require Import functions.
From Stdlib Require Import Init.Byte.
From S2P Require Import Prelude LockWord RWLock.

#[local] Existing Instance twopl_layout.

Module TwoPLHelper.

Record TwoPLMetadata := MkMeta { latch : bool; tid : Z; is_valid : bool }.

Record row := MkRow { lmeta : TwoPLMetadata; data : bytes }.

(** [TwoPLMetadata()] followed by the assignment of [TwoPLMetadataInit]. *)
Definition TwoPLMetadataInit (is_tuple_valid : bool) : TwoPLMetadata :=
  MkMeta false 0 is_tuple_valid.

Definition set_lmeta (f : TwoPLMetadata -> TwoPLMetadata) : M row unit :=
  modify (fun r => MkRow (f (lmeta r)) (data r)).

(** [pthread_spin_lock] and [pthread_spin_unlock] on the latch. *)
Definition lock : M row unit :=
  l ← gets lmeta;
  if latch l then spin else set_lmeta (fun l => MkMeta true (tid l) (is_valid l)).

Definition unlock : M row unit :=
  set_lmeta (fun l => MkMeta false (tid l) (is_valid l)).

Definition set_tid (v : Z) : M row unit :=
  set_lmeta (fun l => MkMeta (latch l) v (is_valid l)).

Definition read (dest : bytes) (size : nat) : M row (Z * bytes) :=
  lock;;
  l ← gets lmeta;
  CHECK (is_valid l);;
  src ← gets data;
  unlock;;
  mret (remove_lock_bit (tid l), memcpy dest src size).

Definition update (value : bytes) (value_size : nat) : M row unit :=
  lock;;
  l ← gets lmeta;
  CHECK (is_valid l);;
  modify (fun r => MkRow (lmeta r) (memcpy (data r) value value_size));;
  unlock.

(** The lock operations return the version that was read ([0] when the tuple
    is invalid) and set the [success] out-parameter. *)
Definition read_lock : M row (Z * bool) :=
  lock;;
  l ← gets lmeta;
  if negb (is_valid l) then unlock;; mret (remove_lock_bit 0, false)
  else
    let old_value := tid l in
    if is_write_locked old_value || (read_lock_num old_value =? read_lock_max)
    then unlock;; mret (remove_lock_bit old_value, false)
    else
      set_tid (add_reader old_value);;
      unlock;;
      mret (remove_lock_bit old_value, true).

Definition write_lock : M row (Z * bool) :=
  lock;;
  l ← gets lmeta;
  if negb (is_valid l) then unlock;; mret (remove_lock_bit 0, false)
  else
    let old_value := tid l in
    if is_read_locked old_value || is_write_locked old_value
    then unlock;; mret (remove_lock_bit old_value, false)
    else
      set_tid (add_writer old_value);;
      unlock;;
      mret (remove_lock_bit old_value, true).

Definition take_read_lock_and_read (dest : bytes) (size : nat) : M row (Z * bool * bytes) :=
  lock;;
  l ← gets lmeta;
  if negb (is_valid l) then unlock;; mret (remove_lock_bit 0, false, dest)
  else
    let old_value := tid l in
    if is_write_locked old_value || (read_lock_num old_value =? read_lock_max)
    then unlock;; mret (remove_lock_bit old_value, false, dest)
    else
      set_tid (add_reader old_value);;
      src ← gets data;
      unlock;;
      mret (remove_lock_bit old_value, true, memcpy dest src size).

Definition take_write_lock_and_read (dest : bytes) (size : nat) : M row (Z * bool * bytes) :=
  lock;;
  l ← gets lmeta;
  if negb (is_valid l) then unlock;; mret (remove_lock_bit 0, false, dest)
  else
    let old_value := tid l in
    if is_read_locked old_value || is_write_locked old_value
    then unlock;; mret (remove_lock_bit old_value, false, dest)
    else
      set_tid (add_writer old_value);;
      src ← gets data;
      unlock;;
      mret (remove_lock_bit old_value, true, memcpy dest src size).

(** The blocking [write_lock(meta)]: it retries until it succeeds, so run
    alone it either succeeds at the first attempt or waits for ever. *)
Definition write_lock_blocking : M row Z :=
  r ← write_lock;
  if r.2 : bool then mret r.1 else spin.

Definition read_lock_release : M row unit :=
  lock;;
  l ← gets lmeta;
  CHECK (is_valid l);;
  set_tid (sub_reader (tid l));;
  unlock.

Definition write_lock_release : M row unit :=
  lock;;
  l ← gets lmeta;
  CHECK (is_valid l);;
  set_tid (sub_writer (tid l));;
  unlock.

(** The overload that publishes the committed version. *)
Definition write_lock_release_new (new_value : Z) : M row unit :=
  lock;;
  l ← gets lmeta;
  CHECK (is_valid l);;
  set_tid new_value;;
  unlock.

Definition mark_tuple_as_valid : M row unit :=
  lock;;
  l ← gets lmeta;
  CHECK (negb (is_valid l));;
  set_lmeta (fun l => MkMeta (latch l) (tid l) true);;
  unlock.

(** ** Well-formed tuples and the abstraction to a reader-writer lock *)

Definition lock_of (r : row) : rwlock := view (tid (lmeta r)).

(** The word is 64 bits wide, the latch is free, and a writer excludes readers. *)
Definition wf (r : row) : Prop :=
  latch (lmeta r) = false /\ fits 64 (tid (lmeta r)) /\ exclusive (lock_of r).

Definition can_read (r : row) : bool :=
  is_valid (lmeta r) && negb (writer (lock_of r)) && negb (readers (lock_of r) =? read_lock_max).

Definition can_write (r : row) : bool :=
  is_valid (lmeta r) && (readers (lock_of r) =? 0) && negb (writer (lock_of r)).

(** The tuple with another lock word. *)
Definition with_tid (r : row) (v : Z) : row :=
  MkRow (MkMeta false v (is_valid (lmeta r))) (data r).

Definition version_seen (r : row) : Z :=
  if is_valid (lmeta r) then seq_no (lock_of r) else 0.

Lemma remove_lock_bit_0 : remove_lock_bit 0 = 0.
Proof. reflexivity. Qed.

Lemma wf_latch r : wf r -> exists t v d, r = MkRow (MkMeta false t v) d /\ fits 64 t /\
  exclusive (view t).
Proof.
  intros (Hl & Hf & He). destruct r as [[l t v] d]; cbn in *. subst. eauto 10.
Qed.

Lemma read_locked_neg t : is_read_locked t = negb (read_lock_num t =? 0).
Proof. now rewrite is_read_locked_getf, read_lock_num_getf. Qed.

(** Every branch of the lock operations as one equation. *)
Lemma read_lock_eq r :
  wf r ->
  read_lock r = Ret (version_seen r, can_read r)
    (if can_read r then with_tid r (add_reader (tid (lmeta r))) else r).
Proof.
  intros (t & v & d & -> & Ht & He)%wf_latch. unfold can_read, version_seen, lock_of, with_tid.
  cbv [read_lock lock unlock set_tid set_lmeta]. mrun. destruct v; cbn; [|easy].
  destruct (is_write_locked t); cbn; [easy|]. now destruct (_ =? _).
Qed.

Lemma write_lock_eq r :
  wf r ->
  write_lock r = Ret (version_seen r, can_write r)
    (if can_write r then with_tid r (add_writer (tid (lmeta r))) else r).
Proof.
  intros (t & v & d & -> & Ht & He)%wf_latch. unfold can_write, version_seen, lock_of, with_tid.
  cbv [write_lock lock unlock set_tid set_lmeta]. mrun. destruct v; cbn; [|easy].
  rewrite read_locked_neg. destruct (_ =? _); cbn; [|easy]. now destruct (is_write_locked t).
Qed.

Lemma take_read_eq dest size r :
  wf r ->
  take_read_lock_and_read dest size r =
    Ret (version_seen r, can_read r, if can_read r then memcpy dest (data r) size else dest)
      (if can_read r then with_tid r (add_reader (tid (lmeta r))) else r).
Proof.
  intros (t & v & d & -> & Ht & He)%wf_latch. unfold can_read, version_seen, lock_of, with_tid.
  cbv [take_read_lock_and_read lock unlock set_tid set_lmeta]. mrun. destruct v; cbn; [|easy].
  destruct (is_write_locked t); cbn; [easy|]. now destruct (_ =? _).
Qed.

Lemma take_write_eq dest size r :
  wf r ->
  take_write_lock_and_read dest size r =
    Ret (version_seen r, can_write r, if can_write r then memcpy dest (data r) size else dest)
      (if can_write r then with_tid r (add_writer (tid (lmeta r))) else r).
Proof.
  intros (t & v & d & -> & Ht & He)%wf_latch. unfold can_write, version_seen, lock_of, with_tid.
  cbv [take_write_lock_and_read lock unlock set_tid set_lmeta]. mrun. destruct v; cbn; [|easy].
  rewrite read_locked_neg. destruct (_ =? _); cbn; [|easy]. now destruct (is_write_locked t).
Qed.

(** ** The operations refine the abstract lock *)

Lemma wf_with_tid r v l :
  fits 64 v -> view v = l -> exclusive l -> wf (with_tid r v).
Proof. unfold wf, lock_of, with_tid; cbn. intros ? <- ?. easy. Qed.

Lemma acquire_read_wf r :
  wf r -> can_read r = true ->
  let r' := with_tid r (add_reader (tid (lmeta r))) in
  wf r' /\ lock_of r' = RW (readers (lock_of r) + 1) false (seq_no (lock_of r)) /\
  writer (lock_of r) = false.
Proof.
  intros (Hl & Hf & He) Hc. unfold can_read in Hc.
  apply andb_prop in Hc as [[Hv Hw]%andb_prop Hm].
  apply negb_true_iff in Hw. apply negb_true_iff, Z.eqb_neq in Hm.
  unfold lock_of in *; cbn in Hw, Hm |- *.
  pose proof (view_ok _ Hf) as [Hr _]; cbn in Hr.
  destruct (view_add_reader (tid (lmeta r))) as [H1 E1]; [easy| |].
  { unfold read_lock_max in *. unfold fits in Hr. cbn in *. lia. }
  rewrite Hw in E1. split_and!; [|easy..].
  apply (wf_with_tid _ _ _ H1 E1). auto using exclusive_readers, exclusive_no_readers.
Qed.

Lemma acquire_write_wf r :
  wf r -> can_write r = true ->
  let r' := with_tid r (add_writer (tid (lmeta r))) in
  wf r' /\ lock_of r' = RW 0 true (seq_no (lock_of r)) /\
  writer (lock_of r) = false /\ readers (lock_of r) = 0.
Proof.
  intros (Hl & Hf & He) Hc. unfold can_write in Hc.
  apply andb_prop in Hc as [[Hv Hr]%andb_prop Hw].
  apply negb_true_iff in Hw. apply Z.eqb_eq in Hr.
  unfold lock_of in *; cbn in Hw, Hr |- *.
  destruct (view_add_writer (tid (lmeta r))) as [H1 E1]; [easy..|].
  rewrite Hr in E1. split_and!; [|easy..].
  apply (wf_with_tid _ _ _ H1 E1). auto using exclusive_readers, exclusive_no_readers.
Qed.

Lemma read_lock_release_eq r :
  wf r -> is_valid (lmeta r) = true -> 0 < readers (lock_of r) ->
  exists r', read_lock_release r = Ret tt r' /\ wf r' /\ data r' = data r /\
    lock_of r' = RW (readers (lock_of r) - 1) false (seq_no (lock_of r)).
Proof.
  intros (t & v & d & -> & Ht & He)%wf_latch Hv Hr. cbn in Hv; subst v.
  unfold lock_of in *; cbn in Hr |- *.
  destruct (view_sub_reader t) as [H1 E1]; [easy..|].
  assert (is_write_locked t = false) as Hw.
  { destruct (is_write_locked t) eqn:E; [|easy]. specialize (He E). cbn in He. lia. }
  rewrite Hw in E1.
  exists (with_tid (MkRow (MkMeta false t true) d) (sub_reader t)). split_and!; [easy| |easy|easy].
  apply (wf_with_tid _ _ _ H1 E1). auto using exclusive_readers, exclusive_no_readers.
Qed.

Lemma write_lock_release_eq r :
  wf r -> is_valid (lmeta r) = true -> writer (lock_of r) = true ->
  exists r', write_lock_release r = Ret tt r' /\ wf r' /\ data r' = data r /\
    lock_of r' = RW 0 false (seq_no (lock_of r)).
Proof.
  intros (t & v & d & -> & Ht & He)%wf_latch Hv Hw. cbn in Hv; subst v.
  unfold lock_of in *; cbn in Hw |- *.
  destruct (view_sub_writer t) as [H1 E1]; [easy..|].
  specialize (He Hw); cbn in He. rewrite He in E1.
  exists (with_tid (MkRow (MkMeta false t true) d) (sub_writer t)). split_and!; [easy| |easy|easy].
  apply (wf_with_tid _ _ _ H1 E1). auto using exclusive_readers, exclusive_no_readers.
Qed.

Lemma write_lock_release_new_eq s r :
  wf r -> is_valid (lmeta r) = true -> fits 54 s ->
  exists r', write_lock_release_new s r = Ret tt r' /\ wf r' /\ data r' = data r /\
    lock_of r' = RW 0 false s.
Proof.
  intros (t & v & d & -> & Ht & He)%wf_latch Hv Hs. cbn in Hv; subst v.
  destruct (view_seq (L := twopl_layout) s Hs) as [H1 E1].
  exists (with_tid (MkRow (MkMeta false t true) d) s). split_and!; [easy| |easy|easy].
  apply (wf_with_tid _ _ _ H1 E1). auto using exclusive_readers, exclusive_no_readers.
Qed.

Lemma update_eq value r :
  wf r -> is_valid (lmeta r) = true -> length value = length (data r) ->
  update value (length value) r = Ret tt (MkRow (lmeta r) value).
Proof.
  intros (t & v & d & -> & _)%wf_latch Hv Hl. cbn in Hv, Hl; subst v.
  cbv [update lock unlock set_lmeta]. mrun. now rewrite memcpy_full.
Qed.

Lemma read_eq dest r :
  wf r -> is_valid (lmeta r) = true -> length dest = length (data r) ->
  read dest (length dest) r = Ret (seq_no (lock_of r), data r) r.
Proof.
  intros (t & v & d & -> & _)%wf_latch Hv Hl. cbn in Hv, Hl; subst v.
  cbv [read lock unlock set_lmeta]. mrun. now rewrite memcpy_full.
Qed.

(** ** The lock object that the protocol hands to transactions *)

Inductive op :=
| op_read_lock
| op_write_lock
| op_take_read_lock_and_read (dest : bytes)
| op_take_write_lock_and_read (dest : bytes)
| op_read_lock_release
| op_write_lock_release
| op_write_lock_release_new (s : Z) (Hs : fits 54 s)
| op_update (value : bytes).

Definition op_of_kind (o : op) : op_kind :=
  match o with
  | op_read_lock | op_take_read_lock_and_read _ => AcqR
  | op_write_lock | op_take_write_lock_and_read _ => AcqW
  | op_read_lock_release => RelR
  | op_write_lock_release | op_write_lock_release_new _ _ => RelW
  | op_update _ => Update
  end.

Definition exec (o : op) : M row (bool * option bytes) :=
  match o with
  | op_read_lock => r ← read_lock; mret (r.2, None)
  | op_write_lock => r ← write_lock; mret (r.2, None)
  | op_take_read_lock_and_read dest =>
      r ← take_read_lock_and_read dest (length dest);
      mret (r.1.2, if r.1.2 : bool then Some r.2 else None)
  | op_take_write_lock_and_read dest =>
      r ← take_write_lock_and_read dest (length dest);
      mret (r.1.2, if r.1.2 : bool then Some r.2 else None)
  | op_read_lock_release => read_lock_release;; mret (true, None)
  | op_write_lock_release => write_lock_release;; mret (true, None)
  | op_write_lock_release_new s _ => write_lock_release_new s;; mret (true, None)
  | op_update value => update value (length value);; mret (true, None)
  end.

(** A tuple of [size] bytes, used with buffers of that size. *)
Definition sized (size : nat) (r : row) : Prop := wf r /\ length (data r) = size.

Definition op_sized (size : nat) (o : op) : Prop :=
  match o with
  | op_take_read_lock_and_read b | op_take_write_lock_and_read b | op_update b => length b = size
  | _ => True
  end.

Lemma bind_Ret_inv {A B} (m : M row A) (f : A -> M row B) r b r' :
  (m ≫= f) r = Ret b r' -> exists a r1, m r = Ret a r1 /\ f a r1 = Ret b r'.
Proof. cbv [mbind M_bind]. destruct (m r); naive_solver. Qed.

(** The operations that start with [CHECK(lmeta->is_valid == true)] return
    only on valid tuples. *)
Lemma released_valid (m : M row unit) r r' :
  (forall t d, m (MkRow (MkMeta false t false) d) = Abort) ->
  wf r -> m r = Ret tt r' -> is_valid (lmeta r) = true.
Proof.
  intros Hm (t & v & d & -> & _)%wf_latch E. destruct v; [easy|]. rewrite Hm in E. discriminate E.
Qed.

Lemma exec_law size r o b v r' :
  sized size r -> op_sized size o ->
  lock_pre (op_of_kind o) (readers (lock_of r)) (writer (lock_of r)) ->
  exec o r = Ret (b, v) r' ->
  sized size r' /\
  lock_effect (op_of_kind o) b (readers (lock_of r)) (writer (lock_of r))
    (readers (lock_of r')) (writer (lock_of r')) /\
  (op_of_kind o <> Update -> data r' = data r) /\
  (forall x, v = Some x -> x = data r).
Proof.
  intros [Hw Hd] Ho Hp E. destruct o; cbn [exec op_of_kind op_sized lock_pre] in *;
    apply bind_Ret_inv in E as (a & r1 & E1 & E); injection E as <- <- <-.
  - rewrite read_lock_eq in E1 by easy. injection E1 as <- <-. cbn [fst snd lock_effect].
    destruct (can_read r) eqn:Hc; [|easy].
    destruct (acquire_read_wf r Hw Hc) as (? & -> & ->). easy.
  - rewrite write_lock_eq in E1 by easy. injection E1 as <- <-. cbn [fst snd lock_effect].
    destruct (can_write r) eqn:Hc; [|easy].
    destruct (acquire_write_wf r Hw Hc) as (? & -> & -> & ->). easy.
  - rewrite take_read_eq in E1 by easy. injection E1 as <- <-. cbn [fst snd lock_effect].
    destruct (can_read r) eqn:Hc; [|easy]. rewrite memcpy_full by congruence.
    destruct (acquire_read_wf r Hw Hc) as (? & -> & ->). split_and!; try easy. congruence.
  - rewrite take_write_eq in E1 by easy. injection E1 as <- <-. cbn [fst snd lock_effect].
    destruct (can_write r) eqn:Hc; [|easy]. rewrite memcpy_full by congruence.
    destruct (acquire_write_wf r Hw Hc) as (? & -> & -> & ->). split_and!; try easy. congruence.
  - destruct a. pose proof (released_valid read_lock_release r _ ltac:(reflexivity) Hw E1) as Hv.
    destruct (read_lock_release_eq r Hw Hv (proj1 Hp)) as (r2 & E2 & Hw' & Hd' & El).
    rewrite E1 in E2. injection E2 as <-. destruct Hp as [_ ->]. rewrite El. cbn [lock_effect].
    unfold sized. rewrite Hd'. easy.
  - destruct a. pose proof (released_valid write_lock_release r _ ltac:(reflexivity) Hw E1) as Hv.
    destruct (write_lock_release_eq r Hw Hv Hp) as (r2 & E2 & Hw' & Hd' & El).
    rewrite E1 in E2. injection E2 as <-. destruct Hw as (_ & _ & He).
    unfold sized. rewrite El, (He Hp), Hd'. easy.
  - destruct a. pose proof (released_valid (write_lock_release_new s) r _ ltac:(reflexivity) Hw E1) as Hv.
    destruct (write_lock_release_new_eq s r Hw Hv Hs) as (r2 & E2 & Hw' & Hd' & El).
    rewrite E1 in E2. injection E2 as <-. destruct Hw as (_ & _ & He).
    unfold sized. rewrite El, (He Hp), Hd'. easy.
  - destruct a. pose proof (released_valid (update value (length value)) r _ ltac:(reflexivity) Hw E1) as Hv.
    rewrite update_eq in E1 by congruence. injection E1 as <-. easy.
Qed.

(** ** A table of tuples

    Running an operation on the tuple of one key. *)
Definition on_row {A} (k : Z) (m : M row A) : M (gmap Z row) A := fun t =>
  match t !! k with
  | None => Fault
  | Some r =>
      match m r with
      | Ret a r' => Ret a (<[k := r']> t)
      | Spin => Spin
      | Abort => Abort
      | Fault => Fault
      end
  end.

Lemma on_row_inv {A} k (m : M row A) t a t' :
  on_row k m t = Ret a t' ->
  exists r r', t !! k = Some r /\ m r = Ret a r' /\ t' = <[k := r']> t.
Proof. unfold on_row. destruct (t !! k); [|easy]. destruct (m r) eqn:?; naive_solver. Qed.

Definition row_readers (k : Z) (t : gmap Z row) : Z :=
  from_option (fun r => readers (lock_of r)) 0 (t !! k).
Definition row_writer (k : Z) (t : gmap Z row) : bool :=
  from_option (fun r => writer (lock_of r)) false (t !! k).

(** Tuples of [size] bytes as a [LockTable]; the operations are those whose
    buffers have that size. *)
#[export] Program Instance lock_table (size : nat) : LockTable := {|
  lstate := gmap Z row;
  lkey := Z;
  lop := Z * { o : op | op_sized size o };
  lval := bytes;
  lkey_of o := o.1;
  lkind o := op_of_kind (`(o.2));
  lexec o := on_row o.1 (exec (`(o.2)));
  linv t := forall k r, t !! k = Some r -> sized size r;
  lreaders := row_readers;
  lwriter := row_writer;
  lvalue k t := data <$> t !! k
|}.
Next Obligation.
  intros size t [k [o Ho]] b v t' Hi Hp E. cbn in *.
  apply on_row_inv in E as (r & r' & Er & E & ->). unfold row_readers, row_writer in *.
  rewrite Er in *. cbn in *.
  destruct (exec_law size r o b v r' (Hi k r Er) Ho Hp E) as (H1 & H2 & H3 & H4).
  rewrite lookup_insert_eq. cbn. split_and!; try easy.
  - intros k' r1. destruct (decide (k = k')) as [<-|Hne].
    + rewrite lookup_insert_eq. intros [= <-]. exact H1.
    + rewrite lookup_insert_ne by exact Hne. apply Hi.
  - intros Hk. f_equal. auto.
  - intros x Hx. f_equal. symmetry. auto.
  - intros k' Hk. now rewrite lookup_insert_ne by congruence.
Qed.

(** A freshly inserted tuple is unlocked. *)
Definition fresh_row (valid : bool) (value : bytes) : row := MkRow (TwoPLMetadataInit valid) value.

Lemma fresh_sized valid value : sized (length value) (fresh_row valid value).
Proof. repeat split; easy. Qed.

Lemma fresh_table size (t : gmap Z row) :
  (forall k r, t !! k = Some r -> sized size r /\ readers (lock_of r) = 0 /\ writer (lock_of r) = false) ->
  @linv (lock_table size) t /\ unlocked (O := lock_table size) t.
Proof.
  intros Ht. split.
  - intros k r Hr. now apply Ht in Hr.
  - refine (_ : forall k : Z, row_readers k t = 0 /\ row_writer k t = false). intros k.
    unfold row_readers, row_writer. destruct (t !! k) as [r|] eqn:E; cbn.
    + destruct (Ht k r E) as (_ & H). exact H.
    + split; reflexivity.
Qed.

(** ** Theorems *)

(** C32: two-phase locking on one host.  Interleave the operations of any number
    of transactions on the tuples of a table whose tuples are unlocked.  A
    transaction that holds the write lock of a tuple excludes every other
    transaction, and the tuple's word counts its readers exactly. *)
Theorem twopl_mutual_exclusion size (t : gmap Z row) x k c c' :
  (forall k r, t !! k = Some r -> sized size r /\ readers (lock_of r) = 0 /\ writer (lock_of r) = false) ->
  reachable (O := lock_table size) t x ->
  s_held x k !! c = Some Wr -> c <> c' ->
  s_held x k !! c' = None /\ row_readers k (s_obj x) = 0.
Proof.
  intros Ht Hx Hc Hne.
  destruct (fresh_table size t Ht) as [Hi Hu].
  split; [eapply (reachable_exclusive (O := lock_table size)); eassumption|].
  destruct (reachable_counted (O := lock_table size) t x Hi Hu Hx) as [_ Hk].
  exact (writer_no_readers _ _ _ _ (Hk k) Hc).
Qed.

(** Repeatable reads on one host.  While a transaction keeps its lock on a
    tuple, only that transaction writes the tuple. *)
Theorem twopl_repeatable_reads size (t : gmap Z row) x y k c ws :
  (forall k r, t !! k = Some r -> sized size r /\ readers (lock_of r) = 0 /\ writer (lock_of r) = false) ->
  reachable (O := lock_table size) t x -> holding c k ws x y ->
  Forall (eq c) ws /\ (ws = [] -> data <$> s_obj y !! k = data <$> s_obj x !! k).
Proof.
  intros Ht Hx Hh. destruct (fresh_table size t Ht) as [Hi Hu].
  refine (holding_stable (O := lock_table size) c k ws x y _ Hh).
  exact (reachable_counted (O := lock_table size) t x Hi Hu Hx).
Qed.

(** ** A concrete table: tuple 5 holds two bytes; client 1 takes its write lock,
    then client 2 asks for it and is refused. *)
Definition table0 : gmap Z row := {[5 := fresh_row true [x61; x61]]}.

#[local] Abbreviation tbl := (lock_table 2).

Definition after {A} (m : M (gmap Z row) A) (t : gmap Z row) : gmap Z row :=
  match m t with Ret _ t' => t' | _ => t end.

Definition lock5 : @lop tbl := (5, exist _ op_write_lock I).
Definition table1 : gmap Z row := after (@lexec tbl lock5) table0.
Definition table2 : gmap Z row := after (@lexec tbl lock5) table1.
Definition client1 : @lkey tbl -> gmap nat mode :=
  <[@lkey_of tbl lock5 := <[1%nat := Wr]> ∅]> (fun _ => ∅).
Definition system1 : @sys tbl := Sys (O := tbl) table1 client1.
Definition system2 : @sys tbl := Sys (O := tbl) table2 client1.

Lemma table0_fresh k r :
  table0 !! k = Some r -> sized 2 r /\ readers (lock_of r) = 0 /\ writer (lock_of r) = false.
Proof.
  unfold table0. intros [<- <-]%lookup_singleton_Some.
  split; [exact (fresh_sized true [x61; x61])|]. now vm_compute.
Qed.

Lemma system1_reachable : reachable (O := tbl) table0 system1.
Proof.
  eapply reach_step; [apply reach_init|].
  eapply (acquire_write (O := tbl) table0 table1 (fun _ => ∅) 1%nat lock5 None); [reflexivity..|].
  vm_compute. reflexivity.
Qed.

Lemma system2_step : sys_step (O := tbl) None system1 system2.
Proof.
  eapply (acquire_fail (O := tbl) table1 table2 client1 lock5 None); [now right|].
  vm_compute. reflexivity.
Qed.

Lemma twopl_mutual_exclusion_witness : s_held system1 5 !! 2%nat = None /\ row_readers 5 table1 = 0.
Proof.
  apply (twopl_mutual_exclusion 2 table0 system1 5 1 2).
  - exact table0_fresh.
  - exact system1_reachable.
  - reflexivity.
  - discriminate.
Defined.

Lemma twopl_repeatable_reads_witness : data <$> table2 !! 5 = Some [x61; x61].
Proof.
  destruct (twopl_repeatable_reads 2 table0 system1 system2 5 1 [] table0_fresh system1_reachable)
    as [_ H].
  - eapply (holding_cons (O := tbl) 1 5 None []); [eexists; reflexivity|exact system2_step|].
    apply holding_nil.
  - etransitivity; [exact (H eq_refl)|]. vm_compute. reflexivity.
Defined.

End TwoPLHelper.
