(* ===== verification/SharedWord.v ===== *)
(** * The shared metadata word of a migrated tuple

    [TwoPLPashaMetadataShared] (protocol/TwoPLPasha/TwoPLPashaHelper.h) keeps
    everything the hosts share about a migrated tuple in one atomic 64-bit
    word in hardware-coherent CXL memory:

      63 latch | 62-47 software coherence bits | 46-42 readers | 41 writer |
      40 modified since moved in | 39 next key real | 38 previous key real |
      37 second chance | 36-0 offset of the tuple's data.

    The accessors are translated bit for bit; [sview] gives the word its
    meaning, and one lemma per accessor says which component it reads or
    writes.  Loads and stores of the word are indivisible, and every store is
    made with the latch held, so the accessors are functions of the word. *)

From S2P Require Import Prelude.

Module Shared.

#[local] Arguments Z.testbit : simpl never.

(** ** The constants *)

Definition LATCH_BIT_OFFSET : Z := 63.
Definition LATCH_BIT_MASK : Z := 0x1.
Definition SCC_DATA_OFFSET : Z := 0.
Definition SCC_DATA_MASK : Z := 0x1fffffffff.
Definition SCC_BITS_OFFSET : Z := 47.
Definition SCC_BITS_MASK : Z := 0xffff.
Definition READ_LOCK_BITS_OFFSET : Z := 42.
Definition READ_LOCK_BITS_MASK : Z := 0x1f.
Definition WRITE_LOCK_BIT_OFFSET : Z := 41.
Definition is_data_modified_since_moved_in_bit_index : Z := 40.
Definition scc_bits_base_index : Z := 47.
Definition is_next_key_real_bit_index : Z := 39.
Definition is_prev_key_real_bit_index : Z := 38.
Definition second_chance_bit_index : Z := 37.

(** ** The accessors *)

(** The constructor stores the offset of the data and clears everything else. *)
Definition TwoPLPashaMetadataShared (scc_data_cxl_offset : Z) : Z :=
  wrap 64 (Z.shiftl scc_data_cxl_offset SCC_DATA_OFFSET).

Definition set_bit (bit_index w : Z) : Z := Z.lor w (Z.shiftl 1 bit_index).
Definition clear_bit (bit_index w : Z) : Z := Z.land w (not64 (Z.shiftl 1 bit_index)).
Definition is_bit_set (bit_index w : Z) : bool := negb (Z.land w (Z.shiftl 1 bit_index) =? 0).

(** The two values [lock()] compares and stores, and what [unlock()] stores. *)
Definition is_latched (w : Z) : bool :=
  negb (Z.land w (Z.shiftl LATCH_BIT_MASK LATCH_BIT_OFFSET) =? 0).
Definition latched (w : Z) : Z := Z.lor w (Z.shiftl LATCH_BIT_MASK LATCH_BIT_OFFSET).
Definition unlatched (w : Z) : Z := Z.land w (not64 (Z.shiftl LATCH_BIT_MASK LATCH_BIT_OFFSET)).

Definition get_scc_data (w : Z) : Z := Z.land w (Z.shiftl SCC_DATA_MASK SCC_DATA_OFFSET).

Definition get_next_key_real_bit : Z -> bool := is_bit_set is_next_key_real_bit_index.
Definition set_next_key_real_bit : Z -> Z := set_bit is_next_key_real_bit_index.
Definition clear_next_key_real_bit : Z -> Z := clear_bit is_next_key_real_bit_index.
Definition get_prev_key_real_bit : Z -> bool := is_bit_set is_prev_key_real_bit_index.
Definition set_prev_key_real_bit : Z -> Z := set_bit is_prev_key_real_bit_index.
Definition clear_prev_key_real_bit : Z -> Z := clear_bit is_prev_key_real_bit_index.

Definition get_reader_count (w : Z) : Z :=
  Z.land (Z.shiftr w READ_LOCK_BITS_OFFSET) READ_LOCK_BITS_MASK.

Definition set_reader_count (reader_count w : Z) : Z :=
  wrap 64 (Z.land w (not64 (Z.shiftl READ_LOCK_BITS_MASK READ_LOCK_BITS_OFFSET))
           + wrap 64 (Z.shiftl reader_count READ_LOCK_BITS_OFFSET)).

Definition increase_reader_count (w : Z) : Z := wrap 64 (w + Z.shiftl 1 READ_LOCK_BITS_OFFSET).
Definition decrease_reader_count (w : Z) : Z := wrap 64 (w - Z.shiftl 1 READ_LOCK_BITS_OFFSET).
Definition get_reader_count_max : Z := READ_LOCK_BITS_MASK.

Definition is_write_locked : Z -> bool := is_bit_set WRITE_LOCK_BIT_OFFSET.
Definition set_write_locked : Z -> Z := set_bit WRITE_LOCK_BIT_OFFSET.
Definition clear_write_locked : Z -> Z := clear_bit WRITE_LOCK_BIT_OFFSET.

Definition is_data_modified_since_moved_in : Z -> bool :=
  is_bit_set is_data_modified_since_moved_in_bit_index.
Definition set_is_data_modified_since_moved_in : Z -> Z :=
  set_bit is_data_modified_since_moved_in_bit_index.
Definition clear_is_data_modified_since_moved_in : Z -> Z :=
  clear_bit is_data_modified_since_moved_in_bit_index.

Definition clear_all_scc_bits (w : Z) : Z :=
  Z.land w (not64 (Z.shiftl SCC_BITS_MASK SCC_BITS_OFFSET)).
Definition set_scc_bit (host_id w : Z) : Z := set_bit (host_id + SCC_BITS_OFFSET) w.

(** ** The meaning of the word *)

Record shared := MkShared {
  sh_latch : bool;
  sh_scc : Z;
  sh_readers : Z;
  sh_writer : bool;
  sh_modified : bool;
  sh_next : bool;
  sh_prev : bool;
  sh_second : bool;
  sh_off : Z
}.

Definition sview (w : Z) : shared :=
  MkShared (Z.testbit w 63) (getf 47 16 w) (getf 42 5 w) (Z.testbit w 41) (Z.testbit w 40)
    (Z.testbit w 39) (Z.testbit w 38) (Z.testbit w 37) (getf 0 37 w).

Definition sencode (s : shared) : Z :=
  setf 63 1 (Z.b2z (sh_latch s)) $ setf 47 16 (sh_scc s) $ setf 42 5 (sh_readers s) $
  setf 41 1 (Z.b2z (sh_writer s)) $ setf 40 1 (Z.b2z (sh_modified s)) $
  setf 39 1 (Z.b2z (sh_next s)) $ setf 38 1 (Z.b2z (sh_prev s)) $
  setf 37 1 (Z.b2z (sh_second s)) $ setf 0 37 (sh_off s) 0.

Lemma land_bit_eqb i w : 0 <= i -> (Z.land w (Z.shiftl 1 i) =? 0) = negb (Z.testbit w i).
Proof.
  intros Hi. assert (Z.land w (Z.shiftl 1 i) = Z.shiftl (Z.b2z (Z.testbit w i)) i) as ->.
  { apply Z.bits_inj'. intros j Hj. rewrite Z.land_spec, !Z.shiftl_spec by lia.
    destruct (Z.eq_dec j i) as [->|Hne].
    - rewrite Z.sub_diag, Z.b2z_bit0. cbn. apply andb_true_r.
    - assert (Z.testbit 1 (j - i) = false) as ->.
      { destruct (Z.ltb_spec j i); [apply Z.testbit_neg_r; lia|].
        apply Z.bits_above_log2; cbn; lia. }
      rewrite andb_false_r. destruct (Z.testbit w i); cbn; [|now rewrite Z.bits_0].
      destruct (Z.ltb_spec j i); [now rewrite Z.testbit_neg_r by lia|].
      now rewrite Z.bits_above_log2 by (cbn; lia). }
  rewrite Z.shiftl_mul_pow2 by lia. assert (0 < 2 ^ i) by (apply Z.pow_pos_nonneg; lia).
  destruct (Z.testbit w i); unfold Z.b2z, negb; [apply Z.eqb_neq; lia|easy].
Qed.

Lemma is_bit_set_testbit i w : 0 <= i -> is_bit_set i w = Z.testbit w i.
Proof. intros. unfold is_bit_set. rewrite land_bit_eqb by easy. apply negb_involutive. Qed.

Lemma is_latched_testbit w : is_latched w = Z.testbit w 63.
Proof. apply (is_bit_set_testbit 63). lia. Qed.

Lemma set_bit_setf i w : 0 <= i -> set_bit i w = setf i 1 1 w.
Proof.
  intros. unfold set_bit. apply Z.bits_inj'. intros j Hj.
  rewrite setf_testbit, Z.lor_spec, Z.shiftl_spec by (unfold fits; lia).
  destruct (Z.leb_spec i j), (Z.ltb_spec j (i + 1)); cbn; try lia.
  - replace (j - i) with 0 by lia. apply orb_true_r.
  - rewrite (Z.bits_above_log2 1) by (cbn; lia). apply orb_false_r.
  - rewrite (Z.testbit_neg_r 1) by lia. apply orb_false_r.
Qed.

Lemma clear_bit_setf i w : fits 64 w -> clear_bit i w = setf i 1 0 w.
Proof. apply (clear_setf i 1 w). Qed.

(** A bit or field of the word after another one was written; the offsets are
    literals, so the comparison computes. *)
Lemma testbit_setf_lit i off n v w :
  0 <= off -> 0 <= n -> fits n v -> 0 <= i ->
  (off <=? i) && (i <? off + n) = false -> Z.testbit (setf off n v w) i = Z.testbit w i.
Proof. intros ???? E. now rewrite setf_testbit, E by easy. Qed.

Lemma testbit_setf_bit i b w : 0 <= i -> Z.testbit (setf i 1 (Z.b2z b) w) i = b.
Proof.
  intros. rewrite setf_testbit by (destruct b; unfold fits; cbn; lia).
  rewrite Z.leb_refl, (proj2 (Z.ltb_lt i (i + 1))), Z.sub_diag by lia. apply Z.b2z_bit0.
Qed.

Ltac sv_side := solve [ lia | assumption | unfold fits; cbn; lia | reflexivity ].
Ltac sv_solve :=
  repeat first
    [ rewrite getf_setf by sv_side | rewrite getf_setf_ne by sv_side
    | rewrite testbit_setf_lit by sv_side ].

(** The word with one component replaced, and the meaning of the result. *)
Lemma sview_latch b w :
  sview (setf 63 1 (Z.b2z b) w) = let s := sview w in
    MkShared b (sh_scc s) (sh_readers s) (sh_writer s) (sh_modified s)
      (sh_next s) (sh_prev s) (sh_second s) (sh_off s).
Proof.
  assert (fits 1 (Z.b2z b)) by now destruct b.
  unfold sview; cbn. rewrite testbit_setf_bit by lia. sv_solve. easy.
Qed.

Lemma sview_scc v w :
  fits 16 v ->
  sview (setf 47 16 v w) = let s := sview w in
    MkShared (sh_latch s) v (sh_readers s) (sh_writer s) (sh_modified s)
      (sh_next s) (sh_prev s) (sh_second s) (sh_off s).
Proof. intros. unfold sview; cbn. sv_solve. easy. Qed.

Lemma sview_readers v w :
  fits 5 v ->
  sview (setf 42 5 v w) = let s := sview w in
    MkShared (sh_latch s) (sh_scc s) v (sh_writer s) (sh_modified s)
      (sh_next s) (sh_prev s) (sh_second s) (sh_off s).
Proof. intros. unfold sview; cbn. sv_solve. easy. Qed.

Lemma sview_writer b w :
  sview (setf 41 1 (Z.b2z b) w) = let s := sview w in
    MkShared (sh_latch s) (sh_scc s) (sh_readers s) b (sh_modified s)
      (sh_next s) (sh_prev s) (sh_second s) (sh_off s).
Proof.
  assert (fits 1 (Z.b2z b)) by now destruct b.
  unfold sview; cbn. rewrite testbit_setf_bit by lia. sv_solve. easy.
Qed.

Lemma sview_modified b w :
  sview (setf 40 1 (Z.b2z b) w) = let s := sview w in
    MkShared (sh_latch s) (sh_scc s) (sh_readers s) (sh_writer s) b
      (sh_next s) (sh_prev s) (sh_second s) (sh_off s).
Proof.
  assert (fits 1 (Z.b2z b)) by now destruct b.
  unfold sview; cbn. rewrite testbit_setf_bit by lia. sv_solve. easy.
Qed.

Lemma sview_next b w :
  sview (setf 39 1 (Z.b2z b) w) = let s := sview w in
    MkShared (sh_latch s) (sh_scc s) (sh_readers s) (sh_writer s) (sh_modified s)
      b (sh_prev s) (sh_second s) (sh_off s).
Proof.
  assert (fits 1 (Z.b2z b)) by now destruct b.
  unfold sview; cbn. rewrite testbit_setf_bit by lia. sv_solve. easy.
Qed.

Lemma sview_prev b w :
  sview (setf 38 1 (Z.b2z b) w) = let s := sview w in
    MkShared (sh_latch s) (sh_scc s) (sh_readers s) (sh_writer s) (sh_modified s)
      (sh_next s) b (sh_second s) (sh_off s).
Proof.
  assert (fits 1 (Z.b2z b)) by now destruct b.
  unfold sview; cbn. rewrite testbit_setf_bit by lia. sv_solve. easy.
Qed.

Lemma bit_fits i b w : 0 <= i < 64 -> fits 64 w -> fits 64 (setf i 1 (Z.b2z b) w).
Proof. intros. apply setf_fits; try lia; try easy. now destruct b. Qed.

(** ** What each accessor reads *)

Lemma get_scc_data_view w : get_scc_data w = sh_off (sview w).
Proof.
  unfold get_scc_data, SCC_DATA_OFFSET, sview, getf; cbn.
  now rewrite Z.shiftr_0_r.
Qed.
Lemma get_reader_count_view w : get_reader_count w = sh_readers (sview w).
Proof. reflexivity. Qed.
Lemma is_write_locked_view w : is_write_locked w = sh_writer (sview w).
Proof. apply is_bit_set_testbit. easy. Qed.
Lemma is_modified_view w : is_data_modified_since_moved_in w = sh_modified (sview w).
Proof. apply is_bit_set_testbit. easy. Qed.
Lemma get_next_view w : get_next_key_real_bit w = sh_next (sview w).
Proof. apply is_bit_set_testbit. easy. Qed.
Lemma get_prev_view w : get_prev_key_real_bit w = sh_prev (sview w).
Proof. apply is_bit_set_testbit. easy. Qed.
Lemma is_latched_view w : is_latched w = sh_latch (sview w).
Proof. apply is_latched_testbit. Qed.

(** ** What each accessor writes *)

Lemma latched_view w : fits 64 w ->
  fits 64 (latched w) /\ sview (latched w) = let s := sview w in
    MkShared true (sh_scc s) (sh_readers s) (sh_writer s) (sh_modified s)
      (sh_next s) (sh_prev s) (sh_second s) (sh_off s).
Proof.
  intros. change (latched w) with (set_bit 63 w). rewrite set_bit_setf by lia.
  split; [now apply (bit_fits 63 true)|apply (sview_latch true)].
Qed.

Lemma unlatched_view w : fits 64 w ->
  fits 64 (unlatched w) /\ sview (unlatched w) = let s := sview w in
    MkShared false (sh_scc s) (sh_readers s) (sh_writer s) (sh_modified s)
      (sh_next s) (sh_prev s) (sh_second s) (sh_off s).
Proof.
  intros. change (unlatched w) with (clear_bit 63 w). rewrite clear_bit_setf by easy.
  split; [now apply (bit_fits 63 false)|apply (sview_latch false)].
Qed.

Lemma write_locked_view w : fits 64 w ->
  fits 64 (set_write_locked w) /\ sview (set_write_locked w) = let s := sview w in
    MkShared (sh_latch s) (sh_scc s) (sh_readers s) true (sh_modified s)
      (sh_next s) (sh_prev s) (sh_second s) (sh_off s).
Proof.
  intros. unfold set_write_locked, WRITE_LOCK_BIT_OFFSET. rewrite set_bit_setf by lia.
  split; [now apply (bit_fits 41 true)|apply (sview_writer true)].
Qed.

Lemma write_unlocked_view w : fits 64 w ->
  fits 64 (clear_write_locked w) /\ sview (clear_write_locked w) = let s := sview w in
    MkShared (sh_latch s) (sh_scc s) (sh_readers s) false (sh_modified s)
      (sh_next s) (sh_prev s) (sh_second s) (sh_off s).
Proof.
  intros. unfold clear_write_locked, WRITE_LOCK_BIT_OFFSET. rewrite clear_bit_setf by easy.
  split; [now apply (bit_fits 41 false)|apply (sview_writer false)].
Qed.

Lemma set_modified_view w : fits 64 w ->
  fits 64 (set_is_data_modified_since_moved_in w) /\
  sview (set_is_data_modified_since_moved_in w) = let s := sview w in
    MkShared (sh_latch s) (sh_scc s) (sh_readers s) (sh_writer s) true
      (sh_next s) (sh_prev s) (sh_second s) (sh_off s).
Proof.
  intros. unfold set_is_data_modified_since_moved_in, is_data_modified_since_moved_in_bit_index.
  rewrite set_bit_setf by lia.
  split; [now apply (bit_fits 40 true)|apply (sview_modified true)].
Qed.

Lemma clear_modified_view w : fits 64 w ->
  fits 64 (clear_is_data_modified_since_moved_in w) /\
  sview (clear_is_data_modified_since_moved_in w) = let s := sview w in
    MkShared (sh_latch s) (sh_scc s) (sh_readers s) (sh_writer s) false
      (sh_next s) (sh_prev s) (sh_second s) (sh_off s).
Proof.
  intros. unfold clear_is_data_modified_since_moved_in, is_data_modified_since_moved_in_bit_index.
  rewrite clear_bit_setf by easy.
  split; [now apply (bit_fits 40 false)|apply (sview_modified false)].
Qed.

Lemma next_view (b : bool) w : fits 64 w ->
  let w' := if b then set_next_key_real_bit w else clear_next_key_real_bit w in
  fits 64 w' /\ sview w' = let s := sview w in
    MkShared (sh_latch s) (sh_scc s) (sh_readers s) (sh_writer s) (sh_modified s)
      b (sh_prev s) (sh_second s) (sh_off s).
Proof.
  intros. assert (w' = setf 39 1 (Z.b2z b) w) as ->.
  { subst w'. destruct b; [now apply set_bit_setf|now apply clear_bit_setf]. }
  split; [now apply bit_fits|apply sview_next].
Qed.

Lemma prev_view (b : bool) w : fits 64 w ->
  let w' := if b then set_prev_key_real_bit w else clear_prev_key_real_bit w in
  fits 64 w' /\ sview w' = let s := sview w in
    MkShared (sh_latch s) (sh_scc s) (sh_readers s) (sh_writer s) (sh_modified s)
      (sh_next s) b (sh_second s) (sh_off s).
Proof.
  intros. assert (w' = setf 38 1 (Z.b2z b) w) as ->.
  { subst w'. destruct b; [now apply set_bit_setf|now apply clear_bit_setf]. }
  split; [now apply bit_fits|apply sview_prev].
Qed.

Lemma set_readers_view r w : fits 64 w -> fits 5 r ->
  fits 64 (setf 42 5 r w) /\ sview (setf 42 5 r w) = let s := sview w in
    MkShared (sh_latch s) (sh_scc s) r (sh_writer s) (sh_modified s)
      (sh_next s) (sh_prev s) (sh_second s) (sh_off s).
Proof. intros. split; [apply setf_fits; (lia || assumption || easy)|now apply sview_readers]. Qed.

Lemma increase_readers_view w : fits 64 w -> sh_readers (sview w) <> get_reader_count_max ->
  fits 64 (increase_reader_count w) /\ sview (increase_reader_count w) = let s := sview w in
    MkShared (sh_latch s) (sh_scc s) (sh_readers s + 1) (sh_writer s) (sh_modified s)
      (sh_next s) (sh_prev s) (sh_second s) (sh_off s).
Proof.
  intros Hw Hm. pose proof (getf_fits 42 5 w) as [H0 H1]; [lia|].
  unfold get_reader_count_max, READ_LOCK_BITS_MASK in Hm. cbn in Hm, H1.
  assert (fits 5 (getf 42 5 w + 1)) as Hr by (unfold fits; lia).
  unfold increase_reader_count, READ_LOCK_BITS_OFFSET.
  rewrite Z.shiftl_mul_pow2, (add_setf 42 5 1 w) by (lia || assumption).
  destruct (set_readers_view (getf 42 5 w + 1) w) as [Hf E]; [easy..|].
  rewrite wrap_small by exact Hf. split; [exact Hf|exact E].
Qed.

Lemma decrease_readers_view w : fits 64 w -> 0 < sh_readers (sview w) ->
  fits 64 (decrease_reader_count w) /\ sview (decrease_reader_count w) = let s := sview w in
    MkShared (sh_latch s) (sh_scc s) (sh_readers s - 1) (sh_writer s) (sh_modified s)
      (sh_next s) (sh_prev s) (sh_second s) (sh_off s).
Proof.
  intros Hw Hm. pose proof (getf_fits 42 5 w) as [H0 H1]; [lia|]. cbn in Hm.
  assert (fits 5 (getf 42 5 w + -1)) as Hr by (unfold fits; lia).
  unfold decrease_reader_count, READ_LOCK_BITS_OFFSET.
  replace (w - Z.shiftl 1 42) with (w + -1 * 2 ^ 42) by (rewrite Z.shiftl_mul_pow2; lia).
  rewrite (add_setf 42 5 (-1) w) by (lia || assumption).
  destruct (set_readers_view (getf 42 5 w + -1) w) as [Hf E]; [easy..|].
  rewrite wrap_small by exact Hf. split; [exact Hf|exact E].
Qed.

Lemma set_reader_count_view r w : fits 64 w -> fits 5 r ->
  fits 64 (set_reader_count r w) /\ sview (set_reader_count r w) = let s := sview w in
    MkShared (sh_latch s) (sh_scc s) r (sh_writer s) (sh_modified s)
      (sh_next s) (sh_prev s) (sh_second s) (sh_off s).
Proof.
  intros Hw Hr. unfold set_reader_count, READ_LOCK_BITS_OFFSET.
  change READ_LOCK_BITS_MASK with (Z.ones 5). rewrite clear_setf by easy.
  rewrite (Z.shiftl_mul_pow2 r) by lia.
  rewrite (wrap_small 64 (r * 2 ^ 42)) by (unfold fits in *; lia).
  rewrite <- setf_add by (lia || assumption).
  destruct (set_readers_view r w) as [Hf E]; [easy..|]. rewrite wrap_small by exact Hf. split; [exact Hf|exact E].
Qed.

Lemma clear_scc_view w : fits 64 w ->
  fits 64 (clear_all_scc_bits w) /\ sview (clear_all_scc_bits w) = let s := sview w in
    MkShared (sh_latch s) 0 (sh_readers s) (sh_writer s) (sh_modified s)
      (sh_next s) (sh_prev s) (sh_second s) (sh_off s).
Proof.
  intros. unfold clear_all_scc_bits, SCC_BITS_OFFSET.
  change SCC_BITS_MASK with (Z.ones 16). rewrite clear_setf by easy.
  split; [apply setf_fits; (lia || assumption || easy)|now apply sview_scc].
Qed.

Lemma set_scc_bit_view h w : 0 <= h < 16 -> fits 64 w ->
  fits 64 (set_scc_bit h w) /\ sview (set_scc_bit h w) = let s := sview w in
    MkShared (sh_latch s) (setf h 1 1 (sh_scc s)) (sh_readers s) (sh_writer s) (sh_modified s)
      (sh_next s) (sh_prev s) (sh_second s) (sh_off s).
Proof.
  intros Hh Hw. unfold set_scc_bit, SCC_BITS_OFFSET. rewrite set_bit_setf by lia.
  split; [apply setf_fits; (lia || assumption || easy)|].
  unfold sview; cbn. f_equal;
    try (apply testbit_setf_lit; unfold fits; lia);
    try (apply getf_setf_ne; unfold fits; lia).
  apply Z.bits_inj'. intros i Hi.
  rewrite getf_testbit, !setf_testbit, getf_testbit by (unfold fits; lia).
  destruct (Z.ltb_spec i 16), (Z.leb_spec h i), (Z.ltb_spec i (h + 1)),
    (Z.leb_spec (h + 47) (i + 47)), (Z.ltb_spec (i + 47) (h + 47 + 1)); cbn; try lia; try easy.
  f_equal; lia.
Qed.

Lemma ctor_view off : fits 37 off ->
  fits 64 (TwoPLPashaMetadataShared off) /\
  sview (TwoPLPashaMetadataShared off) = MkShared false 0 0 false false false false false off.
Proof.
  intros Hoff. unfold TwoPLPashaMetadataShared, SCC_DATA_OFFSET.
  assert (fits 64 off) as H64 by (unfold fits in *; lia).
  rewrite Z.shiftl_0_r, wrap_small by easy. split; [easy|].
  assert (forall i n, 37 <= i -> 0 <= n -> getf i n off = 0) as H0.
  { intros i n Hi Hn. apply Z.bits_inj'. intros j Hj.
    rewrite getf_testbit, Z.bits_0, (fits_testbit 37 off) by (lia || assumption). apply andb_false_r. }
  unfold sview. rewrite !(fits_testbit 37 off) by (lia || assumption). rewrite !H0 by lia.
  f_equal. unfold getf. rewrite Z.shiftr_0_r, Z.land_ones by lia. now apply Z.mod_small.
Qed.

Lemma sview_bounds w : fits 5 (sh_readers (sview w)) /\ fits 37 (sh_off (sview w)) /\
  fits 16 (sh_scc (sview w)).
Proof. cbn. split_and!; apply getf_fits; lia. Qed.

Lemma is_scc_bit_view h w : 0 <= h < 16 ->
  is_bit_set (h + scc_bits_base_index) w = Z.testbit (sh_scc (sview w)) h.
Proof.
  intros. unfold scc_bits_base_index. rewrite is_bit_set_testbit by lia. cbn.
  rewrite getf_testbit by lia. now rewrite (proj2 (Z.ltb_lt h 16)) by lia.
Qed.

(** ** Words by their view *)

(** The word [w] is well formed and means [v]. *)
Definition word (w : Z) (v : shared) : Prop := fits 64 w /\ sview w = v.

Definition with_latch (b : bool) (v : shared) : shared :=
  MkShared b (sh_scc v) (sh_readers v) (sh_writer v) (sh_modified v) (sh_next v) (sh_prev v)
    (sh_second v) (sh_off v).
Definition with_scc (b : Z) (v : shared) : shared :=
  MkShared (sh_latch v) b (sh_readers v) (sh_writer v) (sh_modified v) (sh_next v) (sh_prev v)
    (sh_second v) (sh_off v).
Definition with_readers (r : Z) (v : shared) : shared :=
  MkShared (sh_latch v) (sh_scc v) r (sh_writer v) (sh_modified v) (sh_next v) (sh_prev v)
    (sh_second v) (sh_off v).
Definition with_writer (b : bool) (v : shared) : shared :=
  MkShared (sh_latch v) (sh_scc v) (sh_readers v) b (sh_modified v) (sh_next v) (sh_prev v)
    (sh_second v) (sh_off v).
Definition with_modified (b : bool) (v : shared) : shared :=
  MkShared (sh_latch v) (sh_scc v) (sh_readers v) (sh_writer v) b (sh_next v) (sh_prev v)
    (sh_second v) (sh_off v).
Definition with_next (b : bool) (v : shared) : shared :=
  MkShared (sh_latch v) (sh_scc v) (sh_readers v) (sh_writer v) (sh_modified v) b (sh_prev v)
    (sh_second v) (sh_off v).
Definition with_prev (b : bool) (v : shared) : shared :=
  MkShared (sh_latch v) (sh_scc v) (sh_readers v) (sh_writer v) (sh_modified v) (sh_next v) b
    (sh_second v) (sh_off v).

Lemma word_latched w v : word w v -> word (latched w) (with_latch true v).
Proof. intros [Hw <-]. now apply latched_view. Qed.
Lemma word_unlatched w v : word w v -> word (unlatched w) (with_latch false v).
Proof. intros [Hw <-]. now apply unlatched_view. Qed.
Lemma word_set_writer w v : word w v -> word (set_write_locked w) (with_writer true v).
Proof. intros [Hw <-]. now apply write_locked_view. Qed.
Lemma word_clear_writer w v : word w v -> word (clear_write_locked w) (with_writer false v).
Proof. intros [Hw <-]. now apply write_unlocked_view. Qed.
Lemma word_set_modified w v :
  word w v -> word (set_is_data_modified_since_moved_in w) (with_modified true v).
Proof. intros [Hw <-]. now apply set_modified_view. Qed.
Lemma word_clear_modified w v :
  word w v -> word (clear_is_data_modified_since_moved_in w) (with_modified false v).
Proof. intros [Hw <-]. now apply clear_modified_view. Qed.
Lemma word_set_next w v : word w v -> word (set_next_key_real_bit w) (with_next true v).
Proof. intros [Hw <-]. now apply (next_view true). Qed.
Lemma word_clear_next w v : word w v -> word (clear_next_key_real_bit w) (with_next false v).
Proof. intros [Hw <-]. now apply (next_view false). Qed.
Lemma word_set_prev w v : word w v -> word (set_prev_key_real_bit w) (with_prev true v).
Proof. intros [Hw <-]. now apply (prev_view true). Qed.
Lemma word_clear_prev w v : word w v -> word (clear_prev_key_real_bit w) (with_prev false v).
Proof. intros [Hw <-]. now apply (prev_view false). Qed.
Lemma word_inc_readers w v : word w v -> sh_readers v <> get_reader_count_max ->
  word (increase_reader_count w) (with_readers (sh_readers v + 1) v).
Proof. intros [Hw <-] H. now apply increase_readers_view. Qed.
Lemma word_dec_readers w v : word w v -> 0 < sh_readers v ->
  word (decrease_reader_count w) (with_readers (sh_readers v - 1) v).
Proof. intros [Hw <-] H. now apply decrease_readers_view. Qed.
Lemma word_set_readers r w v : word w v -> fits 5 r ->
  word (set_reader_count r w) (with_readers r v).
Proof. intros [Hw <-] H. now apply set_reader_count_view. Qed.
Lemma word_ctor off : fits 37 off ->
  word (TwoPLPashaMetadataShared off) (MkShared false 0 0 false false false false false off).
Proof. apply ctor_view. Qed.

(** ** The fields cover the word *)

Lemma sview_encode v :
  fits 16 (sh_scc v) -> fits 5 (sh_readers v) -> fits 37 (sh_off v) ->
  fits 64 (sencode v) /\ sview (sencode v) = v.
Proof.
  intros Hs Hr Ho. unfold sencode. split.
  - repeat (apply setf_fits; [lia|lia|lia|assumption || apply b2z_fits|]). unfold fits; lia.
  - rewrite sview_latch, sview_scc, sview_readers, sview_writer, sview_modified, sview_next,
      sview_prev by assumption.
    destruct v as [la sc re wr mo ne pr se off]. cbn in *.
    rewrite testbit_setf_bit by lia. f_equal.
    rewrite (getf_setf_ne 0 37 37 1) by (lia || apply b2z_fits).
    rewrite getf_setf by (lia || assumption). reflexivity.
Qed.

Lemma sencode_view w : fits 64 w -> sencode (sview w) = w.
Proof.
  intros Hw. unfold sencode, sview; cbn [sh_latch sh_scc sh_readers sh_writer sh_modified sh_next
    sh_prev sh_second sh_off].
  apply Z.bits_inj'. intros i Hi.
  rewrite !setf_testbit by (lia || apply b2z_fits || (apply getf_fits; lia)).
  repeat match goal with |- context [if ?b then _ else _] => destruct b eqn:?; cbn end.
  all: repeat match goal with H : (_ && _)%bool = true |- _ => apply andb_prop in H as [?%Z.leb_le ?%Z.ltb_lt] end.
  all: try (rewrite getf_testbit by lia; rewrite (proj2 (Z.ltb_lt _ _)) by lia; cbn; f_equal; lia).
  all: try (match goal with |- Z.testbit (Z.b2z (Z.testbit _ _)) ?x = _ =>
         replace x with 0 by lia; rewrite Z.b2z_bit0; f_equal; lia end).
  rewrite Z.bits_0. symmetry. destruct (Z.ltb_spec i 64); [|now apply (fits_testbit 64)].
  exfalso. repeat match goal with H : (_ && _)%bool = false |- _ => apply andb_false_iff in H;
    rewrite Z.leb_gt, Z.ltb_ge in H end. lia.
Qed.

(** ** Theorems *)

(** The shared word is a faithful encoding of its nine fields (latch,
    coherence bits, reader count, write bit, modified bit, next-key bit,
    previous-key bit, second-chance bit, data offset): every combination of
    field values has a word from which it is read back, and every 64-bit word
    is determined by its fields, so the fields do not overlap and cover all 64
    bits. *)
Theorem shared_word_roundtrip :
  (forall v, fits 16 (sh_scc v) -> fits 5 (sh_readers v) -> fits 37 (sh_off v) ->
    fits 64 (sencode v) /\ sview (sencode v) = v) /\
  (forall w, fits 64 w -> sencode (sview w) = w).
Proof. split; [exact sview_encode|exact sencode_view]. Qed.

(** C33: every accessor of the shared word changes its own field and no other.
    In particular taking the latch, locking, counting readers (below the
    maximum, above zero) and the next-key bits never disturb each other or the
    offset of the data object. *)
Theorem shared_word_operations w v :
  word w v ->
  word (latched w) (with_latch true v) /\ word (unlatched w) (with_latch false v) /\
  word (set_write_locked w) (with_writer true v) /\
  word (clear_write_locked w) (with_writer false v) /\
  word (set_is_data_modified_since_moved_in w) (with_modified true v) /\
  word (clear_is_data_modified_since_moved_in w) (with_modified false v) /\
  word (set_next_key_real_bit w) (with_next true v) /\
  word (clear_next_key_real_bit w) (with_next false v) /\
  word (set_prev_key_real_bit w) (with_prev true v) /\
  word (clear_prev_key_real_bit w) (with_prev false v) /\
  (sh_readers v <> get_reader_count_max ->
    word (increase_reader_count w) (with_readers (sh_readers v + 1) v)) /\
  (0 < sh_readers v -> word (decrease_reader_count w) (with_readers (sh_readers v - 1) v)) /\
  (forall r, fits 5 r -> word (set_reader_count r w) (with_readers r v)) /\
  word (clear_all_scc_bits w) (with_scc 0 v) /\
  (forall h, 0 <= h < 16 -> word (set_scc_bit h w) (with_scc (setf h 1 1 (sh_scc v)) v)) /\
  get_scc_data w = sh_off v.
Proof.
  intros H. pose proof H as [Hf Hv].
  repeat (apply conj; [solve [eauto using word_latched, word_unlatched, word_set_writer,
    word_clear_writer, word_set_modified, word_clear_modified, word_set_next, word_clear_next,
    word_set_prev, word_clear_prev, word_inc_readers, word_dec_readers, word_set_readers]|]).
  split_and!.
  - rewrite <- Hv. exact (clear_scc_view w Hf).
  - intros h Hh. rewrite <- Hv. exact (set_scc_bit_view h w Hh Hf).
  - rewrite <- Hv. apply get_scc_data_view.
Qed.

Lemma shared_word_operations_witness :
  word (set_write_locked (TwoPLPashaMetadataShared 4096))
    (with_writer true (MkShared false 0 0 false false false false false 4096)).
Proof.
  apply (shared_word_operations (TwoPLPashaMetadataShared 4096)). apply word_ctor. unfold fits; lia.
Defined.

End Shared.
