(* ===== verification/SCC.v ===== *)
(** * Software cache coherence (protocol/TwoPLPasha/TwoPLPashaSCC*.h)

    Tuple data in CXL memory is cached by hosts whose caches are not kept
    coherent by hardware.  The three managers of TwoPLPasha decide when a host
    must flush its copy before reading and write it back after writing, using
    one bit per host in the shared metadata word.

    The managers' methods are translated over the word ([None] is the null
    [smeta] pointer that some callers pass), with the cache-line operations
    they issue as their result.  [SCCProtocol] states what a manager promises;
    the second half of the file runs any such manager on a model of
    non-coherent caches, line by line (with spontaneous evictions and
    prefetches), with the lengths that the callers pass, and shows that reads
    made outside a write see the last value written in every line that these
    lengths reach. *)

From S2P Require Import Prelude SharedWord.
Import Shared.

(** ** The managers *)

(** The cache-line loops [clflush] and [clwb] of [SCCManager]; the lines that
    they go over follow from the address and the length that the caller of the
    manager passes, and are the subject of the second half of the file. *)
Inductive fence := Clflush | Clwb.

#[export] Instance fence_eq_dec : EqDecision fence.
Proof. solve_decision. Defined.

(** The virtual methods of [SCCManager] that use the shared word.  [do_read]
    and [do_write] are [memcpy] in all three managers. *)
Record SCCManager := {
  init_scc_metadata : Z -> M (option Z) (list fence);
  prepare_read : Z -> M (option Z) (list fence);
  finish_write : Z -> M (option Z) (list fence)
}.

Definition the_word : M (option Z) Z := deref (fun w => w).
Definition put_word (w : Z) : M (option Z) unit := modify (fun _ => Some w).

Module WriteThrough.
Definition init_scc_metadata (cur_host_id : Z) : M (option Z) (list fence) :=
  w ← the_word;
  put_word (clear_all_scc_bits w);;
  w ← the_word;
  put_word (set_scc_bit cur_host_id w);;
  mret [].

Definition prepare_read (cur_host_id : Z) : M (option Z) (list fence) :=
  let cur_host_bit_index := cur_host_id + scc_bits_base_index in
  w ← the_word;
  if negb (is_bit_set cur_host_bit_index w) then
    put_word (set_bit cur_host_bit_index w);;
    mret [Clflush]
  else mret [].

Definition finish_write (cur_host_id : Z) : M (option Z) (list fence) :=
  let cur_host_bit_index := cur_host_id + scc_bits_base_index in
  w ← the_word;
  CHECK (is_bit_set cur_host_bit_index w);;
  put_word (clear_all_scc_bits w);;
  w ← the_word;
  put_word (set_scc_bit cur_host_id w);;
  mret [Clwb].
End WriteThrough.

Module WriteThroughNoSharedRead.
Definition init_scc_metadata (cur_host_id : Z) : M (option Z) (list fence) :=
  w ← the_word;
  put_word (clear_all_scc_bits w);;
  w ← the_word;
  put_word (set_scc_bit cur_host_id w);;
  mret [].

Definition prepare_read (cur_host_id : Z) : M (option Z) (list fence) :=
  let cur_host_bit_index := cur_host_id + scc_bits_base_index in
  w ← the_word;
  if negb (is_bit_set cur_host_bit_index w) then
    put_word (clear_all_scc_bits w);;
    w ← the_word;
    put_word (set_scc_bit cur_host_id w);;
    mret [Clflush]
  else mret [].

Definition finish_write (cur_host_id : Z) : M (option Z) (list fence) :=
  w ← the_word;
  put_word (clear_all_scc_bits w);;
  w ← the_word;
  put_word (set_scc_bit cur_host_id w);;
  mret [Clwb].
End WriteThroughNoSharedRead.

Module NonTemporal.
Definition init_scc_metadata (cur_host_id : Z) : M (option Z) (list fence) := mret [].
Definition prepare_read (cur_host_id : Z) : M (option Z) (list fence) := mret [Clflush].
Definition finish_write (cur_host_id : Z) : M (option Z) (list fence) := mret [Clwb].
End NonTemporal.

Definition write_through : SCCManager := {|
  init_scc_metadata := WriteThrough.init_scc_metadata;
  prepare_read := WriteThrough.prepare_read;
  finish_write := WriteThrough.finish_write |}.

Definition write_through_no_shared_read : SCCManager := {|
  init_scc_metadata := WriteThroughNoSharedRead.init_scc_metadata;
  prepare_read := WriteThroughNoSharedRead.prepare_read;
  finish_write := WriteThroughNoSharedRead.finish_write |}.

Definition non_temporal : SCCManager := {|
  init_scc_metadata := NonTemporal.init_scc_metadata;
  prepare_read := NonTemporal.prepare_read;
  finish_write := NonTemporal.finish_write |}.

(** ** What a manager promises

    The word changes only in its coherence bits; [safe h w] says that host [h]
    may read without flushing, [ready h w] that [finish_write] will accept a
    write by [h]. *)

Definition host_ok (h : Z) : Prop := 0 <= h < 16.

(** Two words that differ at most in the coherence bits. *)
Definition same_but_scc (w w' : Z) : Prop :=
  fits 64 w' /\ exists b, fits 16 b /\ sview w' = let s := sview w in
    MkShared (sh_latch s) b (sh_readers s) (sh_writer s) (sh_modified s)
      (sh_next s) (sh_prev s) (sh_second s) (sh_off s).

Class SCCProtocol (m : SCCManager) := {
  safe : Z -> Z -> bool;
  ready : Z -> Z -> bool;
  init_law h w : host_ok h -> fits 64 w ->
    exists w', init_scc_metadata m h (Some w) = Ret [] (Some w') /\ same_but_scc w w' /\
      ready h w' = true /\ (forall g, host_ok g -> safe g w' = true -> g = h);
  prepare_law h w : host_ok h -> fits 64 w ->
    exists w', prepare_read m h (Some w) =
      Ret (if safe h w then [] else [Clflush]) (Some w') /\ same_but_scc w w' /\
      ready h w' = true /\
      (forall g, host_ok g -> ready g w = true -> ready g w' = true) /\
      (forall g, host_ok g -> safe g w' = true -> g = h \/ safe g w = true);
  finish_law h w : host_ok h -> fits 64 w -> ready h w = true ->
    exists w', finish_write m h (Some w) = Ret [Clwb] (Some w') /\ same_but_scc w w' /\
      (forall g, host_ok g -> safe g w' = true -> g = h);
  finish_frame h w : host_ok h -> fits 64 w ->
    match finish_write m h (Some w) with
    | Ret _ (Some w') => same_but_scc w w'
    | Abort => True
    | _ => False
    end;
  ready_scc h w w' : host_ok h -> sh_scc (sview w) = sh_scc (sview w') -> ready h w = ready h w'
}.

Lemma same_but_scc_refl w : fits 64 w -> same_but_scc w w.
Proof.
  intros Hw. split; [easy|]. exists (sh_scc (sview w)). split; [|now destruct (sview w)].
  apply sview_bounds.
Qed.

(** Clearing every bit and setting the one of host [h]. *)
Lemma only_host_view h w :
  host_ok h -> fits 64 w ->
  let w' := set_scc_bit h (clear_all_scc_bits w) in
  same_but_scc w w' /\ forall g, host_ok g -> Z.testbit (sh_scc (sview w')) g = (g =? h).
Proof.
  intros Hh Hw w'. destruct (clear_scc_view w Hw) as [H1 E1].
  destruct (set_scc_bit_view h (clear_all_scc_bits w) Hh H1) as [H2 E2].
  rewrite E1 in E2. cbn in E2. split.
  - split; [easy|]. exists (sh_scc (sview w')). split; [apply sview_bounds|].
    unfold w'. now rewrite E2.
  - intros g Hg. unfold w'. rewrite E2; cbn [sh_scc]. unfold host_ok in *.
    rewrite setf_testbit, Z.bits_0 by (unfold fits; lia).
    destruct (Z.leb_spec h g), (Z.ltb_spec g (h + 1)), (Z.eqb_spec g h); cbn; try lia; try easy.
    now replace (g - h) with 0 by lia.
Qed.

(** Setting the bit of host [h] alone. *)
Lemma add_host_view h w :
  host_ok h -> fits 64 w ->
  let w' := set_bit (h + scc_bits_base_index) w in
  same_but_scc w w' /\
  forall g, host_ok g ->
    Z.testbit (sh_scc (sview w')) g = (g =? h) || Z.testbit (sh_scc (sview w)) g.
Proof.
  intros Hh Hw w'. destruct (set_scc_bit_view h w Hh Hw) as [H2 E2].
  change (set_scc_bit h w) with w' in *. split.
  - split; [easy|]. exists (sh_scc (sview w')). split; [apply sview_bounds|]. now rewrite E2.
  - intros g Hg. rewrite E2; cbn [sh_scc]. unfold host_ok in *.
    rewrite setf_testbit by (unfold fits; lia).
    destruct (Z.leb_spec h g), (Z.ltb_spec g (h + 1)), (Z.eqb_spec g h); cbn [andb orb]; try lia; try easy.
    now replace (g - h) with 0 by lia.
Qed.

Definition host_bit (h w : Z) : bool := is_bit_set (h + scc_bits_base_index) w.

Lemma host_bit_view h w : host_ok h -> host_bit h w = Z.testbit (sh_scc (sview w)) h.
Proof. apply is_scc_bit_view. Qed.

Lemma eqb_host_true g h : (g =? h) = true -> g = h.
Proof. apply Z.eqb_eq. Qed.

#[export] Program Instance write_through_protocol : SCCProtocol write_through := {|
  safe := host_bit; ready := host_bit |}.
Next Obligation.
  intros h w Hh Hw. destruct (only_host_view h w Hh Hw) as [H1 H2].
  eexists; split; [reflexivity|]. split; [exact H1|]. split.
  - rewrite host_bit_view, H2, Z.eqb_refl by easy. easy.
  - intros g Hg. rewrite host_bit_view, H2 by easy. apply eqb_host_true.
Qed.
Next Obligation.
  intros h w Hh Hw. destruct (add_host_view h w Hh Hw) as [H1 H2].
  cbn [prepare_read write_through]. unfold WriteThrough.prepare_read, the_word, put_word. mrun.
  fold (host_bit h w). destruct (host_bit h w) eqn:E; cbn.
  - eexists; split; [reflexivity|]. auto 6 using same_but_scc_refl.
  - eexists; split; [reflexivity|]. split; [exact H1|].
    split; [rewrite host_bit_view, H2, Z.eqb_refl by easy; easy|].
    split; intros g Hg; rewrite !host_bit_view, H2 by easy.
    + intros ->. apply orb_true_r.
    + intros [Hgh|]%orb_prop; [left; now apply eqb_host_true|now right].
Qed.
Next Obligation.
  intros h w Hh Hw Hr. destruct (only_host_view h w Hh Hw) as [H1 H2].
  cbn [finish_write write_through]. unfold WriteThrough.finish_write, the_word, put_word. mrun.
  fold (host_bit h w). rewrite Hr; cbn.
  eexists; split; [reflexivity|]. split; [exact H1|].
  intros g Hg. rewrite host_bit_view, H2 by easy. apply eqb_host_true.
Qed.
Next Obligation.
  intros h w Hh Hw. destruct (only_host_view h w Hh Hw) as [H1 _].
  cbn [finish_write write_through]. unfold WriteThrough.finish_write, the_word, put_word. mrun.
  destruct (is_bit_set (h + scc_bits_base_index) w); cbn; [exact H1|easy].
Qed.
Next Obligation. intros h w w' Hh E. now rewrite !host_bit_view, E. Qed.

#[export] Program Instance no_shared_read_protocol : SCCProtocol write_through_no_shared_read := {|
  safe := host_bit; ready := fun _ _ => true |}.
Next Obligation.
  intros h w Hh Hw. destruct (only_host_view h w Hh Hw) as [H1 H2].
  eexists; split; [reflexivity|]. split; [exact H1|]. split; [easy|].
  intros g Hg. rewrite host_bit_view, H2 by easy. apply eqb_host_true.
Qed.
Next Obligation.
  intros h w Hh Hw. destruct (only_host_view h w Hh Hw) as [H1 H2].
  cbn [prepare_read write_through_no_shared_read].
  unfold WriteThroughNoSharedRead.prepare_read, the_word, put_word. mrun.
  fold (host_bit h w). destruct (host_bit h w) eqn:E; cbn.
  - eexists; split; [reflexivity|]. auto 6 using same_but_scc_refl.
  - eexists; split; [reflexivity|]. split; [exact H1|]. split; [easy|]. split; [easy|].
    intros g Hg. rewrite host_bit_view, H2 by easy. left. now apply eqb_host_true.
Qed.
Next Obligation.
  intros h w Hh Hw _. destruct (only_host_view h w Hh Hw) as [H1 H2].
  eexists; split; [reflexivity|]. split; [exact H1|].
  intros g Hg. rewrite host_bit_view, H2 by easy. apply eqb_host_true.
Qed.
Next Obligation.
  intros h w Hh Hw. exact (proj1 (only_host_view h w Hh Hw)).
Qed.
Next Obligation. easy. Qed.

#[export] Program Instance non_temporal_protocol : SCCProtocol non_temporal := {|
  safe := fun _ _ => false; ready := fun _ _ => true |}.
Next Obligation. intros h w Hh Hw. eexists; split; [reflexivity|]. split_and!; try easy; now apply same_but_scc_refl. Qed.
Next Obligation. intros h w Hh Hw. eexists; split; [reflexivity|]. split_and!; try easy; now apply same_but_scc_refl. Qed.
Next Obligation. intros h w Hh Hw _. eexists; split; [reflexivity|]. split_and!; try easy; now apply same_but_scc_refl. Qed.
Next Obligation. intros h w Hh Hw. now apply same_but_scc_refl. Qed.
Next Obligation. easy. Qed.

(** ** Hosts with non-coherent caches

    A data object in CXL memory, from the start of its first cache line on: the
    contents of each line in memory, and for each host the copy in its cache
    with a dirty flag.  A load fills the cache, a store stays in the cache,
    [clflush] writes a dirty copy back and drops it, [clwb] writes it back and
    keeps it clean; a copy may be evicted or prefetched at any time. *)

Module Cache.

(** The loop [for (ptr = addr & ~(cacheline_size - 1); ptr < addr + len; ptr +=
    cacheline_size)]: how many lines it goes over.  It does not make more than
    [len / cacheline_size + 2] rounds. *)
Definition cacheline_size : Z := 64.

Fixpoint rounds (fuel : nat) (ptr stop : Z) : nat :=
  match fuel with
  | O => O
  | S fuel => if ptr <? stop then S (rounds fuel (ptr + cacheline_size) stop) else O
  end.

Definition lines_covered (addr len : Z) : nat :=
  rounds (Z.to_nat (len / cacheline_size) + 2)
    (Z.land addr (Z.lnot (cacheline_size - 1))) (addr + len).

(** The loop goes over every line that the bytes touch. *)
Lemma rounds_eq fuel ptr stop :
  (stop - ptr + (cacheline_size - 1)) / cacheline_size <= Z.of_nat fuel ->
  rounds fuel ptr stop = Z.to_nat ((stop - ptr + (cacheline_size - 1)) / cacheline_size).
Proof.
  unfold cacheline_size. revert ptr. induction fuel as [|fuel IH]; intros ptr Hf; cbn [rounds].
  - lia.
  - destruct (Z.ltb_spec ptr stop); [|Z.to_euclidean_division_equations; lia].
    unfold cacheline_size. rewrite IH; Z.to_euclidean_division_equations; lia.
Qed.

Lemma lines_covered_eq addr len :
  0 <= addr -> 0 <= len ->
  lines_covered addr len =
    Z.to_nat ((addr mod cacheline_size + len + (cacheline_size - 1)) / cacheline_size).
Proof.
  intros Ha Hl. unfold lines_covered.
  assert (Z.land addr (Z.lnot (cacheline_size - 1)) = addr - addr mod cacheline_size) as ->.
  { change (cacheline_size - 1) with (Z.ones 6). change cacheline_size with (2 ^ 6).
    rewrite <- Z.ldiff_land, Z.ldiff_ones_r, Z.shiftl_mul_pow2, Z.shiftr_div_pow2 by lia.
    pose proof (Z.div_mod addr (2 ^ 6)). lia. }
  rewrite rounds_eq; unfold cacheline_size; [f_equal; f_equal; lia|Z.to_euclidean_division_equations; lia].
Qed.

Lemma lines_covered_mono addr len len' :
  0 <= addr -> 0 <= len <= len' -> (lines_covered addr len <= lines_covered addr len')%nat.
Proof. intros. rewrite !lines_covered_eq by lia. unfold cacheline_size. Z.to_euclidean_division_equations; lia. Qed.

Section cache.
Context {V : Type}.

Record line := Line { mem : V; cached : gmap Z (V * bool) }.

Definition write_back (h : Z) (l : line) : line :=
  match cached l !! h with
  | Some (v, true) => Line v (<[h := (v, false)]> (cached l))
  | _ => l
  end.

Definition drop (h : Z) (l : line) : line := Line (mem l) (delete h (cached l)).

(** [_mm_clflushopt] and [_mm_clwb] on one line. *)
Definition run_fence (h : Z) (f : fence) (l : line) : line :=
  match f with
  | Clflush => drop h (write_back h l)
  | Clwb => write_back h l
  end.

(** The loops of [clflush] and [clwb]: the first [n] lines. *)
Fixpoint fence_loop (h : Z) (f : fence) (n : nat) (ls : list line) : list line :=
  match n, ls with
  | S n, l :: ls => run_fence h f l :: fence_loop h f n ls
  | _, _ => ls
  end.

Definition load (h : Z) (l : line) : V * line :=
  match cached l !! h with
  | Some (v, _) => (v, l)
  | None => (mem l, Line (mem l) (<[h := (mem l, false)]> (cached l)))
  end.

Definition store (h : Z) (v : V) (l : line) : line :=
  Line (mem l) (<[h := (v, true)]> (cached l)).

(** The metadata word, the lines of the object, the host that is writing (it
    holds the tuple's write lock from its first [prepare_read] to its
    [finish_write]), and the contents written last. *)
Record pod := Pod { word : Z; data : list line; writing : option Z; latest : list V }.

(** The address of the object, and a length that every caller at least passes. *)
Context (addr reach : Z).

Definition prepare (m : SCCManager) (h len : Z) (p : pod) : option pod :=
  match prepare_read m h (Some (word p)) with
  | Ret fs (Some w) =>
      Some (Pod w (foldr (fun f => fence_loop h f (lines_covered addr len)) (data p) fs)
        (writing p) (latest p))
  | _ => None
  end.

Definition finish (m : SCCManager) (h len : Z) (p : pod) : option pod :=
  match finish_write m h (Some (word p)) with
  | Ret fs (Some w) =>
      Some (Pod w (foldr (fun f => fence_loop h f (lines_covered addr len)) (data p) fs)
        None (latest p))
  | _ => None
  end.

(** A read section of host [h]: [prepare_read], then the loads of [do_read]
    from every line of the object. *)
Definition read_section (m : SCCManager) (h len : Z) (p : pod) : option (list V * pod) :=
  match prepare m h len p with
  | Some p' =>
      Some ((fun l => (load h l).1) <$> data p',
        Pod (word p') ((fun l => (load h l).2) <$> data p') (writing p') (latest p'))
  | None => None
  end.

Inductive step (m : SCCManager) : pod -> pod -> Prop :=
| step_read h len v p p' :
    host_ok h -> reach <= len -> read_section m h len p = Some (v, p') -> step m p p'
| step_begin_write h len p p' :
    host_ok h -> reach <= len -> writing p = None -> prepare m h len p = Some p' ->
    step m p (Pod (word p') (data p') (Some h) (latest p'))
| step_store h j v p :
    writing p = Some h ->
    step m p (Pod (word p) (alter (store h v) j (data p)) (Some h) (<[j := v]> (latest p)))
| step_end_write h len p p' :
    reach <= len -> writing p = Some h -> finish m h len p = Some p' -> step m p p'
| step_evict h j p :
    step m p (Pod (word p) (alter (fun l => drop h (write_back h l)) j (data p))
      (writing p) (latest p))
| step_prefetch h j p :
    step m p (Pod (word p) (alter (fun l => (load h l).2) j (data p))
      (writing p) (latest p)).

(** The invariant of a line.  Only the writing host has a dirty copy.  Outside
    a write the memory is up to date, and so is the copy of every host that
    need not flush; during a write the writer sees its own value, in its
    cache or, after an eviction, in memory. *)
Definition clean_but (o : option Z) (l : line) : Prop :=
  forall h v, cached l !! h = Some (v, true) -> o = Some h.

Section proofs.
Context (m : SCCManager) `{!SCCProtocol m}.

Definition data_inv (w : Z) (o : option Z) (l : line) (x : V) : Prop :=
  clean_but o l /\
  match o with
  | None => mem l = x /\
      forall h v d, host_ok h -> safe h w = true -> cached l !! h = Some (v, d) -> v = x
  | Some h =>
      match cached l !! h with
      | Some (v, d) => v = x /\ (d = false -> mem l = x)
      | None => mem l = x
      end
  end.

(** The invariant holds of the lines that every call reaches. *)
Definition lines_inv (w : Z) (o : option Z) (ls : list line) (xs : list V) : Prop :=
  forall j l, (j < lines_covered addr reach)%nat -> ls !! j = Some l ->
    exists x, xs !! j = Some x /\ data_inv w o l x.

Definition inv (p : pod) : Prop :=
  fits 64 (word p) /\ length (data p) = length (latest p) /\
  (forall h, writing p = Some h -> host_ok h /\ ready h (word p) = true) /\
  lines_inv (word p) (writing p) (data p) (latest p).

(** *** One line *)

Lemma clean_write_back o h l : clean_but o l -> clean_but o (write_back h l).
Proof.
  intros Hc g v. unfold write_back. destruct (cached l !! h) as [[v' []]|] eqn:E; cbn; [|apply Hc..].
  intros Hg. destruct (decide (h = g)); simplify_map_eq; eauto.
Qed.

Lemma clean_drop o h l : clean_but o l -> clean_but o (drop h l).
Proof. intros Hc g v. cbn. intros [_ Hg]%lookup_delete_Some. eauto. Qed.

Lemma clean_load o h l : clean_but o l -> clean_but o (load h l).2.
Proof.
  intros Hc g v. unfold load. destruct (cached l !! h) as [[]|] eqn:E; cbn; [apply Hc|].
  intros Hg. destruct (decide (h = g)); simplify_map_eq; eauto.
Qed.

(** A copy of another host is never written back over the writer's value. *)
Lemma write_back_mem o h l : clean_but o l -> o <> Some h -> mem (write_back h l) = mem l.
Proof.
  intros Hc Ho. unfold write_back. destruct (cached l !! h) as [[v []]|] eqn:E; [|easy..].
  destruct Ho. eauto.
Qed.

Lemma write_back_lookup_ne h g l : g <> h -> cached (write_back h l) !! g = cached l !! g.
Proof.
  intros. unfold write_back. destruct (cached l !! h) as [[v []]|]; [|easy..].
  cbn. now simplify_map_eq.
Qed.

Lemma data_inv_evict w l o x h :
  data_inv w o l x -> data_inv w o (drop h (write_back h l)) x.
Proof.
  intros [Hc Hd]. split; [auto using clean_drop, clean_write_back|].
  destruct o as [k|]; cbn.
  - destruct (decide (h = k)) as [->|Hne].
    + rewrite lookup_delete_eq. unfold write_back.
      destruct (cached l !! k) as [[v []]|] eqn:E; cbn; rewrite ?E in Hd; naive_solver.
    + rewrite lookup_delete_ne, write_back_lookup_ne by congruence.
      rewrite (write_back_mem (Some k)) by (easy || congruence). exact Hd.
  - destruct Hd as [Hm Hs]. rewrite (write_back_mem None) by easy. split; [easy|].
    intros g v d Hg Hsg [Hne Hl]%lookup_delete_Some.
    rewrite write_back_lookup_ne in Hl by congruence. eauto.
Qed.

Lemma data_inv_load w l o x h : data_inv w o l x -> data_inv w o (load h l).2 x.
Proof.
  intros [Hc Hd]. split; [auto using clean_load|]. unfold load.
  destruct (cached l !! h) as [[v d]|] eqn:E; cbn; [exact Hd|].
  destruct o as [k|]; cbn.
  - destruct (decide (h = k)) as [->|Hne]; [rewrite E in Hd; simplify_map_eq; easy|].
    rewrite lookup_insert_ne by easy. exact Hd.
  - destruct Hd as [Hm Hs]. split; [easy|]. intros g v d Hg Hsg Hl.
    destruct (decide (h = g)); simplify_map_eq; eauto.
Qed.

(** After [prepare_read] a host either keeps a copy it may trust or has none. *)
Lemma data_inv_prepare w w' l o x h :
  (forall g, host_ok g -> safe g w' = true -> g = h \/ safe g w = true) -> data_inv w o l x ->
  data_inv w' o (if safe h w then l else drop h (write_back h l)) x.
Proof.
  intros Hs Hd. destruct (safe h w) eqn:E; [|apply (data_inv_evict _ _ _ _ h) in Hd]; destruct Hd as [Hc Hd]; (split; [easy|]); (destruct o as [k|]; [easy|]); destruct Hd as [Hm Ho]; (split; [easy|]);
    intros g v d Hg Hsg Hl; destruct (Hs g Hg Hsg) as [->|Hsg']; eauto.
  cbn in Hl. now rewrite lookup_delete_eq in Hl.
Qed.

(** The host that starts a write, and its stores. *)
Lemma data_inv_begin w w' l x h :
  data_inv w None l x -> (forall v d, cached l !! h = Some (v, d) -> v = x) ->
  data_inv w' (Some h) l x.
Proof.
  intros [Hc [Hm _]] Hv. split; [intros g v Hg; now apply Hc in Hg|].
  destruct (cached l !! h) as [[v d]|] eqn:El; [|easy]. split; [eauto|easy].
Qed.

Lemma data_inv_store w l x h v : data_inv w (Some h) l x -> data_inv w (Some h) (store h v l) v.
Proof.
  intros [Hc _]. split; cbn; [|now simplify_map_eq]. intros g y Hg. cbn in Hg. destruct (decide (h = g)); simplify_map_eq; [easy|eauto].
Qed.

(** A host that has prepared its access may start a write. *)
Lemma data_inv_begin_prepared w w' l x h :
  host_ok h -> data_inv w None l x ->
  data_inv w' (Some h) (if safe h w then l else drop h (write_back h l)) x.
Proof.
  intros Hh Hd. destruct (safe h w) eqn:E.
  - apply (data_inv_begin w); [exact Hd|]. destruct Hd as [_ [_ Hs]]. eauto.
  - apply (data_inv_begin w); [now apply data_inv_evict|].
    intros v d. cbn. now rewrite lookup_delete_eq.
Qed.

(** After [clwb] nobody but the writer may trust its copy. *)
Lemma data_inv_finish w w' l x h :
  (forall g, host_ok g -> safe g w' = true -> g = h) -> data_inv w (Some h) l x -> data_inv w' None (write_back h l) x.
Proof.
  intros Hsafe [Hc Hl].
  assert (mem (write_back h l) = x /\ forall d v, cached (write_back h l) !! h = Some (v, d) -> v = x /\ d = false) as [Hm Hv].
  { unfold write_back. destruct (cached l !! h) as [[v []]|] eqn:El; cbn.
    - split; [easy|]. intros d v'. simplify_map_eq. naive_solver.
    - rewrite El. split; [now apply Hl|]. intros d v' [= <- <-]. easy.
    - rewrite El. easy. }
  split; [|split; [easy|]].
  - intros g v Hg. destruct (decide (g = h)) as [->|Hne].
    + apply Hv in Hg as [_ ?]. easy.
    + rewrite write_back_lookup_ne in Hg by easy. apply Hc in Hg. congruence.
  - intros g v d Hg Hs Hl'. apply Hsafe in Hs as ->; [|easy]. now apply Hv in Hl' as [-> _].
Qed.

(** *** All lines *)

Lemma fence_loop_lookup h f n ls j :
  fence_loop h f n ls !! j =
    if decide (j < n)%nat then run_fence h f <$> ls !! j else ls !! j.
Proof.
  revert ls j. induction n as [|n IH]; intros [|l ls] [|j]; cbn; try reflexivity.
  - now case_decide.
  - rewrite IH. do 2 case_decide; easy || lia.
Qed.

Lemma fence_loop_length h f n ls : length (fence_loop h f n ls) = length ls.
Proof. revert ls. induction n; intros [|l ls]; cbn; auto. Qed.

(** An operation on one line that keeps the line's invariant. *)
Lemma lines_inv_alter w o ls xs j (g : line -> line) :
  lines_inv w o ls xs -> (forall l x, data_inv w o l x -> data_inv w o (g l) x) ->
  lines_inv w o (alter g j ls) xs.
Proof.
  intros Hi Hg i l Hc Hl. destruct (decide (i = j)) as [->|Hne].
  - rewrite list_lookup_alter_eq in Hl. apply fmap_Some in Hl as (l' & Hl & ->).
    destruct (Hi j l' Hc Hl) as (x & ? & ?). eauto.
  - rewrite list_lookup_alter_ne in Hl by easy. eauto.
Qed.

Lemma lines_inv_fmap w o ls xs (g : line -> line) :
  lines_inv w o ls xs -> (forall l x, data_inv w o l x -> data_inv w o (g l) x) ->
  lines_inv w o (g <$> ls) xs.
Proof.
  intros Hi Hg i l Hc Hl. apply list_lookup_fmap_Some in Hl as (l' & -> & Hl).
  destruct (Hi i l' Hc Hl) as (x & ? & ?). eauto.
Qed.

Hypothesis Haddr : 0 <= addr.
Hypothesis Hreach : 0 <= reach.


(** [prepare_read] on all lines: the host keeps the copies it may trust and
    flushes the others. *)
Lemma prepare_inv h len p :
  host_ok h -> reach <= len -> inv p ->
  exists p', prepare m h len p = Some p' /\ inv p' /\ writing p' = writing p /\
    latest p' = latest p /\ ready h (word p') = true /\
    (writing p = None -> lines_inv (word p') (Some h) (data p') (latest p)).
Proof.
  intros Hh Hlen (Hw & Hl & Hr & Hi).
  destruct (prepare_law h (word p) Hh Hw) as (w' & E & [Hf _] & Hrd & Hg & Hs).
  pose proof (lines_covered_mono addr reach len Haddr (conj Hreach Hlen)) as Hcov.
  unfold prepare. rewrite E. eexists. split; [reflexivity|].
  set (ls := foldr _ _ _).
  assert (length ls = length (data p)) as Hlen'.
  { unfold ls. destruct (safe h (word p)); cbn; [reflexivity|apply fence_loop_length]. }
  assert (forall j l, (j < lines_covered addr reach)%nat -> ls !! j = Some l ->
    exists x, latest p !! j = Some x /\ data_inv w' (writing p) l x /\
      (writing p = None -> data_inv w' (Some h) l x)) as Hls.
  { intros j l Hj Hl'.
    assert (exists l0, data p !! j = Some l0 /\
      l = if safe h (word p) then l0 else drop h (write_back h l0)) as (l0 & Hl0 & ->).
    { unfold ls in Hl'. destruct (safe h (word p)); cbn in Hl'; [eauto|].
      rewrite fence_loop_lookup, decide_True in Hl' by lia.
      apply fmap_Some in Hl' as (l0 & ? & ->). eauto. }
    destruct (Hi j l0 Hj Hl0) as (x & Hx & Hd). exists x. split; [exact Hx|].
    split; [now apply data_inv_prepare|]. intros Hn. rewrite Hn in Hd.
    now apply data_inv_begin_prepared. }
  split; [split_and!; cbn; [exact Hf|congruence|..]|split_and!; try easy].
  - intros k Hk. destruct (Hr k Hk). auto.
  - intros j l Hj Hl'. destruct (Hls j l Hj Hl') as (x & ? & ? & _). eauto.
  - intros Hn j l Hj Hl'. destruct (Hls j l Hj Hl') as (x & ? & _ & Hb). eauto.
Qed.

Lemma finish_inv h len p :
  reach <= len -> inv p -> writing p = Some h ->
  exists p', finish m h len p = Some p' /\ inv p' /\ writing p' = None /\ latest p' = latest p.
Proof.
  intros Hlen (Hw & Hl & Hr & Hi) Hn. destruct (Hr h Hn) as [Hh Hrd].
  destruct (finish_law h (word p) Hh Hw Hrd) as (w' & E & [Hf _] & Hs).
  pose proof (lines_covered_mono addr reach len Haddr (conj Hreach Hlen)) as Hcov.
  unfold finish. rewrite E. eexists. split; [reflexivity|]. cbn. split; [|easy].
  split_and!; cbn; [exact Hf|now rewrite fence_loop_length|easy|].
  - intros j l Hj Hl'. rewrite fence_loop_lookup, decide_True in Hl' by lia.
    apply fmap_Some in Hl' as (l0 & Hl0 & ->). destruct (Hi j l0 Hj Hl0) as (x & Hx & Hd).
    exists x. split; [exact Hx|]. rewrite Hn in Hd. now apply (data_inv_finish (word p)).
Qed.

Lemma inv_step p p' : inv p -> step m p p' -> inv p'.
Proof.
  intros Hinv Hs.
  destruct Hs as [h len v p p' Hh Hl E|h len p p' Hh Hl Hn E|h j v p Hn|h len p p' Hl Hn E|h j p|h j p].
  - destruct (prepare_inv h len p Hh Hl Hinv) as (p1 & E1 & (Hw & Hlen & Hr & Hi) & _).
    unfold read_section in E. rewrite E1 in E. injection E as <- <-. split_and!; cbn; try easy.
    + now rewrite length_fmap.
    + apply lines_inv_fmap; [exact Hi|]. intros l x. apply data_inv_load.
  - destruct (prepare_inv h len p Hh Hl Hinv)
      as (p1 & E1 & (Hw & Hlen & Hr & Hi) & Hwr & Hla & Hrd & Hb).
    rewrite E in E1. injection E1 as <-. split_and!; cbn; try easy.
    + intros k [= <-]. easy.
    + rewrite Hla. auto.
  - destruct Hinv as (Hw & Hlen & Hr & Hi). rewrite Hn in Hr, Hi. split_and!; cbn; try easy.
    + now rewrite length_alter, length_insert.
    + intros i l Hc Hl. destruct (decide (i = j)) as [->|Hne].
      * rewrite list_lookup_alter_eq in Hl. apply fmap_Some in Hl as (l0 & Hl & ->).
        destruct (Hi j l0 Hc Hl) as (x & Hx & Hd). exists v. split; [|now apply (data_inv_store _ _ x)].
        apply list_lookup_insert_eq. now apply lookup_lt_Some in Hx.
      * rewrite list_lookup_alter_ne in Hl by easy. rewrite list_lookup_insert_ne by easy. eauto.
  - destruct (finish_inv h len p Hl Hinv Hn) as (p1 & E1 & Hi & _). congruence.
  - destruct Hinv as (Hw & Hlen & Hr & Hi). split_and!; cbn; try easy.
    + now rewrite length_alter.
    + apply lines_inv_alter; [exact Hi|]. intros l x. apply data_inv_evict.
  - destruct Hinv as (Hw & Hlen & Hr & Hi). split_and!; cbn; try easy.
    + now rewrite length_alter.
    + apply lines_inv_alter; [exact Hi|]. intros l x. apply data_inv_load.
Qed.

Lemma inv_steps p p' : inv p -> rtc (step m) p p' -> inv p'.
Proof. intros Hi Hs. induction Hs; eauto using inv_step. Qed.

(** Clean copies that are stale only on hosts that must flush. *)
Definition clean_start (w : Z) (l : line) : Prop :=
  forall g x d, cached l !! g = Some (x, d) -> d = false /\ (safe g w = true -> x = mem l).

Lemma clean_start_inv w ls :
  fits 64 w -> Forall (clean_start w) ls -> inv (Pod w ls None (mem <$> ls)).
Proof.
  intros Hw Hc. split_and!; cbn; try easy; [now rewrite length_fmap|].
  intros j l _ Hl. exists (mem l). rewrite list_lookup_fmap, Hl. split; [easy|].
  rewrite Forall_lookup in Hc. specialize (Hc j l Hl). split.
  - intros g x Hx. apply Hc in Hx as [[=] _].
  - split; [reflexivity|]. intros g x d _ Hs Hx. apply Hc in Hx as [_ Hx]. auto.
Qed.

(** C11: software cache coherence.  Hosts with private, non-coherent caches
    share a data object that lies in several cache lines; each read section
    starts with [prepare_read], a write runs from [prepare_read] to
    [finish_write], one host writes at a time, lines are evicted and
    prefetched at any moment, and the lengths that the callers pass to both
    methods are [reach] or more.  Starting from clean copies that are stale
    only on hosts that must flush, under any of the managers every read section
    outside a write returns, for every line that [reach] bytes from the
    address of the object touch, what was written last. *)
Theorem coherent_reads w ls p h len :
  fits 64 w -> Forall (clean_start w) ls ->
  rtc (step m) (Pod w ls None (mem <$> ls)) p -> writing p = None ->
  host_ok h -> reach <= len ->
  exists vs p', read_section m h len p = Some (vs, p') /\ length vs = length (latest p) /\
    forall j, (j < lines_covered addr reach)%nat -> vs !! j = latest p !! j.
Proof.
  intros Hw Hc Hs Hn Hh Hl.
  pose proof (inv_steps _ _ (clean_start_inv w ls Hw Hc) Hs) as Hi.
  destruct (prepare_inv h len p Hh Hl Hi) as (p1 & E & (_ & Hlen & _) & _ & Hla & _ & Hb).
  unfold read_section. rewrite E. do 2 eexists. split; [reflexivity|].
  split; [rewrite length_fmap; congruence|].
  intros j Hj. rewrite list_lookup_fmap. destruct (data p1 !! j) as [l|] eqn:El; cbn.
  - destruct (Hb Hn j l Hj El) as (x & -> & _ & Hd). unfold load.
    destruct (cached l !! h) as [[v d]|]; cbn; [now destruct Hd as [-> _]|now rewrite Hd].
  - apply lookup_ge_None in El. symmetry. apply lookup_ge_None. congruence || lia.
Qed.

(** The write of a host is always accepted.  In every state reached from
    such a start, the host that is writing passes the check of
    [finish_write], and what it wrote is in CXL memory, in every line that
    the lengths reach. *)
Theorem finish_write_accepted w ls p h len :
  fits 64 w -> Forall (clean_start w) ls ->
  rtc (step m) (Pod w ls None (mem <$> ls)) p -> writing p = Some h -> reach <= len ->
  exists p', finish m h len p = Some p' /\
    forall j, (j < lines_covered addr reach)%nat -> mem <$> data p' !! j = latest p !! j.
Proof.
  intros Hw Hc Hs Hn Hl. pose proof (inv_steps _ _ (clean_start_inv w ls Hw Hc) Hs) as Hi.
  destruct (finish_inv h len p Hl Hi Hn) as (p1 & E & (_ & Hlen & _ & Hi1) & Hwr & Hla).
  rewrite Hwr in Hi1. exists p1. split; [exact E|]. intros j Hj.
  destruct (data p1 !! j) as [l|] eqn:El; cbn.
  - destruct (Hi1 j l Hj El) as (x & Hx & _ & -> & _). congruence.
  - apply lookup_ge_None in El. symmetry. apply lookup_ge_None. rewrite <- Hla. lia.
Qed.
End proofs.
End cache.
End Cache.

(** ** Concrete runs of the cache model

    An object at address 8 in two lines; every caller passes 100 bytes. *)

Definition start_lines : list Cache.line := [Cache.Line 5 {[ 1 := (5, false) ]}; Cache.Line 6 ∅].

Definition start_pod : Cache.pod := Cache.Pod 0 start_lines None [5; 6].

(** Host 0 writes both lines; host 0 has not ended its write section in
    [writing_pod] and has in [written_pod]. *)
Definition writing_pod : Cache.pod :=
  Cache.Pod (Shared.set_scc_bit 0 0)
    [Cache.Line 5 {[ 0 := (7, true); 1 := (5, false) ]}; Cache.Line 6 {[ 0 := (8, true) ]}]
    (Some 0) [7; 8].

Definition written_pod : Cache.pod :=
  Cache.Pod (Shared.set_scc_bit 0 0)
    [Cache.Line 7 {[ 0 := (7, false); 1 := (5, false) ]}; Cache.Line 8 {[ 0 := (8, false) ]}]
    None [7; 8].

Lemma start_clean : Forall (Cache.clean_start write_through 0) start_lines.
Proof.
  apply Forall_cons. split; [|apply Forall_singleton]; intros g x d; cbn; [|now rewrite lookup_empty].
  now intros [_ [= <- <-]]%lookup_singleton_Some.
Qed.

Lemma writing_pod_reached :
  rtc (Cache.step 8 100 write_through) start_pod writing_pod.
Proof.
  eapply rtc_l.
  { eapply (Cache.step_begin_write 8 100 write_through 0 100);
      [unfold host_ok; lia|lia|reflexivity|]. vm_compute. reflexivity. }
  eapply rtc_l; [apply (Cache.step_store 8 100 write_through 0 0 7); reflexivity|].
  eapply rtc_l; [apply (Cache.step_store 8 100 write_through 0 1 8); reflexivity|].
  apply rtc_refl.
Qed.

Lemma written_pod_reached :
  rtc (Cache.step 8 100 write_through) start_pod written_pod.
Proof.
  eapply rtc_r; [exact writing_pod_reached|].
  apply (Cache.step_end_write 8 100 write_through 0 100); [lia|reflexivity|].
  vm_compute. reflexivity.
Qed.

(** Host 1, with a stale copy of the first line, reads after the write. *)
Lemma coherent_reads_witness :
  exists vs p', Cache.read_section 8 write_through 1 100 written_pod = Some (vs, p') /\
    length vs = length [7; 8] /\
    forall j, (j < Cache.lines_covered 8 100)%nat -> vs !! j = [7; 8] !! j.
Proof.
  apply (Cache.coherent_reads 8 100 write_through ltac:(lia) ltac:(lia) 0 start_lines written_pod 1 100).
  - unfold fits; lia.
  - exact start_clean.
  - exact written_pod_reached.
  - reflexivity.
  - unfold host_ok; lia.
  - lia.
Defined.

Lemma finish_write_accepted_witness :
  exists p', Cache.finish 8 write_through 0 100 writing_pod = Some p' /\
    forall j, (j < Cache.lines_covered 8 100)%nat ->
      Cache.mem <$> Cache.data p' !! j = [7; 8] !! j.
Proof.
  apply (Cache.finish_write_accepted 8 100 write_through ltac:(lia) ltac:(lia) 0 start_lines writing_pod 0 100).
  - unfold fits; lia.
  - exact start_clean.
  - exact writing_pod_reached.
  - reflexivity.
  - lia.
Defined.

(** A host that reads a tuple while another host is in its write section
    gets the old value, even though the shared word was written before: this
    is why a reader has to hold the tuple's lock, and why the copy that the
    owner's lock operations take before they look at the write bit may be
    stale. *)
Theorem unlocked_read_is_stale :
  rtc (Cache.step 8 100 write_through) start_pod writing_pod /\
  Cache.latest writing_pod = [7; 8] /\
  exists p', Cache.read_section 8 write_through 1 100 writing_pod = Some ([5; 6], p').
Proof.
  split; [exact writing_pod_reached|]. split; [reflexivity|].
  eexists. vm_compute. reflexivity.
Qed.
