(* ===== verification/CXLMemory.v ===== *)
(** * [CXLMemory]: accounting of CXL memory

    The counters of common/CXLMemory.h that the allocation wrappers update,
    by category.  Hardware-coherent memory is the scarce resource that the
    migration policies keep under a budget: index, metadata and miscellaneous
    objects count towards it always, row data only when software coherence is
    off, and under the LRU policy every metadata object carries the 24 bytes of
    policy metadata.  The counters are 64-bit and wrap around. *)

From S2P Require Import Prelude.

(** The fields of [Context] that the wrappers and the helper read. *)
Record config := Config {
  enable_scc : bool;
  enable_migration_optimization : bool;
  enable_phantom_detection : bool;
  migration_policy_is_LRU : bool
}.

Inductive category :=
| INDEX_ALLOCATION
| METADATA_ALLOCATION
| DATA_ALLOCATION
| TRANSPORT_ALLOCATION
| MISC_ALLOCATION.

#[export] Instance category_eq_dec : EqDecision category.
Proof. solve_decision. Defined.

Record cxl_stats := MkStats {
  size_total_hw_cc_usage : Z;
  size_index_usage : Z;
  size_metadata_usage : Z;
  size_data_usage : Z;
  size_transport_usage : Z;
  size_misc_usage : Z
}.

(** The bytes an allocation of a category adds to the hardware-coherent usage. *)
Definition hw_cc_share (c : config) (cat : category) (size : Z) : Z :=
  match cat with
  | INDEX_ALLOCATION | MISC_ALLOCATION => size
  | METADATA_ALLOCATION => if migration_policy_is_LRU c then size + 24 else size
  | DATA_ALLOCATION => if enable_scc c then 0 else size
  | TRANSPORT_ALLOCATION => 0
  end.

(** What [cxlalloc_malloc_wrapper(size, category)] does to the counters, with
    [fetch_add] on 64 bits. *)
Definition add_usage (c : config) (cat : category) (size : Z) (s : cxl_stats) : cxl_stats :=
  let '(MkStats hw ix md da tr mi) := s in
  match cat with
  | INDEX_ALLOCATION => MkStats (wrap 64 (hw + size)) (wrap 64 (ix + size)) md da tr mi
  | METADATA_ALLOCATION =>
      MkStats (if migration_policy_is_LRU c then wrap 64 (hw + (size + 24)) else wrap 64 (hw + size))
        ix (wrap 64 (md + size)) da tr mi
  | DATA_ALLOCATION =>
      MkStats (if enable_scc c then hw else wrap 64 (hw + size)) ix md (wrap 64 (da + size)) tr mi
  | TRANSPORT_ALLOCATION => MkStats hw ix md da (wrap 64 (tr + size)) mi
  | MISC_ALLOCATION => MkStats (wrap 64 (hw + size)) ix md da tr (wrap 64 (mi + size))
  end.

(** [cxlalloc_free_wrapper(ptr, size, category)], with [fetch_sub]. *)
Definition sub_usage (c : config) (cat : category) (size : Z) (s : cxl_stats) : cxl_stats :=
  let '(MkStats hw ix md da tr mi) := s in
  match cat with
  | INDEX_ALLOCATION => MkStats (wrap 64 (hw - size)) (wrap 64 (ix - size)) md da tr mi
  | METADATA_ALLOCATION =>
      MkStats (if migration_policy_is_LRU c then wrap 64 (hw - (size + 24)) else wrap 64 (hw - size))
        ix (wrap 64 (md - size)) da tr mi
  | DATA_ALLOCATION =>
      MkStats (if enable_scc c then hw else wrap 64 (hw - size)) ix md (wrap 64 (da - size)) tr mi
  | TRANSPORT_ALLOCATION => MkStats hw ix md da (wrap 64 (tr - size)) mi
  | MISC_ALLOCATION => MkStats (wrap 64 (hw - size)) ix md da tr (wrap 64 (mi - size))
  end.

Inductive usage :=
| INDEX_USAGE | METADATA_USAGE | DATA_USAGE | TRANSPORT_USAGE | MISC_USAGE
| TOTAL_HW_CC_USAGE | TOTAL_USAGE.

Definition get_stats (cat : usage) (s : cxl_stats) : Z :=
  match cat with
  | INDEX_USAGE => size_index_usage s
  | METADATA_USAGE => size_metadata_usage s
  | DATA_USAGE => size_data_usage s
  | TRANSPORT_USAGE => size_transport_usage s
  | MISC_USAGE => size_misc_usage s
  | TOTAL_HW_CC_USAGE => size_total_hw_cc_usage s
  | TOTAL_USAGE =>
      wrap 64 (size_index_usage s + size_metadata_usage s + size_data_usage s
               + size_transport_usage s + size_misc_usage s)
  end.

(** ** What the counters mean *)

(** The counters for a multiset of live allocations, in the order they were made. *)
Definition allocation : Type := category * Z.

Definition live_bytes (cat : category) (l : list allocation) : Z :=
  foldr (fun a n => if decide (a.1 = cat) then a.2 + n else n) 0 l.
Definition live_hw_cc (c : config) (l : list allocation) : Z :=
  foldr (fun a n => hw_cc_share c a.1 a.2 + n) 0 l.

Definition accounts (c : config) (l : list allocation) (s : cxl_stats) : Prop :=
  s = MkStats (wrap 64 (live_hw_cc c l))
        (wrap 64 (live_bytes INDEX_ALLOCATION l)) (wrap 64 (live_bytes METADATA_ALLOCATION l))
        (wrap 64 (live_bytes DATA_ALLOCATION l)) (wrap 64 (live_bytes TRANSPORT_ALLOCATION l))
        (wrap 64 (live_bytes MISC_ALLOCATION l)).

(** An allocation is counted, whatever its category. *)
Lemma add_usage_accounts c cat size l s :
  accounts c l s -> accounts c ((cat, size) :: l) (add_usage c cat size s).
Proof.
  intros ->. unfold accounts, add_usage, live_hw_cc, live_bytes, hw_cc_share.
  destruct cat; cbn; destruct (enable_scc c), (migration_policy_is_LRU c); cbn;
    rewrite ?wrap_add_l; f_equal; try reflexivity; f_equal; repeat case_decide; congruence || lia.
Qed.

Lemma live_perm c l l' :
  l ≡ₚ l' -> live_hw_cc c l = live_hw_cc c l' /\ forall cat, live_bytes cat l = live_bytes cat l'.
Proof.
  unfold live_hw_cc, live_bytes.
  induction 1 as [|a l l' _ [IH1 IH2]|a b l|l1 l2 l3 _ [H1 H2] _ [H3 H4]]; cbn.
  - easy.
  - rewrite IH1. split; [easy|]. intros cat. now rewrite IH2.
  - split; [lia|]. intros cat. destruct (decide (b.1 = cat)), (decide (a.1 = cat)); lia.
  - split; [congruence|]. intros cat. now rewrite H2.
Qed.

(** Freeing an allocation, in any order, takes it out of the counters. *)
Lemma sub_usage_accounts c cat size l l' s :
  l ≡ₚ (cat, size) :: l' -> accounts c l s -> accounts c l' (sub_usage c cat size s).
Proof.
  intros Hp ->. destruct (live_perm c _ _ Hp) as [Hh Hb].
  unfold accounts, sub_usage. rewrite Hh, !Hb. unfold live_hw_cc, live_bytes. cbn. clear.
  unfold hw_cc_share. destruct cat; cbn; destruct (enable_scc c), (migration_policy_is_LRU c); cbn;
    rewrite ?wrap_sub_l; f_equal; try reflexivity; f_equal; repeat case_decide; congruence || lia.
Qed.

(** A run of allocations and frees. *)
Inductive mem_op := Alloc (cat : category) (size : Z) | Free (cat : category) (size : Z).

Definition mem_exec (c : config) (o : mem_op) : cxl_stats -> cxl_stats :=
  match o with Alloc cat n => add_usage c cat n | Free cat n => sub_usage c cat n end.

(** Only live allocations are freed. *)
Inductive mem_run : list allocation -> list mem_op -> list allocation -> Prop :=
| run_nil l : mem_run l [] l
| run_alloc cat n l ops l' :
    mem_run ((cat, n) :: l) ops l' -> mem_run l (Alloc cat n :: ops) l'
| run_free cat n l l1 ops l' :
    l ≡ₚ (cat, n) :: l1 -> mem_run l1 ops l' -> mem_run l (Free cat n :: ops) l'.

(** The counters of CXL memory are exact.  After any sequence of
    allocations and frees in which only live objects are freed, in any order,
    every counter is the number of bytes in live objects of its category
    (modulo 2^64), and the hardware-coherent usage is the sum of their
    hardware-coherent shares. *)
Theorem usage_exact c ops l l' s :
  accounts c l s -> mem_run l ops l' -> accounts c l' (foldl (fun s o => mem_exec c o s) s ops).
Proof.
  intros Hs Hr. revert s Hs.
  induction Hr as [l|cat n l ops l' _ IH|cat n l l1 ops l' Hp _ IH]; intros s Hs; cbn.
  - exact Hs.
  - apply IH. now apply add_usage_accounts.
  - apply IH. eapply sub_usage_accounts; eauto.
Qed.

(** A row that is moved in and out again: metadata and data are allocated and
    freed in the order the helper does. *)
Lemma usage_exact_witness :
  accounts (Config false true true true) []
    (foldl (fun s o => mem_exec (Config false true true true) o s) (MkStats 0 0 0 0 0 0)
       [Alloc METADATA_ALLOCATION 8; Alloc DATA_ALLOCATION 42;
        Free DATA_ALLOCATION 42; Free METADATA_ALLOCATION 8]).
Proof.
  apply (usage_exact (Config false true true true) _ []); [reflexivity|].
  repeat first [apply run_alloc | eapply run_free; [reflexivity|] | apply run_nil].
Defined.
