(* ===== verification/PashaState.v ===== *)
(** * The state of a partition shared between hosts

    The data that [TwoPLPashaHelper] works on: the owner's local rows
    ([TwoPLPashaMetadataLocal] and the tuple bytes), the shared metadata words
    and the shared data objects in CXL memory, the CXL index, and the CXL
    memory counters of [CXLMemory] (common/CXLMemory.h).  A pointer into CXL
    memory is the object's offset there.

    The primitives of this file are the memory accesses and latch operations
    the helper is written in; [PashaHelper] composes them as the code does. *)

From S2P Require Import Prelude LockWord SharedWord SCC CXLMemory.

(** Table id, partition id, key. *)
Definition rkey : Type := Z * Z * Z.

(** ** [TwoPLPashaSharedDataSCC] *)

Record TwoPLPashaSharedDataSCC := MkScc {
  sd_tid : Z;
  sd_flags : Z;
  sd_ref_cnt : Z;
  sd_policy : bytes;
  sd_data : bytes
}.

Definition valid_flag_index : Z := 0.

Definition get_flag (flag_index : Z) (d : TwoPLPashaSharedDataSCC) : bool :=
  negb (Z.land (sd_flags d) (Z.shiftl 1 flag_index) =? 0).

Definition set_flag (flag_index : Z) (d : TwoPLPashaSharedDataSCC) : TwoPLPashaSharedDataSCC :=
  MkScc (sd_tid d) (wrap 8 (Z.lor (sd_flags d) (Z.shiftl 1 flag_index)))
    (sd_ref_cnt d) (sd_policy d) (sd_data d).

Definition clear_flag (flag_index : Z) (d : TwoPLPashaSharedDataSCC) : TwoPLPashaSharedDataSCC :=
  MkScc (sd_tid d) (wrap 8 (Z.land (sd_flags d) (Z.lnot (Z.shiftl 1 flag_index))))
    (sd_ref_cnt d) (sd_policy d) (sd_data d).

Definition sd_set_tid (t : Z) (d : TwoPLPashaSharedDataSCC) : TwoPLPashaSharedDataSCC :=
  MkScc t (sd_flags d) (sd_ref_cnt d) (sd_policy d) (sd_data d).
Definition sd_set_data (b : bytes) (d : TwoPLPashaSharedDataSCC) : TwoPLPashaSharedDataSCC :=
  MkScc (sd_tid d) (sd_flags d) (sd_ref_cnt d) (sd_policy d) b.
Definition sd_set_policy (p : bytes) (d : TwoPLPashaSharedDataSCC) : TwoPLPashaSharedDataSCC :=
  MkScc (sd_tid d) (sd_flags d) (sd_ref_cnt d) p (sd_data d).

(** [ref_cnt++] and [ref_cnt--] on a [uint8_t]. *)
Definition ref_inc (d : TwoPLPashaSharedDataSCC) : TwoPLPashaSharedDataSCC :=
  MkScc (sd_tid d) (sd_flags d) (wrap 8 (sd_ref_cnt d + 1)) (sd_policy d) (sd_data d).
Definition ref_dec (d : TwoPLPashaSharedDataSCC) : TwoPLPashaSharedDataSCC :=
  MkScc (sd_tid d) (sd_flags d) (wrap 8 (sd_ref_cnt d - 1)) (sd_policy d) (sd_data d).

(** ** [TwoPLPashaMetadataLocal] and the local row *)

Record TwoPLPashaMetadataLocal := MkLocal {
  lm_latch : bool;
  lm_tid : Z;
  lm_is_valid : bool;
  lm_is_migrated : bool;
  lm_modified_since_moved_out : bool;
  lm_migrated_row : option Z;
  lm_scc_data : option Z
}.

Definition TwoPLPashaMetadataLocalInit (is_tuple_valid : bool) : TwoPLPashaMetadataLocal :=
  MkLocal false 0 is_tuple_valid false true None None.

Definition lm_set_latch (b : bool) (l : TwoPLPashaMetadataLocal) : TwoPLPashaMetadataLocal :=
  MkLocal b (lm_tid l) (lm_is_valid l) (lm_is_migrated l) (lm_modified_since_moved_out l)
    (lm_migrated_row l) (lm_scc_data l).
Definition lm_set_tid (t : Z) (l : TwoPLPashaMetadataLocal) : TwoPLPashaMetadataLocal :=
  MkLocal (lm_latch l) t (lm_is_valid l) (lm_is_migrated l) (lm_modified_since_moved_out l)
    (lm_migrated_row l) (lm_scc_data l).
Definition lm_set_valid (b : bool) (l : TwoPLPashaMetadataLocal) : TwoPLPashaMetadataLocal :=
  MkLocal (lm_latch l) (lm_tid l) b (lm_is_migrated l) (lm_modified_since_moved_out l)
    (lm_migrated_row l) (lm_scc_data l).
Definition lm_set_modified_out (b : bool) (l : TwoPLPashaMetadataLocal) : TwoPLPashaMetadataLocal :=
  MkLocal (lm_latch l) (lm_tid l) (lm_is_valid l) (lm_is_migrated l) b
    (lm_migrated_row l) (lm_scc_data l).
(** [migrated_row] and [is_migrated] are always assigned together. *)
Definition lm_set_migrated (p : option Z) (l : TwoPLPashaMetadataLocal) : TwoPLPashaMetadataLocal :=
  MkLocal (lm_latch l) (lm_tid l) (lm_is_valid l) (bool_decide (is_Some p))
    (lm_modified_since_moved_out l) p (lm_scc_data l).
Definition lm_set_scc_data (p : Z) (l : TwoPLPashaMetadataLocal) : TwoPLPashaMetadataLocal :=
  MkLocal (lm_latch l) (lm_tid l) (lm_is_valid l) (lm_is_migrated l) (lm_modified_since_moved_out l)
    (lm_migrated_row l) (Some p).

Record lrow := MkRow { lr_meta : TwoPLPashaMetadataLocal; lr_data : bytes }.

Definition on_meta (f : TwoPLPashaMetadataLocal -> TwoPLPashaMetadataLocal) (r : lrow) : lrow :=
  MkRow (f (lr_meta r)) (lr_data r).
Definition on_data (f : bytes -> bytes) (r : lrow) : lrow := MkRow (lr_meta r) (f (lr_data r)).

(** ** Counters *)

(** The CXL memory counters, and the statistics [num_data_move_in] and
    [num_data_move_out] of the migration manager. *)
Record counters := MkCounters {
  mem_stats : cxl_stats;
  num_data_move_in : Z;
  num_data_move_out : Z
}.

Definition on_mem (f : cxl_stats -> cxl_stats) (c : counters) : counters :=
  MkCounters (f (mem_stats c)) (num_data_move_in c) (num_data_move_out c).

Record world := World {
  w_rows : gmap rkey lrow;
  w_smeta : gmap Z Z;
  w_scc : gmap Z TwoPLPashaSharedDataSCC;
  w_tbl : gmap rkey Z;
  w_stats : counters;
  (** objects handed to [global_ebr_meta->add_retired_object] *)
  w_retired : list Z
}.

Definition set_rows (f : gmap rkey lrow -> gmap rkey lrow) (w : world) : world :=
  World (f (w_rows w)) (w_smeta w) (w_scc w) (w_tbl w) (w_stats w) (w_retired w).
Definition set_smeta (f : gmap Z Z -> gmap Z Z) (w : world) : world :=
  World (w_rows w) (f (w_smeta w)) (w_scc w) (w_tbl w) (w_stats w) (w_retired w).
Definition set_scc (f : gmap Z TwoPLPashaSharedDataSCC -> gmap Z TwoPLPashaSharedDataSCC)
    (w : world) : world :=
  World (w_rows w) (w_smeta w) (f (w_scc w)) (w_tbl w) (w_stats w) (w_retired w).
Definition set_tbl (f : gmap rkey Z -> gmap rkey Z) (w : world) : world :=
  World (w_rows w) (w_smeta w) (w_scc w) (f (w_tbl w)) (w_stats w) (w_retired w).
Definition set_stats (f : counters -> counters) (w : world) : world :=
  World (w_rows w) (w_smeta w) (w_scc w) (w_tbl w) (f (w_stats w)) (w_retired w).
Definition set_retired (f : list Z -> list Z) (w : world) : world :=
  World (w_rows w) (w_smeta w) (w_scc w) (w_tbl w) (w_stats w) (f (w_retired w)).

(** ** Accesses *)

Definition get_row (k : rkey) : M world lrow := deref (fun w => w_rows w !! k).
Definition mod_row (k : rkey) (f : lrow -> lrow) : M world unit :=
  r ← get_row k; modify (set_rows (insert k (f r))).

Definition get_smeta (p : Z) : M world Z := deref (fun w => w_smeta w !! p).
Definition mod_smeta (p : Z) (f : Z -> Z) : M world unit :=
  s ← get_smeta p; modify (set_smeta (insert p (f s))).

Definition get_scc (o : Z) : M world TwoPLPashaSharedDataSCC := deref (fun w => w_scc w !! o).
Definition mod_scc (o : Z) (f : TwoPLPashaSharedDataSCC -> TwoPLPashaSharedDataSCC) : M world unit :=
  d ← get_scc o; modify (set_scc (insert o (f d))).

(** [lmeta->lock()] and [lmeta->unlock()]. *)
Definition lm_lock (k : rkey) : M world unit :=
  r ← get_row k;
  if lm_latch (lr_meta r) then spin else mod_row k (on_meta (lm_set_latch true)).
Definition lm_unlock (k : rkey) : M world unit := mod_row k (on_meta (lm_set_latch false)).

(** [smeta->lock()] spins until the latch bit is clear and the exchange
    succeeds; [smeta->unlock()] clears it. *)
Definition sm_lock (p : Z) : M world unit :=
  s ← get_smeta p;
  if Shared.is_latched s then spin else mod_smeta p Shared.latched.
Definition sm_unlock (p : Z) : M world unit := mod_smeta p Shared.unlatched.

(** [lmeta->migrated_row], which the code follows when [is_migrated] is set. *)
Definition migrated_ptr (r : lrow) : M world Z := deref (fun _ => lm_migrated_row (lr_meta r)).

(** A call of a coherence manager on the shared word at [p]; the cache-line
    operations it issues do not change coherent memory. *)
Definition scc_call (p : Z) (m : M (option Z) (list fence)) : M world unit := fun w =>
  match w_smeta w !! p with
  | None => Fault
  | Some s =>
      match m (Some s) with
      | Ret _ (Some s') => Ret tt (set_smeta (insert p s') w)
      | Ret _ None | Fault => Fault
      | Spin => Spin
      | Abort => Abort
      end
  end.

(** The same call with a null [smeta]. *)
Definition scc_call_null (m : M (option Z) (list fence)) : M world unit := fun w =>
  match m None with
  | Ret _ _ => Ret tt w
  | Spin => Spin
  | Abort => Abort
  | Fault => Fault
  end.

(** ** CXL memory *)

(** The allocator (cxlalloc): an unused offset that fits in the 37 bits the
    shared word has for it, or a null pointer.  The memory it returned for
    live or retired objects stays in use.  [cxlalloc_content] is what a data
    object reads as before it is written: the code runs no constructor on it. *)
Class CxlAlloc := {
  cxlalloc_malloc : gset Z -> Z -> option Z;
  cxlalloc_content : gset Z -> nat -> TwoPLPashaSharedDataSCC;
  cxlalloc_fresh used size p :
    cxlalloc_malloc used size = Some p -> (p ∉ used) /\ (0 < p < 2 ^ 37);
  cxlalloc_content_size used n : length (sd_data (cxlalloc_content used n)) = n;
  cxlalloc_content_flags used n : fits 8 (sd_flags (cxlalloc_content used n));
  cxlalloc_content_ref_cnt used n : fits 8 (sd_ref_cnt (cxlalloc_content used n))
}.

Definition sizeof_MetadataShared : Z := 8.
Definition sizeof_SharedDataSCC : Z := 40.

Definition in_use (w : world) : gset Z := dom (w_smeta w) ∪ dom (w_scc w).

(** [cxlalloc_malloc_wrapper(size, category)]: the counters are updated before
    the allocation is attempted. *)
Definition cxlalloc_malloc_wrapper `{CxlAlloc} (c : config) (size : Z) (cat : category) :
    M world (option Z) :=
  modify (set_stats (on_mem (add_usage c cat size)));;
  gets (fun w => cxlalloc_malloc (in_use w) size).

(** [cxlalloc_free_wrapper(ptr, size, category)] changes the counters only; the
    memory is given back when the epoch-based reclamation retires it. *)
Definition cxlalloc_free_wrapper (c : config) (size : Z) (cat : category) : M world unit :=
  modify (set_stats (on_mem (sub_usage c cat size))).

Definition add_retired_object (p : Z) : M world unit := modify (set_retired (cons p)).

(** ** The CXL index ([CXLTableBase]) *)

Definition cxl_search (k : rkey) : M world (option Z) := gets (fun w => w_tbl w !! k).

Definition cxl_insert (k : rkey) (p : Z) : M world bool :=
  o ← cxl_search k;
  match o with
  | Some _ => mret false
  | None => modify (set_tbl (insert k p));; mret true
  end.

Definition cxl_remove (k : rkey) : M world bool :=
  o ← cxl_search k;
  match o with
  | Some _ => modify (set_tbl (delete k));; mret true
  | None => mret false
  end.

(** ** Adjacent keys of an ordered table

    What [search_and_update_next_key_info] and its siblings pass to their
    callback: the neighbours of a key within the same table and partition. *)

Definition same_table (k k' : rkey) : bool := (k.1.1 =? k'.1.1) && (k.1.2 =? k'.1.2).

Definition best (better : Z -> Z -> bool) (o : option rkey) (k : rkey) : option rkey :=
  match o with
  | Some k' => if better k.2 k'.2 then Some k else Some k'
  | None => Some k
  end.

Definition neighbour (side better : Z -> Z -> bool) (k : rkey) (ks : list rkey) : option rkey :=
  fold_left (best better) (filter (fun k' => same_table k k' && side k'.2 k.2) ks) None.

Definition prev_key (k : rkey) (w : world) : option rkey :=
  neighbour Z.ltb Z.gtb k (elements (dom (w_rows w))).
Definition next_key (k : rkey) (w : world) : option rkey :=
  neighbour Z.gtb Z.ltb k (elements (dom (w_rows w))).
