(* ===== verification/PashaHelper.v ===== *)
(** * [TwoPLPashaHelper]: tuple locks, migration and next-key information

    Every operation of the class (protocol/TwoPLPasha/TwoPLPashaHelper.h) as a
    step over [world].  The operations of the owner host name a local row by
    its key; the [remote_*] operations name the shared metadata word by its
    offset.  [success] and the other out-parameters are results.  The
    statistics counter [local_cxl_access] is left out.

    The parameters are the coherence manager, the fields of [Context], the
    allocator, and the two functions of the migration policy that the helper
    calls on the policy metadata stored with a tuple. *)

From S2P Require Import Prelude LockWord SharedWord SCC CXLMemory PashaState.

#[local] Existing Instance pasha_layout.

Class PolicyMeta := {
  init_migration_policy_metadata : rkey -> bytes;
  access_row : bytes -> bytes
}.

Inductive migration_result := SUCCESS | FAIL_ALREADY_IN_CXL | FAIL_OOM.

Inductive table_type := HASHMAP | BTREE.

#[export] Instance migration_result_eq_dec : EqDecision migration_result.
Proof. solve_decision. Defined.

Module Pasha.
Section helper.
Context (sc : SCCManager) (cfg : config) {alloc : CxlAlloc} {pol : PolicyMeta}.
(** [coordinator_id]: the host that runs the operation. *)
Context (me : Z).

Definition is_valid_data (d : TwoPLPashaSharedDataSCC) : bool := get_flag valid_flag_index d.

(** [set_flag] or [clear_flag] of the valid bit, as the argument says. *)
Definition assign_valid (b : bool) (d : TwoPLPashaSharedDataSCC) : TwoPLPashaSharedDataSCC :=
  if b then set_flag valid_flag_index d else clear_flag valid_flag_index d.

(** ** Reading and writing a tuple *)

Definition read (k : rkey) (dest : bytes) (size : nat) : M world (Z * bytes) :=
  lm_lock k;;
  r ← get_row k;
  if negb (lm_is_migrated (lr_meta r)) then
    lm_unlock k;;
    mret (remove_lock_bit (lm_tid (lr_meta r)), memcpy dest (lr_data r) size)
  else
    p ← migrated_ptr r;
    s ← get_smeta p;
    let o := Shared.get_scc_data s in
    sm_lock p;;
    scc_call_null (prepare_read sc me);;
    d ← get_scc o;
    sm_unlock p;;
    lm_unlock k;;
    mret (remove_lock_bit (sd_tid d), memcpy dest (sd_data d) size).

Definition update (k : rkey) (value : bytes) (value_size : nat) : M world unit :=
  lm_lock k;;
  r ← get_row k;
  if negb (lm_is_migrated (lr_meta r)) then
    mod_row k (on_data (fun b => memcpy b value value_size));;
    mod_row k (on_meta (lm_set_modified_out true));;
    lm_unlock k
  else
    p ← migrated_ptr r;
    s ← get_smeta p;
    let o := Shared.get_scc_data s in
    sm_lock p;;
    mod_scc o (fun d => sd_set_data (memcpy (sd_data d) value value_size) d);;
    mod_smeta p Shared.set_is_data_modified_since_moved_in;;
    sm_unlock p;;
    lm_unlock k.

Definition remote_update (p : Z) (value : bytes) (value_size : nat) : M world unit :=
  s ← get_smeta p;
  let o := Shared.get_scc_data s in
  sm_lock p;;
  mod_scc o (fun d => sd_set_data (memcpy (sd_data d) value value_size) d);;
  mod_smeta p Shared.set_is_data_modified_since_moved_in;;
  sm_unlock p.

(** ** Acquiring locks *)

(** What the owner's lock operations do first on a migrated tuple, with both
    latches held: when another host changed the data, copy version, valid
    flag and bytes into the local row and clear the flag; then report the
    version, or [None] when the tuple is invalid. *)
Definition refresh_local_copy (k : rkey) (p o : Z) (size : nat) : M world (option Z) :=
  s ← get_smeta p;
  if Shared.is_data_modified_since_moved_in s then
    d ← get_scc o;
    if negb (is_valid_data d) then mret None
    else
      let tid := remove_lock_bit (sd_tid d) in
      mod_row k (on_meta (lm_set_valid (is_valid_data d)));;
      mod_row k (on_meta (lm_set_tid (sd_tid d)));;
      mod_row k (on_data (fun b => memcpy b (sd_data d) size));;
      mod_smeta p Shared.clear_is_data_modified_since_moved_in;;
      mret (Some tid)
  else
    r ← get_row k;
    if negb (lm_is_valid (lr_meta r)) then mret None
    else mret (Some (remove_lock_bit (lm_tid (lr_meta r)))).

Definition read_lock (k : rkey) (size : nat) : M world (Z * bool) :=
  lm_lock k;;
  r ← get_row k;
  if negb (lm_is_migrated (lr_meta r)) then
    if negb (lm_is_valid (lr_meta r)) then lm_unlock k;; mret (0, false)
    else
      let old_value := lm_tid (lr_meta r) in
      let tid := remove_lock_bit old_value in
      if is_write_locked old_value || (read_lock_num old_value =? read_lock_max)
      then lm_unlock k;; mret (tid, false)
      else
        mod_row k (on_meta (lm_set_tid (add_reader old_value)));;
        lm_unlock k;;
        mret (tid, true)
  else
    p ← migrated_ptr r;
    s ← get_smeta p;
    let o := Shared.get_scc_data s in
    sm_lock p;;
    scc_call p (prepare_read sc me);;
    v ← refresh_local_copy k p o size;
    match v with
    | None => sm_unlock p;; lm_unlock k;; mret (0, false)
    | Some tid =>
        s ← get_smeta p;
        if Shared.is_write_locked s
           || (Shared.get_reader_count s =? Shared.get_reader_count_max)
        then sm_unlock p;; lm_unlock k;; mret (tid, false)
        else
          mod_smeta p Shared.increase_reader_count;;
          sm_unlock p;;
          lm_unlock k;;
          mret (tid, true)
    end.

Definition take_read_lock_and_read (k : rkey) (dest : bytes) (size : nat) :
    M world (Z * bool * bytes) :=
  lm_lock k;;
  r ← get_row k;
  if negb (lm_is_migrated (lr_meta r)) then
    if negb (lm_is_valid (lr_meta r)) then lm_unlock k;; mret (0, false, dest)
    else
      let old_value := lm_tid (lr_meta r) in
      let tid := remove_lock_bit old_value in
      if is_write_locked old_value || (read_lock_num old_value =? read_lock_max)
      then lm_unlock k;; mret (tid, false, dest)
      else
        mod_row k (on_meta (lm_set_tid (add_reader old_value)));;
        r ← get_row k;
        lm_unlock k;;
        mret (tid, true, memcpy dest (lr_data r) size)
  else
    p ← migrated_ptr r;
    s ← get_smeta p;
    let o := Shared.get_scc_data s in
    sm_lock p;;
    scc_call p (prepare_read sc me);;
    v ← refresh_local_copy k p o size;
    match v with
    | None => sm_unlock p;; lm_unlock k;; mret (0, false, dest)
    | Some tid =>
        s ← get_smeta p;
        if Shared.is_write_locked s
           || (Shared.get_reader_count s =? Shared.get_reader_count_max)
        then sm_unlock p;; lm_unlock k;; mret (tid, false, dest)
        else
          mod_smeta p Shared.increase_reader_count;;
          r ← get_row k;
          sm_unlock p;;
          lm_unlock k;;
          mret (tid, true, memcpy dest (lr_data r) size)
    end.

Definition remote_take_read_lock_and_read (p : Z) (dest : bytes) (size : nat)
    (inc_ref_cnt : bool) : M world (Z * bool * bytes) :=
  s ← get_smeta p;
  let o := Shared.get_scc_data s in
  sm_lock p;;
  scc_call p (prepare_read sc me);;
  d ← get_scc o;
  if negb (is_valid_data d) then sm_unlock p;; mret (remove_lock_bit 0, false, dest)
  else
    let tid := remove_lock_bit (sd_tid d) in
    s ← get_smeta p;
    if Shared.is_write_locked s || (Shared.get_reader_count s =? Shared.get_reader_count_max)
    then sm_unlock p;; mret (tid, false, dest)
    else
      mod_smeta p Shared.increase_reader_count;;
      when_ inc_ref_cnt (mod_scc o ref_inc);;
      sm_unlock p;;
      mret (tid, true, memcpy dest (sd_data d) size).

Definition remote_read_lock_and_inc_ref_cnt (p : Z) (size : nat) : M world (Z * bool) :=
  s ← get_smeta p;
  let o := Shared.get_scc_data s in
  sm_lock p;;
  scc_call p (prepare_read sc me);;
  d ← get_scc o;
  if negb (is_valid_data d) then sm_unlock p;; mret (remove_lock_bit 0, false)
  else
    let tid := remove_lock_bit (sd_tid d) in
    s ← get_smeta p;
    if Shared.is_write_locked s || (Shared.get_reader_count s =? Shared.get_reader_count_max)
    then sm_unlock p;; mret (tid, false)
    else
      mod_smeta p Shared.increase_reader_count;;
      mod_scc o ref_inc;;
      sm_unlock p;;
      mret (tid, true).

Definition write_lock (k : rkey) (size : nat) : M world (Z * bool) :=
  lm_lock k;;
  r ← get_row k;
  if negb (lm_is_migrated (lr_meta r)) then
    if negb (lm_is_valid (lr_meta r)) then lm_unlock k;; mret (0, false)
    else
      let old_value := lm_tid (lr_meta r) in
      let tid := remove_lock_bit old_value in
      if is_read_locked old_value || is_write_locked old_value
      then lm_unlock k;; mret (tid, false)
      else
        mod_row k (on_meta (lm_set_tid (add_writer old_value)));;
        lm_unlock k;;
        mret (tid, true)
  else
    p ← migrated_ptr r;
    s ← get_smeta p;
    let o := Shared.get_scc_data s in
    sm_lock p;;
    scc_call p (prepare_read sc me);;
    v ← refresh_local_copy k p o size;
    match v with
    | None => sm_unlock p;; lm_unlock k;; mret (0, false)
    | Some tid =>
        s ← get_smeta p;
        if (0 <? Shared.get_reader_count s) || Shared.is_write_locked s
        then sm_unlock p;; lm_unlock k;; mret (tid, false)
        else
          mod_smeta p Shared.set_write_locked;;
          sm_unlock p;;
          lm_unlock k;;
          mret (tid, true)
    end.

Definition take_write_lock_and_read (k : rkey) (dest : bytes) (size : nat) :
    M world (Z * bool * bytes) :=
  lm_lock k;;
  r ← get_row k;
  if negb (lm_is_migrated (lr_meta r)) then
    if negb (lm_is_valid (lr_meta r)) then lm_unlock k;; mret (0, false, dest)
    else
      let old_value := lm_tid (lr_meta r) in
      let tid := remove_lock_bit old_value in
      if is_read_locked old_value || is_write_locked old_value
      then lm_unlock k;; mret (tid, false, dest)
      else
        mod_row k (on_meta (lm_set_tid (add_writer old_value)));;
        r ← get_row k;
        lm_unlock k;;
        mret (tid, true, memcpy dest (lr_data r) size)
  else
    p ← migrated_ptr r;
    s ← get_smeta p;
    let o := Shared.get_scc_data s in
    sm_lock p;;
    scc_call p (prepare_read sc me);;
    v ← refresh_local_copy k p o size;
    match v with
    | None => sm_unlock p;; lm_unlock k;; mret (0, false, dest)
    | Some tid =>
        s ← get_smeta p;
        if (0 <? Shared.get_reader_count s) || Shared.is_write_locked s
        then sm_unlock p;; lm_unlock k;; mret (tid, false, dest)
        else
          mod_smeta p Shared.set_write_locked;;
          r ← get_row k;
          sm_unlock p;;
          lm_unlock k;;
          mret (tid, true, memcpy dest (lr_data r) size)
    end.

Definition remote_take_write_lock_and_read (p : Z) (dest : bytes) (size : nat)
    (inc_ref_cnt : bool) : M world (Z * bool * bytes) :=
  s ← get_smeta p;
  let o := Shared.get_scc_data s in
  sm_lock p;;
  scc_call p (prepare_read sc me);;
  d ← get_scc o;
  if negb (is_valid_data d) then sm_unlock p;; mret (remove_lock_bit 0, false, dest)
  else
    let tid := remove_lock_bit (sd_tid d) in
    s ← get_smeta p;
    if (0 <? Shared.get_reader_count s) || Shared.is_write_locked s
    then sm_unlock p;; mret (tid, false, dest)
    else
      mod_smeta p Shared.set_write_locked;;
      when_ inc_ref_cnt (mod_scc o ref_inc);;
      sm_unlock p;;
      mret (tid, true, memcpy dest (sd_data d) size).

Definition remote_write_lock_and_inc_ref_cnt (p : Z) (size : nat) : M world (Z * bool) :=
  s ← get_smeta p;
  let o := Shared.get_scc_data s in
  sm_lock p;;
  scc_call p (prepare_read sc me);;
  d ← get_scc o;
  if negb (is_valid_data d) then sm_unlock p;; mret (0, false)
  else
    let tid := remove_lock_bit (sd_tid d) in
    s ← get_smeta p;
    if (0 <? Shared.get_reader_count s) || Shared.is_write_locked s
    then sm_unlock p;; mret (tid, false)
    else
      mod_smeta p Shared.set_write_locked;;
      mod_scc o ref_inc;;
      sm_unlock p;;
      mret (tid, true).

(** ** Releasing locks *)

Definition read_lock_release (k : rkey) : M world unit :=
  lm_lock k;;
  r ← get_row k;
  if negb (lm_is_migrated (lr_meta r)) then
    mod_row k (on_meta (lm_set_tid (sub_reader (lm_tid (lr_meta r)))));;
    lm_unlock k
  else
    p ← migrated_ptr r;
    sm_lock p;;
    mod_smeta p Shared.decrease_reader_count;;
    sm_unlock p;;
    lm_unlock k.

Definition remote_read_lock_release (p : Z) : M world unit :=
  sm_lock p;;
  mod_smeta p Shared.decrease_reader_count;;
  sm_unlock p.

Definition write_lock_release (k : rkey) : M world unit :=
  lm_lock k;;
  r ← get_row k;
  if negb (lm_is_migrated (lr_meta r)) then
    mod_row k (on_meta (lm_set_tid (sub_writer (lm_tid (lr_meta r)))));;
    lm_unlock k
  else
    p ← migrated_ptr r;
    sm_lock p;;
    mod_smeta p Shared.clear_write_locked;;
    sm_unlock p;;
    lm_unlock k.

Definition remote_write_lock_release (p : Z) : M world unit :=
  sm_lock p;;
  mod_smeta p Shared.clear_write_locked;;
  sm_unlock p.

(** The overloads that publish the committed version. *)
Definition write_lock_release_new (k : rkey) (size : nat) (new_value : Z) : M world unit :=
  lm_lock k;;
  r ← get_row k;
  if negb (lm_is_migrated (lr_meta r)) then
    mod_row k (on_meta (lm_set_tid new_value));;
    lm_unlock k
  else
    p ← migrated_ptr r;
    s ← get_smeta p;
    let o := Shared.get_scc_data s in
    sm_lock p;;
    mod_smeta p Shared.clear_write_locked;;
    mod_scc o (sd_set_tid new_value);;
    scc_call p (finish_write sc me);;
    sm_unlock p;;
    lm_unlock k.

Definition remote_write_lock_release_new (p : Z) (size : nat) (new_value : Z) : M world unit :=
  s ← get_smeta p;
  let o := Shared.get_scc_data s in
  sm_lock p;;
  mod_smeta p Shared.clear_write_locked;;
  mod_scc o (sd_set_tid new_value);;
  scc_call p (finish_write sc me);;
  sm_unlock p.

(** ** The valid bit *)

Definition modify_tuple_valid_bit (k : rkey) (is_valid is_insert : bool) : M world unit :=
  lm_lock k;;
  r ← get_row k;
  (if lm_is_migrated (lr_meta r) then
     p ← migrated_ptr r;
     s ← get_smeta p;
     let o := Shared.get_scc_data s in
     sm_lock p;;
     mod_scc o (assign_valid is_valid);;
     when_ is_insert
       (scc_call p (prepare_read sc me);; scc_call p (finish_write sc me));;
     sm_unlock p
   else mod_row k (on_meta (lm_set_valid is_valid)));;
  lm_unlock k.

Definition remote_modify_tuple_valid_bit (p : Z) (is_valid is_insert : bool) : M world unit :=
  s ← get_smeta p;
  let o := Shared.get_scc_data s in
  sm_lock p;;
  mod_scc o (assign_valid is_valid);;
  when_ is_insert
    (scc_call p (prepare_read sc me);; scc_call p (finish_write sc me));;
  sm_unlock p.

(** ** Finding and pinning migrated rows *)

Definition get_migrated_row (k : rkey) (inc_ref_cnt : bool) : M world (option Z) :=
  found ← cxl_search k;
  match found with
  | None => mret None
  | Some p =>
      s ← get_smeta p;
      let o := Shared.get_scc_data s in
      sm_lock p;;
      d ← get_scc o;
      if is_valid_data d then
        when_ inc_ref_cnt (mod_scc o ref_inc);;
        sm_unlock p;;
        when_ inc_ref_cnt (mod_scc o (fun d => sd_set_policy (access_row (sd_policy d)) d));;
        mret (Some p)
      else sm_unlock p;; mret None
  end.

Definition decrease_reference_count_via_ptr (p : Z) : M world unit :=
  s ← get_smeta p;
  let o := Shared.get_scc_data s in
  sm_lock p;;
  mod_scc o ref_dec;;
  sm_unlock p.

Definition release_migrated_row (k : rkey) : M world unit :=
  found ← cxl_search k;
  p ← deref (fun _ => found);
  s ← get_smeta p;
  let o := Shared.get_scc_data s in
  sm_lock p;;
  mod_scc o ref_dec;;
  sm_unlock p.

Definition remove_migrated_row (k : rkey) : M world bool := cxl_remove k.
End helper.
End Pasha.
