(* ===== verification/PashaMigration.v ===== *)
(** * Moving tuples between a partition and CXL memory

    The second half of [TwoPLPashaHelper]
    (protocol/TwoPLPasha/TwoPLPashaHelper.h): moving a row into the shared
    region and back, for unordered tables and for ordered tables (where the
    neighbours' next-key information is maintained), and inserting and
    deleting rows of ordered tables.  The callbacks that the code passes to
    the table are run here with the neighbours the table would supply. *)

From S2P Require Import Prelude LockWord SharedWord SCC CXLMemory PashaState PashaHelper.

#[local] Existing Instance pasha_layout.

Module Migration.
Section migration.
Context (sc : SCCManager) (cfg : config) {alloc : CxlAlloc} {pol : PolicyMeta}.
Context (me : Z).

Definition data_size (value_size : nat) : Z := sizeof_SharedDataSCC + Z.of_nat value_size.

(** Allocating the data object of the row; [None] when there is no memory. *)
Definition allocate_scc_data (k : rkey) (value_size : nat) : M world (option Z) :=
  a ← cxlalloc_malloc_wrapper cfg (data_size value_size) DATA_ALLOCATION;
  match a with
  | None => mret None
  | Some o =>
      modify (fun w => set_scc (insert o (cxlalloc_content (in_use w) value_size)) w);;
      mod_row k (on_meta (lm_set_scc_data o));;
      mret (Some o)
  end.

(** The one kept from an earlier migration is reused when software coherence
    is enabled. *)
Definition obtain_scc_data (k : rkey) (value_size : nat) : M world (option Z) :=
  r ← get_row k;
  match lm_scc_data (lr_meta r), enable_scc cfg with
  | Some o, true => mret (Some o)
  | _, _ => allocate_scc_data k value_size
  end.

(** Everything both move-in functions do on a row that is not migrated, with
    its latch held.  [adjacent] is what the ordered version adds: setting or
    clearing the next-key and previous-key bits. *)
Definition move_in_row (k : rkey) (value_size : nat) (inc_ref_cnt : bool)
    (adjacent : Z -> Z) : M world (migration_result * option Z) :=
  a ← cxlalloc_malloc_wrapper cfg sizeof_MetadataShared METADATA_ALLOCATION;
  match a with
  | None => mret (FAIL_OOM, None)
  | Some p =>
      so ← obtain_scc_data k value_size;
      match so with
      | None => mret (FAIL_OOM, None)
      | Some o =>
          modify (set_smeta (insert p (Shared.TwoPLPashaMetadataShared o)));;
          mod_scc o (sd_set_policy (init_migration_policy_metadata k));;
          scc_call p (init_scc_metadata sc me);;
          sm_lock p;;
          r ← get_row k;
          let l := lr_meta r in
          mod_scc o (Pasha.assign_valid (lm_is_valid l));;
          mod_scc o (sd_set_tid (lm_tid l));;
          mod_smeta p (Shared.set_reader_count (read_lock_num (lm_tid l)));;
          mod_smeta p (if is_write_locked (lm_tid l)
                       then Shared.set_write_locked else Shared.clear_write_locked);;
          when_ (lm_modified_since_moved_out l || negb (enable_migration_optimization cfg))
            (mod_scc o (fun d => sd_set_data (memcpy (sd_data d) (lr_data r) value_size) d));;
          mod_row k (on_meta (lm_set_modified_out false));;
          mod_smeta p Shared.clear_is_data_modified_since_moved_in;;
          when_ inc_ref_cnt (mod_scc o ref_inc);;
          mod_smeta p adjacent;;
          ins ← cxl_insert k p;
          mod_row k (on_meta (lm_set_migrated (Some p)));;
          scc_call p (finish_write sc me);;
          sm_unlock p;;
          mret (SUCCESS, Some o)
      end
  end.

(** The row is already in CXL memory: only the reference count changes. *)
Definition pin_migrated_row (k : rkey) (inc_ref_cnt : bool) : M world unit :=
  when_ inc_ref_cnt (
    r ← get_row k;
    p ← migrated_ptr r;
    s ← get_smeta p;
    let o := Shared.get_scc_data s in
    sm_lock p;;
    mod_scc o ref_inc;;
    sm_unlock p).

(** The result and the policy metadata of the row (its data object). *)
Definition move_from_hashmap_to_shared_region (k : rkey) (value_size : nat)
    (inc_ref_cnt : bool) : M world (migration_result * option Z) :=
  lm_lock k;;
  r ← get_row k;
  res ← (if negb (lm_is_migrated (lr_meta r))
         then move_in_row k value_size inc_ref_cnt (fun s => s)
         else pin_migrated_row k inc_ref_cnt;; mret (FAIL_ALREADY_IN_CXL, None));
  lm_unlock k;;
  mret res.

(** [prev_lmeta->is_migrated], read under the neighbour's latch. *)
Definition neighbour_migrated (n : option rkey) : M world bool :=
  match n with
  | None => mret false
  | Some k =>
      lm_lock k;;
      r ← get_row k;
      lm_unlock k;;
      mret (lm_is_migrated (lr_meta r))
  end.

(** Updating the shared word of a neighbour, if there is one and it is migrated. *)
Definition update_neighbour (n : option rkey) (f : Z -> Z) : M world unit :=
  match n with
  | None => mret tt
  | Some k =>
      lm_lock k;;
      r ← get_row k;
      when_ (lm_is_migrated (lr_meta r)) (
        p ← migrated_ptr r;
        sm_lock p;;
        mod_smeta p f;;
        sm_unlock p);;
      lm_unlock k
  end.

Definition set_adjacent_bits (next_migrated prev_migrated : bool) (s : Z) : Z :=
  let s := if next_migrated then Shared.set_next_key_real_bit s
           else Shared.clear_next_key_real_bit s in
  if prev_migrated then Shared.set_prev_key_real_bit s
  else Shared.clear_prev_key_real_bit s.

(** [move_in_processor], on the row and its neighbours. *)
Definition move_in_processor (k : rkey) (prev next : option rkey) (value_size : nat)
    (inc_ref_cnt : bool) : M world (migration_result * option Z) :=
  is_prev_key_migrated ← neighbour_migrated prev;
  is_next_key_migrated ← neighbour_migrated next;
  lm_lock k;;
  r ← get_row k;
  if negb (lm_is_migrated (lr_meta r)) then
    res ← move_in_row k value_size inc_ref_cnt
            (set_adjacent_bits is_next_key_migrated is_prev_key_migrated);
    if decide (res.1 = FAIL_OOM) then lm_unlock k;; mret res
    else
      update_neighbour prev Shared.set_next_key_real_bit;;
      update_neighbour next Shared.set_prev_key_real_bit;;
      lm_unlock k;;
      mret res
  else
    update_neighbour prev Shared.set_next_key_real_bit;;
    update_neighbour next Shared.set_prev_key_real_bit;;
    pin_migrated_row k inc_ref_cnt;;
    lm_unlock k;;
    mret (FAIL_ALREADY_IN_CXL, None).

(** The table runs the callback only when it finds the key. *)
Definition move_from_btree_to_shared_region (k : rkey) (value_size : nat)
    (inc_ref_cnt : bool) : M world (migration_result * option Z) :=
  found ← gets (fun w => w_rows w !! k);
  match found with
  | None => mret (FAIL_OOM, None)
  | Some _ =>
      prev ← gets (prev_key k);
      next ← gets (next_key k);
      move_in_processor k prev next value_size inc_ref_cnt
  end.

Definition count_move_in (c : counters) : counters :=
  MkCounters (mem_stats c) (wrap 64 (num_data_move_in c + 1)) (num_data_move_out c).
Definition count_move_out (c : counters) : counters :=
  MkCounters (mem_stats c) (num_data_move_in c) (wrap 64 (num_data_move_out c + 1)).

Definition move_from_partition_to_shared_region (ty : table_type) (k : rkey)
    (value_size : nat) (inc_ref_cnt : bool) : M world (migration_result * option Z) :=
  res ← (if enable_phantom_detection cfg then
           match ty with
           | HASHMAP => move_from_hashmap_to_shared_region k value_size inc_ref_cnt
           | BTREE => move_from_btree_to_shared_region k value_size inc_ref_cnt
           end
         else move_from_hashmap_to_shared_region k value_size inc_ref_cnt);
  when_ (bool_decide (res.1 = SUCCESS)) (modify (set_stats count_move_in));;
  mret res.

(** ** Moving out *)

(** The version word of the row that leaves CXL memory: the shared version
    with the lock state of the shared word. *)
Definition restored_tid (tid : Z) (s : Z) : Z :=
  let t := set_read_lock_num tid (Shared.get_reader_count s) in
  if Shared.is_write_locked s then set_write_lock_bit t else clear_write_lock_bit t.

(** Copying a migrated row back, with both latches held and no references. *)
Definition copy_back (k : rkey) (p o : Z) (value_size : nat) : M world unit :=
  scc_call p (prepare_read sc me);;
  d ← get_scc o;
  s ← get_smeta p;
  mod_row k (on_meta (lm_set_valid (Pasha.is_valid_data d)));;
  mod_row k (on_meta (lm_set_tid (restored_tid (sd_tid d) s)));;
  when_ (Shared.is_data_modified_since_moved_in s || negb (enable_migration_optimization cfg))
    (mod_row k (on_data (fun b => memcpy b (sd_data d) value_size)));;
  mod_row k (on_meta (lm_set_modified_out false));;
  mod_smeta p Shared.clear_is_data_modified_since_moved_in;;
  mod_scc o (clear_flag valid_flag_index).

(** Freeing the shared word, and the data object unless it is kept for reuse. *)
Definition retire_row (p o : Z) (value_size : nat) : M world unit :=
  when_ (negb (enable_scc cfg)) (
    cxlalloc_free_wrapper cfg (data_size value_size) DATA_ALLOCATION;;
    add_retired_object o);;
  cxlalloc_free_wrapper cfg sizeof_MetadataShared METADATA_ALLOCATION;;
  add_retired_object p.

Definition move_from_hashmap_to_partition (k : rkey) (value_size : nat) : M world bool :=
  lm_lock k;;
  r ← get_row k;
  if lm_is_migrated (lr_meta r) then
    p ← migrated_ptr r;
    s ← get_smeta p;
    let o := Shared.get_scc_data s in
    sm_lock p;;
    d ← get_scc o;
    if 0 <? sd_ref_cnt d then sm_unlock p;; lm_unlock k;; mret false
    else
      copy_back k p o value_size;;
      ret ← cxl_remove k;
      mod_row k (on_meta (lm_set_migrated None));;
      retire_row p o value_size;;
      sm_unlock p;;
      lm_unlock k;;
      mret true
  else lm_unlock k;; mret true.

Definition move_out_processor (k : rkey) (prev next : option rkey) (value_size : nat) :
    M world bool :=
  update_neighbour prev Shared.clear_next_key_real_bit;;
  update_neighbour next Shared.clear_prev_key_real_bit;;
  lm_lock k;;
  r ← get_row k;
  if lm_is_migrated (lr_meta r) then
    p ← migrated_ptr r;
    s ← get_smeta p;
    let o := Shared.get_scc_data s in
    sm_lock p;;
    d ← get_scc o;
    if 0 <? sd_ref_cnt d then sm_unlock p;; lm_unlock k;; mret false
    else
      copy_back k p o value_size;;
      mod_row k (on_meta (lm_set_migrated None));;
      retire_row p o value_size;;
      sm_unlock p;;
      removed ← cxl_remove k;
      CHECK removed;;
      lm_unlock k;;
      mret true
  else lm_unlock k;; mret true.

Definition move_from_btree_to_partition (k : rkey) (value_size : nat) : M world bool :=
  found ← gets (fun w => w_rows w !! k);
  match found with
  | None => mret false
  | Some _ =>
      prev ← gets (prev_key k);
      next ← gets (next_key k);
      move_out_processor k prev next value_size
  end.

Definition move_from_shared_region_to_partition (ty : table_type) (k : rkey)
    (value_size : nat) : M world bool :=
  ok ← (if enable_phantom_detection cfg then
          match ty with
          | HASHMAP => move_from_hashmap_to_partition k value_size
          | BTREE => move_from_btree_to_partition k value_size
          end
        else move_from_hashmap_to_partition k value_size);
  when_ ok (modify (set_stats count_move_out));;
  mret ok.

(** ** Inserting and deleting rows of an ordered table *)

(** [insert_and_process_adjacent_tuples]: the B+tree requires a successor of
    the new key, runs the callback, and inserts an invalid placeholder when
    the callback agrees.  The second result is the locked next row. *)
Definition insert_and_update_next_key_info (k : rkey) (value : bytes)
    (require_lock_next_key : bool) : M world (bool * option rkey) :=
  found ← gets (fun w => w_rows w !! k);
  match found with
  | Some _ => mret (false, None)
  | None =>
      prev ← gets (prev_key k);
      next ← gets (next_key k);
      CHECK (bool_decide (is_Some next));;
      n ← deref (fun _ => next);
      lock_success ← (if require_lock_next_key
                      then nr ← get_row n;
                           res ← Pasha.write_lock sc me n (length (lr_data nr));
                           mret res.2
                      else mret true);
      if lock_success : bool then
        update_neighbour prev Shared.clear_next_key_real_bit;;
        update_neighbour next Shared.clear_prev_key_real_bit;;
        modify (set_rows (insert k (MkRow (TwoPLPashaMetadataLocalInit false) value)));;
        mret (true, if require_lock_next_key then Some n else None)
      else mret (false, None)
  end.

(** The callback of a delete takes the latches of both neighbours before it
    clears their bits, and releases them together. *)
Definition with_latch (n : option rkey) (f : rkey -> M world unit) : M world unit :=
  match n with None => mret tt | Some k => f k end.

Definition clear_bits_latched (n : option rkey) (f : Z -> Z) : M world unit :=
  with_latch n (fun k =>
    r ← get_row k;
    when_ (lm_is_migrated (lr_meta r)) (
      p ← migrated_ptr r;
      sm_lock p;;
      mod_smeta p f;;
      sm_unlock p)).

Definition clear_neighbours (prev next : option rkey) : M world unit :=
  with_latch prev lm_lock;;
  with_latch next lm_lock;;
  clear_bits_latched prev Shared.clear_next_key_real_bit;;
  clear_bits_latched next Shared.clear_prev_key_real_bit;;
  with_latch prev lm_unlock;;
  with_latch next lm_unlock.

(** [delete_and_update_next_key_info]; the results are the out-parameters
    [need_move_out_from_migration_tracker] and [migration_policy_meta]. *)
Definition delete_and_update_next_key_info (k : rkey) (is_local_delete : bool)
    (value_size : nat) : M world (bool * option Z) :=
  found ← gets (fun w => w_rows w !! k);
  CHECK (bool_decide (is_Some found));;
  prev ← gets (prev_key k);
  next ← gets (next_key k);
  clear_neighbours prev next;;
  lm_lock k;;
  r ← get_row k;
  res ← (if lm_is_migrated (lr_meta r) then
           p ← migrated_ptr r;
           s ← get_smeta p;
           let o := Shared.get_scc_data s in
           sm_lock p;;
           when_ is_local_delete (mod_scc o (clear_flag valid_flag_index));;
           retire_row p o value_size;;
           sm_unlock p;;
           mod_row k (on_meta (lm_set_migrated None));;
           mret (true, Some o)
         else mret (false, None));
  mod_row k (on_meta (lm_set_valid false));;
  lm_unlock k;;
  when_ (res.1) (removed ← Pasha.remove_migrated_row k; CHECK removed);;
  modify (set_rows (delete k));;
  mret res.
End migration.
End Migration.
