(* ===== verification/PashaRow.v ===== *)
(** * The logical tuple behind a row

    Wherever its bytes are, a row is one tuple with a reader-writer lock, a
    version, a value and a valid flag: [abs] computes it from the local row
    or, when the row is migrated, from the shared word and the shared data.
    [winv] is the invariant that every operation keeps; it contains the
    coherence of the owner's local copy: unless the shared word says that the
    data was modified, the local bytes equal the shared ones.

    An operation of the helper on one row changes at most the row's cell: the
    local row, its shared word and its data object.  [cell_spec] is the shape
    of a specification of such an operation, for both places a row can be in,
    and [cell_spec_world] lifts it to the whole partition: the invariant is
    kept and every other tuple is left as it was. *)

From S2P Require Import Prelude LockWord SharedWord SCC CXLMemory PashaState PashaHelper.

#[local] Existing Instance pasha_layout.

Record tuple := Tuple { t_lock : rwlock; t_value : bytes; t_valid : bool }.

Definition home_tuple (r : lrow) : tuple :=
  Tuple (view (lm_tid (lr_meta r))) (lr_data r) (lm_is_valid (lr_meta r)).

Definition cxl_tuple (s : Z) (d : TwoPLPashaSharedDataSCC) : tuple :=
  Tuple (RW (Shared.sh_readers (Shared.sview s)) (Shared.sh_writer (Shared.sview s))
           (remove_lock_bit (sd_tid d)))
    (sd_data d) (Pasha.is_valid_data d).

Definition abs (k : rkey) (w : world) : option tuple :=
  match w_rows w !! k with
  | None => None
  | Some r =>
      match lm_migrated_row (lr_meta r) with
      | None => Some (home_tuple r)
      | Some p =>
          match w_smeta w !! p with
          | None => None
          | Some s =>
              match w_scc w !! Shared.get_scc_data s with
              | None => None
              | Some d => Some (cxl_tuple s d)
              end
          end
      end
  end.

(** ** The invariant *)

Definition local_ok (n : nat) (r : lrow) : Prop :=
  lm_latch (lr_meta r) = false /\ fits 64 (lm_tid (lr_meta r)) /\ length (lr_data r) = n.

Definition obj_ok (n : nat) (d : TwoPLPashaSharedDataSCC) : Prop :=
  fits 8 (sd_flags d) /\ fits 8 (sd_ref_cnt d) /\ length (sd_data d) = n.

(** A row in its partition. *)
Definition home_cell (n : nat) (r : lrow) : Prop :=
  local_ok n r /\ lm_migrated_row (lr_meta r) = None /\ lm_is_migrated (lr_meta r) = false /\
  exclusive (view (lm_tid (lr_meta r))).

(** A row in CXL memory: its shared word at [p] and its data object at [o]. *)
Definition cxl_cell (n : nat) (p o : Z) (r : lrow) (s : Z) (d : TwoPLPashaSharedDataSCC) : Prop :=
  local_ok n r /\ lm_migrated_row (lr_meta r) = Some p /\ lm_is_migrated (lr_meta r) = true /\
  lm_scc_data (lr_meta r) = Some o /\
  fits 64 s /\ Shared.sh_latch (Shared.sview s) = false /\ Shared.sh_off (Shared.sview s) = o /\
  fits 64 (sd_tid d) /\ obj_ok n d /\
  exclusive (t_lock (cxl_tuple s d)) /\
  (Shared.sh_modified (Shared.sview s) = false -> lr_data r = sd_data d).

(** A data object kept by a row that is back in its partition holds the row's
    bytes unless the row was modified since. *)
Definition kept_ok (n : nat) (w : world) (r : lrow) : Prop :=
  (lm_scc_data (lr_meta r) = None -> lm_modified_since_moved_out (lr_meta r) = true) /\
  forall o, lm_scc_data (lr_meta r) = Some o ->
    fits 37 o /\ exists d, w_scc w !! o = Some d /\ obj_ok n d /\
      (lm_modified_since_moved_out (lr_meta r) = false -> sd_data d = lr_data r).

Definition row_ok (n : nat) (w : world) (k : rkey) (r : lrow) : Prop :=
  match lm_migrated_row (lr_meta r) with
  | None => home_cell n r /\ w_tbl w !! k = None /\ kept_ok n w r
  | Some p => exists o s d, cxl_cell n p o r s d /\ w_tbl w !! k = Some p /\
      w_smeta w !! p = Some s /\ w_scc w !! o = Some d
  end.

Record winv (size : rkey -> nat) (w : world) : Prop := Winv {
  winv_row : forall k r, w_rows w !! k = Some r -> row_ok (size k) w k r;
  winv_ptr : forall k k' r r' p, w_rows w !! k = Some r -> w_rows w !! k' = Some r' ->
    lm_migrated_row (lr_meta r) = Some p -> lm_migrated_row (lr_meta r') = Some p -> k = k';
  winv_scc : forall k k' r r' o, w_rows w !! k = Some r -> w_rows w !! k' = Some r' ->
    lm_scc_data (lr_meta r) = Some o -> lm_scc_data (lr_meta r') = Some o -> k = k';
  winv_tbl : forall k p, w_tbl w !! k = Some p ->
    exists r, w_rows w !! k = Some r /\ lm_migrated_row (lr_meta r) = Some p
}.

(** ** Outcomes of an operation on the state of the partition *)

(** [m] returns and satisfies [Q]; with [ab] it may also fail a [CHECK]. *)
Definition oks {S A} (ab : bool) (m : M S A) (s : S) (Q : A -> S -> Prop) : Prop :=
  match m s with Ret a s' => Q a s' | Abort => ab = true | _ => False end.

Lemma oks_step {S A B} ab (m : M S A) (f : A -> M S B) s a s' Q :
  m s = Ret a s' -> oks ab (f a) s' Q -> oks ab (m ≫= f) s Q.
Proof. intros E. unfold oks. cbv [mbind M_bind]. now rewrite E. Qed.

Lemma oks_bind {S A B} ab (m : M S A) (f : A -> M S B) s Q :
  oks ab m s (fun a s' => oks ab (f a) s' Q) -> oks ab (m ≫= f) s Q.
Proof. unfold oks. cbv [mbind M_bind]. now destruct (m s). Qed.

Lemma oks_mono {S A} ab (m : M S A) s (P Q : A -> S -> Prop) :
  oks ab m s P -> (forall a s', P a s' -> Q a s') -> oks ab m s Q.
Proof. unfold oks. destruct (m s); naive_solver. Qed.

Lemma oks_assoc {S A B C} ab (m : M S A) (f : A -> M S B) (g : B -> M S C) s Q :
  oks ab (m ≫= fun a => f a ≫= g) s Q -> oks ab ((m ≫= f) ≫= g) s Q.
Proof. unfold oks. now rewrite bind_assoc. Qed.

Lemma oks_unit {S} ab (m : M S unit) s Q : oks ab (m ≫= mret) s Q -> oks ab m s Q.
Proof. unfold oks. cbv [mbind M_bind mret M_ret]. now destruct (m s) as [[] ?| | |]. Qed.

Lemma oks_ret {S A} ab (a : A) (s : S) (Q : A -> S -> Prop) : Q a s -> oks ab (mret a) s Q.
Proof. easy. Qed.

Lemma oks_Ret {S A} (m : M S A) s Q : oks false m s Q -> exists a s', m s = Ret a s' /\ Q a s'.
Proof. unfold oks. destruct (m s); naive_solver. Qed.

Lemma oks_and {S A} ab (m : M S A) s (P Q : A -> S -> Prop) : oks ab m s P -> oks true m s Q -> oks ab m s (fun a s' => P a s' /\ Q a s').
Proof. unfold oks. destruct (m s); naive_solver. Qed.

Lemma oks_abort {S A} ab (m : M S A) s Q : oks ab m s Q -> oks true m s Q.
Proof. unfold oks. now destruct (m s). Qed.

Lemma oks_inv {S A} ab (m : M S A) s Q a s' : oks ab m s Q -> m s = Ret a s' -> Q a s'.
Proof. unfold oks. intros H E. now rewrite E in H. Qed.

(** ** The cell of one row *)

Definition hput (w : world) (k : rkey) (r : lrow) : world := set_rows (insert k r) w.

Definition put (w : world) (k : rkey) (p o : Z) (r : lrow) (s : Z)
    (d : TwoPLPashaSharedDataSCC) : world :=
  World (<[k := r]> (w_rows w)) (<[p := s]> (w_smeta w)) (<[o := d]> (w_scc w)) (w_tbl w)
    (w_stats w) (w_retired w).

Lemma hput_self w k r : w_rows w !! k = Some r -> hput w k r = w.
Proof.
  intros. destruct w. unfold hput, set_rows; cbn in *. now rewrite insert_id.
Qed.

Lemma put_self w k p o r s d :
  w_rows w !! k = Some r -> w_smeta w !! p = Some s -> w_scc w !! o = Some d ->
  put w k p o r s d = w.
Proof. intros. destruct w. unfold put; cbn in *. now rewrite !insert_id. Qed.

Section home_steps.
Context (w : world) (k : rkey).

Lemma get_row_hput r : get_row k (hput w k r) = Ret r (hput w k r).
Proof. unfold get_row, deref; cbn. now rewrite lookup_insert_eq. Qed.

Lemma mod_row_hput f r : mod_row k f (hput w k r) = Ret tt (hput w k (f r)).
Proof.
  unfold mod_row. rewrite (bind_Ret _ _ _ _ _ (get_row_hput r)).
  unfold modify, hput, set_rows; cbn. now rewrite insert_insert_eq.
Qed.

Lemma lm_lock_hput r :
  lm_latch (lr_meta r) = false ->
  lm_lock k (hput w k r) = Ret tt (hput w k (on_meta (lm_set_latch true) r)).
Proof.
  intros Hl. unfold lm_lock. rewrite (bind_Ret _ _ _ _ _ (get_row_hput r)), Hl.
  apply mod_row_hput.
Qed.

Lemma lm_unlock_hput r :
  lm_unlock k (hput w k r) = Ret tt (hput w k (on_meta (lm_set_latch false) r)).
Proof. apply mod_row_hput. Qed.
End home_steps.

Section cxl_steps.
Context (w : world) (k : rkey) (p o : Z).

Lemma get_row_put r s d : get_row k (put w k p o r s d) = Ret r (put w k p o r s d).
Proof. unfold get_row, deref; cbn. now rewrite lookup_insert_eq. Qed.

Lemma mod_row_put f r s d : mod_row k f (put w k p o r s d) = Ret tt (put w k p o (f r) s d).
Proof.
  unfold mod_row. rewrite (bind_Ret _ _ _ _ _ (get_row_put r s d)).
  unfold modify, put, set_rows; cbn. now rewrite insert_insert_eq.
Qed.

Lemma lm_lock_put r s d :
  lm_latch (lr_meta r) = false ->
  lm_lock k (put w k p o r s d) = Ret tt (put w k p o (on_meta (lm_set_latch true) r) s d).
Proof.
  intros Hl. unfold lm_lock. rewrite (bind_Ret _ _ _ _ _ (get_row_put r s d)), Hl.
  apply mod_row_put.
Qed.

Lemma lm_unlock_put r s d :
  lm_unlock k (put w k p o r s d) = Ret tt (put w k p o (on_meta (lm_set_latch false) r) s d).
Proof. apply mod_row_put. Qed.

Lemma get_smeta_put r s d : get_smeta p (put w k p o r s d) = Ret s (put w k p o r s d).
Proof. unfold get_smeta, deref; cbn. now rewrite lookup_insert_eq. Qed.

Lemma mod_smeta_put f r s d :
  mod_smeta p f (put w k p o r s d) = Ret tt (put w k p o r (f s) d).
Proof.
  unfold mod_smeta. rewrite (bind_Ret _ _ _ _ _ (get_smeta_put r s d)).
  unfold modify, put, set_smeta; cbn. now rewrite insert_insert_eq.
Qed.

Lemma sm_lock_put r s d v :
  Shared.word s v -> Shared.sh_latch v = false ->
  sm_lock p (put w k p o r s d) = Ret tt (put w k p o r (Shared.latched s) d).
Proof.
  intros [_ <-] Hl. unfold sm_lock. rewrite (bind_Ret _ _ _ _ _ (get_smeta_put r s d)).
  rewrite Shared.is_latched_view, Hl. apply mod_smeta_put.
Qed.

Lemma sm_unlock_put r s d :
  sm_unlock p (put w k p o r s d) = Ret tt (put w k p o r (Shared.unlatched s) d).
Proof. apply mod_smeta_put. Qed.

Lemma get_scc_put r s d : get_scc o (put w k p o r s d) = Ret d (put w k p o r s d).
Proof. unfold get_scc, deref; cbn. now rewrite lookup_insert_eq. Qed.

Lemma mod_scc_put f r s d :
  mod_scc o f (put w k p o r s d) = Ret tt (put w k p o r s (f d)).
Proof.
  unfold mod_scc. rewrite (bind_Ret _ _ _ _ _ (get_scc_put r s d)).
  unfold modify, put, set_scc; cbn. now rewrite insert_insert_eq.
Qed.

Lemma migrated_ptr_put r r' s d :
  lm_migrated_row (lr_meta r) = Some p ->
  migrated_ptr r (put w k p o r' s d) = Ret p (put w k p o r' s d).
Proof. intros E. unfold migrated_ptr, deref. now rewrite E. Qed.

Lemma scc_call_put m r s d fs s' :
  m (Some s) = Ret fs (Some s') ->
  scc_call p m (put w k p o r s d) = Ret tt (put w k p o r s' d).
Proof.
  intros E. unfold scc_call; cbn. rewrite lookup_insert_eq, E.
  unfold set_smeta, put; cbn. now rewrite insert_insert_eq.
Qed.

Section manager.
Context (sc : SCCManager) {proto : SCCProtocol sc} (me : Z) (Hme : host_ok me).

Lemma init_put r s d v :
  Shared.word s v ->
  exists s' b, scc_call p (init_scc_metadata sc me) (put w k p o r s d)
      = Ret tt (put w k p o r s' d) /\
    Shared.word s' (Shared.with_scc b v) /\ fits 16 b /\ ready me s' = true.
Proof.
  intros [Hs <-]. destruct (init_law me s Hme Hs) as (s' & E & [H1 (b & Hb & H2)] & Hr & _).
  exists s', b. split_and!; [eapply scc_call_put; exact E|split; [exact H1|exact H2]|exact Hb|exact Hr].
Qed.

Lemma prepare_put r s d v :
  Shared.word s v ->
  exists s' b, scc_call p (prepare_read sc me) (put w k p o r s d) = Ret tt (put w k p o r s' d) /\
    Shared.word s' (Shared.with_scc b v) /\ fits 16 b /\ ready me s' = true.
Proof.
  intros [Hs <-]. destruct (prepare_law me s Hme Hs) as (s' & E & [H1 (b & Hb & H2)] & Hr & _).
  exists s', b. split_and!; [eapply scc_call_put; exact E|split; [exact H1|exact H2]|exact Hb|exact Hr].
Qed.

(** [finish_write] may fail its [CHECK] when the host did not prepare. *)
Lemma finish_put r s d v :
  Shared.word s v ->
  oks true (scc_call p (finish_write sc me)) (put w k p o r s d) (fun _ w' =>
    exists s' b, w' = put w k p o r s' d /\ Shared.word s' (Shared.with_scc b v) /\ fits 16 b).
Proof.
  intros [Hs <-]. unfold oks, scc_call; cbn. rewrite lookup_insert_eq.
  pose proof (finish_frame me s Hme Hs) as Hf.
  destruct (finish_write sc me (Some s)) as [fs [s'|]| | |]; try easy.
  destruct Hf as [H1 (b & Hb & H2)].
  exists s', b. split_and!; [|split; [exact H1|exact H2]|exact Hb].
  unfold set_smeta, put; cbn. now rewrite insert_insert_eq.
Qed.

Lemma finish_ready_put r s d v :
  Shared.word s v -> ready me s = true ->
  exists s' b, scc_call p (finish_write sc me) (put w k p o r s d) = Ret tt (put w k p o r s' d) /\
    Shared.word s' (Shared.with_scc b v) /\ fits 16 b.
Proof.
  intros [Hs <-] Hr. destruct (finish_law me s Hme Hs Hr) as (s' & E & [H1 (b & Hb & H2)] & _).
  exists s', b. split_and!; [eapply scc_call_put; exact E|split; [exact H1|exact H2]|exact Hb].
Qed.
End manager.
End cxl_steps.

(** ** Specifications of operations on a cell *)

(** What an operation on a row in its partition may not break: the data object
    the row keeps stays its copy. *)
Definition home_step (r r' : lrow) : Prop :=
  lm_scc_data (lr_meta r') = lm_scc_data (lr_meta r) /\
  (lm_modified_since_moved_out (lr_meta r') = false ->
    lm_modified_since_moved_out (lr_meta r) = false /\ lr_data r' = lr_data r).

Definition home_spec {X} (ab : bool) (k : rkey) (n : nat) (op : M world X)
    (Pre : tuple -> Prop) (P : tuple -> X -> tuple -> Prop) : Prop :=
  forall w r, home_cell n r -> Pre (home_tuple r) ->
    oks ab op (hput w k r) (fun x w' => exists r', w' = hput w k r' /\ home_cell n r' /\
      home_step r r' /\ P (home_tuple r) x (home_tuple r')).

Definition cxl_spec {X} (ab : bool) (k : rkey) (n : nat) (op : Z -> M world X)
    (Pre : tuple -> Prop) (P : tuple -> X -> tuple -> Prop) : Prop :=
  forall w p o r s d, cxl_cell n p o r s d -> Pre (cxl_tuple s d) ->
    oks ab (op p) (put w k p o r s d) (fun x w' => exists r' s' d', w' = put w k p o r' s' d' /\
      cxl_cell n p o r' s' d' /\ P (cxl_tuple s d) x (cxl_tuple s' d')).

(** The same with the shared word before and after. *)
Definition word_spec {X} (ab : bool) (k : rkey) (n : nat) (op : Z -> M world X)
    (Pre : Z -> tuple -> Prop) (P : Z -> tuple -> X -> Z -> tuple -> Prop) : Prop :=
  forall w p o r s d, cxl_cell n p o r s d -> Pre s (cxl_tuple s d) ->
    oks ab (op p) (put w k p o r s d) (fun x w' => exists r' s' d', w' = put w k p o r' s' d' /\
      cxl_cell n p o r' s' d' /\ P s (cxl_tuple s d) x s' (cxl_tuple s' d')).

Lemma cxl_spec_word {X} ab k n (op : Z -> M world X) Pre P :
  cxl_spec ab k n op Pre P -> word_spec ab k n op (fun _ => Pre) (fun _ t x _ t' => P t x t').
Proof. easy. Qed.

Lemma word_spec_cxl {X} ab k n (op : Z -> M world X) Pre P P' :
  word_spec ab k n op (fun _ => Pre) P -> (forall s t x s' t', P s t x s' t' -> P' t x t') -> cxl_spec ab k n op Pre P'.
Proof.
  intros H HP w p o r s d Hc Hp. eapply oks_mono; [exact (H w p o r s d Hc Hp)|].
  intros x w' (r' & s' & d' & -> & Hc' & Hx). eauto 8.
Qed.

(** An operation of the owner works wherever the row is. *)
Definition cell_spec {X} (ab : bool) (k : rkey) (n : nat) (op : M world X)
    (Pre : tuple -> Prop) (P : tuple -> X -> tuple -> Prop) : Prop :=
  home_spec ab k n op Pre P /\ cxl_spec ab k n (fun _ => op) Pre P.

Lemma abs_home k w r :
  w_rows w !! k = Some r -> lm_migrated_row (lr_meta r) = None -> abs k w = Some (home_tuple r).
Proof. intros E En. unfold abs. now rewrite E, En. Qed.

Lemma abs_cxl k w n p o r s d :
  w_rows w !! k = Some r -> cxl_cell n p o r s d -> w_smeta w !! p = Some s ->
  w_scc w !! o = Some d -> abs k w = Some (cxl_tuple s d).
Proof.
  intros E (_ & Hp & _ & _ & _ & _ & Ho & _) Es Ed. unfold abs.
  now rewrite E, Hp, Es, Shared.get_scc_data_view, Ho, Ed.
Qed.

(** The abstraction of a row depends on its own cell only. *)
Lemma abs_frame size k w w' :
  winv size w -> w_rows w' !! k = w_rows w !! k ->
  (forall r p, w_rows w !! k = Some r -> lm_migrated_row (lr_meta r) = Some p ->
    w_smeta w' !! p = w_smeta w !! p) ->
  (forall r o, w_rows w !! k = Some r -> lm_scc_data (lr_meta r) = Some o ->
    w_scc w' !! o = w_scc w !! o) ->
  abs k w' = abs k w.
Proof.
  intros Hw Er Es Ed. unfold abs. rewrite Er. destruct (w_rows w !! k) as [r|] eqn:E; [|easy].
  destruct (lm_migrated_row (lr_meta r)) as [p|] eqn:Ep; [|easy].
  rewrite (Es r p) by easy. pose proof (winv_row _ _ Hw k r E) as Hr. unfold row_ok in Hr.
  rewrite Ep in Hr. destruct Hr as (o & s & d & (_ & _ & _ & Ho & _ & _ & Eo & _) & _ & Hs & _).
  rewrite Hs, Shared.get_scc_data_view, Eo. now rewrite (Ed r o).
Qed.

(** Changing the cell of [k] leaves the other rows as they were. *)
Lemma row_ok_frame n w w' k r :
  row_ok n w k r -> w_tbl w' !! k = w_tbl w !! k ->
  (forall p, lm_migrated_row (lr_meta r) = Some p -> w_smeta w' !! p = w_smeta w !! p) ->
  (forall o, lm_scc_data (lr_meta r) = Some o -> w_scc w' !! o = w_scc w !! o) ->
  row_ok n w' k r.
Proof.
  unfold row_ok. destruct (lm_migrated_row (lr_meta r)) as [p|]; intros H Et Es Ed.
  - destruct H as (o & s & d & Hc & H1 & H2 & H3). exists o, s, d.
    rewrite Et, Es, Ed by (apply Hc || easy). easy.
  - destruct H as (Hc & H1 & H2). rewrite Et. split_and!; try easy.
    split; [apply H2|]. intros o Ho. rewrite Ed by easy. now apply H2.
Qed.

Section world_frame.
Context (size : rkey -> nat) (w : world) (Hw : winv size w).

(** The pointers of two different rows are different. *)
Lemma ptr_ne k k' r r' p p' :
  k' <> k -> w_rows w !! k = Some r -> w_rows w !! k' = Some r' ->
  lm_migrated_row (lr_meta r) = Some p -> lm_migrated_row (lr_meta r') = Some p' -> p <> p'.
Proof. intros Hk E E' Ep Ep' ->. apply Hk. eapply (winv_ptr _ _ Hw); [exact E'|exact E|eauto..]. Qed.

Lemma scc_ne k k' r r' o o' :
  k' <> k -> w_rows w !! k = Some r -> w_rows w !! k' = Some r' ->
  lm_scc_data (lr_meta r) = Some o -> lm_scc_data (lr_meta r') = Some o' -> o <> o'.
Proof. intros Hk E E' Ep Ep' ->. apply Hk. eapply (winv_scc _ _ Hw); [exact E'|exact E|eauto..]. Qed.

Lemma hput_winv k r r' :
  w_rows w !! k = Some r -> home_cell (size k) r -> home_cell (size k) r' -> home_step r r' ->
  winv size (hput w k r') /\ (forall k', k' <> k -> abs k' (hput w k r') = abs k' w).
Proof.
  intros E Hc Hc' [Es Em]. destruct Hc as (_ & En & _), Hc' as (Hl' & En' & Hc').
  split; [constructor|]; cbn; try (intros k' k'' r1 r2 p).
  - intros k' r1 E1. destruct (decide (k' = k)) as [->|Hk]; simplify_map_eq.
    + pose proof (winv_row _ _ Hw k r E) as Hr. unfold row_ok in *.
      rewrite En in Hr. rewrite En'. destruct Hr as (_ & Ht & Hkept).
      destruct Hkept as [Hnone Hkept]. split; [now split|split; [easy|]].
      split.
      { rewrite Es. intros H0. specialize (Hnone H0).
        match goal with |- ?b = true => destruct b eqn:Hb end; [easy|].
        destruct (Em eq_refl). congruence. }
      intros o Ho. rewrite Es in Ho. destruct (Hkept o Ho) as (Hf & d & Hd & Hob & Hdat).
      split; [easy|]. exists d. split_and!; try easy.
      intros Hm. destruct (Em Hm) as [Hm' ->]. auto.
    + eapply row_ok_frame; [exact (winv_row _ _ Hw k' r1 E1)|easy..].
  - intros E1 E2. destruct (decide (k' = k)) as [->|], (decide (k'' = k)) as [->|];
      simplify_map_eq; try congruence. intros; eapply (winv_ptr _ _ Hw); eauto.
  - intros E1 E2. destruct (decide (k' = k)) as [->|], (decide (k'' = k)) as [->|];
      simplify_map_eq; try rewrite Es; intros; eapply (winv_scc _ _ Hw); eauto.
  - intros k' p Hp. destruct (winv_tbl _ _ Hw k' p Hp) as (r1 & E1 & Ep).
    destruct (decide (k' = k)) as [->|]; simplify_map_eq; eauto.
  - intros k' Hk. eapply abs_frame; [exact Hw|cbn; now simplify_map_eq|easy..].
Qed.

Lemma put_winv k p o r s d r' s' d' :
  w_rows w !! k = Some r -> w_tbl w !! k = Some p ->
  cxl_cell (size k) p o r s d -> cxl_cell (size k) p o r' s' d' ->
  winv size (put w k p o r' s' d') /\
  (forall k', k' <> k -> abs k' (put w k p o r' s' d') = abs k' w).
Proof.
  intros E Et (_ & Hp & _ & Ho & _) Hc'. pose proof Hc' as (_ & Hp' & _ & Ho' & _).
  assert (forall k' r1 p1, k' <> k -> w_rows w !! k' = Some r1 ->
    lm_migrated_row (lr_meta r1) = Some p1 -> p <> p1) as Hnp by (intros; eapply ptr_ne; eauto).
  assert (forall k' r1 o1, k' <> k -> w_rows w !! k' = Some r1 ->
    lm_scc_data (lr_meta r1) = Some o1 -> o <> o1) as Hno by (intros; eapply scc_ne; eauto).
  split; [constructor|]; cbn; try (intros k' k'' r1 r2 x).
  - intros k' r1 E1. destruct (decide (k' = k)) as [->|Hk]; simplify_map_eq.
    + unfold row_ok. rewrite Hp'. exists o, s', d'. cbn. now simplify_map_eq.
    + eapply row_ok_frame; [exact (winv_row _ _ Hw k' r1 E1)|easy| |];
        intros x Hx; cbn; rewrite lookup_insert_ne; eauto.
  - intros E1 E2. destruct (decide (k' = k)) as [->|], (decide (k'' = k)) as [->|];
      simplify_map_eq; try rewrite Hp'; try rewrite <- Hp; intros; eapply (winv_ptr _ _ Hw); eauto.
  - intros E1 E2. destruct (decide (k' = k)) as [->|], (decide (k'' = k)) as [->|];
      simplify_map_eq; try rewrite Ho'; try rewrite <- Ho; intros; eapply (winv_scc _ _ Hw); eauto.
  - intros k' x Hx. destruct (winv_tbl _ _ Hw k' x Hx) as (r1 & E1 & Ep).
    destruct (decide (k' = k)) as [->|]; simplify_map_eq; eauto.
  - intros k' Hk. eapply abs_frame; [exact Hw|cbn; now simplify_map_eq| |];
      intros r1 x E1 Hx; cbn; rewrite lookup_insert_ne; eauto.
Qed.

(** Where the row of a tuple is. *)
Lemma abs_cases k t :
  abs k w = Some t ->
  (exists r, w_rows w !! k = Some r /\ w_tbl w !! k = None /\ home_cell (size k) r /\
     t = home_tuple r) \/
  (exists p o r s d, w_rows w !! k = Some r /\ w_tbl w !! k = Some p /\ w_smeta w !! p = Some s /\
     w_scc w !! o = Some d /\ cxl_cell (size k) p o r s d /\ t = cxl_tuple s d).
Proof.
  intros Ht. destruct (w_rows w !! k) as [r|] eqn:E; [|unfold abs in Ht; now rewrite E in Ht].
  pose proof (winv_row _ _ Hw k r E) as Hr. unfold row_ok in Hr.
  destruct (lm_migrated_row (lr_meta r)) as [p|] eqn:Ep.
  - destruct Hr as (o & s & d & Hc & H1 & H2 & H3). right. exists p, o, r, s, d.
    rewrite (abs_cxl _ _ _ _ _ _ _ _ E Hc H2 H3) in Ht. naive_solver.
  - destruct Hr as (Hc & H1 & _). left. exists r.
    rewrite (abs_home _ _ _ E Ep) in Ht. naive_solver.
Qed.

Definition world_post {X} (k : rkey) (t : tuple) (P : tuple -> X -> tuple -> Prop)
    (x : X) (w' : world) : Prop :=
  winv size w' /\ (exists t', abs k w' = Some t' /\ P t x t') /\
  (forall k', k' <> k -> abs k' w' = abs k' w) /\ w_tbl w' = w_tbl w.

Lemma home_spec_world {X} ab k (op : M world X) Pre P r :
  home_spec ab k (size k) op Pre P -> w_rows w !! k = Some r -> home_cell (size k) r ->
  Pre (home_tuple r) -> oks ab op w (world_post k (home_tuple r) P).
Proof.
  intros Hs E Hc Hp. specialize (Hs w r Hc Hp). rewrite hput_self in Hs by easy.
  eapply oks_mono; [exact Hs|]. intros x w' (r' & -> & Hc' & Hst & HP).
  destruct (hput_winv k r r' E Hc Hc' Hst) as [H1 H2]. split_and!; try easy.
  exists (home_tuple r'). split; [|easy]. apply abs_home; [cbn; now simplify_map_eq|apply Hc'].
Qed.

Lemma cxl_spec_world {X} ab k (op : Z -> M world X) Pre P p o r s d :
  cxl_spec ab k (size k) op Pre P -> w_rows w !! k = Some r -> w_tbl w !! k = Some p ->
  w_smeta w !! p = Some s -> w_scc w !! o = Some d -> cxl_cell (size k) p o r s d ->
  Pre (cxl_tuple s d) -> oks ab (op p) w (world_post k (cxl_tuple s d) P).
Proof.
  intros Hs E Et Es Ed Hc Hp. specialize (Hs w p o r s d Hc Hp).
  rewrite put_self in Hs by easy.
  eapply oks_mono; [exact Hs|]. intros x w' (r' & s' & d' & -> & Hc' & HP).
  destruct (put_winv k p o r s d r' s' d' E Et Hc Hc') as [H1 H2]. split_and!; try easy.
  exists (cxl_tuple s' d'). split; [|easy].
  eapply abs_cxl; [|exact Hc'|..]; cbn; now simplify_map_eq.
Qed.

Lemma cell_spec_world {X} ab k (op : M world X) Pre P t :
  cell_spec ab k (size k) op Pre P -> abs k w = Some t -> Pre t ->
  oks ab op w (world_post k t P).
Proof.
  intros [Hh Hx] Ht Hp.
  destruct (abs_cases k t Ht) as [(r & E & _ & Hc & ->)|(p & o & r & s & d & E & Et & Es & Ed & Hc & ->)].
  - eapply home_spec_world; eauto.
  - eapply (cxl_spec_world ab k (fun _ => op)); eauto.
Qed.

(** An operation that another host runs through the CXL index. *)
Definition via_index {X} (k : rkey) (op : Z -> M world X) : M world X :=
  found ← cxl_search k; p ← deref (fun _ => found); op p.

Lemma remote_spec_world {X} ab k (op : Z -> M world X) Pre P t p :
  cxl_spec ab k (size k) op Pre P -> abs k w = Some t -> w_tbl w !! k = Some p -> Pre t ->
  oks ab (via_index k op) w (world_post k t P).
Proof.
  intros Hx Ht Etp Hp.
  destruct (abs_cases k t Ht) as [(r & E & En & _)|(p' & o & r & s & d & E & Et & Es & Ed & Hc & ->)];
    [congruence|]. assert (p' = p) as -> by congruence.
  unfold via_index. eapply oks_step; [reflexivity|]. rewrite Et.
  eapply oks_step; [reflexivity|]. eapply cxl_spec_world; eauto.
Qed.

Lemma tbl_word k p : w_tbl w !! k = Some p -> is_Some (w_smeta w !! p).
Proof.
  intros Hp. destruct (winv_tbl _ _ Hw k p Hp) as (r & E & Ep). pose proof (winv_row _ _ Hw k r E) as Hrow. unfold row_ok in Hrow. rewrite Ep in Hrow.
  destruct Hrow as (o & s & d & _ & _ & Es & _). now exists s.
Qed.

(** *** The shared words of the other rows

    An operation on the row [k] changes no shared word but that of [k]. *)
Definition other_words (k : rkey) (w' : world) : Prop :=
  w_tbl w' = w_tbl w /\ forall k' p, k' <> k -> w_tbl w !! k' = Some p -> w_smeta w' !! p = w_smeta w !! p.

(** The same where [k] may also enter CXL memory. *)
Definition words_kept (k : rkey) (w' : world) : Prop :=
  forall k' p, k' <> k -> w_tbl w' !! k' = Some p -> w_tbl w !! k' = Some p /\ w_smeta w' !! p = w_smeta w !! p.

Lemma other_words_kept k w' : other_words k w' -> words_kept k w'.
Proof. intros [E H] k' p Hk Hp. rewrite E in Hp. split; [exact Hp|now apply (H k')]. Qed.

(** The result of an operation on [k]: what it does to the tuple, and, if the row is
    in CXL memory, to its word. *)
Definition words_post {X} (k : rkey) (t : tuple) (P : tuple -> X -> tuple -> Prop) (Q : Z -> X -> Z -> Prop) (x : X) (w' : world) : Prop :=
  world_post k t P x w' /\ other_words k w' /\
  forall p s, w_tbl w !! k = Some p -> w_smeta w !! p = Some s -> exists s', w_smeta w' !! p = Some s' /\ Q s x s'.

Lemma home_words {X} ab k (op : M world X) Pre P Q r :
  home_spec ab k (size k) op Pre P -> w_rows w !! k = Some r -> w_tbl w !! k = None -> home_cell (size k) r -> Pre (home_tuple r) ->
  oks ab op w (words_post k (home_tuple r) P Q).
Proof.
  intros Hs E En Hc Hp. eapply oks_mono; [apply (oks_and _ _ _ (world_post k (home_tuple r) P) (fun _ w' => other_words k w')); [eapply home_spec_world; eassumption|]|].
  - specialize (Hs w r Hc Hp). rewrite hput_self in Hs by easy. apply (oks_abort ab). eapply oks_mono; [exact Hs|].
    intros x w' (r' & -> & _). now split.
  - intros x w' [H1 H2]. split; [exact H1|]. split; [exact H2|]. intros p s Ep. congruence.
Qed.

Lemma cxl_words {X} ab k (op : Z -> M world X) Pre P P0 (Q : Z -> X -> Z -> Prop) p o r s d :
  word_spec ab k (size k) op Pre P -> (forall s t x s' t', P s t x s' t' -> P0 t x t' /\ Q s x s') ->
  w_rows w !! k = Some r -> w_tbl w !! k = Some p ->
  w_smeta w !! p = Some s -> w_scc w !! o = Some d -> cxl_cell (size k) p o r s d -> Pre s (cxl_tuple s d) ->
  oks ab (op p) w (words_post k (cxl_tuple s d) P0 Q).
Proof.
  intros Hs HP E Et Es Ed Hc Hp. specialize (Hs w p o r s d Hc Hp). rewrite put_self in Hs by easy.
  eapply oks_mono; [exact Hs|]. intros x w' (r' & s' & d' & -> & Hc' & Hx). apply HP in Hx as [Hx Hq].
  destruct (put_winv k p o r s d r' s' d' E Et Hc Hc') as [H1 H2]. split; [|split].
  - split_and!; try easy. exists (cxl_tuple s' d'). split; [|exact Hx]. eapply abs_cxl; [|exact Hc'|..]; cbn; now simplify_map_eq.
  - split; [easy|]. intros k' p' Hk Ht'. cbn. apply lookup_insert_ne. destruct (winv_tbl _ _ Hw k p Et) as (r1 & E1 & Ep1).
    destruct (winv_tbl _ _ Hw k' p' Ht') as (r2 & E2 & Ep2). exact (ptr_ne k k' r1 r2 p p' Hk E1 E2 Ep1 Ep2).
  - intros p' s0 Ep Es0. assert (p' = p) as -> by congruence. assert (s0 = s) as -> by congruence.
    exists s'. split; [cbn; apply lookup_insert_eq|exact Hq].
Qed.

(** An operation of the owner, wherever the row is. *)
Lemma cell_words {X} ab k (op : M world X) Pre PreW P P0 Q t :
  home_spec ab k (size k) op Pre P0 -> word_spec ab k (size k) (fun _ => op) PreW P ->
  (forall s t x s' t', P s t x s' t' -> P0 t x t' /\ Q s x s') -> abs k w = Some t -> Pre t ->
  (forall p s, w_tbl w !! k = Some p -> w_smeta w !! p = Some s -> PreW s t) ->
  oks ab op w (words_post k t P0 Q).
Proof.
  intros Hh Hx HP Ht Hp Hpw. destruct (abs_cases k t Ht) as [(r & E & En & Hc & ->)|(p & o & r & s & d & E & Et & Es & Ed & Hc & ->)].
  - eapply home_words; eauto.
  - eapply (cxl_words ab k (fun _ => op)); eauto.
Qed.
End world_frame.
