(* ===== verification/PashaOps.v ===== *)
(** * What each operation of [TwoPLPashaHelper] does to a tuple

    One specification per operation, over the cell of the row it works on
    ([PashaRow]).  The acquire operations report success exactly when the
    tuple is valid and its lock is free enough, and then hand out the value;
    when the owner acquires a migrated row the decision uses its own copy of
    the valid flag, so that case says only what a success implies.  Every
    operation gives back the latches it takes: the resulting cell is again
    unlatched. *)

From S2P Require Import Prelude LockWord SharedWord SCC CXLMemory PashaState PashaHelper PashaRow.

#[local] Existing Instance pasha_layout.

(** ** The effects on the logical tuple *)

Definition with_lock (f : rwlock -> rwlock) (t : tuple) : tuple :=
  Tuple (f (t_lock t)) (t_value t) (t_valid t).

Definition one_more (l : rwlock) : rwlock := RW (readers l + 1) (writer l) (seq_no l).
Definition one_less (l : rwlock) : rwlock := RW (readers l - 1) (writer l) (seq_no l).
Definition taken (l : rwlock) : rwlock := RW (readers l) true (seq_no l).
Definition freed (l : rwlock) : rwlock := RW (readers l) false (seq_no l).
Definition published (new_value : Z) (l : rwlock) : rwlock := RW (readers l) false new_value.

(** When a read lock and a write lock can be granted. *)
Definition can_share (l : rwlock) : bool := negb (writer l || (readers l =? 31)).
Definition can_own (l : rwlock) : bool := negb (writer l) && (readers l =? 0).

Definition granted (can : rwlock -> bool) (f : rwlock -> rwlock) (t : tuple) (b : bool)
    (t' : tuple) : Prop :=
  if b then can (t_lock t) = true /\ t' = with_lock f t else t' = t.

(** The tuple decides: the result is determined by it. *)
Definition decided (can : rwlock -> bool) (f : rwlock -> rwlock) (t : tuple) (x : Z * bool)
    (t' : tuple) : Prop :=
  x.2 = t_valid t && can (t_lock t) /\ (t_valid t = true -> x.1 = seq_no (t_lock t)) /\
  granted can f t x.2 t'.

(** The bytes handed out on success. *)
Definition handed (dest : bytes) (n : nat) (t : tuple) (b : bool) (out : bytes) : Prop :=
  out = if b then memcpy dest (t_value t) n else dest.

Definition took (can : rwlock -> bool) (f : rwlock -> rwlock) (dest : bytes) (n : nat)
    (t : tuple) (x : Z * bool * bytes) (t' : tuple) : Prop :=
  decided can f t x.1 t' /\ handed dest n t x.1.2 x.2.

(** What a success implies when the owner's copy of the valid flag decides. *)
Definition acquired (can : rwlock -> bool) (f : rwlock -> rwlock) (t : tuple) (x : Z * bool)
    (t' : tuple) : Prop := granted can f t x.2 t'.
Definition acquired_read (can : rwlock -> bool) (f : rwlock -> rwlock) (dest : bytes) (n : nat)
    (t : tuple) (x : Z * bool * bytes) (t' : tuple) : Prop :=
  granted can f t x.1.2 t' /\ handed dest n t x.1.2 x.2.

(** The effect of an operation that cannot fail. *)
Definition becomes {X} (f : tuple -> tuple) (t : tuple) (_ : X) (t' : tuple) : Prop := t' = f t.

Definition with_value (v : bytes) (t : tuple) : tuple := Tuple (t_lock t) v (t_valid t).
Definition with_valid (b : bool) (t : tuple) : tuple := Tuple (t_lock t) (t_value t) b.

Definition held_read (t : tuple) : Prop := 0 < readers (t_lock t) /\ writer (t_lock t) = false.
Definition held_write (t : tuple) : Prop := writer (t_lock t) = true.

(** ** Symbolic execution of the cell *)

Definition vtuple (v : Shared.shared) (d : TwoPLPashaSharedDataSCC) : tuple :=
  Tuple (RW (Shared.sh_readers v) (Shared.sh_writer v) (remove_lock_bit (sd_tid d)))
    (sd_data d) (Pasha.is_valid_data d).

Definition cxl_view (n : nat) (p o : Z) (r : lrow) (v : Shared.shared)
    (d : TwoPLPashaSharedDataSCC) : Prop :=
  (lm_latch (lr_meta r) = false /\ fits 64 (lm_tid (lr_meta r)) /\ length (lr_data r) = n) /\
  lm_migrated_row (lr_meta r) = Some p /\ lm_is_migrated (lr_meta r) = true /\
  lm_scc_data (lr_meta r) = Some o /\
  Shared.sh_latch v = false /\ Shared.sh_off v = o /\
  fits 64 (sd_tid d) /\ obj_ok n d /\
  exclusive (RW (Shared.sh_readers v) (Shared.sh_writer v) (remove_lock_bit (sd_tid d))) /\
  (Shared.sh_modified v = false -> lr_data r = sd_data d).

Lemma cxl_cell_view n p o r s d v :
  Shared.word s v -> cxl_view n p o r v d -> cxl_cell n p o r s d /\ cxl_tuple s d = vtuple v d.
Proof.
  intros [Hs <-] (Hl & H1 & H2 & H3 & H4 & H5 & H6 & H7 & H8 & H9).
  split; [|reflexivity]. split_and!; try assumption; apply Hl || apply H7.
Qed.

Lemma word_spec_intro {X} ab k n (op : Z -> M world X) Pre P :
  (forall w p o r s d v, Shared.word s v -> Shared.get_scc_data s = o ->
    cxl_view n p o r v d -> Pre s (vtuple v d) ->
    oks ab (op p) (put w k p o r s d) (fun x w' => exists r' s' d' v',
      w' = put w k p o r' s' d' /\ Shared.word s' v' /\ cxl_view n p o r' v' d' /\
      P s (vtuple v d) x s' (vtuple v' d'))) ->
  word_spec ab k n op Pre P.
Proof.
  intros H w p o r s d (Hl & H1 & H2 & H3 & H4 & H5 & H6 & H7 & H8 & H9 & H10) Hp.
  assert (Shared.get_scc_data s = o) as Eo by now rewrite Shared.get_scc_data_view.
  assert (cxl_view n p o r (Shared.sview s) d) as Hvw by (split_and!; easy || apply H8 || apply Hl).
  eapply oks_mono; [apply (H w p o r s d (Shared.sview s)); easy|].
  intros x w' (r' & s' & d' & v' & -> & Hw & Hv & HP). exists r', s', d'.
  destruct (cxl_cell_view _ _ _ _ _ _ _ Hw Hv) as [Hc ->]. easy.
Qed.

Lemma cxl_spec_intro {X} ab k n (op : Z -> M world X) Pre P :
  (forall w p o r s d v, Shared.word s v -> Shared.get_scc_data s = o ->
    cxl_view n p o r v d -> Pre (vtuple v d) ->
    oks ab (op p) (put w k p o r s d) (fun x w' => exists r' s' d' v',
      w' = put w k p o r' s' d' /\ Shared.word s' v' /\ cxl_view n p o r' v' d' /\
      P (vtuple v d) x (vtuple v' d'))) ->
  cxl_spec ab k n op Pre P.
Proof. intros H. apply (word_spec_cxl _ _ _ _ _ (fun _ t x _ t' => P t x t')); [|easy]. apply word_spec_intro. exact H. Qed.

Create HintDb word.
#[export] Hint Resolve Shared.word_latched Shared.word_unlatched Shared.word_set_writer
  Shared.word_clear_writer Shared.word_set_modified Shared.word_clear_modified
  Shared.word_inc_readers Shared.word_dec_readers Shared.word_set_readers Shared.word_set_next
  Shared.word_clear_next Shared.word_set_prev Shared.word_clear_prev : word.

Lemma word_is_writer s v : Shared.word s v -> Shared.is_write_locked s = Shared.sh_writer v.
Proof. intros [_ <-]. apply Shared.is_write_locked_view. Qed.
Lemma word_reader_count s v : Shared.word s v -> Shared.get_reader_count s = Shared.sh_readers v.
Proof. intros [_ <-]. apply Shared.get_reader_count_view. Qed.
Lemma word_is_modified s v :
  Shared.word s v -> Shared.is_data_modified_since_moved_in s = Shared.sh_modified v.
Proof. intros [_ <-]. apply Shared.is_modified_view. Qed.
Lemma word_readers_fits s v : Shared.word s v -> fits 5 (Shared.sh_readers v).
Proof. intros [_ <-]. exact (proj1 (Shared.sview_bounds s)). Qed.

Ltac rowc :=
  cbn [lr_meta lr_data on_meta on_data lm_latch lm_tid lm_is_valid lm_is_migrated
       lm_modified_since_moved_out lm_migrated_row lm_scc_data lm_set_latch lm_set_tid lm_set_valid
       lm_set_modified_out lm_set_migrated lm_set_scc_data negb fst snd
       Shared.with_latch Shared.with_scc Shared.with_readers Shared.with_writer
       Shared.with_modified Shared.with_next Shared.with_prev
       Shared.sh_latch Shared.sh_scc Shared.sh_readers Shared.sh_writer Shared.sh_modified
       Shared.sh_next Shared.sh_prev Shared.sh_second Shared.sh_off
       sd_tid sd_flags sd_ref_cnt sd_policy sd_data sd_set_tid sd_set_data sd_set_policy
       ref_inc ref_dec t_lock t_value t_valid readers writer seq_no vtuple home_tuple
       with_lock] in *.

(** The word a chain of accessor calls produces. *)
Ltac word_of := eauto 12 with word.

Ltac prim :=
  first
  [ apply get_row_hput | apply mod_row_hput | apply lm_unlock_hput
  | apply lm_lock_hput; rowc; assumption
  | apply get_row_put | apply mod_row_put | apply lm_unlock_put
  | apply lm_lock_put; rowc; assumption
  | apply get_smeta_put | apply mod_smeta_put | apply sm_unlock_put
  | eapply sm_lock_put; [word_of|rowc; assumption || reflexivity]
  | apply get_scc_put | apply mod_scc_put
  | apply migrated_ptr_put; rowc; assumption
  | reflexivity ].

Ltac step1 :=
  match goal with
  | |- oks _ (mret _) _ _ => apply oks_ret
  | |- oks _ ((_ ≫= _) ≫= _) _ _ => apply oks_assoc
  | |- oks _ (when_ true _ ≫= _) _ _ => unfold when_
  | |- oks _ (when_ false _ ≫= _) _ _ => unfold when_
  | |- oks _ (_ ≫= _) _ _ => eapply oks_step; [prim|]; cbv beta zeta; rowc
  end.
Ltac steps := repeat step1.

(** ** The tests and updates of the version word *)

Lemma share_test t :
  is_write_locked t || (read_lock_num t =? read_lock_max) = negb (can_share (view t)).
Proof. unfold can_share; cbn [view writer readers]. now rewrite negb_involutive. Qed.

Lemma own_test t :
  is_read_locked t || is_write_locked t = negb (can_own (view t)).
Proof.
  unfold can_own; cbn [view writer readers]. rewrite is_read_locked_getf, read_lock_num_getf.
  now destruct (getf _ _ t =? 0), (is_write_locked t).
Qed.

Lemma share_lock t :
  fits 64 t -> can_share (view t) = true ->
  fits 64 (add_reader t) /\ view (add_reader t) = one_more (view t) /\
  exclusive (one_more (view t)).
Proof.
  unfold can_share. cbn [view writer readers]. intros Hf [Hw Hm]%negb_true_iff%orb_false_iff.
  apply Z.eqb_neq in Hm. pose proof (view_ok _ Hf) as [[H0 H1] _]. cbn in H0, H1.
  destruct (view_add_reader t Hf) as [H2 E]; [unfold read_lock_max; cbn; lia|].
  split_and!; [exact H2|exact E|]. unfold one_more; cbn [view writer]. rewrite Hw.
  apply exclusive_readers.
Qed.

Lemma own_lock t :
  fits 64 t -> can_own (view t) = true ->
  fits 64 (add_writer t) /\ view (add_writer t) = taken (view t) /\ exclusive (taken (view t)).
Proof.
  unfold can_own. cbn [view writer readers]. intros Hf [Hw Hm]%andb_true_iff.
  apply negb_true_iff in Hw. apply Z.eqb_eq in Hm.
  destruct (view_add_writer t Hf Hw) as [H2 E].
  split_and!; [exact H2|exact E|]. unfold taken; cbn [view readers]. rewrite Hm.
  apply exclusive_no_readers.
Qed.

(** A version number has the lock bits clear. *)
Lemma version_view v : fits 58 v -> fits 64 v /\ view v = RW 0 false v.
Proof. exact (view_seq (L := pasha_layout) v). Qed.

Lemma relatch r :
  lm_latch (lr_meta r) = false -> on_meta (lm_set_latch false) (on_meta (lm_set_latch true) r) = r.
Proof. destruct r as [[] ?]; cbn. now intros ->. Qed.

Lemma home_same {X} w k n r (P : tuple -> X -> tuple -> Prop) x :
  home_cell n r -> P (home_tuple r) x (home_tuple r) ->
  exists r', hput w k (on_meta (lm_set_latch false) (on_meta (lm_set_latch true) r)) = hput w k r' /\
    home_cell n r' /\ home_step r r' /\ P (home_tuple r) x (home_tuple r').
Proof.
  intros Hc HP. exists r. rewrite relatch by apply Hc. now split_and!.
Qed.

Lemma home_tid {X} w k n r t l (P : tuple -> X -> tuple -> Prop) x :
  home_cell n r -> fits 64 t -> view t = l -> exclusive l ->
  P (home_tuple r) x (Tuple l (lr_data r) (lm_is_valid (lr_meta r))) ->
  exists r', hput w k (on_meta (lm_set_latch false)
      (on_meta (lm_set_tid t) (on_meta (lm_set_latch true) r))) = hput w k r' /\
    home_cell n r' /\ home_step r r' /\ P (home_tuple r) x (home_tuple r').
Proof.
  intros ((Hl & Hf & Hn) & Hm & Hi & _) Ht <- He HP. eexists. split; [reflexivity|].
  split; [|split; [|exact HP]]; [|now split].
  split; [now split|]. now split_and!.
Qed.

(** ** The tests and updates of the shared word *)

Lemma word_share_test s v d :
  Shared.word s v ->
  Shared.is_write_locked s || (Shared.get_reader_count s =? Shared.get_reader_count_max)
  = negb (can_share (t_lock (vtuple v d))).
Proof.
  intros H. rewrite (word_is_writer _ _ H), (word_reader_count _ _ H).
  unfold can_share; cbn. now rewrite negb_involutive.
Qed.

Lemma word_own_test s v d :
  Shared.word s v ->
  (0 <? Shared.get_reader_count s) || Shared.is_write_locked s
  = negb (can_own (t_lock (vtuple v d))).
Proof.
  intros H. rewrite (word_is_writer _ _ H), (word_reader_count _ _ H).
  pose proof (word_readers_fits _ _ H) as [H0 _]. unfold can_own; cbn.
  destruct (Z.ltb_spec 0 (Shared.sh_readers v)), (Z.eqb_spec (Shared.sh_readers v) 0),
    (Shared.sh_writer v); cbn; lia || easy.
Qed.

Lemma can_share_inv l : can_share l = true -> writer l = false /\ readers l <> 31.
Proof.
  unfold can_share. intros [Hw Hm]%negb_true_iff%orb_false_iff.
  now apply Z.eqb_neq in Hm.
Qed.

Lemma can_own_inv l : can_own l = true -> writer l = false /\ readers l = 0.
Proof.
  unfold can_own. intros [Hw Hm]%andb_true_iff. apply negb_true_iff in Hw.
  now apply Z.eqb_eq in Hm.
Qed.

(** ** The flags of the data object *)

Lemma assign_valid_spec b d :
  fits 8 (sd_flags d) ->
  exists fl, Pasha.assign_valid b d = MkScc (sd_tid d) fl (sd_ref_cnt d) (sd_policy d) (sd_data d) /\
    fits 8 fl /\ forall t rc pm da, Pasha.is_valid_data (MkScc t fl rc pm da) = b.
Proof.
  intros Hf.
  assert (forall v, Z.land (wrap 8 v) 1 = Z.land v 1) as Hw.
  { intros v. change 1 with (Z.ones 1). rewrite !Z.land_ones by lia. unfold wrap.
    change (2 ^ 8) with (2 ^ 1 * 2 ^ 7). rewrite Z.rem_mul_r by lia.
    rewrite (Z.mul_comm (2 ^ 1)), Z.mod_add by lia. apply Z.mod_mod. lia. }
  destruct b; eexists; (split; [reflexivity|]); (split; [apply wrap_fits; lia|]); intros;
    unfold Pasha.is_valid_data, get_flag, valid_flag_index; rowc;
    change (Z.shiftl 1 0) with 1; rewrite Hw.
  - rewrite Z.land_lor_distr_l. change (Z.land 1 1) with 1.
    destruct (Z.eqb_spec (Z.lor (Z.land (sd_flags d) 1) 1) 0) as [E|]; [|reflexivity].
    apply Z.lor_eq_0_iff in E. lia.
  - rewrite <- Z.land_assoc. change (Z.land (Z.lnot 1) 1) with 0. now rewrite Z.land_0_r.
Qed.

(** Pinning does not touch the valid flag. *)
Lemma valid_ref_inc d : Pasha.is_valid_data (ref_inc d) = Pasha.is_valid_data d.
Proof. reflexivity. Qed.

(** Reading off the result of a branch. *)
Ltac settle :=
  unfold took, acquired, acquired_read, decided, becomes, with_value, with_valid,
    one_more, one_less, taken, freed, published, granted, handed, with_lock, home_tuple, vtuple; rewrite ?valid_ref_inc; rowc;
  repeat match goal with
  | H : ?b = true |- context [?b] => rewrite H
  | H : ?b = false |- context [?b] => rewrite H
  end; cbn [andb orb negb];
  split_and?; first [reflexivity | assumption | discriminate | intros; discriminate | intros; reflexivity].

Section ops.
Context (sc : SCCManager) {proto : SCCProtocol sc} (me : Z) (Hme : host_ok me).
Context (k : rkey) (n : nat).

(** *** The owner, on a row in its partition *)

(** The four acquire operations differ in the test, the update and the copy. *)
Ltac acquire_home test lock :=
  intros w r Hc _; pose proof Hc as ((Hl & Hf & Hn) & Hm & Hi & He);
  steps; rewrite Hi; rowc; rewrite test;
  destruct (lm_is_valid (lr_meta r)) eqn:Hv; rowc;
    [match goal with |- context [if negb ?b then _ else _] => destruct b eqn:Hcs end; rowc|];
    steps;
  [ match goal with Ht : fits 64 ?t, Hcan : ?can (view ?t) = true |- _ =>
      destruct (lock t Ht Hcan) as (H1 & H2 & H3) end; eapply home_tid; try eassumption; settle
  | apply home_same; [exact Hc|settle]
  | apply home_same; [exact Hc|settle] ].

Lemma read_lock_home :
  home_spec false k n (Pasha.read_lock sc me k n) (fun _ => True) (decided can_share one_more).
Proof using Type. unfold Pasha.read_lock. acquire_home share_test share_lock. Qed.

Lemma write_lock_home :
  home_spec false k n (Pasha.write_lock sc me k n) (fun _ => True) (decided can_own taken).
Proof using Type. unfold Pasha.write_lock. acquire_home own_test own_lock. Qed.

Lemma take_read_lock_and_read_home dest :
  home_spec false k n (Pasha.take_read_lock_and_read sc me k dest n) (fun _ => True)
    (took can_share one_more dest n).
Proof using Type. unfold Pasha.take_read_lock_and_read. acquire_home share_test share_lock. Qed.

Lemma take_write_lock_and_read_home dest :
  home_spec false k n (Pasha.take_write_lock_and_read sc me k dest n) (fun _ => True)
    (took can_own taken dest n).
Proof using Type. unfold Pasha.take_write_lock_and_read. acquire_home own_test own_lock. Qed.

(** *** Releases, updates and the valid bit, in the partition *)

Ltac start_home :=
  intros w r Hc Hp; pose proof Hc as ((Hl & Hf & Hn) & Hm & Hi & He); apply oks_unit;
  steps; rewrite Hi; rowc; steps.

Lemma read_lock_release_home :
  home_spec false k n (Pasha.read_lock_release k) held_read (becomes (with_lock one_less)).
Proof using Type.
  unfold Pasha.read_lock_release. start_home. destruct Hp as [Hr Hw]. cbn in Hr, Hw.
  destruct (view_sub_reader _ Hf Hr) as [H1 H2]. rewrite Hw in H2.
  eapply home_tid; try eassumption; [apply exclusive_readers|].
  unfold becomes, with_lock, one_less, home_tuple; rowc. unfold view. now rowc; rewrite Hw.
Qed.

Lemma write_lock_release_home :
  home_spec false k n (Pasha.write_lock_release k) held_write (becomes (with_lock freed)).
Proof using Type.
  unfold Pasha.write_lock_release. start_home. cbn in Hp.
  destruct (view_sub_writer _ Hf Hp) as [H1 H2].
  eapply home_tid; try eassumption; [apply exclusive_readers|reflexivity].
Qed.

(** The committed version has no lock bits: the write lock is released by it. *)
Lemma write_lock_release_new_home new_value :
  fits 58 new_value ->
  home_spec false k n (Pasha.write_lock_release_new sc me k n new_value) held_write
    (becomes (with_lock (published new_value))).
Proof using Type.
  intros Hv. unfold Pasha.write_lock_release_new. start_home. cbn in Hp.
  destruct (version_view new_value Hv) as [H1 H2].
  eapply home_tid; try eassumption; [apply exclusive_readers|].
  unfold becomes, with_lock, published, home_tuple; rowc. unfold view; rowc.
  pose proof (He Hp) as Hr. cbn in Hr. now rewrite Hr.
Qed.

Lemma update_home value :
  length value = n ->
  home_spec false k n (Pasha.update k value n) (fun _ => True) (becomes (with_value value)).
Proof using Type.
  intros Hlen. unfold Pasha.update. start_home. eexists. split; [reflexivity|].
  unfold home_cell, local_ok, home_step, becomes, with_value, home_tuple; rowc.
  rewrite memcpy_full by assumption. split_and!; try assumption; try reflexivity; discriminate.
Qed.

Lemma modify_tuple_valid_bit_home b ins :
  home_spec false k n (Pasha.modify_tuple_valid_bit sc me k b ins) (fun _ => True)
    (becomes (with_valid b)).
Proof using Type.
  unfold Pasha.modify_tuple_valid_bit. start_home. eexists. split; [reflexivity|].
  unfold home_cell, local_ok, home_step, becomes, with_valid, home_tuple; rowc.
  split_and!; try assumption; try reflexivity. intros Hmo. split; [exact Hmo|reflexivity].
Qed.

(** *** The owner, on a migrated row *)

(** The local row after a refresh: the same row, with a copy of the data. *)
Definition same_row (r r' : lrow) : Prop :=
  lm_latch (lr_meta r') = lm_latch (lr_meta r) /\
  lm_migrated_row (lr_meta r') = lm_migrated_row (lr_meta r) /\
  lm_is_migrated (lr_meta r') = lm_is_migrated (lr_meta r) /\
  lm_scc_data (lr_meta r') = lm_scc_data (lr_meta r) /\
  fits 64 (lm_tid (lr_meta r')) /\ length (lr_data r') = n.

Lemma refresh_put w p o r s d v :
  Shared.word s v -> fits 64 (lm_tid (lr_meta r)) -> length (lr_data r) = n ->
  fits 64 (sd_tid d) -> length (sd_data d) = n ->
  (Shared.sh_modified v = false -> lr_data r = sd_data d) ->
  exists x r' s' m,
    Pasha.refresh_local_copy k p o n (put w k p o r s d) = Ret x (put w k p o r' s' d) /\
    Shared.word s' (Shared.with_modified m v) /\ same_row r r' /\
    (m = false -> lr_data r' = sd_data d) /\ (x <> None -> lr_data r' = sd_data d).
Proof using Type.
  intros Hs Hf Hn Hdf Hdn Hco. unfold Pasha.refresh_local_copy.
  erewrite bind_Ret by apply get_smeta_put. cbv beta. rewrite (word_is_modified _ _ Hs).
  destruct (Shared.sh_modified v) eqn:Em.
  - erewrite bind_Ret by apply get_scc_put. cbv beta zeta.
    destruct (Pasha.is_valid_data d) eqn:Ev; cbn [negb].
    + do 4 (erewrite bind_Ret by (apply mod_row_put || apply mod_smeta_put); cbv beta).
      do 3 eexists. exists false. split; [reflexivity|]. split; [word_of|].
      unfold same_row; rowc. rewrite memcpy_full by assumption. now split_and!.
    + exists None, r, s, true. split; [reflexivity|]. split; [|now split_and!].
      destruct Hs as [H1 <-]. split; [exact H1|]. unfold Shared.with_modified. rewrite <- Em.
      now destruct (Shared.sview s).
  - erewrite bind_Ret by apply get_row_put. cbv beta.
    assert (Shared.word s (Shared.with_modified false v)) as Hs'.
    { destruct Hs as [H1 <-]. split; [exact H1|]. unfold Shared.with_modified. rewrite <- Em.
      now destruct (Shared.sview s). }
    destruct (lm_is_valid (lr_meta r)); cbn [negb];
      do 3 eexists; exists false; (split; [reflexivity|]); (split; [exact Hs'|]);
      (split; [now split_and!|]); split; intros _; auto.
Qed.

(** The cell after the owner released the latches of a migrated row. *)
Lemma owner_cell p o r r' v v' d :
  cxl_view n p o r v d -> same_row (on_meta (lm_set_latch true) r) r' ->
  Shared.sh_off v' = Shared.sh_off v -> Shared.sh_latch v' = false ->
  exclusive (RW (Shared.sh_readers v') (Shared.sh_writer v') (remove_lock_bit (sd_tid d))) ->
  (Shared.sh_modified v' = false -> lr_data r' = sd_data d) ->
  cxl_view n p o (on_meta (lm_set_latch false) r') v' d.
Proof using Type.
  intros (Hl & H1 & H2 & H3 & H4 & H5 & H6 & H7 & H8 & H9) (S1 & S2 & S3 & S4 & S5 & S6) Ho Hla He Hco.
  unfold cxl_view; rowc. rewrite S2, S3, S4, Ho, Hla. split_and!; try assumption; try reflexivity; apply H7.
Qed.

(** [prepare_read], and then the refresh of the local copy. *)
Ltac prepare :=
  match goal with
  | |- oks _ (scc_call _ _ ≫= _) (put ?w ?k ?p ?o ?r ?s ?d) _ =>
      let s1 := fresh "s" in let b := fresh "b" in let E := fresh in
      edestruct (prepare_put w k p o sc me Hme r s d) as (s1 & b & E & ? & ? & ?);
      [word_of|]; eapply oks_step; [exact E|]; clear E; cbv beta
  end.
Ltac refresh x Hw Hr Hcm Hcx :=
  match goal with
  | |- oks _ (Pasha.refresh_local_copy _ _ _ _ ≫= _) (put ?w ?k ?p ?o ?r ?s ?d) _ =>
      let E := fresh in
      edestruct (refresh_put w p o r s d) as (x & ? & ? & ? & E & Hw & Hr & Hcm & Hcx);
      [eassumption..|]; eapply oks_step; [exact E|]; clear E; cbv beta; rowc
  end.

(** The cell after both latches were released. *)
Ltac close_owner Hv Hr :=
  do 4 eexists; (split; [reflexivity|]); (split; [word_of|]);
  (split; [eapply owner_cell; [exact Hv|exact Hr|rowc; reflexivity..|rowc; assumption|rowc; assumption]|]).

(** [intro] is the lemma that opens the specification, [fin] closes a branch. *)
Ltac acquire_owner_with intro fin test upd :=
  apply intro; intros w p o r s d v Hs Eo Hv Hp;
  pose proof Hv as ((Hl & Hf & Hn) & Hm & Hi & Hsc & Hla & Hoff & Hdf & (Hfl & Hrc & Hdn) & He & Hco);
  steps; rewrite Hi; rowc; steps; rewrite Eo; steps; prepare;
  let x := fresh "x" in let Hw := fresh "Hw" in let Hr := fresh "Hr" in
  let Hcm := fresh "Hcm" in let Hcx := fresh "Hcx" in let Hcan := fresh "Hcan" in
  refresh x Hw Hr Hcm Hcx; destruct x as [tid|]; steps; [|close_owner Hv Hr; fin];
  rewrite (test _ _ d Hw); rowc;
  match goal with |- context [if negb ?c then _ else _] => destruct c eqn:Hcan end; rowc; steps;
  [ destruct (upd _ _ d Hw Hcan) as [Hw' He']; close_owner Hv Hr;
    try rewrite Hcx by discriminate; fin
  | close_owner Hv Hr; fin ].
Ltac acquire_owner test upd := acquire_owner_with @cxl_spec_intro ltac:(settle) test upd.

(** A host that has prepared stays ready while only other fields change. *)
Lemma word_ready s v s' v' :
  Shared.word s v -> Shared.word s' v' -> Shared.sh_scc v' = Shared.sh_scc v -> ready me s = true -> ready me s' = true.
Proof using Hme. intros [_ <-] [_ <-] E <-. now apply ready_scc. Qed.
Ltac still_ready :=
  intros; first [discriminate | match goal with Hr : ready me ?s = true |- ready me _ = true => eapply (word_ready s); [word_of|word_of|rowc; reflexivity|exact Hr] end].

(** A write lock leaves the host ready to finish its write. *)
Definition took_ready (P : tuple -> Z * bool * bytes -> tuple -> Prop) (_ : Z) (t : tuple) (x : Z * bool * bytes) (s' : Z) (t' : tuple) : Prop :=
  P t x t' /\ (x.1.2 = true -> ready me s' = true).

Lemma share_word s v d :
  Shared.word s v -> can_share (t_lock (vtuple v d)) = true ->
  Shared.word (Shared.increase_reader_count s) (Shared.with_readers (Shared.sh_readers v + 1) v) /\
  exclusive (one_more (t_lock (vtuple v d))).
Proof using Type.
  intros Hs Hc. apply can_share_inv in Hc as [Hw Hr]. cbn in Hw, Hr. split.
  - now apply Shared.word_inc_readers.
  - unfold one_more, vtuple; rowc. rewrite Hw. apply exclusive_readers.
Qed.

Lemma own_word s v d :
  Shared.word s v -> can_own (t_lock (vtuple v d)) = true ->
  Shared.word (Shared.set_write_locked s) (Shared.with_writer true v) /\
  exclusive (taken (t_lock (vtuple v d))).
Proof using Type.
  intros Hs Hc. apply can_own_inv in Hc as [Hw Hr]. cbn in Hw, Hr. split.
  - now apply Shared.word_set_writer.
  - unfold taken, vtuple; rowc. rewrite Hr. apply exclusive_no_readers.
Qed.

Lemma read_lock_cxl :
  cxl_spec false k n (fun _ => Pasha.read_lock sc me k n) (fun _ => True) (acquired can_share one_more).
Proof using Hme proto.
  unfold Pasha.read_lock. acquire_owner word_share_test share_word.
Qed.

Lemma write_lock_cxl :
  cxl_spec false k n (fun _ => Pasha.write_lock sc me k n) (fun _ => True) (acquired can_own taken).
Proof using Hme proto.
  unfold Pasha.write_lock. acquire_owner word_own_test own_word.
Qed.

Lemma take_read_lock_and_read_cxl dest :
  cxl_spec false k n (fun _ => Pasha.take_read_lock_and_read sc me k dest n) (fun _ => True)
    (acquired_read can_share one_more dest n).
Proof using Hme proto.
  unfold Pasha.take_read_lock_and_read. acquire_owner word_share_test share_word.
Qed.

Lemma take_write_lock_and_read_word dest :
  word_spec false k n (fun _ => Pasha.take_write_lock_and_read sc me k dest n) (fun _ _ => True)
    (took_ready (acquired_read can_own taken dest n)).
Proof using Hme proto.
  unfold Pasha.take_write_lock_and_read. acquire_owner_with @word_spec_intro ltac:(split; [settle|rowc; still_ready]) word_own_test own_word.
Qed.

Lemma take_write_lock_and_read_cxl dest :
  cxl_spec false k n (fun _ => Pasha.take_write_lock_and_read sc me k dest n) (fun _ => True)
    (acquired_read can_own taken dest n).
Proof using Hme proto. eapply word_spec_cxl; [exact (take_write_lock_and_read_word dest)|]. now intros s t x s' t' [H _]. Qed.

(** *** Releases, updates and the valid bit, on a migrated row *)

Ltac open_with intro :=
  apply intro; intros w p o r s d v Hs Eo Hv Hp;
  pose proof Hv as ((Hl & Hf & Hn) & Hm & Hi & Hsc & Hla & Hoff & Hdf & (Hfl & Hrc & Hdn) & He & Hco);
  rewrite ?Eo.

Ltac open_cxl := open_with @cxl_spec_intro.

(** The resulting cell, component by component. *)
Ltac close_cxl :=
  do 4 eexists; (split; [reflexivity|]); (split; [word_of|]);
  (split; [unfold cxl_view, obj_ok; rowc; rewrite ?memcpy_full by assumption;
           split_and!; try assumption; try reflexivity|]).

Lemma read_lock_release_cxl :
  cxl_spec false k n (fun _ => Pasha.read_lock_release k) held_read (becomes (with_lock one_less)).
Proof using Type.
  unfold Pasha.read_lock_release. open_cxl. destruct Hp as [Hr Hw]. cbn in Hr, Hw.
  apply oks_unit. steps. rewrite Hi. rowc. steps. close_cxl.
  - rewrite Hw. apply exclusive_readers.
  - settle.
Qed.

Lemma remote_read_lock_release_cxl :
  cxl_spec false k n Pasha.remote_read_lock_release held_read (becomes (with_lock one_less)).
Proof using Type.
  unfold Pasha.remote_read_lock_release. open_cxl. destruct Hp as [Hr Hw]. cbn in Hr, Hw.
  apply oks_unit. steps. close_cxl.
  - rewrite Hw. apply exclusive_readers.
  - settle.
Qed.

Lemma write_lock_release_cxl :
  cxl_spec false k n (fun _ => Pasha.write_lock_release k) held_write (becomes (with_lock freed)).
Proof using Type.
  unfold Pasha.write_lock_release. open_cxl. apply oks_unit. steps. rewrite Hi. rowc. steps.
  close_cxl; [apply exclusive_readers|settle].
Qed.

Lemma remote_write_lock_release_cxl :
  cxl_spec false k n Pasha.remote_write_lock_release held_write (becomes (with_lock freed)).
Proof using Type.
  unfold Pasha.remote_write_lock_release. open_cxl. apply oks_unit. steps.
  close_cxl; [apply exclusive_readers|settle].
Qed.

(** [finish_write] of the coherence manager, for a host that is ready or not. *)
Ltac finish :=
  match goal with
  | |- oks true (scc_call _ _ ≫= _) (put ?w ?k ?p ?o ?r ?s ?d) _ =>
      eapply oks_bind, oks_mono; [eapply (finish_put w k p o sc me Hme r s d); word_of|];
      cbv beta; intros _ ? (? & ? & -> & ? & ?)
  | |- oks false (scc_call _ _ ≫= _) (put ?w ?k ?p ?o ?r ?s ?d) _ =>
      let E := fresh in
      edestruct (finish_ready_put w k p o sc me Hme r s d) as (? & ? & E & ? & ?);
      [word_of|still_ready|]; eapply oks_step; [exact E|]; clear E; cbv beta
  end.

Lemma version_seq new_value : fits 58 new_value -> remove_lock_bit new_value = new_value.
Proof using Type. intros H. destruct (version_view new_value H) as [_ E]. now injection E. Qed.

(** The write is published, or the check of [finish_write] fails; it does not fail
    for a host that is ready. *)
Definition may_finish (ab : bool) (s : Z) (t : tuple) : Prop := held_write t /\ (ab = false -> ready me s = true).

Lemma write_lock_release_new_word ab new_value :
  fits 58 new_value ->
  word_spec ab k n (fun _ => Pasha.write_lock_release_new sc me k n new_value) (may_finish ab)
    (fun _ t x _ t' => becomes (X := unit) (with_lock (published new_value)) t x t').
Proof using Hme proto.
  intros Hnv. unfold Pasha.write_lock_release_new. open_with @word_spec_intro. destruct Hp as [_ Hrdy].
  apply oks_unit. steps. rewrite Hi. rowc. steps. rewrite Eo. steps.
  pose proof (version_view _ Hnv) as [Hnv64 _]. pose proof (version_seq _ Hnv) as Hnvs.
  destruct ab; [|specialize (Hrdy eq_refl)]; finish; steps; (close_cxl; [apply exclusive_readers|]);
  unfold becomes, with_lock, published, vtuple; rowc; rewrite Hnvs; reflexivity.
Qed.

Lemma write_lock_release_new_cxl new_value :
  fits 58 new_value ->
  cxl_spec true k n (fun _ => Pasha.write_lock_release_new sc me k n new_value) held_write
    (becomes (with_lock (published new_value))).
Proof using Hme proto.
  intros Hnv w p o r s d Hc Hp. exact (write_lock_release_new_word true new_value Hnv w p o r s d Hc (conj Hp (fun E => False_ind _ (Bool.diff_true_false E)))).
Qed.

Lemma remote_write_lock_release_new_word ab new_value :
  fits 58 new_value ->
  word_spec ab k n (fun p => Pasha.remote_write_lock_release_new sc me p n new_value) (may_finish ab)
    (fun _ t x _ t' => becomes (X := unit) (with_lock (published new_value)) t x t').
Proof using Hme proto.
  intros Hnv. unfold Pasha.remote_write_lock_release_new. open_with @word_spec_intro. destruct Hp as [_ Hrdy]. apply oks_unit. steps.
  rewrite Eo. steps.
  pose proof (version_view _ Hnv) as [Hnv64 _]. pose proof (version_seq _ Hnv) as Hnvs.
  destruct ab; [|specialize (Hrdy eq_refl)]; finish; steps; (close_cxl; [apply exclusive_readers|]);
  unfold becomes, with_lock, published, vtuple; rowc; rewrite Hnvs; reflexivity.
Qed.

Lemma remote_write_lock_release_new_cxl new_value :
  fits 58 new_value ->
  cxl_spec true k n (fun p => Pasha.remote_write_lock_release_new sc me p n new_value) held_write
    (becomes (with_lock (published new_value))).
Proof using Hme proto.
  intros Hnv w p o r s d Hc Hp. exact (remote_write_lock_release_new_word true new_value Hnv w p o r s d Hc (conj Hp (fun E => False_ind _ (Bool.diff_true_false E)))).
Qed.

(** Writing the data leaves the coherence bits alone. *)
Definition keeps_bits (P : tuple -> unit -> tuple -> Prop) (s : Z) (t : tuple) (x : unit) (s' : Z) (t' : tuple) : Prop :=
  P t x t' /\ Shared.sh_scc (Shared.sview s') = Shared.sh_scc (Shared.sview s).

Lemma word_bits s v s' v' : Shared.word s v -> Shared.word s' v' -> Shared.sh_scc v' = Shared.sh_scc v -> Shared.sh_scc (Shared.sview s') = Shared.sh_scc (Shared.sview s).
Proof using Type. now intros [_ <-] [_ <-]. Qed.

Lemma update_word value :
  length value = n ->
  word_spec false k n (fun _ => Pasha.update k value n) (fun _ _ => True) (keeps_bits (becomes (with_value value))).
Proof using Type.
  intros Hlen. unfold Pasha.update. open_with @word_spec_intro. apply oks_unit. steps. rewrite Hi. rowc. steps.
  rewrite Eo. steps. close_cxl; [discriminate|]. split; [|eapply word_bits; [exact Hs|word_of|rowc; reflexivity]]. unfold becomes, vtuple; rowc.
  rewrite memcpy_full by assumption. reflexivity.
Qed.

Lemma update_cxl value :
  length value = n ->
  cxl_spec false k n (fun _ => Pasha.update k value n) (fun _ => True) (becomes (with_value value)).
Proof using Type. intros Hlen. eapply word_spec_cxl; [exact (update_word value Hlen)|]. now intros s t x s' t' [H _]. Qed.

Lemma remote_update_word value :
  length value = n ->
  word_spec false k n (fun p => Pasha.remote_update p value n) (fun _ _ => True) (keeps_bits (becomes (with_value value))).
Proof using Type.
  intros Hlen. unfold Pasha.remote_update. open_with @word_spec_intro. apply oks_unit. steps.
  rewrite Eo. steps. close_cxl; [discriminate|]. split; [|eapply word_bits; [exact Hs|word_of|rowc; reflexivity]]. unfold becomes, vtuple; rowc.
  rewrite memcpy_full by assumption. reflexivity.
Qed.

Lemma remote_update_cxl value :
  length value = n ->
  cxl_spec false k n (fun p => Pasha.remote_update p value n) (fun _ => True)
    (becomes (with_value value)).
Proof using Type. intros Hlen. eapply word_spec_cxl; [exact (remote_update_word value Hlen)|]. now intros s t x s' t' [H _]. Qed.

(** Publishing an inserted row: [prepare_read] and then [finish_write]. *)
Lemma publish_cxl {X} (ab is_insert : bool) w p o r s d v (f : unit -> M world X) Q :
  Shared.word s v ->
  (forall s' b, Shared.word s' (Shared.with_scc b v) -> oks ab (f tt) (put w k p o r s' d) Q) ->
  oks ab (when_ is_insert (scc_call p (prepare_read sc me);; scc_call p (finish_write sc me)) ≫= f)
    (put w k p o r s d) Q.
Proof using Hme proto.
  intros Hs Hk. destruct is_insert; unfold when_.
  - apply oks_assoc.
    destruct (prepare_put w k p o sc me Hme r s d v Hs) as (s1 & b1 & E1 & Hs1 & _ & Hr1).
    eapply oks_step; [exact E1|]. cbv beta.
    destruct (finish_ready_put w k p o sc me Hme r s1 d _ Hs1 Hr1) as (s2 & b2 & E2 & Hs2 & _).
    eapply oks_step; [exact E2|]. exact (Hk s2 b2 Hs2).
  - eapply oks_step; [reflexivity|]. apply (Hk s (Shared.sh_scc v)). destruct v; exact Hs.
Qed.

Ltac valid_bit :=
  eapply publish_cxl; [word_of|]; intros s' c Hs'; steps;
  match goal with Hfl : fits 8 (sd_flags ?d) |- context [Pasha.assign_valid ?b ?d] =>
    let fl := fresh "fl" in let Hval := fresh "Hval" in
    destruct (assign_valid_spec b d Hfl) as (fl & -> & ? & Hval); close_cxl;
    unfold becomes, with_valid, vtuple; rowc; rewrite Hval; reflexivity
  end.

Lemma modify_tuple_valid_bit_cxl b ins :
  cxl_spec false k n (fun _ => Pasha.modify_tuple_valid_bit sc me k b ins) (fun _ => True)
    (becomes (with_valid b)).
Proof using Hme proto.
  unfold Pasha.modify_tuple_valid_bit. open_cxl. apply oks_unit. steps. rewrite Hi. rowc. steps.
  rewrite Eo. steps. valid_bit.
Qed.

Lemma remote_modify_tuple_valid_bit_cxl b ins :
  cxl_spec false k n (fun p => Pasha.remote_modify_tuple_valid_bit sc me p b ins) (fun _ => True)
    (becomes (with_valid b)).
Proof using Hme proto.
  unfold Pasha.remote_modify_tuple_valid_bit. open_cxl. apply oks_unit. steps.
  rewrite Eo. steps. valid_bit.
Qed.

(** *** Other hosts *)

Ltac acquire_remote_with intro fin test upd :=
  apply intro; intros w p o r s d v Hs Eo Hv Hp;
  pose proof Hv as ((Hl & Hf & Hn) & Hm & Hi & Hsc & Hla & Hoff & Hdf & (Hfl & Hrc & Hdn) & He & Hco);
  steps; rewrite ?Eo; steps; prepare; steps;
  match goal with |- context [Pasha.is_valid_data ?d] =>
    destruct (Pasha.is_valid_data d) eqn:Hvd end; rowc; steps; [|close_cxl; fin];
  match goal with Hw : Shared.word ?s ?v |- context [Shared.is_write_locked ?s] =>
    rewrite (test _ _ d Hw); rowc;
    let Hcan := fresh "Hcan" in
    match goal with |- context [if negb ?c then _ else _] => destruct c eqn:Hcan end;
    rowc; steps; [destruct (upd _ _ d Hw Hcan)|close_cxl; fin] end.
Ltac acquire_remote test upd := acquire_remote_with @cxl_spec_intro ltac:(settle) test upd.

Lemma remote_take_read_lock_and_read_cxl dest inc :
  cxl_spec false k n (fun p => Pasha.remote_take_read_lock_and_read sc me p dest n inc)
    (fun _ => True) (took can_share one_more dest n).
Proof using Hme proto.
  unfold Pasha.remote_take_read_lock_and_read. acquire_remote word_share_test share_word.
  destruct inc; steps; close_cxl; settle || (apply wrap_fits; lia).
Qed.

Lemma remote_take_write_lock_and_read_word dest inc :
  word_spec false k n (fun p => Pasha.remote_take_write_lock_and_read sc me p dest n inc)
    (fun _ _ => True) (took_ready (took can_own taken dest n)).
Proof using Hme proto.
  unfold Pasha.remote_take_write_lock_and_read. acquire_remote_with @word_spec_intro ltac:(split; [settle|rowc; still_ready]) word_own_test own_word.
  destruct inc; steps; close_cxl; first [apply wrap_fits; lia | assumption | split; [settle|rowc; still_ready]].
Qed.

Lemma remote_take_write_lock_and_read_cxl dest inc :
  cxl_spec false k n (fun p => Pasha.remote_take_write_lock_and_read sc me p dest n inc)
    (fun _ => True) (took can_own taken dest n).
Proof using Hme proto. eapply word_spec_cxl; [exact (remote_take_write_lock_and_read_word dest inc)|]. now intros s t x s' t' [H _]. Qed.

Lemma remote_read_lock_and_inc_ref_cnt_cxl :
  cxl_spec false k n (fun p => Pasha.remote_read_lock_and_inc_ref_cnt sc me p n)
    (fun _ => True) (decided can_share one_more).
Proof using Hme proto.
  unfold Pasha.remote_read_lock_and_inc_ref_cnt. acquire_remote word_share_test share_word.
  close_cxl; settle || (apply wrap_fits; lia).
Qed.

Lemma remote_write_lock_and_inc_ref_cnt_cxl :
  cxl_spec false k n (fun p => Pasha.remote_write_lock_and_inc_ref_cnt sc me p n)
    (fun _ => True) (decided can_own taken).
Proof using Hme proto.
  unfold Pasha.remote_write_lock_and_inc_ref_cnt. acquire_remote word_own_test own_word.
  close_cxl; settle || (apply wrap_fits; lia).
Qed.

(** Unpinning a row leaves the tuple as it was. *)
Lemma decrease_reference_count_via_ptr_cxl :
  cxl_spec false k n Pasha.decrease_reference_count_via_ptr (fun _ => True) (becomes (fun t => t)).
Proof using Type.
  unfold Pasha.decrease_reference_count_via_ptr. open_cxl. apply oks_unit. steps.
  rewrite Eo. steps. close_cxl; [apply wrap_fits; lia|reflexivity].
Qed.
End ops.
