(* ===== verification/PashaMove.v ===== *)
(** * Migration does not change a tuple

    Moving a row of an unordered table into CXL memory or back: the lock
    state, the version, the value and the valid flag of every tuple stay what
    they were, the invariant is kept, and the latches are released.  A move-in
    that runs out of CXL memory leaves the row in place; a row that some host
    has pinned stays where it is. *)

From S2P Require Import Prelude LockWord SharedWord SCC CXLMemory PashaState PashaHelper PashaMigration PashaRow PashaOps.

#[local] Existing Instance pasha_layout.

(** ** The lock word across a move *)

(** Splitting the version word into version and shared lock bits and joining
    them again gives the lock back. *)
Lemma restored_tid_view tid s v :
  fits 64 tid -> Shared.word s v ->
  fits 64 (Migration.restored_tid tid s) /\
  view (Migration.restored_tid tid s)
    = RW (Shared.sh_readers v) (Shared.sh_writer v) (remove_lock_bit tid).
Proof.
  intros Hf Hs. unfold Migration.restored_tid.
  rewrite (word_is_writer _ _ Hs), (word_reader_count _ _ Hs).
  destruct (view_set_read_lock_num (L := pasha_layout) tid (Shared.sh_readers v) Hf
    (word_readers_fits _ _ Hs)) as [H1 E1].
  unfold view in E1. injection E1 as Er Ew Es.
  destruct (Shared.sh_writer v).
  - destruct (view_set_write_lock_bit _ H1) as [H2 E2]. split; [exact H2|]. now rewrite E2, Er, Es.
  - destruct (view_clear_write_lock_bit _ H1) as [H2 E2]. split; [exact H2|]. now rewrite E2, Er, Es.
Qed.

(** ** Worlds that differ in what the invariant does not mention *)

Definition same_store (w w' : world) : Prop :=
  w_rows w' = w_rows w /\ w_smeta w' = w_smeta w /\ w_scc w' = w_scc w /\ w_tbl w' = w_tbl w.

#[export] Instance same_store_equiv : Equivalence same_store.
Proof.
  split; unfold same_store.
  - easy.
  - intros ?? (?&?&?&?). now split_and!.
  - intros ??? (?&?&?&?) (?&?&?&?). split_and!; congruence.
Qed.

#[export] Instance winv_proper size : Proper (same_store ==> iff) (winv size).
Proof.
  intros [] [] (E1 & E2 & E3 & E4); cbn in *; subst.
  split; intros [H1 H2 H3 H4]; constructor; cbn in *; assumption.
Qed.

#[export] Instance abs_proper : Proper (eq ==> same_store ==> eq) abs.
Proof. intros k ? <- [] [] (E1 & E2 & E3 & E4); cbn in *; subst. reflexivity. Qed.

(** ** The invariant across a move *)

Section moves.
Context (size : rkey -> nat) (w : world) (Hw : winv size w).

Lemma row_scc_dom k r o :
  w_rows w !! k = Some r -> lm_scc_data (lr_meta r) = Some o -> is_Some (w_scc w !! o).
Proof using Hw.
  intros E Eo. pose proof (winv_row _ _ Hw k r E) as Hr. unfold row_ok in Hr.
  destruct (lm_migrated_row (lr_meta r)) as [p|].
  - destruct Hr as (o' & s & d & (_ & _ & _ & Ho & _) & _ & _ & Ed).
    assert (o' = o) as -> by congruence. eauto.
  - destruct Hr as (_ & _ & _ & Hk). destruct (Hk o Eo) as (_ & d & Ed & _). eauto.
Qed.

Lemma row_ptr_dom k r p :
  w_rows w !! k = Some r -> lm_migrated_row (lr_meta r) = Some p -> is_Some (w_smeta w !! p).
Proof using Hw.
  intros E Ep. pose proof (winv_row _ _ Hw k r E) as Hr. unfold row_ok in Hr. rewrite Ep in Hr.
  destruct Hr as (o & s & d & _ & _ & Es & _). eauto.
Qed.

(** No other row uses the data object [o]. *)
Definition scc_free (k : rkey) (o : Z) : Prop :=
  forall k' r', k' <> k -> w_rows w !! k' = Some r' -> lm_scc_data (lr_meta r') <> Some o.

Lemma move_in_winv k p o r r' s' d' :
  w_rows w !! k = Some r -> w_smeta w !! p = None -> scc_free k o ->
  cxl_cell (size k) p o r' s' d' ->
  let w' := put (set_tbl (insert k p) w) k p o r' s' d' in
  winv size w' /\ abs k w' = Some (cxl_tuple s' d') /\
  (forall k', k' <> k -> abs k' w' = abs k' w).
Proof using Hw.
  intros E Hp Ho Hc w'. pose proof Hc as (_ & Hp' & _ & Ho' & _).
  assert (forall k1 r1 p1, w_rows w !! k1 = Some r1 ->
    lm_migrated_row (lr_meta r1) = Some p1 -> p <> p1) as Hnp.
  { intros k1 r1 p1 E1 Ep1 ->. destruct (row_ptr_dom k1 r1 p1 E1 Ep1). congruence. }
  assert (forall k1 r1 o1, k1 <> k -> w_rows w !! k1 = Some r1 ->
    lm_scc_data (lr_meta r1) = Some o1 -> o <> o1) as Hno by (intros k1 r1 o1 Hk E1 Ek ->; eapply Ho; eauto).
  split; [constructor|split]; cbn; try (intros k' k'' r1 r2 x).
  - intros k' r1 E1. destruct (decide (k' = k)) as [->|Hk]; simplify_map_eq.
    + unfold row_ok. rewrite Hp'. exists o, s', d'. cbn. now simplify_map_eq.
    + eapply row_ok_frame; [exact (winv_row _ _ Hw k' r1 E1)|cbn; now simplify_map_eq| |];
        intros x Hx; cbn; rewrite lookup_insert_ne; eauto.
  - intros E1 E2 P1 P2. destruct (decide (k' = k)) as [->|], (decide (k'' = k)) as [->|];
      simplify_map_eq; try easy; [exfalso; eapply Hnp; eauto..|eapply (winv_ptr _ _ Hw); eauto].
  - intros E1 E2 P1 P2. destruct (decide (k' = k)) as [->|], (decide (k'' = k)) as [->|];
      simplify_map_eq; try easy; [exfalso; eapply Hno; eauto..|eapply (winv_scc _ _ Hw); eauto].
  - intros k' x Hx. destruct (decide (k' = k)) as [->|Hk]; simplify_map_eq; [eauto|].
    eapply (winv_tbl _ _ Hw); eauto.
  - eapply abs_cxl; [|exact Hc|..]; cbn; now simplify_map_eq.
  - intros k' Hk. eapply abs_frame; [exact Hw|cbn; now simplify_map_eq| |];
      intros r1 x E1 Hx; cbn; rewrite lookup_insert_ne; eauto.
Qed.

Lemma move_out_winv k p o r s d r' s' d' :
  w_rows w !! k = Some r -> cxl_cell (size k) p o r s d ->
  home_cell (size k) r' -> lm_scc_data (lr_meta r') = Some o -> fits 37 o -> obj_ok (size k) d' ->
  (lm_modified_since_moved_out (lr_meta r') = false -> sd_data d' = lr_data r') ->
  let w' := put (set_tbl (delete k) w) k p o r' s' d' in
  winv size w' /\ abs k w' = Some (home_tuple r') /\
  (forall k', k' <> k -> abs k' w' = abs k' w).
Proof using Hw.
  intros E (_ & Hp & _ & Ho & _) Hc' Ho' Hf Hob Hda w'. pose proof Hc' as (_ & Hp' & _).
  assert (forall k' r1 p1, k' <> k -> w_rows w !! k' = Some r1 ->
    lm_migrated_row (lr_meta r1) = Some p1 -> p <> p1) as Hnp by (intros; eapply ptr_ne; eauto).
  assert (forall k' r1 o1, k' <> k -> w_rows w !! k' = Some r1 ->
    lm_scc_data (lr_meta r1) = Some o1 -> o <> o1) as Hno by (intros; eapply scc_ne; eauto).
  split; [constructor|split]; cbn; try (intros k' k'' r1 r2 x).
  - intros k' r1 E1. destruct (decide (k' = k)) as [->|Hk]; simplify_map_eq.
    + unfold row_ok. rewrite Hp'. split; [exact Hc'|]. split; [cbn; now simplify_map_eq|].
      split; [congruence|]. intros o1 E1. assert (o1 = o) as -> by congruence.
      split; [exact Hf|]. exists d'. cbn. rewrite lookup_insert_eq. split_and!; auto; apply Hob.
    + eapply row_ok_frame; [exact (winv_row _ _ Hw k' r1 E1)|cbn; now simplify_map_eq| |];
        intros x Hx; cbn; rewrite lookup_insert_ne; eauto.
  - intros E1 E2 P1 P2. destruct (decide (k' = k)) as [->|], (decide (k'' = k)) as [->|];
      simplify_map_eq; try congruence. eapply (winv_ptr _ _ Hw); eauto.
  - intros E1 E2 P1 P2. destruct (decide (k' = k)) as [->|], (decide (k'' = k)) as [->|];
      simplify_map_eq; try easy; [exfalso; eapply Hno; eauto..|eapply (winv_scc _ _ Hw); eauto].
  - intros k' x Hx. destruct (decide (k' = k)) as [->|Hk]; simplify_map_eq.
    eapply (winv_tbl _ _ Hw); eauto.
  - apply abs_home; [cbn; now simplify_map_eq|exact Hp'].
  - intros k' Hk. eapply abs_frame; [exact Hw|cbn; now simplify_map_eq| |];
      intros r1 x E1 Hx; cbn; rewrite lookup_insert_ne; eauto.
Qed.
End moves.

(** [word_is_scc]: the manager's [ready] depends on the coherence bits alone. *)
Lemma ready_word sc (proto : SCCProtocol sc) me s s' v v' :
  host_ok me -> Shared.word s v -> Shared.word s' v' -> Shared.sh_scc v = Shared.sh_scc v' ->
  ready me s = true -> ready me s' = true.
Proof. intros Hme [_ <-] [_ <-] E <-. symmetry. now apply ready_scc. Qed.

(** ** Steps that only migration takes *)

Section more_steps.
Context (w : world) (k : rkey) (p o : Z).

Lemma when_mod_scc_put b f r s d :
  when_ b (mod_scc o f) (put w k p o r s d) = Ret tt (put w k p o r s (if b then f d else d)).
Proof. destruct b; [apply mod_scc_put|reflexivity]. Qed.

Lemma when_mod_row_put b f r s d :
  when_ b (mod_row k f) (put w k p o r s d) = Ret tt (put w k p o (if b then f r else r) s d).
Proof. destruct b; [apply mod_row_put|reflexivity]. Qed.

Lemma cxl_insert_put r s d :
  w_tbl w !! k = None ->
  cxl_insert k p (put w k p o r s d) = Ret true (put (set_tbl (insert k p) w) k p o r s d).
Proof. intros E. unfold cxl_insert, cxl_search. mrun. now rewrite E. Qed.

Lemma cxl_remove_put p' r s d :
  w_tbl w !! k = Some p' ->
  cxl_remove k (put w k p o r s d) = Ret true (put (set_tbl (delete k) w) k p o r s d).
Proof. intros E. unfold cxl_remove, cxl_search. mrun. now rewrite E. Qed.
End more_steps.

Lemma word_if_writer (b : bool) s v :
  Shared.word s v ->
  Shared.word ((if b then Shared.set_write_locked else Shared.clear_write_locked) s)
    (Shared.with_writer b v).
Proof. destruct b; word_of. Qed.
#[export] Hint Resolve word_if_writer Shared.word_ctor : word.

Lemma same_scc_data r o :
  lm_scc_data (lr_meta r) = Some o ->
  on_meta (lm_set_scc_data o) (on_meta (lm_set_latch true) r) = on_meta (lm_set_latch true) r.
Proof. destruct r as [[] ?]; cbn. now intros ->. Qed.

Section move_in.
Context (sc : SCCManager) {proto : SCCProtocol sc} (cfg : config).
Context {alloc : CxlAlloc} {pol : PolicyMeta} (me : Z) (Hme : host_ok me).
(** With the migration optimisation, an unmodified row is not copied again:
    its data object has to survive, which is so under software coherence. *)
Context (Hcfg : enable_scc cfg = true \/ enable_migration_optimization cfg = false).
Context (size : rkey -> nat) (w : world) (Hw : winv size w).
Context (k : rkey) (r : lrow) (Ek : w_rows w !! k = Some r) (Hr : home_cell (size k) r).

#[local] Abbreviation n := (size k).
#[local] Abbreviation latched_row := (on_meta (lm_set_latch true) r).

Definition copied (d : TwoPLPashaSharedDataSCC) : Prop :=
  lm_modified_since_moved_out (lr_meta r) || negb (enable_migration_optimization cfg) = false ->
  sd_data d = lr_data r.

Lemma home_kept : kept_ok n w r /\ w_tbl w !! k = None.
Proof using Ek Hr Hw.
  pose proof (winv_row _ _ Hw k r Ek) as H. unfold row_ok in H.
  destruct Hr as (_ & En & _). now rewrite En in H.
Qed.

(** The outcome of looking for the row's data object. *)
Definition obtained (x : option Z) (w' : world) : Prop :=
  (x = None /\ same_store (hput w k latched_row) w') \/
  (exists o d w1, x = Some o /\
    w' = set_scc (insert o d) (hput w1 k (on_meta (lm_set_scc_data o) latched_row)) /\
    same_store w w1 /\ scc_free w k o /\ fits 37 o /\ obj_ok n d /\ copied d).

Lemma allocate_spec w0 :
  same_store w w0 ->
  lm_modified_since_moved_out (lr_meta r) || negb (enable_migration_optimization cfg) = true ->
  oks false (Migration.allocate_scc_data cfg k n) (hput w0 k latched_row) obtained.
Proof using Ek Hw.
  intros Hw0 Hcopy. unfold Migration.allocate_scc_data, cxlalloc_malloc_wrapper. steps.
  match goal with |- context [set_stats ?f (hput w0 k ?x)] =>
    change (set_stats f (hput w0 k x)) with (hput (set_stats f w0) k x);
    set (w1 := set_stats f w0) end.
  assert (same_store w w1) as Hw1 by exact Hw0.
  destruct (cxlalloc_malloc _ _) as [o|] eqn:Ea; steps.
  - apply cxlalloc_fresh in Ea as [Hfresh Ho].
    match goal with |- context [set_scc ?f (hput w1 k ?x)] =>
      change (set_scc f (hput w1 k x)) with (hput (set_scc f w1) k x) end.
    set (d := cxlalloc_content _ n).
    eapply oks_step; [apply mod_row_hput|]. apply oks_ret. right.
    exists o, d, w1. split; [reflexivity|]. split; [reflexivity|]. split; [exact Hw1|]. split_and!.
    + intros k' r' Hk E' Eo. destruct (row_scc_dom size w Hw k' r' o E' Eo) as [d' Ed].
      apply Hfresh, elem_of_union_r, elem_of_dom. exists d'.
      destruct Hw1 as (_ & _ & E3 & _). change (w_scc w1 !! o = Some d'). now rewrite E3.
    + unfold fits; lia.
    + split; [apply cxlalloc_content_flags|].
      split; [apply cxlalloc_content_ref_cnt|apply cxlalloc_content_size].
    + intros Hno. rewrite Hcopy in Hno. discriminate.
  - left. split; [reflexivity|]. destruct Hw0 as (E1 & E2 & E3 & E4).
    split_and!; cbn; try assumption. now rewrite E1.
Qed.

Lemma obtain_spec w0 :
  same_store w w0 ->
  oks false (Migration.obtain_scc_data cfg k n) (hput w0 k latched_row) obtained.
Proof using Ek Hcfg Hr Hw.
  intros Hw0. destruct home_kept as [[Hnone Hkept] _]. unfold Migration.obtain_scc_data. steps.
  destruct (lm_scc_data (lr_meta r)) as [o|] eqn:Eo.
  - destruct (enable_scc cfg) eqn:Esc; [|apply allocate_spec; [exact Hw0|]].
    + destruct (Hkept o eq_refl) as (Ho & d & Ed & Hob & Hd). apply oks_ret. right.
      exists o, d, w0. split; [reflexivity|].
      rewrite (same_scc_data r o Eo).
      pose proof Hw0 as (E1 & E2 & E3 & E4). split_and!; try assumption; try reflexivity.
      * unfold set_scc, hput; cbn. rewrite (insert_id (w_scc w0) o d) by (rewrite E3; exact Ed).
        destruct w0; reflexivity.
      * intros k' r' Hk E' Eo'. apply Hk. eapply (winv_scc _ _ Hw); eauto.
      * intros [Hm _]%orb_false_elim. auto.
    + destruct Hcfg as [Hc| ->]; [discriminate|]. apply orb_true_r.
  - apply allocate_spec; [exact Hw0|]. now rewrite Hnone.
Qed.

(** The contents of the data object after a move-in. *)
Lemma moved_data inc d pm :
  fits 8 (sd_flags d) -> fits 8 (sd_ref_cnt d) -> length (sd_data d) = n -> copied d ->
  length (lr_data r) = n ->
  let d0 := Pasha.assign_valid (lm_is_valid (lr_meta r)) (sd_set_policy pm d) in
  let d1 := if lm_modified_since_moved_out (lr_meta r) || negb (enable_migration_optimization cfg)
    then sd_set_data (memcpy (sd_data d0) (lr_data r) n) (sd_set_tid (lm_tid (lr_meta r)) d0)
    else sd_set_tid (lm_tid (lr_meta r)) d0 in
  let D := if inc : bool then ref_inc d1 else d1 in
  obj_ok n D /\ sd_tid D = lm_tid (lr_meta r) /\ sd_data D = lr_data r /\
  Pasha.is_valid_data D = lm_is_valid (lr_meta r).
Proof using Type.
  intros Hfl Hrc Hdn Hcop Hn d0.
  destruct (assign_valid_spec (lm_is_valid (lr_meta r)) (sd_set_policy pm d) Hfl)
    as (fl & E & Hfl' & Hval).
  subst d0. rewrite E. rowc. rewrite memcpy_full by assumption. unfold copied in Hcop.
  destruct (_ || _), inc; cbv zeta; unfold obj_ok; rowc;
    rewrite ?valid_ref_inc, ?Hcop by reflexivity; split_and!;
    try assumption; try reflexivity; try apply Hval; apply wrap_fits; lia.
Qed.

(** The row after a move-in, its latch still held. *)
Definition moved_in (adjacent : Z -> Z) (x : migration_result * option Z) (w' : world) : Prop :=
  (x = (FAIL_OOM, None) /\ same_store (hput w k latched_row) w') \/
  (exists p o r' s' d' v' w1, x = (SUCCESS, Some o) /\
    w' = put (set_tbl (insert k p) w1) k p o r' s' d' /\ same_store w w1 /\
    w_smeta w !! p = None /\ scc_free w k o /\ Shared.word s' v' /\
    lm_latch (lr_meta r') = true /\
    cxl_view n p o (on_meta (lm_set_latch false) r') v' d' /\ vtuple v' d' = home_tuple r).

(** What the ordered tables add leaves the word's other fields alone. *)
Definition sets_adjacent (adjacent : Z -> Z) : Prop :=
  forall s v, Shared.word s v ->
    exists nb pb, Shared.word (adjacent s) (Shared.with_next nb (Shared.with_prev pb v)).

Ltac mstep :=
  first [ step1
        | eapply oks_step;
          [first [apply when_mod_scc_put | apply when_mod_row_put
                 | apply cxl_insert_put; assumption]|]; cbv beta zeta; rowc ].

Lemma move_in_row_spec inc adjacent :
  sets_adjacent adjacent ->
  oks false (Migration.move_in_row sc cfg me k n inc adjacent) (hput w k latched_row)
    (moved_in adjacent).
Proof using Ek Hcfg Hme Hr Hw proto.
  intros Hadj. unfold Migration.move_in_row, cxlalloc_malloc_wrapper. steps.
  match goal with |- context [set_stats ?f (hput w k ?x)] =>
    change (set_stats f (hput w k x)) with (hput (set_stats f w) k x);
    set (w0 := set_stats f w) end.
  assert (same_store w w0) as Hw0 by easy.
  destruct (cxlalloc_malloc _ _) as [p|] eqn:Ea; steps; [|now left].
  apply cxlalloc_fresh in Ea as [Hfresh _].
  assert (w_smeta w !! p = None) as Hp.
  { apply not_elem_of_dom. intros Hin. apply Hfresh, elem_of_union_l. exact Hin. }
  eapply oks_bind, oks_mono; [apply obtain_spec; exact Hw0|]. cbv beta.
  intros x w' [[-> Hst]|(o & d & w1 & -> & -> & Hw1 & Hfree & Ho & (Hfl & Hrc & Hdn) & Hcop)].
  { apply oks_ret. now left. }
  steps.
  match goal with |- oks _ _ (set_smeta (insert p ?s) (set_scc (insert o d) (hput w1 k ?x))) _ =>
    change (set_smeta (insert p s) (set_scc (insert o d) (hput w1 k x)))
      with (put w1 k p o x s d) end.
  steps.
  match goal with |- oks _ (scc_call _ _ ≫= _) (put _ _ _ _ ?x ?s ?d) _ =>
    destruct (init_put w1 k p o sc me Hme x s d _ (Shared.word_ctor o Ho))
      as (s1 & b1 & E1 & Hs1 & _ & Hrd); eapply oks_step; [exact E1|]; clear E1; cbv beta end.
  assert (w_tbl w1 !! k = None) as Ht.
  { destruct Hw1 as (_ & _ & _ & ->). apply home_kept. }
  pose proof Hr as ((Hl & Hf & Hn) & Hm & Hi & He).
  pose proof (view_ok _ Hf) as [Hr5 _]. cbn [readers view] in Hr5.
  repeat mstep.
  match goal with |- oks _ _ (put _ _ _ _ _ (adjacent ?s) ?D) _ =>
    edestruct (Hadj s) as (nb & pb & Hsa); [word_of|];
    assert (obj_ok n D /\ sd_tid D = lm_tid (lr_meta r) /\ sd_data D = lr_data r /\
      Pasha.is_valid_data D = lm_is_valid (lr_meta r)) as (HobD & HtD & HdD & HvD)
      by (apply moved_data; assumption);
    generalize dependent D
  end.
  intros D HobD HtD HdD HvD.
  match goal with |- oks _ (scc_call _ _ ≫= _) (put ?w' _ _ _ ?x ?s ?d) _ =>
    destruct (finish_ready_put w' k p o sc me Hme x s d _ Hsa) as (s2 & b2 & E2 & Hs2 & _);
    [eapply ready_word; [exact Hme|exact Hs1|exact Hsa|reflexivity|exact Hrd]|];
    eapply oks_step; [exact E2|]; clear E2; cbv beta end.
  repeat mstep. right.
  do 6 eexists. exists w1. split; [reflexivity|]. split; [reflexivity|].
  split; [exact Hw1|]. split; [exact Hp|]. split; [exact Hfree|]. split; [word_of|].
  split; [reflexivity|]. split.
  - unfold cxl_view; rowc. rewrite HtD. split_and!; try assumption; try reflexivity.
    + intros _. now rewrite HdD.
  - unfold vtuple, home_tuple, view; rowc. now rewrite HtD, HdD, HvD.
Qed.
End move_in.

Lemma same_store_hput w w' k r :
  same_store (hput w k r) w' -> exists w1, w' = hput w1 k r /\ same_store w w1.
Proof.
  intros (E1 & E2 & E3 & E4). exists (set_rows (fun _ => w_rows w) w').
  split; [|easy]. destruct w'; unfold hput, set_rows; cbn in *. now rewrite E1.
Qed.

(** A latch taken and given back. *)
Lemma unlatch_latch s :
  fits 64 s -> Shared.sh_latch (Shared.sview s) = false -> Shared.unlatched (Shared.latched s) = s.
Proof.
  intros Hf Hl. destruct (Shared.latched_view s Hf) as [H1 E1].
  destruct (Shared.unlatched_view _ H1) as [H2 E2].
  rewrite <- (Shared.sencode_view _ H2), E2, E1.
  transitivity (Shared.sencode (Shared.sview s)); [|now apply Shared.sencode_view].
  f_equal. destruct (Shared.sview s); cbn in *. now rewrite Hl.
Qed.

Lemma retire_put cfg w k p o n r s d :
  exists w1, Migration.retire_row cfg p o n (put w k p o r s d) = Ret tt (put w1 k p o r s d) /\
    same_store w w1.
Proof.
  set (w1 := if negb (enable_scc cfg)
             then set_retired (cons o)
               (set_stats (on_mem (sub_usage cfg DATA_ALLOCATION (Migration.data_size n))) w) else w).
  exists (set_retired (cons p)
    (set_stats (on_mem (sub_usage cfg METADATA_ALLOCATION sizeof_MetadataShared)) w1)).
  unfold Migration.retire_row, cxlalloc_free_wrapper, add_retired_object, w1.
  destruct (enable_scc cfg); (split; [reflexivity|easy]).
Qed.

Section hashmap_moves.
Context (sc : SCCManager) {proto : SCCProtocol sc} (cfg : config).
Context {alloc : CxlAlloc} {pol : PolicyMeta} (me : Z) (Hme : host_ok me).
Context (Hcfg : enable_scc cfg = true \/ enable_migration_optimization cfg = false).
Context (size : rkey -> nat).

(** A pin on a migrated row: only the reference count changes. *)
Lemma pin_migrated_row_cxl k inc :
  cxl_spec false k (size k) (fun _ =>
      Migration.move_from_hashmap_to_shared_region sc cfg me k (size k) inc) (fun _ => True)
    (fun t x t' => x = (FAIL_ALREADY_IN_CXL, None) /\ t' = t).
Proof using Type.
  apply cxl_spec_intro. intros w p o r s d v Hs Eo Hv _.
  pose proof Hv as ((Hl & Hf & Hn) & Hm & Hi & Hsc & Hla & Hoff & Hdf & (Hfl & Hrc & Hdn) & He & Hco).
  unfold Migration.move_from_hashmap_to_shared_region, Migration.pin_migrated_row. steps.
  rewrite Hi. rowc. destruct inc; steps; [rewrite Eo; steps|];
    do 4 eexists; (split; [reflexivity|]); (split; [word_of|]); (split; [|split; reflexivity]);
    unfold cxl_view, obj_ok; rowc; split_and!; try assumption; try reflexivity; apply wrap_fits; lia.
Qed.

(** Moving a row in: every tuple is unchanged, whatever the outcome, and so is the
    shared word of every other row. *)
Lemma move_in_hashmap_spec w k t inc :
  winv size w -> abs k w = Some t ->
  oks false (Migration.move_from_hashmap_to_shared_region sc cfg me k (size k) inc) w
    (fun x w' => winv size w' /\ (forall k', abs k' w' = abs k' w) /\
      match x.1 with
      | SUCCESS => w_tbl w !! k = None /\ exists p, w_tbl w' = <[k := p]> (w_tbl w)
      | FAIL_OOM => w_tbl w !! k = None /\ w_tbl w' = w_tbl w
      | FAIL_ALREADY_IN_CXL => is_Some (w_tbl w !! k) /\ w_tbl w' = w_tbl w
      end /\ words_kept w k w').
Proof using Hcfg Hme proto.
  intros Hw Ht.
  destruct (abs_cases size w Hw k t Ht)
    as [(r & E & En & Hc & ->)|(p & o & r & s & d & E & Et & Es & Ed & Hc & ->)].
  - unfold Migration.move_from_hashmap_to_shared_region.
    rewrite <- (hput_self w k r E) at 1. pose proof Hc as ((Hl & Hf & Hn) & Hm & Hi & He).
    steps. rewrite Hi. rowc.
    eapply oks_bind, oks_mono; [apply move_in_row_spec; try assumption|].
    { intros s v Hs. exists (Shared.sh_next v), (Shared.sh_prev v). destruct v; exact Hs. }
    cbv beta. intros x w' [[-> Hst]|(p & o & r' & s' & d' & v' & w1 & -> & -> & Hw1 & Hp & Hfr & Hs' & Hl' & Hv' & Etu)].
    + destruct (same_store_hput _ _ _ _ Hst) as (w1 & -> & Hw1). steps.
      rewrite relatch by exact Hl.
      assert (same_store w (hput w1 k r)) as Hss.
      { destruct Hw1 as (E1 & E2 & E3 & E4). split_and!; cbn; try assumption.
        rewrite E1. now apply insert_id. }
      cbn [fst]. split_and!; [now rewrite <- Hss|intros k'; now rewrite <- Hss|exact En|apply Hss|].
      destruct Hss as (_ & E2 & _ & E4). intros k' q _. now rewrite E2, E4.
    + steps. destruct (cxl_cell_view _ _ _ _ _ _ _ Hs' Hv') as [Hcell Etup].
      destruct (move_in_winv size w Hw k p o r _ _ _ E Hp Hfr Hcell) as (H1 & H2 & H3).
      match goal with |- context [put (set_tbl (insert k p) w1) k p o ?r ?s ?d] =>
        assert (same_store (put (set_tbl (insert k p) w) k p o r s d)
          (put (set_tbl (insert k p) w1) k p o r s d)) as Hss end.
      { destruct Hw1 as (E1 & E2 & E3 & E4). unfold same_store; cbn. now rewrite E1, E2, E3, E4. }
      split; [now rewrite <- Hss|]. split; [|split; [split; [exact En|]|]].
      * intros k'. rewrite <- Hss. destruct (decide (k' = k)) as [->|Hk]; [|now apply H3].
        rewrite H2, Etup, Etu. symmetry. now apply abs_home.
      * exists p. cbn. destruct Hw1 as (_ & _ & _ & ->). reflexivity.
      * intros k' q Hk. destruct Hw1 as (_ & E2 & _ & E4). cbn. rewrite E2, E4, lookup_insert_ne by auto. intros Hq. split; [exact Hq|].
        apply lookup_insert_ne. intros <-. destruct (tbl_word size w Hw k' p Hq) as [s0 Es0]. congruence.
  - eapply oks_mono;
      [exact (cxl_words size w Hw false k (fun _ => _) _ _ _ (fun _ _ _ => True) p o r s d
         (cxl_spec_word _ _ _ _ _ _ (pin_migrated_row_cxl k inc)) ltac:(now split) E Et Es Ed Hc I)|].
    intros x w' ((H1 & (t' & H2 & -> & ->) & H3 & H4) & Ho & _). cbn. split; [exact H1|]. split; [|split; [eauto|now apply other_words_kept]].
    intros k'. destruct (decide (k' = k)) as [->|Hk]; [|auto].
    rewrite H2. symmetry. eapply abs_cxl; eauto.
Qed.

Ltac mstep :=
  first [ step1
        | eapply oks_step; [first [apply when_mod_scc_put | apply when_mod_row_put]|];
          cbv beta zeta; rowc ].

(** Copying a migrated row back: the row is the tuple that was in CXL memory. *)
Lemma copy_back_put {X} w k p o r s d v (f : unit -> M world X) Q :
  Shared.word s v -> fits 64 (sd_tid d) -> obj_ok (size k) d -> length (lr_data r) = size k ->
  exclusive (t_lock (vtuple v d)) -> (Shared.sh_modified v = false -> lr_data r = sd_data d) ->
  (forall r' s' b fl,
    Shared.word s' (Shared.with_modified false (Shared.with_scc b v)) -> fits 8 fl ->
    lm_latch (lr_meta r') = lm_latch (lr_meta r) -> lm_scc_data (lr_meta r') = lm_scc_data (lr_meta r) ->
    fits 64 (lm_tid (lr_meta r')) -> home_tuple r' = vtuple v d ->
    oks false (f tt)
      (put w k p o r' s' (MkScc (sd_tid d) fl (sd_ref_cnt d) (sd_policy d) (sd_data d))) Q) ->
  oks false (Migration.copy_back sc cfg me k p o (size k) ≫= f) (put w k p o r s d) Q.
Proof using Hme proto.
  intros Hs Hdf (Hfl & Hrc & Hdn) Hn He Hco Hk. unfold Migration.copy_back.
  apply oks_assoc. destruct (prepare_put w k p o sc me Hme r s d v Hs) as (s1 & b & E1 & Hs1 & _ & _).
  eapply oks_step; [exact E1|]. cbv beta. repeat mstep.
  destruct (restored_tid_view _ _ _ Hdf Hs1) as [Hf Hvw].
  destruct (assign_valid_spec false d Hfl) as (fl & Efl & Hfl' & _).
  change (clear_flag valid_flag_index d) with (Pasha.assign_valid false d). rewrite Efl.
  rewrite (word_is_modified _ _ Hs1). rowc.
  eapply (Hk _ _ b fl); [word_of|exact Hfl'|..];
    destruct (Shared.sh_modified v || negb (enable_migration_optimization cfg)) eqn:Ec; rowc;
    try reflexivity; try exact Hf; unfold home_tuple, vtuple; rowc; rewrite Hvw; rowc.
  - now rewrite memcpy_full.
  - apply orb_false_elim in Ec as [Ec _]. now rewrite Hco.
Qed.

(** Moving a row out: refused when some host has pinned the row, and
    otherwise every tuple is unchanged. *)
Lemma move_out_hashmap_spec w k t :
  winv size w -> abs k w = Some t ->
  oks false (Migration.move_from_hashmap_to_partition sc cfg me k (size k)) w
    (fun b w' => winv size w' /\ (forall k', abs k' w' = abs k' w) /\
      (if b then w_tbl w' = delete k (w_tbl w) else w_tbl w' = w_tbl w /\ is_Some (w_tbl w !! k)) /\
      forall p s d, w_tbl w !! k = Some p -> w_smeta w !! p = Some s ->
        w_scc w !! Shared.get_scc_data s = Some d -> b = bool_decide (sd_ref_cnt d = 0)).
Proof using Hme proto.
  intros Hw Ht. unfold Migration.move_from_hashmap_to_partition.
  destruct (abs_cases size w Hw k t Ht)
    as [(r & E & En & Hc & ->)|(p & o & r & s & d & E & Et & Es & Ed & Hc & ->)].
  - rewrite <- (hput_self w k r E) at 1. pose proof Hc as ((Hl & Hf & Hn) & Hm & Hi & He).
    steps. rewrite Hi. steps. rewrite relatch, hput_self by assumption.
    split_and!; try assumption; try reflexivity; [now rewrite delete_id|congruence].
  - rewrite <- (put_self w k p o r s d E Es Ed) at 1.
    pose proof Hc as (Hlok & Hm & Hi & Hsc & Hfs & Hla & Hoff & Hdf & Hob & He & Hco).
    pose proof Hlok as (Hl & Hf & Hn).
    assert (Shared.word s (Shared.sview s)) as Hs by (split; [exact Hfs|reflexivity]).
    assert (Shared.get_scc_data s = o) as Eo by now rewrite Shared.get_scc_data_view.
    steps. rewrite Hi. steps. rewrite Eo. steps.
    destruct (Z.ltb_spec 0 (sd_ref_cnt d)) as [Hpin|Hpin]; steps.
    + rewrite relatch, unlatch_latch, put_self by assumption.
      split_and!; try assumption; try reflexivity; [eauto|].
      intros p0 s0 d0 Ep0 Es0 Ed0. assert (d0 = d) as -> by congruence.
      symmetry. apply bool_decide_eq_false. lia.
    + eapply copy_back_put; [word_of|assumption..|].
      intros r' s' b fl Hs' Hfl Hlr Hsr Hfr Etu.
      eapply oks_step; [eapply cxl_remove_put; exact Et|]. cbv beta. steps.
      match goal with |- oks _ _ (put ?w' _ _ _ ?r1 ?s1 ?d1) _ =>
        destruct (retire_put cfg w' k p o (size k) r1 s1 d1) as (w1 & E1 & Hw1) end.
      eapply oks_step; [exact E1|]. clear E1. cbv beta. steps.
      pose proof (f_equal t_lock Etu) as Et1. pose proof (f_equal t_value Etu) as Et2.
      pose proof (f_equal t_valid Etu) as Et3. rowc.
      match goal with |- context [put w1 k p o ?r1 ?s1 ?d1] =>
        assert (winv size (put (set_tbl (delete k) w) k p o r1 s1 d1) /\
          abs k (put (set_tbl (delete k) w) k p o r1 s1 d1) = Some (home_tuple r1) /\
          (forall k', k' <> k -> abs k' (put (set_tbl (delete k) w) k p o r1 s1 d1) = abs k' w))
          as (H1 & H2 & H3);
        [eapply move_out_winv; try eassumption|
         assert (same_store (put (set_tbl (delete k) w) k p o r1 s1 d1) (put w1 k p o r1 s1 d1)) as Hss]
      end.
      * split; [split; [reflexivity|split; [exact Hfr|]]|split; [reflexivity|split; [reflexivity|]]].
        -- change (length (lr_data r') = size k). rewrite Et2. apply Hob.
        -- change (exclusive (view (lm_tid (lr_meta r')))). rewrite Et1. exact He.
      * rowc. congruence.
      * rewrite <- Hoff. exact (proj1 (proj2 (Shared.sview_bounds s))).
      * split; [exact Hfl|apply Hob].
      * rowc. intros _. now rewrite Et2.
      * destruct Hw1 as (E1 & E2 & E3 & E4). unfold same_store; cbn in *. now rewrite E1, E2, E3, E4.
      * split; [now rewrite <- Hss|]. split; [|split].
        -- intros k'. rewrite <- Hss. destruct (decide (k' = k)) as [->|Hk]; [|now apply H3].
           rewrite H2. unfold home_tuple; rowc. rewrite Ht, Et1, Et2, Et3. reflexivity.
        -- cbn. apply Hw1.
        -- intros p0 s0 d0 Ep0 Es0 Ed0. assert (d0 = d) as -> by congruence.
           symmetry. apply bool_decide_eq_true. destruct Hob as (_ & [Hrc _] & _). lia.
Qed.

(** C9: moving a row of an unordered table into CXL memory, with [enable_scc] or
    without the migration optimisation ([Hcfg]; the other configuration loses values,
    as [unmodified_row_lost] shows), always returns and changes no tuple:
    lock state, version, value and valid flag of every row are what they
    were.  It reports success exactly when the row is then in the CXL index
    and was not before, out-of-memory when it stays in its partition, and
    otherwise that it was migrated already. *)
Theorem move_in_transparent w k t inc :
  winv size w -> abs k w = Some t ->
  exists res o w',
    Migration.move_from_hashmap_to_shared_region sc cfg me k (size k) inc w = Ret (res, o) w' /\
    winv size w' /\ (forall k', abs k' w' = abs k' w) /\
    match res with
    | SUCCESS => w_tbl w !! k = None /\ exists p, w_tbl w' = <[k := p]> (w_tbl w)
    | FAIL_OOM => w_tbl w !! k = None /\ w_tbl w' = w_tbl w
    | FAIL_ALREADY_IN_CXL => is_Some (w_tbl w !! k) /\ w_tbl w' = w_tbl w
    end.
Proof using Hcfg Hme proto.
  intros Hw Ht. destruct (oks_Ret _ _ _ (move_in_hashmap_spec w k t inc Hw Ht))
    as ([res o] & w' & E & H1 & H2 & H3 & _). eauto 8.
Qed.

(** C10: moving a row of an unordered table back to its partition always returns and changes no
    tuple.  It is refused exactly when the row is migrated and some host has
    pinned it (its reference count is not zero). *)
Theorem move_out_transparent w k t :
  winv size w -> abs k w = Some t ->
  exists b w',
    Migration.move_from_hashmap_to_partition sc cfg me k (size k) w = Ret b w' /\
    winv size w' /\ (forall k', abs k' w' = abs k' w) /\
    (if b then w_tbl w' = delete k (w_tbl w) else w_tbl w' = w_tbl w /\ is_Some (w_tbl w !! k)) /\
    forall p s d, w_tbl w !! k = Some p -> w_smeta w !! p = Some s ->
      w_scc w !! Shared.get_scc_data s = Some d -> b = bool_decide (sd_ref_cnt d = 0).
Proof using Hme proto.
  intros Hw Ht. destruct (oks_Ret _ _ _ (move_out_hashmap_spec w k t Hw Ht)) as (b & w' & E & H).
  eauto 8.
Qed.
End hashmap_moves.
