(* ===== verification/PashaTable.v ===== *)
(** * Tuples shared between hosts as a lock table

    The partition of one owner host, with any rows in CXL memory, implements
    the [LockTable] interface: the owner locks, reads, updates and releases
    rows wherever they are, other hosts do so through the CXL index, and rows
    move in and out of CXL memory at any time as internal steps.  The theorems
    about the interface ([RWLock]) then hold for every interleaving of the
    operations of all hosts on all rows. *)

From S2P Require Import Prelude LockWord RWLock SharedWord SCC CXLMemory PashaState PashaHelper PashaMigration PashaRow PashaOps PashaMove.

#[local] Existing Instance pasha_layout.

Lemma home_spec_mono {X} ab k n (op : M world X) Pre (P Q : tuple -> X -> tuple -> Prop) :
  home_spec ab k n op Pre P -> (forall t x t', P t x t' -> Q t x t') -> home_spec ab k n op Pre Q.
Proof.
  intros H HPQ w r Hc Hp. eapply oks_mono; [exact (H w r Hc Hp)|].
  intros x w' (r' & -> & Hc' & Hs & HP). eauto 6.
Qed.

Lemma home_spec_abort {X} k n (op : M world X) Pre P :
  home_spec false k n op Pre P -> home_spec true k n op Pre P.
Proof.
  intros H w r Hc Hp. specialize (H w r Hc Hp). unfold oks in *. now destruct (op _).
Qed.

(** ** The owner's operations, wherever the row is *)

Section owner.
Context (sc : SCCManager) {proto : SCCProtocol sc} (me : Z) (Hme : host_ok me).
Context (k : rkey) (n : nat).

Lemma read_lock_cell :
  cell_spec false k n (Pasha.read_lock sc me k n) (fun _ => True) (acquired can_share one_more).
Proof using Hme proto.
  split; [|now apply read_lock_cxl].
  eapply home_spec_mono; [apply read_lock_home|]. now intros t x t' (_ & _ & H).
Qed.

Lemma write_lock_cell :
  cell_spec false k n (Pasha.write_lock sc me k n) (fun _ => True) (acquired can_own taken).
Proof using Hme proto.
  split; [|now apply write_lock_cxl].
  eapply home_spec_mono; [apply write_lock_home|]. now intros t x t' (_ & _ & H).
Qed.

Lemma take_read_cell dest :
  cell_spec false k n (Pasha.take_read_lock_and_read sc me k dest n) (fun _ => True)
    (acquired_read can_share one_more dest n).
Proof using Hme proto.
  split; [|now apply take_read_lock_and_read_cxl].
  eapply home_spec_mono; [apply take_read_lock_and_read_home|].
  now intros t x t' ((_ & _ & H) & H').
Qed.

Lemma take_write_cell dest :
  cell_spec false k n (Pasha.take_write_lock_and_read sc me k dest n) (fun _ => True)
    (acquired_read can_own taken dest n).
Proof using Hme proto.
  split; [|now apply take_write_lock_and_read_cxl].
  eapply home_spec_mono; [apply take_write_lock_and_read_home|].
  now intros t x t' ((_ & _ & H) & H').
Qed.

Lemma read_release_cell :
  cell_spec false k n (Pasha.read_lock_release k) held_read (becomes (with_lock one_less)).
Proof using Type. split; [apply read_lock_release_home|apply read_lock_release_cxl]. Qed.

Lemma write_release_cell :
  cell_spec false k n (Pasha.write_lock_release k) held_write (becomes (with_lock freed)).
Proof using Type. split; [apply write_lock_release_home|apply write_lock_release_cxl]. Qed.

Lemma write_release_new_cell v :
  fits 58 v ->
  cell_spec true k n (Pasha.write_lock_release_new sc me k n v) held_write
    (becomes (with_lock (published v))).
Proof using Hme proto.
  intros Hv. split; [|now apply write_lock_release_new_cxl].
  now apply home_spec_abort, write_lock_release_new_home.
Qed.

Lemma update_cell value :
  length value = n ->
  cell_spec false k n (Pasha.update k value n) (fun _ => True) (becomes (with_value value)).
Proof using Type. split; [now apply update_home|now apply update_cxl]. Qed.

Lemma valid_bit_cell b ins :
  cell_spec false k n (Pasha.modify_tuple_valid_bit sc me k b ins) (fun _ => True)
    (becomes (with_valid b)).
Proof using Hme proto.
  split; [apply modify_tuple_valid_bit_home|now apply modify_tuple_valid_bit_cxl].
Qed.
End owner.

(** ** The operations of the table *)

Inductive pop :=
| ReadLock | WriteLock
| TakeRead (dest : bytes) | TakeWrite (dest : bytes)
| ReadRelease | WriteRelease | WriteReleaseNew (version : Z)
| UpdateTuple (value : bytes) | SetValid (b ins : bool)
| RemoteReadLock (h : Z) | RemoteWriteLock (h : Z)
| RemoteTakeRead (h : Z) (dest : bytes) (inc : bool)
| RemoteTakeWrite (h : Z) (dest : bytes) (inc : bool)
| RemoteReadRelease | RemoteWriteRelease | RemoteWriteReleaseNew (h : Z) (version : Z)
| RemoteUpdate (value : bytes) | RemoteSetValid (h : Z) (b ins : bool) | Unpin
| MoveIn (inc : bool) | MoveOut.

Definition pop_kind (o : pop) : op_kind :=
  match o with
  | ReadLock | TakeRead _ | RemoteReadLock _ | RemoteTakeRead _ _ _ => AcqR
  | WriteLock | TakeWrite _ | RemoteWriteLock _ | RemoteTakeWrite _ _ _ => AcqW
  | ReadRelease | RemoteReadRelease => RelR
  | WriteRelease | WriteReleaseNew _ | RemoteWriteRelease | RemoteWriteReleaseNew _ _ => RelW
  | UpdateTuple _ | RemoteUpdate _ => Update
  | SetValid _ _ | RemoteSetValid _ _ _ | Unpin | MoveIn _ | MoveOut => Internal
  end.

(** Buffers have the size of the tuple, versions have no lock bits, and hosts
    are numbered as the shared word can represent them. *)
Definition pop_ok (n : nat) (o : pop) : Prop :=
  match o with
  | TakeRead b | TakeWrite b | UpdateTuple b | RemoteUpdate b => length b = n
  | RemoteTakeRead h b _ | RemoteTakeWrite h b _ => host_ok h /\ length b = n
  | WriteReleaseNew v => fits 58 v
  | RemoteWriteReleaseNew h v => host_ok h /\ fits 58 v
  | RemoteReadLock h | RemoteWriteLock h | RemoteSetValid h _ _ => host_ok h
  | _ => True
  end.

Section table.
Context (sc : SCCManager) {proto : SCCProtocol sc} (cfg : config).
Context {alloc : CxlAlloc} {pol : PolicyMeta} (owner : Z) (Hown : host_ok owner).
Context (Hcfg : enable_scc cfg = true \/ enable_migration_optimization cfg = false).
Context (size : rkey -> nat).

Definition locked (m : M world (Z * bool)) : M world (bool * option bytes) :=
  x ← m; mret (x.2, None).
Definition took_value (m : M world (Z * bool * bytes)) : M world (bool * option bytes) :=
  x ← m; mret (x.1.2, if x.1.2 : bool then Some x.2 else None).
Definition done {X} (m : M world X) : M world (bool * option bytes) :=
  m;; mret (true, None).

Definition run (k : rkey) (o : pop) : M world (bool * option bytes) :=
  let n := size k in
  match o with
  | ReadLock => locked (Pasha.read_lock sc owner k n)
  | WriteLock => locked (Pasha.write_lock sc owner k n)
  | TakeRead dest => took_value (Pasha.take_read_lock_and_read sc owner k dest n)
  | TakeWrite dest => took_value (Pasha.take_write_lock_and_read sc owner k dest n)
  | ReadRelease => done (Pasha.read_lock_release k)
  | WriteRelease => done (Pasha.write_lock_release k)
  | WriteReleaseNew v => done (Pasha.write_lock_release_new sc owner k n v)
  | UpdateTuple value => done (Pasha.update k value n)
  | SetValid b ins => done (Pasha.modify_tuple_valid_bit sc owner k b ins)
  | RemoteReadLock h =>
      locked (via_index k (fun p => Pasha.remote_read_lock_and_inc_ref_cnt sc h p n))
  | RemoteWriteLock h =>
      locked (via_index k (fun p => Pasha.remote_write_lock_and_inc_ref_cnt sc h p n))
  | RemoteTakeRead h dest inc =>
      took_value (via_index k (fun p => Pasha.remote_take_read_lock_and_read sc h p dest n inc))
  | RemoteTakeWrite h dest inc =>
      took_value (via_index k (fun p => Pasha.remote_take_write_lock_and_read sc h p dest n inc))
  | RemoteReadRelease => done (via_index k Pasha.remote_read_lock_release)
  | RemoteWriteRelease => done (via_index k Pasha.remote_write_lock_release)
  | RemoteWriteReleaseNew h v =>
      done (via_index k (fun p => Pasha.remote_write_lock_release_new sc h p n v))
  | RemoteUpdate value => done (via_index k (fun p => Pasha.remote_update p value n))
  | RemoteSetValid h b ins =>
      done (via_index k (fun p => Pasha.remote_modify_tuple_valid_bit sc h p b ins))
  | Unpin => done (via_index k Pasha.decrease_reference_count_via_ptr)
  | MoveIn inc => done (Migration.move_from_hashmap_to_shared_region sc cfg owner k n inc)
  | MoveOut => done (Migration.move_from_hashmap_to_partition sc cfg owner k n)
  end.

Definition readers_of (k : rkey) (w : world) : Z :=
  from_option (fun t => readers (t_lock t)) 0 (abs k w).
Definition writer_of (k : rkey) (w : world) : bool :=
  from_option (fun t => writer (t_lock t)) false (abs k w).
Definition value_of (k : rkey) (w : world) : option bytes := t_value <$> abs k w.

(** What the interface asks of an operation of kind [kd] on [k]. *)
Definition op_law (k : rkey) (kd : op_kind) (w : world) (bv : bool * option bytes)
    (w' : world) : Prop :=
  winv size w' /\
  lock_effect kd bv.1 (readers_of k w) (writer_of k w) (readers_of k w') (writer_of k w') /\
  (kd <> Update -> value_of k w' = value_of k w) /\
  (forall x, bv.2 = Some x -> value_of k w = Some x) /\
  (forall k', k' <> k -> abs k' w' = abs k' w).

(** The part of [op_law] that is about the tuple. *)
Definition tuple_law (kd : op_kind) (t : tuple) (bv : bool * option bytes) (t' : tuple) : Prop :=
  lock_effect kd bv.1 (readers (t_lock t)) (writer (t_lock t)) (readers (t_lock t')) (writer (t_lock t')) /\
  (kd <> Update -> t_value t' = t_value t) /\ (forall x, bv.2 = Some x -> t_value t = x).

Lemma post_law {X} (P : tuple -> X -> tuple -> Prop) (f : X -> bool * option bytes) k kd w t x w' :
  world_post size w k t P x w' -> abs k w = Some t ->
  (forall t', P t x t' -> tuple_law kd t (f x) t') -> op_law k kd w (f x) w'.
Proof using Type.
  intros (Hw & (t' & Ht' & HP) & Hf & _) Ht HL. destruct (HL t' HP) as (H1 & H2 & H3).
  unfold op_law, readers_of, writer_of, value_of. rewrite Ht, Ht'. cbn.
  split_and!; try assumption; intros; f_equal; auto.
Qed.

Lemma lm_lock_missing {X} k (f : unit -> M world X) w :
  w_rows w !! k = None -> (lm_lock k ≫= f) w = Fault.
Proof using Type. intros E. unfold lm_lock, get_row. mrun. now rewrite E. Qed.

Lemma abs_missing k w : winv size w -> abs k w = None -> w_rows w !! k = None.
Proof using Type.
  intros Hw Ha. destruct (w_rows w !! k) as [r|] eqn:E; [|reflexivity].
  pose proof (winv_row _ _ Hw k r E) as Hr. unfold row_ok in Hr.
  destruct (lm_migrated_row (lr_meta r)) as [p|] eqn:Ep.
  - destruct Hr as (o & s & d & Hc & _ & H2 & H3).
    rewrite (abs_cxl _ _ _ _ _ _ _ _ E Hc H2 H3) in Ha. discriminate.
  - rewrite (abs_home _ _ _ E Ep) in Ha. discriminate.
Qed.

(** *** The effects of [PashaOps] as effects on a lock *)

Lemma granted_share t b t' v :
  granted can_share one_more t b t' -> (forall x, v = Some x -> t_value t = x) ->
  tuple_law AcqR t (b, v) t'.
Proof using Type.
  intros H Hv. split_and!; [|intros _|exact Hv]; destruct b; cbn in *.
  - destruct H as [Hc ->]. apply can_share_inv in Hc as [Hw _]. cbn. now rewrite Hw.
  - now subst.
  - now destruct H as [_ ->].
  - now subst.
Qed.

Lemma granted_own t b t' v :
  granted can_own taken t b t' -> (forall x, v = Some x -> t_value t = x) ->
  tuple_law AcqW t (b, v) t'.
Proof using Type.
  intros H Hv. split_and!; [|intros _|exact Hv]; destruct b; cbn in *.
  - destruct H as [Hc ->]. apply can_own_inv in Hc as [Hw Hr]. cbn. now rewrite Hw, Hr.
  - now subst.
  - now destruct H as [_ ->].
  - now subst.
Qed.

Lemma handed_value dest n t b out :
  handed dest n t b out -> length dest = n -> length (t_value t) = n ->
  forall x, (if b then Some out else None) = Some x -> t_value t = x.
Proof using Type.
  intros -> Hd Ht x. destruct b; [|discriminate]. intros [= <-]. symmetry.
  now apply memcpy_full.
Qed.

Lemma value_length k w t : winv size w -> abs k w = Some t -> length (t_value t) = size k.
Proof using Type.
  intros Hw Ht.
  destruct (abs_cases size w Hw k t Ht)
    as [(r & _ & _ & Hc & ->)|(p & o & r & s & d & _ & _ & _ & _ & Hc & ->)].
  - apply Hc.
  - destruct Hc as (_ & _ & _ & _ & _ & _ & _ & _ & (_ & _ & H) & _). exact H.
Qed.

(** An operation of the owner satisfies the interface. *)
Lemma owner_law {X} ab k kd (op : M world X) Pre P (g : X -> bool * option bytes) w bv w' :
  cell_spec ab k (size k) op Pre P ->
  (exists f, op = (lm_lock k ≫= f)) ->
  (forall t, lock_pre kd (readers (t_lock t)) (writer (t_lock t)) -> Pre t) ->
  (forall t x t', length (t_value t) = size k -> P t x t' -> tuple_law kd t (g x) t') ->
  winv size w -> lock_pre kd (readers_of k w) (writer_of k w) ->
  (x ← op; mret (g x)) w = Ret bv w' -> op_law k kd w bv w'.
Proof using Type.
  intros Hs [f Hf] Hpre Hlaw Hw Hp E. cbv [mbind M_bind mret M_ret] in E.
  destruct (op w) as [x w1| | |] eqn:Ex; try discriminate. injection E as <- <-.
  destruct (abs k w) as [t|] eqn:Ht.
  - unfold readers_of, writer_of in Hp. rewrite Ht in Hp. cbn in Hp.
    pose proof (cell_spec_world size w Hw ab k op Pre P t Hs Ht (Hpre t Hp)) as Ho.
    eapply post_law; [exact (oks_inv _ _ _ _ _ _ Ho Ex)|exact Ht|].
    intros t' HP. apply Hlaw; [|exact HP]. eapply value_length; eauto.
  - rewrite Hf, lm_lock_missing in Ex by now apply abs_missing. discriminate.
Qed.

(** An operation of another host satisfies the interface. *)
Lemma remote_law {X} ab k kd (op : Z -> M world X) Pre P (g : X -> bool * option bytes) w bv w' :
  cxl_spec ab k (size k) op Pre P ->
  (forall t, lock_pre kd (readers (t_lock t)) (writer (t_lock t)) -> Pre t) ->
  (forall t x t', length (t_value t) = size k -> P t x t' -> tuple_law kd t (g x) t') ->
  winv size w -> lock_pre kd (readers_of k w) (writer_of k w) ->
  (x ← via_index k op; mret (g x)) w = Ret bv w' -> op_law k kd w bv w'.
Proof using Type.
  intros Hs Hpre Hlaw Hw Hp E. cbv [mbind M_bind mret M_ret] in E.
  destruct (via_index k op w) as [x w1| | |] eqn:Ex; try discriminate. injection E as <- <-.
  destruct (w_tbl w !! k) as [p|] eqn:Etp;
    [|unfold via_index, cxl_search in Ex; cbv [mbind M_bind gets deref] in Ex;
      rewrite Etp in Ex; discriminate].
  destruct (abs k w) as [t|] eqn:Ht.
  - unfold readers_of, writer_of in Hp. rewrite Ht in Hp. cbn in Hp.
    pose proof (remote_spec_world size w Hw ab k op Pre P t p Hs Ht Etp (Hpre t Hp)) as Ho.
    eapply post_law; [exact (oks_inv _ _ _ _ _ _ Ho Ex)|exact Ht|].
    intros t' HP. apply Hlaw; [|exact HP]. eapply value_length; eauto.
  - destruct (winv_tbl _ _ Hw k p Etp) as (r & Er & _).
    apply abs_missing in Ht; [congruence|exact Hw].
Qed.

(** A step that changes no tuple is an internal step. *)
Lemma silent_law k w bv w' :
  winv size w' -> (forall k', abs k' w' = abs k' w) -> bv.2 = None -> op_law k Internal w bv w'.
Proof using Type.
  intros Hw Ha Hv. unfold op_law, readers_of, writer_of, value_of. rewrite Ha.
  split_and!; try easy. rewrite Hv. easy.
Qed.

Lemma becomes_law {X} kd (f : tuple -> tuple) t (x : X) t' :
  becomes f t x t' ->
  lock_effect kd true (readers (t_lock t)) (writer (t_lock t))
    (readers (t_lock (f t))) (writer (t_lock (f t))) ->
  (kd <> Update -> t_value (f t) = t_value t) -> tuple_law kd t (true, None) t'.
Proof using Type. intros -> H1 H2. now split_and!. Qed.

Lemma silent_op {X} (m : M world X) w bv w' :
  done m w = Ret bv w' -> exists x, m w = Ret x w' /\ bv = (true, None).
Proof using Type.
  cbv [done mbind M_bind mret M_ret]. destruct (m w); try discriminate.
  intros [= <- <-]. eauto.
Qed.

(** An operation that reports success is an instance of its specification. *)
Ltac the_run := match goal with H : _ = Ret _ _ |- _ => exact H end.
Ltac owner_op spec :=
  eapply owner_law; [exact spec|now eexists|easy| |eassumption|eassumption|the_run].
Ltac remote_op spec :=
  eapply remote_law; [exact spec|easy| |eassumption|eassumption|the_run].
Ltac plain := let H := fresh in intros ??? _ H; eapply becomes_law; [exact H|easy..].
Ltac owner_unit spec :=
  eapply (owner_law _ _ _ _ _ _ (fun _ => (true, None)));
  [exact spec|now eexists|now intros|plain|eassumption|eassumption|the_run].
Ltac remote_unit spec :=
  eapply (remote_law _ _ _ _ _ _ (fun _ => (true, None)));
  [exact spec|now intros|plain|eassumption|eassumption|the_run].
Ltac grant law :=
  let H := fresh in intros ??? _ H; apply law; [apply H|easy].
Ltac grant_read law :=
  let Hl := fresh in let H := fresh in let Hv := fresh in
  intros ??? Hl [H Hv]; eapply law; [apply H|eapply handed_value; [exact Hv|eassumption|exact Hl]].
Ltac share := grant granted_share.
Ltac own := grant granted_own.
Ltac share_read := grant_read granted_share.
Ltac own_read := grant_read granted_own.

Lemma run_law k o w bv w' :
  pop_ok (size k) o -> winv size w -> lock_pre (pop_kind o) (readers_of k w) (writer_of k w) ->
  run k o w = Ret bv w' -> op_law k (pop_kind o) w bv w'.
Proof using Hcfg Hown proto.
  intros Hok Hw Hp E.
  destruct o; cbn [run pop_kind pop_ok] in *; unfold locked, took_value in E.
  - owner_op (read_lock_cell sc owner Hown k (size k)); share.
  - owner_op (write_lock_cell sc owner Hown k (size k)); own.
  - owner_op (take_read_cell sc owner Hown k (size k) dest); share_read.
  - owner_op (take_write_cell sc owner Hown k (size k) dest); own_read.
  - owner_unit (read_release_cell k (size k)).
  - owner_unit (write_release_cell k (size k)).
  - owner_unit (write_release_new_cell sc owner Hown k (size k) version Hok).
  - owner_unit (update_cell k (size k) value Hok).
  - owner_unit (valid_bit_cell sc owner Hown k (size k) b ins).
  - remote_op (remote_read_lock_and_inc_ref_cnt_cxl sc h Hok k (size k)); share.
  - remote_op (remote_write_lock_and_inc_ref_cnt_cxl sc h Hok k (size k)); own.
  - destruct Hok as [Hh Hl].
    remote_op (remote_take_read_lock_and_read_cxl sc h Hh k (size k) dest inc); share_read.
  - destruct Hok as [Hh Hl].
    remote_op (remote_take_write_lock_and_read_cxl sc h Hh k (size k) dest inc); own_read.
  - remote_unit (remote_read_lock_release_cxl k (size k)).
  - remote_unit (remote_write_lock_release_cxl k (size k)).
  - destruct Hok as [Hh Hv].
    remote_unit (remote_write_lock_release_new_cxl sc h Hh k (size k) version Hv).
  - remote_unit (remote_update_cxl k (size k) value Hok).
  - remote_unit (remote_modify_tuple_valid_bit_cxl sc h Hok k (size k) b ins).
  - remote_unit (decrease_reference_count_via_ptr_cxl k (size k)).
  - apply silent_op in E as (x & E & ->). destruct (abs k w) as [t|] eqn:Ht.
    + destruct (oks_inv _ _ _ _ _ _ (move_in_hashmap_spec sc cfg owner Hown Hcfg size w k t inc Hw Ht) E)
        as (H1 & H2 & _). now apply silent_law.
    + unfold Migration.move_from_hashmap_to_shared_region in E.
      rewrite lm_lock_missing in E by now apply abs_missing. discriminate.
  - apply silent_op in E as (x & E & ->). destruct (abs k w) as [t|] eqn:Ht.
    + destruct (oks_inv _ _ _ _ _ _ (move_out_hashmap_spec sc cfg owner Hown size w k t Hw Ht) E)
        as (H1 & H2 & _). now apply silent_law.
    + unfold Migration.move_from_hashmap_to_partition in E.
      rewrite lm_lock_missing in E by now apply abs_missing. discriminate.
Qed.

(** The partition and its rows in CXL memory, as a lock table. *)
#[export] Program Instance shared_table : LockTable := {|
  lstate := world;
  lkey := rkey;
  lop := { ko : rkey * pop | pop_ok (size ko.1) ko.2 };
  lval := bytes;
  lkey_of o := (`o).1;
  lkind o := pop_kind (`o).2;
  lexec o := run (`o).1 (`o).2;
  linv := winv size;
  lreaders := readers_of;
  lwriter := writer_of;
  lvalue := value_of
|}.
Next Obligation.
  intros w [[k o] Hok] b v w' Hi Hp E. cbn in *.
  destruct (run_law k o w (b, v) w' Hok Hi Hp E) as (H1 & H2 & H3 & H4 & H5).
  split_and!; try assumption. intros k' Hk.
  unfold readers_of, writer_of, value_of. now rewrite H5.
Qed.

(** ** Theorems

    All of them are for [enable_scc] or no migration optimisation ([Hcfg]), and rows
    move as those of unordered tables do. *)

(** C5: two-phase locking across hosts.  Start from a partition whose rows
    are all unlocked and interleave in any order the operations of the owner
    and of other hosts, on any rows, with rows moving into CXL memory and
    back in between.  In every state that is reached, a client that holds
    the write lock of a row is the only client that holds a lock on it. *)
Theorem mutual_exclusion w0 x k c c' :
  winv size w0 -> unlocked w0 -> reachable w0 x ->
  s_held x k !! c = Some Wr -> c <> c' -> s_held x k !! c' = None.
Proof using Type. exact (reachable_exclusive (O := shared_table) w0 x k c c'). Qed.

(** C6: repeatable reads across hosts and migrations, with [enable_scc] or without
    the migration optimisation ([Hcfg]; the other configuration loses values, as
    [unmodified_row_lost] shows).  From any reachable state, while a client keeps its lock on a row, only that client writes
    the row; if it does not write it, the value of the row stays the same,
    wherever the row is and wherever it moves. *)
Theorem repeatable_reads w0 x y k c ws :
  winv size w0 -> unlocked w0 -> reachable w0 x -> holding c k ws x y ->
  Forall (eq c) ws /\ (ws = [] -> value_of k (s_obj y) = value_of k (s_obj x)).
Proof using Type.
  intros Hi Hu Hx.
  exact (holding_stable (O := shared_table) c k ws x y (reachable_counted w0 x Hi Hu Hx)).
Qed.

(** C7: the lock state is exact.  In every reachable state the invariant of
    the partition holds, the reader count of a row, in its version word or
    in its shared word, is the number of clients that hold a read lock on
    it, and the write bit is set exactly when some client holds the write
    lock. *)
Theorem lock_state_exact w0 x k :
  winv size w0 -> unlocked w0 -> reachable w0 x ->
  winv size (s_obj x) /\
  readers_of k (s_obj x) = Z.of_nat (stdpp.base.size (read_holders (s_held x k))) /\
  (writer_of k (s_obj x) = true <-> exists c, s_held x k !! c = Some Wr).
Proof using Type.
  intros Hi Hu Hx. destruct (reachable_counted (O := shared_table) w0 x Hi Hu Hx) as [H Hk].
  destruct (Hk k) as (H1 & H2 & _). now split_and!.
Qed.

(** C8: a read returns the value of the row.  Whichever operation hands out
    bytes (the owner's or another host's locking read), in a state that
    satisfies the invariant, the bytes are the current value of the row, and
    the operation does not change it. *)
Theorem locking_read_current k o w b v w' :
  pop_ok (size k) o -> winv size w -> lock_pre (pop_kind o) (readers_of k w) (writer_of k w) ->
  run k o w = Ret (b, Some v) w' -> pop_kind o <> Update ->
  value_of k w = Some v /\ value_of k w' = Some v.
Proof using Hcfg Hown proto.
  intros Hok Hw Hp E Hk. destruct (run_law k o w (b, Some v) w' Hok Hw Hp E) as (_ & _ & H3 & H4 & _).
  split; [|rewrite H3 by exact Hk]; now apply H4.
Qed.
End table.
