(* ===== verification/RWKey.v ===== *)
(** * [TwoPLPashaRWKey]: an entry of a transaction's read or write set

    The class of protocol/TwoPLPasha/TwoPLPashaRWKey.h (the one of
    protocol/TwoPL/TwoPLRWKey.h has the same bit vector).  Pointers are
    abstract addresses, [None] the null pointer.  The bit vector packs the
    table, granule and partition of the tuple with the lock and request bits
    that commit and abort read to know what to release. *)

From S2P Require Import Prelude.

Module TwoPLPashaRWKey.

Inductive scan_type := SCAN_FOR_READ | SCAN_FOR_UPDATE | SCAN_FOR_INSERT | SCAN_FOR_DELETE.

#[export] Instance scan_type_eq_dec : EqDecision scan_type.
Proof. solve_decision. Defined.

Record TwoPLPashaRWKey := MkKey {
  key : option Z;
  value : option Z;
  bitvec : Z;
  tid : Z;
  lock_index : Z;
  min_key : option Z;
  max_key : option Z;
  limit : Z;
  scan_results : option Z;
  type : scan_type;
  next_row_entity : option Z;
  require_lock_next_row : bool;
  is_next_row_locked : bool;
  reference_counted : bool;
  processed : bool;
  inserted_cxl_row : option Z;
  cached_local_row : option Z;
  cached_migrated_row : option Z
}.

(** A default-constructed entry. *)
Definition fresh_key : TwoPLPashaRWKey :=
  MkKey None None 0 0 (-1) None None 0 None SCAN_FOR_READ None false false false false None None None.

Definition TABLE_ID_MASK : Z := 0x1f.
Definition TABLE_ID_OFFSET : Z := 57.
Definition GRANULE_ID_MASK : Z := 0x3ffff.
Definition GRANULE_ID_OFFSET : Z := 39.
Definition PARTITION_ID_MASK : Z := 0xfffff.
Definition PARTITION_ID_OFFSET : Z := 19.
Definition WRITE_LOCK_REQUEST_BIT_MASK : Z := 0x1.
Definition WRITE_LOCK_REQUEST_BIT_OFFSET : Z := 4.
Definition READ_LOCK_REQUEST_BIT_MASK : Z := 0x1.
Definition READ_LOCK_REQUEST_BIT_OFFSET : Z := 3.
Definition WRITE_LOCK_BIT_MASK : Z := 0x1.
Definition WRITE_LOCK_BIT_OFFSET : Z := 2.
Definition READ_LOCK_BIT_MASK : Z := 0x1.
Definition READ_LOCK_BIT_OFFSET : Z := 1.
Definition LOCAL_INDEX_READ_BIT_MASK : Z := 0x1.
Definition LOCAL_INDEX_READ_BIT_OFFSET : Z := 0.

Definition set_bitvec (b : Z) (k : TwoPLPashaRWKey) : TwoPLPashaRWKey :=
  MkKey (key k) (value k) b (tid k) (lock_index k) (min_key k) (max_key k) (limit k)
    (scan_results k) (type k) (next_row_entity k) (require_lock_next_row k)
    (is_next_row_locked k) (reference_counted k) (processed k) (inserted_cxl_row k)
    (cached_local_row k) (cached_migrated_row k).

Definition clear_local_index_read_bit (k : TwoPLPashaRWKey) : TwoPLPashaRWKey :=
  set_bitvec (Z.land (bitvec k) (not64 (Z.shiftl LOCAL_INDEX_READ_BIT_MASK LOCAL_INDEX_READ_BIT_OFFSET))) k.
Definition set_local_index_read_bit (k : TwoPLPashaRWKey) : TwoPLPashaRWKey :=
  let k := clear_local_index_read_bit k in
  set_bitvec (Z.lor (bitvec k) (Z.shiftl LOCAL_INDEX_READ_BIT_MASK LOCAL_INDEX_READ_BIT_OFFSET)) k.
Definition get_local_index_read_bit (k : TwoPLPashaRWKey) : Z :=
  Z.land (Z.shiftr (bitvec k) LOCAL_INDEX_READ_BIT_OFFSET) LOCAL_INDEX_READ_BIT_MASK.

Definition clear_read_lock_bit (k : TwoPLPashaRWKey) : TwoPLPashaRWKey :=
  set_bitvec (Z.land (bitvec k) (not64 (Z.shiftl READ_LOCK_BIT_MASK READ_LOCK_BIT_OFFSET))) k.
Definition set_read_lock_bit (k : TwoPLPashaRWKey) : TwoPLPashaRWKey :=
  let k := clear_read_lock_bit k in
  set_bitvec (Z.lor (bitvec k) (Z.shiftl READ_LOCK_BIT_MASK READ_LOCK_BIT_OFFSET)) k.
Definition get_read_lock_bit (k : TwoPLPashaRWKey) : Z :=
  Z.land (Z.shiftr (bitvec k) READ_LOCK_BIT_OFFSET) READ_LOCK_BIT_MASK.

Definition clear_write_lock_bit (k : TwoPLPashaRWKey) : TwoPLPashaRWKey :=
  set_bitvec (Z.land (bitvec k) (not64 (Z.shiftl WRITE_LOCK_BIT_MASK WRITE_LOCK_BIT_OFFSET))) k.
Definition set_write_lock_bit (k : TwoPLPashaRWKey) : TwoPLPashaRWKey :=
  let k := clear_write_lock_bit k in
  set_bitvec (Z.lor (bitvec k) (Z.shiftl WRITE_LOCK_BIT_MASK WRITE_LOCK_BIT_OFFSET)) k.
Definition get_write_lock_bit (k : TwoPLPashaRWKey) : Z :=
  Z.land (Z.shiftr (bitvec k) WRITE_LOCK_BIT_OFFSET) WRITE_LOCK_BIT_MASK.

Definition clear_read_lock_request_bit (k : TwoPLPashaRWKey) : TwoPLPashaRWKey :=
  set_bitvec (Z.land (bitvec k) (not64 (Z.shiftl READ_LOCK_REQUEST_BIT_MASK READ_LOCK_REQUEST_BIT_OFFSET))) k.
Definition set_read_lock_request_bit (k : TwoPLPashaRWKey) : TwoPLPashaRWKey :=
  let k := clear_read_lock_request_bit k in
  set_bitvec (Z.lor (bitvec k) (Z.shiftl READ_LOCK_REQUEST_BIT_MASK READ_LOCK_REQUEST_BIT_OFFSET)) k.
Definition get_read_lock_request_bit (k : TwoPLPashaRWKey) : Z :=
  Z.land (Z.shiftr (bitvec k) READ_LOCK_REQUEST_BIT_OFFSET) READ_LOCK_REQUEST_BIT_MASK.

Definition clear_write_lock_request_bit (k : TwoPLPashaRWKey) : TwoPLPashaRWKey :=
  set_bitvec (Z.land (bitvec k) (not64 (Z.shiftl WRITE_LOCK_REQUEST_BIT_MASK WRITE_LOCK_REQUEST_BIT_OFFSET))) k.
Definition set_write_lock_request_bit (k : TwoPLPashaRWKey) : TwoPLPashaRWKey :=
  let k := clear_write_lock_request_bit k in
  set_bitvec (Z.lor (bitvec k) (Z.shiftl WRITE_LOCK_REQUEST_BIT_MASK WRITE_LOCK_REQUEST_BIT_OFFSET)) k.
Definition get_write_lock_request_bit (k : TwoPLPashaRWKey) : Z :=
  Z.land (Z.shiftr (bitvec k) WRITE_LOCK_REQUEST_BIT_OFFSET) WRITE_LOCK_REQUEST_BIT_MASK.

Definition clear_table_id (k : TwoPLPashaRWKey) : TwoPLPashaRWKey :=
  set_bitvec (Z.land (bitvec k) (not64 (Z.shiftl TABLE_ID_MASK TABLE_ID_OFFSET))) k.
Definition set_table_id (table_id : Z) (k : TwoPLPashaRWKey) : TwoPLPashaRWKey :=
  let k := clear_table_id k in
  set_bitvec (Z.lor (bitvec k) (wrap 64 (Z.shiftl table_id TABLE_ID_OFFSET))) k.
Definition get_table_id (k : TwoPLPashaRWKey) : Z :=
  Z.land (Z.shiftr (bitvec k) TABLE_ID_OFFSET) TABLE_ID_MASK.

Definition clear_partition_id (k : TwoPLPashaRWKey) : TwoPLPashaRWKey :=
  set_bitvec (Z.land (bitvec k) (not64 (Z.shiftl PARTITION_ID_MASK PARTITION_ID_OFFSET))) k.
Definition set_partition_id (partition_id : Z) (k : TwoPLPashaRWKey) : TwoPLPashaRWKey :=
  let k := clear_partition_id k in
  set_bitvec (Z.lor (bitvec k) (wrap 64 (Z.shiftl partition_id PARTITION_ID_OFFSET))) k.
Definition get_partition_id (k : TwoPLPashaRWKey) : Z :=
  Z.land (Z.shiftr (bitvec k) PARTITION_ID_OFFSET) PARTITION_ID_MASK.

Definition clear_granule_id (k : TwoPLPashaRWKey) : TwoPLPashaRWKey :=
  set_bitvec (Z.land (bitvec k) (not64 (Z.shiftl GRANULE_ID_MASK GRANULE_ID_OFFSET))) k.
Definition set_granule_id (granule_id : Z) (k : TwoPLPashaRWKey) : TwoPLPashaRWKey :=
  let k := clear_granule_id k in
  set_bitvec (Z.lor (bitvec k) (wrap 64 (Z.shiftl granule_id GRANULE_ID_OFFSET))) k.
Definition get_granule_id (k : TwoPLPashaRWKey) : Z :=
  Z.land (Z.shiftr (bitvec k) GRANULE_ID_OFFSET) GRANULE_ID_MASK.

Definition set_tid (t : Z) (k : TwoPLPashaRWKey) : TwoPLPashaRWKey :=
  MkKey (key k) (value k) (bitvec k) t (lock_index k) (min_key k) (max_key k) (limit k)
    (scan_results k) (type k) (next_row_entity k) (require_lock_next_row k)
    (is_next_row_locked k) (reference_counted k) (processed k) (inserted_cxl_row k)
    (cached_local_row k) (cached_migrated_row k).
Definition get_tid (k : TwoPLPashaRWKey) : Z := tid k.

Definition set_key (p : option Z) (k : TwoPLPashaRWKey) : TwoPLPashaRWKey :=
  MkKey p (value k) (bitvec k) (tid k) (lock_index k) (min_key k) (max_key k) (limit k)
    (scan_results k) (type k) (next_row_entity k) (require_lock_next_row k)
    (is_next_row_locked k) (reference_counted k) (processed k) (inserted_cxl_row k)
    (cached_local_row k) (cached_migrated_row k).
Definition get_key (k : TwoPLPashaRWKey) : option Z := key k.

Definition set_value (p : option Z) (k : TwoPLPashaRWKey) : TwoPLPashaRWKey :=
  MkKey (key k) p (bitvec k) (tid k) (lock_index k) (min_key k) (max_key k) (limit k)
    (scan_results k) (type k) (next_row_entity k) (require_lock_next_row k)
    (is_next_row_locked k) (reference_counted k) (processed k) (inserted_cxl_row k)
    (cached_local_row k) (cached_migrated_row k).
Definition get_value (k : TwoPLPashaRWKey) : option Z := value k.

(** The index is assigned from a [uint32_t] and read as an [int32_t]. *)
Definition to_int32 (x : Z) : Z := let y := wrap 32 x in if y <? 2 ^ 31 then y else y - 2 ^ 32.
Definition set_lock_index (i : Z) (k : TwoPLPashaRWKey) : TwoPLPashaRWKey :=
  MkKey (key k) (value k) (bitvec k) (tid k) (to_int32 i) (min_key k) (max_key k) (limit
    k) (scan_results k) (type k) (next_row_entity k) (require_lock_next_row k)
    (is_next_row_locked k) (reference_counted k) (processed k) (inserted_cxl_row k)
    (cached_local_row k) (cached_migrated_row k).
Definition get_lock_index (k : TwoPLPashaRWKey) : Z := lock_index k.

Definition set_scan_args (mn mx : option Z) (lim : Z) (res : option Z) (ty : scan_type) (k : TwoPLPashaRWKey) : TwoPLPashaRWKey :=
  MkKey (key k) (value k) (bitvec k) (tid k) (lock_index k) mn mx lim res ty
    (next_row_entity k) (require_lock_next_row k) (is_next_row_locked k) (reference_counted
    k) (processed k) (inserted_cxl_row k) (cached_local_row k) (cached_migrated_row k).
Definition get_scan_min_key (k : TwoPLPashaRWKey) : option Z := min_key k.
Definition get_scan_max_key (k : TwoPLPashaRWKey) : option Z := max_key k.
Definition get_scan_limit (k : TwoPLPashaRWKey) : Z := limit k.
Definition get_scan_res_vec (k : TwoPLPashaRWKey) : option Z := scan_results k.
Definition get_request_type (k : TwoPLPashaRWKey) : scan_type := type k.

Definition set_next_row_entity (e : option Z) (k : TwoPLPashaRWKey) : TwoPLPashaRWKey :=
  MkKey (key k) (value k) (bitvec k) (tid k) (lock_index k) (min_key k) (max_key k) (limit
    k) (scan_results k) (type k) e (require_lock_next_row k) (is_next_row_locked k)
    (reference_counted k) (processed k) (inserted_cxl_row k) (cached_local_row k)
    (cached_migrated_row k).
Definition get_next_row_entity (k : TwoPLPashaRWKey) : option Z := next_row_entity k.

Definition set_next_row_locked (k : TwoPLPashaRWKey) : TwoPLPashaRWKey :=
  MkKey (key k) (value k) (bitvec k) (tid k) (lock_index k) (min_key k) (max_key k) (limit
    k) (scan_results k) (type k) (next_row_entity k) (require_lock_next_row k) true
    (reference_counted k) (processed k) (inserted_cxl_row k) (cached_local_row k)
    (cached_migrated_row k).
Definition get_next_row_locked (k : TwoPLPashaRWKey) : bool := is_next_row_locked k.

Definition set_require_lock_next_row (k : TwoPLPashaRWKey) : TwoPLPashaRWKey :=
  MkKey (key k) (value k) (bitvec k) (tid k) (lock_index k) (min_key k) (max_key k) (limit
    k) (scan_results k) (type k) (next_row_entity k) true (is_next_row_locked k)
    (reference_counted k) (processed k) (inserted_cxl_row k) (cached_local_row k)
    (cached_migrated_row k).
Definition get_require_lock_next_row (k : TwoPLPashaRWKey) : bool := require_lock_next_row k.

Definition set_processed (k : TwoPLPashaRWKey) : TwoPLPashaRWKey :=
  MkKey (key k) (value k) (bitvec k) (tid k) (lock_index k) (min_key k) (max_key k) (limit
    k) (scan_results k) (type k) (next_row_entity k) (require_lock_next_row k)
    (is_next_row_locked k) (reference_counted k) true (inserted_cxl_row k) (cached_local_row
    k) (cached_migrated_row k).
Definition get_processed (k : TwoPLPashaRWKey) : bool := processed k.

Definition set_reference_counted (k : TwoPLPashaRWKey) : TwoPLPashaRWKey :=
  MkKey (key k) (value k) (bitvec k) (tid k) (lock_index k) (min_key k) (max_key k) (limit
    k) (scan_results k) (type k) (next_row_entity k) (require_lock_next_row k)
    (is_next_row_locked k) true (processed k) (inserted_cxl_row k) (cached_local_row k)
    (cached_migrated_row k).
Definition get_reference_counted (k : TwoPLPashaRWKey) : bool := reference_counted k.

Definition set_inserted_cxl_row (p : option Z) (k : TwoPLPashaRWKey) : TwoPLPashaRWKey :=
  MkKey (key k) (value k) (bitvec k) (tid k) (lock_index k) (min_key k) (max_key k) (limit
    k) (scan_results k) (type k) (next_row_entity k) (require_lock_next_row k)
    (is_next_row_locked k) (reference_counted k) (processed k) p (cached_local_row k)
    (cached_migrated_row k).
Definition get_inserted_cxl_row (k : TwoPLPashaRWKey) : option Z := inserted_cxl_row k.

Definition set_cached_local_row (p : option Z) (k : TwoPLPashaRWKey) : TwoPLPashaRWKey :=
  MkKey (key k) (value k) (bitvec k) (tid k) (lock_index k) (min_key k) (max_key k) (limit
    k) (scan_results k) (type k) (next_row_entity k) (require_lock_next_row k)
    (is_next_row_locked k) (reference_counted k) (processed k) (inserted_cxl_row k) p
    (cached_migrated_row k).
Definition get_cached_local_row (k : TwoPLPashaRWKey) : option Z := cached_local_row k.

Definition set_cached_migrated_row (p : option Z) (k : TwoPLPashaRWKey) : TwoPLPashaRWKey :=
  MkKey (key k) (value k) (bitvec k) (tid k) (lock_index k) (min_key k) (max_key k) (limit
    k) (scan_results k) (type k) (next_row_entity k) (require_lock_next_row k)
    (is_next_row_locked k) (reference_counted k) (processed k) (inserted_cxl_row k)
    (cached_local_row k) p.
Definition get_cached_migrated_row (k : TwoPLPashaRWKey) : option Z := cached_migrated_row k.

(** ** The meaning of the bit vector *)

Record tuple_ref := MkRef {
  r_table : Z; r_granule : Z; r_partition : Z;
  r_write_request : bool; r_read_request : bool;
  r_write_lock : bool; r_read_lock : bool; r_local_index_read : bool
}.

Definition ref_of (b : Z) : tuple_ref :=
  MkRef (getf 57 5 b) (getf 39 18 b) (getf 19 20 b) (Z.testbit b 4) (Z.testbit b 3)
    (Z.testbit b 2) (Z.testbit b 1) (Z.testbit b 0).

Lemma getf_testbit_ne i off n v b :
  0 <= i -> 0 <= off -> 0 <= n -> fits n v -> i < off \/ off + n <= i ->
  Z.testbit (setf off n v b) i = Z.testbit b i.
Proof.
  intros. rewrite setf_testbit by (lia || assumption).
  destruct (Z.leb_spec off i), (Z.ltb_spec i (off + n)); cbn; lia || reflexivity.
Qed.

Lemma testbit_set1 i (c : bool) b : 0 <= i -> Z.testbit (setf i 1 (Z.b2z c) b) i = c.
Proof.
  intros. rewrite setf_testbit by (lia || apply b2z_fits).
  rewrite (proj2 (Z.leb_le i i)), (proj2 (Z.ltb_lt i (i + 1))) by lia. cbn.
  rewrite Z.sub_diag. apply Z.b2z_bit0.
Qed.

(** Rewriting one field of the vector. *)
Ltac ref_fields :=
  unfold ref_of; f_equal;
  first [ reflexivity
        | apply getf_setf; lia || assumption
        | apply getf_setf_ne; lia || assumption || apply b2z_fits
        | apply testbit_set1; lia
        | apply getf_testbit_ne; lia || assumption || apply b2z_fits ].

Lemma ref_table v b : fits 5 v ->
  ref_of (setf 57 5 v b) = let r := ref_of b in
    MkRef v (r_granule r) (r_partition r) (r_write_request r) (r_read_request r)
      (r_write_lock r) (r_read_lock r) (r_local_index_read r).
Proof. intros. cbn. ref_fields. Qed.

Lemma ref_granule v b : fits 18 v ->
  ref_of (setf 39 18 v b) = let r := ref_of b in
    MkRef (r_table r) v (r_partition r) (r_write_request r) (r_read_request r)
      (r_write_lock r) (r_read_lock r) (r_local_index_read r).
Proof. intros. cbn. ref_fields. Qed.

Lemma ref_partition v b : fits 20 v ->
  ref_of (setf 19 20 v b) = let r := ref_of b in
    MkRef (r_table r) (r_granule r) v (r_write_request r) (r_read_request r)
      (r_write_lock r) (r_read_lock r) (r_local_index_read r).
Proof. intros. cbn. ref_fields. Qed.

Lemma ref_bit i (c : bool) b : 0 <= i <= 4 ->
  ref_of (setf i 1 (Z.b2z c) b) = let r := ref_of b in
    MkRef (r_table r) (r_granule r) (r_partition r)
      (if i =? 4 then c else r_write_request r) (if i =? 3 then c else r_read_request r)
      (if i =? 2 then c else r_write_lock r) (if i =? 1 then c else r_read_lock r)
      (if i =? 0 then c else r_local_index_read r).
Proof.
  intros Hi. assert (i = 0 \/ i = 1 \/ i = 2 \/ i = 3 \/ i = 4) as Hc by lia.
  destruct Hc as [-> | [-> | [-> | [-> | ->]]]]; cbn [Z.eqb Pos.eqb]; cbn; ref_fields.
Qed.

(** The entry [k] refers to [r]. *)
Definition refers (k : TwoPLPashaRWKey) (r : tuple_ref) : Prop :=
  fits 64 (bitvec k) /\ ref_of (bitvec k) = r.

Lemma clear_field off n b :
  fits 64 b -> Z.land b (not64 (Z.shiftl (Z.ones n) off)) = setf off n 0 b.
Proof. apply clear_setf. Qed.

Lemma set_field off n v b :
  0 <= off -> 0 <= n -> off + n <= 64 -> fits n v -> fits 64 b ->
  Z.lor (Z.land b (not64 (Z.shiftl (Z.ones n) off))) (wrap 64 (Z.shiftl v off)) = setf off n v b.
Proof.
  intros Ho Hn Hon Hv Hb. unfold setf. rewrite land_not64 by exact Hb. f_equal.
  apply wrap_small. rewrite Z.shiftl_mul_pow2 by lia. unfold fits in *.
  assert (2 ^ n * 2 ^ off <= 2 ^ 64) by (rewrite <- Z.pow_add_r by lia; apply Z.pow_le_mono_r; lia).
  pose proof (Z.pow_pos_nonneg 2 off). nia.
Qed.

Lemma set_bit_field i b :
  0 <= i < 64 -> fits 64 b ->
  Z.lor (Z.land b (not64 (Z.shiftl 1 i))) (Z.shiftl 1 i) = setf i 1 1 b.
Proof.
  intros Hi Hb. rewrite <- (set_field i 1 1 b) by (lia || assumption || (unfold fits; lia)).
  change (Z.ones 1) with 1. f_equal. symmetry. apply wrap_small.
  rewrite Z.shiftl_mul_pow2, Z.mul_1_l by lia. split; [apply Z.pow_nonneg; lia|].
  apply Z.pow_lt_mono_r; lia.
Qed.

(** The entry after one bit or one field was rewritten. *)
Lemma refers_bit i (c : bool) k r :
  0 <= i <= 4 -> refers k r ->
  refers (set_bitvec (setf i 1 (Z.b2z c) (bitvec k)) k)
    (MkRef (r_table r) (r_granule r) (r_partition r)
      (if i =? 4 then c else r_write_request r) (if i =? 3 then c else r_read_request r)
      (if i =? 2 then c else r_write_lock r) (if i =? 1 then c else r_read_lock r)
      (if i =? 0 then c else r_local_index_read r)).
Proof.
  intros Hi [Hb <-]. split; cbn [bitvec set_bitvec].
  - apply setf_fits; lia || assumption || apply b2z_fits.
  - now apply ref_bit.
Qed.

Lemma set_clear_bit i k :
  0 <= i <= 4 -> fits 64 (bitvec k) ->
  let k0 := set_bitvec (Z.land (bitvec k) (not64 (Z.shiftl 1 i))) k in
  set_bitvec (Z.lor (bitvec k0) (Z.shiftl 1 i)) k0 = set_bitvec (setf i 1 (Z.b2z true) (bitvec k)) k /\
  k0 = set_bitvec (setf i 1 (Z.b2z false) (bitvec k)) k.
Proof.
  intros Hi Hb. cbn [bitvec set_bitvec]. split.
  - unfold set_bitvec; cbn. now rewrite set_bit_field by (lia || assumption).
  - unfold set_bitvec. change (Z.shiftl 1 i) with (Z.shiftl (Z.ones 1) i).
    now rewrite clear_field by assumption.
Qed.

(** One of the ten bit operations, by the position of its bit. *)
Ltac bit_op_at H :=
  first
  [ bit_op_i 4 H | bit_op_i 3 H | bit_op_i 2 H | bit_op_i 1 H | bit_op_i 0 H ]
with bit_op_i i H :=
  match type of H with refers ?k ?r =>
    let E1 := fresh in let E2 := fresh in
    destruct (set_clear_bit i k ltac:(lia) (proj1 H)) as [E1 E2];
    first [ refine (eq_ind_r (fun x => refers x _) (refers_bit i true k r ltac:(lia) H) E1)
          | refine (eq_ind_r (fun x => refers x _) (refers_bit i false k r ltac:(lia) H) E2) ]
  end.

Ltac field_op lem :=
  intros Hv [Hb <-]; split;
  [ cbn [bitvec set_bitvec]; rewrite set_field by (lia || assumption);
    apply setf_fits; lia || assumption
  | cbn [bitvec set_bitvec]; rewrite set_field by (lia || assumption); now apply lem ].

Section fields.
Context (k : TwoPLPashaRWKey) (r : tuple_ref).

Lemma refers_table v : fits 5 v -> refers k r ->
  refers (set_table_id v k) (MkRef v (r_granule r) (r_partition r) (r_write_request r)
    (r_read_request r) (r_write_lock r) (r_read_lock r) (r_local_index_read r)).
Proof.
  unfold set_table_id, clear_table_id. change TABLE_ID_MASK with (Z.ones 5).
  change TABLE_ID_OFFSET with 57. field_op ref_table.
Qed.

Lemma refers_granule v : fits 18 v -> refers k r ->
  refers (set_granule_id v k) (MkRef (r_table r) v (r_partition r) (r_write_request r)
    (r_read_request r) (r_write_lock r) (r_read_lock r) (r_local_index_read r)).
Proof.
  unfold set_granule_id, clear_granule_id. change GRANULE_ID_MASK with (Z.ones 18).
  change GRANULE_ID_OFFSET with 39. field_op ref_granule.
Qed.

Lemma refers_partition v : fits 20 v -> refers k r ->
  refers (set_partition_id v k) (MkRef (r_table r) (r_granule r) v (r_write_request r)
    (r_read_request r) (r_write_lock r) (r_read_lock r) (r_local_index_read r)).
Proof.
  unfold set_partition_id, clear_partition_id. change PARTITION_ID_MASK with (Z.ones 20).
  change PARTITION_ID_OFFSET with 19. field_op ref_partition.
Qed.

Lemma refers_get : refers k r ->
  get_table_id k = r_table r /\ get_granule_id k = r_granule r /\
  get_partition_id k = r_partition r /\
  get_write_lock_request_bit k = Z.b2z (r_write_request r) /\
  get_read_lock_request_bit k = Z.b2z (r_read_request r) /\
  get_write_lock_bit k = Z.b2z (r_write_lock r) /\ get_read_lock_bit k = Z.b2z (r_read_lock r) /\
  get_local_index_read_bit k = Z.b2z (r_local_index_read r).
Proof.
  intros [Hb <-]. split_and!; try reflexivity;
    first [ exact (getf_bit_testbit 4 (bitvec k) ltac:(lia)) | exact (getf_bit_testbit 3 (bitvec k) ltac:(lia))
          | exact (getf_bit_testbit 2 (bitvec k) ltac:(lia)) | exact (getf_bit_testbit 1 (bitvec k) ltac:(lia))
          | exact (getf_bit_testbit 0 (bitvec k) ltac:(lia)) ].
Qed.

(** An entry of the read or write set keeps its fields apart.  Setting the
    table, granule or partition id to a value that fits its field, or setting
    or clearing one of the five lock and request bits, changes that field and
    no other, and the getters read the fields back.  So the lock bits that
    commit and abort consult are the ones the transaction set, and the tuple
    they are about is the one it accessed. *)
Theorem rwkey_fields :
  refers k r ->
  (get_table_id k = r_table r /\ get_granule_id k = r_granule r /\
   get_partition_id k = r_partition r /\
   get_write_lock_request_bit k = Z.b2z (r_write_request r) /\
   get_read_lock_request_bit k = Z.b2z (r_read_request r) /\
   get_write_lock_bit k = Z.b2z (r_write_lock r) /\ get_read_lock_bit k = Z.b2z (r_read_lock r) /\
   get_local_index_read_bit k = Z.b2z (r_local_index_read r)) /\
  (forall v, fits 5 v -> refers (set_table_id v k)
    (MkRef v (r_granule r) (r_partition r) (r_write_request r) (r_read_request r)
      (r_write_lock r) (r_read_lock r) (r_local_index_read r))) /\
  (forall v, fits 18 v -> refers (set_granule_id v k)
    (MkRef (r_table r) v (r_partition r) (r_write_request r) (r_read_request r)
      (r_write_lock r) (r_read_lock r) (r_local_index_read r))) /\
  (forall v, fits 20 v -> refers (set_partition_id v k)
    (MkRef (r_table r) (r_granule r) v (r_write_request r) (r_read_request r)
      (r_write_lock r) (r_read_lock r) (r_local_index_read r))) /\
  (forall b : bool, refers ((if b then set_write_lock_request_bit else clear_write_lock_request_bit) k)
    (MkRef (r_table r) (r_granule r) (r_partition r) b (r_read_request r)
      (r_write_lock r) (r_read_lock r) (r_local_index_read r))) /\
  (forall b : bool, refers ((if b then set_read_lock_request_bit else clear_read_lock_request_bit) k)
    (MkRef (r_table r) (r_granule r) (r_partition r) (r_write_request r) b
      (r_write_lock r) (r_read_lock r) (r_local_index_read r))) /\
  (forall b : bool, refers ((if b then set_write_lock_bit else clear_write_lock_bit) k)
    (MkRef (r_table r) (r_granule r) (r_partition r) (r_write_request r) (r_read_request r)
      b (r_read_lock r) (r_local_index_read r))) /\
  (forall b : bool, refers ((if b then set_read_lock_bit else clear_read_lock_bit) k)
    (MkRef (r_table r) (r_granule r) (r_partition r) (r_write_request r) (r_read_request r)
      (r_write_lock r) b (r_local_index_read r))) /\
  (forall b : bool, refers ((if b then set_local_index_read_bit else clear_local_index_read_bit) k)
    (MkRef (r_table r) (r_granule r) (r_partition r) (r_write_request r) (r_read_request r)
      (r_write_lock r) (r_read_lock r) b)).
Proof.
  intros H. split; [exact (refers_get H)|].
  split; [intros; now apply refers_table|]. split; [intros; now apply refers_granule|].
  split; [intros; now apply refers_partition|].
  split_and!; intros []; bit_op_at H.
Qed.
End fields.

(** A write lock taken on a tuple of table 3, partition 5. *)
Lemma rwkey_fields_witness :
  get_write_lock_bit (set_write_lock_bit (set_partition_id 5 (set_table_id 3 fresh_key))) = 1.
Proof.
  assert (refers (set_write_lock_bit (set_partition_id 5 (set_table_id 3 fresh_key)))
    (MkRef 3 0 5 false false true false false)) as H.
  { split; [vm_compute; split; congruence|reflexivity]. }
  exact (proj1 (proj2 (proj2 (proj2 (proj2 (proj2 (proj1 (rwkey_fields _ _ H)))))))).
Defined.

End TwoPLPashaRWKey.
