(* ===== verification/Tracker.v ===== *)
(** * Doubly linked lists of the migration policies

    [LRUTracker] (protocol/Pasha/PolicyLRU.h) and [ClockTracker]
    (protocol/Pasha/PolicyClock.h) keep the migrated rows in an intrusive
    doubly linked list: a node is an object with a [prev] and a [next] pointer
    (a null pointer is [None]), and the tracker has the [head], the [tail] and
    a cursor ([cur_victim] in one class, [cursor] in the other).  The code
    that links and unlinks nodes is the same in both classes.

    [repr d l] says that the nodes reachable from [head] are those of [l], in
    order, with [prev] and [next] consistent and [tail] the last one; tracking
    a node appends it to the list, and untracking removes it, wherever it is. *)

From S2P Require Import Prelude.

Record node := Node { n_prev : option Z; n_next : option Z }.

#[export] Instance node_eq_dec : EqDecision node.
Proof. solve_decision. Defined.

Record tracker := Tracker {
  t_locked : bool;
  t_head : option Z;
  t_tail : option Z;
  t_cursor : option Z;
  t_nodes : gmap Z node
}.

Definition set_locked (b : bool) (t : tracker) : tracker :=
  Tracker b (t_head t) (t_tail t) (t_cursor t) (t_nodes t).
Definition set_head (p : option Z) (t : tracker) : tracker :=
  Tracker (t_locked t) p (t_tail t) (t_cursor t) (t_nodes t).
Definition set_tail (p : option Z) (t : tracker) : tracker :=
  Tracker (t_locked t) (t_head t) p (t_cursor t) (t_nodes t).
Definition set_cursor (p : option Z) (t : tracker) : tracker :=
  Tracker (t_locked t) (t_head t) (t_tail t) p (t_nodes t).
Definition set_nodes (f : gmap Z node -> gmap Z node) (t : tracker) : tracker :=
  Tracker (t_locked t) (t_head t) (t_tail t) (t_cursor t) (f (t_nodes t)).

(** ** The operations *)

(** [p->next], [p->prev] and assignments through a pointer. *)
Definition get_node (p : Z) : M tracker node := deref (fun t => t_nodes t !! p).
Definition put_next (p : Z) (q : option Z) : M tracker unit :=
  n ← get_node p; modify (set_nodes (insert p (Node (n_prev n) q))).
Definition put_prev (p : Z) (q : option Z) : M tracker unit :=
  n ← get_node p; modify (set_nodes (insert p (Node q (n_next n)))).

(** The constructor of a node. *)
Definition new_node (p : Z) : M tracker unit :=
  modify (set_nodes (insert p (Node None None))).

Definition is_null (p : option Z) : bool := bool_decide (p = None).

(** [lock()] and [unlock()] of the tracker's spin lock. *)
Definition trk_lock : M tracker unit :=
  b ← gets t_locked; if b : bool then spin else modify (set_locked true).
Definition trk_unlock : M tracker unit := modify (set_locked false).

(** [track(node)] of the clock policy: push back to the tail. *)
Definition track (p : Z) : M tracker unit :=
  h ← gets t_head;
  t ← gets t_tail;
  if is_null h && is_null t then
    modify (set_head (Some p));;
    modify (set_tail (Some p));;
    put_next p None;;
    put_prev p None
  else
    CHECK (negb (is_null h));;
    CHECK (negb (is_null t));;
    hp ← deref (fun _ => h);
    tp ← deref (fun _ => t);
    tn ← get_node tp;
    CHECK (is_null (n_next tn));;
    hn ← get_node hp;
    CHECK (is_null (n_prev hn));;
    put_next tp (Some p);;
    put_prev p (Some tp);;
    modify (set_tail (Some p)).

(** [track(lru_meta)] of the LRU policy: the node must not be linked. *)
Definition lru_track (p : Z) : M tracker unit :=
  n ← get_node p;
  CHECK (is_null (n_next n));;
  CHECK (is_null (n_prev n));;
  track p.

(** [untrack(node)]: remove from the list. *)
Definition untrack (p : Z) : M tracker unit :=
  h ← gets t_head;
  t ← gets t_tail;
  (if is_null h && is_null t then abort
   else if bool_decide (h = t) then
     CHECK (bool_decide (Some p = h));;
     CHECK (bool_decide (Some p = t));;
     modify (set_head None);;
     modify (set_tail None)
   else
     n ← get_node p;
     match n_prev n with Some q => put_next q (n_next n) | None => mret tt end;;
     n ← get_node p;
     match n_next n with Some q => put_prev q (n_prev n) | None => mret tt end;;
     n ← get_node p;
     h ← gets t_head;
     when_ (bool_decide (h = Some p)) (modify (set_head (n_next n)));;
     t ← gets t_tail;
     when_ (bool_decide (t = Some p)) (modify (set_tail (n_prev n))));;
  put_prev p None;;
  put_next p None.

(** [promote(lru_meta)]: move to the tail. *)
Definition promote (p : Z) : M tracker unit := untrack p;; lru_track p.

(** [get_next_victim()] and [move_forward_and_get_cursor()]. *)
Definition move_forward_and_get_cursor : M tracker (option Z) :=
  c ← gets t_cursor;
  c' ← match c with
       | None => gets t_head
       | Some p => n ← get_node p; mret (n_next n)
       end;
  modify (set_cursor c');;
  mret c'.

Definition reset_cursor : M tracker unit := modify (set_cursor None).

(** ** The list behind the pointers *)

Definition first_or (l : list Z) (d : option Z) : option Z :=
  match l with [] => d | p :: _ => Some p end.
Definition last_or (d : option Z) (l : list Z) : option Z :=
  match last l with Some p => Some p | None => d end.

(** The nodes of [l] are linked, between [prev] and [next]. *)
Fixpoint seg (ns : gmap Z node) (prev : option Z) (l : list Z) (next : option Z) : Prop :=
  match l with
  | [] => True
  | p :: l' => ns !! p = Some (Node prev (first_or l' next)) /\ seg ns (Some p) l' next
  end.

Definition repr (t : tracker) (l : list Z) : Prop :=
  NoDup l /\ t_head t = first_or l None /\ t_tail t = last l /\ seg (t_nodes t) None l None /\
  (forall p n, t_nodes t !! p = Some n -> p ∉ l -> n = Node None None).

Lemma seg_app ns prev l1 l2 next :
  seg ns prev (l1 ++ l2) next <->
  seg ns prev l1 (first_or l2 next) /\ seg ns (last_or prev l1) l2 next.
Proof.
  revert prev. induction l1 as [|p l1 IH]; intros prev; cbn.
  - naive_solver.
  - rewrite IH. destruct l1 as [|q l1]; cbn; [naive_solver|].
    unfold last_or; cbn [last]. destruct (last (q :: l1)) eqn:E; [naive_solver|].
    apply last_None in E. discriminate.
Qed.

Lemma seg_insert_ne ns p n prev l next :
  p ∉ l -> seg (<[p := n]> ns) prev l next <-> seg ns prev l next.
Proof.
  revert prev. induction l as [|q l IH]; intros prev Hp; cbn; [easy|].
  apply not_elem_of_cons in Hp as [Hq Hl]. rewrite lookup_insert_ne by congruence.
  now rewrite IH.
Qed.

Lemma first_or_app l1 l2 d : first_or (l1 ++ l2) d = first_or l1 (first_or l2 d).
Proof. now destruct l1. Qed.

Lemma last_or_snoc d l p : last_or d (l ++ [p]) = Some p.
Proof. unfold last_or. now rewrite last_snoc. Qed.

Lemma seg_lookup ns prev l next p :
  seg ns prev l next -> p ∈ l -> is_Some (ns !! p).
Proof.
  revert prev. induction l as [|q l IH]; intros prev Hs Hp; [now apply elem_of_nil in Hp|].
  cbn in Hs. apply elem_of_cons in Hp as [->|Hp]; [naive_solver|]. eapply IH; [apply Hs|exact Hp].
Qed.

Lemma first_or_snoc l x : exists h, first_or (l ++ [x]) None = Some h /\ h ∈ l ++ [x].
Proof.
  destruct l as [|y l]; cbn; eexists; (split; [reflexivity|]); apply elem_of_cons; now left.
Qed.

(** The first node of a list has no predecessor. *)
Lemma head_node ns l x h :
  seg ns None (l ++ [x]) None -> first_or (l ++ [x]) None = Some h ->
  exists nx, ns !! h = Some (Node None nx).
Proof. destruct l; cbn; intros [H _] [= <-]; eauto. Qed.

Lemma track_repr t l p :
  repr t l -> p ∉ l -> t_nodes t !! p = Some (Node None None) ->
  exists t', track p t = Ret tt t' /\ repr t' (l ++ [p]) /\
    t_cursor t' = t_cursor t /\ t_locked t' = t_locked t /\ dom (t_nodes t') = dom (t_nodes t).
Proof.
  intros (Hnd & Hh & Ht & Hs & Hu) Hp Hn. destruct t as [lk h tl c ns]; cbn in *.
  destruct l as [|x l _] using rev_ind.
  - cbn in Hh, Ht. subst h tl. unfold track, put_next, put_prev, get_node. mrun.
    rewrite Hn; cbn. rewrite lookup_insert_eq; cbn. eexists. split; [reflexivity|].
    unfold set_nodes, set_tail, set_head; cbn. rewrite insert_insert_eq, insert_id by exact Hn.
    split; [|easy]. split; [apply NoDup_singleton|].
    split; [reflexivity|]. split; [reflexivity|]. split; [now split|].
    intros q n Hq _. apply (Hu q n Hq). apply not_elem_of_nil.
  - destruct (first_or_snoc l x) as (h0 & Eh & _).
    destruct (head_node ns l x h0 Hs Eh) as [nx Enx]. rewrite Eh in Hh. rewrite last_snoc in Ht.
    subst h tl. apply seg_app in Hs as [Hs1 [Ex _]]. cbn in Ex, Hs1.
    assert (x <> p) as Hxp by (intros ->; apply Hp; set_solver).
    unfold track, put_next, put_prev, get_node. mrun. rewrite Ex; cbn. rewrite Enx; cbn.
    rewrite Ex; cbn. rewrite lookup_insert_ne by exact Hxp. rewrite Hn; cbn.
    eexists. split; [reflexivity|]. unfold repr. split_and!; cbn; try reflexivity.
    + apply NoDup_app. split; [exact Hnd|]. split; [|apply NoDup_singleton].
      intros q Hq ->%list_elem_of_singleton. contradiction.
    + rewrite first_or_app. destruct l; [exact (eq_sym Eh)|cbn in *; congruence].
    + now rewrite last_snoc.
    + apply seg_app. split.
      * apply seg_insert_ne; [exact Hp|]. apply seg_app. split.
        -- apply seg_insert_ne; [|exact Hs1]. apply NoDup_app in Hnd. set_solver.
        -- cbn. split; [|easy]. now rewrite lookup_insert_eq.
      * cbn. rewrite last_or_snoc, lookup_insert_eq. easy.
    + intros q n Hq Hnq. apply not_elem_of_app in Hnq as [Hnl Hnp].
      rewrite !lookup_insert_ne in Hq by set_solver. eauto.
    + rewrite !dom_insert_lookup_L; try easy; rewrite ?lookup_insert_ne by exact Hxp; eauto.
Qed.

(** Relinking the neighbours of [p] leaves the segments on its two sides. *)
Lemma seg_set_next ns prev l x q next :
  NoDup (l ++ [x]) -> seg ns prev (l ++ [x]) next ->
  seg (<[x := Node (last_or prev l) q]> ns) prev (l ++ [x]) q.
Proof.
  intros Hnd Hs. apply seg_app in Hs as [Hs1 Hs2]. apply seg_app. split.
  - apply seg_insert_ne; [|exact Hs1]. apply NoDup_app in Hnd. set_solver.
  - cbn. now rewrite lookup_insert_eq.
Qed.

Lemma seg_set_prev ns prev x l q next :
  NoDup (x :: l) -> seg ns prev (x :: l) next ->
  seg (<[x := Node q (first_or l next)]> ns) q (x :: l) next.
Proof.
  intros [Hx _]%NoDup_cons [_ Hs]. cbn. rewrite lookup_insert_eq. split; [easy|].
  now apply seg_insert_ne.
Qed.

(** What is left to show once the neighbours of [p] are relinked. *)
Lemma unlinked_repr lk c (ns ns' : gmap Z node) l1 p l2 :
  NoDup (l1 ++ p :: l2) -> seg ns' None (l1 ++ l2) None ->
  (forall q n, ns !! q = Some n -> q ∉ l1 ++ p :: l2 -> n = Node None None) ->
  (forall q, q ∉ l1 ++ l2 -> ns' !! q = ns !! q) ->
  repr (Tracker lk (first_or (l1 ++ l2) None) (last (l1 ++ l2)) c (<[p := Node None None]> ns'))
    (l1 ++ l2).
Proof.
  intros Hnd Hs Hu Hf.
  assert (NoDup (l1 ++ l2) /\ p ∉ l1 ++ l2) as [Hnd' Hp].
  { rewrite NoDup_app, NoDup_cons in Hnd. rewrite NoDup_app. set_solver. }
  unfold repr. split_and!; cbn; try easy; [now apply seg_insert_ne|].
  intros q n Hq Hql. destruct (decide (q = p)) as [->|Hqp].
  - rewrite lookup_insert_eq in Hq. congruence.
  - rewrite lookup_insert_ne in Hq by congruence. rewrite Hf in Hq by exact Hql.
    apply (Hu q n Hq). set_solver.
Qed.

(** Runs a program of pointer accesses whose nodes are known. *)
Ltac ptr_step :=
  match goal with
  | |- context [<[?k := _]> _ !! ?k] => rewrite lookup_insert_eq
  | |- context [<[?i := _]> _ !! ?k] => rewrite lookup_insert_ne by congruence
  | H : ?m !! ?k = Some _ |- context [?m !! ?k] => rewrite H
  | |- context [bool_decide ?P] =>
      (rewrite (bool_decide_true P) by congruence) || (rewrite (bool_decide_false P) by congruence)
  end.
Ltac ptr_run := mrun; repeat (ptr_step; mrun).

Lemma last_ne (p : Z) l1 y l2 : NoDup (l1 ++ p :: y :: l2) ->
  exists z, last (l1 ++ p :: y :: l2) = Some z /\ z <> p /\ last (l1 ++ y :: l2) = Some z /\ z ∈ y :: l2.
Proof.
  intros Hnd. destruct (last (y :: l2)) as [z|] eqn:E; [|now apply last_None in E].
  assert (z ∈ y :: l2) as Hz by now apply last_Some_elem_of.
  exists z. rewrite !last_app. cbn [last] in *. rewrite E. split; [easy|]. split; [|easy].
  intros ->. rewrite NoDup_app, NoDup_cons in Hnd. tauto.
Qed.

Lemma first_ne (p : Z) l1 x l2 : NoDup ((l1 ++ [x]) ++ p :: l2) ->
  exists z, first_or ((l1 ++ [x]) ++ p :: l2) None = Some z /\ z <> p /\
    first_or ((l1 ++ [x]) ++ l2) None = Some z /\ z ∈ l1 ++ [x].
Proof.
  intros Hnd. destruct (first_or_snoc l1 x) as (z & E & Hz).
  exists z. rewrite !first_or_app in *. 
  destruct l1 as [|w l1]; cbn in *; (split; [easy|]; split; [|easy]); intros ->;
    injection E as <-; rewrite NoDup_cons in Hnd; set_solver.
Qed.

Lemma untrack_repr t l1 p l2 :
  repr t (l1 ++ p :: l2) ->
  exists t', untrack p t = Ret tt t' /\ repr t' (l1 ++ l2) /\
    t_cursor t' = t_cursor t /\ t_locked t' = t_locked t /\ dom (t_nodes t') = dom (t_nodes t) /\
    t_nodes t' !! p = Some (Node None None).
Proof.
  intros (Hnd & Hh & Ht & Hs & Hu). destruct t as [lk h tl c ns]; cbn in *.
  apply seg_app in Hs as [Hs1 [Hn Hs2]]. cbn in Hn, Hs1.
  enough (exists ns', untrack p (Tracker lk h tl c ns) =
      Ret tt (Tracker lk (first_or (l1 ++ l2) None) (last (l1 ++ l2)) c (<[p := Node None None]> ns')) /\
      seg ns' None (l1 ++ l2) None /\ (forall q, q ∉ l1 ++ l2 -> ns' !! q = ns !! q) /\
      dom ns' = dom ns) as (ns' & -> & Hs' & Hf & Hd).
  { eexists. split; [reflexivity|]. split; [now apply (unlinked_repr lk c ns)|]. cbn.
    rewrite lookup_insert_eq. split_and!; try easy. rewrite dom_insert_lookup_L; [exact Hd|].
    rewrite Hf; [eauto|]. rewrite NoDup_app, NoDup_cons in Hnd. set_solver. }
  destruct l1 as [|x l1 _] using rev_ind; destruct l2 as [|y l2];
    unfold untrack, put_next, put_prev, get_node.
  - cbn in Hh, Ht. subst h tl. ptr_run. exists ns.
    unfold set_nodes, set_tail, set_head; cbn. now rewrite insert_insert_eq.
  - cbn in Hh. destruct (last_ne p [] y l2 Hnd) as (z & Ez & Hzp & Ez' & Hzin). cbn [app] in *.
    rewrite Ez in Ht. subst h tl. pose proof (proj1 Hs2) as Hy. cbn [first_or]. rewrite Ez'.
    assert (y <> p) as Hyp by (intros ->; rewrite !NoDup_cons in Hnd; set_solver).
    ptr_run. unfold set_nodes, set_tail, set_head; cbn. rewrite insert_insert_eq.
    eexists. split; [reflexivity|]. split; [|split].
    + apply NoDup_cons in Hnd as [_ Hnd]. now apply (seg_set_prev ns (Some p)).
    + intros q Hq. apply lookup_insert_ne. set_solver.
    + now rewrite dom_insert_lookup_L by eauto.
  - destruct (first_ne p l1 x [] Hnd) as (z & Ez & Hzp & Ez' & Hzin). rewrite Ez in Hh.
    rewrite last_snoc in Ht. subst h tl. rewrite Ez'. rewrite app_nil_r, last_snoc in *.
    rewrite last_or_snoc in Hn. pose proof Hs1 as Hx. apply seg_app in Hx as [_ [Hx _]]. cbn in Hx.
    assert (x <> p) as Hxp by (intros ->; rewrite NoDup_app in Hnd; set_solver).
    ptr_run. unfold set_nodes, set_tail, set_head; cbn. rewrite insert_insert_eq.
    eexists. split; [reflexivity|]. split; [|split].
    + apply NoDup_app in Hnd as [Hnd _]. now apply (seg_set_next ns None l1 x None (Some p)).
    + intros q Hq. apply lookup_insert_ne. set_solver.
    + now rewrite dom_insert_lookup_L by eauto.
  - destruct (first_ne p l1 x (y :: l2) Hnd) as (h0 & Eh & Hhp & Eh' & Hhin).
    destruct (last_ne p (l1 ++ [x]) y l2 Hnd) as (z & Ez & Hzp & Ez' & Hzin).
    rewrite Eh in Hh. rewrite Ez in Ht. subst h tl. rewrite Eh', Ez'.
    rewrite last_or_snoc in Hn. pose proof Hs1 as Hx. apply seg_app in Hx as [_ [Hx _]]. cbn in Hx.
    pose proof (proj1 Hs2) as Hy.
    assert (x <> p /\ y <> p /\ x <> y) as (Hxp & Hyp & Hxy)
      by (rewrite NoDup_app, !NoDup_cons in Hnd; set_solver).
    assert (h0 <> z) as Hhz by (intros ->; rewrite NoDup_app in Hnd; set_solver).
    ptr_run. unfold set_nodes, set_tail, set_head; cbn. rewrite ?insert_insert_eq.
    eexists. split; [reflexivity|].
    apply NoDup_app in Hnd as (Hnd1 & Hdis & Hnd2). apply NoDup_cons in Hnd2 as [_ Hnd2].
    split; [|split].
    + apply seg_app. rewrite last_or_snoc. cbn [first_or]. split.
      * apply seg_insert_ne; [set_solver|]. now apply (seg_set_next ns None l1 x (Some y) (Some p)).
      * apply (seg_set_prev _ (Some p)); [exact Hnd2|]. apply seg_insert_ne; [set_solver|exact Hs2].
    + intros q Hq. rewrite !lookup_insert_ne by set_solver. reflexivity.
    + rewrite !dom_insert_lookup_L; rewrite ?lookup_insert_ne by exact Hxy; eauto.
Qed.

(** [promote] moves a tracked node to the tail. *)
Lemma promote_repr t l1 p l2 :
  repr t (l1 ++ p :: l2) ->
  exists t', promote p t = Ret tt t' /\ repr t' ((l1 ++ l2) ++ [p]) /\
    t_cursor t' = t_cursor t /\ t_locked t' = t_locked t /\ dom (t_nodes t') = dom (t_nodes t).
Proof.
  intros Ht. pose proof (proj1 Ht) as Hnd.
  destruct (untrack_repr t l1 p l2 Ht) as (t1 & E1 & H1 & Hc & Hl & Hd & Hp).
  destruct (track_repr t1 (l1 ++ l2) p H1) as (t2 & E2 & H2 & Hc2 & Hl2 & Hd2); [|exact Hp|].
  { rewrite NoDup_app, NoDup_cons in Hnd. set_solver. }
  exists t2. unfold promote. rewrite (bind_Ret _ _ _ _ _ E1). unfold lru_track, get_node.
  mrun. rewrite Hp. mrun. rewrite E2. now rewrite <- Hc, <- Hl, <- Hd.
Qed.

(** The cursor walks the list. *)
Lemma cursor_start t l :
  repr t l -> t_cursor t = None ->
  move_forward_and_get_cursor t = Ret (first_or l None) (set_cursor (first_or l None) t).
Proof.
  intros (_ & Hh & _) Hc. unfold move_forward_and_get_cursor. mrun. rewrite Hc. mrun. now rewrite Hh.
Qed.

Lemma cursor_next t l1 p l2 :
  repr t (l1 ++ p :: l2) -> t_cursor t = Some p ->
  move_forward_and_get_cursor t = Ret (first_or l2 None) (set_cursor (first_or l2 None) t).
Proof.
  intros (_ & _ & _ & Hs & _) Hc. apply seg_app in Hs as [_ [Hp _]].
  unfold move_forward_and_get_cursor, get_node. mrun. rewrite Hc. mrun. rewrite Hp. now mrun.
Qed.

(** A new node is in no list. *)
Lemma new_node_repr t l o : repr t l -> o ∉ l -> repr (set_nodes (insert o (Node None None)) t) l.
Proof.
  intros (A & B & C & D & F) Ho. unfold repr; cbn. split_and!; try easy.
  - now apply seg_insert_ne.
  - intros q n Hq Hnq. destruct (decide (q = o)) as [->|Hqo].
    + rewrite lookup_insert_eq in Hq. congruence.
    + rewrite lookup_insert_ne in Hq by congruence. eauto.
Qed.

(** The cursor after the nodes of [sk]. *)
Lemma cursor_at t sk rest :
  repr t (sk ++ rest) -> t_cursor t = last sk ->
  move_forward_and_get_cursor t = Ret (first_or rest None) (set_cursor (first_or rest None) t).
Proof.
  intros Hr Hc. destruct sk as [|x sk _] using rev_ind.
  - now apply cursor_start.
  - rewrite last_snoc in Hc. rewrite <- app_assoc in Hr. now apply (cursor_next t sk x rest).
Qed.
