(* ===== verification/Policy.v ===== *)
(** * The migration policies

    The classes of protocol/Pasha/Policy*.h decide which rows leave CXL memory
    when the budget of hardware-coherent memory is used up.  A policy is a
    [MigrationManager] (protocol/Pasha/MigrationManager.h): it is built from
    three functions of the protocol (move a row in, move a row out, delete a
    row) and keeps its own record of the migrated rows, per partition.

    The protocol's functions are the operations of the class [Mover], over a
    state [H] of their own; [cxl_rows h] gives the migrated rows of a state with
    the address of the policy metadata stored with each.  A row entity
    ([migrated_row_entity]) is named by the table and the key of its row.  A
    policy object has one record per partition and the same code for each;
    one partition is modelled.

    A call of the policy's own code that the protocol's function makes (setting
    up the metadata of a row) is run by the policy after that function. *)

From S2P Require Import Prelude LockWord SharedWord SCC CXLMemory PashaState PashaHelper Tracker.

(** The functions a policy is built from, and the counter it reads. *)
Class MoverOps (H : Type) := {
  move_from_partition_to_shared_region : rkey -> bool -> M H (migration_result * option Z);
  move_from_shared_region_to_partition : rkey -> M H bool;
  delete_and_update_next_key_info : rkey -> bool -> M H (bool * bool * option Z);
  total_hw_cc_usage : H -> Z
}.

(** What they promise to a policy. *)
Class Mover (H : Type) `{!MoverOps H} := {
  mover_inv : H -> Prop;
  cxl_rows : H -> gmap rkey Z;
  pinned : H -> rkey -> bool;
  move_in_promise : forall h k b, mover_inv h ->
    runs (move_from_partition_to_shared_region k b) h (fun res h' => mover_inv h' /\
      match res with
      | (SUCCESS, Some o) => cxl_rows h !! k = None /\ cxl_rows h' = <[k := o]> (cxl_rows h) /\
                             (forall k', cxl_rows h !! k' <> Some o)
      | (SUCCESS, None) => False
      | _ => cxl_rows h' = cxl_rows h
      end);
  move_out_promise : forall h k, mover_inv h -> is_Some (cxl_rows h !! k) ->
    runs (move_from_shared_region_to_partition k) h (fun ok h' => mover_inv h' /\
      ok = negb (pinned h k) /\ cxl_rows h' = (if ok then delete k (cxl_rows h) else cxl_rows h) /\
      (forall k', is_Some (cxl_rows h' !! k') -> pinned h' k' = pinned h k'))
}.

(** The same for deletes. *)
Class Deleter (H : Type) `{!MoverOps H, !Mover H} := {
  delete_promise : forall h k b, mover_inv h ->
    runs (delete_and_update_next_key_info k b) h (fun '(ret, need, meta) h' => mover_inv h' /\
      ret = true /\ need = bool_decide (is_Some (cxl_rows h !! k)) /\ meta = cxl_rows h !! k /\
      cxl_rows h' = delete k (cxl_rows h))
}.

(** The state of a policy object beside the state its functions work on. *)
Record pst (X H : Type) := Pst { pol : X; host : H }.
Arguments Pst {X H} pol host.
Arguments pol {X H} p.
Arguments host {X H} p.

Definition on_host {X H A} : M H A -> M (pst X H) A := lift_with host (fun h s => Pst (pol s) h).
Definition on_pol {X H A} : M X A -> M (pst X H) A := lift_with pol (fun x s => Pst x (host s)).

Lemma on_host_eq {X H A} (m : M H A) (s : pst X H) a h :
  m (host s) = Ret a h -> on_host m s = Ret a (Pst (pol s) h).
Proof. unfold on_host, lift_with. now intros ->. Qed.

Lemma on_pol_eq {X H A} (m : M X A) (s : pst X H) a x :
  m (pol s) = Ret a x -> on_pol m s = Ret a (Pst x (host s)).
Proof. unfold on_pol, lift_with. now intros ->. Qed.

Lemma runs_conv {S A} (m m' : M S A) s s' (Q : A -> S -> Prop) :
  m s = m' s' -> runs m' s' Q -> runs m s Q.
Proof. unfold runs. now intros ->. Qed.

(** A mutex of the policy. *)
Definition mutex_lock {X} (get : X -> bool) (set : bool -> X -> X) : M X unit :=
  b ← gets get; if b : bool then spin else modify (set true).

(** Lists of rows with the address of their metadata. *)
Lemma filter_other (l : list (rkey * Z)) k : k ∉ l.*1 -> filter (fun e => e.1 <> k) l = l.
Proof.
  induction l as [|e l IH]; [easy|]. rewrite fmap_cons. intros [Hk Hl]%not_elem_of_cons.
  rewrite filter_cons_True by congruence. now rewrite IH.
Qed.

Lemma filter_entry l1 k o (l2 : list (rkey * Z)) :
  NoDup (l1 ++ (k, o) :: l2).*1 -> filter (fun e => e.1 <> k) (l1 ++ (k, o) :: l2) = l1 ++ l2.
Proof.
  rewrite fmap_app, fmap_cons. intros (_ & Hd & [Hk _]%NoDup_cons)%NoDup_app.
  rewrite filter_app, filter_cons_False by (cbn; tauto).
  rewrite !filter_other; [easy|exact Hk|]. intros Hin. specialize (Hd _ Hin). set_solver.
Qed.
