(* ===== verification/LRU.v ===== *)
(** * [PolicyLRU]: evicting the least recently used rows

    The class of protocol/Pasha/PolicyLRU.h.  The rows of a partition that are
    in CXL memory are kept in a doubly linked list, oldest use first; the links
    are in the policy metadata of the rows.

    The loop of [move_row_out] is run with a number of steps; running out of
    steps is [Spin], as for a busy wait that does not end, and
    [lru_move_row_out_ok] shows that [enough_steps] always is enough. *)

From S2P Require Import Prelude LockWord SharedWord SCC CXLMemory PashaState PashaHelper Tracker Policy.

Module PolicyLRU.
Section lru.
Context {H : Type} `{!MoverOps H} (hw_cc_budget : Z).

(** [LRUMeta] objects live in the policy metadata of the rows, at its address:
    the links are the nodes of the tracker, [row_entity_ptr] is [entity]. *)
Record lru := Lru { lru_tracker : tracker; entity : gmap Z rkey }.

Definition on_tracker {A} : M tracker A -> M (pst lru H) A := fun m =>
  on_pol (lift_with lru_tracker (fun t x => Lru t (entity x)) m).
Definition set_entity (f : gmap Z rkey -> gmap Z rkey) : M (pst lru H) unit :=
  on_pol (modify (fun x => Lru (lru_tracker x) (f (entity x)))).
Definition under_budget : M (pst lru H) bool :=
  gets (fun s => total_hw_cc_usage (host s) <? hw_cc_budget).

Definition init_migration_policy_metadata (lru_meta : Z) (k : rkey) : M (pst lru H) unit :=
  on_tracker (new_node lru_meta);;
  set_entity (insert lru_meta k).

Definition access_row (lru_meta : Z) : M (pst lru H) unit :=
  on_tracker trk_lock;;
  on_tracker (promote lru_meta);;
  on_tracker trk_unlock.

(** The function that moves the row in calls [init_migration_policy_metadata]
    on the metadata of the row when it succeeds. *)
Definition move_row_in (k : rkey) (inc_ref_cnt : bool) : M (pst lru H) migration_result :=
  on_tracker trk_lock;;
  ret ← on_host (move_from_partition_to_shared_region k inc_ref_cnt);
  match ret.1 with
  | SUCCESS =>
      match ret.2 with
      | None => abort
      | Some lru_meta =>
          init_migration_policy_metadata lru_meta k;;
          n ← on_tracker (get_node lru_meta);
          CHECK (is_null (n_next n));;
          CHECK (is_null (n_prev n));;
          on_tracker (lru_track lru_meta)
      end
  | _ => mret tt
  end;;
  on_tracker trk_unlock;;
  mret ret.1.

(** The [while] loop of [move_row_out]; the result is [ret]. *)
Fixpoint move_out_loop (fuel : nat) : M (pst lru H) bool :=
  match fuel with
  | O => spin
  | S fuel =>
      victim ← on_tracker move_forward_and_get_cursor;
      match victim with
      | None => mret false
      | Some v =>
          victim_row_entity ← deref (fun s => entity (pol s) !! v);
          move_out_success ← on_host (move_from_shared_region_to_partition victim_row_entity);
          if move_out_success : bool then
            on_tracker (untrack v);;
            on_tracker reset_cursor;;
            set_entity (delete v);;
            enough ← under_budget;
            if enough : bool then mret true else move_out_loop fuel
          else move_out_loop fuel
      end
  end.

Definition move_row_out (fuel : nat) : M (pst lru H) bool :=
  on_tracker trk_lock;;
  enough ← under_budget;
  if enough : bool then on_tracker trk_unlock;; mret false
  else
    ret ← move_out_loop fuel;
    on_tracker reset_cursor;;
    on_tracker trk_unlock;;
    mret ret.

Definition delete_specific_row_and_move_out (k : rkey) (is_delete_local : bool) : M (pst lru H) bool :=
  on_tracker trk_lock;;
  res ← on_host (delete_and_update_next_key_info k is_delete_local);
  let '(ret, need_move_out, migration_policy_meta) := res in
  CHECK ret;;
  (if need_move_out : bool then
     CHECK (bool_decide (is_Some migration_policy_meta));;
     lru_meta ← deref (fun _ => migration_policy_meta);
     on_tracker (untrack lru_meta)
   else mret tt);;
  on_tracker trk_unlock;;
  mret ret.

(** ** The record and the rows in CXL memory

    [lru_ok s l]: the tracker lists the entries of [l], least recently used
    first; each is a row with the address of its metadata; and they are the
    migrated rows, each listed once. *)
Context `{!Mover H}.

Definition linked (x : lru) (h : H) (l : list (rkey * Z)) : Prop :=
  repr (lru_tracker x) l.*2 /\ NoDup l.*1 /\
  (forall k o, (k, o) ∈ l -> entity x !! o = Some k) /\
  cxl_rows h = list_to_map l /\ mover_inv h.

Definition lru_ok (s : pst lru H) (l : list (rkey * Z)) : Prop :=
  linked (pol s) (host s) l /\ t_locked (lru_tracker (pol s)) = false /\
  t_cursor (lru_tracker (pol s)) = None.

Lemma lru_on_tracker_eq {A} (m : M tracker A) x h a t :
  m (lru_tracker x) = Ret a t -> on_tracker m (Pst x h) = Ret a (Pst (Lru t (entity x)) h).
Proof. intros E. apply on_pol_eq. cbn. unfold lift_with. now rewrite E. Qed.

(** Taking the lock, moving the cursor and the like leave the list alone. *)
Lemma lru_linked_flags x h l b c :
  linked x h l -> linked (Lru (set_cursor c (set_locked b (lru_tracker x))) (entity x)) h l.
Proof. now destruct x as [[] ?]. Qed.

Lemma lru_linked_host x h h' l :
  linked x h l -> mover_inv h' -> cxl_rows h' = cxl_rows h -> linked x h' l.
Proof. unfold linked. intros (?&?&?&<-&?) ? ->. easy. Qed.

Lemma linked_perm x h l t' l' :
  linked x h l -> repr t' l'.*2 -> l ≡ₚ l' -> linked (Lru t' (entity x)) h l'.
Proof.
  intros (Hr & Hnd & He & Hc & Hi) Hr' Hp. unfold linked; cbn. split_and!; try easy.
  - now rewrite <- Hp.
  - intros k o Ho. apply He. now rewrite Hp.
  - rewrite Hc. now apply list_to_map_proper.
Qed.

Lemma lru_linked_remove x h l1 k o l2 t' e' h' :
  linked x h (l1 ++ (k, o) :: l2) -> repr t' (l1 ++ l2).*2 ->
  (forall o', o' <> o -> e' !! o' = entity x !! o') ->
  mover_inv h' -> cxl_rows h' = delete k (cxl_rows h) -> linked (Lru t' e') h' (l1 ++ l2).
Proof.
  intros (Hr & Hnd & He & Hc & Hi) Hr' He' Hi' Hd.
  assert ((l1 ++ (k, o) :: l2) ≡ₚ (k, o) :: (l1 ++ l2)) as Hp by (symmetry; apply Permutation_middle).
  assert (NoDup ((k, o) :: (l1 ++ l2)).*1) as Hnd1 by now rewrite <- Hp.
  assert (NoDup ((k, o) :: (l1 ++ l2)).*2) as Hnd2 by (rewrite <- Hp; apply Hr).
  cbn in Hnd1, Hnd2. apply NoDup_cons in Hnd1 as [Hk Hnd1], Hnd2 as [Ho _].
  unfold linked; cbn. split_and!; try easy.
  - intros k' o' Hin. rewrite He'; [apply He; rewrite Hp; now right|].
    intros ->. apply Ho. apply list_elem_of_fmap. now exists (k', o).
  - rewrite Hd, Hc. rewrite (list_to_map_proper _ _ Hnd Hp). cbn.
    apply delete_insert_id. now apply not_elem_of_list_to_map_1.
Qed.

(** The lock of the tracker is free between operations. *)
Lemma lru_trk_lock_ok s l :
  lru_ok s l ->
  exists x, on_tracker trk_lock s = Ret tt (Pst x (host s)) /\ linked x (host s) l /\
    t_locked (lru_tracker x) = true /\ t_cursor (lru_tracker x) = None /\ entity x = entity (pol s).
Proof.
  intros (Hl & Hf & Hc). destruct s as [[t e] h]; cbn in *. eexists. split.
  { apply lru_on_tracker_eq. unfold trk_lock. mrun. rewrite Hf. reflexivity. }
  split; [|easy]. now apply (lru_linked_flags _ _ _ true (t_cursor t)) in Hl; destruct t.
Qed.

Lemma lru_trk_unlock_ok x h l :
  linked x h l -> t_cursor (lru_tracker x) = None ->
  exists s, on_tracker trk_unlock (Pst x h) = Ret tt s /\ lru_ok s l /\ host s = h.
Proof.
  intros Hl Hc. eexists. split; [now apply lru_on_tracker_eq|]. split; [|reflexivity].
  split; [|easy]. apply (lru_linked_flags _ _ _ false (t_cursor (lru_tracker x))) in Hl.
  now destruct x as [[] ?].
Qed.

Lemma lru_access_row_ok s l1 k o l2 :
  lru_ok s (l1 ++ (k, o) :: l2) ->
  runs (access_row o) s (fun _ s' => lru_ok s' ((l1 ++ l2) ++ [(k, o)]) /\ host s' = host s).
Proof.
  intros (x & E & Hl & _ & Hc & _)%lru_trk_lock_ok. unfold access_row.
  apply runs_bind. eapply runs_eq; [exact E|]. pose proof (proj1 Hl) as Hr.
  rewrite fmap_app in Hr. cbn in Hr. destruct (promote_repr _ _ _ _ Hr) as (t' & E' & Ht' & Hc' & _).
  apply runs_bind. eapply runs_eq; [apply lru_on_tracker_eq; exact E'|].
  destruct (lru_trk_unlock_ok (Lru t' (entity x)) (host s) ((l1 ++ l2) ++ [(k, o)])) as (s' & E'' & Hs' & Hh).
  - apply (linked_perm x _ _ _ _ Hl); [now rewrite !fmap_app|].
    now rewrite <- Permutation_middle, Permutation_cons_append.
  - cbn. now rewrite Hc'.
  - eapply runs_eq; [exact E''|easy].
Qed.

Lemma linked_insert x h l k o h' t' :
  linked x h l -> cxl_rows h !! k = None -> cxl_rows h' = <[k := o]> (cxl_rows h) -> mover_inv h' ->
  o ∉ l.*2 -> repr t' (l.*2 ++ [o]) -> linked (Lru t' (<[o := k]> (entity x))) h' (l ++ [(k, o)]).
Proof.
  intros (Hr & Hnd & He & Hm & _) Hk Hm' Hi' Ho Hr'.
  assert (k ∉ l.*1) as Hkl by now apply not_elem_of_list_to_map; rewrite <- Hm.
  assert (NoDup (l ++ [(k, o)]).*1) as Hnd'.
  { rewrite fmap_app, NoDup_app. split_and!; [easy| |apply NoDup_singleton].
    intros k' Hk' ->%list_elem_of_singleton. contradiction. }
  unfold linked; cbn. rewrite fmap_app. split_and!; try easy.
  - intros k' o' [Hin|[= -> ->]%list_elem_of_singleton]%elem_of_app; [|apply lookup_insert_eq].
    rewrite lookup_insert_ne; [now apply He|]. intros ->. apply Ho.
    apply list_elem_of_fmap. now exists (k', o').
  - rewrite Hm', Hm. rewrite (list_to_map_proper _ ((k, o) :: l) Hnd'); [easy|].
    symmetry. apply Permutation_cons_append.
Qed.

Lemma linked_fresh x h l o : linked x h l -> (forall k, cxl_rows h !! k <> Some o) -> o ∉ l.*2.
Proof.
  intros (_ & Hnd & _ & Hm & _) Hf ([k' o'] & -> & Hin)%list_elem_of_fmap. apply (Hf k').
  rewrite Hm. now apply elem_of_list_to_map.
Qed.

(** What [move_row_in] does once the row is in CXL memory. *)
Lemma lru_track_new x h l k o h' :
  linked x h l -> cxl_rows h !! k = None -> cxl_rows h' = <[k := o]> (cxl_rows h) -> mover_inv h' ->
  (forall k', cxl_rows h !! k' <> Some o) ->
  exists x', (init_migration_policy_metadata o k;;
              n ← on_tracker (get_node o);
              CHECK (is_null (n_next n));; CHECK (is_null (n_prev n));;
              on_tracker (lru_track o)) (Pst x h') = Ret tt (Pst x' h') /\
    linked x' h' (l ++ [(k, o)]) /\ t_cursor (lru_tracker x') = t_cursor (lru_tracker x).
Proof.
  intros Hl Hk Hm Hi Hf. pose proof (linked_fresh _ _ _ _ Hl Hf) as Ho.
  set (t1 := set_nodes (insert o (Node None None)) (lru_tracker x)).
  assert (t_nodes t1 !! o = Some (Node None None)) as Hn by apply lookup_insert_eq.
  destruct (track_repr t1 l.*2 o (new_node_repr _ _ _ (proj1 Hl) Ho) Ho Hn) as (t2 & E2 & Hr2 & Hc2 & _).
  exists (Lru t2 (<[o := k]> (entity x))). split; [|split; [now apply (linked_insert x h)|exact Hc2]].
  assert (lru_track o t1 = Ret tt t2) as Et.
  { unfold lru_track, get_node. mrun. unfold t1 in Hn; cbn in Hn. rewrite Hn. mrun. now rewrite E2. }
  assert (get_node o t1 = Ret (Node None None) t1) as Eg by (unfold get_node; mrun; cbn in Hn; now rewrite Hn).
  set (x1 := Lru t1 (<[o := k]> (entity x))).
  assert (init_migration_policy_metadata o k (Pst x h') = Ret tt (Pst x1 h')) as Ei by reflexivity.
  rewrite (bind_Ret _ _ _ _ _ Ei).
  rewrite (bind_Ret _ _ _ _ _ (lru_on_tracker_eq _ x1 h' _ _ Eg)).
  exact (lru_on_tracker_eq _ x1 h' _ _ Et).
Qed.

Lemma lru_move_row_in_ok s l k b :
  lru_ok s l ->
  runs (move_row_in k b) s (fun res s' => exists l', lru_ok s' l' /\
    match res with
    | SUCCESS => (k ∉ l.*1) /\ (exists o, l' = l ++ [(k, o)])
    | _ => l' = l
    end).
Proof.
  intros (x & E & Hl & _ & Hc & _)%lru_trk_lock_ok. unfold move_row_in.
  apply runs_bind. eapply runs_eq; [exact E|]. apply runs_bind.
  pose proof (move_in_promise (host s) k b (proj2 (proj2 (proj2 (proj2 Hl))))) as Hp. unfold runs in Hp.
  destruct (move_from_partition_to_shared_region k b (host s)) as [[r meta] h'| | |] eqn:Em; try easy.
  eapply runs_eq; [apply on_host_eq; exact Em|]. destruct Hp as [Hi' Hp]. cbn [fst snd pol].
  apply runs_bind. destruct r; [destruct meta as [o|]; [|easy]| |].
  2, 3: (eapply runs_eq; [reflexivity|]; apply runs_bind;
    destruct (lru_trk_unlock_ok x h' l) as (s' & E3 & Hs' & _); [now apply (lru_linked_host x (host s))|exact Hc|];
    eapply runs_eq; [exact E3|]; now exists l).
  destruct Hp as (Hk & Hm' & Hf). destruct (lru_track_new x (host s) l k o h' Hl Hk Hm' Hi' Hf) as (x' & Ex & Hx & Hc').
  eapply runs_eq; [exact Ex|]. apply runs_bind.
  destruct (lru_trk_unlock_ok x' h' _ Hx) as (s' & E3 & Hs' & _); [congruence|].
  eapply runs_eq; [exact E3|]. exists (l ++ [(k, o)]). split; [exact Hs'|]. split; [|eauto].
  destruct Hl as (_ & _ & _ & Hm & _). now apply not_elem_of_list_to_map; rewrite <- Hm.
Qed.

(** ** Moving rows out *)

(** The rows of [l] that cannot leave, in order. *)
Definition refused (h : H) (l : list (rkey * Z)) : list (rkey * Z) :=
  filter (fun e => pinned h e.1 = true) l.

Lemma lru_refused_ext h h' l :
  (forall e, e ∈ l -> pinned h e.1 = pinned h' e.1) -> refused h l = refused h' l.
Proof.
  intros He. unfold refused. induction l as [|e l IH]; [easy|]. rewrite !filter_cons.
  rewrite (He e) by now left. rewrite IH; [easy|]. intros e' ?. apply He. now right.
Qed.

Lemma refused_all h l : (forall e, e ∈ l -> pinned h e.1 = true) -> refused h l = l.
Proof.
  intros He. unfold refused. induction l as [|e l IH]; [easy|].
  rewrite filter_cons_True by (apply He; now left). f_equal. apply IH. intros e' ?. apply He. now right.
Qed.

(** What a walk over [l] leaves: the rows before some point that are pinned,
    and every row after it. *)
Definition swept (h : H) (l l' : list (rkey * Z)) (b : bool) : Prop :=
  exists l1 l2, l = l1 ++ l2 /\ l' = refused h l1 ++ l2 /\ (b = false -> l2 = []).

Lemma lru_swept_ext h h' l l' b :
  (forall e, e ∈ l -> pinned h' e.1 = pinned h e.1) -> swept h' l l' b -> swept h l l' b.
Proof.
  intros He (l1 & l2 & -> & -> & Hb). exists l1, l2. split; [easy|]. split; [|easy]. f_equal.
  apply lru_refused_ext. set_solver.
Qed.

Lemma swept_refused h sk e rest l' b :
  (forall e', e' ∈ sk -> pinned h e'.1 = true) -> pinned h e.1 = false ->
  swept h (sk ++ rest) l' b -> swept h (sk ++ e :: rest) l' b.
Proof.
  intros Hsk He (l1 & l2 & E & -> & Hb).
  assert (forall m, refused h (sk ++ e :: m) = refused h (sk ++ m)) as Hdrop.
  { intros m. unfold refused. rewrite !filter_app. f_equal. apply filter_cons_False. congruence. }
  apply app_eq_inv in E as [(m & -> & ->)|(m & -> & ->)].
  - exists (l1 ++ m ++ [e]), rest. rewrite <- !app_assoc; cbn. split; [easy|]. split.
    + rewrite (app_assoc l1 m [e]), Hdrop, app_nil_r.
      rewrite (refused_all h l1), (refused_all h (l1 ++ m)) by set_solver. apply app_assoc.
    + intros Hf. now apply Hb, app_eq_nil in Hf as [_ ->].
  - exists (sk ++ e :: m), l2. rewrite <- app_assoc; cbn. split; [easy|]. now rewrite Hdrop.
Qed.

Lemma linked_pinned x h h' l k :
  linked x h l ->
  (forall k', is_Some (cxl_rows h' !! k') -> pinned h' k' = pinned h k') ->
  cxl_rows h' = delete k (cxl_rows h) \/ cxl_rows h' = cxl_rows h ->
  forall e, e ∈ l -> (e.1 <> k \/ cxl_rows h' = cxl_rows h) -> pinned h' e.1 = pinned h e.1.
Proof.
  intros (_ & Hnd & _ & Hm & _) Hp Hd [k' o'] Hin Hk. apply Hp. cbn in *.
  assert (cxl_rows h !! k' = Some o') as Hl by (rewrite Hm; now apply elem_of_list_to_map).
  destruct Hd as [Hd|Hd]; [|rewrite Hd; eauto]. destruct Hk as [Hk|Hk]; [|rewrite Hk; eauto].
  rewrite Hd, lookup_delete_ne by congruence. eauto.
Qed.

(** An entry of the list names a migrated row. *)
Lemma lru_linked_entry x h l k o :
  linked x h l -> (k, o) ∈ l -> entity x !! o = Some k /\ cxl_rows h !! k = Some o /\ mover_inv h.
Proof.
  intros (_ & Hnd & He & Hm & Hi) Hin. split; [now apply He|]. split; [|exact Hi].
  rewrite Hm. now apply elem_of_list_to_map.
Qed.

(** The answer to a victim: a row that is pinned stays, another one leaves. *)
Lemma lru_victim_answer x h sk k o rest :
  linked x h (sk ++ (k, o) :: rest) ->
  exists h', move_from_shared_region_to_partition k h = Ret (negb (pinned h k)) h' /\
    (if pinned h k
     then linked x h' (sk ++ (k, o) :: rest) /\
          (forall e, e ∈ sk ++ (k, o) :: rest -> pinned h' e.1 = pinned h e.1)
     else mover_inv h' /\ cxl_rows h' = delete k (cxl_rows h) /\
          (forall e, e ∈ sk ++ rest -> pinned h' e.1 = pinned h e.1)).
Proof.
  intros Hl. destruct (lru_linked_entry x h _ k o Hl) as (_ & Ek & Hi); [set_solver|].
  pose proof (move_out_promise h k Hi (ex_intro _ _ Ek)) as Hp. unfold runs in Hp.
  destruct (move_from_shared_region_to_partition k h) as [ok h'| | |]; try easy.
  destruct Hp as (Hi' & -> & Hm & Hpin). exists h'. split; [easy|].
  destruct (pinned h k); cbn in Hm.
  - split; [now apply (lru_linked_host x h)|]. intros e He.
    apply (linked_pinned x h h' _ k Hl Hpin); [now right|set_solver|now right].
  - split_and!; [easy|easy|]. intros e He.
    apply (linked_pinned x h h' _ k Hl Hpin); [now left|set_solver|]. left.
    intros <-. destruct Hl as (_ & Hnd & _). rewrite fmap_app in Hnd. cbn in Hnd.
    rewrite NoDup_app, NoDup_cons in Hnd. apply elem_of_app in He as [He|He];
      apply (list_elem_of_fmap_2 fst) in He; set_solver.
Qed.

(** Dropping a row that left. *)
Lemma lru_drop_victim x h sk k o rest h' :
  linked x h (sk ++ (k, o) :: rest) -> mover_inv h' -> cxl_rows h' = delete k (cxl_rows h) ->
  exists x', (forall B (f : M (pst lru H) B),
      (on_tracker (untrack o);; on_tracker reset_cursor;; set_entity (delete o);; f) (Pst x h') =
      f (Pst x' h')) /\ linked x' h' (sk ++ rest) /\ t_cursor (lru_tracker x') = None.
Proof.
  intros Hl Hi' Hm. pose proof (proj1 Hl) as Hr. rewrite fmap_app in Hr. cbn in Hr.
  destruct (untrack_repr _ _ _ _ Hr) as (t2 & E2 & Hr2 & _).
  exists (Lru (set_cursor None t2) (delete o (entity x))). split.
  { intros B f. now rewrite (bind_Ret _ _ _ _ _ (lru_on_tracker_eq _ x h' _ _ E2)). }
  split; [|easy]. apply (lru_linked_remove x h _ k o); [exact Hl| | |exact Hi'|exact Hm].
  - rewrite fmap_app. now destruct t2.
  - intros o' Ho'. now apply lookup_delete_ne.
Qed.

Lemma lru_move_out_loop_ok fuel x h sk rest :
  linked x h (sk ++ rest) -> t_cursor (lru_tracker x) = last sk.*2 ->
  (forall e, e ∈ sk -> pinned h e.1 = true) ->
  (length (sk ++ rest) * length (sk ++ rest) + length rest < fuel)%nat ->
  runs (move_out_loop fuel) (Pst x h) (fun b s' => exists l', linked (pol s') (host s') l' /\
    swept h (sk ++ rest) l' b /\ (b = true -> total_hw_cc_usage (host s') < hw_cc_budget)).
Proof.
  revert x h sk rest. induction fuel as [|fuel IH]; intros x h sk rest Hl Hc Hsk Hf; [lia|].
  cbn [move_out_loop]. pose proof (proj1 Hl) as Hr. rewrite fmap_app in Hr.
  apply runs_bind. eapply runs_eq; [apply lru_on_tracker_eq; exact (cursor_at _ _ _ Hr Hc)|].
  set (c := first_or rest.*2 None). set (x1 := Lru (set_cursor c (lru_tracker x)) (entity x)).
  assert (linked x1 h (sk ++ rest)) as Hl1.
  { apply (lru_linked_flags _ _ _ (t_locked (lru_tracker x)) c) in Hl. now destruct x as [[] ?]. }
  destruct rest as [|[k o] rest]; cbn [first_or fmap list_fmap snd] in c.
  - eapply runs_eq; [reflexivity|]. exists (sk ++ []). split; [exact Hl1|]. split; [|easy].
    exists (sk ++ []), []. rewrite app_nil_r. now rewrite refused_all, app_nil_r.
  - destruct (lru_linked_entry x h _ k o Hl) as (Eo & _); [set_solver|].
    apply runs_bind. eapply runs_eq; [unfold deref; cbn; rewrite Eo; reflexivity|].
    destruct (lru_victim_answer x1 h sk k o rest Hl1) as (h' & Em & Ha).
    apply runs_bind. eapply runs_eq; [apply on_host_eq; exact Em|]. cbn [pol].
    rewrite length_app in Hf. cbn [length] in Hf. destruct (pinned h k) eqn:Ek; cbn [negb].
    + destruct Ha as [Hl3 Hsame].
      replace (sk ++ (k, o) :: rest) with ((sk ++ [(k, o)]) ++ rest) in * by now rewrite <- app_assoc.
      eapply runs_mono; [apply (IH x1 h' (sk ++ [(k, o)]) rest Hl3)|].
      * rewrite fmap_app. cbn [fmap list_fmap snd]. now rewrite last_snoc.
      * intros e He. rewrite Hsame by set_solver.
        apply elem_of_app in He as [He| ->%list_elem_of_singleton]; [now apply Hsk|exact Ek].
      * rewrite !length_app. cbn. nia.
      * intros b s' (l' & Hl' & Hsw & Hb). exists l'. split; [easy|]. split; [|easy].
        now apply (lru_swept_ext h h').
    + destruct Ha as (Hi' & Hm & Hsame).
      destruct (lru_drop_victim x1 h sk k o rest h' Hl1 Hi' Hm) as (x3 & E3 & Hl3 & Hc3).
      apply (runs_conv _ _ _ _ _ (E3 _ _)).
      apply runs_bind. eapply runs_eq; [reflexivity|]. cbn [host].
      destruct (total_hw_cc_usage h' <? hw_cc_budget) eqn:Eb.
      * eapply runs_eq; [reflexivity|]. exists (sk ++ rest). split; [exact Hl3|].
        split; [|intros _; now apply Z.ltb_lt]. apply swept_refused; [exact Hsk|exact Ek|].
        exists sk, rest. now rewrite refused_all.
      * eapply runs_mono; [apply (IH x3 h' [] (sk ++ rest) Hl3 Hc3)|]; cbn; [set_solver| |].
        -- rewrite length_app. nia.
        -- intros b s' (l' & Hl' & Hsw & Hb). exists l'. split; [easy|]. split; [|easy].
           apply swept_refused; [exact Hsk|exact Ek|]. now apply (lru_swept_ext h h').
Qed.

Lemma lru_move_row_out_ok fuel s l :
  lru_ok s l -> (length l * length l + length l < fuel)%nat ->
  runs (move_row_out fuel) s (fun b s' => exists l', lru_ok s' l' /\
    (if total_hw_cc_usage (host s) <? hw_cc_budget
     then b = false /\ l' = l /\ host s' = host s
     else swept (host s) l l' b /\ (b = true -> total_hw_cc_usage (host s') < hw_cc_budget))).
Proof.
  intros Hs Hf. destruct (lru_trk_lock_ok s l Hs) as (x & E & Hl & _ & Hc & _). unfold move_row_out.
  apply runs_bind. eapply runs_eq; [exact E|]. apply runs_bind. eapply runs_eq; [reflexivity|].
  cbn [host]. destruct (total_hw_cc_usage (host s) <? hw_cc_budget).
  - destruct (lru_trk_unlock_ok x (host s) l Hl Hc) as (s' & E' & Hs' & Hh).
    apply runs_bind. eapply runs_eq; [exact E'|]. now exists l.
  - apply runs_bind. eapply runs_mono; [exact (lru_move_out_loop_ok fuel x (host s) [] l Hl Hc ltac:(set_solver) Hf)|].
    intros b [x' h'] (l' & Hl' & Hsw & Hb). cbn [pol host app] in *.
    apply runs_bind. eapply runs_eq; [apply lru_on_tracker_eq; reflexivity|].
    apply (lru_linked_flags _ _ _ (t_locked (lru_tracker x')) None) in Hl'.
    destruct (lru_trk_unlock_ok (Lru (set_cursor None (lru_tracker x')) (entity x')) h' l')
      as (s' & E' & Hs' & Hh); [now destruct x' as [[] ?]|easy|].
    apply runs_bind. eapply runs_eq; [exact E'|]. exists l'. now rewrite Hh.
Qed.

(** The steps that are always enough: the tracker has at most as many entries
    as there are nodes. *)
Definition enough_steps (s : pst lru H) : nat :=
  let n := size (t_nodes (lru_tracker (pol s))) in S (n * n + n).

Lemma lru_enough_steps_ok s l : lru_ok s l -> (length l * length l + length l < enough_steps s)%nat.
Proof.
  intros (((Hnd & _ & _ & Hseg & _) & _) & _).
  assert (length l <= size (t_nodes (lru_tracker (pol s))))%nat; [|unfold enough_steps; nia].
  rewrite <- (length_fmap snd l), <- (size_list_to_set (C := gset Z) _ Hnd), <- size_dom.
  apply subseteq_size. intros o Ho%elem_of_list_to_set. apply elem_of_dom.
  exact (seg_lookup _ _ _ _ _ Hseg Ho).
Qed.

Lemma lru_delete_ok `{!Deleter H} s l k b :
  lru_ok s l ->
  runs (delete_specific_row_and_move_out k b) s (fun ret s' => exists l', lru_ok s' l' /\
    ret = true /\ l' = filter (fun e => e.1 <> k) l).
Proof.
  intros (x & E & Hl & _ & Hc & _)%lru_trk_lock_ok. unfold delete_specific_row_and_move_out.
  apply runs_bind. eapply runs_eq; [exact E|]. apply runs_bind.
  pose proof (delete_promise (host s) k b (proj2 (proj2 (proj2 (proj2 Hl))))) as Hp. unfold runs in Hp.
  destruct (delete_and_update_next_key_info k b (host s)) as [[[ret need] meta] h'| | |] eqn:Em; try easy.
  destruct Hp as (Hi' & -> & -> & -> & Hm). eapply runs_eq; [apply on_host_eq; exact Em|]. cbn [pol].
  apply runs_bind. eapply runs_eq; [reflexivity|]. apply runs_bind.
  destruct (cxl_rows (host s) !! k) as [o|] eqn:Ek.
  - assert ((k, o) ∈ l) as Hin.
    { destruct Hl as (_ & Hnd & _ & Hm' & _). rewrite Hm' in Ek. now apply elem_of_list_to_map in Ek. }
    apply list_elem_of_split in Hin as (l1 & l2 & ->).
    pose proof (proj1 Hl) as Hr. rewrite fmap_app in Hr. cbn in Hr.
    destruct (untrack_repr _ _ _ _ Hr) as (t2 & E2 & Hr2 & Hc2 & _).
    rewrite bool_decide_true by eauto. eapply runs_eq; [exact (lru_on_tracker_eq _ x h' _ _ E2)|].
    destruct (lru_trk_unlock_ok (Lru t2 (entity x)) h' (l1 ++ l2)) as (s' & E' & Hs' & _).
    { apply (lru_linked_remove x (host s) _ k o); [exact Hl|now rewrite fmap_app|easy|exact Hi'|exact Hm]. }
    { cbn. congruence. }
    apply runs_bind. eapply runs_eq; [exact E'|]. exists (l1 ++ l2). split; [easy|]. split; [easy|].
    symmetry. apply filter_entry, Hl.
  - rewrite bool_decide_false by (intros [? [=]]). eapply runs_eq; [reflexivity|].
    destruct (lru_trk_unlock_ok x h' l) as (s' & E' & Hs' & _); [|exact Hc|].
    { apply (lru_linked_host x (host s)); [exact Hl|exact Hi'|]. now rewrite Hm, delete_id. }
    apply runs_bind. eapply runs_eq; [exact E'|]. exists l. split; [easy|]. split; [easy|].
    symmetry. apply filter_other. destruct Hl as (_ & _ & _ & Hm' & _).
    apply not_elem_of_list_to_map. now rewrite <- Hm'.
Qed.

(** ** Sequences of operations *)
Inductive cmd :=
| MoveIn (k : rkey) (inc_ref_cnt : bool)
| Access (k : rkey)
| MoveOut
| Delete (k : rkey) (is_delete_local : bool).

(** [access_row] is called on the metadata of a row that was found in CXL memory. *)
Definition exec (c : cmd) : M (pst lru H) unit :=
  match c with
  | MoveIn k b => move_row_in k b;; mret tt
  | Access k =>
      meta ← gets (fun s => cxl_rows (host s) !! k);
      match meta with Some o => access_row o | None => mret tt end
  | MoveOut => n ← gets enough_steps; move_row_out n;; mret tt
  | Delete k b => delete_specific_row_and_move_out k b;; mret tt
  end.

Fixpoint exec_all (cs : list cmd) : M (pst lru H) unit :=
  match cs with [] => mret tt | c :: cs => exec c;; exec_all cs end.

Lemma lru_exec_ok `{!Deleter H} c s l : lru_ok s l -> runs (exec c) s (fun _ s' => exists l', lru_ok s' l').
Proof.
  intros Hs. destruct c as [k b|k| |k b]; cbn [exec].
  - apply runs_bind. eapply runs_mono; [exact (lru_move_row_in_ok s l k b Hs)|].
    intros r s' (l' & Hs' & _). now exists l'.
  - apply runs_bind. eapply runs_eq; [reflexivity|].
    destruct (cxl_rows (host s) !! k) as [o|] eqn:Ek; [|now exists l].
    assert ((k, o) ∈ l) as (l1 & l2 & ->)%list_elem_of_split.
    { destruct Hs as ((_ & Hnd & _ & Hm & _) & _). rewrite Hm in Ek. now apply elem_of_list_to_map in Ek. }
    eapply runs_mono; [exact (lru_access_row_ok s l1 k o l2 Hs)|]. intros ? ? [? _]. eauto.
  - apply runs_bind. eapply runs_eq; [reflexivity|]. apply runs_bind.
    eapply runs_mono; [exact (lru_move_row_out_ok _ s l Hs (lru_enough_steps_ok s l Hs))|].
    intros r s' (l' & Hs' & _). now exists l'.
  - apply runs_bind. eapply runs_mono; [exact (lru_delete_ok s l k b Hs)|].
    intros r s' (l' & Hs' & _). now exists l'.
Qed.

(** C21: the LRU tracker lists exactly the rows in CXL memory.  Whatever sequence
    of move-ins, accesses, move-outs and deletes runs on a partition with
    nothing migrated, every operation returns (no [CHECK] of the list code
    fails, the lock is released, the loop of [move_row_out] ends within the
    given number of steps), the links of the list are consistent in both
    directions, and its entries are the migrated rows, each once, with the
    address of its metadata. *)
Theorem lru_tracks_migrated `{!Deleter H} cs s :
  lru_ok s [] -> runs (exec_all cs) s (fun _ s' => exists l, lru_ok s' l).
Proof using Type.
  enough (forall l, lru_ok s l -> runs (exec_all cs) s (fun _ s' => exists l, lru_ok s' l)) by eauto.
  revert s. induction cs as [|c cs IH]; intros s l Hs; [now exists l|].
  apply runs_bind. eapply runs_mono; [exact (lru_exec_ok c s l Hs)|]. intros _ s' [l' Hs']. eauto.
Qed.

(** C12: the LRU policy moves out the least recently used rows.  Over its budget,
    [move_row_out] returns with the list split at some point: before it only
    the rows that are in use (pinned) remain, after it nothing was touched.
    It answers true only below the budget, and gives up only after every row
    was considered.  Below the budget it does nothing. *)
Theorem lru_evicts_oldest s l :
  lru_ok s l ->
  runs (move_row_out (enough_steps s)) s (fun b s' => exists l', lru_ok s' l' /\
    if total_hw_cc_usage (host s) <? hw_cc_budget
    then b = false /\ l' = l /\ host s' = host s
    else swept (host s) l l' b /\ (b = true -> total_hw_cc_usage (host s') < hw_cc_budget)).
Proof using Type.
  intros Hs. apply lru_move_row_out_ok; [exact Hs|]. now apply lru_enough_steps_ok.
Qed.
End lru.
End PolicyLRU.
