(* ===== verification/Clock.v ===== *)
(** * [PolicyClock]: the second-chance clock

    The class of protocol/Pasha/PolicyClock.h.  The rows of a partition that are
    in CXL memory are kept in a doubly linked list of nodes in local memory,
    oldest first; the policy metadata of a row is its second-chance byte, which
    an access sets and the first visit of the clock clears.  The cursor stays
    where it is between two calls of [move_row_out].

    As for the LRU policy, the loop of [move_row_out] is run with a number of
    steps, and [enough_steps] is shown to be enough. *)

From S2P Require Import Prelude LockWord SharedWord SCC CXLMemory PashaState PashaHelper Tracker Policy.

Module PolicyClock.
Section clock.
Context {H : Type} `{!MoverOps H} (hw_cc_budget : Z).

(** [row_entity] holds the row and the [migration_manager_meta] of a
    [ClockTrackerNode]; [second_chance] the bytes of the [ClockMeta] objects. *)
Record clock := Clk {
  clock_tracker : tracker;
  row_entity : gmap Z (rkey * option Z);
  second_chance : gmap Z Z
}.

Definition on_tracker {A} : M tracker A -> M (pst clock H) A := fun m =>
  on_pol (lift_with clock_tracker (fun t x => Clk t (row_entity x) (second_chance x)) m).
Definition set_entity (f : gmap Z (rkey * option Z) -> gmap Z (rkey * option Z)) : M (pst clock H) unit :=
  on_pol (modify (fun x => Clk (clock_tracker x) (f (row_entity x)) (second_chance x))).
Definition set_chance (f : gmap Z Z -> gmap Z Z) : M (pst clock H) unit :=
  on_pol (modify (fun x => Clk (clock_tracker x) (row_entity x) (f (second_chance x)))).
Definition under_budget : M (pst clock H) bool :=
  gets (fun s => total_hw_cc_usage (host s) <? hw_cc_budget).

Definition init_migration_policy_metadata (clock_meta : Z) : M (pst clock H) unit :=
  set_chance (insert clock_meta 0).

Definition access_row (clock_meta : Z) : M (pst clock H) unit :=
  c ← deref (fun s => second_chance (pol s) !! clock_meta);
  set_chance (insert clock_meta 1).

(** [new ClockTrackerNode(table, key, row)]: an address not in use. *)
Definition new_tracker_node (k : rkey) (meta : option Z) : M (pst clock H) Z :=
  p ← gets (fun s => fresh (dom (t_nodes (clock_tracker (pol s)))));
  on_tracker (new_node p);;
  set_entity (insert p (k, meta));;
  mret p.

Definition move_row_in (k : rkey) (inc_ref_cnt : bool) : M (pst clock H) migration_result :=
  on_tracker trk_lock;;
  ret ← on_host (move_from_partition_to_shared_region k inc_ref_cnt);
  (match ret.1 with
   | SUCCESS =>
       match ret.2 with Some meta => init_migration_policy_metadata meta | None => mret tt end;;
       clock_tracker_node ← new_tracker_node k ret.2;
       on_tracker (track clock_tracker_node)
   | _ => mret tt
   end);;
  on_tracker trk_unlock;;
  mret ret.1.

(** The [while] loop of [move_row_out]; the result is [ret]. *)
Fixpoint move_out_loop (fuel : nat) : M (pst clock H) bool :=
  match fuel with
  | O => spin
  | S fuel =>
      victim ← on_tracker move_forward_and_get_cursor;
      match victim with
      | None => mret false
      | Some v =>
          victim_row_entity ← deref (fun s => row_entity (pol s) !! v);
          let k := victim_row_entity.1 in
          clock_meta ← deref (fun _ => victim_row_entity.2);
          chance ← deref (fun s => second_chance (pol s) !! clock_meta);
          if chance =? 1 then
            set_chance (insert clock_meta 0);;
            move_out_loop fuel
          else
            move_out_success ← on_host (move_from_shared_region_to_partition k);
            if move_out_success : bool then
              on_tracker move_forward_and_get_cursor;;
              on_tracker (untrack v);;
              enough ← under_budget;
              if enough : bool then mret true else move_out_loop fuel
            else move_out_loop fuel
      end
  end.

Definition move_row_out (fuel : nat) : M (pst clock H) bool :=
  on_tracker trk_lock;;
  enough ← under_budget;
  if enough : bool then on_tracker trk_unlock;; mret false
  else
    ret ← move_out_loop fuel;
    on_tracker trk_unlock;;
    mret ret.

Definition delete_specific_row_and_move_out (k : rkey) (is_delete_local : bool) :
    M (pst clock H) bool :=
  on_tracker trk_lock;;
  res ← on_host (delete_and_update_next_key_info k is_delete_local);
  let '(ret, need_move_out, migration_policy_meta) := res in
  CHECK ret;;
  CHECK (negb need_move_out);;
  on_tracker trk_unlock;;
  mret ret.

(** ** The record and the rows in CXL memory

    An entry is a node with its row and the address of the row's metadata. *)
Context `{!Mover H}.

Abbreviation entry := (Z * (rkey * Z))%type.

Definition linked (x : clock) (h : H) (l : list entry) : Prop :=
  repr (clock_tracker x) l.*1 /\ (NoDup l.*2.*1 /\ NoDup l.*2.*2) /\
  (forall p e, (p, e) ∈ l -> row_entity x !! p = Some (e.1, Some e.2) /\ is_Some (second_chance x !! e.2)) /\
  cxl_rows h = list_to_map l.*2 /\ mover_inv h.

(** The cursor is on a node of the list, or nowhere. *)
Definition clock_ok (s : pst clock H) (l : list entry) : Prop :=
  linked (pol s) (host s) l /\ t_locked (clock_tracker (pol s)) = false /\
  exists sk rest, l = sk ++ rest /\ t_cursor (clock_tracker (pol s)) = last sk.*1.

Lemma clock_on_tracker_eq {A} (m : M tracker A) x h a t :
  m (clock_tracker x) = Ret a t ->
  on_tracker m (Pst x h) = Ret a (Pst (Clk t (row_entity x) (second_chance x)) h).
Proof. intros E. apply on_pol_eq. cbn. unfold lift_with. now rewrite E. Qed.

Lemma clock_linked_flags x h l b c :
  linked x h l ->
  linked (Clk (set_cursor c (set_locked b (clock_tracker x))) (row_entity x) (second_chance x)) h l.
Proof. now destruct x as [[] ? ?]. Qed.

Lemma clock_linked_host x h h' l :
  linked x h l -> mover_inv h' -> cxl_rows h' = cxl_rows h -> linked x h' l.
Proof. unfold linked. intros (?&?&?&<-&?) ? ->. easy. Qed.

Lemma linked_chance x h l o v :
  linked x h l -> linked (Clk (clock_tracker x) (row_entity x) (<[o := v]> (second_chance x))) h l.
Proof.
  intros (Hr & Hnd & He & Hm & Hi). unfold linked; cbn. split_and!; try easy.
  intros p e Hin. destruct (He p e Hin) as [E1 E2]. split; [easy|].
  destruct (decide (o = e.2)) as [->|Hne]; [rewrite lookup_insert_eq; eauto|].
  now rewrite lookup_insert_ne.
Qed.

Lemma clock_linked_entry x h l p k o :
  linked x h l -> (p, (k, o)) ∈ l ->
  row_entity x !! p = Some (k, Some o) /\ is_Some (second_chance x !! o) /\ cxl_rows h !! k = Some o.
Proof.
  intros (_ & [Hnd _] & He & Hm & _) Hin. destruct (He _ _ Hin) as [E1 E2]. split_and!; [easy|easy|].
  rewrite Hm. apply elem_of_list_to_map; [easy|]. now apply (list_elem_of_fmap_2' snd _ (p, (k, o))).
Qed.

Lemma clock_linked_remove x h l1 p k o l2 t' h' :
  linked x h (l1 ++ (p, (k, o)) :: l2) -> repr t' (l1 ++ l2).*1 ->
  mover_inv h' -> cxl_rows h' = delete k (cxl_rows h) ->
  linked (Clk t' (row_entity x) (second_chance x)) h' (l1 ++ l2).
Proof.
  intros (Hr & [Hnd Hndo] & He & Hc & Hi) Hr' Hi' Hd.
  assert ((l1 ++ (p, (k, o)) :: l2).*2 ≡ₚ ((p, (k, o)) :: (l1 ++ l2)).*2) as Hp
    by (apply fmap_Permutation; symmetry; apply Permutation_middle).
  assert (NoDup ((p, (k, o)) :: (l1 ++ l2)).*2.*1) as Hnd1 by now rewrite <- Hp.
  assert (NoDup ((p, (k, o)) :: (l1 ++ l2)).*2.*2) as Hnd2 by now rewrite <- Hp.
  rewrite !fmap_cons in Hnd1, Hnd2. apply NoDup_cons in Hnd1 as [Hk Hnd1], Hnd2 as [_ Hnd2].
  unfold linked; cbn. split_and!; try easy.
  - intros p' e Hin. apply He. set_solver.
  - rewrite Hd, Hc, (list_to_map_proper _ _ Hnd Hp). cbn.
    apply delete_insert_id. now apply not_elem_of_list_to_map_1.
Qed.

(** Putting a row at the end of the list. *)
Lemma clock_track_new x h l k o h' :
  linked x h l -> cxl_rows h !! k = None -> cxl_rows h' = <[k := o]> (cxl_rows h) -> mover_inv h' ->
  (forall k', cxl_rows h !! k' <> Some o) ->
  exists p x', (init_migration_policy_metadata o;;
              clock_tracker_node ← new_tracker_node k (Some o);
              on_tracker (track clock_tracker_node)) (Pst x h') = Ret tt (Pst x' h') /\
    linked x' h' (l ++ [(p, (k, o))]) /\
    t_cursor (clock_tracker x') = t_cursor (clock_tracker x).
Proof.
  intros Hl Hk Hm' Hi' Hf. apply (linked_chance x h l o 0) in Hl.
  destruct Hl as (Hr & [Hnd Hndo] & He & Hm & _). cbn [clock_tracker row_entity second_chance] in *.
  set (p := fresh (dom (t_nodes (clock_tracker x))) : Z).
  assert (p ∉ dom (t_nodes (clock_tracker x))) as Hp by apply is_fresh.
  assert (p ∉ l.*1) as Hpl.
  { intros Hin. apply Hp, elem_of_dom. destruct Hr as (_ & _ & _ & Hs & _).
    exact (seg_lookup _ _ _ _ _ Hs Hin). }
  set (t1 := set_nodes (insert p (Node None None)) (clock_tracker x)).
  destruct (track_repr t1 l.*1 p (new_node_repr _ _ _ Hr Hpl) Hpl (lookup_insert_eq _ _ _))
    as (t2 & E2 & Hr2 & Hc2 & _).
  exists p, (Clk t2 (<[p := (k, Some o)]> (row_entity x)) (<[o := 0]> (second_chance x))). split.
  { set (x1 := Clk t1 (<[p := (k, Some o)]> (row_entity x)) (<[o := 0]> (second_chance x))).
    exact (clock_on_tracker_eq (track p) x1 h' _ _ E2). }
  split; [|exact Hc2].
  assert (k ∉ l.*2.*1) as Hkl by (apply not_elem_of_list_to_map; now rewrite <- Hm).
  assert (NoDup (l ++ [(p, (k, o))]).*2.*1) as Hnd'.
  { rewrite !fmap_app, NoDup_app. split_and!; [easy| |apply NoDup_singleton].
    intros k' Hk' ->%list_elem_of_singleton. contradiction. }
  assert (NoDup (l ++ [(p, (k, o))]).*2.*2) as Hndo'.
  { rewrite !fmap_app, NoDup_app. split_and!; [easy| |apply NoDup_singleton].
    intros o' Ho' ->%list_elem_of_singleton. apply list_elem_of_fmap in Ho' as ([k' o'] & Eo & Hin).
    cbn in Eo. subst o'. apply (Hf k'). rewrite Hm. now apply elem_of_list_to_map. }
  unfold linked; cbn. split_and!; try easy; [now rewrite fmap_app| |].
  - intros p' e [Hin|[= -> ->]%list_elem_of_singleton]%elem_of_app.
    + rewrite lookup_insert_ne; [now apply He|]. intros ->. apply Hpl.
      now apply (list_elem_of_fmap_2' fst _ (p', e)).
    + cbn. rewrite !lookup_insert_eq. eauto.
  - rewrite Hm', Hm. rewrite (list_to_map_proper _ ((p, (k, o)) :: l).*2 Hnd'); [easy|].
    apply fmap_Permutation. symmetry. apply Permutation_cons_append.
Qed.

Lemma clock_trk_lock_ok s l :
  clock_ok s l ->
  exists x, on_tracker trk_lock s = Ret tt (Pst x (host s)) /\ linked x (host s) l /\
    second_chance x = second_chance (pol s) /\
    t_cursor (clock_tracker x) = t_cursor (clock_tracker (pol s)).
Proof.
  intros (Hl & Hf & _). destruct s as [[t e c] h]; cbn in *. eexists. split.
  { apply clock_on_tracker_eq. unfold trk_lock. mrun. rewrite Hf. reflexivity. }
  split; [|easy]. now apply (clock_linked_flags _ _ _ true (t_cursor t)) in Hl; destruct t.
Qed.

Lemma clock_trk_unlock_ok x h sk rest :
  linked x h (sk ++ rest) -> t_cursor (clock_tracker x) = last sk.*1 ->
  exists s, on_tracker trk_unlock (Pst x h) = Ret tt s /\ clock_ok s (sk ++ rest) /\ host s = h /\
    second_chance (pol s) = second_chance x.
Proof.
  intros Hl Hc. eexists. split; [now apply clock_on_tracker_eq|]. split; [|easy].
  split; [|split; [easy|now exists sk, rest]].
  apply (clock_linked_flags _ _ _ false (t_cursor (clock_tracker x))) in Hl. now destruct x as [[] ? ?].
Qed.

Lemma clock_move_row_in_ok s l k b :
  clock_ok s l ->
  runs (move_row_in k b) s (fun res s' => exists l', clock_ok s' l' /\
    match res with
    | SUCCESS => (k ∉ l.*2.*1) /\ (exists p o, l' = l ++ [(p, (k, o))])
    | _ => l' = l
    end).
Proof.
  intros Hs. destruct (clock_trk_lock_ok s l Hs) as (x & E & Hl & _ & Hc).
  destruct Hs as (_ & _ & sk & rest & -> & Hcur). rewrite Hcur in Hc. unfold move_row_in.
  apply runs_bind. eapply runs_eq; [exact E|]. apply runs_bind.
  pose proof (move_in_promise (host s) k b (proj2 (proj2 (proj2 (proj2 Hl))))) as Hp. unfold runs in Hp.
  destruct (move_from_partition_to_shared_region k b (host s)) as [[r meta] h'| | |] eqn:Em; try easy.
  eapply runs_eq; [apply on_host_eq; exact Em|]. destruct Hp as [Hi' Hp]. cbn [fst snd pol].
  apply runs_bind. destruct r; [destruct meta as [o|]; [|easy]| |].
  2, 3: (eapply runs_eq; [reflexivity|]; apply runs_bind;
    destruct (clock_trk_unlock_ok x h' sk rest) as (s' & E3 & Hs' & _);
      [now apply (clock_linked_host x (host s))|exact Hc|];
    eapply runs_eq; [exact E3|]; now exists (sk ++ rest)).
  destruct Hp as (Hk & Hm' & Hf).
  destruct (clock_track_new x (host s) _ k o h' Hl Hk Hm' Hi' Hf) as (p & x' & Ex & Hx & Hc').
  eapply runs_eq; [exact Ex|]. apply runs_bind. rewrite <- app_assoc in Hx.
  destruct (clock_trk_unlock_ok x' h' _ _ Hx) as (s' & E3 & Hs' & _); [congruence|].
  eapply runs_eq; [exact E3|]. exists ((sk ++ rest) ++ [(p, (k, o))]). rewrite <- app_assoc.
  split; [exact Hs'|]. split; [|now exists p, o; rewrite <- app_assoc].
  destruct Hl as (_ & _ & _ & Hm & _). apply not_elem_of_list_to_map. now rewrite <- Hm.
Qed.

(** ** The loop *)

(** Advancing the cursor past the victim and unlinking it. *)
Lemma clock_drop_victim x h sk p k o rest h' :
  linked x h (sk ++ (p, (k, o)) :: rest) -> t_cursor (clock_tracker x) = Some p ->
  mover_inv h' -> cxl_rows h' = delete k (cxl_rows h) ->
  exists x', (forall B (f : M (pst clock H) B),
      (on_tracker move_forward_and_get_cursor;; on_tracker (untrack p);; f) (Pst x h') =
      f (Pst x' h')) /\ linked x' h' (sk ++ rest) /\
    t_cursor (clock_tracker x') = first_or rest.*1 None.
Proof.
  intros Hl Hcur Hi' Hm. pose proof (proj1 Hl) as Hr. rewrite fmap_app, fmap_cons in Hr.
  pose proof (cursor_next _ _ _ _ Hr Hcur) as E1.
  set (t1 := set_cursor (first_or rest.*1 None) (clock_tracker x)) in *.
  assert (repr t1 (sk.*1 ++ p :: rest.*1)) as Hr1 by (unfold t1; now destruct (clock_tracker x)).
  destruct (untrack_repr _ _ _ _ Hr1) as (t2 & E2 & Hr2 & Hc2 & _).
  exists (Clk t2 (row_entity x) (second_chance x)). split.
  { intros B f. rewrite (bind_Ret _ _ _ _ _ (clock_on_tracker_eq _ x h' _ _ E1)).
    now rewrite (bind_Ret _ _ _ _ _ (clock_on_tracker_eq _ (Clk t1 _ _) h' _ _ E2)). }
  split; [|exact Hc2]. apply (clock_linked_remove x h _ p k o); [exact Hl|now rewrite fmap_app|easy|easy].
Qed.

(** The answer to a victim that has no second chance. *)
Lemma clock_victim_answer x h sk p k o rest :
  linked x h (sk ++ (p, (k, o)) :: rest) ->
  exists h', move_from_shared_region_to_partition k h = Ret (negb (pinned h k)) h' /\ mover_inv h' /\
    cxl_rows h' = (if pinned h k then cxl_rows h else delete k (cxl_rows h)) /\
    (forall e, e ∈ (if pinned h k then sk ++ (p, (k, o)) :: rest else sk ++ rest) ->
      pinned h' e.2.1 = pinned h e.2.1).
Proof.
  intros Hl. destruct (clock_linked_entry x h _ p k o Hl) as (_ & _ & Ek); [set_solver|].
  pose proof (move_out_promise h k (proj2 (proj2 (proj2 (proj2 Hl)))) (ex_intro _ _ Ek)) as Hp.
  unfold runs in Hp. destruct (move_from_shared_region_to_partition k h) as [ok h'| | |]; try easy.
  destruct Hp as (Hi' & -> & Hm & Hpin). exists h'. split; [easy|]. split; [easy|].
  split; [now destruct (pinned h k)|]. intros [p' [k' o']] Hin. cbn. apply Hpin. rewrite Hm.
  destruct (clock_linked_entry x h _ p' k' o' Hl) as (_ & _ & Ek'); [destruct (pinned h k); set_solver|].
  destruct (pinned h k) eqn:Epin; cbn; [eauto|]. rewrite lookup_delete_ne; [eauto|].
  intros <-. destruct Hl as (_ & [Hnd _] & _). rewrite !fmap_app, !fmap_cons in Hnd.
  rewrite NoDup_app, NoDup_cons in Hnd. apply elem_of_app in Hin as [Hin|Hin];
    apply (list_elem_of_fmap_2 snd), (list_elem_of_fmap_2 fst) in Hin; set_solver.
Qed.

(** What [move_row_out] leaves of the list [l]. *)
Definition clock_swept (h : H) (l l' : list entry) : Prop :=
  l' `sublist_of` l /\ (forall e, e ∈ l -> pinned h e.2.1 = true -> e ∈ l').

Lemma clock_swept_ext h h' l l' :
  (forall e, e ∈ l -> pinned h' e.2.1 = pinned h e.2.1) -> clock_swept h' l l' -> clock_swept h l l'.
Proof. intros He [Hs Hp]. split; [easy|]. intros e Hin Hpin. apply Hp; [easy|]. now rewrite He. Qed.

Lemma swept_drop h sk e rest l' :
  pinned h e.2.1 = false -> clock_swept h (sk ++ rest) l' -> clock_swept h (sk ++ e :: rest) l'.
Proof.
  intros Hf [Hs Hp]. split.
  - etrans; [exact Hs|]. apply sublist_app; [easy|]. now apply sublist_cons.
  - intros e' Hin Hpin. apply Hp; [|easy]. apply elem_of_app in Hin as [?|[->|?]%elem_of_cons];
      [set_solver|congruence|set_solver].
Qed.

Definition loop_post (h : H) (l : list entry) (b : bool) (s' : pst clock H) : Prop :=
  exists sk rest, linked (pol s') (host s') (sk ++ rest) /\
    t_cursor (clock_tracker (pol s')) = last sk.*1 /\ clock_swept h l (sk ++ rest) /\
    (b = true -> total_hw_cc_usage (host s') < hw_cc_budget).

Lemma clock_move_out_loop_ok fuel x h sk rest :
  linked x h (sk ++ rest) -> t_cursor (clock_tracker x) = last sk.*1 ->
  (length (sk ++ rest) * length (sk ++ rest) + length rest < fuel)%nat ->
  runs (move_out_loop fuel) (Pst x h) (loop_post h (sk ++ rest)).
Proof.
  revert x h sk rest. induction fuel as [|fuel IH]; intros x h sk rest Hl Hc Hf; [lia|].
  cbn [move_out_loop]. pose proof (proj1 Hl) as Hr. rewrite fmap_app in Hr.
  apply runs_bind. eapply runs_eq; [apply clock_on_tracker_eq; exact (cursor_at _ _ _ Hr Hc)|].
  set (c := first_or rest.*1 None).
  set (x1 := Clk (set_cursor c (clock_tracker x)) (row_entity x) (second_chance x)).
  assert (linked x1 h (sk ++ rest)) as Hl1.
  { apply (clock_linked_flags _ _ _ (t_locked (clock_tracker x)) c) in Hl. now destruct x as [[] ? ?]. }
  destruct rest as [|[p [k o]] rest]; cbn [first_or fmap list_fmap fst] in c.
  { eapply runs_eq; [reflexivity|]. exists [], (sk ++ []). split_and!; [exact Hl1|easy| |easy].
    split; [easy|]. auto. }
  destruct (clock_linked_entry x h _ p k o Hl) as (Ep & [v Ev] & _); [set_solver|].
  apply runs_bind. eapply runs_eq; [unfold deref; cbn; rewrite Ep; reflexivity|]. cbn [fst snd].
  apply runs_bind. eapply runs_eq; [reflexivity|].
  apply runs_bind. eapply runs_eq; [unfold deref; cbn; rewrite Ev; reflexivity|].
  assert (last (sk ++ [(p, (k, o))]).*1 = Some p) as Hlast
    by (rewrite fmap_app; cbn [fmap list_fmap fst]; apply last_snoc).
  assert (sk ++ (p, (k, o)) :: rest = (sk ++ [(p, (k, o))]) ++ rest) as Hsplit
    by now rewrite <- app_assoc.
  destruct (v =? 1).
  { apply runs_bind. eapply runs_eq; [reflexivity|]. rewrite Hsplit in Hl1, Hf |- *.
    apply IH; [now apply (linked_chance x1)|now symmetry|]. rewrite !length_app in *. cbn in *. nia. }
  destruct (clock_victim_answer x1 h sk p k o rest Hl1) as (h' & Em & Hi' & Hm & Hsame).
  apply runs_bind. eapply runs_eq; [apply on_host_eq; exact Em|]. cbn [pol].
  destruct (pinned h k) eqn:Ek; cbn [negb] in *.
  - rewrite Hsplit in Hl1, Hf, Hsame |- *. eapply runs_mono; [apply (IH x1 h')|].
    + apply (clock_linked_host x1 h); [exact Hl1|exact Hi'|exact Hm].
    + now symmetry.
    + rewrite !length_app in *. cbn in *. nia.
    + intros b s' (sk' & rest' & ? & ? & Hsw & ?). exists sk', rest'. split_and!; try easy.
      now apply (clock_swept_ext h h').
  - destruct (clock_drop_victim x1 h sk p k o rest h' Hl1 eq_refl Hi' Hm) as (x3 & E3 & Hl3 & Hc3).
    apply (runs_conv _ _ _ _ _ (E3 _ _)). apply runs_bind. eapply runs_eq; [reflexivity|]. cbn [host].
    assert (exists sk' rest', sk ++ rest = sk' ++ rest' /\ t_cursor (clock_tracker x3) = last sk'.*1)
      as (sk' & rest' & El & Hc').
    { rewrite Hc3. destruct rest as [|[q eq] rest]; [now exists [], (sk ++ [])|].
      exists (sk ++ [(q, eq)]), rest. rewrite <- app_assoc, fmap_app. cbn [fmap list_fmap fst].
      now rewrite last_snoc. }
    rewrite El in *. destruct (total_hw_cc_usage h' <? hw_cc_budget) eqn:Eb.
    + eapply runs_eq; [reflexivity|]. exists sk', rest'. split_and!; try easy.
      * rewrite <- El. apply swept_drop; [exact Ek|]. now split.
      * intros _. now apply Z.ltb_lt.
    + eapply runs_mono; [apply (IH x3 h' sk' rest' Hl3 Hc')|].
      * rewrite <- El. assert (length rest' <= length (sk ++ rest))%nat
          by (rewrite El, length_app; lia). rewrite length_app in *. cbn in *. nia.
      * intros b s' (sk'' & rest'' & ? & ? & Hsw & ?). exists sk'', rest''. split_and!; try easy.
        apply swept_drop; [exact Ek|]. rewrite El. now apply (clock_swept_ext h h').
Qed.

Lemma clock_move_row_out_ok fuel s l :
  clock_ok s l -> (length l * length l + length l < fuel)%nat ->
  runs (move_row_out fuel) s (fun b s' => exists l', clock_ok s' l' /\
    (if total_hw_cc_usage (host s) <? hw_cc_budget
     then b = false /\ l' = l /\ host s' = host s
     else clock_swept (host s) l l' /\ (b = true -> total_hw_cc_usage (host s') < hw_cc_budget))).
Proof.
  intros Hs Hf. destruct (clock_trk_lock_ok s l Hs) as (x & E & Hl & _ & Hc).
  destruct Hs as (_ & _ & sk & rest & -> & Hcur). rewrite Hcur in Hc. unfold move_row_out.
  apply runs_bind. eapply runs_eq; [exact E|]. apply runs_bind. eapply runs_eq; [reflexivity|].
  cbn [host]. destruct (total_hw_cc_usage (host s) <? hw_cc_budget).
  - destruct (clock_trk_unlock_ok x (host s) _ _ Hl Hc) as (s' & E' & Hs' & Hh & _).
    apply runs_bind. eapply runs_eq; [exact E'|]. now exists (sk ++ rest).
  - apply runs_bind. eapply runs_mono; [apply (clock_move_out_loop_ok fuel x (host s) sk rest Hl Hc)|].
    { rewrite !length_app in *. lia. }
    intros b [x' h'] (sk' & rest' & Hl' & Hc' & Hsw & Hb). cbn [pol host] in *.
    destruct (clock_trk_unlock_ok x' h' _ _ Hl' Hc') as (s' & E' & Hs' & Hh & _).
    apply runs_bind. eapply runs_eq; [exact E'|]. exists (sk' ++ rest'). now rewrite Hh.
Qed.

Definition enough_steps (s : pst clock H) : nat :=
  let n := size (t_nodes (clock_tracker (pol s))) in S (n * n + n).

Lemma clock_enough_steps_ok s l : clock_ok s l -> (length l * length l + length l < enough_steps s)%nat.
Proof.
  intros (((Hnd & _ & _ & Hseg & _) & _) & _).
  assert (length l <= size (t_nodes (clock_tracker (pol s))))%nat; [|unfold enough_steps; nia].
  rewrite <- (length_fmap fst l), <- (size_list_to_set (C := gset Z) _ Hnd), <- size_dom.
  apply subseteq_size. intros o Ho%elem_of_list_to_set. apply elem_of_dom.
  exact (seg_lookup _ _ _ _ _ Hseg Ho).
Qed.

Lemma clock_access_row_ok s l k o :
  clock_ok s l -> cxl_rows (host s) !! k = Some o ->
  runs (access_row o) s (fun _ s' => clock_ok s' l /\ second_chance (pol s') !! o = Some 1).
Proof.
  intros (Hl & Hf & Hc) Ek. destruct s as [x h]; cbn in *.
  assert (exists p, (p, (k, o)) ∈ l) as [p Hin].
  { destruct Hl as (_ & [Hnd _] & _ & Hm & _). rewrite Hm in Ek. apply elem_of_list_to_map in Ek; [|easy].
    apply list_elem_of_fmap in Ek as ([p e] & -> & Hin). eauto. }
  destruct (clock_linked_entry x h l p k o Hl Hin) as (_ & [v Ev] & _).
  unfold access_row. apply runs_bind. eapply runs_eq; [unfold deref; cbn; rewrite Ev; reflexivity|].
  eapply runs_eq; [reflexivity|]. split; [|apply lookup_insert_eq].
  split; [now apply linked_chance|easy].
Qed.

(** ** Sequences of operations *)
Inductive cmd :=
| MoveIn (k : rkey) (inc_ref_cnt : bool)
| Access (k : rkey)
| MoveOut.

Definition exec (c : cmd) : M (pst clock H) unit :=
  match c with
  | MoveIn k b => move_row_in k b;; mret tt
  | Access k =>
      meta ← gets (fun s => cxl_rows (host s) !! k);
      match meta with Some o => access_row o | None => mret tt end
  | MoveOut => n ← gets enough_steps; move_row_out n;; mret tt
  end.

Fixpoint exec_all (cs : list cmd) : M (pst clock H) unit :=
  match cs with [] => mret tt | c :: cs => exec c;; exec_all cs end.

Lemma clock_exec_ok c s l : clock_ok s l -> runs (exec c) s (fun _ s' => exists l', clock_ok s' l').
Proof.
  intros Hs. destruct c as [k b|k|]; cbn [exec].
  - apply runs_bind. eapply runs_mono; [exact (clock_move_row_in_ok s l k b Hs)|].
    intros r s' (l' & Hs' & _). now exists l'.
  - apply runs_bind. eapply runs_eq; [reflexivity|].
    destruct (cxl_rows (host s) !! k) as [o|] eqn:Ek; [|now exists l].
    eapply runs_mono; [exact (clock_access_row_ok s l k o Hs Ek)|]. intros ? ? [? _]. eauto.
  - apply runs_bind. eapply runs_eq; [reflexivity|]. apply runs_bind.
    eapply runs_mono; [exact (clock_move_row_out_ok _ s l Hs (clock_enough_steps_ok s l Hs))|].
    intros r s' (l' & Hs' & _). now exists l'.
Qed.

(** C22: the clock lists exactly the rows in CXL memory.  Whatever sequence of
    move-ins, accesses and move-outs runs on a partition with nothing migrated,
    every operation returns (the loop of [move_row_out] ends within the given
    number of steps although the cursor wraps around), the lock is released,
    the cursor is on a node of the list or nowhere, and the entries of the list
    are the migrated rows, each once. *)
Theorem clock_tracks_migrated cs s :
  clock_ok s [] -> runs (exec_all cs) s (fun _ s' => exists l, clock_ok s' l).
Proof using Type.
  enough (forall l, clock_ok s l -> runs (exec_all cs) s (fun _ s' => exists l, clock_ok s' l)) by eauto.
  revert s. induction cs as [|c cs IH]; intros s l Hs; [now exists l|].
  apply runs_bind. eapply runs_mono; [exact (clock_exec_ok c s l Hs)|]. intros _ s' [l' Hs']. eauto.
Qed.

(** C23: [move_row_out] of the clock policy returns; it moves rows out only when
    the budget is used up, never one that is in use, and it answers true only
    once the usage is below the budget. *)
Theorem clock_move_out s l :
  clock_ok s l ->
  runs (move_row_out (enough_steps s)) s (fun b s' => exists l', clock_ok s' l' /\
    if total_hw_cc_usage (host s) <? hw_cc_budget
    then b = false /\ l' = l /\ host s' = host s
    else clock_swept (host s) l l' /\ (b = true -> total_hw_cc_usage (host s') < hw_cc_budget)).
Proof using Type.
  intros Hs. apply clock_move_row_out_ok; [exact Hs|]. now apply clock_enough_steps_ok.
Qed.

(** A row with its second-chance byte set is passed over and the byte cleared. *)
Lemma second_chance_loop fuel x h sk rest :
  linked x h (sk ++ rest) -> t_cursor (clock_tracker x) = last sk.*1 ->
  (forall p k o, (p, (k, o)) ∈ rest -> second_chance x !! o = Some 1) ->
  (length rest < fuel)%nat ->
  runs (move_out_loop fuel) (Pst x h) (fun b s' => b = false /\ host s' = h /\
    linked (pol s') h (sk ++ rest) /\ t_cursor (clock_tracker (pol s')) = None /\
    (forall o, second_chance (pol s') !! o =
      if decide (o ∈ rest.*2.*2) then Some 0 else second_chance x !! o)).
Proof.
  revert fuel x sk. induction rest as [|[p [k o]] rest IH]; intros fuel x sk Hl Hc Hch Hf;
    (destruct fuel as [|fuel]; [cbn in Hf; lia|]); cbn [move_out_loop];
    pose proof (proj1 Hl) as Hr; rewrite fmap_app in Hr; apply runs_bind;
    (eapply runs_eq; [apply clock_on_tracker_eq; exact (cursor_at _ _ _ Hr Hc)|]).
  - eapply runs_eq; [reflexivity|]. cbn.
    apply (clock_linked_flags _ _ _ (t_locked (clock_tracker x)) None) in Hl.
    now split_and!.
  - cbn [first_or fmap list_fmap fst].
    set (x1 := Clk (set_cursor (Some p) (clock_tracker x)) (row_entity x) (<[o := 0]> (second_chance x))).
    assert (linked x1 h ((sk ++ [(p, (k, o))]) ++ rest)) as Hl1.
    { rewrite <- app_assoc. apply (clock_linked_flags _ _ _ (t_locked (clock_tracker x)) (Some p)) in Hl.
      apply (linked_chance _ _ _ o 0) in Hl. now destruct x as [[] ? ?]. }
    destruct (clock_linked_entry x h _ p k o Hl) as (Ep & _); [set_solver|].
    assert (second_chance x !! o = Some 1) as Ev by (apply (Hch p k); now left).
    assert (o ∉ rest.*2.*2) as Hor.
    { destruct Hl as (_ & [_ Hnd] & _). rewrite !fmap_app, !fmap_cons in Hnd.
      rewrite NoDup_app, NoDup_cons in Hnd. tauto. }
    apply runs_bind. eapply runs_eq; [unfold deref; cbn; rewrite Ep; reflexivity|]. cbn [fst snd].
    apply runs_bind. eapply runs_eq; [reflexivity|].
    apply runs_bind. eapply runs_eq; [unfold deref; cbn; rewrite Ev; reflexivity|].
    apply runs_bind. eapply runs_eq; [reflexivity|].
    eapply runs_mono; [apply (IH fuel x1 (sk ++ [(p, (k, o))]) Hl1)|].
    + rewrite fmap_app. cbn [fmap list_fmap fst]. now rewrite last_snoc.
    + intros p' k' o' Hin. cbn. rewrite lookup_insert_ne; [apply (Hch p' k'); now right|].
      intros ->. apply Hor. now apply (list_elem_of_fmap_2 snd), (list_elem_of_fmap_2 snd) in Hin.
    + cbn in Hf. lia.
    + intros b s' (-> & Hh & Hl' & Hc' & Ho). rewrite <- app_assoc in Hl'. split_and!; try easy.
      intros o'. rewrite Ho. cbn [second_chance x1 fmap list_fmap snd].
      destruct (decide (o' = o)) as [->|Hne].
      * destruct (decide (o ∈ rest.*2.*2)); [easy|]. rewrite lookup_insert_eq.
        destruct (decide (o ∈ o :: _)) as [|Hn]; [easy|]. exfalso. apply Hn. now left.
      * rewrite lookup_insert_ne by congruence.
        destruct (decide (o' ∈ rest.*2.*2)) as [Hin|Hin];
          destruct (decide (o' ∈ o :: _)) as [Hin'|Hin']; try easy; exfalso;
          [apply Hin'; now right|apply elem_of_cons in Hin' as [?|?]; easy].
Qed.

(** A second chance.  When every row was accessed since the clock last passed,
    one call of [move_row_out] from the start of the list moves nothing out:
    it takes the second chance of every row back and gives up. *)
Theorem clock_second_chance s l :
  clock_ok s l -> t_cursor (clock_tracker (pol s)) = None ->
  (forall p k o, (p, (k, o)) ∈ l -> second_chance (pol s) !! o = Some 1) ->
  hw_cc_budget <= total_hw_cc_usage (host s) ->
  runs (move_row_out (S (length l))) s (fun b s' => b = false /\ host s' = host s /\ clock_ok s' l /\
    forall p k o, (p, (k, o)) ∈ l -> second_chance (pol s') !! o = Some 0).
Proof using Type.
  intros Hs Hcur Hch Hb. destruct (clock_trk_lock_ok s l Hs) as (x & E & Hl & Ex & Hc). rewrite Hcur in Hc.
  unfold move_row_out. apply runs_bind. eapply runs_eq; [exact E|].
  apply runs_bind. eapply runs_eq; [reflexivity|]. cbn [host].
  destruct (Z.ltb_spec (total_hw_cc_usage (host s)) hw_cc_budget); [lia|].
  apply runs_bind. eapply runs_mono; [apply (second_chance_loop _ x (host s) [] l Hl Hc); [now rewrite Ex|lia]|].
  intros b [x' h'] (-> & Hh & Hl' & Hc' & Ho). cbn [pol host app] in *. subst h'.
  destruct (clock_trk_unlock_ok x' (host s) [] l Hl' Hc') as (s' & E' & Hs' & Hh & Es).
  apply runs_bind. eapply runs_eq; [exact E'|]. split_and!; try easy.
  intros p k o Hin. rewrite Es, Ho, decide_True; [easy|].
  now apply (list_elem_of_fmap_2 snd), (list_elem_of_fmap_2 snd) in Hin.
Qed.

(** Deleting a row that is in CXL memory aborts the clock policy: the
    [CHECK(need_move_out == false)] fails. *)
Theorem clock_delete_aborts `{!Deleter H} s l k b :
  clock_ok s l -> is_Some (cxl_rows (host s) !! k) ->
  delete_specific_row_and_move_out k b s = Abort.
Proof using Type.
  intros Hs Hk. destruct (clock_trk_lock_ok s l Hs) as (x & E & Hl & _).
  unfold delete_specific_row_and_move_out. rewrite (bind_Ret _ _ _ _ _ E).
  pose proof (delete_promise (host s) k b (proj2 (proj2 (proj2 (proj2 Hl))))) as Hp. unfold runs in Hp.
  destruct (delete_and_update_next_key_info k b (host s)) as [[[ret need] meta] h'| | |] eqn:Em; try easy.
  destruct Hp as (_ & -> & -> & _). rewrite (bind_Ret _ _ _ _ _ (on_host_eq _ (Pst x (host s)) _ _ Em)).
  now rewrite bool_decide_true by exact Hk.
Qed.
End clock.
End PolicyClock.
