(* ===== verification/Queue.v ===== *)
(** * The queue policies: [PolicyFIFO], [PolicyEagerly] and [PolicyNoMoveOut]

    [PolicyFIFO] and [PolicyEagerly] (protocol/Pasha/PolicyFIFO.h and
    PolicyEagerly.h) keep the migrated rows in a queue under a mutex.  The two
    classes have the same code, but [PolicyFIFO] moves rows out only while the
    budget is used up; what they share is stated once, with the test that ends
    the walk ([stop]) as a parameter.  [PolicyNoMoveOut] keeps no record. *)

From S2P Require Import Prelude LockWord SharedWord SCC CXLMemory PashaState PashaHelper Policy.

(** A queue of row entities, the entities that the policy metadata of the rows
    refers to ([row_entity_ptr]), and the mutex. *)
Record queue := Queue {
  queue_mutex : bool;
  fifo_queue : list rkey;
  row_entity_ptr : gmap Z rkey
}.

Section operations.
Context {H : Type} `{!MoverOps H}.

Definition q_lock : M (pst queue H) unit :=
  on_pol (mutex_lock queue_mutex (fun b q => Queue b (fifo_queue q) (row_entity_ptr q))).
Definition q_unlock : M (pst queue H) unit :=
  on_pol (modify (fun q => Queue false (fifo_queue q) (row_entity_ptr q))).
Definition set_queue (l : list rkey) : M (pst queue H) unit :=
  on_pol (modify (fun q => Queue (queue_mutex q) l (row_entity_ptr q))).

Definition init_migration_policy_metadata (fifo_meta : Z) (k : rkey) : M (pst queue H) unit :=
  on_pol (modify (fun q => Queue (queue_mutex q) (fifo_queue q)
                                 (<[fifo_meta := k]> (row_entity_ptr q)))).

Definition move_row_in (k : rkey) (inc_ref_cnt : bool) : M (pst queue H) migration_result :=
  q_lock;;
  ret ← on_host (move_from_partition_to_shared_region k inc_ref_cnt);
  (match ret.1 with
   | SUCCESS =>
       match ret.2 with
       | None => abort
       | Some fifo_meta =>
           init_migration_policy_metadata fifo_meta k;;
           e ← deref (fun s => row_entity_ptr (pol s) !! fifo_meta);
           l ← gets (fun s => fifo_queue (pol s));
           set_queue (l ++ [e])
       end
   | _ => mret tt
   end);;
  q_unlock;;
  mret ret.1.

(** The [while] loop of [move_row_out], with the iterator between [before] and
    [after]. *)
Fixpoint move_out_loop (stop : H -> bool) (ret : bool) (before after : list rkey) :
    M (pst queue H) bool :=
  match after with
  | [] => mret ret
  | e :: after =>
      ret ← on_host (move_from_shared_region_to_partition e);
      if ret : bool then
        set_queue (before ++ after);;
        enough ← gets (fun s => stop (host s));
        if enough : bool then mret true else move_out_loop stop true before after
      else move_out_loop stop false (before ++ [e]) after
  end.

(** The test of the search loop of a delete, on the table and the bytes of the key:
    the partition is not compared. *)
Definition same_row (e k : rkey) : bool := bool_decide (e.1.1 = k.1.1) && bool_decide (e.2 = k.2).

(** The search loop: the queue without the first entity that passes the test. *)
Fixpoint erase_row (k : rkey) (l : list rkey) : option (list rkey) :=
  match l with
  | [] => None
  | e :: l => if same_row e k then Some l else (cons e) <$> erase_row k l
  end.

Definition delete_specific_row_and_move_out (k : rkey) (is_delete_local : bool) :
    M (pst queue H) bool :=
  q_lock;;
  res ← on_host (delete_and_update_next_key_info k is_delete_local);
  let '(ret, need_move_out, migration_policy_meta) := res in
  CHECK ret;;
  (if need_move_out : bool then
     l ← gets (fun s => fifo_queue (pol s));
     match erase_row k l with
     | Some l' => set_queue l'
     | None => abort
     end
   else mret tt);;
  q_unlock;;
  mret ret.
End operations.

Module PolicyFIFO.
Definition move_row_out {H} `{!MoverOps H} (hw_cc_budget : Z) : M (pst queue H) bool :=
  q_lock;;
  enough ← gets (fun s => total_hw_cc_usage (host s) <? hw_cc_budget);
  if enough : bool then q_unlock;; mret false
  else
    l ← gets (fun s => fifo_queue (pol s));
    ret ← move_out_loop (fun h => total_hw_cc_usage h <? hw_cc_budget) false [] l;
    q_unlock;;
    mret ret.
End PolicyFIFO.

Module PolicyEagerly.
Definition move_row_out {H} `{!MoverOps H} : M (pst queue H) bool :=
  q_lock;;
  l ← gets (fun s => fifo_queue (pol s));
  ret ← move_out_loop (fun _ => false) false [] l;
  q_unlock;;
  mret true.
End PolicyEagerly.

Module PolicyNoMoveOut.
Section no_move_out.
Context {H : Type} `{!MoverOps H}.

Definition move_row_in (k : rkey) (inc_ref_cnt : bool) : M H migration_result :=
  ret ← move_from_partition_to_shared_region k inc_ref_cnt;
  mret ret.1.

Definition move_row_out : M H bool := mret true.

Definition delete_specific_row_and_move_out (k : rkey) (is_delete_local : bool) : M H bool :=
  res ← delete_and_update_next_key_info k is_delete_local;
  CHECK res.1.1;;
  mret res.1.1.
End no_move_out.
End PolicyNoMoveOut.

(** ** The queue and the rows in CXL memory *)
Section proofs.
Context {H : Type} `{!MoverOps H, !Mover H}.

(** The queue holds the migrated rows, each once. *)
Definition queued (l : list rkey) (h : H) : Prop :=
  NoDup l /\ dom (cxl_rows h) = list_to_set l /\ mover_inv h.

Definition queue_ok (s : pst queue H) (l : list rkey) : Prop :=
  queue_mutex (pol s) = false /\ fifo_queue (pol s) = l /\ queued l (host s).

Lemma queued_row l h k : queued l h -> is_Some (cxl_rows h !! k) <-> k ∈ l.
Proof. intros (_ & Hd & _). rewrite <- elem_of_dom, Hd. apply elem_of_list_to_set. Qed.

Lemma queued_move_in l h k o h' :
  queued l h -> cxl_rows h !! k = None -> cxl_rows h' = <[k := o]> (cxl_rows h) -> mover_inv h' ->
  queued (l ++ [k]) h'.
Proof.
  intros Hq Hk Hm Hi. assert (k ∉ l) as Hkl.
  { intros [o' Eo]%(queued_row l h k Hq). congruence. }
  destruct Hq as (Hnd & Hd & _). split_and!; [| |exact Hi].
  - apply NoDup_app. split_and!; [easy|set_solver|apply NoDup_singleton].
  - rewrite Hm, dom_insert_L, Hd. set_solver.
Qed.

Lemma queued_remove l1 k l2 h h' :
  queued (l1 ++ k :: l2) h -> cxl_rows h' = delete k (cxl_rows h) -> mover_inv h' ->
  queued (l1 ++ l2) h'.
Proof.
  intros (Hnd & Hd & _) Hm Hi. rewrite NoDup_app, NoDup_cons in Hnd. split_and!; [| |exact Hi].
  - apply NoDup_app. set_solver.
  - rewrite Hm, dom_delete_L, Hd. set_solver.
Qed.

Lemma queued_same l h h' : queued l h -> cxl_rows h' = cxl_rows h -> mover_inv h' -> queued l h'.
Proof. unfold queued. intros (? & ? & _) -> ?. auto. Qed.

Lemma q_lock_ok s l :
  queue_ok s l ->
  exists x, q_lock s = Ret tt (Pst x (host s)) /\ fifo_queue x = l /\ queued l (host s).
Proof.
  intros (Hm & Hl & Hq). destruct s as [x h]; cbn in *. eexists. split.
  - apply on_pol_eq. unfold mutex_lock. mrun. rewrite Hm. reflexivity.
  - easy.
Qed.

Lemma q_unlock_ok x h : queued (fifo_queue x) h ->
  runs q_unlock (Pst x h) (fun _ s => queue_ok s (fifo_queue x) /\ host s = h).
Proof. intros Hq. eapply runs_eq; [reflexivity|]. unfold queue_ok. now split_and!. Qed.

Lemma queue_move_row_in_ok s l k b :
  queue_ok s l ->
  runs (move_row_in k b) s (fun res s' => exists l', queue_ok s' l' /\
    match res with SUCCESS => (k ∉ l) /\ l' = l ++ [k] | _ => l' = l end).
Proof.
  intros (x & E & <- & Hq)%q_lock_ok. unfold move_row_in.
  apply runs_bind. eapply runs_eq; [exact E|]. apply runs_bind.
  pose proof (move_in_promise (host s) k b (proj2 (proj2 Hq))) as Hp. unfold runs in Hp.
  destruct (move_from_partition_to_shared_region k b (host s)) as [[r meta] h'| | |] eqn:Em; try easy.
  eapply runs_eq; [apply on_host_eq; exact Em|]. destruct Hp as [Hi' Hp]. cbn [fst snd pol].
  apply runs_bind. destruct r; [destruct meta as [o|]; [|easy]| |].
  2, 3: (eapply runs_eq; [reflexivity|]; apply runs_bind;
    eapply runs_mono; [apply q_unlock_ok; exact (queued_same _ _ _ Hq Hp Hi')|];
    intros _ s' [Hs' _]; now exists (fifo_queue x)).
  destruct Hp as (Hk & Hm & _).
  eapply runs_eq; [mrun; rewrite lookup_insert_eq; reflexivity|]. apply runs_bind.
  eapply runs_mono; [apply q_unlock_ok; exact (queued_move_in _ _ _ _ _ Hq Hk Hm Hi')|].
  intros _ s' [Hs' _]. exists (fifo_queue x ++ [k]). split; [exact Hs'|]. split; [|easy].
  intros [o' Eo]%(queued_row _ _ k Hq). congruence.
Qed.

(** The rows of [l] that cannot leave, in order. *)
Definition refused (h : H) (l : list rkey) : list rkey := filter (fun k => pinned h k = true) l.

Lemma queue_refused_ext h h' l :
  (forall k, k ∈ l -> pinned h k = pinned h' k) -> refused h l = refused h' l.
Proof.
  intros He. unfold refused. induction l as [|e l IH]; [easy|]. rewrite !filter_cons.
  rewrite (He e) by now left. rewrite IH; [easy|]. intros e' ?. apply He. now right.
Qed.

(** What [move_row_out] leaves of the queue [l]: the walk stops at some point,
    before which only the rows in use stay. *)
Definition swept (stop : H -> bool) (h h' : H) (l l' : list rkey) : Prop :=
  exists l1 l2, l = l1 ++ l2 /\ l' = refused h l1 ++ l2 /\ (l2 = [] \/ stop h' = true).

Lemma queue_move_out_loop_ok stop ret before after x h :
  fifo_queue x = before ++ after -> queued (before ++ after) h ->
  (forall k, k ∈ before -> pinned h k = true) ->
  runs (move_out_loop stop ret before after) (Pst x h) (fun _ s' =>
    exists l', fifo_queue (pol s') = before ++ l' /\ queued (before ++ l') (host s') /\
      swept stop h (host s') after l').
Proof.
  revert ret before x h. induction after as [|k after IH]; intros ret before x h Hx Hq Hb; cbn [move_out_loop].
  { eapply runs_eq; [reflexivity|]. exists []. split_and!; try easy. exists [], []. auto. }
  assert (is_Some (cxl_rows h !! k)) as Hk by (apply (queued_row _ _ k Hq); set_solver).
  pose proof (move_out_promise h k (proj2 (proj2 Hq)) Hk) as Hp. unfold runs in Hp.
  destruct (move_from_shared_region_to_partition k h) as [ok h'| | |] eqn:Em; try easy.
  destruct Hp as (Hi' & Hok & Hm & Hpin). apply runs_bind.
  eapply runs_eq; [apply on_host_eq; exact Em|]. cbn [pol].
  destruct ok; [symmetry in Hok; apply negb_true_iff in Hok|symmetry in Hok; apply negb_false_iff in Hok].
  - assert (queued (before ++ after) h') as Hq' by now apply (queued_remove _ k _ h).
    assert (forall k', k' ∈ before ++ after -> pinned h' k' = pinned h k') as Hsame.
    { intros k' Hk'. now apply Hpin, (queued_row _ _ _ Hq'). }
    assert (forall l1, refused h (k :: l1) = refused h l1) as Hdrop
      by (intros; unfold refused; apply filter_cons_False; congruence).
    apply runs_bind. eapply runs_eq; [reflexivity|]. apply runs_bind. eapply runs_eq; [reflexivity|].
    cbn [host pol]. destruct (stop h') eqn:Es.
    + eapply runs_eq; [reflexivity|]. exists after. split_and!; try easy.
      exists [k], after. rewrite Hdrop. auto.
    + eapply runs_mono; [apply (IH true before (Queue (queue_mutex x) (before ++ after) (row_entity_ptr x)) h' eq_refl Hq')|].
      * intros k' Hk'. rewrite Hsame by set_solver. auto.
      * intros _ s' (l' & ? & ? & l1 & l2 & -> & -> & ?). eexists. split_and!; try eassumption.
        exists (k :: l1), l2. rewrite Hdrop. split_and!; try easy. f_equal. apply queue_refused_ext. set_solver.
  - assert (queued ((before ++ [k]) ++ after) h') as Hq'.
    { rewrite <- app_assoc. now apply (queued_same _ h). }
    assert (forall k', k' ∈ (before ++ [k]) ++ after -> pinned h' k' = pinned h k') as Hsame.
    { intros k' Hk'. now apply Hpin, (queued_row _ _ _ Hq'). }
    eapply runs_mono; [apply (IH false (before ++ [k]) x h')|].
    + now rewrite <- app_assoc.
    + exact Hq'.
    + intros k' Hk'. rewrite Hsame by set_solver. apply elem_of_app in Hk' as [?| ->%list_elem_of_singleton]; auto.
    + intros _ s' (l' & Hf & Hq3 & l1 & l2 & -> & -> & Hst). rewrite <- app_assoc in Hf, Hq3.
      eexists. split_and!; try eassumption. exists (k :: l1), l2. split_and!; try easy.
      unfold refused. rewrite filter_cons_True by exact Hok. cbn. do 2 f_equal. apply queue_refused_ext. set_solver.
Qed.

(** Rows that are told apart by their table and their key. *)
Definition keys_apart (l : list rkey) : Prop := forall k k', k ∈ l -> k' ∈ l -> same_row k k' = true -> k = k'.

Lemma keys_apart_sub l l' : l' ⊆ l -> keys_apart l -> keys_apart l'.
Proof. intros Hs Ha k k' Hk Hk'. apply Ha; auto. Qed.

Lemma same_row_refl k : same_row k k = true.
Proof. unfold same_row. now rewrite !bool_decide_true. Qed.

Lemma erase_row_ok l1 k l2 : keys_apart (l1 ++ k :: l2) -> k ∉ l1 -> erase_row k (l1 ++ k :: l2) = Some (l1 ++ l2).
Proof.
  induction l1 as [|e l1 IH]; cbn; intros Ha Hk.
  - now rewrite same_row_refl.
  - apply not_elem_of_cons in Hk as [Hne Hk]. destruct (same_row e k) eqn:E.
    { destruct Hne. symmetry. apply (Ha e k); [now left| |exact E]. right. apply elem_of_app. right. now left. }
    rewrite IH; [easy| |exact Hk]. apply (keys_apart_sub (e :: l1 ++ k :: l2)); [|exact Ha]. intros k' ?. now right.
Qed.

Lemma queue_delete_ok `{!Deleter H} s l k b :
  queue_ok s l -> keys_apart l ->
  runs (delete_specific_row_and_move_out k b) s (fun ret s' => ret = true /\
    exists l', queue_ok s' l' /\ (k ∉ l') /\ l' ⊆ l).
Proof.
  intros (x & E & Hx & Hq)%q_lock_ok Hap. unfold delete_specific_row_and_move_out.
  apply runs_bind. eapply runs_eq; [exact E|]. apply runs_bind.
  pose proof (delete_promise (host s) k b (proj2 (proj2 Hq))) as Hp. unfold runs in Hp.
  destruct (delete_and_update_next_key_info k b (host s)) as [[[ret need] meta] h'| | |] eqn:Em; try easy.
  destruct Hp as (Hi' & -> & -> & _ & Hm). eapply runs_eq; [apply on_host_eq; exact Em|]. cbn [pol].
  apply runs_bind. eapply runs_eq; [reflexivity|]. apply runs_bind.
  destruct (decide (is_Some (cxl_rows (host s) !! k))) as [Hk|Hk].
  - rewrite bool_decide_true by exact Hk. apply runs_bind. eapply runs_eq; [reflexivity|]. cbn [pol].
    apply (queued_row _ _ _ Hq) in Hk. apply list_elem_of_split in Hk as (l1 & l2 & ->).
    assert (NoDup (l1 ++ k :: l2)) as Hnd by apply Hq. rewrite NoDup_app, NoDup_cons in Hnd.
    rewrite Hx, erase_row_ok by (exact Hap || set_solver). eapply runs_eq; [reflexivity|]. apply runs_bind.
    eapply runs_mono; [apply q_unlock_ok; cbn; exact (queued_remove _ _ _ _ _ Hq Hm Hi')|].
    intros _ s' [Hs' _]. split; [easy|]. exists (l1 ++ l2). split; [exact Hs'|]. split; set_solver.
  - rewrite bool_decide_false by exact Hk. eapply runs_eq; [reflexivity|]. apply runs_bind. subst l.
    eapply runs_mono; [apply q_unlock_ok; apply (queued_same _ (host s)); [exact Hq| |exact Hi']|].
    { rewrite Hm. apply delete_id. now apply eq_None_not_Some. }
    intros _ s' [Hs' _]. split; [easy|]. exists (fifo_queue x). split; [exact Hs'|].
    split; [now rewrite <- (queued_row _ _ k Hq)|easy].
Qed.

Lemma fifo_move_out_ok hw_cc_budget s l :
  queue_ok s l ->
  runs (PolicyFIFO.move_row_out hw_cc_budget) s (fun _ s' => exists l', queue_ok s' l' /\
    if total_hw_cc_usage (host s) <? hw_cc_budget then l' = l /\ host s' = host s
    else swept (fun h => total_hw_cc_usage h <? hw_cc_budget) (host s) (host s') l l').
Proof.
  intros (x & E & Hx & Hq)%q_lock_ok. unfold PolicyFIFO.move_row_out.
  apply runs_bind. eapply runs_eq; [exact E|]. apply runs_bind. eapply runs_eq; [reflexivity|].
  cbn [host]. destruct (total_hw_cc_usage (host s) <? hw_cc_budget).
  - apply runs_bind. subst l. eapply runs_mono; [now apply q_unlock_ok|].
    intros _ s' [Hs' Hh]. now exists (fifo_queue x).
  - apply runs_bind. eapply runs_eq; [reflexivity|]. cbn [pol]. rewrite Hx. apply runs_bind.
    eapply runs_mono; [apply (queue_move_out_loop_ok _ false [] l x (host s) Hx Hq); set_solver|].
    intros ret [x' h'] (l' & Hl' & Hq' & Hsw). cbn in *. subst l'. apply runs_bind.
    eapply runs_mono; [now apply q_unlock_ok|]. intros _ s' [Hs' Hh]. eexists. split; [exact Hs'|].
    now rewrite Hh.
Qed.

Lemma eagerly_move_out_ok s l :
  queue_ok s l ->
  runs PolicyEagerly.move_row_out s (fun b s' => b = true /\ queue_ok s' (refused (host s) l)).
Proof.
  intros (x & E & Hx & Hq)%q_lock_ok. unfold PolicyEagerly.move_row_out.
  apply runs_bind. eapply runs_eq; [exact E|]. apply runs_bind. eapply runs_eq; [reflexivity|].
  cbn [pol]. rewrite Hx. apply runs_bind.
  eapply runs_mono; [apply (queue_move_out_loop_ok _ false [] l x (host s) Hx Hq); set_solver|].
  intros ret [x' h'] (l' & Hl' & Hq' & l1 & l2 & -> & -> & [->|?]); [|easy].
  rewrite app_nil_r in *. cbn in *. apply runs_bind. eapply runs_mono; [apply q_unlock_ok; now rewrite Hl'|].
  intros _ s' [Hs' Hh]. split; [easy|]. now rewrite <- Hl'.
Qed.

(** ** Sequences of operations *)
Inductive cmd :=
| MoveIn (k : rkey) (inc_ref_cnt : bool)
| MoveOutFIFO (hw_cc_budget : Z)
| MoveOutEagerly
| Delete (k : rkey) (is_delete_local : bool).

Definition exec (c : cmd) : M (pst queue H) unit :=
  match c with
  | MoveIn k b => move_row_in k b;; mret tt
  | MoveOutFIFO hw_cc_budget => PolicyFIFO.move_row_out hw_cc_budget;; mret tt
  | MoveOutEagerly => PolicyEagerly.move_row_out;; mret tt
  | Delete k b => delete_specific_row_and_move_out k b;; mret tt
  end.

Fixpoint exec_all (cs : list cmd) : M (pst queue H) unit :=
  match cs with [] => mret tt | c :: cs => exec c;; exec_all cs end.

(** The rows that a command moves in. *)
Definition rows_in (c : cmd) : list rkey := match c with MoveIn k _ => [k] | _ => [] end.

Lemma refused_sub h l : refused h l ⊆ l.
Proof. intros k Hk. now apply list_elem_of_filter in Hk. Qed.

Lemma swept_sub stop h h' l l' : swept stop h h' l l' -> l' ⊆ l.
Proof. intros (l1 & l2 & -> & -> & _) k [Hk%refused_sub|Hk]%elem_of_app; apply elem_of_app; auto. Qed.

Lemma queue_exec_ok `{!Deleter H} c s l : queue_ok s l -> keys_apart l -> runs (exec c) s (fun _ s' => exists l', queue_ok s' l' /\ l' ⊆ l ++ rows_in c).
Proof.
  intros Hs Ha. destruct c as [k b|n| |k b]; cbn [exec]; apply runs_bind.
  - eapply runs_mono; [exact (queue_move_row_in_ok s l k b Hs)|]. intros r s' (l' & Hs' & Hl). exists l'. split; [exact Hs'|].
    destruct r; [destruct Hl as [_ ->]; easy|subst; set_solver..].
  - rewrite app_nil_r. eapply runs_mono; [exact (fifo_move_out_ok n s l Hs)|]. intros r s' (l' & Hs' & Hl). exists l'. split; [exact Hs'|].
    destruct (_ <? _); [now destruct Hl as [-> _]|now apply swept_sub in Hl].
  - rewrite app_nil_r. eapply runs_mono; [exact (eagerly_move_out_ok s l Hs)|]. intros r s' (_ & Hs'). eexists. split; [exact Hs'|apply refused_sub].
  - rewrite app_nil_r. eapply runs_mono; [exact (queue_delete_ok s l k b Hs Ha)|]. intros r s' (_ & l' & Hs' & _ & Hl). now exists l'.
Qed.

(** ** Theorems *)

(** C24: the queue holds exactly the rows in CXL memory, provided that no two of
    the rows that are moved in have the same table and the same key in different
    partitions, which the search of a delete does not tell apart.  Whatever sequence
    of move-ins, move-outs and deletes runs on a host with nothing migrated,
    every operation returns (the row to delete is always found in the queue,
    the mutex is released) and the queue holds the migrated rows, each once. *)
Theorem queue_tracks_migrated `{!Deleter H} cs s :
  queue_ok s [] -> keys_apart (cs ≫= rows_in) -> runs (exec_all cs) s (fun _ s' => exists l, queue_ok s' l).
Proof using Type.
  enough (forall l, queue_ok s l -> keys_apart (l ++ (cs ≫= rows_in)) -> runs (exec_all cs) s (fun _ s' => exists l, queue_ok s' l)) as Hall by (intros H1 H2; now apply (Hall [])).
  revert s. induction cs as [|c cs IH]; intros s l Hs Ha; [now exists l|]. cbn [mbind list_bind] in Ha.
  apply runs_bind. eapply runs_mono; [apply (queue_exec_ok c s l Hs)|].
  - apply (keys_apart_sub _ _ (fun k Hk => proj2 (elem_of_app _ _ _) (or_introl Hk)) Ha).
  - intros _ s' (l' & Hs' & Hl). apply (IH s' l' Hs'). refine (keys_apart_sub _ _ _ Ha). unfold mbind in *. set_solver.
Qed.

(** The FIFO policy moves rows out in the order they came in.  Below the
    budget nothing happens.  Otherwise the walk returns after a prefix of the
    queue: of the rows before that point only those in use stay, the rest of
    the queue is untouched, and unless the queue is exhausted the usage is
    below the budget.  The queue again holds exactly the migrated rows. *)
Theorem fifo_evicts_oldest hw_cc_budget s l :
  queue_ok s l ->
  runs (PolicyFIFO.move_row_out hw_cc_budget) s (fun _ s' => exists l', queue_ok s' l' /\
    if total_hw_cc_usage (host s) <? hw_cc_budget then l' = l /\ host s' = host s
    else swept (fun h => total_hw_cc_usage h <? hw_cc_budget) (host s) (host s') l l').
Proof using Type. exact (fifo_move_out_ok hw_cc_budget s l). Qed.

(** The eager policy moves out every row that is not in use, and keeps the
    others in their order. *)
Theorem eagerly_moves_out_all s l :
  queue_ok s l ->
  runs PolicyEagerly.move_row_out s (fun b s' => b = true /\ queue_ok s' (refused (host s) l)).
Proof using Type. exact (eagerly_move_out_ok s l). Qed.

End proofs.
