(* ===== verification/RingBuffer.v ===== *)
(** * [MPSCRingBuffer]: the message queues in CXL memory

    The class of common/MPSCRingBuffer.h, the receive queue of a host in shared
    CXL memory: any number of producers, on all hosts, and one consumer.  A
    producer reserves room by incrementing [count], claims a slot by
    incrementing [tail], fills the slot and marks it ready; the consumer waits
    for the slot at [head] to be ready, copies it out, and gives it back.

    The atomic accesses are the definitions of the first section.  [enqueue],
    [dequeue], [send] and [recv] are the methods, run by one thread alone; the
    step relation interleaves the same accesses of many threads.  The cache
    flushes around the copies are those of [SCC] and are left out here. *)

From S2P Require Import Prelude.

Module MPSCRingBuffer.

Record entry := Entry {
  remaining_size : Z;
  dequeue_offset : Z;
  is_ready : Z;
  e_data : bytes
}.

Record ring := Ring { head : Z; tail : Z; count : Z; entries : gmap Z entry }.

Definition set_head (h : Z) (r : ring) : ring := Ring h (tail r) (count r) (entries r).
Definition set_tail (t : Z) (r : ring) : ring := Ring (head r) t (count r) (entries r).
Definition set_count (c : Z) (r : ring) : ring := Ring (head r) (tail r) c (entries r).
Definition set_entries (f : gmap Z entry -> gmap Z entry) (r : ring) : ring :=
  Ring (head r) (tail r) (count r) (f (entries r)).

Section ring_buffer.
Context (entry_struct_size entry_num : Z).

Definition entry_data_size : Z := wrap 64 (entry_struct_size - 9).

(** The constructor: every entry is empty and zeroed. *)
Definition new_entry : entry := Entry 0 0 0 (replicate (Z.to_nat entry_data_size) Byte.x00).
Definition new_ring : ring :=
  Ring 0 0 0 (list_to_map ((fun i => (i, new_entry)) <$> seqZ 0 entry_num)).

Definition size (r : ring) : Z := wrap 64 (tail r - head r).

(** ** The accesses to shared memory *)

Definition fetch_add_count : M ring Z :=
  c ← gets count; modify (set_count (wrap 64 (c + 1)));; mret c.
Definition fetch_sub_count : M ring Z :=
  c ← gets count; modify (set_count (wrap 64 (c - 1)));; mret c.
Definition fetch_add_tail : M ring Z :=
  t ← gets tail; modify (set_tail (wrap 64 (t + 1)));; mret t.

(** The entry at a slot; [slot_of] is the index modulo the number of entries. *)
Definition slot_of (i : Z) : Z := i mod entry_num.
Definition get_entry (slot : Z) : M ring entry := deref (fun r => entries r !! slot).
Definition mod_entry (slot : Z) (f : entry -> entry) : M ring unit :=
  e ← get_entry slot; modify (set_entries (insert slot (f e))).

Definition copy_in (slot : Z) (data : bytes) : M ring unit :=
  mod_entry slot (fun e => Entry (remaining_size e) (dequeue_offset e) (is_ready e)
                                 (memcpy (e_data e) data (length data))).
Definition set_sizes (slot : Z) (data : bytes) : M ring unit :=
  mod_entry slot (fun e => Entry (wrap 32 (Z.of_nat (length data))) 0 (is_ready e) (e_data e)).
Definition mark_ready (slot : Z) : M ring unit :=
  mod_entry slot (fun e => Entry (remaining_size e) (dequeue_offset e) 1 (e_data e)).

(** What the consumer does to a ready entry: the copy to its buffer, with the
    [CHECK] that the buffer holds all of it; and the reset of the entry. *)
Definition copy_out (slot : Z) (buffer : bytes) (buffer_size : Z) : M ring (Z * bytes) :=
  e ← get_entry slot;
  let dequeue_size := if buffer_size <? remaining_size e then buffer_size else remaining_size e in
  CHECK (dequeue_size =? remaining_size e);;
  mod_entry slot (fun e =>
    Entry (wrap 32 (remaining_size e - dequeue_size)) (wrap 32 (dequeue_offset e + dequeue_size))
          (is_ready e) (e_data e));;
  mret (dequeue_size, memcpy buffer (e_data e) (Z.to_nat dequeue_size)).
Definition mark_empty (slot : Z) : M ring unit :=
  mod_entry slot (fun e => Entry (remaining_size e) 0 0 (e_data e)).

(** ** The methods *)

Definition enqueue (data : bytes) : M ring bool :=
  CHECK (Z.of_nat (length data) <=? entry_data_size);;
  cur_count ← fetch_add_count;
  if entry_num <=? cur_count then fetch_sub_count;; mret false
  else
    cur_tail ← fetch_add_tail;
    let slot := slot_of cur_tail in
    copy_in slot data;;
    set_sizes slot data;;
    mark_ready slot;;
    mret true.

Definition dequeue (buffer : bytes) (buffer_size : Z) : M ring (Z * bytes) :=
  if buffer_size =? 0 then mret (0, buffer)
  else
    n ← gets size;
    if n =? 0 then mret (0, buffer)
    else
      cur_head ← gets head;
      let slot := slot_of cur_head in
      e ← get_entry slot;
      if negb (is_ready e =? 1) then spin
      else
        res ← copy_out slot buffer buffer_size;
        e ← get_entry slot;
        when_ (remaining_size e =? 0) (
          mark_empty slot;;
          modify (set_head (wrap 64 (cur_head + 1)));;
          fetch_sub_count;;
          mret tt);;
        mret res.

(** [send] retries until there is room. *)
Fixpoint send (fuel : nat) (data : bytes) : M ring Z :=
  match fuel with
  | O => spin
  | S fuel => ok ← enqueue data; if ok : bool then mret (Z.of_nat (length data)) else send fuel data
  end.

Definition recv (buffer : bytes) (buffer_size : Z) : M ring (Z * bytes) :=
  n ← gets size;
  if n =? 0 then mret (0, buffer) else dequeue buffer buffer_size.

(** ** Producers and the consumer, interleaved

    A producer between two accesses: what it does next, with its message and
    the value of [tail] it was given. *)
Inductive ppc :=
| PIdle
| PCount (d : bytes)
| PBackoff
| PTail (d : bytes)
| PCopy (i : Z) (d : bytes)
| PSizes (i : Z) (d : bytes)
| PReady (i : Z) (d : bytes).

(** The consumer, with the values it has loaded. *)
Inductive cpc :=
| CIdle
| CTail (cur_head : Z)
| CWait (cur_head : Z)
| CEmpty (cur_head : Z) (d : bytes)
| CHead (cur_head : Z) (d : bytes)
| CCount.

(** The state of the system; [sent] has the messages in the order their slots
    were claimed, [delivered] those handed to the consumer. *)
Record sys := Sys {
  rb : ring;
  prods : list ppc;
  cons : cpc;
  sent : list bytes;
  delivered : list bytes
}.

Inductive pstep : ppc -> ring -> ppc -> ring -> list bytes -> Prop :=
| p_start r d : Z.of_nat (length d) <= entry_data_size -> pstep PIdle r (PCount d) r []
| p_count r d c r' : fetch_add_count r = Ret c r' ->
    pstep (PCount d) r (if entry_num <=? c then PBackoff else PTail d) r' []
| p_backoff r c r' : fetch_sub_count r = Ret c r' -> pstep PBackoff r PIdle r' []
| p_tail r d t r' : fetch_add_tail r = Ret t r' -> pstep (PTail d) r (PCopy t d) r' [d]
| p_copy r i d r' : copy_in (slot_of i) d r = Ret tt r' -> pstep (PCopy i d) r (PSizes i d) r' []
| p_sizes r i d r' : set_sizes (slot_of i) d r = Ret tt r' -> pstep (PSizes i d) r (PReady i d) r' []
| p_ready r i d r' : mark_ready (slot_of i) r = Ret tt r' -> pstep (PReady i d) r PIdle r' [].

(** The buffer of the consumer has [buffer_size] bytes; the second list is what
    the step delivers. *)
Inductive cstep (buffer_size : Z) : cpc -> ring -> cpc -> ring -> list bytes -> Prop :=
| c_head r : cstep buffer_size CIdle r (CTail (head r)) r []
| c_tail r h : (wrap 64 (tail r - h) =? 0) = false -> cstep buffer_size (CTail h) r (CWait (head r)) r []
| c_none r h : (wrap 64 (tail r - h) =? 0) = true -> cstep buffer_size (CTail h) r CIdle r []
| c_read r h e buffer n d r' :
    entries r !! slot_of h = Some e -> is_ready e = 1 -> Z.of_nat (length buffer) = buffer_size ->
    copy_out (slot_of h) buffer buffer_size r = Ret (n, d) r' ->
    cstep buffer_size (CWait h) r (CEmpty h (take (Z.to_nat n) d)) r' []
| c_empty r h d r' : mark_empty (slot_of h) r = Ret tt r' ->
    cstep buffer_size (CEmpty h d) r (CHead h d) r' []
| c_next r h d : cstep buffer_size (CHead h d) r CCount (set_head (wrap 64 (h + 1)) r) [d]
| c_count r c r' : fetch_sub_count r = Ret c r' -> cstep buffer_size CCount r CIdle r' [].

Inductive step (buffer_size : Z) : sys -> sys -> Prop :=
| step_producer r r' l1 x x' l2 k s ds m :
    pstep x r x' r' m ->
    step buffer_size (Sys r (l1 ++ x :: l2) k s ds) (Sys r' (l1 ++ x' :: l2) k (s ++ m) ds)
| step_consumer r r' l k k' s ds m :
    cstep buffer_size k r k' r' m -> step buffer_size (Sys r l k s ds) (Sys r' l k' s (ds ++ m)).

(** [np] producers and a consumer, all idle, on a new ring buffer. *)
Definition start (np : nat) : sys := Sys new_ring (replicate np PIdle) CIdle [] [].

(** ** The invariant *)

Fixpoint cnt (f : ppc -> bool) (l : list ppc) : Z :=
  match l with [] => 0 | x :: l => Z.b2z (f x) + cnt f l end.

Definition is_tail (x : ppc) : bool := match x with PTail _ => true | _ => false end.
Definition is_backoff (x : ppc) : bool := match x with PBackoff => true | _ => false end.

(** The index a producer has claimed and not yet filled. *)
Definition claim (x : ppc) : option (Z * bytes) :=
  match x with PCopy i d | PSizes i d | PReady i d => Some (i, d) | _ => None end.
Definition claims (l : list ppc) : list Z := fst <$> omap claim l.

Definition taking (k : cpc) : Z := match k with CCount => 1 | _ => 0 end.

(** How far a producer has filled its entry. *)
Definition filled (x : ppc) (e : entry) : Prop :=
  match x with
  | PSizes _ d => take (length d) (e_data e) = d
  | PReady _ d => take (length d) (e_data e) = d /\ remaining_size e = Z.of_nat (length d)
  | _ => True
  end.

Definition full (e : entry) (d : bytes) : Prop :=
  is_ready e = 1 /\ remaining_size e = Z.of_nat (length d) /\ take (length d) (e_data e) = d.

(** The consumer is emptying the entry at [head]. *)
Definition emptying (k : cpc) : bool := match k with CEmpty _ _ | CHead _ _ => true | _ => false end.

Definition cons_ok (k : cpc) (h t : Z) (s : list bytes) (r : ring) : Prop :=
  match k with
  | CIdle | CCount => True
  | CTail h' => h' = h
  | CWait h' => h' = h /\ h < t
  | CEmpty h' d => h' = h /\ h < t /\ s !! Z.to_nat h = Some d
  | CHead h' d => h' = h /\ h < t /\ s !! Z.to_nat h = Some d /\
      (forall e, entries r !! slot_of h = Some e -> is_ready e = 0)
  end.

Record inv (s : sys) : Prop := Inv {
  i_head : head (rb s) = Z.of_nat (length (delivered s));
  i_tail : tail (rb s) = Z.of_nat (length (sent s));
  i_le : head (rb s) <= tail (rb s);
  i_count : count (rb s) = tail (rb s) - head (rb s) + cnt is_tail (prods s)
              + cnt is_backoff (prods s) + taking (cons s);
  i_room : tail (rb s) - head (rb s) + cnt is_tail (prods s) + taking (cons s) <= entry_num;
  i_prefix : delivered s `prefix_of` sent s;
  i_sizes : Forall (fun d => Z.of_nat (length d) <= entry_data_size) (sent s);
  i_pending : forall d, PCount d ∈ prods s \/ PTail d ∈ prods s -> Z.of_nat (length d) <= entry_data_size;
  i_entries : forall j, 0 <= j < entry_num ->
    exists e, entries (rb s) !! j = Some e /\ Z.of_nat (length (e_data e)) = entry_data_size;
  i_nodup : NoDup (claims (prods s));
  i_prods : forall x i d, x ∈ prods s -> claim x = Some (i, d) ->
    head (rb s) <= i < tail (rb s) /\ sent s !! Z.to_nat i = Some d /\
    (i = head (rb s) -> emptying (cons s) = false) /\
    forall e, entries (rb s) !! slot_of i = Some e -> is_ready e = 0 /\ filled x e;
  i_slots : forall i d e, head (rb s) <= i < tail (rb s) -> sent s !! Z.to_nat i = Some d ->
    entries (rb s) !! slot_of i = Some e -> (i = head (rb s) -> emptying (cons s) = false) ->
    i ∈ claims (prods s) \/ full e d;
  i_free : forall i e, tail (rb s) <= i < head (rb s) + entry_num ->
    entries (rb s) !! slot_of i = Some e -> is_ready e = 0;
  i_cons : cons_ok (cons s) (head (rb s)) (tail (rb s)) (sent s) (rb s)
}.

Lemma cnt_app f l1 l2 : cnt f (l1 ++ l2) = cnt f l1 + cnt f l2.
Proof using Type. induction l1 as [|x l1 IH]; cbn; [reflexivity|]. rewrite IH. lia. Qed.

Lemma cnt_bounds f l : 0 <= cnt f l <= Z.of_nat (length l).
Proof using Type. induction l as [|x l IH]; cbn -[Z.of_nat]; [lia|]. destruct (f x); cbn -[Z.of_nat]; lia. Qed.

(** A producer is in one place at a time. *)
Lemma cnt_two l : cnt is_tail l + cnt is_backoff l <= Z.of_nat (length l).
Proof using Type. induction l as [|x l IH]; cbn -[Z.of_nat]; [lia|]. destruct x; cbn -[Z.of_nat]; lia. Qed.

Lemma claims_app l1 l2 : claims (l1 ++ l2) = claims l1 ++ claims l2.
Proof using Type. unfold claims. now rewrite omap_app, fmap_app. Qed.

Lemma claims_cons x l : claims (x :: l) = (match claim x with Some (i, _) => [i] | None => [] end) ++ claims l.
Proof using Type. unfold claims. cbn. now destruct (claim x) as [[]|]. Qed.

Lemma claims_elem l i : i ∈ claims l <-> exists x d, x ∈ l /\ claim x = Some (i, d).
Proof using Type.
  unfold claims. rewrite list_elem_of_fmap. split.
  - intros ([i' d] & -> & (x & Hx & E)%list_elem_of_omap). eauto.
  - intros (x & d & Hx & E). exists (i, d). split; [easy|]. apply list_elem_of_omap. eauto.
Qed.

(** Indices closer than the number of entries have slots of their own. *)
Lemma slot_ne i j : i <> j -> Z.abs (i - j) < entry_num -> slot_of i <> slot_of j.
Proof using Type.
  intros Hne Hd E. unfold slot_of in E.
  assert (0 < entry_num) as Hp by lia.
  pose proof (Z.div_mod i entry_num ltac:(lia)) as Di. pose proof (Z.div_mod j entry_num ltac:(lia)) as Dj.
  rewrite E in Di. set (q := i / entry_num) in *. set (p := j / entry_num) in *.
  assert (i - j = entry_num * (q - p)) as Hij by lia.
  destruct (Z.lt_trichotomy (q - p) 0) as [Hq|[Hq|Hq]]; [nia|rewrite Hq in Hij; lia|nia].
Qed.

Lemma slot_range i : 0 < entry_num -> 0 <= slot_of i < entry_num.
Proof using Type. intros. apply Z.mod_pos_bound. lia. Qed.

Lemma mod_entry_inv slot f r a r' :
  mod_entry slot f r = Ret a r' ->
  exists e, entries r !! slot = Some e /\ r' = set_entries (insert slot (f e)) r.
Proof using Type.
  unfold mod_entry, get_entry. mrun. destruct (entries r !! slot) as [e|]; [|easy].
  intros [= _ <-]. eauto.
Qed.

(** The entry of the slot at index [i] is replaced. *)
Definition put_entry (i : Z) (e : entry) (r : ring) : ring := set_entries (insert (slot_of i) e) r.

Lemma put_entry_ne i j e r e' :
  i <> j -> Z.abs (i - j) < entry_num -> entries (put_entry i e r) !! slot_of j = Some e' ->
  entries r !! slot_of j = Some e'.
Proof using Type.
  intros Hne Hd. cbn. rewrite lookup_insert_ne; [easy|]. apply slot_ne; lia.
Qed.

Lemma put_entry_entries i e r :
  Z.of_nat (length (e_data e)) = entry_data_size ->
  (forall j, 0 <= j < entry_num -> exists e, entries r !! j = Some e /\ Z.of_nat (length (e_data e)) = entry_data_size) ->
  forall j, 0 <= j < entry_num ->
    exists e', entries (put_entry i e r) !! j = Some e' /\ Z.of_nat (length (e_data e')) = entry_data_size.
Proof using Type.
  intros He Hr j Hj. cbn. destruct (decide (slot_of i = j)) as [<-|Hne].
  - rewrite lookup_insert_eq. eauto.
  - rewrite lookup_insert_ne by exact Hne. auto.
Qed.

(** The messages of the producers that have not claimed a slot yet. *)
Definition pending (l : list ppc) : Prop :=
  forall d, PCount d ∈ l \/ PTail d ∈ l -> Z.of_nat (length d) <= entry_data_size.

Lemma pending_replace l1 x x' l2 :
  pending (l1 ++ x :: l2) ->
  (forall d, x' = PCount d \/ x' = PTail d -> Z.of_nat (length d) <= entry_data_size) ->
  pending (l1 ++ x' :: l2).
Proof using Type. unfold pending. intros Hp Hx d Hd. specialize (Hp d). specialize (Hx d). set_solver. Qed.

(** No two producers have claimed the same index. *)
Lemma claims_others l1 x l2 i d :
  NoDup (claims (l1 ++ x :: l2)) -> claim x = Some (i, d) ->
  forall y j d', y ∈ l1 ++ l2 -> claim y = Some (j, d') -> j <> i.
Proof using Type.
  rewrite claims_app, claims_cons. intros (_ & Hd1 & Hd2)%NoDup_app Hx z j d' Hz Ez ->.
  rewrite Hx in Hd1, Hd2. apply NoDup_cons in Hd2 as [Hd2 _]. apply elem_of_app in Hz as [Hz|Hz].
  - apply (Hd1 i); [|now left]. apply claims_elem. eauto.
  - apply Hd2. apply claims_elem. eauto.
Qed.

Context (Hnum : 0 < entry_num) (Hsize : entry_data_size < 2 ^ 32).

(** A producer fills the entry it has claimed. *)
Lemma fill_inv r l1 x x' l2 k s ds i d e e' :
  inv (Sys r (l1 ++ x :: l2) k s ds) -> claim x = Some (i, d) ->
  entries r !! slot_of i = Some e -> Z.of_nat (length (e_data e')) = entry_data_size ->
  (claim x' = Some (i, d) /\ is_ready e' = 0 /\ filled x' e') \/ (x' = PIdle /\ full e' d) ->
  inv (Sys (put_entry i e' r) (l1 ++ x' :: l2) k s ds).
Proof using Hnum Hsize.
  intros [H1 H2 H3 H4 H5 H6 H7 H8 H9 H10 H11 H12 H13 H14] Hx He He' Hx'. cbn [rb prods cons sent delivered] in *.
  assert (is_tail x' = false /\ is_backoff x' = false /\ is_tail x = false /\ is_backoff x = false)
    as (T1 & T2 & T3 & T4) by (destruct Hx' as [[? _]|[-> _]]; destruct x; try easy; try (destruct x'; easy)).
  destruct (H11 x i d) as (Hi & Hsd & Hem & _); [set_solver|exact Hx|].
  pose proof (claims_others _ _ _ _ _ H10 Hx) as Hne.
  rewrite claims_app, claims_cons, Hx in H10.
  assert (Htl : cnt is_tail (l1 ++ x' :: l2) = cnt is_tail (l1 ++ x :: l2)).
  { rewrite !cnt_app. cbn. now rewrite T1, T3. }
  assert (Hbk : cnt is_backoff (l1 ++ x' :: l2) = cnt is_backoff (l1 ++ x :: l2)).
  { rewrite !cnt_app. cbn. now rewrite T2, T4. }
  pose proof (cnt_bounds is_tail (l1 ++ x :: l2)) as Hb.
  assert (0 <= taking k) as Htk by (destruct k; cbn; lia).
  constructor; cbn [rb prods cons sent delivered put_entry set_entries head tail count entries];
    rewrite ?Htl, ?Hbk; try assumption.
  - apply (pending_replace l1 x); [exact H8|]. intros d' [-> | ->]; destruct Hx' as [[? _]|[? _]]; easy.
  - now apply put_entry_entries.
  - rewrite claims_app, claims_cons. destruct Hx' as [[-> _]|[-> _]]; [exact H10|]. cbn.
    rewrite NoDup_app in *. cbn in *. rewrite NoDup_cons in H10. set_solver.
  - intros y j d' Hy Ey.
    assert (y = x' \/ y ∈ l1 ++ l2) as [->|Hy'] by set_solver.
    + destruct Hx' as [(E & Hr & Hfl)|[-> _]]; [|easy]. assert (j = i /\ d' = d) as [-> ->] by (split; congruence).
      split_and!; try easy; try lia. intros e0. rewrite lookup_insert_eq. now intros [= <-].
    + destruct (H11 y j d') as (Hj & Hsj & Hej & Hfj); [set_solver|exact Ey|]. split_and!; try easy; try lia.
      intros e0 E0. apply Hfj. apply (put_entry_ne i j e' r e0); [|lia|exact E0].
      specialize (Hne y j d' Hy' Ey). lia.
  - intros j dj ej Hj Hsj Ej Hemj. destruct (decide (j = i)) as [->|Hji].
    + rewrite lookup_insert_eq in Ej. injection Ej as <-. assert (dj = d) as -> by congruence.
      destruct Hx' as [(E & _)|[_ Hfull]]; [left|now right].
      apply claims_elem. exists x', d. split; [set_solver|exact E].
    + apply (put_entry_ne i j e' r ej) in Ej; [|lia|lia].
      destruct (H12 j dj ej Hj Hsj Ej Hemj) as [Hc|Hfull]; [left|now right].
      apply claims_elem in Hc as (y & d' & Hy & Ey). apply claims_elem. exists y, d'. split; [|exact Ey].
      assert (y <> x) by congruence. set_solver.
  - intros j ej Hj Ej. apply (H13 j); [lia|]. apply (put_entry_ne i j e' r); [lia|lia|exact Ej].
  - destruct k; cbn in *; try easy. destruct H14 as (-> & Hlt & Hs & Hf). split_and!; try easy.
    intros e0 E0. apply Hf. apply (put_entry_ne i (head r) e' r); [|lia|exact E0].
    intros ->. now specialize (Hem eq_refl).
Qed.

(** A producer that holds no index goes on to another such place. *)
Lemma count_inv r l1 x x' l2 k s ds c :
  inv (Sys r (l1 ++ x :: l2) k s ds) -> claim x = None -> claim x' = None ->
  (forall d, x' = PCount d \/ x' = PTail d -> Z.of_nat (length d) <= entry_data_size) ->
  c - count r = Z.b2z (is_tail x') + Z.b2z (is_backoff x') - Z.b2z (is_tail x) - Z.b2z (is_backoff x) ->
  (is_tail x' = true -> is_tail x = false -> count r < entry_num) ->
  inv (Sys (set_count c r) (l1 ++ x' :: l2) k s ds).
Proof using Hnum Hsize.
  intros [H1 H2 H3 H4 H5 H6 H7 H8 H9 H10 H11 H12 H13 H14] Hx Hx' Hp Hc Hroom.
  cbn [rb prods cons sent delivered] in *.
  assert (Hcl : claims (l1 ++ x' :: l2) = claims (l1 ++ x :: l2)).
  { now rewrite !claims_app, !claims_cons, Hx, Hx'. }
  pose proof (cnt_bounds is_backoff (l1 ++ x :: l2)) as Hb.
  rewrite !cnt_app in *. cbn [cnt] in *.
  constructor; cbn [rb prods cons sent delivered set_count head tail count entries];
    rewrite ?Hcl; try assumption.
  - rewrite !cnt_app. cbn [cnt]. lia.
  - rewrite !cnt_app. cbn [cnt]. destruct (is_tail x'), (is_tail x); cbn in *; lia.
  - now apply (pending_replace l1 x).
  - intros y i d Hy Ey. apply (H11 y i d); [|exact Ey]. assert (y <> x') by congruence. set_solver.
Qed.

(** A producer takes the next index. *)
Lemma claim_inv r l1 d l2 k s ds :
  inv (Sys r (l1 ++ PTail d :: l2) k s ds) ->
  inv (Sys (set_tail (tail r + 1) r) (l1 ++ PCopy (tail r) d :: l2) k (s ++ [d]) ds).
Proof using Hnum Hsize.
  intros [H1 H2 H3 H4 H5 H6 H7 H8 H9 H10 H11 H12 H13 H14].
  cbn [rb prods cons sent delivered] in *.
  rewrite !cnt_app in *. cbn [cnt is_tail is_backoff Z.b2z] in *.
  pose proof (cnt_bounds is_tail l1). pose proof (cnt_bounds is_tail l2).
  assert (0 <= taking k) as Htk by (destruct k; cbn; lia).
  assert (Hlk : forall i d0, s !! i = Some d0 -> (s ++ [d]) !! i = Some d0) by (intros; now apply lookup_app_l_Some).
  assert (Hnew : (s ++ [d]) !! Z.to_nat (tail r) = Some d).
  { rewrite H2, Nat2Z.id, lookup_app_r, Nat.sub_diag by lia. reflexivity. }
  assert (Hold : forall i d0, head r <= i < tail r -> (s ++ [d]) !! Z.to_nat i = Some d0 -> s !! Z.to_nat i = Some d0).
  { intros i d0 Hi. rewrite lookup_app_l by lia. easy. }
  assert (Hcl : forall i, i ∈ claims (l1 ++ PCopy (tail r) d :: l2) <-> i = tail r \/ i ∈ claims (l1 ++ PTail d :: l2)).
  { intros i. rewrite !claims_app, !claims_cons. set_solver. }
  assert (Hfresh : tail r ∉ claims (l1 ++ PTail d :: l2)).
  { intros (x & d' & Hx & Ex)%claims_elem. destruct (H11 x _ _ Hx Ex) as [? _]. lia. }
  constructor; cbn [rb prods cons sent delivered set_tail head tail count entries]; try assumption.
  - rewrite length_app. cbn. lia.
  - lia.
  - rewrite !cnt_app. cbn [cnt is_tail is_backoff Z.b2z]. lia.
  - rewrite !cnt_app. cbn [cnt is_tail is_backoff Z.b2z]. lia.
  - now apply prefix_app_r.
  - apply Forall_app_2; [exact H7|]. apply Forall_singleton, H8. set_solver.
  - apply (pending_replace l1 (PTail d)); [exact H8|]. now intros ? [? | ?].
  - clear - H10 Hfresh. rewrite claims_app, claims_cons in *. cbn [claim app] in *.
    rewrite NoDup_app in *. rewrite NoDup_cons. set_solver.
  - intros y i d' Hy Ey. assert (y = PCopy (tail r) d \/ y ∈ l1 ++ PTail d :: l2) as [->|Hy'] by set_solver.
    + injection Ey as <- <-. split_and!; [lia|lia|exact Hnew| |].
      * intros Heq. destruct k; cbn in *; try easy; lia.
      * intros e He. split; [|easy]. apply (H13 (tail r)); [lia|exact He].
    + destruct (H11 y i d' Hy' Ey) as (? & ? & ? & ?). split_and!; auto; lia.
  - intros i d0 e Hi Hs He Hem. rewrite Hcl. destruct (decide (i = tail r)); [now left; left|].
    destruct (H12 i d0 e) as [?|?]; auto; try lia. apply Hold; [lia|exact Hs].
  - intros i e Hi. apply H13. lia.
  - destruct k; cbn in *; intuition (auto; lia).
Qed.

(** The consumer moves on without writing to the ring. *)
Lemma cons_inv r l k k' s ds :
  inv (Sys r l k s ds) -> emptying k' = emptying k -> taking k' = taking k ->
  cons_ok k' (head r) (tail r) s r -> inv (Sys r l k' s ds).
Proof using Hnum Hsize.
  intros [H1 H2 H3 H4 H5 H6 H7 H8 H9 H10 H11 H12 H13 H14] He Ht Hk.
  constructor; cbn [rb prods cons sent delivered] in *; rewrite ?He, ?Ht; assumption.
Qed.

(** The consumer writes to the entry at [head]. *)
Lemma empty_inv r l k k' s ds e' :
  inv (Sys r l k s ds) -> head r < tail r -> head r ∉ claims l ->
  emptying k' = true -> taking k' = taking k -> Z.of_nat (length (e_data e')) = entry_data_size ->
  cons_ok k' (head r) (tail r) s (put_entry (head r) e' r) ->
  inv (Sys (put_entry (head r) e' r) l k' s ds).
Proof using Hnum Hsize.
  intros [H1 H2 H3 H4 H5 H6 H7 H8 H9 H10 H11 H12 H13 H14] Hlt Hcl Hem Ht He' Hk.
  cbn [rb prods cons sent delivered] in *.
  pose proof (cnt_bounds is_tail l). assert (0 <= taking k) as Htk by (destruct k; cbn; lia).
  constructor; cbn [rb prods cons sent delivered put_entry set_entries head tail count entries];
    rewrite ?Ht; try assumption.
  - now apply put_entry_entries.
  - intros x i d Hx Ex. destruct (H11 x i d Hx Ex) as (Hi & Hs & _ & Hf).
    assert (i <> head r) by (intros ->; apply Hcl, claims_elem; eauto). split_and!; try easy; try lia.
    intros e E. apply Hf, (put_entry_ne (head r) i e' r e); [lia|lia|exact E].
  - intros i d e Hi Hs E Hne. destruct (decide (i = head r)) as [Heq|Hih].
    { specialize (Hne Heq). congruence. }
    apply (put_entry_ne (head r) i e' r e) in E; [|lia|lia]. apply (H12 i d e); auto; lia.
  - intros i e Hi E. apply (H13 i e); [lia|]. apply (put_entry_ne (head r) i e' r e); [lia|lia|exact E].
Qed.

(** The consumer gives the slot back. *)
Lemma next_inv r l s ds d :
  inv (Sys r l (CHead (head r) d) s ds) ->
  inv (Sys (set_head (head r + 1) r) l CCount s (ds ++ [d])).
Proof using Hnum Hsize.
  intros [H1 H2 H3 H4 H5 H6 H7 H8 H9 H10 H11 H12 H13 H14].
  cbn [rb prods cons sent delivered taking emptying cons_ok] in *.
  destruct H14 as (_ & Hlt & Hs & Hf).
  constructor; cbn [rb prods cons sent delivered set_head head tail count entries taking emptying cons_ok];
    try assumption; try lia.
  - rewrite length_app. cbn. lia.
  - destruct H6 as [m ->]. rewrite H1, Nat2Z.id, lookup_app_r, Nat.sub_diag in Hs by lia.
    destruct m; [easy|]. injection Hs as ->. apply prefix_app, prefix_cons, prefix_nil.
  - intros x i d0 Hx Ex. destruct (H11 x i d0 Hx Ex) as (Hi & Hs' & Hne & Hf').
    assert (i <> head r) by (intros ->; now specialize (Hne eq_refl)). split_and!; try easy; lia.
  - intros i d0 e Hi Hs' E _. apply (H12 i d0 e); auto; lia.
  - intros i e Hi E. destruct (decide (i = head r + entry_num)) as [->|].
    + apply Hf. revert E. unfold slot_of. now rewrite <- Z.add_mod_idemp_r, Z.mod_same, Z.add_0_r by lia.
    + apply (H13 i); [lia|exact E].
Qed.

Lemma count_sub_inv r l s ds :
  inv (Sys r l CCount s ds) -> inv (Sys (set_count (count r - 1) r) l CIdle s ds).
Proof using Hnum Hsize.
  intros [H1 H2 H3 H4 H5 H6 H7 H8 H9 H10 H11 H12 H13 H14].
  constructor; cbn [rb prods cons sent delivered set_count head tail count entries taking emptying cons_ok] in *;
    try assumption; lia.
Qed.

(** The entry at [head], once ready, has the oldest message. *)
Lemma ready_full r l h s ds e :
  inv (Sys r l (CWait h) s ds) -> entries r !! slot_of h = Some e -> is_ready e = 1 ->
  h = head r /\ head r < tail r /\ (head r ∉ claims l) /\
  exists d, s !! Z.to_nat h = Some d /\ full e d /\ Z.of_nat (length d) <= entry_data_size /\
    Z.of_nat (length (e_data e)) = entry_data_size.
Proof using Hnum Hsize.
  intros [H1 H2 H3 H4 H5 H6 H7 H8 H9 H10 H11 H12 H13 [-> Hlt]] E Hr.
  cbn [rb prods cons sent delivered] in *.
  assert (head r ∉ claims l) as Hcl.
  { intros (x & d & Hx & Ex)%claims_elem. destruct (H11 x _ _ Hx Ex) as (_ & _ & _ & Hf).
    destruct (Hf e E) as [? _]. congruence. }
  destruct (lookup_lt_is_Some_2 s (Z.to_nat (head r)) ltac:(lia)) as [d Hd].
  destruct (H9 (slot_of (head r)) (slot_range _ Hnum)) as (e0 & E0 & Hl). assert (e0 = e) as -> by congruence.
  split_and!; auto. exists d. split_and!; auto.
  - now destruct (H12 (head r) d e ltac:(lia) Hd E ltac:(easy)).
  - exact (Forall_lookup_1 _ _ _ _ H7 Hd).
Qed.

Lemma copy_out_inv slot buffer n r res r' :
  copy_out slot buffer n r = Ret res r' ->
  exists e, entries r !! slot = Some e /\ remaining_size e <= n /\
    res = (remaining_size e, memcpy buffer (e_data e) (Z.to_nat (remaining_size e))) /\
    r' = set_entries (insert slot (Entry 0 (wrap 32 (dequeue_offset e + remaining_size e)) (is_ready e) (e_data e))) r.
Proof using Type.
  unfold copy_out, get_entry. mrun. destruct (entries r !! slot) as [e|] eqn:E; [|easy]. mrun.
  destruct (Z.ltb_spec n (remaining_size e)).
  { destruct (Z.eqb_spec n (remaining_size e)); [lia|easy]. }
  rewrite Z.eqb_refl. mrun. unfold mod_entry, get_entry. mrun. rewrite E. mrun.
  rewrite Z.sub_diag. intros [= <- <-]. exists e. auto.
Qed.

(** ** Every step preserves the invariant *)

Lemma set_count_id r : set_count (count r) r = r.
Proof using Type. now destruct r. Qed.

Lemma inv_bounds r l k s ds :
  inv (Sys r l k s ds) -> 0 <= count r <= entry_num + cnt is_backoff l.
Proof using Hnum Hsize.
  intros [H1 H2 H3 H4 H5 _ _ _ _ _ _ _ _ _]. cbn [rb prods cons sent delivered] in *.
  pose proof (cnt_bounds is_tail l). pose proof (cnt_bounds is_backoff l).
  assert (0 <= taking k) as Htk by (destruct k; cbn; lia). lia.
Qed.

(** The entry a producer has claimed, and its write to it. *)
Lemma claimed_entry r l1 x l2 k s ds i d f a r' :
  inv (Sys r (l1 ++ x :: l2) k s ds) -> claim x = Some (i, d) -> mod_entry (slot_of i) f r = Ret a r' ->
  exists e, entries r !! slot_of i = Some e /\ r' = put_entry i (f e) r /\
    Z.of_nat (length (e_data e)) = entry_data_size /\ Z.of_nat (length d) <= entry_data_size /\
    is_ready e = 0 /\ filled x e.
Proof using Hnum Hsize.
  intros Hi Hx (e & E & ->)%mod_entry_inv. exists e.
  destruct (i_entries _ Hi _ (slot_range i Hnum)) as (e0 & E0 & Hl). cbn in E0. assert (e0 = e) as -> by congruence.
  destruct (i_prods _ Hi x i d) as (Hr & Hsd & _ & Hf); [cbn; set_solver|exact Hx|].
  pose proof (Forall_lookup_1 _ _ _ _ (i_sizes _ Hi) Hsd) as Hd. specialize (Hf e E). now split_and!.
Qed.

Lemma producer_inv r r' l1 x x' l2 k s ds m :
  inv (Sys r (l1 ++ x :: l2) k s ds) -> pstep x r x' r' m ->
  entry_num + Z.of_nat (length (l1 ++ x :: l2)) < 2 ^ 64 -> Z.of_nat (length (s ++ m)) < 2 ^ 64 ->
  inv (Sys r' (l1 ++ x' :: l2) k (s ++ m) ds).
Proof using Hnum Hsize.
  intros Hi Hs Hnp Hsent. pose proof (inv_bounds _ _ _ _ _ Hi) as Hb. rewrite length_app in Hnp.
  rewrite cnt_app in Hb. cbn [length cnt] in Hnp, Hb.
  pose proof (cnt_bounds is_backoff l1). pose proof (cnt_bounds is_backoff l2).
  pose proof (i_tail _ Hi) as Ht. cbn in Ht.
  destruct Hs as [r d Hd|r d c r' E|r c r' E|r d t r' E|r i d r' E|r i d r' E|r i d r' E];
    rewrite ?app_nil_r in *; try (cbn in E; injection E as <- <-).
  - rewrite <- (set_count_id r). apply (count_inv _ _ PIdle); auto; [intros ? [[= <-]|?]; easy|cbn; lia|easy].
  - cbn in Hb. rewrite wrap_small by (split; lia).
    destruct (Z.leb_spec entry_num (count r)); apply (count_inv _ _ (PCount d)); auto; cbn; try lia.
    + now intros ? [?|?].
    + intros d' [?|[= <-]]; [easy|]. apply (i_pending _ Hi). cbn. set_solver.
  - pose proof (i_count _ Hi) as Hc. pose proof (i_le _ Hi) as Hle. cbn in Hc, Hle.
    rewrite !cnt_app in Hc. cbn in Hc.
    pose proof (cnt_bounds is_tail l1). pose proof (cnt_bounds is_tail l2).
    assert (0 <= taking k) as Htk by (destruct k; cbn; lia).
    cbn in Hb. rewrite wrap_small by (split; lia). apply (count_inv _ _ PBackoff); auto; cbn; try lia. now intros ? [?|?].
  - rewrite length_app in Hsent. cbn in Hsent. rewrite wrap_small by (split; lia). now apply claim_inv.
  - destruct (claimed_entry _ _ (PCopy i d) _ _ _ _ _ _ _ _ _ Hi eq_refl E) as (e & Ee & -> & Hl & Hd & Hr & Hf).
    eapply (fill_inv _ _ (PCopy i d)); [exact Hi|easy|exact Ee| |left; split_and!; [easy|exact Hr|]]; cbn.
    + rewrite memcpy_length; lia.
    + unfold memcpy. now rewrite take_app_length', firstn_all by (rewrite firstn_all; lia).
  - destruct (claimed_entry _ _ (PSizes i d) _ _ _ _ _ _ _ _ _ Hi eq_refl E) as (e & Ee & -> & Hl & Hd & Hr & Hf).
    eapply (fill_inv _ _ (PSizes i d)); [exact Hi|easy|exact Ee|exact Hl|left; split_and!; [easy|exact Hr|]]; cbn.
    split; [exact Hf|]. apply wrap_small. split; lia.
  - destruct (claimed_entry _ _ (PReady i d) _ _ _ _ _ _ _ _ _ Hi eq_refl E) as (e & Ee & -> & Hl & Hd & Hr & Hf).
    eapply (fill_inv _ _ (PReady i d)); [exact Hi|easy|exact Ee|exact Hl|right; split; [easy|]].
    destruct Hf as (Hf1 & Hf2). now split_and!.
Qed.

Lemma consumer_inv n r r' l k k' s ds m :
  inv (Sys r l k s ds) -> cstep n k r k' r' m ->
  entry_num + Z.of_nat (length l) < 2 ^ 64 -> Z.of_nat (length s) < 2 ^ 64 ->
  inv (Sys r' l k' s (ds ++ m)).
Proof using Hnum Hsize.
  intros Hi Hs Hnp Hsent. pose proof (inv_bounds _ _ _ _ _ Hi) as Hb.
  pose proof (i_tail _ Hi) as Ht. pose proof (i_head _ Hi) as Hh. pose proof (i_le _ Hi) as Hle.
  pose proof (i_cons _ Hi) as Hk. cbn in Ht, Hh, Hle, Hk.
  destruct Hs as [r|r h E|r h E|r h e buffer sz d r' E Hr Hbuf Ec|r h d r' E|r h d|r c r' E];
    rewrite ?app_nil_r in *; cbn in Hk.
  - now apply (cons_inv _ _ CIdle).
  - subst h. rewrite wrap_small in E by (split; lia). apply Z.eqb_neq in E.
    apply (cons_inv _ _ (CTail (head r))); auto. cbn. lia.
  - now apply (cons_inv _ _ (CTail h)).
  - destruct (ready_full _ _ _ _ _ _ Hi E Hr) as (-> & Hlt & Hcl & d0 & Hd & (_ & Hsz & Hdata) & Hle0 & Hl).
    apply copy_out_inv in Ec as (e0 & E0 & Hn & [= -> ->] & ->). assert (e0 = e) as -> by congruence.
    apply (empty_inv _ _ (CWait (head r))); auto. cbn. split_and!; auto.
    rewrite Hsz, Nat2Z.id. unfold memcpy.
    rewrite take_app_le by (rewrite length_take; lia). rewrite take_take, Nat.min_id. congruence.
  - destruct Hk as (-> & Hlt & Hd). apply mod_entry_inv in E as (e & E & ->).
    destruct (i_entries _ Hi _ (slot_range (head r) Hnum)) as (e0 & E0 & Hl). cbn in E0. assert (e0 = e) as -> by congruence.
    apply (empty_inv _ _ (CEmpty (head r) d)); auto.
    + intros (x & d' & Hx & Ex)%claims_elem. destruct (i_prods _ Hi x _ _ Hx Ex) as (_ & _ & Hne & _).
      cbn in Hne. now specialize (Hne eq_refl).
    + cbn. split_and!; auto. intros e'. rewrite lookup_insert_eq. now intros [= <-].
  - destruct Hk as (-> & Hlt & Hd & _). rewrite wrap_small by (split; lia). now apply next_inv.
  - injection E as <- <-. rewrite wrap_small; [now apply count_sub_inv|].
    pose proof (i_count _ Hi) as Hc. cbn in Hc.
    pose proof (cnt_bounds is_tail l). pose proof (cnt_bounds is_backoff l). split; lia.
Qed.

Lemma start_inv np : inv (start np).
Proof using Hnum Hsize.
  assert (forall f, f PIdle = false -> cnt f (replicate np PIdle) = 0) as Hc.
  { intros f Hf. induction np as [|n IH]; cbn; [reflexivity|]. now rewrite Hf, IH. }
  assert (claims (replicate np PIdle) = []) as Hcl.
  { induction np as [|n IH]; [reflexivity|]. cbn. apply IH. intros f Hf. specialize (Hc f Hf). cbn in Hc. rewrite Hf in Hc. exact Hc. }
  assert (forall j, 0 <= j < entry_num -> entries new_ring !! j = Some new_entry) as He.
  { intros j Hj. cbn. apply elem_of_list_to_map_1.
    - rewrite <- list_fmap_compose. cbn. rewrite list_fmap_id. apply NoDup_seqZ.
    - apply list_elem_of_fmap. exists j. split; [easy|]. apply elem_of_seqZ. lia. }
  assert (forall x, x ∈ replicate np PIdle -> x = PIdle) as Hx by (intros x Hx; now apply elem_of_replicate in Hx).
  constructor; cbn [start rb prods cons sent delivered]; rewrite ?Hc, ?Hcl; auto; cbn; try lia.
  - intros d [Hd|Hd]; now apply Hx in Hd.
  - intros j Hj. exists new_entry. split; [now apply He|]. cbn. rewrite length_replicate, Z2Nat.id; [easy|].
    apply wrap_fits. lia.
  - apply NoDup_nil_2.
  - intros x i d Hxin E. now rewrite (Hx x Hxin) in E.
  - intros i e Hi E. fold new_ring in E. rewrite He in E by now apply slot_range. now injection E as <-.
Qed.

Lemma step_inv n np s s' :
  entry_num + Z.of_nat np < 2 ^ 64 -> Z.of_nat (length (sent s')) < 2 ^ 64 ->
  length (prods s) = np -> inv s -> step n s s' -> inv s' /\ length (prods s') = np.
Proof using Hnum Hsize.
  intros Hnp Hs' Hl Hi Hst; destruct Hst as [r r' l1 x x' l2 k s0 ds m Hp|r r' l k k' s0 ds m Hc];
    cbn [prods sent] in *; subst np; (split; [|rewrite ?length_app; reflexivity]).
  - eapply producer_inv; eauto.
  - eapply consumer_inv; eauto.
Qed.

Lemma sent_grows n s s' : step n s s' -> (length (sent s) <= length (sent s'))%nat.
Proof using Type. intros [|]; cbn; rewrite ?length_app; lia. Qed.

Lemma run_inv n np s s' :
  entry_num + Z.of_nat np < 2 ^ 64 -> rtc (step n) s s' -> inv s -> length (prods s) = np ->
  Z.of_nat (length (sent s')) < 2 ^ 64 -> inv s' /\ length (prods s') = np.
Proof using Hnum Hsize.
  intros Hnp Hr Hi Hp. revert s' Hr.
  apply (rtc_ind_r (fun s => Z.of_nat (length (sent s)) < 2 ^ 64 -> inv s /\ length (prods s) = np)).
  - now intros _.
  - intros s1 s' Hr Hs IH Hl. pose proof (sent_grows _ _ _ Hs). destruct IH as [Hi' Hl']; [lia|]. eapply step_inv; eauto.
Qed.

Lemma reachable_inv n np s :
  entry_num + Z.of_nat np < 2 ^ 64 -> rtc (step n) (start np) s -> Z.of_nat (length (sent s)) < 2 ^ 64 ->
  inv s /\ length (prods s) = np.
Proof using Hnum Hsize.
  intros Hnp Hr Hl. apply (run_inv n np (start np)); auto; [apply start_inv|apply length_replicate].
Qed.

(** ** Every message is delivered

    Work left in a state: the messages not delivered, the place of the consumer
    and the producers that are still filling an entry. *)
Definition cons_left (k : cpc) : nat :=
  match k with CCount => 6 | CIdle => 5 | CTail _ => 4 | CWait _ => 3 | CEmpty _ _ => 2 | CHead _ _ => 1 end.
Definition prod_left (x : ppc) : nat :=
  match x with PCopy _ _ => 3 | PSizes _ _ => 2 | PReady _ _ => 1 | _ => 0 end.
Definition left_over (s : sys) : nat :=
  10 * (length (sent s) - length (delivered s)) + cons_left (cons s) + sum_list_with prod_left (prods s).

Lemma mod_entry_run r slot f e :
  entries r !! slot = Some e -> mod_entry slot f r = Ret tt (set_entries (insert slot (f e)) r).
Proof using Type. intros E. unfold mod_entry, get_entry. mrun. now rewrite E. Qed.

(** A producer that has claimed an index can always go on. *)
Lemma producer_moves n s x i d :
  inv s -> x ∈ prods s -> claim x = Some (i, d) ->
  exists s', step n s s' /\ sent s' = sent s /\ (left_over s' < left_over s)%nat.
Proof using Hnum Hsize.
  intros Hi Hx Ex. destruct (i_entries _ Hi _ (slot_range i Hnum)) as (e & E & _).
  destruct s as [r l k m ds]. cbn in *. apply list_elem_of_split in Hx as (l1 & l2 & ->).
  assert (exists x' r', pstep x r x' r' [] /\ (prod_left x' < prod_left x)%nat) as (x' & r' & Hs & Hlt).
  { destruct x; try easy; injection Ex as -> ->; do 2 eexists; (split; [constructor; apply mod_entry_run, E|cbn; lia]). }
  exists (Sys r' (l1 ++ x' :: l2) k (m ++ []) ds). split; [now constructor|].
  rewrite app_nil_r. split; [easy|]. unfold left_over. cbn. rewrite !sum_list_with_app. cbn. lia.
Qed.

(** With no index claimed, the consumer can go on. *)
Lemma consumer_moves n s :
  entry_data_size <= n -> Z.of_nat (length (sent s)) < 2 ^ 64 ->
  inv s -> claims (prods s) = [] -> delivered s <> sent s ->
  exists s', step n s s' /\ sent s' = sent s /\ (left_over s' < left_over s)%nat.
Proof using Hnum Hsize.
  intros Hn Hsent Hi Hcl Hne. destruct s as [r l k m ds]. cbn in *.
  pose proof (i_head _ Hi) as Hh. pose proof (i_tail _ Hi) as Ht. pose proof (i_cons _ Hi) as Hk. cbn in Hh, Ht, Hk.
  destruct (i_prefix _ Hi) as [m' Hm]. cbn in Hm.
  assert (Hlt : head r < tail r).
  { destruct m'; [rewrite app_nil_r in Hm; congruence|]. subst m. rewrite length_app in Ht. cbn in Ht. lia. }
  assert (exists k' r' o, cstep n k r k' r' o /\
    (10 * (length m - length (ds ++ o)) + cons_left k' < 10 * (length m - length ds) + cons_left k)%nat) as (k' & r' & o & Hs & Hl).
  { destruct (i_entries _ Hi _ (slot_range (head r) Hnum)) as (e & E & Hlen). cbn in E.
    destruct k as [|h|h|h d|h d|]; cbn in Hk.
    - exists (CTail (head r)), r, []. split; [constructor|]. rewrite app_nil_r. cbn. lia.
    - exists (CWait (head r)), r, []. split; [|rewrite app_nil_r; cbn; lia].
      constructor. subst h. rewrite wrap_small by (split; lia). apply Z.eqb_neq. lia.
    - destruct Hk as [-> _]. destruct (lookup_lt_is_Some_2 m (Z.to_nat (head r)) ltac:(lia)) as [d Hd].
      destruct (i_slots _ Hi (head r) d e) as [Hin|(Hr & Hsz & Hdt)]; auto; [cbn; lia|cbn in Hin; rewrite Hcl in Hin; set_solver|].
      pose proof (Forall_lookup_1 _ _ _ _ (i_sizes _ Hi) Hd) as Hd'. cbn in Hd'.
      do 3 eexists. split.
      + eapply (c_read n r (head r) e (replicate (Z.to_nat n) Byte.x00)); [exact E|exact Hr|rewrite length_replicate; lia|].
        unfold copy_out, get_entry. mrun. rewrite E. mrun. destruct (Z.ltb_spec n (remaining_size e)); [lia|].
        rewrite Z.eqb_refl. mrun. rewrite (mod_entry_run _ _ _ _ E). mrun. reflexivity.
      + rewrite app_nil_r. cbn. lia.
    - destruct Hk as (-> & _ & _). do 3 eexists. split; [apply c_empty, (mod_entry_run _ _ _ _ E)|].
      rewrite app_nil_r. cbn. lia.
    - do 3 eexists. split; [apply c_next|]. rewrite length_app. cbn. lia.
    - do 3 eexists. split; [now apply (c_count _ _ (count r))|]. rewrite app_nil_r. cbn. lia. }
  exists (Sys r' l k' m (ds ++ o)). split; [now constructor|]. split; [easy|]. unfold left_over. cbn. lia.
Qed.

(** ** The methods are runs of the steps *)

Definition claimed_msgs (b : bool) (d : bytes) : list bytes := if b then [d] else [].

Lemma enqueue_run n r l1 l2 k s ds d b r' :
  enqueue d r = Ret b r' ->
  rtc (step n) (Sys r (l1 ++ PIdle :: l2) k s ds) (Sys r' (l1 ++ PIdle :: l2) k (s ++ claimed_msgs b d) ds).
Proof using Type.
  unfold enqueue. intros ([] & r0 & E0 & E)%bind_inv. unfold CHECK in E0.
  destruct (Z.leb_spec (Z.of_nat (length d)) entry_data_size) as [Hd|]; [|easy]. injection E0 as <-.
  assert (forall x x' r r' m s, pstep x r x' r' m ->
    step n (Sys r (l1 ++ x :: l2) k s ds) (Sys r' (l1 ++ x' :: l2) k (s ++ m) ds)) as Hp by now constructor.
  assert (forall x x' r r' s, pstep x r x' r' [] ->
    step n (Sys r (l1 ++ x :: l2) k s ds) (Sys r' (l1 ++ x' :: l2) k s ds)) as Hp0.
  { intros x x' q q' s' H%(fun H => Hp _ _ _ _ _ s' H). now rewrite app_nil_r in H. }
  apply bind_inv in E as (c & r1 & E1 & E).
  eapply rtc_l; [apply Hp0, p_start, Hd|]. eapply rtc_l; [apply Hp0, p_count, E1|].
  destruct (entry_num <=? c).
  { apply bind_inv in E as (c2 & r2 & E2 & [= <- <-]). cbn. rewrite app_nil_r. eapply rtc_once, Hp0, p_backoff, E2. }
  apply bind_inv in E as (t & r2 & E2 & E). apply bind_inv in E as ([] & r3 & E3 & E).
  apply bind_inv in E as ([] & r4 & E4 & E). apply bind_inv in E as ([] & r5 & E5 & [= <- <-]).
  eapply rtc_l; [eapply Hp, p_tail, E2|]. eapply rtc_l; [eapply Hp0, p_copy, E3|].
  eapply rtc_l; [eapply Hp0, p_sizes, E4|]. eapply rtc_once, Hp0, p_ready, E5.
Qed.

(** What a call of [dequeue] hands to the caller. *)
Definition handed_over (r : ring) (res : Z * bytes) : list bytes :=
  if size r =? 0 then [] else [take (Z.to_nat (fst res)) (snd res)].

Lemma dequeue_run n r l s ds buffer res r' :
  n <> 0 -> Z.of_nat (length buffer) = n -> dequeue buffer n r = Ret res r' ->
  rtc (step n) (Sys r l CIdle s ds) (Sys r' l CIdle s (ds ++ handed_over r res)).
Proof using Type.
  intros Hn Hbuf. unfold dequeue. destruct (Z.eqb_spec n 0) as [|_]; [easy|].
  assert (forall k k' r r' m ds, cstep n k r k' r' m -> step n (Sys r l k s ds) (Sys r' l k' s (ds ++ m))) as Hp
    by now constructor.
  assert (forall k k' r r' ds, cstep n k r k' r' [] -> step n (Sys r l k s ds) (Sys r' l k' s ds)) as Hp0.
  { intros k k' q q' ds' H%(fun H => Hp _ _ _ _ _ ds' H). now rewrite app_nil_r in H. }
  intros (c & r1 & [= <- <-] & E)%bind_inv. unfold handed_over, size in *.
  eapply rtc_l; [apply Hp0, c_head|]. destruct (wrap 64 (tail r - head r) =? 0) eqn:Hsz.
  { injection E as <- <-. rewrite app_nil_r. eapply rtc_once, Hp0, c_none, Hsz. }
  eapply rtc_l; [apply Hp0, c_tail, Hsz|].
  apply bind_inv in E as (h & r1 & [= <- <-] & E). cbv zeta in E. apply bind_inv in E as (e & r1 & E1 & E).
  unfold get_entry, deref in E1. destruct (entries r !! slot_of (head r)) as [e0|] eqn:Ee; [|easy]. injection E1 as -> <-.
  destruct (Z.eqb_spec (is_ready e) 1) as [Hr|]; [cbn [negb] in E|easy].
  apply bind_inv in E as (res' & r2 & E2 & E). pose proof (copy_out_inv _ _ _ _ _ _ E2) as (e' & Ee' & _ & Hres & Hr2).
  apply bind_inv in E as (e2 & r3 & E3 & E). unfold get_entry, deref in E3. rewrite Hr2 in E3.
  cbn [set_entries entries] in E3. rewrite lookup_insert_eq in E3. injection E3 as <- <-. rewrite <- Hr2 in E. cbn in E.
  apply bind_inv in E as ([] & r4 & E4 & [= <- <-]). unfold when_ in E4.
  apply bind_inv in E4 as ([] & r5 & E5 & E4). apply bind_inv in E4 as ([] & r6 & [= <-] & E4).
  apply bind_inv in E4 as (c & r7 & E7 & [= <-]). destruct res' as [sz d].
  eapply rtc_l; [eapply Hp0, (c_read n r (head r) e buffer); eauto|]. eapply rtc_l; [eapply Hp0, c_empty, E5|].
  eapply rtc_l; [eapply Hp, c_next|]. eapply rtc_once, Hp0, c_count, E7.
Qed.

(** ** The theorems *)

(** C15: A ring buffer is a bounded FIFO queue, whatever the interleaving of its
    [np] producers and the consumer: at every moment the messages handed to the
    consumer are, in order and byte for byte, the first of the messages whose
    slots were claimed, and at most [entry_num] messages are in between, as
    [size] reports. *)
Theorem ring_fifo n np s :
  entry_num + Z.of_nat np < 2 ^ 64 ->
  rtc (step n) (start np) s ->
  Z.of_nat (length (sent s)) < 2 ^ 64 ->
  exists q, sent s = delivered s ++ q /\
    size (rb s) = Z.of_nat (length q) /\ Z.of_nat (length q) <= entry_num.
Proof using Hnum Hsize.
  intros Hnp Hr Hl. destruct (reachable_inv n np s Hnp Hr Hl) as [Hi _].
  destruct (i_prefix _ Hi) as [q Hq]. exists q. split; [exact Hq|]. unfold size.
  pose proof (i_head _ Hi). pose proof (i_tail _ Hi). pose proof (i_room _ Hi).
  pose proof (cnt_bounds is_tail (prods s)). assert (0 <= taking (cons s)) by (destruct (cons s); cbn; lia).
  rewrite Hq, length_app in *. rewrite wrap_small by (split; lia). lia.
Qed.

Lemma drain n np s :
  entry_num + Z.of_nat np < 2 ^ 64 -> entry_data_size <= n -> Z.of_nat (length (sent s)) < 2 ^ 64 ->
  inv s -> length (prods s) = np ->
  exists s', rtc (step n) s s' /\ sent s' = sent s /\ delivered s' = sent s.
Proof using Hnum Hsize.
  intros Hnp Hn. remember (left_over s) as w eqn:Hw. revert s Hw.
  induction w as [w IH] using lt_wf_ind. intros s -> Hl Hi Hp.
  destruct (decide (delivered s = sent s)) as [Heq|Hne]; [now exists s|].
  assert (exists s', step n s s' /\ sent s' = sent s /\ (left_over s' < left_over s)%nat) as (s1 & Hs & Hsent & Hlt).
  { destruct (claims (prods s)) as [|i js] eqn:Hcl; [now apply consumer_moves|].
    assert (i ∈ claims (prods s)) as (x & d & Hx & Ex)%claims_elem by (rewrite Hcl; now left).
    now apply (producer_moves n s x i d). }
  destruct (step_inv n np s s1) as [Hi1 Hp1]; auto; [now rewrite Hsent|].
  destruct (IH _ Hlt s1 eq_refl) as (s2 & Hr & E1 & E2); auto; [now rewrite Hsent|].
  exists s2. split; [now apply (rtc_l _ _ s1)|]. split; congruence.
Qed.

(** C25: No message is lost or stuck: from every reachable state the producers
    that have claimed a slot and the consumer can run on, without a [CHECK]
    failing, until every message sent has been delivered, when the consumer's
    buffer holds an entry. *)
Theorem ring_delivers n np s :
  entry_num + Z.of_nat np < 2 ^ 64 -> entry_data_size <= n ->
  rtc (step n) (start np) s ->
  Z.of_nat (length (sent s)) < 2 ^ 64 ->
  exists s', rtc (step n) s s' /\ sent s' = sent s /\ delivered s' = sent s.
Proof using Hnum Hsize.
  intros Hnp Hn Hr Hl. destruct (reachable_inv n np s Hnp Hr Hl) as [Hi Hp]. eapply drain; eauto.
Qed.

(** ** One caller at a time *)

(** A ring on which no call is under way, with the queue of messages in it. *)
Definition holds (r : ring) (ds q : list bytes) : Prop := inv (Sys r [PIdle] CIdle (ds ++ q) ds).

Lemma holds_size r ds q :
  holds r ds q -> Z.of_nat (length (ds ++ q)) < 2 ^ 64 -> size r = Z.of_nat (length q) /\ count r = Z.of_nat (length q).
Proof using Hnum Hsize.
  intros Hi Hl. pose proof (i_head _ Hi) as Hh. pose proof (i_tail _ Hi) as Ht. pose proof (i_count _ Hi) as Hc.
  cbn in Hh, Ht, Hc. rewrite length_app in *. unfold size. rewrite wrap_small by (split; lia). lia.
Qed.

(** [enqueue] returns, and refuses the message only when the ring is full. *)
Lemma enqueue_holds r ds q d :
  holds r ds q -> Z.of_nat (length (ds ++ q)) + 1 < 2 ^ 64 -> entry_num + 1 < 2 ^ 64 ->
  Z.of_nat (length d) <= entry_data_size ->
  runs (enqueue d) r (fun b r' =>
    b = (Z.of_nat (length q) <? entry_num) /\ holds r' ds (q ++ claimed_msgs b d)).
Proof using Hnum Hsize.
  intros Hi Hl Hnp Hd. destruct (holds_size r ds q Hi) as [Hsz Hc]; [lia|].
  assert (exists b r', enqueue d r = Ret b r' /\ b = (Z.of_nat (length q) <? entry_num)) as (b & r' & E & Hb).
  { unfold enqueue, fetch_add_count, fetch_sub_count, fetch_add_tail. rewrite (proj2 (Z.leb_le _ _) Hd). mrun. rewrite Hc, Z.leb_antisym.
    destruct (Z.of_nat (length q) <? entry_num); [|now do 2 eexists].
    cbn [negb]. destruct (i_entries _ Hi _ (slot_range (tail r) Hnum)) as (e & E & _).
    unfold copy_in, set_sizes, mark_ready, mod_entry, get_entry. mrun. cbn in E. rewrite E. mrun.
    rewrite lookup_insert_eq. mrun. rewrite lookup_insert_eq. mrun. now do 2 eexists. }
  unfold runs. rewrite E. split; [exact Hb|].
  pose proof (enqueue_run 1 r [] [] CIdle (ds ++ q) ds d b r' E) as Hrun. rewrite <- app_assoc in Hrun.
  apply (run_inv 1 1 _ _) in Hrun as [Hr _]; auto. cbn. rewrite app_assoc, length_app. destruct b; cbn; lia.
Qed.

Lemma dequeue_holds r ds q buffer n :
  holds r ds q -> Z.of_nat (length (ds ++ q)) < 2 ^ 64 -> entry_num + 1 < 2 ^ 64 ->
  Z.of_nat (length buffer) = n -> entry_data_size <= n -> n <> 0 ->
  runs (dequeue buffer n) r (fun res r' =>
    match q with
    | [] => res = (0, buffer) /\ r' = r
    | d :: q' => res = (Z.of_nat (length d), memcpy buffer d (length d)) /\ holds r' (ds ++ [d]) q'
    end).
Proof using Hnum Hsize.
  intros Hi Hl Hnp Hbuf Hn Hn0. destruct (holds_size r ds q Hi) as [Hsz Hc]; [lia|].
  assert (Hun : forall d q', q = d :: q' -> exists res r', dequeue buffer n r = Ret res r' /\
    res = (Z.of_nat (length d), memcpy buffer d (length d))).
  { intros d q' ->. destruct (i_entries _ Hi _ (slot_range (head r) Hnum)) as (e & E & He). cbn in E.
    pose proof (i_head _ Hi) as Hh. pose proof (i_tail _ Hi) as Ht. cbn in Hh, Ht. rewrite length_app in Ht. cbn in Ht.
    assert (Hd : (ds ++ d :: q') !! Z.to_nat (head r) = Some d).
    { rewrite Hh, Nat2Z.id, lookup_app_r, Nat.sub_diag by lia. reflexivity. }
    destruct (i_slots _ Hi (head r) d e) as [Hin|(Hr & Hrem & Hdt)]; auto; [cbn; lia|now apply elem_of_nil in Hin|].
    pose proof (Forall_lookup_1 _ _ _ _ (i_sizes _ Hi) Hd) as Hd'. cbn in Hd'.
    unfold dequeue, copy_out, mark_empty, mod_entry, get_entry, fetch_sub_count. destruct (Z.eqb_spec n 0) as [|_]; [easy|].
    mrun. rewrite Hsz. cbn [length]. destruct (Z.eqb_spec (Z.of_nat (S (length q'))) 0); [lia|]. rewrite E. mrun.
    rewrite Hr. cbn. rewrite E. mrun. destruct (Z.ltb_spec n (remaining_size e)); [lia|]. rewrite Z.eqb_refl. mrun.
    rewrite E. mrun. rewrite lookup_insert_eq. mrun. rewrite Z.sub_diag. change (wrap 32 0) with 0. mrun. rewrite lookup_insert_eq. mrun.
    do 2 eexists. split; [reflexivity|]. rewrite Hrem, Nat2Z.id. f_equal. unfold memcpy. rewrite firstn_all. congruence. }
  destruct q as [|d q'].
  - unfold runs, dequeue. destruct (Z.eqb_spec n 0) as [|_]; [easy|]. mrun. now rewrite Hsz.
  - destruct (Hun d q' eq_refl) as (res & r' & E & ->). unfold runs. rewrite E. split; [easy|].
    pose proof (dequeue_run n r [PIdle] (ds ++ d :: q') ds buffer _ r' Hn0 Hbuf E) as Hrun.
    apply (run_inv n 1) in Hrun as [Hr _]; auto. unfold holds. rewrite <- app_assoc. cbn [app].
    replace (ds ++ [d]) with (ds ++ handed_over r (Z.of_nat (length d), memcpy buffer d (length d))); [exact Hr|].
    unfold handed_over. rewrite Hsz. cbn [length fst snd]. destruct (Z.eqb_spec (Z.of_nat (S (length q'))) 0); [lia|].
    unfold memcpy. rewrite Nat2Z.id, firstn_all, take_app_length. reflexivity.
Qed.

Lemma new_ring_holds : holds new_ring [] [].
Proof using Hnum Hsize. exact (start_inv 1). Qed.

(** A client's calls, and what they return on a bounded FIFO queue. *)
Inductive call := Enqueue (d : bytes) | Recv.
Inductive answer := Accepted (b : bool) | Received (n : Z) (buffer : bytes).

Definition run_call (buffer : bytes) (c : call) : M ring answer :=
  match c with
  | Enqueue d => b ← enqueue d; mret (Accepted b)
  | Recv => res ← recv buffer (Z.of_nat (length buffer)); mret (Received (fst res) (snd res))
  end.
Fixpoint run_calls (buffer : bytes) (l : list call) : M ring (list answer) :=
  match l with
  | [] => mret []
  | c :: l => a ← run_call buffer c; rest ← run_calls buffer l; mret (a :: rest)
  end.

Fixpoint fifo_calls (buffer : bytes) (q : list bytes) (l : list call) : list answer :=
  match l with
  | [] => []
  | Enqueue d :: l =>
      if Z.of_nat (length q) <? entry_num then Accepted true :: fifo_calls buffer (q ++ [d]) l
      else Accepted false :: fifo_calls buffer q l
  | Recv :: l =>
      match q with
      | [] => Received 0 buffer :: fifo_calls buffer [] l
      | d :: q => Received (Z.of_nat (length d)) (d ++ drop (length d) buffer) :: fifo_calls buffer q l
      end
  end.

Definition fits_entry (c : call) : bool :=
  match c with Enqueue d => Z.of_nat (length d) <=? entry_data_size | Recv => true end.

Lemma calls_fifo buffer l r ds q :
  holds r ds q -> forallb fits_entry l = true -> Z.of_nat (length (ds ++ q) + length l) < 2 ^ 64 ->
  entry_num + 1 < 2 ^ 64 -> 0 < entry_data_size <= Z.of_nat (length buffer) ->
  runs (run_calls buffer l) r (fun res _ => res = fifo_calls buffer q l).
Proof using Hnum Hsize.
  intros Hh Hl Hlen Hnp Hbuf. revert r ds q Hh Hl Hlen.
  induction l as [|c l IH]; intros r ds q Hh Hl Hlen; [reflexivity|]. cbn in Hl, Hlen.
  apply andb_true_iff in Hl as [Hc Hl]. cbn [run_calls]. apply runs_bind. destruct c as [d|]; cbn in Hc |- *; apply runs_bind.
  - eapply runs_mono; [apply (enqueue_holds r ds q d Hh); lia|]. intros b r' [Hb Hh'].
    cbn. apply runs_bind. eapply runs_mono; [apply (IH _ _ _ Hh' Hl)|].
    + rewrite app_assoc, length_app. destruct b; cbn; lia.
    + cbn. intros a s1 ->. destruct b; rewrite <- Hb; [easy|]. cbn. now rewrite app_nil_r.
  - unfold recv. apply runs_bind. cbn. destruct (holds_size r ds q Hh) as [Hsz _]; [lia|]. rewrite Hsz.
    destruct q as [|d q].
    + cbn. apply runs_bind. eapply runs_mono; [apply (IH _ _ _ Hh Hl); lia|]. now intros a s1 ->.
    + destruct (Z.eqb_spec (Z.of_nat (length (d :: q))) 0) as [Hz|_]; [cbn in Hz; lia|].
      eapply runs_mono; [apply (dequeue_holds r ds (d :: q) buffer _ Hh); try reflexivity; lia|].
      intros res r' [-> Hh']. cbn. apply runs_bind.
      eapply runs_mono; [apply (IH _ _ _ Hh' Hl)|].
      * rewrite <- app_assoc. cbn [app]. lia.
      * intros a s1 ->. cbn. unfold memcpy. now rewrite firstn_all.
Qed.

(** C26: Called one after the other on a new ring buffer, [enqueue] and [recv]
    return, with exactly the answers of a FIFO queue of [entry_num] messages:
    [enqueue] refuses when it is full, [recv] copies the oldest message to the
    buffer, leaving the rest of the buffer alone, or returns 0 when it is
    empty. *)
Theorem ring_calls buffer l :
  forallb fits_entry l = true -> Z.of_nat (length l) < 2 ^ 64 -> entry_num + 1 < 2 ^ 64 ->
  0 < entry_data_size <= Z.of_nat (length buffer) ->
  runs (run_calls buffer l) new_ring (fun res _ => res = fifo_calls buffer [] l).
Proof using Hnum Hsize. intros. apply (calls_fifo _ _ _ _ _ new_ring_holds); auto. Qed.
End ring_buffer.

(** ** Witnesses

    A ring of two 3-byte entries. *)
Definition ex_calls : list call :=
  [Enqueue [Byte.x01; Byte.x02]; Enqueue [Byte.x03]; Enqueue []; Recv; Enqueue [Byte.x04]; Recv; Recv; Recv].

Lemma ring_calls_witness :
  runs (run_calls 12 2 (replicate 3 Byte.x00) ex_calls) (new_ring 12 2)
    (fun res _ => res = fifo_calls 2 (replicate 3 Byte.x00) [] ex_calls) /\
  fifo_calls 2 (replicate 3 Byte.x00) [] ex_calls =
    [Accepted true; Accepted true; Accepted false; Received 2 [Byte.x01; Byte.x02; Byte.x00];
     Accepted true; Received 1 [Byte.x03; Byte.x00; Byte.x00]; Received 1 [Byte.x04; Byte.x00; Byte.x00];
     Received 0 [Byte.x00; Byte.x00; Byte.x00]].
Proof.
  split; [|reflexivity]. apply (ring_calls 12 2); vm_compute; try reflexivity. now split.
Defined.

(** One producer enqueues a message; another run has claimed a slot only. *)
Definition ex_state : sys :=
  Sys (set_tail 1 (set_count 1 (new_ring 12 2))) [PCopy 0 [Byte.x05]; PIdle] CIdle [[Byte.x05]] [].

Lemma ex_state_reachable : rtc (step 12 2 3) (start 12 2 2) ex_state.
Proof.
  eapply rtc_l; [eapply (step_producer 12 2 3 _ _ [] PIdle (PCount [Byte.x05]) [PIdle]); now constructor|].
  eapply rtc_l; [eapply (step_producer 12 2 3 _ _ [] (PCount [Byte.x05]) (PTail [Byte.x05]) [PIdle]); eapply (p_count 12 2 _ _ 0); reflexivity|].
  eapply rtc_l; [eapply (step_producer 12 2 3 _ _ [] (PTail [Byte.x05]) (PCopy 0 [Byte.x05]) [PIdle]); eapply p_tail; reflexivity|].
  apply rtc_refl.
Qed.

Lemma ring_fifo_witness :
  exists q, sent ex_state = delivered ex_state ++ q /\
    size (rb ex_state) = Z.of_nat (length q) /\ Z.of_nat (length q) <= 2.
Proof. apply (ring_fifo 12 2 ltac:(lia) ltac:(now vm_compute) 3 2); [now vm_compute|exact ex_state_reachable|now vm_compute]. Defined.

Lemma ring_delivers_witness :
  exists s', rtc (step 12 2 3) ex_state s' /\ sent s' = sent ex_state /\ delivered s' = sent ex_state.
Proof.
  apply (ring_delivers 12 2 ltac:(lia) ltac:(now vm_compute) 3 2);
    [now vm_compute|now vm_compute|exact ex_state_reachable|now vm_compute].
Defined.

End MPSCRingBuffer.
