(* ===== verification/EBR.v ===== *)
(** * [CXL_EBR]: epoch-based reclamation across the hosts

    The class of common/CXL_EBR.h.  Every worker calls [enter_critical_section]
    between transactions and [add_retired_object] for each object it has
    unlinked; an object is freed by the worker that retired it, two epochs
    later.  [ebr] is the state of the class and of the workers' [thread_local]
    metadata; the methods run one worker alone, and the step relation
    interleaves the accesses of all workers to [global_epoch] and to each
    other's [local_epoch], in sequential consistency. *)

From S2P Require Import Prelude.

Module CXL_EBR.

Definition max_epoch : Z := 3.
Definition max_coordinator_num : nat := 8.
Definition max_thread_num : nat := 5.
Definition epoch_advance_threshold : Z := 100.

Record retired_object := RetiredObject { ptr : Z; obj_size : Z; category : Z }.

(** [EBRMetaLocal]; the two ids are the key of the worker, [tid]. *)
Record EBRMetaLocal := MetaLocal {
  last_freed_epoch : Z;
  retired_objects : gmap Z (list retired_object);
  garbage_size : list Z;
  max_garbage_size : Z
}.

(** A worker: its coordinator and its thread id. *)
Definition tid : Type := nat * nat.

Record ebr := EBR {
  global_epoch : Z;
  local_epoch : gmap tid Z;
  local_meta : gmap tid EBRMetaLocal
}.

Definition set_global (g : Z) (s : ebr) : ebr := EBR g (local_epoch s) (local_meta s).
Definition set_local (t : tid) (l : Z) (s : ebr) : ebr := EBR (global_epoch s) (<[t := l]> (local_epoch s)) (local_meta s).
Definition set_meta (t : tid) (m : EBRMetaLocal) (s : ebr) : ebr :=
  EBR (global_epoch s) (local_epoch s) (<[t := m]> (local_meta s)).

Definition retired_list (m : EBRMetaLocal) (e : Z) : list retired_object := default [] (retired_objects m !! (e mod max_epoch)).
Definition set_retired (e : Z) (l : list retired_object) (m : EBRMetaLocal) : EBRMetaLocal :=
  MetaLocal (last_freed_epoch m) (<[e mod max_epoch := l]> (retired_objects m)) (garbage_size m) (max_garbage_size m).

(** [thread_init_ebr_meta], and the object as the constructor leaves it. *)
Definition init_meta : EBRMetaLocal := MetaLocal 0 ∅ [] 0.
Definition slots : list tid := list_prod (seq 0 max_coordinator_num) (seq 0 max_thread_num).

Definition init_ebr : ebr :=
  EBR 0 (list_to_map ((fun t => (t, 0)) <$> slots)) (list_to_map ((fun t => (t, init_meta)) <$> slots)).

Section methods.
Context (coordinator_num thread_num : nat).

(** The workers of the pod, in the order of the two loops. *)
Definition workers : list tid := list_prod (seq 0 coordinator_num) (seq 0 thread_num).

Definition add_object (e : Z) (o : retired_object) (m : EBRMetaLocal) : EBRMetaLocal :=
  set_retired e (retired_list m e ++ [o]) m.

Definition add_retired_object (t : tid) (o : retired_object) : M ebr unit :=
  l ← deref (fun s => local_epoch s !! t);
  m ← deref (fun s => local_meta s !! t);
  modify (set_meta t (add_object l o m)).

(** The loop over the local epochs: [break] leaves the inner loop only, so the
    remaining workers of the same coordinator are skipped. *)
Definition skip_row (i : nat) (ts : list tid) : list tid := filter (fun u : tid => u.1 ≠ i) ts.

Fixpoint scan (fuel : nat) (ts : list tid) (g : Z) (advance : bool) : M ebr bool :=
  match fuel, ts with
  | S fuel, u :: ts =>
      l ← deref (fun s => local_epoch s !! u);
      if l <? g then scan fuel (skip_row u.1 ts) g false else scan fuel ts g advance
  | _, _ => mret advance
  end.

Definition compare_exchange (g g' : Z) : M ebr unit :=
  cur ← gets global_epoch; when_ (cur =? g) (modify (set_global g')).

Definition gc_size (os : list retired_object) : Z := foldl (fun n o => wrap 64 (n + obj_size o)) 0 os.

(** The last part of [enter_critical_section]: the objects passed to
    [cxlalloc_free], or [None] when the [CHECK] fails. *)
Definition reclaim (g : Z) (m : EBRMetaLocal) : option (EBRMetaLocal * list retired_object) :=
  if 2 <=? g then
    let epoch_to_reclaim := g - 2 in
    if last_freed_epoch m <? epoch_to_reclaim then
      if epoch_to_reclaim =? wrap 64 (last_freed_epoch m + 1) then
        let os := retired_list m epoch_to_reclaim in
        Some (MetaLocal epoch_to_reclaim (<[epoch_to_reclaim mod max_epoch := []]> (retired_objects m))
                (garbage_size m ++ [gc_size os])
                (if max_garbage_size m <? gc_size os then gc_size os else max_garbage_size m), os)
      else None
    else Some (m, [])
  else Some (m, []).

Definition enter_critical_section (t : tid) : M ebr (list retired_object) :=
  l ← deref (fun s => local_epoch s !! t);
  g ← gets global_epoch;
  m ← deref (fun s => local_meta s !! t);
  (if g =? l then
     when_ (epoch_advance_threshold <=? Z.of_nat (length (retired_list m l)))
       (advance ← scan (length workers) workers g true;
        when_ advance (compare_exchange g (wrap 64 (g + 1))))
   else CHECK (l <? g));;
  g ← gets global_epoch;
  when_ (l <? g) (CHECK (l =? g - 1);; modify (set_local t g));;
  match reclaim g m with
  | Some (m, os) => modify (set_meta t m);; mret os
  | None => abort
  end.

(** ** Workers interleaved *)

(** Where a worker is in [enter_critical_section], with the values it has
    loaded; [TRun] is the critical section itself.  Only the worker writes its
    own [local_epoch], so loading it is part of the next step. *)
Inductive pc :=
| TRun
| TScan (g : Z) (advance : bool) (rest : list tid)
| TCas (g : Z)
| TReload
| TStore (g : Z)
| TReclaim (g : Z)
| TAbort.

(** What a retirement is remembered by: the epoch of the worker, the global
    epoch, and the epoch of every worker at that moment. *)
Record birth := Birth { stamp : Z; born_global : Z; born_locals : gmap tid Z }.

Record sys := Sys { st : ebr; pcs : gmap tid pc; births : gmap Z birth }.

Definition garbage (s : ebr) (p : Z) : Prop :=
  exists t m k os o, local_meta s !! t = Some m /\ retired_objects m !! k = Some os /\ o ∈ os /\ ptr o = p.

Definition enter_pc (l g n : Z) : pc :=
  if g =? l then (if epoch_advance_threshold <=? n then TScan g true workers else TReload)
  else if l <? g then TReload else TAbort.

Definition reload_pc (l g : Z) : pc :=
  if l <? g then (if l =? g - 1 then TStore g else TAbort) else TReclaim g.

(** A step of worker [t]: its place, the state and the objects it frees. *)
Inductive wstep (t : tid) : pc -> ebr -> pc -> ebr -> list retired_object -> Prop :=
| w_enter s l m : local_epoch s !! t = Some l -> local_meta s !! t = Some m ->
    wstep t TRun s (enter_pc l (global_epoch s) (Z.of_nat (length (retired_list m l)))) s []
| w_scan s g a u ts l : local_epoch s !! u = Some l ->
    wstep t (TScan g a (u :: ts)) s
      (if l <? g then TScan g false (skip_row u.1 ts) else TScan g a ts) s []
| w_scanned s g (a : bool) : wstep t (TScan g a []) s (if a then TCas g else TReload) s []
| w_cas s s' g : compare_exchange g (wrap 64 (g + 1)) s = Ret tt s' -> wstep t (TCas g) s TReload s' []
| w_reload s l : local_epoch s !! t = Some l -> wstep t TReload s (reload_pc l (global_epoch s)) s []
| w_store s g : wstep t (TStore g) s (TReclaim g) (set_local t g s) []
| w_reclaim s g m m' os : local_meta s !! t = Some m -> reclaim g m = Some (m', os) ->
    wstep t (TReclaim g) s TRun (set_meta t m' s) os
| w_check s g m : local_meta s !! t = Some m -> reclaim g m = None -> wstep t (TReclaim g) s TAbort s [].

Inductive step : sys -> tid -> list retired_object -> sys -> Prop :=
| step_worker s t x s' x' ps bs os : t ∈ workers -> ps !! t = Some x -> wstep t x s x' s' os ->
    step (Sys s ps bs) t os (Sys s' (<[t := x']> ps) bs)
| step_retire s t s' ps bs o l : t ∈ workers -> ps !! t = Some TRun -> local_epoch s !! t = Some l ->
    ~ garbage s (ptr o) -> add_retired_object t o s = Ret tt s' ->
    step (Sys s ps bs) t [] (Sys s' ps (<[ptr o := Birth l (global_epoch s) (local_epoch s)]> bs)).

(** The epoch counters have not run out of 64 bits. *)
Definition any_step (s s' : sys) : Prop :=
  global_epoch (st s) + 1 < 2 ^ 64 /\ exists t os, step s t os s'.

Definition start : sys := Sys init_ebr (list_to_map ((fun t => (t, TRun)) <$> workers)) ∅.

(** ** The invariant *)

Definition at_least (L : gmap tid Z) (g : Z) (u : tid) : Prop := exists l, L !! u = Some l /\ g <= l.

Definition pc_ok (L : gmap tid Z) (G l last : Z) (x : pc) : Prop :=
  match x with
  | TRun | TReload => last = Z.max 0 (l - 2)
  | TScan g a rest => last = Z.max 0 (l - 2) /\ (a = true -> forall u, u ∈ workers -> u ∈ rest \/ at_least L g u)
  | TCas g => last = Z.max 0 (l - 2) /\ (forall u, u ∈ workers -> at_least L g u)
  | TStore g => last = Z.max 0 (l - 2) /\ g = l + 1 /\ g <= G
  | TReclaim g => g = l /\ (last = Z.max 0 (g - 2) \/ last = Z.max 0 (g - 3))
  | TAbort => False
  end.

Definition worker_ok (s : sys) (t : tid) : Prop :=
  exists l m x, local_epoch (st s) !! t = Some l /\ local_meta (st s) !! t = Some m /\ pcs s !! t = Some x /\
    0 <= l <= global_epoch (st s) /\ global_epoch (st s) <= l + 1 /\
    pc_ok (local_epoch (st s)) (global_epoch (st s)) l (last_freed_epoch m) x.

(** No worker was ahead of the global epoch at a retirement. *)
Definition birth_ok (b : birth) : Prop :=
  stamp b <= born_global b /\
  forall u, u ∈ workers -> exists l, born_locals b !! u = Some l /\ l <= born_global b.

Definition object_ok (bs : gmap Z birth) (l k : Z) (o : retired_object) : Prop :=
  exists b, bs !! ptr o = Some b /\ stamp b mod max_epoch = k /\ stamp b <= l /\ birth_ok b.

Definition meta_ok (bs : gmap Z birth) (l : Z) (m : EBRMetaLocal) : Prop :=
  map_Forall (fun k => Forall (object_ok bs l k)) (retired_objects m).

Record inv (s : sys) : Prop := Inv {
  i_workers : forall t, t ∈ workers -> worker_ok s t;
  i_metas : forall t m, local_meta (st s) !! t = Some m ->
    exists l, local_epoch (st s) !! t = Some l /\ meta_ok (births s) l m
}.

(** Epochs only grow. *)
Definition grows (L L' : gmap tid Z) : Prop := forall u l, L !! u = Some l -> at_least L' l u.

Lemma grows_refl L : grows L L.
Proof using Type. intros u l E. exists l. split; [exact E|lia]. Qed.

Lemma grows_insert L t l l' : L !! t = Some l -> l <= l' -> grows L (<[t := l']> L).
Proof using Type.
  intros E Hl u v Eu. unfold at_least. destruct (decide (t = u)) as [<-|Hne].
  - exists l'. rewrite lookup_insert_eq. split; [easy|]. assert (v = l) by congruence. lia.
  - exists v. now rewrite lookup_insert_ne.
Qed.

Lemma at_least_grows L L' g u : grows L L' -> at_least L g u -> at_least L' g u.
Proof using Type. intros H (l & E & Hl). destruct (H u l E) as (l' & E' & Hl'). exists l'. split; [exact E'|lia]. Qed.

Lemma pc_ok_grows L L' G G' l last x :
  grows L L' -> G <= G' -> pc_ok L G l last x -> pc_ok L' G' l last x.
Proof using Type.
  intros HL HG. destruct x; cbn; auto.
  - intros [? H]. split; [easy|]. intros Ha u Hu. destruct (H Ha u Hu) as [?|?]; eauto using at_least_grows.
  - intros [? H]. split; [easy|]. intros u Hu. eauto using at_least_grows.
  - intros (? & ? & ?). split_and!; auto; lia.
Qed.

Lemma object_ok_mono bs l l' k o : l <= l' -> object_ok bs l k o -> object_ok bs l' k o.
Proof using Type. intros Hl (b & ? & ? & ? & ?). exists b. split_and!; auto; lia. Qed.

Lemma meta_ok_mono bs l l' m : l <= l' -> meta_ok bs l m -> meta_ok bs l' m.
Proof using Type.
  intros Hl Hm k os E. eapply Forall_impl; [exact (Hm k os E)|]. intros o. now apply object_ok_mono.
Qed.

(** Worker [t] moves: the other workers are undisturbed. *)
Lemma worker_inv s s' ps bs t x' l m l' m' :
  inv (Sys s ps bs) -> t ∈ workers -> is_Some (ps !! t) ->
  local_epoch s !! t = Some l -> local_meta s !! t = Some m -> l <= l' ->
  local_epoch s' = <[t := l']> (local_epoch s) -> local_meta s' = <[t := m']> (local_meta s) ->
  global_epoch s <= global_epoch s' -> (forall u, u ∈ workers -> at_least (local_epoch s') (global_epoch s' - 1) u) ->
  l' <= global_epoch s' ->
  pc_ok (local_epoch s') (global_epoch s') l' (last_freed_epoch m') x' -> meta_ok bs l' m' ->
  inv (Sys s' (<[t := x']> ps) bs).
Proof using Type.
  intros [Hw Hm] Ht [x Hx] El Em Hl EL EM HG Hall Hl' Hpc Hmeta. cbn in *.
  assert (Hgr : grows (local_epoch s) (local_epoch s')) by (rewrite EL; now apply (grows_insert _ _ l)).
  constructor; cbn.
  - intros u Hu. unfold worker_ok. cbn. destruct (Hw u Hu) as (lu & mu & xu & E1 & E2 & E3 & H4 & H5 & H6). cbn in *.
    destruct (Hall u Hu) as (lu' & E1' & Hlu). destruct (decide (t = u)) as [<-|Hne].
    + exists l', m', x'. rewrite EM, !lookup_insert_eq. rewrite EL, lookup_insert_eq in *. injection E1' as <-.
      split_and!; auto; try lia. replace l with lu in Hl by congruence. lia.
    + exists lu, mu, xu. rewrite EL, EM, !lookup_insert_ne in * by exact Hne.
      assert (lu' = lu) as -> by congruence. split_and!; auto; try lia.
      revert H6. eapply pc_ok_grows; eassumption.
  - intros u mu. rewrite EM, EL. destruct (decide (t = u)) as [<-|Hne].
    + rewrite !lookup_insert_eq. intros [= <-]. eauto.
    + rewrite !lookup_insert_ne by exact Hne. eauto.
Qed.

Lemma own_meta_ok s t m l :
  inv s -> local_meta (st s) !! t = Some m -> local_epoch (st s) !! t = Some l -> meta_ok (births s) l m.
Proof using Type. intros Hi Em El. destruct (i_metas _ Hi t m Em) as (l' & El' & Hm). assert (l' = l) as <- by congruence. exact Hm. Qed.

Lemma workers_at_least s : inv s -> forall u, u ∈ workers -> at_least (local_epoch (st s)) (global_epoch (st s) - 1) u.
Proof using Type. intros Hi u Hu. destruct (i_workers _ Hi u Hu) as (l & m & x & E & _ & _ & H1 & H2 & _). exists l. split; [exact E|lia]. Qed.

Lemma set_meta_id t m s : local_meta s !! t = Some m -> set_meta t m s = s.
Proof using Type. intros E. destruct s as [g L ms]. unfold set_meta. cbn in *. now rewrite insert_id. Qed.

(** A step of [t] that changes neither its epoch nor the global one. *)
Lemma quiet_inv s ps bs t x' l m m' :
  inv (Sys s ps bs) -> t ∈ workers -> is_Some (ps !! t) ->
  local_epoch s !! t = Some l -> local_meta s !! t = Some m ->
  pc_ok (local_epoch s) (global_epoch s) l (last_freed_epoch m') x' -> meta_ok bs l m' ->
  inv (Sys (set_meta t m' s) (<[t := x']> ps) bs).
Proof using Type.
  intros Hi Ht Hx El Em Hpc Hmeta. eapply (worker_inv s _ ps bs t x' l m l m'); eauto; cbn; try lia.
  - now rewrite insert_id.
  - exact (workers_at_least _ Hi).
  - destruct (i_workers _ Hi t Ht) as (l0 & _ & _ & E & _ & _ & ? & _). cbn in *. assert (l0 = l) by congruence. lia.
Qed.

(** The [CHECK] of the reclamation holds; what is freed was in the list of the
    epoch two before. *)
Lemma reclaim_ok g m bs :
  g < 2 ^ 64 -> last_freed_epoch m = Z.max 0 (g - 2) \/ last_freed_epoch m = Z.max 0 (g - 3) -> meta_ok bs g m ->
  exists m' os, reclaim g m = Some (m', os) /\ last_freed_epoch m' = Z.max 0 (g - 2) /\ meta_ok bs g m' /\
    forall o, o ∈ os -> object_ok bs g ((g - 2) mod max_epoch) o.
Proof using Type.
  intros Hg Hlast Hm. unfold reclaim. destruct (Z.leb_spec 2 g); [|exists m, []; split_and!; auto; [lia|set_solver]].
  destruct (Z.ltb_spec (last_freed_epoch m) (g - 2)); [|exists m, []; split_and!; auto; [lia|set_solver]].
  rewrite wrap_small by (split; lia). rewrite (proj2 (Z.eqb_eq _ _)) by lia.
  do 2 eexists. split; [reflexivity|]. cbn [retired_objects last_freed_epoch]. split_and!; [lia| |].
  - intros k os. cbn [retired_objects]. destruct (decide ((g - 2) mod max_epoch = k)) as [<-|Hne].
    + rewrite lookup_insert_eq. intros [= <-]. constructor.
    + rewrite lookup_insert_ne by exact Hne. apply Hm.
  - unfold retired_list. intros o Ho. destruct (retired_objects m !! _) as [os|] eqn:E; cbn in Ho; [|set_solver].
    exact (proj1 (Forall_forall _ _) (Hm _ _ E) o Ho).
Qed.

(** An object in the list of epoch [g - 2] was retired in an epoch that is over
    for every worker. *)
Lemma old_stamp e g : e <= g -> e mod max_epoch = (g - 2) mod max_epoch -> e <= g - 2.
Proof using Type.
  unfold max_epoch. intros Hl E. destruct (decide (e = g)) as [->|]; [|destruct (decide (e = g - 1)) as [->|]; [|lia]];
    revert E; Z.div_mod_to_equations; lia.
Qed.

Lemma wstep_inv s s' ps bs t x x' os :
  inv (Sys s ps bs) -> t ∈ workers -> ps !! t = Some x -> global_epoch s + 1 < 2 ^ 64 ->
  wstep t x s x' s' os -> inv (Sys s' (<[t := x']> ps) bs).
Proof using Type.
  intros Hi Ht Hx Hg Hs. destruct (i_workers _ Hi t Ht) as (l & m & x0 & El & Em & Ex & Hl & HG & Hpc). cbn in *.
  assert (x0 = x) as -> by congruence. pose proof (own_meta_ok _ t m l Hi Em El) as Hm. cbn in Hm.
  assert (Hq : forall x', pc_ok (local_epoch s) (global_epoch s) l (last_freed_epoch m) x' -> inv (Sys s (<[t := x']> ps) bs)).
  { intros y Hy. rewrite <- (set_meta_id t m s Em). eapply quiet_inv; eauto. }
  destruct Hs as [s l0 m0 E1 E2|s g a u ts lu Eu|s g a|s s' g E|s l0 E1|s g|s g m0 m' os E2 Er|s g m0 E2 Er]; cbn in Hpc.
  - apply Hq. assert (l0 = l) as -> by congruence. unfold enter_pc. destruct (Z.eqb_spec (global_epoch s) l) as [Hgl|].
    + destruct (_ <=? _); cbn; auto.
    + destruct (Z.ltb_spec l (global_epoch s)); [cbn; lia|lia].
  - apply Hq. destruct Hpc as [Hl1 Ha]. destruct (Z.ltb_spec lu g); cbn; (split; [exact Hl1|]); [easy|].
    intros Hat v Hv. destruct (Ha Hat v Hv) as [Hin|?]; [|now right]. apply elem_of_cons in Hin as [->|?]; [|now left].
    right. now exists lu.
  - apply Hq. destruct Hpc as [Hl1 Ha]. destruct a; cbn; [|exact Hl1]. split; [exact Hl1|]. intros u Hu.
    destruct (Ha eq_refl u Hu) as [Hin|?]; [now apply elem_of_nil in Hin|easy].
  - destruct Hpc as [Hl1 Ha]. revert E. unfold compare_exchange. mrun.
    destruct (Z.eqb_spec (global_epoch s) g) as [Hgg|]; cbn; intros [= <-]; [|now apply Hq].
    rewrite wrap_small by (split; lia). eapply (worker_inv s _ ps bs t _ l m l m); eauto; cbn; try lia.
    + now rewrite insert_id.
    + now rewrite insert_id.
    + intros u Hu. destruct (Ha u Hu) as (v & Ev & Hv). exists v. split; [exact Ev|lia].
  - apply Hq. assert (l0 = l) as -> by congruence. unfold reload_pc. destruct (Z.ltb_spec l (global_epoch s)).
    + rewrite (proj2 (Z.eqb_eq _ _)) by lia. cbn. lia.
    + assert (global_epoch s = l) as -> by lia. cbn. auto.
  - destruct Hpc as (Hl1 & -> & Hle). eapply (worker_inv s _ ps bs t _ l m (l + 1) m); eauto; cbn; try lia.
    + now rewrite insert_id.
    + intros u Hu. destruct (workers_at_least _ Hi u Hu) as (v & Ev & Hv). cbn in *. destruct (decide (t = u)) as [<-|Hne].
      * exists (l + 1). rewrite lookup_insert_eq. split; [easy|lia].
      * exists v. rewrite lookup_insert_ne by exact Hne. now split.
    + apply (meta_ok_mono _ l); [lia|exact Hm].
  - assert (m0 = m) as -> by congruence. destruct Hpc as [-> Hlast].
    destruct (reclaim_ok l m bs) as (m1 & os1 & Er1 & Hl1 & Hm1 & _); auto; [lia|]. assert (m1 = m') as -> by congruence.
    eapply quiet_inv; eauto.
  - assert (m0 = m) as -> by congruence. destruct Hpc as [-> Hlast].
    destruct (reclaim_ok l m bs) as (m1 & os1 & Er1 & _); auto; [lia|congruence].
Qed.

Lemma births_ok bs p b l m : meta_ok bs l m -> (forall k os o, retired_objects m !! k = Some os -> o ∈ os -> ptr o <> p) -> meta_ok (<[p := b]> bs) l m.
Proof using Type.
  intros Hm Hp k os E. apply Forall_forall. intros o Ho. specialize (Hp k os o E Ho).
  destruct (proj1 (Forall_forall _ _) (Hm k os E) o Ho) as (b' & Eb & ?). exists b'. now rewrite lookup_insert_ne by auto.
Qed.

Lemma retire_inv s s' ps bs t o l :
  inv (Sys s ps bs) -> t ∈ workers -> ps !! t = Some TRun -> local_epoch s !! t = Some l ->
  ~ garbage s (ptr o) -> add_retired_object t o s = Ret tt s' ->
  inv (Sys s' ps (<[ptr o := Birth l (global_epoch s) (local_epoch s)]> bs)).
Proof using Type.
  intros Hi Ht Hx El Hng. destruct (i_workers _ Hi t Ht) as (l0 & m & x & El0 & Em & Ex & Hl & HG & Hpc). cbn in *.
  assert (l0 = l) as -> by congruence. unfold add_retired_object. mrun. rewrite El. mrun. rewrite Em. mrun. intros [= <-].
  constructor; cbn.
  - intros u Hu. destruct (i_workers _ Hi u Hu) as (lu & mu & xu & E1 & E2 & E3 & H4 & H5 & H6). unfold worker_ok. cbn in *.
    destruct (decide (t = u)) as [<-|Hne].
    + exists lu, (add_object l o m), xu. rewrite lookup_insert_eq. cbn. assert (mu = m) as -> by congruence. now split_and!.
    + exists lu, mu, xu. rewrite lookup_insert_ne by exact Hne. now split_and!.
  - assert (Hold : forall u mu, local_meta s !! u = Some mu -> exists lu, local_epoch s !! u = Some lu /\
      meta_ok (<[ptr o := Birth l (global_epoch s) (local_epoch s)]> bs) lu mu).
    { intros u mu E1. destruct (i_metas _ Hi u mu E1) as (lu & E2 & Hm). exists lu. split; [exact E2|].
      apply births_ok; [exact Hm|]. intros k os o' E Ho Hp. apply Hng. now exists u, mu, k, os, o'. }
    intros u mu E1. destruct (decide (t = u)) as [<-|Hne]; [|rewrite lookup_insert_ne in E1 by exact Hne; eauto].
    rewrite lookup_insert_eq in E1. injection E1 as <-. destruct (Hold t m Em) as (l' & El' & Hm).
    assert (l' = l) as -> by congruence. exists l. split; [exact El|].
    intros k os. unfold add_object, set_retired. cbn [retired_objects]. destruct (decide (l mod max_epoch = k)) as [<-|Hne].
    + rewrite lookup_insert_eq. intros [= <-]. apply Forall_app_2.
      * unfold retired_list. destruct (retired_objects m !! _) as [os|] eqn:E; cbn; [exact (Hm _ _ E)|constructor].
      * constructor; [|constructor]. eexists. rewrite lookup_insert_eq. split; [reflexivity|]. cbn. split_and!; auto; [lia|].
        split; cbn; [lia|]. intros v Hv. destruct (i_workers _ Hi v Hv) as (lv & _ & _ & Ev & _ & _ & ? & _). cbn in *.
        exists lv. split; [exact Ev|lia].
    + rewrite lookup_insert_ne by exact Hne. apply Hm.
Qed.

Lemma ebr_step_inv s t os s' : inv s -> global_epoch (st s) + 1 < 2 ^ 64 -> step s t os s' -> inv s'.
Proof using Type.
  intros Hi Hg Hs. destruct Hs; [eapply wstep_inv; eauto|eapply retire_inv; eauto].
Qed.

(** ** The method is a run of the steps *)

Inductive wsteps (t : tid) : pc -> ebr -> pc -> ebr -> list retired_object -> Prop :=
| ws_done x s : wsteps t x s x s []
| ws_step x s x1 s1 x2 s2 os1 os2 :
    wstep t x s x1 s1 os1 -> wsteps t x1 s1 x2 s2 os2 -> wsteps t x s x2 s2 (os1 ++ os2).

Lemma ws_quiet t x s x1 s1 x2 s2 os : wstep t x s x1 s1 [] -> wsteps t x1 s1 x2 s2 os -> wsteps t x s x2 s2 os.
Proof using Type. intros. change os with ([] ++ os). econstructor; eauto. Qed.

Lemma skip_row_length i ts : (length (skip_row i ts) <= length ts)%nat.
Proof using Type. apply length_filter. Qed.

Lemma scan_steps t fuel ts g a s b s' x s2 os :
  (length ts <= fuel)%nat -> scan fuel ts g a s = Ret b s' ->
  wsteps t (if b : bool then TCas g else TReload) s' x s2 os -> s' = s /\ wsteps t (TScan g a ts) s x s2 os.
Proof using Type.
  revert ts a. induction fuel as [|fuel IH]; intros [|u ts] a Hf E Hr; cbn in Hf, E; try lia.
  1, 2: injection E as <- <-; (split; [easy|]); eapply ws_quiet; [apply w_scanned|exact Hr].
  apply bind_inv in E as (l & s1 & E1 & E). unfold deref in E1.
  destruct (local_epoch s !! u) as [l0|] eqn:El; [|easy]. injection E1 as -> <-.
  pose proof (w_scan t s g a u ts l El) as Hs. pose proof (skip_row_length u.1 ts).
  destruct (l <? g); (apply IH in E as [-> Hw]; [|lia|exact Hr]); (split; [easy|]); eapply ws_quiet; eauto.
Qed.

(** A call of [enter_critical_section] that is not disturbed is a run of
    the worker's steps, with the same result, so that the interleaved workers
    run the method of the class. *)
Theorem enter_runs t s s' os :
  enter_critical_section t s = Ret os s' -> wsteps t TRun s TRun s' os.
Proof using Type.
  unfold enter_critical_section. intros (l & s0 & E0 & E)%bind_inv. unfold deref in E0.
  destruct (local_epoch s !! t) as [l0|] eqn:El; [|easy]. injection E0 as -> <-.
  apply bind_inv in E as (g & s0 & [= <- <-] & E). apply bind_inv in E as (m & s0 & E0 & E). unfold deref in E0.
  destruct (local_meta s !! t) as [m0|] eqn:Em; [|easy]. injection E0 as -> <-.
  apply bind_inv in E as ([] & s1 & E1 & E).
  eapply ws_quiet; [apply (w_enter t s l m El Em)|].
  assert (Hend : local_epoch s1 = local_epoch s -> local_meta s1 = local_meta s -> wsteps t TReload s1 TRun s' os).
  { intros EL EM. apply bind_inv in E as (g & s2 & [= <- <-] & E). apply bind_inv in E as ([] & s2 & E2 & E).
    rewrite <- EL in El. rewrite <- EM in Em. eapply ws_quiet; [apply (w_reload t s1 l El)|].
    unfold reload_pc, when_ in *. destruct (l <? global_epoch s1).
    - apply bind_inv in E2 as ([] & s3 & E3 & [= <-]). unfold CHECK in E3. destruct (l =? global_epoch s1 - 1); [|easy].
      injection E3 as <-. eapply ws_quiet; [apply w_store|]. destruct (reclaim _ _) as [[m' os']|] eqn:Er; [|easy].
      injection E as <- <-. rewrite <- (app_nil_r os'). eapply ws_step; [apply (w_reclaim _ _ _ m); [exact Em|exact Er]|apply ws_done].
    - injection E2 as <-. destruct (reclaim _ _) as [[m' os']|] eqn:Er; [|easy].
      injection E as <- <-. rewrite <- (app_nil_r os'). eapply ws_step; [apply (w_reclaim _ _ _ m); [exact Em|exact Er]|apply ws_done]. }
  unfold enter_pc. destruct (global_epoch s =? l).
  - unfold when_ in E1. destruct (_ <=? _); [|injection E1 as <-; now apply Hend].
    apply bind_inv in E1 as (b & s2 & E2 & E1).
    assert (s2 = s) as -> by (eapply (scan_steps t); [reflexivity|exact E2|apply ws_done]).
    eapply (scan_steps t); [reflexivity|exact E2|]. destruct b; [|injection E1 as <-; now apply Hend].
    eapply ws_quiet; [apply w_cas, E1|]. revert E1. unfold compare_exchange. mrun.
    destruct (_ =? _); cbn; intros [= <-]; now apply Hend.
  - unfold CHECK in E1. destruct (l <? global_epoch s); [|easy]. injection E1 as <-. now apply Hend.
Qed.

(** ** Running a schedule

    The steps as a function, to run the workers in a given order. *)
Definition wnext (t : tid) (x : pc) (s : ebr) : option (pc * ebr * list retired_object) :=
  match x with
  | TRun =>
      l ← local_epoch s !! t; m ← local_meta s !! t;
      Some (enter_pc l (global_epoch s) (Z.of_nat (length (retired_list m l))), s, [])
  | TScan g a (u :: ts) =>
      l ← local_epoch s !! u; Some (if l <? g then TScan g false (skip_row u.1 ts) else TScan g a ts, s, [])
  | TScan g a [] => Some (if a then TCas g else TReload, s, [])
  | TCas g => Some (TReload, if global_epoch s =? g then set_global (wrap 64 (g + 1)) s else s, [])
  | TReload => l ← local_epoch s !! t; Some (reload_pc l (global_epoch s), s, [])
  | TStore g => Some (TReclaim g, set_local t g s, [])
  | TReclaim g =>
      m ← local_meta s !! t;
      match reclaim g m with Some (m', os) => Some (TRun, set_meta t m' s, os) | None => Some (TAbort, s, []) end
  | TAbort => None
  end.

Lemma wnext_sound t x s x' s' os : wnext t x s = Some (x', s', os) -> wstep t x s x' s' os.
Proof using Type.
  destruct x as [|g a [|u ts]|g| |g|g|]; cbn; try (intros [= <- <- <-]; constructor).
  - destruct (local_epoch s !! t) as [l|] eqn:El; [|easy]. destruct (local_meta s !! t) as [m|] eqn:Em; [|easy].
    intros [= <- <- <-]. now constructor.
  - destruct (local_epoch s !! u) as [l|] eqn:El; [|easy]. intros [= <- <- <-]. now constructor.
  - unfold compare_exchange. mrun. now destruct (_ =? _).
  - destruct (local_epoch s !! t) as [l|] eqn:El; [|easy]. intros [= <- <- <-]. now constructor.
  - destruct (local_meta s !! t) as [m|] eqn:Em; [|easy]. cbn. destruct (reclaim g m) as [[m' o]|] eqn:Er;
      intros [= <- <- <-]; econstructor; eauto.
Qed.

(** What a schedule lets a worker do: a step, or the retirement of an object. *)
Definition event : Type := tid * option retired_object.

Definition is_garbage (s : ebr) (p : Z) : bool :=
  existsb (fun tm : tid * EBRMetaLocal =>
    existsb (fun kos : Z * list retired_object => existsb (fun o => ptr o =? p) kos.2) (map_to_list (retired_objects tm.2)))
    (map_to_list (local_meta s)).

Lemma is_garbage_false s p : is_garbage s p = false -> ~ garbage s p.
Proof using Type.
  intros H (t & m & k & os & o & Em & Ek & Ho & Hp). revert H. apply not_false_iff_true.
  apply existsb_exists. exists (t, m). split; [now apply list_elem_of_In, elem_of_map_to_list|].
  apply existsb_exists. exists (k, os). split; [now apply list_elem_of_In, elem_of_map_to_list|].
  apply existsb_exists. exists o. split; [now apply list_elem_of_In|]. now apply Z.eqb_eq.
Qed.

Definition exec1 (e : event) (s : sys) : option (sys * list retired_object) :=
  let '(t, r) := e in
  x ← pcs s !! t; l ← local_epoch (st s) !! t;
  if bool_decide (t ∈ workers) && (global_epoch (st s) + 1 <? 2 ^ 64) then
    match r, x with
    | None, _ => '(x', s', os) ← wnext t x (st s); Some (Sys s' (<[t := x']> (pcs s)) (births s), os)
    | Some o, TRun =>
        if is_garbage (st s) (ptr o) then None else
        match add_retired_object t o (st s) with
        | Ret _ s' => Some (Sys s' (pcs s) (<[ptr o := Birth l (global_epoch (st s)) (local_epoch (st s))]> (births s)), [])
        | _ => None
        end
    | _, _ => None
    end
  else None.

Lemma exec1_sound e s s' os :
  exec1 e s = Some (s', os) -> global_epoch (st s) + 1 < 2 ^ 64 /\ step s e.1 os s'.
Proof using Type.
  destruct e as [t r], s as [s ps bs]. cbn. destruct (ps !! t) as [x|] eqn:Ex; [|easy]. cbn.
  destruct (local_epoch s !! t) as [l|] eqn:El; [|easy]. cbn. case_bool_decide as Ht; [|easy]. cbn.
  destruct (Z.ltb_spec (global_epoch s + 1) (2 ^ 64)) as [Hg|]; [|easy]. intros E. split; [exact Hg|]. revert E.
  destruct r as [o|].
  - destruct x; try easy. destruct (is_garbage s (ptr o)) eqn:Hng; [easy|]. apply is_garbage_false in Hng.
    destruct (add_retired_object t o s) as [[] s1| | |] eqn:Ea; try easy. intros [= <- <-]. now constructor.
  - destruct (wnext t x s) as [[[x' s1] o]|] eqn:Ew; [|easy]. cbn. intros [= <- <-].
    econstructor; eauto. now apply wnext_sound.
Qed.

Fixpoint exec (es : list event) (s : sys) : option sys :=
  match es with [] => Some s | e :: es => '(s', _) ← exec1 e s; exec es s' end.

Lemma exec_sound es s s' : exec es s = Some s' -> rtc any_step s s'.
Proof using Type.
  revert s. induction es as [|e es IH]; intros s; cbn; [intros [= <-]; constructor|].
  destruct (exec1 e s) as [[s1 os]|] eqn:E1; [|easy]. cbn. intros E. apply exec1_sound in E1 as [Hg Hs].
  eapply rtc_l; [split; [exact Hg|exists e.1, os; exact Hs]|]. now apply IH.
Qed.

Context (Hcoord : (coordinator_num <= max_coordinator_num)%nat) (Hthread : (thread_num <= max_thread_num)%nat).

Lemma workers_slots t : t ∈ workers -> t ∈ slots.
Proof using Hcoord Hthread.
  unfold workers, slots, tid in *. destruct t as [i j]. rewrite !list_elem_of_In, !in_prod_iff, <- !list_elem_of_In, !elem_of_seq. lia.
Qed.

Lemma const_map_lookup {A} (v : A) (ts : list tid) t : t ∈ ts -> (list_to_map ((fun t => (t, v)) <$> ts) : gmap tid A) !! t = Some v.
Proof using Type.
  intros Ht. apply elem_of_list_to_map_1'.
  - intros y (t' & [= _ ->] & _)%list_elem_of_fmap. reflexivity.
  - apply list_elem_of_fmap. now exists t.
Qed.

Lemma ebr_start_inv : inv start.
Proof using Hcoord Hthread.
  constructor.
  - intros t Ht. exists 0, init_meta, TRun. unfold start, init_ebr. cbn [st local_epoch local_meta pcs global_epoch].
    rewrite !const_map_lookup by auto using workers_slots. cbn. split_and!; auto; lia.
  - unfold start, init_ebr. cbn [st local_meta local_epoch births].
    intros t m (t' & [= <- ->] & Ht)%elem_of_list_to_map_2%list_elem_of_fmap.
    exists 0. split; [now apply const_map_lookup|]. intros k os E. cbn [init_meta retired_objects] in E. now rewrite lookup_empty in E.
Qed.

Lemma ebr_reachable_inv s : rtc any_step start s -> inv s.
Proof using Hcoord Hthread.
  revert s. apply rtc_ind_r; [apply ebr_start_inv|]. intros s s' _ (Hg & t & os & Hs) IH. eapply ebr_step_inv; eauto.
Qed.

(** ** The theorems *)

(** C27: The epochs of the pod stay together: in every reachable state each
    worker's epoch is the global epoch or the one before it, and no [CHECK] of
    [enter_critical_section] has failed. *)
Theorem ebr_epochs s t :
  rtc any_step start s -> t ∈ workers ->
  exists l, local_epoch (st s) !! t = Some l /\ l <= global_epoch (st s) <= l + 1 /\ pcs s !! t <> Some TAbort.
Proof using Hcoord Hthread.
  intros Hr Ht. destruct (i_workers _ (ebr_reachable_inv s Hr) t Ht) as (l & m & x & E1 & _ & E3 & H1 & H2 & H3).
  exists l. split_and!; [exact E1|lia|lia|]. rewrite E3. now intros [= ->].
Qed.

(** C28: What reclamation guarantees: when an object is freed, every worker is
    in an epoch after the one the object was stamped with, which is the epoch of
    the worker that retired it.  If that worker was in the global epoch, every
    worker has begun a new critical section since the retirement. *)
Theorem ebr_reclaims s t os s' o :
  rtc any_step start s -> global_epoch (st s) + 1 < 2 ^ 64 -> step s t os s' -> o ∈ os ->
  exists b, births s !! ptr o = Some b /\
    (forall u, u ∈ workers -> at_least (local_epoch (st s)) (stamp b + 1) u) /\
    (stamp b = born_global b -> forall u, u ∈ workers ->
      exists l l', born_locals b !! u = Some l /\ local_epoch (st s) !! u = Some l' /\ l < l').
Proof using Hcoord Hthread.
  intros Hr Hg Hs Ho. pose proof (ebr_reachable_inv s Hr) as Hi.
  destruct Hs as [s t x s' x' ps bs os Ht Hx Hs|]; [|now apply elem_of_nil in Ho].
  destruct Hs as [| | | | | |s g m m' os Em Er|]; try now apply elem_of_nil in Ho.
  destruct (i_workers _ Hi t Ht) as (l & m0 & x0 & El & Em0 & Ex & Hl & HG & Hpc). cbn in *.
  assert (x0 = TReclaim g) as -> by congruence. assert (m0 = m) as -> by congruence. destruct Hpc as [-> Hlast].
  destruct (reclaim_ok l m bs) as (m1 & os1 & Er1 & _ & _ & Hos); auto; [lia|exact (own_meta_ok _ t m l Hi Em El)|].
  assert (os1 = os) as -> by congruence. destruct (Hos o Ho) as (b & Eb & Hmod & Hle & Hb1 & Hb2).
  pose proof (old_stamp _ _ Hle Hmod) as Hold. exists b. split; [exact Eb|].
  assert (Hall : forall u, u ∈ workers -> at_least (local_epoch s) (stamp b + 1) u).
  { intros u Hu. destruct (workers_at_least _ Hi u Hu) as (v & Ev & Hv). cbn in *. exists v. split; [exact Ev|lia]. }
  split; [exact Hall|]. intros Hst u Hu. destruct (Hall u Hu) as (v & Ev & Hv). destruct (Hb2 u Hu) as (w & Ew & Hw).
  exists w, v. split_and!; auto. lia.
Qed.

End methods.

(** ** Schedules *)

Definition obj (p : Z) : retired_object := RetiredObject p 64 0.

(** Worker [t] retires [n] objects, and runs [k] steps. *)
Definition retires (t : tid) (p n : Z) : list event := (fun i => (t, Some (obj i))) <$> seqZ p n.
Definition steps (t : tid) (k : nat) : list event := replicate k (t, None).

(** One worker, which retires a hundred objects in each of three epochs; the
    next step frees those of epoch 1. *)
Definition one_worker : list event :=
  retires (0, 0)%nat 1000 100 ++ steps (0, 0)%nat 7 ++
  retires (0, 0)%nat 2000 100 ++ steps (0, 0)%nat 7 ++
  retires (0, 0)%nat 3000 100 ++ steps (0, 0)%nat 6.

(** The state a schedule ends in. *)
Definition after (cn tn : nat) (es : list event) (s : sys) : sys := default s (exec cn tn es s).
Definition is_some {A} (x : option A) : bool := match x with Some _ => true | None => false end.

Lemma after_exec cn tn es s : is_some (exec cn tn es s) = true -> exec cn tn es s = Some (after cn tn es s).
Proof. unfold after. now destruct (exec cn tn es s). Qed.

Definition frees (cn tn : nat) (t : tid) (s : sys) : option (list retired_object) := snd <$> exec1 cn tn (t, None) s.

Lemma frees_step cn tn t s os :
  frees cn tn t s = Some os -> exists s', global_epoch (st s) + 1 < 2 ^ 64 /\ step cn tn s t os s'.
Proof.
  unfold frees. destruct (exec1 cn tn (t, None) s) as [[s' os']|] eqn:E; [|easy]. cbn. intros [= <-].
  exists s'. now apply exec1_sound in E.
Qed.

Definition after_one_worker : sys := after 1 1 one_worker (start 1 1).

Lemma one_worker_reachable : rtc (any_step 1 1) (start 1 1) after_one_worker.
Proof. apply (exec_sound 1 1 one_worker), after_exec. vm_compute. reflexivity. Qed.

Lemma ebr_epochs_witness :
  exists l, local_epoch (st after_one_worker) !! (0, 0)%nat = Some l /\
    l <= global_epoch (st after_one_worker) <= l + 1 /\ pcs after_one_worker !! (0, 0)%nat <> Some TAbort.
Proof.
  apply (ebr_epochs 1 1); [unfold max_coordinator_num; lia|unfold max_thread_num; lia|exact one_worker_reachable|].
  apply list_elem_of_In. now left.
Defined.

Lemma ebr_reclaims_witness :
  exists s', step 1 1 after_one_worker (0, 0)%nat (obj <$> seqZ 2000 100) s' /\
  exists b, births after_one_worker !! 2042 = Some b /\
    (forall u, u ∈ workers 1 1 -> at_least (local_epoch (st after_one_worker)) (stamp b + 1) u) /\
    (stamp b = born_global b -> forall u, u ∈ workers 1 1 ->
      exists l l', born_locals b !! u = Some l /\ local_epoch (st after_one_worker) !! u = Some l' /\ l < l').
Proof.
  destruct (frees_step 1 1 (0, 0)%nat after_one_worker (obj <$> seqZ 2000 100)) as (s' & Hg & Hs); [vm_compute; reflexivity|].
  exists s'. split; [exact Hs|].
  apply (ebr_reclaims 1 1 ltac:(unfold max_coordinator_num; lia) ltac:(unfold max_thread_num; lia)
    after_one_worker (0, 0)%nat (obj <$> seqZ 2000 100) s' (obj 2042) one_worker_reachable Hg Hs).
  apply list_elem_of_fmap. exists 2042. split; [reflexivity|]. apply elem_of_seqZ. lia.
Defined.

Lemma enter_runs_witness :
  exists s', enter_critical_section 1 1 (0, 0)%nat init_ebr = Ret [] s' /\ wsteps 1 1 (0, 0)%nat TRun init_ebr TRun s' [].
Proof.
  eexists. split; [vm_compute; reflexivity|]. apply enter_runs. vm_compute. reflexivity.
Defined.

(** Two workers.  Both are in epoch 1; worker B moves the global epoch and
    itself to epoch 2, and begins a critical section. *)
Definition worker_A : tid := (0, 0)%nat.
Definition worker_B : tid := (1, 0)%nat.
Definition b_enters : list event :=
  retires worker_A 1000 100 ++ steps worker_A 8 ++ steps worker_B 4 ++
  retires worker_B 2000 100 ++ steps worker_B 8.

(** Worker A, still in epoch 1, retires object 7, and then runs alone. *)
Definition a_retires : list event :=
  [(worker_A, Some (obj 7))] ++ steps worker_A 4 ++ retires worker_A 3000 100 ++ steps worker_A 7.

(** An object retired by a worker that is one epoch behind is freed too
    early: a worker whose critical section began before the object was retired,
    and has not ended since, can still hold a pointer to it.  Object 7 is
    retired after worker B entered its critical section; worker A alone then
    moves on, and frees it. *)
Theorem ebr_frees_early :
  exists s1 s2 s3,
    rtc (any_step 2 1) (start 2 1) s1 /\ pcs s1 !! worker_B = Some TRun /\
    exec 2 1 a_retires s1 = Some s2 /\ Forall (fun e => e.1 = worker_A) a_retires /\
    step 2 1 s2 worker_A [obj 7] s3.
Proof.
  set (s1 := after 2 1 b_enters (start 2 1)). set (s2 := after 2 1 a_retires s1).
  destruct (frees_step 2 1 worker_A s2 [obj 7]) as (s3 & _ & Hs); [vm_compute; reflexivity|].
  exists s1, s2, s3. split_and!.
  - apply (exec_sound 2 1 b_enters), after_exec. vm_compute. reflexivity.
  - vm_compute. reflexivity.
  - apply after_exec. vm_compute. reflexivity.
  - apply (bool_decide_unpack _). vm_compute. exact I.
  - exact Hs.
Qed.

End CXL_EBR.
