(* ===== verification/Wire.v ===== *)
(** * Serialization, [StringPiece], [Encoder] and [Decoder]

    The byte layer of the messages: common/Serialization.h,
    common/StringPiece.h and common/Encoder.h.  Integers are little-endian
    memory images.  A [StringPiece] is the bytes it refers to; reading past
    its end is [None], the undefined behaviour of the code. *)

From S2P Require Import Prelude.

Module Wire.

(** ** Memory images of integers *)

Definition byte_of (v : Z) : Byte.byte := default Byte.x00 (Byte.of_N (Z.to_N (v mod 256))).
Definition byte_val (b : Byte.byte) : Z := Z.of_N (Byte.to_N b).

Fixpoint put_uint (n : nat) (v : Z) : bytes :=
  match n with O => [] | S n => byte_of v :: put_uint n (Z.shiftr v 8) end.

Fixpoint get_uint (b : bytes) : Z :=
  match b with [] => 0 | x :: b => byte_val x + Z.shiftl (get_uint b) 8 end.

Lemma byte_val_of v : byte_val (byte_of v) = v mod 256.
Proof.
  unfold byte_val, byte_of. pose proof (Z.mod_pos_bound v 256 ltac:(lia)) as Hb.
  destruct (Byte.of_N (Z.to_N (v mod 256))) as [b|] eqn:E.
  - apply Byte.to_of_N in E. cbn. rewrite E. lia.
  - apply Byte.of_N_None_iff in E. lia.
Qed.

Lemma byte_val_bounds b : 0 <= byte_val b < 256.
Proof. unfold byte_val. pose proof (Byte.to_N_bounded b). lia. Qed.

Lemma put_uint_length n v : length (put_uint n v) = n.
Proof. revert v. induction n as [|n IH]; intros v; cbn; [reflexivity|]. now rewrite IH. Qed.

Lemma get_put_uint n v : get_uint (put_uint n v) = v mod 2 ^ (8 * Z.of_nat n).
Proof.
  revert v. induction n as [|n IH]; intros v; [cbn; now rewrite Z.mod_1_r|].
  cbn [put_uint get_uint]. rewrite IH, byte_val_of, Z.shiftr_div_pow2, Z.shiftl_mul_pow2 by lia.
  replace (8 * Z.of_nat (S n)) with (8 + 8 * Z.of_nat n) by lia. rewrite Z.pow_add_r by lia.
  change (2 ^ 8) with 256. rewrite (Z.rem_mul_r v 256) by lia. lia.
Qed.

Lemma get_put_uint_fits n v : fits (8 * Z.of_nat n) v -> get_uint (put_uint n v) = v.
Proof. intros Hv. rewrite get_put_uint. now apply Z.mod_small. Qed.

Lemma get_uint_fits b : fits (8 * Z.of_nat (length b)) (get_uint b).
Proof.
  induction b as [|x b IH]; [cbn; split; lia|]. cbn [length get_uint]. pose proof (byte_val_bounds x).
  rewrite Z.shiftl_mul_pow2 by lia. change (2 ^ 8) with 256. unfold fits in *.
  replace (8 * Z.of_nat (S (length b))) with (8 + 8 * Z.of_nat (length b)) by lia.
  rewrite Z.pow_add_r by lia. change (2 ^ 8) with 256. lia.
Qed.

Lemma put_get_uint b : put_uint (length b) (get_uint b) = b.
Proof.
  induction b as [|x b IH]; [reflexivity|]. cbn [length get_uint put_uint].
  pose proof (byte_val_bounds x) as Hx. f_equal.
  - unfold byte_of. rewrite Z.shiftl_mul_pow2 by lia. change (2 ^ 8) with 256.
    rewrite Z_mod_plus_full, Z.mod_small by exact Hx. unfold byte_val. rewrite N2Z.id. now rewrite Byte.of_to_N.
  - rewrite Z.shiftr_div_pow2, Z.shiftl_mul_pow2 by lia. change (2 ^ 8) with 256.
    rewrite Z_div_plus_full, Z.div_small, Z.add_0_l by lia. exact IH.
Qed.

#[global] Arguments put_uint : simpl never.
#[global] Arguments get_uint : simpl never.

(** ** [Serializer] and [Deserializer]

    What [Encoder] and [Decoder] rely on: a type has an image, and reading it
    back from the front of a piece gives the value and the number of bytes. *)
Class Serializable (T : Type) := {
  serialize : T -> bytes;
  deserialize : bytes -> option (T * nat);
  valid : T -> Prop;
  serialize_law : forall v rest, valid v -> deserialize (serialize v ++ rest) = Some (v, length (serialize v))
}.

(** The generic templates copy the object: an unsigned integer of [n] bytes. *)
Record uint (n : nat) := UInt { uval : Z }.
Arguments UInt {n} uval.
Arguments uval {n} u.

Definition serialize_uint {n} (v : uint n) : bytes := put_uint n (uval v).
Definition deserialize_uint {n} (str : bytes) : option (uint n * nat) :=
  if (n <=? length str)%nat then Some (UInt (get_uint (take n str)), n) else None.

Lemma deserialize_serialize_uint n (v : Z) rest :
  fits (8 * Z.of_nat n) v -> (deserialize_uint (put_uint n v ++ rest) : option (uint n * nat)) = Some (UInt v, n).
Proof.
  intros Hv. unfold deserialize_uint. rewrite length_app, put_uint_length, (proj2 (Nat.leb_le _ _)) by lia.
  rewrite take_app_length' by now rewrite put_uint_length. now rewrite get_put_uint_fits.
Qed.

#[export] Program Instance uint_serializable n : Serializable (uint n) := {
  serialize := serialize_uint;
  deserialize := deserialize_uint;
  valid v := fits (8 * Z.of_nat n) (uval v)
}.
Next Obligation.
  intros n [v] rest Hv. unfold serialize_uint. rewrite put_uint_length. now apply deserialize_serialize_uint.
Qed.

(** [bool] is one byte. *)
Definition serialize_bool (b : bool) : bytes := [if b then Byte.x01 else Byte.x00].
Definition deserialize_bool (str : bytes) : option (bool * nat) :=
  match str with [] => None | b :: _ => Some (negb (byte_val b =? 0), 1%nat) end.

#[export] Program Instance bool_serializable : Serializable bool := {
  serialize := serialize_bool;
  deserialize := deserialize_bool;
  valid _ := True
}.
Next Obligation. now intros [|]. Qed.

(** [std::string]: the size, then the characters. *)
Definition serialize_string (v : bytes) : bytes := put_uint 8 (Z.of_nat (length v)) ++ v.
Definition deserialize_string (str : bytes) : option (bytes * nat) :=
  '(string_length, size) ← (deserialize_uint str : option (uint 8 * nat));
  let n := Z.to_nat (uval string_length) in
  let str := drop size str in
  if (n <=? length str)%nat then Some (take n str, (size + n)%nat) else None.

#[export] Program Instance string_serializable : Serializable bytes := {
  serialize := serialize_string;
  deserialize := deserialize_string;
  valid v := fits 64 (Z.of_nat (length v))
}.
Next Obligation.
  intros v rest Hv. unfold deserialize_string, serialize_string. rewrite <- app_assoc.
  rewrite deserialize_serialize_uint by exact Hv. cbn [mbind option_bind uval].
  rewrite drop_app_length' by now rewrite put_uint_length. rewrite Nat2Z.id, !length_app, put_uint_length.
  rewrite (proj2 (Nat.leb_le _ _)) by lia. now rewrite take_app_length.
Qed.

(** ** [Encoder] and [Decoder] *)

Definition enc {T} `{Serializable T} (v : T) (b : bytes) : bytes := b ++ serialize v.
Definition write_n_bytes (p : bytes) (b : bytes) : bytes := b ++ p.
Definition replace_bytes_range (offset : nat) (p : bytes) (b : bytes) : bytes :=
  take offset b ++ p ++ drop (offset + length p) b.

Definition dec {T} `{Serializable T} (b : bytes) : option (T * bytes) :=
  '(v, size) ← deserialize b; Some (v, drop size b).
Definition read_n_bytes (size : nat) (b : bytes) : option (bytes * bytes) :=
  if (size <=? length b)%nat then Some (take size b, drop size b) else None.

Lemma dec_serialize {T} `{Serializable T} (v : T) rest :
  valid v -> dec (serialize v ++ rest) = Some (v, rest).
Proof. intros Hv. unfold dec. rewrite serialize_law by exact Hv. cbn. now rewrite drop_app_length. Qed.

Lemma read_n_bytes_app p rest : read_n_bytes (length p) (p ++ rest) = Some (p, rest).
Proof.
  unfold read_n_bytes. rewrite length_app, (proj2 (Nat.leb_le _ _)) by lia.
  now rewrite take_app_length, drop_app_length.
Qed.

(** ** [StringPiece] comparison

    [strncmp]: the characters up to the first difference or NUL, as unsigned. *)
Fixpoint strncmp (a b : bytes) (n : nat) : Z :=
  match n, a, b with
  | S n, x :: a, y :: b =>
      if byte_val x <? byte_val y then -1 else if byte_val y <? byte_val x then 1
      else if byte_val x =? 0 then 0 else strncmp a b n
  | _, _, _ => 0
  end.

Definition compare (a b : bytes) : Z :=
  let minSize := if (length a <? length b)%nat then length a else length b in
  let r := strncmp a b minSize in
  if r <? 0 then -1 else if 0 <? r then 1
  else if (length a <? length b)%nat then -1 else if (length b <? length a)%nat then 1 else 0.

Definition piece_eq (a b : bytes) : bool := compare a b =? 0.

Lemma byte_val_inj x y : byte_val x = byte_val y -> x = y.
Proof. unfold byte_val. intros H%N2Z.inj. apply (f_equal Byte.of_N) in H. rewrite !Byte.of_to_N in H. congruence. Qed.

Lemma strncmp_eq a b :
  Forall (fun x => byte_val x <> 0) a -> length a = length b -> strncmp a b (length a) = 0 -> a = b.
Proof.
  intros Ha. revert b. induction Ha as [|x a Hx _ IH]; intros [|y b]; cbn; try easy. intros [= Hl].
  destruct (Z.ltb_spec (byte_val x) (byte_val y)); [easy|]. destruct (Z.ltb_spec (byte_val y) (byte_val x)); [easy|].
  rewrite (proj2 (Z.eqb_neq _ _) Hx). intros E. rewrite (IH b Hl E). f_equal. apply byte_val_inj. lia.
Qed.

Lemma strncmp_refl a n : strncmp a a n = 0.
Proof.
  revert n. induction a as [|x a IH]; intros [|n]; cbn; try easy. rewrite Z.ltb_irrefl. now destruct (_ =? _).
Qed.

Lemma strncmp_range a b n : strncmp a b n = -1 \/ strncmp a b n = 0 \/ strncmp a b n = 1.
Proof.
  revert a b. induction n as [|n IH]; intros [|x a] [|y b]; cbn; auto.
  destruct (_ <? _); auto. destruct (_ <? _); auto. destruct (_ =? _); auto.
Qed.

(** [StringPiece] equality is equality of the bytes as long as there is no
    NUL among them, the texts its [strncmp] is made for. *)
Theorem piece_eq_text a b :
  Forall (fun x => byte_val x <> 0) a -> piece_eq a b = true <-> a = b.
Proof.
  intros Ha. unfold piece_eq, compare. split.
  - destruct (Nat.ltb_spec (length a) (length b)) as [H1|H1].
    { destruct (strncmp_range a b (length a)) as [-> | [-> | ->]]; easy. }
    destruct (Nat.ltb_spec (length b) (length a)) as [H2|H2].
    { destruct (strncmp_range a b (length b)) as [-> | [-> | ->]]; easy. }
    assert (length b = length a) as Hl by lia. rewrite Hl.
    destruct (strncmp_range a b (length a)) as [E|[E|E]]; rewrite E; [easy| |easy]. intros _. now apply strncmp_eq.
  - intros <-. rewrite Nat.ltb_irrefl, strncmp_refl. reflexivity.
Qed.

(** On binary data it is not: the comparison stops at the first NUL. *)
Theorem piece_eq_binary :
  exists a b, piece_eq a b = true /\ a <> b.
Proof. exists [Byte.x00; Byte.x01], [Byte.x00; Byte.x02]. split; [reflexivity|discriminate]. Qed.
End Wire.
