(* ===== verification/Message.v ===== *)
(** * [Message] and [MessagePiece]

    common/MessagePiece.h and common/Message.h: a message is a string of bytes,
    a 56-byte prefix (header word, 0xDEADBEEF, ids and time stamps) and then the
    message pieces, each with a header word of its own.  [MessagePiece] and
    [Message] are the classes; [append_piece] is what every message factory does
    to add a piece, and the iterator is what every message handler loop runs.
    The time stamps kept outside of the bytes are not modelled. *)

From S2P Require Import Prelude Wire.
Import Wire.

Module MessagePiece.

Definition MESSAGE_TYPE_MASK : Z := 0x7f.
Definition MESSAGE_TYPE_OFFSET : Z := 30 + 5 + 20 + 2.
Definition MESSAGE_LENGTH_MASK : Z := 0x3fffff.
Definition MESSAGE_LENGTH_OFFSET : Z := 30 + 5.
Definition TABLE_ID_MASK : Z := 0x1f.
Definition TABLE_ID_OFFSET : Z := 30.
Definition GRANULE_ID_MASK : Z := 0x3ffff.
Definition GRANULE_ID_OFFSET : Z := 12.
Definition PARTITION_ID_MASK : Z := 0xfff.
Definition PARTITION_ID_OFFSET : Z := 0.

Definition get_header_size : nat := 8.

(** The static functions on a header word. *)
Definition construct_message_piece_header (message_type message_length table_id partition_id granule_id : Z) : Z :=
  wrap 64 (wrap 64 (Z.shiftl message_type MESSAGE_TYPE_OFFSET)
    + wrap 64 (Z.shiftl message_length MESSAGE_LENGTH_OFFSET)
    + wrap 64 (Z.shiftl table_id TABLE_ID_OFFSET) + wrap 64 (Z.shiftl granule_id GRANULE_ID_OFFSET)
    + wrap 64 (Z.shiftl partition_id PARTITION_ID_OFFSET)).

Definition header_length (header : Z) : Z := Z.land (Z.shiftr header MESSAGE_LENGTH_OFFSET) MESSAGE_LENGTH_MASK.

(** The members; the piece is the bytes of its [stringPiece]. *)
Definition get_header (p : bytes) : Z := get_uint (take 8 p).
Definition get_message_type (p : bytes) : Z := Z.land (Z.shiftr (get_header p) MESSAGE_TYPE_OFFSET) MESSAGE_TYPE_MASK.
Definition get_message_length (p : bytes) : Z := Z.land (Z.shiftr (get_header p) MESSAGE_LENGTH_OFFSET) MESSAGE_LENGTH_MASK.
Definition get_table_id (p : bytes) : Z := Z.land (Z.shiftr (get_header p) TABLE_ID_OFFSET) TABLE_ID_MASK.
Definition get_partition_id (p : bytes) : Z := Z.land (Z.shiftr (get_header p) PARTITION_ID_OFFSET) PARTITION_ID_MASK.
Definition get_granule_id (p : bytes) : Z := Z.land (Z.shiftr (get_header p) GRANULE_ID_OFFSET) GRANULE_ID_MASK.

Definition toStringPiece (p : bytes) : bytes :=
  take (Z.to_nat (get_message_length p) - get_header_size) (drop get_header_size p).

(** The fields of a header. *)
Record fields := Fields { f_type : Z; f_length : Z; f_table : Z; f_granule : Z; f_partition : Z }.

Definition fields_ok (f : fields) : Prop :=
  fits 7 (f_type f) /\ fits 22 (f_length f) /\ fits 5 (f_table f) /\ fits 18 (f_granule f) /\ fits 12 (f_partition f).

Definition header_of (f : fields) : Z :=
  construct_message_piece_header (f_type f) (f_length f) (f_table f) (f_partition f) (f_granule f).

Definition header_fields (h : Z) : fields :=
  Fields (getf 57 7 h) (getf 35 22 h) (getf 30 5 h) (getf 12 18 h) (getf 0 12 h).

(** A field above everything set so far. *)
Lemma setf_above off n v w :
  0 <= off -> 0 <= n -> fits n v -> fits off w ->
  setf off n v w = w + v * 2 ^ off /\ fits (off + n) (setf off n v w).
Proof.
  intros Ho Hn Hv Hw.
  assert (setf off n v w = w + v * 2 ^ off) as E.
  { rewrite setf_add by easy. f_equal. pose proof (field_split off n w Ho Hn) as Hs.
    assert (getf off n w = 0) as Hz by (unfold getf; rewrite Z.shiftr_div_pow2, Z.div_small, Z.land_0_l by easy; easy).
    rewrite Hz in Hs. lia. }
  split; [exact E|]. rewrite E. unfold fits in *. rewrite Z.pow_add_r by lia.
  pose proof (Z.pow_pos_nonneg 2 off ltac:(lia) Ho). pose proof (Z.pow_pos_nonneg 2 n ltac:(lia) Hn). nia.
Qed.

Lemma header_setf f : fields_ok f ->
  header_of f = setf 57 7 (f_type f) (setf 35 22 (f_length f) (setf 30 5 (f_table f) (setf 12 18 (f_granule f) (f_partition f))))
  /\ fits 64 (header_of f).
Proof.
  destruct f as [ty len tb gr pt]. intros (Ht & Hl & Htb & Hg & Hp). unfold header_of, construct_message_piece_header. cbn in Ht, Hl, Htb, Hg, Hp.
  cbn [f_type f_length f_table f_granule f_partition].
  change MESSAGE_TYPE_OFFSET with 57. change MESSAGE_LENGTH_OFFSET with 35. change TABLE_ID_OFFSET with 30.
  change GRANULE_ID_OFFSET with 12. change PARTITION_ID_OFFSET with 0.
  destruct (setf_above 12 18 gr pt) as [E1 F1]; try easy. destruct (setf_above 30 5 tb _ ltac:(lia) ltac:(lia) Htb F1) as [E2 F2].
  destruct (setf_above 35 22 len _ ltac:(lia) ltac:(lia) Hl F2) as [E3 F3]. destruct (setf_above 57 7 ty _ ltac:(lia) ltac:(lia) Ht F3) as [E4 F4].
  rewrite !Z.shiftl_mul_pow2 by lia. unfold fits in *. cbn in Ht, Hl, Htb, Hg, Hp.
  rewrite !(wrap_small 64) by (unfold fits; try (rewrite !wrap_small by (unfold fits; lia)); lia).
  change (57 + 7) with 64 in F4. lia.
Qed.

(** The getters on a header word that was constructed. *)
Lemma header_fields_of f : fields_ok f -> header_fields (header_of f) = f.
Proof.
  intros Hf. destruct (header_setf f Hf) as [-> _]. destruct f as [ty len tb gr pt]. destruct Hf as (Ht & Hl & Htb & Hg & Hp).
  cbn in *. unfold header_fields. Prelude.fields. f_equal. unfold getf. rewrite Z.shiftr_0_r, Z.land_ones by lia. now apply Z.mod_small.
Qed.

Lemma getters_header p :
  Fields (get_message_type p) (get_message_length p) (get_table_id p) (get_granule_id p) (get_partition_id p)
  = header_fields (get_header p).
Proof. reflexivity. Qed.

(** ** A piece as the factories write it *)
Definition piece (f : fields) (payload : bytes) : bytes := put_uint 8 (header_of f) ++ payload.

Definition piece_ok (f : fields) (payload : bytes) : Prop :=
  fields_ok f /\ f_length f = Z.of_nat (get_header_size + length payload).

Lemma piece_header f payload rest :
  fields_ok f -> get_header (piece f payload ++ rest) = header_of f.
Proof.
  intros Hf. unfold get_header, piece. rewrite <- app_assoc, take_app_length' by now rewrite put_uint_length.
  apply get_put_uint_fits. now apply header_setf.
Qed.

(** What the getters read from a piece. *)
Definition piece_fields (p : bytes) : fields :=
  Fields (get_message_type p) (get_message_length p) (get_table_id p) (get_granule_id p) (get_partition_id p).

Lemma piece_getters f payload rest : fields_ok f -> piece_fields (piece f payload ++ rest) = f.
Proof. intros Hf. unfold piece_fields. rewrite getters_header, piece_header by exact Hf. now apply header_fields_of. Qed.

Lemma piece_length f payload : length (piece f payload) = (8 + length payload)%nat.
Proof. unfold piece. now rewrite length_app, put_uint_length. Qed.

Lemma piece_payload f payload : piece_ok f payload -> toStringPiece (piece f payload) = payload.
Proof.
  intros [Hf Hl]. unfold toStringPiece.
  assert (get_message_length (piece f payload) = f_length f) as ->.
  { pose proof (piece_getters f payload [] Hf) as E. rewrite app_nil_r in E. exact (f_equal f_length E). }
  rewrite Hl, Nat2Z.id. unfold piece. rewrite drop_app_length' by now rewrite put_uint_length.
  rewrite take_ge by (unfold get_header_size; lia). reflexivity.
Qed.
End MessagePiece.

(** ** The header word of a message *)
Module Header.

Definition SOURCE_NODE_ID_MASK : Z := 0x7f.
Definition SOURCE_NODE_ID_OFFSET : Z := 57.
Definition DEST_NODE_ID_MASK : Z := 0x7f.
Definition DEST_NODE_ID_OFFSET : Z := 50.
Definition WORKER_ID_MASK : Z := 0xff.
Definition WORKER_ID_OFFSET : Z := 42.
Definition MESSAGE_COUNT_MASK : Z := 0x7fff.
Definition MESSAGE_COUNT_OFFSET : Z := 27.
Definition MESSAGE_LENGTH_MASK : Z := 0x3ffffff.
Definition MESSAGE_LENGTH_OFFSET : Z := 1.
Definition IS_REPLICA_MASK : Z := 0x1.
Definition IS_REPLICA_OFFSET : Z := 0.

Definition clear_field (mask off w : Z) : Z := Z.land w (not64 (Z.shiftl mask off)).
Definition or_field (v off w : Z) : Z := Z.lor w (wrap 64 (Z.shiftl v off)).
Definition get_field (off mask w : Z) : Z := Z.land (Z.shiftr w off) mask.

Definition clear_is_replica_bit : Z -> Z := clear_field IS_REPLICA_MASK IS_REPLICA_OFFSET.
Definition clear_source_node_id : Z -> Z := clear_field SOURCE_NODE_ID_MASK SOURCE_NODE_ID_OFFSET.
Definition clear_dest_node_id : Z -> Z := clear_field DEST_NODE_ID_MASK DEST_NODE_ID_OFFSET.
Definition clear_worker_id : Z -> Z := clear_field WORKER_ID_MASK WORKER_ID_OFFSET.
Definition clear_message_count : Z -> Z := clear_field MESSAGE_COUNT_MASK MESSAGE_COUNT_OFFSET.
Definition clear_message_length : Z -> Z := clear_field MESSAGE_LENGTH_MASK MESSAGE_LENGTH_OFFSET.

Definition set_is_replica (is_replica : bool) (w : Z) : Z :=
  or_field (Z.b2z is_replica) IS_REPLICA_OFFSET (clear_source_node_id w).
Definition set_source_node_id (source_node_id w : Z) : Z :=
  or_field source_node_id SOURCE_NODE_ID_OFFSET (clear_source_node_id w).
Definition set_dest_node_id (dest_node_id w : Z) : Z :=
  or_field dest_node_id DEST_NODE_ID_OFFSET (clear_dest_node_id w).
Definition set_worker_id (worker_id w : Z) : Z := or_field worker_id WORKER_ID_OFFSET (clear_worker_id w).
Definition set_message_count (message_count w : Z) : Z :=
  or_field message_count MESSAGE_COUNT_OFFSET (clear_message_count w).
Definition set_message_length (message_length w : Z) : Z :=
  or_field message_length MESSAGE_LENGTH_OFFSET (clear_message_length w).

Definition get_is_replica : Z -> Z := get_field IS_REPLICA_OFFSET IS_REPLICA_MASK.
Definition get_source_node_id : Z -> Z := get_field SOURCE_NODE_ID_OFFSET SOURCE_NODE_ID_MASK.
Definition get_dest_node_id : Z -> Z := get_field DEST_NODE_ID_OFFSET DEST_NODE_ID_MASK.
Definition get_worker_id : Z -> Z := get_field WORKER_ID_OFFSET WORKER_ID_MASK.
Definition get_message_count : Z -> Z := get_field MESSAGE_COUNT_OFFSET MESSAGE_COUNT_MASK.
Definition get_message_length : Z -> Z := get_field MESSAGE_LENGTH_OFFSET MESSAGE_LENGTH_MASK.

(** What a header says. *)
Record view := View { v_source : Z; v_dest : Z; v_worker : Z; v_count : Z; v_length : Z; v_replica : Z }.

Definition view_of (w : Z) : view :=
  View (get_source_node_id w) (get_dest_node_id w) (get_worker_id w) (get_message_count w) (get_message_length w) (get_is_replica w).

Lemma set_field_setf n off v w :
  0 <= n -> 0 <= off -> off + n <= 64 -> fits n v -> fits 64 w ->
  or_field v off (clear_field (Z.ones n) off w) = setf off n v w.
Proof.
  intros Hn Ho Hon Hv Hw. unfold or_field, clear_field, setf. rewrite land_not64 by exact Hw. f_equal.
  apply wrap_small. unfold fits in *. rewrite Z.shiftl_mul_pow2 by exact Ho. split; [pose proof (Z.pow_nonneg 2 off); nia|].
  replace 64 with (n + (64 - n)) by lia. rewrite Z.pow_add_r by lia.
  pose proof (Z.pow_le_mono_r 2 off (64 - n)). pose proof (Z.pow_pos_nonneg 2 off). nia.
Qed.

Lemma view_getf w :
  view_of w = View (getf 57 7 w) (getf 50 7 w) (getf 42 8 w) (getf 27 15 w) (getf 1 26 w) (getf 0 1 w).
Proof. reflexivity. Qed.

Section setters.
Context (w : Z) (Hw : fits 64 w).

Lemma set_source_setf v : fits 7 v -> set_source_node_id v w = setf 57 7 v w.
Proof using Hw. intros. now apply (set_field_setf 7). Qed.
Lemma set_dest_setf v : fits 7 v -> set_dest_node_id v w = setf 50 7 v w.
Proof using Hw. intros. now apply (set_field_setf 7). Qed.
Lemma set_worker_setf v : fits 8 v -> set_worker_id v w = setf 42 8 v w.
Proof using Hw. intros. now apply (set_field_setf 8). Qed.
Lemma set_count_setf v : fits 15 v -> set_message_count v w = setf 27 15 v w.
Proof using Hw. intros. now apply (set_field_setf 15). Qed.
Lemma set_length_setf v : fits 26 v -> set_message_length v w = setf 1 26 v w.
Proof using Hw. intros. now apply (set_field_setf 26). Qed.
End setters.

(** Each setter of the header changes the field it names, and no other,
    when its argument is in the field's range. *)
Theorem header_setters w src dst wid cnt len :
  fits 64 w -> fits 7 src -> fits 7 dst -> fits 8 wid -> fits 15 cnt -> fits 26 len ->
  let v := view_of w in
  view_of (set_source_node_id src w) = View src (v_dest v) (v_worker v) (v_count v) (v_length v) (v_replica v) /\
  view_of (set_dest_node_id dst w) = View (v_source v) dst (v_worker v) (v_count v) (v_length v) (v_replica v) /\
  view_of (set_worker_id wid w) = View (v_source v) (v_dest v) wid (v_count v) (v_length v) (v_replica v) /\
  view_of (set_message_count cnt w) = View (v_source v) (v_dest v) (v_worker v) cnt (v_length v) (v_replica v) /\
  view_of (set_message_length len w) = View (v_source v) (v_dest v) (v_worker v) (v_count v) len (v_replica v).
Proof.
  intros Hw H1 H2 H3 H4 H5. rewrite set_source_setf, set_dest_setf, set_worker_setf, set_count_setf, set_length_setf by assumption.
  rewrite !view_getf. cbn. split_and!; f_equal; now Prelude.fields.
Qed.

Lemma header_setters_witness :
  view_of (set_dest_node_id 5 (set_source_node_id 3 0)) = View 3 5 0 0 0 0.
Proof.
  rewrite (proj1 (proj2 (header_setters (set_source_node_id 3 0) 0 5 0 0 0
    ltac:(now vm_compute) ltac:(now vm_compute) ltac:(now vm_compute) ltac:(now vm_compute) ltac:(now vm_compute) ltac:(now vm_compute)))).
  reflexivity.
Defined.

Lemma lor_1_setf x : Z.lor x 1 = setf 0 1 1 x.
Proof.
  apply Z.bits_inj'. intros i Hi. rewrite setf_testbit by (try lia; now vm_compute). rewrite Z.lor_spec.
  change 1 with (Z.ones 1) at 1. rewrite testbit_ones by lia. destruct (Z.leb_spec 0 i); [|lia].
  rewrite Z.add_0_l, Z.sub_0_r. cbn [andb].
  destruct (Z.ltb_spec i 1); [|apply orb_false_r]. assert (i = 0) as -> by lia. apply orb_true_r.
Qed.

Lemma set_is_replica_setf b w :
  fits 64 w -> set_is_replica b w = if b then setf 0 1 1 (setf 57 7 0 w) else setf 57 7 0 w.
Proof.
  intros Hw. unfold set_is_replica, or_field, clear_source_node_id, clear_field.
  change SOURCE_NODE_ID_MASK with (Z.ones 7). change SOURCE_NODE_ID_OFFSET with 57. rewrite clear_setf by exact Hw.
  destruct b; [apply lor_1_setf|apply Z.lor_0_r].
Qed.

(** [set_is_replica] clears the source node instead of the replica bit: the
    source is lost, and the bit cannot be reset. *)
Theorem set_is_replica_clears_source w b src :
  fits 64 w -> fits 7 src ->
  get_source_node_id (set_is_replica b (set_source_node_id src w)) = 0 /\
  get_is_replica (set_is_replica false (set_is_replica true w)) = 1.
Proof.
  intros Hw Hs. rewrite set_source_setf by assumption.
  rewrite (set_is_replica_setf b (setf 57 7 src w)) by (now apply setf_fits).
  rewrite (set_is_replica_setf true w) by exact Hw.
  rewrite (set_is_replica_setf false) by (repeat apply setf_fits; try assumption; try lia; now vm_compute).
  change (get_source_node_id) with (getf 57 7). change (get_is_replica) with (getf 0 1).
  destruct b; Prelude.fields; auto.
Qed.

(** The length field has 26 bits: a longer message loses its top bit to the
    lowest bit of the count. *)
Theorem long_message_length w len :
  fits 64 w -> 2 ^ 26 <= len < 2 ^ 27 ->
  get_message_length (set_message_length len w) = len - 2 ^ 26 /\
  Z.testbit (get_message_count (set_message_length len w)) 0 = true.
Proof.
  intros Hw Hlen. change get_message_length with (getf 1 26). change get_message_count with (getf 27 15).
  assert (E : set_message_length len w = Z.lor (setf 1 26 0 w) (Z.shiftl len 1)).
  { unfold set_message_length, or_field, clear_message_length, clear_field.
    change MESSAGE_LENGTH_MASK with (Z.ones 26). change MESSAGE_LENGTH_OFFSET with 1. rewrite clear_setf by exact Hw.
    rewrite wrap_small; [reflexivity|]. rewrite Z.shiftl_mul_pow2 by lia. split; lia. }
  assert (Ht : Z.testbit len 26 = true).
  { apply Z.testbit_true; [lia|]. replace (len / 2 ^ 26) with 1; [reflexivity|]. apply Z.div_unique with (len - 2 ^ 26); lia. }
  rewrite E. split.
  - assert (Hm : len - 2 ^ 26 = len mod 2 ^ 26) by (apply Z.mod_unique with 1; lia). rewrite Hm.
    apply Z.bits_inj'. intros i Hi. rewrite getf_testbit by lia. rewrite Z.lor_spec, setf_testbit by (try lia; now vm_compute).
    rewrite Z.shiftl_spec, Z.bits_0 by lia. destruct (Z.ltb_spec i 26); cbn.
    + rewrite (proj2 (Z.leb_le _ _)), (proj2 (Z.ltb_lt _ _)), Z.mod_pow2_bits_low by lia. cbn. f_equal. lia.
    + now rewrite Z.mod_pow2_bits_high by lia.
  - rewrite getf_testbit, Z.lor_spec, Z.shiftl_spec by lia. change (0 + 27 - 1) with 26. rewrite Ht, orb_true_r. reflexivity.
Qed.
End Header.

(** ** Messages: the string [data] *)
Module Message.

Definition DEADBEEF : Z := 0xDEADBEEF.

(** [sizeof(header) + sizeof(deadbeef) + sizeof(worker id) + sizeof(transaction id)
    + 4 * sizeof(uint64_t)]. *)
Definition get_prefix_size : nat := 8 + 4 + 4 + 8 + 8 * 4.

Definition get_at (off n : nat) (data : bytes) : Z := get_uint (take n (drop off data)).
Definition put_at (off n : nat) (v : Z) (data : bytes) : bytes := replace_bytes_range off (put_uint n v) data.

Definition get_header_ref (data : bytes) : Z := get_at 0 8 data.
Definition mod_header (f : Z -> Z) (data : bytes) : bytes := put_at 0 8 (f (get_header_ref data)) data.
Definition get_deadbeef (data : bytes) : Z := get_at 8 4 data.
Definition set_deadbeef (data : bytes) : bytes := put_at 8 4 DEADBEEF data.

Definition set_source_node_id (v : Z) : bytes -> bytes := mod_header (Header.set_source_node_id v).
Definition set_dest_node_id (v : Z) : bytes -> bytes := mod_header (Header.set_dest_node_id v).
Definition set_worker_id (v : Z) : bytes -> bytes := mod_header (Header.set_worker_id v).
Definition set_message_count (v : Z) : bytes -> bytes := mod_header (Header.set_message_count v).
Definition set_message_length (v : Z) : bytes -> bytes := mod_header (Header.set_message_length v).
Definition get_source_node_id (data : bytes) : Z := Header.get_source_node_id (get_header_ref data).
Definition get_dest_node_id (data : bytes) : Z := Header.get_dest_node_id (get_header_ref data).
Definition get_worker_id (data : bytes) : Z := Header.get_worker_id (get_header_ref data).
Definition get_message_count (data : bytes) : Z := Header.get_message_count (get_header_ref data).
Definition get_message_length (data : bytes) : Z := Header.get_message_length (get_header_ref data).

Definition get_source_cluster_worker_id (data : bytes) : Z := get_at 12 4 data.
Definition set_source_cluster_worker_id (id : Z) : bytes -> bytes := put_at 12 4 id.
Definition get_transaction_id (data : bytes) : Z := get_at 16 8 data.
Definition set_transaction_id (tid : Z) : bytes -> bytes := put_at 16 8 tid.
Definition get_message_gen_time (data : bytes) : Z := get_at 24 8 data.
Definition set_message_gen_time (t : Z) : bytes -> bytes := put_at 24 8 t.
Definition get_message_send_time (data : bytes) : Z := get_at 32 8 data.
Definition set_message_send_time (t : Z) : bytes -> bytes := put_at 32 8 t.
Definition get_message_recv_time (data : bytes) : Z := get_at 40 8 data.
Definition set_message_recv_time (t : Z) : bytes -> bytes := put_at 40 8 t.
Definition get_message_resp_time (data : bytes) : Z := get_at 48 8 data.
Definition set_message_resp_time (t : Z) : bytes -> bytes := put_at 48 8 t.

Definition size (data : bytes) : Z := Z.of_nat (length data).

(** The constructor, and [clear()], which rebuilds the same string. *)
Definition new_message : bytes :=
  let data := replicate get_prefix_size Byte.x00 in set_deadbeef (set_message_length (size data) data).
Definition clear (data : bytes) : bytes := new_message.

Definition string_resize (n : nat) (data : bytes) : bytes :=
  take n data ++ replicate (n - length data) Byte.x00.

Definition resize (n : nat) (data : bytes) : bytes :=
  let data := string_resize n data in set_deadbeef (set_message_length (size data) data).

Definition clear_message_pieces (data : bytes) : bytes :=
  let data := string_resize get_prefix_size data in
  set_deadbeef (set_message_count 0 (set_message_length (size data) data)).

Definition flush (data : bytes) : bytes :=
  let message_count := get_message_count data in
  set_message_length (size data) (set_message_count (wrap 64 (message_count + 1)) data).

Definition check_size (data : bytes) : bool := get_message_length data =? size data.
Definition check_deadbeef (data : bytes) : bool := get_deadbeef data =? DEADBEEF.

(** What a message factory does: the header of the piece, its payload, [flush]. *)
Definition append_piece (f : MessagePiece.fields) (payload data : bytes) : bytes :=
  flush (write_n_bytes payload (enc (UInt (MessagePiece.header_of f) : uint 8) data)).

(** ** The iterator

    [get_message_piece] at an offset; [None] when the header or the piece does
    not lie in the string. *)
Definition get_message_piece (data : bytes) (ptr : nat) : option bytes :=
  if (ptr =? length data)%nat then Some []
  else if (ptr + 8 <=? length data)%nat then
    let len := Z.to_nat (MessagePiece.header_length (get_at ptr 8 data)) in
    if (ptr + len <=? length data)%nat then Some (take len (drop ptr data)) else None
  else None.

(** [for (auto it = begin(); it != end(); it++)]: the pieces it visits. *)
Fixpoint pieces_from (fuel : nat) (data : bytes) (ptr : nat) : option (list bytes) :=
  match fuel with
  | O => None
  | S fuel =>
      p ← get_message_piece data ptr;
      if piece_eq p [] then Some []
      else
        rest ← pieces_from fuel data (ptr + Z.to_nat (MessagePiece.header_length (get_at ptr 8 data)));
        Some (p :: rest)
  end.
Definition pieces (data : bytes) : option (list bytes) := pieces_from (S (length data)) data get_prefix_size.

(** ** Lemmas on the prefix *)

Lemma put_at_length off n v data : (off + n <= length data)%nat -> length (put_at off n v data) = length data.
Proof.
  intros H. unfold put_at, replace_bytes_range. rewrite !length_app, put_uint_length, length_take, length_drop. lia.
Qed.

Lemma get_put_at off n v data :
  (off + n <= length data)%nat -> fits (8 * Z.of_nat n) v -> get_at off n (put_at off n v data) = v.
Proof.
  intros H Hv. unfold get_at, put_at, replace_bytes_range.
  rewrite drop_app_length' by (rewrite length_take; lia). rewrite take_app_length' by now rewrite put_uint_length.
  now apply get_put_uint_fits.
Qed.

Lemma get_at_app off n data rest : (off + n <= length data)%nat -> get_at off n (data ++ rest) = get_at off n data.
Proof. intros H. unfold get_at. rewrite drop_app_le by lia. rewrite take_app_le by (rewrite length_drop; lia). reflexivity. Qed.

Lemma put_at_app off n v data rest : (off + n <= length data)%nat -> put_at off n v (data ++ rest) = put_at off n v data ++ rest.
Proof.
  intros H. unfold put_at, replace_bytes_range. rewrite put_uint_length, take_app_le, drop_app_le by lia. now rewrite <- !app_assoc.
Qed.

Lemma get_put_at_ne off n off' n' v data :
  (off + n <= off' \/ off' + n' <= off)%nat -> (off' + n' <= length data)%nat ->
  get_at off n (put_at off' n' v data) = get_at off n data.
Proof.
  intros Hd Hl. unfold get_at, put_at, replace_bytes_range. rewrite put_uint_length. f_equal. destruct Hd as [Hd|Hd].
  - rewrite drop_app_le by (rewrite length_take; lia). rewrite take_app_le by (rewrite length_drop, length_take; lia).
    rewrite skipn_firstn_comm, take_take. f_equal. lia.
  - rewrite drop_app_ge by (rewrite length_take; lia). rewrite length_take, drop_app_ge by (rewrite put_uint_length; lia).
    rewrite put_uint_length, drop_drop. do 2 f_equal. lia.
Qed.

Lemma get_header_fits data : (8 <= length data)%nat -> fits 64 (get_header_ref data).
Proof.
  intros H. unfold get_header_ref, get_at. rewrite drop_0. pose proof (get_uint_fits (take 8 data)) as Hf.
  now rewrite length_take, Nat.min_l in Hf by lia.
Qed.

Lemma mod_header_get f data :
  (8 <= length data)%nat -> fits 64 (f (get_header_ref data)) -> get_header_ref (mod_header f data) = f (get_header_ref data).
Proof. intros Hl Hf. now apply get_put_at. Qed.

Lemma mod_header_drop f data n : (8 <= length data)%nat -> (8 <= n)%nat -> drop n (mod_header f data) = drop n data.
Proof.
  intros Hl Hn. unfold mod_header, put_at, replace_bytes_range. rewrite put_uint_length. rewrite take_0, app_nil_l, Nat.add_0_l.
  rewrite drop_app_ge by (rewrite put_uint_length; lia). rewrite put_uint_length, drop_drop. f_equal. lia.
Qed.

Lemma mod_header_length f data : (8 <= length data)%nat -> length (mod_header f data) = length data.
Proof. intros. now apply put_at_length. Qed.

(** [flush] counts the piece and records the length; the rest is unchanged. *)
Lemma flush_spec data :
  (get_prefix_size <= length data)%nat -> size data < 2 ^ 26 -> get_message_count data + 1 < 2 ^ 15 ->
  let v := Header.view_of (get_header_ref data) in
  Header.view_of (get_header_ref (flush data)) =
    Header.View (Header.v_source v) (Header.v_dest v) (Header.v_worker v) (Header.v_count v + 1) (size data) (Header.v_replica v) /\
  (forall n, (8 <= n)%nat -> drop n (flush data) = drop n data) /\ length (flush data) = length data.
Proof.
  intros Hl Hs Hc. unfold get_prefix_size in Hl. pose proof (get_header_fits data ltac:(lia)) as Hh.
  assert (0 <= get_message_count data) as Hc0 by (apply (getf_fits 27 15); lia).
  assert (0 <= size data) as Hs0 by (unfold size; lia).
  assert (fits 15 (get_message_count data + 1)) as F1 by (split; lia). assert (fits 26 (size data)) as F2 by (split; lia).
  unfold flush. rewrite (wrap_small 64) by (split; lia). unfold set_message_count, set_message_length.
  set (c := get_message_count data + 1) in *.
  assert (F3 : fits 64 (setf 27 15 c (get_header_ref data))) by (apply setf_fits; (lia || assumption)).
  assert (F4 : fits 64 (setf 1 26 (size data) (setf 27 15 c (get_header_ref data)))) by (apply setf_fits; (lia || assumption)).
  assert (E1 : get_header_ref (mod_header (Header.set_message_count c) data) = setf 27 15 c (get_header_ref data)).
  { rewrite mod_header_get; rewrite ?Header.set_count_setf by assumption; [reflexivity|lia|exact F3]. }
  assert (L1 : length (mod_header (Header.set_message_count c) data) = length data) by (apply mod_header_length; lia).
  rewrite mod_header_get; rewrite ?E1, ?Header.set_length_setf by assumption; [|lia|exact F4].
  rewrite !Header.view_getf. cbn [Header.v_source Header.v_dest Header.v_worker Header.v_count Header.v_replica].
  change (getf 27 15 (get_header_ref data) + 1) with c. split_and!.
  - f_equal; Prelude.fields; reflexivity.
  - intros n Hn. rewrite !mod_header_drop by lia. reflexivity.
  - rewrite mod_header_length by lia. exact L1.
Qed.

(** A message with the pieces [ps]. *)
Record holds (data : bytes) (ps : list bytes) (src dst wid rep : Z) : Prop := Holds {
  h_prefix : (get_prefix_size <= length data)%nat;
  h_view : Header.view_of (get_header_ref data) = Header.View src dst wid (Z.of_nat (length ps)) (size data) rep;
  h_deadbeef : check_deadbeef data = true;
  h_pieces : drop get_prefix_size data = concat ps
}.

Lemma new_message_holds : holds new_message [] 0 0 0 0.
Proof. now constructor; vm_compute; repeat constructor. Qed.

Lemma append_holds data ps src dst wid rep f payload :
  holds data ps src dst wid rep -> size data + 8 + size payload < 2 ^ 26 -> Z.of_nat (length ps) + 1 < 2 ^ 15 ->
  holds (append_piece f payload data) (ps ++ [MessagePiece.piece f payload]) src dst wid rep.
Proof.
  intros [H1 H2 H3 H4] Hs Hn. unfold append_piece, write_n_bytes, enc. cbn [serialize uint_serializable].
  unfold serialize_uint. cbn [uval]. rewrite <- app_assoc. fold (MessagePiece.piece f payload).
  pose proof (MessagePiece.piece_length f payload) as Hpl. set (p := MessagePiece.piece f payload) in *.
  pose proof H1 as H1'. unfold get_prefix_size in H1'.
  assert (Hh : get_header_ref (data ++ p) = get_header_ref data) by (apply get_at_app; lia).
  destruct (flush_spec (data ++ p)) as (E1 & E2 & E3).
  - rewrite length_app. lia.
  - unfold size in *. rewrite length_app. lia.
  - unfold get_message_count. rewrite Hh. apply (f_equal Header.v_count) in H2. cbn in H2. unfold get_message_count in H2. rewrite H2. lia.
  - constructor.
    + rewrite E3, length_app. lia.
    + rewrite E1, Hh, H2. cbn. f_equal; [rewrite length_app; cbn; lia|]. unfold size. now rewrite E3.
    + unfold check_deadbeef, get_deadbeef, get_at in *. rewrite E2, drop_app_le by lia.
      rewrite take_app_le by (rewrite length_drop; lia). exact H3.
    + rewrite E2, drop_app_le, H4, concat_app by (unfold get_prefix_size in *; lia). cbn. now rewrite app_nil_r.
Qed.

Lemma piece_eq_nil p : piece_eq p [] = true <-> p = [].
Proof. split; [|now intros ->]. destruct p; [easy|]. unfold piece_eq, compare. cbn. easy. Qed.

(** The iterator visits the pieces that follow an offset. *)
Lemma pieces_from_concat ps : forall fuel pre,
  Forall (fun p => exists f payload, p = MessagePiece.piece f payload /\ MessagePiece.piece_ok f payload) ps ->
  (length ps < fuel)%nat -> pieces_from fuel (pre ++ concat ps) (length pre) = Some ps.
Proof.
  induction ps as [|p ps IH]; intros [|fuel] pre Hps Hf; cbn in Hf; try lia.
  - cbn. unfold get_message_piece. cbn. rewrite app_nil_r, Nat.eqb_refl. reflexivity.
  - apply Forall_cons in Hps as [(f & payload & -> & Hok) Hps]. cbn [pieces_from concat].
    pose proof (MessagePiece.piece_length f payload) as Hpl.
    assert (Hlen : Z.to_nat (MessagePiece.header_length (get_at (length pre) 8 (pre ++ MessagePiece.piece f payload ++ concat ps)))
      = length (MessagePiece.piece f payload)).
    { unfold get_at. rewrite drop_app_length. fold (MessagePiece.get_header (MessagePiece.piece f payload ++ concat ps)).
      destruct Hok as [Hf1 Hf2]. rewrite MessagePiece.piece_header by exact Hf1.
      pose proof (f_equal MessagePiece.f_length (MessagePiece.header_fields_of f Hf1)) as E. cbn in E.
      unfold MessagePiece.header_length. unfold getf in E. change MessagePiece.MESSAGE_LENGTH_OFFSET with 35.
      change MessagePiece.MESSAGE_LENGTH_MASK with (Z.ones 22). rewrite E, Hf2, Nat2Z.id, Hpl. reflexivity. }
    unfold get_message_piece. rewrite Hlen. rewrite !length_app, Hpl.
    rewrite (proj2 (Nat.eqb_neq _ _)), !(proj2 (Nat.leb_le _ _)) by lia. cbn [mbind option_bind].
    rewrite drop_app_length, take_app_length' by now rewrite Hpl.
    destruct (piece_eq _ []) eqn:Ep; [apply piece_eq_nil in Ep; rewrite Ep in Hpl; cbn in Hpl; lia|].
    specialize (IH fuel (pre ++ MessagePiece.piece f payload) Hps ltac:(lia)).
    rewrite length_app, Hpl, <- app_assoc in IH. rewrite IH. reflexivity.
Qed.

(** The sender's ids; the pieces are not touched. *)
Lemma set_ids_holds data ps s d w r src dst wid :
  holds data ps s d w r -> fits 7 src -> fits 7 dst -> fits 8 wid ->
  holds (set_source_node_id src (set_dest_node_id dst (set_worker_id wid data))) ps src dst wid r.
Proof.
  intros [H1 H2 H3 H4] Hs Hd Hw. pose proof H1 as H1'. unfold get_prefix_size in H1'.
  pose proof (get_header_fits data ltac:(lia)) as Hh.
  unfold set_source_node_id, set_dest_node_id, set_worker_id.
  set (h := get_header_ref data) in *.
  assert (F1 : fits 64 (setf 42 8 wid h)) by (apply setf_fits; (lia || assumption)).
  assert (F2 : fits 64 (setf 50 7 dst (setf 42 8 wid h))) by (apply setf_fits; (lia || assumption)).
  assert (F3 : fits 64 (setf 57 7 src (setf 50 7 dst (setf 42 8 wid h)))) by (apply setf_fits; (lia || assumption)).
  set (d1 := mod_header (Header.set_worker_id wid) data).
  assert (E1 : get_header_ref d1 = setf 42 8 wid h).
  { unfold d1. rewrite mod_header_get; fold h; rewrite ?Header.set_worker_setf by assumption; [reflexivity|lia|exact F1]. }
  assert (L1 : length d1 = length data) by (apply mod_header_length; lia).
  set (d2 := mod_header (Header.set_dest_node_id dst) d1).
  assert (E2 : get_header_ref d2 = setf 50 7 dst (setf 42 8 wid h)).
  { unfold d2. rewrite mod_header_get; rewrite ?E1, ?Header.set_dest_setf by assumption; [reflexivity|lia|exact F2]. }
  assert (L2 : length d2 = length data) by (unfold d2; rewrite mod_header_length; lia).
  assert (E3 : get_header_ref (mod_header (Header.set_source_node_id src) d2) = setf 57 7 src (setf 50 7 dst (setf 42 8 wid h))).
  { rewrite mod_header_get; rewrite ?E2, ?Header.set_source_setf by assumption; [reflexivity|lia|exact F3]. }
  assert (E4 : forall n, (8 <= n)%nat -> drop n (mod_header (Header.set_source_node_id src) d2) = drop n data).
  { intros n Hn. rewrite mod_header_drop by lia. unfold d2. rewrite mod_header_drop by lia. unfold d1. apply mod_header_drop; lia. }
  constructor.
  - rewrite mod_header_length; lia.
  - rewrite E3. rewrite Header.view_getf in H2 |- *. injection H2 as _ _ _ <- Hsz <-.
    unfold size in *. rewrite mod_header_length, L2, <- Hsz by lia. f_equal; Prelude.fields; reflexivity.
  - unfold check_deadbeef, get_deadbeef, get_at in *. now rewrite E4 by lia.
  - rewrite E4 by (unfold get_prefix_size; lia). exact H4.
Qed.

Definition piece_of (p : MessagePiece.fields * bytes) : bytes := MessagePiece.piece p.1 p.2.

(** A message with its ids, to which pieces have been added. *)
Definition build (src dst wid : Z) (ps : list (MessagePiece.fields * bytes)) : bytes :=
  foldl (fun data p => append_piece p.1 p.2 data)
    (set_source_node_id src (set_dest_node_id dst (set_worker_id wid new_message))) ps.

Definition total_size (ps : list (MessagePiece.fields * bytes)) : Z :=
  Z.of_nat (get_prefix_size + length (concat (piece_of <$> ps))).

Lemma message_holds_size data ps s d w r : holds data ps s d w r -> size data = Z.of_nat (get_prefix_size + length (concat ps)).
Proof.
  intros [H1 _ _ H4]. unfold size. rewrite <- H4, length_drop. lia.
Qed.

Lemma build_holds src dst wid ps :
  fits 7 src -> fits 7 dst -> fits 8 wid -> total_size ps < 2 ^ 26 -> Z.of_nat (length ps) < 2 ^ 15 ->
  holds (build src dst wid ps) (piece_of <$> ps) src dst wid 0.
Proof.
  intros Hs Hd Hw. unfold build. induction ps as [|[f payload] ps IH] using rev_ind; intros Hsz Hn.
  - cbn. eapply set_ids_holds; eauto using new_message_holds.
  - assert (Ht : total_size (ps ++ [(f, payload)]) = total_size ps + 8 + size payload).
    { unfold total_size, size. rewrite fmap_app, concat_app, length_app. cbn [fmap list_fmap concat].
      unfold piece_of at 2. cbn [fst snd]. rewrite app_nil_r, MessagePiece.piece_length. lia. }
    rewrite Ht in Hsz. rewrite length_app in Hn. cbn [length] in Hn.
    assert (0 <= size payload) by (unfold size; lia). specialize (IH ltac:(lia) ltac:(lia)).
    rewrite foldl_app, fmap_app. cbn [foldl fmap list_fmap fst snd].
    apply append_holds; [exact IH| |rewrite length_fmap; lia].
    rewrite (message_holds_size _ _ _ _ _ _ IH). exact Hsz.
Qed.

(** What a handler reads from a piece. *)
Definition parse_piece (p : bytes) : MessagePiece.fields * bytes := (MessagePiece.piece_fields p, MessagePiece.toStringPiece p).

(** C29: Round trip of a message: a message given its ids and any pieces, within
    the widths of the header fields, has exactly these ids, the number of pieces
    as its count and the size of the string as its length; and the iterator of
    the receiver visits exactly the pieces, each with the type, table, partition,
    granule and payload it was built from. *)
Theorem message_roundtrip src dst wid ps :
  fits 7 src -> fits 7 dst -> fits 8 wid ->
  Forall (fun p => MessagePiece.piece_ok p.1 p.2) ps -> total_size ps < 2 ^ 26 -> Z.of_nat (length ps) < 2 ^ 15 ->
  let data := build src dst wid ps in
  get_source_node_id data = src /\ get_dest_node_id data = dst /\ get_worker_id data = wid /\
  get_message_count data = Z.of_nat (length ps) /\ check_size data = true /\ check_deadbeef data = true /\
  option_map (map parse_piece) (pieces data) = Some ps.
Proof.
  intros Hs Hd Hw Hps Hsz Hn data. destruct (build_holds src dst wid ps Hs Hd Hw Hsz Hn) as [H1 H2 H3 H4]. fold data in H1, H2, H3, H4.
  injection H2 as E1 E2 E3 E4 E5 _. rewrite length_fmap in E4. split_and!; auto; [now apply Z.eqb_eq|].
  unfold pieces. rewrite <- (take_drop get_prefix_size data) at 2. rewrite H4.
  rewrite <- (length_take_le data get_prefix_size H1) at 2. rewrite pieces_from_concat.
  - cbn. f_equal. clear - Hps. induction Hps as [|[f payload] ps Hp Hps IH]; [reflexivity|]. cbn in *. f_equal; [|exact IH].
    unfold piece_of, parse_piece. cbn. rewrite MessagePiece.piece_payload by exact Hp. f_equal.
    rewrite <- (app_nil_r (MessagePiece.piece f payload)). apply MessagePiece.piece_getters, Hp.
  - apply Forall_fmap. eapply Forall_impl; [exact Hps|]. intros [f payload] Hp. now exists f, payload.
  - assert (length (piece_of <$> ps) <= length (concat (piece_of <$> ps)))%nat as Hc.
    { clear. induction ps as [|p ps IH]; [easy|]. cbn. rewrite length_app. unfold piece_of at 2. rewrite MessagePiece.piece_length. lia. }
    rewrite <- H4, length_drop in Hc. lia.
Qed.

Definition ex_pieces : list (MessagePiece.fields * bytes) :=
  [(MessagePiece.Fields 3 10 1 0 7, [Byte.x01; Byte.x00]); (MessagePiece.Fields 9 8 0 5 0, [])].

Lemma message_roundtrip_witness :
  get_dest_node_id (build 2 6 1 ex_pieces) = 6 /\
  option_map (map parse_piece) (pieces (build 2 6 1 ex_pieces)) = Some ex_pieces.
Proof.
  pose proof (message_roundtrip 2 6 1 ex_pieces ltac:(now vm_compute) ltac:(now vm_compute) ltac:(now vm_compute)
    ltac:(repeat constructor; now vm_compute) ltac:(now vm_compute) ltac:(now vm_compute)) as H.
  split; apply H.
Defined.
End Message.
