(* ===== verification/Transport.v ===== *)
(** * [BufferedReader], [GrouppedMessage] and [CXLTransport]

    How messages travel between hosts: common/BufferedReader.h cuts the bytes
    that arrive from a socket or a ring buffer into messages, the grouped
    message of common/Message.h joins the messages to one host, and
    common/CXLTransport.h sends a message through the destination's
    [MPSCRingBuffer]. *)

From S2P Require Import Prelude Wire Message RingBuffer.
Import Wire Message.

(** What a reader needs from a transport: [recv n] returns at most [n] of the
    bytes on the way, in order. *)
Class ByteSource (S : Type) := {
  recv : Z -> S -> bytes * S;
  stream : S -> bytes;
  recv_law : forall n s, 0 <= n ->
    Z.of_nat (length (recv n s).1) <= n /\ stream s = (recv n s).1 ++ stream (recv n s).2
}.

(** A socket: the bytes on the way, and how many of them, less one, each read
    finds. *)
Record socket := Socket { incoming : bytes; found : list nat }.
Definition read_async (n : Z) (s : socket) : bytes * socket :=
  let k := match found s with [] => Z.to_nat n | c :: _ => Nat.min (Datatypes.S c) (Z.to_nat n) end in
  (take k (incoming s), Socket (drop k (incoming s)) (tail (found s))).

#[export] Program Instance socket_source : ByteSource socket := { recv := read_async; stream := incoming }.
Next Obligation.
  intros n [b ks] Hn. unfold read_async. cbn [found incoming fst snd]. rewrite take_drop, length_take. split; [|easy].
  destruct ks; lia.
Qed.

Module BufferedReader.

Definition BUFFER_SIZE : Z := 1024 * 1024 * 4.

(** [buffer] is the part of the array that is filled, so [bytes_total] is its
    length. *)
Record reader := Reader { buffer : bytes; bytes_read : nat; read_calls : nat }.
Definition new_reader : reader := Reader [] 0 0.
Definition bytes_total (r : reader) : nat := length (buffer r).

Section reader.
Context {S : Type} `{ByteSource S}.

Definition message_length_at (r : reader) : nat :=
  Z.to_nat (Header.get_message_length (get_at (bytes_read r) 8 (buffer r))).

Definition has_message (r : reader) : bool :=
  if (bytes_total r <? bytes_read r + get_prefix_size)%nat then false
  else (bytes_read r + message_length_at r <=? bytes_total r)%nat.

Definition fetch_message (r : reader) (s : S) : reader * S :=
  if has_message r then (r, s)
  else
    let left := drop (bytes_read r) (buffer r) in
    let '(b, s) := recv (BUFFER_SIZE - Z.of_nat (length left)) s in
    (Reader (left ++ b) 0 (read_calls r + 1), s).

(** [nullptr] is [Some (None, _, _)]; [None] is a message shorter than the words
    that [resize] writes to it. *)
Definition next_message (r : reader) (s : S) : option (option bytes * reader * S) :=
  let '(r, s) := fetch_message r s in
  if has_message r then
    let len := message_length_at r in
    if (len <? 12)%nat then None
    else
      let message := resize len new_message in
      Some (Some (memcpy message (drop (bytes_read r) (buffer r)) len),
            Reader (buffer r) (bytes_read r + len) (read_calls r), s)
  else Some (None, r, s).

(** [k] calls, and the messages they return. *)
Fixpoint read_messages (k : nat) (r : reader) (s : S) : option (list bytes * reader * S) :=
  match k with
  | O => Some ([], r, s)
  | Datatypes.S k =>
      '(m, r, s) ← next_message r s;
      '(ms, r, s) ← read_messages k r s;
      Some (match m with Some m => m :: ms | None => ms end, r, s)
  end.

(** ** Correctness *)

(** The bytes not handed out yet. *)
Definition pending (r : reader) (s : S) : bytes := drop (bytes_read r) (buffer r) ++ stream s.

Definition wf_message (m : bytes) : Prop :=
  (get_prefix_size <= length m)%nat /\ get_message_length m = Z.of_nat (length m) /\ Z.of_nat (length m) <= BUFFER_SIZE.

Definition reader_ok (r : reader) : Prop := (bytes_read r <= length (buffer r))%nat.

Lemma has_message_spec r s m rest :
  reader_ok r -> wf_message m -> pending r s = m ++ rest ->
  let avail := drop (bytes_read r) (buffer r) in
  has_message r = (length m <=? length avail)%nat /\
  (has_message r = true -> message_length_at r = length m /\ take (length m) avail = m).
Proof using Type.
  intros Hr (Hp & Hl & _) Hpen avail. unfold has_message, bytes_total. unfold pending in Hpen. fold avail in Hpen.
  assert (Ha : length avail = (length (buffer r) - bytes_read r)%nat) by (unfold avail; now rewrite length_drop).
  unfold reader_ok in Hr. assert (get_prefix_size = 56%nat) as H56 by reflexivity. rewrite H56 in *. clear H56.
  destruct (Nat.ltb_spec (length (buffer r)) (bytes_read r + 56)) as [Hlt|Hge].
  { split; [|easy]. symmetry. apply Nat.leb_gt. lia. }
  assert (Hm : message_length_at r = length m).
  { unfold message_length_at. unfold get_message_length in Hl. rewrite <- (Nat2Z.id (length m)), <- Hl. do 2 f_equal.
    unfold get_header_ref, get_at. fold avail. rewrite drop_0. f_equal.
    rewrite <- (take_app_le avail (stream s)) by lia. rewrite Hpen. rewrite take_app_le by lia. reflexivity. }
  rewrite Hm. split.
  - destruct (Nat.leb_spec (length m) (length avail)); [apply Nat.leb_le; lia|apply Nat.leb_gt; lia].
  - intros Hle%Nat.leb_le. split; [easy|]. rewrite <- (take_app_le avail (stream s)) by lia.
    rewrite Hpen. now rewrite take_app_length.
Qed.

Lemma fetch_message_spec r s r' s' :
  reader_ok r -> Z.of_nat (length (drop (bytes_read r) (buffer r))) <= BUFFER_SIZE -> fetch_message r s = (r', s') ->
  reader_ok r' /\ pending r' s' = pending r s /\
  (has_message r = false -> drop (bytes_read r') (buffer r') =
     drop (bytes_read r) (buffer r) ++ (recv (BUFFER_SIZE - Z.of_nat (length (drop (bytes_read r) (buffer r)))) s).1 /\
     s' = (recv (BUFFER_SIZE - Z.of_nat (length (drop (bytes_read r) (buffer r)))) s).2) /\
  (has_message r = true -> r' = r /\ s' = s).
Proof using Type.
  intros Hr Hb. unfold fetch_message. destruct (has_message r) eqn:Hh; [intros [= <- <-]; now split_and!|].
  set (n := BUFFER_SIZE - _). destruct (recv_law n s ltac:(lia)) as [Hl Hs]. destruct (recv n s) as [b s1] eqn:E. cbn in *.
  intros [= <- <-]. split_and!; try easy; unfold reader_ok, pending; cbn; [lia|]. now rewrite Hs, app_assoc.
Qed.

(** A call returns the next message when all of it has arrived, and otherwise
    returns nothing; no byte is lost. *)
Lemma next_message_spec r s m rest :
  reader_ok r -> wf_message m -> pending r s = m ++ rest ->
  exists o r' s', next_message r s = Some (o, r', s') /\ reader_ok r' /\
    ((o = Some m /\ pending r' s' = rest) \/
     (o = None /\ pending r' s' = m ++ rest /\
      exists n, 0 < n /\ s' = (recv n s).2 /\ (length (drop (bytes_read r) (buffer r)) + length (recv n s).1 < length m)%nat)).
Proof using Type.
  intros Hr Hm Hp. unfold next_message. destruct (fetch_message r s) as [r1 s1] eqn:Ef.
  destruct (has_message_spec r s m rest Hr Hm Hp) as [Hh Ht].
  assert (Hbuf : has_message r = false -> Z.of_nat (length (drop (bytes_read r) (buffer r))) < BUFFER_SIZE).
  { rewrite Hh. intros Hlt%Nat.leb_gt. destruct Hm as (_ & _ & ?). lia. }
  assert (H1 : reader_ok r1 /\ pending r1 s1 = m ++ rest /\ (has_message r1 = false ->
     exists n, 0 < n /\ s1 = (recv n s).2 /\ (length (drop (bytes_read r) (buffer r)) + length (recv n s).1 < length m)%nat)).
  { destruct (has_message r) eqn:Hhr.
    - unfold fetch_message in Ef. rewrite Hhr in Ef. injection Ef as <- <-. split_and!; auto. congruence.
    - specialize (Hbuf eq_refl). destruct (fetch_message_spec r s r1 s1 Hr ltac:(lia) Ef) as (Hr1 & Hp1 & Hno & _).
      specialize (Hno Hhr) as [Hd Hs1]. rewrite Hp in Hp1. split_and!; auto.
      destruct (has_message_spec r1 s1 m rest Hr1 Hm Hp1) as [Hh1 _]. rewrite Hh1, Hd, length_app. intros Hlt%Nat.leb_gt.
      eexists. split_and!; [|exact Hs1|exact Hlt]. lia. }
  destruct H1 as (Hr1 & Hp1 & Hnone). destruct (has_message_spec r1 s1 m rest Hr1 Hm Hp1) as [Hh1 Ht1].
  destruct (has_message r1) eqn:Hhr1.
  - destruct (Ht1 eq_refl) as [Hlen Htake]. rewrite Hlen. destruct Hm as (Hpre & _ & _). unfold get_prefix_size in Hpre.
    rewrite (proj2 (Nat.ltb_ge _ _)) by lia. symmetry in Hh1. apply Nat.leb_le in Hh1. rewrite length_drop in Hh1.
    do 3 eexists. split; [reflexivity|]. split; [unfold reader_ok in *; cbn; lia|]. left. split.
    + unfold memcpy. rewrite Htake, drop_ge, app_nil_r; [easy|].
      unfold resize, set_deadbeef, set_message_length.
      assert (Hsr : forall n d, length (string_resize n d) = n).
      { intros n d. unfold string_resize. rewrite length_app, length_take, length_replicate. lia. }
      rewrite put_at_length; rewrite mod_header_length; rewrite ?Hsr; lia.
    + unfold pending in *. cbn. rewrite <- (take_drop (length m) (drop (bytes_read r1) (buffer r1))) in Hp1.
      rewrite Htake, <- app_assoc in Hp1. apply app_inv_head in Hp1. now rewrite drop_drop in Hp1.
  - do 3 eexists. split; [reflexivity|]. split; [exact Hr1|]. right. split_and!; auto.
Qed.

(** Nothing arrives out of nothing. *)
Lemma next_message_empty r s :
  reader_ok r -> pending r s = [] -> exists r' s', next_message r s = Some (None, r', s') /\ reader_ok r' /\ pending r' s' = [].
Proof using Type.
  intros Hr Hp. apply app_nil in Hp as [Hd Hs].
  assert (Hh : forall q, reader_ok q -> drop (bytes_read q) (buffer q) = [] -> has_message q = false).
  { intros q Hq Hdq. apply (f_equal length) in Hdq. rewrite length_drop in Hdq. cbn in Hdq. unfold has_message, bytes_total.
    rewrite (proj2 (Nat.ltb_lt _ _)); [easy|]. unfold reader_ok, get_prefix_size in *. lia. }
  unfold next_message, fetch_message. rewrite Hh, Hd by auto. cbn [length].
  destruct (recv_law (BUFFER_SIZE - Z.of_nat 0) s ltac:(unfold BUFFER_SIZE; lia)) as [_ Hl].
  destruct (recv _ s) as [b s1]. cbn in Hl. rewrite Hs in Hl. symmetry in Hl. apply app_nil in Hl as [-> Hs1]. cbn [app].
  rewrite Hh by (unfold reader_ok; cbn; (lia || easy)). do 2 eexists. split; [reflexivity|]. split; [unfold reader_ok; cbn; lia|].
  unfold pending. cbn. exact Hs1.
Qed.

(** C30: However the bytes are cut up on the way, [next_message] returns the
    messages that were sent, whole, once and in order: after any number of calls
    the messages returned are the first of those sent, and the bytes not handed
    out yet are those of the rest. *)
Theorem reader_in_order k s ms :
  stream s = concat ms -> Forall wf_message ms ->
  exists out r' s' rest, read_messages k new_reader s = Some (out, r', s') /\ ms = out ++ rest /\ pending r' s' = concat rest.
Proof using Type.
  intros Hs Hms. assert (reader_ok new_reader) as Hr by (unfold reader_ok; cbn; lia).
  assert (pending new_reader s = concat ms) as Hp by exact Hs. clear Hs.
  revert ms Hms Hp. generalize dependent new_reader. revert s.
  induction k as [|k IH]; intros s r Hr ms Hms Hp; cbn [read_messages]; [now exists [], r, s, ms|].
  destruct ms as [|m ms].
  - destruct (next_message_empty r s Hr Hp) as (r1 & s1 & -> & Hr1 & Hp1). cbn.
    destruct (IH s1 r1 Hr1 [] ltac:(constructor) Hp1) as (out & r2 & s2 & rest & -> & Ho & Hrest). cbn. now exists out, r2, s2, rest.
  - apply Forall_cons in Hms as Hm. destruct Hm as [Hm Hms'].
    destruct (next_message_spec r s m (concat ms) Hr Hm Hp) as (o & r1 & s1 & -> & Hr1 & Hcase). cbn.
    destruct Hcase as [[-> Hp1]|(-> & Hp1 & _)].
    + destruct (IH s1 r1 Hr1 ms Hms' Hp1) as (out & r2 & s2 & rest & -> & -> & Hrest). cbn. now exists (m :: out), r2, s2, rest.
    + destruct (IH s1 r1 Hr1 (m :: ms) Hms Hp1) as (out & r2 & s2 & rest & -> & Ho & Hrest). cbn. now exists out, r2, s2, rest.
Qed.

Lemma recv_shrinks n s : 0 <= n -> (length (stream (recv n s).2) + length (recv n s).1 = length (stream s))%nat.
Proof using Type. intros Hn. destruct (recv_law n s Hn) as [_ E]. apply (f_equal length) in E. rewrite length_app in E. lia. Qed.

(** Every message is received: if a read finds bytes whenever some are on
    the way, enough calls of [next_message] return all messages. *)
Theorem reader_receives_all s ms :
  (forall n s, 0 < n -> stream s <> [] -> (recv n s).1 <> []) ->
  stream s = concat ms -> Forall wf_message ms ->
  exists k r' s', read_messages k new_reader s = Some (ms, r', s') /\ pending r' s' = [].
Proof using Type.
  intros Hprog Hs Hms. assert (reader_ok new_reader) as Hr by (unfold reader_ok; cbn; lia).
  assert (pending new_reader s = concat ms) as Hp by exact Hs. clear Hs.
  revert Hr Hp. generalize new_reader. revert s. induction Hms as [|m ms Hm Hms IHm]; intros s r Hr Hp; [now exists 0%nat, r, s|].
  remember (length (stream s)) as w eqn:Hw. revert s r Hr Hp Hw. induction w as [w IHw] using lt_wf_ind. intros s r Hr Hp ->.
  destruct (next_message_spec r s m (concat ms) Hr Hm Hp) as (o & r1 & s1 & E & Hr1 & [[-> Hp1]|(-> & Hp1 & n & Hn & -> & Hlt)]).
  - destruct (IHm s1 r1 Hr1 Hp1) as (k & r2 & s2 & E2 & Hp2). exists (Datatypes.S k), r2, s2. cbn [read_messages].
    rewrite E. cbn. rewrite E2. now split.
  - assert (stream s <> []) as Hne.
    { intros Hnil. apply (f_equal length) in Hp. unfold pending in Hp. rewrite Hnil, app_nil_r in Hp. cbn [concat] in Hp. rewrite length_app in Hp.
      lia. }
    pose proof (Hprog n s Hn Hne) as Hb. pose proof (recv_shrinks n s ltac:(lia)) as Hsh.
    assert (length (recv n s).1 <> 0)%nat by now rewrite length_zero_iff_nil.
    destruct (IHw (length (stream (recv n s).2)) ltac:(lia) _ r1 Hr1 Hp1 eq_refl) as (k & r2 & s2 & E2 & Hp2).
    exists (Datatypes.S k), r2, s2. cbn [read_messages]. rewrite E. cbn. rewrite E2. now split.
Qed.
End reader.

(** Every message of [Message.build] within the size of the buffer is one the
    reader can cut out. *)
Lemma build_wf src dst wid ps :
  fits 7 src -> fits 7 dst -> fits 8 wid -> total_size ps <= BUFFER_SIZE -> Z.of_nat (length ps) < 2 ^ 15 ->
  wf_message (build src dst wid ps).
Proof.
  intros Hs Hd Hw Hsz Hn. pose proof (build_holds src dst wid ps Hs Hd Hw ltac:(unfold BUFFER_SIZE in Hsz; lia) Hn) as Hh.
  pose proof (Message.message_holds_size _ _ _ _ _ _ Hh) as Hl. destruct Hh as [H1 H2 _ _]. injection H2 as _ _ _ _ E _.
  split_and!; [exact H1|exact E|]. change (size (build src dst wid ps) <= BUFFER_SIZE). rewrite Hl. exact Hsz.
Qed.

(** Two messages on a socket that finds 3, 100 and then all remaining bytes. *)
Definition ex_messages : list bytes := [build 1 2 0 Message.ex_pieces; build 1 2 3 []].
Definition ex_socket : socket := Socket (concat ex_messages) [2; 99]%nat.

Lemma ex_messages_wf : Forall wf_message ex_messages.
Proof. repeat constructor; apply build_wf; now vm_compute. Qed.

Lemma reader_in_order_witness :
  exists out r' s' rest, read_messages 2 new_reader ex_socket = Some (out, r', s') /\ ex_messages = out ++ rest /\
    pending r' s' = concat rest.
Proof. apply reader_in_order; [reflexivity|exact ex_messages_wf]. Defined.

Lemma reader_receives_all_witness :
  exists k r' s', read_messages k new_reader ex_socket = Some (ex_messages, r', s') /\ pending r' s' = [].
Proof.
  apply reader_receives_all; [|reflexivity|exact ex_messages_wf].
  intros n [b ks] Hn Hne. cbn [recv stream socket_source] in *. unfold read_async. cbn [found incoming fst] in *. destruct b as [|x b]; [easy|].
  destruct (match ks with [] => _ | _ => _ end) as [|k] eqn:E; [destruct ks; lia|easy].
Defined.
End BufferedReader.

(** ** [GrouppedMessage] *)
Module GrouppedMessage.

Record grouped := Grouped { group_data : bytes; dest_node : Z }.
Definition clear (g : grouped) : grouped := Grouped [] (2 ^ 64 - 1).
Definition new_grouped : grouped := Grouped [] (2 ^ 64 - 1).
Definition set_dest_node_id (d : Z) (g : grouped) : grouped := Grouped (group_data g) d.
Definition get_dest_node_id (g : grouped) : Z := dest_node g.
Definition get_message_length (g : grouped) : Z := Z.of_nat (length (group_data g)).
Definition get_raw_ptr (g : grouped) : bytes := group_data g.

Definition addMessage (m : bytes) (g : grouped) : grouped :=
  Grouped (group_data g ++ take (Z.to_nat (Message.get_message_length m)) m) (dest_node g).

Lemma add_all ms g :
  Forall BufferedReader.wf_message ms -> group_data (foldl (fun g m => addMessage m g) g ms) = group_data g ++ concat ms.
Proof.
  intros Hms. revert g. induction Hms as [|m ms Hm _ IH]; intros g; cbn; [now rewrite app_nil_r|].
  rewrite IH. cbn. destruct Hm as (_ & -> & _). rewrite Nat2Z.id, firstn_all. now rewrite app_assoc.
Qed.
End GrouppedMessage.

(** ** [CXLTransport] *)
Module CXLTransport.
Import MPSCRingBuffer.

(** One ring buffer per host. *)
Abbreviation rings := (gmap Z ring).

Definition on_ring {A} (host : Z) (p : M ring A) : M rings A := fun rs =>
  match rs !! host with
  | None => Fault
  | Some r =>
      match p r with
      | Ret a r' => Ret a (<[host := r']> rs)
      | Spin => Spin
      | Abort => Abort
      | Fault => Fault
      end
  end.

Section transport.
Context (entry_struct_size entry_num : Z).

Definition send (fuel : nat) (message : bytes) : M rings unit :=
  let dest_node_id := get_dest_node_id message in
  let message_length := get_message_length message in
  bytes_sent ← on_ring dest_node_id
    (MPSCRingBuffer.send entry_struct_size entry_num fuel (take (Z.to_nat message_length) message));
  CHECK (bytes_sent =? message_length).

Definition recv (src_node_id : Z) (buffer : bytes) (buffer_size : Z) : M rings (Z * bytes) :=
  on_ring src_node_id (MPSCRingBuffer.recv entry_num buffer buffer_size).

Context (Hnum : 0 < entry_num) (Hsize : entry_data_size entry_struct_size < 2 ^ 32) (Hwide : entry_num + 1 < 2 ^ 64).

(** C31: A message goes through shared memory unchanged: with an empty receive
    queue at the destination, [send] of a message built by the factories returns
    without a failed [CHECK], the destination's next [recv] puts exactly its
    bytes at the front of the buffer, and the message pieces can be read from
    them. *)
Theorem cxl_delivery rs r ds src dst wid ps buffer :
  rs !! dst = Some r -> holds entry_struct_size entry_num r ds [] -> Z.of_nat (length ds) + 1 < 2 ^ 64 ->
  fits 7 src -> fits 7 dst -> fits 8 wid ->
  Forall (fun p => MessagePiece.piece_ok p.1 p.2) ps -> Z.of_nat (length ps) < 2 ^ 15 ->
  total_size ps < 2 ^ 26 -> total_size ps <= entry_data_size entry_struct_size <= Z.of_nat (length buffer) ->
  let m := build src dst wid ps in
  runs (send 1 m;; recv dst buffer (Z.of_nat (length buffer))) rs (fun res rs' =>
    res = (Z.of_nat (length m), m ++ drop (length m) buffer) /\
    option_map (map parse_piece) (pieces (take (Z.to_nat res.1) res.2)) = Some ps /\
    exists r', rs' = <[dst := r']> rs /\ holds entry_struct_size entry_num r' (ds ++ [m]) []).
Proof using Hnum Hsize Hwide.
  intros Hr Hh Hds Hs Hd Hw Hps Hn Hsz Hbuf m.
  destruct (message_roundtrip src dst wid ps Hs Hd Hw Hps Hsz Hn) as (_ & Edst & _ & _ & Esz & _ & Epc). fold m in Edst, Esz, Epc.
  apply Z.eqb_eq in Esz. unfold Message.size in Esz.
  assert (Hl : Z.of_nat (length m) = total_size ps).
  { pose proof (Message.message_holds_size _ _ _ _ _ _ (build_holds src dst wid ps Hs Hd Hw Hsz Hn)) as E. exact E. }
  unfold send. cbv zeta. rewrite Edst, Esz, Nat2Z.id, firstn_all.
  pose proof (enqueue_holds entry_struct_size entry_num Hnum Hsize r ds [] m Hh ltac:(rewrite app_nil_r; lia) Hwide ltac:(lia)) as He.
  cbn [length] in He. rewrite (proj2 (Z.ltb_lt _ _)) in He by lia. unfold runs in He.
  destruct (enqueue entry_struct_size entry_num m r) as [b r1| | |] eqn:Een; try easy. destruct He as [-> Hh1]. cbn in Hh1.
  assert (E1 : on_ring dst (MPSCRingBuffer.send entry_struct_size entry_num 1 m) rs = Ret (Z.of_nat (length m)) (<[dst := r1]> rs)).
  { unfold on_ring. rewrite Hr. cbn. mrun. now rewrite Een. }
  assert (0 < entry_data_size entry_struct_size) as Hpos by (unfold total_size, get_prefix_size in *; lia).
  pose proof (dequeue_holds entry_struct_size entry_num Hnum Hsize r1 ds [m] buffer (Z.of_nat (length buffer)) Hh1
    ltac:(rewrite length_app; cbn; lia) Hwide eq_refl ltac:(lia) ltac:(lia)) as Hdq. unfold runs in Hdq.
  destruct (dequeue entry_num buffer (Z.of_nat (length buffer)) r1) as [res r2| | |] eqn:Edq; try easy. destruct Hdq as [-> Hh2].
  apply runs_bind. eapply runs_eq.
  { erewrite bind_Ret by exact E1. rewrite Z.eqb_refl. reflexivity. }
  eapply runs_eq.
  { unfold recv, on_ring. rewrite lookup_insert_eq. unfold MPSCRingBuffer.recv. mrun.
    destruct (MPSCRingBuffer.holds_size _ _ Hnum Hsize r1 ds [m] Hh1 ltac:(rewrite length_app; cbn; lia)) as [Esize _].
    rewrite Esize. cbn [length]. rewrite (proj2 (Z.eqb_neq _ _)) by lia. rewrite Edq. reflexivity. }
  unfold memcpy. rewrite firstn_all. split_and!; [easy| |].
  - cbn [fst snd]. rewrite Nat2Z.id, take_app_length. exact Epc.
  - exists r2. split; [apply insert_insert_eq|exact Hh2].
Qed.
End transport.

Lemma cxl_delivery_witness :
  let m := build 0 1 0 Message.ex_pieces in
  runs (send 109 2 1 m;; recv 2 1 (replicate 100 Byte.x00) (Z.of_nat (length (replicate 100 Byte.x00))))
    {[ 1 := new_ring 109 2 ]} (fun res rs' =>
      res = (Z.of_nat (length m), m ++ drop (length m) (replicate 100 Byte.x00)) /\
      option_map (map parse_piece) (pieces (take (Z.to_nat res.1) res.2)) = Some Message.ex_pieces /\
      exists r', rs' = <[1 := r']> {[ 1 := new_ring 109 2 ]} /\ holds 109 2 r' ([] ++ [m]) []).
Proof.
  assert (H1 : {[ 1 := new_ring 109 2 ]} !! 1 = Some (new_ring 109 2)) by apply lookup_singleton_eq.
  assert (H2 : holds 109 2 (new_ring 109 2) [] []) by (apply new_ring_holds; now vm_compute).
  assert (H3 : Forall (fun p => MessagePiece.piece_ok p.1 p.2) Message.ex_pieces) by (repeat constructor; now vm_compute).
  exact (cxl_delivery 109 2 ltac:(lia) ltac:(now vm_compute) ltac:(lia) {[ 1 := new_ring 109 2 ]} (new_ring 109 2) [] 0 1 0
    Message.ex_pieces (replicate 100 Byte.x00) H1 H2 ltac:(now vm_compute) ltac:(now vm_compute) ltac:(now vm_compute)
    ltac:(now vm_compute) H3 ltac:(now vm_compute) ltac:(now vm_compute) ltac:(now vm_compute)).
Defined.
End CXLTransport.
