(* ===== verification/Commit.v ===== *)
(** * [TwoPLPasha]: committing and aborting a transaction

    protocol/TwoPLPasha/TwoPLPasha.h.  A transaction has the sets of entries
    ([TwoPLPashaRWKey]) that its execution phase has filled in: the locks it
    holds are the lock bits of the entries.  [commit] and [abort] run on the
    [world] of rows, over the operations of [TwoPLPashaHelper].  The pointers
    of an entry are followed by the functions of the section: the row behind a
    local metadata pointer, the bytes behind a value pointer, the key behind a
    key pointer, the vector behind a scan-result pointer.  The messages to other
    hosts are collected in a list; waiting for their effects, and the virtual
    method of the migration manager, are parameters.  Time measurements and the
    parts of [write_and_replicate] that only compute unused flags are left
    out. *)

From stdpp Require Import pretty.
From Stdlib Require String.
From S2P Require Import Prelude LockWord SharedWord SCC CXLMemory PashaState PashaHelper PashaMigration PashaRow PashaOps PashaMove PashaTable RWKey.

#[local] Existing Instance pasha_layout.
Import RWKey.TwoPLPashaRWKey.

Abbreviation rwkey := RWKey.TwoPLPashaRWKey.TwoPLPashaRWKey.

(** [for] over a vector. *)
Fixpoint for_each {S A} (f : A -> M S unit) (l : list A) : M S unit :=
  match l with [] => mret tt | a :: l => f a;; for_each f l end.

(** The messages a commit sends. *)
Inductive out_message :=
| RemoteInsert (host : Z) (k : rkey) (value : bytes)
| RemoteDelete (host : Z) (k : rkey)
| DataMoveOutHint (host : Z).

(** [ITable::row_entity]: a key and the metadata pointer of its row. *)
Record row_entity := RowEntity { re_key : option Z; re_meta : option Z; re_data : option Z }.

Record txn := Txn {
  readSet : list rwkey;
  writeSet : list rwkey;
  insertSet : list rwkey;
  deleteSet : list rwkey;
  scanSet : list rwkey;
  abort_lock : bool;
  remote_hosts_involved : list Z
}.

Module TwoPLPasha.

(** ** Versions *)

Definition generate_tid (max_tid : Z) (t : txn) : Z :=
  let next_tid := foldl (fun n e => Z.max n (get_tid e)) 0 (readSet t) in
  wrap 64 (Z.max next_tid max_tid + 1).

Definition generate_epoch_version (cur_epoch_version cur_global_epoch : Z) : Z :=
  let epoch := Z.shiftr cur_epoch_version 32 in
  if epoch <? cur_global_epoch then wrap 64 (Z.shiftl cur_global_epoch 32)
  else wrap 64 (cur_epoch_version + 1).

(** C34: Versions only grow.  The transaction id is above that of every entry
    read and above the worker's last one; the version a write publishes is above
    the version that was read, belongs to the current epoch or a later one, and
    fits in the version word while epochs have 26 bits. *)
Theorem versions_grow max_tid t v g :
  Forall (fun e => 0 <= get_tid e < 2 ^ 64 - 1) (readSet t) -> 0 <= max_tid < 2 ^ 64 - 1 ->
  0 <= v < 2 ^ 58 - 1 -> 0 <= g < 2 ^ 26 ->
  max_tid < generate_tid max_tid t /\ Forall (fun e => get_tid e < generate_tid max_tid t) (readSet t) /\
  v < generate_epoch_version v g /\ g <= Z.shiftr (generate_epoch_version v g) 32 /\ fits 58 (generate_epoch_version v g).
Proof.
  intros Hes Hm Hv Hg. unfold generate_tid, generate_epoch_version.
  assert (Hf : forall l n, Forall (fun e => 0 <= get_tid e < 2 ^ 64 - 1) l -> 0 <= n < 2 ^ 64 - 1 ->
    n <= foldl (fun n e => Z.max n (get_tid e)) n l < 2 ^ 64 - 1 /\ Forall (fun e => get_tid e <= foldl (fun n e => Z.max n (get_tid e)) n l) l).
  { induction l as [|e l IH]; intros n Hl Hn; cbn; [split; [lia|constructor]|]. apply Forall_cons in Hl as [He Hl].
    destruct (IH (Z.max n (get_tid e)) Hl ltac:(lia)) as [H1 H2]. split; [lia|]. constructor; [lia|exact H2]. }
  destruct (Hf (readSet t) 0 Hes ltac:(lia)) as [H1 H2]. rewrite wrap_small by (split; lia). split_and!; [lia| | | |].
  - eapply Forall_impl; [exact H2|]. cbn. lia.
  - rewrite Z.shiftr_div_pow2, Z.shiftl_mul_pow2 by lia. destruct (Z.ltb_spec (v / 2 ^ 32) g) as [Hlt|]; rewrite wrap_small by (split; lia); [|lia].
    pose proof (Z.div_mod v (2 ^ 32) ltac:(lia)). pose proof (Z.mod_pos_bound v (2 ^ 32) ltac:(lia)). nia.
  - rewrite !Z.shiftr_div_pow2, Z.shiftl_mul_pow2 by lia. destruct (Z.ltb_spec (v / 2 ^ 32) g) as [Hlt|Hge]; rewrite wrap_small by (split; lia).
    + rewrite Z.div_mul by lia. lia.
    + pose proof (Z.div_le_mono v (v + 1) (2 ^ 32) ltac:(lia) ltac:(lia)). lia.
  - rewrite Z.shiftr_div_pow2, Z.shiftl_mul_pow2 by lia. destruct (Z.ltb_spec (v / 2 ^ 32) g); rewrite wrap_small by (split; lia); split; lia.
Qed.

(** ** Redo log records

    The text of a record: the numbers in decimal and then the bytes, with
    nothing in between. *)
Definition decimal (n : Z) : bytes := String.list_byte_of_string (pretty n).

Inductive log_type := LogUpdate | LogInsert | LogDelete.
Definition log_type_code (ty : log_type) : Z := match ty with LogUpdate => 0 | LogInsert => 1 | LogDelete => 2 end.

Definition redo_record (ty : log_type) (tableId partitionId epoch_version : Z) (key value : bytes) : bytes :=
  decimal (log_type_code ty) ++ decimal tableId ++ decimal partitionId ++ decimal epoch_version ++ key ++
  match ty with LogDelete => [] | _ => value end.

(** The records of two different tables and partitions can be the same text. *)
Theorem redo_record_ambiguous :
  redo_record LogUpdate 1 12 7 [] [] = redo_record LogUpdate 11 2 7 [] [].
Proof. vm_compute. reflexivity. Qed.

Section protocol.
Context (sc : SCCManager) (me : Z).
(** [ITable::value_size], by table. *)
Context (value_size : Z -> nat).
(** The partitioner: the coordinator that owns a partition. *)
Context (master_coordinator : Z -> Z).
(** What the pointers of the entries refer to. *)
Context (row_at : Z -> rkey) (bytes_at : Z -> bytes) (key_at : Z -> Z) (vec_at : Z -> list row_entity).
(** The configuration, the effect of the messages that are waited for, and
    [delete_specific_row_and_move_out] of the migration manager. *)
Context (enable_phantom_detection overhead reactive : bool).
Context (deliver : list out_message -> M world unit) (delete_row : rkey -> M world unit).

(** [sync_messages]: with no response pending there is nothing to wait for. *)
Definition sync_messages (ms : list out_message) : M world unit :=
  match ms with [] => mret tt | _ => deliver ms end.

Definition has_master_partition (partition_id : Z) : bool := master_coordinator partition_id =? me.

(** The key of the tuple of an entry. *)
Definition key_of (e : rwkey) : M world rkey :=
  p ← deref (fun _ => get_key e); mret (get_table_id e, get_partition_id e, key_at p).

(** [model_cxl_search_overhead]: a search of the CXL index, under the latch. *)
Definition model_cxl_search_overhead (k : rkey) : M world unit :=
  lm_lock k;;
  r ← get_row k;
  when_ (lm_is_migrated (lr_meta r)) (cxl_search k;; mret tt);;
  lm_unlock k.

(** The row of an entry: the owner uses its cached local row, another host its
    cached pointer into CXL memory. *)
Definition on_cached_row (e : rwkey) (loc : rkey -> M world unit) (rem : Z -> M world unit) : M world unit :=
  if has_master_partition (get_partition_id e) then
    p ← deref (fun _ => get_cached_local_row e);
    when_ overhead (model_cxl_search_overhead (row_at p));;
    loc (row_at p)
  else
    p ← deref (fun _ => get_cached_migrated_row e);
    rem p.

(** A row given by the metadata pointer of a row entity. *)
Definition on_entity (partition_id : Z) (p : option Z) (loc : rkey -> M world unit) (rem : Z -> M world unit) : M world unit :=
  p ← deref (fun _ => p);
  if has_master_partition partition_id then loc (row_at p) else rem p.

Definition bit (b : Z) : bool := negb (b =? 0).

Definition value_of_entry (e : rwkey) : M world bytes :=
  p ← deref (fun _ => get_value e); mret (bytes_at p).

(** [write_redo_logs_for_commit]: the records, from the entries of a set. *)
Definition key_bytes (e : rwkey) : M world bytes := p ← deref (fun _ => get_key e); mret (bytes_at p).

Fixpoint redo_logs (ty : log_type) (g : Z) (l : list rwkey) : M world (list bytes) :=
  match l with
  | [] => mret []
  | e :: l =>
      k ← key_bytes e;
      v ← (match ty with LogDelete => mret [] | _ => value_of_entry e end);
      rest ← redo_logs ty g l;
      mret (redo_record ty (get_table_id e) (get_partition_id e) (generate_epoch_version (get_tid e) g) k v :: rest)
  end.

Definition write_redo_logs_for_commit (g : Z) (t : txn) : M world (list bytes) :=
  u ← redo_logs LogUpdate g (writeSet t);
  i ← redo_logs LogInsert g (insertSet t);
  d ← redo_logs LogDelete g (deleteSet t);
  mret (u ++ i ++ d).

(** ** Releasing locks without a new version *)

Definition release_entry (e : rwkey) : M world unit :=
  when_ (bit (get_read_lock_bit e)) (on_cached_row e Pasha.read_lock_release Pasha.remote_read_lock_release);;
  when_ (bit (get_write_lock_bit e)) (on_cached_row e Pasha.write_lock_release Pasha.remote_write_lock_release).

Definition release_scanned (e : rwkey) (p : option Z) : M world unit :=
  match get_request_type e with
  | SCAN_FOR_READ => on_entity (get_partition_id e) p Pasha.read_lock_release Pasha.remote_read_lock_release
  | _ => on_entity (get_partition_id e) p Pasha.write_lock_release Pasha.remote_write_lock_release
  end.

Definition scan_result_rows (e : rwkey) : M world (list row_entity) :=
  v ← deref (fun _ => get_scan_res_vec e); mret (vec_at v).

Definition release_scan (e : rwkey) : M world unit :=
  rows ← scan_result_rows e;
  when_ (get_next_row_locked e) (release_scanned e (get_next_row_entity e));;
  for_each (fun r => release_scanned e (re_meta r)) rows.

(** ** Abort *)

(** [ITable::remove] *)
Definition table_remove (k : rkey) : M world unit := modify (set_rows (delete k)).

Definition rollback_insert (e : rwkey) : M world unit :=
  when_ (get_processed e && has_master_partition (get_partition_id e)) (
    k ← key_of e;
    table_remove k;;
    when_ (enable_phantom_detection && get_next_row_locked e) (
      p ← deref (fun _ => get_next_row_entity e);
      Pasha.write_lock_release (row_at p))).

Definition rollback_delete (e : rwkey) : M world unit :=
  when_ (get_processed e && has_master_partition (get_partition_id e)) (
    k ← key_of e;
    Pasha.write_lock_release k).

(** ** Releasing the rows that were pinned in CXL memory *)

Definition unpin_read (e : rwkey) : M world unit :=
  when_ (get_reference_counted e) (k ← key_of e; Pasha.release_migrated_row k).

Definition unpin_insert (e : rwkey) : M world unit :=
  when_ (get_reference_counted e) (
    if has_master_partition (get_partition_id e) then k ← key_of e; Pasha.release_migrated_row k
    else p ← deref (fun _ => get_inserted_cxl_row e); Pasha.decrease_reference_count_via_ptr p).

Definition unpin_scan (e : rwkey) : M world unit :=
  when_ (negb (has_master_partition (get_partition_id e))) (
    rows ← scan_result_rows e;
    when_ (get_next_row_locked e) (
      p ← deref (fun _ => get_next_row_entity e);
      Pasha.decrease_reference_count_via_ptr p);;
    match get_request_type e with
    | SCAN_FOR_DELETE => mret tt
    | _ => for_each (fun r => p ← deref (fun _ => re_meta r); Pasha.decrease_reference_count_via_ptr p) rows
    end).

Definition release_migrated_rows (t : txn) : M world unit :=
  for_each unpin_read (readSet t);;
  for_each unpin_insert (insertSet t);;
  when_ enable_phantom_detection (for_each unpin_scan (scanSet t)).

Definition move_out_hints (t : txn) : list out_message :=
  if reactive then DataMoveOutHint <$> remote_hosts_involved t else [].

Definition abort (t : txn) : M world (list out_message) :=
  for_each rollback_insert (insertSet t);;
  when_ (negb enable_phantom_detection) (for_each rollback_delete (deleteSet t));;
  for_each release_entry (readSet t);;
  when_ enable_phantom_detection (for_each release_scan (scanSet t));;
  release_migrated_rows t;;
  mret (move_out_hints t).

(** ** Commit: inserts and deletes *)

(** [key_info_updater] on the neighbours of the key. *)
Definition forget_neighbours (k : rkey) : M world unit :=
  prev ← gets (prev_key k);
  next ← gets (next_key k);
  Migration.update_neighbour prev Shared.clear_next_key_real_bit;;
  Migration.update_neighbour next Shared.clear_prev_key_real_bit.

Definition commit_insert (e : rwkey) : M world (list out_message) :=
  if has_master_partition (get_partition_id e) then
    k ← key_of e;
    when_ enable_phantom_detection (forget_neighbours k);;
    Pasha.modify_tuple_valid_bit sc me k true true;;
    mret []
  else if enable_phantom_detection then
    k ← key_of e;
    v ← value_of_entry e;
    mret [RemoteInsert (master_coordinator (get_partition_id e)) k v]
  else mret [].

Fixpoint commit_inserts (l : list rwkey) : M world (list out_message) :=
  match l with
  | [] => mret []
  | e :: l => m ← commit_insert e; ms ← commit_inserts l; mret (m ++ ms)
  end.

Definition entity_key (e : rwkey) (r : row_entity) : M world rkey :=
  p ← deref (fun _ => re_key r); mret (get_table_id e, get_partition_id e, key_at p).

Fixpoint commit_scan_delete (e : rwkey) (rows : list row_entity) : M world (list out_message) :=
  match rows with
  | [] => mret []
  | r :: rows =>
      k ← entity_key e r;
      m ← (if has_master_partition (get_partition_id e) then delete_row k;; mret []
           else
             p ← deref (fun _ => re_meta r);
             Pasha.remote_modify_tuple_valid_bit sc me p false false;;
             mret [RemoteDelete (master_coordinator (get_partition_id e)) k]);
      ms ← commit_scan_delete e rows;
      mret (m ++ ms)
  end.

Fixpoint commit_scan_deletes (l : list rwkey) : M world (list out_message) :=
  match l with
  | [] => mret []
  | e :: l =>
      m ← (match get_request_type e with
           | SCAN_FOR_DELETE => rows ← scan_result_rows e; commit_scan_delete e rows
           | _ => mret []
           end);
      ms ← commit_scan_deletes l;
      mret (m ++ ms)
  end.

Definition commit_delete (e : rwkey) : M world unit :=
  when_ (has_master_partition (get_partition_id e)) (k ← key_of e; table_remove k).

(** ** Commit: writes *)

Definition write_entry (e : rwkey) : M world unit :=
  when_ (bit (get_write_lock_bit e)) (
    v ← value_of_entry e;
    let n := value_size (get_table_id e) in
    on_cached_row e (fun k => Pasha.update k v n) (fun p => Pasha.remote_update p v n)).

(** A scan for update writes the bytes of the row it has changed in place. *)
Definition write_scanned (e : rwkey) (r : row_entity) : M world unit :=
  p ← deref (fun _ => re_meta r);
  if has_master_partition (get_partition_id e) then
    d ← deref (fun _ => re_data r);
    Pasha.update (row_at p) (bytes_at d) (value_size (get_table_id e))
  else
    s ← get_smeta p;
    d ← get_scc (Shared.get_scc_data s);
    Pasha.remote_update p (sd_data d) (value_size (get_table_id e)).

Definition write_scan (e : rwkey) : M world unit :=
  match get_request_type e with
  | SCAN_FOR_UPDATE => rows ← scan_result_rows e; for_each (write_scanned e) rows
  | _ => mret tt
  end.

Definition write_and_replicate (t : txn) : M world unit :=
  for_each write_entry (readSet t);;
  when_ enable_phantom_detection (for_each write_scan (scanSet t)).

(** ** Commit: releasing locks with the new versions *)

Definition publish_entry (cur_global_epoch : Z) (e : rwkey) : M world unit :=
  when_ (bit (get_read_lock_bit e)) (on_cached_row e Pasha.read_lock_release Pasha.remote_read_lock_release);;
  when_ (bit (get_write_lock_bit e)) (
    let n := value_size (get_table_id e) in
    let epoch_version := generate_epoch_version (get_tid e) cur_global_epoch in
    on_cached_row e
      (fun k => Pasha.write_lock_release_new sc me k n epoch_version)
      (fun p => Pasha.remote_write_lock_release_new sc me p n epoch_version)).

Definition publish_insert (commit_tid : Z) (e : rwkey) : M world unit :=
  when_ (get_next_row_locked e) (
    let n := value_size (get_table_id e) in
    on_entity (get_partition_id e) (get_next_row_entity e)
      (fun k => Pasha.write_lock_release_new sc me k n commit_tid)
      (fun p => Pasha.remote_write_lock_release_new sc me p n commit_tid)).

(** The rows of a scan for delete are gone; only the next row is released. *)
Definition publish_scan (e : rwkey) : M world unit :=
  rows ← scan_result_rows e;
  when_ (get_next_row_locked e) (release_scanned e (get_next_row_entity e));;
  match get_request_type e with
  | SCAN_FOR_DELETE => mret tt
  | _ => for_each (fun r => release_scanned e (re_meta r)) rows
  end.

Definition release_lock (t : txn) (commit_tid cur_global_epoch : Z) : M world unit :=
  for_each (publish_entry cur_global_epoch) (readSet t);;
  when_ enable_phantom_detection (
    for_each (publish_insert commit_tid) (insertSet t);;
    for_each publish_scan (scanSet t)).

(** The commit record, [ss << commit_tid << true], of a transaction that writes. *)
Definition commit_record (commit_tid : Z) (t : txn) : list bytes :=
  match writeSet t, insertSet t, deleteSet t with
  | [], [], [] => []
  | _, _, _ => [decimal commit_tid ++ decimal 1]
  end.

(** What a commit gives: the result, the worker's [max_tid], the messages it
    sends and the log records it writes. *)
Record outcome := Outcome { ok : bool; new_max_tid : Z; sent : list out_message; logs : list bytes }.

(** [commit]; a logger is always configured, so the epoch can be read from it. *)
Definition commit (max_tid cur_global_epoch : Z) (t : txn) : M world outcome :=
  if abort_lock t then
    ms ← abort t;
    mret (Outcome false max_tid ms [])
  else
    redo ← write_redo_logs_for_commit cur_global_epoch t;
    let commit_tid := generate_tid max_tid t in
    ms1 ← commit_inserts (insertSet t);
    when_ enable_phantom_detection (sync_messages ms1);;
    ms2 ← (if enable_phantom_detection then commit_scan_deletes (scanSet t)
           else for_each commit_delete (deleteSet t);; mret []);
    write_and_replicate t;;
    release_lock t commit_tid cur_global_epoch;;
    release_migrated_rows t;;
    mret (Outcome true commit_tid (ms1 ++ ms2 ++ move_out_hints t) (redo ++ commit_record commit_tid t)).

(** ** Correctness on the rows of the read set *)

Definition size (k : rkey) : nat := value_size k.1.1.
Context {proto : SCCProtocol sc} (Hme : host_ok me).

(** The rows are unlatched between operations, so the search changes nothing. *)
Lemma overhead_id w k t : winv size w -> abs k w = Some t -> model_cxl_search_overhead k w = Ret tt w.
Proof using Type.
  intros Hw Ht. assert (exists r, w_rows w !! k = Some r /\ lm_latch (lr_meta r) = false) as (r & Er & Hl).
  { destruct (abs_cases size w Hw k t Ht) as [(r & E & _ & Hc & _)|(p & o & r & s & d & E & _ & _ & _ & Hc & _)];
      exists r; (split; [exact E|apply Hc]). }
  assert (Hid : w = set_rows (insert k (on_meta (lm_set_latch false) (on_meta (lm_set_latch true) r))) (set_rows (insert k (on_meta (lm_set_latch true) r)) w)).
  { destruct w as [rows sm sd tb cs rt]. unfold set_rows. cbn in *. f_equal. rewrite insert_insert_eq.
    symmetry. apply insert_id. rewrite Er. f_equal. destruct r as [[] ?]. cbn in *. now subst. }
  unfold model_cxl_search_overhead, lm_lock, lm_unlock, mod_row, get_row, cxl_search. mrun. rewrite Er. mrun. rewrite Hl. mrun.
  rewrite Er. mrun. rewrite lookup_insert_eq. mrun. destruct (lm_is_migrated _); mrun; rewrite lookup_insert_eq; mrun; now rewrite <- Hid.
Qed.

(** The entry [e] refers to the row [k]. *)
Definition refers_to (w : world) (e : rwkey) (k : rkey) : Prop :=
  get_table_id e = k.1.1 /\
  if has_master_partition (get_partition_id e)
  then exists p, get_cached_local_row e = Some p /\ row_at p = k
  else exists p, get_cached_migrated_row e = Some p /\ w_tbl w !! k = Some p.

(** An operation on the row of an entry. *)
Lemma cached_row_words {P : Z -> tuple -> unit -> Z -> tuple -> Prop} {P0 : tuple -> unit -> tuple -> Prop} {Q : Z -> unit -> Z -> Prop} ab Pre PreW e k loc rem w t :
  home_spec ab k (size k) (loc k) Pre P0 -> word_spec ab k (size k) (fun _ => loc k) PreW P -> word_spec ab k (size k) rem PreW P ->
  (forall s t x s' t', P s t x s' t' -> P0 t x t' /\ Q s x s') ->
  winv size w -> refers_to w e k -> abs k w = Some t -> Pre t -> (forall p s, w_tbl w !! k = Some p -> w_smeta w !! p = Some s -> PreW s t) ->
  oks ab (on_cached_row e loc rem) w (words_post size w k t P0 Q).
Proof using Type.
  intros Hh Hloc Hrem HP Hw [_ Hr] Ht Hp Hpw. unfold on_cached_row. destruct (has_master_partition _).
  - destruct Hr as (p & -> & <-). eapply oks_step; [reflexivity|].
    eapply oks_step; [|eapply (cell_words size w Hw ab _ _ Pre PreW P); eauto].
    destruct overhead; [now apply (overhead_id w _ t)|reflexivity].
  - destruct Hr as (p & -> & Hp'). eapply oks_step; [reflexivity|].
    destruct (abs_cases size w Hw k t Ht) as [(r & _ & En & _)|(p' & o & r & s & d & E & Et & Es & Ed & Hc & ->)]; [congruence|].
    assert (p' = p) as -> by congruence. eapply (cxl_words size w Hw ab k rem PreW P); eauto.
Qed.

Definition row_post (w : world) (k : rkey) (t : tuple) (eff : tuple -> tuple) (w' : world) : Prop :=
  world_post size w k t (becomes (X := unit) eff) tt w' /\ other_words w k w'.

Lemma cached_row_spec eff ab Pre e k loc rem w t :
  cell_spec ab k (size k) (loc k) Pre (becomes (X := unit) eff) -> cxl_spec ab k (size k) rem Pre (becomes (X := unit) eff) ->
  winv size w -> refers_to w e k -> abs k w = Some t -> Pre t ->
  oks ab (on_cached_row e loc rem) w (fun _ w' => row_post w k t eff w').
Proof using Type.
  intros [Hh Hc] Hrem Hw Hr Ht Hp.
  eapply oks_mono; [apply (cached_row_words (P := fun _ t x _ t' => becomes eff t x t') (P0 := becomes eff) (Q := fun _ _ _ => True) ab Pre (fun _ => Pre) e k loc rem w t); eauto|].
  intros [] w' (H1 & H2 & _). now split.
Qed.

(** Where a row is in CXL memory, this host has prepared for its write. *)
Definition write_ready (w : world) (k : rkey) : Prop :=
  forall p s, w_tbl w !! k = Some p -> w_smeta w !! p = Some s -> ready me s = true.

Lemma write_ready_other w k w' k' : other_words w k w' -> k' <> k -> write_ready w k' -> write_ready w' k'.
Proof using Type. intros [Et Ew] Hk H p s Hp Hs. rewrite Et in Hp. rewrite (Ew k' p Hk Hp) in Hs. eauto. Qed.

(** A loop over entries of different rows, each with an effect on its own row. *)
Lemma for_each_spec ab (f : rwkey -> M world unit) (eff : rwkey -> tuple -> tuple) (Pre : world -> rwkey -> rkey -> tuple -> Prop) (Rel : world -> world -> Prop) es :
  (forall w, Rel w w) -> (forall w1 w2 w3, Rel w1 w2 -> Rel w2 w3 -> Rel w1 w3) ->
  (forall e k w t, (e, k) ∈ es -> winv size w -> abs k w = Some t -> Pre w e k t ->
     oks ab (f e) w (fun _ w' => row_post w k t (eff e) w' /\ Rel w w')) ->
  (forall w w' e k k' t, other_words w k' w' -> k <> k' -> Pre w e k t -> Pre w' e k t) ->
  NoDup (snd <$> es) -> forall w, winv size w ->
  (forall e k, (e, k) ∈ es -> exists t, abs k w = Some t /\ Pre w e k t) ->
  oks ab (for_each f (fst <$> es)) w (fun _ w' =>
    (winv size w' /\ w_tbl w' = w_tbl w /\
    (forall e k t, (e, k) ∈ es -> abs k w = Some t -> abs k w' = Some (eff e t)) /\
    (forall k, k ∉ snd <$> es -> abs k w' = abs k w)) /\ Rel w w').
Proof using Type.
  intros Hrefl Htrans Hf Hmono. induction es as [|[e k] es IH]; intros Hnd w Hw Hpre; cbn [for_each fmap list_fmap fst snd] in *.
  { apply oks_ret. split; [|apply Hrefl]. split_and!; auto. intros e k t H. now apply elem_of_nil in H. }
  apply NoDup_cons in Hnd as [Hk Hnd]. destruct (Hpre e k) as (t & Ht & Hp); [now left|].
  apply oks_bind. eapply oks_mono; [apply (Hf e k w t); auto; now left|].
  intros [] w1 (((Hw1 & (t' & Ht' & ->) & Hframe & Htbl) & Hoth) & Hrel).
  assert (Hne : forall e' k', (e', k') ∈ es -> k' <> k).
  { intros e' k' Hin ->. apply Hk. apply list_elem_of_fmap. now exists (e', k). }
  eapply oks_mono; [apply IH; [|exact Hnd|exact Hw1|]|].
  - intros e' k' w2 t2 Hin. apply Hf. now right.
  - intros e' k' Hin. destruct (Hpre e' k') as (t2 & Ht2 & Hp2); [now right|]. exists t2. split; [|eapply (Hmono w); eauto].
    rewrite Hframe; [exact Ht2|]. now apply (Hne e').
  - cbv beta. intros [] w2 ((Hw2 & Htbl2 & Hin2 & Hout2) & Hrel2). split; [|eauto]. split_and!; [exact Hw2|congruence| |].
    + intros e' k' t2 Hin E. apply elem_of_cons in Hin as [[= -> ->]|Hin].
      * rewrite Hout2 by exact Hk. congruence.
      * apply Hin2; [exact Hin|]. rewrite Hframe; [exact E|]. now apply (Hne e').
    + intros k' Hk'. apply not_elem_of_cons in Hk' as [Hk1 Hk2]. rewrite Hout2 by exact Hk2. now apply Hframe.
Qed.

(** The locks of an entry are held on its row. *)
Record entry_held (w : world) (e : rwkey) (k : rkey) (t : tuple) : Prop := EntryHeld {
  eh_refers : bit (get_read_lock_bit e) || bit (get_write_lock_bit e) = true -> refers_to w e k;
  eh_bits : bit (get_read_lock_bit e) && bit (get_write_lock_bit e) = false;
  eh_read : bit (get_read_lock_bit e) = true -> held_read t;
  eh_write : bit (get_write_lock_bit e) = true -> held_write t;
  eh_pinned : get_reference_counted e = true ->
    exists p, get_key e = Some p /\ (get_table_id e, get_partition_id e, key_at p) = k /\ is_Some (w_tbl w !! k)
}.

(** A write has a value of the size of the table, and the next version fits in
    the version word. *)
Definition write_ok (g : Z) (e : rwkey) (k : rkey) : Prop :=
  bit (get_write_lock_bit e) = true ->
  (exists p, get_value e = Some p /\ length (bytes_at p) = size k) /\ fits 58 (generate_epoch_version (get_tid e) g).

Lemma entry_held_tbl w w' e k t : w_tbl w' = w_tbl w -> entry_held w e k t -> entry_held w' e k t.
Proof using Type.
  intros E [H1 H2 H3 H4 H5]. constructor; auto; unfold refers_to in *; rewrite E; assumption.
Qed.

(** What the three loops do to a row. *)
Definition value_at (e : rwkey) : bytes := from_option bytes_at [] (get_value e).
Definition written (e : rwkey) (t : tuple) : tuple :=
  if bit (get_write_lock_bit e) then with_value (value_at e) t else t.
Definition released (e : rwkey) (t : tuple) : tuple :=
  if bit (get_read_lock_bit e) then with_lock one_less t
  else if bit (get_write_lock_bit e) then with_lock freed t else t.
Definition published_entry (g : Z) (e : rwkey) (t : tuple) : tuple :=
  if bit (get_read_lock_bit e) then with_lock one_less t
  else if bit (get_write_lock_bit e) then with_lock (published (generate_epoch_version (get_tid e) g)) t else t.

Lemma post_id w k t : winv size w -> abs k w = Some t -> row_post w k t (fun t => t) w.
Proof using Type. intros Hw Ht. split; [|now split]. split_and!; auto. now exists t. Qed.

Lemma skip_then {A} ab (f : unit -> M world A) w Q : oks ab (f tt) w Q -> oks ab (mret tt ≫= f) w Q.
Proof using Type. easy. Qed.

Lemma then_skip ab (m : M world unit) w (Q : unit -> world -> Prop) :
  oks ab m w Q -> oks ab (m ≫= fun _ => mret tt) w Q.
Proof using Type. unfold oks. cbv [mbind M_bind mret M_ret]. now destruct (m w) as [[]| | |]. Qed.

Lemma release_entry_spec e k w t :
  winv size w -> abs k w = Some t -> entry_held w e k t ->
  oks false (release_entry e) w (fun _ w' => row_post w k t (released e) w').
Proof using Type.
  intros Hw Ht [Hr Hb Hrd Hwr _]. unfold release_entry, released. destruct (bit (get_read_lock_bit e)).
  - cbn in Hb. rewrite Hb. cbn [when_]. apply then_skip. specialize (Hr eq_refl).
    eapply (cached_row_spec _ false held_read); eauto using read_release_cell, remote_read_lock_release_cxl.
  - apply skip_then. destruct (bit (get_write_lock_bit e)); [|now apply oks_ret, post_id]. specialize (Hr eq_refl).
    eapply (cached_row_spec _ false held_write); eauto using write_release_cell, remote_write_lock_release_cxl.
Qed.

(** A row whose write this host has prepared stays so when its data are written. *)
Definition ready_kept (w w' : world) : Prop := forall k, write_ready w k -> write_ready w' k.

Lemma write_entry_spec g e k w t :
  winv size w -> abs k w = Some t -> entry_held w e k t -> write_ok g e k ->
  oks false (write_entry e) w (fun _ w' => row_post w k t (written e) w' /\ ready_kept w w').
Proof using Hme proto.
  intros Hw Ht [Hr _ _ _ _] Hv. unfold write_entry, written.
  destruct (bit (get_write_lock_bit e)) eqn:Ew; [|apply oks_ret; split; [now apply post_id|now intros k']]. rewrite orb_true_r in Hr. specialize (Hr eq_refl).
  destruct (Hv ltac:(assumption)) as [(p & Ep & Hl) _]. unfold when_, value_of_entry. rewrite Ep.
  eapply oks_step; [reflexivity|]. cbv zeta beta. unfold value_at. rewrite Ep. cbn [from_option].
  destruct Hr as [Htab Hr']. change (value_size (get_table_id e)) with (size (get_table_id e, 0, 0)).
  replace (size (get_table_id e, 0, 0)) with (size k) by (unfold size; cbn; now rewrite Htab).
  eapply oks_mono; [eapply (cached_row_words (P0 := becomes (with_value (bytes_at p))) (Q := fun s _ s' => Shared.sh_scc (Shared.sview s') = Shared.sh_scc (Shared.sview s)) false (fun _ => True) (fun _ _ => True));
    [now apply update_home|now apply update_word|now apply remote_update_word|now intros s tp [] s' tp' [H1 H2]|exact Hw|now split|exact Ht|easy|easy]|].
  intros [] w' (H1 & H2 & H3). split; [now split|]. intros k' Hk'. destruct (decide (k' = k)) as [->|Hne]; [|now apply (write_ready_other w k)].
  intros q s Eq Es. rewrite (proj1 H2) in Eq. pose proof (proj1 H1) as Hw'. destruct (w_smeta w !! q) as [s0|] eqn:E0.
  - destruct (H3 q s0 Eq E0) as (s' & Es' & Hs'). assert (s' = s) as -> by congruence. rewrite (ready_scc me s s0 Hme Hs'). eauto.
  - destruct (tbl_word size w Hw k q Eq). congruence.
Qed.

Lemma publish_entry_spec g e k w t :
  winv size w -> abs k w = Some t -> entry_held w e k t -> write_ok g e k -> (bit (get_write_lock_bit e) = true -> write_ready w k) ->
  oks false (publish_entry g e) w (fun _ w' => row_post w k t (published_entry g e) w').
Proof using Hme proto.
  intros Hw Ht [Hr Hb Hrd Hwr _] Hver Hrdy. unfold publish_entry, published_entry. destruct (bit (get_read_lock_bit e)).
  - cbn in Hb. rewrite Hb. cbn [when_]. apply then_skip. specialize (Hr eq_refl).
    eapply (cached_row_spec _ false held_read); eauto using read_release_cell, remote_read_lock_release_cxl.
  - apply skip_then. destruct (bit (get_write_lock_bit e)) eqn:Ew; [|now apply oks_ret, post_id].
    destruct (Hver Ew) as [_ Hver']. cbn [when_]. cbv zeta. destruct (Hr eq_refl) as [Htab Hr'].
    change (value_size (get_table_id e)) with (size (get_table_id e, 0, 0)).
    replace (size (get_table_id e, 0, 0)) with (size k) by (unfold size; cbn; now rewrite Htab).
    eapply oks_mono; [eapply (cached_row_words (Q := fun _ _ _ => True) false held_write (may_finish sc me false));
      [now apply write_lock_release_new_home|now apply write_lock_release_new_word|now apply remote_write_lock_release_new_word|intros s tp x s' tp' H; split; [exact H|easy]|exact Hw|now split|exact Ht|now apply Hwr|]|].
    + intros p s Ep Es. split; [now apply Hwr|]. intros _. exact (Hrdy eq_refl p s Ep Es).
    + intros [] w' (H1 & H2 & _). now split.
Qed.

Definition pin_ok (w : world) (e : rwkey) (k : rkey) : Prop :=
  get_reference_counted e = true ->
  exists p, get_key e = Some p /\ (get_table_id e, get_partition_id e, key_at p) = k /\ is_Some (w_tbl w !! k).

Lemma unpin_read_spec e k w t :
  winv size w -> abs k w = Some t -> pin_ok w e k ->
  oks false (unpin_read e) w (fun _ w' => row_post w k t (fun t => t) w').
Proof using Type.
  intros Hw Ht Hpin. unfold unpin_read. destruct (get_reference_counted e) eqn:Hc; [|now apply oks_ret, post_id].
  destruct (Hpin Hc) as (p & Ep & Hk & q & Hq). cbn [when_]. unfold key_of. rewrite Ep.
  eapply oks_step; [reflexivity|]. rewrite Hk.
  destruct (abs_cases size w Hw k t Ht) as [(r & _ & En & _)|(p' & o & r & s & d & E & Et & Es & Ed & Hcc & ->)]; [congruence|].
  assert (p' = q) as -> by congruence.
  eapply (oks_step _ (cxl_search k)); [reflexivity|]. rewrite Hq. eapply oks_step; [reflexivity|].
  eapply oks_mono; [apply (cxl_words size w Hw false k Pasha.decrease_reference_count_via_ptr (fun _ _ => True) (fun _ t x _ t' => becomes (fun t => t) t x t') (becomes (fun t => t)) (fun _ _ _ => True) q o r s d); auto;
    exact (decrease_reference_count_via_ptr_cxl k (size k))|].
  intros [] w' (H1 & H2 & _). now split.
Qed.

Lemma oks_eq_ret {ab} w (m : M world unit) : m w = Ret tt w -> oks ab m w (fun _ w' => w' = w).
Proof using Type. unfold oks. now intros ->. Qed.

(** A transaction that reads and updates: entries of different rows, whose
    locks it holds. *)
Record holds (w : world) (es : list (rwkey * rkey)) (t : txn) : Prop := Holds {
  h_reads : readSet t = fst <$> es;
  h_inserts : insertSet t = [];
  h_deletes : deleteSet t = [];
  h_scans : scanSet t = [];
  h_rows : NoDup (snd <$> es);
  h_entries : forall e k, (e, k) ∈ es -> exists tp, abs k w = Some tp /\ entry_held w e k tp
}.

(** Such a transaction, ready to commit. *)
Record updates (g : Z) (w : world) (es : list (rwkey * rkey)) (t : txn) : Prop := Updates {
  u_holds : holds w es t;
  u_writes : Forall (fun e => is_Some (get_key e) /\ is_Some (get_value e)) (writeSet t);
  u_values : forall e k, (e, k) ∈ es -> write_ok g e k;
  u_ready : forall e k, (e, k) ∈ es -> bit (get_write_lock_bit e) = true -> write_ready w k
}.

(** The effect of a list of entries on the rows. *)
Definition rows_become (eff : rwkey -> tuple -> tuple) (es : list (rwkey * rkey)) (w w' : world) : Prop :=
  winv size w' /\ w_tbl w' = w_tbl w /\
  (forall e k t, (e, k) ∈ es -> abs k w = Some t -> abs k w' = Some (eff e t)) /\
  (forall k, k ∉ snd <$> es -> abs k w' = abs k w).

Lemma rows_become_trans f g es w w1 w2 :
  rows_become f es w w1 -> rows_become g es w1 w2 -> rows_become (fun e t => g e (f e t)) es w w2.
Proof using Type.
  intros (_ & E1 & H1 & F1) (Hw & E2 & H2 & F2). split_and!; [exact Hw|congruence| |].
  - intros e k t Hin Ht. apply H2; [exact Hin|]. now apply H1.
  - intros k Hk. rewrite F2 by exact Hk. now apply F1.
Qed.

(** One of the loops of [commit] and [abort]. *)
Lemma loop_spec f eff Rel (Rdy : world -> rwkey -> rkey -> Prop) es w :
  (forall w, Rel w w) -> (forall w1 w2 w3, Rel w1 w2 -> Rel w2 w3 -> Rel w1 w3) ->
  (forall w w' e k k', other_words w k' w' -> k <> k' -> Rdy w e k -> Rdy w' e k) ->
  (forall e k w t, (e, k) ∈ es -> winv size w -> abs k w = Some t -> entry_held w e k t -> Rdy w e k ->
     oks false (f e) w (fun _ w' => row_post w k t (eff e) w' /\ Rel w w')) ->
  NoDup (snd <$> es) -> winv size w ->
  (forall e k, (e, k) ∈ es -> exists tp, abs k w = Some tp /\ entry_held w e k tp) -> (forall e k, (e, k) ∈ es -> Rdy w e k) ->
  oks false (for_each f (fst <$> es)) w (fun _ w' => rows_become eff es w w' /\ Rel w w').
Proof using Type.
  intros H1 H2 Hm Hf Hnd Hw Hes Hr. apply (for_each_spec false f eff (fun w e k t => entry_held w e k t /\ Rdy w e k)); auto.
  - intros e k w1 t Hin Hw1 Ht [Hh Hd]. now apply Hf.
  - intros w1 w2 e k k' t Ho Hne [Hh Hd]. split; [eapply entry_held_tbl; [apply Ho|exact Hh]|eauto].
  - intros e k Hin. destruct (Hes e k Hin) as (t & Ht & Hh). eauto.
Qed.

(** A loop that needs no more than the locks. *)
Lemma plain_loop f eff es w :
  (forall e k w t, (e, k) ∈ es -> winv size w -> abs k w = Some t -> entry_held w e k t -> oks false (f e) w (fun _ w' => row_post w k t (eff e) w')) ->
  NoDup (snd <$> es) -> winv size w ->
  (forall e k, (e, k) ∈ es -> exists tp, abs k w = Some tp /\ entry_held w e k tp) ->
  oks false (for_each f (fst <$> es)) w (fun _ w' => rows_become eff es w w').
Proof using Type.
  intros Hf Hnd Hw Hes. eapply oks_mono; [apply (loop_spec f eff (fun _ _ => True) (fun _ _ _ => True)); auto|now intros [] w' [H _]].
  intros e k w1 t Hin Hw1 Ht Hh _. eapply oks_mono; [now apply (Hf e k w1 t)|]. auto.
Qed.

(** Writing keeps the locks. *)
Lemma written_held es w w1 :
  rows_become written es w w1 ->
  (forall e k, (e, k) ∈ es -> exists tp, abs k w = Some tp /\ entry_held w e k tp) ->
  forall e k, (e, k) ∈ es -> exists tp, abs k w1 = Some tp /\ entry_held w1 e k tp.
Proof using Type.
  intros (_ & E & H & _) Hes e k Hin. destruct (Hes e k Hin) as (tp & Ht & Hok). exists (written e tp).
  split; [now apply H|]. apply (entry_held_tbl w); [exact E|]. destruct Hok as [H1 H2 H3 H4 H5].
  constructor; auto; unfold written; destruct (bit (get_write_lock_bit e)); auto.
Qed.

(** After the locks are gone, the rows can still be unpinned. *)
Lemma unpin_loop es w w1 eff :
  rows_become eff es w w1 -> NoDup (snd <$> es) ->
  (forall e k, (e, k) ∈ es -> exists tp, abs k w = Some tp /\ entry_held w e k tp) ->
  oks false (for_each unpin_read (fst <$> es)) w1 (fun _ w2 => rows_become (fun _ t => t) es w1 w2).
Proof using Type.
  intros (Hw & E & H & _) Hnd Hes. eapply oks_mono.
  - apply (for_each_spec false unpin_read (fun _ t => t) (fun w e k _ => pin_ok w e k) (fun _ _ => True)); auto.
    + intros e k w2 t _ Hw2 Ht Hpin. eapply oks_mono; [now apply (unpin_read_spec e k w2 t)|]. auto.
    + intros w2 w3 e k k' t Ho _ Hpin. unfold pin_ok. now rewrite (proj1 Ho).
    + intros e k Hin. destruct (Hes e k Hin) as (tp & Ht & Hok). exists (eff e tp). split; [now apply H|].
      unfold pin_ok. rewrite E. apply Hok.
  - now intros [] w2 [Hb _].
Qed.

(** What a committed and an aborted transaction leave behind. *)
Definition committed (g : Z) (e : rwkey) (t : tuple) : tuple := published_entry g e (written e t).

(** Every write is logged. *)
Lemma redo_logs_total g w t :
  Forall (fun e => is_Some (get_key e) /\ is_Some (get_value e)) (writeSet t) -> insertSet t = [] -> deleteSet t = [] ->
  exists l, write_redo_logs_for_commit g t w = Ret l w /\ length l = length (writeSet t).
Proof using Type.
  intros Hws Hi Hd. assert (exists l, redo_logs LogUpdate g (writeSet t) w = Ret l w /\ length l = length (writeSet t)) as (l & E & Hl).
  { induction Hws as [|e es [[p Hp] [q Hq]] _ (l & E & Hl)]; [now exists []|]. cbn [redo_logs]. unfold key_bytes, value_of_entry.
    rewrite Hp, Hq. mrun. rewrite E. eexists. split; [reflexivity|]. cbn. now rewrite Hl. }
  exists l. split; [|exact Hl]. unfold write_redo_logs_for_commit. rewrite Hi, Hd. erewrite bind_Ret by exact E. mrun.
  now rewrite app_nil_r.
Qed.

(** Commit installs the writes and releases the locks.  For a transaction
    that holds the locks of its entries, on its own host or in CXL memory, and
    whose host has prepared for its writes, [commit] returns: true, every row it
    write-locked has the new value and the next version and no lock, every row it
    read-locked has one reader less and is otherwise unchanged, no other row has
    changed, and a redo record per write and a commit record have been logged. *)
Theorem commit_installs max_tid g w es t :
  winv size w -> updates g w es t -> abort_lock t = false ->
  oks false (commit max_tid g t) w (fun res w' =>
    ok res = true /\ new_max_tid res = generate_tid max_tid t /\ sent res = move_out_hints t /\
    length (logs res) = (length (writeSet t) + match writeSet t with [] => 0 | _ => 1 end)%nat /\ rows_become (committed g) es w w').
Proof using Hme proto.
  intros Hw [[Hr Hi Hd Hs Hnd Hes] Hwl Hval Hrdy] Hab. unfold commit. rewrite Hab.
  destruct (redo_logs_total g w t Hwl Hi Hd) as (redo & Eredo & Hlen). eapply oks_step; [exact Eredo|]. cbv beta zeta.
  rewrite Hi, Hs, Hd. cbn [commit_inserts].
  eapply oks_step; [reflexivity|]. cbv beta. eapply (oks_step _ _ _ _ tt); [destruct enable_phantom_detection; reflexivity|]. cbv beta.
  eapply (oks_step _ _ _ _ []); [destruct enable_phantom_detection; reflexivity|]. cbv beta.
  unfold write_and_replicate, release_lock, release_migrated_rows. rewrite Hr, Hi, Hs.
  apply oks_bind, oks_bind. eapply oks_mono; [apply (loop_spec _ written ready_kept (fun _ _ _ => True)); auto; [now intros w1 k|intros w1 w2 w3 H1 H2 k Hk; auto|eauto using write_entry_spec]|].
  intros [] w1 [H1 Hk1]. eapply oks_mono; [eapply (oks_eq_ret w1); destruct enable_phantom_detection; reflexivity|]. intros [] w1' ->.
  apply oks_bind, oks_bind. eapply oks_mono.
  { apply (loop_spec _ (published_entry g) (fun _ _ => True) (fun w e k => bit (get_write_lock_bit e) = true -> write_ready w k) es w1); auto.
    - intros w2 w3 e k k' Ho Hne H Hb. eapply write_ready_other; eauto.
    - intros e k w2 tp Hin Hw2 Ht Hh Hb. eapply oks_mono; [apply (publish_entry_spec g e k w2 tp); eauto|]. auto.
    - apply H1.
    - now apply (written_held es w).
    - intros e k Hin Hb. apply Hk1. eauto. }
  intros [] w2 [H2 _]. eapply oks_mono; [eapply (oks_eq_ret w2); destruct enable_phantom_detection; reflexivity|]. intros [] w2' ->.
  apply oks_bind, oks_bind. eapply oks_mono; [eapply (unpin_loop es w); [exact (rows_become_trans _ _ _ _ _ _ H1 H2)|exact Hnd|exact Hes]|].
  intros [] w3 H3. eapply oks_mono; [eapply (oks_eq_ret w3); destruct enable_phantom_detection; reflexivity|]. intros [] w3' ->.
  apply oks_ret. cbn [ok new_max_tid sent logs]. split_and!; auto.
  - rewrite length_app, Hlen. unfold commit_record. rewrite Hi, Hd. now destruct (writeSet t).
  - exact (rows_become_trans _ _ _ _ _ _ (rows_become_trans _ _ _ _ _ _ H1 H2) H3).
Qed.

(** Abort undoes nothing but the locks: every lock the transaction held is
    released, on both kinds of rows, and no value, version or valid bit of any
    row has changed. *)
Theorem abort_releases w es t :
  winv size w -> holds w es t ->
  oks false (abort t) w (fun ms w' => ms = move_out_hints t /\ rows_become released es w w').
Proof using Type.
  intros Hw [Hr Hi Hd Hs Hnd Hes]. unfold abort. rewrite Hi, Hd.
  eapply oks_step; [reflexivity|]. cbv beta. eapply (oks_step _ _ _ _ tt); [destruct enable_phantom_detection; reflexivity|]. cbv beta.
  rewrite Hr. apply oks_bind. eapply oks_mono; [apply (plain_loop _ released); [eauto using release_entry_spec|exact Hnd|exact Hw|exact Hes]|].
  intros [] w1 H1. rewrite Hs. eapply (oks_step _ _ _ _ tt); [destruct enable_phantom_detection; reflexivity|]. cbv beta.
  unfold release_migrated_rows. rewrite Hr, Hi, Hs. apply oks_bind, oks_bind.
  eapply oks_mono; [eapply (unpin_loop es w); [exact H1|exact Hnd|exact Hes]|].
  intros [] w2 H2. eapply oks_mono; [eapply (oks_eq_ret w2); destruct enable_phantom_detection; reflexivity|]. intros [] w2' ->.
  apply oks_ret. split; [easy|]. exact (rows_become_trans _ _ _ _ _ _ H1 H2).
Qed.
End protocol.
End TwoPLPasha.
