(* ===== verification/Execute.v ===== *)
(** * Executing a transaction

    protocol/TwoPLPasha/TwoPLPashaTransaction.h, the request handlers of
    TwoPLPashaExecutor.h and the message handlers of TwoPLPashaMessage.h.

    A transaction collects requests in its sets; [process_requests] serves the
    new ones, the youngest first: the owner of a partition locks and reads its
    rows in place, another host uses the rows in CXL memory and asks the owner
    to move in the ones that are not there.  The state of an execution is the
    transaction, the rows, the buffers its value pointers refer to and the
    vectors its scans fill.  What the owners do while the host waits, between
    the messages it sends and the answers it gets, is the parameter
    [exchange]; [serve] is the owner's side.  The transaction id in a message
    is only passed around, and statistics are left out.  A local index is
    replicated and never written, so it is read from the same rows. *)

From stdpp Require Import sorting.
From S2P Require Import Prelude LockWord SharedWord SCC CXLMemory PashaState PashaHelper PashaMigration PashaRow PashaOps PashaMove PashaTable RWKey Commit.
Import RWKey.TwoPLPashaRWKey.

(** The messages of the execution phase, with the host they go to. *)
Inductive request :=
| DataMigrationRequest (host : Z) (k : rkey) (key_offset : nat)
| DataMigrationRequestForScan (host table_id partition_id min max limit : Z) (key_offset : nat).

Inductive response :=
| DataMigrationResponse (table_id partition_id : Z) (success : bool) (key_offset : nat)
| DataMigrationResponseForScan (table_id partition_id : Z) (success : bool) (key_offset : nat).

Record execution := Execution {
  x_world : world;
  x_txn : txn;
  (** the buffers behind the value pointers *)
  x_mem : gmap Z bytes;
  (** the vectors behind the scan-result pointers *)
  x_vec : gmap Z (list row_entity);
  abort_read_validation : bool;
  abort_insert : bool;
  abort_delete : bool;
  distributed_transaction : bool;
  pendingResponses : Z;
  (** messages that are not flushed yet *)
  x_out : list request
}.

(** ** Assignments to the fields *)

Definition set_world (w : world) (x : execution) : execution :=
  Execution w (x_txn x) (x_mem x) (x_vec x) (abort_read_validation x) (abort_insert x) (abort_delete x) (distributed_transaction x) (pendingResponses x) (x_out x).
Definition on_txn (f : txn -> txn) (x : execution) : execution :=
  Execution (x_world x) (f (x_txn x)) (x_mem x) (x_vec x) (abort_read_validation x) (abort_insert x) (abort_delete x) (distributed_transaction x) (pendingResponses x) (x_out x).
Definition on_mem_map (f : gmap Z bytes -> gmap Z bytes) (x : execution) : execution :=
  Execution (x_world x) (x_txn x) (f (x_mem x)) (x_vec x) (abort_read_validation x) (abort_insert x) (abort_delete x) (distributed_transaction x) (pendingResponses x) (x_out x).
Definition on_vec_map (f : gmap Z (list row_entity) -> gmap Z (list row_entity)) (x : execution) : execution :=
  Execution (x_world x) (x_txn x) (x_mem x) (f (x_vec x)) (abort_read_validation x) (abort_insert x) (abort_delete x) (distributed_transaction x) (pendingResponses x) (x_out x).
Definition set_abort_insert (x : execution) : execution :=
  Execution (x_world x) (x_txn x) (x_mem x) (x_vec x) (abort_read_validation x) true (abort_delete x) (distributed_transaction x) (pendingResponses x) (x_out x).
Definition set_abort_delete (x : execution) : execution :=
  Execution (x_world x) (x_txn x) (x_mem x) (x_vec x) (abort_read_validation x) (abort_insert x) true (distributed_transaction x) (pendingResponses x) (x_out x).
Definition set_distributed (x : execution) : execution :=
  Execution (x_world x) (x_txn x) (x_mem x) (x_vec x) (abort_read_validation x) (abort_insert x) (abort_delete x) true (pendingResponses x) (x_out x).
(** A message is put in the buffer of its host, and its answer is expected. *)
Definition send_request (m : request) (x : execution) : execution :=
  Execution (x_world x) (x_txn x) (x_mem x) (x_vec x) (abort_read_validation x) (abort_insert x) (abort_delete x) (distributed_transaction x) (pendingResponses x + 1) (x_out x ++ [m]).
Definition answered (x : execution) : execution :=
  Execution (x_world x) (x_txn x) (x_mem x) (x_vec x) (abort_read_validation x) (abort_insert x) (abort_delete x) (distributed_transaction x) (pendingResponses x - 1) (x_out x).
Definition flushed (x : execution) : execution :=
  Execution (x_world x) (x_txn x) (x_mem x) (x_vec x) (abort_read_validation x) (abort_insert x) (abort_delete x) (distributed_transaction x) (pendingResponses x) [].

Definition with_reads (f : list rwkey -> list rwkey) (t : txn) : txn :=
  Txn (f (readSet t)) (writeSet t) (insertSet t) (deleteSet t) (scanSet t) (abort_lock t) (remote_hosts_involved t).
Definition with_writes (f : list rwkey -> list rwkey) (t : txn) : txn :=
  Txn (readSet t) (f (writeSet t)) (insertSet t) (deleteSet t) (scanSet t) (abort_lock t) (remote_hosts_involved t).
Definition with_inserts (f : list rwkey -> list rwkey) (t : txn) : txn :=
  Txn (readSet t) (writeSet t) (f (insertSet t)) (deleteSet t) (scanSet t) (abort_lock t) (remote_hosts_involved t).
Definition with_deletes (f : list rwkey -> list rwkey) (t : txn) : txn :=
  Txn (readSet t) (writeSet t) (insertSet t) (f (deleteSet t)) (scanSet t) (abort_lock t) (remote_hosts_involved t).
Definition with_scans (f : list rwkey -> list rwkey) (t : txn) : txn :=
  Txn (readSet t) (writeSet t) (insertSet t) (deleteSet t) (f (scanSet t)) (abort_lock t) (remote_hosts_involved t).
Definition set_abort_lock (t : txn) : txn :=
  Txn (readSet t) (writeSet t) (insertSet t) (deleteSet t) (scanSet t) true (remote_hosts_involved t).
(** [remote_hosts_involved.insert(h)] *)
Definition involve (h : Z) (t : txn) : txn :=
  Txn (readSet t) (writeSet t) (insertSet t) (deleteSet t) (scanSet t) (abort_lock t)
    (if bool_decide (h ∈ remote_hosts_involved t) then remote_hosts_involved t else remote_hosts_involved t ++ [h]).

Definition on_read (i : nat) (f : rwkey -> rwkey) : execution -> execution := on_txn (with_reads (alter f i)).
Definition on_scan (i : nat) (f : rwkey -> rwkey) : execution -> execution := on_txn (with_scans (alter f i)).
Definition on_insert (i : nat) (f : rwkey -> rwkey) : execution -> execution := on_txn (with_inserts (alter f i)).
Definition on_delete (i : nat) (f : rwkey -> rwkey) : execution -> execution := on_txn (with_deletes (alter f i)).

Definition on_world {A} : M world A -> M execution A := lift_with x_world set_world.

Module TwoPLPashaTransaction.

(** ** The requests a workload makes *)

Definition reset (x : execution) : execution :=
  Execution (x_world x) (Txn [] [] [] [] [] false (remote_hosts_involved (x_txn x))) (x_mem x) (x_vec x) false false false false 0 (x_out x).

Definition should_abort (x : execution) : bool :=
  abort_lock (x_txn x) || abort_read_validation x || abort_insert x || abort_delete x.

Definition add_to_read_set (e : rwkey) : execution -> execution := on_txn (with_reads (fun l => l ++ [e])).
Definition add_to_write_set (e : rwkey) : execution -> execution := on_txn (with_writes (fun l => l ++ [e])).
Definition add_to_scan_set (e : rwkey) : execution -> execution := on_txn (with_scans (fun l => l ++ [e])).
Definition add_to_insert_set (e : rwkey) : execution -> execution := on_txn (with_inserts (fun l => l ++ [e])).
Definition add_to_delete_set (e : rwkey) : execution -> execution := on_txn (with_deletes (fun l => l ++ [e])).

Definition tuple_entry (table_id partition_id : Z) (key value : option Z) : rwkey :=
  set_value value (set_key key (set_partition_id partition_id (set_table_id table_id fresh_key))).

Definition search_local_index (table_id partition_id key value : Z) : execution -> execution :=
  add_to_read_set (set_read_lock_request_bit (set_local_index_read_bit (tuple_entry table_id partition_id (Some key) (Some value)))).
Definition search_for_read (table_id partition_id key value : Z) : execution -> execution :=
  add_to_read_set (set_read_lock_request_bit (tuple_entry table_id partition_id (Some key) (Some value))).
Definition search_for_update (table_id partition_id key value : Z) : execution -> execution :=
  add_to_read_set (set_write_lock_request_bit (tuple_entry table_id partition_id (Some key) (Some value))).
Definition update (table_id partition_id key value : Z) : execution -> execution :=
  add_to_write_set (tuple_entry table_id partition_id (Some key) (Some value)).

(** [scan_for_read], [scan_for_update], [scan_for_insert] and [scan_for_delete]
    differ in the type they record. *)
Definition scan_for (ty : scan_type) (table_id partition_id min_key max_key limit results : Z) : execution -> execution :=
  add_to_scan_set (set_scan_args (Some min_key) (Some max_key) limit (Some results) ty
    (set_partition_id partition_id (set_table_id table_id fresh_key))).

Definition insert_row (table_id partition_id key value : Z) (require_lock_next_key : bool) : execution -> execution :=
  let e := tuple_entry table_id partition_id (Some key) (Some value) in
  add_to_insert_set (if require_lock_next_key then set_require_lock_next_row e else e).
Definition delete_row (table_id partition_id key : Z) : execution -> execution :=
  add_to_delete_set (tuple_entry table_id partition_id (Some key) None).

End TwoPLPashaTransaction.

(** ** Scanning the rows of a table in key order *)

Definition keys_from (table_id partition_id low : Z) (rows : gset rkey) : list Z :=
  merge_sort Z.le (snd <$> filter (fun k : rkey => k.1 = (table_id, partition_id) /\ low <= k.2) (elements rows)).

Fixpoint scan_keys {S St} (p : St -> Z -> bool -> M S (bool * St)) (ks : list Z) (s : St) : M S St :=
  match ks with
  | [] => mret s
  | k :: ks =>
      '(stop, s') ← p s k (match ks with [] => true | _ => false end);
      if stop : bool then mret s' else scan_keys p ks s'
  end.

(** What the processor of a scan keeps beside the results. *)
Record scan_state := ScanState { sc_next : option row_entity; sc_success : bool; migration_required : bool }.

(** What a request for a lock gives back. *)
Record lock_answer := Answer { la_tid : Z; la_local : option Z; la_migrated : option Z; la_success : bool; la_remote : bool }.

Module TwoPLPashaExecutor.
Import TwoPLPasha TwoPLPashaTransaction.

Section handlers.
Context (sc : SCCManager) {pol : PolicyMeta} (me : Z) (value_size : Z -> nat) (master_coordinator : Z -> Z).
(** What the key pointers refer to, and the addresses of rows: the metadata, the
    bytes and the copy of the key in a row entity. *)
Context (key_at : Z -> Z) (row_addr data_addr key_addr : rkey -> Z) (cxl_data_addr : Z -> Z).
(** The configuration; [replica_here] is [is_partition_replicated_on] of this
    host, for [read_on_replica]. *)
Context (enable_phantom_detection overhead reactive : bool) (replica_here : Z -> bool).
(** The owners at work while this host waits. *)
Context (exchange : list request -> M world (list response)).

#[local] Abbreviation has_master_partition := (TwoPLPasha.has_master_partition me master_coordinator).
#[local] Abbreviation key_of := (TwoPLPasha.key_of key_at).

Definition buffer (e : rwkey) : M execution bytes :=
  p ← deref (fun _ => get_value e); deref (fun x => x_mem x !! p).
Definition fill_buffer (e : rwkey) (b : bytes) : M execution unit :=
  p ← deref (fun _ => get_value e); modify (on_mem_map (insert p b)).

(** ** [lock_request_handler] *)

Definition lock_request_handler (i : nat) (e : rwkey) : M execution lock_answer :=
  k ← on_world (key_of e);
  let size := value_size (get_table_id e) in
  let write_lock := bit (get_write_lock_request_bit e) in
  if bit (get_local_index_read_bit e) then
    dest ← buffer e;
    '(tid, out) ← on_world (Pasha.read sc me k dest size);
    fill_buffer e out;;
    mret (Answer tid None None true false)
  else if has_master_partition (get_partition_id e) then
    when_ overhead (on_world (model_cxl_search_overhead k));;
    dest ← buffer e;
    '(tid, success, out) ← on_world (if write_lock then Pasha.take_write_lock_and_read sc me k dest size
                                     else Pasha.take_read_lock_and_read sc me k dest size);
    fill_buffer e out;;
    mret (Answer (if success : bool then tid else 0) (Some (row_addr k)) None success false)
  else
    modify set_distributed;;
    let owner := master_coordinator (get_partition_id e) in
    when_ reactive (modify (on_txn (involve owner)));;
    found ← on_world (Pasha.get_migrated_row k true);
    match found with
    | Some p =>
        modify (on_read i set_reference_counted);;
        dest ← buffer e;
        '(tid, success, out) ← on_world (if write_lock then Pasha.remote_take_write_lock_and_read sc me p dest size false
                                         else Pasha.remote_take_read_lock_and_read sc me p dest size false);
        fill_buffer e out;;
        mret (Answer (if success : bool then tid else 0) None (Some p) success false)
    | None =>
        modify (send_request (DataMigrationRequest owner k i));;
        mret (Answer 0 None None false true)
    end.

(** ** [scanRequestHandler] *)

Definition results_of (e : rwkey) : M execution (list row_entity) :=
  v ← deref (fun _ => get_scan_res_vec e); deref (fun x => x_vec x !! v).
Definition set_results (e : rwkey) (l : list row_entity) : M execution unit :=
  v ← deref (fun _ => get_scan_res_vec e); modify (on_vec_map (insert v l)).

Definition local_here (partition_id : Z) : bool := has_master_partition partition_id || replica_here partition_id.

(** Whether the tuple is the one after the range. *)
Definition locking_next_tuple (e : rwkey) (max key : Z) (results : list row_entity) (is_last_tuple : bool) : bool :=
  is_last_tuple || (negb (get_scan_limit e =? 0) && (Z.of_nat (length results) =? get_scan_limit e)) || (max <? key).

(** Whether the tuple is before the range, or not after the last result: a scan
    that was restarted shows tuples again. *)
Definition seen_before (min key : Z) (results : list row_entity) : bool :=
  (key <? min) ||
  match last results with
  | Some r => match re_key r with Some q => key <=? key_at q | None => false end
  | None => false
  end.

Definition lock_scanned (e : rwkey) (k : rkey) : M world (Z * bool) :=
  let size := value_size (get_table_id e) in
  match get_request_type e with
  | SCAN_FOR_READ => Pasha.read_lock sc me k size
  | _ => Pasha.write_lock sc me k size
  end.
Definition remote_lock_scanned (e : rwkey) (p : Z) : M world (Z * bool) :=
  let size := value_size (get_table_id e) in
  match get_request_type e with
  | SCAN_FOR_READ => Pasha.remote_read_lock_and_inc_ref_cnt sc me p size
  | _ => Pasha.remote_write_lock_and_inc_ref_cnt sc me p size
  end.

(** A tuple whose lock was requested: a failure ends the scan, the tuple after
    the range ends it with success, another one is a result. *)
Definition after_lock (e : rwkey) (s : scan_state) (next lock_success : bool) (cur_row : row_entity) : M execution (bool * scan_state) :=
  if lock_success then
    if next then mret (true, ScanState (Some cur_row) true (migration_required s))
    else
      results ← results_of e;
      set_results e (results ++ [cur_row]);;
      mret (false, s)
  else mret (true, ScanState (sc_next s) false (migration_required s)).

Definition local_scan_processor (e : rwkey) (min max : Z) (s : scan_state) (key : Z) (is_last_tuple : bool) : M execution (bool * scan_state) :=
  results ← results_of e;
  let next := locking_next_tuple e max key results is_last_tuple in
  if seen_before min key results then mret (false, s)
  else
    let k := (get_table_id e, get_partition_id e, key) in
    '(_, lock_success) ← on_world (lock_scanned e k);
    after_lock e s next lock_success (RowEntity (Some (key_addr k)) (Some (row_addr k)) (Some (data_addr k))).

(** The neighbours of a tuple in CXL memory that the scan relies on are there. *)
Definition neighbours_missing (limit min key : Z) (results : list row_entity) (s : Z) : bool :=
  if key =? min then negb (Shared.get_next_key_real_bit s)
  else if Z.of_nat (length results) =? limit then negb (Shared.get_prev_key_real_bit s)
  else negb (Shared.get_next_key_real_bit s) || negb (Shared.get_prev_key_real_bit s).

Definition remote_scan_processor (e : rwkey) (min max : Z) (s : scan_state) (key : Z) (is_last_tuple : bool) : M execution (bool * scan_state) :=
  let k := (get_table_id e, get_partition_id e, key) in
  p ← deref (fun x => w_tbl (x_world x) !! k);
  results ← results_of e;
  let next := locking_next_tuple e max key results is_last_tuple in
  if seen_before min key results then mret (false, s)
  else
    sm ← on_world (get_smeta p);
    let o := Shared.get_scc_data sm in
    on_world (sm_lock p);;
    sm ← on_world (get_smeta p);
    let required := migration_required s || neighbours_missing (get_scan_limit e) min key results sm in
    on_world (sm_unlock p);;
    if required then mret (true, ScanState (sc_next s) false true)
    else
      '(_, lock_success) ← on_world (remote_lock_scanned e p);
      after_lock e s next lock_success (RowEntity (Some (key_addr k)) (Some p) (Some (cxl_data_addr o))).

Definition remote_scan (e : rwkey) (min max : Z) : M execution scan_state :=
  ks ← gets (fun x => keys_from (get_table_id e) (get_partition_id e) min (dom (w_tbl (x_world x))));
  scan_keys (remote_scan_processor e min max) ks (ScanState None false false).

(** The locks and references of the rows that were found, when the owner has to
    be asked first. *)
Definition undo_scanned (e : rwkey) (r : row_entity) : M world unit :=
  p ← deref (fun _ => re_meta r);
  match get_request_type e with
  | SCAN_FOR_READ => Pasha.remote_read_lock_release p
  | _ => Pasha.remote_write_lock_release p
  end;;
  Pasha.decrease_reference_count_via_ptr p.

Definition scan_bound (p : option Z) : M execution Z := q ← deref (fun _ => p); mret (key_at q).

Definition scanRequestHandler_next_key (i : nat) (e : rwkey) : M execution scan_state :=
  min ← scan_bound (get_scan_min_key e);
  max ← scan_bound (get_scan_max_key e);
  if local_here (get_partition_id e) then
    ks ← gets (fun x => keys_from (get_table_id e) (get_partition_id e) min (dom (w_rows (x_world x))));
    scan_keys (local_scan_processor e min max) ks (ScanState None true false)
  else
    s ← remote_scan e min max;
    results ← results_of e;
    let required := migration_required s || (match results with [] => true | _ => false end && negb (sc_success s)) in
    when_ required (
      modify (send_request (DataMigrationRequestForScan (master_coordinator (get_partition_id e)) (get_table_id e) (get_partition_id e) min max (get_scan_limit e) i));;
      on_world (for_each (undo_scanned e) results);;
      set_results e []);;
    mret (ScanState (sc_next s) (sc_success s) required).

(** Without phantom detection rows are collected and not locked. *)
Definition plain_scan_processor (e : rwkey) (min max : Z) (_ : unit) (key : Z) (is_last_tuple : bool) : M execution (bool * unit) :=
  results ← results_of e;
  if negb (get_scan_limit e =? 0) && (Z.of_nat (length results) =? get_scan_limit e) then mret (true, tt)
  else if max <? key then mret (true, tt)
  else if seen_before min key results then mret (false, tt)
  else
    let k := (get_table_id e, get_partition_id e, key) in
    set_results e (results ++ [RowEntity (Some (key_addr k)) (Some (row_addr k)) (Some (data_addr k))]);;
    mret (false, tt).

Definition scanRequestHandler_plain (e : rwkey) : M execution scan_state :=
  min ← scan_bound (get_scan_min_key e);
  max ← scan_bound (get_scan_max_key e);
  CHECK (local_here (get_partition_id e));;
  ks ← gets (fun x => keys_from (get_table_id e) (get_partition_id e) min (dom (w_rows (x_world x))));
  scan_keys (plain_scan_processor e min max) ks tt;;
  mret (ScanState None true false).

Definition scanRequestHandler (i : nat) (e : rwkey) : M execution scan_state :=
  if enable_phantom_detection then scanRequestHandler_next_key i e else scanRequestHandler_plain e.

(** ** [insertRequestHandler] *)

(** [TableBTreeOLC::insert] of a placeholder. *)
Definition table_insert (k : rkey) (value : bytes) (is_placeholder : bool) : M world bool :=
  found ← gets (fun w => w_rows w !! k);
  match found with
  | Some _ => mret false
  | None => modify (set_rows (insert k (MkRow (TwoPLPashaMetadataLocalInit (negb is_placeholder)) value)));; mret true
  end.

(** The second result is the metadata of the next row, when it was locked. *)
Definition insertRequestHandler (e : rwkey) : M execution (bool * option Z) :=
  k ← on_world (key_of e);
  if enable_phantom_detection then
    if local_here (get_partition_id e) then
      v ← buffer e;
      '(success, next) ← on_world (Migration.insert_and_update_next_key_info sc me k v (get_require_lock_next_row e));
      when_ (negb success) (modify set_abort_insert);;
      mret (success, row_addr <$> next)
    else mret (true, None)
  else
    CHECK (local_here (get_partition_id e));;
    v ← buffer e;
    success ← on_world (table_insert k v true);
    when_ (negb success) (modify set_abort_insert);;
    mret (success, None).

(** ** [deleteRequestHandler]

    With phantom detection the rows to delete were locked by a scan. *)
Definition deleteRequestHandler (e : rwkey) : M execution bool :=
  k ← on_world (key_of e);
  if enable_phantom_detection then mret true
  else
    CHECK (local_here (get_partition_id e));;
    found ← gets (fun x => w_rows (x_world x) !! k);
    match found with
    | None => modify set_abort_delete;; mret false
    | Some _ =>
        '(_, success) ← on_world (Pasha.write_lock sc me k (value_size (get_table_id e)));
        when_ (negb success) (modify set_abort_delete);;
        mret success
    end.

(** ** [process_requests] *)

(** The locks that were requested are held. *)
Definition mark_locked (e : rwkey) : rwkey :=
  let e := if bit (get_read_lock_request_bit e) && negb (bit (get_local_index_read_bit e)) then set_read_lock_bit e else e in
  if bit (get_write_lock_request_bit e) then set_write_lock_bit e else e.

(** The loops return true when they stop the execution. *)
Fixpoint process_reads (n : nat) : M execution bool :=
  match n with
  | O => mret false
  | S i =>
      e ← deref (fun x => readSet (x_txn x) !! i);
      if get_processed e then mret false
      else
        a ← lock_request_handler i e;
        if la_remote a then modify (on_read i set_processed);; process_reads i
        else
          modify (on_read i (fun e => set_cached_migrated_row (la_migrated a) (set_cached_local_row (la_local a) e)));;
          if la_success a then
            modify (on_read i (fun e => mark_locked (set_tid (la_tid a) e)));;
            modify (on_read i set_processed);;
            process_reads i
          else modify (on_txn set_abort_lock);; mret true
  end.

Fixpoint process_scans (n : nat) : M execution bool :=
  match n with
  | O => mret false
  | S i =>
      e ← deref (fun x => scanSet (x_txn x) !! i);
      if get_processed e then mret false
      else
        s ← scanRequestHandler i e;
        if migration_required s then modify (on_scan i set_processed);; process_scans i
        else if sc_success s then
          modify (on_scan i (fun e => set_next_row_locked (set_next_row_entity (sc_next s ≫= re_meta) e)));;
          modify (on_scan i set_processed);;
          process_scans i
        else modify (on_txn set_abort_lock);; mret true
  end.

Fixpoint process_inserts (n : nat) : M execution bool :=
  match n with
  | O => mret false
  | S i =>
      e ← deref (fun x => insertSet (x_txn x) !! i);
      if get_processed e then mret false
      else
        '(success, next) ← insertRequestHandler e;
        if negb success then modify set_abort_insert;; mret true
        else
          when_ (get_require_lock_next_row e) (modify (on_insert i (fun e => set_next_row_locked (set_next_row_entity next e))));;
          modify (on_insert i set_processed);;
          process_inserts i
  end.

Fixpoint process_deletes (n : nat) : M execution bool :=
  match n with
  | O => mret false
  | S i =>
      e ← deref (fun x => deleteSet (x_txn x) !! i);
      if get_processed e then mret false
      else
        success ← deleteRequestHandler e;
        if negb success then modify set_abort_delete;; mret true
        else modify (on_delete i set_processed);; process_deletes i
  end.

(** ** The answers of the owners *)

Definition data_migration_response_handler (table_id partition_id : Z) (success : bool) (key_offset : nat) : M execution unit :=
  if negb success then modify (on_txn set_abort_lock);; modify answered
  else
    e ← deref (fun x => readSet (x_txn x) !! key_offset);
    p ← deref (fun _ => get_key e);
    found ← on_world (Pasha.get_migrated_row (table_id, partition_id, key_at p) false);
    match found with
    | None => modify (on_txn set_abort_lock)
    | Some q =>
        dest ← buffer e;
        let size := value_size table_id in
        '(tid, success, out) ← on_world (if bit (get_write_lock_request_bit e) then Pasha.remote_take_write_lock_and_read sc me q dest size true
                                         else Pasha.remote_take_read_lock_and_read sc me q dest size true);
        fill_buffer e out;;
        if success : bool then
          modify (on_read key_offset (fun e =>
            let e := set_cached_migrated_row (Some q) (set_tid tid e) in
            let e := if bit (get_read_lock_request_bit e) then set_read_lock_bit e else e in
            let e := if bit (get_write_lock_request_bit e) then set_write_lock_bit e else e in
            set_reference_counted e))
        else modify (on_txn set_abort_lock)
    end;;
    modify answered.

Definition data_migration_response_for_scan_handler (key_offset : nat) : M execution unit :=
  e ← deref (fun x => scanSet (x_txn x) !! key_offset);
  min ← scan_bound (get_scan_min_key e);
  max ← scan_bound (get_scan_max_key e);
  s ← remote_scan e min max;
  (if sc_success s
   then modify (on_scan key_offset (fun e => set_next_row_locked (set_next_row_entity (sc_next s ≫= re_meta) e)))
   else modify (on_txn set_abort_lock));;
  modify (on_scan key_offset set_reference_counted);;
  modify answered.

Definition handle_response (r : response) : M execution unit :=
  match r with
  | DataMigrationResponse table_id partition_id success i => data_migration_response_handler table_id partition_id success i
  | DataMigrationResponseForScan _ _ _ i => data_migration_response_for_scan_handler i
  end.

(** [while (pendingResponses > 0) remote_request_handler(0)], on the answers in
    the order they arrive. *)
Fixpoint handle_responses (rs : list response) : M execution unit :=
  n ← gets pendingResponses;
  if 0 <? n then match rs with [] => spin | r :: rs => handle_response r;; handle_responses rs end
  else mret tt.

Definition wait_for_responses : M execution unit :=
  n ← gets pendingResponses;
  when_ (0 <? n) (
    ms ← gets x_out;
    modify flushed;;
    rs ← on_world (exchange ms);
    handle_responses rs).

Definition process_requests : M execution bool :=
  n ← gets (fun x => length (readSet (x_txn x)));
  stop ← process_reads n;
  n ← gets (fun x => length (scanSet (x_txn x)));
  stop ← (if stop : bool then mret true else process_scans n);
  n ← gets (fun x => length (insertSet (x_txn x)));
  stop ← (if stop : bool then mret true else process_inserts n);
  n ← gets (fun x => length (deleteSet (x_txn x)));
  stop ← (if stop : bool then mret true else process_deletes n);
  wait_for_responses;;
  ab ← gets should_abort;
  mret (stop || ab).
End handlers.
End TwoPLPashaExecutor.

Module TwoPLPashaMessageHandler.
Import TwoPLPasha.

(** ** The owner's side

    [move_row_in], [move_row_out] and [delete_specific_row_and_move_out] are the
    virtual methods of the migration manager. *)
Section owner.
Context (sc : SCCManager) (me : Z) (key_at : Z -> Z) (row_addr data_addr key_addr : rkey -> Z).
Context (on_demand : bool) (move_row_in : rkey -> bool -> M world migration_result) (move_row_out : Z -> M world unit).
Context (delete_specific_row_and_move_out : rkey -> bool -> M world bool).

Definition data_migration_request_handler (k : rkey) (key_offset : nat) : M world response :=
  res ← move_row_in k false;
  let success := match res with FAIL_OOM => false | _ => true end in
  when_ on_demand (move_row_out k.1.2);;
  mret (DataMigrationResponse k.1.1 k.1.2 success key_offset).

(** The rows of the range and the one after it. *)
Definition migration_scan_processor (table_id partition_id min max limit : Z) (results : list Z) (key : Z) (is_last_tuple : bool) :
    M world (bool * list Z) :=
  let migrating_next_key := (negb (limit =? 0) && (Z.of_nat (length results) =? limit)) || (max <? key) in
  if (key <? min) || (match last results with Some q => key <=? q | None => false end) then mret (false, results)
  else mret (migrating_next_key, results ++ [key]).

(** [success] keeps its initial value. *)
Definition data_migration_request_for_scan_handler (table_id partition_id min max limit : Z) (key_offset : nat) : M world response :=
  let success := false in
  ks ← gets (fun w => keys_from table_id partition_id min (dom (w_rows w)));
  results ← scan_keys (migration_scan_processor table_id partition_id min max limit) ks [];
  for_each (fun key => move_row_in (table_id, partition_id, key) false;; mret tt) results;;
  when_ on_demand (move_row_out partition_id);;
  mret (DataMigrationResponseForScan table_id partition_id success key_offset).

Definition serve (m : request) : M world response :=
  match m with
  | DataMigrationRequest _ k i => data_migration_request_handler k i
  | DataMigrationRequestForScan _ t p min max limit i => data_migration_request_for_scan_handler t p min max limit i
  end.

Fixpoint serve_all (ms : list request) : M world (list response) :=
  match ms with
  | [] => mret []
  | m :: ms => r ← serve m; rs ← serve_all ms; mret (r :: rs)
  end.

Definition data_move_out_hint_handler (partition_id : Z) : M world unit := move_row_out partition_id.

(** The placeholder is inserted and moved in; the result of the insertion is
    sent back and not looked at. *)
Definition remote_insert_request_handler (k : rkey) (value : bytes) : M world bool :=
  '(insert_success, _) ← Migration.insert_and_update_next_key_info sc me k value false;
  row ← get_row k;
  move_row_in k true;;
  mret insert_success.

Definition remote_insert_response_handler (host : Z) (table_id partition_id : Z) (key_offset : nat) : M execution unit :=
  e ← deref (fun x => insertSet (x_txn x) !! key_offset);
  p ← deref (fun _ => get_key e);
  q ← deref (fun x => w_tbl (x_world x) !! (table_id, partition_id, key_at p));
  on_world (Pasha.remote_modify_tuple_valid_bit sc host q true true);;
  modify (on_insert key_offset (fun e => set_reference_counted (set_inserted_cxl_row (Some q) e)));;
  modify answered.

Definition remote_delete_request_handler (k : rkey) : M world unit :=
  delete_specific_row_and_move_out k false;; mret tt.
End owner.
End TwoPLPashaMessageHandler.
