(* ===== verification/ExecuteSpec.v ===== *)
(** * What the execution of a transaction establishes

    [process_requests] of a transaction that reads and updates existing rows:
    either it holds the lock of every row it asked for and has its current value,
    or the transaction is to be aborted; in both cases what it has changed is
    exactly what its entries say it has locked, so that committing installs its
    writes and aborting leaves no trace. *)

From S2P Require Import Prelude LockWord SharedWord SCC CXLMemory PashaState PashaHelper PashaMigration PashaRow PashaOps PashaMove PashaTable RWKey Commit Execute.
Import RWKey.TwoPLPashaRWKey TwoPLPasha TwoPLPashaTransaction TwoPLPashaExecutor.

#[local] Existing Instance pasha_layout.

(** ** The bits of an entry *)

Definition reads (e : rwkey) : bool := bit (get_read_lock_bit e).
Definition writes (e : rwkey) : bool := bit (get_write_lock_bit e).
Definition asks_read (e : rwkey) : bool := bit (get_read_lock_request_bit e).
Definition asks_write (e : rwkey) : bool := bit (get_write_lock_request_bit e).
Definition index_read (e : rwkey) : bool := bit (get_local_index_read_bit e).

Lemma bit_b2z b : bit (Z.b2z b) = b.
Proof. now destruct b. Qed.

Lemma bits_of e : fits 64 (bitvec e) ->
  let r := ref_of (bitvec e) in
  get_table_id e = r_table r /\ get_partition_id e = r_partition r /\ reads e = r_read_lock r /\ writes e = r_write_lock r /\
  asks_read e = r_read_request r /\ asks_write e = r_write_request r /\ index_read e = r_local_index_read r.
Proof.
  intros Hf. destruct (proj1 (rwkey_fields e _ (conj Hf eq_refl))) as (H1 & _ & H2 & H3 & H4 & H5 & H6 & H7).
  unfold reads, writes, asks_read, asks_write, index_read. rewrite H1, H2, H3, H4, H5, H6, H7, !bit_b2z. now split_and!.
Qed.

(** An entry that differs in the locks it holds. *)
Definition same_request (e e' : rwkey) : Prop :=
  fits 64 (bitvec e') /\ get_key e' = get_key e /\ get_value e' = get_value e /\ get_table_id e' = get_table_id e /\
  get_partition_id e' = get_partition_id e /\ asks_read e' = asks_read e /\ asks_write e' = asks_write e /\ index_read e' = index_read e.

Lemma same_request_refl e : fits 64 (bitvec e) -> same_request e e.
Proof. intros H. now split_and!. Qed.

Lemma same_request_trans e e1 e2 : same_request e e1 -> same_request e1 e2 -> same_request e e2.
Proof. intros (_ & ? & ? & ? & ? & ? & ? & ?) (? & ? & ? & ? & ? & ? & ? & ?). split_and!; congruence. Qed.

Lemma lock_bit_spec (wr : bool) e : fits 64 (bitvec e) ->
  let e' := (if wr then set_write_lock_bit else set_read_lock_bit) e in
  (exists b, e' = set_bitvec b e) /\ same_request e e' /\
  reads e' = (if wr then reads e else true) /\ writes e' = (if wr then true else writes e).
Proof.
  intros Hf. pose proof (rwkey_fields e _ (conj Hf eq_refl)) as (_ & _ & _ & _ & _ & _ & Hw & Hr & _).
  specialize (Hw true). specialize (Hr true). cbn in Hw, Hr.
  destruct (bits_of e Hf) as (B1 & B2 & B3 & B4 & B5 & B6 & B7).
  assert (H : forall e', refers e' (ref_of (bitvec e')) -> forall r, refers e' r -> ref_of (bitvec e') = r) by (now intros e' _ r [_ ?]).
  destruct wr; cbn; (split; [eexists; reflexivity|]).
  - destruct (bits_of _ (proj1 Hw)) as (C1 & C2 & C3 & C4 & C5 & C6 & C7). rewrite (proj2 Hw) in *. cbn in *.
    unfold same_request. split_and!; try reflexivity; try congruence. exact (proj1 Hw).
  - destruct (bits_of _ (proj1 Hr)) as (C1 & C2 & C3 & C4 & C5 & C6 & C7). rewrite (proj2 Hr) in *. cbn in *.
    unfold same_request. split_and!; try reflexivity; try congruence. exact (proj1 Hr).
Qed.

(** The entry of a request for one lock, which is not held yet. *)
Definition asks (e : rwkey) : Prop :=
  fits 64 (bitvec e) /\ asks_read e = negb (asks_write e) /\ index_read e = false.

Lemma mark_locked_spec e : asks e -> reads e = false -> writes e = false ->
  (exists b, mark_locked e = set_bitvec b e) /\ same_request e (mark_locked e) /\
  reads (mark_locked e) = negb (asks_write e) /\ writes (mark_locked e) = asks_write e.
Proof.
  intros (Hf & Hq & Hi) Hr Hw. unfold mark_locked.
  change (bit (get_read_lock_request_bit e)) with (asks_read e). change (bit (get_local_index_read_bit e)) with (index_read e).
  rewrite Hq, Hi, andb_true_r.
  destruct (lock_bit_spec (asks_write e) e Hf) as ([b Eb] & Hs & H1 & H2).
  destruct (asks_write e) eqn:Ew; cbn [negb] in *.
  - change (bit (get_write_lock_request_bit e)) with (asks_write e). rewrite Ew. split_and!; eauto; congruence.
  - assert (Ew' : asks_write (set_read_lock_bit e) = false) by (destruct Hs as (_ & _ & _ & _ & _ & _ & H & _); congruence).
    change (bit (get_write_lock_request_bit (set_read_lock_bit e))) with (asks_write (set_read_lock_bit e)). rewrite Ew'.
    split_and!; eauto; congruence.
Qed.

Lemma oks_on_world {A} ab (m : M world A) x Q :
  oks ab m (x_world x) (fun a w => Q a (set_world w x)) -> oks ab (on_world m) x Q.
Proof. unfold oks, on_world, lift_with. now destruct (m (x_world x)). Qed.

Lemma oks_on_world_bind {A B} ab (m : M world A) (f : A -> M execution B) x Q :
  oks ab m (x_world x) (fun a w => oks ab (f a) (set_world w x) Q) -> oks ab (on_world m ≫= f) x Q.
Proof. intros H. apply oks_bind, oks_on_world, H. Qed.

Section spec.
Context (sc : SCCManager) {proto : SCCProtocol sc} {pol : PolicyMeta} (me : Z) (Hme : host_ok me).
Context (value_size : Z -> nat) (master_coordinator : Z -> Z).
Context (key_at : Z -> Z) (row_at : Z -> rkey) (row_addr : rkey -> Z) (Haddr : forall k, row_at (row_addr k) = k).
Context (overhead reactive : bool).

#[local] Abbreviation size := (TwoPLPasha.size value_size).

(** ** The operations of the handlers, on the tuples *)

Definition can (wr : bool) : rwlock -> bool := if wr then can_own else can_share.
Definition grant (wr : bool) : rwlock -> rwlock := if wr then taken else one_more.

#[local] Abbreviation write_ready := (TwoPLPasha.write_ready sc me).

(** Other rows are as before, this host can still finish its writes of them, and no
    row has left CXL memory. *)
Definition others (w : world) (k : rkey) (w' : world) : Prop :=
  winv size w' /\ (w_tbl w ⊆ w_tbl w' /\ forall k', k' <> k -> write_ready w k' -> write_ready w' k') /\ forall k', k' <> k -> abs k' w' = abs k' w.

Lemma others_words w k w' : winv size w' -> other_words w k w' -> (forall k', k' <> k -> abs k' w' = abs k' w) -> others w k w'.
Proof using Type.
  intros Hw Ho Ha. split; [exact Hw|]. split; [|exact Ha]. split; [now rewrite (proj1 Ho)|]. intros k' Hk. now apply (write_ready_other sc me w k).
Qed.

Lemma others_same w k : winv size w -> others w k w.
Proof using Type. intros Hw. split_and!; auto. Qed.

Lemma others_trans w k w1 w2 : others w k w1 -> others w1 k w2 -> others w k w2.
Proof using Type.
  intros (_ & (S1 & R1) & A1) (Hw & (S2 & R2) & A2). split; [exact Hw|]. split; [split; [now transitivity (w_tbl w1)|auto]|].
  intros k' Hk. rewrite A2 by exact Hk. now apply A1.
Qed.

(** A request for a lock: on success it is granted and the value handed out, and a
    host that is to write the row can finish its write. *)
Definition lock_post (wr : bool) (w : world) (k : rkey) (t : tuple) (dest : bytes) (x : Z * bool * bytes) (w' : world) : Prop :=
  others w k w' /\ w_tbl w' = w_tbl w /\
  if x.1.2 then can wr (t_lock t) = true /\ abs k w' = Some (with_lock (grant wr) t) /\ x.2 = t_value t /\ (wr = true -> write_ready w' k)
  else abs k w' = Some t /\ x.2 = dest.

(** What a request for a lock does to the shared word. *)
Definition readied (wr : bool) (_ : Z) (x : Z * bool * bytes) (s' : Z) : Prop := wr = true -> x.1.2 = true -> ready me s' = true.

Lemma cxl_row w k t p : winv size w -> abs k w = Some t -> w_tbl w !! k = Some p ->
  exists o r s d, w_rows w !! k = Some r /\ w_smeta w !! p = Some s /\ w_scc w !! o = Some d /\ cxl_cell (size k) p o r s d /\ t = cxl_tuple s d.
Proof using Type.
  intros Hw Ht Hp. destruct (abs_cases size w Hw k t Ht) as [(r & _ & En & _)|(p' & o & r & s & d & E & Et & Es & Ed & Hc & ->)]; [congruence|].
  assert (p' = p) as -> by congruence. now exists o, r, s, d.
Qed.

Lemma lock_post_intro wr w k t dest x w' :
  winv size w -> abs k w = Some t -> length dest = size k ->
  words_post size w k t (acquired_read (can wr) (grant wr) dest (size k)) (readied wr) x w' -> lock_post wr w k t dest x w'.
Proof using Type.
  intros Hw Ht Hd ((H1 & (t' & E & Hg & Hh) & H3 & H4) & Ho & Hq). split; [now apply others_words|]. split; [exact H4|].
  destruct x as [[tid b] out]. unfold granted in Hg. unfold handed in Hh. cbn in *. destruct b; [|subst; auto]. destruct Hg as [Hc ->]. split_and!; auto.
  - rewrite Hh. apply memcpy_full; [exact Hd|]. eapply value_length; [exact Hw|exact Ht].
  - intros Ewr p s Ep Es. rewrite H4 in Ep. destruct (cxl_row w k t p Hw Ht Ep) as (o & r & s0 & d & _ & Es0 & _).
    destruct (Hq p s0 Ep Es0) as (s' & Es' & Hs'). assert (s' = s) as -> by congruence. now apply Hs'.
Qed.

Lemma owner_lock wr dest w k t :
  winv size w -> abs k w = Some t -> length dest = size k ->
  oks false (if wr : bool then Pasha.take_write_lock_and_read sc me k dest (size k) else Pasha.take_read_lock_and_read sc me k dest (size k)) w
    (lock_post wr w k t dest).
Proof using Hme proto.
  intros Hw Ht Hd. destruct wr.
  - eapply oks_mono; [eapply (cell_words size w Hw false k _ (fun _ => True) (fun _ _ => True) _ (acquired_read can_own taken dest (size k)) (readied true));
      [now apply take_write_cell|now apply take_write_lock_and_read_word|intros s tp x s' tp' [H1 H2]; split; [exact H1|now intros _]|exact Ht|easy|easy]|].
    intros x w' H. now apply (lock_post_intro true).
  - eapply oks_mono; [eapply (cell_words size w Hw false k _ (fun _ => True) (fun _ _ => True) _ (acquired_read can_share one_more dest (size k)) (readied false));
      [now apply take_read_cell|exact (cxl_spec_word _ _ _ _ _ _ (proj2 (take_read_cell sc me Hme k (size k) dest)))|intros s tp x s' tp' H; split; [exact H|discriminate]|exact Ht|easy|easy]|].
    intros x w' H. now apply (lock_post_intro false).
Qed.

Lemma remote_lock wr dest inc w k t p :
  winv size w -> abs k w = Some t -> length dest = size k -> w_tbl w !! k = Some p ->
  oks false (if wr : bool then Pasha.remote_take_write_lock_and_read sc me p dest (size k) inc else Pasha.remote_take_read_lock_and_read sc me p dest (size k) inc) w
    (lock_post wr w k t dest).
Proof using Hme proto.
  intros Hw Ht Hd Hp. destruct (cxl_row w k t p Hw Ht Hp) as (o & r & s & d & Er & Es & Ed & Hc & ->).
  destruct wr.
  - eapply oks_mono; [eapply (cxl_words size w Hw false k (fun p => Pasha.remote_take_write_lock_and_read sc me p dest (size k) inc) (fun _ _ => True) _ (acquired_read can_own taken dest (size k)) (readied true) p o r s d);
      [now apply (remote_take_write_lock_and_read_word sc me Hme k (size k) dest inc)|intros s1 tp x s' tp' [((_ & _ & H0) & H1) H2]; split; [now split|now intros _]|eassumption..|easy]|].
    intros x w' H. now apply (lock_post_intro true).
  - eapply oks_mono; [eapply (cxl_words size w Hw false k (fun p => Pasha.remote_take_read_lock_and_read sc me p dest (size k) inc) (fun _ _ => True) _ (acquired_read can_share one_more dest (size k)) (readied false) p o r s d);
      [apply cxl_spec_word; now apply (remote_take_read_lock_and_read_cxl sc me Hme k (size k) dest inc)|intros s1 tp x s' tp' ((_ & _ & H0) & H1); split; [now split|discriminate]|eassumption..|easy]|].
    intros x w' H. now apply (lock_post_intro false).
Qed.

(** Looking up a row in CXL memory: its pointer, if it is there and valid. *)
Lemma get_migrated_spec inc w k t :
  winv size w -> abs k w = Some t ->
  oks false (Pasha.get_migrated_row k inc) w (fun found w' =>
    others w k w' /\ w_tbl w' = w_tbl w /\ abs k w' = Some t /\ forall p, found = Some p -> w_tbl w !! k = Some p).
Proof using Type.
  intros Hw Ht. unfold Pasha.get_migrated_row, cxl_search. eapply oks_step; [reflexivity|]. cbv beta.
  destruct (w_tbl w !! k) as [p|] eqn:Ep; [|apply oks_ret; split_and!; now apply others_same || easy].
  destruct (cxl_row w k t p Hw Ht Ep) as (o & r & s & d & Er & Es & Ed & Hc & ->).
  set (op := fun q => s ← get_smeta q; let o := Shared.get_scc_data s in sm_lock q;; d ← get_scc o;
    if Pasha.is_valid_data d then
      when_ inc (mod_scc o ref_inc);; sm_unlock q;;
      when_ inc (mod_scc o (fun d => sd_set_policy (access_row (sd_policy d)) d));; mret true
    else sm_unlock q;; mret false).
  assert (Hop : cxl_spec false k (size k) op (fun _ => True) (fun t b t' => t' = t)).
  { apply cxl_spec_intro. intros w1 p1 o1 r1 s1 d1 v Hs Eo Hv _. unfold op.
    pose proof Hv as ((Hl & Hf & Hn) & Hm & Hi & Hsc & Hla & Hoff & Hdf & (Hfl & Hrc & Hdn) & He & Hco).
    steps. rewrite Eo. steps. destruct (Pasha.is_valid_data d1) eqn:Hval; [destruct inc|]; steps;
      do 4 eexists; (split; [reflexivity|]); (split; [word_of|]); (split; [|reflexivity]);
      unfold cxl_view, obj_ok; rowc; split_and!; try assumption; try reflexivity; apply wrap_fits; lia. }
  pose proof (cxl_words size w Hw false k op (fun _ _ => True) (fun _ t b _ t' => t' = t) (fun t b t' => t' = t) (fun _ _ _ => True) p o r s d
    (cxl_spec_word _ _ _ _ _ _ Hop) ltac:(easy) Er Ep Es Ed Hc I) as Ho. unfold op, oks in Ho. unfold oks.
  revert Ho. cbv zeta. cbv [mbind M_bind mret M_ret].
  destruct (get_smeta p w) as [s1 w1| | |]; try easy. destruct (sm_lock p w1) as [[] w2| | |]; try easy.
  destruct (get_scc (Shared.get_scc_data s1) w2) as [d1 w3| | |]; try easy. destruct (Pasha.is_valid_data d1).
  - destruct (when_ inc _ w3) as [[] w4| | |]; try easy. destruct (sm_unlock p w4) as [[] w5| | |]; try easy.
    destruct (when_ inc _ w5) as [[] w6| | |]; try easy. intros ((H1 & (t' & E & ->) & H3 & H4) & H5 & _). split; [now apply others_words|]. now split_and!.
  - destruct (sm_unlock p w3) as [[] w4| | |]; try easy. intros ((H1 & (t' & E & ->) & H3 & H4) & H5 & _). split; [now apply others_words|]. now split_and!.
Qed.

(** ** The state of an execution *)

(** What an entry has done to its row, whose tuple was [t] before. *)
Definition locked (e : rwkey) (t : tuple) : tuple :=
  if reads e then with_lock one_more t else if writes e then with_lock taken t else t.

(** The entry [e] of the row [k], for a transaction that started in [w0]. *)
Record entry_inv (w0 w : world) (e : rwkey) (k : rkey) : Prop := EntryInv {
  ei_bits : fits 64 (bitvec e);
  ei_key : exists p, get_key e = Some p /\ (get_table_id e, get_partition_id e, key_at p) = k;
  ei_one : reads e && writes e = false;
  ei_refers : reads e || writes e = true -> refers_to me master_coordinator row_at w e k;
  ei_pin : get_reference_counted e = true -> is_Some (w_tbl w !! k);
  ei_ready : writes e = true -> write_ready w k;
  ei_row : exists t, abs k w0 = Some t /\ (reads e = true -> can_share (t_lock t) = true) /\
    (writes e = true -> can_own (t_lock t) = true) /\ abs k w = Some (locked e t)
}.

(** A request that is not served yet. *)
Definition waiting (mem : gmap Z bytes) (e : rwkey) (k : rkey) : Prop :=
  asks e /\ reads e = false /\ writes e = false /\ get_reference_counted e = false /\
  exists v b, get_value e = Some v /\ mem !! v = Some b /\ length b = size k.

Definition elsewhere (e : rwkey) : Prop := TwoPLPasha.has_master_partition me master_coordinator (get_partition_id e) = false.

(** A request that was granted: the lock is held, and the buffer has the value. *)
Definition served (w0 : world) (mem : gmap Z bytes) (e : rwkey) (k : rkey) : Prop :=
  asks e /\ reads e = negb (asks_write e) /\ writes e = asks_write e /\
  exists v t, get_value e = Some v /\ abs k w0 = Some t /\ mem !! v = Some (t_value t).

(** The rows [ks] and the buffers [vals] of the entries; [pend] are the offsets
    of the requests whose answer is awaited. *)
Record exec_inv (w0 : world) (ks : list rkey) (vals : list Z) (pend : list nat) (x : execution) : Prop := ExecInv {
  xi_winv : winv size (x_world x);
  xi_len : length (readSet (x_txn x)) = length ks;
  xi_entry : forall i e k, readSet (x_txn x) !! i = Some e -> ks !! i = Some k -> entry_inv w0 (x_world x) e k /\ get_value e = vals !! i;
  xi_frame : forall k, k ∉ ks -> abs k (x_world x) = abs k w0;
  xi_pend : forall i, i ∈ pend -> exists e k, readSet (x_txn x) !! i = Some e /\ ks !! i = Some k /\ elsewhere e /\ waiting (x_mem x) e k;
  xi_nodup : NoDup pend
}.

(** Changes that are not about the entries. *)
Lemma exec_inv_ext w0 ks vals pend x x' :
  x_world x' = x_world x -> readSet (x_txn x') = readSet (x_txn x) -> x_mem x' = x_mem x ->
  exec_inv w0 ks vals pend x -> exec_inv w0 ks vals pend x'.
Proof using Type. intros E1 E2 E3 [H1 H2 H3 H4 H5 H6]. constructor; rewrite ?E1, ?E2, ?E3; auto. Qed.

Lemma entry_inv_mono w0 w w' e k :
  w_tbl w ⊆ w_tbl w' -> abs k w' = abs k w -> (writes e = true -> write_ready w k -> write_ready w' k) -> entry_inv w0 w e k -> entry_inv w0 w' e k.
Proof using Type.
  intros Hs Ha Hrd [H1 H2 H3 H4 H5 H6 H7]. constructor; auto.
  - intros H. destruct (H4 H) as [Ht Hr]. split; [exact Ht|]. destruct (TwoPLPasha.has_master_partition me master_coordinator (get_partition_id e)); [exact Hr|].
    destruct Hr as (p & Ep & Hp). exists p. split; [exact Ep|]. eapply lookup_weaken; eauto.
  - intros H. destruct (H5 H) as [p Hp]. exists p. eapply lookup_weaken; eauto.
  - now rewrite Ha.
Qed.

(** A step on the entry at [i], its row and its buffer. *)
Lemma exec_inv_step w0 ks vals pend x i e k f w' mem' x' :
  exec_inv w0 ks vals pend x -> NoDup ks -> NoDup vals ->
  readSet (x_txn x) !! i = Some e -> ks !! i = Some k -> i ∉ pend ->
  others (x_world x) k w' -> (forall v, vals !! i <> Some v -> mem' !! v = x_mem x !! v) ->
  entry_inv w0 w' (f e) k -> get_value (f e) = get_value e ->
  x_world x' = w' -> readSet (x_txn x') = alter f i (readSet (x_txn x)) -> x_mem x' = mem' ->
  exec_inv w0 ks vals pend x'.
Proof using Type.
  intros [H1 H2 H3 H4 H5 H6] Hks Hvs He Hk Hi (Hw & (Ht & Hrd) & Ho) Hm Hf Hv E1 E2 E3.
  assert (Hne : forall j k', ks !! j = Some k' -> j <> i -> k' <> k) by (intros j k' Hj Hji ->; exact (Hji (NoDup_lookup ks j i k Hks Hj Hk))).
  constructor; rewrite ?E1, ?E2, ?E3; auto.
  - now rewrite length_alter.
  - intros j e' k' Hj Hk'. destruct (decide (j = i)) as [->|Hji].
    + rewrite list_lookup_alter_eq, He in Hj. injection Hj as <-. rewrite Hk in Hk'. injection Hk' as <-. split; [exact Hf|]. rewrite Hv. now apply (H3 i e k).
    + rewrite list_lookup_alter_ne in Hj by auto. destruct (H3 j e' k' Hj Hk') as [Hinv Hval]. split; [|exact Hval].
      eapply entry_inv_mono; [exact Ht|apply Ho; eauto|intros _; apply Hrd; eauto|exact Hinv].
  - intros k' Hk'. rewrite Ho; [auto|]. intros ->. apply Hk'. eapply list_elem_of_lookup_2; eauto.
  - intros j Hj. destruct (H5 j Hj) as (e' & k' & Ee & Ek & Hel & Ha & Hr & Hw' & Hc & v & b & Ev & Eb & Hl). assert (j <> i) by (intros ->; auto).
    exists e', k'. split; [now rewrite list_lookup_alter_ne by auto|]. split; [exact Ek|]. split; [exact Hel|]. split_and!; auto. exists v, b. split_and!; auto.
    rewrite Hm; [exact Eb|]. intros Hvi. destruct (H3 j e' k' Ee Ek) as [_ Hval]. rewrite Ev in Hval. symmetry in Hval.
    exact (H (NoDup_lookup vals j i v Hvs Hval Hvi)).
Qed.

(** ** [lock_request_handler] *)

Definition same_rest (x x' : execution) : Prop :=
  writeSet (x_txn x') = writeSet (x_txn x) /\ insertSet (x_txn x') = insertSet (x_txn x) /\ deleteSet (x_txn x') = deleteSet (x_txn x) /\
  scanSet (x_txn x') = scanSet (x_txn x) /\ abort_read_validation x' = abort_read_validation x /\ abort_insert x' = abort_insert x /\
  abort_delete x' = abort_delete x.

Lemma same_rest_trans x x1 x2 : same_rest x x1 -> same_rest x1 x2 -> same_rest x x2.
Proof using Type. intros (? & ? & ? & ? & ? & ? & ?) (? & ? & ? & ? & ? & ? & ?). split_and!; congruence. Qed.

Lemma same_rest_refl x : same_rest x x.
Proof using Type. now split_and!. Qed.

(** An answer at once: the lock was granted or refused. *)
Definition answered_here (i : nat) (e : rwkey) (k : rkey) (t : tuple) (x : execution) (a : lock_answer) (x' : execution) : Prop :=
  x_out x' = x_out x /\ pendingResponses x' = pendingResponses x /\
  (exists f, readSet (x_txn x') = alter f i (readSet (x_txn x)) /\ (f = id \/ f = set_reference_counted /\ is_Some (w_tbl (x_world x') !! k))) /\
  (exists v b out tid, get_value e = Some v /\ x_mem x' = <[v := out]> (x_mem x) /\
    lock_post (asks_write e) (x_world x) k t b (tid, la_success a, out) (x_world x')) /\
  (if TwoPLPasha.has_master_partition me master_coordinator (get_partition_id e) then la_local a = Some (row_addr k)
   else exists p, la_migrated a = Some p /\ w_tbl (x_world x') !! k = Some p).

(** The owner is asked for the row. *)
Definition asked_owner (i : nat) (e : rwkey) (k : rkey) (t : tuple) (x x' : execution) : Prop :=
  elsewhere e /\
  (exists h, x_out x' = x_out x ++ [DataMigrationRequest h k i]) /\ pendingResponses x' = pendingResponses x + 1 /\
  readSet (x_txn x') = readSet (x_txn x) /\ x_mem x' = x_mem x /\ others (x_world x) k (x_world x') /\ abs k (x_world x') = Some t.

Definition handler_post (i : nat) (e : rwkey) (k : rkey) (t : tuple) (x : execution) (a : lock_answer) (x' : execution) : Prop :=
  same_rest x x' /\ abort_lock (x_txn x') = abort_lock (x_txn x) /\
  if la_remote a then asked_owner i e k t x x' else answered_here i e k t x a x'.

#[local] Abbreviation handler := (lock_request_handler sc me value_size master_coordinator key_at row_addr overhead reactive).

Lemma buffer_step {A} ab e v b x (f : bytes -> M execution A) Q :
  get_value e = Some v -> x_mem x !! v = Some b -> oks ab (f b) x Q -> oks ab (buffer e ≫= f) x Q.
Proof using Type. intros Ev Eb H. unfold buffer. unfold oks in *. cbv [mbind M_bind deref]. now rewrite Ev, Eb. Qed.

Lemma fill_step {A} ab e v b x (f : unit -> M execution A) Q :
  get_value e = Some v -> oks ab (f tt) (on_mem_map (insert v b) x) Q -> oks ab (fill_buffer e b ≫= f) x Q.
Proof using Type. intros Ev H. unfold fill_buffer. unfold oks in *. cbv [mbind M_bind deref modify]. now rewrite Ev. Qed.

Lemma key_step {A} ab e p x (f : rkey -> M execution A) Q :
  get_key e = Some p -> oks ab (f (get_table_id e, get_partition_id e, key_at p)) x Q -> oks ab (on_world (TwoPLPasha.key_of key_at e) ≫= f) x Q.
Proof using Type.
  intros Ep H. unfold TwoPLPasha.key_of. unfold oks in *. cbv [on_world lift_with mbind M_bind deref mret M_ret set_world]. rewrite Ep. now destruct x.
Qed.

Lemma modify_step {A} ab g x (f : unit -> M execution A) Q : oks ab (f tt) (g x) Q -> oks ab (modify g ≫= f) x Q.
Proof using Type. easy. Qed.

Lemma handler_spec x i e k t :
  winv size (x_world x) -> readSet (x_txn x) !! i = Some e -> waiting (x_mem x) e k ->
  (exists p, get_key e = Some p /\ (get_table_id e, get_partition_id e, key_at p) = k) -> abs k (x_world x) = Some t ->
  oks false (handler i e) x (handler_post i e k t x).
Proof using Hme proto.
  intros Hw He ((_ & _ & Hi) & _ & _ & _ & v & b & Ev & Eb & Hl) (p & Ep & Ek) Ht. unfold lock_request_handler.
  eapply key_step; [exact Ep|]. cbv zeta. rewrite Ek.
  assert (Es : value_size (get_table_id e) = size k) by (rewrite <- Ek; reflexivity). rewrite Es.
  change (bit (get_local_index_read_bit e)) with (index_read e). rewrite Hi.
  change (bit (get_write_lock_request_bit e)) with (asks_write e).
  destruct (TwoPLPasha.has_master_partition me master_coordinator (get_partition_id e)) eqn:Hm.
  - eapply (oks_step _ _ _ _ tt x).
    { destruct overhead; [|reflexivity]. unfold when_, on_world, lift_with. rewrite (overhead_id value_size _ k t Hw Ht). unfold set_world. now destruct x. }
    eapply buffer_step; [exact Ev|exact Eb|]. apply oks_on_world_bind.
    eapply oks_mono; [exact (owner_lock (asks_write e) b (x_world x) k t Hw Ht Hl)|]. intros [[tid s] out] w' H. eapply fill_step; [exact Ev|]. apply oks_ret.
    split; [now split_and!|]. split; [reflexivity|]. cbn [la_remote]. unfold answered_here. rewrite Hm.
    split_and!; [reflexivity|reflexivity| |exists v, b, out, tid; now split_and!|reflexivity].
    exists id. split; [|now left]. cbn. symmetry. now apply list_alter_id.
  - apply modify_step. eapply (oks_step _ _ _ _ tt (if reactive then on_txn (involve (master_coordinator (get_partition_id e))) (set_distributed x) else set_distributed x)).
    { destruct reactive; reflexivity. }
    set (x1 := if reactive then _ else _). assert (Hx1 : x_world x1 = x_world x /\ x_mem x1 = x_mem x /\ readSet (x_txn x1) = readSet (x_txn x) /\
      x_out x1 = x_out x /\ pendingResponses x1 = pendingResponses x /\ same_rest x x1 /\ abort_lock (x_txn x1) = abort_lock (x_txn x)) by (unfold x1; destruct reactive; now split_and!).
    clearbody x1. destruct Hx1 as (X1 & X2 & X3 & X4 & X5 & X6 & X7). apply oks_on_world_bind. rewrite X1.
    eapply oks_mono; [exact (get_migrated_spec true (x_world x) k t Hw Ht)|]. intros found w1 (Ho & Htbl & Hk & Hf). destruct found as [q|].
    + apply modify_step. eapply buffer_step; [exact Ev|cbn; rewrite X2; exact Eb|]. apply oks_on_world_bind. cbn [x_world set_world on_read on_txn].
      eapply oks_mono; [apply (remote_lock (asks_write e) b false w1 k t q); [apply Ho|exact Hk|exact Hl|rewrite Htbl; auto]|].
      intros [[tid s] out] w2 H2. eapply fill_step; [exact Ev|]. apply oks_ret.
      split; [destruct X6 as (? & ? & ? & ? & ? & ? & ?); now split_and!|]. split; [exact X7|]. cbn [la_remote]. unfold answered_here. rewrite Hm. cbn.
      destruct H2 as (H21 & H24 & H25). split_and!; [exact X4|exact X5| | |].
      * eexists. split; [now rewrite X3|]. right. split; [reflexivity|]. exists q. rewrite H24, Htbl. auto.
      * exists v, b, out, tid. split_and!; [exact Ev|now rewrite X2|]. split; [|split; [congruence|exact H25]].
        eapply others_trans; [exact Ho|exact H21].
      * exists q. split; [reflexivity|]. rewrite H24, Htbl. auto.
    + apply modify_step, oks_ret. split; [destruct X6 as (? & ? & ? & ? & ? & ? & ?); now split_and!|]. split; [exact X7|]. cbn.
      split; [exact Hm|]. split; [eexists; cbn; now rewrite X4|]. cbn. rewrite X5. now split_and!.
Qed.

(** ** Granted and refused requests *)

Lemma locked_none e t : reads e = false -> writes e = false -> locked e t = t.
Proof using Type. unfold locked. now intros -> ->. Qed.

(** The tuple of a row that is not locked by its entry is the one it started with. *)
Lemma unlocked_entry w0 w e k : entry_inv w0 w e k -> reads e = false -> writes e = false -> exists t, abs k w0 = Some t /\ abs k w = Some t.
Proof using Type. intros [_ _ _ _ _ _ (t & H1 & _ & _ & H2)] Hr Hw. exists t. now rewrite locked_none in H2. Qed.

Lemma entry_key_same w0 w e e' k : entry_inv w0 w e k -> same_request e e' ->
  exists p, get_key e' = Some p /\ (get_table_id e', get_partition_id e', key_at p) = k.
Proof using Type. intros [_ (p & E & H) _ _ _ _ _] (_ & E1 & _ & E2 & E3 & _). exists p. rewrite E1, E2, E3. now split. Qed.

Lemma entry_granted w0 w w' e e' k t :
  entry_inv w0 w e k -> reads e = false -> writes e = false -> abs k w = Some t ->
  can (asks_write e) (t_lock t) = true -> abs k w' = Some (with_lock (grant (asks_write e)) t) ->
  same_request e e' -> reads e' = negb (asks_write e) -> writes e' = asks_write e -> refers_to me master_coordinator row_at w' e' k ->
  (get_reference_counted e' = true -> is_Some (w_tbl w' !! k)) -> (asks_write e = true -> write_ready w' k) -> entry_inv w0 w' e' k.
Proof using Type.
  intros He Hr Hw Ht Hc Ha Hs Hr' Hw' Href Hp Hrdy. destruct (unlocked_entry _ _ _ _ He Hr Hw) as (t0 & E0 & E1). assert (t0 = t) as -> by congruence.
  constructor; auto; [apply Hs|eapply entry_key_same; eauto|rewrite Hr', Hw'; now destruct (asks_write e)|now rewrite Hw'|].
  exists t. unfold locked. rewrite Hr', Hw', Ha. destruct (asks_write e); now split_and!.
Qed.

Lemma entry_refused w0 w w' e e' k t :
  entry_inv w0 w e k -> reads e = false -> writes e = false -> abs k w = Some t -> abs k w' = Some t ->
  same_request e e' -> reads e' = false -> writes e' = false ->
  (get_reference_counted e' = true -> is_Some (w_tbl w' !! k)) -> entry_inv w0 w' e' k.
Proof using Type.
  intros He Hr Hw Ht Ha Hs Hr' Hw' Hp. destruct (unlocked_entry _ _ _ _ He Hr Hw) as (t0 & E0 & E1). assert (t0 = t) as -> by congruence.
  constructor; auto; [apply Hs|eapply entry_key_same; eauto|now rewrite Hr', Hw'|rewrite Hr', Hw'; discriminate|rewrite Hw'; discriminate|].
  exists t. rewrite locked_none, Hr', Hw' by assumption. split_and!; easy.
Qed.

(** Assignments to the other fields of an entry. *)
Lemma same_request_fields e e' : bitvec e' = bitvec e -> key e' = key e -> value e' = value e -> fits 64 (bitvec e) ->
  same_request e e' /\ reads e' = reads e /\ writes e' = writes e.
Proof using Type.
  intros E1 E2 E3 Hf. unfold same_request, get_key, get_value, get_table_id, get_partition_id, asks_read, asks_write, index_read, reads, writes,
    get_read_lock_request_bit, get_write_lock_request_bit, get_local_index_read_bit, get_read_lock_bit, get_write_lock_bit.
  rewrite E1, E2, E3. now split_and!.
Qed.

Lemma asks_same e e' : asks e -> same_request e e' -> asks e'.
Proof using Type. intros (H1 & H2 & H3) (H4 & _ & _ & _ & _ & H5 & H6 & H7). split_and!; congruence || assumption. Qed.

Lemma served_mono w0 mem mem' v0 e k : served w0 mem e k -> get_value e <> Some v0 ->
  (forall v, v <> v0 -> mem' !! v = mem !! v) -> served w0 mem' e k.
Proof using Type.
  intros (H1 & H2 & H3 & v & t & Ev & E0 & Em) Hne Hm. split_and!; auto. exists v, t. split_and!; auto. rewrite Hm; [exact Em|]. now intros ->.
Qed.

Lemma waiting_mono mem mem' v0 e k : waiting mem e k -> get_value e <> Some v0 ->
  (forall v, v <> v0 -> mem' !! v = mem !! v) -> waiting mem' e k.
Proof using Type.
  intros (H1 & H2 & H3 & H4 & v & b & Ev & Em & Hl) Hne Hm. split_and!; auto. exists v, b. split_and!; auto. rewrite Hm; [exact Em|]. now intros ->.
Qed.

(** The entry after a granted request, as the loop over the read set leaves it. *)
Lemma granted_fields e tid l m f : asks e -> reads e = false -> writes e = false -> (f = id \/ f = set_reference_counted) ->
  let e' := set_processed (mark_locked (set_tid tid (set_cached_migrated_row m (set_cached_local_row l (f e))))) in
  same_request e e' /\ reads e' = negb (asks_write e) /\ writes e' = asks_write e /\
  get_cached_local_row e' = l /\ get_cached_migrated_row e' = m /\ get_reference_counted e' = get_reference_counted (f e).
Proof using Type.
  intros Ha Hr Hw Hf. set (e1 := set_tid tid (set_cached_migrated_row m (set_cached_local_row l (f e)))).
  assert (H1 : same_request e e1 /\ reads e1 = reads e /\ writes e1 = writes e).
  { unfold e1. destruct Hf as [-> | ->]; apply same_request_fields; reflexivity || apply Ha. }
  destruct H1 as (Hs & R1 & W1).
  assert (Ha1 : asks e1) by (eapply asks_same; eauto).
  destruct (mark_locked_spec e1 Ha1) as ([b Eb] & Hs2 & R2 & W2); [congruence..|].
  assert (Eaw : asks_write e1 = asks_write e) by apply Hs. rewrite Eaw in *. cbv zeta.
  destruct (same_request_fields (mark_locked e1) (set_processed (mark_locked e1))) as (Hs3 & R3 & W3); [reflexivity..|apply Hs2|].
  split; [eapply same_request_trans; [exact Hs|]; eapply same_request_trans; [exact Hs2|exact Hs3]|].
  rewrite R3, W3. split; [exact R2|]. split; [exact W2|]. rewrite Eb. now split_and!.
Qed.

(** ** The loop over the read set *)

(** The messages to be sent are the requests whose answer is awaited. *)
Definition asked (ks : list rkey) (x : execution) (pend : list nat) : Prop :=
  Forall2 (fun m i => exists h k, m = DataMigrationRequest h k i /\ ks !! i = Some k) (x_out x) pend /\
  pendingResponses x = Z.of_nat (length pend).

(** The entries from [n] on are served, or their answer is awaited. *)
Definition settled (w0 : world) (ks : list rkey) (n : nat) (pend : list nat) (x : execution) : Prop :=
  forall i e k, (n <= i)%nat -> readSet (x_txn x) !! i = Some e -> ks !! i = Some k -> served w0 (x_mem x) e k \/ i ∈ pend.

(** The entries that the loop has still to process. *)
Definition to_do (ks : list rkey) (lo n : nat) (x : execution) : Prop :=
  forall i e k, (lo <= i < n)%nat -> readSet (x_txn x) !! i = Some e -> ks !! i = Some k -> get_processed e = false /\ waiting (x_mem x) e k.

(** Entries and buffers other than those at [i] are the same. *)
Definition same_but (vals : list Z) (i : nat) (x x' : execution) : Prop :=
  (forall j, j <> i -> readSet (x_txn x') !! j = readSet (x_txn x) !! j) /\
  (forall v, vals !! i <> Some v -> x_mem x' !! v = x_mem x !! v).

Lemma to_do_step w0 ks vals pend lo n x x' :
  exec_inv w0 ks vals pend x -> NoDup vals -> same_but vals n x x' -> to_do ks lo (S n) x -> to_do ks lo n x'.
Proof using Type.
  intros Hx Hvs [Hr Hm] H i e k Hi He Hk. rewrite Hr in He by lia. destruct (H i e k ltac:(lia) He Hk) as [H1 H2]. split; [exact H1|].
  destruct (xi_entry _ _ _ _ _ Hx i e k He Hk) as [_ Hv]. destruct H2 as (A1 & A2 & A3 & A4 & v & b & Ev & Eb & Hl). split_and!; auto. exists v, b. split_and!; auto.
  rewrite Hm; [exact Eb|]. intros Hn. assert (i = n) by (eapply (NoDup_lookup vals); eauto; congruence). lia.
Qed.

Lemma settled_step w0 ks vals pend pend' n i x x' :
  exec_inv w0 ks vals pend x -> NoDup vals -> same_but vals i x x' -> (forall j, j ∈ pend -> j <> i -> j ∈ pend') ->
  (forall e k, readSet (x_txn x') !! i = Some e -> ks !! i = Some k -> served w0 (x_mem x') e k \/ i ∈ pend') ->
  (forall j e k, (n <= j)%nat -> j <> i -> readSet (x_txn x) !! j = Some e -> ks !! j = Some k -> served w0 (x_mem x) e k \/ j ∈ pend) ->
  settled w0 ks n pend' x'.
Proof using Type.
  intros Hx Hvs [Hr Hm] Hp Hi H j e k Hj He Hk. destruct (decide (j = i)) as [->|Hji]; [auto|]. rewrite Hr in He by exact Hji.
  destruct (xi_entry _ _ _ _ _ Hx j e k He Hk) as [_ Hv].
  destruct (H j e k Hj Hji He Hk) as [(A1 & A2 & A3 & v & t & Ev & E0 & Em)|Hin]; [left|right; auto]. split_and!; auto. exists v, t. split_and!; auto.
  rewrite Hm; [exact Em|]. intros Hn. apply Hji. eapply (NoDup_lookup vals); eauto; congruence.
Qed.

#[local] Abbreviation reads_loop := (process_reads sc me value_size master_coordinator key_at row_addr overhead reactive).

Lemma refers_here w e e' k a : same_request e e' -> (get_table_id e, get_partition_id e, k.2) = k ->
  get_cached_local_row e' = la_local a -> get_cached_migrated_row e' = la_migrated a ->
  (if TwoPLPasha.has_master_partition me master_coordinator (get_partition_id e) then la_local a = Some (row_addr k)
   else exists p, la_migrated a = Some p /\ w_tbl w !! k = Some p) -> refers_to me master_coordinator row_at w e' k.
Proof using Haddr.
  intros (_ & _ & _ & E1 & E2 & _) Ek El Em H. unfold refers_to. rewrite E1, E2, El, Em. split; [now rewrite <- Ek|].
  destruct (TwoPLPasha.has_master_partition _ _ _); [|exact H]. exists (row_addr k). now split.
Qed.

Lemma alter_alter {A} (f g : A -> A) (i : nat) (l : list A) : alter f i (alter g i l) = alter (fun a => f (g a)) i l.
Proof using Type. revert i. induction l as [|a l IH]; intros [|i]; cbn; auto. f_equal. apply IH. Qed.

Section entry.
Context (w0 : world) (ks : list rkey) (vals : list Z) (Hks : NoDup ks) (Hvs : NoDup vals) (pend : list nat) (x : execution) (i : nat) (e : rwkey) (k : rkey).
Context (Hx : exec_inv w0 ks vals pend x) (He : readSet (x_txn x) !! i = Some e) (Hk : ks !! i = Some k) (Hi : i ∉ pend) (Hwait : waiting (x_mem x) e k).
Context (t : tuple) (Ht : abs k (x_world x) = Some t).

Lemma entry_facts : entry_inv w0 (x_world x) e k /\ get_value e = vals !! i /\ (get_table_id e, get_partition_id e, k.2) = k /\ abs k w0 = Some t.
Proof using Hx He Hk Hwait Ht.
  destruct (xi_entry _ _ _ _ _ Hx i e k He Hk) as [H1 H2]. split_and!; auto.
  - destruct (ei_key _ _ _ _ H1) as (p & _ & <-). reflexivity.
  - destruct Hwait as (_ & Hr & Hw & _). destruct (unlocked_entry _ _ _ _ H1 Hr Hw) as (t0 & E0 & E1). congruence.
Qed.

Lemma granted_step a x1 :
  answered_here i e k t x a x1 -> la_success a = true ->
  let x2 := on_read i set_processed (on_read i (fun e => mark_locked (set_tid (la_tid a) e))
    (on_read i (fun e => set_cached_migrated_row (la_migrated a) (set_cached_local_row (la_local a) e)) x1)) in
  exec_inv w0 ks vals pend x2 /\ same_but vals i x x2 /\ (forall e', readSet (x_txn x2) !! i = Some e' -> served w0 (x_mem x2) e' k).
Proof using Haddr Hks Hvs Hx He Hk Hi Hwait Ht.
  intros (_ & _ & (f & Ef & Hf) & (v & b & out & tid & Ev & Em & Hl) & Hr) Hs x2. destruct entry_facts as (Hinv & Hval & Ek & E0).
  pose proof Hwait as (Ha & Hrd & Hwr & Hrc & _). destruct Hl as (Ho & Htbl & Hl). cbn in Hl. rewrite Hs in Hl. destruct Hl as (Hc & Hab & Hout & Hrdy).
  set (g := fun e => set_processed (mark_locked (set_tid (la_tid a) (set_cached_migrated_row (la_migrated a) (set_cached_local_row (la_local a) (f e)))))).
  assert (Erd : readSet (x_txn x2) = alter g i (readSet (x_txn x))).
  { unfold x2, g. cbn. rewrite Ef. now rewrite !alter_alter. }
  assert (Hg : same_request e (g e) /\ reads (g e) = negb (asks_write e) /\ writes (g e) = asks_write e /\ get_cached_local_row (g e) = la_local a /\
    get_cached_migrated_row (g e) = la_migrated a /\ get_reference_counted (g e) = get_reference_counted (f e)).
  { apply granted_fields; auto. destruct Hf as [?|[? _]]; auto. }
  destruct Hg as (G1 & G2 & G3 & G4 & G5 & G6).
  assert (Href : refers_to me master_coordinator row_at (x_world x1) (g e) k) by (eapply refers_here; eauto).
  assert (Hpin : get_reference_counted (g e) = true -> is_Some (w_tbl (x_world x1) !! k)).
  { rewrite G6. destruct Hf as [-> |[-> Hp]]; [cbn; now rewrite Hrc|auto]. }
  split_and!.
  - apply (exec_inv_step w0 ks vals pend x i e k g (x_world x1) (x_mem x2) x2); try assumption; try reflexivity; [|eapply entry_granted; eauto|apply G1].
    intros v' Hv'. unfold x2. cbn. rewrite Em. apply lookup_insert_ne. congruence.
  - split; [intros j Hj; rewrite Erd; now apply list_lookup_alter_ne|]. intros v' Hv'. unfold x2. cbn. rewrite Em. apply lookup_insert_ne. congruence.
  - intros e' E'. rewrite Erd, list_lookup_alter_eq, He in E'. injection E' as <-.
    split; [eapply asks_same; eauto|]. assert (asks_write (g e) = asks_write e) as -> by apply G1. split; [exact G2|]. split; [exact G3|].
    exists v, t. split; [destruct G1 as (_ & _ & -> & _); exact Ev|]. split; [exact E0|]. unfold x2. cbn. rewrite Em, lookup_insert_eq. now f_equal.
Qed.

Lemma refused_step a x1 :
  answered_here i e k t x a x1 -> la_success a = false ->
  exec_inv w0 ks vals pend (on_txn set_abort_lock
    (on_read i (fun e => set_cached_migrated_row (la_migrated a) (set_cached_local_row (la_local a) e)) x1)).
Proof using Hks Hvs Hx He Hk Hi Hwait Ht.
  intros (_ & _ & (f & Ef & Hf) & (v & b & out & tid & Ev & Em & Hl) & _) Hs. destruct entry_facts as (Hinv & Hval & Ek & E0).
  pose proof Hwait as (Ha & Hrd & Hwr & Hrc & _). destruct Hl as (Ho & Htbl & Hl). cbn in Hl. rewrite Hs in Hl. destruct Hl as (Hab & Hout).
  set (g := fun e => set_cached_migrated_row (la_migrated a) (set_cached_local_row (la_local a) (f e))).
  assert (Hg : same_request e (g e) /\ reads (g e) = reads e /\ writes (g e) = writes e).
  { unfold g. destruct Hf as [-> |[-> _]]; apply same_request_fields; reflexivity || apply Ha. }
  destruct Hg as (G1 & G2 & G3).
  set (x2 := on_txn _ _).
  apply (exec_inv_step w0 ks vals pend x i e k g (x_world x1) (x_mem x2) x2); try assumption; try reflexivity; [| |apply G1|cbn; rewrite Ef; now rewrite alter_alter].
  - intros v' Hv'. cbn. rewrite Em. apply lookup_insert_ne. congruence.
  - eapply entry_refused; eauto; try congruence. unfold g. destruct Hf as [-> |[-> Hp]]; [|auto]. intros Hr. change (get_reference_counted e = true) in Hr. congruence.
Qed.

Lemma asked_step x1 :
  asked_owner i e k t x x1 -> asked ks x pend ->
  let x2 := on_read i set_processed x1 in
  exec_inv w0 ks vals (pend ++ [i]) x2 /\ same_but vals i x x2 /\ asked ks x2 (pend ++ [i]).
Proof using Hks Hvs Hx He Hk Hi Hwait Ht.
  intros (Hel & (h & Eo) & Ep & Er & Em & Ho & Hab) [Hout Hpd] x2. destruct entry_facts as (Hinv & Hval & Ek & E0). pose proof Hwait as (Ha & Hrd & Hwr & Hrc & v & b & Ev & Eb & Hl).
  destruct (same_request_fields e (set_processed e)) as (G1 & G2 & G3); [reflexivity..|apply Ha|].
  assert (Erd : readSet (x_txn x2) = alter set_processed i (readSet (x_txn x))) by (unfold x2; cbn; now rewrite Er).
  assert (Hx2 : exec_inv w0 ks vals pend x2).
  { apply (exec_inv_step w0 ks vals pend x i e k set_processed (x_world x1) (x_mem x2) x2); try assumption; try reflexivity; [|eapply entry_refused; eauto; try congruence].
    - intros v' _. unfold x2. cbn. now rewrite Em.
    - intros Hr. change (get_reference_counted e = true) in Hr. congruence. }
  split; [|split].
  - destruct Hx2 as [H1 H2 H3 H4 H5 H6]. constructor; auto.
    + intros j [Hj|Hj]%elem_of_app; [auto|]. apply list_elem_of_singleton in Hj as ->. exists (set_processed e), k.
      rewrite Erd, list_lookup_alter_eq, He. split; [reflexivity|]. split; [exact Hk|]. split; [exact Hel|].
      split; [eapply asks_same; eauto|]. rewrite G2, G3. split_and!; auto. exists v, b. split; [exact Ev|]. unfold x2. cbn. rewrite Em. now split.
    + apply NoDup_app. split; [exact H6|]. split; [|apply NoDup_singleton]. intros j Hj Hj'. apply list_elem_of_singleton in Hj' as ->. auto.
  - split; [intros j Hj; rewrite Erd; now apply list_lookup_alter_ne|]. intros v' _. unfold x2. cbn. now rewrite Em.
  - split; unfold x2; cbn.
    + rewrite Eo. apply Forall2_app; [exact Hout|]. constructor; [|constructor]. now exists h, k.
    + rewrite Ep, Hpd, length_app. cbn. lia.
Qed.
End entry.

(** What the loop leaves: the invariant, and with no stop every new entry served
    or asked for. *)
Definition loop_post (w0 : world) (ks : list rkey) (vals : list Z) (lo : nat) (x : execution) (stop : bool) (x' : execution) : Prop :=
  exists pend, exec_inv w0 ks vals pend x' /\ asked ks x' pend /\ same_rest x x' /\
    if stop then abort_lock (x_txn x') = true
    else abort_lock (x_txn x') = abort_lock (x_txn x) /\ settled w0 ks lo pend x'.

(** The loop stops at the entries of earlier calls. *)
Definition stops_at (lo : nat) (x : execution) : Prop :=
  match lo with O => True | S j => exists e, readSet (x_txn x) !! j = Some e /\ get_processed e = true end.

Lemma reads_loop_spec w0 ks vals lo : NoDup ks -> NoDup vals -> forall n x pend,
  (lo <= n <= length ks)%nat -> exec_inv w0 ks vals pend x -> asked ks x pend -> (forall i, i ∈ pend -> (n <= i)%nat) ->
  stops_at lo x -> to_do ks lo n x -> settled w0 ks n pend x ->
  oks false (reads_loop n) x (loop_post w0 ks vals lo x).
Proof using Hme proto Haddr.
  intros Hks Hvs. induction n as [|n IH]; intros x pend Hn Hx Has Hp Hst Htd Hse.
  { apply oks_ret. exists pend. assert (lo = 0%nat) as -> by lia. split_and!; auto using same_rest_refl. }
  destruct (decide (lo = S n)) as [->|Hlo].
  { destruct Hst as (e & He & Hpr). cbn [process_reads]. eapply oks_step; [unfold deref; now rewrite He|]. cbv beta. rewrite Hpr.
    apply oks_ret. exists pend. split_and!; auto using same_rest_refl. }
  destruct (lookup_lt_is_Some_2 ks n ltac:(lia)) as [k Hk]. destruct (lookup_lt_is_Some_2 (readSet (x_txn x)) n) as [e He]; [rewrite (xi_len _ _ _ _ _ Hx); lia|].
  destruct (Htd n e k ltac:(lia) He Hk) as [Hpr Hwait]. assert (Hi : n ∉ pend) by (intros H%Hp; lia).
  destruct (xi_entry _ _ _ _ _ Hx n e k He Hk) as [Hinv _]. pose proof Hwait as (_ & Hrd & Hwr & _).
  destruct (unlocked_entry _ _ _ _ Hinv Hrd Hwr) as (t & _ & Ht).
  cbn [process_reads]. eapply oks_step; [unfold deref; now rewrite He|]. cbv beta. rewrite Hpr.
  apply oks_bind. eapply oks_mono; [apply (handler_spec x n e k t); auto; [apply Hx|apply Hinv]|].
  intros a x1 (Hsr & Hab & Hpost). destruct (la_remote a).
  - apply modify_step. destruct (asked_step w0 ks vals Hks Hvs pend x n e k Hx He Hk Hi Hwait t Ht x1 Hpost Has) as (Hx2 & Hb & Has2).
    set (x2 := on_read n set_processed x1) in *.
    assert (Hsr2 : same_rest x x2) by exact Hsr.
    assert (Hab2 : abort_lock (x_txn x2) = abort_lock (x_txn x)) by exact Hab.
    eapply oks_mono; [apply (IH x2 (pend ++ [n])); auto; [lia| | |now apply (to_do_step w0 ks vals pend lo n x)|]|].
    + intros i [Hin|Hin%list_elem_of_singleton]%elem_of_app; [specialize (Hp i Hin)|]; lia.
    + destruct lo as [|j]; [exact I|]. destruct Hst as (e' & He' & Hpr'). exists e'. split; [|exact Hpr']. rewrite (proj1 Hb) by lia. exact He'.
    + apply (settled_step w0 ks vals pend _ n n x x2); auto; [intros; apply elem_of_app; auto|intros; right; apply elem_of_app; right; now left|].
      intros j e' k' Hj Hjn. apply Hse. lia.
    + intros stop x3 (pend3 & H1 & H2 & H3 & H4). exists pend3. split_and!; auto; [eapply same_rest_trans; eauto|]. destruct stop; [auto|]. now rewrite <- Hab2.
  - apply modify_step. destruct (la_success a) eqn:Hs.
    + do 2 apply modify_step. destruct (granted_step w0 ks vals Hks Hvs pend x n e k Hx He Hk Hi Hwait t Ht a x1 Hpost Hs) as (Hx2 & Hb & Hsv).
      set (x2 := on_read n set_processed _) in *.
      assert (Hsr2 : same_rest x x2) by exact Hsr.
      assert (Hab2 : abort_lock (x_txn x2) = abort_lock (x_txn x)) by exact Hab.
      destruct Hpost as (Ho & Hpd & _).
      assert (Has2 : asked ks x2 pend) by (unfold asked, x2; cbn; now rewrite Ho, Hpd).
      eapply oks_mono; [apply (IH x2 pend); auto; [lia| | |now apply (to_do_step w0 ks vals pend lo n x)|]|].
      * intros i Hin. specialize (Hp i Hin). lia.
      * destruct lo as [|j]; [exact I|]. destruct Hst as (e' & He' & Hpr'). exists e'. split; [|exact Hpr']. rewrite (proj1 Hb) by lia. exact He'.
      * apply (settled_step w0 ks vals pend _ n n x x2); auto; [intros e' k' E1 E2; left; assert (k' = k) as -> by congruence; auto|].
        intros j e' k' Hj Hjn. apply Hse. lia.
      * intros stop x3 (pend3 & H1 & H2 & H3 & H4). exists pend3. split_and!; auto; [eapply same_rest_trans; eauto|]. destruct stop; [auto|]. now rewrite <- Hab2.
    + apply modify_step, oks_ret. exists pend.
      pose proof (refused_step w0 ks vals Hks Hvs pend x n e k Hx He Hk Hi Hwait t Ht a x1 Hpost Hs) as Hx2.
      destruct Hpost as (Ho & Hpd & _). split_and!; auto. unfold asked. cbn. now rewrite Ho, Hpd.
Qed.

(** ** The answers of the owners *)

(** What the owners promise while the host waits: every tuple stays as it is, no
    row leaves CXL memory, the host can still finish its writes of the rows it did
    not ask for, and every request is answered, in any order. *)
Definition answers (m : request) (r : response) : Prop :=
  match m with
  | DataMigrationRequest _ k i => exists b, r = DataMigrationResponse k.1.1 k.1.2 b i
  | DataMigrationRequestForScan _ _ _ _ _ _ _ => False
  end.

Definition for_rows (w : world) (m : request) : Prop :=
  match m with DataMigrationRequest _ k _ => is_Some (abs k w) | DataMigrationRequestForScan _ _ _ _ _ _ _ => False end.

Definition asked_for (k : rkey) (m : request) : Prop :=
  match m with DataMigrationRequest _ k' _ => k' = k | DataMigrationRequestForScan _ _ _ _ _ _ _ => False end.

Definition owners (exchange : list request -> M world (list response)) : Prop := forall w ms,
  winv size w -> Forall (for_rows w) ms ->
  oks false (exchange ms) w (fun rs w' => winv size w' /\ (forall k, abs k w' = abs k w) /\ w_tbl w ⊆ w_tbl w' /\
    (forall k, ~ Exists (asked_for k) ms -> write_ready w k -> write_ready w' k) /\ exists ms', ms' ≡ₚ ms /\ Forall2 answers ms' rs).

Lemma response_mark e : index_read e = false ->
  (let e := if bit (get_read_lock_request_bit e) then set_read_lock_bit e else e in
   if bit (get_write_lock_request_bit e) then set_write_lock_bit e else e) = mark_locked e.
Proof using Type. unfold mark_locked, index_read. intros ->. now rewrite andb_true_r. Qed.

Lemma exec_inv_tail w0 ks vals i pend x : exec_inv w0 ks vals (i :: pend) x -> exec_inv w0 ks vals pend x /\ i ∉ pend.
Proof using Type.
  intros [H1 H2 H3 H4 H5 H6]. apply NoDup_cons in H6 as [H6 H7]. split; [|exact H6]. constructor; auto. intros j Hj. apply H5. now right.
Qed.

#[local] Abbreviation response_handler := (data_migration_response_handler sc me value_size key_at).

(** The entry after a granted request, as the answer of the owner leaves it. *)
Definition response_entry (tid q : Z) (e : rwkey) : rwkey :=
  let e := set_cached_migrated_row (Some q) (set_tid tid e) in
  let e := if bit (get_read_lock_request_bit e) then set_read_lock_bit e else e in
  let e := if bit (get_write_lock_request_bit e) then set_write_lock_bit e else e in
  set_reference_counted e.

Lemma response_fields tid q e : asks e -> reads e = false -> writes e = false ->
  let e' := response_entry tid q e in
  same_request e e' /\ reads e' = negb (asks_write e) /\ writes e' = asks_write e /\ get_cached_migrated_row e' = Some q.
Proof using Type.
  intros Ha Hr Hw. unfold response_entry. set (e1 := set_cached_migrated_row (Some q) (set_tid tid e)).
  destruct (same_request_fields e e1) as (Hs & R1 & W1); [reflexivity..|apply Ha|]. assert (Ha1 : asks e1) by (eapply asks_same; eauto).
  cbv zeta. rewrite response_mark by apply Ha1. destruct (mark_locked_spec e1 Ha1) as ([b Eb] & Hs2 & R2 & W2); [congruence..|].
  destruct (same_request_fields (mark_locked e1) (set_reference_counted (mark_locked e1))) as (Hs3 & R3 & W3); [reflexivity..|apply Hs2|].
  assert (Eaw : asks_write e1 = asks_write e) by apply Hs. rewrite Eaw in *.
  split; [eapply same_request_trans; [exact Hs|]; eapply same_request_trans; [exact Hs2|exact Hs3]|].
  rewrite R3, R2, W3, W2. split_and!; auto. now rewrite Eb.
Qed.

Definition response_post (w0 : world) (ks : list rkey) (vals : list Z) (pend : list nat) (lo : nat) (x x' : execution) : Prop :=
  exec_inv w0 ks vals pend x' /\ same_rest x x' /\ pendingResponses x' = pendingResponses x - 1 /\ x_out x' = x_out x /\
  (abort_lock (x_txn x') = false -> abort_lock (x_txn x) = false /\ settled w0 ks lo pend x').

Lemma response_spec w0 (ks : list rkey) vals lo (i : nat) pend x (k : rkey) b :
  NoDup ks -> NoDup vals -> exec_inv w0 ks vals (i :: pend) x -> ks !! i = Some k ->
  (abort_lock (x_txn x) = false -> settled w0 ks lo (i :: pend) x) ->
  oks false (response_handler k.1.1 k.1.2 b i) x (fun _ x' => response_post w0 ks vals pend lo x x').
Proof using Hme proto.
  intros Hks Hvs Hx Hk Hse. destruct (xi_pend _ _ _ _ _ Hx i ltac:(now left)) as (e & k' & He & Hk' & Hel & Hwait). assert (k' = k) as -> by congruence. clear Hk'.
  destruct (exec_inv_tail _ _ _ _ _ _ Hx) as [Hx' Hi]. destruct (xi_entry _ _ _ _ _ Hx i e k He Hk) as [Hinv Hval].
  pose proof Hwait as (Ha & Hrd & Hwr & Hrc & v & dest & Ev & Eb & Hl). destruct (unlocked_entry _ _ _ _ Hinv Hrd Hwr) as (t & E0 & Ht).
  destruct (ei_key _ _ _ _ Hinv) as (p & Ep & Ek).
  assert (Habort : forall w', others (x_world x) k w' -> abs k w' = Some t -> response_post w0 ks vals pend lo x (answered (on_txn set_abort_lock (set_world w' x)))).
  { intros w' Ho Ht'. unfold response_post. set (x2 := answered _). split_and!; try easy.
    apply (exec_inv_step w0 ks vals pend x i e k id w' (x_mem x2) x2); try assumption; try reflexivity.
    - eapply entry_refused; eauto; [apply same_request_refl, Ha|]. intros Hr. change (get_reference_counted e = true) in Hr. congruence.
    - symmetry. exact (list_alter_id id _ i (fun _ => eq_refl)). }
  unfold data_migration_response_handler. destruct b; cbn [negb].
  2: { apply modify_step. unfold oks, modify.
       replace (on_txn set_abort_lock x) with (on_txn set_abort_lock (set_world (x_world x) x)) by (now destruct x).
       apply Habort; [|exact Ht]. apply others_same, Hx. }
  eapply oks_step; [unfold deref; now rewrite He|]. eapply oks_step; [unfold deref; now rewrite Ep|]. cbv beta zeta.
  replace (k.1.1, k.1.2, key_at p) with k by (now rewrite <- Ek). apply oks_on_world_bind.
  eapply oks_mono; [exact (get_migrated_spec false (x_world x) k t (xi_winv _ _ _ _ _ Hx) Ht)|]. intros found w1 (Ho & Htbl & Hk1 & Hf).
  destruct found as [q|]; [|apply modify_step; exact (Habort w1 Ho Hk1)]. specialize (Hf q eq_refl).
  apply oks_assoc. eapply buffer_step; [exact Ev|exact Eb|]. apply oks_assoc, oks_on_world_bind.
  change (value_size k.1.1) with (size k). change (bit (get_write_lock_request_bit e)) with (asks_write e). cbn [x_world set_world].
  eapply oks_mono; [apply (remote_lock (asks_write e) dest true w1 k t q); [apply Ho|exact Hk1|exact Hl|now rewrite Htbl]|].
  intros [[tid s] out] w2 (H21 & H24 & H25). cbn in H25.
  assert (Ho2 : others (x_world x) k w2) by (eapply others_trans; [exact Ho|exact H21]).
  apply oks_assoc. eapply fill_step; [exact Ev|]. destruct s.
  - destruct H25 as (Hc & Hab & Hout & Hrdy). apply modify_step. unfold oks, modify.
    fold (response_entry tid q). set (x2 := answered _).
    destruct (response_fields tid q e Ha Hrd Hwr) as (G1 & G2 & G3 & G4). set (g := response_entry tid q) in *.
    assert (Hm : forall v', vals !! i <> Some v' -> x_mem x2 !! v' = x_mem x !! v') by (intros v' Hv'; cbn; apply lookup_insert_ne; congruence).
    assert (Hr : readSet (x_txn x2) = alter g i (readSet (x_txn x))) by reflexivity.
    assert (Hp : is_Some (w_tbl w2 !! k)) by (exists q; rewrite H24, Htbl; exact Hf).
    assert (Hx2 : exec_inv w0 ks vals pend x2).
    { apply (exec_inv_step w0 ks vals pend x i e k g w2 (x_mem x2) x2); try assumption; try reflexivity; [|apply G1].
      eapply entry_granted; eauto. split; [|].
      - destruct G1 as (_ & _ & _ & -> & _). now rewrite <- Ek.
      - destruct G1 as (_ & _ & _ & _ & -> & _). unfold elsewhere in Hel. rewrite Hel. exists q. split; [exact G4|]. rewrite H24, Htbl. exact Hf. }
    split_and!; try easy. intros Hal. split; [exact Hal|].
    apply (settled_step w0 ks vals (i :: pend) pend lo i x x2); auto.
    + split; [|exact Hm]. intros j Hj. rewrite Hr. now apply list_lookup_alter_ne.
    + intros j [->|Hj]%elem_of_cons Hji; [easy|exact Hj].
    + intros e' k' E1 E2. left. assert (k' = k) as -> by congruence. rewrite Hr, list_lookup_alter_eq, He in E1. injection E1 as <-.
      split; [eapply asks_same; eauto|]. assert (asks_write (g e) = asks_write e) as -> by apply G1. split_and!; auto.
      exists v, t. split; [destruct G1 as (_ & _ & -> & _); exact Ev|]. split; [exact E0|]. cbn. rewrite lookup_insert_eq. now f_equal.
    + intros j e' k' Hj _ E1 E2. apply (Hse Hal j e' k' Hj E1 E2).
  - destruct H25 as (Hab & ->). apply modify_step. unfold oks, modify.
    specialize (Habort w2 Ho2 Hab). destruct Habort as (A1 & A2 & A3 & A4 & A5). split_and!; auto; [|easy].
    eapply exec_inv_ext; [| | |exact A1]; [reflexivity..|]. cbn. now apply insert_id.
Qed.

Lemma responses_spec key_addr cxl_data_addr w0 (ks : list rkey) vals lo : NoDup ks -> NoDup vals -> forall rs x pend,
  exec_inv w0 ks vals pend x -> pendingResponses x = Z.of_nat (length pend) ->
  Forall2 (fun i r => exists k b, ks !! i = Some k /\ r = DataMigrationResponse k.1.1 k.1.2 b i) pend rs ->
  (abort_lock (x_txn x) = false -> settled w0 ks lo pend x) ->
  oks false (handle_responses sc me value_size key_at key_addr cxl_data_addr rs) x (fun _ x' =>
    exec_inv w0 ks vals [] x' /\ same_rest x x' /\ (abort_lock (x_txn x') = false -> abort_lock (x_txn x) = false /\ settled w0 ks lo [] x')).
Proof using Hme proto.
  intros Hks Hvs. induction rs as [|r rs IH]; intros x pend Hx Hpd Hall Hse; cbn [handle_responses]; (eapply oks_step; [reflexivity|]); cbv beta.
  - apply Forall2_nil_inv_r in Hall as ->. cbn in Hpd. rewrite Hpd. cbn. split_and!; auto using same_rest_refl.
  - apply Forall2_cons_inv_r in Hall as (i & pend' & (k & b & Hk & ->) & Hall & ->). rewrite Hpd.
    rewrite (proj2 (Z.ltb_lt 0 _)) by (cbn; lia). cbn [handle_response]. apply oks_bind.
    eapply oks_mono; [exact (response_spec w0 ks vals lo i pend' x k b Hks Hvs Hx Hk Hse)|]. intros [] x1 (H1 & H2 & H3 & _ & H4).
    eapply oks_mono; [apply (IH x1 pend'); auto|].
    + rewrite H3, Hpd. cbn. lia.
    + intros Hal. now apply H4.
    + intros [] x2 (G1 & G2 & G3). split_and!; auto; [eapply same_rest_trans; eauto|]. intros Hal. destruct (G3 Hal) as [G4 G5]. split; [now apply H4|exact G5].
Qed.

Lemma exec_inv_perm w0 ks vals pend pend' x : pend ≡ₚ pend' -> exec_inv w0 ks vals pend x -> exec_inv w0 ks vals pend' x.
Proof using Type. intros Hp [H1 H2 H3 H4 H5 H6]. constructor; auto; [intros i Hi; apply H5; now rewrite Hp|now rewrite <- Hp]. Qed.

(** The owners change no tuple, so they change nothing that the transaction relies on. *)
Lemma exec_inv_world w0 ks vals pend x w' :
  winv size w' -> (forall k, abs k w' = abs k (x_world x)) -> w_tbl (x_world x) ⊆ w_tbl w' -> NoDup ks ->
  (forall k, (forall i, i ∈ pend -> ks !! i <> Some k) -> write_ready (x_world x) k -> write_ready w' k) ->
  exec_inv w0 ks vals pend x -> exec_inv w0 ks vals pend (set_world w' x).
Proof using Type.
  intros Hw Ha Ht Hks Hrd [H1 H2 H3 H4 H5 H6]. constructor; auto.
  - intros i e k He Hk. destruct (H3 i e k He Hk) as [A B]. split; [|exact B]. eapply entry_inv_mono; eauto.
    intros Hwr. apply Hrd. intros j Hj Hjk. destruct (H5 j Hj) as (e' & k' & Ee & _ & _ & _ & _ & Hwr' & _).
    assert (j = i) as -> by (eapply (NoDup_lookup ks); eauto). cbn in He. congruence.
  - intros k Hk. cbn. rewrite Ha. auto.
Qed.

Lemma offsets_answered (ks : list rkey) (ms ms' : list request) pend rs :
  Forall2 (fun m i => exists h k, m = DataMigrationRequest h k i /\ ks !! i = Some k) ms pend -> ms' ≡ₚ ms -> Forall2 answers ms' rs ->
  exists pend', pend' ≡ₚ pend /\ Forall2 (fun i r => exists k b, ks !! i = Some k /\ r = DataMigrationResponse k.1.1 k.1.2 b i) pend' rs.
Proof using Type.
  intros Hm Hp Hr. set (off := fun m => match m with DataMigrationRequest _ _ i | DataMigrationRequestForScan _ _ _ _ _ _ i => i end).
  assert (Hmap : pend = off <$> ms).
  { clear Hp Hr. induction Hm as [|m i ms1 pend1 (h & k & -> & _) _ IH]; cbn; [reflexivity|now f_equal]. }
  exists (off <$> ms'). split; [rewrite Hmap; now apply fmap_Permutation|].
  assert (Hk : forall m, m ∈ ms' -> exists h k, m = DataMigrationRequest h k (off m) /\ ks !! off m = Some k).
  { intros m Hin. rewrite Hp in Hin. apply list_elem_of_lookup_1 in Hin as [j Hj]. destruct (Forall2_lookup_l _ _ _ _ _ Hm Hj) as (i & _ & h & k & -> & Hk). now exists h, k. }
  clear Hp. induction Hr as [|m r ms1 rs1 Ha _ IH]; cbn; constructor.
  - destruct (Hk m ltac:(now left)) as (h & k & E & Hki). rewrite E in Ha. destruct Ha as [b ->]. now exists k, b.
  - apply IH. intros m' Hin. apply Hk. now right.
Qed.

(** ** [process_requests] *)

Section process.
Context (data_addr key_addr : rkey -> Z) (cxl_data_addr : Z -> Z) (enable_phantom_detection : bool) (replica_here : Z -> bool).
Context (exchange : list request -> M world (list response)) (Hex : owners exchange).

#[local] Abbreviation requests := (process_requests sc me value_size master_coordinator key_at row_addr data_addr key_addr cxl_data_addr
  enable_phantom_detection overhead reactive replica_here exchange).

(** No request but reads, and nothing that would abort the transaction yet. *)
Definition only_reads (x : execution) : Prop :=
  scanSet (x_txn x) = [] /\ insertSet (x_txn x) = [] /\ deleteSet (x_txn x) = [] /\
  abort_read_validation x = false /\ abort_insert x = false /\ abort_delete x = false.

Lemma only_reads_rest x x' : same_rest x x' -> only_reads x -> only_reads x'.
Proof using Type. intros (_ & E1 & E2 & E3 & E4 & E5 & E6) (? & ? & ? & ? & ? & ?). split_and!; congruence. Qed.

Lemma wait_spec w0 (ks : list rkey) vals lo pend x :
  NoDup ks -> NoDup vals -> exec_inv w0 ks vals pend x -> asked ks x pend -> (abort_lock (x_txn x) = false -> settled w0 ks lo pend x) ->
  oks false (wait_for_responses sc me value_size key_at key_addr cxl_data_addr exchange) x (fun _ x' =>
    exec_inv w0 ks vals [] x' /\ same_rest x x' /\ (abort_lock (x_txn x') = false -> abort_lock (x_txn x) = false /\ settled w0 ks lo [] x')).
Proof using Hme proto Hex.
  intros Hks Hvs Hx [Hm Hpd] Hse. unfold wait_for_responses. eapply oks_step; [reflexivity|]. cbv beta. rewrite Hpd.
  destruct (Z.ltb_spec 0 (Z.of_nat (length pend))) as [_|Hz].
  - cbn [when_]. eapply oks_step; [reflexivity|]. apply modify_step, oks_on_world_bind. cbn [x_world flushed].
    eapply oks_mono; [apply Hex; [apply Hx|]|].
    + apply Forall_forall. intros m Hin. apply list_elem_of_lookup_1 in Hin as [j Hj]. destruct (Forall2_lookup_l _ _ _ _ _ Hm Hj) as (i & Hi & h & k & -> & Hk).
      apply list_elem_of_lookup_2 in Hi. destruct (xi_pend _ _ _ _ _ Hx i Hi) as (e & k' & He & Hk' & _ & _ & Hr & Hw & _). assert (k' = k) as -> by congruence.
      destruct (xi_entry _ _ _ _ _ Hx i e k He Hk) as [Hinv _]. destruct (unlocked_entry _ _ _ _ Hinv Hr Hw) as (t & _ & Ht). now exists t.
    + intros rs w1 (H1 & H2 & H3 & Hrd & ms' & H4 & H5). destruct (offsets_answered _ _ _ _ _ Hm H4 H5) as (pend' & Hp & Hall).
      set (x1 := set_world w1 (flushed x)).
      assert (Hx1 : exec_inv w0 ks vals pend' x1).
      { eapply exec_inv_perm; [symmetry; exact Hp|]. apply (exec_inv_world w0 ks vals pend (flushed x) w1); auto.
        { intros k Hno. apply Hrd. intros Hex'. apply Exists_exists in Hex' as (m & Hin & Hfor). apply list_elem_of_lookup_1 in Hin as [j Hj].
          destruct (Forall2_lookup_l _ _ _ _ _ Hm Hj) as (i & Hi & h & k' & -> & Hk). cbn in Hfor. subst k'. apply (Hno i); [now apply list_elem_of_lookup_2 in Hi|exact Hk]. }
        eapply exec_inv_ext; [..|exact Hx]; reflexivity. }
      eapply oks_mono; [apply (responses_spec key_addr cxl_data_addr w0 ks vals lo Hks Hvs rs x1 pend'); auto|].
      * change (pendingResponses x = Z.of_nat (length pend')). now rewrite Hpd, Hp.
      * intros Hal i e k Hi He Hk. destruct (Hse Hal i e k Hi He Hk) as [Hsv|Hin]; [now left|right]. now rewrite Hp.
      * intros [] x2 (G1 & G2 & G3). now split_and!.
  - destruct pend; [|cbn in Hz; lia]. apply oks_ret. split_and!; auto using same_rest_refl.
Qed.

(** Executing a transaction acquires what it asked for, or aborts it: if
    [process_requests] does not abort, every new request is served; whatever it
    returns, the tuples differ from those before the transaction exactly by the
    locks its entries record. *)
Lemma requests_spec w0 ks vals lo x :
  NoDup ks -> NoDup vals -> exec_inv w0 ks vals [] x -> (lo <= length ks)%nat -> stops_at lo x -> to_do ks lo (length ks) x ->
  only_reads x -> abort_lock (x_txn x) = false -> x_out x = [] -> pendingResponses x = 0 ->
  oks false requests x (fun ret x' =>
    exec_inv w0 ks vals [] x' /\ same_rest x x' /\ ret = abort_lock (x_txn x') /\
    (ret = false -> forall i e k, (lo <= i)%nat -> readSet (x_txn x') !! i = Some e -> ks !! i = Some k -> served w0 (x_mem x') e k)).
Proof using Hme proto Haddr Hex.
  intros Hks Hvs Hx Hlo Hst Htd Hor Hal Hout Hpd. unfold process_requests. eapply oks_step; [reflexivity|]. cbv beta.
  rewrite (xi_len _ _ _ _ _ Hx). apply oks_bind.
  eapply oks_mono; [apply (reads_loop_spec w0 ks vals lo Hks Hvs (length ks) x []); auto|].
  - unfold asked. rewrite Hout, Hpd. split; [constructor|reflexivity].
  - intros i Hi. now apply elem_of_nil in Hi.
  - intros i e k Hi He Hk. apply lookup_lt_Some in Hk. lia.
  - intros stop x1 (pend & H1 & H2 & H3 & H4). pose proof (only_reads_rest _ _ H3 Hor) as (E1 & E2 & E3 & E4 & E5 & E6).
    do 3 (eapply oks_step; [reflexivity|]; cbv beta; rewrite ?E1, ?E2, ?E3; eapply (oks_step _ _ _ _ stop x1); [destruct stop; reflexivity|]; cbv beta).
    apply oks_bind. eapply oks_mono; [apply (wait_spec w0 ks vals lo pend x1); auto|].
    + intros Hf. destruct stop; [congruence|]. apply H4.
    + intros [] x2 (G1 & G2 & G3). pose proof (only_reads_rest _ _ (same_rest_trans _ _ _ H3 G2) Hor) as (_ & _ & _ & F4 & F5 & F6).
      eapply oks_step; [reflexivity|]. apply oks_ret. unfold should_abort. rewrite F4, F5, F6, !orb_false_r.
      assert (Hret : stop || abort_lock (x_txn x2) = abort_lock (x_txn x2)).
      { destruct stop; [|reflexivity]. cbn. destruct (abort_lock (x_txn x2)) eqn:E; [reflexivity|]. destruct (G3 eq_refl). congruence. }
      rewrite Hret. split_and!; auto; [eapply same_rest_trans; eauto|]. intros Hf i e k Hi He Hk.
      destruct (proj2 (G3 Hf) i e k Hi He Hk) as [Hsv|Hin]; [exact Hsv|now apply elem_of_nil in Hin].
Qed.

(** ** From the execution to the commit *)

Lemma tuple_readers w k t : winv size w -> abs k w = Some t -> 0 <= readers (t_lock t).
Proof using Type.
  intros Hw Ht. destruct (abs_cases size w Hw k t Ht) as [(r & _ & _ & Hc & ->)|(p & o & r & s & d & _ & _ & _ & _ & _ & ->)].
  - destruct Hc as ((_ & Hf & _) & _). apply (view_ok _ Hf).
  - apply (proj1 (Shared.sview_bounds s)).
Qed.

(** The entries with their rows. *)
Definition entries_of (ks : list rkey) (x : execution) : list (rwkey * rkey) := zip (readSet (x_txn x)) ks.

Lemma entries_lookup w0 ks vals pend x e k : exec_inv w0 ks vals pend x -> (e, k) ∈ entries_of ks x ->
  exists i, readSet (x_txn x) !! i = Some e /\ ks !! i = Some k.
Proof using Type.
  intros Hx Hin. apply list_elem_of_lookup_1 in Hin as [i Hi]. unfold entries_of in Hi. apply lookup_zip_with_Some in Hi as (e' & k' & [= -> ->] & H1 & H2). eauto.
Qed.

Lemma entries_fst w0 ks vals pend x : exec_inv w0 ks vals pend x -> (entries_of ks x).*1 = readSet (x_txn x) /\ (entries_of ks x).*2 = ks.
Proof using Type. intros Hx. pose proof (xi_len _ _ _ _ _ Hx). unfold entries_of. split; [apply fst_zip|apply snd_zip]; lia. Qed.

Lemma entry_held_of w0 w e k : winv size w0 -> entry_inv w0 w e k ->
  exists t, abs k w0 = Some t /\ abs k w = Some (locked e t) /\ entry_held me master_coordinator row_at key_at w e k (locked e t) /\ released e (locked e t) = t.
Proof using Type.
  intros Hw0 [H1 (p & Ep & Ek) H3 H4 H5 _ (t & E0 & Hr & Hw & Et)]. exists t. split; [exact E0|]. split; [exact Et|]. split.
  - constructor; auto.
    + intros Hrd. change (bit (get_read_lock_bit e)) with (reads e) in Hrd. unfold locked. rewrite Hrd. destruct (can_share_inv _ (Hr Hrd)) as [Hwr _].
      pose proof (tuple_readers w0 k t Hw0 E0). split; cbn; [lia|exact Hwr].
    + intros Hwr. change (bit (get_write_lock_bit e)) with (writes e) in Hwr. unfold locked. rewrite Hwr in H3. rewrite andb_true_r in H3. rewrite H3, Hwr. reflexivity.
    + intros Hp. exists p. auto.
  - unfold released, locked. change (bit (get_read_lock_bit e)) with (reads e). change (bit (get_write_lock_bit e)) with (writes e).
    destruct (reads e); [|destruct (writes e); [|reflexivity]].
    + destruct t as [[r wr s] v b]. unfold with_lock, one_less, one_more. cbn. repeat f_equal. lia.
    + destruct (can_own_inv _ (Hw eq_refl)) as [Hwr _]. destruct t as [[r wr s] v b]. cbn in Hwr. now subst.
Qed.

Lemma holds_of w0 ks vals x : winv size w0 -> NoDup ks -> exec_inv w0 ks vals [] x -> only_reads x ->
  holds me master_coordinator row_at key_at (x_world x) (entries_of ks x) (x_txn x).
Proof using Type.
  intros Hw0 Hks Hx (Hs & Hi & Hd & _). destruct (entries_fst _ _ _ _ _ Hx) as [E1 E2]. constructor; auto; [now rewrite E2|].
  intros e k Hin. destruct (entries_lookup _ _ _ _ _ _ _ Hx Hin) as (i & He & Hk). destruct (xi_entry _ _ _ _ _ Hx i e k He Hk) as [Hinv _].
  destruct (entry_held_of w0 _ e k Hw0 Hinv) as (t & _ & Et & Hh & _). eauto.
Qed.

Lemma in_entries w0 ks vals pend x i e k : exec_inv w0 ks vals pend x -> readSet (x_txn x) !! i = Some e -> ks !! i = Some k -> (e, k) ∈ entries_of ks x.
Proof using Type.
  intros Hx He Hk. apply (list_elem_of_lookup_2 _ i). unfold entries_of. apply lookup_zip_with_Some. now exists e, k.
Qed.

(** What a committed transaction leaves of the tuple [t] of the row of [e]. *)
Definition installed (g : Z) (mem : gmap Z bytes) (e : rwkey) (t : tuple) : tuple :=
  if writes e then Tuple (RW 0 false (generate_epoch_version (get_tid e) g)) (default [] (get_value e ≫= fun v => mem !! v)) (t_valid t) else t.

Lemma committed_installed w0 w e k g mem : winv size w0 -> entry_inv w0 w e k -> forall t, abs k w0 = Some t ->
  (writes e = true -> is_Some (get_value e)) -> committed (fun p => default [] (mem !! p)) g e (locked e t) = installed g mem e t.
Proof using Type.
  intros Hw0 Hinv t E0 Hv. destruct (entry_held_of w0 w e k Hw0 Hinv) as (t' & E0' & _ & _ & Hrel). assert (t' = t) as -> by congruence.
  destruct Hinv as [_ _ Hone _ _ _ (t1 & E1 & _ & Hw & _)]. assert (t1 = t) as -> by congruence.
  unfold committed, published_entry, written, installed, locked, value_at in *. unfold released, locked in Hrel.
  change (bit (get_read_lock_bit e)) with (reads e) in *. change (bit (get_write_lock_bit e)) with (writes e) in *.
  destruct (writes e) eqn:Ew; [|destruct (reads e); [exact Hrel|reflexivity]].
  rewrite andb_true_r in Hone. rewrite Hone. destruct (Hv eq_refl) as [v ->]. destruct (can_own_inv _ (Hw eq_refl)) as [_ Hr].
  unfold with_lock, published, with_value, taken. cbn. now rewrite Hr.
Qed.

Context (vec_at : Z -> list row_entity) (deliver : list out_message -> M world unit) (delete_at : rkey -> M world unit).

(** The commit of the transaction of [x], after the workload has put the bytes
    [mem] into the buffers and the entries [ws] into the write set. *)
Definition commit_of (mem : gmap Z bytes) (ws : list rwkey) (max_tid g : Z) (x : execution) : M world outcome :=
  commit sc me value_size master_coordinator row_at (fun p => default [] (mem !! p)) key_at vec_at enable_phantom_detection overhead reactive deliver delete_at
    max_tid g (with_writes (fun l => l ++ ws) (x_txn x)).

Definition abort_of (x : execution) : M world (list out_message) :=
  TwoPLPasha.abort me master_coordinator row_at key_at vec_at enable_phantom_detection overhead reactive (x_txn x).

(** The buffers of the write-locked rows have the size of the row, and their next
    version fits in the version word. *)
Definition buffers_ok (ks : list rkey) (mem : gmap Z bytes) (g : Z) (x : execution) : Prop :=
  forall i e k, readSet (x_txn x) !! i = Some e -> ks !! i = Some k -> writes e = true ->
  (exists v b, get_value e = Some v /\ mem !! v = Some b /\ length b = size k) /\ fits 58 (generate_epoch_version (get_tid e) g).

Definition has_buffers (l : list rwkey) : Prop := Forall (fun e => is_Some (get_key e) /\ is_Some (get_value e)) l.

Lemma updates_of w0 ks vals x mem ws g : winv size w0 -> NoDup ks -> exec_inv w0 ks vals [] x -> only_reads x ->
  has_buffers (writeSet (x_txn x) ++ ws) -> buffers_ok ks mem g x ->
  updates sc me value_size master_coordinator row_at (fun p => default [] (mem !! p)) key_at g (x_world x) (entries_of ks x) (with_writes (fun l => l ++ ws) (x_txn x)).
Proof using Type.
  intros Hw0 Hks Hx Hor Hws Hb. destruct (holds_of w0 ks vals x Hw0 Hks Hx Hor) as [H1 H2 H3 H4 H5 H6]. constructor; [constructor; auto|exact Hws| |].
  - intros e k Hin Hwr. destruct (entries_lookup _ _ _ _ _ _ _ Hx Hin) as (i & He & Hk). destruct (Hb i e k He Hk Hwr) as [(v & b & Ev & Eb & Hl) Hver].
  split; [|exact Hver]. exists v. now rewrite Eb.
  - intros e k Hin Hwr. destruct (entries_lookup _ _ _ _ _ _ _ Hx Hin) as (i & He & Hk). destruct (xi_entry _ _ _ _ _ Hx i e k He Hk) as [Hinv _]. now apply (ei_ready _ _ _ _ Hinv).
Qed.

(** C1: Transactions are atomic.  Take a transaction that reads and updates (no
    inserts, deletes or scans), at any point of its execution, that makes new requests: for existing rows, different from each other and from
    those of its earlier calls, in this host's partitions, in CXL memory, or in
    another host's partition, whose owner then moves them in, the owners changing no
    tuple and taking no row out of CXL memory meanwhile ([owners]).
    [process_requests] returns.  If it returns true and the executor aborts the
    transaction, every tuple of every row is exactly what it was when the
    transaction started.  If it returns false, the requested locks are held and
    each buffer has the value its row had at the start; and whatever the
    workload then writes into the buffers, the commit gives every write-locked row
    its buffer and a new version, leaves the read-locked rows and all other
    rows exactly as they were, and leaves no lock behind; none of its checks fails. *)
Theorem transaction_atomic w0 ks vals lo x :
  winv size w0 -> NoDup ks -> NoDup vals -> exec_inv w0 ks vals [] x -> (lo <= length ks)%nat -> stops_at lo x -> to_do ks lo (length ks) x ->
  only_reads x -> abort_lock (x_txn x) = false -> x_out x = [] -> pendingResponses x = 0 -> has_buffers (writeSet (x_txn x)) ->
  oks false requests x (fun ret x' =>
    if ret then oks false (abort_of x') (x_world x') (fun _ w' => winv size w' /\ forall k, abs k w' = abs k w0)
    else
      (forall i e k, (lo <= i)%nat -> readSet (x_txn x') !! i = Some e -> ks !! i = Some k -> served w0 (x_mem x') e k) /\
      forall mem ws max_tid g, has_buffers ws -> buffers_ok ks mem g x' ->
        oks false (commit_of mem ws max_tid g x') (x_world x') (fun res w' => ok res = true /\ winv size w' /\
          (forall i e k t, readSet (x_txn x') !! i = Some e -> ks !! i = Some k -> abs k w0 = Some t -> abs k w' = Some (installed g mem e t)) /\
          (forall k, k ∉ ks -> abs k w' = abs k w0))).
Proof using Hme proto Haddr Hex.
  intros Hw0 Hks Hvs Hx Hlo Hst Htd Hor Hal Hout Hpd Hws. eapply oks_mono; [apply (requests_spec w0 ks vals lo x); auto|].
  intros ret x1 (Hx1 & Hsr & -> & Hsv). pose proof (only_reads_rest _ _ Hsr Hor) as Hor1.
  destruct (entries_fst _ _ _ _ _ Hx1) as [_ Esnd]. destruct (abort_lock (x_txn x1)) eqn:Hal1.
  - eapply oks_mono; [apply (abort_releases me value_size master_coordinator row_at key_at vec_at enable_phantom_detection overhead reactive (x_world x1) (entries_of ks x1));
      [apply Hx1|now apply (holds_of w0 ks vals)]|].
    intros ms w2 (_ & Hw2 & _ & Hin & Hfr). split; [exact Hw2|]. intros k. destruct (decide (k ∈ ks)) as [Hk|Hk].
    + apply list_elem_of_lookup_1 in Hk as [i Hi]. destruct (lookup_lt_is_Some_2 (readSet (x_txn x1)) i) as [e He].
      { rewrite (xi_len _ _ _ _ _ Hx1). now apply lookup_lt_Some in Hi. }
      destruct (entry_held_of w0 (x_world x1) e k Hw0) as (t & E0 & Et & _ & Hrel); [now apply (xi_entry _ _ _ _ _ Hx1 i e k)|].
      rewrite (Hin e k _ (in_entries _ _ _ _ _ _ _ _ Hx1 He Hi) Et), Hrel. congruence.
    + rewrite Hfr by now rewrite Esnd. now apply (xi_frame _ _ _ _ _ Hx1).
  - split; [exact (Hsv eq_refl)|]. intros mem ws max_tid g Hbw Hb.
    assert (Hwb : has_buffers (writeSet (x_txn x1) ++ ws)) by (apply Forall_app; split; [rewrite (proj1 Hsr)|]; assumption).
    eapply oks_mono; [apply (commit_installs sc me value_size master_coordinator row_at (fun p => default [] (mem !! p)) key_at vec_at enable_phantom_detection overhead reactive
      deliver delete_at Hme max_tid g (x_world x1) (entries_of ks x1)); [apply Hx1|now apply (updates_of w0 ks vals)|exact Hal1]|].
    intros res w2 (Hok & _ & _ & _ & Hw2 & _ & Hin & Hfr). split; [exact Hok|]. split; [exact Hw2|]. split.
    + intros i e k t He Hk E0. destruct (xi_entry _ _ _ _ _ Hx1 i e k He Hk) as [Hinv _].
      destruct (entry_held_of w0 (x_world x1) e k Hw0 Hinv) as (t' & E0' & Et & _ & _). assert (t' = t) as -> by congruence.
      rewrite (Hin e k _ (in_entries _ _ _ _ _ _ _ _ Hx1 He Hk) Et). f_equal. apply (committed_installed w0 (x_world x1) e k); auto.
      intros Hwr. destruct (Hb i e k He Hk Hwr) as [(v & b & Ev & _) _]. now exists v.
    + intros k Hk. rewrite Hfr by now rewrite Esnd. now apply (xi_frame _ _ _ _ _ Hx1).
Qed.
End process.
End spec.

(** ** The owner's handlers keep the promise

    For a migration manager that moves a row in without changing its tuple, and
    that moves rows out on hints only. *)
Section owner.
Context (value_size : Z -> nat).
#[local] Abbreviation size := (TwoPLPasha.size value_size).

Lemma words_kept_ready (sc : SCCManager) {proto : SCCProtocol sc} me k w w' k' :
  words_kept w k w' -> k' <> k -> TwoPLPasha.write_ready sc me w k' -> TwoPLPasha.write_ready sc me w' k'.
Proof using Type. intros Hk Hne H p s Ep Es. destruct (Hk k' p Hne Ep) as [Ep' E]. rewrite E in Es. eauto. Qed.

(** A row that is moved in changes no tuple and no shared word of another row. *)
Definition moves_in (move_row_in : rkey -> bool -> M world migration_result) : Prop := forall w k t b,
  winv size w -> abs k w = Some t ->
  oks false (move_row_in k b) w (fun _ w' => winv size w' /\ (forall k', abs k' w' = abs k' w) /\ w_tbl w ⊆ w_tbl w' /\ words_kept w k w').

Lemma serve_all_owners (sc : SCCManager) {proto : SCCProtocol sc} me move_row_in move_row_out : moves_in move_row_in ->
  owners sc me value_size (TwoPLPashaMessageHandler.serve_all false move_row_in move_row_out).
Proof using Type.
  intros Hm w ms. revert w. induction ms as [|m ms IH]; intros w Hw Hall; cbn [TwoPLPashaMessageHandler.serve_all].
  { apply oks_ret. split; [exact Hw|]. split; [auto|]. split; [reflexivity|]. split; [auto|]. exists []. now split. }
  apply Forall_cons in Hall as [Hm1 Hall]. destruct m as [h k i|]; [|easy]. destruct Hm1 as [t Ht]. cbn [TwoPLPashaMessageHandler.serve].
  apply oks_bind. unfold TwoPLPashaMessageHandler.data_migration_request_handler. apply oks_bind.
  eapply oks_mono; [exact (Hm w k t false Hw Ht)|]. intros res w1 (Hw1 & Ha1 & Ht1 & Hk1). cbn [when_]. apply oks_ret, oks_bind.
  eapply oks_mono; [apply (IH w1 Hw1)|].
  - eapply Forall_impl; [exact Hall|]. intros [h' k' i'|]; cbn; [now rewrite Ha1|easy].
  - intros rs w2 (Hw2 & Ha2 & Ht2 & Hr2 & ms' & Hp & Hf). apply oks_ret. split; [exact Hw2|]. split; [intros; now rewrite Ha2|]. split; [now transitivity (w_tbl w1)|].
    split; [intros k' Hno Hrd; apply Hr2; [intros He; apply Hno; now right|]; apply (words_kept_ready sc me k w); auto; intros ->; apply Hno; now left|].
    exists (DataMigrationRequest h k i :: ms'). split; [now apply Permutation_skip|]. constructor; [|exact Hf]. eexists. reflexivity.
Qed.

(** [PolicyNoMoveOut::move_row_in] on an unordered table. *)
Lemma hashmap_moves_in (sc : SCCManager) {proto : SCCProtocol sc} (cfg : config) {alloc : CxlAlloc} {pol : PolicyMeta} (owner : Z) (Hown : host_ok owner)
  (Hcfg : enable_scc cfg = true \/ enable_migration_optimization cfg = false) :
  moves_in (fun k inc => res ← Migration.move_from_hashmap_to_shared_region sc cfg owner k (size k) inc; mret res.1).
Proof using Type.
  intros w k t b Hw Ht. apply oks_bind. eapply oks_mono; [exact (move_in_hashmap_spec sc cfg owner Hown Hcfg size w k t b Hw Ht)|].
  intros [res o] w' (H1 & H2 & H3 & H4). apply oks_ret. split_and!; auto. cbn in H3. destruct res.
  - destruct H3 as (Hn & p & ->). now apply insert_subseteq.
  - destruct H3 as (_ & ->). reflexivity.
  - destruct H3 as (_ & ->). reflexivity.
Qed.
End owner.
