(* ===== verification/HashTable.v ===== *)
(** * [CCHashTable]: the index of a table in CXL memory

    common/CCHashTable.h and common/CCSet.h: an array of buckets, each a latch and
    a singly linked list of nodes, one per key; a node keeps the rows of its
    key in a set with room for five.  Nodes and buckets are objects in CXL memory
    and pointers are their offsets.  An operation holds the latch of its bucket
    from its first to its last access.

    The table implements a finite map from keys to lists of rows, and, for a
    client that keeps at most one row per key, the finite map that [PashaState]
    uses for the index of a partition. *)

From S2P Require Import Prelude SharedWord SCC CXLMemory PashaState.

(** ** [CCSet] *)

Module CCSet.

Definition max_capacity : nat := 5.
#[global] Arguments max_capacity : simpl never.

(** [rows] has [max_capacity] entries. *)
Record CCSet := MkSet { rows : list (option Z); cur_size : Z }.

Definition new : CCSet := MkSet (replicate max_capacity None) 0.

(** [rows[i]], for an index of the array. *)
Definition get_element (i : nat) : M CCSet (option Z) := deref (fun s => rows s !! i).
Definition put_element (i : nat) (r : option Z) : M CCSet unit :=
  get_element i;; modify (fun s => MkSet (<[i := r]> (rows s)) (cur_size s)).
Definition put_size (n : Z) : M CCSet unit := modify (fun s => MkSet (rows s) n).

Definition empty (s : CCSet) : bool := cur_size s =? 0.
Definition clear : M CCSet unit := modify (fun _ => new).

(** The loops: from index [i], with [n] iterations left. *)
Fixpoint find_row (row : Z) (i n : nat) : M CCSet (option nat) :=
  match n with
  | O => mret None
  | S n =>
      r ← get_element i;
      if bool_decide (r = Some row) then mret (Some i) else find_row row (S i) n
  end.

Fixpoint shift_down (i n : nat) : M CCSet unit :=
  match n with
  | O => mret tt
  | S n => r ← get_element (S i); put_element i r;; shift_down (S i) n
  end.

Definition insert (row : Z) : M CCSet bool :=
  n ← gets cur_size;
  found ← find_row row 0 (Z.to_nat n);
  match found with
  | Some _ => mret false
  | None =>
      CHECK (negb (n =? Z.of_nat max_capacity));;
      put_element (Z.to_nat n) (Some row);;
      put_size (wrap 64 (n + 1));;
      mret true
  end.

Definition remove (row : Z) : M CCSet bool :=
  n ← gets cur_size;
  found ← find_row row 0 (Z.to_nat n);
  match found with
  | None => mret false
  | Some index =>
      put_element index None;;
      shift_down index (Z.to_nat n - 1 - index);;
      put_element (Z.to_nat n - 1) None;;
      put_size (wrap 64 (n - 1));;
      mret true
  end.

(** The set holds the rows [l], in the order they were inserted. *)
Definition holds (l : list Z) (s : CCSet) : Prop :=
  (length l <= max_capacity)%nat /\
  rows s = (Some <$> l) ++ replicate (max_capacity - length l) None /\ cur_size s = Z.of_nat (length l).

Lemma new_holds : holds [] new.
Proof. split_and!; [cbn; unfold max_capacity; lia|reflexivity|reflexivity]. Qed.

Lemma holds_lookup l s i : holds l s -> (i < length l)%nat -> rows s !! i = Some (l !! i).
Proof.
  intros (_ & -> & _) Hi. rewrite lookup_app_l by (rewrite length_fmap; lia).
  rewrite list_lookup_fmap. destruct (lookup_lt_is_Some_2 l i Hi) as [x ->]. reflexivity.
Qed.

(** The position of a row in the list. *)
Definition position (row : Z) (l : list Z) : option nat := fst <$> list_find (row =.) l.

Lemma find_row_spec row l s i n :
  holds l s -> (i + n = length l)%nat ->
  find_row row i n s = Ret ((fun j => (i + j)%nat) <$> position row (drop i l)) s.
Proof.
  intros Hs. revert i. induction n as [|n IH]; intros i Hn; cbn [find_row].
  { rewrite drop_ge by lia. reflexivity. }
  unfold get_element. erewrite bind_Ret; [|unfold deref; now rewrite (holds_lookup l) by (auto; lia)].
  cbv beta. destruct (lookup_lt_is_Some_2 l i ltac:(lia)) as [x Hx]. rewrite Hx.
  rewrite (drop_S l x i Hx). unfold position. cbn [list_find].
  destruct (decide (row = x)) as [<-|Hne].
  - rewrite bool_decide_true by done. mrun. do 2 f_equal. lia.
  - rewrite bool_decide_false by naive_solver. rewrite IH by lia.
    unfold position. destruct (list_find (row =.) (drop (S i) l)) as [[j y]|]; cbn; [|done]. do 2 f_equal. lia.
Qed.

Lemma put_element_spec i r s x : rows s !! i = Some x -> put_element i r s = Ret tt (MkSet (<[i := r]> (rows s)) (cur_size s)).
Proof. intros H. unfold put_element, get_element. mrun. now rewrite H. Qed.

Lemma shift_down_spec mid : forall pre x post n,
  exists y, shift_down (length pre) (length mid) (MkSet (pre ++ x :: mid ++ post) n) = Ret tt (MkSet (pre ++ mid ++ y :: post) n).
Proof.
  induction mid as [|z mid IH]; intros pre x post n; [now exists x|].
  destruct (IH (pre ++ [z]) z post n) as (y & E). exists y. cbn [length shift_down app].
  unfold get_element. erewrite bind_Ret.
  2:{ unfold deref. cbn. rewrite lookup_app_r by lia. replace (S (length pre) - length pre)%nat with 1%nat by lia. reflexivity. }
  cbv beta. erewrite bind_Ret; [|eapply put_element_spec; cbn; now apply list_lookup_middle].
  cbn [rows cur_size]. rewrite length_app in E. cbn [length] in E. rewrite Nat.add_1_r, <- !app_assoc in E.
  rewrite insert_app_r_alt by lia. rewrite Nat.sub_diag. exact E.
Qed.

Lemma position_Some row l i : position row l = Some i -> l !! i = Some row /\ (i < length l)%nat.
Proof.
  unfold position. destruct (list_find (row =.) l) as [[j x]|] eqn:E; [|easy]. cbn. intros [= ->].
  apply list_find_Some in E as (Hl & -> & _). split; [exact Hl|]. now apply lookup_lt_Some in Hl.
Qed.

Lemma position_None row l : position row l = None <-> row ∉ l.
Proof.
  unfold position. rewrite fmap_None, list_find_None, Forall_forall. split.
  - intros H Hin. now apply (H row).
  - intros H x Hx <-. now apply H.
Qed.

(** What the operations do to the list of rows. *)
Definition spec_insert (row : Z) : M (list Z) bool :=
  l ← gets id;
  match position row l with
  | Some _ => mret false
  | None => CHECK (negb (length l =? max_capacity)%nat);; modify (fun l => l ++ [row]);; mret true
  end.

Definition spec_remove (row : Z) : M (list Z) bool :=
  l ← gets id;
  match position row l with
  | Some i => modify (fun l => take i l ++ drop (S i) l);; mret true
  | None => mret false
  end.

(** Two runs with the same outcome and related final states. *)
Definition sim {S T A} (R : T -> S -> Prop) (o : outcome S A) (o' : outcome T A) : Prop :=
  match o, o' with
  | Ret a s, Ret b t => a = b /\ R t s
  | Abort, Abort => True
  | _, _ => False
  end.

Lemma insert_sim row l s : holds l s -> sim holds (insert row s) (spec_insert row l).
Proof.
  intros Hs. pose proof Hs as (Hlen & Hrows & Hsize). unfold insert, spec_insert.
  erewrite bind_Ret by reflexivity. cbv beta. rewrite Hsize, Nat2Z.id. rewrite (bind_Ret _ _ l l l) by reflexivity.
  erewrite bind_Ret by (now apply (find_row_spec row l)). cbv beta. rewrite drop_0.
  destruct (position row l) as [i|] eqn:Ep; cbn [fmap option_fmap option_map]; [easy|].
  destruct (Nat.eqb_spec (length l) max_capacity) as [E|Hne].
  { rewrite E. rewrite Z.eqb_refl. cbn. easy. }
  rewrite (proj2 (Z.eqb_neq _ _)) by lia. cbn [negb CHECK].
  erewrite bind_Ret by reflexivity. cbv beta. erewrite bind_Ret.
  2:{ eapply (put_element_spec _ _ _ None). rewrite Hrows, lookup_app_r by (rewrite length_fmap; lia).
      rewrite length_fmap, Nat.sub_diag. apply lookup_replicate_2. lia. }
  mrun. split; [easy|]. split_and!; cbn.
  - rewrite length_app. unfold max_capacity in *. cbn. lia.
  - rewrite Hrows, insert_app_r_alt by (rewrite length_fmap; lia). rewrite length_fmap, Nat.sub_diag, fmap_app, length_app, <- app_assoc.
    f_equal. replace (max_capacity - length l)%nat with (S (max_capacity - (length l + length [row])))%nat by (cbn; lia). reflexivity.
  - rewrite wrap_small; [rewrite length_app; cbn; lia|]. unfold fits, max_capacity in *. lia.
Qed.

Lemma remove_sim row l s : holds l s -> sim holds (remove row s) (spec_remove row l).
Proof.
  intros Hs. pose proof Hs as (Hlen & Hrows & Hsize). unfold remove, spec_remove.
  erewrite bind_Ret by reflexivity. cbv beta. rewrite Hsize, Nat2Z.id. rewrite (bind_Ret _ _ l l l) by reflexivity.
  erewrite bind_Ret by (now apply (find_row_spec row l)). cbv beta. rewrite drop_0.
  destruct (position row l) as [i|] eqn:Ep; cbn [fmap option_fmap option_map]; [|easy]. cbn [Nat.add].
  apply position_Some in Ep as [Hi Hlt]. set (pre := Some <$> take i l). set (mid := Some <$> drop (S i) l).
  set (post := replicate (max_capacity - length l) (@None Z)).
  assert (Hpre : length pre = i) by (unfold pre; rewrite length_fmap, length_take; lia).
  assert (Hmid : length mid = (length l - 1 - i)%nat) by (unfold mid; rewrite length_fmap, length_drop; lia).
  assert (Er : rows s = pre ++ Some row :: mid ++ post).
  { rewrite Hrows. rewrite <- (take_drop_middle l i row Hi) at 1. rewrite fmap_app, fmap_cons, <- app_assoc. reflexivity. }
  erewrite bind_Ret by (apply (put_element_spec _ _ _ (Some row)); rewrite Er, <- Hpre; now apply list_lookup_middle).
  cbv beta. rewrite Er, <- Hpre at 1. rewrite insert_app_r_alt by lia. rewrite Hpre, Nat.sub_diag. cbn [list_insert insert].
  destruct (shift_down_spec mid pre None post (cur_size s)) as (y & E). rewrite Hpre, Hmid in E.
  erewrite bind_Ret by exact E. cbv beta. erewrite bind_Ret.
  2:{ apply (put_element_spec _ _ _ y). cbn. rewrite app_assoc. apply list_lookup_middle. rewrite length_app, Hpre, Hmid. lia. }
  mrun. split; [easy|]. assert (Hl' : length (take i l ++ drop (S i) l) = (length l - 1)%nat) by (rewrite length_app, length_take, length_drop; lia).
  unfold holds. rewrite Hl'. split_and!; cbn; [lia| |].
  - rewrite app_assoc, insert_app_r_alt by (rewrite length_app, Hpre, Hmid; lia).
    replace (length l - 1 - length (pre ++ mid))%nat with 0%nat by (rewrite length_app, Hpre, Hmid; lia).
    rewrite fmap_app. f_equal. replace (max_capacity - (length l - 1))%nat with (S (max_capacity - length l))%nat by lia. reflexivity.
  - rewrite wrap_small; [lia|]. unfold fits, max_capacity in *. lia.
Qed.
End CCSet.

(** ** [CCHashTable] *)

Module CCHashTable.

Record CCNode := MkNode { nd_key : Z; nd_rows : CCSet.CCSet; nd_next : option Z }.
Record CCBucket := MkBucket { first_node : option Z; latch : bool }.

Definition sizeof_CCNode : Z := 64.
Definition sizeof_CCBucket : Z := 16.

(** The buckets, the nodes behind the pointers, and the memory counters. *)
Record table := MkTable {
  buckets : list CCBucket;
  bucket_cnt : Z;
  nodes : gmap Z CCNode;
  buckets_at : Z;
  stats : cxl_stats
}.

Definition set_nodes (f : gmap Z CCNode -> gmap Z CCNode) (t : table) : table :=
  MkTable (buckets t) (bucket_cnt t) (f (nodes t)) (buckets_at t) (stats t).
Definition set_bucket (i : nat) (b : CCBucket) (t : table) : table :=
  MkTable (<[i := b]> (buckets t)) (bucket_cnt t) (nodes t) (buckets_at t) (stats t).
Definition set_table_stats (f : cxl_stats -> cxl_stats) (t : table) : table :=
  MkTable (buckets t) (bucket_cnt t) (nodes t) (buckets_at t) (f (stats t)).

Definition hash_of (cnt key : Z) : nat := Z.to_nat (Z.lxor key (key / cnt) mod cnt).

Section table.
Context {alloc : CxlAlloc} (cfg : config).

(** The constructor; [None] when there is no memory for the buckets. *)
Definition new_table (cnt : Z) (s : cxl_stats) : option table :=
  let size := wrap 64 (sizeof_CCBucket * cnt) in
  p ← cxlalloc_malloc ∅ size;
  Some (MkTable (replicate (Z.to_nat cnt) (MkBucket None false)) cnt ∅ p (add_usage cfg INDEX_ALLOCATION size s)).

Definition get_bucket (i : nat) : M table CCBucket := deref (fun t => buckets t !! i).
Definition get_node (p : Z) : M table CCNode := deref (fun t => nodes t !! p).

Definition lock (i : nat) : M table unit :=
  b ← get_bucket i;
  if latch b then spin else modify (set_bucket i (MkBucket (first_node b) true)).
Definition unlock (i : nat) : M table unit :=
  b ← get_bucket i; modify (set_bucket i (MkBucket (first_node b) false)).

(** A call of a method of [node->rows]. *)
Definition on_rows {A} (p : Z) (m : M CCSet.CCSet A) : M table A := fun t =>
  match nodes t !! p with
  | None => Fault
  | Some n =>
      match m (nd_rows n) with
      | Ret a r => Ret a (set_nodes (insert p (MkNode (nd_key n) r (nd_next n))) t)
      | Spin => Spin
      | Abort => Abort
      | Fault => Fault
      end
  end.

(** The loop of [find_node]; every node of the list is visited at most once,
    so one iteration more than there are nodes is enough. *)
Fixpoint find_from (fuel : nat) (key : Z) (cur_node : option Z) : M table (option Z) :=
  match fuel with
  | O => spin
  | S fuel =>
      match cur_node with
      | None => mret None
      | Some p =>
          n ← get_node p;
          if nd_key n =? key then mret (Some p) else find_from fuel key (nd_next n)
      end
  end.

Definition find_node (i : nat) (key : Z) : M table (option Z) :=
  b ← get_bucket i;
  fuel ← gets (fun t => S (size (nodes t)));
  find_from fuel key (first_node b).

(** [new(node) CCNode(key)] on memory from the allocator. *)
Definition new_node (key : Z) : M table Z :=
  modify (set_table_stats (add_usage cfg INDEX_ALLOCATION sizeof_CCNode));;
  p ← deref (fun t => cxlalloc_malloc ({[buckets_at t]} ∪ dom (nodes t)) sizeof_CCNode);
  modify (set_nodes (insert p (MkNode key CCSet.new None)));;
  mret p.

(** What a search does with the rows of the node it has found. *)
Definition only_row : M CCSet.CCSet (option Z) :=
  is_empty ← gets CCSet.empty;
  if is_empty : bool then mret None
  else n ← gets CCSet.cur_size; CHECK (n =? 1);; CCSet.get_element 0.

Definition bucket_search (i : nat) (key : Z) : M table (option Z) :=
  lock i;;
  node ← find_node i key;
  ret ← (match node with
         | None => mret None
         | Some p =>
             on_rows p only_row
         end);
  unlock i;;
  mret ret.

Definition bucket_insert (i : nat) (key row : Z) : M table bool :=
  lock i;;
  node ← find_node i key;
  ret ← (match node with
         | None =>
             p ← new_node key;
             ret ← on_rows p (CCSet.insert row);
             b ← get_bucket i;
             n ← get_node p;
             modify (set_nodes (insert p (MkNode (nd_key n) (nd_rows n) (first_node b))));;
             modify (set_bucket i (MkBucket (Some p) (latch b)));;
             mret ret
         | Some p => on_rows p (CCSet.insert row)
         end);
  unlock i;;
  mret ret.

Definition bucket_remove (i : nat) (key row : Z) : M table bool :=
  lock i;;
  node ← find_node i key;
  ret ← (match node with
         | None => mret false
         | Some p => on_rows p (CCSet.remove row)
         end);
  unlock i;;
  mret ret.

(** [hash]; dividing by no buckets traps. *)
Definition hash (key : Z) : M table nat :=
  cnt ← gets bucket_cnt;
  if cnt =? 0 then fault else mret (hash_of cnt key).

Definition search (key : Z) : M table (option Z) := i ← hash key; bucket_search i key.
Definition insert (key row : Z) : M table bool := i ← hash key; bucket_insert i key row.
Definition remove (key row : Z) : M table bool := i ← hash key; bucket_remove i key row.

(** ** The finite map behind the table *)

Definition rows_of (m : gmap Z (list Z)) (k : Z) : list Z := default [] (m !! k).

Fixpoint chain (h : gmap Z CCNode) (first : option Z) (l : list Z) : Prop :=
  match l with
  | [] => first = None
  | p :: l => first = Some p /\ exists n, h !! p = Some n /\ chain h (nd_next n) l
  end.

(** The first node of the list with the key. *)
Fixpoint node_of (h : gmap Z CCNode) (l : list Z) (k : Z) : option Z :=
  match l with
  | [] => None
  | p :: l =>
      match h !! p with
      | Some n => if nd_key n =? k then Some p else node_of h l k
      | None => None
      end
  end.

Record bucket_ok (cnt : Z) (h : gmap Z CCNode) (m : gmap Z (list Z)) (i : nat) (first : option Z) (l : list Z) : Prop := BucketOk {
  bo_chain : chain h first l;
  bo_nodup : NoDup l;
  bo_hash : forall p n, p ∈ l -> h !! p = Some n -> hash_of cnt (nd_key n) = i;
  bo_rows : forall k, hash_of cnt k = i ->
    match node_of h l k with
    | Some p => exists n, h !! p = Some n /\ CCSet.holds (rows_of m k) (nd_rows n)
    | None => rows_of m k = []
    end
}.

Definition firsts (t : table) : list (option Z) := first_node <$> buckets t.
Definition latches (t : table) : list bool := latch <$> buckets t.

(** The table holds the map [m]; the latches are taken as [ls] says, and the
    index usage has grown from [base] by the buckets and nodes. *)
Record table_ok (base : Z) (ls : list bool) (m : gmap Z (list Z)) (t : table) : Prop := TableOk {
  to_cnt : 0 < bucket_cnt t;
  to_length : length (buckets t) = Z.to_nat (bucket_cnt t);
  to_latches : latches t = ls;
  to_buckets : forall i f, firsts t !! i = Some f -> exists l, bucket_ok (bucket_cnt t) (nodes t) m i f l;
  to_usage : size_index_usage (stats t) = wrap 64 (base + sizeof_CCBucket * bucket_cnt t + sizeof_CCNode * Z.of_nat (size (nodes t)))
}.

Lemma hash_lt t k : 0 < bucket_cnt t -> length (buckets t) = Z.to_nat (bucket_cnt t) -> (hash_of (bucket_cnt t) k < length (buckets t))%nat.
Proof using Type. intros Hc ->. unfold hash_of. pose proof (Z.mod_pos_bound (Z.lxor k (k / bucket_cnt t)) (bucket_cnt t) Hc). lia. Qed.

(** *** Lists of nodes *)

Lemma chain_dom h first l p : chain h first l -> p ∈ l -> is_Some (h !! p).
Proof using Type.
  revert first. induction l as [|q l IH]; intros first Hc Hin; [now apply elem_of_nil in Hin|].
  destruct Hc as (_ & n & Hn & Hc). apply elem_of_cons in Hin as [->|Hin]; eauto.
Qed.

Lemma chain_length h first l : chain h first l -> NoDup l -> (length l <= size h)%nat.
Proof using Type.
  intros Hc Hnd. rewrite <- (size_list_to_set (C := gset Z) l Hnd), <- size_dom.
  apply subseteq_size. intros p Hp%elem_of_list_to_set. apply elem_of_dom. eauto using chain_dom.
Qed.

Lemma find_from_spec key l : forall first fuel t,
  chain (nodes t) first l -> (length l < fuel)%nat -> find_from fuel key first t = Ret (node_of (nodes t) l key) t.
Proof using Type.
  induction l as [|p l IH]; intros first [|fuel] t Hc Hlt; cbn in Hlt; try lia.
  - cbn in Hc. now subst first.
  - destruct Hc as (-> & n & Hn & Hc). cbn [find_from node_of]. unfold get_node. rewrite Hn.
    erewrite bind_Ret by (unfold deref; now rewrite Hn). cbv beta. destruct (nd_key n =? key); [easy|]. apply IH; [easy|lia].
Qed.

Lemma node_of_Some h l k p : node_of h l k = Some p -> p ∈ l /\ exists n, h !! p = Some n /\ nd_key n = k.
Proof using Type.
  induction l as [|q l IH]; cbn; [easy|]. destruct (h !! q) as [n|] eqn:Hq; [|easy].
  destruct (Z.eqb_spec (nd_key n) k) as [<-|].
  - intros [= <-]. split; [now left|eauto].
  - intros Hp. destruct (IH Hp). split; [now right|easy].
Qed.

(** Changing the rows of a node keeps the lists. *)
Lemma chain_rows h first l p n r :
  h !! p = Some n -> chain h first l -> chain (<[p := MkNode (nd_key n) r (nd_next n)]> h) first l.
Proof using Type.
  intros Hp. revert first. induction l as [|q l IH]; intros first; [easy|]. intros (-> & n' & Hq & Hc). split; [easy|].
  destruct (decide (p = q)) as [<-|Hne].
  - rewrite lookup_insert_eq. simplify_eq. eexists. split; [easy|]. cbn. now apply IH.
  - rewrite lookup_insert_ne by done. eauto.
Qed.

Lemma node_of_rows h l p n r k :
  h !! p = Some n -> node_of (<[p := MkNode (nd_key n) r (nd_next n)]> h) l k = node_of h l k.
Proof using Type.
  intros Hp. induction l as [|q l IH]; [easy|]. cbn. destruct (decide (p = q)) as [<-|Hne].
  - rewrite lookup_insert_eq, Hp. cbn. now rewrite IH.
  - rewrite lookup_insert_ne by done. destruct (h !! q); [|easy]. now rewrite IH.
Qed.

(** So does a new node that is not in them. *)
Lemma chain_fresh h first l p n : h !! p = None -> chain h first l -> chain (<[p := n]> h) first l.
Proof using Type.
  intros Hp. revert first. induction l as [|q l IH]; intros first; [easy|]. intros (-> & n' & Hq & Hc). split; [easy|].
  rewrite lookup_insert_ne by (intros ->; congruence). eauto.
Qed.

Lemma node_of_fresh h first l p n k : h !! p = None -> chain h first l -> node_of (<[p := n]> h) l k = node_of h l k.
Proof using Type.
  intros Hp. revert first. induction l as [|q l IH]; intros first; [easy|]. intros (_ & n' & Hq & Hc). cbn.
  rewrite lookup_insert_ne by (intros ->; congruence). rewrite Hq. destruct (nd_key n' =? k); [easy|]. eauto.
Qed.

Lemma rows_of_insert m k l k' : rows_of (<[k := l]> m) k' = if decide (k = k') then l else rows_of m k'.
Proof using Type.
  unfold rows_of. case_decide as E; [subst; now rewrite lookup_insert_eq|now rewrite lookup_insert_ne].
Qed.

(** *** Buckets *)

(** New rows [rs] for the key [k] in its node. *)
Lemma bucket_ok_rows cnt h m i first l p n r rs :
  bucket_ok cnt h m i first l -> h !! p = Some n -> CCSet.holds rs r ->
  (hash_of cnt (nd_key n) = i -> node_of h l (nd_key n) = Some p) ->
  bucket_ok cnt (<[p := MkNode (nd_key n) r (nd_next n)]> h) (<[nd_key n := rs]> m) i first l.
Proof using Type.
  intros [Hc Hnd Hh Hr] Hp Hs Hown. constructor; [now apply chain_rows|easy| |].
  - intros q n' Hin. destruct (decide (p = q)) as [<-|Hne].
    + rewrite lookup_insert_eq. intros [= <-]. cbn. eauto.
    + rewrite lookup_insert_ne by done. eauto.
  - intros k Hk. rewrite node_of_rows by done. rewrite rows_of_insert. case_decide as E.
    + subst k. rewrite Hown by done. rewrite lookup_insert_eq. eexists. split; [easy|exact Hs].
    + specialize (Hr k Hk). destruct (node_of h l k) as [q|] eqn:Eq; [|easy]. apply node_of_Some in Eq as (_ & n' & Hq & Hk').
      rewrite lookup_insert_ne; [easy|]. intros <-. congruence.
Qed.

(** A new node for the key [k], in another bucket and at the head of its own. *)
Lemma bucket_ok_other cnt h m i first l p n rs :
  bucket_ok cnt h m i first l -> h !! p = None -> hash_of cnt (nd_key n) <> i ->
  bucket_ok cnt (<[p := n]> h) (<[nd_key n := rs]> m) i first l.
Proof using Type.
  intros [Hc Hnd Hh Hr] Hp Hne. constructor; [now apply chain_fresh|easy| |].
  - intros q n' Hin. rewrite lookup_insert_ne; [eauto|]. intros <-. destruct (chain_dom _ _ _ _ Hc Hin). congruence.
  - intros k Hk. erewrite node_of_fresh by done. rewrite rows_of_insert, decide_False by congruence. specialize (Hr k Hk).
    destruct (node_of h l k) as [q|] eqn:Eq; [|easy]. apply node_of_Some in Eq as (_ & n' & Hq & _).
    rewrite lookup_insert_ne; [easy|]. congruence.
Qed.

Lemma bucket_ok_push cnt h m first l p k r rs :
  bucket_ok cnt h m (hash_of cnt k) first l -> h !! p = None -> CCSet.holds rs r ->
  bucket_ok cnt (<[p := MkNode k r first]> h) (<[k := rs]> m) (hash_of cnt k) (Some p) (p :: l).
Proof using Type.
  intros [Hc Hnd Hh Hr] Hp Hs. assert (Hpl : p ∉ l). { intros Hin. destruct (chain_dom _ _ _ _ Hc Hin). congruence. }
  constructor.
  - split; [easy|]. rewrite lookup_insert_eq. eexists. split; [easy|]. now apply chain_fresh.
  - now constructor.
  - intros q n' Hin. apply elem_of_cons in Hin as [->|Hin]; [rewrite lookup_insert_eq; now intros [= <-]|].
    rewrite lookup_insert_ne by congruence. eauto.
  - intros k' Hk'. cbn [node_of]. rewrite lookup_insert_eq, rows_of_insert. cbn [nd_key].
    destruct (Z.eqb_spec k k') as [<-|Hne].
    + rewrite lookup_insert_eq, decide_True by done. eexists. split; [easy|exact Hs].
    + erewrite node_of_fresh by done. rewrite decide_False by done. specialize (Hr k' Hk').
      destruct (node_of h l k') as [q|] eqn:Eq; [|easy]. apply node_of_Some in Eq as (Hin & _).
      rewrite lookup_insert_ne; [easy|]. congruence.
Qed.

(** *** Operations on the map *)

Definition on_key {A} (k : Z) (op : M (list Z) A) : M (gmap Z (list Z)) A := fun m =>
  match op (rows_of m k) with
  | Ret a l => Ret a (<[k := l]> m)
  | Spin => Spin
  | Abort => Abort
  | Fault => Fault
  end.

(** More than one row of a key fails the [CHECK] of a search. *)
Definition spec_single : M (list Z) (option Z) :=
  l ← gets id; match l with [] => mret None | [r] => mret (Some r) | _ => abort end.

Definition spec_search (k : Z) : M (gmap Z (list Z)) (option Z) := on_key k spec_single.
Definition spec_insert (k r : Z) : M (gmap Z (list Z)) bool := on_key k (CCSet.spec_insert r).
Definition spec_remove (k r : Z) : M (gmap Z (list Z)) bool := on_key k (CCSet.spec_remove r).

(** The allocator has no memory for one more node beside the objects of the table. *)
Definition no_memory (t : table) : Prop := cxlalloc_malloc ({[buckets_at t]} ∪ dom (nodes t)) sizeof_CCNode = None.

(** The same outcome; a null pointer is dereferenced in the case [oom] only. *)
Definition refines {A} (base : Z) (ls : list bool) (oom : Prop) (o : outcome table A) (o' : outcome (gmap Z (list Z)) A) : Prop :=
  match o with
  | Fault => oom
  | _ => CCSet.sim (table_ok base ls) o o'
  end.

Lemma table_ok_ext base ls m m' t :
  (forall k, rows_of m k = rows_of m' k) -> table_ok base ls m t -> table_ok base ls m' t.
Proof using Type.
  intros He [H1 H2 H3 H4 H5]. constructor; auto. intros i f Hf. destruct (H4 i f Hf) as (l & [Hc Hn Hh Hr]). exists l.
  constructor; auto. intros k Hk. rewrite <- He. exact (Hr k Hk).
Qed.

Lemma get_first t i f : firsts t !! i = Some f -> exists b, buckets t !! i = Some b /\ first_node b = f.
Proof using Type. unfold firsts. rewrite list_lookup_fmap. destruct (buckets t !! i) as [b|]; [|easy]. cbn. intros [= <-]. eauto. Qed.

Lemma own_bucket base ls m t k :
  table_ok base ls m t ->
  exists f l, firsts t !! hash_of (bucket_cnt t) k = Some f /\ bucket_ok (bucket_cnt t) (nodes t) m (hash_of (bucket_cnt t) k) f l /\
    find_node (hash_of (bucket_cnt t) k) k t = Ret (node_of (nodes t) l k) t.
Proof using Type.
  intros [H1 H2 _ H4 _]. destruct (lookup_lt_is_Some_2 (buckets t) _ (hash_lt t k H1 H2)) as [b Hb].
  assert (Hf : firsts t !! hash_of (bucket_cnt t) k = Some (first_node b)) by (unfold firsts; now rewrite list_lookup_fmap, Hb).
  destruct (H4 _ _ Hf) as (l & Hl). exists (first_node b), l. split_and!; [easy|easy|]. unfold find_node, get_bucket.
  erewrite bind_Ret by (unfold deref; now rewrite Hb). erewrite bind_Ret by reflexivity. cbv beta.
  apply find_from_spec; [apply Hl|]. destruct Hl as [Hc Hn _ _]. pose proof (chain_length _ _ _ Hc Hn). lia.
Qed.

(** An operation on the rows of a key that has a node. *)
Lemma on_rows_sim {A} base ls m t k f l p (op : M CCSet.CCSet A) (sop : M (list Z) A) :
  (forall l s, CCSet.holds l s -> CCSet.sim CCSet.holds (op s) (sop l)) ->
  table_ok base ls m t -> firsts t !! hash_of (bucket_cnt t) k = Some f ->
  bucket_ok (bucket_cnt t) (nodes t) m (hash_of (bucket_cnt t) k) f l -> node_of (nodes t) l k = Some p ->
  CCSet.sim (table_ok base ls) (on_rows p op t) (on_key k sop m).
Proof using Type.
  intros Hop Ht Hf Hb Hp. pose proof (bo_rows _ _ _ _ _ _ Hb k eq_refl) as Hr. rewrite Hp in Hr. destruct Hr as (n & Hn & Hs).
  destruct (node_of_Some _ _ _ _ Hp) as (_ & n' & Hn' & Hk). simplify_eq. unfold on_rows, on_key. rewrite Hn. specialize (Hop _ _ Hs).
  unfold CCSet.sim in *. destruct (op (nd_rows n)) as [a r| | |], (sop (rows_of m (nd_key n))) as [b rs| | |]; try easy.
  destruct Hop as [-> Hr]. split; [easy|]. destruct Ht as [H1 H2 H3 H4 H5]. constructor; auto; cbn.
  - intros i g Hg. destruct (H4 i g Hg) as (l' & Hl'). exists l'. apply bucket_ok_rows; auto. intros <-.
    change (firsts t !! hash_of (bucket_cnt t) (nd_key n) = Some g) in Hg. assert (g = f) as -> by congruence.
    destruct Hl' as [Hc' _ _ _], Hb as [Hc _ _ _].
    cut (l' = l); [now intros ->|]. clear - Hc Hc'. revert f Hc l' Hc'.
    induction l as [|q l IH]; intros f Hc [|q' l'] Hc'; cbn in *; naive_solver.
  - rewrite map_size_insert_Some by eauto. exact H5.
Qed.

Lemma usage_add base n s :
  size_index_usage s = wrap 64 (base + sizeof_CCNode * Z.of_nat n) ->
  size_index_usage (add_usage cfg INDEX_ALLOCATION sizeof_CCNode s) = wrap 64 (base + sizeof_CCNode * Z.of_nat (S n)).
Proof using Type. destruct s. cbn. intros ->. rewrite wrap_add_l. f_equal. lia. Qed.

(** A node with its first row at the head of its bucket. *)
Lemma push_ok base ls m t k p f l r rs b :
  table_ok base ls m t -> buckets t !! hash_of (bucket_cnt t) k = Some b -> first_node b = f ->
  bucket_ok (bucket_cnt t) (nodes t) m (hash_of (bucket_cnt t) k) f l -> nodes t !! p = None -> CCSet.holds rs r ->
  table_ok base ls (<[k := rs]> m)
    (MkTable (<[hash_of (bucket_cnt t) k := MkBucket (Some p) (latch b)]> (buckets t)) (bucket_cnt t)
       (<[p := MkNode k r f]> (nodes t)) (buckets_at t) (add_usage cfg INDEX_ALLOCATION sizeof_CCNode (stats t))).
Proof using Type.
  intros [H1 H2 H3 H4 H5] Hb Hf Hl Hp Hr. constructor; cbn; auto.
  - now rewrite length_insert.
  - unfold latches in *. cbn. rewrite list_fmap_insert. cbn. rewrite list_insert_id; [easy|]. now rewrite list_lookup_fmap, Hb.
  - intros i g. unfold firsts. cbn. rewrite list_fmap_insert. cbn. destruct (decide (hash_of (bucket_cnt t) k = i)) as [<-|Hne].
    + rewrite list_lookup_insert_eq; [|rewrite length_fmap; now apply lookup_lt_Some in Hb]. intros [= <-]. exists (p :: l).
      now apply bucket_ok_push.
    + rewrite list_lookup_insert_ne by done. intros Hg. destruct (H4 i g Hg) as (l' & Hl'). exists l'.
      exact (bucket_ok_other _ _ _ _ _ _ p (MkNode k r f) rs Hl' Hp Hne).
  - rewrite map_size_insert_None by done. now apply usage_add.
Qed.

Lemma insert_first row : exists r, CCSet.insert row CCSet.new = Ret true r /\ CCSet.holds [row] r.
Proof using Type. pose proof (CCSet.insert_sim row [] _ CCSet.new_holds) as H. cbn in H. destruct (CCSet.insert row CCSet.new) as [a r| | |]; try easy. destruct H as [-> H]. eauto. Qed.

Lemma only_row_sim l s : CCSet.holds l s -> CCSet.sim CCSet.holds (only_row s) (spec_single l).
Proof using Type.
  intros Hs. pose proof Hs as (Hlen & Hrows & Hsize). unfold only_row, spec_single. rewrite (bind_Ret _ _ l l l) by reflexivity.
  erewrite bind_Ret by reflexivity. cbv beta. unfold CCSet.empty. rewrite Hsize. destruct l as [|x [|y l]]; cbn [length].
  - easy.
  - unfold CCSet.get_element. mrun. change (Z.of_nat 1 =? 0) with false. cbv iota beta. rewrite Hsize. change (Z.of_nat (length [x]) =? 1) with true. cbv iota beta. rewrite Hrows. easy.
  - rewrite (proj2 (Z.eqb_neq _ _)) by lia. erewrite bind_Ret by reflexivity. cbv beta. rewrite Hsize. cbn [length].
    rewrite (proj2 (Z.eqb_neq _ _)) by lia. easy.
Qed.

(** *** The bodies of the operations, under the latch *)

Definition search_body (i : nat) (key : Z) : M table (option Z) :=
  node ← find_node i key; match node with None => mret None | Some p => on_rows p only_row end.
Definition insert_body (i : nat) (key row : Z) : M table bool :=
  node ← find_node i key;
  match node with
  | None =>
      p ← new_node key;
      ret ← on_rows p (CCSet.insert row);
      b ← get_bucket i;
      n ← get_node p;
      modify (set_nodes (base.insert p (MkNode (nd_key n) (nd_rows n) (first_node b))));;
      modify (set_bucket i (MkBucket (Some p) (latch b)));;
      mret ret
  | Some p => on_rows p (CCSet.insert row)
  end.
Definition remove_body (i : nat) (key row : Z) : M table bool :=
  node ← find_node i key; match node with None => mret false | Some p => on_rows p (CCSet.remove row) end.

Lemma sim_refines {A} base ls oom (o : outcome table A) o' : CCSet.sim (table_ok base ls) o o' -> refines base ls oom o o'.
Proof using Type. unfold refines, CCSet.sim. now destruct o, o'. Qed.

Lemma absent_rows base ls m t k l f :
  table_ok base ls m t -> bucket_ok (bucket_cnt t) (nodes t) m (hash_of (bucket_cnt t) k) f l -> node_of (nodes t) l k = None ->
  rows_of m k = [] /\ table_ok base ls (<[k := []]> m) t.
Proof using Type.
  intros Ht Hb Hn. pose proof (bo_rows _ _ _ _ _ _ Hb k eq_refl) as Hr. rewrite Hn in Hr. split; [easy|].
  apply (table_ok_ext _ _ m); [|easy]. intros k'. rewrite rows_of_insert. case_decide; congruence.
Qed.

Lemma search_body_ok base ls m t k :
  table_ok base ls m t -> refines base ls False (search_body (hash_of (bucket_cnt t) k) k t) (spec_search k m).
Proof using Type.
  intros Ht. destruct (own_bucket _ _ _ _ k Ht) as (f & l & Hf & Hb & Hn). apply sim_refines. unfold search_body.
  erewrite bind_Ret by exact Hn. cbv beta. destruct (node_of _ l k) as [p|] eqn:Ep.
  - eapply on_rows_sim; eauto using only_row_sim.
  - destruct (absent_rows _ _ _ _ _ _ _ Ht Hb Ep) as [Hr Ht']. unfold spec_search, on_key. rewrite Hr. easy.
Qed.

Lemma remove_body_ok base ls m t k r :
  table_ok base ls m t -> refines base ls False (remove_body (hash_of (bucket_cnt t) k) k r t) (spec_remove k r m).
Proof using Type.
  intros Ht. destruct (own_bucket _ _ _ _ k Ht) as (f & l & Hf & Hb & Hn). apply sim_refines. unfold remove_body.
  erewrite bind_Ret by exact Hn. cbv beta. destruct (node_of _ l k) as [p|] eqn:Ep.
  - eapply on_rows_sim; eauto using CCSet.remove_sim.
  - destruct (absent_rows _ _ _ _ _ _ _ Ht Hb Ep) as [Hr Ht']. unfold spec_remove, on_key. rewrite Hr. easy.
Qed.

Lemma insert_body_ok base ls m t k r :
  table_ok base ls m t -> refines base ls (rows_of m k = [] /\ no_memory t) (insert_body (hash_of (bucket_cnt t) k) k r t) (spec_insert k r m).
Proof using Type.
  intros Ht. destruct (own_bucket _ _ _ _ k Ht) as (f & l & Hf & Hb & Hn). unfold insert_body.
  erewrite bind_Ret by exact Hn. cbv beta. destruct (node_of _ l k) as [p|] eqn:Ep.
  { apply sim_refines. eapply on_rows_sim; eauto using CCSet.insert_sim. }
  destruct (absent_rows _ _ _ _ _ _ _ Ht Hb Ep) as [Hr _]. destruct (get_first _ _ _ Hf) as (b & Eb & Hfb).
  unfold new_node. mrun. destruct (cxlalloc_malloc _ sizeof_CCNode) as [p|] eqn:Ea; [|now split].
  apply cxlalloc_fresh in Ea as [Hp _]. apply not_elem_of_union in Hp as [_ Hp%not_elem_of_dom].
  destruct (insert_first r) as (rs & Ei & Hrs). unfold on_rows. cbn. rewrite lookup_insert_eq. cbn. rewrite Ei. cbn.
  unfold get_bucket, get_node. mrun. rewrite Eb. mrun. rewrite lookup_insert_eq. cbn.
  unfold spec_insert, on_key. rewrite Hr. cbn. split; [easy|]. unfold set_nodes, set_bucket. cbn. rewrite !insert_insert_eq, Hfb.
  eapply push_ok; eauto.
Qed.

(** *** Taking the latch *)

Lemma set_latch_ok base ls m t i b v :
  table_ok base ls m t -> buckets t !! i = Some b -> table_ok base (<[i := v]> ls) m (set_bucket i (MkBucket (first_node b) v) t).
Proof using Type.
  intros [H1 H2 H3 H4 H5] Hb. constructor; cbn; auto.
  - now rewrite length_insert.
  - unfold latches in *. cbn. now rewrite list_fmap_insert, H3.
  - intros j f. unfold firsts. cbn. rewrite list_fmap_insert. cbn. rewrite list_insert_id; [apply H4|].
    now rewrite list_lookup_fmap, Hb.
Qed.

Definition latched {A} (i : nat) (body : M table A) : M table A := lock i;; a ← body; unlock i;; mret a.

Definition idle (t : table) : list bool := replicate (Z.to_nat (bucket_cnt t)) false.

Lemma ok_bucket base ls m t i : table_ok base ls m t -> (i < length ls)%nat -> exists b, buckets t !! i = Some b /\ ls !! i = Some (latch b).
Proof using Type.
  intros [_ _ <- _ _] Hi. unfold latches in *. rewrite length_fmap in Hi. destruct (lookup_lt_is_Some_2 _ _ Hi) as [b Hb].
  exists b. now rewrite list_lookup_fmap, Hb.
Qed.

Lemma latched_ok {A} base oom m t i (body : M table A) o :
  table_ok base (idle t) m t -> (i < length (buckets t))%nat ->
  (forall ls t1, bucket_cnt t1 = bucket_cnt t -> (no_memory t1 -> no_memory t) -> table_ok base ls m t1 -> refines base ls oom (body t1) o) ->
  refines base (idle t) oom (latched i body t) o.
Proof using Type.
  intros Ht Hi Hbody. assert (Hil : (i < length (idle t))%nat) by (unfold idle; rewrite length_replicate; now destruct Ht as [_ <- _ _ _]).
  destruct (ok_bucket _ _ _ _ _ Ht Hil) as (b & Hb & Hlb). unfold idle in Hlb. apply lookup_replicate in Hlb as [Hlb _].
  set (t1 := set_bucket i (MkBucket (first_node b) true) t).
  unfold latched. erewrite (bind_Ret (lock i) _ t tt t1) by (unfold lock, get_bucket; mrun; rewrite Hb; mrun; now rewrite Hlb).
  pose proof (set_latch_ok _ _ _ _ i b true Ht Hb) as Ht1. fold t1 in Ht1. specialize (Hbody _ t1 eq_refl (fun H => H) Ht1).
  cbv [mbind M_bind]. unfold refines in *. destruct (body t1) as [a t2| | |]; cbn in *; try (now destruct o).
  destruct o as [a' m2| | |]; try easy. destruct Hbody as [<- Ht2].
  destruct (ok_bucket _ _ _ _ i Ht2) as (b2 & Hb2 & _); [now rewrite length_insert|].
  unfold unlock, get_bucket. mrun. rewrite Hb2. mrun. split; [easy|].
  pose proof (set_latch_ok _ _ _ _ i b2 false Ht2 Hb2) as Ht3. rewrite list_insert_insert_eq in Ht3.
  rewrite list_insert_id in Ht3; [exact Ht3|]. unfold idle. apply lookup_replicate_2. now rewrite <- (to_length _ _ _ _ Ht).
Qed.

Lemma bucket_search_latched i k t : bucket_search i k t = latched i (search_body i k) t.
Proof using Type. unfold bucket_search, latched, search_body. cbv [mbind M_bind]. destruct (lock i t) as [[] t1| | |]; try easy. now destruct (find_node i k t1). Qed.
Lemma bucket_insert_latched i k r t : bucket_insert i k r t = latched i (insert_body i k r) t.
Proof using Type. unfold bucket_insert, latched, insert_body. cbv [mbind M_bind]. destruct (lock i t) as [[] t1| | |]; try easy. now destruct (find_node i k t1). Qed.
Lemma bucket_remove_latched i k r t : bucket_remove i k r t = latched i (remove_body i k r) t.
Proof using Type. unfold bucket_remove, latched, remove_body. cbv [mbind M_bind]. destruct (lock i t) as [[] t1| | |]; try easy. now destruct (find_node i k t1). Qed.

(** ** Calls *)

Inductive call := Search (k : Z) | Insert (k r : Z) | Remove (k r : Z).
Inductive answer := Found (row : option Z) | Done (b : bool).

Definition call_of (c : call) : M table answer :=
  match c with
  | Search k => r ← search k; mret (Found r)
  | Insert k r => b ← insert k r; mret (Done b)
  | Remove k r => b ← remove k r; mret (Done b)
  end.

Definition spec_of (c : call) : M (gmap Z (list Z)) answer :=
  match c with
  | Search k => r ← spec_search k; mret (Found r)
  | Insert k r => b ← spec_insert k r; mret (Done b)
  | Remove k r => b ← spec_remove k r; mret (Done b)
  end.

Fixpoint calls {S C A} (f : C -> M S A) (cs : list C) : M S (list A) :=
  match cs with
  | [] => mret []
  | c :: cs => a ← f c; rest ← calls f cs; mret (a :: rest)
  end.

Lemma hash_ok t k : 0 < bucket_cnt t -> hash k t = Ret (hash_of (bucket_cnt t) k) t.
Proof using Type. intros H. unfold hash. mrun. now rewrite (proj2 (Z.eqb_neq _ _)) by lia. Qed.

(** The call that needs a node for a key without rows when there is no memory. *)
Definition call_fails (m : gmap Z (list Z)) (t : table) (c : call) : Prop :=
  match c with Insert k _ => rows_of m k = [] /\ no_memory t | _ => False end.

Lemma refines_mono {A} base ls (P Q : Prop) (o : outcome table A) o' : (P -> Q) -> refines base ls P o o' -> refines base ls Q o o'.
Proof using Type. unfold refines. now destruct o. Qed.

Lemma refines_map {A B} base ls oom (f : A -> B) (m : M table A) (m' : M (gmap Z (list Z)) A) t g :
  refines base ls oom (m t) (m' g) -> refines base ls oom ((a ← m; mret (f a)) t) ((a ← m'; mret (f a)) g).
Proof using Type.
  cbv [mbind M_bind mret M_ret]. unfold refines, CCSet.sim. destruct (m t) as [a t'| | |], (m' g); try easy. now intros [-> H].
Qed.

(** One call. *)
Lemma call_refines base m t c :
  table_ok base (idle t) m t -> refines base (idle t) (call_fails m t c) (call_of c t) (spec_of c m).
Proof using Type.
  intros Ht. pose proof Ht as [H1 H2 _ _ _].
  destruct c as [k|k r|k r]; apply refines_map; unfold search, insert, remove; rewrite (bind_Ret _ _ t _ t (hash_ok t k H1));
    rewrite ?bucket_search_latched, ?bucket_insert_latched, ?bucket_remove_latched;
    (apply (latched_ok _ _ m); [exact Ht|now apply hash_lt|]); intros ls t1 <- Hno Ht1;
    [now apply search_body_ok|eapply refines_mono; [|now apply insert_body_ok]; cbn; tauto|now apply remove_body_ok].
Qed.

Lemma idle_eq base m t n : table_ok base (replicate n false) m t -> idle t = replicate n false.
Proof using Type.
  intros [_ H2 H3 _ _]. unfold idle. rewrite <- H2. apply (f_equal length) in H3. unfold latches in H3.
  rewrite length_fmap, length_replicate in H3. now rewrite H3.
Qed.

(** A run that fails for lack of memory: the calls [pre] are answered, and the next
    one is the insertion of a new key for whose node there is no memory then. *)
Definition run_fails (cs : list call) (m : gmap Z (list Z)) (t : table) : Prop :=
  exists pre c rest answers t' m', cs = pre ++ c :: rest /\ calls call_of pre t = Ret answers t' /\
    calls spec_of pre m = Ret answers m' /\ call_fails m' t' c.

Lemma run_fails_cons c cs a m m1 t t1 : call_of c t = Ret a t1 -> spec_of c m = Ret a m1 -> run_fails cs m1 t1 -> run_fails (c :: cs) m t.
Proof using Type.
  intros E1 E2 (pre & c' & rest & answers & t' & m' & -> & H1 & H2 & H3). exists (c :: pre), c', rest, (a :: answers), t', m'.
  split; [reflexivity|]. cbn [calls]. cbv [mbind M_bind mret M_ret]. now rewrite E1, E2, H1, H2.
Qed.

Lemma calls_refine base n cs : forall m t,
  table_ok base (replicate n false) m t -> refines base (replicate n false) (run_fails cs m t) (calls call_of cs t) (calls spec_of cs m).
Proof using Type.
  induction cs as [|c cs IH]; intros m t Ht; cbn [calls]; [now split|]. pose proof (idle_eq _ _ _ _ Ht) as Hi.
  pose proof (call_refines base m t c) as Hc. rewrite Hi in Hc. specialize (Hc Ht). revert Hc. cbv [mbind M_bind].
  unfold refines at 1, CCSet.sim. destruct (call_of c t) as [a t1| | |] eqn:E1; [| |now destruct (spec_of c m)|].
  - destruct (spec_of c m) as [b m1| | |] eqn:E2; try easy. intros [<- Ht1]. specialize (IH m1 t1 Ht1). revert IH.
    unfold refines, CCSet.sim. cbv [mret M_ret]. destruct (calls call_of cs t1), (calls spec_of cs m1); try easy; try (now intros [-> H]);
      eauto using run_fails_cons.
  - now destruct (spec_of c m).
  - intros Hf. exists [], c, cs, [], t, m. now split_and!.
Qed.

Lemma new_table_ok cnt s t :
  0 < cnt < 2 ^ 31 -> new_table cnt s = Some t -> table_ok (size_index_usage s) (replicate (Z.to_nat cnt) false) ∅ t.
Proof using Type.
  intros Hcnt H. unfold new_table in H. destruct (cxlalloc_malloc ∅ _) as [p|]; [|easy]. injection H as <-.
  constructor; cbn; [lia|now rewrite length_replicate| | |].
  - unfold latches. cbn. now rewrite fmap_replicate.
  - intros i f. unfold firsts. cbn. rewrite fmap_replicate. cbn. intros [-> _]%lookup_replicate. exists [].
    constructor; cbn; [easy|constructor|now intros p' n Hin%elem_of_nil|easy].
  - destruct s. cbn. rewrite (wrap_small 64 (sizeof_CCBucket * cnt)) by (unfold fits, sizeof_CCBucket; lia). f_equal. rewrite map_size_empty. lia.
Qed.

(** C19: The hash table is a finite map from keys to lists of rows.  For every
    sequence of searches, insertions and removals on a new table, the answers are
    those of the map: at most five rows per key, in the order of insertion, no
    duplicates; the [CHECK]s (a sixth row, a search for a key with several rows)
    fail exactly when the map says so, every latch is released, and the walks
    along the lists of nodes end.  No null pointer is dereferenced and no index is out
    of range, with one exception: the code uses the result of the allocator
    unchecked, so the first insertion of a new key that finds no memory
    for its node beside the table's objects fails ([run_fails]). *)
Theorem hash_table_refines cnt s t cs :
  0 < cnt < 2 ^ 31 -> new_table cnt s = Some t ->
  refines (size_index_usage s) (replicate (Z.to_nat cnt) false) (run_fails cs ∅ t) (calls call_of cs t) (calls spec_of cs ∅).
Proof using Type. intros Hcnt Ht. apply calls_refine. now apply new_table_ok. Qed.

(** ** The index of a partition *)

Section index.
(** [CXLTableHashMap]: the keys of a table, and their 64-bit form. *)
Context {K : Type} (get_plain_key : K -> Z) (table_id partition_id : Z).

Definition map_search (key : K) : M table (option Z) := search (get_plain_key key).
Definition map_insert (key : K) (row : Z) (is_placeholder : bool) : M table bool :=
  CHECK (negb is_placeholder);; insert (get_plain_key key) row.
Definition map_remove (key : K) (row : Z) : M table bool := remove (get_plain_key key) row.
Definition map_scan (min_key : K) : M table unit := CHECK false.

Definition plain_index (k : Z) : rkey := (table_id, partition_id, k).
Definition index_key (key : K) : rkey := plain_index (get_plain_key key).

(** The table holds the part of the index of [w] that belongs to the partition. *)
Definition indexes (base : Z) (w : world) (t : table) : Prop :=
  exists m, table_ok base (idle t) m t /\
  forall k, rows_of m k = option_list (w_tbl w !! plain_index k).

(** [o] gives the answer of [o'] and leaves the index of its state; a null pointer
    is dereferenced in the case [oom] only. *)
Definition index_step {A} (base : Z) (oom : Prop) (o : outcome table A) (o' : outcome world A) : Prop :=
  match o, o' with
  | Ret a t, Ret b w => a = b /\ indexes base w t
  | Fault, Ret _ _ => oom
  | _, _ => False
  end.

Lemma index_step_intro {A} base oom m t (c : M table A) (sc : M (gmap Z (list Z)) A) a m' (w' : world) :
  refines base (idle t) oom (c t) (sc m) -> sc m = Ret a m' ->
  (forall k, rows_of m' k = option_list (w_tbl w' !! plain_index k)) ->
  index_step base oom (c t) (Ret a w').
Proof using Type.
  intros Hr Hs Hm. unfold refines, CCSet.sim in Hr. rewrite Hs in Hr. unfold index_step. destruct (c t) as [b t'| | |]; try easy.
  destruct Hr as [-> Ht']. split; [easy|]. exists m'. assert (idle t' = idle t) as -> by exact (idle_eq _ _ _ _ Ht'). now split.
Qed.

Lemma search_refines base m t k : table_ok base (idle t) m t -> refines base (idle t) False (search k t) (spec_search k m).
Proof using alloc cfg.
  intros Ht. pose proof (call_refines base m t (Search k) Ht) as H. revert H. cbn [call_of spec_of]. cbv [mbind M_bind mret M_ret].
  unfold refines, CCSet.sim. destruct (search k t), (spec_search k m); try easy. intros [[= ->] H]. easy.
Qed.

Lemma insert_refines base m t k r : table_ok base (idle t) m t -> refines base (idle t) (no_memory t) (insert k r t) (spec_insert k r m).
Proof using Type.
  intros Ht. pose proof (call_refines base m t (Insert k r) Ht) as H. revert H. cbn [call_of spec_of]. cbv [mbind M_bind mret M_ret].
  unfold refines, CCSet.sim. destruct (insert k r t), (spec_insert k r m); try easy; try (now intros [_ H]); intros [[= ->] H]; easy.
Qed.

Lemma remove_refines base m t k r : table_ok base (idle t) m t -> refines base (idle t) False (remove k r t) (spec_remove k r m).
Proof using alloc cfg.
  intros Ht. pose proof (call_refines base m t (Remove k r) Ht) as H. revert H. cbn [call_of spec_of]. cbv [mbind M_bind mret M_ret].
  unfold refines, CCSet.sim. destruct (remove k r t), (spec_remove k r m); try easy. intros [[= ->] H]. easy.
Qed.

Lemma index_update (w : world) m k l f :
  (forall k, rows_of m k = option_list (w_tbl w !! plain_index k)) ->
  l = option_list (f (w_tbl w) !! plain_index k) ->
  (forall k', k' <> k -> f (w_tbl w) !! plain_index k' = w_tbl w !! plain_index k') ->
  forall k', rows_of (<[k := l]> m) k' = option_list (w_tbl (set_tbl f w) !! plain_index k').
Proof using Type.
  intros Hm Hl Hf k'. rewrite rows_of_insert. cbn. case_decide as E; [now subst k'|]. rewrite Hf by congruence. apply Hm.
Qed.

Lemma set_tbl_id (w : world) : set_tbl id w = w.
Proof using Type. now destruct w. Qed.

(** C20: The hash table implements the index that the migration code uses.  For a
    partition whose rows are in the table, a search gives the row of the key; an
    insertion of a key that is not in the table, and a removal of a row that is
    its key's or of a key that is not there, answer as the finite map of the
    model does, and leave the table holding the new index.  No null pointer is
    dereferenced, but by an insertion for whose node there is no memory. *)
Theorem cxl_index_refines base w t key row :
  indexes base w t ->
  index_step base False (map_search key t) (cxl_search (index_key key) w) /\
  (w_tbl w !! index_key key = None -> index_step base (no_memory t) (map_insert key row false t) (cxl_insert (index_key key) row w)) /\
  (w_tbl w !! index_key key = Some row \/ w_tbl w !! index_key key = None ->
     index_step base False (map_remove key row t) (cxl_remove (index_key key) w)).
Proof using Type.
  intros (m & Ht & Hm). set (k := get_plain_key key). pose proof (Hm k) as Hk. unfold index_key. fold k.
  pose proof (index_update w m k) as Hup. unfold cxl_insert, cxl_remove, cxl_search, map_search, map_insert, map_remove. fold k. split_and!.
  - apply (index_step_intro base _ m t _ (spec_search k) _ (<[k := rows_of m k]> m)); [now apply search_refines| |].
    + unfold spec_search, on_key, spec_single. rewrite Hk. now destruct (w_tbl w !! _).
    + rewrite <- (set_tbl_id w). now apply Hup.
  - intros Hn. rewrite Hn in Hk. mrun. rewrite Hn. mrun.
    apply (index_step_intro base _ m t _ (spec_insert k row) _ (<[k := [row]]> m)); [now apply insert_refines| |].
    + unfold spec_insert, on_key, CCSet.spec_insert. now rewrite Hk.
    + apply Hup; [easy|now rewrite lookup_insert_eq|]. intros k' Hne. now rewrite lookup_insert_ne by (unfold plain_index; congruence).
  - intros Hr. mrun. destruct (w_tbl w !! plain_index k) as [p|] eqn:E.
    + destruct Hr as [[= ->]|]; [|easy].
      apply (index_step_intro base _ m t _ (spec_remove k row) _ (<[k := []]> m)); [now apply remove_refines| |].
      * unfold spec_remove, on_key, CCSet.spec_remove. rewrite Hk. change (option_list (Some row)) with [row]. unfold gets, id. cbv [mbind M_bind]. assert (CCSet.position row [row] = Some 0%nat) as ->; [|reflexivity]. unfold CCSet.position. cbn [list_find]. now destruct (decide (row = row)).
      * apply Hup; [easy|now rewrite lookup_delete_eq|]. intros k' Hne. now rewrite lookup_delete_ne by (unfold plain_index; congruence).
    + apply (index_step_intro base _ m t _ (spec_remove k row) _ (<[k := []]> m)); [now apply remove_refines| |].
      * unfold spec_remove, on_key, CCSet.spec_remove. now rewrite Hk.
      * rewrite <- (set_tbl_id w). apply Hup; [easy|cbn; now rewrite E|easy].
Qed.
End index.
End table.
End CCHashTable.
