(* ===== verification/BTreeNode.v ===== *)
(** * Nodes of the B+ tree

    The node classes of common/btree_olc/BTreeOLC.h ([btree_olc_cxl] has the same
    code over [offset_ptr]): leaves with an array of keys and values and links to
    their neighbours, inner nodes with keys and children.  Keys are integers in the
    order of the key comparator; an array with its count is a list.  A leaf
    has an address, which the links refer to; a node is otherwise part of its
    parent, so all leaves are at the same depth by construction and the casts of a
    sibling to the type of a node are sound.

    This file has the operations of the nodes and what they do to lists. *)

From Stdlib Require Sorted.
From S2P Require Import Prelude.

(** ** [lowerBound] *)

(** The loop for short arrays. *)
Fixpoint linear_search (ks : list Z) (k : Z) : nat :=
  match ks with
  | [] => 0
  | x :: ks => if x <? k then S (linear_search ks k) else 0
  end.

(** The loop for long ones, with a bound on its iterations. *)
Fixpoint binary_search (fuel : nat) (ks : list Z) (k left right : Z) : Z :=
  match fuel with
  | O => left
  | S fuel =>
      if right <? left then left
      else
        let mid := left + Z.quot (right - left) 2 in
        let x := ks !!! Z.to_nat mid in
        if x =? k then mid
        else if x <? k then binary_search fuel ks k (mid + 1) right
        else binary_search fuel ks k left (mid - 1)
  end.

Definition lowerBound (ks : list Z) (k : Z) : nat :=
  let count := length ks in
  if (count <? 128)%nat then linear_search ks k
  else Z.to_nat (binary_search count ks k 0 (Z.of_nat count - 1)).

(** The keys below [k]. *)
Definition below (ks : list Z) (k : Z) : nat := length (filter (fun x => x < k) ks).

Definition ascending (ks : list Z) : Prop := Sorted.StronglySorted Z.lt ks.

Lemma ascending_app l1 l2 :
  ascending (l1 ++ l2) <-> ascending l1 /\ ascending l2 /\ forall x y, x ∈ l1 -> y ∈ l2 -> x < y.
Proof.
  unfold ascending. induction l1 as [|a l1 IH]; cbn [app].
  - split; [|naive_solver]. intros H. split_and!; [constructor|exact H|]. intros x y Hx. now apply elem_of_nil in Hx.
  - split.
    + intros H. apply Sorted.StronglySorted_inv in H as [H Ha]. apply IH in H as (H1 & H2 & H3). rewrite Forall_app in Ha.
      destruct Ha as [Ha1 Ha2]. rewrite Forall_forall in Ha2. split_and!; [now constructor|exact H2|].
      intros x y [->|Hx]%elem_of_cons Hy; auto.
    + intros (H1 & H2 & H3). apply Sorted.StronglySorted_inv in H1 as [H1 Ha]. constructor.
      * apply IH. split_and!; auto. intros x y Hx Hy. apply H3; [now right|exact Hy].
      * apply Forall_app. split; [exact Ha|]. apply Forall_forall. intros y Hy. apply H3; [now left|exact Hy].
Qed.

Lemma ascending_cons a l : ascending (a :: l) <-> ascending l /\ forall y, y ∈ l -> a < y.
Proof.
  unfold ascending. split.
  - intros H. apply Sorted.StronglySorted_inv in H as [H Ha]. split; [exact H|]. now apply Forall_forall.
  - intros [H Ha]. constructor; [exact H|]. now apply Forall_forall.
Qed.

(** In an ascending array the keys below [k] are a prefix, and the search ends
    there. *)
Lemma below_split ks k :
  ascending ks ->
  exists l1 l2, ks = l1 ++ l2 /\ below ks k = length l1 /\ (forall x, x ∈ l1 -> x < k) /\ (forall x, x ∈ l2 -> k <= x).
Proof.
  unfold below. induction ks as [|a ks IH]; intros Hs.
  { exists [], []. split_and!; [easy|easy| |]; intros x Hx; now apply elem_of_nil in Hx. }
  apply ascending_cons in Hs as [Hs Ha]. destruct (IH Hs) as (l1 & l2 & -> & E & H1 & H2).
  destruct (decide (a < k)) as [Hlt|Hge].
  - exists (a :: l1), l2. rewrite filter_cons_True by done. cbn. rewrite E. split_and!; [easy|easy| |exact H2].
    intros x [->|Hx]%elem_of_cons; auto.
  - exists [], (a :: l1 ++ l2). rewrite filter_cons_False by done.
    assert (Hall : forall x, x ∈ l1 ++ l2 -> k <= x). { intros x Hx. specialize (Ha x Hx). lia. }
    split_and!; [easy| |intros x Hx; now apply elem_of_nil in Hx|].
    + rewrite E. destruct l1 as [|x l1]; [easy|]. exfalso. assert (x < k) by (apply H1; now left). assert (k <= x) by (apply Hall; now left). lia.
    + intros x [->|Hx]%elem_of_cons; [lia|auto].
Qed.

Lemma below_ge ks k i x : ascending ks -> ks !! i = Some x -> k <= x -> (below ks k <= i)%nat.
Proof.
  intros Hs Hi Hk. destruct (below_split ks k Hs) as (l1 & l2 & -> & -> & H1 & H2).
  destruct (decide (i < length l1)%nat); [|lia]. rewrite lookup_app_l in Hi by lia. apply list_elem_of_lookup_2 in Hi.
  specialize (H1 x Hi). lia.
Qed.

Lemma below_lt ks k i x : ascending ks -> ks !! i = Some x -> x < k -> (i < below ks k)%nat.
Proof.
  intros Hs Hi Hk. destruct (below_split ks k Hs) as (l1 & l2 & -> & -> & H1 & H2).
  destruct (decide (i < length l1)%nat); [lia|]. rewrite lookup_app_r in Hi by lia. apply list_elem_of_lookup_2 in Hi.
  specialize (H2 x Hi). lia.
Qed.

Lemma below_app ks1 ks2 k : (forall x, x ∈ ks1 -> x < k) -> (forall x, x ∈ ks2 -> k <= x) -> below (ks1 ++ ks2) k = length ks1.
Proof.
  intros H1 H2. unfold below. rewrite filter_app, length_app.
  assert (filter (fun x => x < k) ks1 = ks1) as ->.
  { induction ks1 as [|x ks1 IH]; [easy|]. rewrite filter_cons_True by (apply H1; now left). f_equal. apply IH. intros y Hy. apply H1. now right. }
  assert (filter (fun x => x < k) ks2 = []) as ->; [|cbn; lia].
  induction ks2 as [|x ks2 IH]; [easy|]. assert (k <= x) by (apply H2; now left). rewrite filter_cons_False by lia. apply IH.
  intros y Hy. apply H2. now right.
Qed.

Lemma below_length ks k : (below ks k <= length ks)%nat.
Proof. unfold below. apply length_filter. Qed.

Lemma linear_search_below ks k : ascending ks -> linear_search ks k = below ks k.
Proof.
  unfold below. induction ks as [|a ks IH]; intros Hs; [easy|]. pose proof Hs as Hs'. apply ascending_cons in Hs as [Hs Ha]. cbn [linear_search].
  destruct (Z.ltb_spec a k).
  - rewrite filter_cons_True by done. cbn. now rewrite IH.
  - rewrite filter_cons_False by lia. assert (Hb : (below (a :: ks) k <= 0)%nat) by (now apply (below_ge _ _ 0 a)).
    unfold below in Hb. rewrite filter_cons_False in Hb by lia. lia.
Qed.

Lemma binary_search_below fuel ks k : forall left right,
  ascending ks -> 0 <= left -> right < Z.of_nat (length ks) -> left <= Z.of_nat (below ks k) <= right + 1 ->
  right - left + 1 <= Z.of_nat fuel -> binary_search fuel ks k left right = Z.of_nat (below ks k).
Proof.
  induction fuel as [|fuel IH]; intros left right Hs Hl Hr Hb Hf; [cbn; lia|]. cbn [binary_search].
  destruct (Z.ltb_spec right left); [lia|]. cbv zeta. set (mid := left + Z.quot (right - left) 2).
  assert (Hm : left <= mid <= right).
  { unfold mid. rewrite Z.quot_div_nonneg by lia. pose proof (Z.div_pos (right - left) 2). pose proof (Z.div_le_upper_bound (right - left) 2 (right - left)). lia. }
  destruct (lookup_lt_is_Some_2 ks (Z.to_nat mid)) as [x Hx]; [lia|]. rewrite (list_lookup_total_correct _ _ _ Hx).
  destruct (Z.eqb_spec x k) as [->|Hne].
  - pose proof (below_ge ks k _ _ Hs Hx ltac:(lia)).
    destruct (decide (Z.to_nat mid <= below ks k)%nat) as [|Hlt]; [lia|exfalso].
    destruct (below_split ks k Hs) as (l1 & l2 & E & Eb & H1 & H2). rewrite Eb in *. rewrite E in Hx.
    rewrite lookup_app_r in Hx by lia. destruct l2 as [|y l2]; [easy|].
    assert (Hy : k <= y) by (apply H2; now left). rewrite E in Hs. apply ascending_app in Hs as (_ & Hs & _).
    apply ascending_cons in Hs as [_ Hs]. destruct (Z.to_nat mid - length l1)%nat as [|d] eqn:Ed; [lia|]. cbn in Hx.
    apply list_elem_of_lookup_2 in Hx. specialize (Hs k Hx). lia.
  - destruct (Z.ltb_spec x k).
    + pose proof (below_lt ks k _ _ Hs Hx ltac:(lia)). apply IH; auto; lia.
    + pose proof (below_ge ks k _ _ Hs Hx ltac:(lia)). apply IH; auto; lia.
Qed.

Lemma lowerBound_below ks k : ascending ks -> lowerBound ks k = below ks k.
Proof.
  intros Hs. unfold lowerBound. destruct (Nat.ltb_spec (length ks) 128); [now apply linear_search_below|].
  rewrite binary_search_below; auto; pose proof (below_length ks k); try lia.
Qed.

(** The search within a node is right.  In an ascending array of keys
    [lowerBound] gives the first position whose key is not below the one searched
    for; the binary search for long arrays, whose loop ends within as many
    iterations as there are keys, gives the same as the linear loop. *)
Theorem lower_bound_correct ks k :
  ascending ks ->
  lowerBound ks k = linear_search ks k /\ (lowerBound ks k <= length ks)%nat /\
  forall i x, ks !! i = Some x -> (i < lowerBound ks k)%nat <-> x < k.
Proof.
  intros Hs. rewrite lowerBound_below, linear_search_below by done. split_and!; [easy|apply below_length|].
  intros i x Hx. split; [|now apply below_lt]. intros Hi. destruct (Z.ltb_spec x k); [easy|].
  pose proof (below_ge ks k i x Hs Hx). lia.
Qed.

(** ** Leaves *)

Section nodes.
Context {V : Type}.

Record leaf := MkLeaf { l_addr : Z; l_pre : option Z; l_next : option Z; l_data : list (Z * V) }.

Definition l_keys (l : leaf) : list Z := fst <$> l_data l.
Definition with_data (d : list (Z * V)) (l : leaf) : leaf := MkLeaf (l_addr l) (l_pre l) (l_next l) d.
Definition with_next (n : option Z) (l : leaf) : leaf := MkLeaf (l_addr l) (l_pre l) n (l_data l).
Definition with_pre (p : option Z) (l : leaf) : leaf := MkLeaf (l_addr l) p (l_next l) (l_data l).

(** Moving the elements from [pos] on one place up, and one down. *)
Definition splice {A} (pos : nat) (a : A) (l : list A) : list A := take pos l ++ a :: drop pos l.
Definition cut {A} (pos : nat) (l : list A) : list A := take pos l ++ drop (S pos) l.

(** [keys_[pos]] is the key. *)
Definition key_at (pos : nat) (k : Z) (l : leaf) : bool :=
  match l_keys l !! pos with Some k' => k' =? k | None => false end.

Definition leaf_insert (k : Z) (v : V) (l : leaf) : bool * leaf :=
  let pos := lowerBound (l_keys l) k in
  if key_at pos k l then (false, l) else (true, with_data (splice pos (k, v) (l_data l)) l).

Definition leaf_erase (pos : nat) (l : leaf) : leaf := with_data (cut pos (l_data l)) l.

(** [split]: the new leaf gets the upper half and the place after this leaf; the
    links of the leaf that follows are not changed.  The separator is the last
    key that stays. *)
Definition leaf_split (addr : Z) (l : leaf) : option (leaf * Z * leaf) :=
  let count := length (l_data l) in
  let keep := (count - (count - count / 2))%nat in
  let newLeaf := MkLeaf addr (Some (l_addr l)) (l_next l) (drop keep (l_data l)) in
  let this := with_next (Some addr) (with_data (take keep (l_data l)) l) in
  sep ← last (l_keys this);
  Some (this, sep, newLeaf).

(** [merge(sibling)]; the link back of the leaf after the sibling is changed too
    ([merge_relinks]). *)
Definition leaf_merge (l sibling : leaf) : leaf :=
  with_next (l_next sibling) (with_data (l_data l ++ l_data sibling) l).
Definition merge_relinks (l sibling : leaf) : option (Z * Z) :=
  n ← l_next sibling; Some (n, l_addr l).

(** ** Inner nodes *)

Record inner (A : Type) := Inner { i_keys : list Z; i_children : list A }.
Global Arguments Inner {A} i_keys i_children.
Global Arguments i_keys {A} i.
Global Arguments i_children {A} i.

Section inner.
Context {A : Type}.

Definition set_child (pos : nat) (c : A) (n : inner A) : inner A := Inner (i_keys n) (<[pos := c]> (i_children n)).

Definition swap_children (pos : nat) (l : list A) : list A :=
  match l !! pos, l !! S pos with Some a, Some b => <[S pos := a]> (<[pos := b]> l) | _, _ => l end.

(** [insert(k, child)]: the child goes before the one at its position and is
    then swapped with it. *)
Definition inner_insert (k : Z) (child : A) (n : inner A) : inner A :=
  let pos := lowerBound (i_keys n) k in
  Inner (splice pos k (i_keys n)) (swap_children pos (splice pos child (i_children n))).

(** [erase(pos)]: the key at [pos] and the child after it. *)
Definition inner_erase (pos : nat) (n : inner A) : inner A :=
  Inner (cut pos (i_keys n)) (cut (S pos) (i_children n)).

Definition inner_split (n : inner A) : option (inner A * Z * inner A) :=
  let count := length (i_keys n) in
  let keep := (count - (count - count / 2) - 1)%nat in
  sep ← i_keys n !! keep;
  Some (Inner (take keep (i_keys n)) (take (S keep) (i_children n)), sep,
        Inner (drop (S keep) (i_keys n)) (drop (S keep) (i_children n))).

Definition inner_merge (n sibling : inner A) (subTreeMaxKey : Z) : inner A :=
  Inner (i_keys n ++ subTreeMaxKey :: i_keys sibling) (i_children n ++ i_children sibling).
End inner.

(** A node above [h] levels. *)
Fixpoint node (h : nat) : Type :=
  match h with O => leaf | S h => inner (node h) end.

Definition count {h} : node h -> nat :=
  match h with O => fun l => length (l_data l) | S h => fun n => length (i_keys n) end.

(** [_getSubTreeMaxKey] *)
Fixpoint max_key {h : nat} : node h -> option Z :=
  match h with
  | O => fun l => last (l_keys l)
  | S h => fun n => c ← i_children n !! length (i_keys n); max_key c
  end.

(** [reallocNode(left, right, opt, p, pos)]: the right node gives its first
    element to the left one ([opt] is 1), or the left its last to the right.  The
    new key of the parent is the result too. *)
Definition borrow_from_right {h} : node h -> Z -> node h -> option (node h * Z * node h) :=
  match h with
  | O => fun a _ b =>
      '(kv) ← head (l_data b);
      let a' := with_data (l_data a ++ [kv]) a in
      sep' ← last (l_keys a');
      Some (a', sep', with_data (tail (l_data b)) b)
  | S h => fun a sep b =>
      c ← head (i_children b);
      k ← head (i_keys b);
      Some (Inner (i_keys a ++ [sep]) (i_children a ++ [c]), k, Inner (tail (i_keys b)) (tail (i_children b)))
  end.

Definition without_last {B} (l : list B) : list B := take (length l - 1) l.

Definition borrow_from_left {h} : node h -> Z -> node h -> option (node h * Z * node h) :=
  match h with
  | O => fun a _ b =>
      kv ← last (l_data a);
      let a' := with_data (without_last (l_data a)) a in
      sep' ← last (l_keys a');
      Some (a', sep', with_data (kv :: l_data b) b)
  | S h => fun a sep b =>
      c ← last (i_children a);
      k ← last (i_keys a);
      Some (Inner (without_last (i_keys a)) (without_last (i_children a)), k, Inner (sep :: i_keys b) (c :: i_children b))
  end.

(** Merging the right node into the left one, and the link to change. *)
Definition merge_nodes {h} : node h -> node h -> option (node h * option (Z * Z)) :=
  match h with
  | O => fun a b => Some (leaf_merge a b, merge_relinks a b)
  | S h => fun a b =>
      c ← i_children a !! length (i_keys a);
      m ← max_key c;
      Some (inner_merge a b m, None)
  end.
End nodes.
Arguments leaf : clear implicits.
Arguments node : clear implicits.
