(* ===== verification/BTree.v ===== *)
(** * [BPlusTree]: the operations

    The methods of the B+ tree of common/btree_olc/BTreeOLC.h, when they are not
    disturbed by other threads: the version checks then succeed, and a method goes
    back to its start only after it has split a node ([OLC] is about the locks).
    A pass through the tree is a recursion on its height; what a pass
    does outside of its path (counters, links of other leaves) is a list of
    events that is applied at its end.  The values are pointers to rows; the
    processors that methods take are given keys and values and change a state of
    their own. *)

From S2P Require Import Prelude BTreeNode.

Section btree.
Context {V : Type}.
(** [BTreeLeaf::maxEntries] and [BTreeInner::maxEntries]. *)
Context (leaf_max inner_max : nat).

Inductive event :=
| Relink (addr to : Z)
| SplitLeaf | SplitInner | MergedLeaf | MergedInner | Inserted | Erased.

Record tree := MkTree {
  height : nat;
  root : node V height;
  next_addr : Z;
  inner_nodes : Z;
  leaf_nodes : Z;
  num_items : Z
}.

Fixpoint leaves {h : nat} : node V h -> list (leaf V) :=
  match h with O => fun l => [l] | S h => fun n => concat (leaves <$> i_children n) end.

Fixpoint map_leaves (f : leaf V -> leaf V) {h : nat} : node V h -> node V h :=
  match h with O => f | S h => fun n => Inner (i_keys n) (map_leaves f <$> i_children n) end.

Definition set_pre_of (addr to : Z) (l : leaf V) : leaf V :=
  if l_addr l =? addr then with_pre (Some to) l else l.

Definition apply_event (e : event) (t : tree) : tree :=
  let '(MkTree h r a i l n) := t in
  match e with
  | Relink addr to => MkTree h (map_leaves (set_pre_of addr to) r) a i l n
  | SplitLeaf => MkTree h r (a + 1) i (wrap 64 (l + 1)) n
  | SplitInner => MkTree h r a (wrap 64 (i + 1)) l n
  | MergedLeaf => MkTree h r a i (wrap 64 (l - 1)) n
  | MergedInner => MkTree h r a (wrap 64 (i - 1)) l n
  | Inserted => MkTree h r a i l (wrap 64 (n + 1))
  | Erased => MkTree h r a i l (wrap 64 (n - 1))
  end.
Definition apply_events (es : list event) (t : tree) : tree := foldl (fun t e => apply_event e t) t es.

Definition with_root {h} (r : node V h) (t : tree) : tree :=
  MkTree h r (next_addr t) (inner_nodes t) (leaf_nodes t) (num_items t).

(** The constructor: one empty leaf. *)
Definition new_tree : tree := MkTree 0 (MkLeaf 1 None None [] : node V 0) 2 0 1 0.

(** ** Fullness *)

Definition leaf_full (l : leaf V) : bool := (length (l_data l) =? leaf_max)%nat.
Definition inner_full {A} (n : inner A) : bool := (length (i_keys n) =? inner_max - 1)%nat.

Definition max_entries (h : nat) : nat := match h with O => leaf_max | S _ => inner_max end.

(** [count / maxEntries < kMergeThreshold] and [ceil(maxEntries * kMergeThreshold)]
    for the [float] 0.4, which is slightly above two fifths. *)
Definition needMerge {h} (n : node V h) : bool := (5 * count n <=? 2 * max_entries h)%nat.
Definition threshold (h : nat) : nat := ((2 * max_entries h + 4) / 5)%nat.
Definition surplus {h} (n : node V h) : bool := (threshold h <? count n)%nat.

Definition hasEnoughSpace {h} (n : node V h) (need : nat) : bool :=
  match h with O => (count n + need <=? leaf_max)%nat | S _ => (count n + need + 1 <? inner_max)%nat end.

(** ** Descending *)

(** The leaf for a key. *)
Fixpoint find_leaf {h : nat} (k : Z) : node V h -> option (leaf V) :=
  match h with
  | O => fun l => Some l
  | S h => fun n => c ← i_children n !! lowerBound (i_keys n) k; find_leaf k c
  end.

Definition lookup_leaf (k : Z) (l : leaf V) : option V :=
  let pos := lowerBound (l_keys l) k in
  if key_at pos k l then snd <$> l_data l !! pos else None.

(** [_lookup]: the outer option is a bad access. *)
Definition lookup (k : Z) (t : tree) : option (option V) :=
  l ← find_leaf k (root t); Some (lookup_leaf k l).

(** ** Insertion *)

(** A pass has split a node and goes back to the root, or is done. *)
Inductive pass (A : Type) := Restart (a : A) | Done (ok : bool) (a : A).
Arguments Restart {A} a.
Arguments Done {A} ok a.

Definition pass_map {A B} (f : A -> B) (p : pass A) : pass B :=
  match p with Restart a => Restart (f a) | Done ok a => Done ok (f a) end.

(** What a method does with the leaf it has found. *)
Section pass.
Context (split_restarts : bool) (addr k : Z) (f : leaf V -> bool * leaf V).

Definition did (ok : bool) : list event := if ok then [Inserted] else [].

(** A full leaf is split: [insert] goes on with the half for the key, the
    methods that look at the neighbours go back to the root. *)
Definition split_full (l : leaf V) : option (pass (leaf V * Z * leaf V) * list event) :=
  '(l1, sep, l2) ← leaf_split addr l;
  if split_restarts then Some (Restart (l1, sep, l2), [SplitLeaf])
  else if sep <? k then let '(ok, l2') := f l2 in Some (Done ok (l1, sep, l2'), SplitLeaf :: did ok)
  else let '(ok, l1') := f l1 in Some (Done ok (l1', sep, l2), SplitLeaf :: did ok).

(** Below an inner node that is not full. *)
Fixpoint insert_in {h : nat} : inner (node V h) -> option (pass (inner (node V h)) * list event) :=
  match h with
  | O => fun n =>
      let pos := lowerBound (i_keys n) k in
      l ← i_children n !! pos;
      if leaf_full l then
        '(p, es) ← split_full l;
        Some (pass_map (fun '(l1, sep, l2) => inner_insert sep l2 (set_child pos l1 n)) p, es)
      else
        let '(ok, l') := f l in
        Some (Done ok (set_child pos l' n), did ok)
  | S h => fun n =>
      let pos := lowerBound (i_keys n) k in
      c ← i_children n !! pos;
      if inner_full c then
        '(c1, sep, c2) ← inner_split c;
        Some (Restart (inner_insert sep (c2 : node V (S h)) (set_child pos (c1 : node V (S h)) n)), [SplitInner])
      else
        '(p, es) ← insert_in c;
        Some (pass_map (fun c' => set_child pos c' n) p, es)
  end.
End pass.

Definition make_root {h} (k : Z) (left right : node V h) : node V (S h) := Inner [k] [left; right].

(** A pass from the root. *)
Definition insert_pass (split_restarts : bool) (k : Z) (f : leaf V -> bool * leaf V) (t : tree) : option (pass tree) :=
  match t with
  | MkTree O l _ _ _ _ =>
      if leaf_full l then
        '(p, es) ← split_full split_restarts (next_addr t) k f l;
        Some (pass_map (fun '(l1, sep, l2) => apply_events es (with_root (make_root sep (l1 : node V 0) l2) t)) p)
      else
        let '(ok, l') := f l in
        Some (Done ok (apply_events (did ok) (with_root (l' : node V 0) t)))
  | MkTree (S h) n _ _ _ _ =>
      if inner_full n then
        '(c1, sep, c2) ← inner_split n;
        Some (Restart (apply_events [SplitInner] (with_root (make_root sep (c1 : node V (S h)) c2) t)))
      else
        '(p, es) ← insert_in split_restarts (next_addr t) k f n;
        Some (pass_map (fun n' => apply_events es (with_root (n' : node V (S h)) t)) p)
  end.

(** [goto restart]; the outer option is a bad access or no fuel left. *)
Fixpoint insert_loop (fuel : nat) (k : Z) (v : V) (t : tree) : option (bool * tree) :=
  match fuel with
  | O => None
  | S fuel =>
      p ← insert_pass false k (leaf_insert k v) t;
      match p with Restart t' => insert_loop fuel k v t' | Done ok t' => Some (ok, t') end
  end.

(** Every split of an inner node lowers the sum of the squares of the counts. *)
Fixpoint potential {h : nat} : node V h -> nat :=
  match h with
  | O => fun _ => 0%nat
  | S h => fun n => (length (i_keys n) * length (i_keys n) + sum_list (potential <$> i_children n))%nat
  end.

Definition insert (k : Z) (v : V) (t : tree) : option (bool * tree) :=
  insert_loop (S (potential (root t))) k v t.

(** ** Removal *)

(** Borrowing between the children at [i] and [i + 1]. *)
Definition rebalance {h} (op : node V h -> Z -> node V h -> option (node V h * Z * node V h)) (i : nat) (n : inner (node V h)) :
    option (inner (node V h)) :=
  a ← i_children n !! i;
  b ← i_children n !! S i;
  sep ← i_keys n !! i;
  '(a', sep', b') ← op a sep b;
  Some (Inner (<[i := sep']> (i_keys n)) (<[S i := b']> (<[i := a']> (i_children n)))).

Definition merge_event (h : nat) : event := match h with O => MergedLeaf | S _ => MergedInner end.
Definition relink_events (r : option (Z * Z)) : list event := match r with Some (a, to) => [Relink a to] | None => [] end.

(** Merging the child at [i + 1] into the one at [i]. *)
Definition merge_at {h} (i : nat) (n : inner (node V h)) : option (inner (node V h) * list event) :=
  a ← i_children n !! i;
  b ← i_children n !! S i;
  '(ab, r) ← merge_nodes a b;
  Some (inner_erase i (set_child i ab n), merge_event h :: relink_events r).

(** The children next to the one at [pos] ([childPos - 1] is unsigned). *)
Definition left_sibling {A} (pos : nat) (n : inner A) : option A :=
  match pos with O => None | S p => if (p <? length (i_keys n))%nat then i_children n !! p else None end.
Definition right_sibling {A} (pos : nat) (n : inner A) : option A :=
  if (S pos <=? length (i_keys n))%nat then i_children n !! S pos else None.

(** [EraseMerge] for the child at [pos]: the node, whether its last key has
    gone ([changeRoot]), and whether it is to be merged in its turn. *)
Definition erase_merge {h} (pos : nat) (n : inner (node V h)) : option (inner (node V h) * bool * bool * list event) :=
  child ← i_children n !! pos;
  let leftSibling := left_sibling pos n in
  let rightSibling := right_sibling pos n in
  let has p o := match o with Some c => p c | None => false end in
  let merged i :=
    '(n', es) ← merge_at i n;
    Some (n', match i_keys n' with [] => true | _ => false end, needMerge (n' : node V (S h)), es) in
  if has surplus leftSibling then n' ← rebalance borrow_from_left (pos - 1) n; Some (n', false, false, [])
  else if has surplus rightSibling then n' ← rebalance borrow_from_right pos n; Some (n', false, false, [])
  else if has (fun c => hasEnoughSpace c (count child)) leftSibling then merged (pos - 1)%nat
  else if has (fun c => hasEnoughSpace c (count child)) rightSibling then merged pos
  else Some (n, false, match leftSibling, rightSibling with None, None => true | _, _ => false end, []).

(** The key is erased by [f], and then nodes are merged from the leaf upwards. *)
Fixpoint remove_in (k : Z) (f : leaf V -> bool * leaf V) {h : nat} : node V h -> option (bool * node V h * bool * bool * list event) :=
  match h with
  | O => fun l =>
      let '(ok, l') := f l in
      Some (ok, l', needMerge (l' : node V 0), false, if ok then [Erased] else [])
  | S h => fun n =>
      let pos := lowerBound (i_keys n) k in
      c ← i_children n !! pos;
      '(ok, c', merge, _, es) ← remove_in k f c;
      let n1 := set_child pos c' n in
      if merge : bool then
        '(n2, change_root, up, es2) ← erase_merge pos n1;
        Some (ok, n2, up, change_root, es ++ es2)
      else Some (ok, n1, false, false, es)
  end.

(** The root that has lost its last key is replaced by its child. *)
Definition remove_with (k : Z) (f : leaf V -> bool * leaf V) (t : tree) : option (bool * tree) :=
  '(ok, n, _, change_root, es) ← remove_in k f (root t);
  t' ← (match height t as h return node V h -> option tree with
        | O => fun n => Some (with_root (n : node V 0) t)
        | S h => fun n =>
            if change_root : bool then c ← head (i_children n); Some (with_root c t)
            else Some (with_root (n : node V (S h)) t)
        end) n;
  Some (ok, apply_events es t').

Definition leaf_remove (k : Z) (l : leaf V) : bool * leaf V :=
  let pos := lowerBound (l_keys l) k in
  if key_at pos k l then (true, leaf_erase pos l) else (false, l).

Definition remove (k : Z) (t : tree) : option (bool * tree) := remove_with k (leaf_remove k) t.
End btree.
Arguments Restart {A} a.
Arguments Done {A} ok a.
