(* ===== verification/BTreeInv.v ===== *)
(** * The order of the keys in a B+ tree

    The invariant [node_ok] of a node between two bounds, the ordered list of
    entries behind a tree, and what the operations of [BTreeNode] do to both. *)

From S2P Require Import Prelude BTreeNode BTree.

(** ** Ordered association lists *)

Section entries.
Context {V : Type}.
Implicit Types (l d : list (Z * V)) (k : Z).

Fixpoint get k l : option V :=
  match l with [] => None | (k', v) :: l => if k' =? k then Some v else get k l end.
Fixpoint put k (v : V) l : list (Z * V) :=
  match l with
  | [] => [(k, v)]
  | (k', v') :: l => if k' <? k then (k', v') :: put k v l else if k' =? k then (k', v') :: l else (k, v) :: (k', v') :: l
  end.
Fixpoint del k l : list (Z * V) :=
  match l with [] => [] | (k', v) :: l => if k' =? k then l else (k', v) :: del k l end.

Definition has k l : bool := match get k l with Some _ => true | None => false end.

Lemma get_app_r k l1 l2 : (forall x, x ∈ fst <$> l1 -> x <> k) -> get k (l1 ++ l2) = get k l2.
Proof.
  induction l1 as [|[x v] l1 IH]; intros H; [easy|]. cbn. rewrite (proj2 (Z.eqb_neq _ _)) by (apply H; now left).
  apply IH. intros y Hy. apply H. now right.
Qed.

Lemma get_app_l k l1 l2 : (forall x, x ∈ fst <$> l2 -> x <> k) -> get k (l1 ++ l2) = get k l1.
Proof.
  intros H. induction l1 as [|[x v] l1 IH]; cbn.
  - rewrite <- (app_nil_r l2), get_app_r by done. easy.
  - now rewrite IH.
Qed.

Lemma put_app_r k v l1 l2 : (forall x, x ∈ fst <$> l1 -> x < k) -> put k v (l1 ++ l2) = l1 ++ put k v l2.
Proof.
  induction l1 as [|[x w] l1 IH]; intros H; [easy|]. cbn. rewrite (proj2 (Z.ltb_lt _ _)) by (apply H; now left).
  f_equal. apply IH. intros y Hy. apply H. now right.
Qed.

Lemma put_app_l k v l1 l2 : (forall x, x ∈ fst <$> l2 -> k < x) -> put k v (l1 ++ l2) = put k v l1 ++ l2.
Proof.
  intros H. induction l1 as [|[x w] l1 IH]; cbn.
  - destruct l2 as [|[y w] l2]; [easy|]. assert (k < y) by (apply H; now left). cbn.
    destruct (Z.ltb_spec y k), (Z.eqb_spec y k); easy || lia.
  - rewrite IH. now destruct (x <? k), (x =? k).
Qed.

Lemma del_app_r k l1 l2 : (forall x, x ∈ fst <$> l1 -> x <> k) -> del k (l1 ++ l2) = l1 ++ del k l2.
Proof.
  induction l1 as [|[x w] l1 IH]; intros H; [easy|]. cbn. rewrite (proj2 (Z.eqb_neq _ _)) by (apply H; now left).
  f_equal. apply IH. intros y Hy. apply H. now right.
Qed.

Lemma del_app_l k l1 l2 : (forall x, x ∈ fst <$> l2 -> x <> k) -> del k (l1 ++ l2) = del k l1 ++ l2.
Proof.
  intros H. induction l1 as [|[x w] l1 IH]; cbn.
  - rewrite <- (app_nil_r l2) at 1. rewrite del_app_r by done. cbn. apply app_nil_r.
  - destruct (x =? k); [easy|]. cbn. now rewrite IH.
Qed.

(** An ascending list splits at a key. *)
Lemma entries_split d k :
  ascending (fst <$> d) ->
  exists d1 d2, d = d1 ++ d2 /\ lowerBound (fst <$> d) k = length d1 /\
    (forall x, x ∈ fst <$> d1 -> x < k) /\ (forall x, x ∈ fst <$> d2 -> k <= x).
Proof.
  intros Hs. destruct (below_split _ k Hs) as (l1 & l2 & E & Eb & H1 & H2). apply fmap_app_inv in E as (d1 & d2 & -> & -> & ->).
  exists d1, d2. split_and!; auto. rewrite lowerBound_below by done. now rewrite Eb, length_fmap.
Qed.

Lemma split_head (d : list (Z * V)) k :
  ascending (fst <$> d) -> (forall x, x ∈ fst <$> d -> k <= x) ->
  match d with
  | (x, v) :: r => (x = k /\ get k d = Some v /\ put k v d = d /\ del k d = r) \/ (k < x /\ get k d = None /\ del k d = d)
  | [] => True
  end.
Proof.
  intros Hs Hk. destruct d as [|[x v] r]; [easy|]. assert (k <= x) by (apply Hk; now left).
  apply ascending_cons in Hs as [Hs Ha]. cbn. destruct (Z.eqb_spec x k) as [->|Hne].
  - left. rewrite Z.ltb_irrefl. easy.
  - right. assert (Hr : forall y, y ∈ fst <$> r -> y <> k). { intros y Hy. specialize (Ha y Hy). cbn in Ha. lia. }
    split_and!; [lia| |].
    + rewrite <- (app_nil_r r), get_app_r by done. easy.
    + rewrite <- (app_nil_r r) at 1. rewrite del_app_r by done. cbn. now rewrite app_nil_r.
Qed.

Lemma put_keys k v l y : y ∈ fst <$> put k v l <-> y = k \/ y ∈ fst <$> l.
Proof.
  induction l as [|[z w] l IH]; cbn.
  - rewrite elem_of_cons, elem_of_nil. naive_solver.
  - destruct (z <? k); [|destruct (Z.eqb_spec z k)]; cbn; rewrite !elem_of_cons; [rewrite IH; naive_solver|naive_solver|naive_solver].
Qed.

Lemma put_ascending k v l : ascending (fst <$> l) -> ascending (fst <$> put k v l).
Proof.
  induction l as [|[x w] l IH]; intros Hs; cbn; [constructor; constructor|].
  pose proof Hs as Hs'. apply ascending_cons in Hs as [Hs Ha]. cbn in Ha. destruct (Z.ltb_spec x k).
  - apply ascending_cons. split; [now apply IH|]. cbn. intros y [->|Hl]%put_keys; [lia|now apply Ha].
  - destruct (Z.eqb_spec x k); [exact Hs'|]. apply ascending_cons. split; [exact Hs'|].
    cbn. intros y [->|Hy]%elem_of_cons; [lia|]. specialize (Ha y Hy). lia.
Qed.

Lemma del_keys k l y : y ∈ fst <$> del k l -> y ∈ fst <$> l.
Proof.
  induction l as [|[x w] l IH]; cbn; [easy|]. destruct (x =? k); [now right|]. cbn.
  intros [->|H]%elem_of_cons; [now left|right; auto].
Qed.

Lemma del_ascending k l : ascending (fst <$> l) -> ascending (fst <$> del k l).
Proof.
  induction l as [|[x w] l IH]; intros Hs; cbn; [exact Hs|]. apply ascending_cons in Hs as [Hs Ha].
  destruct (x =? k); [exact Hs|]. cbn. apply ascending_cons. split; [now apply IH|]. intros y Hy. apply Ha. now apply del_keys in Hy.
Qed.

Lemma get_None_ascending k l : ascending (fst <$> l) -> (forall x, x ∈ fst <$> l -> k < x) -> get k l = None.
Proof. intros _ H. rewrite <- (app_nil_r l), get_app_r; [easy|]. intros x Hx. specialize (H x Hx). lia. Qed.

Lemma get_put k k' v l : ascending (fst <$> l) -> get k' (put k v l) = if decide (k' = k) then match get k l with Some v' => Some v' | None => Some v end else get k' l.
Proof.
  induction l as [|[x u] l IH]; intros Hs.
  - cbn. destruct (Z.eqb_spec k k'), (decide (k' = k)); subst; done.
  - apply ascending_cons in Hs as [Hs Ha]. cbn in Ha. cbn [put get]. destruct (Z.ltb_spec x k).
    + cbn [get]. rewrite IH by done. destruct (Z.eqb_spec x k'), (decide (k' = k)), (Z.eqb_spec x k); subst; try lia; done.
    + destruct (Z.eqb_spec x k) as [->|Hne]; cbn [get].
      * destruct (Z.eqb_spec k k'), (decide (k' = k)); subst; done.
      * rewrite (get_None_ascending k l Hs) by (intros y Hy; specialize (Ha y Hy); lia).
        destruct (Z.eqb_spec k k'), (decide (k' = k)); subst; done.
Qed.

Lemma put_has k v v' l : ascending (fst <$> l) -> get k l = Some v' -> put k v l = l.
Proof.
  induction l as [|[x u] l IH]; intros Hs E; [done|]. apply ascending_cons in Hs as [Hs Ha]. cbn in Ha, E |- *. destruct (Z.ltb_spec x k).
  - destruct (Z.eqb_spec x k); [lia|]. now rewrite IH.
  - destruct (Z.eqb_spec x k); [done|]. rewrite (get_None_ascending k l Hs) in E; [done|]. intros y Hy. specialize (Ha y Hy). lia.
Qed.

Lemma get_del k k' l : ascending (fst <$> l) -> get k' (del k l) = if decide (k' = k) then None else get k' l.
Proof.
  induction l as [|[x u] l IH]; intros Hs; [cbn; now destruct (decide _)|]. apply ascending_cons in Hs as [Hs Ha]. cbn in Ha. cbn [del get].
  destruct (Z.eqb_spec x k) as [->|Hne].
  - destruct (decide (k' = k)) as [->|Hk]; [|now rewrite (proj2 (Z.eqb_neq k k')) by done]. apply get_None_ascending; done.
  - cbn [get]. rewrite IH by done. destruct (Z.eqb_spec x k'), (decide (k' = k)); subst; done.
Qed.

Lemma get_elem l k v : ascending (fst <$> l) -> (k, v) ∈ l <-> get k l = Some v.
Proof.
  induction l as [|[x u] l IH]; intros Hs; cbn [get]; [now rewrite elem_of_nil|]. apply ascending_cons in Hs as [Hs Ha]. cbn in Ha. rewrite elem_of_cons, IH by done.
  destruct (Z.eqb_spec x k) as [->|Hne]; [|naive_solver]. split; [|naive_solver]. intros [[= ->]|H]; [done|].
  apply IH in H; [|done]. specialize (Ha k (list_elem_of_fmap_2 fst _ _ H)). lia.
Qed.

Lemma filter_ascending (P : Z * V -> Prop) `{forall e, Decision (P e)} l : ascending (fst <$> l) -> ascending (fst <$> filter P l).
Proof.
  induction l as [|e l IH]; intros Hs; [exact Hs|]. apply ascending_cons in Hs as [Hs Ha]. rewrite filter_cons. destruct (decide (P e)); [|now apply IH].
  apply ascending_cons. split; [now apply IH|]. intros y Hy. apply Ha. apply list_elem_of_fmap in Hy as (e' & -> & He'). apply list_elem_of_filter in He' as [_ He'].
  now apply list_elem_of_fmap_2.
Qed.

(** Two ascending lists with the same elements. *)
Lemma ascending_eq (l1 : list Z) : forall l2 : list Z, ascending l1 -> ascending l2 -> (forall x, x ∈ l1 <-> x ∈ l2) -> l1 = l2.
Proof.
  induction l1 as [|a l1 IH]; intros [|b l2] H1 H2 H.
  - done.
  - exfalso. assert (Hb : b ∈ []) by (apply H; now left). now apply elem_of_nil in Hb.
  - exfalso. assert (Ha : a ∈ []) by (apply H; now left). now apply elem_of_nil in Ha.
  - apply ascending_cons in H1 as [H1 Ha], H2 as [H2 Hb].
    assert (a = b) as <-.
    { assert (Hab : a ∈ b :: l2) by (apply H; now left). assert (Hba : b ∈ a :: l1) by (apply H; now left).
      apply elem_of_cons in Hab as [->|Hab], Hba as [Hba|Hba]; auto. specialize (Ha _ Hba). specialize (Hb _ Hab). lia. }
    f_equal. apply IH; auto. intros x. split; intros Hx.
    + specialize (Ha x Hx). assert (Hx' : x ∈ a :: l2) by (apply H; now right). apply elem_of_cons in Hx' as [->|]; [lia|done].
    + specialize (Hb x Hx). assert (Hx' : x ∈ a :: l1) by (apply H; now right). apply elem_of_cons in Hx' as [->|]; [lia|done].
Qed.

Lemma put_length k v l : ascending (fst <$> l) -> length (put k v l) = (length l + if has k l then 0 else 1)%nat.
Proof.
  unfold has. induction l as [|[z w] l IH]; intros Hs; [easy|]. apply ascending_cons in Hs as [Hs Ha]. cbn in Ha. cbn [put get].
  destruct (Z.ltb_spec z k).
  - cbn. rewrite IH by done. now rewrite (proj2 (Z.eqb_neq _ _)) by lia.
  - destruct (Z.eqb_spec z k); cbn; [lia|]. rewrite get_None_ascending; [lia|done|]. intros x Hx. specialize (Ha x Hx). lia.
Qed.

Lemma del_length k l : length l = (length (del k l) + if has k l then 1 else 0)%nat.
Proof.
  unfold has. induction l as [|[z w] l IH]; [easy|]. cbn. destruct (z =? k); cbn; lia.
Qed.
End entries.

(** ** Bounds *)

(** [lo < k], [k <= hi] and both, where [None] is no bound. *)
Definition above (lo : option Z) (k : Z) : Prop := match lo with Some b => b < k | None => True end.
Definition upto (hi : option Z) (k : Z) : Prop := match hi with Some b => k <= b | None => True end.
Definition within (lo hi : option Z) (k : Z) : Prop := above lo k /\ upto hi k.

(** Between the child at the end of [ks1] and the child at the start of [ks2]. *)
Definition after (lo : option Z) (ks1 : list Z) : option Z := match last ks1 with Some k => Some k | None => lo end.
Definition before (hi : option Z) (ks2 : list Z) : option Z := match ks2 with k :: _ => Some k | [] => hi end.

Lemma after_cons lo k ks : after lo (k :: ks) = after (Some k) ks.
Proof. unfold after. rewrite last_cons. now destruct (last ks). Qed.
Lemma after_snoc lo k ks : after lo (ks ++ [k]) = Some k.
Proof. unfold after. now rewrite last_snoc. Qed.

(** The children of an inner node, with the keys that separate them. *)
Section children.
Context {A : Type} (P : option Z -> option Z -> A -> Prop).

Fixpoint between_keys (lo hi : option Z) (ks : list Z) (cs : list A) : Prop :=
  match ks, cs with
  | [], [c] => P lo hi c
  | k :: ks, c :: cs => within lo hi k /\ P lo (Some k) c /\ between_keys (Some k) hi ks cs
  | _, _ => False
  end.

(** The children left of a position, and those right of it. *)
Fixpoint left_of (lo hi : option Z) (ks : list Z) (cs : list A) : Prop :=
  match ks, cs with
  | [], [] => True
  | k :: ks, c :: cs => within lo hi k /\ P lo (Some k) c /\ left_of (Some k) hi ks cs
  | _, _ => False
  end.
Definition right_of (lo hi : option Z) (ks : list Z) (cs : list A) : Prop :=
  match ks, cs with
  | [], [] => True
  | k :: ks, _ => within lo hi k /\ between_keys (Some k) hi ks cs
  | [], _ => False
  end.

Lemma between_keys_length lo hi ks cs : between_keys lo hi ks cs -> length cs = S (length ks).
Proof.
  revert lo cs. induction ks as [|k ks IH]; intros lo [|c [|c' cs]]; cbn; try easy; intros (_ & _ & H%IH); cbn in H; lia.
Qed.

Lemma left_of_length lo hi ks cs : left_of lo hi ks cs -> length cs = length ks.
Proof. revert lo cs. induction ks as [|k ks IH]; intros lo [|c cs]; cbn; try easy. intros (_ & _ & H%IH). lia. Qed.

Lemma between_keys_app lo hi ks1 ks2 cs1 cs2 :
  length ks1 = length cs1 ->
  between_keys lo hi (ks1 ++ ks2) (cs1 ++ cs2) <-> left_of lo hi ks1 cs1 /\ between_keys (after lo ks1) hi ks2 cs2.
Proof.
  revert lo cs1. induction ks1 as [|k ks1 IH]; intros lo [|c cs1]; cbn [length app]; intros E; try easy.
  cbn [between_keys left_of]. rewrite IH by lia. rewrite after_cons. tauto.
Qed.

Lemma left_of_app lo hi ks1 ks2 cs1 cs2 :
  length ks1 = length cs1 ->
  left_of lo hi (ks1 ++ ks2) (cs1 ++ cs2) <-> left_of lo hi ks1 cs1 /\ left_of (after lo ks1) hi ks2 cs2.
Proof.
  revert lo cs1. induction ks1 as [|k ks1 IH]; intros lo [|c cs1]; cbn [length app]; intros E; try easy.
  cbn [left_of]. rewrite IH by lia. rewrite after_cons. tauto.
Qed.

Lemma between_keys_cons lo hi ks c cs : between_keys lo hi ks (c :: cs) <-> P lo (before hi ks) c /\ right_of lo hi ks cs.
Proof. destruct ks as [|k ks]; cbn; [destruct cs; tauto|tauto]. Qed.

(** One child in the middle. *)
Lemma between_keys_mid lo hi ks1 ks2 cs1 c cs2 :
  length ks1 = length cs1 ->
  between_keys lo hi (ks1 ++ ks2) (cs1 ++ c :: cs2) <->
  left_of lo hi ks1 cs1 /\ P (after lo ks1) (before hi ks2) c /\ right_of (after lo ks1) hi ks2 cs2.
Proof. intros H. rewrite between_keys_app, between_keys_cons by done. easy. Qed.

(** Two neighbours and the key between them. *)
Lemma between_keys_pair lo hi ks1 k ks2 cs1 a b cs2 :
  length ks1 = length cs1 ->
  between_keys lo hi (ks1 ++ k :: ks2) (cs1 ++ a :: b :: cs2) <->
  left_of lo hi ks1 cs1 /\ within (after lo ks1) hi k /\ P (after lo ks1) (Some k) a /\
  P (Some k) (before hi ks2) b /\ right_of (Some k) hi ks2 cs2.
Proof. intros H. rewrite between_keys_app by done. cbn [between_keys]. rewrite between_keys_cons. easy. Qed.

Lemma right_of_lower lo lo' hi ks cs :
  (forall k, above lo k -> above lo' k) -> right_of lo hi ks cs -> right_of lo' hi ks cs.
Proof. destruct ks, cs; cbn; unfold within; naive_solver. Qed.

Lemma left_of_upper lo hi hi' ks cs :
  (forall k, k ∈ ks -> upto hi' k) -> left_of lo hi ks cs -> left_of lo hi' ks cs.
Proof.
  revert lo cs. induction ks as [|k ks IH]; intros lo [|c cs] Hu; cbn; try easy. intros ([Ha _] & Hc & H). split_and!.
  - split; [exact Ha|]. apply Hu. now left.
  - exact Hc.
  - apply IH; [|exact H]. intros x Hx. apply Hu. now right.
Qed.

Lemma between_keys_ascending lo hi ks cs : between_keys lo hi ks cs -> ascending ks /\ forall k, k ∈ ks -> within lo hi k.
Proof.
  revert lo cs. induction ks as [|k ks IH]; intros lo cs H.
  - split; [constructor|]. intros k Hk. now apply elem_of_nil in Hk.
  - destruct cs as [|c cs]; [easy|]. cbn in H. destruct H as (Hk & _ & H). destruct (IH _ _ H) as [Hs Hw]. split.
    + apply ascending_cons. split; [exact Hs|]. intros y Hy. now destruct (Hw y Hy).
    + intros y [->|Hy]%elem_of_cons; [exact Hk|]. destruct (Hw y Hy) as [Ha Hu]. split; [|exact Hu].
      destruct Hk as [Hk _]. destruct lo; [|easy]. cbn in *. lia.
Qed.

(** The child for a key. *)
Lemma pick_child lo hi ks cs k :
  between_keys lo hi ks cs -> within lo hi k ->
  exists ks1 ks2 cs1 c cs2, ks = ks1 ++ ks2 /\ cs = cs1 ++ c :: cs2 /\ length ks1 = length cs1 /\
    lowerBound ks k = length cs1 /\ cs !! length cs1 = Some c /\ within (after lo ks1) (before hi ks2) k /\
    (forall x, x ∈ ks1 -> x < k) /\ (forall x, x ∈ ks2 -> k <= x).
Proof.
  intros H Hk. destruct (between_keys_ascending _ _ _ _ H) as [Hs _]. destruct (below_split ks k Hs) as (ks1 & ks2 & E & Eb & H1 & H2).
  pose proof (between_keys_length _ _ _ _ H) as Hlen. destruct (lookup_lt_is_Some_2 cs (length ks1)) as [c Hc].
  { rewrite Hlen, E, length_app. lia. }
  exists ks1, ks2, (take (length ks1) cs), c, (drop (S (length ks1)) cs).
  assert (Ht : length ks1 = length (take (length ks1) cs)). { rewrite length_take, Hlen, E, length_app. lia. }
  rewrite take_drop_middle by done. rewrite lowerBound_below, Eb, <- Ht by done. split_and!; auto.
  split.
  - unfold after. destruct (last ks1) as [x|] eqn:El; [|apply Hk]. cbn. apply H1.
    apply last_Some in El as (l' & ->). apply elem_of_app. right. now left.
  - unfold before. destruct ks2 as [|x ks2]; [apply Hk|]. cbn. apply H2. now left.
Qed.
End children.

Lemma between_keys_impl {A} (P Q : option Z -> option Z -> A -> Prop) lo hi ks cs :
  (forall lo hi c, c ∈ cs -> P lo hi c -> Q lo hi c) -> between_keys P lo hi ks cs -> between_keys Q lo hi ks cs.
Proof.
  revert lo cs. induction ks as [|k ks IH]; intros lo [|c cs] HPQ; cbn; try easy.
  - destruct cs; [|easy]. apply HPQ. now left.
  - intros (H1 & H2 & H3). split_and!; [exact H1|apply HPQ; [now left|exact H2]|]. apply IH; [|exact H3].
    intros lo' hi' c' Hin. apply HPQ. now right.
Qed.

(** ** Trees *)

Section nodes.
Context {V : Type} (leaf_max inner_max : nat).

(** A node between two bounds; [m] says that it is not empty. *)
Fixpoint node_ok (m : bool) {h : nat} (lo hi : option Z) : node V h -> Prop :=
  match h with
  | O => fun l =>
      ascending (l_keys l) /\ (forall k, k ∈ l_keys l -> within lo hi k) /\
      (length (l_data l) <= leaf_max)%nat /\ (m = true -> l_data l <> [])
  | S h => fun n =>
      (length (i_keys n) <= inner_max - 1)%nat /\ (m = true -> i_keys n <> []) /\
      between_keys (@node_ok true h) lo hi (i_keys n) (i_children n)
  end.

Definition ents (L : list (leaf V)) : list (Z * V) := concat (l_data <$> L).
Definition entries {h} (n : node V h) : list (Z * V) := ents (leaves n).
Definition leaves_of {h} (cs : list (node V h)) : list (leaf V) := concat (leaves <$> cs).
Definition keys_of (L : list (leaf V)) : list Z := fst <$> ents L.

Lemma ents_app L1 L2 : ents (L1 ++ L2) = ents L1 ++ ents L2.
Proof using Type. unfold ents. now rewrite fmap_app, concat_app. Qed.
Lemma ents_cons l L : ents (l :: L) = l_data l ++ ents L.
Proof using Type. easy. Qed.
Lemma keys_of_app L1 L2 : keys_of (L1 ++ L2) = keys_of L1 ++ keys_of L2.
Proof using Type. unfold keys_of. now rewrite ents_app, fmap_app. Qed.
Lemma keys_of_cons l L : keys_of (l :: L) = l_keys l ++ keys_of L.
Proof using Type. unfold keys_of. now rewrite ents_cons, fmap_app. Qed.
Lemma leaves_of_app {h} (cs1 cs2 : list (node V h)) : leaves_of (cs1 ++ cs2) = leaves_of cs1 ++ leaves_of cs2.
Proof using Type. unfold leaves_of. now rewrite fmap_app, concat_app. Qed.
Lemma leaves_of_cons {h} (c : node V h) cs : leaves_of (c :: cs) = leaves c ++ leaves_of cs.
Proof using Type. easy. Qed.
Lemma leaves_inner {h} ks (cs : list (node V h)) : leaves (h := S h) (Inner ks cs) = leaves_of cs.
Proof using Type. easy. Qed.

Lemma inner_ok {h} m lo hi ks (cs : list (node V h)) :
  node_ok (h := S h) m lo hi (Inner ks cs) <->
  (length ks <= inner_max - 1)%nat /\ (m = true -> ks <> []) /\ between_keys (@node_ok true h) lo hi ks cs.
Proof using Type. easy. Qed.

Lemma node_ok_weaken {h} m lo hi (n : node V h) : node_ok true lo hi n -> node_ok m lo hi n.
Proof using Type. destruct h; cbn; naive_solver. Qed.

(** The keys of a node are in order and within its bounds. *)
Lemma children_keys {h} (Q : option Z -> option Z -> node V h -> Prop) :
  (forall lo hi c, Q lo hi c -> ascending (keys_of (leaves c)) /\ forall k, k ∈ keys_of (leaves c) -> within lo hi k) ->
  forall ks lo hi cs, between_keys Q lo hi ks cs ->
  ascending (keys_of (leaves_of cs)) /\ forall k, k ∈ keys_of (leaves_of cs) -> within lo hi k.
Proof using Type.
  intros HQ. induction ks as [|k ks IH]; intros lo hi [|c cs]; cbn [between_keys]; try easy.
  - destruct cs; [|easy]. intros H. rewrite leaves_of_cons, app_nil_r. now apply HQ.
  - intros (Hk & Hc & H). destruct (HQ _ _ _ Hc) as [H1 H2], (IH _ _ _ H) as [H3 H4]. rewrite leaves_of_cons, keys_of_app. split.
    + apply ascending_app. split_and!; auto. intros x y Hx Hy. destruct (H2 x Hx) as [_ Hx'], (H4 y Hy) as [Hy' _]. cbn in *. lia.
    + intros x [Hx|Hx]%elem_of_app.
      * destruct (H2 x Hx) as [Ha Hu]. split; [exact Ha|]. destruct Hk as [_ Hk]. destruct hi; [|easy]. cbn in *. lia.
      * destruct (H4 x Hx) as [Ha Hu]. split; [|exact Hu]. destruct Hk as [Hk _]. destruct lo; [|easy]. cbn in *. lia.
Qed.

Lemma node_keys {h} : forall m lo hi (n : node V h), node_ok m lo hi n ->
  ascending (keys_of (leaves n)) /\ forall k, k ∈ keys_of (leaves n) -> within lo hi k.
Proof using Type.
  induction h as [|h IH]; intros m lo hi n; cbn [node_ok leaves].
  - intros (H1 & H2 & _). rewrite keys_of_cons, app_nil_r. now split.
  - intros (_ & _ & H). revert H. apply children_keys. intros lo' hi' c. apply IH.
Qed.

Lemma left_keys {h} ks lo hi (cs : list (node V h)) x :
  left_of (node_ok true) lo hi ks cs -> x ∈ keys_of (leaves_of cs) -> exists k, k ∈ ks /\ x <= k.
Proof using Type.
  revert lo cs. induction ks as [|k ks IH]; intros lo [|c cs]; cbn [left_of]; try easy.
  intros (_ & Hc & H). rewrite leaves_of_cons, keys_of_app. intros [Hx|Hx]%elem_of_app.
  - exists k. split; [now left|]. destruct (node_keys _ _ _ _ Hc) as [_ Hk]. now destruct (Hk x Hx).
  - destruct (IH _ _ H Hx) as (k' & Hin & Hle). exists k'. split; [now right|exact Hle].
Qed.

Lemma right_keys {h} ks lo hi (cs : list (node V h)) x :
  right_of (node_ok true) lo hi ks cs -> x ∈ keys_of (leaves_of cs) -> exists k, k ∈ ks /\ k < x.
Proof using Type.
  destruct ks as [|k ks]; cbn [right_of].
  - destruct cs; [|easy]. intros _ Hx. now apply elem_of_nil in Hx.
  - intros [_ H] Hx. destruct (children_keys _ (fun _ _ _ => node_keys _ _ _ _) _ _ _ _ H) as [_ Hk].
    exists k. split; [now left|]. now destruct (Hk x Hx).
Qed.

(** The leaves left and right of the one for a key. *)
Definition around (k : Z) (L1 L2 : list (leaf V)) : Prop :=
  (forall x, x ∈ keys_of L1 -> x < k) /\ (forall x, x ∈ keys_of L2 -> k < x).

Lemma around_child {h} k lo hi ks1 ks2 (cs1 cs2 : list (node V h)) L1 L2 :
  left_of (node_ok true) lo hi ks1 cs1 -> right_of (node_ok true) (after lo ks1) hi ks2 cs2 ->
  (forall x, x ∈ ks1 -> x < k) -> (forall x, x ∈ ks2 -> k <= x) ->
  around k L1 L2 -> around k (leaves_of cs1 ++ L1) (L2 ++ leaves_of cs2).
Proof using Type.
  intros Hl Hr H1 H2 [Ha Hb]. split; intros x; rewrite keys_of_app; intros [Hx|Hx]%elem_of_app; auto.
  - destruct (left_keys _ _ _ _ _ Hl Hx) as (k' & Hin & Hle). specialize (H1 k' Hin). lia.
  - destruct (right_keys _ _ _ _ _ Hr Hx) as (k' & Hin & Hlt). specialize (H2 k' Hin). lia.
Qed.

Lemma find_leaf_inner {h} k ks (cs : list (node V h)) :
  find_leaf (h := S h) k (Inner ks cs) = c ← cs !! lowerBound ks k; find_leaf k c.
Proof using Type. easy. Qed.

Lemma find_leaf_ok {h} k : forall m lo hi (n : node V h), node_ok m lo hi n -> within lo hi k ->
  exists L1 l L2, find_leaf k n = Some l /\ leaves n = L1 ++ l :: L2 /\ around k L1 L2 /\ node_ok (h := 0) (match h with O => m | S _ => true end) None None l.
Proof using Type.
  induction h as [|h IH]; intros m lo hi n Hn Hk.
  - exists [], n, []. destruct Hn as (H1 & H2 & H3 & H4). split_and!; auto; [|now intros]. split; intros x Hx; now apply elem_of_nil in Hx.
  - destruct Hn as (_ & _ & Hc). destruct (pick_child _ _ _ _ _ k Hc Hk) as (ks1 & ks2 & cs1 & c & cs2 & E1 & E2 & Hlen & Hpos & Hget & Hw & H1 & H2).
    destruct n as [ks cs]. cbn [i_keys i_children] in *. subst ks cs. rewrite between_keys_mid in Hc by done. destruct Hc as (Hl & Hc & Hr).
    destruct (IH true _ _ c Hc Hw) as (L1 & l & L2 & Hf & Hlv & Har & Hok).
    exists (leaves_of cs1 ++ L1), l, (L2 ++ leaves_of cs2). split_and!.
    + rewrite find_leaf_inner, Hpos, Hget. exact Hf.
    + rewrite leaves_inner, leaves_of_app, leaves_of_cons, Hlv. now rewrite <- !app_assoc.
    + eapply around_child; eauto.
    + now destruct h.
Qed.

Lemma nonempty_key {h} : forall lo hi (n : node V h), node_ok true lo hi n -> exists x, x ∈ keys_of (leaves n).
Proof using Type.
  induction h as [|h IH]; intros lo hi n.
  - intros (_ & _ & _ & Hne). cbn [leaves]. rewrite keys_of_cons, app_nil_r. unfold l_keys.
    destruct (l_data n) as [|[x v] d]; [now destruct Hne|]. exists x. now left.
  - destruct n as [ks cs]. intros (_ & _ & H). cbn [i_keys i_children] in H. destruct ks as [|k ks], cs as [|c cs]; try easy.
    + destruct cs; [|easy]. destruct (IH _ _ _ H) as [x Hx]. exists x. rewrite leaves_inner, leaves_of_cons, keys_of_app.
      apply elem_of_app. now left.
    + destruct H as (_ & H & _). destruct (IH _ _ _ H) as [x Hx]. exists x. rewrite leaves_inner, leaves_of_cons, keys_of_app.
      apply elem_of_app. now left.
Qed.

Lemma nonempty_bounds {h} lo hi (n : node V h) : node_ok true lo hi n -> exists x, within lo hi x /\ x ∈ keys_of (leaves n).
Proof using Type.
  intros Hn. destruct (nonempty_key _ _ _ Hn) as [x Hx]. destruct (node_keys _ _ _ _ Hn) as [_ Hw]. eauto.
Qed.

(** A node that is not empty keeps its two bounds apart. *)
Lemma right_of_raise {h} lo lo' hi ks (cs : list (node V h)) (c : node V h) :
  node_ok true lo' (before hi ks) c -> right_of (node_ok true) lo hi ks cs -> right_of (node_ok true) lo' hi ks cs.
Proof using Type.
  intros Hc. destruct ks as [|k ks]; [easy|]. cbn [right_of before] in *. intros [[_ Hu] H]. split; [|exact H]. split; [|exact Hu].
  destruct (nonempty_bounds _ _ _ Hc) as (x & [Ha Hx] & _). destruct lo'; cbn in *; [lia|easy].
Qed.

(** Splitting a child in two. *)
Lemma between_keys_grow {h} lo hi ks1 ks2 (cs1 : list (node V h)) c cs2 c1 sep c2 :
  length ks1 = length cs1 -> between_keys (node_ok true) lo hi (ks1 ++ ks2) (cs1 ++ c :: cs2) ->
  within (after lo ks1) (before hi ks2) sep ->
  node_ok true (after lo ks1) (Some sep) c1 -> node_ok true (Some sep) (before hi ks2) c2 ->
  between_keys (node_ok true) lo hi (ks1 ++ sep :: ks2) (cs1 ++ c1 :: c2 :: cs2).
Proof using Type.
  intros Hlen H Hw H1 H2. rewrite between_keys_mid in H by done. destruct H as (Hl & _ & Hr).
  apply between_keys_pair; [done|]. split_and!; auto; [|now apply (right_of_raise (after lo ks1) _ _ _ _ c2)].
  destruct Hw as [Ha Hb]. split; [exact Ha|]. destruct ks2 as [|k ks2]; [exact Hb|]. destruct Hr as [[_ Hu] _]. destruct hi; cbn in *; [lia|easy].
Qed.

Lemma inner_insert_at {A} ks1 ks2 (cs1 : list A) c1 c2 cs2 sep :
  length ks1 = length cs1 -> ascending (ks1 ++ ks2) -> (forall x, x ∈ ks1 -> x < sep) -> (forall x, x ∈ ks2 -> sep <= x) ->
  inner_insert sep c2 (Inner (ks1 ++ ks2) (cs1 ++ c1 :: cs2)) = Inner (ks1 ++ sep :: ks2) (cs1 ++ c1 :: c2 :: cs2).
Proof using Type.
  intros Hlen Hs H1 H2. unfold inner_insert. cbn [i_keys i_children]. rewrite lowerBound_below, below_app by done.
  unfold splice. rewrite take_app_length, drop_app_length, Hlen, take_app_length, drop_app_length. f_equal. unfold swap_children.
  rewrite list_lookup_middle by done. rewrite lookup_app_r by lia. replace (S (length cs1) - length cs1)%nat with 1%nat by lia. cbn.
  rewrite insert_app_r_alt by lia. rewrite Nat.sub_diag. cbn. rewrite insert_app_r_alt by lia.
  now replace (S (length cs1) - length cs1)%nat with 1%nat by lia.
Qed.

Lemma set_child_at {A} ks (cs1 : list A) c c' cs2 : set_child (length cs1) c' (Inner ks (cs1 ++ c :: cs2)) = Inner ks (cs1 ++ c' :: cs2).
Proof using Type. unfold set_child. cbn [i_keys i_children]. f_equal. rewrite insert_app_r_alt by lia. now rewrite Nat.sub_diag. Qed.
End nodes.
