(* ===== verification/BTreeInsert.v ===== *)
(** * Insertion into a B+ tree

    Splitting keeps the order and the entries of a tree, and a pass of an
    insertion either splits an inner node, which lowers the potential, or
    inserts. *)

From S2P Require Import Prelude BTreeNode BTree BTreeInv.

Section insertion.
Context {V : Type} (leaf_max inner_max : nat).

#[local] Abbreviation nok m := (@node_ok V leaf_max inner_max m _).
#[local] Abbreviation iok h m := (@node_ok V leaf_max inner_max m (S h)).
#[local] Abbreviation leaf_ok m := (@node_ok V leaf_max inner_max m 0).

(** ** What a method does to a leaf *)

Record leaf_op (k : Z) (f : leaf V -> bool * leaf V) (g : list (Z * V) -> list (Z * V)) (b : list (Z * V) -> bool) : Prop := LeafOp {
  op_result l : ascending (l_keys l) -> f l = (b (l_data l), with_data (g (l_data l)) l);
  op_keys d x : x ∈ fst <$> g d -> x = k \/ x ∈ fst <$> d;
  op_ascending d : ascending (fst <$> d) -> ascending (fst <$> g d);
  op_length d : ascending (fst <$> d) -> length (g d) = (length d + if b d then 1 else 0)%nat;
  op_left d1 d2 : (forall x, x ∈ fst <$> d1 -> x < k) -> g (d1 ++ d2) = d1 ++ g d2 /\ b (d1 ++ d2) = b d2;
  op_right d1 d2 : (forall x, x ∈ fst <$> d2 -> k < x) -> g (d1 ++ d2) = g d1 ++ d2 /\ b (d1 ++ d2) = b d1
}.

Lemma key_at_has k (l : leaf V) :
  ascending (l_keys l) -> key_at (lowerBound (l_keys l) k) k l = has k (l_data l).
Proof using Type.
  intros Hs. unfold key_at, has. destruct (entries_split (l_data l) k Hs) as (d1 & d2 & E & Hpos & H1 & H2).
  unfold l_keys in *. rewrite Hpos, E in *. rewrite fmap_app in *. rewrite lookup_app_r by (rewrite length_fmap; lia).
  rewrite length_fmap, Nat.sub_diag. apply ascending_app in Hs as (_ & Hs & _).
  rewrite get_app_r by (intros x Hx; specialize (H1 x Hx); lia).
  pose proof (split_head d2 k Hs H2) as Hh. destruct d2 as [|[x v] r]; cbn [fmap list_fmap fst]; [easy|].
  cbn [lookup list_lookup]. destruct Hh as [(-> & Hg & _)|(Hlt & Hg & _)]; rewrite Hg.
  - apply Z.eqb_refl.
  - apply Z.eqb_neq. lia.
Qed.

Lemma leaf_insert_op k v : leaf_op k (leaf_insert k v) (put k v) (fun d => negb (has k d)).
Proof using Type.
  constructor.
  - intros l Hs. unfold leaf_insert. rewrite key_at_has by done.
    destruct (entries_split (l_data l) k Hs) as (d1 & d2 & E & Hpos & H1 & H2). unfold l_keys in *. rewrite Hpos, E.
    rewrite put_app_r by done. rewrite E, fmap_app in Hs. apply ascending_app in Hs as (_ & Hs & _).
    pose proof (split_head d2 k Hs H2) as Hh. unfold has. rewrite get_app_r by (intros x Hx; specialize (H1 x Hx); lia).
    unfold splice. rewrite take_app_length, drop_app_length. destruct d2 as [|[x w] r]; [easy|].
    destruct Hh as [(-> & Hg & _)|(Hlt & Hg & _)]; rewrite Hg; cbn [negb put].
    + rewrite Z.ltb_irrefl, Z.eqb_refl, <- E. now destruct l.
    + rewrite (proj2 (Z.ltb_ge _ _)), (proj2 (Z.eqb_neq _ _)) by lia. easy.
  - intros d x. apply put_keys.
  - intros d. apply put_ascending.
  - intros d Hd. rewrite put_length by done. now destruct (has k d).
  - intros d1 d2 H. rewrite put_app_r by done. split; [easy|]. unfold has. rewrite get_app_r; [easy|].
    intros x Hx. specialize (H x Hx). lia.
  - intros d1 d2 H. rewrite put_app_l by done. split; [easy|]. unfold has. rewrite get_app_l; [easy|].
    intros x Hx. specialize (H x Hx). lia.
Qed.

Lemma no_op k : leaf_op k (fun l => (false, l)) (fun d => d) (fun _ => false).
Proof using Type. constructor; [|now right|easy|intros; lia|easy|easy]. intros l _. now destruct l. Qed.

(** ** Splitting *)

(** The leaf [l] replaced by leaves with the entries [d]; the one that is new has
    the address [addr]. *)
Inductive replaced (addr : Z) (l : leaf V) (d : list (Z * V)) : list (leaf V) -> list event -> Prop :=
| replaced_one : replaced addr l d [with_data d l] []
| replaced_two a b :
    l_addr a = l_addr l -> l_next a = Some addr -> l_addr b = addr -> l_next b = l_next l -> l_data a ++ l_data b = d ->
    replaced addr l d [a; b] [SplitLeaf].

Lemma replaced_pair addr l d a b es :
  replaced addr l d [a; b] es ->
  l_addr a = l_addr l /\ l_next a = Some addr /\ l_addr b = addr /\ l_next b = l_next l /\ l_data a ++ l_data b = d /\ es = [SplitLeaf].
Proof using Type. inversion 1. now subst. Qed.

Lemma leaf_split_ok addr m lo hi l :
  leaf_ok m lo hi l -> (2 <= length (l_data l))%nat ->
  exists a sep b, leaf_split addr l = Some (a, sep, b) /\ leaf_ok true lo (Some sep) a /\ leaf_ok true (Some sep) hi b /\
    within lo hi sep /\ replaced addr l (l_data l) [a; b] [SplitLeaf] /\
    (length (l_data a) < length (l_data l))%nat /\ (length (l_data b) < length (l_data l))%nat.
Proof using Type.
  intros (Hs & Hk & Hmax & _) Hlen. set (keep := (length (l_data l) - (length (l_data l) - length (l_data l) / 2))%nat).
  assert (Hkeep : (1 <= keep < length (l_data l))%nat).
  { unfold keep. pose proof (Nat.div_le_lower_bound (length (l_data l)) 2 1). pose proof (Nat.div_lt (length (l_data l)) 2). lia. }
  set (d1 := take keep (l_data l)). set (d2 := drop keep (l_data l)).
  assert (Hd : l_data l = d1 ++ d2) by (symmetry; apply take_drop).
  assert (H1 : length d1 = keep) by (unfold d1; rewrite length_take; lia).
  assert (H2 : length d2 = (length (l_data l) - keep)%nat) by (unfold d2; rewrite length_drop; lia).
  unfold leaf_split. fold keep d1 d2. unfold l_keys in *. cbn [l_data with_data with_next]. rewrite Hd, fmap_app in Hs, Hk.
  apply ascending_app in Hs as (Hs1 & Hs2 & Hs12).
  destruct (last (fst <$> d1)) as [sep|] eqn:Esep.
  2:{ apply last_None in Esep. apply (f_equal length) in Esep. rewrite length_fmap in Esep. cbn in Esep. lia. }
  assert (Hsep : sep ∈ fst <$> d1) by (apply last_Some in Esep as (r & ->); apply elem_of_app; right; now left).
  assert (Hle : forall x, x ∈ fst <$> d1 -> x <= sep).
  { apply last_Some in Esep as (r & E). rewrite E in *. apply ascending_app in Hs1 as (_ & _ & H). intros x [Hx|Hx]%elem_of_app.
    - specialize (H x sep Hx). rewrite elem_of_cons in H. specialize (H (or_introl eq_refl)). lia.
    - apply elem_of_cons in Hx as [->|Hx]; [lia|now apply elem_of_nil in Hx]. }
  do 3 eexists. split; [reflexivity|]. split_and!.
  - split_and!; [exact Hs1| |cbn; lia|intros _ E; cbn in E; rewrite E in H1; cbn in H1; lia].
    intros k Hx. split; [apply Hk, elem_of_app; now left|]. cbn. now apply Hle.
  - split_and!; [exact Hs2| |cbn; lia|intros _ E; cbn in E; rewrite E in H2; cbn in H2; lia].
    intros k Hx. split; [|apply Hk, elem_of_app; now right]. cbn. now apply Hs12.
  - apply Hk, elem_of_app. now left.
  - apply replaced_two; cbn; auto.
  - cbn. lia.
  - cbn. lia.
Qed.

(** The half for the key after the method has worked on it. *)
Lemma leaf_op_ok k f g b m lo hi l :
  leaf_op k f g b -> leaf_ok m lo hi l -> within lo hi k -> (length (l_data l) < leaf_max)%nat ->
  f l = (b (l_data l), with_data (g (l_data l)) l) /\ leaf_ok m lo hi (with_data (g (l_data l)) l).
Proof using Type.
  intros Hop (Hs & Hk & Hmax & Hm) Hw Hlt. split; [now apply (op_result k f g b Hop)|]. unfold l_keys in *. cbn. split_and!.
  - now apply (op_ascending k f g b Hop).
  - intros x Hx. destruct (op_keys k f g b Hop _ _ Hx) as [->|Hin]; [exact Hw|now apply Hk].
  - pose proof (op_length k f g b Hop (l_data l) Hs). destruct (b (l_data l)); cbn in *; lia.
  - intros Hm' E. apply (Hm Hm'). pose proof (op_length k f g b Hop (l_data l) Hs) as Hl. cbn in E. rewrite E in Hl. cbn in Hl.
    destruct (l_data l); [easy|cbn in Hl; lia].
Qed.

(** A key between two children is between the keys on both sides. *)
Lemma sep_between lo hi ks1 ks2 sep :
  ascending (ks1 ++ ks2) -> within (after lo ks1) (before hi ks2) sep ->
  (forall x, x ∈ ks1 -> x < sep) /\ (forall x, x ∈ ks2 -> sep <= x).
Proof using Type.
  intros (H1 & H2 & _)%ascending_app [Ha Hb]. split.
  - unfold after in Ha. destruct (last ks1) as [y|] eqn:E.
    + apply last_Some in E as (r & ->). apply ascending_app in H1 as (_ & _ & H). cbn in Ha. intros x [Hx|Hx]%elem_of_app.
      * assert (x < y) by (apply H; [exact Hx|now left]). lia.
      * apply elem_of_cons in Hx as [->|Hx]; [lia|now apply elem_of_nil in Hx].
    + apply last_None in E as ->. intros x Hx. now apply elem_of_nil in Hx.
  - destruct ks2 as [|y ks2]; [intros x Hx; now apply elem_of_nil in Hx|]. cbn in Hb. apply ascending_cons in H2 as [_ H].
    intros x [->|Hx]%elem_of_cons; [lia|]. specialize (H x Hx). lia.
Qed.

Lemma potential_app {h} (cs1 cs2 : list (node V h)) :
  sum_list (potential <$> (cs1 ++ cs2)) = (sum_list (potential <$> cs1) + sum_list (potential <$> cs2))%nat.
Proof using Type. rewrite fmap_app. apply sum_list_with_app. Qed.

Lemma potential_inner {h} ks (cs : list (node V h)) :
  potential (h := S h) (Inner ks cs) = (length ks * length ks + sum_list (potential <$> cs))%nat.
Proof using Type. easy. Qed.

(** The squares of the counts after a split: of the halves and of the parent. *)
Lemma split_squares count p keep :
  (4 <= count)%nat -> (p < count)%nat -> keep = (count - (count - count / 2) - 1)%nat ->
  (keep * keep + (count - 1 - keep) * (count - 1 - keep) + (p + 1) * (p + 1) < count * count + p * p)%nat.
Proof using Type.
  intros Hc Hp Hk. assert (count = 2 * keep + 2 \/ count = 2 * keep + 3)%nat as [->| ->]; [|nia|nia].
  pose proof (Nat.div_mod_eq count 2). pose proof (Nat.mod_upper_bound count 2). lia.
Qed.

(** The page sizes give at least this much room. *)
Context (Hleaf : (3 <= leaf_max)%nat) (Hinner : (5 <= inner_max)%nat).

Lemma split_full_ok k f g b restarts addr m lo hi l :
  leaf_op k f g b -> leaf_ok m lo hi l -> within lo hi k -> length (l_data l) = leaf_max ->
  exists a sep c X es p, split_full restarts addr k f l = Some (p, es) /\ X = [a; c] /\
    leaf_ok true lo (Some sep) a /\ leaf_ok true (Some sep) hi c /\ within lo hi sep /\
    if restarts : bool then p = Restart (a, sep, c) /\ es = [SplitLeaf] /\ replaced addr l (l_data l) X es
    else exists es0, p = Done (b (l_data l)) (a, sep, c) /\ es = es0 ++ did (b (l_data l)) /\ replaced addr l (g (l_data l)) X es0.
Proof using Hleaf Hinner.
  intros Hop Hl Hk Hfull. destruct (leaf_split_ok addr m lo hi l Hl ltac:(lia)) as (a & sep & c & E & Ha & Hc & Hsep & Hrep & Hla & Hlc).
  unfold split_full. rewrite E. cbn [mbind option_bind].
  destruct (replaced_pair _ _ _ _ _ _ Hrep) as (H1 & H2 & H3 & H4 & H5 & _). destruct restarts; [now exists a, sep, c, [a; c], [SplitLeaf], (Restart (a, sep, c))|].
  pose proof Ha as (_ & Hka & _). pose proof Hc as (_ & Hkc & _). destruct (Z.ltb_spec sep k).
  - destruct (leaf_op_ok k f g b true (Some sep) hi c Hop Hc) as [Ef Hok]; [split; [easy|apply Hk]|lia|]. rewrite Ef.
    destruct (op_left k f g b Hop (l_data a) (l_data c)) as [Eg Eb].
    { intros x Hx. destruct (Hka x Hx) as [_ Hx']. cbn in Hx'. lia. }
    rewrite <- H5, Eg, Eb. exists a, sep, (with_data (g (l_data c)) c), [a; with_data (g (l_data c)) c]. do 2 eexists.
    split; [reflexivity|]. split_and!; auto. exists [SplitLeaf]. split_and!; auto. now apply replaced_two.
  - destruct (leaf_op_ok k f g b true lo (Some sep) a Hop Ha) as [Ef Hok]; [split; [apply Hk|easy]|lia|]. rewrite Ef.
    destruct (op_right k f g b Hop (l_data a) (l_data c)) as [Eg Eb].
    { intros x Hx. destruct (Hkc x Hx) as [Hx' _]. cbn in Hx'. lia. }
    rewrite <- H5, Eg, Eb. exists (with_data (g (l_data a)) a), sep, c, [with_data (g (l_data a)) a; c]. do 2 eexists.
    split; [reflexivity|]. split_and!; auto. exists [SplitLeaf]. split_and!; auto. now apply replaced_two.
Qed.

Lemma inner_split_ok {h} lo hi (n : inner (node V h)) :
  iok h true lo hi n -> inner_full inner_max n = true ->
  exists c1 sep c2, inner_split n = Some (c1, sep, c2) /\ iok h true lo (Some sep) c1 /\ iok h true (Some sep) hi c2 /\
    within lo hi sep /\ leaves (h := S h) c1 ++ leaves (h := S h) c2 = leaves (h := S h) n /\
    forall p, (p < inner_max - 1)%nat ->
      (potential (h := S h) c1 + potential (h := S h) c2 + (p + 1) * (p + 1) < potential (h := S h) n + p * p)%nat.
Proof using Hleaf Hinner.
  destruct n as [ks cs]. intros (Hmax & _ & Hc) Hfull. cbn [i_keys i_children] in *. unfold inner_full in Hfull. cbn [i_keys] in Hfull.
  apply Nat.eqb_eq in Hfull. unfold inner_split. cbn [i_keys i_children].
  set (keep := (length ks - (length ks - length ks / 2) - 1)%nat).
  assert (Hkeep : (1 <= keep /\ S keep < length ks)%nat).
  { unfold keep. pose proof (Nat.div_mod_eq (length ks) 2). pose proof (Nat.mod_upper_bound (length ks) 2). lia. }
  destruct (lookup_lt_is_Some_2 ks keep ltac:(lia)) as [sep Hsep]. rewrite Hsep. cbn [mbind option_bind].
  pose proof (between_keys_length _ _ _ _ _ Hc) as Hlen.
  assert (Ek : ks = take keep ks ++ sep :: drop (S keep) ks) by (now rewrite take_drop_middle).
  destruct (lookup_lt_is_Some_2 cs keep ltac:(lia)) as [c Hck].
  assert (Ec : cs = (take keep cs ++ [c]) ++ drop (S keep) cs) by (rewrite <- app_assoc; cbn; now rewrite take_drop_middle).
  assert (Ec' : take (S keep) cs = take keep cs ++ [c]) by (now apply take_S_r).
  destruct (between_keys_ascending _ _ _ _ _ Hc) as [Hasc Hwin]. pose proof Hasc as Hasc'. rewrite Ek in Hasc'.
  apply ascending_app in Hasc' as (_ & _ & Hasc12). rewrite Ek, Ec, <- app_assoc in Hc. cbn [app] in Hc.
  assert (Hdrop : exists b r, drop (S keep) cs = b :: r).
  { destruct (drop (S keep) cs) eqn:E; [|eauto]. apply (f_equal length) in E. rewrite length_drop in E. cbn in E. lia. }
  destruct Hdrop as (b & r & Ed). rewrite Ed in Hc.
  rewrite between_keys_pair in Hc by (rewrite !length_take; lia). destruct Hc as (Hl & Hw & Ha & Hb & Hr).
  do 3 eexists. split; [reflexivity|]. split_and!.
  - apply inner_ok. rewrite length_take. split; [lia|]. split.
    { intros _ E. apply (f_equal length) in E. rewrite length_take in E. cbn in E. lia. }
    rewrite Ec'. rewrite <- (app_nil_r (take keep ks)). rewrite between_keys_mid by (rewrite !length_take; lia).
    cbn [before right_of]. split_and!; [|exact Ha|easy].
    apply (left_of_upper _ _ hi); [|exact Hl]. intros k Hk. cbn. assert (k < sep); [|lia]. apply Hasc12; [exact Hk|now left].
  - apply inner_ok. rewrite length_drop. split; [lia|]. split.
    { intros _ E. apply (f_equal length) in E. rewrite length_drop in E. cbn in E. lia. }
    rewrite Ed. rewrite between_keys_cons. split; [exact Hb|exact Hr].
  - apply Hwin. rewrite Ek. apply elem_of_app. right. now left.
  - rewrite !leaves_inner. rewrite Ec', Ed. rewrite <- leaves_of_app. rewrite <- Ed, <- Ec. easy.
  - intros p Hp. rewrite !potential_inner. rewrite length_take, length_drop.
    replace (min keep (length ks)) with keep by lia. replace (length ks - S keep)%nat with (length ks - 1 - keep)%nat by lia.
    pose proof (split_squares (length ks) p keep ltac:(lia) ltac:(lia) eq_refl).
    rewrite <- (take_drop (S keep) cs) at 3. rewrite potential_app. lia.
Qed.

(** Leaves with room for another entry. *)
Definition halves (X : list (leaf V)) : Prop := forall x, x ∈ X -> (length (l_data x) < leaf_max)%nat.

Lemma split_halves lo sep hi l a c addr es :
  leaf_ok true lo sep a -> leaf_ok true sep hi c -> replaced addr l (l_data l) [a; c] es -> length (l_data l) = leaf_max -> halves [a; c].
Proof using Hleaf Hinner.
  intros (_ & _ & _ & Ha) (_ & _ & _ & Hc) Hrep Hl x Hx. apply replaced_pair in Hrep as (_ & _ & _ & _ & E & _).
  rewrite <- E, length_app in Hl. destruct (l_data a) eqn:Ea, (l_data c) eqn:Ec; try (now destruct Ha) || (now destruct Hc).
  cbn in Hl. apply elem_of_cons in Hx as [->|Hx]; [rewrite Ea; cbn; lia|]. apply elem_of_cons in Hx as [->|Hx]; [rewrite Ec; cbn; lia|].
  now apply elem_of_nil in Hx.
Qed.

(** What a pass through the tree has done. *)
Definition pass_ok (restarts : bool) (addr k : Z) (g : list (Z * V) -> list (Z * V)) (b : list (Z * V) -> bool) {h} lo hi
    (n : inner (node V h)) (p : pass (inner (node V h))) (es : list event) : Prop :=
  exists L1 l L2, leaves (h := S h) n = L1 ++ l :: L2 /\ find_leaf (h := S h) k n = Some l /\ around k L1 L2 /\
  match p with
  | Done ok n' =>
      iok h true lo hi n' /\ ok = b (l_data l) /\
      exists X es0, leaves (h := S h) n' = L1 ++ X ++ L2 /\ replaced addr l (g (l_data l)) X es0 /\ es = es0 ++ did ok /\
        (restarts = true -> es0 = [])
  | Restart n' =>
      iok h true lo hi n' /\
      ((leaves (h := S h) n' = leaves (h := S h) n /\ es = [SplitInner] /\ (potential (h := S h) n' < potential (h := S h) n)%nat) \/
       (restarts = true /\ length (l_data l) = leaf_max /\ es = [SplitLeaf] /\
        (exists X, leaves (h := S h) n' = L1 ++ X ++ L2 /\ replaced addr l (l_data l) X es /\ halves X) /\
        (potential (h := S h) n' <= potential (h := S h) n + 2 * inner_max)%nat))
  end.

(** An inner node after one of its children was split. *)
Lemma grown_ok {h} lo hi ks1 ks2 (cs1 : list (node V h)) c cs2 c1 sep c2 :
  length ks1 = length cs1 -> iok h true lo hi (Inner (ks1 ++ ks2) (cs1 ++ c :: cs2)) ->
  inner_full inner_max (Inner (ks1 ++ ks2) (cs1 ++ c :: cs2)) = false ->
  within (after lo ks1) (before hi ks2) sep -> nok true (after lo ks1) (Some sep) c1 -> nok true (Some sep) (before hi ks2) c2 ->
  inner_insert sep c2 (set_child (length cs1) c1 (Inner (ks1 ++ ks2) (cs1 ++ c :: cs2))) = Inner (ks1 ++ sep :: ks2) (cs1 ++ c1 :: c2 :: cs2) /\
  iok h true lo hi (Inner (ks1 ++ sep :: ks2) (cs1 ++ c1 :: c2 :: cs2)).
Proof using Hleaf Hinner.
  intros Hlen (Hmax & _ & Hc) Hfull Hw H1 H2. cbn [i_keys i_children] in *. unfold inner_full in Hfull. cbn [i_keys] in Hfull.
  apply Nat.eqb_neq in Hfull. destruct (between_keys_ascending _ _ _ _ _ Hc) as [Hs _].
  destruct (sep_between _ _ _ _ _ Hs Hw) as [Hs1 Hs2]. rewrite set_child_at, inner_insert_at by done. split; [easy|].
  apply inner_ok. rewrite length_app in *. cbn [length]. split_and!; [lia|now destruct ks1|]. eapply between_keys_grow; eauto.
Qed.

Lemma insert_in_leaf restarts addr k f ks (cs : list (node V 0)) :
  insert_in leaf_max inner_max restarts addr k f (h := 0) (Inner ks cs) =
  mbind (A := node V 0) (fun l : node V 0 =>
   if leaf_full leaf_max l then
     '(p, es) ← split_full restarts addr k f l;
     Some (pass_map (fun '(l1, sep, l2) => inner_insert sep l2 (set_child (lowerBound ks k) l1 (Inner ks cs))) p, es)
   else let '(ok, l') := f l in Some (Done ok (set_child (lowerBound ks k) l' (Inner ks cs)), did ok)) (cs !! lowerBound ks k).
Proof using Type. easy. Qed.

Lemma insert_in_inner restarts addr k f {h} ks (cs : list (node V (S h))) :
  insert_in leaf_max inner_max restarts addr k f (h := S h) (Inner ks cs) =
  mbind (A := node V (S h)) (fun c : node V (S h) =>
   if inner_full inner_max (A := node V h) c then
     '(c1, sep, c2) ← inner_split (A := node V h) c;
     Some (Restart (inner_insert sep (c2 : node V (S h)) (set_child (lowerBound ks k) (c1 : node V (S h)) (Inner ks cs))), [SplitInner])
   else
     '(p, es) ← insert_in leaf_max inner_max restarts addr k f c;
     Some (pass_map (fun c' => set_child (lowerBound ks k) c' (Inner ks cs)) p, es)) (cs !! lowerBound ks k).
Proof using Type. easy. Qed.

Lemma insert_in_ok restarts addr k f g b {h} :
  leaf_op k f g b -> forall lo hi (n : inner (node V h)),
  iok h true lo hi n -> inner_full inner_max n = false -> within lo hi k ->
  exists p es, insert_in leaf_max inner_max restarts addr k f n = Some (p, es) /\ pass_ok restarts addr k g b lo hi n p es.
Proof using Hleaf Hinner.
  intros Hop. induction h as [|h IH]; intros lo hi [ks cs] Hn Hfull Hk; pose proof Hn as (Hmax & _ & Hc); cbn [i_keys i_children] in Hmax, Hc;
    destruct (pick_child _ _ _ _ _ k Hc Hk) as (ks1 & ks2 & cs1 & c & cs2 & -> & -> & Hlen & Hpos & Hget & Hw & H1 & H2);
    pose proof Hc as Hc'; rewrite between_keys_mid in Hc' by done; destruct Hc' as (Hl & Hcok & Hr);
    [rewrite insert_in_leaf|rewrite insert_in_inner]; rewrite Hpos, Hget; cbn [mbind option_bind].
  - assert (Haround : around k (leaves_of cs1) (leaves_of cs2)).
    { rewrite <- (app_nil_r (leaves_of cs1)), <- (app_nil_l (leaves_of cs2)). eapply around_child; eauto.
      split; intros x Hx; now apply elem_of_nil in Hx. }
    assert (Hlv : leaves (h := 1) (Inner (ks1 ++ ks2) (cs1 ++ c :: cs2)) = leaves_of cs1 ++ c :: leaves_of cs2).
    { now rewrite leaves_inner, leaves_of_app, leaves_of_cons. }
    assert (Hfind : find_leaf (h := 1) k (Inner (ks1 ++ ks2) (cs1 ++ c :: cs2)) = Some c).
    { rewrite find_leaf_inner, Hpos, Hget. easy. }
    destruct (leaf_full leaf_max c) eqn:Hcf.
    + unfold leaf_full in Hcf. apply Nat.eqb_eq in Hcf.
      destruct (split_full_ok k f g b restarts addr true _ _ c Hop Hcok Hw Hcf) as (a & sep & c2 & X & es & p & -> & -> & Ha & Hc2 & Hsep & Hres).
      cbn [mbind option_bind]. destruct (grown_ok lo hi ks1 ks2 cs1 c cs2 a sep c2 Hlen Hn Hfull Hsep Ha Hc2) as [E Hok].
      assert (Hlv' : leaves (h := 1) (Inner (ks1 ++ sep :: ks2) (cs1 ++ a :: c2 :: cs2)) = leaves_of cs1 ++ [a; c2] ++ leaves_of cs2).
      { now rewrite leaves_inner, leaves_of_app, !leaves_of_cons. }
      destruct restarts; [destruct Hres as (-> & -> & Hrep)|destruct Hres as (es0 & -> & -> & Hrep)];
        do 2 eexists; (split; [reflexivity|]); cbn [pass_map]; rewrite E; exists (leaves_of cs1), c, (leaves_of cs2); split_and!; auto.
      * right. split_and!; auto; [eauto 6 using split_halves|]. rewrite !potential_inner, !potential_app, !length_app. cbn. rewrite length_app in Hmax. nia.
      * do 2 eexists. split_and!; [exact Hlv'|exact Hrep|easy|easy].
    + unfold leaf_full in Hcf. apply Nat.eqb_neq in Hcf. pose proof Hcok as (_ & _ & Hcmax & _).
      destruct (leaf_op_ok k f g b true _ _ c Hop Hcok Hw ltac:(lia)) as [Ef Hok]. rewrite Ef.
      do 2 eexists. split; [reflexivity|]. exists (leaves_of cs1), c, (leaves_of cs2). rewrite set_child_at. split_and!; auto.
      * apply inner_ok. split_and!; [exact Hmax|apply Hn|]. apply between_keys_mid; auto.
      * exists [with_data (g (l_data c)) c], []. split_and!; [|constructor|easy|easy].
        transitivity (leaves_of (cs1 ++ (with_data (g (l_data c)) c : node V 0) :: cs2)); [easy|]. now rewrite leaves_of_app, leaves_of_cons.
  - destruct (inner_full inner_max (A := node V h) c) eqn:Hcf.
    + destruct (inner_split_ok _ _ c Hcok Hcf) as (c1 & sep & c2 & -> & Hc1 & Hc2 & Hsep & Hlv & Hpot). cbn [mbind option_bind].
      destruct (grown_ok lo hi ks1 ks2 cs1 c cs2 c1 sep c2 Hlen Hn Hfull Hsep Hc1 Hc2) as [E Hok].
      destruct (find_leaf_ok _ _ k _ _ _ _ Hn Hk) as (L1 & l & L2 & Hf & Hlvs & Har & _).
      do 2 eexists. split; [reflexivity|]. exists L1, l, L2. split; [exact Hlvs|]. split; [exact Hf|]. split; [exact Har|]. rewrite E. split; [exact Hok|].
      left. split_and!; [|easy|].
      * rewrite !leaves_inner, !leaves_of_app, !leaves_of_cons. rewrite (app_assoc (leaves (h := S h) c1)). now rewrite Hlv.
      * unfold inner_full in Hfull. apply Nat.eqb_neq in Hfull. cbn [i_keys] in Hfull. rewrite !potential_inner, !potential_app, !length_app in *. cbn [length fmap list_fmap sum_list sum_list_with].
        specialize (Hpot (length ks1 + length ks2)%nat ltac:(lia)). cbn in Hpot |- *. nia.
    + destruct (IH _ _ c Hcok Hcf Hw) as (p & es & -> & L1 & l & L2 & Hlv & Hf & Har & Hp). cbn [mbind option_bind].
      do 2 eexists. split; [reflexivity|]. exists (leaves_of cs1 ++ L1), l, (L2 ++ leaves_of cs2).
      assert (Hset : forall c', iok h true (after lo ks1) (before hi ks2) c' -> iok (S h) true lo hi (Inner (ks1 ++ ks2) (cs1 ++ (c' : node V (S h)) :: cs2))).
      { intros c' Hc'. apply inner_ok. split_and!; [exact Hmax|apply Hn|]. apply between_keys_mid; auto. }
      assert (Hleaves : forall c' X, leaves (h := S h) c' = L1 ++ X ++ L2 ->
        leaves (h := S (S h)) (Inner (ks1 ++ ks2) (cs1 ++ (c' : node V (S h)) :: cs2)) = (leaves_of cs1 ++ L1) ++ X ++ (L2 ++ leaves_of cs2)).
      { intros c' X E. rewrite leaves_inner, leaves_of_app, leaves_of_cons, E. now rewrite <- !app_assoc. }
      assert (Hpotl : forall c' d, (potential (h := S h) c' < potential (h := S h) c + d)%nat ->
        (potential (h := S (S h)) (Inner (ks1 ++ ks2) (cs1 ++ (c' : node V (S h)) :: cs2)) < potential (h := S (S h)) (Inner (ks1 ++ ks2) (cs1 ++ c :: cs2)) + d)%nat).
      { intros c' d E. rewrite !potential_inner, !potential_app. cbn in E |- *. lia. }
      split; [now apply (Hleaves c [l])|]. split; [now rewrite find_leaf_inner, Hpos, Hget|]. split; [eapply around_child; eauto|].
      destruct p as [c'|ok c']; cbn [pass_map]; rewrite set_child_at.
      * destruct Hp as (Hok & [(E & -> & Hlt)|(-> & Hll & -> & (X & E & Hrep & Hhalf) & Hle)]).
        -- split; [now apply Hset|]. left. split_and!; [|easy|].
           ++ rewrite !leaves_inner, !leaves_of_app, !leaves_of_cons. now rewrite E.
           ++ specialize (Hpotl c' 0%nat). rewrite !Nat.add_0_r in Hpotl. now apply Hpotl.
        -- split; [now apply Hset|]. right. split_and!; auto; [exists X; split_and!; [now apply Hleaves|exact Hrep|exact Hhalf]|].
           specialize (Hpotl c' (S (2 * inner_max))). lia.
      * destruct Hp as (Hok & -> & X & es0 & E & Hrep & -> & Hes). split_and!; [now apply Hset|easy|]. exists X, es0. split_and!; auto.
Qed.
End insertion.
