(* ===== verification/BTreeTree.v ===== *)
(** * Insertion and lookup in a tree

    The invariant of a tree: its order, the links between its leaves, and its
    counters; lookups and insertions refine an ordered association list. *)

From S2P Require Import Prelude BTreeNode BTree BTreeInv BTreeInsert.

Section links.
Context {V : Type}.
Implicit Types (L : list (leaf V)) (l : leaf V).

Definition first_addr L (nx : option Z) : option Z := match L with l :: _ => Some (l_addr l) | [] => nx end.

(** The [next_] links run through the leaves, in order, and end in [nx]. *)
Fixpoint linked L (nx : option Z) : Prop :=
  match L with l :: L => l_next l = first_addr L nx /\ linked L nx | [] => True end.

Lemma linked_app L1 L2 nx : linked (L1 ++ L2) nx <-> linked L1 (first_addr L2 nx) /\ linked L2 nx.
Proof.
  induction L1 as [|l L1 IH]; cbn; [tauto|]. rewrite IH. destruct L1; cbn; tauto.
Qed.

(** The leaves of a tree whose next new leaf has the address [a]. *)
Record leaves_ok (a : Z) L : Prop := LeavesOk {
  lv_linked : linked L None;
  lv_addrs : NoDup (l_addr <$> L);
  lv_fresh : Forall (fun x => x < a) (l_addr <$> L)
}.

Lemma replaced_first addr l d X es L2 nx : replaced addr l d X es -> first_addr (X ++ L2) nx = Some (l_addr l).
Proof. destruct 1; cbn; congruence. Qed.

Lemma replaced_ents addr l d X es : replaced addr l d X es -> ents X = d.
Proof. destruct 1; unfold ents; cbn; rewrite app_nil_r; auto. Qed.

Lemma replaced_leaves_ok a l d X es L1 L2 :
  leaves_ok a (L1 ++ l :: L2) -> replaced a l d X es -> leaves_ok (a + Z.of_nat (length X) - 1) (L1 ++ X ++ L2).
Proof.
  intros [Hl Hn Hf] Hrep. apply linked_app in Hl as [Hl1 [Hl2 Hl3]]. rewrite fmap_app, fmap_cons in Hn, Hf.
  apply Forall_app in Hf as [Hf1 Hf2]. apply Forall_cons in Hf2 as [Hfl Hf2].
  assert (Hlk : linked (L1 ++ X ++ L2) None).
  { apply linked_app. rewrite (replaced_first _ _ _ _ _ _ _ Hrep). split; [exact Hl1|].
    destruct Hrep as [|x y H1 H2 H3 H4 H5]; cbn; [easy|]. split_and!; [congruence|congruence|exact Hl3]. }
  destruct Hrep as [|x y H1 H2 H3 H4 H5]; (constructor; [exact Hlk| |]); rewrite !fmap_app; cbn.
  - exact Hn.
  - apply Forall_app. split; [eapply Forall_impl; [exact Hf1|cbn; lia]|]. constructor; [cbn; lia|]. eapply Forall_impl; [exact Hf2|cbn; lia].
  - rewrite H1, H3. apply NoDup_app in Hn as (Hn1 & Hn12 & Hn2). apply NoDup_cons in Hn2 as [Hl' Hn2].
    assert (Ha : (a ∉ l_addr <$> L1) /\ (a ∉ l_addr <$> L2) /\ l_addr l <> a).
    { rewrite Forall_forall in Hf1, Hf2. split_and!; [intros Hin; specialize (Hf1 a Hin); lia|intros Hin; specialize (Hf2 a Hin); lia|lia]. }
    destruct Ha as (Ha1 & Ha2 & Ha3). apply NoDup_app. split_and!; [exact Hn1| |].
    + intros x' Hx' [->|[->|Hin]%elem_of_cons]%elem_of_cons.
      * apply (Hn12 (l_addr l)); [exact Hx'|now left].
      * contradiction.
      * apply (Hn12 x'); [exact Hx'|now right].
    + constructor; [intros [E|Hin]%elem_of_cons; [lia|contradiction]|]. now constructor.
  - rewrite H1, H3. apply Forall_app. split; [eapply Forall_impl; [exact Hf1|cbn; lia]|]. constructor; [lia|]. constructor; [lia|].
    eapply Forall_impl; [exact Hf2|cbn; lia].
Qed.
End links.

Section trees.
Context {V : Type} (leaf_max inner_max : nat).

#[local] Abbreviation nok m := (@node_ok V leaf_max inner_max m _).
#[local] Abbreviation iok h m := (@node_ok V leaf_max inner_max m (S h)).
#[local] Abbreviation tree := (@tree V).

Definition tree_entries (t : tree) : list (Z * V) := entries (root t).
Definition tree_leaves (t : tree) : list (leaf V) := leaves (root t).

Definition not_leaf (h : nat) : bool := match h with O => false | S _ => true end.

(** A well-formed tree: its nodes, the [next_] links, and the counters of items and
    leaves.  The [pre_] links and the counter of inner nodes, which the code does not
    keep up to date in every split, are left out. *)
Record tree_ok (t : tree) : Prop := TreeOk {
  to_nodes : nok (not_leaf (height t)) None None (root t);
  to_leaves : leaves_ok (next_addr t) (tree_leaves t);
  to_items : num_items t = wrap 64 (Z.of_nat (length (tree_entries t)));
  to_leaf_nodes : leaf_nodes t = wrap 64 (Z.of_nat (length (tree_leaves t)))
}.

Lemma new_tree_ok : tree_ok new_tree.
Proof using Type.
  constructor; try reflexivity.
  - cbn. split_and!; [constructor|intros k Hk; now apply elem_of_nil in Hk|lia|easy].
  - constructor; cbn; [easy|apply NoDup_singleton|]. constructor; [lia|constructor].
Qed.

(** ** Lookup *)

Lemma lookup_leaf_get k l : ascending (l_keys l) -> lookup_leaf k l = get k (l_data (V := V) l).
Proof using Type.
  intros Hs. unfold lookup_leaf. rewrite key_at_has by done. unfold has, l_keys in *.
  destruct (entries_split (l_data l) k Hs) as (d1 & d2 & E & Hpos & H1 & H2). rewrite Hpos, E in *.
  rewrite get_app_r by (intros x Hx; specialize (H1 x Hx); lia). rewrite lookup_app_r, Nat.sub_diag by lia.
  rewrite fmap_app in Hs. apply ascending_app in Hs as (_ & Hs & _). pose proof (split_head d2 k Hs H2) as Hh.
  destruct d2 as [|[x v] r]; [easy|]. destruct Hh as [(-> & Hg & _)|(_ & Hg & _)]; rewrite Hg; easy.
Qed.

(** The entries around those of a leaf do not have its keys. *)
Lemma get_around k L1 L2 l : around k L1 L2 -> get k (ents (L1 ++ l :: L2)) = get k (l_data (V := V) l).
Proof using Type.
  intros [H1 H2]. rewrite ents_app, ents_cons. rewrite get_app_r by (intros x Hx; specialize (H1 x Hx); lia).
  apply get_app_l. intros x Hx. specialize (H2 x Hx). lia.
Qed.

Lemma entries_ascending t : tree_ok t -> ascending (fst <$> tree_entries t).
Proof using Type. intros [Hn _ _ _]. exact (proj1 (node_keys _ _ _ _ _ _ Hn)). Qed.

Lemma lookup_ok t k : tree_ok t -> lookup k t = Some (get k (tree_entries t)).
Proof using Type.
  intros [Hn _ _ _]. destruct (find_leaf_ok _ _ k _ _ _ _ Hn) as (L1 & l & L2 & Hf & Hl & Har & Hok); [easy|].
  unfold lookup. rewrite Hf. cbn [mbind option_bind]. f_equal. unfold tree_entries, entries. rewrite Hl, get_around by done.
  apply lookup_leaf_get. exact (proj1 Hok).
Qed.

(** ** Insertion *)

Definition full_leaves (t : tree) : nat := length (filter (fun l => length (l_data l) = leaf_max) (tree_leaves t)).

(** The fuel that a method needs: splitting an inner node lowers the potential,
    splitting a leaf lowers the number of full leaves. *)
Definition fuel (t : tree) : nat := (potential (root t) + (2 * inner_max + 1) * full_leaves t)%nat.

(** What a pass has done to a tree. *)
Definition tree_pass_ok (restarts : bool) (k : Z) (g : list (Z * V) -> list (Z * V)) (b : list (Z * V) -> bool) (t : tree) (p : pass tree) : Prop :=
  exists L1 l L2, tree_leaves t = L1 ++ l :: L2 /\ find_leaf k (root t) = Some l /\ around k L1 L2 /\
  match p with
  | Done ok t' =>
      tree_ok t' /\ ok = b (l_data l) /\ tree_entries t' = ents L1 ++ g (l_data l) ++ ents L2 /\
      (restarts = true -> tree_leaves t' = L1 ++ with_data (g (l_data l)) l :: L2)
  | Restart t' =>
      tree_ok t' /\ tree_entries t' = tree_entries t /\ (fuel t' < fuel t)%nat /\
      (restarts = false -> (potential (root t') < potential (root t))%nat)
  end.

(** The events of a pass on the counters. *)
Lemma grown_tree_ok {h} (r : node V h) t L1 l L2 X es d ok :
  tree_ok t -> nok (not_leaf h) None None r -> tree_leaves t = L1 ++ l :: L2 -> leaves r = L1 ++ X ++ L2 ->
  replaced (next_addr t) l d X es -> length d = (length (l_data l) + if ok : bool then 1 else 0)%nat ->
  tree_ok (apply_events (es ++ did ok) (with_root r t)) /\
  tree_leaves (apply_events (es ++ did ok) (with_root r t)) = L1 ++ X ++ L2.
Proof using Type.
  intros [_ Hlv Hit Hln] Hr Et Er Hrep Hd. rewrite Et in Hlv. pose proof (replaced_leaves_ok _ _ _ _ _ _ _ Hlv Hrep) as Hlv'.
  assert (Hroot : exists a i ln ni, apply_events (es ++ did ok) (with_root r t) = MkTree h r a i ln ni /\ a = next_addr t + Z.of_nat (length X) - 1 /\
    ln = wrap 64 (Z.of_nat (length (L1 ++ X ++ L2))) /\ ni = wrap 64 (Z.of_nat (length (ents (L1 ++ X ++ L2))))).
  { pose proof (replaced_ents _ _ _ _ _ Hrep) as Hents. rewrite !ents_app, !length_app, Hents, Hd.
    unfold tree_entries, entries, tree_leaves in *. rewrite Et in Hit, Hln. rewrite ents_app, ents_cons, !length_app in *. cbn in Hln.
    destruct Hrep, ok; unfold apply_events, with_root; cbn; rewrite ?Hit, ?Hln, ?wrap_add_l; do 4 eexists;
      (split; [reflexivity|]); split_and!; try lia; f_equal; lia. }
  destruct Hroot as (a & i & ln & ni & E & -> & -> & ->). rewrite E. split; [|exact Er].
  constructor; unfold tree_leaves, tree_entries, entries; cbn [root next_addr num_items leaf_nodes height]; rewrite ?Er; auto.
Qed.

Lemma full_leaves_app L1 X L2 :
  length (filter (fun l : leaf V => length (l_data l) = leaf_max) (L1 ++ X ++ L2)) =
  (length (filter (fun l : leaf V => length (l_data l) = leaf_max) L1) + length (filter (fun l : leaf V => length (l_data l) = leaf_max) X)
   + length (filter (fun l : leaf V => length (l_data l) = leaf_max) L2))%nat.
Proof using Type. rewrite !filter_app, !length_app. lia. Qed.

(** Replacing a full leaf by leaves with room. *)
Lemma halves_full L1 l L2 X :
  length (l_data l) = leaf_max -> halves leaf_max X ->
  length (filter (fun l : leaf V => length (l_data l) = leaf_max) (L1 ++ l :: L2)) =
  S (length (filter (fun l : leaf V => length (l_data l) = leaf_max) (L1 ++ X ++ L2))).
Proof using Type.
  intros Hl HX. change (l :: L2) with ([l] ++ L2). rewrite !full_leaves_app. rewrite filter_cons_True by done.
  assert (filter (fun l : leaf V => length (l_data l) = leaf_max) X = []) as ->; [|cbn; lia].
  induction X as [|x X IH]; [easy|]. assert (length (l_data x) < leaf_max)%nat by (apply HX; now left). rewrite filter_cons_False by lia.
  apply IH. intros y Hy. apply HX. now right.
Qed.

Context (Hleaf : (3 <= leaf_max)%nat) (Hinner : (5 <= inner_max)%nat).

Lemma make_root_ok {h} sep (c1 c2 : node V h) :
  nok true None (Some sep) c1 -> nok true (Some sep) None c2 -> iok h true None None (make_root sep c1 c2).
Proof using Hleaf Hinner. intros H1 H2. apply inner_ok. split; [cbn [length]; lia|]. split; [easy|]. now cbn [between_keys]. Qed.

(** A split at the root or below it, as a step of the tree. *)
Lemma split_inner_pass restarts k g b t {h} (r : node V (S h)) :
  tree_ok t -> iok h true None None r -> leaves r = tree_leaves t -> (potential r < potential (root t))%nat ->
  tree_pass_ok restarts k g b t (Restart (apply_events [SplitInner] (with_root r t))).
Proof using Hleaf Hinner.
  intros Ht Hr El Hpot. pose proof Ht as [Hn Hlv Hit Hln]. destruct (find_leaf_ok _ _ k _ _ _ _ Hn) as (L1 & l & L2 & Hf & Hl & Har & _); [easy|].
  exists L1, l, L2. split; [exact Hl|]. split; [exact Hf|]. split; [exact Har|]. split_and!.
  - unfold tree_leaves, tree_entries, entries in *. constructor; unfold tree_leaves, tree_entries, entries; cbn [apply_events foldl apply_event with_root root height next_addr num_items leaf_nodes not_leaf];
      rewrite ?El; auto.
  - change (ents (leaves r) = ents (tree_leaves t)). now rewrite El.
  - unfold fuel, full_leaves. change (tree_leaves (apply_events [SplitInner] (with_root r t))) with (leaves r).
    change (potential (root (apply_events [SplitInner] (with_root r t)))) with (potential r). rewrite El. lia.
  - easy.
Qed.

Lemma insert_pass_inner restarts k f {h} (r : inner (node V h)) a i ln ni :
  insert_pass leaf_max inner_max restarts k f (MkTree (S h) r a i ln ni) =
  if inner_full inner_max (A := node V h) r then
    mbind (fun '(c1, sep, c2) => Some (Restart (apply_events [SplitInner] (with_root (make_root sep (c1 : node V (S h)) c2) (MkTree (S h) r a i ln ni)))))
      (inner_split (A := node V h) r)
  else
    mbind (fun '(p, es) => Some (pass_map (fun n' => apply_events es (with_root (n' : node V (S h)) (MkTree (S h) r a i ln ni))) p))
      (insert_in leaf_max inner_max restarts a k f (h := h) r).
Proof using Type. easy. Qed.

Lemma insert_pass_ok restarts k f g b t :
  leaf_op k f g b -> tree_ok t -> exists p, insert_pass leaf_max inner_max restarts k f t = Some p /\ tree_pass_ok restarts k g b t p.
Proof using Hleaf Hinner.
  intros Hop Ht. pose proof Ht as [Hn Hlv Hit Hln]. destruct t as [[|h] r a i ln ni] eqn:Et; cbn [height root not_leaf] in Hn; [unfold insert_pass|rewrite insert_pass_inner].
  - set (t0 := MkTree 0 r a i ln ni) in *.
    assert (Hfind : exists L1 l L2, tree_leaves t0 = L1 ++ l :: L2 /\ find_leaf k (root t0) = Some l /\ around k L1 L2 /\ L1 = [] /\ l = r /\ L2 = []).
    { exists [], r, []. split_and!; auto. split; intros x Hx; now apply elem_of_nil in Hx. }
    destruct Hfind as (L1 & l & L2 & Hl & Hf & Har & -> & -> & ->). destruct (leaf_full leaf_max r) eqn:Hfull.
    + unfold leaf_full in Hfull. apply Nat.eqb_eq in Hfull.
      destruct (split_full_ok _ _ Hleaf Hinner k f g b restarts (next_addr t0) false None None r Hop Hn ltac:(easy) Hfull)
        as (x & sep & y & X & es & p & -> & -> & Hx & Hy & _ & Hres). cbn [mbind option_bind].
      pose proof (make_root_ok (h := 0) sep x y Hx Hy) as Hroot. eexists. split; [reflexivity|].
      exists [], r, []. split; [exact Hl|]. split; [exact Hf|]. split; [exact Har|].
      destruct restarts; [destruct Hres as (-> & -> & Hrep)|destruct Hres as (es0 & -> & -> & Hrep)]; cbn [pass_map].
      * destruct (grown_tree_ok (make_root sep (x : node V 0) y) t0 [] r [] [x; y] [SplitLeaf] (l_data r) false Ht Hroot eq_refl eq_refl Hrep ltac:(cbn; lia)) as [Hok El].
        cbn [did app] in Hok, El. split; [exact Hok|]. split.
        { transitivity (ents [x; y]); [unfold tree_entries, entries; unfold tree_leaves in El; now rewrite El|].
          rewrite (replaced_ents _ _ _ _ _ Hrep). unfold tree_entries, entries, ents. cbn. now rewrite app_nil_r. }
        split; [|easy]. unfold fuel, full_leaves. rewrite El, Hl. rewrite (halves_full [] r [] [x; y] Hfull (split_halves _ _ Hleaf Hinner _ _ _ _ _ _ _ _ Hx Hy Hrep Hfull)).
        cbn [app]. cbn. nia.
      * destruct (grown_tree_ok (make_root sep (x : node V 0) y) t0 [] r [] [x; y] es0 (g (l_data r)) (b (l_data r)) Ht Hroot eq_refl eq_refl Hrep) as [Hok El].
        { apply (op_length k f g b Hop). apply Hn. }
        split; [exact Hok|]. split; [easy|]. split; [|easy]. 
        transitivity (ents [x; y]); [unfold tree_entries, entries; unfold tree_leaves in El; now rewrite El|].
        rewrite (replaced_ents _ _ _ _ _ Hrep). unfold ents. cbn. now rewrite app_nil_r.
    + unfold leaf_full in Hfull. apply Nat.eqb_neq in Hfull. pose proof Hn as (_ & _ & Hmax & _).
      destruct (leaf_op_ok _ _ k f g b false None None r Hop Hn ltac:(easy) ltac:(lia)) as [Ef Hr']. rewrite Ef. eexists. split; [reflexivity|].
      exists [], r, []. split; [exact Hl|]. split; [exact Hf|]. split; [exact Har|].
      destruct (grown_tree_ok (h := 0) (with_data (g (l_data r)) r) t0 [] r [] [with_data (g (l_data r)) r] [] (g (l_data r)) (b (l_data r)) Ht Hr' eq_refl eq_refl) as [Hok El].
      { constructor. } { apply (op_length k f g b Hop). apply Hn. }
      cbn [app] in Hok, El. split; [exact Hok|]. split; [easy|]. split; [|intros _; exact El]. unfold tree_entries, entries. unfold tree_leaves in El.
      rewrite El. unfold ents. cbn. now rewrite app_nil_r.
  - set (t0 := MkTree (S h) r a i ln ni) in *. destruct (inner_full inner_max (A := node V h) r) eqn:Hfull.
    + destruct (inner_split_ok _ _ Hleaf Hinner _ _ _ Hn Hfull) as (c1 & sep & c2 & -> & Hc1 & Hc2 & _ & El & Hpot). cbn [mbind option_bind].
      eexists. split; [reflexivity|]. apply split_inner_pass; [exact Ht|now apply make_root_ok| |].
      * change (tree_leaves t0) with (leaves (h := S h) r). rewrite <- El. unfold make_root. rewrite leaves_inner, !leaves_of_cons.
        f_equal. apply app_nil_r.
      * specialize (Hpot 0%nat ltac:(lia)). unfold make_root. rewrite potential_inner. cbn [root t0 length fmap list_fmap]. cbn in Hpot |- *. lia.
    + destruct (insert_in_ok _ _ Hleaf Hinner restarts a k f g b Hop None None r Hn Hfull ltac:(easy))
        as (p & es & -> & L1 & l & L2 & El & Hf & Har & Hp). cbn [mbind option_bind].
      eexists. split; [reflexivity|]. destruct p as [n'|ok n']; cbn [pass_map].
      * destruct Hp as (Hok & [(El' & -> & Hlt)|(-> & Hll & -> & (X & El' & Hrep & Hhalf) & Hle)]).
        -- apply split_inner_pass; auto.
        -- exists L1, l, L2. split; [exact El|]. split; [exact Hf|]. split; [exact Har|].
           destruct (grown_tree_ok (h := S h) n' t0 L1 l L2 X [SplitLeaf] (l_data l) false Ht Hok El El' Hrep ltac:(cbn; lia)) as [Hok' El''].
           cbn [did app] in Hok', El''. split; [exact Hok'|].
           split.
           { transitivity (ents (L1 ++ X ++ L2)); [unfold tree_entries, entries; unfold tree_leaves in El''; now rewrite El''|].
             change (tree_entries t0) with (ents (leaves (h := S h) r)). rewrite El, !ents_app. now rewrite (replaced_ents _ _ _ _ _ Hrep). }
           split; [|easy]. unfold fuel, full_leaves. rewrite El''. change (tree_leaves t0) with (leaves (h := S h) r). rewrite El.
           rewrite (halves_full L1 l L2 X Hll Hhalf), Nat.mul_succ_r. change (potential (root t0)) with (potential (h := S h) r).
           change (potential (root (apply_events [SplitLeaf] (with_root (h := S h) n' t0)))) with (potential (h := S h) n'). lia.
      * destruct Hp as (Hok & -> & X & es0 & El' & Hrep & -> & Hes). exists L1, l, L2. split; [exact El|]. split; [exact Hf|]. split; [exact Har|].
        destruct (grown_tree_ok (h := S h) n' t0 L1 l L2 X es0 (g (l_data l)) (b (l_data l)) Ht Hok El El' Hrep) as [Hok' El''].
        { apply (op_length k f g b Hop). destruct (node_keys _ _ _ _ _ _ Hn) as [Hs _]. unfold keys_of in Hs. rewrite El, ents_app, ents_cons, !fmap_app in Hs.
          apply ascending_app in Hs as (_ & Hs & _). now apply ascending_app in Hs as (Hs & _). }
        split; [exact Hok'|]. split; [easy|]. split.
        -- unfold tree_entries, entries. unfold tree_leaves in El''. rewrite El'', !ents_app. now rewrite (replaced_ents _ _ _ _ _ Hrep).
        -- intros ->. specialize (Hes eq_refl). subst es0. inversion Hrep; subst. exact El''.
Qed.

Lemma put_around k v L1 L2 l : around k L1 L2 -> put k v (ents (L1 ++ l :: L2)) = ents L1 ++ put k v (l_data (V := V) l) ++ ents L2.
Proof using Type.
  intros [H1 H2]. rewrite ents_app, ents_cons. rewrite put_app_r by (intros x Hx; now apply H1). f_equal.
  apply put_app_l. intros x Hx. now apply H2.
Qed.

Lemma insert_loop_ok k v : forall n t, tree_ok t -> (potential (root t) < n)%nat ->
  exists t', insert_loop leaf_max inner_max n k v t = Some (negb (has k (tree_entries t)), t') /\ tree_ok t' /\
    tree_entries t' = put k v (tree_entries t).
Proof using Hleaf Hinner.
  induction n as [|n IH]; intros t Ht Hn; [lia|]. cbn [insert_loop].
  destruct (insert_pass_ok false k _ _ _ t (leaf_insert_op k v) Ht) as (p & -> & L1 & l & L2 & El & _ & Har & Hp). cbn [mbind option_bind].
  destruct p as [t1|ok t1].
  - destruct Hp as (Ht1 & E1 & _ & Hpot). specialize (Hpot eq_refl). destruct (IH t1 Ht1 ltac:(lia)) as (t' & -> & Ht' & E').
    rewrite E1 in *. eauto.
  - destruct Hp as (Ht1 & -> & E1 & _). exists t1. split_and!; [|exact Ht1|].
    + unfold has, tree_entries, entries. unfold tree_leaves in El. now rewrite El, get_around by done.
    + rewrite E1. unfold tree_entries, entries. unfold tree_leaves in El. now rewrite El, put_around.
Qed.

Lemma insert_ok k v t :
  tree_ok t -> exists t', insert leaf_max inner_max k v t = Some (negb (has k (tree_entries t)), t') /\ tree_ok t' /\
    tree_entries t' = put k v (tree_entries t).
Proof using Hleaf Hinner. intros Ht. apply insert_loop_ok; [exact Ht|lia]. Qed.
End trees.
