(* ===== verification/BTreeRemove.v ===== *)
(** * Removal from a B+ tree

    Borrowing and merging keep the order and the entries of a tree and leave no
    node empty, so that the largest key of a subtree, which a merge of inner
    nodes uses, always exists. *)

From S2P Require Import Prelude BTreeNode BTree BTreeInv BTreeInsert BTreeTree.

(** ** Leaves that are merged *)

Section shrinking.
Context {V : Type}.
Implicit Types (L : list (leaf V)).

Definition is_merge (e : event) : nat := match e with MergedLeaf => 1 | _ => 0 end.
Definition merges (es : list event) : nat := sum_list (is_merge <$> es).
(** Events that do not make leaves or insert. *)
Definition calm (e : event) : Prop := match e with Relink _ _ | MergedLeaf | MergedInner => True | _ => False end.

(** [L'] has the entries of [L] in fewer leaves. *)
Record shrunk (es : list event) L L' : Prop := Shrunk {
  sh_ents : ents L' = ents L;
  sh_linked nx : linked L nx -> linked L' nx;
  sh_first nx : first_addr L' nx = first_addr L nx;
  sh_addrs : l_addr <$> L' `sublist_of` l_addr <$> L;
  sh_length : length L = (length L' + merges es)%nat;
  sh_calm : Forall calm es
}.

Lemma merges_app es1 es2 : merges (es1 ++ es2) = (merges es1 + merges es2)%nat.
Proof. unfold merges. rewrite fmap_app. induction es1 as [|e es1 IH]; cbn; lia. Qed.

Lemma shrunk_refl L : shrunk [] L L.
Proof. constructor; auto. Qed.

Lemma shrunk_trans es1 es2 L1 L2 L3 : shrunk es1 L1 L2 -> shrunk es2 L2 L3 -> shrunk (es1 ++ es2) L1 L3.
Proof.
  intros [E1 K1 F1 A1 N1 C1] [E2 K2 F2 A2 N2 C2]. constructor; [congruence|auto|congruence|now transitivity (l_addr <$> L2)|rewrite merges_app; lia|].
  now apply Forall_app.
Qed.

Lemma shrunk_app es A L L' B : shrunk es L L' -> shrunk es (A ++ L ++ B) (A ++ L' ++ B).
Proof.
  intros [E K F S N C]. assert (HF : forall nx, first_addr (L' ++ B) nx = first_addr (L ++ B) nx).
  { intros nx. specialize (F (first_addr B nx)). destruct L, L'; cbn in *; congruence. }
  constructor.
  - now rewrite !ents_app, E.
  - intros nx. rewrite !linked_app, HF. naive_solver.
  - intros nx. destruct A; [apply HF|easy].
  - rewrite !fmap_app. apply sublist_app; [done|]. now apply sublist_app.
  - rewrite !length_app. lia.
  - exact C.
Qed.

Lemma shrunk_leaves_ok es a L L' : shrunk es L L' -> leaves_ok a L -> leaves_ok a L'.
Proof.
  intros [E K F S N C] [H1 H2 H3]. constructor; [now apply K|now apply (sublist_NoDup _ _ H2)|].
  apply Forall_forall. intros x Hx. rewrite Forall_forall in H3. apply H3. now apply (sublist_subseteq _ _ S).
Qed.

Lemma leaf_merge_shrunk (a b : leaf V) : shrunk (MergedLeaf :: relink_events (merge_relinks a b)) [a; b] [leaf_merge a b].
Proof.
  constructor.
  - unfold ents. cbn. now rewrite !app_nil_r.
  - intros nx. cbn. tauto.
  - easy.
  - cbn. apply sublist_skip, sublist_nil_l.
  - unfold merge_relinks. now destruct (l_next b).
  - constructor; [easy|]. unfold merge_relinks. destruct (l_next b); cbn; repeat constructor.
Qed.
End shrinking.

Section bounds.
Context {V : Type} (leaf_max inner_max : nat).

#[local] Abbreviation nok m := (@node_ok V leaf_max inner_max m _).
#[local] Abbreviation iok h m := (@node_ok V leaf_max inner_max m (S h)).
#[local] Abbreviation leaf_ok m := (@node_ok V leaf_max inner_max m 0).
#[local] Abbreviation children_ok h := (between_keys (@node_ok V leaf_max inner_max true h)).
#[local] Abbreviation left_ok h := (left_of (@node_ok V leaf_max inner_max true h)).
#[local] Abbreviation right_ok h := (right_of (@node_ok V leaf_max inner_max true h)).

Definition below_bound (lo' lo : option Z) : Prop := forall k, above lo k -> above lo' k.

Lemma node_ok_lower {h} : forall m lo lo' hi (n : node V h), below_bound lo' lo -> nok m lo hi n -> nok m lo' hi n.
Proof using Type.
  induction h as [|h IH]; intros m lo lo' hi n Hb.
  - intros (H1 & H2 & H3 & H4). split_and!; auto. intros k Hk. destruct (H2 k Hk) as [Ha Hu]. split; [now apply Hb|exact Hu].
  - destruct n as [ks cs]. rewrite !inner_ok. intros (H1 & H2 & H3). split_and!; auto. clear H1 H2. destruct ks as [|k ks], cs as [|c cs]; try easy; cbn [between_keys] in *.
    + destruct cs; [|easy]. eauto.
    + destruct H3 as ([Ha Hu] & Hc & H). split; [split; [now apply Hb|exact Hu]|]. split; [eauto|exact H].
Qed.

Lemma children_lower {h} lo lo' hi ks cs : below_bound lo' lo -> children_ok h lo hi ks cs -> children_ok h lo' hi ks cs.
Proof using Type.
  intros Hb. destruct cs as [|c cs]; [now destruct ks|]. rewrite !between_keys_cons. intros [Hc Hr].
  split; [now apply (node_ok_lower _ lo)|now apply (right_of_lower _ lo)].
Qed.

Lemma below_after {h} lo hi ks cs : left_ok h lo hi ks cs -> below_bound lo (after lo ks).
Proof using Type.
  revert lo cs. induction ks as [|k ks IH]; intros lo [|c cs]; cbn [left_of]; try easy. intros ([Ha _] & _ & H) x Hx. rewrite after_cons in Hx.
  apply (IH _ _ H) in Hx. destruct lo; cbn in *; [lia|easy].
Qed.

(** The largest key of a subtree exists, and bounds it. *)
Lemma max_key_ok {h} : forall lo hi (n : node V h), nok true lo hi n ->
  exists m, max_key n = Some m /\ m ∈ keys_of (leaves n) /\ nok true lo (Some m) n.
Proof using Type.
  induction h as [|h IH]; intros lo hi n.
  - intros (H1 & H2 & H3 & H4). cbn [max_key leaves]. destruct (last (l_keys n)) as [m|] eqn:E.
    2:{ exfalso. apply last_None in E. apply (H4 eq_refl). unfold l_keys in E. now destruct (l_data n). }
    exists m. apply last_Some in E as (r & E). assert (Hm : m ∈ l_keys n) by (rewrite E; apply elem_of_app; right; now left).
    split; [reflexivity|]. split; [change (m ∈ keys_of [n : leaf V]); now rewrite keys_of_cons, app_nil_r|]. split; [exact H1|]. split; [|now split].
    intros k Hk. split; [now apply H2|]. cbn. rewrite E in Hk, H1.
    apply ascending_app in H1 as (_ & _ & H). apply elem_of_app in Hk as [Hk|Hk].
    + assert (k < m) by (apply H; [exact Hk|now left]). lia.
    + apply elem_of_cons in Hk as [->|Hk]; [lia|now apply elem_of_nil in Hk].
  - destruct n as [ks cs]. rewrite inner_ok. intros (H1 & H2 & H3). pose proof (between_keys_length _ _ _ _ _ H3) as Hlen.
    destruct (between_keys_ascending _ _ _ _ _ H3) as [Hs _].
    assert (exists cs0 c, cs = cs0 ++ [c]) as (cs0 & c & ->). { destruct cs using rev_ind; [easy|eauto]. }
    rewrite length_app in Hlen. cbn in Hlen. rewrite <- (app_nil_r ks), between_keys_mid in H3 by lia. destruct H3 as (Hl & Hc & _).
    destruct (IH _ _ c Hc) as (m & Hm & Hin & Hcm).
    exists m. split; [|split].
    + cbn [max_key i_children i_keys]. replace (length ks) with (length cs0) by lia.
      change (mbind (A := node V h) max_key ((cs0 ++ [c]) !! length cs0) = Some m). now rewrite list_lookup_middle by done.
    + rewrite leaves_inner, leaves_of_app, leaves_of_cons, keys_of_app, keys_of_app. apply elem_of_app. right. apply elem_of_app. now left.
    + apply inner_ok. split; [exact H1|]. split; [exact H2|]. rewrite <- (app_nil_r ks), between_keys_mid by lia. cbn [before right_of].
      split; [|now split].
      apply (left_of_upper _ _ hi); [|exact Hl]. intros k Hk. cbn.
      destruct (node_keys _ _ _ _ _ _ Hc) as [_ Hw]. destruct (Hw m Hin) as [Ha _].
      destruct (sep_between lo None ks [] m) as [Hlt _]; [now rewrite app_nil_r|now split|]. specialize (Hlt k Hk). lia.
Qed.

(** ** Two neighbours *)

(** The entries that fit in a node. *)
Definition capacity (h : nat) : nat := match h with O => leaf_max | S _ => (inner_max - 1)%nat end.

Lemma last_app_some {A} (l : list A) : l <> [] -> exists l0 a, l = l0 ++ [a].
Proof using Type. destruct l using rev_ind; [easy|eauto]. Qed.

Lemma without_last_app {A} (l : list A) a : without_last (l ++ [a]) = l.
Proof using Type. unfold without_last. rewrite length_app. cbn. rewrite Nat.add_sub. apply take_app_length. Qed.

Lemma same_leaves_shrunk (L L' : list (leaf V)) : L' = L -> shrunk [] L L'.
Proof using Type. intros ->. apply shrunk_refl. Qed.

(** Two leaves that share their entries in another way. *)
Lemma leaf_move_shrunk (a b : leaf V) d1 d2 : d1 ++ d2 = l_data a ++ l_data b -> shrunk [] [a; b] [with_data d1 a; with_data d2 b].
Proof using Type.
  intros E. constructor; auto. unfold ents. cbn. now rewrite !app_nil_r.
Qed.

(** Cutting the entries of two leaves at a key. *)
Lemma leaf_pair_ok lo hi sep (a b : leaf V) ma mb d1 k v d2 :
  leaf_ok ma lo (Some sep) a -> leaf_ok mb (Some sep) hi b -> within lo hi sep ->
  (d1 ++ [(k, v)]) ++ d2 = l_data a ++ l_data b -> (S (length d1) <= leaf_max)%nat -> (length d2 <= leaf_max)%nat ->
  within lo hi k /\ leaf_ok true lo (Some k) (with_data (d1 ++ [(k, v)]) a) /\ leaf_ok false (Some k) hi (with_data d2 b).
Proof using Type.
  intros Ha Hb Hsep E Hd1 Hd2.
  assert (Hall : ascending (fst <$> (l_data a ++ l_data b)) /\ forall x, x ∈ fst <$> (l_data a ++ l_data b) -> within lo hi x).
  { rewrite fmap_app. destruct Ha as (Ha1 & Ha2 & _), Hb as (Hb1 & Hb2 & _), Hsep as [Hl Hu]. unfold l_keys in *. split.
    - apply ascending_app. split_and!; auto. intros x y Hx Hy. destruct (Ha2 x Hx) as [_ H1], (Hb2 y Hy) as [H2 _]. cbn in *. lia.
    - intros x [Hx|Hx]%elem_of_app; [destruct (Ha2 x Hx) as [H1 H2]|destruct (Hb2 x Hx) as [H1 H2]]; split; auto.
      + destruct hi; cbn in *; [lia|easy].
      + destruct lo; cbn in *; [lia|easy]. }
  rewrite <- E, fmap_app in Hall. destruct Hall as [Hs Hw]. apply ascending_app in Hs as (Hs1 & Hs2 & Hs12).
  rewrite fmap_app in Hs1. pose proof Hs1 as Hs1'. apply ascending_app in Hs1' as (_ & _ & Hk).
  split; [apply Hw; rewrite !elem_of_app; left; rewrite fmap_app, elem_of_app; right; now left|].
  split; (split; [unfold l_keys; cbn [l_data with_data]; rewrite ?fmap_app; assumption|]); (split; [|split]); unfold l_keys; cbn [l_data with_data].
  - intros x Hx. split; [apply Hw; rewrite elem_of_app; now left|]. rewrite fmap_app in Hx. cbn.
    apply elem_of_app in Hx as [Hx|Hx]; [assert (x < k) by (apply Hk; [exact Hx|now left]); lia|].
    apply elem_of_cons in Hx as [->|Hx]; [cbn; lia|now apply elem_of_nil in Hx].
  - rewrite length_app. cbn. lia.
  - now destruct d1.
  - intros x Hx. split; [|apply Hw; rewrite elem_of_app; now right]. cbn. apply Hs12; [|exact Hx]. rewrite fmap_app, elem_of_app. right. now left.
  - exact Hd2.
  - easy.
Qed.

(** The children of an inner node around its last one, and around its first. *)
Lemma children_snoc {h} lo hi ks (cs : list (node V h)) c :
  children_ok h lo hi ks (cs ++ [c]) <-> length ks = length cs /\ left_ok h lo hi ks cs /\ nok true (after lo ks) hi c.
Proof using Type.
  split.
  - intros H. pose proof (between_keys_length _ _ _ _ _ H) as Hlen. rewrite length_app in Hlen. cbn in Hlen.
    rewrite <- (app_nil_r ks), between_keys_mid in H by lia. split; [lia|tauto].
  - intros (Hlen & H1 & H2). rewrite <- (app_nil_r ks), between_keys_mid by done. split; [exact H1|]. now split.
Qed.

Lemma upto_before hi sep k : upto hi sep -> k <= sep -> upto hi k.
Proof using Type. destruct hi; cbn; [lia|easy]. Qed.
Lemma above_trans lo sep k : above lo sep -> sep <= k -> above lo k.
Proof using Type. destruct lo; cbn; [lia|easy]. Qed.

Lemma borrow_left_ok {h} lo hi sep (a b : node V h) :
  nok true lo (Some sep) a -> nok false (Some sep) hi b -> within lo hi sep -> (2 <= count a)%nat -> (count b < capacity h)%nat ->
  exists a' sep' b', borrow_from_left a sep b = Some (a', sep', b') /\ nok true lo (Some sep') a' /\ nok true (Some sep') hi b' /\
    within lo hi sep' /\ shrunk [] (leaves a ++ leaves b) (leaves a' ++ leaves b').
Proof using Type.
  destruct h as [|h]; intros Ha Hb Hsep Hca Hcb; cbn [count capacity] in *.
  - destruct (last_app_some (l_data a)) as (d0 & [kx vx] & E); [intros E; rewrite E in Hca; cbn in Hca; lia|].
    rewrite E, length_app in Hca. cbn in Hca. destruct (last_app_some d0) as (d & [k v] & ->); [intros ->; cbn in Hca; lia|].
    cbn [borrow_from_left]. rewrite E, last_snoc, without_last_app. unfold l_keys. cbn [mbind option_bind l_data with_data].
    rewrite fmap_app. cbn [fmap list_fmap fst]. rewrite last_snoc. cbn [mbind option_bind].
    assert (Hd : (d ++ [(k, v)]) ++ (kx, vx) :: l_data b = l_data a ++ l_data b) by (rewrite E, <- !app_assoc; easy).
    assert (Hma : (length (l_data a) <= leaf_max)%nat) by apply Ha. rewrite E, !length_app in Hma. cbn in Hma.
    destruct (leaf_pair_ok _ _ _ _ _ _ _ _ _ _ _ Ha Hb Hsep Hd) as (H1 & H2 & H3); [lia|cbn; lia|].
    do 3 eexists. split; [reflexivity|]. split; [exact H2|]. split; [|split; [exact H1|]].
    + destruct H3 as (G1 & G2 & G3 & _). split; [exact G1|]. split; [exact G2|]. now split.
    + now apply leaf_move_shrunk.
  - destruct a as [ka ca], b as [kb cb]. cbn [i_keys] in *. apply inner_ok in Ha as (Ha1 & _ & Ha2). apply inner_ok in Hb as (Hb1 & _ & Hb2).
    cbn [i_keys i_children] in *. destruct (between_keys_ascending _ _ _ _ _ Ha2) as [Hs Hw].
    destruct (last_app_some ka) as (ka0 & k & ->); [intros ->; cbn in Hca; lia|].
    pose proof (between_keys_length _ _ _ _ _ Ha2) as Hlen. destruct (last_app_some ca) as (ca0 & c & ->); [intros ->; easy|].
    apply children_snoc in Ha2 as (Hlen0 & Hl & Hc). rewrite length_app in Hlen0. cbn in Hlen0.
    destruct (last_app_some ca0) as (ca1 & c1 & ->); [intros ->; cbn in Hlen0; lia|]. rewrite length_app in Hlen0. cbn in Hlen0.
    rewrite after_snoc in Hc.
    apply left_of_app in Hl as [Hl1 (Hk & Hc1 & _)]; [|lia].
    exists (Inner ka0 (ca1 ++ [c1])), k, (Inner (sep :: kb) (c :: cb)). split; [|split; [|split; [|split]]].
    + cbn [borrow_from_left i_keys i_children]. now rewrite !last_snoc, !without_last_app.
    + apply inner_ok. rewrite length_app in Ha1, Hca. cbn in Ha1, Hca. split; [lia|]. split; [intros _ ->; cbn in Hca; lia|]. apply children_snoc.
      split; [lia|]. split; [|exact Hc1].
      apply (left_of_upper _ _ (Some sep)); [|exact Hl1]. intros x Hx. apply ascending_app in Hs as (_ & _ & Hs). cbn.
      assert (x < k) by (apply Hs; [exact Hx|now left]). lia.
    + apply inner_ok. split; [cbn [length]; lia|]. split; [easy|]. cbn [between_keys]. split; [|now split].
      destruct (nonempty_bounds _ _ _ _ _ Hc) as (x & [Hx1 Hx2] & _). split; [cbn in *; lia|apply Hsep].
    + destruct (Hw k) as [H1 H2]; [apply elem_of_app; right; now left|]. split; [exact H1|]. now apply (upto_before _ sep); [apply Hsep|].
    + apply same_leaves_shrunk. rewrite !leaves_inner, !leaves_of_app, !leaves_of_cons. now rewrite <- !app_assoc.
Qed.

Lemma borrow_right_ok {h} lo hi sep (a b : node V h) :
  nok false lo (Some sep) a -> nok true (Some sep) hi b -> within lo hi sep -> (2 <= count b)%nat -> (count a < capacity h)%nat ->
  exists a' sep' b', borrow_from_right a sep b = Some (a', sep', b') /\ nok true lo (Some sep') a' /\ nok true (Some sep') hi b' /\
    within lo hi sep' /\ shrunk [] (leaves a ++ leaves b) (leaves a' ++ leaves b').
Proof using Type.
  destruct h as [|h]; intros Ha Hb Hsep Hcb Hca; cbn [count capacity] in *.
  - destruct (l_data b) as [|[k v] d] eqn:E; [cbn in Hcb; lia|].
    cbn [borrow_from_right]. rewrite E. unfold l_keys. cbn [mbind option_bind l_data with_data head tail].
    rewrite fmap_app. cbn [fmap list_fmap fst]. rewrite last_snoc. cbn [mbind option_bind].
    assert (Hd : (l_data a ++ [(k, v)]) ++ d = l_data a ++ l_data b) by (rewrite E, <- !app_assoc; easy).
    assert (Hmb : (length (l_data b) <= leaf_max)%nat) by apply Hb. rewrite E in Hmb. cbn in Hmb, Hcb.
    destruct (leaf_pair_ok _ _ _ _ _ _ _ _ _ _ _ Ha Hb Hsep Hd) as (H1 & H2 & H3); [lia|lia|].
    do 3 eexists. split; [reflexivity|]. split; [exact H2|]. split; [|split; [exact H1|]].
    + destruct H3 as (G1 & G2 & G3 & _). split; [exact G1|]. split; [exact G2|]. split; [exact G3|]. intros _ E'. cbn in E'. rewrite E' in Hcb. cbn in Hcb. lia.
    + now apply leaf_move_shrunk.
  - destruct a as [ka ca], b as [kb cb]. cbn [i_keys] in *. apply inner_ok in Ha as (Ha1 & _ & Ha2). apply inner_ok in Hb as (Hb1 & _ & Hb2).
    cbn [i_keys i_children] in *. destruct kb as [|k kb]; [cbn in Hcb; lia|]. destruct cb as [|c cb]; [easy|]. cbn [between_keys] in Hb2.
    destruct Hb2 as (Hk & Hc & Hb2). destruct (between_keys_ascending _ _ _ _ _ Ha2) as [Hs Hw].
    destruct (last_app_some ca) as (ca0 & ce & ->); [intros ->; now destruct ka|]. apply children_snoc in Ha2 as (Hlen0 & Hl & Hce).
    exists (Inner (ka ++ [sep]) ((ca0 ++ [ce]) ++ [c])), k, (Inner kb cb). split; [reflexivity|]. split; [|split; [|split]].
    + apply inner_ok. split; [rewrite length_app; cbn; lia|]. split; [now destruct ka|]. apply children_snoc. rewrite after_snoc.
      split; [rewrite !length_app; cbn; lia|]. split; [|exact Hc]. apply left_of_app; [lia|]. cbn [left_of]. split; [|split; [|now split]].
      * apply (left_of_upper _ _ (Some sep)); [|exact Hl]. intros x Hx. destruct (Hw x Hx) as [_ H], Hk as [H' _]. cbn in *. lia.
      * destruct (nonempty_bounds _ _ _ _ _ Hce) as (x & [Hx1 Hx2] & _). split; [now apply (above_trans _ x)|]. destruct Hk as [H' _]. cbn in *. lia.
    + apply inner_ok. cbn in Hb1, Hcb. split; [lia|]. split; [|exact Hb2]. intros _ ->. cbn in Hcb. lia.
    + destruct Hk as [H1 H2]. split; [|exact H2]. apply (above_trans _ sep); [apply Hsep|cbn in H1; lia].
    + apply same_leaves_shrunk. rewrite !leaves_inner, !leaves_of_app, !leaves_of_cons. cbn. now rewrite <- !app_assoc.
Qed.

(** The entries and keys of two nodes and the key between inner nodes. *)
Definition joint (h : nat) (x y : nat) : nat := match h with O => x + y | S _ => x + y + 1 end.

Lemma merge_nodes_inner {h} ka kb (ca cb : list (node V h)) :
  merge_nodes (h := S h) (Inner ka ca) (Inner kb cb) =
  c ← ca !! length ka; m ← max_key c; Some (Inner (ka ++ m :: kb) (ca ++ cb), None).
Proof using Type. easy. Qed.

Lemma merge_ok {h} lo hi sep (a b : node V h) ma mb :
  nok ma lo (Some sep) a -> nok mb (Some sep) hi b -> within lo hi sep -> ma || mb = true -> (joint h (count a) (count b) <= capacity h)%nat ->
  exists ab r, merge_nodes a b = Some (ab, r) /\ nok true lo hi ab /\ shrunk (merge_event h :: relink_events r) (leaves a ++ leaves b) (leaves ab).
Proof using Type.
  destruct h as [|h]; intros Ha Hb Hsep Hm Hcap; cbn [count capacity joint] in *.
  - exists (leaf_merge a b), (merge_relinks a b). split; [reflexivity|]. split; [|apply leaf_merge_shrunk].
    destruct Ha as (Ha1 & Ha2 & _ & Ha4), Hb as (Hb1 & Hb2 & _ & Hb4). unfold l_keys in *. split; [|split; [|split]].
    + unfold l_keys. cbn. rewrite fmap_app. apply ascending_app. split_and!; auto. intros x y Hx Hy. destruct (Ha2 x Hx) as [_ H1], (Hb2 y Hy) as [H2 _]. cbn in *. lia.
    + unfold l_keys. cbn. rewrite fmap_app. intros x [Hx|Hx]%elem_of_app; [destruct (Ha2 x Hx) as [H1 H2]|destruct (Hb2 x Hx) as [H1 H2]]; split; auto.
      * now apply (upto_before _ sep); [apply Hsep|].
      * apply (above_trans _ sep); [apply Hsep|cbn in H1; lia].
    + cbn. rewrite length_app. lia.
    + intros _ E. cbn in E. apply app_eq_nil in E as [E1 E2]. destruct ma; [now apply Ha4|]. now apply Hb4.
  - destruct a as [ka ca], b as [kb cb]. cbn [i_keys] in *. apply inner_ok in Ha as (Ha1 & _ & Ha2). apply inner_ok in Hb as (Hb1 & _ & Hb2).
    cbn [i_keys i_children] in *. destruct (between_keys_ascending _ _ _ _ _ Ha2) as [Hs Hw].
    destruct (last_app_some ca) as (ca0 & c & ->); [intros ->; now destruct ka|]. apply children_snoc in Ha2 as (Hlen & Hl & Hc).
    destruct (max_key_ok _ _ _ Hc) as (m & Em & Hin & Hcm). destruct (node_keys _ _ _ _ _ _ Hc) as [_ Hkm]. destruct (Hkm m Hin) as [Hm1 Hm2].
    exists (Inner (ka ++ m :: kb) ((ca0 ++ [c]) ++ cb)), None. split; [|split].
    + rewrite merge_nodes_inner.
      rewrite list_lookup_middle by done. cbn [mbind option_bind]. now rewrite Em.
    + apply inner_ok. split; [rewrite length_app; cbn; lia|]. split; [now destruct ka|]. rewrite <- app_assoc. apply between_keys_app; [done|]. cbn [between_keys app].
      split; [|split; [|split; [exact Hcm|]]].
      * apply (left_of_upper _ _ (Some sep)); [|exact Hl]. intros x Hx. destruct (Hw x Hx) as [_ H]. now apply (upto_before _ sep); [apply Hsep|].
      * split; [exact Hm1|]. now apply (upto_before _ sep); [apply Hsep|].
      * apply (children_lower (Some sep)); [|exact Hb2]. intros x. cbn in *. lia.
    + cbn [merge_event relink_events]. destruct (same_leaves_shrunk (leaves (h := S h) (Inner ka (ca0 ++ [c])) ++ leaves (h := S h) (Inner kb cb)) (leaves (h := S h) (Inner (ka ++ m :: kb) ((ca0 ++ [c]) ++ cb)))) as [E K F S N C].
      { now rewrite !leaves_inner, leaves_of_app. }
      constructor; auto. now constructor.
Qed.

(** ** The children of a node around two neighbours *)

Record pair_ok {h} (ma mb : bool) (lo hi : option Z) (ksA : list Z) (sep : Z) (ksB : list Z) (csA : list (node V h)) (a b : node V h) (csB : list (node V h)) : Prop := PairOk {
  po_length : length ksA = length csA;
  po_left : left_ok h lo hi ksA csA;
  po_sep : within (after lo ksA) hi sep;
  po_a : nok ma (after lo ksA) (Some sep) a;
  po_b : nok mb (Some sep) (before hi ksB) b;
  po_right : right_ok h (Some sep) hi ksB csB
}.

Lemma pair_sep {h} ma mb lo hi ksA sep ksB csA (a b : node V h) csB :
  pair_ok ma mb lo hi ksA sep ksB csA a b csB -> within (after lo ksA) (before hi ksB) sep.
Proof using Type.
  intros [_ _ [H1 H2] _ _ Hr]. split; [exact H1|]. destruct ksB as [|k ksB]; [exact H2|]. destruct Hr as [[H3 _] _]. cbn in *. lia.
Qed.

Lemma right_between {h} lo hi k ks (cs : list (node V h)) sep :
  right_ok h lo hi ks cs -> upto (before hi ks) k -> upto hi sep -> k <= sep \/ upto hi k.
Proof using Type. destruct ks as [|x ks]; cbn; [auto|]. intros [[_ H] _] H' _. right. now apply (upto_before _ x). Qed.

(** The pair replaced by another one, and by one node. *)
Lemma pair_replace {h} ma mb lo hi ksA sep ksB csA (a b : node V h) csB a' sep' b' :
  pair_ok ma mb lo hi ksA sep ksB csA a b csB -> within (after lo ksA) (before hi ksB) sep' ->
  nok true (after lo ksA) (Some sep') a' -> nok true (Some sep') (before hi ksB) b' ->
  children_ok h lo hi (ksA ++ sep' :: ksB) (csA ++ a' :: b' :: csB).
Proof using Type.
  intros [Hlen Hl Hsep Ha Hb Hr] [H1 H2] Ha' Hb'. apply between_keys_pair; [exact Hlen|]. split; [exact Hl|]. split; [split; [exact H1|]|].
  - destruct (right_between _ _ _ _ _ sep Hr H2) as [H|H]; [apply Hsep| |exact H]. apply (upto_before _ sep); [apply Hsep|exact H].
  - split; [exact Ha'|]. split; [exact Hb'|]. now apply (right_of_raise _ _ (Some sep) _ _ _ _ b').
Qed.

Lemma pair_join {h} ma mb lo hi ksA sep ksB csA (a b : node V h) csB ab :
  pair_ok ma mb lo hi ksA sep ksB csA a b csB -> nok true (after lo ksA) (before hi ksB) ab ->
  children_ok h lo hi (ksA ++ ksB) (csA ++ ab :: csB).
Proof using Type.
  intros [Hlen Hl Hsep Ha Hb Hr] Hab. apply between_keys_mid; [exact Hlen|]. split; [exact Hl|]. split; [exact Hab|].
  apply (right_of_lower _ (Some sep)); [|exact Hr]. intros k Hk. cbn in Hk. apply (above_trans _ sep); [apply Hsep|lia].
Qed.

Lemma insert_at {A} (l1 : list A) a b l2 : <[length l1 := b]> (l1 ++ a :: l2) = l1 ++ b :: l2.
Proof using Type. rewrite insert_app_r_alt by lia. now rewrite Nat.sub_diag. Qed.
Lemma lookup_next {A} (l1 : list A) a b l2 : (l1 ++ a :: b :: l2) !! S (length l1) = Some b.
Proof using Type. rewrite lookup_app_r by lia. now replace (S (length l1) - length l1)%nat with 1%nat by lia. Qed.
Lemma insert_next {A} (l1 : list A) a b c l2 : <[S (length l1) := c]> (l1 ++ a :: b :: l2) = l1 ++ a :: c :: l2.
Proof using Type. rewrite insert_app_r_alt by lia. now replace (S (length l1) - length l1)%nat with 1%nat by lia. Qed.
Lemma cut_at {A} (l1 : list A) a l2 : cut (length l1) (l1 ++ a :: l2) = l1 ++ l2.
Proof using Type. unfold cut. rewrite take_app_length, drop_app_ge by lia. now replace (S (length l1) - length l1)%nat with 1%nat by lia. Qed.
Lemma cut_next {A} (l1 : list A) a b l2 : cut (S (length l1)) (l1 ++ a :: b :: l2) = l1 ++ a :: l2.
Proof using Type.
  replace (S (length l1)) with (length (l1 ++ [a])) by (rewrite length_app; cbn; lia).
  change (a :: b :: l2) with ([a] ++ b :: l2). rewrite app_assoc, cut_at. now rewrite <- app_assoc.
Qed.

Lemma rebalance_at {h} op ksA sep ksB csA (a b : node V h) csB :
  length ksA = length csA ->
  rebalance op (length csA) (Inner (ksA ++ sep :: ksB) (csA ++ a :: b :: csB)) =
  '(a', sep', b') ← op a sep b; Some (Inner (ksA ++ sep' :: ksB) (csA ++ a' :: b' :: csB)).
Proof using Type.
  intros Hlen. unfold rebalance. cbn [i_keys i_children]. rewrite list_lookup_middle, lookup_next by done. cbn [mbind option_bind].
  rewrite list_lookup_middle by done. cbn [mbind option_bind]. destruct (op a sep b) as [[[a' sep'] b']|]; [|easy]. cbn.
  now rewrite <- Hlen at 1; rewrite !insert_at, insert_next.
Qed.

Lemma merge_at_pair {h} ksA sep ksB csA (a b : node V h) csB :
  length ksA = length csA ->
  merge_at (length csA) (Inner (ksA ++ sep :: ksB) (csA ++ a :: b :: csB)) =
  '(ab, r) ← merge_nodes a b; Some (Inner (ksA ++ ksB) (csA ++ ab :: csB), merge_event h :: relink_events r).
Proof using Type.
  intros Hlen. unfold merge_at. cbn [i_keys i_children]. rewrite (list_lookup_middle csA (b :: csB) a _ eq_refl). rewrite lookup_next. cbn [mbind option_bind].
  destruct (merge_nodes a b) as [[ab r]|]; [|easy]. cbn [mbind option_bind]. unfold inner_erase, set_child. cbn [i_keys i_children].
  now rewrite insert_at, cut_next, <- Hlen, cut_at.
Qed.

(** ** [EraseMerge] *)

(** What it leaves of a node with the leaves [L]: the node may have lost its last
    key, which is reported, and it is then to be merged in its turn. *)
Definition erased_ok {h} (lo hi : option Z) (L : list (leaf V)) (res : inner (node V h) * bool * bool * list event) : Prop :=
  let '(n, change_root, up, es) := res in
  iok h false lo hi n /\ (change_root = true <-> i_keys n = []) /\ (up = false -> i_keys n <> []) /\
  (up = true -> (5 * length (i_keys n) <= 2 * inner_max)%nat) /\ shrunk es L (leaves (h := S h) n).

Lemma rebalanced_ok {h} op ma mb lo hi ksA sep ksB csA (a b : node V h) csB a' sep' b' :
  pair_ok ma mb lo hi ksA sep ksB csA a b csB -> (length (ksA ++ sep :: ksB) <= inner_max - 1)%nat ->
  op a sep b = Some (a', sep', b') -> nok true (after lo ksA) (Some sep') a' -> nok true (Some sep') (before hi ksB) b' ->
  within (after lo ksA) (before hi ksB) sep' -> shrunk [] (leaves a ++ leaves b) (leaves a' ++ leaves b') ->
  exists n, rebalance op (length csA) (Inner (ksA ++ sep :: ksB) (csA ++ a :: b :: csB)) = Some n /\
    erased_ok lo hi (leaves_of (csA ++ a :: b :: csB)) (n, false, false, []).
Proof using Type.
  intros Hp Hlen Hop Ha' Hb' Hsep' Hsh. rewrite rebalance_at, Hop by apply Hp. eexists. split; [reflexivity|].
  assert (Hk : ksA ++ sep' :: ksB <> []) by now destruct ksA. split; [|split; [|split; [|split]]]; try easy.
  - apply inner_ok. split; [rewrite length_app in *; cbn in *; lia|]. split; [easy|]. now apply (pair_replace _ _ _ _ _ _ _ _ _ _ _ _ _ _ Hp).
  - rewrite leaves_inner, !leaves_of_app, !leaves_of_cons. rewrite (app_assoc (leaves a)), (app_assoc (leaves a')). now apply shrunk_app.
Qed.

Lemma joined_ok {h} ma mb lo hi ksA sep ksB csA (a b : node V h) csB :
  pair_ok ma mb lo hi ksA sep ksB csA a b csB -> (length (ksA ++ sep :: ksB) <= inner_max - 1)%nat ->
  ma || mb = true -> (joint h (count a) (count b) <= capacity h)%nat ->
  exists n es, merge_at (length csA) (Inner (ksA ++ sep :: ksB) (csA ++ a :: b :: csB)) = Some (n, es) /\
    erased_ok lo hi (leaves_of (csA ++ a :: b :: csB))
      (n, match i_keys n with [] => true | _ => false end, needMerge leaf_max inner_max (n : node V (S h)), es).
Proof using Type.
  intros Hp Hlen Hm Hcap. destruct (merge_ok _ _ _ a b ma mb (po_a _ _ _ _ _ _ _ _ _ _ _ Hp) (po_b _ _ _ _ _ _ _ _ _ _ _ Hp) (pair_sep _ _ _ _ _ _ _ _ _ _ _ Hp) Hm Hcap)
    as (ab & r & E & Hab & Hsh).
  rewrite merge_at_pair, E by apply Hp. do 2 eexists. split; [reflexivity|]. cbn [i_keys]. split; [|split; [|split; [|split]]].
  - apply inner_ok. split; [rewrite length_app in *; cbn in *; lia|]. split; [easy|]. now apply (pair_join _ _ _ _ _ _ _ _ _ _ _ _ Hp).
  - now destruct (ksA ++ ksB).
  - unfold needMerge. cbn [count i_keys max_entries]. intros H E0. apply Nat.leb_gt in H. rewrite E0 in H. cbn in H. lia.
  - unfold needMerge. cbn [count i_keys max_entries]. intros H. now apply Nat.leb_le in H.
  - rewrite leaves_inner, !leaves_of_app, !leaves_of_cons. rewrite (app_assoc (leaves a)). now apply shrunk_app.
Qed.

(** A child that may be empty, between children that are not. *)
Record weak_child {h} (lo hi : option Z) (ks1 ks2 : list Z) (cs1 : list (node V h)) (c : node V h) (cs2 : list (node V h)) : Prop := WeakChild {
  wc_length : length ks1 = length cs1;
  wc_left : left_ok h lo hi ks1 cs1;
  wc_child : nok false (after lo ks1) (before hi ks2) c;
  wc_right : right_ok h (after lo ks1) hi ks2 cs2
}.

Lemma left_case {h} lo hi ks1 ks2 (cs1 : list (node V h)) c cs2 :
  weak_child lo hi ks1 ks2 cs1 c cs2 ->
  (ks1 = [] /\ cs1 = [] /\ left_sibling (length cs1) (Inner (ks1 ++ ks2) (cs1 ++ c :: cs2)) = None) \/
  exists ksA sep csA a, ks1 = ksA ++ [sep] /\ cs1 = csA ++ [a] /\ pair_ok true false lo hi ksA sep ks2 csA a c cs2 /\
    left_sibling (length cs1) (Inner (ks1 ++ ks2) (cs1 ++ c :: cs2)) = Some a.
Proof using Type.
  intros [Hlen Hl Hc Hr]. destruct ks1 as [|sep ksA _] using rev_ind.
  { left. destruct cs1; [|easy]. now split_and!. }
  right. rewrite length_app in Hlen. cbn in Hlen. destruct (last_app_some cs1) as (csA & a & ->); [intros ->; cbn in Hlen; lia|].
  rewrite length_app in Hlen. cbn in Hlen. rewrite after_snoc in *. apply left_of_app in Hl as [Hl (Hs & Ha & _)]; [|lia].
  exists ksA, sep, csA, a. split; [easy|]. split; [easy|]. split; [constructor; auto; lia|]. rewrite length_app. cbn [length].
  rewrite Nat.add_1_r. cbn [left_sibling i_keys i_children]. rewrite !length_app. cbn [length]. rewrite (proj2 (Nat.ltb_lt _ _)) by lia.
  rewrite <- app_assoc. now apply list_lookup_middle.
Qed.

Lemma right_case {h} lo hi ks1 ks2 (cs1 : list (node V h)) c cs2 :
  weak_child lo hi ks1 ks2 cs1 c cs2 ->
  (ks2 = [] /\ right_sibling (length cs1) (Inner (ks1 ++ ks2) (cs1 ++ c :: cs2)) = None) \/
  exists sep ksB b csB, ks2 = sep :: ksB /\ cs2 = b :: csB /\ pair_ok false true lo hi ks1 sep ksB cs1 c b csB /\
    right_sibling (length cs1) (Inner (ks1 ++ ks2) (cs1 ++ c :: cs2)) = Some b.
Proof using Type.
  intros [Hlen Hl Hc Hr]. unfold right_sibling. cbn [i_keys i_children]. destruct ks2 as [|sep ksB].
  { left. split; [easy|]. rewrite app_nil_r, Hlen. now rewrite (proj2 (Nat.leb_gt _ _)) by lia. }
  right. destruct Hr as [Hs Hr]. destruct cs2 as [|b csB]; [now destruct ksB|]. apply between_keys_cons in Hr as [Hb Hr].
  exists sep, ksB, b, csB. split; [easy|]. split; [easy|]. split; [constructor; auto|].
  rewrite length_app. cbn [length]. rewrite (proj2 (Nat.leb_le _ _)) by lia. apply lookup_next.
Qed.

Lemma joint_comm h x y : joint h x y = joint h y x.
Proof using Type. destruct h; cbn; lia. Qed.

Lemma nonempty_ok {h} lo hi (c : node V h) : nok false lo hi c -> count c <> 0%nat -> nok true lo hi c.
Proof using Type.
  destruct h; cbn [node_ok count].
  - intros (H1 & H2 & H3 & _) Hc. split; [exact H1|]. split; [exact H2|]. split; [exact H3|]. intros _ E. now rewrite E in Hc.
  - intros (H1 & _ & H3) Hc. split; [exact H1|]. split; [|exact H3]. intros _ E. now rewrite E in Hc.
Qed.

Context (Hleaf : (3 <= leaf_max)%nat) (Hinner : (5 <= inner_max)%nat).

(** The thresholds: a node to be merged has room for one more entry; one with a
    surplus has two; two nodes of which one is empty fit in one. *)
Lemma threshold_ok h : (2 <= threshold leaf_max inner_max h)%nat /\ (joint h (threshold leaf_max inner_max h) 0 <= capacity h)%nat.
Proof using Hleaf Hinner.
  unfold threshold. destruct h; cbn [max_entries joint capacity]; match goal with |- context [((?x) / 5)%nat] => pose proof (Nat.div_mod x 5 ltac:(lia)); pose proof (Nat.mod_upper_bound x 5 ltac:(lia)) end; lia.
Qed.

Lemma spare_ok {h} (c : node V h) : (5 * count c <= 2 * max_entries leaf_max inner_max h)%nat -> (count c < capacity h)%nat.
Proof using Hleaf Hinner. destruct h; cbn [max_entries capacity]; lia. Qed.

Lemma surplus_ok {h} (c : node V h) : surplus leaf_max inner_max c = true -> (2 <= count c)%nat.
Proof using Hleaf Hinner. unfold surplus. intros H%Nat.ltb_lt. pose proof (threshold_ok h). lia. Qed.

Lemma space_ok {h} (c : node V h) need : hasEnoughSpace leaf_max inner_max c need = true <-> (joint h (count c) need <= capacity h)%nat.
Proof using Hleaf Hinner. destruct h; cbn [hasEnoughSpace joint capacity]; [apply Nat.leb_le|]. rewrite Nat.ltb_lt. lia. Qed.

Lemma empty_fits {h} (c s : node V h) :
  surplus leaf_max inner_max s = false -> hasEnoughSpace leaf_max inner_max s (count c) = false -> count c <> 0%nat.
Proof using Hleaf Hinner.
  unfold surplus. intros Hs%Nat.ltb_ge Hf E. rewrite E in Hf. apply not_true_iff_false in Hf. apply Hf, space_ok.
  pose proof (threshold_ok h) as [_ H]. destruct h; cbn [joint] in *; lia.
Qed.

(** The four ways to mend a pair of which one node is to be merged. *)
Section pair.
Context {h : nat} (lo hi : option Z) (ksA : list Z) (sep : Z) (ksB : list Z) (csA : list (node V h)) (a b : node V h) (csB : list (node V h)).
Context (Hlen : (length (ksA ++ sep :: ksB) <= inner_max - 1)%nat).
Let n : inner (node V h) := Inner (ksA ++ sep :: ksB) (csA ++ a :: b :: csB).
Let L := leaves_of (csA ++ a :: b :: csB).

Lemma borrow_left_step :
  pair_ok true false lo hi ksA sep ksB csA a b csB -> (5 * count b <= 2 * max_entries leaf_max inner_max h)%nat -> surplus leaf_max inner_max a = true ->
  exists n', rebalance borrow_from_left (length csA) n = Some n' /\ erased_ok lo hi L (n', false, false, []).
Proof using Hleaf Hinner Hlen.
  intros Hp Hb Ha. destruct (borrow_left_ok _ _ _ a b (po_a _ _ _ _ _ _ _ _ _ _ _ Hp) (po_b _ _ _ _ _ _ _ _ _ _ _ Hp) (pair_sep _ _ _ _ _ _ _ _ _ _ _ Hp) (surplus_ok _ Ha) (spare_ok _ Hb))
    as (a' & sep' & b' & E & Ha' & Hb' & Hs' & Hsh). now apply (rebalanced_ok _ _ _ _ _ _ _ _ _ _ _ _ a' sep' b' Hp).
Qed.

Lemma borrow_right_step :
  pair_ok false true lo hi ksA sep ksB csA a b csB -> (5 * count a <= 2 * max_entries leaf_max inner_max h)%nat -> surplus leaf_max inner_max b = true ->
  exists n', rebalance borrow_from_right (length csA) n = Some n' /\ erased_ok lo hi L (n', false, false, []).
Proof using Hleaf Hinner Hlen.
  intros Hp Ha Hb. destruct (borrow_right_ok _ _ _ a b (po_a _ _ _ _ _ _ _ _ _ _ _ Hp) (po_b _ _ _ _ _ _ _ _ _ _ _ Hp) (pair_sep _ _ _ _ _ _ _ _ _ _ _ Hp) (surplus_ok _ Hb) (spare_ok _ Ha))
    as (a' & sep' & b' & E & Ha' & Hb' & Hs' & Hsh). now apply (rebalanced_ok _ _ _ _ _ _ _ _ _ _ _ _ a' sep' b' Hp).
Qed.

Lemma merge_step ma mb :
  pair_ok ma mb lo hi ksA sep ksB csA a b csB -> ma || mb = true -> (joint h (count a) (count b) <= capacity h)%nat ->
  exists res, ('(n', es) ← merge_at (length csA) n; Some (n', match i_keys n' with [] => true | _ => false end, needMerge leaf_max inner_max (n' : node V (S h)), es)) = Some res /\
    erased_ok lo hi L res.
Proof using Hleaf Hinner Hlen.
  intros Hp Hm Hcap. destruct (joined_ok _ _ _ _ _ _ _ _ _ _ _ Hp Hlen Hm Hcap) as (n' & es & E & Hok). unfold n. rewrite E. eauto.
Qed.
End pair.

Lemma erase_merge_ok {h} lo hi ks1 ks2 (cs1 : list (node V h)) c cs2 :
  weak_child lo hi ks1 ks2 cs1 c cs2 -> (length (ks1 ++ ks2) <= inner_max - 1)%nat -> ks1 ++ ks2 <> [] ->
  (5 * count c <= 2 * max_entries leaf_max inner_max h)%nat ->
  exists res, erase_merge leaf_max inner_max (length cs1) (Inner (ks1 ++ ks2) (cs1 ++ c :: cs2)) = Some res /\
    erased_ok lo hi (leaves_of (cs1 ++ c :: cs2)) res.
Proof using Hleaf Hinner.
  intros Hw Hlen Hne Hc. pose proof Hw as [Hlk Hl Hcok Hr].
  assert (Hstay : count c <> 0%nat -> erased_ok lo hi (leaves_of (cs1 ++ c :: cs2)) (Inner (ks1 ++ ks2) (cs1 ++ c :: cs2), false, false, [])).
  { intros Hc0. split; [|split; [easy|split; [easy|split; [easy|apply shrunk_refl]]]]. apply inner_ok. split; [exact Hlen|]. split; [easy|].
    apply between_keys_mid; [exact Hlk|]. split; [exact Hl|]. split; [now apply nonempty_ok|exact Hr]. }
  unfold erase_merge. cbn [i_children]. rewrite (list_lookup_middle cs1 cs2 c _ eq_refl). cbn [mbind option_bind].
  destruct (right_case _ _ _ _ _ _ _ Hw) as [(-> & ->)|(sepR & ksB & b & csB & -> & -> & HpR & ->)];
  destruct (left_case _ _ _ _ _ _ _ Hw) as [(-> & -> & ->)|(ksA & sep & csA & a & -> & -> & Hp & ->)]; [easy| | |].
  - rewrite <- !app_assoc in *. cbn [app] in *. rewrite length_app, Nat.add_sub. destruct (surplus leaf_max inner_max a) eqn:Ea.
    { destruct (borrow_left_step _ _ _ _ _ _ _ _ _ Hlen Hp Hc Ea) as (n' & -> & H). eauto. }
    destruct (hasEnoughSpace leaf_max inner_max a (count c)) eqn:Es.
    + apply (merge_step _ _ _ _ _ _ _ _ _ Hlen _ _ Hp); [easy|now apply space_ok].
    + eexists. split; [reflexivity|]. apply Hstay. now apply (empty_fits _ a).
  - cbn [app length] in *. destruct (surplus leaf_max inner_max b) eqn:Eb.
    { destruct (borrow_right_step _ _ [] _ _ [] _ _ _ Hlen HpR Hc Eb) as (n' & E & H). cbn [app length] in E. rewrite E. eauto. }
    destruct (hasEnoughSpace leaf_max inner_max b (count c)) eqn:Es.
    + apply (merge_step _ _ [] _ _ [] _ _ _ Hlen _ _ HpR); [easy|]. rewrite joint_comm. now apply space_ok.
    + eexists. split; [reflexivity|]. apply Hstay. now apply (empty_fits _ b).
  - destruct (surplus leaf_max inner_max a) eqn:Ea.
    { rewrite <- !app_assoc in *. cbn [app] in *. rewrite length_app, Nat.add_sub. destruct (borrow_left_step _ _ _ _ _ _ _ _ _ Hlen Hp Hc Ea) as (n' & -> & H). eauto. }
    destruct (surplus leaf_max inner_max b) eqn:Eb.
    { destruct (borrow_right_step _ _ _ _ _ _ _ _ _ Hlen HpR Hc Eb) as (n' & -> & H). eauto. }
    destruct (hasEnoughSpace leaf_max inner_max a (count c)) eqn:Es.
    { rewrite <- !app_assoc in *. cbn [app] in *. rewrite length_app, Nat.add_sub. apply (merge_step _ _ _ _ _ _ _ _ _ Hlen _ _ Hp); [easy|now apply space_ok]. }
    destruct (hasEnoughSpace leaf_max inner_max b (count c)) eqn:Es'.
    + apply (merge_step _ _ _ _ _ _ _ _ _ Hlen _ _ HpR); [easy|]. rewrite joint_comm. now apply space_ok.
    + eexists. split; [reflexivity|]. apply Hstay. now apply (empty_fits _ a).
Qed.

End bounds.
