(* ===== verification/BTreeSpec.v ===== *)
(** * The B+ tree refines an ordered list

    A removal erases at the leaf for its key and merges upwards; with the results
    for lookups and insertions, every sequence of operations on a new tree gives
    the answers of an ordered association list and keeps the invariant. *)

From S2P Require Import Prelude BTreeNode BTree BTreeInv BTreeInsert BTreeTree BTreeRemove.

Section removal.
Context {V : Type} (leaf_max inner_max : nat).

#[local] Abbreviation nok m := (@node_ok V leaf_max inner_max m _).
#[local] Abbreviation iok h m := (@node_ok V leaf_max inner_max m (S h)).
#[local] Abbreviation leaf_ok m := (@node_ok V leaf_max inner_max m 0).
#[local] Abbreviation tree := (@tree V).
#[local] Abbreviation tree_ok := (@tree_ok V leaf_max inner_max).

(** What a method that removes does to a leaf. *)
Record erase_op (f : leaf V -> bool * leaf V) (g : list (Z * V) -> list (Z * V)) (b : list (Z * V) -> bool) : Prop := EraseOp {
  eo_result l : ascending (l_keys l) -> f l = (b (l_data l), with_data (g (l_data l)) l);
  eo_keys d x : x ∈ fst <$> g d -> x ∈ fst <$> d;
  eo_ascending d : ascending (fst <$> d) -> ascending (fst <$> g d);
  eo_length d : length d = (length (g d) + if b d then 1 else 0)%nat
}.

Lemma leaf_remove_op k : erase_op (leaf_remove k) (del k) (has k).
Proof using Type.
  constructor; [|apply del_keys|apply del_ascending|apply del_length].
  intros l Hs. unfold leaf_remove. rewrite key_at_has by done. destruct (entries_split (l_data l) k Hs) as (d1 & d2 & E & Hpos & H1 & H2).
  unfold l_keys in *. rewrite Hpos, E. rewrite del_app_r by (intros x Hx; specialize (H1 x Hx); lia). rewrite E, fmap_app in Hs. apply ascending_app in Hs as (_ & Hs & _).
  pose proof (split_head d2 k Hs H2) as Hh. unfold has. rewrite get_app_r by (intros x Hx; specialize (H1 x Hx); lia).
  destruct d2 as [|[x w] r].
  - cbn. rewrite <- E. now destruct l.
  - destruct Hh as [(-> & Hg & _ & Hd)|(Hlt & Hg & Hd)]; rewrite Hg, Hd.
    + unfold leaf_erase. now rewrite E, cut_at.
    + rewrite <- E. now destruct l.
Qed.

Lemma erase_leaf_ok f g b m lo hi (l : leaf V) :
  erase_op f g b -> leaf_ok m lo hi l ->
  f l = (b (l_data l), with_data (g (l_data l)) l) /\ leaf_ok false lo hi (with_data (g (l_data l)) l).
Proof using Type.
  intros Hop (H1 & H2 & H3 & _). split; [now apply (eo_result _ _ _ Hop)|]. unfold l_keys in *. split; [|split; [|split]]; [| | |easy].
  - now apply (eo_ascending _ _ _ Hop).
  - intros x Hx. apply H2. now apply (eo_keys _ _ _ Hop).
  - cbn. pose proof (eo_length _ _ _ Hop (l_data l)). lia.
Qed.

Definition erased (ok : bool) : list event := if ok then [Erased] else [].

(** What a pass of a removal has done below a node. *)
Definition removed_ok {h} (k : Z) (g : list (Z * V) -> list (Z * V)) (b : list (Z * V) -> bool) (lo hi : option Z) (n : node V h)
    (res : bool * node V h * bool * bool * list event) : Prop :=
  let '(ok, n', up, change_root, es) := res in
  exists L1 l L2 es', leaves n = L1 ++ l :: L2 /\ find_leaf k n = Some l /\ around k L1 L2 /\ ok = b (l_data l) /\ es = erased ok ++ es' /\
    shrunk es' (L1 ++ with_data (g (l_data l)) l :: L2) (leaves n') /\ nok false lo hi n' /\
    (up = false -> count n' <> 0%nat) /\ (up = true -> (5 * count n' <= 2 * max_entries leaf_max inner_max h)%nat) /\
    (change_root = true <-> not_leaf h = true /\ count n' = 0%nat).

Lemma remove_in_inner k f {h} ks (cs : list (node V h)) :
  remove_in leaf_max inner_max k f (h := S h) (Inner ks cs) =
  c ← cs !! lowerBound ks k;
  '(ok, c', merge, _, es) ← remove_in leaf_max inner_max k f c;
  if merge : bool then
    '(n2, change_root, up, es2) ← erase_merge leaf_max inner_max (lowerBound ks k) (set_child (lowerBound ks k) c' (Inner ks cs));
    Some (ok, n2, up, change_root, es ++ es2)
  else Some (ok, set_child (lowerBound ks k) c' (Inner ks cs), false, false, es).
Proof using Type. easy. Qed.

(** ** Links that are changed *)

Lemma leaves_map (f : leaf V -> leaf V) {h} (n : node V h) : leaves (map_leaves f n) = f <$> leaves n.
Proof using Type.
  induction h as [|h IH]; [easy|]. destruct n as [ks cs]. change (leaves_of (map_leaves f <$> cs) = f <$> leaves_of cs).
  induction cs as [|c cs IHc]; [easy|]. rewrite fmap_cons, !leaves_of_cons, fmap_app, IHc. f_equal. apply IH.
Qed.

Lemma map_leaves_ok (f : leaf V -> leaf V) : (forall l, l_data (f l) = l_data l) -> forall {h} m lo hi (n : node V h), nok m lo hi n -> nok m lo hi (map_leaves f n).
Proof using Type.
  intros Hf. induction h as [|h IH]; intros m lo hi n.
  - cbn. unfold l_keys. now rewrite Hf.
  - destruct n as [ks cs]. change (map_leaves f (h := S h) (Inner ks cs)) with (Inner ks (map_leaves f <$> cs)). intros (H1 & H2 & H3).
    apply inner_ok. split; [exact H1|]. split; [exact H2|]. cbn [i_keys i_children] in H3. clear H1 H2. revert lo cs H3.
    induction ks as [|k ks IHk]; intros lo [|c cs]; cbn [between_keys fmap list_fmap]; try easy.
    + destruct cs; [|easy]. apply IH.
    + intros (H1 & H2 & H3). split; [exact H1|]. split; [now apply IH|now apply IHk].
Qed.

Lemma map_ents (f : leaf V -> leaf V) L : (forall l, l_data (f l) = l_data l) -> ents (f <$> L) = ents L.
Proof using Type. intros Hf. induction L as [|l L IH]; [easy|]. rewrite fmap_cons, !ents_cons. now rewrite IH, Hf. Qed.

Lemma map_leaves_linked (f : leaf V -> leaf V) a L :
  (forall l, l_addr (f l) = l_addr l) -> (forall l, l_next (f l) = l_next l) -> leaves_ok a L -> leaves_ok a (f <$> L).
Proof using Type.
  intros Ha Hn [H1 H2 H3]. assert (E : l_addr <$> (f <$> L) = l_addr <$> L).
  { rewrite <- list_fmap_compose. apply list_fmap_ext. intros i x _. apply Ha. }
  constructor; rewrite ?E; auto. clear -Ha Hn H1. induction L as [|l L IH]; [easy|]. destruct H1 as [H1 H2]. cbn. split; [|now apply IH].
  rewrite Hn, H1. destruct L; cbn; [easy|]. now rewrite Ha.
Qed.

(** ** Removal from a tree *)

(** The invariant, but for [m] merges that the counter has still to see. *)
Record nearly_ok (m : nat) (t : tree) : Prop := NearlyOk {
  no_nodes : nok (not_leaf (height t)) None None (root t);
  no_leaves : leaves_ok (next_addr t) (tree_leaves t);
  no_items : num_items t = wrap 64 (Z.of_nat (length (tree_entries t)));
  no_leaf_nodes : leaf_nodes t = wrap 64 (Z.of_nat (length (tree_leaves t) + m))
}.

Lemma calm_event_ok e m t :
  calm e -> nearly_ok (is_merge e + m) t -> nearly_ok m (apply_event e t) /\ tree_entries (apply_event e t) = tree_entries t.
Proof using Type.
  intros He [H1 H2 H3 H4]. destruct t as [h r a i ln ni]. unfold tree_leaves, tree_entries, entries in *.
  destruct e as [addr to| | | | | |]; try easy; cbn [apply_event is_merge height root next_addr num_items leaf_nodes] in *.
  - assert (Hd : forall l : leaf V, l_data (set_pre_of addr to l) = l_data l) by (intros l; unfold set_pre_of; now destruct (_ =? _)).
    assert (Ha : forall l : leaf V, l_addr (set_pre_of addr to l) = l_addr l) by (intros l; unfold set_pre_of; now destruct (_ =? _)).
    assert (Hn : forall l : leaf V, l_next (set_pre_of addr to l) = l_next l) by (intros l; unfold set_pre_of; now destruct (_ =? _)).
    unfold tree_leaves, tree_entries, entries. cbn [root]. rewrite leaves_map, map_ents by done. split; [|easy].
    constructor; unfold tree_leaves, tree_entries, entries; cbn [height root next_addr num_items leaf_nodes]; rewrite ?leaves_map, ?map_ents, ?length_fmap by done; auto.
    + now apply map_leaves_ok.
    + now apply map_leaves_linked.
  - split; [|easy]. constructor; auto; unfold tree_leaves, tree_entries, entries; cbn [height root next_addr num_items leaf_nodes]; auto.
    rewrite H4, wrap_sub_l. f_equal. lia.
Qed.

Lemma apply_events_app es1 es2 (t : tree) : apply_events (es1 ++ es2) t = apply_events es2 (apply_events es1 t).
Proof using Type. apply foldl_app. Qed.

Lemma calm_events_ok es : forall t, Forall calm es -> nearly_ok (merges es) t ->
  tree_ok (apply_events es t) /\ tree_entries (apply_events es t) = tree_entries t.
Proof using Type.
  induction es as [|e es IH]; intros t Hes Ht.
  - split; [|easy]. destruct Ht as [H1 H2 H3 H4]. rewrite Nat.add_0_r in H4. now constructor.
  - apply Forall_cons in Hes as [He Hes]. change (merges (e :: es)) with (is_merge e + merges es)%nat in Ht.
    destruct (calm_event_ok e (merges es) t He Ht) as [Ht' E]. change (apply_events (e :: es) t) with (apply_events es (apply_event e t)).
    destruct (IH _ Hes Ht') as [H1 H2]. split; [exact H1|]. now rewrite H2.
Qed.

(** A root whose leaves are those of [t] with one changed and some merged. *)
Lemma erased_tree_ok {h'} (r : node V h') t L1 l L2 d ok es :
  tree_ok t -> tree_leaves t = L1 ++ l :: L2 -> length (l_data l) = (length d + if ok : bool then 1 else 0)%nat ->
  shrunk es (L1 ++ with_data d l :: L2) (leaves r) -> nok (not_leaf h') None None r ->
  tree_ok (apply_events (erased ok ++ es) (with_root r t)) /\
  tree_entries (apply_events (erased ok ++ es) (with_root r t)) = ents L1 ++ d ++ ents L2.
Proof using Type.
  intros [_ Hlv Hit Hln] El Hlen Hsh Hr. unfold tree_entries, entries, tree_leaves in *. rewrite El in Hlv, Hit, Hln.
  assert (Hents : ents (leaves r) = ents L1 ++ d ++ ents L2) by (rewrite (sh_ents _ _ _ Hsh), ents_app; easy).
  pose proof (sh_length _ _ _ Hsh) as Hshl. rewrite length_app in Hshl. cbn in Hshl.
  assert (Hlv' : leaves_ok (next_addr t) (leaves r)).
  { apply (shrunk_leaves_ok _ _ _ _ Hsh). destruct Hlv as [G1 G2 G3]. rewrite fmap_app, fmap_cons in *.
    constructor; rewrite ?fmap_app, ?fmap_cons; auto. apply linked_app in G1 as [G1 [G4 G5]]. apply linked_app. now split_and!. }
  rewrite ents_app, ents_cons, !length_app in Hit. rewrite apply_events_app, <- Hents.
  assert (E : apply_events (erased ok) (with_root r t) = MkTree h' r (next_addr t) (inner_nodes t) (leaf_nodes t) (wrap 64 (Z.of_nat (length (ents (leaves r)))))).
  { unfold with_root. rewrite Hit, Hents, !length_app. destruct ok; cbn [erased apply_events foldl apply_event]; rewrite ?wrap_sub_l;
      (do 2 f_equal; lia). }
  rewrite E. apply calm_events_ok; [apply (sh_calm _ _ _ Hsh)|].
  constructor; unfold tree_leaves, tree_entries, entries; cbn [root height next_addr num_items leaf_nodes]; auto.
  rewrite Hln, length_app. cbn. f_equal. lia.
Qed.

Context (Hleaf : (3 <= leaf_max)%nat) (Hinner : (5 <= inner_max)%nat).

Lemma remove_in_ok k f g b {h} : erase_op f g b -> forall lo hi (n : node V h), nok (not_leaf h) lo hi n -> within lo hi k ->
  exists res, remove_in leaf_max inner_max k f n = Some res /\ removed_ok k g b lo hi n res.
Proof using Hleaf Hinner.
  intros Hop. induction h as [|h IH]; intros lo hi n Hn Hk.
  - destruct (erase_leaf_ok f g b _ _ _ _ Hop Hn) as [E Hok]. cbn [remove_in]. rewrite E. eexists. split; [reflexivity|].
    exists [], n, [], []. split; [easy|]. split; [easy|]. split; [split; intros x Hx; now apply elem_of_nil in Hx|]. split; [easy|].
    split; [now rewrite app_nil_r|]. split; [apply shrunk_refl|]. split; [exact Hok|]. unfold needMerge. split; [|split].
    + intros H%Nat.leb_gt E0. rewrite E0 in H. lia.
    + intros H%Nat.leb_le. exact H.
    + split; [easy|]. now intros [H _].
  - destruct n as [ks cs]. apply inner_ok in Hn as (Hlen & Hne & Hcs). specialize (Hne eq_refl). cbn [i_keys i_children] in *. rewrite remove_in_inner.
    destruct (pick_child _ _ _ _ _ k Hcs Hk) as (ks1 & ks2 & cs1 & c & cs2 & -> & -> & Hlk & Hpos & Hget & Hw & H1 & H2).
    rewrite Hpos, Hget. cbn [mbind option_bind]. pose proof Hcs as Hcs'. rewrite between_keys_mid in Hcs' by done. destruct Hcs' as (Hl & Hc & Hr).
    destruct (IH _ _ c (node_ok_weaken _ _ (not_leaf h) _ _ _ Hc) Hw) as ([[[[ok c'] merge] cr] es] & E & L1 & l & L2 & es' & El & Hf & Har & Hb & He & Hsh & Hc' & Hup & Hmerge & _).
    rewrite E. cbn [mbind option_bind]. rewrite set_child_at.
    assert (Hcommon : forall n' es2, shrunk es2 (leaves_of (cs1 ++ c' :: cs2)) n' ->
      exists L1' L2', leaves_of (cs1 ++ c :: cs2) = L1' ++ l :: L2' /\ find_leaf (h := S h) k (Inner (ks1 ++ ks2) (cs1 ++ c :: cs2)) = Some l /\
        around k L1' L2' /\ shrunk (es' ++ es2) (L1' ++ with_data (g (l_data l)) l :: L2') n').
    { intros n' es2 H. exists (leaves_of cs1 ++ L1), (L2 ++ leaves_of cs2). split; [|split; [|split]].
      - now rewrite leaves_of_app, leaves_of_cons, El, <- !app_assoc.
      - rewrite find_leaf_inner, Hpos, Hget. exact Hf.
      - eapply around_child; eauto.
      - eapply shrunk_trans; [|exact H]. rewrite leaves_of_app, leaves_of_cons.
        replace ((leaves_of cs1 ++ L1) ++ with_data (g (l_data l)) l :: L2 ++ leaves_of cs2) with
          (leaves_of cs1 ++ (L1 ++ with_data (g (l_data l)) l :: L2) ++ leaves_of cs2) by now rewrite <- !app_assoc.
        now apply shrunk_app. }
    destruct merge.
    + destruct (erase_merge_ok _ _ Hleaf Hinner lo hi ks1 ks2 cs1 c' cs2) as ([[[n2 cr2] up] es2] & -> & Hn2 & Hcr2 & Hup2 & Hmerge2 & Hsh2); auto; [now constructor|].
      cbn [mbind option_bind]. eexists. split; [reflexivity|]. destruct (Hcommon _ _ Hsh2) as (L1' & L2' & G1 & G2 & G3 & G4).
      exists L1', l, L2', (es' ++ es2). split; [exact G1|]. split; [exact G2|]. split; [exact G3|]. split; [exact Hb|]. split; [now rewrite He, app_assoc|].
      split; [exact G4|]. split; [exact Hn2|]. cbn [count max_entries not_leaf]. split; [|split; [exact Hmerge2|]].
      * intros H E0. apply (Hup2 H). now apply length_zero_iff_nil.
      * rewrite Hcr2, <- length_zero_iff_nil. tauto.
    + eexists. split; [reflexivity|]. destruct (Hcommon (leaves_of (cs1 ++ c' :: cs2)) []) as (L1' & L2' & G1 & G2 & G3 & G4); [apply shrunk_refl|].
      rewrite app_nil_r in G4. exists L1', l, L2', es'. split; [exact G1|]. split; [exact G2|]. split; [exact G3|]. split; [exact Hb|]. split; [exact He|].
      split; [exact G4|].
      assert (Hks : length (ks1 ++ ks2) <> 0%nat) by (intros E0; apply Hne; now apply length_zero_iff_nil).
      split; [|split; [easy|split; [easy|]]].
      * apply inner_ok. split; [exact Hlen|]. split; [easy|]. apply between_keys_mid; [done|]. split; [exact Hl|]. split; [|exact Hr]. apply nonempty_ok; auto.
      * split; [easy|]. intros [_ H]. now destruct Hks.
Qed.
Lemma remove_with_ok k f g b t :
  erase_op f g b -> tree_ok t ->
  exists t' L1 l L2, remove_with leaf_max inner_max k f t = Some (b (l_data l), t') /\ tree_leaves t = L1 ++ l :: L2 /\
    find_leaf k (root t) = Some l /\ around k L1 L2 /\ tree_ok t' /\ tree_entries t' = ents L1 ++ g (l_data l) ++ ents L2.
Proof using Hleaf Hinner.
  intros Hop [Hn Hlv Hit Hln]. destruct t as [h r a i ln ni].
  destruct (remove_in_ok k f g b Hop _ _ _ Hn) as ([[[[ok n'] up] cr] es] & E & L1 & l & L2 & es' & El & Hf & Har & Hb & He & Hsh & Hn' & Hup & _ & Hcr); [easy|].
  unfold remove_with. rewrite E. cbn [mbind option_bind root height] in *. pose proof (eo_length _ _ _ Hop (l_data l)) as Hlen. rewrite <- Hb in Hlen.
  assert (Hfin : forall h' (r' : node V h'), nok (not_leaf h') None None r' -> leaves r' = leaves n' ->
    tree_ok (apply_events es (with_root r' (MkTree h r a i ln ni))) /\
    tree_entries (apply_events es (with_root r' (MkTree h r a i ln ni))) = ents L1 ++ g (l_data l) ++ ents L2).
  { intros h' r' Hr' Elr. rewrite He. apply (erased_tree_ok r' _ L1 l L2 _ ok es'); auto; [now constructor|]. now rewrite Elr. }
  destruct h as [|h].
  - eexists _, L1, l, L2. cbn [mbind option_bind]. rewrite Hb. split; [reflexivity|]. split; [exact El|]. split; [exact Hf|]. split; [exact Har|]. now apply (Hfin 0%nat n').
  - destruct n' as [ks cs]. destruct cr.
    + destruct Hcr as [Hcr _]. destruct (Hcr eq_refl) as [_ Hks]. apply length_zero_iff_nil in Hks. cbn [i_keys] in Hks. subst ks.
      apply inner_ok in Hn' as (_ & _ & Hc). cbn [i_keys i_children between_keys] in Hc. destruct cs as [|c [|c2 cs]]; try easy.
      eexists _, L1, l, L2. cbn [mbind option_bind head i_children]. rewrite Hb. split; [reflexivity|]. split; [exact El|]. split; [exact Hf|]. split; [exact Har|].
      apply (Hfin h c); [now apply node_ok_weaken|]. rewrite leaves_inner, leaves_of_cons. symmetry. apply app_nil_r.
    + eexists _, L1, l, L2. cbn [mbind option_bind]. rewrite Hb. split; [reflexivity|]. split; [exact El|]. split; [exact Hf|]. split; [exact Har|].
      apply (Hfin (S h) (Inner ks cs : node V (S h))); [|easy]. apply nonempty_ok; [exact Hn'|]. intros E0. destruct Hcr as [_ Hcr]. now specialize (Hcr (conj eq_refl E0)).
Qed.
End removal.

Section spec.
Context {V : Type} (leaf_max inner_max : nat).

(** ** Operations and their answers *)

Inductive op := Lookup (k : Z) | Insert (k : Z) (v : V) | Remove (k : Z).
Inductive answer := Found (v : option V) | Success (b : bool).

Definition exec (o : op) (t : tree) : option (answer * tree) :=
  match o with
  | Lookup k => v ← lookup k t; Some (Found v, t)
  | Insert k v => '(b, t') ← insert leaf_max inner_max k v t; Some (Success b, t')
  | Remove k => '(b, t') ← remove leaf_max inner_max k t; Some (Success b, t')
  end.
Fixpoint exec_all (os : list op) (t : tree) : option (list answer * tree) :=
  match os with
  | [] => Some ([], t)
  | o :: os => '(a, t1) ← exec o t; '(rs, t2) ← exec_all os t1; Some (a :: rs, t2)
  end.

(** The same on an ordered list: insertion keeps a value that is there. *)
Definition answer_of (o : op) (l : list (Z * V)) : answer * list (Z * V) :=
  match o with
  | Lookup k => (Found (get k l), l)
  | Insert k v => (Success (negb (has k l)), put k v l)
  | Remove k => (Success (has k l), del k l)
  end.
Fixpoint answers (os : list op) (l : list (Z * V)) : list answer * list (Z * V) :=
  match os with
  | [] => ([], l)
  | o :: os => let '(a, l1) := answer_of o l in let '(rs, l2) := answers os l1 in (a :: rs, l2)
  end.

Context (Hleaf : (3 <= leaf_max)%nat) (Hinner : (5 <= inner_max)%nat).

Lemma remove_ok k (t : @tree V) : tree_ok leaf_max inner_max t ->
  exists t', remove leaf_max inner_max k t = Some (has k (tree_entries t), t') /\ tree_ok leaf_max inner_max t' /\ tree_entries t' = del k (tree_entries t).
Proof using Hleaf Hinner.
  intros Ht. destruct (remove_with_ok _ _ Hleaf Hinner k _ _ _ t (leaf_remove_op k) Ht) as (t' & L1 & l & L2 & E & El & _ & Har & Ht' & Hents).
  exists t'. unfold remove. rewrite E, Hents. unfold tree_entries, entries, tree_leaves in *. rewrite El. pose proof Har as [H1 H2].
  split; [unfold has; now rewrite get_around|]. split; [exact Ht'|]. rewrite ents_app, ents_cons.
  rewrite del_app_r by (intros x Hx; specialize (H1 x Hx); lia). f_equal. symmetry. apply del_app_l. intros x Hx. specialize (H2 x Hx). lia.
Qed.

Lemma exec_ok o (t : @tree V) : tree_ok leaf_max inner_max t ->
  exists t', exec o t = Some (fst (answer_of o (tree_entries t)), t') /\ tree_ok leaf_max inner_max t' /\ tree_entries t' = snd (answer_of o (tree_entries t)).
Proof using Hleaf Hinner.
  intros Ht. destruct o as [k|k v|k]; cbn [exec answer_of fst snd].
  - exists t. now rewrite (lookup_ok _ _ _ k Ht).
  - destruct (insert_ok _ _ Hleaf Hinner k v t Ht) as (t' & -> & Ht' & E). eauto.
  - destruct (remove_ok k t Ht) as (t' & -> & Ht' & E). eauto.
Qed.

Lemma exec_all_ok os : forall t, tree_ok leaf_max inner_max t ->
  exists t', exec_all os t = Some (fst (answers os (tree_entries t)), t') /\ tree_ok leaf_max inner_max t' /\ tree_entries t' = snd (answers os (tree_entries t)).
Proof using Hleaf Hinner.
  induction os as [|o os IH]; intros t Ht; [now exists t|]. cbn [exec_all answers].
  destruct (exec_ok o t Ht) as (t1 & -> & Ht1 & E1). cbn [mbind option_bind]. destruct (IH t1 Ht1) as (t2 & -> & Ht2 & E2). cbn [mbind option_bind].
  rewrite E1 in *. destruct (answer_of o (tree_entries t)) as [a l1]. cbn [fst snd] in *. destruct (answers os l1) as [rs l2]. eauto.
Qed.

(** C13: The B+ tree refines an ordered association list.  For leaves of at least 3
    and inner nodes of at least 5 entries, and no other threads: whatever lookups,
    insertions and removals are made on a new tree, every operation comes to an
    end without a bad access, its answer is that of the list, and afterwards the
    entries of the leaves from left to right are the list.  The tree is then well
    formed: keys ascend, every key lies between the separators above it, no node
    is over its capacity and none but a lone leaf empty, the [next_] links run
    through all leaves in order, and the counters of items and leaves are right.
    (The [pre_] links and the counter of inner nodes are not covered.) *)
Theorem btree_refines os :
  exists t, exec_all os new_tree = Some (fst (answers os []), t) /\
    tree_entries t = snd (answers os []) /\ tree_ok leaf_max inner_max t.
Proof using Hleaf Hinner.
  destruct (exec_all_ok os new_tree (new_tree_ok leaf_max inner_max)) as (t & E & Ht & El). eauto.
Qed.
End spec.
