(* ===== verification/BTreeScan.v ===== *)
(** * Scans and neighbouring keys of a B+ tree

    The methods of common/btree_olc/BTreeOLC.h that next-key locking uses: range
    scans, and lookups, insertions and removals that show the neighbours of a key
    to a processor.  A processor changes a state of its own; what it is shown is
    proved to be what the ordered list of entries has at that place. *)

From S2P Require Import Prelude BTreeNode BTree BTreeInv BTreeInsert BTreeTree BTreeRemove BTreeSpec.

Section methods.
Context {V S : Type} (leaf_max inner_max : nat).
Implicit Types (t : @tree V) (s : S) (k : Z).

(** Following a link. *)
Fixpoint leaf_at (a : Z) (L : list (leaf V)) : option (leaf V) :=
  match L with [] => None | l :: L => if l_addr l =? a then Some l else leaf_at a L end.

(** ** [scanForUpdate] *)

(** The loop over a leaf from a position on; [None] is a failed [CHECK]. *)
Fixpoint scan_leaf (p : S -> Z -> V -> bool -> bool * S) (low : Z) (no_next : bool) (d : list (Z * V)) s : option (bool * S) :=
  match d with
  | [] => Some (false, s)
  | (k, v) :: d =>
      if k <? low then None
      else
        let lastItem := no_next && match d with [] => true | _ => false end in
        let '(stop, s') := p s k v lastItem in
        if stop : bool then Some (true, s') else scan_leaf p low no_next d s'
  end.

(** One leaf: the state, and the key to go on from. *)
Definition scan_pass p (low : Z) t s : option (S * option Z) :=
  l ← find_leaf low (root t);
  '(quit, s') ← scan_leaf p low (match l_next l with None => true | _ => false end) (drop (lowerBound (l_keys l) low) (l_data l)) s;
  if quit : bool then Some (s', None)
  else match l_next l with
       | None => Some (s', None)
       | Some a => nl ← leaf_at a (leaves (root t)); Some (s', fst <$> head (l_data nl))
       end.

Fixpoint scan_loop (fuel : nat) p (low : Z) t s : option S :=
  match fuel with
  | O => None
  | Datatypes.S fuel =>
      '(s', more) ← scan_pass p low t s;
      match more with Some low' => scan_loop fuel p low' t s' | None => Some s' end
  end.

Definition scanForUpdate p (startKey : Z) t s : option S := scan_loop (length (leaves (root t))) p startKey t s.

(** ** The neighbours of a key *)

(** The entry before position [pos] of a leaf, and the one after it. *)
Definition prev_entry (pos : nat) (l : leaf V) t : option (option (Z * V)) :=
  match pos with
  | O => match l_pre l with
         | None => Some None
         | Some a => pl ← leaf_at a (leaves (root t)); Some (last (l_data pl))
         end
  | Datatypes.S p => e ← l_data l !! p; Some (Some e)
  end.
Definition next_entry (pos : nat) (l : leaf V) t : option (option (Z * V)) :=
  if (pos <? length (l_data l) - 1)%nat then e ← l_data l !! Datatypes.S pos; Some (Some e)
  else match l_next l with
       | None => Some None
       | Some a => nl ← leaf_at a (leaves (root t)); Some (head (l_data nl))
       end.

(** [_lookupForUpdate]: what the processor is shown, if it is called. *)
Definition lookupForUpdate k t : option (option (Z * V)) :=
  l ← find_leaf k (root t);
  let pos := lowerBound (l_keys l) k in
  if key_at pos k l then e ← l_data l !! pos; Some (Some e) else Some None.

(** [_lookupForNextKeyUpdate]: previous, current and next entry. *)
Definition lookupForNextKeyUpdate k t : option (option (option (Z * V) * (Z * V) * option (Z * V))) :=
  l ← find_leaf k (root t);
  let pos := lowerBound (l_keys l) k in
  if key_at pos k l then
    cur ← l_data l !! pos;
    prev ← prev_entry pos l t;
    next ← next_entry pos l t;
    Some (Some (prev, cur, next))
  else Some None.

(** ** Insertion *)

(** Full nodes on the way to the key are split, from the root again each time,
    until the leaf has room. *)
Fixpoint settle (fuel : nat) k t : option tree :=
  match fuel with
  | O => None
  | Datatypes.S fuel =>
      p ← insert_pass leaf_max inner_max true k (fun l => (false, l)) t;
      match p with Restart t' => settle fuel k t' | Done _ _ => Some t end
  end.

(** The entry at the position of a key that is not there; [CHECK(nextLeaf != nullptr)]. *)
Definition entry_at (pos : nat) (l : leaf V) t : option (Z * V) :=
  if (pos =? length (l_data l))%nat then
    a ← l_next l; nl ← leaf_at a (leaves (root t)); head (l_data nl)
  else l_data l !! pos.

(** [leaf->insert], which is checked to succeed. *)
Definition insert_here k (v : V) t : option tree :=
  p ← insert_pass leaf_max inner_max true k (leaf_insert k v) t;
  match p with Done true t' => Some t' | _ => None end.

Definition insert_lock_next_key k v (proc : S -> Z * V -> bool * S) t s : option (bool * tree * S) :=
  t' ← settle (Datatypes.S (fuel leaf_max inner_max t)) k t;
  l ← find_leaf k (root t');
  let pos := lowerBound (l_keys l) k in
  if key_at pos k l then Some (false, t', s)
  else
    next ← entry_at pos l t';
    let '(go, s') := proc s next in
    if go : bool then t'' ← insert_here k v t'; Some (true, t'', s') else Some (false, t', s').

Definition insert_and_process_adjacent_tuples k v (proc : S -> option (Z * V) -> Z * V -> bool * S) t s : option (bool * tree * S) :=
  t' ← settle (Datatypes.S (fuel leaf_max inner_max t)) k t;
  l ← find_leaf k (root t');
  let pos := lowerBound (l_keys l) k in
  if key_at pos k l then Some (false, t', s)
  else
    prev ← prev_entry pos l t';
    next ← entry_at pos l t';
    let '(go, s') := proc s prev next in
    if go : bool then t'' ← insert_here k v t'; Some (true, t'', s') else Some (false, t', s').

(** ** Removal *)

(** Nodes are merged even when nothing has been removed. *)
Definition remove_and_process_adjacent_tuples k (proc : S -> option (Z * V) * (Z * V) * option (Z * V) -> bool * S) t s : option (bool * tree * S) :=
  shown ← lookupForNextKeyUpdate k t;
  let '(go, s') := match shown with Some x => proc s x | None => (false, s) end in
  '(ok, t') ← remove_with leaf_max inner_max k (if go : bool then leaf_remove k else fun l => (false, l)) t;
  Some (ok, t', s').
End methods.

Section facts.
Context {V S : Type} (leaf_max inner_max : nat).
Implicit Types (L A B : list (leaf V)) (l : leaf V) (d : list (Z * V)).

#[local] Abbreviation nok m := (@node_ok V leaf_max inner_max m _).
#[local] Abbreviation tree_ok := (@tree_ok V leaf_max inner_max).

(** The entries before a key, from it on, and after it. *)
Definition smaller (k : Z) d : list (Z * V) := filter (fun e => fst e < k) d.
Definition from (k : Z) d : list (Z * V) := filter (fun e => k <= fst e) d.
Definition greater (k : Z) d : list (Z * V) := filter (fun e => k < fst e) d.

Lemma filter_all {X} (P : X -> Prop) `{forall x, Decision (P x)} (d : list X) : (forall e, e ∈ d -> P e) -> filter P d = d.
Proof using Type. induction d as [|e d IH]; intros Hd; [easy|]. rewrite filter_cons_True by (apply Hd; now left). f_equal. apply IH. intros x Hx. apply Hd. now right. Qed.
Lemma filter_none {X} (P : X -> Prop) `{forall x, Decision (P x)} (d : list X) : (forall e, e ∈ d -> ~ P e) -> filter P d = [].
Proof using Type. induction d as [|e d IH]; intros Hd; [easy|]. rewrite filter_cons_False by (apply Hd; now left). apply IH. intros x Hx. apply Hd. now right. Qed.

Lemma filter_left {X} (P : X -> Prop) `{forall x, Decision (P x)} (d1 d2 : list X) :
  (forall e, e ∈ d1 -> P e) -> (forall e, e ∈ d2 -> ~ P e) -> filter P (d1 ++ d2) = d1.
Proof using Type. intros H1 H2. now rewrite filter_app, filter_all, filter_none, app_nil_r. Qed.
Lemma filter_right {X} (P : X -> Prop) `{forall x, Decision (P x)} (d1 d2 : list X) :
  (forall e, e ∈ d1 -> ~ P e) -> (forall e, e ∈ d2 -> P e) -> filter P (d1 ++ d2) = d2.
Proof using Type. intros H1 H2. now rewrite filter_app, filter_none, filter_all. Qed.

(** A list cut at a key. *)
Lemma cut_filters k d1 d2 :
  (forall x, x ∈ fst <$> d1 -> x < k) -> (forall x, x ∈ fst <$> d2 -> k <= x) ->
  smaller k (d1 ++ d2) = d1 /\ from k (d1 ++ d2) = d2.
Proof using Type.
  intros H1 H2. split; [apply filter_left|apply filter_right]; intros e He%(list_elem_of_fmap_2 fst);
    (specialize (H1 _ He) || specialize (H2 _ He)); lia.
Qed.

Lemma cut_greater k d1 d2 :
  (forall x, x ∈ fst <$> d1 -> x <= k) -> (forall x, x ∈ fst <$> d2 -> k < x) -> greater k (d1 ++ d2) = d2.
Proof using Type.
  intros H1 H2. apply filter_right; intros e He%(list_elem_of_fmap_2 fst); (specialize (H1 _ He) || specialize (H2 _ He)); lia.
Qed.

Lemma leaf_at_mid A l B : NoDup (l_addr <$> (A ++ l :: B)) -> leaf_at (l_addr l) (A ++ l :: B) = Some l.
Proof using Type.
  induction A as [|x A IH]; cbn; [now rewrite Z.eqb_refl|]. intros [Hx Hd]%NoDup_cons. rewrite (proj2 (Z.eqb_neq _ _)); [now apply IH|].
  intros E. apply Hx. rewrite E, fmap_app, elem_of_app. right. now left.
Qed.

Lemma leaves_nonempty {h} : forall lo hi (n : node V h), nok true lo hi n -> forall l, l ∈ leaves n -> l_data l <> [].
Proof using Type.
  induction h as [|h IH]; intros lo hi n Hn l Hl.
  - cbn in Hl. apply elem_of_cons in Hl as [->|Hl]; [|now apply elem_of_nil in Hl]. now apply Hn.
  - destruct n as [ks cs]. apply inner_ok in Hn as (_ & _ & Hn). cbn [i_keys i_children] in Hn. rewrite leaves_inner in Hl. revert lo cs Hn Hl.
    induction ks as [|k ks IHk]; intros lo [|c cs]; cbn [between_keys]; try easy.
    + destruct cs; [|easy]. intros Hc. rewrite leaves_of_cons, app_nil_r. now apply (IH _ _ c Hc).
    + intros (_ & Hc & Hcs). rewrite leaves_of_cons. intros [Hl|Hl]%elem_of_app; [now apply (IH _ _ c Hc)|now apply (IHk _ _ Hcs)].
Qed.

(** In a tree with more than one leaf none is empty. *)
Lemma other_leaves t A l B : tree_ok t -> tree_leaves t = A ++ l :: B -> forall x, x ∈ A ++ B -> l_data x <> [].
Proof using Type.
  intros [Hn _ _ _] E x Hx. unfold tree_leaves in E. destruct t as [[|h] r a i ln ni]; cbn [root height not_leaf] in *.
  - cbn in E. destruct A as [|y [|z A]]; try easy. injection E as -> <-. now apply elem_of_nil in Hx.
  - apply (leaves_nonempty _ _ _ Hn). rewrite E. rewrite elem_of_app in *. rewrite elem_of_cons. tauto.
Qed.

Lemma keys_of_in l L k : l ∈ L -> k ∈ l_keys l -> k ∈ keys_of L.
Proof using Type. intros (A & B & ->)%list_elem_of_split Hk. rewrite keys_of_app, keys_of_cons, !elem_of_app. auto. Qed.

(** The leaf that has a key is the one that is found for it. *)
Lemma find_leaf_mem t A l B k :
  tree_ok t -> tree_leaves t = A ++ l :: B -> k ∈ l_keys l -> find_leaf k (root t) = Some l /\ around k A B.
Proof using Type.
  intros [Hn _ _ _] E Hk. destruct (find_leaf_ok _ _ k _ _ _ _ Hn) as (A' & l' & B' & Hf & E' & [H1 H2] & _); [easy|].
  unfold tree_leaves in E. rewrite E in E'. destruct (Nat.lt_total (length A) (length A')) as [Hlt|[Heq|Hgt]].
  - exfalso. assert (Hin : l ∈ A').
    { apply (list_elem_of_lookup_2 _ (length A)). rewrite <- (lookup_app_l A' (l' :: B')) by lia. rewrite <- E'. now apply list_lookup_middle. }
    specialize (H1 k (keys_of_in _ _ _ Hin Hk)). lia.
  - apply app_inj_1 in E' as [-> E']; [|exact Heq]. injection E' as -> ->. now split.
  - exfalso. assert (Hin : l ∈ B').
    { apply (list_elem_of_lookup_2 _ (length A - Datatypes.S (length A'))). replace B' with (drop (Datatypes.S (length A')) (A' ++ l' :: B')).
      - rewrite <- E', lookup_drop. apply list_lookup_middle. lia.
      - rewrite drop_app_ge by lia. now replace (Datatypes.S (length A') - length A')%nat with 1%nat by lia. }
    specialize (H2 k (keys_of_in _ _ _ Hin Hk)). lia.
Qed.

(** A key's place in a tree. *)
Record place (t : tree) (k : Z) A l B d1 d2 : Prop := Place {
  pl_leaves : tree_leaves t = A ++ l :: B;
  pl_find : find_leaf k (root t) = Some l;
  pl_around : around k A B;
  pl_sorted : ascending (l_keys l);
  pl_data : l_data l = d1 ++ d2;
  pl_pos : lowerBound (l_keys l) k = length d1;
  pl_left x : x ∈ fst <$> (ents A ++ d1) -> x < k;
  pl_right x : x ∈ fst <$> (d2 ++ ents B) -> k <= x
}.

Lemma place_entries t k A l B d1 d2 : place t k A l B d1 d2 -> tree_entries t = (ents A ++ d1) ++ d2 ++ ents B.
Proof using Type. intros [E _ _ _ Ed _ _ _]. unfold tree_entries, entries. unfold tree_leaves in E. rewrite E, ents_app, ents_cons, Ed. now rewrite <- !app_assoc. Qed.

Lemma place_ok t k : tree_ok t -> exists A l B d1 d2, place t k A l B d1 d2.
Proof using Type.
  intros Ht. pose proof Ht as [Hn _ _ _]. destruct (find_leaf_ok _ _ k _ _ _ _ Hn) as (A & l & B & Hf & E & Har & Hok); [easy|].
  destruct Hok as (Hs & _). destruct (entries_split (l_data l) k Hs) as (d1 & d2 & Ed & Hpos & H1 & H2). pose proof Har as [G1 G2].
  exists A, l, B, d1, d2. constructor; auto; intros x; rewrite fmap_app; intros [Hx|Hx]%elem_of_app; auto.
  specialize (G2 x Hx). lia.
Qed.
End facts.

(** ** Scans *)

Section scans.
Context {V S : Type} (leaf_max inner_max : nat) (p : S -> Z -> V -> bool -> bool * S).
Implicit Types (L A B : list (leaf V)) (l : leaf V) (d : list (Z * V)) (s : S).

#[local] Abbreviation tree_ok := (@tree_ok V leaf_max inner_max).

(** Going through an ordered list until the processor stops; the last item is
    marked. *)
Fixpoint scan_list d s : S :=
  match d with
  | [] => s
  | (k, v) :: d =>
      let '(stop, s') := p s k v (match d with [] => true | _ => false end) in
      if stop : bool then s' else scan_list d s'
  end.

Lemma scan_leaf_ok low no_next d rest :
  (forall x, x ∈ fst <$> d -> low <= x) -> (no_next = true <-> rest = []) ->
  forall s, exists quit s', scan_leaf p low no_next d s = Some (quit, s') /\
    scan_list (d ++ rest) s = if quit : bool then s' else scan_list rest s'.
Proof using Type.
  intros Hd Hn. induction d as [|[k v] d IH]; intros s; [now exists false, s|]. cbn [scan_leaf app scan_list].
  rewrite (proj2 (Z.ltb_ge _ _)) by (apply Hd; now left).
  assert (E : no_next && match d with [] => true | _ => false end = match d ++ rest with [] => true | _ => false end).
  { destruct d; cbn; [|apply andb_false_r]. rewrite andb_true_r. destruct no_next, rest; naive_solver. }
  rewrite E. destruct (p s k v _) as [[|] s']; [now exists true, s'|]. apply IH. intros x Hx. apply Hd. now right.
Qed.

Lemma first_addr_next t A l B : tree_ok t -> tree_leaves t = A ++ l :: B -> l_next l = first_addr B None.
Proof using Type. intros [_ [Hl _ _] _ _] E. unfold tree_leaves in *. rewrite E in Hl. now apply linked_app in Hl as [_ [Hl _]]. Qed.

Lemma next_leaf_at t A l nl B :
  tree_ok t -> tree_leaves t = A ++ l :: nl :: B -> l_next l = Some (l_addr nl) /\ leaf_at (l_addr nl) (leaves (root t)) = Some nl.
Proof using Type.
  intros Ht E. split; [now rewrite (first_addr_next t A l (nl :: B) Ht E)|]. destruct Ht as [_ [_ Hd _] _ _]. unfold tree_leaves in *. rewrite E in *.
  change (A ++ l :: nl :: B) with (A ++ [l] ++ nl :: B) in *. rewrite app_assoc in *. now apply leaf_at_mid.
Qed.

Lemma scan_loop_ok t : tree_ok t -> forall B n A l low s, tree_leaves t = A ++ l :: B -> find_leaf low (root t) = Some l ->
  (length B < n)%nat -> scan_loop n p low t s = Some (scan_list (drop (lowerBound (l_keys l) low) (l_data l) ++ ents B) s).
Proof using Type.
  intros Ht. induction B as [|nl B IH]; intros [|n] A l low s E Hf Hn; cbn [length] in Hn; try lia; cbn [scan_loop]; unfold scan_pass; rewrite Hf; cbn [mbind option_bind].
  all: pose proof (first_addr_next t A l _ Ht E) as Hnx; rewrite Hnx; cbn [first_addr].
  all: pose proof Ht as [Hok _ _ _]; destruct (node_keys _ _ _ _ _ _ Hok) as [Hs _]; unfold tree_leaves in E; rewrite E, keys_of_app, keys_of_cons in Hs;
    apply ascending_app in Hs as (_ & Hs & _); apply ascending_app in Hs as (Hs & _).
  all: destruct (entries_split (l_data l) low Hs) as (d1 & d2 & Ed & Hpos & _ & H2); unfold l_keys in *; rewrite Hpos, Ed, drop_app_length.
  - change (ents []) with (@nil (Z * V)). destruct (scan_leaf_ok low true d2 [] H2 ltac:(easy) s) as (quit & s' & -> & ->). cbn [mbind option_bind]. now destruct quit.
  - assert (Hnl : l_data nl <> []). { apply (other_leaves _ _ t A l (nl :: B) Ht E). rewrite elem_of_app. right. now left. }
    destruct (scan_leaf_ok low false d2 (ents (nl :: B)) H2) with (s := s) as (quit & s' & -> & ->).
    { split; [easy|]. rewrite ents_cons. now destruct (l_data nl). }
    cbn [mbind option_bind]. destruct quit; [easy|]. destruct (next_leaf_at t A l nl B Ht E) as [_ ->]. cbn [mbind option_bind].
    destruct (l_data nl) as [|[k v] d] eqn:Enl; [easy|]. cbn [head fmap option_fmap option_map fst].
    assert (E' : tree_leaves t = (A ++ [l]) ++ nl :: B) by (unfold tree_leaves; rewrite E; now rewrite <- app_assoc).
    destruct (find_leaf_mem _ _ t (A ++ [l]) nl B k Ht E') as [Hf' _]; [unfold l_keys; rewrite Enl; now left|].
    rewrite (IH n (A ++ [l]) nl k s' E' Hf') by lia. f_equal. f_equal.
    assert (Hs' : ascending (l_keys nl)).
    { destruct (node_keys _ _ _ _ _ _ Hok) as [Ha _]. unfold tree_leaves in E'. rewrite E', keys_of_app, keys_of_cons in Ha.
      apply ascending_app in Ha as (_ & Ha & _). now apply ascending_app in Ha as (Ha & _). }
    rewrite ents_cons, lowerBound_below by done. unfold l_keys in *. rewrite Enl in *. pose proof (below_app [] (fst <$> (k, v) :: d) k) as Hb; cbn [app length] in Hb; rewrite Hb; [easy|intros x Hx; now apply elem_of_nil in Hx|].
    apply ascending_cons in Hs' as [_ Hs']. intros x [->|Hx]%elem_of_cons; [cbn; lia|]. specialize (Hs' x Hx). cbn in *. lia.
Qed.

(** A range scan shows the processor exactly the entries from the start key
    on, in order and once each, until it stops; only the last entry of the tree is
    marked as the last.  The loop over the leaves ends and no check in it fails. *)
Lemma scan_shows t startKey s :
  tree_ok t -> scanForUpdate p startKey t s = Some (scan_list (from startKey (tree_entries t)) s).
Proof using Type.
  intros Ht. destruct (place_ok _ _ t startKey Ht) as (A & l & B & d1 & d2 & Hp). pose proof Hp as [E Hf _ _ Ed Hpos H1 H2].
  unfold scanForUpdate. rewrite (scan_loop_ok t Ht B _ A l startKey s E Hf) by (unfold tree_leaves in E; rewrite E, length_app; cbn; lia).
  rewrite (place_entries _ _ _ _ _ _ _ Hp), (proj2 (cut_filters _ _ _ H1 H2)). now rewrite Hpos, Ed, drop_app_length.
Qed.

End scans.

(** ** Neighbours *)

Section neighbours.
Context {V : Type} (leaf_max inner_max : nat).
Implicit Types (L A B : list (leaf V)) (l : leaf V) (d : list (Z * V)).

#[local] Abbreviation tree_ok := (@tree_ok V leaf_max inner_max).

(** The [pre_] links run through the leaves backwards, from [pv]. *)
Fixpoint back_linked (pv : option Z) L : Prop :=
  match L with [] => True | l :: L => l_pre l = pv /\ back_linked (Some (l_addr l)) L end.

Lemma back_linked_at A l B : forall pv, back_linked pv (A ++ l :: B) -> l_pre l = match last A with Some x => Some (l_addr x) | None => pv end.
Proof using Type.
  induction A as [|x A IH]; intros pv; cbn; [now intros [H _]|]. intros [_ H]. rewrite (IH _ H). fold (last (x :: A)). rewrite last_cons. now destruct (last A).
Qed.

Lemma head_app_nonempty {X} (l1 l2 : list X) : l1 <> [] -> head (l1 ++ l2) = head l1.
Proof using Type. now destruct l1. Qed.
Lemma last_app_nonempty {X} (l1 l2 : list X) : l2 <> [] -> last (l1 ++ l2) = last l2.
Proof using Type. destruct l2 as [|x l2 _] using rev_ind; [easy|]. intros _. now rewrite app_assoc, !last_snoc. Qed.

Section at_place.
Context (t : @tree V) (k : Z) (A : list (leaf V)) (l : leaf V) (B : list (leaf V)) (d1 d2 : list (Z * V)).
Context (Ht : tree_ok t) (Hp : place t k A l B d1 d2).

(** The head of the entries in the leaves to the right. *)
Lemma next_leaf_head :
  match l_next l with Some a => nl ← leaf_at a (leaves (root t)); head (l_data nl) | None => None end = head (ents B) /\
  (l_next l <> None -> exists nl, (a ← l_next l; leaf_at a (leaves (root t))) = Some nl /\ head (l_data nl) = head (ents B)).
Proof using Ht Hp.
  destruct Hp as [E _ _ _ _ _ _ _]. rewrite (first_addr_next _ _ t A l B Ht E). destruct B as [|nl B']; [now split|]. cbn [first_addr].
  destruct (next_leaf_at _ _ t A l nl B' Ht E) as [_ H]. cbn [mbind option_bind]. rewrite H. cbn [mbind option_bind]. rewrite ents_cons.
  assert (Hnl : l_data nl <> []) by (apply (other_leaves _ _ t A l (nl :: B') Ht E); rewrite elem_of_app; right; now left).
  rewrite head_app_nonempty by done. split; [easy|]. eauto.
Qed.

Lemma absent_greater : has k (tree_entries t) = false -> greater k (tree_entries t) = d2 ++ ents B.
Proof using Ht Hp.
  intros Hk. pose proof Hp as [E _ [_ G2] _ Ed _ H1 H2]. rewrite (place_entries _ _ _ _ _ _ _ Hp) in *. apply cut_greater.
  - intros x Hx. specialize (H1 x Hx). lia.
  - intros x Hx. specialize (H2 x Hx). destruct (decide (x = k)) as [->|]; [exfalso|lia]. unfold has in Hk.
    rewrite get_app_r in Hk by (intros y Hy; specialize (H1 y Hy); lia). clear -Hk Hx. induction (d2 ++ ents B) as [|[y v] d IH]; [now apply elem_of_nil in Hx|].
    cbn in *. destruct (Z.eqb_spec y k); [easy|]. apply elem_of_cons in Hx as [->|Hx]; [easy|now apply IH].
Qed.

Lemma entry_at_ok : has k (tree_entries t) = false -> entry_at (length d1) l t = head (greater k (tree_entries t)).
Proof using Ht Hp.
  intros Hk. rewrite absent_greater by done. pose proof Hp as [E _ _ _ Ed _ _ _]. pose proof next_leaf_head as [H _]. unfold entry_at. rewrite Ed, length_app.
  destruct d2 as [|e d2']; cbn [length app].
  - rewrite Nat.add_0_r, Nat.eqb_refl. rewrite <- H. now destruct (l_next l).
  - rewrite (proj2 (Nat.eqb_neq _ _)) by lia. now apply list_lookup_middle.
Qed.

Lemma present v : get k (tree_entries t) = Some v -> exists d3, d2 = (k, v) :: d3 /\ smaller k (tree_entries t) = ents A ++ d1 /\ greater k (tree_entries t) = d3 ++ ents B.
Proof using Ht Hp.
  intros Hk. pose proof Hp as [E _ [_ G2] _ Ed _ H1 H2]. pose proof Ht as [Hn _ _ _]. destruct (node_keys _ _ _ _ _ _ Hn) as [Hs _].
  change (ascending (fst <$> tree_entries t)) in Hs. rewrite (place_entries _ _ _ _ _ _ _ Hp) in *.
  rewrite get_app_r in Hk by (intros y Hy; specialize (H1 y Hy); lia).
  rewrite get_app_l in Hk by (intros y Hy; specialize (G2 y Hy); lia). rewrite fmap_app in Hs. apply ascending_app in Hs as (_ & Hs & _).
  destruct d2 as [|[x w] d3]; [easy|]. apply ascending_cons in Hs as [Hs0 Hs]. assert (k <= x) by (apply H2; now left).
  change (ascending (fst <$> (d3 ++ ents B))) in Hs0. change (forall y, y ∈ fst <$> (d3 ++ ents B) -> x < y) in Hs. cbn [get] in Hk.
  destruct (Z.eqb_spec x k) as [->|Hne].
  2:{ exfalso. rewrite get_None_ascending in Hk; [easy| |].
      - rewrite fmap_app in Hs0. now apply ascending_app in Hs0 as (Hs0 & _).
      - intros y Hy. assert (x < y) by (apply Hs; rewrite fmap_app; apply elem_of_app; now left). lia. }
  injection Hk as ->. exists d3. split; [easy|]. split; [apply (proj1 (cut_filters _ _ _ H1 H2))|].
  change ((ents A ++ d1) ++ ((k, v) :: d3) ++ ents B) with ((ents A ++ d1) ++ [(k, v)] ++ d3 ++ ents B). rewrite app_assoc. apply cut_greater; [|exact Hs].
  intros x. rewrite fmap_app. intros [Hx|Hx]%elem_of_app; [specialize (H1 x Hx); lia|]. apply elem_of_cons in Hx as [->|Hx]; [easy|now apply elem_of_nil in Hx].
Qed.

Lemma next_entry_ok v : get k (tree_entries t) = Some v -> next_entry (length d1) l t = Some (head (greater k (tree_entries t))).
Proof using Ht Hp.
  intros Hk. destruct (present v Hk) as (d3 & E2 & _ & ->). pose proof Hp as [E _ _ _ Ed _ _ _]. unfold next_entry. rewrite Ed, E2, length_app.
  cbn [length]. destruct d3 as [|e d3]; cbn [length app].
  - rewrite (proj2 (Nat.ltb_ge _ _)) by lia. destruct next_leaf_head as [H1 H2]. destruct (l_next l) as [a|]; [|now rewrite <- H1].
    destruct (H2 ltac:(easy)) as (nl & E' & <-). cbn [mbind option_bind] in E'. now rewrite E'.
  - rewrite (proj2 (Nat.ltb_lt _ _)) by lia. now rewrite lookup_next.
Qed.

Lemma prev_entry_ok : back_linked None (tree_leaves t) -> prev_entry (length d1) l t = Some (last (smaller k (tree_entries t))).
Proof using Ht Hp.
  intros Hb. pose proof Hp as [E _ _ _ Ed _ H1 H2]. rewrite (place_entries _ _ _ _ _ _ _ Hp), (proj1 (cut_filters _ _ _ H1 H2)). unfold prev_entry.
  destruct d1 as [|e d1' _] using rev_ind; cbn [length].
  - rewrite app_nil_r. rewrite E in Hb. rewrite (back_linked_at _ _ _ _ Hb). destruct A as [|pl A' _] using rev_ind; [easy|]. rewrite last_snoc.
    assert (Hpl : l_data pl <> []) by (apply (other_leaves _ _ t (A' ++ [pl]) l B Ht E); rewrite !elem_of_app; left; right; now left).
    rewrite <- app_assoc in E. cbn [app] in E. unfold tree_leaves in E. destruct Ht as [_ [_ Hd _] _ _]. unfold tree_leaves in Hd. rewrite E in *. rewrite leaf_at_mid by done. cbn [mbind option_bind].
    rewrite ents_app, ents_cons. change (ents []) with (@nil (Z * V)). now rewrite app_nil_r, last_app_nonempty.
  - rewrite length_app, Nat.add_1_r, app_assoc, last_snoc, Ed, <- app_assoc. cbn [app]. now rewrite (list_lookup_middle d1' d2 e _ eq_refl).
Qed.
End at_place.
End neighbours.
