(* ===== verification/BTreeCXL.v ===== *)
(** * The B+ tree in CXL memory, and the ordered CXL index

    common/btree_olc_cxl/BTreeOLC_CXL.h is the B+ tree of [BTree] over [offset_ptr],
    so that all hosts can follow its links; its nodes are those of [BTreeNode].
    It differs in its memory: a node is a page that comes from
    [cxlalloc_malloc_wrapper] and is counted as index memory, and a node that is no
    longer part of the tree is counted as freed and handed to [CXL_EBR].  The
    methods here are those of [BTree] with these effects.  [CXLTableBTreeOLC] of
    core/CXLTable.h, the index of ordered tables, is on top of it. *)

From S2P Require Import Prelude CXLMemory BTreeNode BTree BTreeScan.

Module BPlusTreeCXL.

(** A node is a page: [LeafPageSize], [InnerPageSize] and [kLeafPageSize]. *)
Definition kPageSize : Z := 4096.

Section tree.
Context {V : Type} (leaf_max inner_max : nat) (cfg : config).

(** The tree, the counters of CXL memory, and the numbers of pages that the tree has
    allocated and of those it has retired. *)
Record state := State { c_tree : @tree V; c_stats : cxl_stats; allocated : Z; retired : Z }.

Definition on_tree (f : @tree V -> @tree V) (c : state) : state :=
  State (f (c_tree c)) (c_stats c) (allocated c) (retired c).

(** [cxlalloc_malloc_wrapper(kPageSize, INDEX_ALLOCATION)] *)
Definition alloc_page (c : state) : state :=
  State (c_tree c) (add_usage cfg INDEX_ALLOCATION kPageSize (c_stats c)) (allocated c + 1) (retired c).
(** [cxlalloc_free_wrapper(node, kPageSize, INDEX_FREE)] and [add_retired_object] *)
Definition retire_page (c : state) : state :=
  State (c_tree c) (sub_usage cfg INDEX_ALLOCATION kPageSize (c_stats c)) (allocated c) (retired c + 1).

(** A split allocates a page, a merge retires one. *)
Definition page_event (e : event) (c : state) : state :=
  match e with
  | SplitLeaf | SplitInner => alloc_page c
  | MergedLeaf | MergedInner => retire_page c
  | Relink _ _ | Inserted | Erased => c
  end.
Definition do_event (e : event) (c : state) : state := page_event e (on_tree (apply_event e) c).
Definition do_events (es : list event) (c : state) : state := foldl (fun c e => do_event e c) c es.

(** The constructor. *)
Definition new_tree (s : cxl_stats) : state := alloc_page (State BTree.new_tree s 0 0).

Definition makeRoot {h} (k : Z) (leftChild rightChild : node V h) (c : state) : state :=
  on_tree (with_root (make_root k leftChild rightChild)) (alloc_page c).

(** ** [insert] *)

Definition insert_pass (k : Z) (f : leaf V -> bool * leaf V) (c : state) : option (pass state) :=
  match c_tree c with
  | MkTree O l a _ _ _ =>
      if leaf_full leaf_max l then
        '(p, es) ← split_full false a k f l;
        Some (pass_map (fun '(l1, sep, l2) => do_events es (makeRoot sep (l1 : node V 0) l2 c)) p)
      else
        let '(ok, l') := f l in
        Some (Done ok (do_events (did ok) (on_tree (with_root (l' : node V 0)) c)))
  | MkTree (S h) n a _ _ _ =>
      if inner_full inner_max (A := node V h) n then
        '(c1, sep, c2) ← inner_split (A := node V h) n;
        Some (Restart (do_events [SplitInner] (makeRoot sep (c1 : node V (S h)) c2 c)))
      else
        '(p, es) ← insert_in leaf_max inner_max false a k f n;
        Some (pass_map (fun n' => do_events es (on_tree (with_root (n' : node V (S h))) c)) p)
  end.

Fixpoint insert_loop (fuel : nat) (k : Z) (v : V) (c : state) : option (bool * state) :=
  match fuel with
  | O => None
  | S fuel =>
      p ← insert_pass k (leaf_insert k v) c;
      match p with Restart c' => insert_loop fuel k v c' | Done ok c' => Some (ok, c') end
  end.

Definition insert (k : Z) (v : V) (c : state) : option (bool * state) :=
  insert_loop (S (potential (root (c_tree c)))) k v c.

(** ** [remove], [lookup] and scans *)

(** The root that has lost its last key is retired. *)
Definition change_root {h} (n : inner (node V h)) (c : state) : option state :=
  child ← head (i_children n);
  Some (on_tree (with_root child) (retire_page c)).

Definition remove (k : Z) (c : state) : option (bool * state) :=
  '(ok, n, _, changeRoot, es) ← remove_in leaf_max inner_max k (leaf_remove k) (root (c_tree c));
  c' ← (match height (c_tree c) as h return node V h -> option state with
        | O => fun n => Some (on_tree (with_root (n : node V 0)) c)
        | S h => fun n =>
            if changeRoot : bool then change_root n c
            else Some (on_tree (with_root (n : node V (S h))) c)
        end) n;
  Some (ok, do_events es c').

Definition lookup (k : Z) (c : state) : option (option V) := BTree.lookup k (c_tree c).

Definition scanForUpdate {T} (processor : T -> Z -> V -> bool -> bool * T) (startKey : Z) (c : state) (s : T) : option T :=
  BTreeScan.scanForUpdate processor startKey (c_tree c) s.
End tree.
Arguments state : clear implicits.
End BPlusTreeCXL.

(** ** [CXLTableBTreeOLC] *)

Module CXLTableBTreeOLC.
Import BPlusTreeCXL.

Record BTreeOLCValue := Value { row : option Z; is_valid : bool }.

Definition valueComp (a b : BTreeOLCValue) : Z := if decide (row a = row b) then 0 else 1.

Section table.
Context (leaf_max inner_max : nat) (cfg : config).

(** A bad access of the tree is a fault. *)
Definition on_btree {A} (f : state BTreeOLCValue -> option (A * state BTreeOLCValue)) : M (state BTreeOLCValue) A := fun c =>
  match f c with Some (a, c') => Ret a c' | None => Fault end.

(** [search]: a null pointer if the key is not there. *)
Definition search (k : Z) : M (state BTreeOLCValue) (option Z) :=
  v ← deref (lookup k);
  match v with
  | Some value => CHECK (is_valid value);; mret (row value)
  | None => mret None
  end.

(** [scan]; the processor is given the key, the row and whether it is the last. *)
Definition scan {T} (min_key : Z) (scan_processor : T -> Z -> option Z -> bool -> bool * T) (s : T) : M (state BTreeOLCValue) T :=
  deref (fun c => scanForUpdate (fun s k value is_last_tuple => scan_processor s k (row value) is_last_tuple) min_key c s).

Definition insert (k : Z) (p : Z) (is_placeholder : bool) : M (state BTreeOLCValue) bool :=
  on_btree (insert leaf_max inner_max cfg k (Value (Some p) (negb is_placeholder))).

Definition remove (k : Z) (p : Z) : M (state BTreeOLCValue) bool :=
  success ← on_btree (remove leaf_max inner_max cfg k);
  CHECK success;;
  mret success.
End table.
End CXLTableBTreeOLC.
