(* ===== verification/BTreeAdjacent.v ===== *)
(** * What next-key locking sees of a B+ tree

    Insertions and removals that show the neighbours of their key to a processor,
    which decides whether they go on: they terminate, show the right entries and
    otherwise act on the ordered list like plain insertions and removals. *)

From S2P Require Import Prelude BTreeNode BTree BTreeInv BTreeInsert BTreeTree BTreeRemove BTreeSpec BTreeScan.

(** ** Passes that only split *)

Section kinds.
Context {V : Type} (leaf_max inner_max : nat).

Definition same_kind {X Y} (p : option (pass X * list event)) (q : option (pass Y * list event)) : Prop :=
  match p, q with
  | Some (Done _ _, _), Some (Done _ _, _) | Some (Restart _, _), Some (Restart _, _) | None, None => True
  | _, _ => False
  end.

(** With [split_restarts] whether a pass ends does not depend on what is done to
    the leaf. *)
Lemma insert_in_kind a k (f1 f2 : leaf V -> bool * leaf V) {h} : forall n : inner (node V h),
  same_kind (insert_in leaf_max inner_max true a k f1 n) (insert_in leaf_max inner_max true a k f2 n).
Proof using Type.
  induction h as [|h IH]; intros n; cbn [insert_in].
  - destruct (i_children n !! _) as [l|]; [|easy]. cbn [mbind option_bind]. destruct (leaf_full _ _).
    + unfold split_full. now destruct (leaf_split a l) as [[[l1 sep] l2]|].
    + now destruct (f1 l), (f2 l).
  - destruct (i_children n !! _) as [c|]; [|easy]. cbn [mbind option_bind]. destruct (inner_full _ _).
    + now destruct (inner_split c) as [[[c1 sep] c2]|].
    + specialize (IH c). destruct (insert_in _ _ _ _ _ f1 c) as [[[|] es]|], (insert_in _ _ _ _ _ f2 c) as [[[|] es']|]; easy.
Qed.

Definition is_done {X} (p : option (pass X)) : Prop := match p with Some (Done _ _) => True | _ => False end.

Lemma insert_pass_kind k (f1 f2 : leaf V -> bool * leaf V) t :
  is_done (insert_pass leaf_max inner_max true k f1 t) -> is_done (insert_pass leaf_max inner_max true k f2 t).
Proof using Type.
  destruct t as [[|h] r a i ln ni].
  - cbn [insert_pass]. destruct (leaf_full _ _).
    + unfold split_full. now destruct (leaf_split _ r) as [[[l1 sep] l2]|].
    + now destruct (f1 r), (f2 r).
  - rewrite !insert_pass_inner. destruct (inner_full _ _); [now destruct (inner_split _) as [[[c1 sep] c2]|]|].
    pose proof (insert_in_kind a k f1 f2 (h := h) r) as Hk.
    destruct (insert_in _ _ _ _ _ f1 _) as [[[|] es]|], (insert_in _ _ _ _ _ f2 _) as [[[|] es']|]; easy.
Qed.
End kinds.

Section adjacent.
Context {V S : Type} (leaf_max inner_max : nat).
Context (Hleaf : (3 <= leaf_max)%nat) (Hinner : (5 <= inner_max)%nat).
Implicit Types (t : @tree V) (s : S).

#[local] Abbreviation tree_ok := (@tree_ok V leaf_max inner_max).

(** The way to the key has room. *)
Definition settled k t : Prop := is_done (insert_pass leaf_max inner_max true k (fun l => (false, l)) t).

Lemma settle_ok k : forall n t, tree_ok t -> (fuel leaf_max inner_max t < n)%nat ->
  exists t', settle leaf_max inner_max n k t = Some t' /\ tree_ok t' /\ tree_entries t' = tree_entries t /\ settled k t'.
Proof using Hleaf Hinner.
  induction n as [|n IH]; intros t Ht Hn; [lia|]. cbn [settle].
  destruct (insert_pass_ok _ _ Hleaf Hinner true k _ _ _ t (no_op k) Ht) as (p & E & L1 & l & L2 & _ & _ & _ & Hp). rewrite E. cbn [mbind option_bind].
  destruct p as [t1|ok t1].
  - destruct Hp as (Ht1 & E1 & Hf & _). destruct (IH t1 Ht1 ltac:(lia)) as (t' & H1 & H2 & H3 & H4). exists t'. split_and!; auto. congruence.
  - exists t. split_and!; auto. unfold settled. now rewrite E.
Qed.

Lemma insert_here_ok k v t :
  tree_ok t -> settled k t -> has k (tree_entries t) = false ->
  exists t', insert_here leaf_max inner_max k v t = Some t' /\ tree_ok t' /\ tree_entries t' = put k v (tree_entries t).
Proof using Hleaf Hinner.
  intros Ht Hs Hk. destruct (insert_pass_ok _ _ Hleaf Hinner true k _ _ _ t (leaf_insert_op k v) Ht) as (p & E & L1 & l & L2 & El & _ & Har & Hp).
  pose proof (insert_pass_kind leaf_max inner_max k _ (leaf_insert k v) t Hs) as Hd. unfold insert_here. rewrite E in *. cbn [mbind option_bind].
  destruct p as [t1|ok t1]; [easy|]. destruct Hp as (Ht1 & -> & Ee & _). unfold tree_entries, entries, tree_leaves in *. rewrite El in *.
  unfold has in *. rewrite get_around in Hk by done. rewrite Hk. exists t1. split_and!; auto. now rewrite put_around.
Qed.

(** An insertion with next-key locking shows its processor the right key.
    For a key that is there it is refused and the processor not called.
    Otherwise the processor is called once, with the entry that follows the key
    in the whole tree, which may be the first of the next leaf, and the key is
    inserted exactly when the processor allows it.  Without a larger key the
    method aborts the process; in the other cases it terminates, the tree
    stays well formed, and a refused insertion leaves the entries as they were,
    even though it may have split nodes. *)
Lemma insert_next_key_shows k v (proc : S -> Z * V -> bool * S) t s :
  tree_ok t ->
  if has k (tree_entries t) then
    exists t', insert_lock_next_key leaf_max inner_max k v proc t s = Some (false, t', s) /\ tree_ok t' /\ tree_entries t' = tree_entries t
  else
    match head (greater k (tree_entries t)) with
    | None => insert_lock_next_key leaf_max inner_max k v proc t s = None
    | Some next =>
        exists t', insert_lock_next_key leaf_max inner_max k v proc t s = Some (fst (proc s next), t', snd (proc s next)) /\ tree_ok t' /\
          tree_entries t' = if fst (proc s next) then put k v (tree_entries t) else tree_entries t
    end.
Proof using Hleaf Hinner.
  intros Ht. unfold insert_lock_next_key. destruct (settle_ok k _ t Ht (Nat.lt_succ_diag_r _)) as (t' & -> & Ht' & <- & Hset). cbn [mbind option_bind].
  destruct (place_ok _ _ t' k Ht') as (A & l & B & d1 & d2 & Hp). pose proof Hp as [El Hf Har Hs Ed Hpos _ _]. rewrite Hf. cbn [mbind option_bind].
  rewrite key_at_has by done. assert (E : has k (l_data l) = has k (tree_entries t')).
  { unfold has, tree_entries, entries. unfold tree_leaves in El. now rewrite El, get_around. }
  rewrite E. destruct (has k (tree_entries t')) eqn:Hk; [eauto|]. rewrite Hpos, (entry_at_ok _ _ t' k A l B d1 d2 Ht' Hp Hk).
  destruct (head (greater k (tree_entries t'))) as [next|]; [|easy]. cbn [mbind option_bind]. destruct (proc s next) as [[|] s']; cbn [fst snd]; [|eauto].
  destruct (insert_here_ok k v t' Ht' Hset Hk) as (t'' & -> & Ht'' & E'). eauto.
Qed.

Lemma no_erase : erase_op (V := V) (fun l => (false, l)) (fun d => d) (fun _ => false).
Proof using Type. constructor; auto. now intros []. Qed.

Lemma lookup_adjacent_ok k t :
  tree_ok t -> back_linked None (tree_leaves t) ->
  lookupForNextKeyUpdate k t =
  Some (match get k (tree_entries t) with
        | Some v => Some (last (smaller k (tree_entries t)), (k, v), head (greater k (tree_entries t)))
        | None => None
        end).
Proof using Type.
  intros Ht Hb. destruct (place_ok _ _ t k Ht) as (A & l & B & d1 & d2 & Hp). pose proof Hp as [El Hf Har Hs Ed Hpos _ _].
  unfold lookupForNextKeyUpdate. rewrite Hf. cbn [mbind option_bind].
  rewrite key_at_has, Hpos by done. unfold has. assert (E : get k (l_data l) = get k (tree_entries t)).
  { unfold tree_entries, entries. unfold tree_leaves in El. now rewrite El, get_around. }
  rewrite E. destruct (get k (tree_entries t)) as [v|] eqn:Hk; [|easy].
  destruct (present _ _ t k A l B d1 d2 Ht Hp v Hk) as (d3 & E2 & _). rewrite Ed, E2, (list_lookup_middle d1 d3 (k, v) _ eq_refl). cbn [mbind option_bind].
  rewrite (prev_entry_ok _ _ t k A l B d1 d2 Ht Hp Hb), (next_entry_ok _ _ t k A l B d1 d2 Ht Hp v Hk). easy.
Qed.

(** Where the [pre_] links are right, the methods for neighbouring keys show
    them: [_lookupForNextKeyUpdate] gives the entries before and after the key in
    the whole tree, and a removal that shows its neighbours passes the same
    entries, removes the key exactly when the processor allows it, leaves the
    other entries alone and keeps the tree well formed. *)
Theorem adjacent_keys_shown k (proc : S -> option (Z * V) * (Z * V) * option (Z * V) -> bool * S) t s :
  tree_ok t -> back_linked None (tree_leaves t) ->
  let es := tree_entries t in
  let shown := match get k es with Some v => Some (last (smaller k es), (k, v), head (greater k es)) | None => None end in
  let called := match shown with Some x => proc s x | None => (false, s) end in
  lookupForNextKeyUpdate k t = Some shown /\
  exists t', remove_and_process_adjacent_tuples leaf_max inner_max k proc t s = Some (fst called, t', snd called) /\ tree_ok t' /\
    tree_entries t' = if fst called then del k es else es.
Proof using Hleaf Hinner.
  intros Ht Hb es shown called. pose proof (lookup_adjacent_ok k t Ht Hb) as E. fold es shown in E. split; [exact E|].
  unfold remove_and_process_adjacent_tuples. rewrite E. cbn [mbind option_bind]. fold called. destruct called as [go s'] eqn:Hc. cbn [fst snd]. destruct go.
  - destruct (remove_ok _ _ Hleaf Hinner k t Ht) as (t' & Er & Ht' & E'). unfold remove in Er. rewrite Er. exists t'. split_and!; auto. cbn. do 3 f_equal.
    unfold called, shown in Hc. unfold has. fold es. now destruct (get k es).
  - destruct (remove_with_ok _ _ Hleaf Hinner k _ _ _ t no_erase Ht) as (t' & L1 & l & L2 & Er & El & _ & _ & Ht' & E'). rewrite Er. exists t'. split_and!; auto.
    rewrite E'. unfold es, tree_entries, entries. unfold tree_leaves in El. now rewrite El, ents_app.
Qed.
End adjacent.
