(* ===== verification/NodeLock.v ===== *)
(** * The optimistic lock of a B+ tree node

    [NodeLock] of common/btree_olc/BTreeOLC.h ([BTreeOLC_CXL] has the same): a
    64-bit word with a version, a lock bit and a count of iterators.  Readers
    take the version, read, and compare it again; writers swap the version they
    have read for one with the lock bit.  The operations are functions on the
    word; threads interleave their atomic accesses to it, and the content of the
    node is a value that threads in their write section change. *)

From S2P Require Import Prelude.

Module NodeLock.

Definition kLockMask : Z := 2 ^ 10.
Definition kReaderMask : Z := kLockMask - 1.
Definition kVersionMask : Z := not64 kReaderMask.

Definition init : Z := kLockMask * 2.

Definition isLocked (version : Z) : bool := negb (Z.land version kLockMask =? 0).

(** The version, and [needRestart]. *)
Definition readLockOrRestart (word : Z) : Z * bool := (word, isLocked word).

(** The test for iterators and the exchange of [upgradeToWriteLockOrRestart]; a
    failed exchange loads the word into [version]. *)
Definition has_readers (word : Z) : bool := negb (Z.land word kReaderMask =? 0).
Definition compare_exchange (version word : Z) : Z * Z * bool :=
  if word =? version then (wrap 64 (version + kLockMask), wrap 64 (version + kLockMask), false)
  else (word, word, true).
Definition upgradeToWriteLockOrRestart (version word : Z) : Z * Z * bool :=
  if has_readers word then (word, version, true) else compare_exchange version word.

Definition writeLockOrRestart (word : Z) : Z * bool :=
  let '(version, needRestart) := readLockOrRestart word in
  if needRestart then (word, true)
  else let '(word', _, needRestart) := upgradeToWriteLockOrRestart version word in (word', needRestart).

Definition downgradeToReadLock (word : Z) : Z * Z := (wrap 64 (word + kLockMask), wrap 64 (word + kLockMask)).
Definition writeUnlock (word : Z) : Z := wrap 64 (word + kLockMask).

Definition readUnlockOrRestart (startRead word : Z) : bool :=
  negb (Z.land (Z.lxor startRead word) kVersionMask =? 0).
Definition checkOrRestart (startRead word : Z) : bool := readUnlockOrRestart startRead word.

Definition iteratorEnter (word : Z) : Z * bool := if isLocked word then (word, true) else (wrap 64 (word + 1), false).
Definition iteratorLeave (word : Z) : Z := wrap 64 (word - 1).

(** ** Interleaving *)

(** Where a thread is: an optimistic reader has a version, and for the proofs
    the content the node had then; an upgrade has passed its first test; an
    iterator has seen the node unlocked. *)
Inductive pc :=
| Out
| Reading (version content : Z)
| Upgrading (version content : Z)
| Writing
| Entering
| Inside.

Record state := State { word : Z; content : Z; threads : list pc }.

(** The accesses of a thread. *)
Inductive tstep (w c : Z) : pc -> Z -> Z -> pc -> Prop :=
| t_read : readLockOrRestart w = (w, false) -> tstep w c Out w c (Reading w c)
| t_refused : snd (readLockOrRestart w) = true -> tstep w c Out w c Out
| t_stop v d : tstep w c (Reading v d) w c Out
| t_test v d : has_readers w = false -> tstep w c (Reading v d) w c (Upgrading v d)
| t_lock v d w' v' : compare_exchange v w = (w', v', false) -> tstep w c (Upgrading v d) w' c Writing
| t_lost v d w' v' : compare_exchange v w = (w', v', true) -> tstep w c (Upgrading v d) w' c Out
| t_write c' : tstep w c Writing w c' Writing
| t_unlock : tstep w c Writing (writeUnlock w) c Out
| t_downgrade w' v' : downgradeToReadLock w = (w', v') -> tstep w c Writing w' c (Reading v' c)
| t_seen : isLocked w = false -> tstep w c Out w c Entering
| t_enter : tstep w c Entering (wrap 64 (w + 1)) c Inside
| t_leave : tstep w c Inside (iteratorLeave w) c Out.

Inductive step (s : state) : state -> Prop :=
| step_thread i p w' c' p' :
    threads s !! i = Some p -> tstep (word s) (content s) p w' c' p' ->
    step s (State w' c' (<[i := p']> (threads s))).

Inductive run (s0 : state) : nat -> state -> Prop :=
| run_0 : run s0 0 s0
| run_S n s s' : run s0 n s -> step s s' -> run s0 (S n) s'.

Definition start (c : Z) (n : nat) : state := State init c (replicate n Out).

(** ** The word as version and count *)

Lemma mask_word a r : 0 <= r < 1024 -> Z.land (1024 * a + r) kReaderMask = r.
Proof.
  intros Hr. change kReaderMask with (Z.ones 10). rewrite Z.land_ones by lia. change (2 ^ 10) with 1024.
  rewrite Z.add_comm, Z.mul_comm, Z_mod_plus_full. now apply Z.mod_small.
Qed.

Lemma shift_word a r : 0 <= r < 1024 -> Z.shiftr (1024 * a + r) 10 = a.
Proof. intros Hr. rewrite Z.shiftr_div_pow2 by lia. change (2 ^ 10) with 1024. rewrite Z.add_comm, Z.mul_comm, Z.div_add by lia. rewrite Z.div_small by lia. lia. Qed.

Lemma locked_word a r : 0 <= r < 1024 -> isLocked (1024 * a + r) = Z.odd a.
Proof.
  intros Hr. unfold isLocked, kLockMask. assert (E : forall x, Z.land x (2 ^ 10) = if Z.testbit x 10 then 2 ^ 10 else 0).
  { intros x. apply Z.bits_inj'. intros i Hi. rewrite Z.land_spec, Z.pow2_bits_eqb by lia. destruct (Z.eqb_spec 10 i) as [<-|Hne].
    - now destruct (Z.testbit x 10).
    - rewrite andb_false_r. destruct (Z.testbit x 10); [|now rewrite Z.bits_0]. rewrite Z.pow2_bits_eqb by lia. now destruct (Z.eqb_spec 10 i). }
  rewrite E, Z.testbit_odd, shift_word by done. now destruct (Z.odd a).
Qed.

Lemma same_version a b r q :
  0 <= r < 1024 -> 0 <= q < 1024 -> fits 64 (1024 * a + r) -> fits 64 (1024 * b + q) ->
  readUnlockOrRestart (1024 * a + r) (1024 * b + q) = false -> a = b.
Proof.
  intros Hr Hq Ha Hb H. unfold readUnlockOrRestart in H. apply negb_false_iff, Z.eqb_eq in H.
  assert (Hx : fits 64 (Z.lxor (1024 * a + r) (1024 * b + q))).
  { apply testbit_fits; [lia|apply Z.lxor_nonneg; unfold fits in *; tauto|]. intros i Hi. rewrite Z.lxor_spec, !(fits_testbit 64) by (easy || lia). easy. }
  unfold kVersionMask in H. rewrite land_not64 in H by done. change kReaderMask with (Z.ones 10) in H.
  rewrite <- (shift_word a r), <- (shift_word b q) by done. apply Z.bits_inj'. intros i Hi. rewrite !Z.shiftr_spec by lia.
  apply (f_equal (fun x => Z.testbit x (i + 10))) in H. rewrite Z.land_spec, Z.lnot_spec, Z.lxor_spec, testbit_ones, Z.bits_0 in H by lia.
  rewrite (proj2 (Z.ltb_ge _ _)) in H by lia. rewrite andb_true_r in H. now apply xorb_eq in H.
Qed.

(** ** The invariant *)

Definition inside (p : pc) : Z := match p with Inside => 1 | _ => 0 end.
Definition writing (p : pc) : Z := match p with Writing => 1 | _ => 0 end.
Definition total (f : pc -> Z) (l : list pc) : Z := foldr (fun p n => f p + n) 0 l.

Lemma total_insert f l i p q : l !! i = Some p -> total f (<[i := q]> l) = total f l - f p + f q.
Proof.
  revert i. induction l as [|x l IH]; intros [|i] H; [easy|easy|cbn in *; simplify_eq; lia|].
  change (f x + total f (<[i := q]> l) = f x + total f l - f p + f q). rewrite IH by done. lia.
Qed.

Lemma total_bound f l : (forall p, 0 <= f p <= 1) -> 0 <= total f l <= Z.of_nat (length l).
Proof. intros Hf. induction l as [|p l IH]; cbn; [lia|]. specialize (Hf p). unfold total in *. lia. Qed.

Lemma total_ge f l i p : (forall p, 0 <= f p <= 1) -> l !! i = Some p -> f p <= total f l.
Proof.
  intros Hf. revert i. induction l as [|x l IH]; intros [|i] H; cbn in *; simplify_eq.
  - pose proof (total_bound f l Hf). unfold total in *. lia.
  - specialize (IH i H). specialize (Hf x). unfold total in *. lia.
Qed.

Lemma total_two f l i j p q : (forall p, 0 <= f p <= 1) -> i <> j -> l !! i = Some p -> l !! j = Some q -> f p + f q <= total f l.
Proof.
  intros Hf. revert i j. induction l as [|x l IH]; intros [|i] [|j] Hne Hi Hj; cbn in *; simplify_eq; try lia.
  - pose proof (total_ge f l j q Hf Hj). unfold total in *. lia.
  - pose proof (total_ge f l i p Hf Hi). unfold total in *. lia.
  - specialize (IH i j ltac:(lia) Hi Hj). specialize (Hf x). unfold total in *. lia.
Qed.

(** A version that was read: even, not newer than the node's, and the content is
    still the same if it is the node's. *)
Definition seen (ver c : Z) (p : pc) : Prop :=
  match p with
  | Reading v d | Upgrading v d =>
      exists a r, v = 1024 * (2 + a) + r /\ 0 <= r < 1024 /\ 0 <= a <= ver /\ Z.even a = true /\ (a = ver -> d = c)
  | _ => True
  end.

Record inv (ver : Z) (s : state) : Prop := Inv {
  inv_word : word s = 1024 * (2 + ver) + total inside (threads s);
  inv_writing : total writing (threads s) = ver mod 2;
  inv_ver : 0 <= ver;
  inv_seen i p : threads s !! i = Some p -> seen ver (content s) p
}.

Lemma inside_bound p : 0 <= inside p <= 1.
Proof. destruct p; cbn; lia. Qed.
Lemma writing_bound p : 0 <= writing p <= 1.
Proof. destruct p; cbn; lia. Qed.

Lemma seen_new ver c a r : ver = a -> Z.even a = true -> 0 <= a -> 0 <= r < 1024 -> seen ver c (Reading (1024 * (2 + a) + r) c).
Proof. intros -> He Ha Hr. exists a, r. split_and!; auto; lia. Qed.

(** A newer version hides what was read before. *)
Lemma seen_older ver ver' c c' p : seen ver c p -> ver <= ver' -> (ver' = ver -> c' = c) -> seen ver' c' p.
Proof.
  intros H Hle Hc. destruct p; try easy; cbn in *; destruct H as (a & r & -> & Hr & Ha & He & Hd); exists a, r; split_and!; auto; try lia;
    intros ->; rewrite Hc by lia; apply Hd; lia.
Qed.

Lemma node_step_inv ver s s' :
  inv ver s -> step s s' -> Z.of_nat (length (threads s)) < 1024 -> ver < 2 ^ 53 ->
  length (threads s') = length (threads s) /\ exists ver', inv ver' s' /\ ver <= ver' <= ver + 1.
Proof.
  intros [Hw Hwr Hv Hseen] Hstep Hn Hver. destruct Hstep as [i p w' c' p' Hi Ht]. cbn [word content threads]. rewrite length_insert. split; [easy|].
  pose proof (total_bound inside (threads s) inside_bound) as Hin. pose proof (total_ge inside (threads s) i p inside_bound Hi) as Hip.
  pose proof (total_ge writing (threads s) i p writing_bound Hi) as Hwp. pose proof (Z.mod_pos_bound ver 2 ltac:(lia)) as Hm.
  assert (Hsmall : forall x, 0 <= x < 2 ^ 64 -> wrap 64 x = x) by (intros x Hx; now apply wrap_small).
  assert (Hlock : isLocked (word s) = false -> Z.even ver = true).
  { rewrite Hw, locked_word by lia. intros H. rewrite <- Z.negb_odd. rewrite Z.odd_add in H. cbn in H. now destruct (Z.odd ver). }
  assert (Hbuild : forall ver' w'' c'', ver <= ver' <= ver + 1 -> w'' = 1024 * (2 + ver') + (total inside (threads s) - inside p + inside p') ->
    total writing (threads s) - writing p + writing p' = ver' mod 2 -> (forall q, seen ver (content s) q -> seen ver' c'' q) -> seen ver' c'' p' ->
    exists ver'', inv ver'' (State w'' c'' (<[i := p']> (threads s))) /\ ver <= ver'' <= ver + 1).
  { intros ver' w'' c'' Hb Ew Et Hc Hs. exists ver'. split; [|exact Hb]. constructor; cbn [word content threads]; auto.
    - now rewrite (total_insert _ _ _ _ _ Hi).
    - now rewrite (total_insert _ _ _ _ _ Hi).
    - lia.
    - intros j q Hq. destruct (decide (i = j)) as [<-|Hne].
      + rewrite list_lookup_insert_eq in Hq by now apply lookup_lt_Some in Hi. now injection Hq as <-.
      + rewrite list_lookup_insert_ne in Hq by done. apply Hc. now apply (Hseen j). }
  assert (Hnext : (ver + 1) mod 2 = 1 - ver mod 2) by (rewrite Zplus_mod; destruct (Z.eq_dec (ver mod 2) 0) as [->|]; [easy|replace (ver mod 2) with 1 by lia; easy]).
  assert (Hnew : forall q, seen ver (content s) q -> seen (ver + 1) (content s) q) by (intros q Hq; apply (seen_older ver _ _ _ _ Hq); lia).
  assert (Heven : Z.even ver = true <-> ver mod 2 = 0) by (rewrite Zmod_even; now destruct (Z.even ver)).
  assert (Hodd : p = Writing -> ver mod 2 = 1) by (intros ->; cbn in Hwp; lia).
  destruct Ht as [H|H|v d|v d H|v d w' v' H|v d w' v' H|c'| |w' v' H|H| |]; cbn [inside writing] in *.
  - apply (Hbuild ver); auto; try lia; try easy. injection H as H. rewrite Hw at 1. apply seen_new; auto; lia.
  - apply (Hbuild ver); auto; try lia; try easy.
  - apply (Hbuild ver); auto; try lia; try easy.
  - apply (Hbuild ver); auto; try lia; try easy. exact (Hseen i _ Hi).
  - unfold compare_exchange in H. destruct (Z.eqb_spec (word s) v) as [E|]; [|easy]. injection H as <- <-.
    destruct (Hseen i _ Hi) as (a & r & Ev & Hr & Ha & He & _). assert (a = ver) as -> by (rewrite Hw, Ev in E; lia). apply Heven in He.
    apply (Hbuild (ver + 1)); auto; try lia; try easy. rewrite <- E, Hw. unfold kLockMask. rewrite Hsmall; lia.
  - unfold compare_exchange in H. destruct (Z.eqb_spec (word s) v) as [E|]; [easy|]. injection H as <- <-. apply (Hbuild ver); auto; try lia; try easy.
  - specialize (Hodd eq_refl). apply (Hbuild ver); auto; try lia; try easy. intros q. destruct q; try easy; cbn; intros (a & r & Ev & Hr & Ha & He & Hd);
      exists a, r; (split; [exact Ev|]); (split; [exact Hr|]); (split; [exact Ha|]); (split; [exact He|]); intros ->; apply Heven in He; lia.
  - specialize (Hodd eq_refl). apply (Hbuild (ver + 1)); auto; try lia; try easy. unfold writeUnlock, kLockMask. rewrite Hw, Hsmall; lia.
  - specialize (Hodd eq_refl). unfold downgradeToReadLock, kLockMask in H. rewrite Hw, Hsmall in H by lia. injection H as <- <-.
    apply (Hbuild (ver + 1)); auto; try lia; try easy.
    replace (1024 * (2 + ver) + total inside (threads s) + 2 ^ 10) with (1024 * (2 + (ver + 1)) + total inside (threads s)) by lia.
    apply seen_new; auto; try lia; try easy. rewrite Zmod_even in Hnext. rewrite Hodd in Hnext. now destruct (Z.even (ver + 1)).
  - apply (Hbuild ver); auto; try lia; try easy.
  - apply (Hbuild ver); auto; try lia; try easy. rewrite Hw, Hsmall; lia.
  - apply (Hbuild ver); auto; try lia; try easy. unfold iteratorLeave. rewrite Hw, Hsmall; lia.
Qed.

Lemma node_start_inv c n : inv 0 (start c n).
Proof.
  assert (Ht : forall f, f Out = 0 -> total f (replicate n Out) = 0) by (intros f Hf; induction n as [|n IH]; [easy|]; change (f Out + total f (replicate n Out) = 0); lia).
  constructor; cbn [start word content threads]; [now rewrite Ht|now rewrite Ht|lia|].
  intros i p Hp. apply lookup_replicate in Hp as [-> _]. easy.
Qed.

Lemma node_run_inv c n k s : (Z.of_nat n < 1024) -> Z.of_nat k < 2 ^ 53 -> run (start c n) k s ->
  length (threads s) = n /\ exists ver, inv ver s /\ ver <= Z.of_nat k.
Proof.
  intros Hn Hk Hrun. induction Hrun as [|k s s' Hrun IH Hstep].
  - split; [apply length_replicate|]. exists 0. split; [apply node_start_inv|lia].
  - destruct (IH ltac:(lia)) as (Hlen & ver & Hinv & Hver). destruct (node_step_inv ver s s' Hinv Hstep) as (Hlen' & ver' & Hinv' & Hver'); [lia|lia|].
    split; [congruence|]. exists ver'. split; [exact Hinv'|lia].
Qed.

(** C18: Optimistic reads of a node are consistent and its writers exclude each
    other.  In every interleaving of the accesses of fewer than 1024 threads, for
    as many steps as the version has numbers, at most one thread is in its write
    section, and when a reader finds the version it has read unchanged, no thread
    is writing and the content of the node is the one it had at the start of the
    read, whoever wrote, unlocked, downgraded or iterated in between. *)
Theorem optimistic_lock_safe c n k s :
  Z.of_nat n < 1024 -> Z.of_nat k < 2 ^ 53 -> run (start c n) k s ->
  (forall i j, threads s !! i = Some Writing -> threads s !! j = Some Writing -> i = j) /\
  (forall i v d, threads s !! i = Some (Reading v d) -> readUnlockOrRestart v (word s) = false ->
     content s = d /\ forall j, threads s !! j <> Some Writing).
Proof.
  intros Hn Hk Hrun. destruct (node_run_inv c n k s Hn Hk Hrun) as (Hlen & ver & [Hw Hwr Hv Hseen] & Hver).
  pose proof (total_bound inside (threads s) inside_bound) as Hin. pose proof (Z.mod_pos_bound ver 2 ltac:(lia)) as Hm. split.
  - intros i j Hi Hj. destruct (decide (i = j)) as [|Hne]; [easy|]. pose proof (total_two writing _ i j _ _ writing_bound Hne Hi Hj) as H. cbn in H. lia.
  - intros i v d Hi Hu. destruct (Hseen i _ Hi) as (a & r & -> & Hr & Ha & He & Hd). rewrite Hw in Hu.
    assert (Hfit : forall x y, 0 <= x <= ver -> 0 <= y < 1024 -> fits 64 (1024 * (2 + x) + y)) by (intros x y Hx Hy; unfold fits; lia).
    assert (a = ver) as -> by (apply same_version in Hu; auto; try lia; apply Hfit; lia). split; [symmetry; now apply Hd|].
    intros j Hj. pose proof (total_ge writing _ j _ writing_bound Hj) as H. cbn in H. rewrite Hwr, Zmod_even, He in H. lia.
Qed.
End NodeLock.
