(* ===== verification/LocalIndex.v ===== *)
(** * The B+ tree as the index of a local table

    The migration code of [PashaMigration] sees the neighbours of a key as a
    search through all rows of its table; the table of core/Table.h finds them
    with its B+ tree.  The two are the same. *)

From S2P Require Import Prelude SharedWord SCC CXLMemory PashaState BTreeNode BTree BTreeInv BTreeInsert BTreeTree BTreeRemove BTreeSpec BTreeScan BTreeAdjacent.

(** ** The best of a list *)

Section best.
Context (better : Z -> Z -> bool).
Context (Hirr : forall a, better a a = false) (Htrans : forall a b c, better a b = false -> better b c = false -> better a c = false).
Context (Hasym : forall a b, better a b = true -> better b a = false).

Lemma best_fold l : forall o m, fold_left (best better) l o = Some m ->
  (m ∈ l \/ o = Some m) /\ (forall x, x ∈ l \/ o = Some x -> better x.2 m.2 = false).
Proof using Hirr Htrans Hasym.
  induction l as [|y l IH]; intros o m; cbn [fold_left].
  - intros ->. split; [auto|]. intros x [Hx|[= ->]]; [now apply elem_of_nil in Hx|apply Hirr].
  - intros H. apply IH in H as [Hm Hall]. split.
    + destruct Hm as [Hm|Hm]; [left; now right|]. unfold best in Hm. destruct o as [z|]; [destruct (better y.2 z.2)|]; injection Hm as ->; auto; left; now left.
    + intros x [[->|Hx]%elem_of_cons|Hx]; [|apply Hall; auto|].
      * unfold best in Hall. destruct o as [z|]; [|apply Hall; auto]. destruct (better y.2 z.2) eqn:E; [apply Hall; auto|].
        apply (Htrans _ z.2); [exact E|apply Hall; auto].
      * subst o. unfold best in Hall. destruct (better y.2 x.2) eqn:E; [|apply Hall; auto]. apply (Htrans _ y.2); [now apply Hasym|apply Hall; auto].
Qed.

Lemma best_fold_none l : forall o, fold_left (best better) l o = None -> l = [] /\ o = None.
Proof using Type.
  induction l as [|y l IH]; intros o; cbn [fold_left]; [auto|]. intros H. apply IH in H as [_ H]. unfold best in H. destruct o as [z|]; [now destruct (better y.2 z.2)|easy].
Qed.

Lemma neighbour_spec side k ks :
  match neighbour side better k ks with
  | Some m => m ∈ ks /\ same_table k m = true /\ side m.2 k.2 = true /\
      forall x, x ∈ ks -> same_table k x = true -> side x.2 k.2 = true -> better x.2 m.2 = false
  | None => forall x, x ∈ ks -> same_table k x = true -> side x.2 k.2 = true -> False
  end.
Proof using Hirr Htrans Hasym.
  unfold neighbour. assert (Hin : forall x, x ∈ filter (fun k' => same_table k k' && side k'.2 k.2) ks <-> (same_table k x = true /\ side x.2 k.2 = true) /\ x ∈ ks).
  { intros x. rewrite list_elem_of_filter. destruct (same_table k x), (side x.2 k.2); cbn; naive_solver. }
  destruct (fold_left _ _ None) as [m|] eqn:E.
  - apply best_fold in E as [[Hm|Hm] Hall]; [|easy]. apply Hin in Hm as [[H1 H2] H3]. split_and!; auto. intros x Hx Hs Hd. apply Hall. left. now apply Hin.
  - apply best_fold_none in E as [E _]. intros x Hx Hs Hd. assert (H : x ∈ filter (fun k' => same_table k k' && side k'.2 k.2) ks) by now apply Hin.
    rewrite E in H. now apply elem_of_nil in H.
Qed.
End best.

Lemma next_spec k w :
  match next_key k w with
  | Some m => m ∈ dom (w_rows w) /\ same_table k m = true /\ k.2 < m.2 /\
      forall x, x ∈ dom (w_rows w) -> same_table k x = true -> k.2 < x.2 -> m.2 <= x.2
  | None => forall x, x ∈ dom (w_rows w) -> same_table k x = true -> k.2 < x.2 -> False
  end.
Proof.
  pose proof (neighbour_spec Z.ltb ltac:(intros; lia) ltac:(intros; lia) ltac:(intros; lia) Z.gtb k (elements (dom (w_rows w)))) as H. unfold next_key.
  destruct (neighbour _ _ _ _) as [m|].
  - destruct H as (H1 & H2 & H3 & H4). apply elem_of_elements in H1. split_and!; auto; [lia|]. intros x Hx Hs Hd.
    apply elem_of_elements in Hx. specialize (H4 x Hx Hs ltac:(lia)). lia.
  - intros x Hx Hs Hd. apply elem_of_elements in Hx. apply (H x Hx Hs). lia.
Qed.

Lemma prev_spec k w :
  match prev_key k w with
  | Some m => m ∈ dom (w_rows w) /\ same_table k m = true /\ m.2 < k.2 /\
      forall x, x ∈ dom (w_rows w) -> same_table k x = true -> x.2 < k.2 -> x.2 <= m.2
  | None => forall x, x ∈ dom (w_rows w) -> same_table k x = true -> x.2 < k.2 -> False
  end.
Proof.
  pose proof (neighbour_spec Z.gtb ltac:(intros; lia) ltac:(intros; lia) ltac:(intros; lia) Z.ltb k (elements (dom (w_rows w)))) as H. unfold prev_key.
  destruct (neighbour _ _ _ _) as [m|].
  - destruct H as (H1 & H2 & H3 & H4). apply elem_of_elements in H1. split_and!; auto; [lia|]. intros x Hx Hs Hd.
    apply elem_of_elements in Hx. specialize (H4 x Hx Hs ltac:(lia)). lia.
  - intros x Hx Hs Hd. apply elem_of_elements in Hx. apply (H x Hx Hs). lia.
Qed.

(** ** The tree of a table *)

Section index.
Context {V : Type} (leaf_max inner_max : nat) (table partition : Z).
Implicit Types (t : @tree V) (w : world) (k : Z).

Definition row_key k : rkey := (table, partition, k).

(** The keys of the tree are those of the rows of the table. *)
Definition local_index w t : Prop := forall k, k ∈ fst <$> tree_entries t <-> row_key k ∈ dom (w_rows w).

Lemma same_table_row k m : same_table (row_key k) m = true <-> m = row_key m.2.
Proof using Type.
  destruct m as [[tb pt] x]. unfold same_table, row_key. cbn. rewrite andb_true_iff, !Z.eqb_eq. split; [intros [-> ->]; easy|]. intros E. injection E as -> ->. easy.
Qed.

Lemma get_key k (l : list (Z * V)) : k ∈ fst <$> l -> exists v, get k l = Some v.
Proof using Type.
  induction l as [|[x v] l IH]; cbn; [intros H; now apply elem_of_nil in H|]. intros [->|H]%elem_of_cons; [rewrite Z.eqb_refl; eauto|].
  destruct (x =? k); eauto.
Qed.

Lemma greater_next w t k :
  tree_ok leaf_max inner_max t -> local_index w t ->
  (fun e => row_key (fst e)) <$> head (greater k (tree_entries t)) = next_key (row_key k) w.
Proof using Type.
  intros [Hn _ _ _] Hi. destruct (node_keys _ _ _ _ _ _ Hn) as [Hs _]. change (ascending (fst <$> tree_entries t)) in Hs.
  pose proof (next_spec (row_key k) w) as Hnx. cbn [snd row_key] in Hnx.
  assert (Hg : forall e, e ∈ greater k (tree_entries t) <-> k < fst e /\ e ∈ tree_entries t) by (intros e; unfold greater; now rewrite list_elem_of_filter).
  destruct (greater k (tree_entries t)) as [|e g] eqn:E; cbn [head fmap option_fmap option_map].
  - destruct (next_key (row_key k) w) as [m|]; [exfalso|easy]. destruct Hnx as (H1 & H2 & H3 & _). apply same_table_row in H2. rewrite H2 in H1. apply Hi in H1.
    apply list_elem_of_fmap in H1 as (e & Ee & He). assert (Hin : e ∈ []) by (apply Hg; split; [lia|exact He]). now apply elem_of_nil in Hin.
  - assert (He : k < fst e /\ e ∈ tree_entries t) by (apply Hg; now left). destruct He as [Hlt He]. apply (list_elem_of_fmap_2 fst) in He. pose proof (proj1 (Hi _) He) as Hd.
    destruct (next_key (row_key k) w) as [m|]; [|exfalso; now apply (Hnx _ Hd (proj2 (same_table_row k _) eq_refl))].
    destruct Hnx as (H1 & H2 & H3 & H4). apply same_table_row in H2. specialize (H4 _ Hd (proj2 (same_table_row k _) eq_refl) Hlt). cbn in H4.
    rewrite H2 in H1. apply Hi in H1. apply list_elem_of_fmap in H1 as (e' & Ee & He').
    assert (Hin : e' ∈ e :: g) by (apply Hg; split; [lia|exact He']). apply elem_of_cons in Hin as [->|Hin]; [now rewrite H2, Ee|].
    assert (Hsg : ascending (fst <$> (e :: g))) by (rewrite <- E; now apply filter_ascending).
    apply ascending_cons in Hsg as [_ Hsg]. specialize (Hsg (fst e') (list_elem_of_fmap_2 fst _ _ Hin)). lia.
Qed.

Lemma smaller_prev w t k :
  tree_ok leaf_max inner_max t -> local_index w t ->
  (fun e => row_key (fst e)) <$> last (smaller k (tree_entries t)) = prev_key (row_key k) w.
Proof using Type.
  intros [Hn _ _ _] Hi. destruct (node_keys _ _ _ _ _ _ Hn) as [Hs _]. change (ascending (fst <$> tree_entries t)) in Hs.
  pose proof (prev_spec (row_key k) w) as Hnx. cbn [snd row_key] in Hnx.
  assert (Hg : forall e, e ∈ smaller k (tree_entries t) <-> fst e < k /\ e ∈ tree_entries t) by (intros e; unfold smaller; now rewrite list_elem_of_filter).
  assert (Hsg : ascending (fst <$> smaller k (tree_entries t))) by now apply filter_ascending.
  destruct (smaller k (tree_entries t)) as [|e g _] using rev_ind.
  - cbn. destruct (prev_key (row_key k) w) as [m|]; [exfalso|easy]. destruct Hnx as (H1 & H2 & H3 & _). apply same_table_row in H2. rewrite H2 in H1. apply Hi in H1.
    apply list_elem_of_fmap in H1 as (e & Ee & He). assert (Hin : e ∈ []) by (apply Hg; split; [lia|exact He]). now apply elem_of_nil in Hin.
  - rewrite last_snoc. cbn [fmap option_fmap option_map]. assert (He : fst e < k /\ e ∈ tree_entries t) by (apply Hg, elem_of_app; right; now left).
    destruct He as [Hlt He]. apply (list_elem_of_fmap_2 fst) in He. pose proof (proj1 (Hi _) He) as Hd.
    destruct (prev_key (row_key k) w) as [m|]; [|exfalso; now apply (Hnx _ Hd (proj2 (same_table_row k _) eq_refl))].
    destruct Hnx as (H1 & H2 & H3 & H4). apply same_table_row in H2. specialize (H4 _ Hd (proj2 (same_table_row k _) eq_refl) Hlt). cbn in H4.
    rewrite H2 in H1. apply Hi in H1. apply list_elem_of_fmap in H1 as (e' & Ee & He').
    assert (Hin : e' ∈ g ++ [e]) by (apply Hg; split; [lia|exact He']). apply elem_of_app in Hin as [Hin|Hin].
    + rewrite fmap_app in Hsg. apply ascending_app in Hsg as (_ & _ & Hsg). assert (fst e' < fst e) by (apply Hsg; [now apply list_elem_of_fmap_2|now left]). lia.
    + apply elem_of_cons in Hin as [->|Hin]; [now rewrite H2, Ee|now apply elem_of_nil in Hin].
Qed.

(** The B+ tree shows the neighbours that the migration code works with.
    If the tree has the keys of the rows of a table, then the entry after a key,
    which an insertion with next-key locking is shown, is that of its next
    key, and where the [pre_] links are right a lookup for next-key
    information shows the previous and next keys of every row of the table. *)
Theorem local_index_neighbours w t k :
  tree_ok leaf_max inner_max t -> local_index w t ->
  let name := fun e : Z * V => row_key (fst e) in
  name <$> head (greater k (tree_entries t)) = next_key (row_key k) w /\
  (back_linked None (tree_leaves t) -> row_key k ∈ dom (w_rows w) ->
     exists prev v next, lookupForNextKeyUpdate k t = Some (Some (prev, (k, v), next)) /\
       name <$> prev = prev_key (row_key k) w /\ name <$> next = next_key (row_key k) w).
Proof using Type.
  intros Ht Hi name. split; [now apply greater_next|]. intros Hb Hk. apply Hi in Hk. destruct (get_key _ _ Hk) as [v Hv].
  exists (last (smaller k (tree_entries t))), v, (head (greater k (tree_entries t))). rewrite (lookup_adjacent_ok _ _ k t Ht Hb), Hv.
  split; [easy|]. split; [now apply smaller_prev|now apply greater_next].
Qed.
End index.
