(* ===== verification/Scan.v ===== *)
(** * Range scans with next-key locking

    The local branch of [scanRequestHandler] (TwoPLPashaExecutor.h): a scan locks
    the rows of its range and the row after it.  The rows it records are the ones it
    has locked, a successful scan has recorded the range, and while its locks
    are held an insertion into the range is refused. *)

From stdpp Require Import sorting.
From S2P Require Import Prelude LockWord SharedWord SCC CXLMemory PashaState PashaHelper PashaMigration PashaRow PashaOps PashaMove PashaTable RWKey Commit Execute ExecuteSpec BTreeNode BTree BTreeInv LocalIndex.
Import RWKey.TwoPLPashaRWKey TwoPLPasha TwoPLPashaExecutor.

#[local] Existing Instance pasha_layout.

Section scan.
Context (sc : SCCManager) {proto : SCCProtocol sc} {pol : PolicyMeta} (me : Z) (Hme : host_ok me).
Context (value_size : Z -> nat) (key_at : Z -> Z) (row_addr data_addr key_addr : rkey -> Z) (Hkey : forall k, key_at (key_addr k) = k.2).
#[local] Abbreviation size := (TwoPLPasha.size value_size).

(** The scan of an entry. *)
Context (e : rwkey) (v min max : Z) (Hv : get_scan_res_vec e = Some v).
Definition row_of (key : Z) : rkey := (get_table_id e, get_partition_id e, key).
Definition entity_of (key : Z) : row_entity :=
  RowEntity (Some (key_addr (row_of key))) (Some (row_addr (row_of key))) (Some (data_addr (row_of key))).

(** A scan for read takes read locks, the other ones write locks. *)
Definition scan_writes : bool := match get_request_type e with SCAN_FOR_READ => false | _ => true end.

Lemma lock_scanned_spec w key t :
  winv size w -> abs (row_of key) w = Some t ->
  oks false (lock_scanned sc me value_size e (row_of key)) w (fun res w' =>
    others sc me value_size w (row_of key) w' /\
    if res.2 then can scan_writes (t_lock t) = true /\ abs (row_of key) w' = Some (with_lock (grant scan_writes) t) else abs (row_of key) w' = Some t).
Proof using Hme proto.
  intros Hw Ht. unfold lock_scanned, scan_writes. change (value_size (get_table_id e)) with (size (row_of key)).
  assert (Hpost : forall wr (op : M world (Z * bool)), cell_spec false (row_of key) (size (row_of key)) op (fun _ => True) (acquired (can wr) (grant wr)) ->
    oks false op w (fun res w' => others sc me value_size w (row_of key) w' /\
      if res.2 then can wr (t_lock t) = true /\ abs (row_of key) w' = Some (with_lock (grant wr) t) else abs (row_of key) w' = Some t)).
  { intros wr op [Hh Hx]. eapply oks_mono; [exact (cell_words size w Hw false (row_of key) op _ _ _ _ (fun _ _ _ => True) t Hh (cxl_spec_word _ _ _ _ _ _ Hx) ltac:(now split) Ht I ltac:(easy))|].
    intros [tid b] w' ((H1 & (t' & E & Hg) & H3 & H4) & Ho & _). unfold acquired, granted in Hg. cbn in *. split; [now apply others_words|].
    destruct b; [destruct Hg as [Hc ->]; auto|now subst]. }
  destruct (get_request_type e); [exact (Hpost false _ (read_lock_cell sc me Hme _ _))|exact (Hpost true _ (write_lock_cell sc me Hme _ _))..].
Qed.

(** ** What a scan does *)

(** The rows [l] are locked, and no other tuple has changed. *)
Definition locks_rows (l : list Z) (w w' : world) : Prop :=
  winv size w' /\ (forall k, k ∉ row_of <$> l -> abs k w' = abs k w) /\
  forall key, key ∈ l -> exists t, abs (row_of key) w = Some t /\ can scan_writes (t_lock t) = true /\
    abs (row_of key) w' = Some (with_lock (grant scan_writes) t).

(** How a scan of the keys [ks] ends: the keys [pre] are results, and it stops at
    the next one, which is locked if it succeeds. *)
Inductive scan_ends (n : nat) (ks : list Z) (w : world) : list Z -> scan_state -> world -> Prop :=
| scan_empty s : ks = [] -> scan_ends n ks w [] s w
| scan_done pre key rest s w' :
    ks = pre ++ key :: rest -> locks_rows (pre ++ [key]) w w' -> sc_success s = true -> sc_next s = Some (entity_of key) ->
    rest = [] \/ (get_scan_limit e <> 0 /\ Z.of_nat (n + length pre) = get_scan_limit e) \/ max < key ->
    scan_ends n ks w pre s w'
| scan_refused pre key rest s w' :
    ks = pre ++ key :: rest -> locks_rows pre w w' -> sc_success s = false -> scan_ends n ks w pre s w'.

#[local] Abbreviation processor := (local_scan_processor sc me value_size key_at row_addr data_addr key_addr e min max).

Lemma processor_step s key il x R t :
  winv size (x_world x) -> x_vec x !! v = Some R -> abs (row_of key) (x_world x) = Some t -> min <= key -> (forall r q, last R = Some r -> re_key r = Some q -> key_at q < key) ->
  oks false (processor s key il) x (fun res x' => exists w', others sc me value_size (x_world x) (row_of key) w' /\
    if locking_next_tuple e max key R il then
      x' = set_world w' x /\ res.1 = true /\
      if sc_success res.2 then sc_next res.2 = Some (entity_of key) /\ can scan_writes (t_lock t) = true /\ abs (row_of key) w' = Some (with_lock (grant scan_writes) t)
      else abs (row_of key) w' = Some t
    else if res.1 then x' = set_world w' x /\ sc_success res.2 = false /\ abs (row_of key) w' = Some t
    else x' = on_vec_map (base.insert v (R ++ [entity_of key])) (set_world w' x) /\ res.2 = s /\ can scan_writes (t_lock t) = true /\
      abs (row_of key) w' = Some (with_lock (grant scan_writes) t)).
Proof using Hme proto Hv.
  intros Hw HR Ht Hmin Hlast. unfold local_scan_processor, results_of. apply oks_assoc.
  eapply oks_step; [unfold deref; now rewrite Hv|]. eapply oks_step; [unfold deref; now rewrite HR|]. cbv beta zeta.
  assert (Hseen : seen_before key_at min key R = false).
  { unfold seen_before. rewrite (proj2 (Z.ltb_ge key min)) by lia. cbn. destruct (last R) as [r|] eqn:El; [|reflexivity].
    destruct (re_key r) as [q|] eqn:Eq; [|reflexivity]. specialize (Hlast r q eq_refl Eq). lia. }
  rewrite Hseen. apply oks_on_world_bind. eapply oks_mono; [exact (lock_scanned_spec _ key t Hw Ht)|].
  intros [tid b] w1 (Ho & Hb). cbn in Hb. unfold after_lock. destruct b.
  - destruct (locking_next_tuple e max key R il) eqn:El.
    + apply oks_ret. exists w1. rewrite ?El. cbn. destruct Hb. now split_and!.
    + unfold results_of, set_results. apply oks_assoc. eapply oks_step; [unfold deref; now rewrite Hv|]. eapply oks_step; [unfold deref; cbn; now rewrite HR|].
      apply oks_assoc. eapply oks_step; [unfold deref; now rewrite Hv|]. apply modify_step, oks_ret. exists w1. rewrite ?El. cbn. destruct Hb. now split_and!.
  - apply oks_ret. exists w1. split; [exact Ho|]. destruct (locking_next_tuple e max key R il); now cbn.
Qed.

Lemma row_of_inj key key' : row_of key = row_of key' -> key = key'.
Proof using Type. unfold row_of. congruence. Qed.

Lemma not_in_rows key (l : list Z) : key ∉ l -> row_of key ∉ row_of <$> l.
Proof using Type. intros H Hin. apply H. apply list_elem_of_fmap in Hin as (key' & E & Hin). apply row_of_inj in E as ->. exact Hin. Qed.

Lemma locks_nil w : winv size w -> locks_rows [] w w.
Proof using Type. intros Hw. split_and!; auto. intros key H. now apply elem_of_nil in H. Qed.

Lemma locks_cons key l t w w1 w2 :
  others sc me value_size w (row_of key) w1 -> abs (row_of key) w = Some t -> can scan_writes (t_lock t) = true ->
  abs (row_of key) w1 = Some (with_lock (grant scan_writes) t) -> locks_rows l w1 w2 -> key ∉ l -> locks_rows (key :: l) w w2.
Proof using Type.
  intros (_ & _ & Ho) Ht Hc Ht1 (Hw2 & Hf & Hl) Hn. split; [exact Hw2|]. split.
  - intros k Hk. apply not_elem_of_cons in Hk as [Hk1 Hk2]. rewrite Hf by exact Hk2. now apply Ho.
  - intros key' [->|Hin]%elem_of_cons.
    + exists t. rewrite Hf by now apply not_in_rows. auto.
    + destruct (Hl key' Hin) as (t' & E1 & E2 & E3). exists t'. split; [|auto]. rewrite <- E1. symmetry. apply Ho. intros E. apply row_of_inj in E as ->. auto.
Qed.

(** A lock that was refused changes no tuple. *)
Lemma locks_none key t w w1 : others sc me value_size w (row_of key) w1 -> abs (row_of key) w = Some t -> abs (row_of key) w1 = Some t -> locks_rows [] w w1.
Proof using Type.
  intros (O1 & O2 & O3) Ht Ht1. split; [exact O1|]. split; [|intros key' H; now apply elem_of_nil in H].
  intros k _. destruct (decide (k = row_of key)) as [->|Hk']; [congruence|auto].
Qed.

Lemma results_same x R w : x_vec x !! v = Some R -> set_world w x = on_vec_map (base.insert v (R ++ (entity_of <$> []))) (set_world w x).
Proof using Type. intros HR. rewrite app_nil_r. destruct x. unfold on_vec_map, set_world. cbn in *. now rewrite insert_id. Qed.

(** A result in front of the rest of the scan. *)
Lemma scan_ends_cons n key t ks w w1 w2 pre s :
  others sc me value_size w (row_of key) w1 -> abs (row_of key) w = Some t -> can scan_writes (t_lock t) = true ->
  abs (row_of key) w1 = Some (with_lock (grant scan_writes) t) -> (forall key', key' ∈ ks -> key < key') -> ks <> [] ->
  scan_ends (n + 1) ks w1 pre s w2 -> scan_ends n (key :: ks) w (key :: pre) s w2.
Proof using Type.
  intros Ho Ht Hc Ht1 Hnk Hne Hend.
  assert (Hnin : forall l rest, ks = l ++ rest -> key ∉ l).
  { intros l rest -> Hin. specialize (Hnk key ltac:(apply elem_of_app; now left)). lia. }
  inversion Hend as [s2 E1 E2|pre' key' rest s2 w2' E1 L1 S1 N1 R1|pre' key' rest s2 w2' E1 L1 S1]; subst; [easy|..].
  - eapply (scan_done _ _ _ (key :: pre) key' rest); auto.
    + cbn. eapply locks_cons; eauto. apply (Hnin _ rest). now rewrite <- app_assoc.
    + cbn. replace (n + S (length pre))%nat with (n + 1 + length pre)%nat by lia. exact R1.
  - eapply (scan_refused _ _ _ (key :: pre) key' rest); auto. eapply locks_cons; eauto.
Qed.

Lemma scan_spec : forall ks s x R,
  winv size (x_world x) -> x_vec x !! v = Some R -> StronglySorted Z.lt ks -> Forall (Z.le min) ks ->
  (forall key, key ∈ ks -> is_Some (abs (row_of key) (x_world x))) ->
  (forall r q key, last R = Some r -> re_key r = Some q -> key ∈ ks -> key_at q < key) ->
  (get_scan_limit e <> 0 -> Z.of_nat (length R) <= get_scan_limit e) ->
  oks false (scan_keys processor ks s) x (fun s' x' => exists pre,
    scan_ends (length R) ks (x_world x) pre s' (x_world x') /\ x' = on_vec_map (base.insert v (R ++ (entity_of <$> pre))) (set_world (x_world x') x) /\
    Forall (fun key => key <= max) pre /\ (get_scan_limit e <> 0 -> Z.of_nat (length R + length pre) <= get_scan_limit e)).
Proof using Hme proto Hv Hkey.
  induction ks as [|key ks IH]; intros s x R Hw HR Hs Hmin Hex Hlast Hlim.
  { apply oks_ret. exists []. split; [now apply scan_empty|]. split; [|split; [constructor|cbn; rewrite Nat.add_0_r; auto]].
    rewrite <- results_same by exact HR. now destruct x. }
  apply StronglySorted_inv in Hs as [Hs Hlt]. apply Forall_cons in Hmin as [Hk Hmin]. destruct (Hex key ltac:(now left)) as [t Ht].
  cbn [scan_keys]. apply oks_bind.
  eapply oks_mono; [apply (processor_step s key (match ks with [] => true | _ => false end) x R t); auto; intros r q Hr Hq; apply (Hlast r q key Hr Hq); now left|].
  intros [stop s1] x1 (w1 & Ho & Hpost). cbn in Hpost.
  assert (Hstop : forall s', scan_ends (length R) (key :: ks) (x_world x) [] s' w1 -> exists pre,
    scan_ends (length R) (key :: ks) (x_world x) pre s' (x_world (set_world w1 x)) /\
    set_world w1 x = on_vec_map (base.insert v (R ++ (entity_of <$> pre))) (set_world (x_world (set_world w1 x)) x) /\
    Forall (fun key => key <= max) pre /\ (get_scan_limit e <> 0 -> Z.of_nat (length R + length pre) <= get_scan_limit e)).
  { intros s' Hend. exists []. cbn [length]. rewrite Nat.add_0_r. split; [exact Hend|]. split; [now apply results_same|]. split; [constructor|exact Hlim]. }
  destruct (locking_next_tuple e max key R (match ks with [] => true | _ => false end)) eqn:El; unfold locking_next_tuple in El.
  - destruct Hpost as (-> & -> & Hpost). apply oks_ret, Hstop. destruct (sc_success s1) eqn:E1.
    + destruct Hpost as (Hn & Hc & Ht1). eapply (scan_done _ _ _ [] key ks); auto; [eapply locks_cons; eauto; [apply locks_nil, Ho|apply not_elem_of_nil]|].
      apply orb_true_iff in El as [El|El]; [apply orb_true_iff in El as [El|El]|]; [left; now destruct ks|right; left|right; right; lia].
      apply andb_true_iff in El as [E2 E3]. cbn. rewrite Nat.add_0_r. lia.
    + eapply (scan_refused _ _ _ [] key ks); auto. eapply locks_none; eauto.
  - destruct stop; [destruct Hpost as (-> & Hs1 & Ht1); apply oks_ret, Hstop, (scan_refused _ _ _ [] key ks); eauto using locks_none|].
    destruct Hpost as (-> & -> & Hc & Ht1). set (x1 := on_vec_map _ _). apply orb_false_iff in El as [El Emax]. apply orb_false_iff in El as [Eil Elim].
    assert (Hnk : forall key', key' ∈ ks -> key < key') by (now apply Forall_forall).
    eapply oks_mono; [apply (IH s x1 (R ++ [entity_of key])); auto|].
    + apply Ho.
    + cbn. now rewrite lookup_insert_eq.
    + intros key' Hin. cbn. destruct Ho as (_ & _ & O3). rewrite O3; [apply Hex; now right|]. intros E. apply row_of_inj in E as ->. specialize (Hnk key Hin). lia.
    + intros r q key' Hr Hq Hin. rewrite last_snoc in Hr. injection Hr as <-. cbn in Hq. injection Hq as <-. rewrite Hkey. cbn. auto.
    + intros Hl. specialize (Hlim Hl). rewrite length_app. cbn. destruct (Z.eqb_spec (get_scan_limit e) 0); [lia|]. cbn in Elim. lia.
    + intros s' x2 (pre & Hend & Hx2 & Hmx & Hl2). exists (key :: pre). rewrite length_app in Hl2, Hend. cbn [length] in *. split_and!.
      * eapply scan_ends_cons; eauto. now destruct ks.
      * rewrite Hx2 at 1. unfold x1. destruct x. unfold on_vec_map, set_world. cbn. rewrite insert_insert_eq. rewrite <- app_assoc. reflexivity.
      * constructor; [lia|exact Hmx].
      * intros Hl. specialize (Hl2 Hl). lia.
Qed.

(** ** The keys a scan is shown *)

Lemma keys_from_in t p low rows key : key ∈ keys_from t p low rows <-> (t, p, key) ∈ rows /\ low <= key.
Proof using Type.
  unfold keys_from. rewrite merge_sort_Permutation, list_elem_of_fmap. split.
  - intros ([[t' p'] key'] & -> & Hin). apply list_elem_of_filter in Hin as [[E Hl] Hin]. cbn in *. injection E as -> ->. now rewrite <- elem_of_elements.
  - intros [Hin Hl]. exists (t, p, key). split; [reflexivity|]. apply list_elem_of_filter. split; [now split|]. now apply elem_of_elements.
Qed.

Lemma keys_from_sorted t p low rows : StronglySorted Z.lt (keys_from t p low rows).
Proof using Type.
  assert (Hs : StronglySorted Z.le (keys_from t p low rows)) by (apply (StronglySorted_merge_sort Z.le)).
  assert (Hn : NoDup (keys_from t p low rows)).
  { unfold keys_from. rewrite merge_sort_Permutation. apply NoDup_fmap_2_strong; [|apply NoDup_filter, NoDup_elements].
    intros [[t1 p1] k1] [[t2 p2] k2] [[E1 _] _]%list_elem_of_filter [[E2 _] _]%list_elem_of_filter E. cbn in *. congruence. }
  induction Hs as [|k l Hs IH Hall]; [constructor|]. apply NoDup_cons in Hn as [Hk Hn]. constructor; [auto|].
  apply Forall_forall. intros k' Hin. apply (proj1 (Forall_forall _ _)) with (x := k') in Hall; [|exact Hin]. assert (k <> k') by (intros ->; auto). lia.
Qed.

Lemma rows_abs w k : winv size w -> k ∈ dom (w_rows w) <-> is_Some (abs k w).
Proof using Type.
  intros Hw. rewrite elem_of_dom. split; intros [r Hr].
  - destruct (abs k w) as [t|] eqn:E; [eauto|]. apply (abs_missing size) in E; [congruence|exact Hw].
  - unfold abs in Hr. destruct (w_rows w !! k); [eauto|discriminate].
Qed.

(** ** The handler *)

Context (master_coordinator : Z -> Z) (replica_here : Z -> bool) (cxl_data_addr : Z -> Z).
#[local] Abbreviation handler := (scanRequestHandler_next_key sc me value_size master_coordinator key_at row_addr data_addr key_addr cxl_data_addr replica_here).

(** The keys of the table from the lower bound on. *)
Definition keys_in (w : world) : list Z := keys_from (get_table_id e) (get_partition_id e) min (dom (w_rows w)).

(** The bounds of the range, which is in a partition of this host; the vector for
    the results is empty. *)
Definition scan_request (x : execution) : Prop :=
  local_here me master_coordinator replica_here (get_partition_id e) = true /\
  (exists p, get_scan_min_key e = Some p /\ key_at p = min) /\ (exists p, get_scan_max_key e = Some p /\ key_at p = max) /\
  x_vec x !! v = Some [] /\ 0 <= get_scan_limit e.

Lemma handler_scan i x : winv size (x_world x) -> scan_request x ->
  oks false (handler i e) x (fun s x' => exists pre,
    scan_ends 0 (keys_in (x_world x)) (x_world x) pre s (x_world x') /\ x' = on_vec_map (base.insert v (entity_of <$> pre)) (set_world (x_world x') x) /\
    Forall (fun key => key <= max) pre /\ (get_scan_limit e <> 0 -> Z.of_nat (length pre) <= get_scan_limit e)).
Proof using Hme proto Hv Hkey.
  intros Hw (Hloc & (p & Ep & Emin) & (q & Eq & Emax) & HR & Hlim). unfold scanRequestHandler_next_key, scan_bound.
  apply oks_assoc. eapply oks_step; [unfold deref; now rewrite Ep|]. eapply oks_step; [reflexivity|].
  apply oks_assoc. eapply oks_step; [unfold deref; now rewrite Eq|]. eapply oks_step; [reflexivity|]. cbv beta. rewrite Hloc, Emin, Emax.
  eapply oks_step; [reflexivity|]. cbv beta. fold (keys_in (x_world x)).
  eapply oks_mono; [apply (scan_spec (keys_in (x_world x)) _ x []); auto|intros s x' H; exact H].
  - apply keys_from_sorted.
  - apply Forall_forall. intros key Hin. now apply keys_from_in in Hin.
  - intros key Hin. apply keys_from_in in Hin as [Hin _]. now apply (rows_abs (x_world x) (row_of key) Hw).
  - intros r q' key Hr. discriminate Hr.
Qed.

(** A row with a lock of a scan refuses the write lock. *)
Lemma locked_refuses (wr : bool) t : 0 <= readers (t_lock t) -> can_own (t_lock (with_lock (grant wr) t)) = false.
Proof using Type.
  intros Hr. unfold can_own, with_lock, grant. destruct wr; cbn; [reflexivity|]. rewrite (proj2 (Z.eqb_neq _ 0)) by lia. now rewrite andb_false_r.
Qed.

Lemma write_lock_refused w k t : winv size w -> abs k w = Some t -> can_own (t_lock t) = false ->
  oks false (Pasha.write_lock sc me k (size k)) w (fun res w' => res.2 = false /\ forall k', abs k' w' = abs k' w).
Proof using Hme proto.
  intros Hw Ht Hc. eapply oks_mono; [exact (cell_spec_world size w Hw false k _ _ _ t (write_lock_cell sc me Hme k (size k)) Ht I)|].
  intros [tid b] w' (H1 & (t' & E & Hg) & H3 & _). unfold acquired, granted in Hg. cbn in *. destruct b; [destruct Hg; congruence|]. subst.
  split; [reflexivity|]. intros k'. destruct (decide (k' = k)) as [->|Hk]; [congruence|auto].
Qed.

(** The row after an absent key of the range is one that the scan has locked. *)
Lemma next_is_locked w w' pre key0 rest key :
  winv size w -> keys_in w = pre ++ key0 :: rest -> locks_rows (pre ++ [key0]) w w' -> min <= key -> key < key0 -> 
  exists m, next_key (row_of key) w' = Some (row_of m) /\ m ∈ pre ++ [key0].
Proof using Type.
  intros Hw Hks (Hw' & Hf & Hl) Hmin Hlt.
  assert (Hdom : forall k, k ∈ dom (w_rows w') <-> k ∈ dom (w_rows w)).
  { intros k. rewrite (rows_abs w' k Hw'), (rows_abs w k Hw). destruct (decide (k ∈ row_of <$> (pre ++ [key0]))) as [Hin|Hin]; [|now rewrite Hf].
    apply list_elem_of_fmap in Hin as (m & -> & Hin). destruct (Hl m Hin) as (t & E1 & _ & E2). rewrite E1, E2. split; eauto. }
  assert (H0 : row_of key0 ∈ dom (w_rows w')).
  { apply Hdom. apply (keys_from_in _ _ min (dom (w_rows w)) key0). fold (keys_in w). rewrite Hks. apply elem_of_app. right. now left. }
  pose proof (next_spec (row_of key) w') as Hn. assert (Hsame : forall m, same_table (row_of key) (row_of m) = true).
  { intros m. unfold same_table. cbn. now rewrite !Z.eqb_refl. }
  destruct (next_key (row_of key) w') as [m|]; [|now destruct (Hn _ H0 (Hsame key0))].
  destruct Hn as (H1 & H2 & H3 & H4). specialize (H4 _ H0 (Hsame key0) Hlt). apply same_table_row in H2. rewrite H2 in *. cbn in H3, H4. exists m.2. split; [reflexivity|].
  assert (Hin : m.2 ∈ keys_in w) by (apply keys_from_in; split; [now apply Hdom|cbn in H3; lia]).
  rewrite Hks in Hin. apply elem_of_app in Hin as [Hin|[->|Hin]%elem_of_cons]; [apply elem_of_app; now left|apply elem_of_app; right; now left|].
  pose proof (keys_from_sorted (get_table_id e) (get_partition_id e) min (dom (w_rows w))) as Hs. fold (keys_in w) in Hs. rewrite Hks in Hs.
  apply StronglySorted_app_1_r, StronglySorted_inv in Hs as [_ Hs]. apply (proj1 (Forall_forall _ _)) with (x := m.2) in Hs; [cbn in H4; lia|exact Hin].
Qed.

(** C14: A range scan locks its range, and sees no phantoms.  A scan of a partition
    of this host returns.  The rows it records are, in order, rows of the table from
    the lower bound on, none above the upper bound and no more than the limit;
    the recorded rows, and no other ones but the row after them, are locked
    by it, with read locks for a read and write locks otherwise.  If it
    succeeds, the scan went as far as the limit, the upper bound or
    the last row of the table, and the row where it stopped is locked too; and then
    an insertion with next-key locking of any key between the lower bound and
    that row is refused and changes no tuple. *)
Theorem scan_locks_range i x :
  winv size (x_world x) -> scan_request x ->
  oks false (handler i e) x (fun s x' => exists pre,
    scan_ends 0 (keys_in (x_world x)) (x_world x) pre s (x_world x') /\ x_vec x' !! v = Some (entity_of <$> pre) /\
    Forall (fun key => key <= max) pre /\ (get_scan_limit e <> 0 -> Z.of_nat (length pre) <= get_scan_limit e) /\
    forall key0 rest key value, sc_success s = true -> keys_in (x_world x) = pre ++ key0 :: rest -> min <= key < key0 ->
      w_rows (x_world x') !! row_of key = None ->
      oks false (Migration.insert_and_update_next_key_info sc me (row_of key) value true) (x_world x') (fun res w' =>
        res = (false, None) /\ forall k, abs k w' = abs k (x_world x'))).
Proof using Hme proto Hv Hkey.
  intros Hw Hreq. eapply oks_mono; [now apply (handler_scan i x)|]. intros s x' (pre & Hend & Hx' & Hmax & Hlim). exists pre.
  split; [exact Hend|]. split; [rewrite Hx'; cbn; now rewrite lookup_insert_eq|]. split; [exact Hmax|]. split; [exact Hlim|].
  intros key0 rest key value Hs Hks [Hmin Hlt] Hnone.
  assert (Hlocks : locks_rows (pre ++ [key0]) (x_world x) (x_world x')).
  { inversion Hend as [s' E1 E2 E3|pre' key' rest' s' w' E1 L1 S1 N1 R1|pre' key' rest' s' w' E1 L1 S1]; subst; [|..|congruence].
    - rewrite E1 in Hks. discriminate Hks.
    - rewrite E1 in Hks. apply app_inv_head in Hks. injection Hks as <- _. exact L1. }
  destruct (next_is_locked _ _ _ _ _ key Hw Hks Hlocks Hmin Hlt) as (m & Hn & Hm). destruct Hlocks as (Hw' & _ & Hl).
  destruct (Hl m Hm) as (t & E1 & _ & E2). pose proof (locked_refuses scan_writes t (tuple_readers value_size _ _ _ Hw E1)) as Hc.
  assert (exists r, w_rows (x_world x') !! row_of m = Some r /\ length (lr_data r) = size (row_of m)) as (r & Er & Hlen).
  { destruct (abs_cases size _ Hw' _ _ E2) as [(r & E & _ & Hcell & _)|(p & o & r & sm & d & E & _ & _ & _ & Hcell & _)]; exists r; (split; [exact E|]);
      [apply Hcell|apply Hcell]. }
  unfold Migration.insert_and_update_next_key_info. eapply oks_step; [reflexivity|]. cbv beta. rewrite Hnone.
  do 2 (eapply oks_step; [reflexivity|]; cbv beta). rewrite Hn. eapply oks_step; [reflexivity|]. eapply oks_step; [reflexivity|]. cbv beta.
  apply oks_assoc. eapply oks_step; [unfold get_row, deref; now rewrite Er|]. rewrite Hlen. apply oks_assoc, oks_bind.
  eapply oks_mono; [exact (write_lock_refused _ _ _ Hw' E2 Hc)|]. intros res w' [Hb Ha]. eapply oks_step; [reflexivity|]. cbv beta. rewrite Hb.
  apply oks_ret. now split.
Qed.
End scan.
