(* ===== verification/BTreeCXLSpec.v ===== *)
(** * The B+ tree in CXL memory refines the one in local memory, page by page

    The tree that the methods of [BPlusTreeCXL] leave is the one that those of
    [BTree] leave, and the counters of CXL memory have exactly its pages. *)

From S2P Require Import Prelude CXLMemory PashaState BTreeNode BTree BTreeInv BTreeInsert BTreeTree BTreeRemove BTreeSpec BTreeScan BTreeCXL Execute Scan LocalIndex.

(** ** Counting pages *)

Section pages.
Context {V : Type}.

Fixpoint pages {h : nat} : node V h -> nat :=
  match h with O => fun _ => 1%nat | S h => fun n => S (sum_list_with pages (i_children n)) end.

Definition kids {h} (n : inner (node V h)) : nat := sum_list_with pages (i_children n).

Lemma pages_inner {h} (n : inner (node V h)) : @pages (S h) n = S (kids n).
Proof. done. Qed.

Lemma sum_splice {A} (f : A -> nat) pos a (l : list A) : sum_list_with f (splice pos a l) = (f a + sum_list_with f l)%nat.
Proof. unfold splice. rewrite sum_list_with_app. cbn. rewrite <- (take_drop pos l) at 3. rewrite sum_list_with_app. lia. Qed.

Lemma sum_swap {A} (f : A -> nat) pos (l : list A) : sum_list_with f (swap_children pos l) = sum_list_with f l.
Proof.
  unfold swap_children. destruct (l !! pos) as [a|] eqn:Ea; [|done]. destruct (l !! S pos) as [b|] eqn:Eb; [|done].
  pose proof (sum_insert f l pos a b Ea) as H1. pose proof (sum_insert f (<[pos := b]> l) (S pos) b a) as H2.
  rewrite list_lookup_insert_ne in H2 by lia. specialize (H2 Eb). lia.
Qed.

Lemma kids_insert {h} k (c : node V h) (n : inner (node V h)) : kids (inner_insert k c n) = (pages c + kids n)%nat.
Proof. unfold kids, inner_insert. cbn [i_children]. now rewrite sum_swap, sum_splice. Qed.

Lemma kids_set {h} pos (c c' : node V h) (n : inner (node V h)) : i_children n !! pos = Some c ->
  (kids (set_child pos c' n) + pages c = kids n + pages c')%nat.
Proof. intros E. unfold kids, set_child. cbn [i_children]. now apply sum_insert. Qed.

Lemma kids_split {h} (n n1 n2 : inner (node V h)) sep : inner_split n = Some (n1, sep, n2) -> (kids n1 + kids n2 = kids n)%nat.
Proof.
  unfold inner_split. destruct (_ !! _); cbn; [|done]. intros [= <- _ <-]. unfold kids. cbn [i_children].
  rewrite <- sum_list_with_app. now rewrite take_drop.
Qed.

Lemma sum_cut {A} (f : A -> nat) pos a (l : list A) : l !! pos = Some a -> (sum_list_with f (cut pos l) + f a = sum_list_with f l)%nat.
Proof.
  intros E. unfold cut. rewrite sum_list_with_app. rewrite <- (take_drop_middle l pos a E) at 3. rewrite sum_list_with_app. cbn. lia.
Qed.

Lemma map_leaves_pages (f : leaf V -> leaf V) {h} (n : node V h) : pages (map_leaves f n) = pages n.
Proof.
  induction h as [|h IH]; [done|]. destruct n as [ks cs]. cbn. f_equal. induction cs as [|c cs IHc]; [done|]. cbn. now rewrite IH, IHc.
Qed.

(** What an event does to the number of pages. *)
Definition growth (es : list event) : Z :=
  foldr (fun e n => n + match e with SplitLeaf | SplitInner => 1 | MergedLeaf | MergedInner => -1 | _ => 0 end) 0 es.
Lemma growth_app es1 es2 : growth (es1 ++ es2) = growth es1 + growth es2.
Proof. unfold growth. induction es1 as [|e es1 IH]; cbn; [lia|]. rewrite IH. lia. Qed.
Lemma growth_did ok : growth (did ok) = 0.
Proof. now destruct ok. Qed.

Definition pass_value {A} (p : pass A) : A := match p with Restart a => a | Done _ a => a end.
Lemma pass_value_map {A B} (f : A -> B) p : pass_value (pass_map f p) = f (pass_value p).
Proof. now destruct p. Qed.

Context (leaf_max inner_max : nat).

(** ** Insertion *)

Lemma split_full_growth restarts addr k f (l : leaf V) p es : split_full restarts addr k f l = Some (p, es) -> growth es = 1.
Proof.
  unfold split_full. destruct (leaf_split addr l) as [[[l1 sep] l2]|]; cbn; [|done]. destruct restarts; [intros [= <- <-]; done|].
  destruct (sep <? k); [destruct (f l2) as [ok l2']|destruct (f l1) as [ok l1']]; intros [= <- <-]; cbn; fold (growth (did ok)); rewrite growth_did; lia.
Qed.

Lemma insert_in_pages restarts addr k f {h} : forall (n : inner (node V h)) p es,
  insert_in leaf_max inner_max restarts addr k f n = Some (p, es) -> Z.of_nat (kids (pass_value p)) = Z.of_nat (kids n) + growth es.
Proof.
  induction h as [|h IH]; intros n p es; cbn [insert_in].
  - destruct (i_children n !! lowerBound (i_keys n) k) as [l|] eqn:El; cbn [mbind option_bind]; [|done]. destruct (leaf_full leaf_max l).
    + destruct (split_full restarts addr k f l) as [[q es']|] eqn:Es; cbn; [|done]. intros [= <- <-]. rewrite pass_value_map.
      rewrite (split_full_growth _ _ _ _ _ _ _ Es). destruct (pass_value q) as [[l1 sep] l2]. rewrite (kids_insert sep (l2 : node V 0)).
      pose proof (kids_set (h := 0) _ l l1 n El) as Hk. cbn in Hk |- *. lia.
    + destruct (f l) as [ok l']. intros [= <- <-]. cbn [pass_value]. rewrite growth_did. pose proof (kids_set (h := 0) _ l l' n El) as Hk. cbn in Hk |- *. lia.
  - destruct (i_children n !! lowerBound (i_keys n) k) as [c|] eqn:Ec; cbn [mbind option_bind]; [|done]. destruct (inner_full inner_max c).
    + destruct (inner_split c) as [[[c1 sep] c2]|] eqn:Es; cbn [mbind option_bind]; [|done]. intros [= <- <-]. cbn [pass_value].
      rewrite (kids_insert sep (c2 : node V (S h))). pose proof (kids_set (h := S h) _ c c1 n Ec) as Hk. apply kids_split in Es.
      pose proof (pages_inner c). pose proof (pages_inner c1). pose proof (pages_inner c2). change (growth [SplitInner]) with 1. cbn [node] in *. lia.
    + destruct (insert_in leaf_max inner_max restarts addr k f c) as [[q es']|] eqn:Ei; cbn [mbind option_bind]; [|done]. intros [= <- <-].
      rewrite pass_value_map. apply IH in Ei. pose proof (kids_set (h := S h) _ c (pass_value q) n Ec) as Hk. pose proof (pages_inner c). pose proof (pages_inner (pass_value q)). cbn [node] in *. lia.
Qed.

(** ** Removal *)

Definition moves_pages {h} (op : node V h -> Z -> node V h -> option (node V h * Z * node V h)) : Prop :=
  forall a sep b a' sep' b', op a sep b = Some (a', sep', b') -> (pages a' + pages b' = pages a + pages b)%nat.

Lemma borrow_right_pages {h} : moves_pages (@borrow_from_right V h).
Proof.
  destruct h as [|h]; intros a sep b a' sep' b'; cbn [borrow_from_right]; [done|]. destruct a as [ka ca], b as [kb [|c cb]]; [done|].
  cbn [head i_children i_keys mbind option_bind]. destruct (head kb); cbn [mbind option_bind]; [|done].
  intros [= <- _ <-]. cbn. rewrite sum_list_with_app. cbn. lia.
Qed.
Lemma borrow_left_inner {h} ka (ca : list (node V h)) sep kb cb :
  borrow_from_left (h := S h) (Inner ka ca) sep (Inner kb cb) =
  c ← last ca; k ← last ka; Some (Inner (without_last ka) (without_last ca), k, Inner (sep :: kb) (c :: cb)).
Proof. done. Qed.

Lemma borrow_left_pages {h} : moves_pages (@borrow_from_left V h).
Proof.
  destruct h as [|h]; intros a sep b a' sep' b'.
  { cbn [borrow_from_left]. destruct (last (l_data a)); cbn [mbind option_bind]; [|done]. destruct (last _); cbn [mbind option_bind]; [|done]. now intros [= <- _ <-]. }
  destruct a as [ka ca], b as [kb cb]. rewrite borrow_left_inner. destruct (last ca) as [c|] eqn:Ec; cbn [mbind option_bind]; [|done].
  destruct (last ka); cbn [mbind option_bind]; [|done]. apply last_Some in Ec as (ca' & ->).
  intros [= <- _ <-]. rewrite without_last_app. rewrite !pages_inner. unfold kids. cbn [i_children]. rewrite sum_list_with_app. cbn. lia.
Qed.

Lemma rebalance_pages {h} op i (n n' : inner (node V h)) : moves_pages op -> rebalance op i n = Some n' -> kids n' = kids n.
Proof.
  intros Hop. unfold rebalance. destruct (i_children n !! i) as [a|] eqn:Ea; cbn [mbind option_bind]; [|done].
  destruct (i_children n !! S i) as [b|] eqn:Eb; cbn [mbind option_bind]; [|done]. destruct (i_keys n !! i) as [sep|]; cbn [mbind option_bind]; [|done].
  destruct (op a sep b) as [[[a' sep'] b']|] eqn:E; cbn [mbind option_bind]; [|done]. intros [= <-]. apply Hop in E. unfold kids. cbn [i_children].
  pose proof (sum_insert pages (i_children n) i a a' Ea) as H1. pose proof (sum_insert pages (<[i := a']> (i_children n)) (S i) b b') as H2.
  rewrite list_lookup_insert_ne in H2 by lia. specialize (H2 Eb). lia.
Qed.

Lemma merge_nodes_pages {h} (a b ab : node V h) r : merge_nodes a b = Some (ab, r) -> (pages ab + 1 = pages a + pages b)%nat.
Proof.
  destruct h as [|h]; cbn [merge_nodes]; [now intros [= <- _]|]. destruct (_ !! _); cbn [mbind option_bind]; [|done].
  destruct (max_key _); cbn [mbind option_bind]; [|done]. intros [= <- _]. destruct a as [ka ca], b as [kb cb]. cbn. rewrite sum_list_with_app. lia.
Qed.

Lemma relink_growth r : growth (relink_events r) = 0.
Proof. now destruct r as [[? ?]|]. Qed.

Lemma merge_at_pages {h} i (n n' : inner (node V h)) es : merge_at i n = Some (n', es) -> Z.of_nat (kids n') = Z.of_nat (kids n) + growth es.
Proof.
  unfold merge_at. destruct (i_children n !! i) as [a|] eqn:Ea; cbn [mbind option_bind]; [|done].
  destruct (i_children n !! S i) as [b|] eqn:Eb; cbn [mbind option_bind]; [|done]. destruct (merge_nodes a b) as [[ab r]|] eqn:Em; cbn [mbind option_bind]; [|done].
  intros [= <- <-]. apply merge_nodes_pages in Em. pose proof (kids_set i a ab n Ea) as Hs. unfold kids, inner_erase in *. cbn [i_children set_child] in *.
  pose proof (sum_cut pages (S i) b (<[i := ab]> (i_children n))) as Hc. rewrite list_lookup_insert_ne in Hc by lia. specialize (Hc Eb).
  change (growth (merge_event h :: relink_events r)) with (growth (relink_events r) + match merge_event h with SplitLeaf | SplitInner => 1 | MergedLeaf | MergedInner => -1 | _ => 0 end).
  rewrite relink_growth. destruct h; cbn [merge_event]; lia.
Qed.

Lemma erase_merge_pages {h} pos (n n' : inner (node V h)) cr up es :
  erase_merge leaf_max inner_max pos n = Some (n', cr, up, es) -> Z.of_nat (kids n') = Z.of_nat (kids n) + growth es.
Proof.
  unfold erase_merge. destruct (i_children n !! pos) as [c|]; cbn [mbind option_bind]; [|done]. cbv zeta.
  assert (Hr : forall op i, moves_pages op -> (n' ← rebalance op i n; Some (n', false, false, [])) = Some (n', cr, up, es) ->
    Z.of_nat (kids n') = Z.of_nat (kids n) + growth es).
  { intros op i Hop. destruct (rebalance op i n) as [n1|] eqn:E; cbn [mbind option_bind]; [|done]. intros [= <- _ _ <-].
    rewrite (rebalance_pages _ _ _ _ Hop E). cbn. lia. }
  assert (Hm : forall i, ('(n', es) ← merge_at i n; Some (n', match i_keys n' with [] => true | _ => false end, needMerge leaf_max inner_max (n' : node V (S h)), es))
      = Some (n', cr, up, es) -> Z.of_nat (kids n') = Z.of_nat (kids n) + growth es).
  { intros i. destruct (merge_at i n) as [[n1 es1]|] eqn:E; cbn [mbind option_bind]; [|done]. intros [= <- _ _ <-]. now apply merge_at_pages in E. }
  repeat case_match; eauto using borrow_left_pages, borrow_right_pages; intros [= <- _ _ <-]; cbn; lia.
Qed.

Lemma remove_in_pages k f {h} : forall (n : node V h) ok n' up cr es,
  remove_in leaf_max inner_max k f n = Some (ok, n', up, cr, es) -> Z.of_nat (pages n') = Z.of_nat (pages n) + growth es.
Proof.
  induction h as [|h IH]; intros n ok n' up cr es.
  - cbn [remove_in]. destruct (f n) as [b l]. intros [= <- <- _ _ <-]. destruct b; cbn; lia.
  - destruct n as [ks cs]. rewrite remove_in_inner. destruct (cs !! lowerBound ks k) as [c|] eqn:Ec; cbn [mbind option_bind]; [|done].
    destruct (remove_in leaf_max inner_max k f c) as [[[[[ok1 c'] merge] cr1] es1]|] eqn:Er; cbn [mbind option_bind]; [|done].
    apply IH in Er. pose proof (kids_set _ c c' (Inner ks cs) Ec) as Hs. destruct merge.
    + destruct (erase_merge _ _ _ _) as [[[[n2 cr2] up2] es2]|] eqn:Ee; cbn [mbind option_bind]; [|done]. intros [= _ <- _ _ <-].
      apply erase_merge_pages in Ee. rewrite !pages_inner, growth_app. lia.
    + intros [= _ <- _ _ <-]. rewrite !pages_inner. lia.
Qed.
End pages.

(** ** The tree is the one of [BTree], and its pages are counted *)

Section simulation.
Import BPlusTreeCXL.
Context {V : Type} (leaf_max inner_max : nat) (cfg : config).

(** The counters [s] when the tree has [n] pages besides. *)
Definition usage_with (s : cxl_stats) (n : Z) : cxl_stats :=
  let '(MkStats hw ix md da tr mi) := s in
  MkStats (wrap 64 (hw + kPageSize * n)) (wrap 64 (ix + kPageSize * n)) md da tr mi.

Definition tree_pages (c : state V) : Z := Z.of_nat (pages (root (c_tree c))).

Definition counted (s : cxl_stats) (n : Z) (c : state V) : Prop :=
  c_stats c = usage_with s n /\ allocated c - retired c = n.

Lemma counted_alloc s n c : counted s n c -> counted s (n + 1) (alloc_page cfg c).
Proof.
  intros [E H]. split; [|cbn; lia]. unfold alloc_page. cbn. rewrite E. unfold usage_with. destruct s. cbn. rewrite !wrap_add_l. do 2 f_equal; unfold kPageSize; lia.
Qed.
Lemma counted_retire s n c : counted s n c -> counted s (n - 1) (retire_page cfg c).
Proof.
  intros [E H]. split; [|cbn; lia]. unfold retire_page. cbn. rewrite E. unfold usage_with. destruct s. cbn. rewrite !wrap_sub_l. do 2 f_equal; unfold kPageSize; lia.
Qed.

Lemma do_events_tree es : forall (c : state V), c_tree (do_events cfg es c) = apply_events es (c_tree c).
Proof.
  induction es as [|e es IH]; intros c; [done|]. change (do_events cfg (e :: es) c) with (do_events cfg es (do_event cfg e c)).
  rewrite IH. unfold do_event. now destruct e.
Qed.

Lemma counted_events s es : forall n c, counted s n c -> counted s (n + growth es) (do_events cfg es c).
Proof.
  induction es as [|e es IH]; intros n c Hc; [now rewrite Z.add_0_r|].
  change (do_events cfg (e :: es) c) with (do_events cfg es (do_event cfg e c)).
  assert (Hc' : counted s (n + growth [e]) (do_event cfg e c)).
  { assert (H : counted s n (on_tree (apply_event e) c)) by exact Hc. unfold do_event, growth.
    destruct e; cbn [page_event foldr]; rewrite Z.add_0_l, ?Z.add_0_r; try exact H; [apply counted_alloc, H|apply counted_alloc, H|apply counted_retire, H|apply counted_retire, H]. }
  apply IH in Hc'. change (e :: es) with ([e] ++ es). now rewrite growth_app, Z.add_assoc.
Qed.

Lemma apply_event_pages e (t : @tree V) : pages (root (apply_event e t)) = pages (root t).
Proof. destruct t as [h r a i l n]. destruct e; cbn [apply_event root]; try done. apply map_leaves_pages. Qed.
Lemma apply_events_pages es : forall (t : @tree V), pages (root (apply_events es t)) = pages (root t).
Proof.
  induction es as [|e es IH]; intros t; [done|]. change (apply_events (e :: es) t) with (apply_events es (apply_event e t)).
  now rewrite IH, apply_event_pages.
Qed.

(** The state has counted [n] pages and its tree is to have [n] after the events. *)
Lemma counted_done s es n c : counted s n c -> tree_pages c = n + growth es -> counted s (tree_pages (do_events cfg es c)) (do_events cfg es c).
Proof.
  intros Hc E. unfold tree_pages. rewrite do_events_tree, apply_events_pages. fold (tree_pages c). rewrite E. now apply counted_events.
Qed.

Lemma insert_pass_tree k f (c : state V) :
  pass_map c_tree <$> insert_pass leaf_max inner_max cfg k f c = BTree.insert_pass leaf_max inner_max false k f (c_tree c).
Proof.
  destruct c as [[[|h] r a i ln ni] st al re]; cbn [c_tree]; [unfold BTree.insert_pass|rewrite insert_pass_inner]; unfold insert_pass; cbn [c_tree next_addr].
  - destruct (leaf_full leaf_max r).
    + destruct (split_full false a k f r) as [[p es]|]; cbn [mbind option_bind fmap option_fmap option_map]; [|done].
      destruct p as [[[l1 sep] l2]|ok [[l1 sep] l2]]; cbn [pass_map]; now rewrite do_events_tree.
    + destruct (f r) as [ok l']. cbn [fmap option_fmap option_map pass_map]. now rewrite do_events_tree.
  - destruct (inner_full inner_max (A := node V h) r).
    + destruct (inner_split (A := node V h) r) as [[[c1 sep] c2]|]; cbn [mbind option_bind fmap option_fmap option_map pass_map]; [|done]. now rewrite do_events_tree.
    + destruct (insert_in leaf_max inner_max false a k f r) as [[p es]|]; cbn [mbind option_bind fmap option_fmap option_map]; [|done].
      destruct p as [n'|ok n']; cbn [pass_map]; now rewrite do_events_tree.
Qed.

Lemma insert_pass_counted s k f c p : insert_pass leaf_max inner_max cfg k f c = Some p ->
  counted s (tree_pages c) c -> counted s (tree_pages (pass_value p)) (pass_value p).
Proof.
  intros E Hc. destruct c as [[[|h] r a i ln ni] st al re]; unfold insert_pass in E; cbn [c_tree] in E.
  - destruct (leaf_full leaf_max r).
    + destruct (split_full false a k f r) as [[q es]|] eqn:Es; cbn [mbind option_bind] in E; [|done]. injection E as <-. rewrite pass_value_map.
      apply split_full_growth in Es. destruct (pass_value q) as [[l1 sep] l2]. apply (counted_done s es (1 + 1)); [apply (counted_alloc _ _ _ Hc)|rewrite Es; done].
    + destruct (f r) as [ok l']. injection E as <-. cbn [pass_value]. apply (counted_done s _ 1); [exact Hc|now rewrite growth_did].
  - destruct (inner_full inner_max (A := node V h) r).
    + destruct (inner_split (A := node V h) r) as [[[c1 sep] c2]|] eqn:Es; cbn [mbind option_bind] in E; [|done]. injection E as <-. cbn [pass_value].
      apply kids_split in Es. apply (counted_done s [SplitInner] (Z.of_nat (pages (h := S h) r) + 1) (makeRoot cfg sep (c1 : node V (S h)) c2 _)); [apply (counted_alloc _ _ _ Hc)|].
      change (Z.of_nat (S (pages (h := S h) c1 + (pages (h := S h) c2 + 0))) = Z.of_nat (pages (h := S h) r) + 1 + 1). rewrite !pages_inner. lia.
    + destruct (insert_in leaf_max inner_max false a k f r) as [[q es]|] eqn:Ei; cbn [mbind option_bind] in E; [|done]. injection E as <-.
      rewrite pass_value_map. apply insert_in_pages in Ei. apply (counted_done s _ (Z.of_nat (pages (h := S h) r))); [exact Hc|].
      change (Z.of_nat (pages (h := S h) (pass_value q)) = Z.of_nat (pages (h := S h) r) + growth es). rewrite !pages_inner. lia.
Qed.

Lemma insert_loop_tree fuel : forall k v (c : state V),
  (fun '(b, c') => (b, c_tree c')) <$> insert_loop leaf_max inner_max cfg fuel k v c = BTree.insert_loop leaf_max inner_max fuel k v (c_tree c).
Proof.
  induction fuel as [|fuel IH]; intros k v c; [done|]. cbn [insert_loop BTree.insert_loop]. rewrite <- insert_pass_tree.
  destruct (insert_pass leaf_max inner_max cfg k (leaf_insert k v) c) as [[c'|ok c']|]; cbn [mbind option_bind fmap option_fmap option_map pass_map]; [apply IH|done|done].
Qed.

Lemma insert_tree k v (c : state V) :
  (fun '(b, c') => (b, c_tree c')) <$> insert leaf_max inner_max cfg k v c = BTree.insert leaf_max inner_max k v (c_tree c).
Proof. apply insert_loop_tree. Qed.

Lemma insert_counted s k v c b c' : insert leaf_max inner_max cfg k v c = Some (b, c') -> counted s (tree_pages c) c -> counted s (tree_pages c') c'.
Proof.
  unfold insert. generalize (S (potential (root (c_tree c)))). intros fuel. revert c. induction fuel as [|fuel IH]; intros c E Hc; cbn [insert_loop] in E; [done|].
  destruct (insert_pass leaf_max inner_max cfg k (leaf_insert k v) c) as [p|] eqn:Ep; cbn [mbind option_bind] in E; [|done].
  apply (insert_pass_counted s) in Ep; [|done]. destruct p as [c1|ok c1]; cbn [pass_value] in Ep; [eauto|]. now injection E as _ <-.
Qed.

Lemma remove_tree k (c : state V) :
  (fun '(b, c') => (b, c_tree c')) <$> remove leaf_max inner_max cfg k c = BTree.remove leaf_max inner_max k (c_tree c).
Proof.
  unfold remove, BTree.remove, remove_with. destruct (remove_in _ _ _ _ _) as [[[[[ok n] up] cr] es]|]; cbn [mbind option_bind]; [|done].
  destruct c as [[[|h] r a i ln ni] st al re]; cbn [c_tree height] in *.
  - cbn [mbind option_bind fmap option_fmap option_map]. now rewrite do_events_tree.
  - destruct cr; [unfold change_root; destruct n as [ks [|child cs]]|]; cbn [head i_children mbind option_bind fmap option_fmap option_map]; try done; now rewrite do_events_tree.
Qed.

Context (Hleaf : (3 <= leaf_max)%nat) (Hinner : (5 <= inner_max)%nat).

(** A root without keys has one child. *)
Lemma remove_counted s k c b c' : tree_ok leaf_max inner_max (c_tree c) -> remove leaf_max inner_max cfg k c = Some (b, c') ->
  counted s (tree_pages c) c -> counted s (tree_pages c') c'.
Proof.
  intros Ht E Hc. destruct (remove_in_ok leaf_max inner_max Hleaf Hinner k _ _ _ (leaf_remove_op k) None None _ (to_nodes _ _ _ Ht)) as (res & Er & Hres); [done|].
  unfold remove in E. rewrite Er in E. destruct res as [[[[ok n] up] cr] es]. cbn [mbind option_bind] in E. apply remove_in_pages in Er.
  destruct c as [[[|h] r a i ln ni] st al re]; cbn [c_tree height root] in *.
  - injection E as _ <-. now apply (counted_done s _ 1).
  - destruct cr.
    + destruct Hres as (L1 & l & L2 & es' & _ & _ & _ & _ & _ & _ & Hn & _ & _ & Hcr). destruct Hcr as [[_ Hz] _]; [done|].
      destruct n as [ks cs]. cbn [count i_keys] in Hz. destruct ks; [|done]. apply inner_ok in Hn as (_ & _ & Hb).
      assert (exists child, cs = [child]) as [child ->]. { apply between_keys_length in Hb. cbn in Hb. destruct cs as [|child [|]]; try done. by exists child. }
      cbn in E. injection E as _ <-. apply (counted_done s es (Z.of_nat (pages (h := S h) r) - 1)); [exact (counted_retire _ _ _ Hc)|].
      change (Z.of_nat (pages child) = Z.of_nat (pages (h := S h) r) - 1 + growth es).
      change (Z.of_nat (S (pages child + 0)) = Z.of_nat (pages (h := S h) r) + growth es) in Er. lia.
    + injection E as _ <-. apply (counted_done s es (Z.of_nat (pages (h := S h) r))); [exact Hc|exact Er].
Qed.
End simulation.

(** ** The ordered CXL index *)

Section ordered_index.
Import BPlusTreeCXL CXLTableBTreeOLC.
Context (leaf_max inner_max : nat) (cfg : config) (table_id partition_id : Z).
Context (Hleaf : (3 <= leaf_max)%nat) (Hinner : (5 <= inner_max)%nat).
Implicit Types (c : state BTreeOLCValue) (w : world).

Definition row_at (k : Z) : rkey := (table_id, partition_id, k).

(** The tree holds the part of the index of [w] that belongs to the partition, and
    its pages are counted on top of [s]. *)
Definition tree_indexes (s : cxl_stats) w c : Prop :=
  tree_ok leaf_max inner_max (c_tree c) /\ counted s (tree_pages c) c /\
  forall k, get k (tree_entries (c_tree c)) = (fun p => Value (Some p) true) <$> w_tbl w !! row_at k.

(** The outcome [o] is the answer of [o'] and leaves the index of its state. *)
Definition tree_step {A} (s : cxl_stats) (o : outcome (state BTreeOLCValue) A) (o' : outcome world A) : Prop :=
  match o, o' with Ret a c, Ret b w => a = b /\ tree_indexes s w c | _, _ => False end.

Lemma scan_list_row {T} (f : T -> Z -> option Z -> bool -> bool * T) d : forall z,
  scan_list (fun z k v is_last => f z k (row v) is_last) d z = scan_list f ((fun e => (e.1, row e.2)) <$> d) z.
Proof.
  induction d as [|[k v] d IH]; intros z; [done|]. rewrite fmap_cons. cbn [scan_list fst snd].
  assert (E : match (fun e : Z * BTreeOLCValue => (e.1, row e.2)) <$> d with [] => true | _ => false end = match d with [] => true | _ => false end) by now destruct d.
  rewrite E. destruct (f z k (row v) _) as [[] z']; [done|apply IH].
Qed.

(** The entries of the tree from a key on are the rows of the index from there. *)
Lemma scanned_rows s w c low : tree_indexes s w c ->
  (fun e => (e.1, row e.2)) <$> from low (tree_entries (c_tree c)) =
  (fun k => (k, w_tbl w !! row_at k)) <$> keys_from table_id partition_id low (dom (w_tbl w)).
Proof.
  intros (Ht & _ & Hg). pose proof (entries_ascending leaf_max inner_max _ Ht) as Hs. set (d := tree_entries (c_tree c)) in *.
  assert (Hf : ascending (fst <$> from low d)) by now apply filter_ascending.
  assert (Hrow : Forall (fun e => row e.2 = w_tbl w !! row_at e.1) (from low d)).
  { apply Forall_forall. intros [k v] [_ He]%list_elem_of_filter. apply get_elem in He; [|done]. rewrite Hg in He. cbn. destruct (w_tbl w !! row_at k); [|done]. now injection He as <-. }
  assert (Hk : fst <$> from low d = keys_from table_id partition_id low (dom (w_tbl w))).
  { apply ascending_eq; [done|apply keys_from_sorted|]. intros k. rewrite keys_from_in, elem_of_dom. split.
    - intros ([k' v] & -> & [Hl He]%list_elem_of_filter)%list_elem_of_fmap. apply get_elem in He; [|done]. rewrite Hg in He. cbn in *. fold (row_at k').
      destruct (w_tbl w !! row_at k') as [z|] eqn:Ez; [|done]. split; [exists z; exact Ez|exact Hl].
    - intros [[p Hp] Hl]. change (w_tbl w !! row_at k = Some p) in Hp. apply list_elem_of_fmap. exists (k, Value (Some p) true). split; [done|]. apply list_elem_of_filter. split; [done|].
      apply get_elem; [done|]. now rewrite Hg, Hp. }
  rewrite <- Hk. clear -Hrow. induction Hrow as [|[k v] d' E _ IH]; [done|]. cbn in *. now rewrite E, IH.
Qed.

Lemma index_insert s w c k p c' : tree_indexes s w c -> w_tbl w !! row_at k = None -> tree_ok leaf_max inner_max (c_tree c') ->
  tree_entries (c_tree c') = put k (Value (Some p) true) (tree_entries (c_tree c)) -> counted s (tree_pages c') c' ->
  tree_indexes s (set_tbl (base.insert (row_at k) p) w) c'.
Proof.
  intros (Ht & _ & Hg) Hn Ht' E Hc. split; [done|]. split; [done|]. intros k'. rewrite E, get_put by now apply (entries_ascending leaf_max inner_max). rewrite !Hg, Hn. cbn.
  destruct (decide (k' = k)) as [->|Hne]; [now rewrite lookup_insert_eq|]. now rewrite lookup_insert_ne by (unfold row_at; congruence).
Qed.

Lemma index_remove s w c k c' : tree_indexes s w c -> tree_ok leaf_max inner_max (c_tree c') ->
  tree_entries (c_tree c') = del k (tree_entries (c_tree c)) -> counted s (tree_pages c') c' ->
  tree_indexes s (set_tbl (base.delete (row_at k)) w) c'.
Proof.
  intros (Ht & _ & Hg) Ht' E Hc. split; [done|]. split; [done|]. intros k'. rewrite E, get_del by now apply (entries_ascending leaf_max inner_max). rewrite !Hg. cbn.
  destruct (decide (k' = k)) as [->|Hne]; [now rewrite lookup_delete_eq|]. now rewrite lookup_delete_ne by (unfold row_at; congruence).
Qed.

(** A new tree is the index of a partition that has no rows in CXL memory. *)
Lemma new_tree_indexes s w : (forall k, w_tbl w !! row_at k = None) -> tree_indexes s w (new_tree cfg s).
Proof.
  intros Hw. split; [exact (new_tree_ok leaf_max inner_max)|]. split; [split; [now destruct s|done]|]. intros k. now rewrite Hw.
Qed.

Lemma cxl_insert_eq k p w :
  cxl_insert k p w = match w_tbl w !! k with Some _ => Ret false w | None => Ret true (set_tbl (base.insert k p) w) end.
Proof. unfold cxl_insert, cxl_search. mrun. now case_match. Qed.
Lemma cxl_remove_eq k w :
  cxl_remove k w = match w_tbl w !! k with Some _ => Ret true (set_tbl (base.delete k) w) | None => Ret false w end.
Proof. unfold cxl_remove, cxl_search. mrun. now case_match. Qed.

(** C16: the tree in CXL memory is the ordered index.  For a partition whose rows are
    in the tree, whose pages are counted: searching, inserting and removing answer
    and change the index as the migration code assumes, and a removal fails its check
    exactly if the key is missing; a scan shows its processor the keys of the index
    from the first one on, in order, each with its row, until it stops.  All of them
    end, and afterwards the counters of CXL memory have again exactly the pages of
    the tree. *)
Theorem cxl_ordered_index_refines s w c k p :
  tree_indexes s w c ->
  tree_step s (search k c) (cxl_search (row_at k) w) /\
  tree_step s (CXLTableBTreeOLC.insert leaf_max inner_max cfg k p false c) (cxl_insert (row_at k) p w) /\
  (is_Some (w_tbl w !! row_at k) -> tree_step s (CXLTableBTreeOLC.remove leaf_max inner_max cfg k p c) (cxl_remove (row_at k) w)) /\
  (w_tbl w !! row_at k = None -> CXLTableBTreeOLC.remove leaf_max inner_max cfg k p c = Abort) /\
  forall T (f : T -> Z -> option Z -> bool -> bool * T) z,
    scan k f z c = Ret (scan_list f ((fun k => (k, w_tbl w !! row_at k)) <$> keys_from table_id partition_id k (dom (w_tbl w))) z) c.
Proof.
  intros Hi. pose proof Hi as (Ht & Hc & Hg). pose proof (Hg k) as Hk. rewrite cxl_insert_eq, cxl_remove_eq. unfold cxl_search.
  assert (Hhas : has k (tree_entries (c_tree c)) = match w_tbl w !! row_at k with Some _ => true | None => false end) by (unfold has; rewrite Hk; now destruct (w_tbl w !! row_at k)).
  destruct (remove_ok leaf_max inner_max Hleaf Hinner k _ Ht) as (tr & Er & Htr & Etr). rewrite <- (remove_tree leaf_max inner_max cfg) in Er.
  destruct (BPlusTreeCXL.remove leaf_max inner_max cfg k c) as [[br cr]|] eqn:Ecr; [|done]. injection Er as -> <-.
  pose proof (remove_counted leaf_max inner_max cfg Hleaf Hinner s k c _ cr Ht Ecr Hc) as Hcr.
  assert (Hrem : CXLTableBTreeOLC.remove leaf_max inner_max cfg k p c = if has k (tree_entries (c_tree c)) then Ret true cr else Abort).
  { unfold CXLTableBTreeOLC.remove, on_btree. cbv [mbind M_bind]. rewrite Ecr. now destruct (has _ _). }
  split_and!.
  - unfold search, deref, BPlusTreeCXL.lookup. cbv [mbind M_bind]. rewrite (lookup_ok _ _ _ k Ht), Hk. destruct (w_tbl w !! row_at k) as [z|] eqn:E; cbn; (split; [exact (eq_sym E)|exact Hi]).
  - destruct (insert_ok leaf_max inner_max Hleaf Hinner k (Value (Some p) true) _ Ht) as (ti & Ei & Hti & Eti). rewrite <- (insert_tree leaf_max inner_max cfg) in Ei.
    unfold CXLTableBTreeOLC.insert, on_btree. cbn [negb]. destruct (BPlusTreeCXL.insert leaf_max inner_max cfg k _ c) as [[bi ci]|] eqn:Eci; [|done]. injection Ei as -> <-.
    apply (insert_counted leaf_max inner_max cfg s) in Eci; [|done]. rewrite Hhas. destruct (w_tbl w !! row_at k) as [q|] eqn:E; cbn.
    + split; [done|]. split; [done|]. split; [done|]. intros k'. rewrite Eti, get_put by now apply (entries_ascending leaf_max inner_max). rewrite !Hg, E. destruct (decide (k' = k)) as [->|]; [|done]. now rewrite E.
    + split; [done|]. now apply (index_insert s w c k p ci).
  - intros [q E]. rewrite Hrem, Hhas, E. split; [done|]. now apply (index_remove s w c k cr).
  - intros E. now rewrite Hrem, Hhas, E.
  - intros T f z. unfold scan, BPlusTreeCXL.scanForUpdate, deref. rewrite (scan_shows leaf_max inner_max) by done. now rewrite scan_list_row, (scanned_rows s w c k Hi).
Qed.
End ordered_index.
