(* ===== verification/Table.v ===== *)
(** * The tables of a partition

    [TableBTreeOLC] of core/Table.h, the ordered table on top of the B+ tree, for
    all protocols.  A method that takes a processor gives it the rows it is to see,
    with its state.

    A row of a table is an object of its own ([ValueStruct]), which the index has a
    pointer to; it consists of the metadata word of the protocol and the data.  The
    type of rows is a parameter, with how a row is made ([MetaInitFunc]) and how its
    data are replaced. *)

From S2P Require Import Prelude BTreeNode BTree BTreeInv BTreeInsert BTreeTree BTreeScan.

(** ** [scanForUpdateNoContention]

    The scan of common/btree_olc/BTreeOLC.h without locks on the leaves, with which
    all rows are moved; it does not check the order of the keys. *)

Section no_contention.
Context {V S : Type} (processor : S -> Z -> V -> bool -> bool * S).
Implicit Types (t : @tree V) (s : S).

Fixpoint visit_leaf (no_next : bool) (d : list (Z * V)) s : bool * S :=
  match d with
  | [] => (false, s)
  | (k, v) :: d =>
      let lastItem := no_next && match d with [] => true | _ => false end in
      let '(stop, s') := processor s k v lastItem in
      if stop : bool then (true, s') else visit_leaf no_next d s'
  end.

Definition visit_pass (lowKey : Z) t s : option (S * option Z) :=
  leaf ← find_leaf lowKey (root t);
  let '(quit, s') := visit_leaf (match l_next leaf with None => true | _ => false end) (drop (lowerBound (l_keys leaf) lowKey) (l_data leaf)) s in
  if quit : bool then Some (s', None)
  else match l_next leaf with
       | None => Some (s', None)
       | Some a => nextLeaf ← leaf_at a (leaves (root t)); Some (s', fst <$> head (l_data nextLeaf))
       end.

Fixpoint visit_loop (fuel : nat) (lowKey : Z) t s : option S :=
  match fuel with
  | O => None
  | Datatypes.S fuel =>
      '(s', more) ← visit_pass lowKey t s;
      match more with Some lowKey' => visit_loop fuel lowKey' t s' | None => Some s' end
  end.

Definition scanForUpdateNoContention (startKey : Z) t s : option S := visit_loop (length (leaves (root t))) startKey t s.
End no_contention.

(** ** [TableBTreeOLC] *)

Module TableBTreeOLC.
Section table.
Context {R : Type} (new_row : bool -> bytes -> R) (set_data : bytes -> R -> R).
Context (leaf_max inner_max : nat).

(** The index, with pointers to rows; the rows; and where the next one will be. *)
Record table := Table { btree : @tree Z; rows : gmap Z R; next_row : Z }.

(** The constructor. *)
Definition new_table : table := Table BTree.new_tree ∅ 0.

Definition set_btree (b : @tree Z) (t : table) : table := Table b (rows t) (next_row t).
Definition set_rows (r : gmap Z R) (t : table) : table := Table (btree t) r (next_row t).

(** [btree.lookup(k, value)]: [false] is [None]. *)
Definition find (k : Z) : M table (option Z) := deref (fun t => BTree.lookup k (btree t)).

(** [search], [search_value] and [search_metadata]: the row, its data or its
    metadata, or null pointers; the model has one pointer for the three. *)
Definition search (k : Z) : M table (option Z) := find k.
Definition search_value (k : Z) : M table (option Z) := find k.
Definition search_metadata (k : Z) : M table (option Z) := find k.
Definition contains (k : Z) : M table bool := v ← find k; mret (bool_decide (is_Some v)).

(** What a method has done when its processor has been called: the processor's
    state and the rows, or a [CHECK] that has failed. *)
Definition called (T : Type) : Type := outcome (gmap Z R) T.

(** The processor of a scan is shown the row, which it may change. *)
Definition scan_processor {T} (min_k : Z) (f : T -> Z -> R -> bool -> bool * R * T)
    (o : called T) (key p : Z) (is_last_tuple : bool) : bool * called T :=
  match o with
  | Ret st rs =>
      match rs !! p with
      | None => (true, Fault)
      | Some r =>
          let '(should_end, r', st') := f st key r is_last_tuple in
          let o' := Ret st' (<[p := r']> rs) in
          if should_end : bool then (true, o') else if key <? min_k then (true, Abort) else (false, o')
      end
  | _ => (true, o)
  end.

(** The end of a method that has called processors. *)
Definition finish {A} (t : table) (o : called A) : outcome table A :=
  match o with Ret a rs => Ret a (set_rows rs t) | Spin => Spin | Abort => Abort | Fault => Fault end.

Definition answer {A} (success : bool) (o : outcome table A) : outcome table (bool * A) :=
  match o with Ret a t => Ret (success, a) t | Spin => Spin | Abort => Abort | Fault => Fault end.

Definition scan {T} (min_k : Z) (f : T -> Z -> R -> bool -> bool * R * T) (st : T) : M table T := fun t =>
  match scanForUpdate (scan_processor min_k f) min_k (btree t) (Ret st (rows t)) with
  | Some o => finish t o
  | None => Fault
  end.

(** A method of the tree on the table. *)
Definition on_index {A} (f : table -> outcome table A) : M table A := f.

(** [new ValueStruct] *)
Definition alloc_row (r : R) : M table Z := fun t =>
  Ret (next_row t) (Table (btree t) (<[next_row t := r]> (rows t)) (next_row t + 1)).

Definition insert (k : Z) (v : bytes) (is_placeholder : bool) : M table bool :=
  row ← alloc_row (new_row (negb is_placeholder) v);
  on_index (fun t => match BTree.insert leaf_max inner_max k row (btree t) with
                     | Some (success, b) => Ret success (set_btree b t)
                     | None => Fault
                     end).

(** The processor is shown the row after the key; there has to be one. *)
Definition next_key_processor {T} (f : Z -> R -> T -> bool * R * T) (o : called T) (next : Z * Z) : bool * called T :=
  match o with
  | Ret st rs =>
      match rs !! next.2 with
      | None => (false, Fault)
      | Some r => let '(ok, r', st') := f next.1 r st in (ok, Ret st' (<[next.2 := r']> rs))
      end
  | _ => (false, o)
  end.

Definition insert_lock_next_key {T} (k : Z) (v : bytes) (f : Z -> R -> T -> bool * R * T) (is_placeholder : bool) (st : T) : M table (bool * T) :=
  CHECK is_placeholder;;
  row ← alloc_row (new_row (negb is_placeholder) v);
  on_index (fun t => match BTreeScan.insert_lock_next_key leaf_max inner_max k row (next_key_processor f) (btree t) (Ret st (rows t)) with
                     | Some (success, b, o) => answer success (finish (set_btree b t) o)
                     | None => Abort
                     end).

(** The methods that show both neighbours; the processor works on the rows through
    the pointers it is given. *)
Definition insert_and_process_adjacent_tuples {T} (k : Z) (v : bytes)
    (processor : called T -> option (Z * Z) -> Z * Z -> bool * called T) (is_placeholder : bool) (st : T) : M table (bool * T) :=
  CHECK is_placeholder;;
  row ← alloc_row (new_row (negb is_placeholder) v);
  on_index (fun t => match BTreeScan.insert_and_process_adjacent_tuples leaf_max inner_max k row processor (btree t) (Ret st (rows t)) with
                     | Some (success, b, o) => answer success (finish (set_btree b t) o)
                     | None => Abort
                     end).

Definition remove (k : Z) : M table bool :=
  success ← on_index (fun t => match BTree.remove leaf_max inner_max k (btree t) with
                      | Some (success, b) => Ret success (set_btree b t)
                      | None => Fault
                      end);
  CHECK success;;
  mret success.

Definition remove_and_process_adjacent_tuples {T} (k : Z)
    (processor : called T -> option (Z * Z) * (Z * Z) * option (Z * Z) -> bool * called T) (st : T) : M table (bool * T) :=
  r ← on_index (fun t => match BTreeScan.remove_and_process_adjacent_tuples leaf_max inner_max k processor (btree t) (Ret st (rows t)) with
                         | Some (success, b, o) => answer success (finish (set_btree b t) o)
                         | None => Fault
                         end);
  CHECK r.1;;
  mret r.

(** A row through a pointer. *)
Definition get_row (p : Z) : M table R := deref (fun t => rows t !! p).
Definition put_row (p : Z) (r : R) : M table unit := modify (fun t => set_rows (<[p := r]> (rows t)) t).

(** [update]; [on_update] is called with the row before it is overwritten. *)
Definition update {T} (k : Z) (v : bytes) (on_update : Z -> R -> T -> T) (st : T) : M table T :=
  found ← find k;
  match found with
  | None => abort
  | Some p =>
      r ← get_row p;
      put_row p (set_data v r);;
      mret (on_update k r st)
  end.

Definition search_and_update_next_key_info {T} (k : Z)
    (update_processor : called T -> option (Z * Z) * (Z * Z) * option (Z * Z) -> called T) (st : T) : M table (bool * T) := fun t =>
  match lookupForNextKeyUpdate k (btree t) with
  | None => Fault
  | Some None => Ret (false, st) t
  | Some (Some shown) =>
      answer true (finish t (update_processor (Ret st (rows t)) shown))
  end.

(** [move_all_into_cxl]: every row is given to [move_in_func], from the smallest key
    on. *)
Definition move_processor {T} (move_in_func : Z -> R -> T -> bool * R * T) (o : called T) (key p : Z) (is_last_tuple : bool) : bool * called T :=
  match o with
  | Ret st rs =>
      match rs !! p with
      | None => (false, Fault)
      | Some r => let '(_, r', st') := move_in_func key r st in (false, Ret st' (<[p := r']> rs))
      end
  | _ => (false, o)
  end.
Definition move_all_into_cxl {T} (move_in_func : Z -> R -> T -> bool * R * T) (st : T) : M table T := fun t =>
  match scanForUpdateNoContention (move_processor move_in_func) 0 (btree t) (Ret st (rows t)) with
  | Some o => finish t o
  | None => Fault
  end.
End table.
Arguments table : clear implicits.
End TableBTreeOLC.
