(* ===== verification/TableSpec.v ===== *)
(** * A table is a finite map of rows

    What the protocols take a table to be: a map from keys to rows, whose keys are
    ordered.  The methods of [TableBTreeOLC] are proved to be operations on it. *)

From S2P Require Import Prelude BTreeNode BTree BTreeInv BTreeInsert BTreeTree BTreeRemove BTreeSpec BTreeScan BTreeAdjacent Table.
Import TableBTreeOLC.

Lemma negb_is_Some {A} (o : option A) : negb (bool_decide (is_Some o)) = bool_decide (o = None).
Proof. destruct o as [a|]; [rewrite bool_decide_eq_true_2 by eauto|rewrite bool_decide_eq_false_2 by (intros []; done)]; by case_bool_decide. Qed.

(** ** Scans without locks *)

(** Where the scan with checks succeeds, the one without has the same result. *)
Section no_contention.
Context {V S : Type} (p : S -> Z -> V -> bool -> bool * S).

Lemma visit_leaf_eq low no_next d : forall s r, scan_leaf p low no_next d s = Some r -> visit_leaf p no_next d s = r.
Proof using Type.
  induction d as [|[k v] d IH]; intros s r; cbn; [now intros [= ->]|]. destruct (k <? low); [done|]. destruct (p s k v _) as [[] s']; [now intros [= ->]|apply IH].
Qed.

Lemma visit_loop_eq n : forall low t s r, scan_loop n p low t s = Some r -> visit_loop p n low t s = Some r.
Proof using Type.
  induction n as [|n IH]; intros low t s r; [done|]. cbn [scan_loop visit_loop]. unfold scan_pass, visit_pass. destruct (find_leaf low (root t)) as [l|]; [|done]. cbn [mbind option_bind].
  destruct (scan_leaf p low _ _ s) as [[quit s']|] eqn:E; [|done]. rewrite (visit_leaf_eq _ _ _ _ _ E). cbn [mbind option_bind].
  destruct quit; [done|]. destruct (l_next l) as [a|]; [|done]. destruct (leaf_at a _) as [nl|]; [|done]. cbn [mbind option_bind].
  destruct (fst <$> head (l_data nl)); [apply IH|done].
Qed.
End no_contention.

Section spec.
Context {R T : Type} (new_row : bool -> bytes -> R) (set_data : bytes -> R -> R).
Context (leaf_max inner_max : nat).
Implicit Types (t : table R) (m : gmap Z R) (k p : Z) (r : R) (st : T).

#[local] Abbreviation tree_ok := (@tree_ok Z leaf_max inner_max).
#[local] Abbreviation entries_of t := (tree_entries (btree t)).

(** ** The map of a table *)

(** Every entry of the index points to a row of its own, of those that have been
    allocated, and the map has the row under the key. *)
Record represents t m : Prop := Represents {
  re_tree : tree_ok (btree t);
  re_row : forall k p, get k (entries_of t) = Some p -> is_Some (rows t !! p) /\ p < next_row t;
  re_own : forall k k' p, get k (entries_of t) = Some p -> get k' (entries_of t) = Some p -> k = k';
  re_map : forall k, m !! k = get k (entries_of t) ≫= (fun p => rows t !! p) }.

Lemma new_table_represents : represents new_table ∅.
Proof using Type. split; [exact (new_tree_ok leaf_max inner_max)|done..]. Qed.

(** The row of the map is the one behind the pointer in the index. *)
Lemma represents_Some t m k r : represents t m -> m !! k = Some r -> exists p, get k (entries_of t) = Some p /\ rows t !! p = Some r.
Proof using Type. intros [_ _ _ Hm] E. rewrite Hm in E. destruct (get k (entries_of t)) as [p|]; [|done]. eauto. Qed.

Lemma represents_None t m k : represents t m -> m !! k = None <-> get k (entries_of t) = None.
Proof using Type.
  intros [_ Hr _ Hm]. rewrite Hm. destruct (get k (entries_of t)) as [p|] eqn:E; [|done]. cbn. destruct (Hr k p E) as [[r ->] _]. done.
Qed.

Lemma represents_has t m k : represents t m -> has k (entries_of t) = bool_decide (is_Some (m !! k)).
Proof using Type.
  intros Hr. unfold has. destruct (m !! k) as [r|] eqn:E.
  - destruct (represents_Some _ _ _ _ Hr E) as (p & -> & _). now rewrite bool_decide_eq_true_2 by eauto.
  - apply (represents_None _ _ _ Hr) in E as ->. now rewrite bool_decide_eq_false_2 by (intros []; done).
Qed.

(** Another tree with the same entries. *)
Lemma represents_tree t m b : represents t m -> tree_ok b -> tree_entries b = entries_of t -> represents (set_btree b t) m.
Proof using Type. intros [Ht Hr Ho Hm] Hb E. split; cbn; rewrite ?E; auto. Qed.

(** A row is replaced. *)
Lemma represents_put t m k p r : represents t m -> get k (entries_of t) = Some p -> represents (set_rows (<[p := r]> (rows t)) t) (<[k := r]> m).
Proof using Type.
  intros [Ht Hr Ho Hm] Hk. split; cbn; [done| |done|].
  - intros k' p' E. destruct (Hr k' p' E) as [Hs Hlt]. split; [|done]. destruct (decide (p' = p)) as [->|]; [rewrite lookup_insert_eq|rewrite lookup_insert_ne by done]; eauto.
  - intros k'. destruct (decide (k' = k)) as [->|Hne]; [rewrite Hk; cbn; now rewrite !lookup_insert_eq|]. rewrite lookup_insert_ne, Hm by done.
    destruct (get k' (entries_of t)) as [p'|] eqn:E; [|done]. cbn. rewrite lookup_insert_ne; [done|]. intros <-. eauto.
Qed.

(** A row that is new to the index. *)
Lemma represents_alloc t m r : represents t m -> represents (Table (btree t) (<[next_row t := r]> (rows t)) (next_row t + 1)) m.
Proof using Type.
  intros [Ht Hr Ho Hm]. split; cbn; [done| |done|].
  - intros k p E. destruct (Hr k p E) as [Hs Hlt]. split; [|lia]. now rewrite lookup_insert_ne by lia.
  - intros k. rewrite Hm. destruct (get k (entries_of t)) as [p|] eqn:E; [|done]. cbn. destruct (Hr k p E) as [_ Hlt]. now rewrite lookup_insert_ne by lia.
Qed.

(** The row under pointer [p] belongs to no key yet. *)
Definition fresh t p : Prop := p < next_row t /\ forall k, get k (entries_of t) <> Some p.

Lemma represents_index t m k p r b : represents t m -> fresh t p -> rows t !! p = Some r -> get k (entries_of t) = None ->
  tree_ok b -> tree_entries b = put k p (entries_of t) -> represents (set_btree b t) (<[k := r]> m).
Proof using Type.
  intros [Ht Hr Ho Hm] [Hlt Hf] Hp Hk Hb E.
  assert (Hg : forall k', get k' (tree_entries b) = if decide (k' = k) then Some p else get k' (entries_of t)).
  { intros k'. rewrite E, get_put, Hk by now apply (entries_ascending leaf_max inner_max). done. }
  split; cbn; [done| | |].
  - intros k' p'. rewrite Hg. destruct (decide (k' = k)); [intros [= <-]; rewrite Hp; eauto|apply Hr].
  - intros k1 k2 p'. rewrite !Hg. destruct (decide (k1 = k)), (decide (k2 = k)); subst; try done; [intros [= <-] H|intros H [= <-]|apply Ho]; now apply Hf in H.
  - intros k'. rewrite Hg. destruct (decide (k' = k)) as [->|]; [now rewrite lookup_insert_eq|now rewrite lookup_insert_ne].
Qed.

Lemma represents_delete t m k b : represents t m -> tree_ok b -> tree_entries b = del k (entries_of t) -> represents (set_btree b t) (delete k m).
Proof using Type.
  intros [Ht Hr Ho Hm] Hb E.
  assert (Hg : forall k', get k' (tree_entries b) = if decide (k' = k) then None else get k' (entries_of t)).
  { intros k'. now rewrite E, get_del by now apply (entries_ascending leaf_max inner_max). }
  split; cbn; [done| | |].
  - intros k' p'. rewrite Hg. destruct (decide (k' = k)); [done|apply Hr].
  - intros k1 k2 p'. rewrite !Hg. destruct (decide (k1 = k)), (decide (k2 = k)); try done. apply Ho.
  - intros k'. rewrite Hg. destruct (decide (k' = k)) as [->|]; [now rewrite lookup_delete_eq|now rewrite lookup_delete_ne].
Qed.

(** ** Scans *)

(** Going through keys of a map; the processor may change the rows it is shown. *)
Fixpoint scan_map (f : T -> Z -> R -> bool -> bool * R * T) (ks : list Z) st m : T * gmap Z R :=
  match ks with
  | [] => (st, m)
  | k :: ks =>
      match m !! k with
      | None => (st, m)
      | Some r =>
          let '(should_end, r', st') := f st k r (match ks with [] => true | _ => false end) in
          if should_end : bool then (st', <[k := r']> m) else scan_map f ks st' (<[k := r']> m)
      end
  end.

Lemma scan_list_map f min_k d : forall t m st, represents t m -> (forall e, e ∈ d -> get e.1 (entries_of t) = Some e.2 /\ min_k <= e.1) ->
  exists t', finish t (scan_list (scan_processor min_k f) d (Ret st (rows t))) = Ret (scan_map f (fst <$> d) st m).1 t' /\
    represents t' (scan_map f (fst <$> d) st m).2.
Proof using Type.
  induction d as [|[k p] d IH]; intros t m st Hr Hd; [exists t; split; [now destruct t|done]|].
  destruct (Hd (k, p)) as [Hk Hmin]; [now left|]. cbn [fst snd] in *. pose proof (re_map _ _ Hr k) as Em. rewrite Hk in Em. cbn [mbind option_bind] in Em.
  destruct (re_row _ _ Hr k p Hk) as [[r Ep] _]. rewrite Ep in Em. rewrite fmap_cons. cbn [scan_list scan_map fst scan_processor]. rewrite Ep, Em.
  assert (El : match fst <$> d with [] => true | _ => false end = match d with [] => true | _ => false end) by now destruct d. rewrite El.
  destruct (f st k r _) as [[stop r'] st']. pose proof (represents_put t m k p r' Hr Hk) as Hr'. destruct stop; [cbn; eauto|].
  destruct (Z.ltb_spec k min_k); [lia|].
  destruct (IH _ _ st' Hr') as (t' & E & Ht'); [intros e He; apply Hd; now right|]. exists t'. split; [|exact Ht']. rewrite <- E. now destruct (scan_list _ _ _).
Qed.

(** The keys that a scan goes through are those of the map, in order. *)
Lemma scanned_keys t m low : represents t m ->
  ascending (fst <$> from low (entries_of t)) /\ forall x, x ∈ fst <$> from low (entries_of t) <-> low <= x /\ is_Some (m !! x).
Proof using Type.
  intros Hr. pose proof (entries_ascending leaf_max inner_max _ (re_tree _ _ Hr)) as Hs. split; [now apply filter_ascending|]. intros x. split.
  - intros ([k p] & -> & [Hl He]%list_elem_of_filter)%list_elem_of_fmap. split; [done|]. apply get_elem in He; [|done]. rewrite (re_map _ _ Hr). cbn. rewrite He. exact (proj1 (re_row _ _ Hr _ _ He)).
  - intros [Hl [r Hx]]. destruct (represents_Some _ _ _ _ Hr Hx) as (p & Hp & _). apply list_elem_of_fmap. exists (x, p). split; [done|]. apply list_elem_of_filter. split; [done|].
    now apply get_elem.
Qed.

(** A processor that never stops. *)
Definition go_on (g : Z -> R -> T -> bool * R * T) st k r (is_last : bool) : bool * R * T := let '(_, r', st') := g k r st in (false, r', st').

Lemma move_list_map g low d : forall t o, (forall e, e ∈ d -> low <= e.1) -> (o = Fault \/ exists st rs, o = Ret st rs) ->
  finish t (scan_list (move_processor g) d o) = finish t (scan_list (scan_processor low (go_on g)) d o).
Proof using Type.
  induction d as [|[k p] d IH]; intros t o Hd Ho; [done|]. specialize (Hd (k, p)) as Hk. cbn in Hk. specialize (Hk ltac:(now left)). assert (Hd' : forall e, e ∈ d -> low <= e.1) by (intros e He; apply Hd; now right).
  cbn [scan_list]. destruct Ho as [->|(st & rs & ->)]; cbn [move_processor scan_processor].
  - rewrite (IH t Fault Hd' (or_introl eq_refl)). now destruct d as [|[]].
  - destruct (rs !! p) as [r|].
    + assert (Eg : forall b, go_on g st k r b = (false, (g k r st).1.2, (g k r st).2)) by (intros b; unfold go_on; now destruct (g k r st) as [[]]). rewrite Eg. destruct (g k r st) as [[b r'] st']. cbn [fst snd]. destruct (Z.ltb_spec k low); [lia|]. apply IH; eauto.
    + rewrite (IH t Fault Hd' (or_introl eq_refl)). now destruct d as [|[]].
Qed.

(** The key that follows another one in the map. *)
Definition next_of m k n : Prop := k < n /\ is_Some (m !! n) /\ forall x, k < x -> is_Some (m !! x) -> n <= x.

Lemma next_entry_of t m k : represents t m ->
  match head (greater k (entries_of t)) with
  | Some (n, p) => next_of m k n /\ get n (entries_of t) = Some p
  | None => forall n, ~ next_of m k n
  end.
Proof using Type.
  intros Hr. pose proof (entries_ascending leaf_max inner_max _ (re_tree _ _ Hr)) as Hs.
  assert (Hg : forall x, k < x -> is_Some (m !! x) -> exists p, (x, p) ∈ greater k (entries_of t)).
  { intros x Hx [r Er]. destruct (represents_Some _ _ _ _ Hr Er) as (p & Hp & _). exists p. apply list_elem_of_filter. split; [done|]. now apply get_elem. }
  assert (Ha : ascending (fst <$> greater k (entries_of t))) by now apply filter_ascending.
  destruct (greater k (entries_of t)) as [|[n p] g] eqn:E; cbn [head].
  - intros n (Hn & Hm & _). destruct (Hg n Hn Hm) as [p Hp]. now apply elem_of_nil in Hp.
  - assert (He : (n, p) ∈ greater k (entries_of t)) by (rewrite E; now left). apply list_elem_of_filter in He as [Hn He]. apply get_elem in He; [|done].
    split; [|done]. split; [done|]. split; [rewrite (re_map _ _ Hr), He; exact (proj1 (re_row _ _ Hr _ _ He))|].
    intros x Hx Hm. destruct (Hg x Hx Hm) as [q [[= -> ->]|Hq]%elem_of_cons]; [lia|]. apply ascending_cons in Ha as [_ Ha]. specialize (Ha x (list_elem_of_fmap_2 fst _ _ Hq)). cbn in Ha. lia.
Qed.
(** ** The methods *)

(** [t'] is what the method leaves, for the map [m']. *)
Definition yields {A} (o : outcome (table R) A) (a : A) m : Prop := exists t', o = Ret a t' /\ represents t' m.

Lemma alloc_fresh t m r : represents t m -> fresh (Table (btree t) (<[next_row t := r]> (rows t)) (next_row t + 1)) (next_row t).
Proof using Type. intros Hr. split; cbn; [lia|]. intros k E. apply (re_row _ _ Hr) in E as [_ E]. lia. Qed.

Lemma search_ok t m k : represents t m ->
  match m !! k with Some r => exists p, search k t = Ret (Some p) t /\ rows t !! p = Some r | None => search k t = Ret None t end.
Proof using Type.
  intros Hr. unfold search, find, deref. rewrite (lookup_ok _ _ _ k (re_tree _ _ Hr)). destruct (m !! k) as [r|] eqn:E.
  - destruct (represents_Some _ _ _ _ Hr E) as (p & -> & Hp). eauto.
  - now apply (represents_None _ _ _ Hr) in E as ->.
Qed.

Context (Hleaf : (3 <= leaf_max)%nat) (Hinner : (5 <= inner_max)%nat).

Lemma insert_rows t m k v ph : represents t m ->
  yields (insert new_row leaf_max inner_max k v ph t) (bool_decide (m !! k = None))
    (match m !! k with Some _ => m | None => <[k := new_row (negb ph) v]> m end).
Proof using Hleaf Hinner.
  intros Hr. pose proof (represents_alloc t m (new_row (negb ph) v) Hr) as Ha. pose proof (alloc_fresh t m (new_row (negb ph) v) Hr) as Hf.
  destruct (insert_ok leaf_max inner_max Hleaf Hinner k (next_row t) (btree t) (re_tree _ _ Hr)) as (b & E & Hb & Eb). unfold yields, insert. cbv [mbind M_bind alloc_row on_index]. cbn [btree]. rewrite E. eexists. split; [f_equal; rewrite (represents_has _ _ _ Hr)|].
  - apply negb_is_Some.
  - destruct (m !! k) as [r|] eqn:Em.
    + apply represents_tree; [exact Ha|exact Hb|]. destruct (represents_Some _ _ _ _ Hr Em) as (p & Hp & _). cbn. rewrite Eb. apply (put_has k _ p); [now apply (entries_ascending leaf_max inner_max), (re_tree _ _ Hr)|done].
    + apply (represents_index _ m k (next_row t)); auto; cbn; [now rewrite lookup_insert_eq|now apply (represents_None _ _ _ Hr)].
Qed.

Lemma remove_rows t m k : represents t m ->
  if decide (is_Some (m !! k)) then yields (remove leaf_max inner_max k t) true (delete k m) else remove leaf_max inner_max k t = Abort.
Proof using Hleaf Hinner.
  intros Hr. destruct (remove_ok leaf_max inner_max Hleaf Hinner k (btree t) (re_tree _ _ Hr)) as (b & E & Hb & Eb). rewrite (represents_has _ _ _ Hr) in E.
  unfold yields, remove. cbv [mbind M_bind on_index]. rewrite E. destruct (decide _) as [Hs|Hn].
  - rewrite bool_decide_eq_true_2 by done. eexists. split; [done|]. now apply represents_delete.
  - now rewrite bool_decide_eq_false_2 by done.
Qed.

Lemma update_rows t m k v (on_update : Z -> R -> T -> T) st : represents t m ->
  match m !! k with
  | Some r => yields (update set_data k v on_update st t) (on_update k r st) (<[k := set_data v r]> m)
  | None => update set_data k v on_update st t = Abort
  end.
Proof using Type.
  intros Hr. unfold yields, update, find, get_row, put_row. cbv [mbind M_bind deref modify mret M_ret]. rewrite (lookup_ok _ _ _ k (re_tree _ _ Hr)). destruct (m !! k) as [r|] eqn:E.
  - destruct (represents_Some _ _ _ _ Hr E) as (p & Hk & Hp). rewrite Hk, Hp. eexists. split; [done|]. now apply represents_put.
  - now apply (represents_None _ _ _ Hr) in E as ->.
Qed.

Lemma scan_rows t m min_k f st : represents t m ->
  exists ks, ascending ks /\ (forall x, x ∈ ks <-> min_k <= x /\ is_Some (m !! x)) /\
    yields (scan min_k f st t) (scan_map f ks st m).1 (scan_map f ks st m).2.
Proof using Type.
  intros Hr. exists (fst <$> from min_k (entries_of t)). destruct (scanned_keys t m min_k Hr) as [Ha Hk]. split; [done|]. split; [done|].
  unfold yields, scan. rewrite (scan_shows leaf_max inner_max) by apply (re_tree _ _ Hr). apply scan_list_map; [done|].
  intros [k p] [Hl He]%list_elem_of_filter. split; [|done]. apply get_elem in He; [done|]. now apply (entries_ascending leaf_max inner_max), (re_tree _ _ Hr).
Qed.

(** All rows with keys that are not negative are moved, each once and in order. *)
Lemma move_all_rows t m g st : represents t m ->
  exists ks, ascending ks /\ (forall x, x ∈ ks <-> 0 <= x /\ is_Some (m !! x)) /\
    yields (move_all_into_cxl g st t) (scan_map (go_on g) ks st m).1 (scan_map (go_on g) ks st m).2.
Proof using Type.
  intros Hr. destruct (scanned_keys t m 0 Hr) as [Ha Hk]. exists (fst <$> from 0 (entries_of t)). split; [done|]. split; [done|].
  unfold yields, move_all_into_cxl, scanForUpdateNoContention. rewrite (visit_loop_eq _ _ _ _ _ _ (scan_shows leaf_max inner_max (move_processor g) (btree t) 0 (Ret st (rows t)) (re_tree _ _ Hr))).
  rewrite (move_list_map g 0); [|intros e He; now apply list_elem_of_filter in He as [He _]|eauto]. apply scan_list_map; [done|].
  intros [k p] [Hl He]%list_elem_of_filter. split; [|done]. apply get_elem in He; [done|]. now apply (entries_ascending leaf_max inner_max), (re_tree _ _ Hr).
Qed.

(** What an insertion that locks the next key does to the map. *)
Definition insert_next (f : Z -> R -> T -> bool * R * T) k n (new r : R) st m : bool * T * gmap Z R :=
  let '(ok, r', st') := f n r st in (ok, st', if ok : bool then <[k := new]> (<[n := r']> m) else <[n := r']> m).

Lemma insert_lock_rows t m k v f st : represents t m ->
  let o := insert_lock_next_key new_row leaf_max inner_max k v f true st t in
  match m !! k with
  | Some _ => yields o (false, st) m
  | None =>
      (forall n r, next_of m k n -> m !! n = Some r -> let '(ok, st', m') := insert_next f k n (new_row false v) r st m in yields o (ok, st') m') /\
      ((forall n, ~ next_of m k n) -> o = Abort)
  end.
Proof using Hleaf Hinner.
  intros Hr. cbv zeta. set (new := new_row false v). pose proof (represents_alloc t m new Hr) as Ha. pose proof (alloc_fresh t m new Hr) as Hf.
  set (t1 := Table (btree t) (<[next_row t := new]> (rows t)) (next_row t + 1)) in *.
  assert (Eo : insert_lock_next_key new_row leaf_max inner_max k v f true st t =
    match BTreeScan.insert_lock_next_key leaf_max inner_max k (next_row t) (next_key_processor f) (btree t1) (Ret st (rows t1)) with
    | Some (success, b, o) => answer success (finish (set_btree b t1) o)
    | None => Abort
    end) by done.
  rewrite Eo. clear Eo. pose proof (insert_next_key_shows leaf_max inner_max Hleaf Hinner k (next_row t) (next_key_processor f) (btree t1) (Ret st (rows t1)) (re_tree _ _ Ha)) as H.
  rewrite (represents_has _ _ _ Ha) in H. destruct (m !! k) as [r|] eqn:Ek.
  - rewrite bool_decide_eq_true_2 in H by eauto. destruct H as (b & -> & Hb & Eb). exists (set_btree b t1). split; [done|]. now apply represents_tree.
  - rewrite bool_decide_eq_false_2 in H by (intros []; done). pose proof (next_entry_of t1 m k Ha) as Hn. destruct (head _) as [[n p]|].
    + destruct Hn as [Hn Hp]. split; [|intros Hno; now apply Hno in Hn]. intros n' r Hn' Er.
      assert (n' = n) as ->. { destruct Hn as (H1 & H2 & H3), Hn' as (H4 & H5 & H6). specialize (H3 n' H4 H5). specialize (H6 n H1 H2). lia. }
      destruct (represents_Some _ _ _ _ Ha Er) as (q & Hq & Erow). assert (q = p) as -> by congruence. clear Hq.
      destruct H as (b & E & Hb & Eb). rewrite E. clear E. unfold insert_next, next_key_processor in *. cbn [fst snd] in *. rewrite Erow in *.
      destruct (f n r st) as [[ok r'] st']. cbn [fst snd] in *. pose proof (represents_put t1 m n p r' Ha Hp) as Hput. exists (set_btree b (set_rows (<[p := r']> (rows t1)) t1)). split; [done|]. destruct ok; [|now apply represents_tree].
      apply (represents_index _ _ k (next_row t) new b Hput); auto; [|now apply (represents_None _ _ _ Ha)].
      cbn. rewrite lookup_insert_ne by (intros ->; now apply (proj2 Hf) in Hp). apply lookup_insert_eq.
    + rewrite H. split; [intros n r Hn'; now apply Hn in Hn'|done].
Qed.

(** C17: The ordered table is a finite map of rows.  For a table whose rows are a map:
    a search gives a pointer to the row of the key; an insertion answers whether the
    key is new and then adds a row that is valid unless it is a placeholder; a
    removal deletes the row of the key and an update replaces its data and shows the
    old row to its callback, and both fail their checks if the key is missing; a scan
    goes through the rows from a key on in order, with the changes its processor
    makes to them, until it stops; and an insertion that locks the next key shows its
    processor the row of the next key, keeps the processor's change to it, and adds
    its placeholder exactly if the processor allows it; without a next key it fails
    its check.  Moving everything into CXL memory gives every row to the function
    that moves it, in order and with what it changes.  All methods end. *)
Theorem table_refines t m k v ph (on_update : Z -> R -> T -> T) (f : T -> Z -> R -> bool -> bool * R * T) (g : Z -> R -> T -> bool * R * T) st :
  represents t m ->
  match m !! k with Some r => exists p, search k t = Ret (Some p) t /\ rows t !! p = Some r | None => search k t = Ret None t end /\
  yields (insert new_row leaf_max inner_max k v ph t) (bool_decide (m !! k = None))
    (match m !! k with Some _ => m | None => <[k := new_row (negb ph) v]> m end) /\
  (if decide (is_Some (m !! k)) then yields (remove leaf_max inner_max k t) true (delete k m) else remove leaf_max inner_max k t = Abort) /\
  match m !! k with
  | Some r => yields (update set_data k v on_update st t) (on_update k r st) (<[k := set_data v r]> m)
  | None => update set_data k v on_update st t = Abort
  end /\
  (exists ks, ascending ks /\ (forall x, x ∈ ks <-> k <= x /\ is_Some (m !! x)) /\
    yields (scan k f st t) (scan_map f ks st m).1 (scan_map f ks st m).2) /\
  let o := insert_lock_next_key new_row leaf_max inner_max k v g true st t in
  match m !! k with
  | Some _ => yields o (false, st) m
  | None =>
      (forall n r, next_of m k n -> m !! n = Some r -> let '(ok, st', m') := insert_next g k n (new_row false v) r st m in yields o (ok, st') m') /\
      ((forall n, ~ next_of m k n) -> o = Abort)
  end /\
  (exists ks, ascending ks /\ (forall x, x ∈ ks <-> 0 <= x /\ is_Some (m !! x)) /\
    yields (move_all_into_cxl g st t) (scan_map (go_on g) ks st m).1 (scan_map (go_on g) ks st m).2).
Proof using Hleaf Hinner.
  intros Hr. split_and!; [now apply search_ok|now apply insert_rows|now apply remove_rows|now apply update_rows|now apply scan_rows|].
  cbv zeta. split; [now apply insert_lock_rows|now apply move_all_rows].
Qed.
End spec.
