(* ===== verification/HashMap.v ===== *)
(** * Hash maps in parts

    common/HashMap.h: [HashMap], an array of [std::unordered_map]s of which each has
    a lock of its own, and [UnsafeHashMap], a single one.  An operation holds the
    lock of its part until it returns, so it is one step.  [std::unordered_map] is an
    interface, with what the C++ standard says of it: [operator[]] adds an element if
    there is none, the buckets hold the elements once each, and assigning to an
    element does not move it. *)

From S2P Require Import Prelude.

(** ** [std::unordered_map] *)

Class UnorderedMap (V U : Type) := {
  u_empty : U;
  u_find : Z -> U -> option V;
  u_put : Z -> V -> U -> U;
  u_erase : Z -> U -> U;
  u_buckets : U -> list (list (Z * V)) }.

Definition elements_of `{UnorderedMap V U} (u : U) : list (Z * V) := concat (u_buckets u).
Definition keys_in {V} (b : list (list (Z * V))) : list (list Z) := List.map (List.map fst) b.

Class UnorderedMapLaws (V U : Type) `{UnorderedMap V U} := {
  u_find_empty k : u_find k u_empty = None;
  u_find_put k k' v u : u_find k' (u_put k v u) = if decide (k' = k) then Some v else u_find k' u;
  u_find_erase k k' u : u_find k' (u_erase k u) = if decide (k' = k) then None else u_find k' u;
  u_elements u k v : (k, v) ∈ elements_of u <-> u_find k u = Some v;
  u_nodup u : NoDup (fst <$> elements_of u);
  u_stable k v v' u : u_find k u = Some v' -> keys_in (u_buckets (u_put k v u)) = keys_in (u_buckets u) }.

(** ** [HashMap] *)

Module HashMap.
Section map.
Context {V U : Type} `{UnorderedMap V U} (N : nat) (hasher : Z -> Z) (V_default : V).

(** The parts. *)
#[local] Abbreviation hash_map := (list U).

Definition new_map : hash_map := replicate N u_empty.
Definition bucketNo (key : Z) : nat := Z.to_nat (hasher key mod Z.of_nat N).

(** [_applyAt] and [_applyAtRef]; there is no part number [i] beyond [N]. *)
Definition applyAt {A} (applyFunc : U -> A * U) (i : nat) : M hash_map A := fun maps_ =>
  match maps_ !! i with
  | Some map => let '(result, map') := applyFunc map in Ret result (<[i := map']> maps_)
  | None => Fault
  end.

Definition remove (key : Z) : M hash_map bool :=
  applyAt (fun map => match u_find key map with None => (false, map) | Some _ => (true, u_erase key map) end) (bucketNo key).

Definition contains (key : Z) : M hash_map bool :=
  applyAt (fun map => (bool_decide (is_Some (u_find key map)), map)) (bucketNo key).

Definition insert (key : Z) (value : V) : M hash_map bool :=
  applyAt (fun map => match u_find key map with Some _ => (false, map) | None => (true, u_put key value map) end) (bucketNo key).

(** [operator[]]: a reference to the element, which is made if it is missing.  It is
    read at once, and written with [assign]. *)
Definition index (key : Z) : M hash_map V :=
  applyAt (fun map => match u_find key map with Some v => (v, map) | None => (V_default, u_put key V_default map) end) (bucketNo key).
Definition assign (key : Z) (v : V) : M hash_map unit := applyAt (fun map => (tt, u_put key v map)) (bucketNo key).

Definition size (maps_ : hash_map) : Z := foldl (fun totalSize map => totalSize + Z.of_nat (length (elements_of map))) 0 maps_.
Definition clear (maps_ : hash_map) : hash_map := (fun _ => u_empty) <$> maps_.

(** ** Iteration *)

(** The loops of [iterate] and [iterate_non_const] go through bucket [j] of every part
    that has one, for each [j], and call [unlock_processor] after every bucket and
    after every [j].  The counts of buckets are read before. *)
Inductive visit := Element (i : nat) (key : Z) | Unlocked.

Definition max_bucket_count (bucket_counts : list nat) : nat := foldl (fun n c => n `max` c)%nat 0%nat bucket_counts.

Definition visit_bucket (j i : nat) (part : list (list Z)) : list visit :=
  match part !! j with None => [] | Some ks => (Element i <$> ks) ++ [Unlocked] end.

Definition visits (maps_ : hash_map) : list visit :=
  let parts := (fun map => keys_in (u_buckets map)) <$> maps_ in
  concat ((fun j => concat (imap (visit_bucket j) parts) ++ [Unlocked]) <$> seq 0 (max_bucket_count (length <$> parts))).

(** The element of part [i] under a key. *)
Definition element (i : nat) (key : Z) (maps_ : hash_map) : option V := maps_ !! i ≫= u_find key.

(** *** An iteration in steps

    [iterate] takes no lock, so other threads get between its accesses.  Where it
    stands: the buckets that it has still to go through, as the loops order them
    after the counts of buckets were read, and the rest of the bucket it is in, whose
    elements are those that the bucket has when it gets there.  Going to a bucket
    that the part does not have is not defined. *)
Inductive cursor := Bucket (j i : nat) | At (v : visit).

Definition bucket_counts (maps_ : hash_map) : list nat := (fun map => length (u_buckets map)) <$> maps_.

Definition plan (counts : list nat) : list cursor :=
  concat ((fun j => concat (imap (fun i c => if (j <? c)%nat then [Bucket j i] else []) counts) ++ [At Unlocked]) <$> seq 0 (max_bucket_count counts)).

Definition open_bucket (j i : nat) (maps_ : hash_map) : option (list cursor) :=
  map ← maps_ !! i;
  ks ← keys_in (u_buckets map) !! j;
  Some ((At ∘ Element i <$> ks) ++ [At Unlocked]).

(** *** An iteration without interference *)

Definition iterate {S} (processor : Z -> V -> S -> S) (unlock_processor : S -> S) (maps_ : hash_map) (s : S) : option S :=
  foldl (fun os e =>
      s ← os;
      match e with
      | Unlocked => Some (unlock_processor s)
      | Element i k => v ← element i k maps_; Some (processor k v s)
      end) (Some s) (visits maps_).

(** [iterate_non_const]: the processor may assign to the element. *)
Definition iterate_non_const {S} (processor : Z -> V -> S -> V * S) (unlock_processor : S -> S) (maps_ : hash_map) (s : S) : option (hash_map * S) :=
  foldl (fun oc e =>
      '(m, s) ← oc;
      match e with
      | Unlocked => Some (m, unlock_processor s)
      | Element i k =>
          v ← element i k m;
          map ← m !! i;
          let '(v', s') := processor k v s in Some (<[i := u_put k v' map]> m, s')
      end) (Some (maps_, s)) (visits maps_).
End map.
End HashMap.

(** ** [UnsafeHashMap] *)

Module UnsafeHashMap.
Section map.
Context {V U : Type} `{UnorderedMap V U} (V_default : V).

Definition remove (key : Z) : M U bool := fun map =>
  match u_find key map with None => Ret false map | Some _ => Ret true (u_erase key map) end.
Definition search (key : Z) : M U (option V) := fun map => Ret (u_find key map) map.
Definition contains (key : Z) : M U bool := fun map => Ret (bool_decide (is_Some (u_find key map))) map.
Definition insert (key : Z) (value : V) : M U bool := fun map =>
  match u_find key map with Some _ => Ret false map | None => Ret true (u_put key value map) end.
Definition index (key : Z) : M U V := fun map =>
  match u_find key map with Some v => Ret v map | None => Ret V_default (u_put key V_default map) end.
Definition assign (key : Z) (v : V) : M U unit := fun map => Ret tt (u_put key v map).
Definition clear : M U unit := fun _ => Ret tt u_empty.
Definition iterate {S} (processor : Z -> V -> S -> S) : M U S := abort.
End map.
End UnsafeHashMap.
