(* ===== verification/HashMapSpec.v ===== *)
(** * A hash map in parts is a finite map

    The operations of [HashMap] are those of a finite map, and an iteration shows
    every element once. *)

From S2P Require Import Prelude HashMap.
Import HashMap.

(** ** Orders of visits *)

(** Going through lists of lists by columns, or one after the other. *)
Lemma concat_zip_perm {A B} (f g : A -> list B) l : concat ((fun j => f j ++ g j) <$> l) ≡ₚ concat (f <$> l) ++ concat (g <$> l).
Proof.
  induction l as [|j l IH]; [done|]. rewrite !fmap_cons. cbn [concat]. rewrite IH, <- !app_assoc. apply Permutation_app_head.
  rewrite !app_assoc. apply Permutation_app_tail, Permutation_app_comm.
Qed.

Lemma concat_seq_lookup {A} (p : list (list A)) : forall n, (length p <= n)%nat -> concat ((fun j => default [] (p !! j)) <$> seq 0 n) = concat p.
Proof.
  induction p as [|x p IH]; intros n Hn.
  - induction n as [|n IHn] using nat_ind; [done|]. rewrite seq_S, fmap_app, concat_app. now rewrite IHn by (cbn; lia).
  - destruct n as [|n]; [cbn in Hn; lia|]. rewrite <- cons_seq, fmap_cons, <- fmap_S_seq, <- list_fmap_compose. cbn [concat lookup list_lookup default].
    f_equal. apply IH. cbn in Hn. lia.
Qed.

Lemma max_bucket_count_le cs : forall n, (n <= foldl (fun n c => n `max` c)%nat n cs)%nat /\ Forall (fun c => c <= foldl (fun n c => n `max` c)%nat n cs)%nat cs.
Proof.
  induction cs as [|c cs IH]; intros n; [done|]. cbn [foldl]. destruct (IH (n `max` c)%nat) as [H1 H2]. split; [lia|]. constructor; [lia|done].
Qed.

(** The keys of the elements that are visited. *)
Definition visited (es : list visit) : list (nat * Z) := omap (fun e => match e with Element i k => Some (i, k) | Unlocked => None end) es.

Lemma visited_app es1 es2 : visited (es1 ++ es2) = visited es1 ++ visited es2.
Proof. apply omap_app. Qed.

Lemma visited_elements i ks : visited (Element i <$> ks) = pair i <$> ks.
Proof. induction ks as [|k ks IH]; [done|]. rewrite !fmap_cons. cbn. now f_equal. Qed.

Lemma visited_bucket j i part : visited (visit_bucket j i part) = pair i <$> default [] (part !! j).
Proof. unfold visit_bucket. destruct (part !! j); [|done]. rewrite visited_app, visited_elements. apply app_nil_r. Qed.

(** The keys of the parts, from part [i] on. *)
Fixpoint part_keys (i : nat) (parts : list (list (list Z))) : list (nat * Z) :=
  match parts with [] => [] | p :: ps => (pair i <$> concat p) ++ part_keys (S i) ps end.

Lemma visited_columns parts : forall i l,
  visited (concat ((fun j => concat (imap (fun n => visit_bucket j (n + i)) parts) ++ [Unlocked]) <$> l)) ≡ₚ
  concat ((fun j => concat (imap (fun n p => pair (n + i)%nat <$> default [] (p !! j)) parts)) <$> l).
Proof.
  intros i l. induction l as [|j l IH]; [done|]. rewrite !fmap_cons. cbn [concat]. rewrite !visited_app, IH. apply Permutation_app_tail. cbn. rewrite app_nil_r.
  clear. revert i. induction parts as [|p ps IH]; intros i; [done|]. cbn [imap concat]. rewrite visited_app, visited_bucket. apply Permutation_app_head.
  assert (E : forall {X} (f : nat -> list (list Z) -> X) (g : nat -> list (list Z) -> X), (forall n p, f n p = g n p) -> imap f ps = imap g ps) by (intros; apply imap_ext; auto).
  rewrite (E _ _ (fun n => visit_bucket j (n + S i))), (E _ (_ ∘ S) (fun n p => pair (n + S i)%nat <$> default [] (p !! j))); [apply IH| |]; intros n q; cbn; now rewrite Nat.add_succ_r.
Qed.

Lemma columns_perm parts n : Forall (fun p => length p <= n)%nat parts -> forall i,
  concat ((fun j => concat (imap (fun n p => pair (n + i)%nat <$> default [] (p !! j)) parts)) <$> seq 0 n) ≡ₚ part_keys i parts.
Proof.
  induction 1 as [|p ps Hp _ IH]; intros i.
  - cbn. induction (seq 0 n); [done|]. now rewrite fmap_cons.
  - cbn [imap concat part_keys]. rewrite concat_zip_perm. apply Permutation_app.
    + rewrite <- (concat_seq_lookup p n Hp). clear. induction (seq 0 n) as [|j l IH]; [done|]. rewrite !fmap_cons. cbn [concat]. rewrite fmap_app. now rewrite IH.
    + rewrite <- IH. apply Permutation_refl'. f_equal. apply list_fmap_ext. intros _ j _. f_equal. apply imap_ext. intros m q _. cbn. now rewrite Nat.add_succ_r.
Qed.

(** ** Operations *)

Section refinement.
Context {V U : Type} `{UnorderedMapLaws V U} (N : nat) (hasher : Z -> Z) (V_default : V).
Implicit Types (h : list U) (m : gmap Z V) (k : Z) (v : V).

#[local] Abbreviation bucketNo := (bucketNo N hasher).
#[local] Abbreviation contains := (contains (V := V) N hasher).
#[local] Abbreviation insert := (insert (V := V) N hasher).
#[local] Abbreviation remove := (remove (V := V) N hasher).
#[local] Abbreviation assign := (assign (V := V) N hasher).
#[local] Abbreviation index := (index N hasher V_default).

(** The part that a key belongs to has its element, and no other part does. *)
Record denotes h m : Prop := Denotes {
  de_length : length h = N;
  de_part : forall i u k v, h !! i = Some u -> u_find k u = Some v -> i = bucketNo k;
  de_map : forall k, m !! k = element (bucketNo k) k h }.

Context (HN : (0 < N)%nat).

Lemma bucketNo_lt k : (bucketNo k < N)%nat.
Proof using HN. unfold HashMap.bucketNo. pose proof (Z.mod_pos_bound (hasher k) (Z.of_nat N)). lia. Qed.

Lemma denotes_part h m k : denotes h m -> exists u, h !! bucketNo k = Some u /\ u_find k u = m !! k.
Proof using HN.
  intros [Hl _ Hm]. destruct (lookup_lt_is_Some_2 h (bucketNo k)) as [u Hu]; [rewrite Hl; apply bucketNo_lt|]. exists u. split; [done|].
  rewrite Hm. unfold element. now rewrite Hu.
Qed.

(** A part is replaced by one that differs at the key only. *)
Lemma denotes_set h m k u u' (o : option V) : denotes h m -> h !! bucketNo k = Some u ->
  (forall k', u_find k' u' = if decide (k' = k) then o else u_find k' u) -> denotes (<[bucketNo k := u']> h) (partial_alter (fun _ => o) k m).
Proof using HN.
  intros [Hl Hp Hm] Hu Hf. assert (Hlt : (bucketNo k < length h)%nat) by (rewrite Hl; apply bucketNo_lt). split; [now rewrite length_insert| |].
  - intros i w k' v E Ef. destruct (decide (i = bucketNo k)) as [->|Hne].
    + rewrite list_lookup_insert_eq in E by done. injection E as <-. rewrite Hf in Ef. destruct (decide (k' = k)) as [->|]; [done|eauto].
    + rewrite list_lookup_insert_ne in E by done. eauto.
  - intros k'. unfold element. destruct (decide (k' = k)) as [->|Hne].
    + rewrite lookup_partial_alter_eq, list_lookup_insert_eq by done. cbn. rewrite Hf. now destruct (decide (k = k)).
    + rewrite lookup_partial_alter_ne, Hm by done. unfold element. destruct (decide (bucketNo k' = bucketNo k)) as [E|Ne].
      * rewrite E, list_lookup_insert_eq, Hu by done. cbn. rewrite Hf. now destruct (decide (k' = k)).
      * now rewrite list_lookup_insert_ne by done.
Qed.

Lemma new_map_denotes : denotes (new_map N) ∅.
Proof using HN H0.
  split; [apply length_replicate| |].
  - intros i u k v [-> _]%lookup_replicate. now rewrite u_find_empty.
  - intros k. unfold element, new_map. rewrite lookup_empty, (proj2 (lookup_replicate N u_empty u_empty _)) by (split; [done|apply bucketNo_lt]). cbn. now rewrite u_find_empty.
Qed.

(** An operation returns [a] and leaves the map [m]. *)
Definition yields_map {A} (o : outcome (list U) A) (a : A) m : Prop := exists h, o = Ret a h /\ denotes h m.

Lemma applyAt_same {A} (f : U -> A * U) h i u a : h !! i = Some u -> f u = (a, u) -> applyAt f i h = Ret a h.
Proof using Type. intros Hu Hf. unfold applyAt. rewrite Hu, Hf. now rewrite list_insert_id. Qed.

Lemma applyAt_set {A} (f : U -> A * U) h m k u u' a o : denotes h m -> h !! bucketNo k = Some u -> f u = (a, u') ->
  (forall k', u_find k' u' = if decide (k' = k) then o else u_find k' u) -> yields_map (applyAt f (bucketNo k) h) a (partial_alter (fun _ => o) k m).
Proof using HN. intros Hd Hu Hf Hk. unfold applyAt, yields_map. rewrite Hu, Hf. eexists. split; [done|]. now apply (denotes_set h m k u). Qed.

Lemma contains_ok h m k : denotes h m -> contains k h = Ret (bool_decide (is_Some (m !! k))) h.
Proof using HN. intros Hd. destruct (denotes_part h m k Hd) as (u & Hu & Hk). apply (applyAt_same _ _ _ u); [done|]. cbn. now rewrite Hk. Qed.

Lemma assign_ok h m k v : denotes h m -> yields_map (assign k v h) tt (<[k := v]> m).
Proof using HN H0.
  intros Hd. destruct (denotes_part h m k Hd) as (u & Hu & Hk). apply (applyAt_set _ _ _ _ u (u_put k v u)); [done..|]. intros k2. apply u_find_put.
Qed.

Lemma index_ok h m k : denotes h m ->
  yields_map (index k h) (default V_default (m !! k)) (match m !! k with Some _ => m | None => <[k := V_default]> m end).
Proof using HN H0.
  intros Hd. destruct (denotes_part h m k Hd) as (u & Hu & Hk). destruct (m !! k) as [v|].
  - exists h. split; [|done]. apply (applyAt_same _ _ _ u); [done|]. now rewrite Hk.
  - apply (applyAt_set _ _ _ _ u (u_put k V_default u)); [done|done|now rewrite Hk|]. intros k2. apply u_find_put.
Qed.

Lemma index_present h m k v : denotes h m -> m !! k = Some v -> index k h = Ret v h.
Proof using HN. intros Hd E. destruct (denotes_part h m k Hd) as (u & Hu & Hk). apply (applyAt_same _ _ _ u); [done|]. now rewrite Hk, E. Qed.

Lemma hash_insert_ok h m k v : denotes h m ->
  yields_map (insert k v h) (bool_decide (m !! k = None)) (match m !! k with Some _ => m | None => <[k := v]> m end).
Proof using HN H0.
  intros Hd. destruct (denotes_part h m k Hd) as (u & Hu & Hk). destruct (m !! k) as [v'|].
  - exists h. split; [|done]. apply (applyAt_same _ _ _ u); [done|]. now rewrite Hk.
  - apply (applyAt_set _ _ _ _ u (u_put k v u)); [done|done|now rewrite Hk|]. intros k2. apply u_find_put.
Qed.

Lemma hash_remove_ok h m k : denotes h m -> yields_map (remove k h) (bool_decide (is_Some (m !! k))) (delete k m).
Proof using HN H0.
  intros Hd. destruct (denotes_part h m k Hd) as (u & Hu & Hk). destruct (m !! k) as [v'|] eqn:E.
  - apply (applyAt_set _ _ _ _ u (u_erase k u)); [done|done|now rewrite Hk, bool_decide_eq_true_2 by eauto|]. intros k2. apply u_find_erase.
  - exists h. rewrite delete_id by done. split; [|done]. apply (applyAt_same _ _ _ u); [done|]. now rewrite Hk, bool_decide_eq_false_2 by (intros []; done).
Qed.

(** ** Iterations *)

Lemma concat_keys_in (b : list (list (Z * V))) : concat (keys_in b) = fst <$> concat b.
Proof using Type. induction b as [|x b IH]; [done|]. cbn [keys_in List.map concat]. rewrite fmap_app. f_equal. exact IH. Qed.

Definition parts_of h : list (list (list Z)) := (fun u => keys_in (u_buckets u)) <$> h.

Lemma part_keys_in h : forall i n k, (n, k) ∈ part_keys i (parts_of h) <-> exists j u, n = (i + j)%nat /\ h !! j = Some u /\ is_Some (u_find k u).
Proof using HN H0.
  induction h as [|u h IH]; intros i n k; [split; [intros Hn; now apply elem_of_nil in Hn|intros (j & w & _ & Hn & _); done]|].
  unfold parts_of in *. rewrite fmap_cons. cbn [part_keys]. rewrite elem_of_app, IH, concat_keys_in, list_elem_of_fmap. split.
  - intros [(k' & [= -> ->] & ([k2 v] & -> & Hv)%list_elem_of_fmap)|(j & w & -> & Hw & Hk)].
    + exists 0%nat, u. split; [lia|]. split; [done|]. apply u_elements in Hv. cbn. rewrite Hv. eauto.
    + exists (S j), w. split; [lia|]. done.
  - intros ([|j] & w & -> & Hw & Hk).
    + injection Hw as ->. left. exists k. split; [f_equal; lia|]. destruct Hk as [v Hv]. apply u_elements in Hv. apply list_elem_of_fmap. now exists (k, v).
    + right. exists j, w. split; [lia|]. done.
Qed.

Lemma part_keys_NoDup h : forall i, NoDup (part_keys i (parts_of h)).
Proof using HN H0.
  induction h as [|u h IH]; intros i; [constructor|]. unfold parts_of. rewrite fmap_cons. cbn [part_keys]. apply NoDup_app. split_and!.
  - rewrite concat_keys_in. apply NoDup_fmap_2; [intros ?? [= ->]; done|apply u_nodup].
  - intros [n k] (k' & [= -> ->] & _)%list_elem_of_fmap (j & w & E & _)%part_keys_in. lia.
  - apply IH.
Qed.

Lemma visited_parts h : visited (visits h) ≡ₚ part_keys 0 (parts_of h).
Proof using Type.
  unfold visits. fold (parts_of h). rewrite <- (columns_perm (parts_of h) (max_bucket_count (length <$> parts_of h))).
  - rewrite <- visited_columns. apply Permutation_refl'. f_equal. f_equal. apply list_fmap_ext. intros _ j _. f_equal. f_equal. apply imap_ext. intros n p _. now rewrite Nat.add_0_r.
  - pose proof (proj2 (max_bucket_count_le (length <$> parts_of h) 0)) as Hc. rewrite Forall_fmap in Hc. exact Hc.
Qed.

(** An element that is visited is where its key belongs. *)
Definition visit_ok m (e : nat * Z) : Prop := e.1 = bucketNo e.2 /\ is_Some (m !! e.2).

Lemma visited_in h m k i : denotes h m -> (i, k) ∈ visited (visits h) <-> visit_ok m (i, k).
Proof using HN H0.
  intros Hd. rewrite visited_parts, part_keys_in. unfold visit_ok. cbn. split.
  - intros (j & u & -> & Hu & [v Hv]). pose proof (de_part _ _ Hd _ _ _ _ Hu Hv) as E. cbn in *. split; [done|]. rewrite (de_map _ _ Hd), <- E. unfold element. rewrite Hu. cbn. eauto.
  - intros [-> Hk]. destruct (denotes_part h m k Hd) as (u & Hu & Ek). exists (bucketNo k), u. split; [done|]. split; [done|]. now rewrite Ek.
Qed.

Lemma visited_all h m : denotes h m -> Forall (visit_ok m) (visited (visits h)).
Proof using HN H0. intros Hd. apply Forall_forall. intros [i k] Hi. now apply (visited_in h m) in Hi. Qed.

(** The elements in the order of the visits. *)
Definition shown m (es : list visit) : list (Z * V) := omap (fun e : nat * Z => pair e.2 <$> m !! e.2) (visited es).

Lemma shown_perm h m : denotes h m -> shown m (visits h) ≡ₚ map_to_list m.
Proof using HN H0.
  intros Hd. assert (Hk : fst <$> shown m (visits h) = snd <$> visited (visits h)).
  { unfold shown. assert (Ha : Forall (visit_ok m) (visited (visits h))) by now apply visited_all.
    induction Ha as [|[i k] l [_ [v Hv]] _ IH]; [done|]. cbn in *. rewrite Hv. cbn. now f_equal. }
  assert (Hn : NoDup (fst <$> shown m (visits h))).
  { rewrite Hk. apply (NoDup_fmap_1 (fun k => (bucketNo k, k))). rewrite <- list_fmap_compose.
    rewrite (list_fmap_ext _ id); [rewrite list_fmap_id, visited_parts; apply part_keys_NoDup|].
    intros n [i k] Hi%list_elem_of_lookup_2. apply (visited_in _ m) in Hi as [E _]; [|done]. cbn in *. now rewrite E. }
  apply NoDup_Permutation; [now apply NoDup_fmap_1 in Hn|apply NoDup_map_to_list|]. intros [k v]. rewrite elem_of_map_to_list. unfold shown. rewrite list_elem_of_omap. split.
  - intros ([i k'] & _ & E). cbn in E. destruct (m !! k') as [v'|] eqn:Ek; [|done]. injection E as <- <-. done.
  - intros Hv. exists (bucketNo k, k). split; [apply (visited_in _ m); [done|]; split; cbn; eauto|]. cbn. now rewrite Hv.
Qed.

Lemma element_ok h m k : denotes h m -> element (bucketNo k) k h = m !! k.
Proof using Type. intros Hd. symmetry. apply (de_map _ _ Hd). Qed.

(** [iterate] shows the elements, once each. *)
Lemma iterate_shows {S} (processor : Z -> V -> S -> S) h m s : denotes h m ->
  iterate processor (fun s => s) h s = Some (foldl (fun s e => processor e.1 e.2 s) s (shown m (visits h))).
Proof using HN H0.
  intros Hd. unfold iterate, shown. assert (Ha : Forall (visit_ok m) (visited (visits h))) by now apply visited_all.
  revert s Ha. generalize (visits h). intros es. induction es as [|[i k|] es IH]; intros s Ha; [done| |].
  - cbn in Ha. apply Forall_cons in Ha as [[E [v Hv]] Ha]. cbn in E, Hv |- *. rewrite E, (element_ok _ m), Hv by done. cbn. now apply IH.
  - cbn. now apply IH.
Qed.

(** [iterate_non_const] with a processor that keeps a part of the elements. *)
Lemma iterate_keeps {B} (g : V -> B) (f : V -> V) h m : (forall v, g (f v) = g v) -> denotes h m ->
  exists h' m', iterate_non_const (fun _ v (u : unit) => (f v, u)) (fun u => u) h tt = Some (h', tt) /\ denotes h' m' /\ g <$> m' = g <$> m.
Proof using HN H0.
  intros Hg Hd. unfold iterate_non_const. assert (Ha : Forall (visit_ok m) (visited (visits h))) by now apply visited_all.
  revert Ha Hd. generalize (visits h). intros es. revert h m. induction es as [|[i k|] es IH]; intros h m Ha Hd; [now exists h, m| |].
  - cbn in Ha. apply Forall_cons in Ha as [[E [v Hv]] Ha]. cbn in E, Hv |- *. rewrite E, (element_ok _ m), Hv by done. cbn.
    destruct (denotes_part h m k Hd) as (u & Hu & _). rewrite Hu. cbn.
    assert (Hd' : denotes (<[bucketNo k := u_put k (f v) u]> h) (<[k := f v]> m)) by (apply (denotes_set h m k u); [done|done|]; intros k2; apply u_find_put).
    destruct (IH _ _ ltac:(eapply Forall_impl; [exact Ha|]; intros [i' k'] [H1 H2]; split; [done|]; cbn in *; destruct (decide (k' = k)) as [->|]; [rewrite lookup_insert_eq|rewrite lookup_insert_ne by done]; eauto) Hd') as (h' & m' & -> & Hm' & Eg).
    exists h', m'. split; [done|]. split; [done|]. rewrite Eg, fmap_insert, Hg. apply insert_id. now rewrite lookup_fmap, Hv.
  - cbn. now apply IH.
Qed.
(** ** Iterations in steps *)

(** The visits that a cursor stands for, when the buckets have these keys. *)
Definition opened (P : list (list (list Z))) (c : cursor) : list visit :=
  match c with
  | Bucket j i => match P !! i ≫= (fun part => part !! j) with Some ks => (Element i <$> ks) ++ [Unlocked] | None => [] end
  | At e => [e]
  end.
Definition expand (P : list (list (list Z))) (todo : list cursor) : list visit := todo ≫= opened P.

(** There is such a bucket. *)
Definition cursor_ok (P : list (list (list Z))) (c : cursor) : Prop :=
  match c with Bucket j i => is_Some (P !! i ≫= (fun part => part !! j)) | At _ => True end.

Lemma expand_app P l1 l2 : expand P (l1 ++ l2) = expand P l1 ++ expand P l2.
Proof using Type. apply bind_app. Qed.

Lemma expand_concat P (ls : list (list cursor)) : expand P (concat ls) = concat (expand P <$> ls).
Proof using Type. induction ls as [|l ls IH]; [done|]. rewrite fmap_cons. cbn [concat]. now rewrite expand_app, IH. Qed.

Lemma expand_at P (vs : list visit) : expand P (At <$> vs) = vs.
Proof using Type. induction vs as [|v vs IH]; [done|]. rewrite fmap_cons. cbn. f_equal. exact IH. Qed.

Lemma counts_parts h : bucket_counts h = length <$> parts_of h.
Proof using Type. unfold bucket_counts, parts_of. rewrite <- list_fmap_compose. apply list_fmap_ext. intros _ u _. cbn. unfold keys_in. now rewrite List.length_map. Qed.

Lemma in_concat_1 {A} (x : A) (ls : list (list A)) : x ∈ concat ls -> exists l, l ∈ ls /\ x ∈ l.
Proof using Type.
  induction ls as [|l ls IH]; cbn; [intros Hn; now apply elem_of_nil in Hn|]. intros [Hx|(l' & Hl & Hx)%IH]%elem_of_app; [exists l|exists l']; (split; [|done]); [left|now right].
Qed.

Lemma column_visits P j : forall P0 Q, P = P0 ++ Q ->
  expand P (concat (imap (fun n c => if (j <? c)%nat then [Bucket j (n + length P0)] else []) (length <$> Q))) = concat (imap (fun n => visit_bucket j (n + length P0)) Q).
Proof using Type.
  clear HN. intros P0 Q. revert P0. induction Q as [|q Q IH]; intros P0 E; [done|]. rewrite fmap_cons. cbn [imap concat]. rewrite expand_app. f_equal.
  - unfold visit_bucket. assert (P !! length P0 = Some q) as Hq by (rewrite E; now apply list_lookup_middle).
    destruct (Nat.ltb_spec j (length q)) as [Hj|Hj].
    + cbn. rewrite Hq. cbn. destruct (lookup_lt_is_Some_2 q j Hj) as [ks ->]. now rewrite app_nil_r.
    + rewrite (lookup_ge_None_2 q j Hj). done.
  - specialize (IH (P0 ++ [q])). rewrite <- app_assoc in IH. specialize (IH E). rewrite length_app in IH. cbn [length] in IH.
    etransitivity; [|etransitivity; [exact IH|]].
    + f_equal. f_equal. apply imap_ext. intros n c _. cbn. now replace (n + (length P0 + 1))%nat with (S n + length P0)%nat by lia.
    + f_equal. apply imap_ext. intros n c _. cbn. now replace (n + (length P0 + 1))%nat with (S n + length P0)%nat by lia.
Qed.

Lemma plan_visits h : expand (parts_of h) (plan (bucket_counts h)) = visits h.
Proof using Type.
  unfold plan, visits. fold (parts_of h). rewrite counts_parts, expand_concat, <- list_fmap_compose. f_equal. apply list_fmap_ext. intros _ j _.
  unfold compose. rewrite expand_app. f_equal. pose proof (column_visits (parts_of h) j [] (parts_of h) eq_refl) as Hc. cbn [length] in Hc.
  etransitivity; [|etransitivity; [exact Hc|]]; f_equal; [f_equal|]; apply imap_ext; intros n c _; now rewrite Nat.add_0_r.
Qed.

Lemma plan_ok h : Forall (cursor_ok (parts_of h)) (plan (bucket_counts h)).
Proof using Type.
  apply Forall_forall. intros c Hc. unfold plan in Hc. apply in_concat_1 in Hc as (l & Hl & Hc). apply list_elem_of_fmap in Hl as (j & -> & _).
  apply elem_of_app in Hc as [Hc|Hc%list_elem_of_singleton]; [|now subst]. apply in_concat_1 in Hc as (l & Hl & Hc).
  apply elem_of_lookup_imap_1 in Hl as (i & n & -> & Hn). destruct (Nat.ltb_spec j n) as [Hj|]; [|now apply elem_of_nil in Hc]. apply list_elem_of_singleton in Hc as ->.
  rewrite counts_parts, list_lookup_fmap in Hn. cbn. destruct (parts_of h !! i) as [p|]; [|done]. cbn in Hn |- *. injection Hn as <-. now apply lookup_lt_is_Some_2.
Qed.

(** What an iteration has still to do makes sense. *)
Definition todo_ok h m (todo : list cursor) : Prop := Forall (cursor_ok (parts_of h)) todo /\ Forall (visit_ok m) (visited (expand (parts_of h) todo)).
Definition remaining h (todo : list cursor) : list Z := snd <$> visited (expand (parts_of h) todo).

Lemma plan_todo h m : denotes h m -> todo_ok h m (plan (bucket_counts h)).
Proof using HN H0. intros Hd. split; [apply plan_ok|]. rewrite plan_visits. now apply visited_all. Qed.

Lemma plan_remaining h m k : denotes h m -> is_Some (m !! k) -> k ∈ remaining h (plan (bucket_counts h)).
Proof using HN H0.
  intros Hd Hk. unfold remaining. rewrite plan_visits. apply list_elem_of_fmap. exists (bucketNo k, k). split; [done|]. apply (visited_in h m); [done|]. now split.
Qed.

Lemma open_ok h m j i todo : denotes h m -> todo_ok h m (Bucket j i :: todo) ->
  exists ks, open_bucket j i h = Some ks /\ todo_ok h m (ks ++ todo) /\ remaining h (ks ++ todo) = remaining h (Bucket j i :: todo).
Proof using Type.
  intros Hd [Hc Hv]. apply Forall_cons in Hc as [[ks Hks] Hc]. unfold open_bucket, parts_of in *. cbn in Hks. rewrite list_lookup_fmap in Hks.
  destruct (h !! i) as [u|] eqn:Hu; [|done]. cbn in Hks |- *. rewrite Hks. cbn. eexists. split; [done|].
  assert (E : expand (parts_of h) (((At ∘ Element i <$> ks) ++ [At Unlocked]) ++ todo) = expand (parts_of h) (Bucket j i :: todo)).
  { rewrite expand_app. cbn [expand mbind list_bind opened]. unfold parts_of at 3. rewrite list_lookup_fmap, Hu. cbn. rewrite Hks. f_equal.
    rewrite <- (expand_at (parts_of h) ((Element i <$> ks) ++ [Unlocked])). f_equal. now rewrite fmap_app, list_fmap_compose. }
  unfold todo_ok, remaining, parts_of in *. rewrite E. split; [|done]. split; [|exact Hv]. apply Forall_app. split; [|exact Hc].
  apply Forall_app. split; [|by constructor]. apply Forall_fmap. now apply Forall_true.
Qed.

Lemma element_todo h m i k todo : denotes h m -> todo_ok h m (At (Element i k) :: todo) ->
  exists v, i = bucketNo k /\ element i k h = Some v /\ m !! k = Some v /\ todo_ok h m todo /\ remaining h (At (Element i k) :: todo) = k :: remaining h todo.
Proof using Type.
  intros Hd [Hc Hv]. apply Forall_cons in Hc as [_ Hc]. cbn in Hv. apply Forall_cons in Hv as [[E [v Hk]] Hv]. cbn in E, Hk. exists v. rewrite E at 2.
  rewrite element_ok with (m := m) by done. split_and!; try done.
Qed.

Lemma unlocked_todo h m todo : todo_ok h m (At Unlocked :: todo) -> todo_ok h m todo /\ remaining h (At Unlocked :: todo) = remaining h todo.
Proof using Type. intros [Hc Hv]. apply Forall_cons in Hc as [_ Hc]. now split. Qed.

(** Writing an element that is there moves nothing. *)
Lemma put_parts h m k v : denotes h m -> is_Some (m !! k) -> exists u, h !! bucketNo k = Some u /\ parts_of (<[bucketNo k := u_put k v u]> h) = parts_of h.
Proof using HN H0.
  intros Hd [v' Hk]. destruct (denotes_part h m k Hd) as (u & Hu & Ek). exists u. split; [done|]. unfold parts_of. rewrite list_fmap_insert.
  rewrite (u_stable k v v') by congruence. apply list_insert_id. now rewrite list_lookup_fmap, Hu.
Qed.

Lemma assign_parts h m k v : denotes h m -> is_Some (m !! k) -> exists h', assign k v h = Ret tt h' /\ denotes h' (<[k := v]> m) /\ parts_of h' = parts_of h.
Proof using HN H0.
  intros Hd Hk. destruct (put_parts h m k v Hd Hk) as (u & Hu & Hp). destruct (assign_ok h m k v Hd) as (h' & E & Hd'). exists h'. split; [done|]. split; [done|].
  unfold HashMap.assign, applyAt in E. rewrite Hu in E. injection E as <-. exact Hp.
Qed.

Lemma todo_ok_same h h' m m' todo : parts_of h' = parts_of h -> (forall k, is_Some (m !! k) -> is_Some (m' !! k)) -> todo_ok h m todo -> todo_ok h' m' todo.
Proof using Type. unfold todo_ok. intros -> Hm [H1 H2]. split; [done|]. eapply Forall_impl; [exact H2|]. intros [i k] [E Hk]. split; [done|]. now apply Hm. Qed.
End refinement.
