(* ===== verification/HashTables.v ===== *)
(** * Unordered tables

    [TableHashMap], [HStoreTable] and [HStoreCOWTable] of core/Table.h, on the hash
    maps of [HashMap].  [HStoreCOWTable] keeps the first version of the rows that are
    updated while a checkpoint is written.  Scans, removals and the methods for
    neighbouring keys are [CHECK(0)] in all three ([unsupported]). *)

From S2P Require Import Prelude HashMap.

(** [std::tuple<MetaDataType, ValueType>]; a new element has metadata 0. *)
Abbreviation tuple := (Z * bytes)%type.

Definition unsupported {S A} : M S A := CHECK false;; abort.

(** ** [TableHashMap] *)

Module TableHashMap.
Section table.
Context {U : Type} `{UnorderedMap tuple U} (N : nat) (hasher : Z -> Z) (V_default : bytes) (MetaInitFunc : bool -> Z).

#[local] Abbreviation hash_map := (list U).
#[local] Abbreviation map_index := (HashMap.index N hasher (0, V_default)).
#[local] Abbreviation map_assign := (HashMap.assign (V := tuple) N hasher).

Definition contains (k : Z) : M hash_map bool := HashMap.contains (V := tuple) N hasher k.

(** The element, which has to be there. *)
Definition search (k : Z) : M hash_map tuple :=
  b ← contains k; CHECK b;;
  b' ← HashMap.contains (V := tuple) N hasher k; CHECK b';;
  map_index k.
Definition search_value (k : Z) : M hash_map bytes :=
  b ← contains k; CHECK b;; r ← map_index k; mret r.2.
Definition search_metadata (k : Z) : M hash_map Z :=
  b ← contains k; CHECK b;; r ← map_index k; mret r.1.

(** The metadata are those of a valid row, even for a placeholder. *)
Definition insert (k : Z) (v : bytes) (is_placeholder : bool) : M hash_map bool :=
  map_index k;;
  map_assign k (MetaInitFunc true, v);;
  mret true.

Definition update {T} (k : Z) (v : bytes) (on_update : Z -> bytes -> T -> T) (s : T) : M hash_map T :=
  r ← map_index k;
  map_assign k (r.1, v);;
  mret (on_update k r.2 s).

(** [deserialize_value]; [v] is what the decoder reads. *)
Definition deserialize_value (k : Z) (v : bytes) : M hash_map unit :=
  r ← map_index k;
  map_assign k (r.1, v).

Definition search_and_update_next_key_info (k : Z) : M hash_map bool := mret true.

(** [move_in_func] may change the row it is given. *)
Definition move_all_into_cxl {T} (move_in_func : Z -> tuple -> T -> tuple * T) (m : hash_map) (s : T) : option (hash_map * T) :=
  HashMap.iterate_non_const move_in_func (fun s => s) m s.
End table.
End TableHashMap.

(** ** [HStoreTable] *)

Module HStoreTable.
Section table.
Context {U : Type} `{UnorderedMap bytes U} (V_default : bytes).

Definition contains (k : Z) : M U bool := UnsafeHashMap.contains k.
Definition search (k : Z) : M U bytes := b ← contains k; CHECK b;; UnsafeHashMap.index V_default k.
Definition search_value (k : Z) : M U bytes := b ← contains k; CHECK b;; UnsafeHashMap.index V_default k.

Definition insert (k : Z) (v : bytes) (is_placeholder : bool) : M U bool :=
  UnsafeHashMap.index V_default k;;
  UnsafeHashMap.assign k v;;
  mret true.

Definition update {T} (k : Z) (v : bytes) (on_update : Z -> bytes -> T -> T) (s : T) : M U T :=
  r ← UnsafeHashMap.index V_default k;
  UnsafeHashMap.assign k v;;
  mret (on_update k r s).

Definition deserialize_value (k : Z) (v : bytes) : M U unit :=
  UnsafeHashMap.index V_default k;;
  UnsafeHashMap.assign k v.
End table.
End HStoreTable.

(** ** [HStoreCOWTable] *)

Module HStoreCOWTable.
Section table.
Context {U : Type} `{UnorderedMap tuple U} (N : nat) (hasher : Z -> Z) (V_default : bytes).

#[local] Abbreviation hash_map := (list U).
#[local] Abbreviation map_contains := (HashMap.contains (V := tuple) N hasher).
#[local] Abbreviation map_index := (HashMap.index N hasher (0, V_default)).
#[local] Abbreviation map_assign := (HashMap.assign (V := tuple) N hasher).

Record cow_table := COW { map_ : hash_map; shadow_map_ : option hash_map; dump_finished : bool; cow : bool }.

Definition set_map (m : hash_map) (t : cow_table) : cow_table := COW m (shadow_map_ t) (dump_finished t) (cow t).
Definition set_shadow (o : option hash_map) (t : cow_table) : cow_table := COW (map_ t) o (dump_finished t) (cow t).
Definition set_dump_finished (b : bool) (t : cow_table) : cow_table := COW (map_ t) (shadow_map_ t) b (cow t).
Definition set_cow (b : bool) (t : cow_table) : cow_table := COW (map_ t) (shadow_map_ t) (dump_finished t) b.

(** A method of [map_], and of the map that [shadow_map_] points to. *)
Definition on_map {A} (m : M hash_map A) : M cow_table A := lift_with map_ set_map m.
Definition on_shadow {A} (m : M hash_map A) : M cow_table A := fun t =>
  match shadow_map_ t with
  | None => Fault
  | Some sh => lift_with (fun _ => sh) (fun sh => set_shadow (Some sh)) m t
  end.

Definition new_table : cow_table := COW (HashMap.new_map N) None true false.

Definition contains (k : Z) : M cow_table bool := on_map (map_contains k).
Definition search (k : Z) : M cow_table tuple := b ← contains k; CHECK b;; on_map (map_index k).
Definition search_value (k : Z) : M cow_table tuple := b ← contains k; CHECK b;; on_map (map_index k).

(** [std::get<1>(map_[k]) = v] *)
Definition write_value (k : Z) (v : bytes) : M cow_table unit :=
  r ← on_map (map_index k);
  on_map (map_assign k (r.1, v)).

Definition insert (k : Z) (v : bytes) (is_placeholder : bool) : M cow_table bool :=
  write_value k v;;
  mret true.

(** The first version of a row is stored while the table is dumped. *)
Definition save_version (k : Z) (r : tuple) : M cow_table unit :=
  fin ← gets dump_finished;
  when_ (negb fin)
    (b ← on_shadow (map_contains k);
     when_ (negb b)
       (shadow_row ← on_shadow (map_index k);
        on_shadow (map_assign k (shadow_row.1, r.2)))).

(** The two parts of an update: up to the old version being saved, and the write. *)
Definition update_begin (k : Z) : M cow_table tuple :=
  r ← on_map (map_index k);
  save_version k r;;
  mret r.
Definition update_end (k : Z) (v : bytes) : M cow_table unit := write_value k v.

Definition update {T} (k : Z) (v : bytes) (on_update : Z -> bytes -> T -> T) (s : T) : M cow_table T :=
  r ← update_begin k;
  let s' := on_update k r.2 s in
  update_end k v;;
  mret s'.

Definition deserialize_value (k : Z) (v : bytes) : M cow_table unit :=
  update_begin k;;
  update_end k v.

Definition turn_on_cow : M cow_table unit :=
  c ← gets cow; CHECK (negb c);;
  sh ← gets shadow_map_; CHECK (match sh with None => true | _ => false end);;
  modify (set_shadow (Some (HashMap.new_map N)));;
  modify (set_dump_finished false);;
  modify (set_cow true).

(** [dump_copy], which runs in a thread of its own: where it stands, and its next
    access.  It goes through [map_], gives the key and the data of every element to
    the processor, then through the shadow map, sets [dump_finished], and goes through
    [map_] again to clear the metadata.  An element is read at once. *)
Inductive dump_phase :=
| DumpStart
| DumpMap (todo : list HashMap.cursor)
| DumpShadow (todo : list HashMap.cursor)
| ClearStart
| ClearBits (todo : list HashMap.cursor)
| Dumped.

(** A step of an iteration over the map that [get] gives, which is not at its end:
    [f] is given the part, the key and the element. *)
Definition iterate_step {T} (get : cow_table -> option hash_map) (f : nat -> Z -> tuple -> T -> M cow_table T) (unlock : T -> T)
    (c : HashMap.cursor) (todo : list HashMap.cursor) (s : T) : M cow_table (list HashMap.cursor * T) :=
  match c with
  | HashMap.Bucket j i => ks ← deref (fun t => get t ≫= HashMap.open_bucket j i); mret (ks ++ todo, s)
  | HashMap.At (HashMap.Element i k) => r ← deref (fun t => get t ≫= HashMap.element i k); s' ← f i k r s; mret (todo, s')
  | HashMap.At HashMap.Unlocked => mret (todo, unlock s)
  end.

Definition clear_bits {T} (i : nat) (k : Z) (r : tuple) (s : T) : M cow_table T :=
  on_map (HashMap.applyAt (fun map => (tt, u_put k ((0, r.2) : tuple) map)) i);; mret s.

Definition dump_step {T} (dump_processor : Z -> bytes -> T -> T) (dump_unlock : T -> T) (ph : dump_phase) (s : T) : M cow_table (dump_phase * T) :=
  let processor := fun (_ : nat) k (r : tuple) s => mret (dump_processor k r.2 s) in
  match ph with
  | DumpStart =>
      c ← gets cow; CHECK c;;
      fin ← gets dump_finished; CHECK (negb fin);;
      sh ← gets shadow_map_; CHECK (match sh with None => false | _ => true end);;
      counts ← gets (fun t => HashMap.bucket_counts (map_ t));
      mret (DumpMap (HashMap.plan counts), s)
  | DumpMap [] => sh ← deref shadow_map_; mret (DumpShadow (HashMap.plan (HashMap.bucket_counts sh)), s)
  | DumpMap (c :: todo) => res ← iterate_step (fun t => Some (map_ t)) processor dump_unlock c todo s; mret (DumpMap res.1, res.2)
  | DumpShadow [] => modify (set_dump_finished true);; mret (ClearStart, s)
  | DumpShadow (c :: todo) => res ← iterate_step shadow_map_ processor dump_unlock c todo s; mret (DumpShadow res.1, res.2)
  | ClearStart => counts ← gets (fun t => HashMap.bucket_counts (map_ t)); mret (ClearBits (HashMap.plan counts), s)
  | ClearBits [] => mret (Dumped, s)
  | ClearBits (c :: todo) => res ← iterate_step (fun t => Some (map_ t)) clear_bits (fun s => s) c todo s; mret (ClearBits res.1, res.2)
  | Dumped => mret (Dumped, s)
  end.

Definition cow_dump_finished : M cow_table bool := gets dump_finished.

(** The cleanup deletes the old shadow map. *)
Definition turn_off_cow : M cow_table (option hash_map) :=
  c ← gets cow; CHECK c;;
  shadow_map_ptr ← gets shadow_map_;
  modify (set_shadow None);;
  modify (set_cow false);;
  mret shadow_map_ptr.
End table.
Arguments cow_table : clear implicits.
End HStoreCOWTable.
