(* ===== verification/HashTableSpec.v ===== *)
(** * Unordered tables, and checkpoints of a table that is updated meanwhile

    [TableHashMap] is a finite map of tuples.
    While [HStoreCOWTable] is dumped, its rows change; the first versions go to the
    shadow map, which is dumped last.  Who reads the dump from the start has the
    table as it was when the dump was switched on, for any interleaving of the accesses
    of the dump with updates of rows, as long as no element is added to a map
    while the dump goes through it. *)

From S2P Require Import Prelude HashMap HashMapSpec HashTables.
Import HStoreCOWTable.

(** ** [TableHashMap] *)

Section unordered_table.
Context {U : Type} `{UnorderedMapLaws tuple U} (N : nat) (hasher : Z -> Z) (V_default : bytes) (MetaInitFunc : bool -> Z) (HN : (0 < N)%nat).
Implicit Types (m : gmap Z tuple) (k : Z) (v : bytes).

#[local] Abbreviation denotes := (denotes (V := tuple) (U := U) N hasher).
#[local] Abbreviation yields_map := (yields_map (V := tuple) (U := U) N hasher).

(** Making the element of a key and writing it. *)
Lemma element_written {A} h m k (r : tuple -> tuple) (a : tuple -> A) : denotes h m ->
  yields_map ((HashMap.index N hasher (0, V_default) k ≫= fun x => HashMap.assign N hasher k (r x);; mret (a x)) h)
    (a (default (0, V_default) (m !! k))) (<[k := r (default (0, V_default) (m !! k))]> m).
Proof using H0 HN.
  intros Hd. cbv [mbind M_bind mret M_ret]. destruct (index_ok N hasher (0, V_default) HN h m k Hd) as (h1 & -> & Hd1).
  destruct (assign_ok N hasher HN h1 _ k (r (default (0, V_default) (m !! k))) Hd1) as (h2 & -> & Hd2). exists h2. split; [done|].
  destruct (m !! k); [done|]. now rewrite insert_insert_eq in Hd2.
Qed.

(** The unordered table is a finite map of tuples, with these differences to the
    ordered one: a search fails its check if the key is missing, an insertion of a
    key that is there overwrites the row, and an update of a missing key makes a row
    with metadata 0. *)
Lemma unordered_table_rows {T} h m k v ph (on_update : Z -> bytes -> T -> T) s : denotes h m ->
  TableHashMap.search N hasher V_default k h = match m !! k with Some r => Ret r h | None => Abort end /\
  TableHashMap.search_value N hasher V_default k h = match m !! k with Some r => Ret r.2 h | None => Abort end /\
  TableHashMap.search_metadata N hasher V_default k h = match m !! k with Some r => Ret r.1 h | None => Abort end /\
  yields_map (TableHashMap.insert N hasher V_default MetaInitFunc k v ph h) true (<[k := (MetaInitFunc true, v)]> m) /\
  yields_map (TableHashMap.update N hasher V_default k v on_update s h) (on_update k (default V_default (snd <$> m !! k)) s)
    (<[k := (default 0 (fst <$> m !! k), v)]> m).
Proof using H0 HN.
  intros Hd. unfold TableHashMap.search, TableHashMap.search_value, TableHashMap.search_metadata, TableHashMap.contains. cbv [mbind M_bind mret M_ret CHECK abort].
  rewrite !(contains_ok N hasher HN h m k Hd). split_and!.
  1-3: destruct (m !! k) as [r|] eqn:E; [rewrite bool_decide_eq_true_2 by eauto; cbn; rewrite ?(contains_ok N hasher HN h m k Hd), ?E, ?bool_decide_eq_true_2, (index_present N hasher (0, V_default) HN h m k r Hd E) by eauto; done|now rewrite bool_decide_eq_false_2 by (intros []; done)].
  - exact (element_written h m k (fun _ => (MetaInitFunc true, v)) (fun _ => true) Hd).
  - pose proof (element_written h m k (fun r => (r.1, v)) (fun r => on_update k r.2 s) Hd) as Hw. now destruct (m !! k).
Qed.
End unordered_table.

(** ** Checkpoints *)

Section checkpoint.
Context {U : Type} `{UnorderedMapLaws tuple U} (N : nat) (hasher : Z -> Z) (V_default : bytes) (HN : (0 < N)%nat).
Implicit Types (t : cow_table U) (d : gmap Z bytes) (m : gmap Z tuple) (k : Z) (v : bytes).

#[local] Abbreviation denotes := (denotes (V := tuple) (U := U) N hasher).
#[local] Abbreviation map_index := (HashMap.index N hasher (0, V_default)).
#[local] Abbreviation map_assign := (HashMap.assign (V := tuple) N hasher).
#[local] Abbreviation map_contains := (HashMap.contains (V := tuple) N hasher).

(** Reducing a method of the table to those of its maps. *)
#[local] Ltac cow_run := cbv [mbind M_bind mret M_ret gets modify deref CHECK abort when_ on_shadow on_map lift_with set_shadow set_map set_dump_finished set_cow dump_finished negb shadow_map_ map_ cow].

(** ** The threads *)

(** The table, where the dump stands and what it has put out; the key and the value of
    the update that the thread of the partition is in; and the writes it has done. *)
Record checkpoint := Ckpt {
  ck_table : cow_table U;
  ck_phase : dump_phase;
  ck_log : list (Z * bytes);
  ck_pending : option (Z * bytes);
  ck_history : list (Z * bytes) }.

(** The dump as a list of entries, and what it is read as. *)
Definition collect k v (log : list (Z * bytes)) : list (Z * bytes) := log ++ [(k, v)].
Definition writes_to d (log : list (Z * bytes)) : gmap Z bytes := foldl (fun d e => <[e.1 := e.2]> d) d log.
Definition replay (log : list (Z * bytes)) : gmap Z bytes := writes_to ∅ log.

#[local] Abbreviation dump := (dump_step collect (fun s => s)).
#[local] Abbreviation update_begin := (update_begin N hasher V_default).
#[local] Abbreviation update_end := (update_end N hasher V_default).

(** The keys of a map. *)
Definition has (h : list U) k : bool := match map_contains k h with Ret b _ => b | _ => false end.

(** The steps.  The thread of the partition updates rows that are there, by [update]
    or by [deserialize_value], in two parts, and inserts new rows.  The dump does not
    lock the maps, so no element may be added to the one it goes through: rows are
    inserted before it starts, and once it goes through the shadow map only rows that
    were updated before are updated. *)
Inductive step : checkpoint -> checkpoint -> Prop :=
| step_dump t ph log p h ph' log' t' :
    ph <> Dumped -> dump ph log t = Ret (ph', log') t' -> step (Ckpt t ph log p h) (Ckpt t' ph' log' p h)
| step_begin t ph log h k v r t' :
    has (map_ t) k = true -> (forall todo sh, ph = DumpShadow todo -> shadow_map_ t = Some sh -> has sh k = true) ->
    update_begin k t = Ret r t' -> step (Ckpt t ph log None h) (Ckpt t' ph log (Some (k, v)) h)
| step_end t ph log h k v t' :
    update_end k v t = Ret tt t' -> step (Ckpt t ph log (Some (k, v)) h) (Ckpt t' ph log None (h ++ [(k, v)]))
| step_insert t log h k v t' :
    has (map_ t) k = false -> HStoreCOWTable.insert N hasher V_default k v false t = Ret true t' ->
    step (Ckpt t DumpStart log None h) (Ckpt t' DumpStart log None (h ++ [(k, v)])).

(** The same as a function: the threads take turns as they are told. *)
Inductive action := Dump | Begin k v | End | Insert k v.
Definition act (a : action) (c : checkpoint) : option checkpoint :=
  let 'Ckpt t ph log p h := c in
  match a, p with
  | Dump, _ =>
      match ph with
      | Dumped => None
      | _ => match dump ph log t with Ret (ph', log') t' => Some (Ckpt t' ph' log' p h) | _ => None end
      end
  | Begin k v, None =>
      if has (map_ t) k && match ph, shadow_map_ t with DumpShadow _, Some sh => has sh k | _, _ => true end
      then match update_begin k t with Ret _ t' => Some (Ckpt t' ph log (Some (k, v)) h) | _ => None end else None
  | End, Some (k, v) => match update_end k v t with Ret _ t' => Some (Ckpt t' ph log None (h ++ [(k, v)])) | _ => None end
  | Insert k v, None =>
      match ph with
      | DumpStart =>
          if has (map_ t) k then None
          else match HStoreCOWTable.insert N hasher V_default k v false t with Ret true t' => Some (Ckpt t' ph log None (h ++ [(k, v)])) | _ => None end
      | _ => None
      end
  | _, _ => None
  end.
Fixpoint acts (l : list action) (c : checkpoint) : option checkpoint :=
  match l with [] => Some c | a :: l => act a c ≫= acts l end.

Lemma act_step a c c' : act a c = Some c' -> step c c'.
Proof using Type.
  destruct c as [t ph log p h], a as [|k v| |k v]; cbn [act].
  - intros E. destruct ph; try done; (destruct (dump _ log t) as [[ph' log'] t'| | |] eqn:Ed; [|done..]); injection E as <-; now apply step_dump.
  - destruct p; [done|]. destruct (has (map_ t) k) eqn:Hk; [|done]. cbn [andb]. intros E. destruct (match ph, shadow_map_ t with DumpShadow _, Some sh => has sh k | _, _ => true end) eqn:Hs; [|done].
    destruct (update_begin k t) as [r t'| | |] eqn:Eb; [|done..]. injection E as <-. eapply step_begin; [done| |exact Eb]. intros todo sh -> Esh. now rewrite Esh in Hs.
  - destruct p as [[k v]|]; [|done]. destruct (update_end k v t) as [[] t'| | |] eqn:Ee; [|done..]. intros [= <-]. now apply step_end.
  - destruct p; [done|]. destruct ph; try done. destruct (has (map_ t) k) eqn:Hk; [done|].
    destruct (HStoreCOWTable.insert N hasher V_default k v false t) as [[] t'| | |] eqn:Ei; [|done..]. intros [= <-]. now eapply step_insert.
Qed.

Lemma acts_steps l : forall c c', acts l c = Some c' -> rtc step c c'.
Proof using Type.
  induction l as [|a l IH]; intros c c' E; cbn in E; [injection E as <-; apply rtc_refl|]. destruct (act a c) as [c1|] eqn:Ea; [|done]. eapply rtc_l; [eapply act_step; exact Ea|]. now apply IH.
Qed.

Definition begun t : checkpoint := Ckpt t DumpStart [] None [].

(** ** States *)

Definition holds (h : list U) d : Prop := exists m, denotes h m /\ snd <$> m = d.

(** No dump is going on. *)
Record idle t d : Prop := Idle { id_map : holds (map_ t) d; id_shadow : shadow_map_ t = None; id_fin : dump_finished t = true; id_cow : cow t = false }.

(** An iteration over a map with these data. *)
Definition todo_ok (h : list U) (todo : list HashMap.cursor) : Prop := exists m, denotes h m /\ HashMapSpec.todo_ok (V := tuple) N hasher h m todo.
#[local] Abbreviation remaining := (remaining (V := tuple) (U := U)).

Definition finished (ph : dump_phase) : bool := match ph with ClearStart | ClearBits _ | Dumped => true | _ => false end.

Section invariant.
Context (d0 : gmap Z bytes).

Definition complete (log : list (Z * bytes)) : Prop := forall k v, d0 !! k = Some v -> replay log !! k = Some v.

(** What the dump has still to do, and what it has done: a row that it has passed in
    [map_] has its old value in the log, or in the shadow map. *)
Definition phase_ok t (ph : dump_phase) (log : list (Z * bytes)) (ds : gmap Z bytes) : Prop :=
  match ph with
  | DumpStart => log = []
  | DumpMap todo => todo_ok (map_ t) todo /\ forall k v, d0 !! k = Some v -> k ∈ remaining (map_ t) todo \/ replay log !! k = Some v \/ is_Some (ds !! k)
  | DumpShadow todo => exists sh, shadow_map_ t = Some sh /\ todo_ok sh todo /\ forall k v, d0 !! k = Some v -> replay log !! k = Some v \/ k ∈ remaining sh todo
  | ClearBits todo => todo_ok (map_ t) todo /\ complete log
  | ClearStart | Dumped => complete log
  end.

Record inv (c : checkpoint) d ds : Prop := Inv {
  iv_map : holds (map_ (ck_table c)) d;
  iv_shadow : exists sh, shadow_map_ (ck_table c) = Some sh /\ holds sh ds;
  iv_fin : dump_finished (ck_table c) = finished (ck_phase c);
  iv_cow : cow (ck_table c) = true;
  iv_data : d = writes_to d0 (ck_history c);
  iv_first : finished (ck_phase c) = false -> forall k v, d0 !! k = Some v -> (ds ∪ d) !! k = Some v;
  iv_saved : forall k, is_Some (ds !! k) -> is_Some (d !! k);
  iv_log : forall k, is_Some (replay (ck_log c) !! k) -> is_Some (d !! k);
  iv_pending : forall k v, ck_pending c = Some (k, v) -> is_Some (d !! k) /\ (finished (ck_phase c) = false -> is_Some (ds !! k));
  iv_phase : phase_ok (ck_table c) (ck_phase c) (ck_log c) ds }.

(** ** The maps *)

Lemma has_iff h d k : holds h d -> has h k = true <-> is_Some (d !! k).
Proof using H0 HN.
  intros (m & Hd & <-). unfold has. rewrite (contains_ok N hasher HN h m k Hd), lookup_fmap, fmap_is_Some. apply bool_decide_eq_true.
Qed.

Lemma holds_contains h d k : holds h d -> map_contains k h = Ret (bool_decide (is_Some (d !! k))) h.
Proof using H0 HN.
  intros (m & Hd & <-). rewrite (contains_ok N hasher HN h m k Hd). f_equal. apply bool_decide_ext. now rewrite lookup_fmap, fmap_is_Some.
Qed.

Lemma holds_index h d k : holds h d ->
  exists h' r, map_index k h = Ret r h' /\ r.2 = default V_default (d !! k) /\ holds h' (match d !! k with Some _ => d | None => <[k := V_default]> d end).
Proof using H0 HN.
  intros (m & Hd & <-). destruct (index_ok N hasher (0, V_default) HN h m k Hd) as (h' & E & Hd'). exists h', (default (0, V_default) (m !! k)).
  split; [exact E|]. rewrite lookup_fmap. destruct (m !! k) as [r|]; cbn; (split; [done|]); [now exists m|]. exists (<[k := (0, V_default)]> m). split; [done|]. apply fmap_insert.
Qed.

Lemma holds_assign h d k r : holds h d -> exists h', map_assign k r h = Ret tt h' /\ holds h' (<[k := r.2]> d).
Proof using H0 HN.
  intros (m & Hd & <-). destruct (assign_ok N hasher HN h m k r Hd) as (h' & E & Hd'). exists h'. split; [exact E|]. exists (<[k := r]> m). split; [done|]. apply fmap_insert.
Qed.

(** An element that is there. *)
Lemma holds_present h d k v : holds h d -> d !! k = Some v ->
  exists m r, denotes h m /\ snd <$> m = d /\ m !! k = Some r /\ r.2 = v /\ map_index k h = Ret r h.
Proof using H0 HN.
  intros (m & Hd & <-) Hk. rewrite lookup_fmap in Hk. destruct (m !! k) as [r|] eqn:E; [|done]. injection Hk as <-. exists m, r.
  split_and!; try done. now apply (index_present N hasher (0, V_default) HN h m).
Qed.

(** The same keys in the same buckets, so an iteration goes on as before. *)
Lemma todo_ok_parts h h' d d' todo : holds h' d' -> parts_of (V := tuple) h' = parts_of h -> holds h d -> (forall k, is_Some (d !! k) -> is_Some (d' !! k)) -> todo_ok h todo -> todo_ok h' todo.
Proof using H0 HN.
  intros (m' & Hd' & <-) Hp (m & Hd & <-) Hk (m1 & Hd1 & Ht). exists m'. split; [done|]. apply (todo_ok_same N hasher h h' m1); [done| |done].
  intros k Hk1. specialize (Hk k). rewrite !lookup_fmap, !fmap_is_Some in Hk. apply Hk. rewrite (de_map _ _ _ _ Hd). now rewrite (de_map _ _ _ _ Hd1) in Hk1.
Qed.

(** Writing the value of a row that is there. *)
Lemma write_present t d k v : holds (map_ t) d -> is_Some (d !! k) ->
  exists h', write_value N hasher V_default k v t = Ret tt (set_map h' t) /\ holds h' (<[k := v]> d) /\ parts_of (V := tuple) h' = parts_of (map_ t).
Proof using H0 HN.
  intros Hm [x Hk]. destruct (holds_present _ _ _ _ Hm Hk) as (m & r & Hd & <- & Er & _ & Ei).
  destruct (assign_parts N hasher HN (map_ t) m k (r.1, v) Hd) as (h' & Ea & Hd' & Hp); [eauto|]. exists h'. split_and!; [|exists (<[k := (r.1, v)]> m); split; [done|apply fmap_insert]|done].
  destruct t as [h s f c]. cbn in *. unfold write_value. cow_run. rewrite Ei. cow_run. now rewrite Ea.
Qed.

(** The version of a row is saved once. *)
Lemma save_version_ok t sh ds k r : dump_finished t = false -> shadow_map_ t = Some sh -> holds sh ds ->
  exists sh', save_version N hasher V_default k r t = Ret tt (set_shadow (Some sh') t) /\ holds sh' (match ds !! k with Some _ => ds | None => <[k := r.2]> ds end) /\
    (is_Some (ds !! k) -> sh' = sh).
Proof using H0 HN.
  intros Hf Hs Hh. destruct t as [h s f c]; cbn in *; subst. unfold save_version. cow_run.
  rewrite (holds_contains sh ds k Hh). cow_run. destruct (ds !! k) as [x|] eqn:E.
  - rewrite bool_decide_eq_true_2 by eauto. now exists sh.
  - rewrite bool_decide_eq_false_2 by (intros []; done). cow_run. destruct (holds_index sh ds k Hh) as (h1 & r1 & -> & _ & Hh1). rewrite E in Hh1. cow_run.
    destruct (holds_assign h1 _ k (r1.1, r.2) Hh1) as (h2 & -> & Hh2). exists h2. split; [done|]. split; [now rewrite insert_insert_eq in Hh2|now intros []].
Qed.

(** ** The dump *)

Lemma replay_snoc log k v : replay (log ++ [(k, v)]) = <[k := v]> (replay log).
Proof using Type. unfold replay, writes_to. now rewrite foldl_app. Qed.

(** A step of an iteration that shows the elements. *)
Lemma show_step (get : cow_table U -> option (list U)) h c todo log t :
  get t = Some h -> todo_ok h (c :: todo) ->
  exists todo' log', iterate_step get (fun _ k (r : tuple) s => mret (collect k r.2 s)) (fun s => s) c todo log t = Ret (todo', log') t /\ todo_ok h todo' /\
    ((log' = log /\ remaining h todo' = remaining h (c :: todo)) \/
     exists k r, log' = log ++ [(k, r.2)] /\ HashMap.element (HashMap.bucketNo N hasher k) k h = Some (r : tuple) /\ remaining h (c :: todo) = k :: remaining h todo').
Proof using HN.
  intros Hg (m & Hd & Ht). destruct c as [j i|[i k|]]; unfold iterate_step; cow_run; rewrite ?Hg; cbn [mbind option_bind].
  - destruct (open_ok N hasher h m j i todo Hd Ht) as (ks & -> & Ht' & Er). exists (ks ++ todo), log. split; [done|]. split; [now exists m|]. now left.
  - destruct (element_todo N hasher h m i k todo Hd Ht) as (r & -> & E & _ & Ht' & Er). rewrite E. exists todo, (log ++ [(k, r.2)]).
    split; [done|]. split; [now exists m|]. right. now exists k, r.
  - destruct (unlocked_todo N hasher h m todo Ht) as [Ht' Er]. exists todo, log. split; [done|]. split; [now exists m|]. now left.
Qed.

Lemma element_value h d k r : holds h d -> HashMap.element (HashMap.bucketNo N hasher k) k h = Some (r : tuple) -> d !! k = Some r.2.
Proof using Type. intros (m & Hd & <-) E. now rewrite lookup_fmap, (de_map _ _ _ _ Hd), E. Qed.

(** A step of the iteration that clears the metadata. *)
Lemma clear_step t d c todo (log : list (Z * bytes)) :
  holds (map_ t) d -> todo_ok (map_ t) (c :: todo) ->
  exists todo' h', iterate_step (fun t => Some (map_ t)) clear_bits (fun s => s) c todo log t = Ret (todo', log) (set_map h' t) /\ holds h' d /\ todo_ok h' todo' /\
    parts_of (V := tuple) h' = parts_of (map_ t).
Proof using H0 HN.
  intros Hm (m & Hd & Ht). destruct c as [j i|[i k|]]; unfold iterate_step, clear_bits; destruct t as [h s f cw]; cbn [map_] in *; cow_run; cbn [mbind option_bind].
  - destruct (open_ok N hasher h m j i todo Hd Ht) as (ks & -> & Ht' & _). exists (ks ++ todo), h. split_and!; try done. now exists m.
  - destruct (element_todo N hasher h m i k todo Hd Ht) as (r & -> & E & Ek & Ht' & _). rewrite E.
    destruct (put_parts N hasher HN h m k ((0, r.2) : tuple) Hd) as (u & Hu & Hp); [eauto|]. unfold HashMap.applyAt. rewrite Hu. cow_run.
    exists todo. eexists. split; [done|]. destruct (assign_ok N hasher HN h m k ((0, r.2) : tuple) Hd) as (h' & Ea & Hd'). unfold HashMap.assign, HashMap.applyAt in Ea. rewrite Hu in Ea. injection Ea as <-.
    destruct Hm as (m1 & Hd1 & <-). assert (Em : m1 = m) by (apply map_eq; intros k'; now rewrite (de_map _ _ _ _ Hd), (de_map _ _ _ _ Hd1)). subst m1.
    split_and!; [|exists (<[k := (0, r.2)]> m); split; [done|]; apply (todo_ok_same N hasher h _ m); [exact Hp| |done]; intros k' ?; destruct (decide (k' = k)) as [->|]; [rewrite lookup_insert_eq|rewrite lookup_insert_ne by done]; eauto|done].
    exists (<[k := (0, r.2)]> m). split; [done|]. rewrite fmap_insert. apply insert_id. now rewrite lookup_fmap, Ek.
  - destruct (unlocked_todo N hasher h m todo Ht) as [Ht' _]. exists todo, h. split_and!; try done. now exists m.
Qed.

(** The dump never fails, and keeps the invariant. *)
Lemma inv_dump t ph log p h d ds : inv (Ckpt t ph log p h) d ds -> ph <> Dumped ->
  exists ph' log' t', dump ph log t = Ret (ph', log') t' /\ inv (Ckpt t' ph' log' p h) d ds.
Proof using H0 HN.
  intros [Hm (sh & Hs & Hsh) Hf Hc Hdata Hfirst Hsaved Hlog Hpend Hph] Hnd. cbn in *. destruct ph as [|[|c todo]|[|c todo]| |[|c todo]|]; cbn [dump_step]; [..|done].
  - destruct t as [hm s f cw]. cbn in *. subst s f cw. cow_run. eexists _, _, _. split; [done|]. split; cbn; auto; [eauto|]. pose proof Hm as (m & Hd & Em). split.
    + exists m. split; [done|]. now apply plan_todo.
    + intros k v Hk. left. apply (plan_remaining N hasher HN hm m k Hd). pose proof (Hfirst eq_refl k v Hk) as Hu.
      assert (Hk' : is_Some (d !! k)) by (apply lookup_union_Some_raw in Hu as [Hu|[_ Hu]]; eauto). rewrite <- Em, lookup_fmap, fmap_is_Some in Hk'. done.
  - destruct t as [hm s f cw]. cbn in *. subst s. cow_run. eexists _, _, _. split; [done|]. split; cbn; eauto. exists sh. split; [done|]. destruct Hph as [_ Hall]. pose proof Hsh as (m & Hd & Em). split.
    + exists m. split; [done|]. now apply plan_todo.
    + intros k v Hk. destruct (Hall k v Hk) as [Hn|[Hv|Hv]]; [now apply elem_of_nil in Hn|now left|right]. apply (plan_remaining N hasher HN sh m k Hd). rewrite <- Em, lookup_fmap, fmap_is_Some in Hv. done.
  - destruct Hph as [Ht Hall]. destruct (show_step (fun t => Some (map_ t)) (map_ t) c todo log t eq_refl Ht) as (todo' & log' & E & Ht' & Hcase).
    cbv [mbind M_bind]. rewrite E. eexists _, _, _. split; [done|]. destruct Hcase as [[-> Er]|(k & r & -> & Ek & Er)].
    + split; cbn; eauto. split; [done|]. intros k v Hk. specialize (Hall k v Hk). rewrite <- Er in Hall. exact Hall.
    + apply (element_value _ d) in Ek; [|done]. split; cbn; eauto.
      * intros k'. rewrite replay_snoc. destruct (decide (k' = k)) as [->|]; [eauto|]. rewrite lookup_insert_ne by done. auto.
      * split; [done|]. intros k' v Hk'. rewrite replay_snoc. destruct (decide (k' = k)) as [->|Hne].
        -- right. rewrite lookup_insert_eq. pose proof (Hfirst eq_refl k v Hk') as Hu. apply lookup_union_Some_raw in Hu as [Hu|[_ Hu]]; [right; eauto|left; congruence].
        -- rewrite lookup_insert_ne by done. destruct (Hall k' v Hk') as [Hin|Hr]; [left|now right]. rewrite Er in Hin. apply elem_of_cons in Hin as [?|?]; [done|done].
  - destruct t as [hm s f cw]. cbn in *. subst s f cw. cow_run. eexists _, _, _. split; [done|]. destruct Hph as (sh' & [= <-] & _ & Hall). split; cbn; auto; try done.
    + eauto.
    + intros k v Hk. now destruct (Hpend k v Hk).
    + intros k v Hk. destruct (Hall k v Hk) as [Hv|Hn]; [done|now apply elem_of_nil in Hn].
  - destruct Hph as (sh' & Hs' & Ht & Hall). assert (sh' = sh) as -> by congruence. destruct (show_step shadow_map_ sh c todo log t Hs Ht) as (todo' & log' & E & Ht' & Hcase).
    cbv [mbind M_bind]. rewrite E. eexists _, _, _. split; [done|]. destruct Hcase as [[-> Er]|(k & r & -> & Ek & Er)].
    + split; cbn; eauto. exists sh. split_and!; try done. intros k v Hk. specialize (Hall k v Hk). rewrite <- Er in Hall. exact Hall.
    + apply (element_value _ ds) in Ek; [|done]. split; cbn; eauto.
      * intros k'. rewrite replay_snoc. destruct (decide (k' = k)) as [->|]; [eauto|]. rewrite lookup_insert_ne by done. auto.
      * exists sh. split_and!; try done. intros k' v Hk'. rewrite replay_snoc. destruct (decide (k' = k)) as [->|Hne].
        -- left. rewrite lookup_insert_eq. pose proof (Hfirst eq_refl k v Hk') as Hu. apply lookup_union_Some_raw in Hu as [Hu|[Hu _]]; congruence.
        -- rewrite lookup_insert_ne by done. destruct (Hall k' v Hk') as [Hr|Hin]; [now left|right]. rewrite Er in Hin. apply elem_of_cons in Hin as [?|?]; [done|done].
  - destruct t as [hm s f cw]. cbn in *. cow_run. eexists _, _, _. split; [done|]. split; cbn; eauto. split; [|done]. pose proof Hm as (m & Hd & Em). exists m. split; [done|]. now apply plan_todo.
  - cow_run. eexists _, _, _. split; [done|]. split; cbn; eauto. apply Hph.
  - destruct Hph as [Ht Hall]. destruct (clear_step t d c todo log Hm Ht) as (todo' & h' & E & Hm' & Ht' & Hp). cbv [mbind M_bind]. rewrite E. eexists _, _, _. split; [done|].
    destruct t as [hm s f cw]. cbn in *. split; cbn; eauto.
Qed.

(** Worker steps change no bucket of a map that the dump is in. *)
Lemma phase_ok_worker t t' ph log d d' ds ds' :
  phase_ok t ph log ds -> holds (map_ t) d -> holds (map_ t') d' -> parts_of (V := tuple) (map_ t') = parts_of (map_ t) -> (forall k, is_Some (d !! k) -> is_Some (d' !! k)) ->
  (forall todo, ph = DumpShadow todo -> shadow_map_ t' = shadow_map_ t) -> (forall k, is_Some (ds !! k) -> is_Some (ds' !! k)) -> phase_ok t' ph log ds'.
Proof using H0 HN.
  intros Hph Hm Hm' Hp Hk Hs Hds. assert (Hrem : forall todo, remaining (map_ t') todo = remaining (map_ t) todo) by (intros; unfold HashMapSpec.remaining; now rewrite Hp).
  destruct ph as [|todo|todo| |todo|]; cbn in *; auto.
  - destruct Hph as [Ht Hall]. split; [now apply (todo_ok_parts (map_ t) (map_ t') d d')|]. intros k v Hkv. rewrite Hrem. destruct (Hall k v Hkv) as [?|[?|?]]; auto.
  - rewrite (Hs todo eq_refl). exact Hph.
  - destruct Hph as [Ht Hall]. split; [now apply (todo_ok_parts (map_ t) (map_ t') d d')|done].
Qed.

(** An update up to the old version being saved. *)
Lemma inv_begin t ph log h d ds k v : inv (Ckpt t ph log None h) d ds -> is_Some (d !! k) ->
  exists r t', update_begin k t = Ret r t' /\
    ((forall todo sh, ph = DumpShadow todo -> shadow_map_ t = Some sh -> has sh k = true) -> exists ds', inv (Ckpt t' ph log (Some (k, v)) h) d ds').
Proof using H0 HN.
  intros [Hm (sh & Hs & Hsh) Hf Hc Hdata Hfirst Hsaved Hlog _ Hph] [x Hk]. cbn in *. destruct (holds_present _ _ _ _ Hm Hk) as (m & r & Hd & Em & Er & Ex & Ei).
  unfold HStoreCOWTable.update_begin. destruct t as [hm s f cw]. cbn in *. subst s cw. cow_run. rewrite Ei. cow_run. destruct f.
  - unfold save_version. cow_run. eexists _, _. split; [done|]. intros _. exists ds. split; cbn; eauto. intros k' v' [= <- <-]. split; [eauto|]. rewrite <- Hf. done.
  - destruct (save_version_ok (COW hm (Some sh) false true) sh ds k r eq_refl eq_refl Hsh) as (sh' & -> & Hsh' & Hsame). eexists _, _. split; [done|]. intros Hsk.
    assert (Hfk : finished ph = false) by done. eexists. split; cbn; eauto.
    + intros _ k' v' Hk'. specialize (Hfirst Hfk k' v' Hk'). destruct (ds !! k) as [y|] eqn:Ey; [done|]. destruct (decide (k' = k)) as [->|Hne].
      * rewrite lookup_union, lookup_insert_eq, union_Some_l. rewrite lookup_union, Ey, (left_id_L None (∪)) in Hfirst. congruence.
      * rewrite !lookup_union in *. now rewrite lookup_insert_ne.
    + intros k' Hk'. destruct (ds !! k); [auto|]. destruct (decide (k' = k)) as [->|]; [eauto|]. rewrite lookup_insert_ne in Hk' by done. auto.
    + intros k' v' [= <- <-]. split; [eauto|]. intros _. destruct (ds !! k) as [y|] eqn:Ey; [rewrite Ey; eauto|rewrite lookup_insert_eq; eauto].
    + eapply (phase_ok_worker (COW hm (Some sh) false true)); [exact Hph|exact Hm|exact Hm|done|done| |].
      * intros todo ->. cbn. f_equal. apply Hsame. apply (has_iff _ _ _ Hsh). now apply (Hsk todo).
      * intros k' Hk'. destruct (ds !! k); [done|]. destruct (decide (k' = k)) as [->|]; [rewrite lookup_insert_eq; eauto|now rewrite lookup_insert_ne].
Qed.

(** The write of an update, or of a row that is inserted before the dump starts. *)
Lemma inv_write t ph log p h d ds k v h' :
  inv (Ckpt t ph log p h) d ds -> holds h' (<[k := v]> d) -> (forall x, d0 !! k = Some x -> finished ph = false -> is_Some (ds !! k)) ->
  (ph = DumpStart \/ parts_of (V := tuple) h' = parts_of (map_ t)) -> inv (Ckpt (set_map h' t) ph log None (h ++ [(k, v)])) (<[k := v]> d) ds.
Proof using H0 HN.
  intros [Hm (sh & Hs & Hsh) Hf Hc Hdata Hfirst Hsaved Hlog _ Hph] Hm' Hold Hp. cbn in *.
  assert (Hmono : forall k', is_Some (d !! k') -> is_Some (<[k := v]> d !! k')).
  { intros k' Hk'. destruct (decide (k' = k)) as [->|]; [rewrite lookup_insert_eq; eauto|now rewrite lookup_insert_ne]. }
  split; cbn; eauto; try done.
  - unfold writes_to. rewrite foldl_app. cbn. now f_equal.
  - intros Hfin k' v' Hk'. specialize (Hfirst Hfin k' v' Hk'). destruct (decide (k' = k)) as [->|]; [|now rewrite lookup_union, lookup_insert_ne, <- lookup_union].
    destruct (Hold v' Hk' Hfin) as [y Hy]. rewrite lookup_union, Hy, union_Some_l in *. done.
  - destruct Hp as [->|Hp]; [exact Hph|]. apply (phase_ok_worker t _ ph log d (<[k := v]> d) ds ds); auto.
Qed.

Lemma ckpt_step c c' d ds : inv c d ds -> step c c' -> exists d' ds', inv c' d' ds'.
Proof using H0 HN.
  intros Hi Hst. destruct Hst as [t ph log p h ph' log' t' Hnd E|t ph log h k v r t' Hk Hsh E|t ph log h k v t' E|t log h k v t' Hk E].
  - destruct (inv_dump _ _ _ _ _ _ _ Hi Hnd) as (ph1 & log1 & t1 & E1 & Hi1). rewrite E in E1. injection E1 as <- <- <-. eauto.
  - apply (has_iff _ _ _ (iv_map _ _ _ Hi)) in Hk. destruct (inv_begin _ _ _ _ _ _ k v Hi Hk) as (r1 & t1 & E1 & Hi1). rewrite E in E1. injection E1 as <- <-.
    destruct (Hi1 Hsh) as (ds' & ?). eauto.
  - destruct (iv_pending _ _ _ Hi k v eq_refl) as [Hk Hsv]. destruct (write_present t d k v (iv_map _ _ _ Hi) Hk) as (h' & E1 & Hm' & Hp). unfold HStoreCOWTable.update_end in E. rewrite E1 in E. injection E as <-.
    exists (<[k := v]> d), ds. apply (inv_write t ph log _ h d ds k v h' Hi Hm'); [|now right]. intros x _ Hfin. now apply Hsv.
  - apply not_true_iff_false in Hk. rewrite (has_iff _ _ _ (iv_map _ _ _ Hi)) in Hk. pose proof (iv_map _ _ _ Hi) as Hm. cbn in Hm. destruct (holds_index _ _ k Hm) as (h1 & r & Ei & _ & Hh1).
    destruct (d !! k) as [x|] eqn:Ek; [destruct Hk; eauto|]. destruct (holds_assign h1 _ k (r.1, v) Hh1) as (h2 & Ea & Hh2). cbn [snd] in Hh2. rewrite insert_insert_eq in Hh2.
    assert (Et : t' = set_map h2 t). { destruct t as [hm s f cw]. cbn in *. unfold HStoreCOWTable.insert, write_value in E. revert E. cow_run. rewrite Ei. cow_run. rewrite Ea. now intros [= <-]. }
    subst t'. exists (<[k := v]> d), ds. apply (inv_write t DumpStart log None h d ds k v h2 Hi Hh2); [|now left]. intros y Hy _.
    pose proof (iv_first _ _ _ Hi eq_refl k y Hy) as Hu. rewrite lookup_union, Ek, (right_id_L None (∪)) in Hu. eauto.
Qed.

(** ** The dump ends *)

(** The steps that are left, in maps with these buckets. *)
Definition cost (P : list (list (list Z))) (todo : list HashMap.cursor) : nat :=
  sum_list_with (fun c => match c with HashMap.Bucket _ _ => S (length (opened P c)) | HashMap.At _ => 1%nat end) todo.
Definition plan_cost (P : list (list (list Z))) : nat := cost P (HashMap.plan (length <$> P)).
Definition phase_cost (P S : list (list (list Z))) (ph : dump_phase) : nat :=
  match ph with
  | Dumped => 0
  | ClearBits todo => 1 + cost P todo
  | ClearStart => 2 + plan_cost P
  | DumpShadow todo => 3 + plan_cost P + cost S todo
  | DumpMap todo => 4 + plan_cost P + plan_cost S + cost P todo
  | DumpStart => 5 + plan_cost P + plan_cost S + plan_cost P
  end.

Lemma iterate_cost {T} (get : cow_table U -> option (list U)) f unlock h c todo (s : T) t todo' s' t' :
  get t = Some h -> iterate_step get f unlock c todo s t = Ret (todo', s') t' -> (cost (parts_of (V := tuple) h) todo' < cost (parts_of h) (c :: todo))%nat.
Proof using Type.
  clear HN. intros Hg. unfold iterate_step. destruct c as [j i|[i k|]]; cow_run; rewrite ?Hg; cbn [mbind option_bind].
  - unfold HashMap.open_bucket. destruct (h !! i) as [u|] eqn:Hu; [|done]. cbn [mbind option_bind]. destruct (keys_in _ !! j) as [ks|] eqn:Hk; [|done].
    cbn [mbind option_bind]. intros [= <- _ _].
    assert (Ho : opened (parts_of h) (HashMap.Bucket j i) = (HashMap.Element i <$> ks) ++ [HashMap.Unlocked]).
    { unfold opened, parts_of. rewrite list_lookup_fmap, Hu. cbn. now rewrite Hk. }
    unfold cost. rewrite !sum_list_with_app. cbn [sum_list_with]. rewrite Ho, length_app, length_fmap. cbn [length].
    assert (E : sum_list_with (fun c => match c with HashMap.Bucket _ _ => S (length (opened (parts_of h) c)) | HashMap.At _ => 1%nat end) (HashMap.At ∘ HashMap.Element i <$> ks) = length ks)
      by (clear; induction ks as [|k' ks IH]; [done|]; rewrite fmap_cons; cbn; now f_equal).
    rewrite E. lia.
  - destruct (HashMap.element i k h) as [r|]; [|done]. destruct (f i k r s t) as [a s1| | |]; [|done..]. intros [= <- _ _]. unfold cost. cbn [sum_list_with]. lia.
  - intros [= <- _ _]. unfold cost. cbn [sum_list_with]. lia.
Qed.

Lemma dump_cost t ph log p h d ds ph' log' t' sh : inv (Ckpt t ph log p h) d ds -> ph <> Dumped -> shadow_map_ t = Some sh -> dump ph log t = Ret (ph', log') t' ->
  shadow_map_ t' = Some sh /\ parts_of (V := tuple) (map_ t') = parts_of (map_ t) /\
  (phase_cost (parts_of (V := tuple) (map_ t)) (parts_of (V := tuple) sh) ph' < phase_cost (parts_of (V := tuple) (map_ t)) (parts_of (V := tuple) sh) ph)%nat.
Proof using H0 HN.
  intros Hi Hnd Hs E. pose proof (iv_map _ _ _ Hi) as Hm. cbn in Hm.
  assert (Hshow : forall (get : cow_table U -> option (list U)) hh c todo todo' log1 t1, get t = Some hh ->
    iterate_step get (fun _ k (r : tuple) s => mret (collect k r.2 s)) (fun s => s) c todo log t = Ret (todo', log1) t1 -> t1 = t /\ (cost (parts_of (V := tuple) hh) todo' < cost (parts_of hh) (c :: todo))%nat).
  { intros get hh c todo todo' log1 t1 Hg E1. split; [|eapply iterate_cost; eauto]. revert E1. unfold iterate_step. destruct c as [j i|[i k|]]; cow_run; rewrite ?Hg; cbn [mbind option_bind].
    - destruct (HashMap.open_bucket j i hh); [|done]. now intros [= _ _ <-].
    - destruct (HashMap.element i k hh); [|done]. now intros [= _ _ <-].
    - now intros [= _ _ <-]. }
  destruct ph as [|[|c todo]|[|c todo]| |[|c todo]|]; cbn [dump_step] in E; [..|done]; unfold phase_cost.
  - destruct t as [hm s f cw]. cbn [map_ shadow_map_] in *. subst s. revert E. cow_run. destruct cw; [|done]. destruct f; [done|]. intros [= <- _ <-]. cbn [map_ shadow_map_]. unfold plan_cost. rewrite counts_parts. split_and!; [done|done|lia].
  - destruct t as [hm s f cw]. cbn [map_ shadow_map_] in *. subst s. revert E. cow_run. intros [= <- _ <-]. cbn [map_ shadow_map_]. unfold plan_cost. rewrite counts_parts. split_and!; [done|done|]. unfold cost at 5. cbn [sum_list_with]. lia.
  - cbv [mbind M_bind] in E. destruct (iterate_step _ _ _ c todo log t) as [[todo' log1] t1| | |] eqn:E1; try done. injection E as <- _ <-.
    destruct (Hshow (fun t => Some (map_ t)) (map_ t) c todo todo' log1 t1 eq_refl E1) as [-> Hc]. split_and!; [done|done|cbn [fst]; lia].
  - injection E as <- _ <-. split_and!; [done|done|cbn; lia].
  - cbv [mbind M_bind] in E. destruct (iterate_step _ _ _ c todo log t) as [[todo' log1] t1| | |] eqn:E1; try done. injection E as <- _ <-.
    destruct (Hshow shadow_map_ sh c todo todo' log1 t1 Hs E1) as [-> Hc]. split_and!; [done|done|cbn [fst]; lia].
  - destruct t as [hm s f cw]. cbn [map_ shadow_map_] in *. subst s. revert E. cow_run. intros [= <- _ <-]. cbn [map_ shadow_map_]. unfold plan_cost. rewrite counts_parts. split_and!; [done|done|lia].
  - injection E as <- _ <-. split_and!; [done|done|cbn; lia].
  - cbv [mbind M_bind] in E. destruct (iterate_step _ _ _ c todo log t) as [[todo' log1] t1| | |] eqn:E1; try done. injection E as <- _ <-.
    pose proof (iv_phase _ _ _ Hi) as [Ht _]. cbn in Ht. destruct (clear_step t d c todo log Hm Ht) as (todo2 & h' & E2 & _ & _ & Hp). rewrite E1 in E2. injection E2 as <- <- ->.
    pose proof (iterate_cost _ _ _ (map_ t) _ _ _ _ _ _ _ eq_refl E1) as Hc. split_and!; [done|done|cbn [fst]; lia].
Qed.

Lemma dump_ends n : forall c d ds sh, inv c d ds -> shadow_map_ (ck_table c) = Some sh ->
  (phase_cost (parts_of (V := tuple) (map_ (ck_table c))) (parts_of (V := tuple) sh) (ck_phase c) <= n)%nat -> exists c', rtc step c c' /\ ck_phase c' = Dumped.
Proof using H0 HN.
  induction n as [n IH] using lt_wf_ind. intros [t ph log p h] d ds sh Hi Hs Hn. cbn in Hs, Hn. destruct (decide (phase_cost (parts_of (V := tuple) (map_ t)) (parts_of (V := tuple) sh) ph = 0%nat)) as [Hz|Hz].
  { exists (Ckpt t ph log p h). split; [apply rtc_refl|]. destruct ph; [cbn in Hz; lia..|done]. }
  assert (Hnd : ph <> Dumped) by (intros ->; done). destruct (inv_dump _ _ _ _ _ _ _ Hi Hnd) as (ph' & log' & t' & E & Hi').
  destruct (dump_cost _ _ _ _ _ _ _ _ _ _ sh Hi Hnd Hs E) as (Hs' & Hp & Hlt).
  destruct (IH (phase_cost (parts_of (V := tuple) (map_ t')) (parts_of (V := tuple) sh) ph') ltac:(rewrite Hp; lia) _ d ds sh Hi' Hs' ltac:(done)) as (c' & Hc & Hd).
  exists c'. split; [|done]. eapply rtc_l; [|exact Hc]. now apply step_dump.
Qed.

Lemma inv_begun t : idle t d0 -> exists t1, turn_on_cow N t = Ret tt t1 /\ inv (begun t1) d0 ∅.
Proof using H0 HN.
  intros [Hm Hs Hf Hc]. destruct t as [h s f c]; cbn in *; subst. eexists. split; [done|]. split; cbn; auto.
  - eexists. split; [done|]. exists ∅. split; [now apply new_map_denotes|apply fmap_empty].
  - intros _ k v. now rewrite (left_id_L ∅ (∪)).
  - intros k []. done.
  - intros k []. done.
  - done.
Qed.

Lemma ckpt_reachable c c' d ds : inv c d ds -> rtc step c c' -> exists d' ds', inv c' d' ds'.
Proof using H0 HN. intros Hi Hr. revert d ds Hi. induction Hr as [|c1 c2 c3 Hst _ IH]; intros d ds Hi; [eauto|]. destruct (ckpt_step _ _ _ _ Hi Hst) as (d' & ds' & Hi'). eauto. Qed.

(** A table that is not being dumped. *)
Lemma idle_insert t d k v : idle t d -> exists t', HStoreCOWTable.insert N hasher V_default k v false t = Ret true t' /\ idle t' (<[k := v]> d).
Proof using H0 HN.
  intros [Hm Hs Hf Hc]. destruct (holds_index _ _ k Hm) as (h1 & r & Ei & _ & Hh1). destruct (holds_assign h1 _ k (r.1, v) Hh1) as (h2 & Ea & Hh2). cbn [snd] in Hh2.
  destruct t as [h s f c]. cbn in *. subst. exists (COW h2 None true false). split.
  - unfold HStoreCOWTable.insert, write_value. cow_run. rewrite Ei. cow_run. now rewrite Ea.
  - split; cbn; try done. destruct (d !! k); [done|]. now rewrite insert_insert_eq in Hh2.
Qed.

(** Keys that are neither old nor written are not in the table. *)
Lemma writes_to_keys h k : forall d, d !! k = None -> k ∉ h.*1 -> writes_to d h !! k = None.
Proof using Type.
  induction h as [|[k' v] h IH]; intros d Hk Hn; [done|]. rewrite fmap_cons in Hn. apply not_elem_of_cons in Hn as [Hne Hn]. cbn. apply IH; [|done]. now rewrite lookup_insert_ne.
Qed.
End invariant.

(** C40: A checkpoint of a table is the table when the checkpoint was started.
    Copying is switched on for a table that is not being dumped.  Then the accesses of
    the dump, bucket by bucket and element by element, are interleaved in any way
    with updates of rows, in two parts each, and with insertions of new rows before
    the dump goes through the table; while it goes through the shadow map, only rows
    that have been updated before are updated.  In every state that is
    reached: the dump does not fail, nor does the update or the write of a row that
    is there, and the dump can end.  When it has ended, who reads
    it, a later entry of a key over an earlier one, has for every key that was
    there at the start the value from the start, and no other keys than those
    written meanwhile; and when copying is switched off the table has the writes that
    were done and is ready for the next checkpoint. *)
Theorem cow_checkpoint t d :
  idle t d -> exists t1, turn_on_cow N t = Ret tt t1 /\ forall c, rtc step (begun t1) c ->
    (ck_phase c <> Dumped -> exists ph log t', dump (ck_phase c) (ck_log c) (ck_table c) = Ret (ph, log) t') /\
    (forall k, has (map_ (ck_table c)) k = true -> ck_pending c = None -> exists r t', update_begin k (ck_table c) = Ret r t') /\
    (forall k v, ck_pending c = Some (k, v) -> exists t', update_end k v (ck_table c) = Ret tt t') /\
    (exists c', rtc step c c' /\ ck_phase c' = Dumped) /\
    (ck_phase c = Dumped ->
      (forall k, is_Some (d !! k) \/ k ∉ (ck_history c).*1 -> replay (ck_log c) !! k = d !! k) /\
      exists sh t', turn_off_cow (ck_table c) = Ret (Some sh) t' /\ idle t' (writes_to d (ck_history c))).
Proof using H0 HN.
  intros Ht. destruct (inv_begun d t Ht) as (t1 & E1 & Hi1). exists t1. split; [done|]. intros c Hr. destruct (ckpt_reachable d _ c _ _ Hi1 Hr) as (d' & ds & Hi).
  destruct c as [tb ph log p h]. cbn. split_and!.
  - intros Hnd. destruct (inv_dump d _ _ _ _ _ _ _ Hi Hnd) as (ph' & log' & t' & E & _). eauto.
  - intros k Hk ->. apply (has_iff _ _ _ (iv_map _ _ _ _ Hi)) in Hk. destruct (inv_begin d _ _ _ _ _ _ k [] Hi Hk) as (r & t' & E & _). eauto.
  - intros k v ->. destruct (iv_pending _ _ _ _ Hi k v eq_refl) as [Hk _]. destruct (write_present tb d' k v (iv_map _ _ _ _ Hi) Hk) as (h' & E & _). eauto.
  - destruct (iv_shadow _ _ _ _ Hi) as (sh & Hs & _). exact (dump_ends d _ _ _ _ sh Hi Hs (Nat.le_refl _)).
  - intros ->. destruct Hi as [Hm (sh & Hs & _) Hf Hc Hdata _ _ Hlog _ Hph]. cbn in *. split.
    + intros k Hk. destruct (d !! k) as [v|] eqn:Ek; [now apply Hph|]. destruct Hk as [[]|Hk]; [done|]. apply eq_None_not_Some. intros Hl%Hlog.
      assert (Hn : d' !! k = None) by (rewrite Hdata; exact (writes_to_keys h k d Ek Hk)). rewrite Hn in Hl. now destruct Hl.
    + exists sh, (COW (map_ tb) None true false). destruct tb as [hm s f cw]. cbn in *. subst. split; [done|]. now split.
Qed.
End checkpoint.
