(* ===== verification/Partitioner.v ===== *)
(** * Partitioners: which host has which partition

    core/Partitioner.h.  A partitioner is the record of its methods, as one host has
    built it; a method that only fails a [CHECK] is [None].  Hosts and partitions are
    64-bit numbers; the theorems are for at most 2^32 hosts, so that no sum of
    them wraps around. *)

From stdpp Require Import strings.
From S2P Require Import Prelude.

Record Partitioner := MkPartitioner {
  coordinator_id : Z;
  coordinator_num : Z;
  replica_num : Z;
  is_replicated : bool;
  num_coordinator_for_one_replica : Z;
  has_master_partition : Z -> option bool;
  master_coordinator : Z -> option Z;
  get_ith_replica_coordinator : Z -> Z -> Z;
  get_replica_coordinators : Z -> option (list Z);
  is_partition_replicated_on : Z -> Z -> bool;
  is_backup : bool
}.

Definition total_coordinators (p : Partitioner) : Z := coordinator_num p.
Definition get_coordinator_id (p : Partitioner) : Z := coordinator_id p.
Definition is_partition_replicated_on_me (p : Partitioner) (partition_id : Z) : bool :=
  is_partition_replicated_on p partition_id (coordinator_id p).

(** What the base class does for a method that is not overridden. *)
Definition no_ith_replica (partition_id ith : Z) : Z := 0.
Definition no_replica_coordinators (partition_id : Z) : option (list Z) := Some [].

(** The numbers from [a] to [b], as a loop with [<=] pushes them. *)
Definition from_to (a b : Z) : list Z := seqZ a (b - a + 1).

Module HashReplicatedPartitioner.
Section hash.
Context (N id num : Z).

Definition master (partition_id : Z) : Z := partition_id mod num.
Definition last_replica (first : Z) : Z := (first + N - 1) mod num.

Definition ith_replica (partition_id ith : Z) : Z :=
  let first := master partition_id in
  if ith =? 0 then first
  else if first <=? last_replica first then first + ith
  else (first + ith) mod num.

Definition replica_coordinators (partition_id : Z) : list Z :=
  let first := master partition_id in
  let last := last_replica first in
  if first <=? last then from_to first last
  else from_to first (num - 1) ++ from_to 0 last.

Definition replicated_on (partition_id c : Z) : bool :=
  let first := master partition_id in
  let last := last_replica first in
  if first <=? last then (first <=? c) && (c <=? last) else (first <=? c) || (c <=? last).

Definition HashReplicatedPartitioner : option Partitioner :=
  if (0 <? N) && (N <=? num) then
    Some (MkPartitioner id num N (1 <? N) num (fun q => Some (master q =? id)) (fun q => Some (master q)) ith_replica
      (fun q => Some (replica_coordinators q)) replicated_on false)
  else None.
End hash.
End HashReplicatedPartitioner.

Module HStorePBPartitioner.
Section hstore.
Context (id num : Z).

Definition one_replica : Z := num / 2.
Definition current_replica : Z := if id <? one_replica then 0 else 1.
Definition ith_replica (partition_id ith : Z) : Z := partition_id mod one_replica + ith * one_replica.
Definition replicated_on (partition_id c : Z) : bool :=
  (partition_id mod one_replica =? c) || (partition_id mod one_replica + one_replica =? c).

Definition HStorePBPartitioner : option Partitioner :=
  if num mod 2 =? 0 then
    Some (MkPartitioner id num 2 true one_replica (fun _ => None) (fun _ => None) ith_replica (fun _ => None) replicated_on false)
  else None.
End hstore.
End HStorePBPartitioner.

Module PrimaryBackupPartitioner.
Definition PrimaryBackupPartitioner (id num : Z) : option Partitioner :=
  if num =? 2 then
    Some (MkPartitioner id num 2 true num (fun _ => Some (id =? 0)) (fun _ => Some 0) no_ith_replica (fun _ => Some [0; 1])
      (fun _ _ => true) (id =? 1))
  else None.
End PrimaryBackupPartitioner.

Module StarSPartitioner.
Section star.
Context (id num : Z).

Definition master (partition_id : Z) : Z := partition_id mod num.
Definition replicated_on (partition_id c : Z) : bool :=
  let master_id := master partition_id in
  let secondary_id := if master_id =? 0 then wrap 32 (partition_id mod (num - 1) + 1) else 0 in
  (c =? master_id) || (c =? secondary_id).

Definition StarSPartitioner : option Partitioner :=
  if 2 <=? num then
    Some (MkPartitioner id num 2 true num (fun q => Some (master q =? id)) (fun q => Some (master q)) no_ith_replica no_replica_coordinators
      replicated_on false)
  else None.
End star.
End StarSPartitioner.

Module StarCPartitioner.
Section star.
Context (id num : Z).

Definition replicated_on (partition_id c : Z) : bool := if c =? 0 then true else c =? partition_id mod (num - 1) + 1.

Definition StarCPartitioner : option Partitioner :=
  if 2 <=? num then
    Some (MkPartitioner id num 2 true num (fun _ => Some (id =? 0)) (fun _ => Some 0) no_ith_replica no_replica_coordinators
      replicated_on (negb (id =? 0)))
  else None.
End star.
End StarCPartitioner.

Module CalvinPartitioner.
(** The loop of the constructor: the group of the host, as its first coordinator,
    its number and its size; [None] for a [CHECK] that fails, and no group when
    the sizes are too small (the fields stay uninitialised). *)
Fixpoint group_of (id size i : Z) (sizes : list Z) : option (option (Z * Z * Z)) :=
  match sizes with
  | [] => Some None
  | n :: sizes =>
      if n <=? 0 then None
      else if id <? size + n then Some (Some (size, i, n))
      else group_of id (size + n) (i + 1) sizes
  end.

Definition CalvinPartitioner (id num : Z) (replica_group_sizes : list Z) : option Partitioner :=
  g ← group_of id 0 0 replica_group_sizes;
  if foldr Z.add 0 replica_group_sizes =? num then
    '(start, _, size) ← g;
    let master q := q mod size + start in
    Some (MkPartitioner id num size false num (fun q => Some (master q =? id)) (fun q => Some (master q)) no_ith_replica no_replica_coordinators
      (fun _ _ => false) false)
  else None.
End CalvinPartitioner.

Definition create_partitioner (part : string) (id num : Z) : option Partitioner :=
  let hash n := HashReplicatedPartitioner.HashReplicatedPartitioner n id num in
  if String.eqb part "hash" then hash 1
  else if String.eqb part "hash2" then hash 2
  else if String.eqb part "hash3" then hash 3
  else if String.eqb part "hash4" then hash 4
  else if String.eqb part "hash5" then hash 5
  else if String.eqb part "hash6" then hash 6
  else if String.eqb part "hash7" then hash 7
  else if String.eqb part "hash8" then hash 8
  else if String.eqb part "pb" then PrimaryBackupPartitioner.PrimaryBackupPartitioner id num
  else if String.eqb part "StarS" then StarSPartitioner.StarSPartitioner id num
  else if String.eqb part "StarC" then StarCPartitioner.StarCPartitioner id num
  else if String.eqb part "hpb" then HStorePBPartitioner.HStorePBPartitioner id num
  else if String.eqb part "lotus" then HStorePBPartitioner.HStorePBPartitioner id num
  else None.

(** ** What a partitioner promises *)

(** The hosts that have a replica, in ascending order. *)
Definition replicas (p : Partitioner) (partition_id : Z) : list Z :=
  filter (fun c => is_partition_replicated_on p partition_id c = true) (seqZ 0 (coordinator_num p)).

(** There is a master: it has a replica, and it alone says that it is the master. *)
Definition elects (p : Partitioner) (q : Z) : Prop :=
  exists m, master_coordinator p q = Some m /\ m ∈ replicas p q /\ has_master_partition p q = Some (m =? coordinator_id p).

(** The replicas are listed, each once, the master first. *)
Definition lists_replicas (p : Partitioner) (q : Z) : Prop :=
  exists l, get_replica_coordinators p q = Some l /\ l ≡ₚ replicas p q /\ head l = master_coordinator p q.

(** There is no master: the methods about it fail a [CHECK], and the replicas are
    the 0th and the 1st. *)
Definition pairs_replicas (p : Partitioner) (q : Z) : Prop :=
  master_coordinator p q = None /\ has_master_partition p q = None /\ get_replica_coordinators p q = None /\
  [get_ith_replica_coordinator p q 0; get_ith_replica_coordinator p q 1] ≡ₚ replicas p q.

(** What a partitioner of a name promises; the two Star partitioners inherit the
    empty list of replicas of the base class. *)
Definition consistent (part : string) (p : Partitioner) (q : Z) : Prop :=
  Z.of_nat (length (replicas p q)) = replica_num p /\
  if String.eqb part "hpb" || String.eqb part "lotus" then pairs_replicas p q
  else elects p q /\
    if String.eqb part "StarS" || String.eqb part "StarC" then get_replica_coordinators p q = Some [] else lists_replicas p q.

(** A list without repetition of all hosts with a replica. *)
Lemma replicas_list p q l : NoDup l -> (forall c, c ∈ l <-> 0 <= c < coordinator_num p /\ is_partition_replicated_on p q c = true) -> l ≡ₚ replicas p q.
Proof.
  intros Hl Hin. apply NoDup_Permutation; [exact Hl|apply NoDup_filter, NoDup_seqZ|]. intros c. unfold replicas. rewrite Hin, list_elem_of_filter, elem_of_seqZ, Z.add_0_l. tauto.
Qed.

Lemma two_hosts a b : a <> b -> NoDup [a; b] /\ forall c : Z, c ∈ [a; b] <-> c = a \/ c = b.
Proof.
  intros. split; [apply NoDup_cons; split; [intros ?%list_elem_of_singleton; easy|apply NoDup_singleton]|].
  intros c. rewrite elem_of_cons, list_elem_of_singleton. easy.
Qed.

Lemma elem_of_from_to a b c : c ∈ from_to a b <-> a <= c <= b.
Proof. unfold from_to. rewrite elem_of_seqZ. lia. Qed.

(** One time around at most. *)
Lemma wrap_once x n : 0 <= x < 2 * n -> x mod n = x /\ x < n \/ x mod n = x - n /\ n <= x.
Proof.
  intros. destruct (Z.lt_ge_cases x n); [left; split; [apply Z.mod_small; lia|lia]|]. right. split; [|lia]. symmetry. apply (Z.mod_unique_pos _ _ 1); lia.
Qed.

Lemma hash_list N id num q p : 0 <= q -> 0 < N <= num -> 0 <= id < num -> HashReplicatedPartitioner.HashReplicatedPartitioner N id num = Some p ->
  HashReplicatedPartitioner.replica_coordinators N num q ≡ₚ replicas p q /\ Z.of_nat (length (HashReplicatedPartitioner.replica_coordinators N num q)) = N.
Proof.
  intros Hq HN Hid E. unfold HashReplicatedPartitioner.HashReplicatedPartitioner in E. destruct (Z.ltb_spec 0 N); [|lia]. destruct (Z.leb_spec N num); [|lia]. cbn in E. injection E as <-.
  unfold HashReplicatedPartitioner.replica_coordinators, HashReplicatedPartitioner.last_replica.
  pose proof (Z.mod_pos_bound q num ltac:(lia)) as Hm. set (first := HashReplicatedPartitioner.master num q). change (q mod num) with first in Hm.
  pose proof (wrap_once (first + N - 1) num ltac:(lia)) as Hlast.
  assert (forall c, HashReplicatedPartitioner.replicated_on N num q c = (if first <=? (first + N - 1) mod num then (first <=? c) && (c <=? (first + N - 1) mod num) else (first <=? c) || (c <=? (first + N - 1) mod num))) as Hrep by reflexivity.
  destruct (Z.leb_spec first ((first + N - 1) mod num)) as [Hle|Hgt].
  - split; [|unfold from_to; rewrite length_seqZ; lia]. apply replicas_list; [apply NoDup_seqZ|]. intros c. cbn. rewrite elem_of_from_to, Hrep, andb_true_iff, !Z.leb_le. lia.
  - split; [|rewrite length_app; unfold from_to; rewrite !length_seqZ; lia]. apply replicas_list.
    + apply NoDup_app. split; [apply NoDup_seqZ|]. split; [|apply NoDup_seqZ]. intros c. rewrite !elem_of_from_to. lia.
    + intros c. cbn. rewrite elem_of_app, !elem_of_from_to, Hrep, orb_true_iff, !Z.leb_le. lia.
Qed.

Lemma hash_consistent N id num q p : 0 <= q -> 0 < N -> 0 <= id < num -> HashReplicatedPartitioner.HashReplicatedPartitioner N id num = Some p ->
  Z.of_nat (length (replicas p q)) = replica_num p /\ elects p q /\ lists_replicas p q.
Proof.
  intros Hq HN Hid E. assert (0 < N <= num) as HN' by (unfold HashReplicatedPartitioner.HashReplicatedPartitioner in E; destruct (Z.leb_spec N num); [lia|rewrite andb_false_r in E; discriminate E]).
  destruct (hash_list N id num q p Hq HN' Hid E) as [Hp Hlen].
  assert (head (HashReplicatedPartitioner.replica_coordinators N num q) = Some (HashReplicatedPartitioner.master num q)) as Hhead.
  { unfold HashReplicatedPartitioner.replica_coordinators. pose proof (Z.mod_pos_bound q num ltac:(lia)) as Hm. change (q mod num) with (HashReplicatedPartitioner.master num q) in Hm.
    destruct (Z.leb_spec (HashReplicatedPartitioner.master num q) (HashReplicatedPartitioner.last_replica N num (HashReplicatedPartitioner.master num q))); unfold from_to; rewrite seqZ_cons by lia; reflexivity. }
  unfold HashReplicatedPartitioner.HashReplicatedPartitioner in E. destruct ((0 <? N) && (N <=? num)); [|discriminate E]. injection E as <-. split; [|split]; cbn.
  - rewrite <- Hp. exact Hlen.
  - eexists. split; [reflexivity|]. split; [|reflexivity]. rewrite <- Hp. destruct (HashReplicatedPartitioner.replica_coordinators N num q); [discriminate Hhead|]. cbn in Hhead. injection Hhead as ->. left.
  - eexists. now split_and!.
Qed.

(** The [i]-th replica is the [i]-th of the list. *)
Lemma hash_ith N num q i : 0 <= q -> 0 < N <= num -> 0 <= i < N ->
  HashReplicatedPartitioner.replica_coordinators N num q !! Z.to_nat i = Some (HashReplicatedPartitioner.ith_replica N num q i).
Proof.
  intros Hq HN Hi. unfold HashReplicatedPartitioner.replica_coordinators, HashReplicatedPartitioner.ith_replica, HashReplicatedPartitioner.last_replica.
  pose proof (Z.mod_pos_bound q num ltac:(lia)) as Hm. set (first := HashReplicatedPartitioner.master num q). change (q mod num) with first in Hm.
  pose proof (wrap_once (first + N - 1) num ltac:(lia)) as Hlast.
  destruct (Z.leb_spec first ((first + N - 1) mod num)) as [Hle|Hgt].
  - replace (if i =? 0 then first else first + i) with (first + i) by (destruct (Z.eqb_spec i 0); lia). unfold from_to. apply lookup_seqZ. lia.
  - assert ((if i =? 0 then first else (first + i) mod num) = (first + i) mod num) as -> by (destruct (Z.eqb_spec i 0) as [->|]; [rewrite Z.add_0_r, Z.mod_small; lia|easy]).
    unfold from_to. destruct (Z.lt_ge_cases (first + i) num).
    + rewrite lookup_app_l by (rewrite length_seqZ; lia). rewrite Z.mod_small by lia. apply lookup_seqZ. lia.
    + rewrite lookup_app_r by (rewrite length_seqZ; lia). rewrite length_seqZ. apply lookup_seqZ. rewrite <- (Z.mod_unique_pos (first + i) num 1 (first + i - num)); lia.
Qed.

(** A partitioner with the two replicas [a] and [b]. *)
Lemma pair_replicas p q a b : replica_num p = 2 -> a <> b -> 0 <= a < coordinator_num p -> 0 <= b < coordinator_num p ->
  (forall c, 0 <= c < coordinator_num p -> is_partition_replicated_on p q c = true <-> c = a \/ c = b) ->
  [a; b] ≡ₚ replicas p q /\ Z.of_nat (length (replicas p q)) = replica_num p.
Proof.
  intros Hr Hab Ha Hb Hrep. destruct (two_hosts a b Hab) as [Hnd Hin].
  assert ([a; b] ≡ₚ replicas p q) as Hp.
  { apply replicas_list; [exact Hnd|]. intros c. rewrite Hin. split; [|intros [Hc Hx]; now apply Hrep]. intros Hc. assert (0 <= c < coordinator_num p) by (destruct Hc; subst; lia). split; [easy|]. now apply Hrep. }
  split; [exact Hp|]. rewrite <- Hp, Hr. reflexivity.
Qed.

(** Of these [a] is the master. *)
Lemma pair_elects p q a b : [a; b] ≡ₚ replicas p q -> master_coordinator p q = Some a -> has_master_partition p q = Some (a =? coordinator_id p) -> elects p q.
Proof. intros Hp H1 H2. exists a. split_and!; auto. rewrite <- Hp. left. Qed.

Lemma hstore_consistent id num q p : 0 <= q -> 0 <= id < num -> HStorePBPartitioner.HStorePBPartitioner id num = Some p ->
  Z.of_nat (length (replicas p q)) = replica_num p /\ pairs_replicas p q.
Proof.
  intros Hq Hid E. unfold HStorePBPartitioner.HStorePBPartitioner in E. destruct (Z.eqb_spec (num mod 2) 0) as [Hn|]; [|discriminate E]. injection E as <-.
  assert (0 < HStorePBPartitioner.one_replica num /\ num = 2 * HStorePBPartitioner.one_replica num) as [Hh Hnum].
  { unfold HStorePBPartitioner.one_replica. pose proof (Z.div_mod num 2 ltac:(lia)). lia. }
  pose proof (Z.mod_pos_bound q _ Hh). match goal with |- context [replicas ?p q] => destruct (pair_replicas p q (HStorePBPartitioner.ith_replica num q 0) (HStorePBPartitioner.ith_replica num q 1)) as [Hp Hn2] end;
    cbn; unfold HStorePBPartitioner.ith_replica; try easy; try lia.
  - intros c _. unfold HStorePBPartitioner.replicated_on. rewrite orb_true_iff, !Z.eqb_eq. lia.
Qed.

Lemma primary_backup_consistent id num q p : 0 <= id < num -> PrimaryBackupPartitioner.PrimaryBackupPartitioner id num = Some p ->
  Z.of_nat (length (replicas p q)) = replica_num p /\ elects p q /\ lists_replicas p q.
Proof.
  intros Hid E. unfold PrimaryBackupPartitioner.PrimaryBackupPartitioner in E. destruct (Z.eqb_spec num 2) as [->|]; [|discriminate E]. injection E as <-.
  match goal with |- context [replicas ?p q] => destruct (pair_replicas p q 0 1) as [Hp Hn] end; cbn; try easy; try lia.
  split; [exact Hn|]. split; [eapply (pair_elects _ q 0 1 Hp); [easy|]; now destruct id|]. eexists. now split_and!.
Qed.

Lemma star_s_consistent id num q p : 0 <= q -> 0 <= id < num -> num <= 2 ^ 32 -> StarSPartitioner.StarSPartitioner id num = Some p ->
  Z.of_nat (length (replicas p q)) = replica_num p /\ elects p q /\ get_replica_coordinators p q = Some [].
Proof.
  intros Hq Hid Hnum E. unfold StarSPartitioner.StarSPartitioner in E. destruct (Z.leb_spec 2 num); [|discriminate E]. injection E as <-.
  pose proof (Z.mod_pos_bound q num ltac:(lia)). pose proof (Z.mod_pos_bound q (num - 1) ltac:(lia)).
  match goal with |- context [replicas ?p q] => destruct (pair_replicas p q (q mod num) (if q mod num =? 0 then q mod (num - 1) + 1 else 0)) as [Hp Hn] end;
    cbn; try easy; try (destruct (Z.eqb_spec (q mod num) 0); lia).
  - intros c _. unfold StarSPartitioner.replicated_on, StarSPartitioner.master. rewrite wrap_small by (unfold fits; lia). now rewrite orb_true_iff, !Z.eqb_eq.
  - split; [exact Hn|]. split; [now apply (pair_elects _ q _ _ Hp)|reflexivity].
Qed.

Lemma star_c_consistent id num q p : 0 <= q -> 0 <= id < num -> StarCPartitioner.StarCPartitioner id num = Some p ->
  Z.of_nat (length (replicas p q)) = replica_num p /\ elects p q /\ get_replica_coordinators p q = Some [].
Proof.
  intros Hq Hid E. unfold StarCPartitioner.StarCPartitioner in E. destruct (Z.leb_spec 2 num); [|discriminate E]. injection E as <-.
  pose proof (Z.mod_pos_bound q (num - 1) ltac:(lia)).
  match goal with |- context [replicas ?p q] => destruct (pair_replicas p q 0 (q mod (num - 1) + 1)) as [Hp Hn] end; cbn; try easy; try lia.
  - intros c _. unfold StarCPartitioner.replicated_on. destruct (Z.eqb_spec c 0) as [->|]; [split; auto|]. rewrite Z.eqb_eq. lia.
  - split; [exact Hn|]. split; [apply (pair_elects _ q _ _ Hp); [easy|]; now destruct id|reflexivity].
Qed.

(** C36: every host knows who has a partition.  For every partitioner that the
    factory builds, on every one of at most 2^32 hosts, as many hosts have a replica
    of a partition as [replica_num] says.  For the hash, primary-backup and Star
    partitioners the master is one of them, and it is the only one whose
    [has_master_partition] is true; for the hash and primary-backup
    partitioners [get_replica_coordinators] lists exactly these hosts, once each,
    the master first, while the Star partitioners inherit the empty list.  The
    H-Store partitioner (names hpb and lotus) has no master: these three methods
    fail a [CHECK], and the hosts with a replica are its 0th and 1st replica. *)
Theorem partitioner_consistent part id num p q :
  create_partitioner part id num = Some p -> 0 <= id < num -> num <= 2 ^ 32 -> 0 <= q -> consistent part p q.
Proof.
  intros E Hid Hnum Hq. unfold create_partitioner in E. unfold consistent.
  repeat match type of E with (if String.eqb part ?n then _ else _) = _ => destruct (String.eqb_spec part n) as [->|]; [clear -E Hid Hnum Hq; cbn [String.eqb Ascii.eqb Bool.eqb orb]|] end; try discriminate E;
    eauto using star_s_consistent, star_c_consistent, primary_backup_consistent, hstore_consistent; eapply hash_consistent; try exact E; lia.
Qed.

Lemma partitioner_consistent_witness : exists p, create_partitioner "hash3" 3 5 = Some p /\ replicas p 9 ≡ₚ [4; 0; 1].
Proof.
  destruct (create_partitioner "hash3" 3 5) as [p|] eqn:E; [|discriminate E]. exists p. split; [easy|].
  destruct (partitioner_consistent "hash3" 3 5 p 9 E ltac:(lia) ltac:(lia) ltac:(lia)) as (_ & _ & l & El & Hp & _). injection E as <-.
  rewrite <- Hp. injection El as <-. reflexivity.
Defined.

(** With one replica nobody but the master has the partition. *)
Lemma hash_unreplicated id num p q c : HashReplicatedPartitioner.HashReplicatedPartitioner 1 id num = Some p -> 0 <= id < num -> 0 <= q ->
  is_partition_replicated_on p q c = true -> master_coordinator p q = Some c.
Proof.
  intros E Hid Hq. unfold HashReplicatedPartitioner.HashReplicatedPartitioner in E. destruct (_ && _); [|discriminate E]. injection E as <-. cbn.
  unfold HashReplicatedPartitioner.replicated_on, HashReplicatedPartitioner.last_replica, HashReplicatedPartitioner.master. pose proof (Z.mod_pos_bound q num ltac:(lia)).
  rewrite Z.add_simpl_r, Z.mod_mod, Z.leb_refl, andb_true_iff, !Z.leb_le by lia. intros. f_equal. lia.
Qed.

(** The number of a replica of the H-Store partitioner. *)
Lemma hstore_ith id num p q i : HStorePBPartitioner.HStorePBPartitioner id num = Some p -> 0 <= id < num -> 0 <= q -> 0 <= i < 2 ->
  is_partition_replicated_on p q (get_ith_replica_coordinator p q i) = true.
Proof.
  intros E Hid Hq Hi. unfold HStorePBPartitioner.HStorePBPartitioner in E. destruct (_ =? 0); [|discriminate E]. injection E as <-. cbn.
  unfold HStorePBPartitioner.replicated_on, HStorePBPartitioner.ith_replica. rewrite orb_true_iff, !Z.eqb_eq. assert (i = 0 \/ i = 1) as [-> | ->] by lia; lia.
Qed.

(** The members of a Calvin group share the partitions: the master of a partition
    is in the group of the host. *)
Lemma calvin_group id num sizes p q m : 0 <= id -> 0 <= q -> CalvinPartitioner.CalvinPartitioner id num sizes = Some p -> master_coordinator p q = Some m ->
  exists start i size, CalvinPartitioner.group_of id 0 0 sizes = Some (Some (start, i, size)) /\ start <= id < start + size /\ start <= m < start + size.
Proof.
  intros Hid Hq E Em. unfold CalvinPartitioner.CalvinPartitioner in E. destruct (CalvinPartitioner.group_of id 0 0 sizes) as [g|] eqn:Eg; [|discriminate E]. cbn in E.
  destruct (_ =? num); [|discriminate E]. destruct g as [[[start i] size]|]; [|discriminate E]. cbn in E. injection E as <-. cbn in Em. injection Em as <-.
  exists start, i, size. split; [easy|]. assert (forall sz j, sz <= id -> CalvinPartitioner.group_of id sz j sizes = Some (Some (start, i, size)) -> start <= id < start + size /\ 0 < size) as H.
  { clear Eg. induction sizes as [|n sizes IH]; cbn; intros sz j Hsz Eg; [discriminate Eg|]. destruct (Z.leb_spec n 0); [discriminate Eg|].
    destruct (Z.ltb_spec id (sz + n)); [injection Eg as <- <- <-; lia|]. eapply IH; [|exact Eg]. lia. }
  destruct (H 0 0 Hid Eg) as [H1 H2]. split; [exact H1|]. pose proof (Z.mod_pos_bound q size H2). lia.
Qed.
