(* ===== verification/Interleave.v ===== *)
(** * Programs whose steps are interleaved

    A transaction of an optimistic protocol is a long program that works on
    shared rows in atomic steps, each under the latch of one row, with steps of
    other transactions in between.  [prog] is such a program: a tree of atomic
    operations of the monad [M], with the choices that the network makes.  [sys]
    runs any number of them, one step at a time, and keeps the states that were
    passed and who left them.  Programs are inductive, so each ends after finitely many of its
    steps.

    [safe] is the proof method: what a program knows ([K]) is kept by the steps of
    the others, and each of its steps re-establishes the invariant [I].  [sound]
    says that then the invariant holds throughout, no step fails, and the
    programs that are done have their postconditions. *)

From S2P Require Import Prelude.

Inductive prog (S A : Type) : Type :=
| Done (a : A)
| Step (R : Type) (m : M S R) (k : R -> prog S A)
| Pick (n : nat) (k : nat -> prog S A).
Arguments Done {S A} a.
Arguments Step {S A R} m k.
Arguments Pick {S A} n k.

Fixpoint prog_bind {S A B} (f : A -> prog S B) (p : prog S A) : prog S B :=
  match p with
  | Done a => f a
  | Step m k => Step m (fun r => prog_bind f (k r))
  | Pick n k => Pick n (fun i => prog_bind f (k i))
  end.

(** A program with a state of its own. *)
Definition thread (S X A : Type) : Type := X -> prog S (A * X).

#[export] Instance thread_ret {S X} : MRet (thread S X) := fun A a x => Done (a, x).
#[export] Instance thread_bind {S X} : MBind (thread S X) := fun A B f t x =>
  prog_bind (fun ax => f ax.1 ax.2) (t x).

Section thread_ops.
Context {S X : Type}.

Definition atomic {R} (m : M S R) : thread S X R := fun x => Step m (fun r => Done (r, x)).
Definition local {R} (f : X -> R) : thread S X R := fun x => Done (f x, x).
Definition assign (f : X -> X) : thread S X unit := fun x => Done (tt, f x).
(** Any number below [n]. *)
Definition pick (n : nat) : thread S X nat := fun x => Pick n (fun i => Done (i, x)).
(** A [CHECK], and the dereference of a pointer, outside of an operation. *)
Definition must (b : bool) : thread S X unit := if b then mret tt else atomic abort.
Definition access {R} (f : X -> option R) : thread S X R := fun x =>
  match f x with Some r => Done (r, x) | None => Step fault (fun r => Done (r, x)) end.
Definition when (b : bool) (t : thread S X unit) : thread S X unit := if b then t else mret tt.

Fixpoint for_all {B} (f : B -> thread S X unit) (l : list B) : thread S X unit :=
  match l with [] => mret tt | b :: l => f b;; for_all f l end.
End thread_ops.

(** ** Many programs *)

Record sys (S A : Type) : Type := Sys { past : list (Z * S); now : S; threads : gmap Z (prog S A) }.
Arguments Sys {S A} past now threads.
Arguments past {S A} _.
Arguments now {S A} _.
Arguments threads {S A} _.

(** All states, and the steps between them. *)
Definition states {S A} (y : sys S A) : list S := now y :: (past y).*2.
Fixpoint moves {S} (h : list (Z * S)) (s : S) : list (Z * S * S) :=
  match h with [] => [] | (tid, s0) :: h => (tid, s0, s) :: moves h s0 end.

(** One step of the program [tid]; [i] is the choice, where it has one. *)
Definition advance {S A} (tid : Z) (i : nat) (y : sys S A) : option (sys S A) :=
  match threads y !! tid with
  | Some (Step m k) =>
      match m (now y) with
      | Ret r s => Some (Sys ((tid, now y) :: past y) s (<[tid := k r]> (threads y)))
      | _ => None
      end
  | Some (Pick n k) => if (i <? n)%nat then Some (Sys (past y) (now y) (<[tid := k i]> (threads y))) else None
  | _ => None
  end.

(** The states that can be reached through states that satisfy [ok]. *)
Inductive reachable {S A} (ok : S -> Prop) (y : sys S A) : sys S A -> Prop :=
| reach_here : reachable ok y y
| reach_step y1 y2 tid i : reachable ok y y1 -> ok (now y1) -> advance tid i y1 = Some y2 -> reachable ok y y2.

(** The run in which the programs take the given steps, through states that [ok]
    accepts. *)
Fixpoint schedule {S A} (ok : S -> bool) (steps : list (Z * nat)) (y : sys S A) : option (sys S A) :=
  match steps with
  | [] => Some y
  | (tid, i) :: steps => if ok (now y) then y1 ← advance tid i y; schedule ok steps y1 else None
  end.

Lemma schedule_reachable {S A} (ok : S -> Prop) okb steps (y0 y y' : sys S A) :
  (forall s, okb s = true -> ok s) -> reachable ok y0 y -> schedule okb steps y = Some y' -> reachable ok y0 y'.
Proof.
  intros Hok. revert y. induction steps as [|[tid i] steps IH]; cbn; intros y H E; [now injection E as <-|].
  destruct (okb (now y)) eqn:Eb; [|discriminate E]. destruct (advance tid i y) as [y1|] eqn:E1; [|discriminate E]. eapply IH; [|exact E]. eapply reach_step; eauto.
Qed.

(** ** Reasoning about one program among others *)

Section safe.
Context {S A L : Type} (ok : S -> Prop) (I : list (Z * S) -> S -> Prop) (K : Z -> L -> list (Z * S) -> S -> Prop).

Definition step_ok {R} (tid : Z) (l : L) (m : M S R) (Q : R -> L -> Prop) : Prop :=
  forall h s, ok s -> I h s -> K tid l h s ->
  exists r s' l', m s = Ret r s' /\ I ((tid, s) :: h) s' /\ K tid l' ((tid, s) :: h) s' /\
    (forall tid' l2, tid' <> tid -> K tid' l2 h s -> K tid' l2 ((tid, s) :: h) s') /\ Q r l'.

Fixpoint safe {B} (tid : Z) (p : prog S B) (l : L) (Q : B -> L -> Prop) : Prop :=
  match p with
  | Done b => Q b l
  | Step m k => step_ok tid l m (fun r l' => safe tid (k r) l' Q)
  | Pick n k => (0 < n)%nat /\ forall i, (i < n)%nat -> safe tid (k i) l Q
  end.

Lemma step_ok_mono {R} tid l (m : M S R) (Q Q' : R -> L -> Prop) :
  (forall r l', Q r l' -> Q' r l') -> step_ok tid l m Q -> step_ok tid l m Q'.
Proof. intros HQ H h s Hok HI HK. destruct (H h s Hok HI HK) as (r & s' & l' & H1 & H2 & H3 & H4 & H5). exists r, s', l'. eauto 10. Qed.

Lemma safe_mono {B} tid (p : prog S B) l (Q Q' : B -> L -> Prop) :
  (forall b l', Q b l' -> Q' b l') -> safe tid p l Q -> safe tid p l Q'.
Proof.
  revert l. induction p as [b|R m k IH|n k IH]; cbn; intros l HQ H; [now apply HQ| |].
  - eapply step_ok_mono; [|exact H]. intros r l' Hr. now apply IH.
  - destruct H as [Hn H]. split; [exact Hn|]. intros i Hi. apply IH; auto.
Qed.

Lemma safe_bind {B C} tid (f : B -> prog S C) (p : prog S B) l Q :
  safe tid p l (fun b l' => safe tid (f b) l' Q) -> safe tid (prog_bind f p) l Q.
Proof.
  revert l. induction p as [b|R m k IH|n k IH]; cbn; intros l H; [exact H| |].
  - eapply step_ok_mono; [|exact H]. intros r l'. apply IH.
  - destruct H as [Hn H]. split; [exact Hn|]. intros i Hi. apply IH; auto.
Qed.

Lemma safe_bind_inv {B C} tid (f : B -> prog S C) (p : prog S B) l Q :
  safe tid (prog_bind f p) l Q -> safe tid p l (fun b l' => safe tid (f b) l' Q).
Proof.
  revert l. induction p as [b|R m k IH|n k IH]; cbn; intros l H; [exact H| |].
  - eapply step_ok_mono; [|exact H]. intros r l'. apply IH.
  - destruct H as [Hn H]. split; [exact Hn|]. intros i Hi. apply IH; auto.
Qed.

(** The same for programs with a state. *)
Definition tsafe {X B} (tid : Z) (t : thread S X B) (x : X) (l : L) (Q : B -> X -> L -> Prop) : Prop :=
  safe tid (t x) l (fun bx l' => Q bx.1 bx.2 l').

Lemma tsafe_ret {X B} tid (b : B) (x : X) l (Q : B -> X -> L -> Prop) : Q b x l -> tsafe tid (mret b) x l Q.
Proof. exact id. Qed.

Lemma tsafe_mono {X B} tid (t : thread S X B) x l (Q Q' : B -> X -> L -> Prop) :
  tsafe tid t x l Q -> (forall b x' l', Q b x' l' -> Q' b x' l') -> tsafe tid t x l Q'.
Proof. intros H HQ. eapply safe_mono; [|exact H]. intros [b x'] l'. apply HQ. Qed.

Lemma tsafe_bind {X B C} tid (t : thread S X B) (f : B -> thread S X C) x l (Q : C -> X -> L -> Prop) :
  tsafe tid t x l (fun b x' l' => tsafe tid (f b) x' l' Q) -> tsafe tid (t ≫= f) x l Q.
Proof. apply safe_bind. Qed.

Lemma tsafe_bind_inv {X B C} tid (t : thread S X B) (f : B -> thread S X C) x l (Q : C -> X -> L -> Prop) :
  tsafe tid (t ≫= f) x l Q -> tsafe tid t x l (fun b x' l' => tsafe tid (f b) x' l' Q).
Proof. apply safe_bind_inv. Qed.

Lemma tsafe_local {X B} tid (f : X -> B) x l (Q : B -> X -> L -> Prop) : Q (f x) x l -> tsafe tid (local f) x l Q.
Proof. exact id. Qed.

Lemma tsafe_assign {X} tid (f : X -> X) x l (Q : unit -> X -> L -> Prop) : Q tt (f x) l -> tsafe tid (assign f) x l Q.
Proof. exact id. Qed.

Lemma tsafe_access {X B} tid (f : X -> option B) b x l (Q : B -> X -> L -> Prop) :
  f x = Some b -> Q b x l -> tsafe tid (access f) x l Q.
Proof. intros E H. unfold tsafe, access. now rewrite E. Qed.

Lemma tsafe_must {X} tid b x l (Q : unit -> X -> L -> Prop) : b = true -> Q tt x l -> tsafe tid (must b) x l Q.
Proof. intros -> H. exact H. Qed.

Lemma tsafe_pick {X} tid n x l (Q : nat -> X -> L -> Prop) :
  (0 < n)%nat -> (forall i, (i < n)%nat -> Q i x l) -> tsafe tid (pick n) x l Q.
Proof. easy. Qed.

Lemma tsafe_atomic {X R} tid (m : M S R) (x : X) l (Q : R -> X -> L -> Prop) :
  step_ok tid l m (fun r l' => Q r x l') -> tsafe tid (atomic m) x l Q.
Proof. exact id. Qed.

Lemma tsafe_for_all {X B} tid (f : B -> thread S X unit) (Inv : list B -> X -> L -> Prop) :
  (forall b bs x l, Inv (b :: bs) x l -> tsafe tid (f b) x l (fun _ x' l' => Inv bs x' l')) ->
  forall bs x l, Inv bs x l -> tsafe tid (for_all f bs) x l (fun _ x' l' => Inv [] x' l').
Proof.
  intros H. induction bs as [|b bs IH]; intros x l HI; cbn [for_all]; [exact HI|].
  apply tsafe_bind. eapply tsafe_mono; [eapply H, HI|]. intros ? x' l' HI'. now apply IH.
Qed.

(** ** All programs together *)

Definition all_safe (Q : Z -> A -> L -> Prop) (y : sys S A) : Prop :=
  I (past y) (now y) /\
  forall tid p, threads y !! tid = Some p -> exists l, K tid l (past y) (now y) /\ safe tid p l (Q tid).

Lemma all_safe_step Q tid i y y' : ok (now y) -> all_safe Q y -> advance tid i y = Some y' -> all_safe Q y'.
Proof.
  intros Hok [HI Ht] E. unfold advance in E. destruct (threads y !! tid) as [p|] eqn:Hp; [|discriminate E].
  destruct (Ht tid p Hp) as (l & HK & Hs). destruct p as [a|R m k|n k]; [discriminate E| |].
  - destruct (Hs _ _ Hok HI HK) as (r & s' & l' & Em & HI' & HK' & Hothers & Hs'). rewrite Em in E. injection E as <-.
    split; [exact HI'|]. cbn. intros tid2 p2 H2. destruct (decide (tid2 = tid)) as [->|Hne].
    + rewrite lookup_insert_eq in H2. injection H2 as <-. eauto.
    + rewrite lookup_insert_ne in H2 by congruence. destruct (Ht tid2 p2 H2) as (l2 & HK2 & Hs2). eauto.
  - destruct (Nat.ltb_spec i n) as [Hi|]; [|discriminate E]. injection E as <-. destruct Hs as [_ Hs].
    split; [exact HI|]. cbn. intros tid2 p2 H2. destruct (decide (tid2 = tid)) as [->|Hne].
    + rewrite lookup_insert_eq in H2. injection H2 as <-. eauto.
    + rewrite lookup_insert_ne in H2 by congruence. now apply Ht.
Qed.

(** Whatever the interleaving: the invariant holds, a program that is done has
    its postcondition, and one that is not can take its next step. *)
Theorem sound Q y y' : all_safe Q y -> reachable ok y y' ->
  I (past y') (now y') /\
  forall tid p, threads y' !! tid = Some p ->
    match p with
    | Done a => exists l, K tid l (past y') (now y') /\ Q tid a l
    | Step m k => ok (now y') -> is_Some (advance tid 0 y')
    | Pick n k => is_Some (advance tid 0 y')
    end.
Proof.
  intros H0 Hr. assert (all_safe Q y') as [HI Ht] by (induction Hr; eauto using all_safe_step).
  split; [exact HI|]. intros tid p Hp. destruct (Ht tid p Hp) as (l & HK & Hs).
  destruct p as [a|R m k|n k]; [now exists l| |].
  - intros Hok. destruct (Hs _ _ Hok HI HK) as (r & s' & l' & Em & _). unfold advance. rewrite Hp, Em. eauto.
  - destruct Hs as [Hn _]. unfold advance. rewrite Hp. destruct (Nat.ltb_spec 0 n); [eauto|lia].
Qed.
End safe.
