(* ===== verification/SundialRow.v ===== *)
(** * Sundial: rows with a lease, and the entries of a transaction

    protocol/Sundial/SundialHelper.h and SundialRWKey.h.  A version of a row is
    valid from its write timestamp [wts] on, and promised until its read timestamp
    [rts]: readers may rely on it up to there, writers must go beyond.  The state
    of [SundialHelper] is the rows of all tables; an operation works on one row,
    under its latch. *)

From S2P Require Import Prelude.

(** Table, partition and key of a row. *)
Abbreviation row_id := (Z * Z * Z)%type.

Module SundialRWKey.

Inductive scan_type := SCAN_FOR_READ | SCAN_FOR_UPDATE | SCAN_FOR_INSERT | SCAN_FOR_DELETE.

Record SundialRWKey := MkKey {
  bitvec : Z;
  tid : Z;
  key : option Z;
  value : option Z;
  rts : Z;
  wts : Z;
  read_set_pos : Z;
  min_key : option Z;
  max_key : option Z;
  limit : Z;
  scan_results : option Z;
  type : scan_type;
  processed : bool
}.

Definition fresh_key : SundialRWKey := MkKey 0 0 None None 0 0 (-1) None None 0 None SCAN_FOR_READ false.

Definition TABLE_ID_MASK : Z := 0x1f.
Definition TABLE_ID_OFFSET : Z := 51.
Definition PARTITION_ID_MASK : Z := 0xffffffff.
Definition PARTITION_ID_OFFSET : Z := 19.
Definition WRITE_LOCK_BIT_MASK : Z := 0x1.
Definition WRITE_LOCK_BIT_OFFSET : Z := 3.
Definition WRITE_REQUEST_BIT_MASK : Z := 0x1.
Definition WRITE_REQUEST_BIT_OFFSET : Z := 2.
Definition READ_REQUEST_BIT_MASK : Z := 0x1.
Definition READ_REQUEST_BIT_OFFSET : Z := 1.
Definition LOCAL_INDEX_READ_BIT_MASK : Z := 0x1.
Definition LOCAL_INDEX_READ_BIT_OFFSET : Z := 0.

Definition set_bitvec (b : Z) (k : SundialRWKey) : SundialRWKey :=
  MkKey b (tid k) (key k) (value k) (rts k) (wts k) (read_set_pos k) (min_key k) (max_key k) (limit k) (scan_results k) (type k) (processed k).

(** [bitvec &= ~(mask << offset)], [bitvec |= v << offset] after that, and
    [(bitvec >> offset) & mask]. *)
Definition clear_field (mask off : Z) (k : SundialRWKey) : SundialRWKey :=
  set_bitvec (Z.land (bitvec k) (not64 (Z.shiftl mask off))) k.
Definition set_field (mask off v : Z) (k : SundialRWKey) : SundialRWKey :=
  let k := clear_field mask off k in set_bitvec (Z.lor (bitvec k) (wrap 64 (Z.shiftl v off))) k.
Definition get_field (mask off : Z) (k : SundialRWKey) : Z := Z.land (Z.shiftr (bitvec k) off) mask.

Definition clear_local_index_read_bit := clear_field LOCAL_INDEX_READ_BIT_MASK LOCAL_INDEX_READ_BIT_OFFSET.
Definition set_local_index_read_bit := set_field LOCAL_INDEX_READ_BIT_MASK LOCAL_INDEX_READ_BIT_OFFSET LOCAL_INDEX_READ_BIT_MASK.
Definition get_local_index_read_bit := get_field LOCAL_INDEX_READ_BIT_MASK LOCAL_INDEX_READ_BIT_OFFSET.
Definition clear_read_request_bit := clear_field READ_REQUEST_BIT_MASK READ_REQUEST_BIT_OFFSET.
Definition set_read_request_bit := set_field READ_REQUEST_BIT_MASK READ_REQUEST_BIT_OFFSET READ_REQUEST_BIT_MASK.
Definition get_read_request_bit := get_field READ_REQUEST_BIT_MASK READ_REQUEST_BIT_OFFSET.
Definition clear_write_request_bit := clear_field WRITE_REQUEST_BIT_MASK WRITE_REQUEST_BIT_OFFSET.
Definition set_write_request_bit := set_field WRITE_REQUEST_BIT_MASK WRITE_REQUEST_BIT_OFFSET WRITE_REQUEST_BIT_MASK.
Definition get_write_request_bit := get_field WRITE_REQUEST_BIT_MASK WRITE_REQUEST_BIT_OFFSET.
Definition clear_write_lock_bit := clear_field WRITE_LOCK_BIT_MASK WRITE_LOCK_BIT_OFFSET.
Definition set_write_lock_bit := set_field WRITE_LOCK_BIT_MASK WRITE_LOCK_BIT_OFFSET WRITE_LOCK_BIT_MASK.
Definition get_write_lock_bit (k : SundialRWKey) : bool := negb (get_field WRITE_LOCK_BIT_MASK WRITE_LOCK_BIT_OFFSET k =? 0).
Definition clear_table_id := clear_field TABLE_ID_MASK TABLE_ID_OFFSET.
Definition set_table_id (table_id : Z) := set_field TABLE_ID_MASK TABLE_ID_OFFSET table_id.
Definition get_table_id := get_field TABLE_ID_MASK TABLE_ID_OFFSET.
Definition clear_partition_id := clear_field PARTITION_ID_MASK PARTITION_ID_OFFSET.
Definition set_partition_id (partition_id : Z) := set_field PARTITION_ID_MASK PARTITION_ID_OFFSET partition_id.
Definition get_partition_id := get_field PARTITION_ID_MASK PARTITION_ID_OFFSET.

Definition get_tid (k : SundialRWKey) : Z := tid k.
Definition set_tid (t : Z) (k : SundialRWKey) : SundialRWKey :=
  MkKey (bitvec k) t (key k) (value k) (rts k) (wts k) (read_set_pos k) (min_key k) (max_key k) (limit k) (scan_results k) (type k) (processed k).
Definition get_key (k : SundialRWKey) : option Z := key k.
Definition set_key (p : option Z) (k : SundialRWKey) : SundialRWKey :=
  MkKey (bitvec k) (tid k) p (value k) (rts k) (wts k) (read_set_pos k) (min_key k) (max_key k) (limit k) (scan_results k) (type k) (processed k).
Definition get_value (k : SundialRWKey) : option Z := value k.
Definition set_value (p : option Z) (k : SundialRWKey) : SundialRWKey :=
  MkKey (bitvec k) (tid k) (key k) p (rts k) (wts k) (read_set_pos k) (min_key k) (max_key k) (limit k) (scan_results k) (type k) (processed k).
Definition get_rts (k : SundialRWKey) : Z := rts k.
Definition set_rts (t : Z) (k : SundialRWKey) : SundialRWKey :=
  MkKey (bitvec k) (tid k) (key k) (value k) t (wts k) (read_set_pos k) (min_key k) (max_key k) (limit k) (scan_results k) (type k) (processed k).
Definition get_wts (k : SundialRWKey) : Z := wts k.
Definition set_wts (t : Z) (k : SundialRWKey) : SundialRWKey :=
  MkKey (bitvec k) (tid k) (key k) (value k) (rts k) t (read_set_pos k) (min_key k) (max_key k) (limit k) (scan_results k) (type k) (processed k).
Definition get_read_set_pos (k : SundialRWKey) : Z := read_set_pos k.
Definition set_read_set_pos (pos : Z) (k : SundialRWKey) : SundialRWKey :=
  MkKey (bitvec k) (tid k) (key k) (value k) (rts k) (wts k) pos (min_key k) (max_key k) (limit k) (scan_results k) (type k) (processed k).
Definition get_scan_min_key (k : SundialRWKey) : option Z := min_key k.
Definition get_scan_max_key (k : SundialRWKey) : option Z := max_key k.
Definition get_scan_limit (k : SundialRWKey) : Z := limit k.
Definition get_scan_res_vec (k : SundialRWKey) : option Z := scan_results k.
Definition get_request_type (k : SundialRWKey) : scan_type := type k.
Definition set_scan_args (mn mx : option Z) (lim : Z) (res : option Z) (ty : scan_type) (k : SundialRWKey) : SundialRWKey :=
  MkKey (bitvec k) (tid k) (key k) (value k) (rts k) (wts k) (read_set_pos k) mn mx lim res ty (processed k).
Definition get_processed (k : SundialRWKey) : bool := processed k.
Definition set_processed (k : SundialRWKey) : SundialRWKey :=
  MkKey (bitvec k) (tid k) (key k) (value k) (rts k) (wts k) (read_set_pos k) (min_key k) (max_key k) (limit k) (scan_results k) (type k) true.
End SundialRWKey.

Module SundialHelper.

Record SundialMetadata := MkMeta { latch : bool; wts : Z; rts : Z; owner : Z; is_valid : bool }.

(** The metadata word of a row is a pointer, null until it is installed. *)
Record row := Row { meta : option SundialMetadata; data : bytes }.

Abbreviation db := (gmap row_id row).

Definition SundialMetadataInit (is_tuple_valid : bool) : SundialMetadata := MkMeta false 0 0 0 is_tuple_valid.

Section helper.
Context (k : row_id).

Definition get_row : M db row := deref (fun d => d !! k).
Definition put_meta (m : SundialMetadata) : M db unit := modify (alter (fun r => Row (Some m) (data r)) k).
Definition put_data (b : bytes) : M db unit := modify (alter (fun r => Row (meta r) b) k).

Definition get_or_install_meta : M db SundialMetadata :=
  r ← get_row;
  match meta r with
  | Some m => mret m
  | None => put_meta (SundialMetadataInit true);; mret (SundialMetadataInit true)
  end.

(** The metadata behind the pointer. *)
Definition get_meta : M db SundialMetadata := r ← get_row; deref (fun _ => meta r).

Definition lock : M db unit :=
  m ← get_meta;
  if latch m then spin else put_meta (MkMeta true (wts m) (rts m) (owner m) (is_valid m)).
Definition unlatch : M db unit :=
  m ← get_meta;
  put_meta (MkMeta false (wts m) (rts m) (owner m) (is_valid m)).
Definition set_owner (tid : Z) : M db unit := m ← get_meta; put_meta (MkMeta (latch m) (wts m) (rts m) tid (is_valid m)).
Definition set_rts (t : Z) : M db unit := m ← get_meta; put_meta (MkMeta (latch m) (wts m) t (owner m) (is_valid m)).
Definition set_wts_rts (t : Z) : M db unit := m ← get_meta; put_meta (MkMeta (latch m) t t (owner m) (is_valid m)).
Definition set_valid : M db unit := m ← get_meta; put_meta (MkMeta (latch m) (wts m) (rts m) (owner m) true).

Definition read (dest : bytes) (size : nat) : M db (Z * Z * bytes) :=
  get_or_install_meta;;
  lock;;
  m ← get_meta;
  r ← get_row;
  unlatch;;
  mret (wts m, rts m, memcpy dest (data r) size).

(** The second result is the pair that the out-parameter gets. *)
Definition write_lock (transaction_id : Z) : M db (bool * (Z * Z)) :=
  get_or_install_meta;;
  lock;;
  m ← get_meta;
  if negb (is_valid m) then unlatch;; mret (false, (0, 0))
  else if (owner m =? 0) || (owner m =? transaction_id)
  then set_owner transaction_id;; unlatch;; mret (true, (wts m, rts m))
  else unlatch;; mret (false, (wts m, rts m)).

Definition renew_lease (t commit_ts : Z) : M db bool :=
  get_or_install_meta;;
  lock;;
  m ← get_meta;
  if negb (is_valid m) then unlatch;; mret false
  else if negb (t =? wts m) || ((rts m <? commit_ts) && negb (owner m =? 0)) then unlatch;; mret false
  else set_rts (Z.max (rts m) commit_ts);; unlatch;; mret true.

Definition replica_update (value : bytes) (value_size : nat) (commit_ts : Z) : M db unit := abort.

Definition update (value : bytes) (value_size : nat) (commit_ts transaction_id : Z) : M db unit :=
  get_or_install_meta;;
  lock;;
  m ← get_meta;
  CHECK (is_valid m);;
  CHECK (owner m =? transaction_id);;
  r ← get_row;
  put_data (memcpy (data r) value value_size);;
  set_wts_rts commit_ts;;
  unlatch.

Definition update_unlock (value : bytes) (value_size : nat) (commit_ts transaction_id : Z) : M db unit :=
  get_or_install_meta;;
  lock;;
  m ← get_meta;
  CHECK (is_valid m);;
  CHECK (owner m =? transaction_id);;
  r ← get_row;
  put_data (memcpy (data r) value value_size);;
  set_wts_rts commit_ts;;
  set_owner 0;;
  unlatch.

Definition unlock (transaction_id : Z) : M db unit :=
  get_or_install_meta;;
  lock;;
  m ← get_meta;
  CHECK (is_valid m);;
  CHECK (owner m =? transaction_id);;
  set_owner 0;;
  unlatch.

Definition mark_tuple_as_valid : M db unit :=
  lock;;
  m ← get_meta;
  CHECK (negb (is_valid m));;
  set_valid;;
  unlatch.
End helper.

(** [ITable::insert] of a placeholder and [ITable::remove]. *)
Definition table_insert (k : row_id) (value : bytes) (is_placeholder : bool) : M db bool :=
  found ← gets (fun d => d !! k);
  match found with
  | Some _ => mret false
  | None => modify (insert k (Row (Some (SundialMetadataInit (negb is_placeholder))) value));; mret true
  end.
Definition table_remove (k : row_id) : M db bool :=
  found ← gets (fun d => d !! k);
  match found with
  | Some _ => modify (delete k);; mret true
  | None => abort
  end.
End SundialHelper.
