(* ===== verification/SundialSpec.v ===== *)
(** * Sundial: every committed transaction reads and writes at its timestamp

    The operations of [SundialHelper] keep the history of each row in order: a
    version that follows another one begins after the lease of that one.  On top
    of this, whatever the interleaving, a transaction that commits has read the
    versions that are current at its commit timestamp and has written its own
    versions there; one that aborts has written nothing; and no lock is left. *)

From S2P Require Import Prelude Interleave SundialRow.
Import SundialRow.SundialHelper.

(** A valid row whose latch is free. *)
Definition row_at (s : db) (k : row_id) (w r o : Z) (b : bytes) : Prop := s !! k = Some (Row (Some (MkMeta false w r o true)) b).

Lemma row_at_inj s k w r o b w' r' o' b' : row_at s k w r o b -> row_at s k w' r' o' b' -> w = w' /\ r = r' /\ o = o' /\ b = b'.
Proof. unfold row_at. intros -> [=]. easy. Qed.

(** ** What each operation does to the row *)

Section operations.
Context (s : db) (k : row_id) (w r o : Z) (b : bytes) (Hk : row_at s k w r o b).

Definition put_row (w r o : Z) (b : bytes) : db := <[k := Row (Some (MkMeta false w r o true)) b]> s.

Lemma put_row_at w' r' o' b' : row_at (put_row w' r' o' b') k w' r' o' b'.
Proof. apply lookup_insert_eq. Qed.

Lemma put_row_id : put_row w r o b = s.
Proof. apply insert_id, Hk. Qed.

Ltac op := unfold read, write_lock, renew_lease, update, unlock, get_or_install_meta, lock, unlatch, set_owner, set_rts, set_wts_rts, get_meta, put_meta, put_data, get_row; mrun;
  rewrite ?Hk; cbn; unfold row_at in Hk;
  repeat (first [rewrite lookup_alter_eq | rewrite Hk]; cbn).
Ltac same_state := unfold put_row; f_equal; rewrite ?(insert_id _ _ _ Hk); apply map_eq; intros j; destruct (decide (j = k)) as [->|];
  repeat first [rewrite lookup_alter_eq | rewrite lookup_alter_ne by congruence | rewrite lookup_insert_eq | rewrite lookup_insert_ne by congruence | rewrite Hk]; reflexivity.

Lemma read_run dest size : read k dest size s = Ret (w, r, memcpy dest b size) (put_row w r o b).
Proof. op. same_state. Qed.

Lemma write_lock_run tid : write_lock k tid s =
  if (o =? 0) || (o =? tid) then Ret (true, (w, r)) (put_row w r tid b) else Ret (false, (w, r)) (put_row w r o b).
Proof. op. destruct ((o =? 0) || (o =? tid)); cbn; repeat (first [rewrite lookup_alter_eq | rewrite Hk]; cbn); same_state. Qed.

Lemma renew_run t ts : renew_lease k t ts s =
  if negb (t =? w) || ((r <? ts) && negb (o =? 0)) then Ret false (put_row w r o b) else Ret true (put_row w (Z.max r ts) o b).
Proof. op. destruct (negb (t =? w) || _); cbn; repeat (first [rewrite lookup_alter_eq | rewrite Hk]; cbn); same_state. Qed.

Lemma update_run v size ts : update k v size ts o s = Ret tt (put_row ts ts o (memcpy b v size)).
Proof. op. rewrite Z.eqb_refl. cbn. repeat (first [rewrite lookup_alter_eq | rewrite Hk]; cbn). same_state. Qed.

Lemma unlock_run : unlock k o s = Ret tt (put_row w r 0 b).
Proof. op. rewrite Z.eqb_refl. cbn. repeat (first [rewrite lookup_alter_eq | rewrite Hk]; cbn). same_state. Qed.
End operations.

(** ** The history of the rows *)

Section history.
(** The size of a value, by table, and the rows, which neither come nor go. *)
Context (size : Z -> nat) (rows : gset row_id).

(** All rows are valid and unlatched. *)
Definition good (s : db) : Prop := dom s = rows /\ forall k, k ∈ rows ->
  exists w r o b, row_at s k w r o b /\ 0 <= w <= r /\ length b = size k.1.1.

(** [s] is a later state than [s0]: versions and leases have only moved on, and a
    new version begins after the lease of the one before. *)
Definition after (s0 s : db) : Prop := forall k w0 r0 o0 b0, row_at s0 k w0 r0 o0 b0 -> exists w r o b, row_at s k w r o b /\
    w0 <= w /\ r0 <= r /\ (w0 = w -> b0 = b) /\ (w0 < w -> r0 < w).

Lemma after_refl s : after s s.
Proof. intros k w r o b H. exists w, r, o, b. repeat split; easy || lia. Qed.

Lemma after_trans s0 s1 s2 : after s0 s1 -> after s1 s2 -> after s0 s2.
Proof.
  intros H1 H2 k w0 r0 o0 b0 H. destruct (H1 _ _ _ _ _ H) as (w1 & r1 & o1 & b1 & Hr1 & ? & ? & Hs1 & Hl1).
  destruct (H2 _ _ _ _ _ Hr1) as (w2 & r2 & o2 & b2 & Hr2 & ? & ? & Hs2 & Hl2).
  exists w2, r2, o2, b2. split_and!; [exact Hr2|lia|lia| |].
  - intros ->. rewrite Hs1 by lia. apply Hs2. lia.
  - intros. destruct (decide (w0 = w1)) as [->|]; [specialize (Hl2 ltac:(lia)); lia|specialize (Hl1 ltac:(lia)); lia].
Qed.

Fixpoint chain (h : list (Z * db)) (s : db) : Prop :=
  match h with [] => True | (_, s0) :: h => good s0 /\ after s0 s /\ chain h s0 end.

Definition inv (h : list (Z * db)) (s : db) : Prop := good s /\ chain h s.

(** The states, the last first. *)
Definition all (h : list (Z * db)) (s : db) : list db := s :: h.*2.

Lemma chain_after h s d : chain h s -> d ∈ h.*2 -> after d s /\ good d.
Proof.
  revert s. induction h as [|[tid s0] h IH]; cbn; intros s Hc Hd; [now apply elem_of_nil in Hd|].
  destruct Hc as (Hg & Ha & Hc). apply elem_of_cons in Hd as [->|Hd]; [easy|].
  destruct (IH s0 Hc Hd). eauto using after_trans.
Qed.

(** Of two states, one is later. *)
Lemma all_related h s d1 d2 : inv h s -> d1 ∈ all h s -> d2 ∈ all h s -> after d1 d2 \/ after d2 d1.
Proof.
  intros [_ Hc]. revert s Hc. induction h as [|[tid s0] h IH]; intros s Hc H1 H2.
  - apply list_elem_of_singleton in H1 as ->, H2 as ->. left. apply after_refl.
  - pose proof Hc as (Hg & Ha & Hc'). unfold all in H1, H2. apply elem_of_cons in H1 as [->|H1], H2 as [H2'|H2].
    + subst. left. apply after_refl.
    + right. now apply (chain_after _ _ _ Hc).
    + subst. left. now apply (chain_after _ _ _ Hc).
    + now apply (IH s0).
Qed.

(** [v] is the latest version of the row not after [ts], in all of the history. *)
Definition latest_at (ds : list db) (k : row_id) (ts : Z) (v : bytes) : Prop :=
  exists w, (exists d r o, d ∈ ds /\ row_at d k w r o v) /\ w <= ts /\
    forall d w' r' o' v', d ∈ ds -> row_at d k w' r' o' v' -> w' <= ts -> w' <= w /\ (w' = w -> v' = v).

(** A version that was seen with the lease [r] is the latest one up to [r]. *)
Lemma lease_latest h s d k w r o v ts :
  inv h s -> d ∈ all h s -> row_at d k w r o v -> w <= ts <= r -> latest_at (all h s) k ts v.
Proof.
  intros Hi Hd Hr Hts. exists w. split; [eauto|]. split; [lia|]. intros d' w' r' o' v' Hd' Hr' Hw'.
  destruct (all_related _ _ _ _ Hi Hd Hd') as [Ha|Ha].
  - destruct (Ha _ _ _ _ _ Hr) as (w2 & r2 & o2 & b2 & Hr2 & ? & ? & Hs & Hl).
    destruct (row_at_inj _ _ _ _ _ _ _ _ _ _ Hr' Hr2) as (-> & -> & -> & ->).
    destruct (decide (w2 = w)) as [->|]; [split; [lia|]; intros; symmetry; now apply Hs|].
    specialize (Hl ltac:(lia)). lia.
  - destruct (Ha _ _ _ _ _ Hr') as (w2 & r2 & o2 & b2 & Hr2 & ? & ? & Hs & Hl).
    destruct (row_at_inj _ _ _ _ _ _ _ _ _ _ Hr Hr2) as (-> & -> & -> & ->). split; [lia|exact Hs].
Qed.

(** A version that was replaced at [ts] is the latest one before [ts]. *)
Lemma replaced_latest h s d d' k w r o v ts r' o' v' :
  inv h s -> d ∈ all h s -> d' ∈ all h s -> after d d' -> row_at d k w r o v -> row_at d' k ts r' o' v' -> w < ts ->
  (forall d2, d2 ∈ all h s -> after d2 d \/ after d' d2) ->
  latest_at (all h s) k (ts - 1) v.
Proof.
  intros Hi Hd Hd' Ha Hr Hr' Hlt Hb. exists w. split; [eauto|]. split; [lia|]. intros d2 w2 r2 o2 v2 H2 Hr2 Hw2.
  destruct (Hb d2 H2) as [Ha2|Ha2].
  - destruct (Ha2 _ _ _ _ _ Hr2) as (w3 & r3 & o3 & b3 & Hr3 & ? & ? & Hs & _).
    destruct (row_at_inj _ _ _ _ _ _ _ _ _ _ Hr Hr3) as (-> & -> & -> & ->). split; [lia|exact Hs].
  - destruct (Ha2 _ _ _ _ _ Hr') as (w3 & r3 & o3 & b3 & Hr3 & ? & _).
    destruct (row_at_inj _ _ _ _ _ _ _ _ _ _ Hr2 Hr3) as (-> & -> & -> & ->). lia.
Qed.

(** A step of the run splits the history. *)
Lemma move_splits h s tid d d' d2 : inv h s -> (tid, d, d') ∈ moves h s -> d2 ∈ all h s ->
  d ∈ all h s /\ d' ∈ all h s /\ after d d' /\ (after d2 d \/ after d' d2).
Proof.
  intros [Hg Hc]. revert s d2 Hg Hc. induction h as [|[t0 s0] h IH]; intros s d2 Hg Hc Hm H2; cbn in Hm; [now apply elem_of_nil in Hm|].
  pose proof Hc as (Hg0 & Ha0 & Hc'). apply elem_of_cons in Hm as [[= -> -> ->]|Hm].
  - split; [right; left|]. split; [left|]. split; [exact Ha0|]. apply elem_of_cons in H2 as [->|H2]; [right; apply after_refl|].
    left. cbn in H2. apply elem_of_cons in H2 as [->|H2]; [apply after_refl|]. now apply (chain_after _ _ _ Hc').
  - apply elem_of_cons in H2 as [->|H2].
    + destruct (IH s0 s0 Hg0 Hc' Hm (list_elem_of_here _ _)) as (H1 & H1' & Ha & _).
      split; [now right|]. split; [now right|]. split; [exact Ha|]. right.
      apply elem_of_cons in H1' as [->|H1']; [exact Ha0|]. eapply (chain_after ((t0, s0) :: h)); [exact Hc|]. now right.
    + destruct (IH s0 d2 Hg0 Hc' Hm H2) as (H1 & H1' & Ha & Hb). split; [now right|]. split; [now right|]. easy.
Qed.

(** ** What a transaction knows *)

Definition version (s : db) (k : row_id) : option (Z * bytes) := r ← s !! k; m ← meta r; Some (wts m, data r).

Lemma version_at s k w r o b : row_at s k w r o b -> version s k = Some (w, b).
Proof. unfold row_at, version. now intros ->. Qed.

Record know := Know {
  (** the rows it has locked *)
  owned : gmap row_id (Z * Z * bytes);
  (** versions it has seen, and until when they are promised *)
  leases : list (row_id * Z * Z * bytes);
  (** the versions it has replaced, and by what *)
  wrote : gmap row_id (Z * bytes * Z * bytes)
}.

Record knows (tid : Z) (l : know) (h : list (Z * db)) (s : db) : Prop := Knows {
  k_id : tid <> 0;
  k_owned : forall k w r b, owned l !! k = Some (w, r, b) -> row_at s k w r tid b;
  k_all : forall k w r b, row_at s k w r tid b -> is_Some (owned l !! k);
  k_leases : forall k w r b, (k, w, r, b) ∈ leases l -> exists d r' o, d ∈ all h s /\ row_at d k w r' o b /\ r <= r';
  k_moves : forall d d' k, (tid, d, d') ∈ moves h s -> version d' k = version d k \/
    exists w b w' b', wrote l !! k = Some (w, b, w', b') /\ version d' k = Some (w', b');
  k_wrote : forall k w b w' b', wrote l !! k = Some (w, b, w', b') ->
    w < w' /\ exists d d' r o r' o', (tid, d, d') ∈ moves h s /\ row_at d k w r o b /\ row_at d' k w' r' o' b'
}.

(** A step that changes nothing. *)
Lemma knows_idle tid tid' l h s : knows tid l h s -> knows tid l ((tid', s) :: h) s.
Proof.
  intros [H0 H1 H2 H3 H4 H5]. split; try assumption.
  - intros k w r b Hk. destruct (H3 _ _ _ _ Hk) as (d & r' & o & Hd & Hrest). exists d, r', o. split; [|exact Hrest]. now right.
  - intros d d' k Hm. cbn in Hm. apply elem_of_cons in Hm as [[= -> -> ->]|Hm]; [now left|]. now apply H4.
  - intros k w b w' b' Hk. destruct (H5 _ _ _ _ _ Hk) as (Hlt & d & d' & r & o & r' & o' & Hm & Hrest).
    split; [exact Hlt|]. exists d, d', r, o, r', o'. split; [|exact Hrest]. cbn. now right.
Qed.

Section step.
Context (tid : Z) (h : list (Z * db)) (s : db) (Hinv : inv h s).
Context (k : row_id) (w r o : Z) (b : bytes) (Hk : row_at s k w r o b).
Context (w' r' o' : Z) (b' : bytes).

Lemma put_row_other j : j <> k -> put_row s k w' r' o' b' !! j = s !! j.
Proof. intros. apply lookup_insert_ne. congruence. Qed.

Lemma row_known : k ∈ rows /\ 0 <= w <= r /\ length b = size k.1.1.
Proof.
  destruct Hinv as [[Hd Hg] _]. assert (k ∈ rows) as Hr by (rewrite <- Hd; apply elem_of_dom; rewrite Hk; eauto).
  split; [exact Hr|]. destruct (Hg k Hr) as (w2 & r2 & o2 & b2 & H2 & ? & ?).
  destruct (row_at_inj _ _ _ _ _ _ _ _ _ _ Hk H2) as (-> & -> & -> & ->). easy.
Qed.

Context (Hw : w <= w') (Hr : r <= r') (Hwr : w' <= r') (Hb' : length b' = size k.1.1).
Context (Hsame : w = w' -> b = b') (Hnew : w < w' -> r < w').

Lemma row_step_inv : inv ((tid, s) :: h) (put_row s k w' r' o' b').
Proof.
  destruct row_known as (Hrows & ? & ?). destruct Hinv as [Hgs Hc]. pose proof Hgs as [Hd Hg]. split; [split|].
  - unfold put_row. rewrite dom_insert_L, Hd. set_solver.
  - intros j Hj. destruct (decide (j = k)) as [->|Hne].
    + exists w', r', o', b'. split; [apply put_row_at|]. split; [lia|exact Hb'].
    + destruct (Hg j Hj) as (w2 & r2 & o2 & b2 & H2 & ?). exists w2, r2, o2, b2. split; [|easy]. unfold row_at. now rewrite put_row_other.
  - cbn. split; [easy|]. split; [|exact Hc]. intros j w2 r2 o2 b2 H2. destruct (decide (j = k)) as [->|Hne].
    + destruct (row_at_inj _ _ _ _ _ _ _ _ _ _ Hk H2) as (<- & <- & <- & <-). exists w', r', o', b'. split; [apply put_row_at|]. easy.
    + exists w2, r2, o2, b2. split; [unfold row_at; now rewrite put_row_other|]. repeat split; easy || lia.
Qed.

(** What another transaction knows stays true, unless the row is its own. *)
Lemma step_others tid' l : tid' <> tid ->
  (o = tid' -> (w', r', o', b') = (w, r, o, b)) -> (o' = tid' -> o = tid') ->
  knows tid' l h s -> knows tid' l ((tid, s) :: h) (put_row s k w' r' o' b').
Proof.
  intros Hne Ho Ho' [H0 H1 H2 H3 H4 H5]. split; [exact H0|..].
  - intros j w2 r2 b2 Hj. specialize (H1 _ _ _ _ Hj). destruct (decide (j = k)) as [->|]; [|unfold row_at; now rewrite put_row_other].
    destruct (row_at_inj _ _ _ _ _ _ _ _ _ _ Hk H1) as (-> & -> & -> & ->). injection (Ho eq_refl) as -> -> -> ->. apply put_row_at.
  - intros j w2 r2 b2 Hj. destruct (decide (j = k)) as [->|].
    + destruct (row_at_inj _ _ _ _ _ _ _ _ _ _ (put_row_at s k w' r' o' b') Hj) as (_ & _ & E & _).
      eapply H2. rewrite <- (Ho' E). exact Hk.
    + unfold row_at in Hj. rewrite put_row_other in Hj by easy. eapply H2, Hj.
  - intros j w2 r2 b2 Hj. destruct (H3 _ _ _ _ Hj) as (d & r3 & o3 & Hd & Hrest). exists d, r3, o3. split; [|exact Hrest]. now right.
  - intros d d' j Hm. cbn in Hm. apply elem_of_cons in Hm as [[= -> -> ->]|Hm]; [congruence|]. now apply H4.
  - intros j w2 b2 w3 b3 Hj. destruct (H5 _ _ _ _ _ Hj) as (Hlt & d & d' & r2 & o2 & r3 & o3 & Hm & Hrest).
    split; [exact Hlt|]. exists d, d', r2, o2, r3, o3. split; [|exact Hrest]. cbn. now right.
Qed.

(** What the transaction knows after its own step. *)
Lemma step_own l extra wr :
  knows tid l h s -> (o <> tid -> o' = tid -> o = 0) ->
  (forall x, x ∈ extra -> exists r2, x = (k, w', r2, b') /\ r2 <= r') ->
  (wr = wrote l /\ w' = w \/ wr = <[k := (w, b, w', b')]> (wrote l) /\ wrote l !! k = None /\ w < w') ->
  knows tid (Know (if o' =? tid then <[k := (w', r', b')]> (owned l) else delete k (owned l)) (leases l ++ extra) wr)
    ((tid, s) :: h) (put_row s k w' r' o' b').
Proof.
  intros [H0 H1 H2 H3 H4 H5] Ho He Hwr'. split; [exact H0|..]; cbn [owned leases wrote].
  - intros j w2 r2 b2 Hj. destruct (decide (j = k)) as [->|Hne].
    + destruct (Z.eqb_spec o' tid) as [->|]; [rewrite lookup_insert_eq in Hj; injection Hj as <- <- <-; apply put_row_at|].
      now rewrite lookup_delete_eq in Hj.
    + unfold row_at. rewrite put_row_other by easy. apply H1. destruct (o' =? tid); [now rewrite lookup_insert_ne in Hj|now rewrite lookup_delete_ne in Hj].
  - intros j w2 r2 b2 Hj. destruct (decide (j = k)) as [->|Hne].
    + destruct (row_at_inj _ _ _ _ _ _ _ _ _ _ (put_row_at s k w' r' o' b') Hj) as (_ & _ & -> & _). rewrite Z.eqb_refl, lookup_insert_eq. eauto.
    + unfold row_at in Hj. rewrite put_row_other in Hj by easy. destruct (H2 _ _ _ _ Hj) as [x Hx]. exists x.
      destruct (o' =? tid); [now rewrite lookup_insert_ne|now rewrite lookup_delete_ne].
  - intros j w2 r2 b2 Hj. apply elem_of_app in Hj as [Hj|Hj].
    + destruct (H3 _ _ _ _ Hj) as (d & r3 & o3 & Hd & Hrest). exists d, r3, o3. split; [|exact Hrest]. now right.
    + destruct (He _ Hj) as (r3 & [= -> -> -> ->] & ?). exists (put_row s k w' r' o' b'), r', o'. split; [left|]. split; [apply put_row_at|easy].
  - intros d d' j Hm. cbn in Hm. apply elem_of_cons in Hm as [[= -> ->]|Hm].
    + destruct (decide (j = k)) as [->|Hne]; [|left; unfold version; now rewrite put_row_other].
      rewrite (version_at _ _ _ _ _ _ (put_row_at s k w' r' o' b')), (version_at _ _ _ _ _ _ Hk).
      destruct Hwr' as [[-> ->]|(-> & Hnone & Hlt)]; [left; now rewrite Hsame|]. right. exists w, b, w', b'. now rewrite lookup_insert_eq.
    + destruct (H4 _ _ j Hm) as [?|(w2 & b2 & w3 & b3 & Hj & ?)]; [now left|]. right. exists w2, b2, w3, b3. split; [|easy].
      destruct Hwr' as [[-> _]|(-> & Hnone & _)]; [exact Hj|]. rewrite lookup_insert_ne; congruence.
  - intros j w2 b2 w3 b3 Hj. destruct Hwr' as [[-> _]|(-> & Hnone & Hlt)]; [|destruct (decide (j = k)) as [->|Hne]].
    2: { rewrite lookup_insert_eq in Hj. injection Hj as <- <- <- <-. split; [exact Hlt|]. exists s, (put_row s k w' r' o' b'), r, o, r', o'.
         split; [left|]. split; [exact Hk|apply put_row_at]. }
    2: rewrite lookup_insert_ne in Hj by congruence.
    all: destruct (H5 _ _ _ _ _ Hj) as (Hlt2 & d & d' & r2 & o2 & r3 & o3 & Hm & Hrest);
      split; [exact Hlt2|]; exists d, d', r2, o2, r3, o3; split; [cbn; now right|exact Hrest].
Qed.
End step.

(** ** The operations as steps *)

(** The timestamps have not run over. *)
Definition bounded (s : db) : Prop := forall k w r o b, row_at s k w r o b -> r < 2 ^ 64 - 1.

Definition add_lease (k : row_id) (w r : Z) (b : bytes) (l : know) : know := Know (owned l) (leases l ++ [(k, w, r, b)]) (wrote l).
Definition own (k : row_id) (w r : Z) (b : bytes) (l : know) : know := Know (<[k := (w, r, b)]> (owned l)) (leases l) (wrote l).
Definition disown (k : row_id) (l : know) : know := Know (delete k (owned l)) (leases l) (wrote l).
Definition overwrite (k : row_id) (w : Z) (b : bytes) (ts : Z) (v : bytes) (l : know) : know :=
  Know (<[k := (ts, ts, v)]> (owned l)) (leases l) (<[k := (w, b, ts, v)]> (wrote l)).

Abbreviation op_ok := (step_ok bounded inv knows).

Section ops.
Context (tid : Z) (l : know) (k : row_id) (Hrows : k ∈ rows).

Lemma row_now h s : inv h s -> exists w r o b, row_at s k w r o b /\ 0 <= w <= r /\ length b = size k.1.1.
Proof. intros [[_ Hg] _]. now apply Hg. Qed.

(** What the transaction knows of a row it owns, or does not. *)
Lemma owned_now h s w r o b : knows tid l h s -> row_at s k w r o b ->
  (o = tid -> owned l !! k = Some (w, r, b)) /\ (o <> tid -> owned l !! k = None).
Proof.
  intros HK Hk. split.
  - intros ->. destruct (k_all _ _ _ _ HK _ _ _ _ Hk) as [[[w2 r2] b2] E]. rewrite E.
    destruct (row_at_inj _ _ _ _ _ _ _ _ _ _ Hk (k_owned _ _ _ _ HK _ _ _ _ E)) as (-> & -> & _ & ->). easy.
  - intros Hne. destruct (owned l !! k) as [[[w2 r2] b2]|] eqn:E; [|easy]. exfalso. apply Hne.
    destruct (row_at_inj _ _ _ _ _ _ _ _ _ _ Hk (k_owned _ _ _ _ HK _ _ _ _ E)) as (_ & _ & -> & _). easy.
Qed.

(** A step that leaves the row as it is. *)
Lemma unchanged_at {R} (m : M db R) h s x w r o b extra (Q : R -> know -> Prop) :
  inv h s -> knows tid l h s -> row_at s k w r o b -> m s = Ret x (put_row s k w r o b) ->
  (forall y, y ∈ extra -> exists r2, y = (k, w, r2, b) /\ r2 <= r) -> Q x (Know (owned l) (leases l ++ extra) (wrote l)) ->
  exists x s' l', m s = Ret x s' /\ inv ((tid, s) :: h) s' /\ knows tid l' ((tid, s) :: h) s' /\
    (forall tid' l2, tid' <> tid -> knows tid' l2 h s -> knows tid' l2 ((tid, s) :: h) s') /\ Q x l'.
Proof.
  intros HI HK Hk Em He HQ. destruct (row_known h s HI k w r o b Hk) as (_ & Hwr & Hlen).
  exists x, (put_row s k w r o b), (Know (owned l) (leases l ++ extra) (wrote l)).
  split; [exact Em|]. split; [apply (row_step_inv tid h s HI k w r o b Hk); easy || lia|]. split; [|split; [|exact HQ]].
  - destruct (owned_now h s w r o b HK Hk) as [Hy Hn].
    assert (knows tid (Know (if o =? tid then <[k := (w, r, b)]> (owned l) else delete k (owned l)) (leases l ++ extra) (wrote l)) ((tid, s) :: h) (put_row s k w r o b)) as HK'
      by (apply (step_own tid h s k w r o b Hk); solve [easy | lia | now left]).
    destruct (Z.eqb_spec o tid) as [->|Hne]; [rewrite insert_id in HK' by auto|rewrite delete_id in HK' by auto]; exact HK'.
  - intros tid' l2 Hne HK2. apply (step_others tid h s k w r o b Hk); solve [easy | lia].
Qed.

Lemma read_ok dest : length dest = size k.1.1 ->
  op_ok tid l (read k dest (size k.1.1)) (fun x l' => exists w r b, x = (w, r, b) /\ l' = add_lease k w r b l /\
    length b = size k.1.1 /\ 0 <= w <= r /\ (forall y, owned l !! k = Some y -> y = (w, r, b))).
Proof.
  intros Hd h s Hb HI HK. destruct (row_now h s HI) as (w & r & o & b & Hk & Hwr & Hlen).
  eapply (unchanged_at _ h s (w, r, b) w r o b [(k, w, r, b)]); [exact HI|exact HK|exact Hk| | |].
  - rewrite (read_run s k w r o b Hk). now rewrite memcpy_full.
  - intros y Hy. apply list_elem_of_singleton in Hy as ->. now exists r.
  - exists w, r, b. repeat split; try easy. intros y Hy. destruct (owned_now h s w r o b HK Hk) as [H1 H2].
    destruct (decide (o = tid)) as [E|E]; [|rewrite H2 in Hy by exact E; discriminate]. rewrite H1 in Hy by exact E. now injection Hy as <-.
Qed.

(** An operation that changes the row of a transaction, or one that is free. *)
Lemma changed_ok {R} (m : M db R) h s x w r o b w' r' o' b' extra wr l' (Q : R -> know -> Prop) :
  inv h s -> knows tid l h s -> row_at s k w r o b -> m s = Ret x (put_row s k w' r' o' b') ->
  w <= w' -> r <= r' -> w' <= r' -> length b' = size k.1.1 -> (w = w' -> b = b') -> (w < w' -> r < w') ->
  (o = 0 \/ o = tid) -> (o' = 0 \/ o' = tid) ->
  (forall y, y ∈ extra -> exists r2, y = (k, w', r2, b') /\ r2 <= r') ->
  (wr = wrote l /\ w' = w \/ wr = <[k := (w, b, w', b')]> (wrote l) /\ wrote l !! k = None /\ w < w') ->
  l' = Know (if o' =? tid then <[k := (w', r', b')]> (owned l) else delete k (owned l)) (leases l ++ extra) wr ->
  Q x l' ->
  exists x s' l', m s = Ret x s' /\ inv ((tid, s) :: h) s' /\ knows tid l' ((tid, s) :: h) s' /\
    (forall tid' l2, tid' <> tid -> knows tid' l2 h s -> knows tid' l2 ((tid, s) :: h) s') /\ Q x l'.
Proof.
  intros HI HK Hk Em ?????? Ho Ho' He Hw -> HQ. do 3 eexists. split; [exact Em|]. split; [apply (row_step_inv tid h s HI k w r o b Hk); easy|].
  split; [|split; [|exact HQ]].
  - apply (step_own tid h s k w r o b Hk); try easy. intros. destruct Ho; easy.
  - intros tid' l2 Hne HK2. pose proof (k_id _ _ _ _ HK2). apply (step_others tid h s k w r o b Hk); try easy.
    + intros ->. exfalso. destruct Ho; congruence.
    + intros ->. exfalso. destruct Ho'; congruence.
Qed.

Lemma write_lock_ok : op_ok tid l (write_lock k tid) (fun x l' =>
  match x with
  | (true, (w, r)) => exists b, l' = own k w r b l /\ length b = size k.1.1 /\ 0 <= w <= r /\ r < 2 ^ 64 - 1
  | (false, _) => l' = l /\ owned l !! k = None
  end).
Proof.
  intros h s Hb HI HK. destruct (row_now h s HI) as (w & r & o & b & Hk & Hwr & Hlen).
  destruct (owned_now h s w r o b HK Hk) as [_ Hn]. pose proof (write_lock_run s k w r o b Hk tid) as E.
  destruct ((o =? 0) || (o =? tid)) eqn:Eo.
  - eapply (changed_ok _ h s _ w r o b w r tid b [] (wrote l)); [exact HI|exact HK|exact Hk|exact E|lia|lia|lia|exact Hlen|easy|lia| |now right| |now left|rewrite Z.eqb_refl; reflexivity|].
    + apply orb_prop in Eo as [H|H]; apply Z.eqb_eq in H; auto.
    + intros y Hy. now apply elem_of_nil in Hy.
    + exists b. rewrite app_nil_r. split; [reflexivity|]. split; [easy|]. split; [easy|]. eapply Hb, Hk.
  - apply orb_false_iff in Eo as [_ Eo]. apply Z.eqb_neq in Eo.
    eapply (unchanged_at _ h s _ w r o b []); [exact HI|exact HK|exact Hk|exact E| |].
    + intros y Hy. now apply elem_of_nil in Hy.
    + rewrite app_nil_r. destruct l. cbn in *. auto.
Qed.

(** Renewing the lease of a version that was seen. *)
Lemma renew_ok w0 r0 b0 ts : (k, w0, r0, b0) ∈ leases l -> owned l !! k = None ->
  op_ok tid l (renew_lease k w0 ts) (fun x l' => if x then l' = add_lease k w0 ts b0 l else l' = l).
Proof.
  intros Hl Ho h s Hb HI HK. destruct (row_now h s HI) as (w & r & o & b & Hk & Hwr & Hlen).
  destruct (owned_now h s w r o b HK Hk) as [Hy _]. pose proof (renew_run s k w r o b Hk w0 ts) as E.
  destruct (negb (w0 =? w) || ((r <? ts) && negb (o =? 0))) eqn:Ec.
  - eapply (unchanged_at _ h s _ w r o b []); [exact HI|exact HK|exact Hk|exact E| |].
    + intros y Hy'. now apply elem_of_nil in Hy'.
    + rewrite app_nil_r. now destruct l.
  - apply orb_false_iff in Ec as [Ew Ec]. apply negb_false_iff, Z.eqb_eq in Ew as ->.
    assert (b0 = b) as ->.
    { destruct (k_leases _ _ _ _ HK _ _ _ _ Hl) as (d & r' & o' & Hd & Hr' & _).
      apply elem_of_cons in Hd as [->|Hd]; [now destruct (row_at_inj _ _ _ _ _ _ _ _ _ _ Hr' Hk) as (_ & _ & _ & ->)|].
      destruct (chain_after _ _ _ (proj2 HI) Hd) as [Ha _]. destruct (Ha _ _ _ _ _ Hr') as (w2 & r2 & o2 & b2 & H2 & _ & _ & Hs & _).
      destruct (row_at_inj _ _ _ _ _ _ _ _ _ _ Hk H2) as (<- & _ & _ & <-). now apply Hs. }
    destruct (Z.ltb_spec r ts) as [Hlt|Hge].
    + cbn in Ec. apply negb_false_iff, Z.eqb_eq in Ec as ->.
      eapply (changed_ok _ h s _ w r 0 b w (Z.max r ts) 0 b [(k, w, ts, b)] (wrote l)); [exact HI|exact HK|exact Hk|exact E|lia|lia|lia|exact Hlen|easy|lia|now left|now left| |now left|reflexivity|].
      * intros y Hy'. apply list_elem_of_singleton in Hy' as ->. exists ts. split; [reflexivity|lia].
      * pose proof (k_id _ _ _ _ HK). destruct (Z.eqb_spec 0 tid); [congruence|]. rewrite delete_id by exact Ho. reflexivity.
    + rewrite Z.max_l in E by lia. eapply (unchanged_at _ h s _ w r o b [(k, w, ts, b)]); [exact HI|exact HK|exact Hk|exact E| |reflexivity].
      intros y Hy'. apply list_elem_of_singleton in Hy' as ->. exists ts. split; [reflexivity|lia].
Qed.

Lemma update_ok w r b v ts : owned l !! k = Some (w, r, b) -> wrote l !! k = None -> r < ts -> length v = size k.1.1 ->
  op_ok tid l (update k v (size k.1.1) ts tid) (fun _ l' => l' = overwrite k w b ts v l).
Proof.
  intros Ho Hn Hts Hv h s Hb HI HK. pose proof (k_owned _ _ _ _ HK _ _ _ _ Ho) as Hk.
  destruct (row_known h s HI k w r tid b Hk) as (_ & Hwr & Hlen).
  pose proof (update_run s k w r tid b Hk v (size k.1.1) ts) as E. rewrite memcpy_full in E by easy.
  eapply (changed_ok _ h s _ w r tid b ts ts tid v [] (<[k := (w, b, ts, v)]> (wrote l))); [exact HI|exact HK|exact Hk|exact E|lia|lia|lia|exact Hv|lia|lia|now right|now right| | |reflexivity|].
  - intros y Hy. now apply elem_of_nil in Hy.
  - right. split; [reflexivity|]. split; [exact Hn|lia].
  - rewrite Z.eqb_refl, app_nil_r. reflexivity.
Qed.

Lemma unlock_ok w r b : owned l !! k = Some (w, r, b) -> op_ok tid l (unlock k tid) (fun _ l' => l' = disown k l).
Proof.
  intros Ho h s Hb HI HK. pose proof (k_owned _ _ _ _ HK _ _ _ _ Ho) as Hk.
  destruct (row_known h s HI k w r tid b Hk) as (_ & Hwr & Hlen).
  eapply (changed_ok _ h s _ w r tid b w r 0 b [] (wrote l)); [exact HI|exact HK|exact Hk|exact (unlock_run s k w r tid b Hk)|lia|lia|lia|exact Hlen|easy|lia|now right|now left| |now left|reflexivity|].
  - intros y Hy. now apply elem_of_nil in Hy.
  - pose proof (k_id _ _ _ _ HK). destruct (Z.eqb_spec 0 tid); [congruence|]. now rewrite app_nil_r.
Qed.
End ops.
End history.
