(* ===== verification/Sundial.v ===== *)
(** * Sundial: executing and committing a transaction

    protocol/Sundial/SundialTransaction.h, SundialExecutor.h, SundialMessage.h
    and Sundial.h.  A transaction is a [thread]: its own state is [stxn], the
    shared state the rows of all hosts, and each operation of [SundialHelper] is
    one step.  Rows of this host are accessed directly.  A request for another
    host is put in the outbox; when the outbox is flushed the owners work on the
    requests, in steps of their own and in any order ([network]), and the answers
    change the transaction.  The work that follows unlock requests, which are not
    answered, is part of the thread that sent them.  Statistics, time measurements
    and the generation of unused ids are left out. *)

From stdpp Require Import sorting.
From S2P Require Import Prelude Interleave Commit SundialRow.
Import SundialRow.SundialRWKey.

Abbreviation skey := SundialRWKey.SundialRWKey.
Abbreviation db := SundialHelper.db.

(** ** Messages, with the key as the receiver finds it *)

Inductive request :=
| ReadRequest (k : row_id) (write_lock : bool) (key_offset : nat)
| WriteLockRequest (k : row_id) (key_offset : nat)
| ReadValidationAndRedoRequest (reads : list (row_id * Z)) (redo : list (row_id * bytes * bytes)) (commit_ts : Z)
| WriteRequest (k : row_id) (value : bytes) (commit_ts : Z) (persist_commit_record : bool)
| ReplicationRequest (k : row_id) (value : bytes) (commit_ts : Z) (sync_redo : bool)
| UnlockRequest (k : row_id).

Inductive response :=
| ReadResponse (value : bytes) (success write_lock : bool) (wts rts : Z) (key_offset : nat)
| WriteLockResponse (success : bool) (wts rts : Z) (key_offset : nat)
| ReadValidationAndRedoResponse (success : bool)
| WriteResponse.

(** Work on a request at its owner: not begun, between two operations, or
    answered. *)
Inductive work :=
| Received (m : request)
| Locked (k : row_id) (success : bool) (key_offset : nat)
| Renewing (reads : list (row_id * Z)) (commit_ts : Z) (success : bool)
| Answered (r : response).

(** ** The transaction *)

Record stxn := Txn {
  transaction_id : Z;
  commit_ts : Z;
  readSet : list skey;
  writeSet : list skey;
  scanSet : list skey;
  insertSet : list skey;
  deleteSet : list skey;
  abort_lock : bool;
  abort_read_validation : bool;
  abort_insert : bool;
  abort_delete : bool;
  distributed_transaction : bool;
  single_partition : bool;
  pendingResponses : Z;
  (** the buffers behind the value pointers, the vectors behind the scan results *)
  mem : gmap Z bytes;
  vec : gmap Z (list row_id);
  outbox : list request;
  (** what was written to the logs *)
  log : list bytes
}.

Record flags := Flags { f_lock : bool; f_read : bool; f_insert : bool; f_delete : bool }.

Definition set_sets (r w s i d : list skey) (t : stxn) : stxn :=
  Txn (transaction_id t) (commit_ts t) r w s i d (abort_lock t) (abort_read_validation t) (abort_insert t) (abort_delete t) (distributed_transaction t) (single_partition t) (pendingResponses t) (mem t) (vec t) (outbox t) (log t).
Definition with_reads (f : list skey -> list skey) (t : stxn) : stxn := set_sets (f (readSet t)) (writeSet t) (scanSet t) (insertSet t) (deleteSet t) t.
Definition with_writes (f : list skey -> list skey) (t : stxn) : stxn := set_sets (readSet t) (f (writeSet t)) (scanSet t) (insertSet t) (deleteSet t) t.
Definition with_scans (f : list skey -> list skey) (t : stxn) : stxn := set_sets (readSet t) (writeSet t) (f (scanSet t)) (insertSet t) (deleteSet t) t.
Definition with_inserts (f : list skey -> list skey) (t : stxn) : stxn := set_sets (readSet t) (writeSet t) (scanSet t) (f (insertSet t)) (deleteSet t) t.
Definition with_deletes (f : list skey -> list skey) (t : stxn) : stxn := set_sets (readSet t) (writeSet t) (scanSet t) (insertSet t) (f (deleteSet t)) t.
Definition set_flags (f : flags) (t : stxn) : stxn :=
  Txn (transaction_id t) (commit_ts t) (readSet t) (writeSet t) (scanSet t) (insertSet t) (deleteSet t) (f_lock f) (f_read f) (f_insert f) (f_delete f) (distributed_transaction t) (single_partition t) (pendingResponses t) (mem t) (vec t) (outbox t) (log t).
Definition set_abort_lock (t : stxn) : stxn := set_flags (Flags true (abort_read_validation t) (abort_insert t) (abort_delete t)) t.
Definition set_abort_read_validation (t : stxn) : stxn := set_flags (Flags (abort_lock t) true (abort_insert t) (abort_delete t)) t.
Definition set_abort_insert (t : stxn) : stxn := set_flags (Flags (abort_lock t) (abort_read_validation t) true (abort_delete t)) t.
Definition set_abort_delete (t : stxn) : stxn := set_flags (Flags (abort_lock t) (abort_read_validation t) (abort_insert t) true) t.
Definition raise_commit_ts (n : Z) (t : stxn) : stxn :=
  Txn (transaction_id t) (Z.max (commit_ts t) n) (readSet t) (writeSet t) (scanSet t) (insertSet t) (deleteSet t) (abort_lock t) (abort_read_validation t) (abort_insert t) (abort_delete t) (distributed_transaction t) (single_partition t) (pendingResponses t) (mem t) (vec t) (outbox t) (log t).
Definition set_distributed (t : stxn) : stxn :=
  Txn (transaction_id t) (commit_ts t) (readSet t) (writeSet t) (scanSet t) (insertSet t) (deleteSet t) (abort_lock t) (abort_read_validation t) (abort_insert t) (abort_delete t) true (single_partition t) (pendingResponses t) (mem t) (vec t) (outbox t) (log t).
Definition on_pending (f : Z -> Z) (t : stxn) : stxn :=
  Txn (transaction_id t) (commit_ts t) (readSet t) (writeSet t) (scanSet t) (insertSet t) (deleteSet t) (abort_lock t) (abort_read_validation t) (abort_insert t) (abort_delete t) (distributed_transaction t) (single_partition t) (f (pendingResponses t)) (mem t) (vec t) (outbox t) (log t).
Definition on_mem (f : gmap Z bytes -> gmap Z bytes) (t : stxn) : stxn :=
  Txn (transaction_id t) (commit_ts t) (readSet t) (writeSet t) (scanSet t) (insertSet t) (deleteSet t) (abort_lock t) (abort_read_validation t) (abort_insert t) (abort_delete t) (distributed_transaction t) (single_partition t) (pendingResponses t) (f (mem t)) (vec t) (outbox t) (log t).
Definition on_vec (f : gmap Z (list row_id) -> gmap Z (list row_id)) (t : stxn) : stxn :=
  Txn (transaction_id t) (commit_ts t) (readSet t) (writeSet t) (scanSet t) (insertSet t) (deleteSet t) (abort_lock t) (abort_read_validation t) (abort_insert t) (abort_delete t) (distributed_transaction t) (single_partition t) (pendingResponses t) (mem t) (f (vec t)) (outbox t) (log t).
Definition on_outbox (f : list request -> list request) (t : stxn) : stxn :=
  Txn (transaction_id t) (commit_ts t) (readSet t) (writeSet t) (scanSet t) (insertSet t) (deleteSet t) (abort_lock t) (abort_read_validation t) (abort_insert t) (abort_delete t) (distributed_transaction t) (single_partition t) (pendingResponses t) (mem t) (vec t) (f (outbox t)) (log t).
Definition write_log (b : bytes) (t : stxn) : stxn :=
  Txn (transaction_id t) (commit_ts t) (readSet t) (writeSet t) (scanSet t) (insertSet t) (deleteSet t) (abort_lock t) (abort_read_validation t) (abort_insert t) (abort_delete t) (distributed_transaction t) (single_partition t) (pendingResponses t) (mem t) (vec t) (outbox t) (log t ++ [b]).

Definition on_read (i : nat) (f : skey -> skey) : stxn -> stxn := with_reads (alter f i).
Definition on_write (i : nat) (f : skey -> skey) : stxn -> stxn := with_writes (alter f i).
Definition on_scan (i : nat) (f : skey -> skey) : stxn -> stxn := with_scans (alter f i).
Definition on_insert (i : nat) (f : skey -> skey) : stxn -> stxn := with_inserts (alter f i).
Definition on_delete (i : nat) (f : skey -> skey) : stxn -> stxn := with_deletes (alter f i).
Definition send (m : request) : stxn -> stxn := on_outbox (fun l => l ++ [m]).
(** A message whose answer is waited for. *)
Definition ask (m : request) (t : stxn) : stxn := on_pending (Z.add 1) (send m t).

Abbreviation T := (thread db stxn).

Module SundialTransaction.

(** [commit_ts] and the transaction id survive a reset. *)
Definition reset (t : stxn) : stxn :=
  Txn (transaction_id t) (commit_ts t) [] [] [] [] [] false false false false false (single_partition t) 0 (mem t) (vec t) (outbox t) (log t).

Definition should_abort (t : stxn) : bool := abort_lock t || abort_read_validation t || abort_insert t || abort_delete t.

Definition add_to_read_set (e : skey) : stxn -> stxn := with_reads (fun l => l ++ [e]).
Definition add_to_write_set (e : skey) : stxn -> stxn := with_writes (fun l => l ++ [e]).
Definition add_to_scan_set (e : skey) : stxn -> stxn := with_scans (fun l => l ++ [e]).
Definition add_to_insert_set (e : skey) : stxn -> stxn := with_inserts (fun l => l ++ [e]).
Definition add_to_delete_set (e : skey) : stxn -> stxn := with_deletes (fun l => l ++ [e]).

(** The first entry whose key pointer is [p]. *)
Fixpoint read_key_pos_from (p : option Z) (l : list skey) (i : Z) : Z :=
  match l with
  | [] => -1
  | e :: l => if bool_decide (get_key e = p) then i else read_key_pos_from p l (i + 1)
  end.
Definition get_read_key_pos (p : option Z) (t : stxn) : Z := read_key_pos_from p (readSet t) 0.

Definition tuple_entry (table_id partition_id : Z) (key value : option Z) : skey :=
  set_value value (set_key key (set_partition_id partition_id (set_table_id table_id fresh_key))).

Definition search_local_index (table_id partition_id key value : Z) : stxn -> stxn :=
  add_to_read_set (set_read_request_bit (set_local_index_read_bit (tuple_entry table_id partition_id (Some key) (Some value)))).
Definition search_for_read (table_id partition_id key value : Z) : stxn -> stxn :=
  add_to_read_set (set_read_request_bit (tuple_entry table_id partition_id (Some key) (Some value))).
Definition search_for_update (table_id partition_id key value : Z) : stxn -> stxn :=
  add_to_read_set (set_write_request_bit (set_read_request_bit (tuple_entry table_id partition_id (Some key) (Some value)))).
Definition update (table_id partition_id key value : Z) (t : stxn) : stxn :=
  add_to_write_set (set_read_set_pos (get_read_key_pos (Some key) t) (tuple_entry table_id partition_id (Some key) (Some value))) t.
Definition scan_for (ty : scan_type) (table_id partition_id min_key max_key limit results : Z) : stxn -> stxn :=
  add_to_scan_set (set_scan_args (Some min_key) (Some max_key) limit (Some results) ty (set_partition_id partition_id (set_table_id table_id fresh_key))).
Definition insert_row (table_id partition_id key value : Z) : stxn -> stxn :=
  add_to_insert_set (tuple_entry table_id partition_id (Some key) (Some value)).
Definition delete_row (table_id partition_id key : Z) : stxn -> stxn :=
  add_to_delete_set (tuple_entry table_id partition_id (Some key) None).

End SundialTransaction.

Module Sundial.
Section sundial.
(** This host, the partitioner, the tables, and what key pointers refer to; the
    bytes of a key are those of its pointer. *)
Context (me : Z) (master_coordinator : Z -> Z) (replicated_on : Z -> Z -> bool) (coordinators : list Z).
Context (value_size field_size : Z -> nat) (serialize_value : Z -> bytes -> bytes).
Context (key_at : Z -> Z) (key_bytes : Z -> bytes) (read_on_replica has_logger : bool).

Definition has_master_partition (partition_id : Z) : bool := master_coordinator partition_id =? me.
Definition local_here (partition_id : Z) : bool := has_master_partition partition_id || (replicated_on partition_id me && read_on_replica).
Definition owner_of (e : skey) : Z := master_coordinator (get_partition_id e).

Definition row_of (e : skey) : T row_id :=
  p ← access (fun _ => get_key e); mret (get_table_id e, get_partition_id e, key_at p).
Definition buffer_of (e : skey) : T bytes := p ← access (fun _ => get_value e); access (fun t => mem t !! p).
Definition fill_buffer (e : skey) (b : bytes) : T unit := p ← access (fun _ => get_value e); assign (on_mem (insert p b)).

(** ** The owners at work: SundialMessage.h *)

(** A handler does one operation and says what is left to do: [None] when it is
    done and does not answer. *)
Definition read_row (k : row_id) : M db (Z * Z * bytes) :=
  let size := value_size k.1.1 in SundialHelper.read k (replicate size Byte.x00) size.

Definition read_request_handler (tid : Z) (k : row_id) (write_lock : bool) (i : nat) : M db (option work) :=
  if write_lock then
    '(success, _) ← SundialHelper.write_lock k tid;
    mret (Some (Locked k success i))
  else
    '(wts, rts, b) ← read_row k;
    mret (Some (Answered (ReadResponse b true false wts rts i))).
(** The rest of it, after the lock. *)
Definition read_locked (k : row_id) (success : bool) (i : nat) : M db (option work) :=
  '(wts, rts, b) ← read_row k;
  mret (Some (Answered (ReadResponse b success true wts rts i))).

Definition write_lock_request_handler (tid : Z) (k : row_id) (i : nat) : M db (option work) :=
  '(success, (wts, rts)) ← SundialHelper.write_lock k tid;
  mret (Some (Answered (WriteLockResponse success wts rts i))).

(** The loop over the reads; a lease that cannot be renewed does not end it. *)
Definition read_validation_and_redo_request_handler (reads : list (row_id * Z)) (ts : Z) (success : bool) : M db (option work) :=
  match reads with
  | [] => mret (Some (Answered (ReadValidationAndRedoResponse success)))
  | (k, wts) :: reads =>
      res ← SundialHelper.renew_lease k wts ts;
      mret (Some (Renewing reads ts (success && res)))
  end.

Definition write_request_handler (tid : Z) (k : row_id) (value : bytes) (ts : Z) : M db (option work) :=
  SundialHelper.update k value (field_size k.1.1) ts tid;;
  mret (Some (Answered WriteResponse)).

Definition unlock_request_handler (tid : Z) (k : row_id) : M db (option work) :=
  SundialHelper.unlock k tid;; mret None.

Definition replication_request_handler : M db (option work) := abort.

Definition owner_step (tid : Z) (w : work) : M db (option work) :=
  match w with
  | Received (ReadRequest k write_lock i) => read_request_handler tid k write_lock i
  | Locked k success i => read_locked k success i
  | Received (WriteLockRequest k i) => write_lock_request_handler tid k i
  | Received (ReadValidationAndRedoRequest reads redo ts) => mret (Some (Renewing reads ts true))
  | Renewing reads ts success => read_validation_and_redo_request_handler reads ts success
  | Received (WriteRequest k value ts persist) => write_request_handler tid k value ts
  | Received (ReplicationRequest k value ts sync) => replication_request_handler
  | Received (UnlockRequest k) => unlock_request_handler tid k
  | Answered r => mret (Some w)
  end.

(** What the owner writes to its log with its answer. *)
Definition redo_text (r : row_id * bytes * bytes) : bytes :=
  let '(k, key, value) := r in
  TwoPLPasha.decimal k.1.1 ++ TwoPLPasha.decimal k.1.2 ++ TwoPLPasha.decimal (Z.of_nat (length key)) ++ key ++
  TwoPLPasha.decimal (Z.of_nat (length value)) ++ value.
Definition request_log (m : request) (success : bool) : list bytes :=
  match m with
  | ReadValidationAndRedoRequest _ redo _ => [concat (redo_text <$> redo) ++ TwoPLPasha.decimal (Z.b2z success)]
  | WriteRequest _ _ ts true => [TwoPLPasha.decimal ts ++ TwoPLPasha.decimal 1]
  | _ => []
  end.

Definition read_response_handler (value : bytes) (success write_lock : bool) (wts rts : Z) (i : nat) : T unit :=
  e ← access (fun t => readSet t !! i);
  dest ← buffer_of e;
  fill_buffer e (memcpy dest value (value_size (get_table_id e)));;
  assign (on_pending (fun n => n - 1));;
  if negb write_lock then
    assign (on_read i (fun e => set_rts rts (set_wts wts e)));;
    assign (raise_commit_ts wts)
  else if negb success then assign set_abort_lock
  else
    assign (on_read i (fun e => set_write_lock_bit (set_rts rts (set_wts wts e))));;
    assign (raise_commit_ts wts).

(** The version that the read set has at [pos] is not [wts]. *)
Definition changed_since_read (t : stxn) (pos wts : Z) : bool :=
  if pos =? -1 then false
  else match readSet t !! Z.to_nat pos with Some e => negb (get_wts e =? wts) | None => true end.

Definition write_lock_response_handler (success : bool) (wts rts : Z) (i : nat) : T unit :=
  assign (on_pending (fun n => n - 1));;
  e ← access (fun t => writeSet t !! i);
  changed ← local (fun t => changed_since_read t (get_read_set_pos e) wts);
  if negb success || changed then assign set_abort_lock
  else
    assign (raise_commit_ts (wrap 64 (rts + 1)));;
    assign (on_write i set_write_lock_bit).

Definition read_validation_and_redo_response_handler (success : bool) : T unit :=
  assign (on_pending (fun n => n - 1));;
  when (negb success) (assign set_abort_read_validation).
Definition write_response_handler : T unit := assign (on_pending (fun n => n - 1)).

Definition handle_response (r : response) : T unit :=
  match r with
  | ReadResponse value success write_lock wts rts i => read_response_handler value success write_lock wts rts i
  | WriteLockResponse success wts rts i => write_lock_response_handler success wts rts i
  | ReadValidationAndRedoResponse success => read_validation_and_redo_response_handler success
  | WriteResponse => write_response_handler
  end.

(** The steps that a piece of work needs at most. *)
Definition cost (w : work) : nat :=
  match w with
  | Received (ReadRequest _ true _) => 3
  | Received (ReadValidationAndRedoRequest reads _ _) => 3 + length reads
  | Received _ => 2
  | Locked _ _ _ => 2
  | Renewing reads _ _ => 2 + length reads
  | Answered _ => 1
  end.

(** Requests in the hands of their owners and answers on their way, each with
    the request for the log: one is picked, and does its next step. *)
Fixpoint network (fuel : nat) (ws : list (request * work)) : T unit :=
  match fuel, ws with
  | S fuel, _ :: _ =>
      i ← pick (length ws);
      tid ← local transaction_id;
      match ws !! i with
      | Some (m, Answered r) =>
          for_all (fun b => assign (write_log b)) (request_log m (match r with ReadValidationAndRedoResponse s => s | _ => true end));;
          handle_response r;;
          network fuel (delete i ws)
      | Some (m, w) =>
          o ← atomic (owner_step tid w);
          network fuel (match o with Some w' => <[i := (m, w')]> ws | None => delete i ws end)
      | None => mret tt
      end
  | _, _ => mret tt
  end.

(** [sync_messages]: the outbox is flushed; a thread that waits goes on when no
    answer is pending. *)
Definition sync_messages (wait_response : bool) : T unit :=
  ms ← local outbox;
  assign (on_outbox (fun _ => []));;
  let ws := (fun m => (m, Received m)) <$> ms in
  network (sum_list_with cost ws.*2) ws;;
  when wait_response (
    n ← local pendingResponses;
    when (0 <? n) (atomic spin)).

(** ** The request handlers: SundialExecutor.h *)

Definition readRequestHandler (i : nat) (e : skey) : T bool :=
  k ← row_of e;
  let size := value_size (get_table_id e) in
  let write_lock := negb (get_write_request_bit e =? 0) in
  if negb (get_local_index_read_bit e =? 0) || local_here (get_partition_id e) then
    tid ← local transaction_id;
    success ← (if write_lock then r ← atomic (SundialHelper.write_lock k tid); mret r.1 else mret true);
    dest ← buffer_of e;
    '(wts, rts, b) ← atomic (SundialHelper.read k dest size);
    fill_buffer e b;;
    assign (on_read i (fun e => set_rts rts (set_wts wts e)));;
    if write_lock then
      if success : bool then assign (on_read i set_write_lock_bit);; mret true
      else assign set_abort_lock;; mret false
    else mret true
  else
    assign (ask (ReadRequest k write_lock i));;
    assign set_distributed;;
    mret true.

(** The keys of a partition in order, from [low] on. *)
Definition keys_from (table_id partition_id low : Z) (d : db) : list Z :=
  merge_sort Z.le (snd <$> filter (fun k : row_id => k.1 = (table_id, partition_id) /\ low <= k.2) (elements (dom d))).

(** The results of a scan: the keys of the range, up to the limit.  Rows are not
    locked and the keys are not validated. *)
Fixpoint scan_results_of (limit max : Z) (ks : list Z) (results : list Z) : list Z :=
  match ks with
  | [] => results
  | key :: ks =>
      if negb (limit =? 0) && (Z.of_nat (length results) =? limit) then results
      else if max <? key then results
      else if (match last results with Some q => key <=? q | None => false end) then scan_results_of limit max ks results
      else scan_results_of limit max ks (results ++ [key])
  end.

Definition scanRequestHandler (e : skey) : T bool :=
  mn ← access (fun _ => get_scan_min_key e);
  mx ← access (fun _ => get_scan_max_key e);
  v ← access (fun _ => get_scan_res_vec e);
  old ← access (fun t => vec t !! v : option (list row_id));
  must (local_here (get_partition_id e));;
  ks ← atomic (gets (keys_from (get_table_id e) (get_partition_id e) (key_at mn)));
  let res := scan_results_of (get_scan_limit e) (key_at mx) ks (snd <$> old) in
  assign (on_vec (insert v ((fun key => (get_table_id e, get_partition_id e, key)) <$> res)));;
  mret true.

Definition insertRequestHandler (e : skey) : T bool :=
  k ← row_of e;
  must (local_here (get_partition_id e));;
  v ← buffer_of e;
  success ← atomic (SundialHelper.table_insert k v true);
  when (negb success) (assign set_abort_insert);;
  mret success.

Definition deleteRequestHandler (e : skey) : T bool :=
  k ← row_of e;
  must (local_here (get_partition_id e));;
  found ← atomic (gets (fun d : db => d !! k));
  match found with
  | None => assign set_abort_delete;; mret false
  | Some _ =>
      tid ← local transaction_id;
      '(success, _) ← atomic (SundialHelper.write_lock k tid);
      when (negb success) (assign set_abort_delete);;
      mret success
  end.

(** ** [process_requests] of SundialTransaction.h *)

(** The loops over the four sets, the youngest entry first; they return true when
    they stop the execution. *)
Fixpoint process_set (set : stxn -> list skey) (on : nat -> (skey -> skey) -> stxn -> stxn) (handler : nat -> skey -> T bool) (failed : stxn -> stxn)
    (n : nat) : T bool :=
  match n with
  | O => mret false
  | S i =>
      e ← access (fun t => set t !! i);
      if get_processed e then mret false
      else
        success ← handler i e;
        if success : bool then assign (on i set_processed);; process_set set on handler failed i
        else assign failed;; mret true
  end.

Definition process_requests : T bool :=
  n ← local (fun t => length (readSet t));
  stop ← process_set readSet on_read readRequestHandler set_abort_lock n;
  n ← local (fun t => length (scanSet t));
  stop ← (if stop : bool then mret true else process_set scanSet on_scan (fun _ => scanRequestHandler) set_abort_lock n);
  n ← local (fun t => length (insertSet t));
  stop ← (if stop : bool then mret true else process_set insertSet on_insert (fun _ => insertRequestHandler) set_abort_insert n);
  n ← local (fun t => length (deleteSet t));
  stop ← (if stop : bool then mret true else process_set deleteSet on_delete (fun _ => deleteRequestHandler) set_abort_delete n);
  n ← local pendingResponses;
  when (0 <? n) (sync_messages true);;
  ab ← local SundialTransaction.should_abort;
  mret (stop || ab).

(** ** Sundial.h *)

Definition in_write_set (t : stxn) (p : option Z) : bool := existsb (fun e => bool_decide (get_key e = p)) (writeSet t).

(** The lock of the row of a write entry is held: it is marked in the entry or in
    the read entry it refers to. *)
Definition write_locked (t : stxn) (e : skey) : bool :=
  get_write_lock_bit e ||
  (if get_read_set_pos e =? -1 then false
   else match readSet t !! Z.to_nat (get_read_set_pos e) with Some r => get_write_lock_bit r | None => false end).

(** *** [abort] *)

Definition rollback_insert (e : skey) : T unit :=
  if negb (get_processed e) then mret tt
  else
    must (has_master_partition (get_partition_id e));;
    k ← row_of e;
    success ← atomic (SundialHelper.table_remove k);
    must success.

Definition unlock_row (e : skey) : T unit :=
  k ← row_of e;
  tid ← local transaction_id;
  atomic (SundialHelper.unlock k tid).

Definition rollback_delete (e : skey) : T unit :=
  if negb (get_processed e) then mret tt
  else must (has_master_partition (get_partition_id e));; unlock_row e.

Definition unlock_entry (e : skey) : T unit :=
  if has_master_partition (get_partition_id e) then unlock_row e
  else k ← row_of e; assign (send (UnlockRequest k)).

Definition abort_entry (e : skey) : T unit :=
  locked ← local (fun t => write_locked t e);
  when locked (unlock_entry e).

Definition abort : T unit :=
  ins ← local insertSet;
  for_all rollback_insert ins;;
  del ← local deleteSet;
  for_all rollback_delete del;;
  ws ← local writeSet;
  for_all abort_entry ws;;
  sync_messages false.

(** *** [lock_write_set] *)

(** Locks the row of the write entry [i]; [false] when that fails.  A remote row is
    asked for. *)
Definition lock_row (i : nat) (e : skey) : T bool :=
  k ← row_of e;
  if has_master_partition (get_partition_id e) then
    tid ← local transaction_id;
    '(success, (wts, rts)) ← atomic (SundialHelper.write_lock k tid);
    changed ← local (fun t => changed_since_read t (get_read_set_pos e) wts);
    if negb success || changed then assign set_abort_lock;; mret false
    else
      assign (on_write i set_write_lock_bit);;
      assign (raise_commit_ts (wrap 64 (rts + 1)));;
      mret true
  else assign (ask (WriteLockRequest k i));; mret true.

Definition read_entry_of (e : skey) (t : stxn) : option skey :=
  if get_read_set_pos e =? -1 then None else readSet t !! Z.to_nat (get_read_set_pos e).

(** The loop, from the entry [i] on for [n] entries. *)
Fixpoint lock_entries (n i : nat) : T unit :=
  match n with
  | O => mret tt
  | S n =>
      e ← access (fun t => writeSet t !! i);
      r ← local (read_entry_of e);
      let held := match r with Some r => get_write_lock_bit r | None => false end in
      if held then
        assign (on_write i set_write_lock_bit);;
        assign (raise_commit_ts (wrap 64 (from_option get_rts 0 r + 1)));;
        lock_entries n (S i)
      else
        go_on ← lock_row i e;
        if go_on : bool then lock_entries n (S i) else mret tt
  end.

Definition lock_write_set : T bool :=
  n ← local (fun t => length (writeSet t));
  lock_entries n 0;;
  p ← local pendingResponses;
  must (p =? 0);;
  sync_messages true;;
  local abort_lock.

(** *** [validate_read_set_and_redo] *)

(** Whether the lease of a read entry has to be renewed. *)
Definition needs_renewal (t : stxn) (e : skey) : bool :=
  (get_local_index_read_bit e =? 0) && negb (in_write_set t (get_key e)) && negb (commit_ts t <=? get_rts e).

(** The loop over the reads of this host; it stops at the first lease that cannot
    be renewed. *)
Fixpoint renew_reads (l : list skey) : T unit :=
  match l with
  | [] => mret tt
  | e :: l =>
      needed ← local (fun t => needs_renewal t e);
      if needed : bool then
        k ← row_of e;
        ts ← local commit_ts;
        success ← atomic (SundialHelper.renew_lease k (get_wts e) ts);
        if success : bool then renew_reads l else assign set_abort_read_validation
      else renew_reads l
  end.

Definition redo_record (ty : TwoPLPasha.log_type) (e : skey) : T bytes :=
  p ← access (fun _ => get_key e);
  v ← (match ty with TwoPLPasha.LogDelete => mret [] | _ => buffer_of e end);
  mret (TwoPLPasha.decimal (TwoPLPasha.log_type_code ty) ++ TwoPLPasha.decimal (get_table_id e) ++
        TwoPLPasha.decimal (get_partition_id e) ++ key_bytes p ++ v).

Definition redo (ty : TwoPLPasha.log_type) (e : skey) : T unit := b ← redo_record ty e; assign (write_log b).

Definition redo_inserts_and_deletes : T unit :=
  ins ← local insertSet;
  for_all (redo TwoPLPasha.LogInsert) ins;;
  del ← local deleteSet;
  for_all (redo TwoPLPasha.LogDelete) del.

Definition validate_single : T unit :=
  rs ← local readSet;
  renew_reads rs;;
  bad ← local (fun t => abort_read_validation t || abort_lock t);
  when (negb bad) (
    ws ← local writeSet;
    for_all (redo TwoPLPasha.LogUpdate) ws;;
    redo_inserts_and_deletes).

Fixpoint validation_items (l : list skey) : T (list (row_id * Z)) :=
  match l with
  | [] => mret []
  | e :: l => k ← row_of e; rest ← validation_items l; mret ((k, get_wts e) :: rest)
  end.
Fixpoint redo_items (l : list skey) : T (list (row_id * bytes * bytes)) :=
  match l with
  | [] => mret []
  | e :: l => k ← row_of e; p ← access (fun _ => get_key e); v ← buffer_of e; rest ← redo_items l; mret ((k, key_bytes p, v) :: rest)
  end.

(** The reads and writes of the rows of one coordinator. *)
Definition validate_at (host : Z) : T unit :=
  bad ← local abort_read_validation;
  if bad : bool then mret tt
  else
    rs ← local (fun t => filter (fun e => owner_of e = host) (filter (fun e => needs_renewal t e = true) (readSet t)));
    ws ← local (fun t => filter (fun e => owner_of e = host) (writeSet t));
    if host =? me then renew_reads rs;; for_all (redo TwoPLPasha.LogUpdate) ws
    else
      match rs, ws with
      | [], [] => mret tt
      | _, _ =>
          ts ← local commit_ts;
          items ← validation_items rs;
          red ← redo_items ws;
          assign (ask (ReadValidationAndRedoRequest items red ts))
      end.

Definition validate_many : T unit :=
  for_all validate_at coordinators;;
  sync_messages true;;
  bad ← local abort_read_validation;
  when (negb bad) redo_inserts_and_deletes.

Definition validate_read_set_and_redo : T bool :=
  single ← local single_partition;
  (if single : bool then validate_single else validate_many);;
  bad ← local abort_read_validation;
  mret (negb bad).

(** *** [write_and_replicate] *)

(** The last write for its coordinator carries the commit record. *)
Definition persist_commit_record (e : skey) (later : list skey) : bool :=
  negb (has_master_partition (get_partition_id e)) && negb (existsb (fun e' => owner_of e' =? owner_of e) later).
Definition persist_replication (e : skey) (later : list skey) (host : Z) : bool :=
  negb (has_master_partition (get_partition_id e)) &&
  negb (existsb (fun e' => negb (has_master_partition (get_partition_id e')) && replicated_on (get_partition_id e') host && negb (owner_of e' =? host)) later).

Definition replicate_to (e : skey) (later : list skey) (host : Z) : T unit :=
  if negb (replicated_on (get_partition_id e) host) || (host =? owner_of e) then mret tt
  else
    k ← row_of e;
    v ← buffer_of e;
    ts ← local commit_ts;
    if host =? me then atomic (SundialHelper.replica_update v (value_size (get_table_id e)) ts)
    else assign (ask (ReplicationRequest k (serialize_value (get_table_id e) v) ts (persist_replication e later host))).

Definition write_entry (e : skey) (later : list skey) : T unit :=
  k ← row_of e;
  v ← buffer_of e;
  ts ← local commit_ts;
  tid ← local transaction_id;
  if has_master_partition (get_partition_id e)
  then atomic (SundialHelper.update k v (value_size (get_table_id e)) ts tid)
  else assign (ask (WriteRequest k (serialize_value (get_table_id e) v) ts (persist_commit_record e later))).

Fixpoint write_entries (l : list skey) : T unit :=
  match l with
  | [] => mret tt
  | e :: l => write_entry e l;; for_all (replicate_to e l) coordinators;; write_entries l
  end.

Definition write_and_replicate : T unit :=
  ws ← local writeSet;
  write_entries ws;;
  sync_messages true.

Definition release_lock : T unit :=
  ws ← local writeSet;
  for_all unlock_entry ws;;
  sync_messages false.

(** *** [commit] *)

Definition commit_insert (e : skey) : T unit :=
  must (get_processed e);;
  must (has_master_partition (get_partition_id e));;
  k ← row_of e;
  atomic (SundialHelper.mark_tuple_as_valid k).

Definition commit_delete (e : skey) : T unit :=
  must (get_processed e);;
  must (has_master_partition (get_partition_id e));;
  k ← row_of e;
  success ← atomic (SundialHelper.table_remove k);
  must success.

Definition commit_record (t : stxn) : list bytes :=
  match writeSet t, insertSet t, deleteSet t with
  | [], [], [] => []
  | _, _, _ => [TwoPLPasha.decimal (commit_ts t) ++ TwoPLPasha.decimal 1]
  end.

Definition install : T unit :=
  rec ← local commit_record;
  for_all (fun b => assign (write_log b)) rec;;
  ins ← local insertSet;
  for_all commit_insert ins;;
  del ← local deleteSet;
  for_all commit_delete del;;
  write_and_replicate;;
  release_lock.

Definition commit : T bool :=
  already ← local abort_lock;
  failed ← (if already : bool then mret true else lock_write_set);
  if failed : bool then abort;; mret false
  else
    must has_logger;;
    valid ← validate_read_set_and_redo;
    if valid : bool then install;; mret true else abort;; mret false.

(** ** A transaction from its requests to its end, as core/Executor.h runs it:
    [compute] is what the workload does to its buffers in between. *)
Definition transaction (compute : gmap Z bytes -> gmap Z bytes) : T bool :=
  stop ← process_requests;
  if stop : bool then abort;; mret false
  else assign (on_mem compute);; commit.
End sundial.
End Sundial.
