(* ===== verification/SundialTxn.v ===== *)
(** * Sundial: transactions among others

    The phases of a transaction of [Sundial], as a thread that runs among other
    transactions: what it knows of the rows ([know]) after each phase.  The work
    that owners do for it on its behalf is interleaved too. *)

From S2P Require Import Prelude Interleave SundialRow SundialSpec Sundial.
Import SundialRow.SundialRWKey.

(** ** The entries keep what they refer to *)

Lemma get_set_other mask off mask' off' v e n n' : mask = Z.ones n -> mask' = Z.ones n' -> 0 <= n -> 0 <= n' -> 0 <= off -> 0 <= off' ->
  fits n' v -> off + n <= 64 -> off' + n' <= 64 -> off + n <= off' \/ off' + n' <= off ->
  get_field mask off (set_field mask' off' v e) = get_field mask off e.
Proof. intros -> ->. apply field_set_other. Qed.

Lemma get_set_lock e : get_write_lock_bit (set_write_lock_bit e) = true.
Proof.
  assert (get_field 1 3 (set_field 1 3 1 e) = 1) as E by exact (field_set_bit _ 3 ltac:(lia)). change (negb (get_field 1 3 (set_field 1 3 1 e) =? 0) = true). now rewrite E.
Qed.

(** The same request, whatever has happened to it. *)
Definition same (e0 e : skey) : Prop :=
  get_key e = get_key e0 /\ get_value e = get_value e0 /\ get_table_id e = get_table_id e0 /\ get_partition_id e = get_partition_id e0 /\
  get_write_request_bit e = get_write_request_bit e0 /\ get_local_index_read_bit e = get_local_index_read_bit e0 /\ get_read_set_pos e = get_read_set_pos e0.

Lemma same_refl e : same e e.
Proof. repeat split. Qed.
Lemma same_trans e0 e1 e2 : same e0 e1 -> same e1 e2 -> same e0 e2.
Proof. unfold same. intuition congruence. Qed.
Lemma same_lock e : same e (set_write_lock_bit e).
Proof.
  assert (forall n off, 0 <= n -> 0 <= off -> off + n <= 64 -> off + n <= 3 \/ 4 <= off -> get_field (Z.ones n) off (set_write_lock_bit e) = get_field (Z.ones n) off e) as H.
  { intros n off ? ? ? ?. apply (get_set_other _ _ _ 3 1 _ n 1); easy || lia. }
  repeat split; [apply (H 5 51)|apply (H 32 19)|apply (H 1 2)|apply (H 1 0)]; lia.
Qed.

(** ** The owners and the network *)

Section network.
Context (size field_size : Z -> nat) (rows : gset row_id) (tid : Z).

Abbreviation run := (tsafe bounded (inv size rows) knows tid).
Abbreviation op_ok := (step_ok bounded (inv size rows) knows tid).
Abbreviation owner_step := (Sundial.owner_step size field_size tid).
Abbreviation handle_response := (Sundial.handle_response size).

Definition answered (w : work) : bool := match w with Answered _ => true | _ => false end.

Lemma owner_step_cost w s o s' : answered w = false -> owner_step w s = Ret o s' ->
  (sum_list_with Sundial.cost (option_list o) < Sundial.cost w)%nat.
Proof.
  destruct w as [[k [] i|k i|reads redo ts|k v ts p|k v ts p|k]|k ok i|[|[k w] reads] ts ok|r]; cbn; intros Ha E; try discriminate Ha;
    unfold Sundial.read_request_handler, Sundial.read_locked, Sundial.read_row, Sundial.write_lock_request_handler, Sundial.read_validation_and_redo_request_handler, Sundial.write_request_handler, Sundial.unlock_request_handler, Sundial.replication_request_handler in E; cbv [mbind M_bind mret M_ret abort] in E; repeat case_match; try discriminate E; simplify_eq; cbn; lia.
Qed.

(** What is left of the works when one has done its step. *)
Definition put_work (i : nat) (m : request) (o : option work) (ws : list (request * work)) : list (request * work) :=
  match o with Some w => <[i := (m, w)]> ws | None => delete i ws end.

Definition work_cost (ws : list (request * work)) : nat := sum_list_with Sundial.cost ws.*2.

Lemma put_work_cost i m w o ws : ws !! i = Some (m, w) -> (sum_list_with Sundial.cost (option_list o) < Sundial.cost w)%nat ->
  (work_cost (put_work i m o ws) < work_cost ws)%nat.
Proof.
  intros E Hc. unfold work_cost, put_work. assert (ws.*2 !! i = Some w) as E2 by (rewrite list_lookup_fmap, E; easy).
  destruct o as [w'|]; cbn in Hc.
  - rewrite list_fmap_insert. pose proof (sum_insert Sundial.cost ws.*2 i w w' E2). cbn. lia.
  - rewrite list_fmap_delete. pose proof (sum_delete Sundial.cost ws.*2 i w E2). lia.
Qed.

(** The network, for an invariant that every step and every answer keeps. *)
Lemma network_safe (NI : list (request * work) -> stxn -> know -> Prop) :
  (forall ws t l, NI ws t l -> transaction_id t = tid) ->
  (forall ws t l i m r, NI ws t l -> ws !! i = Some (m, Answered r) ->
    run (for_all (fun b => assign (write_log b)) (Sundial.request_log m (match r with ReadValidationAndRedoResponse s => s | _ => true end));; handle_response r) t l
      (fun _ t' l' => NI (delete i ws) t' l')) ->
  (forall ws t l i m w, NI ws t l -> ws !! i = Some (m, w) -> answered w = false ->
    op_ok l (owner_step w) (fun o l' => NI (put_work i m o ws) t l')) ->
  forall fuel ws t l, (work_cost ws <= fuel)%nat -> NI ws t l -> run (Sundial.network size field_size fuel ws) t l (fun _ t' l' => NI [] t' l').
Proof.
  intros Hid Hans Hstep. induction fuel as [|fuel IH]; intros ws t l Hf HN.
  - destruct ws as [|[m w] ws]; [exact HN|]. unfold work_cost in Hf. cbn in Hf. exfalso. destruct w as [[? []| | | | |]| | |]; cbn in Hf; lia.
  - cbn [Sundial.network]. destruct ws as [|mw ws0] eqn:Ews; [exact HN|]. rewrite <- Ews in *. assert (0 < length ws)%nat as Hlen by (rewrite Ews; cbn; lia).
    clear Ews. apply tsafe_bind, tsafe_pick; [exact Hlen|]. intros i Hi. destruct (lookup_lt_is_Some_2 ws i Hi) as [[m w] E].
    apply tsafe_bind, tsafe_local. rewrite (Hid _ _ _ HN), E. destruct (answered w) eqn:Ha.
    + destruct w as [| | |r]; try discriminate Ha. specialize (Hans ws t l i m r HN E).
      apply tsafe_bind. eapply tsafe_mono; [exact (tsafe_bind_inv _ _ _ _ _ _ _ _ _ Hans)|]. intros ? t' l' Hr.
      apply tsafe_bind. eapply tsafe_mono; [exact Hr|]. intros ? t2 l2 HN'. apply IH; [|exact HN'].
      pose proof (put_work_cost i m (Answered r) None ws E ltac:(cbn; lia)) as H. change (put_work i m None ws) with (delete i ws) in H. lia.
    + assert (run (o ← atomic (owner_step w); Sundial.network size field_size fuel (put_work i m o ws)) t l (fun _ t' l' => NI [] t' l')) as Hgo.
      { apply tsafe_bind, tsafe_atomic. specialize (Hstep ws t l i m w HN E Ha). intros h s Hb HI HK.
        destruct (Hstep h s Hb HI HK) as (o & s' & l' & Eo & H1 & H2 & H3 & HN'). exists o, s', l'. split; [exact Eo|]. split; [exact H1|]. split; [exact H2|]. split; [exact H3|].
        apply IH; [|exact HN']. pose proof (put_work_cost i m w o ws E (owner_step_cost w s o s' Ha Eo)). lia. }
      destruct w; try discriminate Ha; exact Hgo.
Qed.
End network.

(** ** Serving the requests *)

Section reading.
Context (size field_size : Z -> nat) (rows : gset row_id) (tid : Z).
Context (me : Z) (master_coordinator : Z -> Z) (replicated_on : Z -> Z -> bool) (key_at : Z -> Z) (read_on_replica : bool).
(** The entries of the transaction when it starts. *)
Context (reads0 writes0 : list skey) (mem0 : gmap Z bytes).

Abbreviation run := (tsafe bounded (inv size rows) knows tid).
Abbreviation op_ok := (step_ok bounded (inv size rows) knows tid).

Definition row_ (e : skey) : row_id := (get_table_id e, get_partition_id e, key_at (default 0 (get_key e))).
Definition buf (e : skey) : Z := default 0 (get_value e).
Definition wr (e : skey) : bool := negb (get_write_request_bit e =? 0).
Definition idx (e : skey) : bool := negb (get_local_index_read_bit e =? 0).
(** The entry is served by this host. *)
Definition near (e : skey) : bool := idx e || Sundial.local_here me master_coordinator replicated_on read_on_replica (get_partition_id e).

Record requests : Prop := Requests {
  q_key : forall e, e ∈ reads0 -> is_Some (get_key e);
  q_value : forall e, e ∈ reads0 -> is_Some (get_value e);
  q_rows : forall e, e ∈ reads0 -> row_ e ∈ rows;
  q_fresh : forall e, e ∈ reads0 -> get_processed e = false /\ get_write_lock_bit e = false;
  q_distinct : NoDup (row_ <$> reads0);
  q_buffers : NoDup (buf <$> reads0)
}.
Context (Hq : requests).

Lemma same_facts e0 e : same e0 e -> row_ e = row_ e0 /\ buf e = buf e0 /\ wr e = wr e0 /\ idx e = idx e0 /\ near e = near e0.
Proof. unfold row_, buf, wr, near, idx. intros (-> & -> & -> & -> & -> & -> & _). easy. Qed.

(** The entry a piece of work is for. *)
Definition offset (w : work) : nat :=
  match w with
  | Received (ReadRequest _ _ i) => i
  | Locked _ _ i => i
  | Answered (ReadResponse _ _ _ _ _ i) => i
  | _ => 0
  end.

Definition flight_ok (l : know) (e0 : skey) (w : work) : Prop :=
  match w with
  | Received (ReadRequest k b _) => k = row_ e0 /\ b = wr e0 /\ owned l !! k = None
  | Locked k b _ => k = row_ e0 /\ wr e0 = true /\ if b then is_Some (owned l !! k) else owned l !! k = None
  | Answered (ReadResponse v ok b w r _) => b = wr e0 /\ length v = size (get_table_id e0) /\ 0 <= w <= r /\
      if b then if ok then owned l !! row_ e0 = Some (w, r, v) else owned l !! row_ e0 = None
      else owned l !! row_ e0 = None /\ (row_ e0, w, r, v) ∈ leases l
  | _ => False
  end.

(** The lock of the entry is marked exactly when it is held. *)
Definition settled (l : know) (t : stxn) (e0 e : skey) : Prop :=
  if get_write_lock_bit e
  then wr e0 = true /\ exists b, owned l !! row_ e0 = Some (get_wts e, get_rts e, b) /\ mem t !! buf e0 = Some b
  else owned l !! row_ e0 = None.

(** The entry was read. *)
Definition ready (l : know) (t : stxn) (e0 e : skey) : Prop :=
  if wr e0 then get_write_lock_bit e = true
  else exists b, (row_ e0, get_wts e, get_rts e, b) ∈ leases l /\ mem t !! buf e0 = Some b /\ (near e0 = false -> get_wts e <= commit_ts t).

Definition fine (k : row_id) (x : Z * Z * bytes) : Prop := 0 <= x.1.1 <= x.1.2 /\ x.1.2 < 2 ^ 64 - 1 /\ length x.2 = size k.1.1.

(** [n] entries are not served yet; [ws] is on its way. *)
Record reading (n : nat) (ws : list (request * work)) (t : stxn) (l : know) : Prop := Reading {
  rd_id : transaction_id t = tid;
  rd_writes : writeSet t = writes0;
  rd_rest : scanSet t = [] /\ insertSet t = [] /\ deleteSet t = [];
  rd_flags : abort_read_validation t = false /\ abort_insert t = false /\ abort_delete t = false;
  rd_ts : 0 <= commit_ts t;
  rd_pending : pendingResponses t = Z.of_nat (length ws);
  rd_len : length (readSet t) = length reads0;
  rd_offsets : NoDup (offset <$> ws.*2);
  rd_works : forall m w, (m, w) ∈ ws -> exists e0 e, reads0 !! offset w = Some e0 /\ readSet t !! offset w = Some e /\
    flight_ok l e0 w /\ get_write_lock_bit e = false;
  rd_entries : forall i e0 e, reads0 !! i = Some e0 -> readSet t !! i = Some e -> same e0 e /\
    (exists b, mem t !! buf e0 = Some b /\ length b = size (get_table_id e0)) /\
    (i ∈ offset <$> ws.*2 \/
     settled l t e0 e /\ (ready l t e0 e \/ ((i < n)%nat /\ get_write_lock_bit e = false /\ get_processed e = false) \/ abort_lock t = true));
  rd_owned : forall k x, owned l !! k = Some x -> (exists e0, e0 ∈ reads0 /\ k = row_ e0) /\ fine k x;
  rd_wrote : wrote l = ∅;
  rd_mem : forall p, p ∉ buf <$> reads0 -> mem t !! p = mem0 !! p
}.

Lemma row_inj i j e e' : reads0 !! i = Some e -> reads0 !! j = Some e' -> row_ e = row_ e' -> i = j.
Proof. intros Hi Hj E. apply (NoDup_lookup (row_ <$> reads0) i j (row_ e)); [apply (q_distinct Hq)|now rewrite list_lookup_fmap, Hi|rewrite list_lookup_fmap, Hj; cbn; congruence]. Qed.
Lemma buf_inj i j e e' : reads0 !! i = Some e -> reads0 !! j = Some e' -> buf e = buf e' -> i = j.
Proof. intros Hi Hj E. apply (NoDup_lookup (buf <$> reads0) i j (buf e)); [apply (q_buffers Hq)|now rewrite list_lookup_fmap, Hi|rewrite list_lookup_fmap, Hj; cbn; congruence]. Qed.

(** Only what belongs to one entry changes. *)
Record for_entry (i : nat) (e0 e e' : skey) (t t' : stxn) (l l' : know) : Prop := ForEntry {
  fe_entry : reads0 !! i = Some e0;
  fe_old : readSet t !! i = Some e;
  fe_new : readSet t' = <[i := e']> (readSet t);
  fe_same : same e e';
  fe_id : transaction_id t' = transaction_id t;
  fe_writes : writeSet t' = writeSet t;
  fe_rest : scanSet t' = scanSet t /\ insertSet t' = insertSet t /\ deleteSet t' = deleteSet t;
  fe_flags : abort_read_validation t' = abort_read_validation t /\ abort_insert t' = abort_insert t /\ abort_delete t' = abort_delete t;
  fe_lock : abort_lock t = true -> abort_lock t' = true;
  fe_ts : commit_ts t <= commit_ts t';
  fe_mem : forall p, p <> buf e0 -> mem t' !! p = mem t !! p;
  fe_buffer : exists b, mem t' !! buf e0 = Some b /\ length b = size (get_table_id e0);
  fe_owned : forall k, k <> row_ e0 -> owned l' !! k = owned l !! k;
  fe_fine : forall x, owned l' !! row_ e0 = Some x -> fine (row_ e0) x;
  fe_leases : forall x, x ∈ leases l -> x ∈ leases l';
  fe_wrote : wrote l' = wrote l
}.

Lemma flight_other l l' e0 e1 w : row_ e1 <> row_ e0 -> (forall k, k <> row_ e0 -> owned l' !! k = owned l !! k) ->
  (forall x, x ∈ leases l -> x ∈ leases l') -> flight_ok l e1 w -> flight_ok l' e1 w.
Proof.
  intros Hne Ho Hl. destruct w as [[]| | |[]]; cbn; try easy.
  - intros (-> & -> & H). now rewrite Ho.
  - intros (-> & H & H2). now rewrite Ho.
  - intros (-> & H1 & H2 & H3). split; [easy|]. split; [easy|]. split; [easy|]. rewrite Ho by easy. destruct (wr e1); [easy|]. destruct H3. auto.
Qed.

Lemma reading_step n n' ws ws' i e0 e e' t t' l l' :
  reading n ws t l -> for_entry i e0 e e' t t' l l' ->
  pendingResponses t' = Z.of_nat (length ws') -> NoDup (offset <$> ws'.*2) ->
  (forall m w, (m, w) ∈ ws' -> offset w <> i -> (m, w) ∈ ws) -> (forall j, j <> i -> j ∈ offset <$> ws.*2 -> j ∈ offset <$> ws'.*2) ->
  (forall m w, (m, w) ∈ ws' -> offset w = i -> flight_ok l' e0 w /\ get_write_lock_bit e' = false) ->
  (i ∈ offset <$> ws'.*2 \/ settled l' t' e0 e' /\
     (ready l' t' e0 e' \/ ((i < n')%nat /\ get_write_lock_bit e' = false /\ get_processed e' = false) \/ abort_lock t' = true)) ->
  abort_lock t' = true \/ (forall j, (j < n)%nat -> (j < n')%nat \/ j = i) ->
  reading n' ws' t' l'.
Proof.
  intros [R1 R2 R3 R4 R5 R6 R7 R8 R9 R10 R11 R12 R13] [F1 F2 F3 F4 F5 F6 F7 F8 F9 F10 F11 F12 F13 F14 F15 F16] Hp Hnd Hw Hoff Hi Hst Hn.
  assert (i < length (readSet t))%nat as Hlt by (eapply lookup_lt_Some; exact F2).
  split; [congruence|congruence|destruct F7 as (-> & -> & ->); easy|destruct F8 as (-> & -> & ->); easy|lia|exact Hp|rewrite F3, length_insert; exact R7|exact Hnd| | | |congruence|].
  - intros m w Hmw. destruct (decide (offset w = i)) as [E|Hne].
    + destruct (Hi m w Hmw E) as [H1 H2]. exists e0, e'. rewrite E, F3, list_lookup_insert_eq by exact Hlt. easy.
    + destruct (R9 m w (Hw m w Hmw Hne)) as (e1 & e2 & H1 & H2 & H3 & H4). exists e1, e2. rewrite F3, list_lookup_insert_ne by congruence.
      split; [exact H1|]. split; [exact H2|]. split; [|exact H4]. eapply flight_other; [|exact F13|exact F15|exact H3].
      intros E. apply Hne. eapply row_inj; [exact H1|exact F1|exact E].
  - intros j e1 e2 H1 H2. rewrite F3 in H2. destruct (decide (j = i)) as [->|Hne].
    + rewrite list_lookup_insert_eq in H2 by exact Hlt. injection H2 as <-. rewrite F1 in H1. injection H1 as <-.
      destruct (R10 i e0 e F1 F2) as (Hs & _). split; [eapply same_trans; eauto|]. split; [exact F12|exact Hst].
    + rewrite list_lookup_insert_ne in H2 by congruence. destruct (R10 j e1 e2 H1 H2) as (Hs & (b & Hb & Hlen) & Hcase).
      assert (row_ e1 <> row_ e0) as Hrow by (intros E; apply Hne; eapply row_inj; eauto).
      assert (buf e1 <> buf e0) as Hbuf by (intros E; apply Hne; eapply buf_inj; eauto).
      split; [exact Hs|]. split; [exists b; now rewrite F11|]. destruct Hcase as [Hc|[Hc1 Hc2]]; [left; now apply Hoff|]. right. split.
      * unfold settled in *. rewrite F13, F11 by easy. exact Hc1.
      * destruct Hc2 as [Hc2|[(H3 & H4)|H3]]; [left|destruct Hn as [Hn|Hn]; [right; right; exact Hn|right; left; split; [destruct (Hn j H3); easy|exact H4]]|right; right; auto].
        unfold ready in *. destruct (wr e1); [exact Hc2|]. destruct Hc2 as (b2 & Hl & Hm & Hts). exists b2. rewrite F11 by easy. split; [auto|]. split; [easy|]. intros. specialize (Hts ltac:(easy)). lia.
  - intros k x Hk. destruct (decide (k = row_ e0)) as [->|Hne]; [|rewrite F13 in Hk by easy; now apply R11].
    split; [|now apply F14]. exists e0. split; [|easy]. eapply list_elem_of_lookup_2, F1.
  - intros p Hp'. rewrite F11; [now apply R13|]. intros ->. apply Hp'. apply list_elem_of_fmap. exists e0. split; [easy|]. eapply list_elem_of_lookup_2, F1.
Qed.

Definition received (ms : list request) : list (request * work) := (fun m => (m, Received m)) <$> ms.

(** What serving an entry leaves behind. *)
Definition served (i : nat) (e0 e : skey) (t : stxn) (l : know) (ok : bool) (t' : stxn) (l' : know) : Prop :=
  exists e', for_entry i e0 e e' t t' l l' /\
    if ok then
      (outbox t' = outbox t /\ pendingResponses t' = pendingResponses t /\ settled l' t' e0 e' /\ ready l' t' e0 e') \/
      (outbox t' = outbox t ++ [ReadRequest (row_ e0) (wr e0) i] /\ pendingResponses t' = pendingResponses t + 1 /\
       owned l' !! row_ e0 = None /\ get_write_lock_bit e' = false)
    else outbox t' = outbox t /\ pendingResponses t' = pendingResponses t /\ settled l' t' e0 e'.

Abbreviation handler := (Sundial.readRequestHandler me master_coordinator replicated_on size key_at read_on_replica).

Ltac for_entry_tac := split; cbn; try solve [easy | lia | tauto | assumption].

Lemma handler_ok i e0 e t l :
  reads0 !! i = Some e0 -> readSet t !! i = Some e -> same e0 e -> get_write_lock_bit e = false -> owned l !! row_ e0 = None ->
  transaction_id t = tid -> (exists b, mem t !! buf e0 = Some b /\ length b = size (get_table_id e0)) ->
  run (handler i e) t l (served i e0 e t l).
Proof.
  intros He0 He Hs Hlk Hown Hid (b0 & Hb0 & Hlen0).
  assert (e0 ∈ reads0) as Hin by (eapply list_elem_of_lookup_2, He0).
  destruct (q_key Hq _ Hin) as [p Hp], (q_value Hq _ Hin) as [v Hv].
  destruct (same_facts _ _ Hs) as (Er & Eb & Ew & Ei & En). destruct Hs as (Hk & Hval & Ht & Hpa & Hw & Hx & Hpos).
  assert ((get_table_id e, get_partition_id e, key_at p) = row_ e0) as Erow by (unfold row_; now rewrite Ht, Hpa, Hp).
  assert (buf e0 = v) as Ebuf by (unfold buf; now rewrite Hv). rewrite Ebuf in Hb0.
  unfold Sundial.readRequestHandler. fold (wr e) (idx e). fold (near e).
  apply tsafe_bind. unfold Sundial.row_of. apply tsafe_bind, (tsafe_access _ _ _ _ _ p); [congruence|]. apply tsafe_ret. rewrite Erow, Ew, En.
  destruct (near e0) eqn:Enear.
  2: { apply tsafe_bind, tsafe_assign. apply tsafe_bind, tsafe_assign. apply tsafe_ret. exists e. split.
       - for_entry_tac; [now rewrite list_insert_id|rewrite Ebuf; eauto|]. intros x Hx'. congruence.
       - right. cbn. rewrite Z.add_comm. easy. }
  apply tsafe_bind, tsafe_local. rewrite Hid. assert (row_ e0 ∈ rows) as Hrow by now apply (q_rows Hq).
  assert (size (get_table_id e) = size (row_ e0).1.1) as Esize by (cbn; congruence). rewrite Esize.
  (** the part after the lock *)
  assert (forall (ok : bool) (l1 : know), (forall k, k <> row_ e0 -> owned l1 !! k = owned l !! k) -> (forall x, x ∈ leases l -> x ∈ leases l1) -> wrote l1 = wrote l ->
    (if wr e0 then (if ok then exists x, owned l1 !! row_ e0 = Some x /\ fine (row_ e0) x else owned l1 !! row_ e0 = None) else owned l1 !! row_ e0 = None) ->
    run (dest ← Sundial.buffer_of e;
         '(wts, rts, b) ← atomic (SundialHelper.read (row_ e0) dest (size (row_ e0).1.1));
         Sundial.fill_buffer e b;;
         assign (on_read i (fun e => set_rts rts (set_wts wts e)));;
         (if wr e0 then if ok : bool then assign (on_read i set_write_lock_bit);; mret true else assign set_abort_lock;; mret false else mret true)) t l1 (served i e0 e t l)) as Hrest.
  { intros ok l1 Ho1 Hl1 Hw1 Hcase. unfold Sundial.buffer_of, Sundial.fill_buffer.
    apply tsafe_bind, tsafe_bind, (tsafe_access _ _ _ _ _ v); [congruence|]. apply (tsafe_access _ _ _ _ _ b0); [exact Hb0|].
    apply tsafe_bind, tsafe_atomic. eapply step_ok_mono; [|apply read_ok; [exact Hrow|rewrite Hlen0; cbn; congruence]].
    intros x l2 (w & r & b & -> & -> & Hlb & Hwr & Hsame). cbn beta iota.
    apply tsafe_bind, tsafe_bind, (tsafe_access _ _ _ _ _ v); [congruence|]. apply tsafe_assign.
    apply tsafe_bind, tsafe_assign. set (e1 := set_rts r (set_wts w e)).
    assert (for_entry i e0 e e1 t (on_read i (fun e => set_rts r (set_wts w e)) (on_mem (insert v b) t)) l (add_lease (row_ e0) w r b l1)) as Hfe.
    { for_entry_tac.
      - now rewrite (alter_at _ _ _ _ He).
      - intros q Hne. rewrite lookup_insert_ne; congruence.
      - exists b. rewrite Ebuf, lookup_insert_eq. easy.
      - intros x Hx'. destruct (wr e0), ok; try congruence. destruct Hcase as (y & Hy & Hf). congruence.
      - intros x Hx'. apply elem_of_app. auto. }
    assert (mem (on_read i (fun e => set_rts r (set_wts w e)) (on_mem (insert v b) t)) !! buf e0 = Some b) as Hm by (cbn; rewrite Ebuf; apply lookup_insert_eq).
    destruct (wr e0) eqn:Ewr.
    - destruct ok.
      + apply tsafe_bind, tsafe_assign, tsafe_ret. destruct Hcase as (x & Hx' & Hf). pose proof (Hsame _ Hx') as ->.
        exists (set_write_lock_bit e1). split.
        * destruct Hfe. split; try assumption. { cbn in *. rewrite fe_new0. rewrite (alter_at _ _ i e1) by (apply list_lookup_insert_eq; eapply lookup_lt_Some, He). now rewrite list_insert_insert_eq. }
          { eapply same_trans; [eassumption|apply same_lock]. }
        * left. split; [reflexivity|]. split; [reflexivity|]. unfold settled, ready. rewrite Ewr, get_set_lock. split; [|reflexivity]. split; [reflexivity|]. exists b. split; [exact Hx'|exact Hm].
      + apply tsafe_bind, tsafe_assign, tsafe_ret. exists e1. split; [destruct Hfe; split; solve [assumption | reflexivity | easy]|].
        split; [reflexivity|]. split; [reflexivity|]. unfold settled. replace (get_write_lock_bit e1) with (get_write_lock_bit e) by reflexivity. rewrite Hlk. exact Hcase.
    - apply tsafe_ret. exists e1. split; [exact Hfe|]. left. split; [reflexivity|]. split; [reflexivity|]. unfold settled, ready. rewrite Ewr.
      replace (get_write_lock_bit e1) with (get_write_lock_bit e) by reflexivity. rewrite Hlk. split; [exact Hcase|].
      exists b. split; [apply elem_of_app; right; now apply list_elem_of_singleton|]. split; [exact Hm|congruence]. }
  destruct (wr e0) eqn:Ewr.
  - apply tsafe_bind, tsafe_bind, tsafe_atomic. eapply step_ok_mono; [|apply write_lock_ok; exact Hrow].
    intros [[] [w r]] l1 H1; apply tsafe_ret.
    + destruct H1 as (b & -> & Hlb & Hwr & Hr). apply (Hrest true).
      * intros k Hne. cbn. now rewrite lookup_insert_ne.
      * auto.
      * reflexivity.
      * exists (w, r, b). cbn. rewrite lookup_insert_eq. split; [easy|]. easy.
    + destruct H1 as (-> & Hn). apply (Hrest false); auto.
  - apply tsafe_bind, tsafe_ret. apply (Hrest true); auto.
Qed.

(** The entries below [n] are as they were. *)
Definition untouched (n : nat) (t : stxn) : Prop :=
  forall i, (i < n)%nat -> readSet t !! i = reads0 !! i /\ i ∉ offset <$> (received (outbox t)).*2.

Definition flying (n : nat) (t : stxn) (l : know) : Prop := reading n (received (outbox t)) t l.

Lemma offsets_app ms m : offset <$> (received (ms ++ [m])).*2 = (offset <$> (received ms).*2) ++ [offset (Received m)].
Proof. unfold received. now rewrite !fmap_app. Qed.

Lemma set_processed_entry i e0 e e' t t' l l' : for_entry i e0 e e' t t' l l' -> for_entry i e0 e (set_processed e') t (on_read i set_processed t') l l'.
Proof.
  intros [F1 F2 F3 F4]. split; try assumption.
  - cbn. rewrite F3, (alter_at _ _ i e') by (apply list_lookup_insert_eq; eapply lookup_lt_Some; exact F2). now rewrite list_insert_insert_eq.
Qed.

(** One more entry is served. *)
Lemma served_step i e0 e t l ok t' l' :
  flying (S i) t l -> untouched (S i) t -> reads0 !! i = Some e0 -> readSet t !! i = Some e -> served i e0 e t l ok t' l' ->
  if ok then flying i (on_read i set_processed t') l' /\ untouched i (on_read i set_processed t')
  else flying 0 (set_abort_lock t') l'.
Proof.
  intros HR Hu He0 He (e' & Hfe & Hok). destruct (Hu i ltac:(lia)) as [_ Hno]. pose proof (rd_pending _ _ _ _ HR) as Hp.
  assert (forall j, j <> i -> readSet (on_read i set_processed t') !! j = readSet t !! j) as Hother.
  { intros j Hne. rewrite (fe_new _ _ _ _ _ _ _ _ (set_processed_entry _ _ _ _ _ _ _ _ Hfe)). now rewrite list_lookup_insert_ne. }
  assert (forall m w, (m, w) ∈ received (outbox t) -> offset w <> i) as Hno'.
  { intros m w Hmw E. apply Hno. rewrite <- E. apply list_elem_of_fmap. exists w. split; [easy|]. apply list_elem_of_fmap. now exists (m, w). }
  destruct ok.
  - destruct Hok as [(Ho & Hpe & Hst & Hre)|(Ho & Hpe & Hnone & Hlk)]; split.
    + unfold flying. cbn [outbox on_read with_reads set_sets]. rewrite Ho.
      eapply (reading_step (S i) i _ _ i e0 e (set_processed e') t _ l l'); [exact HR|now apply set_processed_entry|cbn; lia|apply (rd_offsets _ _ _ _ HR)|auto|auto| | |].
      * intros m w Hmw E. exfalso. now apply (Hno' m w).
      * right. split; [exact Hst|]. left. exact Hre.
      * right. lia.
    + intros j Hj. rewrite Hother by lia. cbn [outbox on_read with_reads set_sets]. rewrite Ho. apply Hu. lia.
    + unfold flying. cbn [outbox on_read with_reads set_sets]. rewrite Ho.
      eapply (reading_step (S i) i _ _ i e0 e (set_processed e') t _ l l'); [exact HR|now apply set_processed_entry| | | | | | |].
      * cbn. rewrite Hpe, Hp. unfold received. rewrite !length_fmap, length_app. cbn. lia.
      * rewrite offsets_app. apply NoDup_app. split; [apply (rd_offsets _ _ _ _ HR)|]. split; [|apply NoDup_singleton].
        intros j Hj E. apply list_elem_of_singleton in E as ->. now apply Hno.
      * intros m w Hmw Hne. unfold received in Hmw. rewrite fmap_app in Hmw. apply elem_of_app in Hmw as [Hmw|Hmw]; [exact Hmw|].
        apply list_elem_of_singleton in Hmw as [= -> ->]. cbn in Hne. congruence.
      * intros j _ Hj. rewrite offsets_app. apply elem_of_app. now left.
      * intros m w Hmw E. unfold received in Hmw. rewrite fmap_app in Hmw. apply elem_of_app in Hmw as [Hmw|Hmw]; [exfalso; now apply (Hno' m w)|].
        apply list_elem_of_singleton in Hmw as [= -> ->]. split; [cbn; auto|exact Hlk].
      * left. rewrite offsets_app. apply elem_of_app. right. now apply list_elem_of_singleton.
      * right. lia.
    + intros j Hj. rewrite Hother by lia. cbn [outbox on_read with_reads set_sets]. rewrite Ho, offsets_app.
      destruct (Hu j ltac:(lia)) as [H1 H2]. split; [exact H1|]. intros Hin. apply elem_of_app in Hin as [Hin|Hin]; [easy|].
      apply list_elem_of_singleton in Hin. cbn in Hin. lia.
  - destruct Hok as (Ho & Hpe & Hst). unfold flying. cbn [outbox set_abort_lock set_flags]. rewrite Ho.
    eapply (reading_step (S i) 0 _ _ i e0 e e' t _ l l'); [exact HR| |cbn; lia|apply (rd_offsets _ _ _ _ HR)|auto|auto| | |].
    + destruct Hfe. split; try assumption. reflexivity.
    + intros m w Hmw E. exfalso. now apply (Hno' m w).
    + right. split; [exact Hst|]. right. right. reflexivity.
    + now left.
Qed.

(** The loop over the read set. *)
Lemma reads_loop n t l : (n <= length reads0)%nat -> flying n t l -> untouched n t ->
  run (Sundial.process_set readSet on_read handler set_abort_lock n) t l
    (fun stop t' l' => flying 0 t' l' /\ (stop = true -> abort_lock t' = true)).
Proof.
  revert t l. induction n as [|i IH]; intros t l Hn HR Hu; cbn [Sundial.process_set]; [apply tsafe_ret; easy|].
  destruct (lookup_lt_is_Some_2 reads0 i ltac:(lia)) as [e0 He0]. assert (readSet t !! i = Some e0) as He by (rewrite <- He0; now apply Hu, Nat.lt_succ_diag_r).
  assert (e0 ∈ reads0) as Hin by (eapply list_elem_of_lookup_2, He0). destruct (q_fresh Hq _ Hin) as [Hpr Hlk].
  apply tsafe_bind, (tsafe_access _ _ _ _ _ e0); [exact He|]. rewrite Hpr. apply tsafe_bind.
  destruct (rd_entries _ _ _ _ HR i e0 e0 He0 He) as (Hs & Hbuf & Hcase).
  assert (owned l !! row_ e0 = None) as Hown.
  { destruct Hcase as [Hc|[Hc _]]; [destruct (Hu i ltac:(lia)); easy|]. unfold settled in Hc. now rewrite Hlk in Hc. }
  eapply tsafe_mono; [eapply (handler_ok i e0 e0); try eassumption; apply (rd_id _ _ _ _ HR)|].
  intros ok t' l' Hsv. pose proof (served_step i e0 e0 t l ok t' l' HR Hu He0 He Hsv) as Hst. destruct ok.
  - apply tsafe_bind, tsafe_assign. apply IH; [lia|easy|easy].
  - apply tsafe_bind, tsafe_assign, tsafe_ret. easy.
Qed.

(** *** Work of the owners for one entry *)

Lemma works_insert (ws : list (request * work)) j m w w' : ws !! j = Some (m, w) -> offset w' = offset w -> NoDup (offset <$> ws.*2) ->
  (offset <$> (<[j := (m, w')]> ws).*2) = (offset <$> ws.*2) /\
  (forall m2 w2, (m2, w2) ∈ <[j := (m, w')]> ws -> (m2, w2) = (m, w') \/ ((m2, w2) ∈ ws /\ offset w2 <> offset w)).
Proof.
  intros E Eo Hnd. split.
  - rewrite !list_fmap_insert. cbn. rewrite Eo. apply list_insert_id. now rewrite !list_lookup_fmap, E.
  - intros m2 w2 H. apply list_elem_of_lookup in H as [j2 H]. destruct (decide (j2 = j)) as [->|Hne].
    + left. rewrite list_lookup_insert_eq in H by (eapply lookup_lt_Some; exact E). now injection H as <- <-.
    + rewrite list_lookup_insert_ne in H by congruence. right. split; [eapply list_elem_of_lookup_2, H|]. intros Eo2. apply Hne.
      eapply (NoDup_lookup (offset <$> ws.*2)); [exact Hnd|rewrite !list_lookup_fmap, H; reflexivity|rewrite !list_lookup_fmap, E; cbn; congruence].
Qed.

Lemma works_delete (ws : list (request * work)) j m w : ws !! j = Some (m, w) -> NoDup (offset <$> ws.*2) ->
  NoDup (offset <$> (delete j ws).*2) /\ (offset w ∉ offset <$> (delete j ws).*2) /\
  (forall x, x ∈ delete j ws -> x ∈ ws) /\ (forall i, i <> offset w -> i ∈ offset <$> ws.*2 -> i ∈ offset <$> (delete j ws).*2) /\
  length ws = S (length (delete j ws)).
Proof.
  intros E Hnd. assert (ws ≡ₚ (m, w) :: delete j ws) as Hp by now apply delete_Permutation.
  assert ((offset <$> ws.*2) ≡ₚ offset w :: (offset <$> (delete j ws).*2)) as Hp2 by (rewrite Hp at 1; reflexivity).
  rewrite Hp2 in Hnd. apply NoDup_cons in Hnd as [Hn1 Hn2]. split; [exact Hn2|]. split; [exact Hn1|]. split; [|split].
  - intros x Hx. rewrite Hp. now right.
  - intros i Hne Hi. rewrite Hp2 in Hi. apply elem_of_cons in Hi as [->|Hi]; [congruence|exact Hi].
  - rewrite Hp at 1. reflexivity.
Qed.

(** The work [j] goes on, and its entry with it. *)
Lemma work_step ws j m w w' e0 e t l l' :
  reading 0 ws t l -> ws !! j = Some (m, w) -> offset w' = offset w -> reads0 !! offset w = Some e0 -> readSet t !! offset w = Some e ->
  get_write_lock_bit e = false -> flight_ok l' e0 w' ->
  (forall k, k <> row_ e0 -> owned l' !! k = owned l !! k) -> (forall x, owned l' !! row_ e0 = Some x -> fine (row_ e0) x) ->
  (forall x, x ∈ leases l -> x ∈ leases l') -> wrote l' = wrote l ->
  reading 0 (<[j := (m, w')]> ws) t l'.
Proof.
  intros HR E Eo He0 He Hlk Hfl H1 H2 H3 H4. destruct (works_insert ws j m w w' E Eo (rd_offsets _ _ _ _ HR)) as [Hoff Hmem].
  eapply (reading_step 0 0 ws _ (offset w) e0 e e t t l l'); [exact HR| | | | | | | |].
  - destruct (rd_entries _ _ _ _ HR _ _ _ He0 He) as (_ & Hb & _). split; try solve [easy | assumption | lia | apply same_refl | now rewrite list_insert_id].
  - rewrite length_insert. apply (rd_pending _ _ _ _ HR).
  - rewrite Hoff. apply (rd_offsets _ _ _ _ HR).
  - intros m2 w2 Hin Hne. destruct (Hmem m2 w2 Hin) as [[= -> ->]|[? ?]]; [congruence|easy].
  - rewrite Hoff. auto.
  - intros m2 w2 Hin Ho. destruct (Hmem m2 w2 Hin) as [[= -> ->]|[? ?]]; [easy|congruence].
  - left. rewrite Hoff. apply list_elem_of_fmap. exists w. split; [easy|]. apply list_elem_of_fmap. exists (m, w). split; [easy|]. eapply list_elem_of_lookup_2, E.
  - right. lia.
Qed.

Definition is_read (mw : request * work) : Prop := match mw.1 with ReadRequest _ _ _ => True | _ => False end.
(** [ab]: the transaction was to be aborted before. *)
Definition reads_net (ab : bool) (ws : list (request * work)) (t : stxn) (l : know) : Prop :=
  reading 0 ws t l /\ outbox t = [] /\ Forall is_read ws /\ (ab = true -> abort_lock t = true).

Lemma reads_owner ab ws t l j m w : reads_net ab ws t l -> ws !! j = Some (m, w) -> answered w = false ->
  op_ok l (Sundial.owner_step size field_size tid w) (fun o l' => reads_net ab (put_work j m o ws) t l').
Proof.
  intros (HR & Hout & Hrd & Hab) E Ha. pose proof (Forall_lookup_1 _ _ _ _ Hrd E) as Hm. destruct (rd_works _ _ _ _ HR m w) as (e0 & e & He0 & He & Hfl & Hlk); [eapply list_elem_of_lookup_2, E|].
  assert (e0 ∈ reads0) as Hin by (eapply list_elem_of_lookup_2, He0). pose proof (q_rows Hq _ Hin) as Hrow.
  assert (forall x, owned l !! row_ e0 = Some x -> fine (row_ e0) x) as Hfine by (intros x Hx; now apply (rd_owned _ _ _ _ HR)).
  assert (forall k l' r, l' = add_lease k r.1.1 r.1.2 r.2 l -> forall x, x ∈ leases l -> x ∈ leases l') as Hmore.
  { intros k l' r -> x Hx. apply elem_of_app. now left. }
  destruct w as [[k b i|k i|reads redo ts|k v ts p|k v ts p|k]|k b i|reads ts b|r]; cbn in Hfl; try tauto; try discriminate Ha.
  - destruct Hfl as (-> & -> & Hnone). destruct (wr e0) eqn:Ewr; cbn [Sundial.owner_step]; unfold Sundial.read_request_handler, Sundial.read_locked, Sundial.read_row.
    + intros h s Hb HI HK. destruct (write_lock_ok size rows tid l (row_ e0) Hrow h s Hb HI HK) as ([ok [w r]] & s' & l' & Em & H1 & H2 & H3 & H4).
      exists (Some (Locked (row_ e0) ok i)), s', l'. split; [unfold mbind, M_bind; now rewrite Em|]. split; [easy|]. split; [easy|]. split; [easy|].
      split; [|split; [exact Hout|split; [now apply Forall_insert|exact Hab]]]. destruct ok.
      * destruct H4 as (b & -> & Hlen & Hwr & Hr). eapply (work_step ws j m _ _ e0 e); try eassumption; try reflexivity.
        -- cbn. rewrite lookup_insert_eq. split; [easy|]. split; [easy|]. eauto.
        -- intros k Hne. cbn. now rewrite lookup_insert_ne.
        -- intros x Hx. cbn in Hx. rewrite lookup_insert_eq in Hx. injection Hx as <-. easy.
        -- auto.
      * destruct H4 as [-> _]. eapply (work_step ws j m _ _ e0 e); try eassumption; try reflexivity; auto. cbn. auto.
    + intros h s Hb HI HK. destruct (read_ok size rows tid l (row_ e0) Hrow (replicate (size (row_ e0).1.1) Byte.x00) ltac:(apply length_replicate) h s Hb HI HK) as (x & s' & l' & Em & H1 & H2 & H3 & w & r & b & -> & -> & Hlen & Hwr & Hsame).
      exists (Some (Answered (ReadResponse b true false w r i))), s', (add_lease (row_ e0) w r b l). split; [unfold mbind, M_bind; now rewrite Em|]. split; [easy|]. split; [easy|]. split; [easy|].
      split; [|split; [exact Hout|split; [now apply Forall_insert|exact Hab]]]. eapply (work_step ws j m _ _ e0 e); try eassumption; try reflexivity; auto.
      * cbn. rewrite Ewr. split; [easy|]. split; [exact Hlen|]. split; [easy|]. split; [exact Hnone|]. apply elem_of_app. right. now apply list_elem_of_singleton.
      * exact (Hmore (row_ e0) _ (w, r, b) eq_refl).
  - destruct Hfl as (-> & Ewr & Hst). cbn [Sundial.owner_step]; unfold Sundial.read_request_handler, Sundial.read_locked, Sundial.read_row.
    intros h s Hb HI HK. destruct (read_ok size rows tid l (row_ e0) Hrow (replicate (size (row_ e0).1.1) Byte.x00) ltac:(apply length_replicate) h s Hb HI HK) as (x & s' & l' & Em & H1 & H2 & H3 & w & r & v & -> & -> & Hlen & Hwr & Hsame).
    exists (Some (Answered (ReadResponse v b true w r i))), s', (add_lease (row_ e0) w r v l). split; [unfold mbind, M_bind; now rewrite Em|]. split; [easy|]. split; [easy|]. split; [easy|].
    split; [|split; [exact Hout|split; [now apply Forall_insert|exact Hab]]]. eapply (work_step ws j m _ _ e0 e); try eassumption; try reflexivity; auto.
    + cbn. rewrite Ewr. split; [easy|]. split; [exact Hlen|]. split; [easy|]. destruct b; [|exact Hst]. destruct Hst as [y Hy]. cbn. now rewrite <- (Hsame y Hy).
    + exact (Hmore (row_ e0) _ (w, r, v) eq_refl).
Qed.

(** An answer is taken in. *)
Lemma reads_answer ab ws t l j m r : reads_net ab ws t l -> ws !! j = Some (m, Answered r) ->
  run (for_all (fun b => assign (write_log b)) (Sundial.request_log m (match r with ReadValidationAndRedoResponse s => s | _ => true end));; Sundial.handle_response size r) t l
    (fun _ t' l' => reads_net ab (delete j ws) t' l').
Proof.
  intros (HR & Hout & Hrd & Hab) E. pose proof (Forall_lookup_1 _ _ _ _ Hrd E) as Hm. unfold is_read in Hm. cbn in Hm.
  destruct m as [mk mb mi| | | | |]; try easy. cbn [Sundial.request_log for_all]. apply tsafe_bind, tsafe_ret.
  destruct (rd_works _ _ _ _ HR _ _ (list_elem_of_lookup_2 _ _ _ E)) as (e0 & e & He0 & He & Hfl & Hlk).
  destruct r as [v ok b w r i| | |]; cbn in Hfl; try tauto. cbn in He0, He. destruct Hfl as (-> & Hlen & Hwr & Hst).
  assert (e0 ∈ reads0) as Hin by (eapply list_elem_of_lookup_2, He0). destruct (q_value Hq _ Hin) as [p Hp].
  destruct (rd_entries _ _ _ _ HR _ _ _ He0 He) as (Hs & (b0 & Hb0 & Hlen0) & _). pose proof Hs as (Hk & Hval & Ht & Hpa & _).
  assert (buf e0 = p) as Ebuf by (unfold buf; now rewrite Hp). rewrite Ebuf in Hb0.
  destruct (works_delete ws j _ _ E (rd_offsets _ _ _ _ HR)) as (Hnd & Hno & Hsub & Hkeep & Hlen').
  cbn [Sundial.handle_response]. unfold Sundial.read_response_handler.
  apply tsafe_bind, (tsafe_access _ _ _ _ _ e); [exact He|]. unfold Sundial.buffer_of, Sundial.fill_buffer.
  apply tsafe_bind, tsafe_bind, (tsafe_access _ _ _ _ _ p); [congruence|]. apply (tsafe_access _ _ _ _ _ b0); [exact Hb0|].
  apply tsafe_bind, tsafe_bind, (tsafe_access _ _ _ _ _ p); [congruence|]. apply tsafe_assign.
  rewrite memcpy_full by congruence. apply tsafe_bind, tsafe_assign.
  assert (forall e' t', for_entry i e0 e e' t t' l l -> pendingResponses t' = pendingResponses t - 1 -> outbox t' = [] ->
    (settled l t' e0 e' /\ (ready l t' e0 e' \/ abort_lock t' = true)) -> reads_net ab (delete j ws) t' l) as Hdone.
  { intros e' t' Hfe Hpe Ho [Hse Hre]. split; [|split; [exact Ho|split; [now apply Forall_delete|]]].
    2: { intros H. apply (fe_lock _ _ _ _ _ _ _ _ Hfe). auto. }
    eapply (reading_step 0 0 ws _ i e0 e e' t t' l l); [exact HR|exact Hfe| |exact Hnd| |exact Hkeep| | |right; lia].
    - rewrite Hpe, (rd_pending _ _ _ _ HR). lia.
    - intros m2 w2 H2 _. now apply Hsub.
    - intros m2 w2 H2 Ho2. exfalso. apply Hno. cbn. rewrite <- Ho2. apply list_elem_of_fmap. exists w2. split; [easy|]. apply list_elem_of_fmap. now exists (m2, w2).
    - right. split; [exact Hse|]. tauto. }
  assert (mem (on_mem (insert p v) t) !! buf e0 = Some v) as Hm' by (cbn; rewrite Ebuf; apply lookup_insert_eq).
  assert (forall x, owned l !! row_ e0 = Some x -> fine (row_ e0) x) as Hfine by (intros x Hx; now apply (rd_owned _ _ _ _ HR)).
  assert (forall q, q <> buf e0 -> mem (on_mem (insert p v) t) !! q = mem t !! q) as Hmo by (intros q Hne; cbn; rewrite lookup_insert_ne; congruence).
  pose proof (lookup_lt_Some _ _ _ He) as Hlt.
  destruct (wr e0) eqn:Ewr; cbn [negb].
  - destruct ok; cbn [negb].
    + apply tsafe_bind, tsafe_assign. apply tsafe_assign. apply (Hdone (set_write_lock_bit (set_rts r (set_wts w e)))).
      * split; cbn; try solve [easy | lia | assumption]; [now rewrite (alter_at _ _ _ _ He)|eapply (same_trans _ (set_rts r (set_wts w e))); [repeat split|apply same_lock]|exists v; now rewrite Ebuf, lookup_insert_eq].
      * reflexivity.
      * exact Hout.
      * unfold settled, ready. rewrite get_set_lock, Ewr. split; [|now left]. split; [easy|]. exists v. split; [exact Hst|exact Hm'].
    + apply tsafe_assign. apply (Hdone e).
      * split; cbn; try solve [easy | lia | assumption | apply same_refl | now rewrite list_insert_id]. exists v. now rewrite Ebuf, lookup_insert_eq.
      * reflexivity.
      * exact Hout.
      * split; [|now right]. unfold settled. now rewrite Hlk.
  - apply tsafe_bind, tsafe_assign. apply tsafe_assign. destruct Hst as [Hnone Hlease]. apply (Hdone (set_rts r (set_wts w e))).
    + split; cbn; try solve [easy | lia | assumption]; [now rewrite (alter_at _ _ _ _ He)|exists v; now rewrite Ebuf, lookup_insert_eq].
    + reflexivity.
    + exact Hout.
    + split; [unfold settled; change (get_write_lock_bit (set_rts r (set_wts w e))) with (get_write_lock_bit e); now rewrite Hlk|].
      left. unfold ready. rewrite Ewr. exists v. split; [exact Hlease|]. split; [exact Hm'|]. cbn. lia.
Qed.

Abbreviation process_requests := (Sundial.process_requests me master_coordinator replicated_on size field_size key_at read_on_replica).

Lemma reading_ext n ws t t' l :
  transaction_id t' = transaction_id t -> commit_ts t' = commit_ts t -> readSet t' = readSet t -> writeSet t' = writeSet t -> scanSet t' = scanSet t ->
  insertSet t' = insertSet t -> deleteSet t' = deleteSet t -> abort_lock t' = abort_lock t -> abort_read_validation t' = abort_read_validation t ->
  abort_insert t' = abort_insert t -> abort_delete t' = abort_delete t -> pendingResponses t' = pendingResponses t -> mem t' = mem t ->
  reading n ws t l -> reading n ws t' l.
Proof.
  intros E1 E2 E3 E4 E5 E6 E7 E8 E9 E10 E11 E12 E13 [R1 R2 R3 R4 R5 R6 R7 R8 R9 R10 R11 R12 R13].
  split; rewrite ?E1, ?E2, ?E3, ?E4, ?E5, ?E6, ?E7, ?E9, ?E10, ?E11, ?E12, ?E13; try assumption.
  intros i e0 e He0 He. destruct (R10 i e0 e He0 He) as (Hs & Hb & Hc). unfold settled, ready in *. now rewrite E13, E2, E8.
Qed.

(** Flushing the requests for rows of other hosts, and waiting. *)
Lemma sync_reads t l : flying 0 t l -> Forall is_read (received (outbox t)) ->
  run (Sundial.sync_messages size field_size true) t l (fun _ t' l' => reads_net (abort_lock t) [] t' l').
Proof.
  intros HR Hrd. unfold Sundial.sync_messages. apply tsafe_bind, tsafe_local. apply tsafe_bind, tsafe_assign. apply tsafe_bind.
  eapply tsafe_mono; [apply (network_safe size field_size rows tid (reads_net (abort_lock t)))|].
  - intros ws t' l' [H _]. apply (rd_id _ _ _ _ H).
  - intros. now apply reads_answer with (m := m).
  - intros. now apply reads_owner.
  - reflexivity.
  - split; [|split; [reflexivity|split; [exact Hrd|auto]]]. eapply reading_ext; [..|exact HR]; reflexivity.
  - intros [] t' l' HN. cbn [when]. apply tsafe_bind, tsafe_local. destruct HN as (H1 & H2). rewrite (rd_pending _ _ _ _ H1). apply tsafe_ret. now split.
Qed.

(** A loop over an empty set, when the execution was not stopped before. *)
Lemma skip_set (stop : bool) set on h failed t l (Q : bool -> stxn -> know -> Prop) :
  Q stop t l -> run (if stop then mret true else Sundial.process_set set on h failed 0) t l Q.
Proof. destruct stop; apply tsafe_ret. Qed.

Lemma requests_ok t l : flying (length reads0) t l -> readSet t = reads0 -> outbox t = [] ->
  run process_requests t l (fun stop t' l' => reads_net false [] t' l' /\ stop = abort_lock t').
Proof.
  intros HR Hreads Hout. unfold Sundial.process_requests.
  apply tsafe_bind, tsafe_local. rewrite Hreads. apply tsafe_bind. eapply tsafe_mono; [apply reads_loop; [lia|exact HR|]|].
  { intros i Hi. rewrite Hreads, Hout. split; [easy|]. cbn. apply not_elem_of_nil. }
  intros stop t1 l1 (HR1 & Hstop). destruct (rd_rest _ _ _ _ HR1) as (Hsc1 & Hins1 & Hdel1).
  apply tsafe_bind, tsafe_local. rewrite Hsc1. apply tsafe_bind, skip_set.
  apply tsafe_bind, tsafe_local. rewrite Hins1. apply tsafe_bind, skip_set.
  apply tsafe_bind, tsafe_local. rewrite Hdel1. apply tsafe_bind, skip_set.
  apply tsafe_bind, tsafe_local. apply tsafe_bind.
  eapply tsafe_mono with (Q := fun _ t' l' => reads_net (abort_lock t1) [] t' l').
  - rewrite (rd_pending _ _ _ _ HR1). destruct (outbox t1) as [|m ms] eqn:Eo.
    + apply tsafe_ret. split; [|split; [exact Eo|split; [constructor|auto]]]. unfold flying in HR1. now rewrite Eo in HR1.
    + apply sync_reads; [exact HR1|]. apply Forall_forall. intros [m2 w2] Hin. pose proof Hin as Hin2. unfold received in Hin2. apply list_elem_of_fmap in Hin2 as (m3 & [= -> ->] & _).
      destruct (rd_works _ _ _ _ HR1 _ _ Hin) as (? & ? & _ & _ & Hfl & _). now destruct m3.
  - intros ? t2 l2 (H1 & H2 & H3 & H4). apply tsafe_bind, tsafe_local, tsafe_ret. split; [easy|].
    destruct (rd_flags _ _ _ _ H1) as (F1 & F2 & F3). unfold SundialTransaction.should_abort. rewrite F1, F2, F3, !orb_false_r.
    destruct stop; [|reflexivity]. cbn. symmetry. auto.
Qed.
End reading.
