(* ===== verification/SundialCommit.v ===== *)
(** * Sundial: validating, writing and releasing

    The phases of commit and abort, after the requests of a transaction were
    served ([SundialTxn]). *)

From S2P Require Import Prelude Interleave SundialRow SundialSpec Sundial SundialTxn.
Import SundialRow.SundialRWKey.

(** ** Giving locks back *)

Section releasing.
Context (size field_size : Z -> nat) (rows : gset row_id) (tid : Z).
Context (me : Z) (master_coordinator : Z -> Z) (key_at : Z -> Z).

Abbreviation run := (tsafe bounded (inv size rows) knows tid).
Abbreviation row_ := (row_ key_at).

(** The fields that the release of locks does not touch. *)
Definition same_txn (t t' : stxn) : Prop :=
  transaction_id t' = transaction_id t /\ commit_ts t' = commit_ts t /\ readSet t' = readSet t /\ writeSet t' = writeSet t /\ mem t' = mem t.

Lemma same_txn_refl t : same_txn t t.
Proof. easy. Qed.
Lemma same_txn_trans t t1 t2 : same_txn t t1 -> same_txn t1 t2 -> same_txn t t2.
Proof. unfold same_txn. intuition congruence. Qed.

(** What is known besides the locks. *)
Definition same_know (l l' : know) : Prop := leases l' = leases l /\ wrote l' = wrote l.

(** [todo] are the rows still to be unlocked; [t0] and [l0] are the beginning. *)
Record unlocking (t0 : stxn) (l0 : know) (todo : list row_id) (t : stxn) (l : know) : Prop := Unlocking {
  ul_id : transaction_id t = tid;
  ul_txn : same_txn t0 t;
  ul_know : same_know l0 l;
  ul_sent : exists sent, outbox t = UnlockRequest <$> sent /\ NoDup (sent ++ todo) /\
    forall k, is_Some (owned l !! k) <-> k ∈ sent ++ todo;
  ul_rows : forall k, is_Some (owned l !! k) -> k ∈ rows
}.

(** Unlock requests in the hands of the owners. *)
Definition unlock_net (t0 : stxn) (l0 : know) (ws : list (request * work)) (t : stxn) (l : know) : Prop :=
  transaction_id t = tid /\ same_txn t0 t /\ same_know l0 l /\ outbox t = [] /\
  exists ks, ws = received (UnlockRequest <$> ks) /\ NoDup ks /\ (forall k, is_Some (owned l !! k) <-> k ∈ ks) /\ forall k, k ∈ ks -> k ∈ rows.

Lemma unlock_net_step t0 l0 ws t l i m w : unlock_net t0 l0 ws t l -> ws !! i = Some (m, w) -> answered w = false ->
  step_ok bounded (inv size rows) knows tid l (Sundial.owner_step size field_size tid w) (fun o l' => unlock_net t0 l0 (put_work i m o ws) t l').
Proof.
  intros (Hid & Ht & Hl & Ho & ks & -> & Hnd & Hown & Hrows) E Ha. unfold received in E. rewrite list_lookup_fmap, list_lookup_fmap in E.
  destruct (ks !! i) as [k|] eqn:Ek; [|discriminate E]. cbn in E. injection E as <- <-.
  pose proof (list_elem_of_lookup_2 _ _ _ Ek) as Hin. destruct (proj2 (Hown k) Hin) as [[[w r] b] Hk].
  cbn [Sundial.owner_step]. unfold Sundial.unlock_request_handler. intros h s Hb HI HK. destruct (unlock_ok size rows tid l k w r b Hk h s Hb HI HK) as (x & s' & l' & Em & H1 & H2 & H3 & ->).
  exists None, s', (disown k l). split; [unfold mbind, M_bind; now rewrite Em|]. split; [easy|]. split; [easy|]. split; [easy|].
  assert (ks ≡ₚ k :: delete i ks) as Hp by now apply delete_Permutation. rewrite Hp in Hnd. apply NoDup_cons in Hnd as [Hn1 Hn2].
  split; [exact Hid|]. split; [exact Ht|]. split; [exact Hl|]. split; [exact Ho|]. exists (delete i ks). split; [|split; [exact Hn2|split]].
  - cbn. unfold received. now rewrite <- !list_fmap_delete.
  - intros j. cbn. destruct (decide (j = k)) as [->|Hne].
    + rewrite lookup_delete_eq. split; [now intros []|]. intros. congruence.
    + rewrite lookup_delete_ne by congruence. rewrite Hown. rewrite Hp at 1. rewrite elem_of_cons. naive_solver.
  - intros j Hj. apply Hrows. rewrite Hp. now right.
Qed.

Lemma unlocking_done t0 l0 t l : unlocking t0 l0 [] t l ->
  run (Sundial.sync_messages size field_size false) t l (fun _ t' l' => same_txn t0 t' /\ same_know l0 l' /\ owned l' = ∅).
Proof.
  intros [H1 H2 H3 (sent & H4 & H5 & H6) H7]. rewrite app_nil_r in *. unfold Sundial.sync_messages. apply tsafe_bind, tsafe_local. apply tsafe_bind, tsafe_assign. apply tsafe_bind.
  eapply tsafe_mono; [apply (network_safe size field_size rows tid (unlock_net t0 l0))|].
  - intros ws t' l' HN. apply HN.
  - intros ws t' l' i m r (_ & _ & _ & _ & ks & -> & _) E. unfold received in E. rewrite !list_lookup_fmap in E. destruct (ks !! i); discriminate E.
  - intros. now apply unlock_net_step.
  - reflexivity.
  - split; [exact H1|]. split; [exact H2|]. split; [exact H3|]. split; [reflexivity|]. exists sent. rewrite H4. split; [reflexivity|]. split; [exact H5|]. split; [exact H6|].
    intros k Hk. apply H7. now apply H6.
  - intros [] t' l' (_ & Ht & Hl & _ & ks & E & _ & Hown & _). apply tsafe_ret. split; [exact Ht|]. split; [exact Hl|].
    destruct ks; [|discriminate E]. apply map_eq. intros k. rewrite lookup_empty. destruct (owned l' !! k) as [x|] eqn:Ek; [|easy].
    exfalso. eapply not_elem_of_nil, Hown. rewrite Ek. eauto.
Qed.

(** One lock is given back, here or with a message. *)
Lemma unlock_entry_ok t0 l0 e ks t l : is_Some (get_key e) -> unlocking t0 l0 (row_ e :: ks) t l ->
  run (Sundial.unlock_entry me master_coordinator key_at e) t l (fun _ t' l' => unlocking t0 l0 ks t' l').
Proof.
  intros [p Hp] [H1 H2 H3 (sent & H4 & H5 & H6) H7].
  assert ((get_table_id e, get_partition_id e, key_at p) = row_ e) as Er by (unfold SundialTxn.row_; now rewrite Hp).
  assert (is_Some (owned l !! row_ e)) as Hs by (apply H6, elem_of_app; right; left). pose proof (H7 _ Hs) as Hrow. destruct Hs as [[[w r] b] Hk].
  unfold Sundial.unlock_entry, Sundial.unlock_row, Sundial.row_of. destruct (Sundial.has_master_partition _ _ _).
  - apply tsafe_bind, tsafe_bind, (tsafe_access _ _ _ _ _ p); [exact Hp|]. apply tsafe_ret. rewrite Er. apply tsafe_bind, tsafe_local. rewrite H1.
    apply tsafe_atomic. eapply step_ok_mono; [|eapply unlock_ok; exact Hk]. intros _ l' ->. apply NoDup_app in H5 as (Hn1 & Hn2 & Hn3). apply NoDup_cons in Hn3 as [Hn3 Hn4].
    assert (row_ e ∉ sent) as Hn5 by (intros Hin; eapply (Hn2 _ Hin); left).
    split; [exact H1|exact H2|exact H3| |].
    + exists sent. split; [exact H4|]. split.
      * apply NoDup_app. split; [exact Hn1|]. split; [|exact Hn4]. intros k Hk1 Hk2. apply (Hn2 k Hk1). now right.
      * intros k. cbn. destruct (decide (k = row_ e)) as [->|Hne].
        -- rewrite lookup_delete_eq. split; [now intros []|]. intros Hin. apply elem_of_app in Hin as [? | ?]; easy.
        -- rewrite lookup_delete_ne by congruence. rewrite H6, !elem_of_app, elem_of_cons. naive_solver.
    + intros k [x Hx]. cbn in Hx. apply H7. destruct (decide (k = row_ e)) as [->|]; [now rewrite lookup_delete_eq in Hx|]. rewrite lookup_delete_ne in Hx by congruence. eauto.
  - apply tsafe_bind, tsafe_bind, (tsafe_access _ _ _ _ _ p); [exact Hp|]. apply tsafe_ret. rewrite Er. apply tsafe_assign.
    split; [exact H1|exact H2|exact H3| |exact H7]. exists (sent ++ [row_ e]). split; [cbn; rewrite H4, fmap_app; reflexivity|]. rewrite <- app_assoc. easy.
Qed.

Abbreviation locked t := (fun e => Sundial.write_locked t e = true).

Lemma abort_ok t l : transaction_id t = tid -> insertSet t = [] -> deleteSet t = [] -> outbox t = [] ->
  (forall e, e ∈ writeSet t -> is_Some (get_key e)) -> NoDup (row_ <$> filter (locked t) (writeSet t)) ->
  (forall k, is_Some (owned l !! k) <-> k ∈ row_ <$> filter (locked t) (writeSet t)) -> (forall k, is_Some (owned l !! k) -> k ∈ rows) ->
  run (Sundial.abort me master_coordinator size field_size key_at) t l (fun _ t' l' => same_txn t t' /\ same_know l l' /\ owned l' = ∅).
Proof.
  intros Hid Hins Hdel Hout Hkey Hnd Hown Hrows. unfold Sundial.abort.
  apply tsafe_bind, tsafe_local. rewrite Hins. apply tsafe_bind, tsafe_ret. apply tsafe_bind, tsafe_local. rewrite Hdel. apply tsafe_bind, tsafe_ret.
  apply tsafe_bind, tsafe_local. apply tsafe_bind.
  eapply tsafe_mono; [apply (tsafe_for_all _ _ _ _ _ (fun es t' l' => unlocking t l (row_ <$> filter (locked t) es) t' l' /\ forall e, e ∈ es -> is_Some (get_key e)))|].
  - intros e es t1 l1 [Hu Hk]. unfold Sundial.abort_entry. apply tsafe_bind, tsafe_local.
    assert (Sundial.write_locked t1 e = Sundial.write_locked t e) as -> by (destruct (ul_txn _ _ _ _ _ Hu) as (_ & _ & E & _); unfold Sundial.write_locked; now rewrite E).
    assert (forall e', e' ∈ es -> is_Some (get_key e')) as Hk' by (intros e' He'; apply Hk; now right).
    rewrite filter_cons in Hu. destruct (Sundial.write_locked t e) eqn:El; cbn [when]; case_decide; try congruence.
    + eapply tsafe_mono; [eapply unlock_entry_ok; [apply Hk; left|exact Hu]|]. intros ? t2 l2 H2. easy.
    + apply tsafe_ret. easy.
  - split; [|exact Hkey]. split; [exact Hid|apply same_txn_refl|easy| |exact Hrows]. exists []. split; [exact Hout|]. split; [exact Hnd|exact Hown].
  - intros ? t1 l1 [Hu _]. now apply unlocking_done.
Qed.

Lemma release_ok t l : transaction_id t = tid -> outbox t = [] ->
  (forall e, e ∈ writeSet t -> is_Some (get_key e)) -> NoDup (row_ <$> writeSet t) ->
  (forall k, is_Some (owned l !! k) <-> k ∈ row_ <$> writeSet t) -> (forall k, is_Some (owned l !! k) -> k ∈ rows) ->
  run (Sundial.release_lock me master_coordinator size field_size key_at) t l (fun _ t' l' => same_txn t t' /\ same_know l l' /\ owned l' = ∅).
Proof.
  intros Hid Hout Hkey Hnd Hown Hrows. unfold Sundial.release_lock. apply tsafe_bind, tsafe_local. apply tsafe_bind.
  eapply tsafe_mono; [apply (tsafe_for_all _ _ _ _ _ (fun es t' l' => unlocking t l (row_ <$> es) t' l' /\ forall e, e ∈ es -> is_Some (get_key e)))|].
  - intros e es t1 l1 [Hu Hk]. eapply tsafe_mono; [eapply unlock_entry_ok; [apply Hk; left|exact Hu]|]. intros ? t2 l2 H2. split; [exact H2|]. intros e' He'. apply Hk. now right.
  - split; [|exact Hkey]. split; [exact Hid|apply same_txn_refl|easy| |exact Hrows]. exists []. split; [exact Hout|]. split; [exact Hnd|exact Hown].
  - intros ? t1 l1 [Hu _]. now apply unlocking_done.
Qed.
End releasing.

(** ** Installing the writes *)

Definition relog (lg : list bytes) (t : stxn) : stxn :=
  Txn (transaction_id t) (commit_ts t) (readSet t) (writeSet t) (scanSet t) (insertSet t) (deleteSet t) (abort_lock t) (abort_read_validation t) (abort_insert t) (abort_delete t) (distributed_transaction t) (single_partition t) (pendingResponses t) (mem t) (vec t) (outbox t) lg.

Lemma logs_ok size rows tid bs t l : tsafe bounded (inv size rows) knows tid (for_all (fun b => assign (write_log b)) bs) t l (fun _ t' l' => l' = l /\ exists lg, t' = relog lg t).
Proof.
  revert t. induction bs as [|b bs IH]; intros t; cbn [for_all].
  - apply tsafe_ret. split; [easy|]. exists (log t). now destruct t.
  - apply tsafe_bind, tsafe_assign. eapply tsafe_mono; [apply IH|]. intros ? t' l' (-> & lg & ->). split; [easy|]. now exists lg.
Qed.

Section writing.
Context (size field_size : Z -> nat) (serialize_value : Z -> bytes -> bytes) (rows : gset row_id) (tid : Z).
Context (me : Z) (master_coordinator : Z -> Z) (replicated_on : Z -> Z -> bool) (coordinators : list Z) (key_at : Z -> Z).
(** A value is sent as it is in memory, and rows have no replicas. *)
Context (Hfield : forall t, field_size t = size t) (Hserialize : forall t v, length v = size t -> serialize_value t v = v).
Context (Hreplicas : forall p h, replicated_on p h = true -> h = master_coordinator p).

Abbreviation run := (tsafe bounded (inv size rows) knows tid).
Abbreviation row_ := (row_ key_at).

(** The rows that are locked, the timestamp of the writes, and the new values. *)
Context (own0 : gmap row_id (Z * Z * bytes)) (ts : Z) (new : row_id -> bytes).
Context (Hown0 : forall k w r b, own0 !! k = Some (w, r, b) -> r < ts /\ k ∈ rows /\ length (new k) = size k.1.1).

Definition target (mw : request * work) : option row_id :=
  match mw.2 with Received (WriteRequest k _ _ _) => Some k | _ => None end.

Record writing (t0 : stxn) (l0 : know) (todo : list row_id) (ws : list (request * work)) (t : stxn) (l : know) : Prop := Writing {
  w_id : transaction_id t = tid;
  w_txn : same_txn t0 t;
  w_leases : leases l = leases l0;
  w_pending : pendingResponses t = Z.of_nat (length ws);
  w_works : forall m w, (m, w) ∈ ws -> match w with
    | Received (WriteRequest k v c _) => v = new k /\ c = ts
    | Answered WriteResponse => True
    | _ => False end;
  w_nodup : NoDup (todo ++ omap target ws);
  w_todo : forall k, k ∈ todo ++ omap target ws -> is_Some (own0 !! k) /\ owned l !! k = own0 !! k /\ wrote l !! k = None;
  w_done : forall k w r b, own0 !! k = Some (w, r, b) -> k ∉ todo ++ omap target ws ->
    owned l !! k = Some (ts, ts, new k) /\ wrote l !! k = Some (w, b, ts, new k);
  w_dom : forall k, own0 !! k = None -> owned l !! k = None /\ wrote l !! k = None
}.

(** A row is written. *)
Lemma writing_done t0 l0 todo ws todo' ws' t t' l k w r b :
  writing t0 l0 todo ws t l -> own0 !! k = Some (w, r, b) -> todo ++ omap target ws ≡ₚ k :: todo' ++ omap target ws' ->
  same_txn t t' -> pendingResponses t' = Z.of_nat (length ws') ->
  (forall m w, (m, w) ∈ ws' -> (m, w) ∈ ws \/ w = Answered WriteResponse) ->
  writing t0 l0 todo' ws' t' (overwrite k w b ts (new k) l).
Proof.
  intros [H1 H2 H3 H4 H5 H6 H7 H8 H9] Hk Hp Ht Hpe Hws. rewrite Hp in H6. apply NoDup_cons in H6 as [Hn1 Hn2].
  assert (forall j, j ∈ todo' ++ omap target ws' -> j ∈ todo ++ omap target ws /\ j <> k) as Hsub.
  { intros j Hj. split; [rewrite Hp; now right|]. intros ->. easy. }
  split.
  - destruct Ht as [-> _]. exact H1.
  - eapply same_txn_trans; eauto.
  - exact H3.
  - exact Hpe.
  - intros m x Hx. destruct (Hws m x Hx) as [? | ->]; [now apply (H5 m)|easy].
  - exact Hn2.
  - intros j Hj. destruct (Hsub j Hj) as [Hj1 Hne]. cbn. rewrite !lookup_insert_ne by congruence. now apply H7.
  - intros j w2 r2 b2 Hj Hnot. cbn. destruct (decide (j = k)) as [->|Hne].
    + rewrite Hk in Hj. injection Hj as <- <- <-. now rewrite !lookup_insert_eq.
    + rewrite !lookup_insert_ne by congruence. eapply H8; [exact Hj|]. rewrite Hp. intros Hin. apply elem_of_cons in Hin as [? | ?]; easy.
  - intros j Hj. cbn. rewrite !lookup_insert_ne by congruence. now apply H9.
Qed.

Lemma write_entry_ok t0 l0 e later ks t l p v :
  get_key e = Some p -> get_value e = Some v -> mem t0 !! v = Some (new (row_ e)) -> commit_ts t0 = ts ->
  writing t0 l0 (row_ e :: ks) (received (outbox t)) t l ->
  run (Sundial.write_entry me master_coordinator size serialize_value key_at e later) t l
    (fun _ t' l' => writing t0 l0 ks (received (outbox t')) t' l').
Proof.
  intros Hp Hv Hm Hts HW. pose proof (w_txn _ _ _ _ _ _ HW) as Ht. destruct (w_todo _ _ _ _ _ _ HW (row_ e)) as ([[[w r] b] Ho] & Hown & Hnone); [left|].
  destruct (Hown0 _ _ _ _ Ho) as (Hr & Hrow & Hlen). rewrite Ho in Hown.
  assert ((get_table_id e, get_partition_id e, key_at p) = row_ e) as Er by (unfold SundialTxn.row_; now rewrite Hp).
  unfold Sundial.write_entry, Sundial.row_of, Sundial.buffer_of. apply tsafe_bind, tsafe_bind, (tsafe_access _ _ _ _ _ p); [exact Hp|]. apply tsafe_ret. rewrite Er.
  apply tsafe_bind, tsafe_bind, (tsafe_access _ _ _ _ _ v); [exact Hv|]. apply (tsafe_access _ _ _ _ _ (new (row_ e))); [destruct Ht as (_ & _ & _ & _ & ->); exact Hm|].
  apply tsafe_bind, tsafe_local. apply tsafe_bind, tsafe_local. rewrite (w_id _ _ _ _ _ _ HW).
  assert (commit_ts t = ts) as -> by (destruct Ht as (_ & -> & _); exact Hts). destruct (Sundial.has_master_partition _ _ _).
  - apply tsafe_atomic. change (size (get_table_id e)) with (size (row_ e).1.1).
    eapply step_ok_mono; [|eapply update_ok; [exact Hown|exact Hnone|exact Hr|exact Hlen]]. intros _ l' ->.
    eapply (writing_done t0 l0 (row_ e :: ks) _ ks _ t t l (row_ e) w r b HW Ho); [reflexivity|apply same_txn_refl|apply (w_pending _ _ _ _ _ _ HW)|auto].
  - apply tsafe_assign. rewrite Hserialize by exact Hlen. destruct HW as [H1 H2 H3 H4 H5 H6 H7 H8 H9].
    assert (forall a, omap target (received (outbox t ++ [WriteRequest (row_ e) (new (row_ e)) ts a])) = omap target (received (outbox t)) ++ [row_ e]) as Eo
      by (intros a; unfold received; rewrite fmap_app, omap_app; reflexivity).
    assert (forall a, ks ++ omap target (received (outbox t ++ [WriteRequest (row_ e) (new (row_ e)) ts a])) ≡ₚ (row_ e :: ks) ++ omap target (received (outbox t))) as Hperm.
    { intros a. rewrite Eo. rewrite app_assoc. rewrite (Permutation_app_comm _ [row_ e]). reflexivity. }
    cbn [outbox ask send on_pending on_outbox]. split; try assumption.
    + cbn. rewrite H4. unfold received. rewrite !length_fmap, length_app. cbn. lia.
    + intros m x Hx. unfold received in Hx. rewrite fmap_app in Hx. apply elem_of_app in Hx as [Hx|Hx]; [now apply (H5 m)|].
      apply list_elem_of_singleton in Hx as [= -> ->]. easy.
    + rewrite Hperm. exact H6.
    + intros k. rewrite Hperm. apply H7.
    + intros k w2 r2 b2. rewrite Hperm. apply H8.
Qed.

Lemma no_replicas e later hosts t l (Q : unit -> stxn -> know -> Prop) : Q tt t l ->
  run (for_all (Sundial.replicate_to me master_coordinator replicated_on size serialize_value key_at e later) hosts) t l Q.
Proof.
  intros HQ. induction hosts as [|h hosts IH]; cbn [for_all]; [now apply tsafe_ret|]. apply tsafe_bind. unfold Sundial.replicate_to at 1.
  destruct (replicated_on (get_partition_id e) h) eqn:E; cbn [negb orb]; [|apply tsafe_ret, IH].
  rewrite (Hreplicas _ _ E). unfold Sundial.owner_of. rewrite Z.eqb_refl. apply tsafe_ret, IH.
Qed.

Lemma write_entries_ok t0 l0 es t l : commit_ts t0 = ts -> writing t0 l0 (row_ <$> es) (received (outbox t)) t l ->
  (forall e, e ∈ es -> is_Some (get_key e) /\ exists v, get_value e = Some v /\ mem t0 !! v = Some (new (row_ e))) ->
  run (Sundial.write_entries me master_coordinator replicated_on coordinators size serialize_value key_at es) t l
    (fun _ t' l' => writing t0 l0 [] (received (outbox t')) t' l').
Proof.
  intros Hts. revert t l. induction es as [|e es IH]; intros t l HW He; cbn [Sundial.write_entries]; [now apply tsafe_ret|].
  destruct (He e ltac:(left)) as ([p Hp] & v & Hv & Hm). apply tsafe_bind.
  eapply tsafe_mono; [eapply write_entry_ok; eassumption|]. intros ? t1 l1 HW1. apply tsafe_bind, no_replicas. apply IH; [exact HW1|]. intros e' He'. apply He. now right.
Qed.

(** Write requests in the hands of the owners. *)
Definition write_net (t0 : stxn) (l0 : know) (ws : list (request * work)) (t : stxn) (l : know) : Prop :=
  writing t0 l0 [] ws t l /\ outbox t = [].

Lemma write_net_step t0 l0 ws t l i m w : write_net t0 l0 ws t l -> ws !! i = Some (m, w) -> answered w = false ->
  step_ok bounded (inv size rows) knows tid l (Sundial.owner_step size field_size tid w) (fun o l' => write_net t0 l0 (put_work i m o ws) t l').
Proof.
  intros [HW Ho] E Ha. pose proof (w_works _ _ _ _ _ _ HW m w (list_elem_of_lookup_2 _ _ _ E)) as Hw.
  destruct w as [[| | |k v c pe| |]| | |]; try easy. destruct Hw as [-> ->].
  assert (omap target ws ≡ₚ k :: omap target (delete i ws)) as Hp.
  { transitivity (omap target ((m, Received (WriteRequest k (new k) ts pe)) :: delete i ws)); [|reflexivity]. apply omap_Permutation. now apply delete_Permutation. }
  destruct (w_todo _ _ _ _ _ _ HW k) as ([[[w r] b] Hk] & Hown & Hnone); [cbn; rewrite Hp; left|]. rewrite Hk in Hown.
  destruct (Hown0 _ _ _ _ Hk) as (Hr & Hrow & Hlen). cbn [Sundial.owner_step]. unfold Sundial.write_request_handler. rewrite Hfield.
  intros h s Hb HI HK. destruct (update_ok size rows tid l k w r b (new k) ts Hown Hnone Hr Hlen h s Hb HI HK) as (x & s' & l' & Em & H1 & H2 & H3 & ->).
  exists (Some (Answered WriteResponse)), s', (overwrite k w b ts (new k) l). split; [unfold mbind, M_bind; now rewrite Em|]. split; [easy|]. split; [easy|]. split; [easy|].
  split; [|exact Ho]. cbn [put_work]. eapply (writing_done t0 l0 [] ws [] _ t t l k w r b HW Hk); [|apply same_txn_refl|rewrite length_insert; apply (w_pending _ _ _ _ _ _ HW)|].
  - cbn. rewrite Hp. apply perm_skip. assert (i < length ws)%nat as Hi by (eapply lookup_lt_Some; exact E).
    rewrite insert_take_drop by exact Hi. rewrite delete_take_drop. rewrite !omap_app. reflexivity.
  - intros m2 w2 H. apply list_elem_of_lookup in H as [j H]. destruct (decide (j = i)) as [->|Hne].
    + rewrite list_lookup_insert_eq in H by (eapply lookup_lt_Some; exact E). injection H as <- <-. now right.
    + rewrite list_lookup_insert_ne in H by congruence. left. eapply list_elem_of_lookup_2, H.
Qed.

Lemma write_net_answer t0 l0 ws t l i m r : write_net t0 l0 ws t l -> ws !! i = Some (m, Answered r) ->
  run (for_all (fun b => assign (write_log b)) (Sundial.request_log m (match r with ReadValidationAndRedoResponse s => s | _ => true end));; Sundial.handle_response size r) t l
    (fun _ t' l' => write_net t0 l0 (delete i ws) t' l').
Proof.
  intros [HW Ho] E. pose proof (w_works _ _ _ _ _ _ HW _ _ (list_elem_of_lookup_2 _ _ _ E)) as Hw. cbn in Hw. destruct r; try easy.
  apply tsafe_bind. eapply tsafe_mono; [apply logs_ok|]. intros ? t1 l1 (-> & lg & ->). cbn [Sundial.handle_response]; unfold Sundial.write_response_handler, Sundial.read_validation_and_redo_response_handler. apply tsafe_assign.
  split; [|exact Ho]. pose proof (delete_Permutation _ _ _ E) as Hp.
  assert (omap target ws ≡ₚ omap target (delete i ws)) as Hp2 by (transitivity (omap target ((m, Answered WriteResponse) :: delete i ws)); [now apply omap_Permutation|reflexivity]).
  destruct HW as [H1 H2 H3 H4 H5 H6 H7 H8 H9]. cbn [app] in *. split; try assumption; cbn [app].
  - cbn. rewrite H4. rewrite Hp at 1. cbn. lia.
  - intros m2 w2 Hin. apply (H5 m2). rewrite Hp. now right.
  - rewrite <- Hp2. exact H6.
  - intros k. rewrite <- Hp2. apply H7.
  - intros k w2 r2 b2. rewrite <- Hp2. apply H8.
Qed.

(** [write_and_replicate]: every locked row has its new version. *)
Lemma write_ok t l : transaction_id t = tid -> commit_ts t = ts -> outbox t = [] -> pendingResponses t = 0 -> owned l = own0 -> wrote l = ∅ ->
  NoDup (row_ <$> writeSet t) -> (forall k, is_Some (own0 !! k) <-> k ∈ row_ <$> writeSet t) ->
  (forall e, e ∈ writeSet t -> is_Some (get_key e) /\ exists v, get_value e = Some v /\ mem t !! v = Some (new (row_ e))) ->
  run (Sundial.write_and_replicate me master_coordinator replicated_on coordinators size field_size serialize_value key_at) t l
    (fun _ t' l' => same_txn t t' /\ outbox t' = [] /\ leases l' = leases l /\
      (forall k w r b, own0 !! k = Some (w, r, b) -> owned l' !! k = Some (ts, ts, new k) /\ wrote l' !! k = Some (w, b, ts, new k)) /\
      (forall k, own0 !! k = None -> owned l' !! k = None /\ wrote l' !! k = None)).
Proof.
  intros Hid Hts Hout Hpe Hown Hwr Hnd Hdom He. unfold Sundial.write_and_replicate. apply tsafe_bind, tsafe_local. apply tsafe_bind.
  eapply tsafe_mono; [apply (write_entries_ok t l (writeSet t) t l Hts); [|exact He]|].
  - rewrite Hout. split; try easy; cbn; rewrite ?app_nil_r; try easy.
    + intros k Hk. rewrite Hown, Hwr, lookup_empty. split; [now apply Hdom|easy].
    + intros k w r b Hk Hn. exfalso. apply Hn, Hdom. eauto.
    + intros k Hk. now rewrite Hown, Hwr, lookup_empty.
  - intros [] t1 l1 HW. unfold Sundial.sync_messages. apply tsafe_bind, tsafe_local. apply tsafe_bind, tsafe_assign. apply tsafe_bind.
    eapply tsafe_mono; [apply (network_safe size field_size rows tid (write_net t l))|].
    + intros ws t' l' [H _]. apply (w_id _ _ _ _ _ _ H).
    + intros. now apply write_net_answer.
    + intros. now apply write_net_step.
    + reflexivity.
    + split; [|reflexivity]. destruct HW. split; assumption.
    + intros [] t2 l2 [HW2 Ho2]. cbn [when]. apply tsafe_bind, tsafe_local. rewrite (w_pending _ _ _ _ _ _ HW2). apply tsafe_ret.
      destruct HW2 as [H1 H2 H3 H4 H5 H6 H7 H8 H9]. split; [exact H2|]. split; [exact Ho2|]. split; [exact H3|]. split; [|exact H9].
      intros k w r b Hk. eapply H8; [exact Hk|]. cbn. apply not_elem_of_nil.
Qed.
End writing.

(** ** Locking the write set *)

Lemma sync_nothing size field_size rows tid b t l (Q : unit -> stxn -> know -> Prop) : outbox t = [] -> pendingResponses t = 0 -> Q tt t l ->
  tsafe bounded (inv size rows) knows tid (Sundial.sync_messages size field_size b) t l Q.
Proof.
  intros Ho Hp HQ. unfold Sundial.sync_messages. apply tsafe_bind, tsafe_local. apply tsafe_bind, tsafe_assign. rewrite Ho.
  replace (on_outbox (fun _ => []) t) with t by (destruct t; cbn in Ho; now subst). apply tsafe_bind, tsafe_ret.
  destruct b; [|now apply tsafe_ret]. cbn [when]. apply tsafe_bind, tsafe_local. rewrite Hp. now apply tsafe_ret.
Qed.

Section committing.
Context (size field_size : Z -> nat) (serialize_value : Z -> bytes -> bytes) (rows : gset row_id) (tid : Z).
Context (me : Z) (master_coordinator : Z -> Z) (replicated_on : Z -> Z -> bool) (coordinators : list Z).
Context (key_at : Z -> Z) (key_bytes : Z -> bytes).
Context (reads0 writes0 : list skey).

Abbreviation run := (tsafe bounded (inv size rows) knows tid).
Abbreviation row_ := (row_ key_at).

(** Every write is for a row that was read for update, and the other way round. *)
Record updates : Prop := Updates {
  u_entry : forall e, e ∈ writes0 -> is_Some (get_value e) /\ get_write_lock_bit e = false /\
    exists i e0, get_read_set_pos e = Z.of_nat i /\ reads0 !! i = Some e0 /\ wr e0 = true /\
      get_key e = get_key e0 /\ get_table_id e = get_table_id e0 /\ get_partition_id e = get_partition_id e0;
  u_once : NoDup (get_read_set_pos <$> writes0);
  u_all : forall i e0, reads0 !! i = Some e0 -> wr e0 = true -> exists e, e ∈ writes0 /\ get_read_set_pos e = Z.of_nat i;
  u_keys : NoDup (get_key <$> reads0)
}.
Context (Hu : updates) (Hq : requests rows key_at reads0).

(** The entries and the values that were read, all locks being held. *)
Context (rs : list skey) (vals : list bytes).

Record held (l : know) : Prop := Held {
  h_len : length rs = length reads0;
  h_vals : length vals = length reads0;
  h_entry : forall i e0 e b, reads0 !! i = Some e0 -> rs !! i = Some e -> vals !! i = Some b -> same e0 e /\ get_write_lock_bit e = wr e0 /\
    if wr e0 then owned l !! row_ e0 = Some (get_wts e, get_rts e, b)
    else owned l !! row_ e0 = None /\ (row_ e0, get_wts e, get_rts e, b) ∈ leases l;
  h_owned : forall k x, owned l !! k = Some x -> (exists e0, e0 ∈ reads0 /\ wr e0 = true /\ k = row_ e0) /\ fine size k x
}.

Definition set_ts_writes (c : Z) (w : list skey) (t : stxn) : stxn :=
  Txn (transaction_id t) c (readSet t) w (scanSet t) (insertSet t) (deleteSet t) (abort_lock t) (abort_read_validation t) (abort_insert t) (abort_delete t) (distributed_transaction t) (single_partition t) (pendingResponses t) (mem t) (vec t) (outbox t) (log t).

Lemma lookup_pair i e0 l : held l -> reads0 !! i = Some e0 -> exists e b, rs !! i = Some e /\ vals !! i = Some b.
Proof.
  intros [H1 H2 _ _] He. pose proof (lookup_lt_Some _ _ _ He). destruct (lookup_lt_is_Some_2 rs i ltac:(lia)) as [e E1], (lookup_lt_is_Some_2 vals i ltac:(lia)) as [b E2]. eauto.
Qed.

(** The writes up to [i] are marked, and the timestamp is beyond their leases. *)
Definition marked (i : nat) (t0 t : stxn) : Prop :=
  exists c, t = set_ts_writes c ((set_write_lock_bit <$> take i writes0) ++ drop i writes0) t0 /\ commit_ts t0 <= c /\
    forall j e r, (j < i)%nat -> writes0 !! j = Some e -> rs !! Z.to_nat (get_read_set_pos e) = Some r -> get_rts r < c.

Lemma lock_entries_ok t0 l n i t : held l -> readSet t0 = rs -> (i + n = length writes0)%nat -> marked i t0 t ->
  run (Sundial.lock_entries me master_coordinator key_at n i) t l (fun _ t' l' => l' = l /\ marked (length writes0) t0 t').
Proof.
  intros HH Hrs. revert i t. induction n as [|n IH]; intros i t Hn Hm; cbn [Sundial.lock_entries].
  { apply tsafe_ret. replace (length writes0) with i by lia. easy. }
  destruct Hm as (c & -> & Hc & Hlt). destruct (lookup_lt_is_Some_2 writes0 i ltac:(lia)) as [e He].
  pose proof (list_elem_of_lookup_2 _ _ _ He) as Hin. destruct (u_entry Hu e Hin) as (_ & _ & j & e0 & Hpos & He0 & Hwr & _).
  destruct (lookup_pair j e0 l HH He0) as (r & b & Hr & Hb). destruct (h_entry _ HH j e0 r b He0 Hr Hb) as (Hs & Hlk & Hown). rewrite Hwr in Hlk, Hown.
  destruct (h_owned _ HH _ _ Hown) as (_ & Hf). unfold fine in Hf. cbn in Hf.
  apply tsafe_bind, (tsafe_access _ _ _ _ _ e).
  { cbn. rewrite lookup_app_r by (rewrite length_fmap, length_take; lia). rewrite length_fmap, length_take, lookup_drop. rewrite <- He. f_equal. lia. }
  apply tsafe_bind, tsafe_local. unfold Sundial.read_entry_of. rewrite Hpos. destruct (Z.eqb_spec (Z.of_nat j) (-1)); [lia|]. cbn [readSet set_ts_writes]. rewrite Hrs, Nat2Z.id, Hr. cbn [from_option]. rewrite Hlk.
  apply tsafe_bind, tsafe_assign. apply tsafe_bind, tsafe_assign. apply IH; [lia|].
  exists (Z.max c (get_rts r + 1)). rewrite wrap_small by (split; lia). split; [|split; [lia|]].
  - unfold raise_commit_ts, on_write, with_writes, set_sets, set_ts_writes. cbn. f_equal.
    rewrite (take_S_r _ _ _ He), fmap_app, <- app_assoc. cbn [fmap list_fmap app]. rewrite (drop_S _ _ _ He).
    rewrite (alter_at _ _ i e) by (rewrite lookup_app_r by (rewrite length_fmap, length_take; lia); rewrite length_fmap, length_take; replace (i - i `min` length writes0)%nat with 0%nat by lia; reflexivity).
    rewrite insert_app_r_alt by (rewrite length_fmap, length_take; lia). rewrite length_fmap, length_take. replace (i - i `min` length writes0)%nat with 0%nat by lia. reflexivity.
  - intros j2 e2 r2 Hj2 He2 Hr2. destruct (decide (j2 = i)) as [->|Hne].
    + rewrite He in He2. injection He2 as <-. rewrite Hpos, Nat2Z.id, Hr in Hr2. injection Hr2 as <-. lia.
    + specialize (Hlt j2 e2 r2 ltac:(lia) He2 Hr2). lia.
Qed.

(** [lock_write_set] succeeds, since all locks are held. *)
Lemma lock_ok t l : held l -> readSet t = rs -> writeSet t = writes0 -> pendingResponses t = 0 -> outbox t = [] -> abort_lock t = false ->
  run (Sundial.lock_write_set me master_coordinator size field_size key_at) t l (fun failed t' l' => failed = false /\ l' = l /\ marked (length writes0) t t').
Proof.
  intros HH Hrs Hw Hp Ho Hal. unfold Sundial.lock_write_set. apply tsafe_bind, tsafe_local. rewrite Hw. apply tsafe_bind.
  eapply tsafe_mono; [apply (lock_entries_ok t l (length writes0) 0 t HH Hrs); [lia|]|].
  - exists (commit_ts t). cbn. split; [|split; [lia|lia]]. unfold set_ts_writes. rewrite <- Hw. now destruct t.
  - intros [] t1 l1 (-> & Hm). pose proof Hm as (c & E & _). apply tsafe_bind, tsafe_local. rewrite E at 1. cbn [pendingResponses set_ts_writes]. rewrite Hp.
    apply tsafe_bind, tsafe_must; [reflexivity|]. apply tsafe_bind, sync_nothing; [rewrite E; exact Ho|rewrite E; exact Hp|].
    apply tsafe_local. split; [rewrite E; exact Hal|]. easy.
Qed.

(** ** Validating the reads *)

Definition set_valid (f : bool) (p : Z) (o : list request) (lg : list bytes) (t : stxn) : stxn :=
  Txn (transaction_id t) (commit_ts t) (readSet t) (writeSet t) (scanSet t) (insertSet t) (deleteSet t) (abort_lock t) f (abort_insert t) (abort_delete t) (distributed_transaction t) (single_partition t) p (mem t) (vec t) o lg.

Definition grows (l l' : know) : Prop := owned l' = owned l /\ wrote l' = wrote l /\ forall x, x ∈ leases l -> x ∈ leases l'.

Lemma leases_grow_refl l : grows l l.
Proof. easy. Qed.
Lemma grows_trans l l1 l2 : grows l l1 -> grows l1 l2 -> grows l l2.
Proof. unfold grows. intuition (congruence || eauto). Qed.
Lemma held_grows l l' : held l -> grows l l' -> held l'.
Proof.
  intros [H1 H2 H3 H4] (E1 & E2 & Hl). split; try assumption; rewrite E1; [|exact H4].
  intros i e0 e b A B C. destruct (H3 i e0 e b A B C) as (X & Y & Z0). split; [exact X|]. split; [exact Y|]. destruct (wr e0); [exact Z0|]. destruct Z0. auto.
Qed.

(** The entry [i], as it was requested and read, and its value. *)
Definition entry (i : nat) (e0 e : skey) (b : bytes) : Prop := reads0 !! i = Some e0 /\ rs !! i = Some e /\ vals !! i = Some b.

Lemma entry_row i i' e0 e e0' e' b b' : entry i e0 e b -> entry i' e0' e' b' -> row_ e0 = row_ e0' -> i = i' /\ e0 = e0' /\ e = e' /\ b = b'.
Proof.
  intros (A & B & C) (A' & B' & C') E. assert (i = i') as <-.
  { apply (NoDup_lookup (row_ <$> reads0) i i' (row_ e0)); [apply (q_distinct _ _ _ Hq)|now rewrite list_lookup_fmap, A|rewrite list_lookup_fmap, A'; cbn; congruence]. }
  simplify_eq. easy.
Qed.

Context (ts : Z).

(** The version is promised up to the commit timestamp. *)
Definition lease_until (l : know) (e0 e : skey) (b : bytes) : Prop := exists r, (row_ e0, get_wts e, r, b) ∈ leases l /\ ts <= r.

Lemma lease_until_grows l l' e0 e b : grows l l' -> lease_until l e0 e b -> lease_until l' e0 e b.
Proof. intros (_ & _ & Hl) (r & Hr & ?). exists r. auto. Qed.

(** A transaction at this point. *)
Definition at_commit (t : stxn) : Prop :=
  readSet t = rs /\ commit_ts t = ts /\ Forall2 (fun e e' => get_key e' = get_key e /\ get_value e' = get_value e /\ get_table_id e' = get_table_id e /\ get_partition_id e' = get_partition_id e /\ get_read_set_pos e' = get_read_set_pos e /\ get_write_lock_bit e' = true) writes0 (writeSet t) /\
  transaction_id t = tid /\ (forall e, e ∈ writeSet t -> exists v b, get_value e = Some v /\ mem t !! v = Some b).

Lemma at_commit_writes t e : at_commit t -> e ∈ writeSet t -> exists w, w ∈ writes0 /\ get_key e = get_key w /\ get_value e = get_value w /\ get_table_id e = get_table_id w /\ get_partition_id e = get_partition_id w /\ get_read_set_pos e = get_read_set_pos w.
Proof.
  intros (_ & _ & Hw & _) He. apply list_elem_of_lookup in He as [i He]. destruct (Forall2_lookup_r _ _ _ _ _ Hw He) as (w & Hi & H). exists w. split; [eapply list_elem_of_lookup_2, Hi|]. tauto.
Qed.

Lemma write_key t e : at_commit t -> e ∈ writeSet t -> is_Some (get_key e).
Proof.
  intros Ht He. destruct (at_commit_writes t e Ht He) as (w & Hw & E & _). destruct (u_entry Hu w Hw) as (_ & _ & i & e0 & _ & He0 & _ & Ek & _).
  rewrite E, Ek. apply (q_key _ _ _ Hq). eapply list_elem_of_lookup_2, He0.
Qed.

(** The write set is the rows that were read for update. *)
Lemma in_write_set_wr t i e0 e : at_commit t -> reads0 !! i = Some e0 -> same e0 e -> Sundial.in_write_set t (get_key e) = wr e0.
Proof.
  intros Ht He0 Hs. destruct Hs as (Ek & _). rewrite Ek. apply eq_true_iff_eq. unfold Sundial.in_write_set. rewrite existsb_exists. split.
  - intros (e' & Hin & E). apply bool_decide_eq_true in E. rewrite <- list_elem_of_In in Hin. destruct (at_commit_writes t e' Ht Hin) as (w & Hw & Ew & _).
    destruct (u_entry Hu w Hw) as (_ & _ & j & e1 & _ & He1 & Hwr & Ek1 & _). assert (i = j) as <-; [|congruence].
    apply (NoDup_lookup (get_key <$> reads0) i j (get_key e0)); [apply (u_keys Hu)|now rewrite list_lookup_fmap, He0|rewrite list_lookup_fmap, He1; cbn; congruence].
  - intros Hwr. destruct (u_all Hu i e0 He0 Hwr) as (w & Hw & Hpos). destruct (u_entry Hu w Hw) as (_ & _ & j & e1 & Hpos1 & He1 & _ & Ek1 & _).
    assert (i = j) as <- by lia. destruct Ht as (_ & _ & HF & _). apply list_elem_of_lookup in Hw as [n Hn].
    destruct (Forall2_lookup_l _ _ _ _ _ HF Hn) as (e' & He' & E & _). exists e'. split; [rewrite <- list_elem_of_In; eapply list_elem_of_lookup_2, He'|]. apply bool_decide_eq_true. congruence.
Qed.

(** The entries whose lease the code renews. *)
Lemma needs_entry t i e0 e b l : at_commit t -> held l -> entry i e0 e b -> Sundial.needs_renewal t e = true -> wr e0 = false.
Proof.
  intros Ht HH (A & B & C) Hn. destruct (h_entry _ HH i e0 e b A B C) as (Hs & _). unfold Sundial.needs_renewal in Hn. rewrite (in_write_set_wr t i e0 e Ht A Hs) in Hn.
  destruct (wr e0); [|easy]. rewrite andb_false_r in Hn. discriminate Hn.
Qed.

Lemma no_need t i e0 e b l : at_commit t -> held l -> entry i e0 e b -> Sundial.needs_renewal t e = false -> wr e0 = false -> idx e0 = false -> lease_until l e0 e b.
Proof.
  intros Ht HH (A & B & C) Hn Hw Hi. destruct (h_entry _ HH i e0 e b A B C) as (Hs & _ & Hl). rewrite Hw in Hl. destruct Hl as [_ Hl].
  unfold Sundial.needs_renewal in Hn. rewrite (in_write_set_wr t i e0 e Ht A Hs), Hw in Hn. destruct Hs as (_ & _ & _ & _ & _ & Ei & _).
  unfold idx in Hi. rewrite <- Ei in Hi. apply negb_false_iff in Hi. rewrite Hi in Hn. cbn in Hn. apply negb_false_iff, Z.leb_le in Hn.
  destruct Ht as (_ & Ets & _). exists (get_rts e). split; [exact Hl|lia].
Qed.

Lemma rs_entry l e : held l -> e ∈ rs -> exists i e0 b, entry i e0 e b.
Proof.
  intros [H1 H2 _ _] He. apply list_elem_of_lookup in He as [i He]. pose proof (lookup_lt_Some _ _ _ He).
  destruct (lookup_lt_is_Some_2 reads0 i ltac:(lia)) as [e0 E1], (lookup_lt_is_Some_2 vals i ltac:(lia)) as [b E2]. exists i, e0, b. easy.
Qed.

Lemma entry_key l i e0 e b : held l -> entry i e0 e b -> exists p, get_key e = Some p /\ (get_table_id e, get_partition_id e, key_at p) = row_ e0.
Proof.
  intros HH (A & B & C). destruct (h_entry _ HH i e0 e b A B C) as ((Ek & _ & Et & Ep & _) & _).
  destruct (q_key _ _ _ Hq e0) as [p Hp]; [eapply list_elem_of_lookup_2, A|]. exists p. split; [congruence|]. unfold SundialTxn.row_. now rewrite Et, Ep, Hp.
Qed.

(** Renewing the lease of an entry that was only read. *)
Lemma renew_entry_ok l i e0 e b : held l -> entry i e0 e b -> wr e0 = false ->
  step_ok bounded (inv size rows) knows tid l (SundialHelper.renew_lease (row_ e0) (get_wts e) ts)
    (fun ok l' => grows l l' /\ (ok = true -> lease_until l' e0 e b)).
Proof.
  intros HH (A & B & C) Hw. destruct (h_entry _ HH i e0 e b A B C) as (_ & _ & Hl). rewrite Hw in Hl. destruct Hl as [Hnone Hl].
  eapply step_ok_mono; [|eapply renew_ok; [apply (q_rows _ _ _ Hq); eapply list_elem_of_lookup_2, A|exact Hl|exact Hnone]].
  intros [] l' ->; [|easy]. split; [split; [easy|split; [easy|]]; intros x Hx; apply elem_of_app; now left|].
  intros _. exists ts. split; [apply elem_of_app; right; now apply list_elem_of_singleton|lia].
Qed.

Lemma renew_reads_ok t es l : at_commit t -> held l -> (forall e, e ∈ es -> e ∈ rs) ->
  run (Sundial.renew_reads key_at es) t l (fun _ t' l' => grows l l' /\
    ((t' = t /\ forall i e0 e b, entry i e0 e b -> e ∈ es -> Sundial.needs_renewal t e = true -> lease_until l' e0 e b) \/ t' = set_abort_read_validation t)).
Proof.
  intros Ht. revert l. induction es as [|e es IH]; intros l HH Hes; cbn [Sundial.renew_reads].
  { apply tsafe_ret. split; [apply leases_grow_refl|]. left. split; [easy|]. intros i e0 e b _ Hin. now apply elem_of_nil in Hin. }
  assert (forall e', e' ∈ es -> e' ∈ rs) as Hes' by (intros e' He'; apply Hes; now right).
  apply tsafe_bind, tsafe_local. destruct (Sundial.needs_renewal t e) eqn:En.
  - destruct (rs_entry l e HH (Hes e ltac:(left))) as (i & e0 & b & Hent). destruct (entry_key l i e0 e b HH Hent) as (p & Hp & Er).
    unfold Sundial.row_of. apply tsafe_bind, tsafe_bind, (tsafe_access _ _ _ _ _ p); [exact Hp|]. apply tsafe_ret. rewrite Er. apply tsafe_bind, tsafe_local.
    assert (commit_ts t = ts) as -> by apply Ht. apply tsafe_bind, tsafe_atomic.
    eapply step_ok_mono; [|eapply renew_entry_ok; [exact HH|exact Hent|eapply needs_entry; eassumption]].
    intros [] l1 [Hg Hl]; [|apply tsafe_assign; split; [exact Hg|now right]].
    eapply tsafe_mono; [apply IH; [eapply held_grows; eassumption|exact Hes']|]. intros ? t2 l2 (Hg2 & Hc). split; [eapply grows_trans; eassumption|].
    destruct Hc as [[-> Hc]|Hc]; [left|now right]. split; [easy|]. intros i' e0' e' b' Hent' Hin Hn. apply elem_of_cons in Hin as [->|Hin]; [|eapply Hc; eassumption].
    assert (i' = i /\ e0' = e0 /\ b' = b) as (-> & -> & ->).
    { destruct Hent as (A & B & C), Hent' as (A' & B' & C'). assert (row_ e0 = row_ e0') as E; [|destruct (entry_row i i' e0 e e0' e b b') as (-> & -> & _ & ->); easy].
      pose proof (h_entry _ HH _ _ _ _ A B C) as ((K & _ & T0 & P & _) & _). pose proof (h_entry _ HH _ _ _ _ A' B' C') as ((K' & _ & T' & P' & _) & _). unfold SundialTxn.row_. congruence. }
    eapply lease_until_grows; [exact Hg2|]. auto.
  - eapply tsafe_mono; [apply IH; [exact HH|exact Hes']|]. intros ? t2 l2 (Hg2 & Hc). split; [exact Hg2|].
    destruct Hc as [[-> Hc]|Hc]; [left|now right]. split; [easy|]. intros i' e0' e' b' Hent' Hin Hn. apply elem_of_cons in Hin as [->|Hin]; [congruence|]. eapply Hc; eassumption.
Qed.

(** Writing redo records. *)
Lemma redo_writes_ok t es l : at_commit t -> (forall e, e ∈ es -> e ∈ writeSet t) ->
  run (for_all (Sundial.redo key_bytes Commit.TwoPLPasha.LogUpdate) es) t l (fun _ t' l' => l' = l /\ exists lg, t' = relog lg t).
Proof.
  intros Ht Hes. assert (forall lg0, run (for_all (Sundial.redo key_bytes Commit.TwoPLPasha.LogUpdate) es) (relog lg0 t) l (fun _ t' l' => l' = l /\ exists lg, t' = relog lg t)) as H.
  { induction es as [|e es IH]; intros lg0; cbn [for_all]; [apply tsafe_ret; eauto|]. destruct (write_key t e Ht (Hes e ltac:(left))) as [p Hp].
    destruct (proj2 (proj2 (proj2 (proj2 Ht))) e (Hes e ltac:(left))) as (v & b & Hv & Hb). apply tsafe_bind. unfold Sundial.redo at 1, Sundial.redo_record, Sundial.buffer_of.
    apply tsafe_bind, tsafe_bind, (tsafe_access _ _ _ _ _ p); [exact Hp|]. apply tsafe_bind, tsafe_bind, (tsafe_access _ _ _ _ _ v); [exact Hv|]. apply (tsafe_access _ _ _ _ _ b); [exact Hb|].
    apply tsafe_ret. apply tsafe_assign. match goal with |- run _ ?x _ _ => change x with (relog (log x) t) end. apply IH. intros e' He'. apply Hes. now right. }
  specialize (H (log t)). replace (relog (log t) t) with t in H by now destruct t. exact H.
Qed.

Lemma no_inserts_or_deletes t l (Q : unit -> stxn -> know -> Prop) : insertSet t = [] -> deleteSet t = [] -> Q tt t l ->
  run (Sundial.redo_inserts_and_deletes key_bytes) t l Q.
Proof. intros Hi Hd HQ. unfold Sundial.redo_inserts_and_deletes. apply tsafe_bind, tsafe_local. rewrite Hi. apply tsafe_bind, tsafe_ret. apply tsafe_bind, tsafe_local. rewrite Hd. now apply tsafe_ret. Qed.

(** All reads are promised up to the commit timestamp, unless the transaction
    aborts. *)
Definition validated (t t' : stxn) (l l' : know) : Prop :=
  exists f lg, t' = set_valid f 0 [] lg t /\ grows l l' /\
    (f = false -> forall i e0 e b, entry i e0 e b -> wr e0 = false -> idx e0 = false -> lease_until l' e0 e b).

Lemma validate_single_ok t l : at_commit t -> held l -> insertSet t = [] -> deleteSet t = [] -> outbox t = [] -> pendingResponses t = 0 ->
  abort_read_validation t = false -> abort_lock t = false ->
  run (Sundial.validate_single key_at key_bytes) t l (fun _ t' l' => validated t t' l l').
Proof.
  intros Ht HH Hi Hd Ho Hp Hf Hal. unfold Sundial.validate_single. apply tsafe_bind, tsafe_local. assert (readSet t = rs) as -> by apply Ht.
  apply tsafe_bind. eapply tsafe_mono; [apply renew_reads_ok; [exact Ht|exact HH|auto]|]. intros [] t1 l1 (Hg & [[-> Hc] | ->]).
  - apply tsafe_bind, tsafe_local. rewrite Hf, Hal. cbn [orb negb when]. apply tsafe_bind, tsafe_local. apply tsafe_bind.
    eapply tsafe_mono; [apply redo_writes_ok; [exact Ht|auto]|]. intros [] t2 l2 (-> & lg & ->). apply no_inserts_or_deletes; [exact Hi|exact Hd|].
    exists false, lg. split; [unfold set_valid, relog; now rewrite Hf, Ho, Hp|]. split; [exact Hg|]. intros _ i e0 e b Hent Hw Hx.
    destruct (Sundial.needs_renewal t e) eqn:En.
    + eapply Hc; [exact Hent|eapply list_elem_of_lookup_2; apply Hent|exact En].
    + eapply lease_until_grows; [exact Hg|]. eapply no_need; eassumption.
  - apply tsafe_bind, tsafe_local. change (abort_read_validation (set_abort_read_validation t)) with true. cbn [orb negb when]. apply tsafe_ret. exists true, (log t). split; [unfold set_valid, set_abort_read_validation, set_flags; cbn; now rewrite Ho, Hp|]. split; [exact Hg|discriminate].
Qed.

(** *** Reads of several hosts *)

Context (Hhosts : forall e0, e0 ∈ reads0 -> Sundial.owner_of master_coordinator e0 ∈ coordinators).

(** What a piece of work still has to renew, and whether it has failed. *)
Definition to_renew (w : work) : list (row_id * Z) :=
  match w with Received (ReadValidationAndRedoRequest items _ _) => items | Renewing items _ _ => items | _ => [] end.
Definition failed (w : work) : bool :=
  match w with Renewing _ _ ok => negb ok | Answered (ReadValidationAndRedoResponse ok) => negb ok | _ => false end.
Definition renewal (w : work) : Prop :=
  match w with
  | Received (ReadValidationAndRedoRequest _ _ c) => c = ts
  | Renewing _ c _ => c = ts
  | Answered (ReadValidationAndRedoResponse _) => True
  | _ => False
  end.

(** An item is one of the entries that were only read. *)
Definition item_ok (x : row_id * Z) : Prop := exists i e0 e b, entry i e0 e b /\ wr e0 = false /\ x = (row_ e0, get_wts e).

(** The hosts in [hosts] are still to be asked, [ws] is on its way. *)
Record validating (t0 : stxn) (l0 : know) (hosts : list Z) (ws : list (request * work)) (o : list request) (t : stxn) (l : know) : Prop := Validating {
  v_txn : exists f lg, t = set_valid f (Z.of_nat (length ws)) o lg t0;
  v_know : grows l0 l;
  v_works : forall m w, (m, w) ∈ ws -> renewal w /\ Forall item_ok (to_renew w);
  v_leases : abort_read_validation t = false -> forall i e0 e b, entry i e0 e b -> wr e0 = false -> idx e0 = false ->
    lease_until l e0 e b \/ (exists m w, (m, w) ∈ ws /\ (failed w = true \/ (row_ e0, get_wts e) ∈ to_renew w)) \/
    Sundial.owner_of master_coordinator e ∈ hosts
}.

Lemma at_commit_valid f p o lg t : at_commit t -> at_commit (set_valid f p o lg t).
Proof. easy. Qed.

Lemma validation_items_ok es t l : (forall e, e ∈ es -> is_Some (get_key e)) ->
  run (Sundial.validation_items key_at es) t l (fun items t' l' => t' = t /\ l' = l /\ items = (fun e => (row_ e, get_wts e)) <$> es).
Proof.
  induction es as [|e es IH]; intros Hk; cbn [Sundial.validation_items]; [now apply tsafe_ret|]. destruct (Hk e ltac:(left)) as [p Hp].
  unfold Sundial.row_of. apply tsafe_bind, tsafe_bind, (tsafe_access _ _ _ _ _ p); [exact Hp|]. apply tsafe_ret. apply tsafe_bind.
  eapply tsafe_mono; [apply IH; intros; apply Hk; now right|]. intros ? ? ? (-> & -> & ->). apply tsafe_ret. split; [easy|]. split; [easy|].
  cbn. unfold SundialTxn.row_ at 2. now rewrite Hp.
Qed.

Lemma redo_items_ok es t l : (forall e, e ∈ es -> is_Some (get_key e) /\ exists v b, get_value e = Some v /\ mem t !! v = Some b) ->
  run (Sundial.redo_items key_at key_bytes es) t l (fun items t' l' => t' = t /\ l' = l).
Proof.
  induction es as [|e es IH]; intros Hk; cbn [Sundial.redo_items]; [now apply tsafe_ret|]. destruct (Hk e ltac:(left)) as ([p Hp] & v & b & Hv & Hb).
  unfold Sundial.row_of, Sundial.buffer_of. apply tsafe_bind, tsafe_bind, (tsafe_access _ _ _ _ _ p); [exact Hp|]. apply tsafe_ret. apply tsafe_bind, (tsafe_access _ _ _ _ _ p); [exact Hp|].
  apply tsafe_bind, tsafe_bind, (tsafe_access _ _ _ _ _ v); [exact Hv|]. apply (tsafe_access _ _ _ _ _ b); [exact Hb|]. apply tsafe_bind.
  eapply tsafe_mono; [apply IH; intros; apply Hk; now right|]. intros ? ? ? (-> & ->). now apply tsafe_ret.
Qed.

(** The entries of one host. *)
Lemma v_here t0 l0 host hosts ws o t l : validating t0 l0 (host :: hosts) ws o t l -> at_commit t0 -> held l0 ->
  forall f lg l', grows l l' -> t = set_valid (abort_read_validation t) (Z.of_nat (length ws)) o (log t) t0 ->
  (f = false -> abort_read_validation t = false /\ forall i e0 e b, entry i e0 e b -> Sundial.owner_of master_coordinator e = host -> Sundial.needs_renewal t e = true -> lease_until l' e0 e b) ->
  validating t0 l0 hosts ws o (set_valid f (Z.of_nat (length ws)) o lg t0) l'.
Proof.
  intros [H1 H2 H3 H4] Ht HH f lg l' Hg Et Hf. split; [eauto|eapply grows_trans; eassumption|exact H3|]. intros E i e0 e b Hent Hw Hx. cbn in E. destruct (Hf E) as [Ef Hl].
  destruct (H4 Ef i e0 e b Hent Hw Hx) as [Hle|[Hin|Hin]]; [left; eapply lease_until_grows; eassumption|right; now left|].
  apply elem_of_cons in Hin as [Eh|Hin]; [|right; now right]. left. destruct (Sundial.needs_renewal t e) eqn:En; [eapply Hl; eassumption|].
  eapply lease_until_grows; [exact Hg|]. assert (at_commit t) as Ht' by (rewrite Et; now apply at_commit_valid).
  eapply no_need; [exact Ht'| |exact Hent|exact En|exact Hw|exact Hx]. eapply held_grows; eassumption.
Qed.

Lemma v_self t0 l0 hosts ws o t l : validating t0 l0 hosts ws o t l -> t = set_valid (abort_read_validation t) (Z.of_nat (length ws)) o (log t) t0.
Proof. intros [(f & lg & ->) _ _ _]. reflexivity. Qed.

Lemma validate_here_ok t0 l0 hosts t l es ws0 : at_commit t0 -> held l0 -> validating t0 l0 (me :: hosts) (received (outbox t)) (outbox t) t l ->
  abort_read_validation t = false -> (forall e, e ∈ ws0 -> e ∈ writeSet t) ->
  es = filter (fun e => Sundial.owner_of master_coordinator e = me) (filter (fun e => Sundial.needs_renewal t e = true) (readSet t)) ->
  run (Sundial.renew_reads key_at es;; for_all (Sundial.redo key_bytes Commit.TwoPLPasha.LogUpdate) ws0) t l
    (fun _ t' l' => validating t0 l0 hosts (received (outbox t')) (outbox t') t' l').
Proof.
  intros Ht HH HV Hf Hws Ees. pose proof (v_self _ _ _ _ _ _ _ HV) as Et. assert (at_commit t) as Ht1 by (rewrite Et; now apply at_commit_valid).
  assert (readSet t = rs) as Ers by apply Ht1. rewrite Ers in Ees.
  assert (held l) as HH1 by (eapply held_grows; [exact HH|apply (v_know _ _ _ _ _ _ _ HV)]).
  apply tsafe_bind. eapply tsafe_mono; [apply renew_reads_ok; [exact Ht1|exact HH1|]|].
  { intros e He. rewrite Ees in He. now apply list_elem_of_filter in He as [_ [_ He]%list_elem_of_filter]. }
  intros [] t1 l1 (Hg & Hc).
  assert (exists f, t1 = set_valid f (Z.of_nat (length (received (outbox t)))) (outbox t) (log t) t0 /\ (f = false -> t1 = t)) as (f & Et1 & Hft).
  { destruct Hc as [[-> _] | ->]; [exists false; split; [rewrite <- Hf; exact Et|easy]|exists true; split; [rewrite Et; reflexivity|easy]]. }
  assert (at_commit t1) as Ht2 by (rewrite Et1; now apply at_commit_valid).
  eapply tsafe_mono; [apply redo_writes_ok; [exact Ht2|]|]. { intros e He. rewrite Et1. apply Hws in He. rewrite Et in He. exact He. }
  intros [] t2 l2 (-> & lg & ->). rewrite Et1. change (relog lg _) with (set_valid f (Z.of_nat (length (received (outbox t)))) (outbox t) lg t0). cbn [outbox set_valid].
  eapply v_here; [exact HV|exact Ht|exact HH|exact Hg|exact Et|]. intros ->. split; [exact Hf|]. intros i e0 e b Hent Hown Hn.
  destruct Hc as [[_ Hc] | Hc]; [|rewrite Hft in Hc by easy; rewrite Hc in Hf; discriminate Hf].
  eapply Hc; [exact Hent| |exact Hn]. rewrite Ees. apply list_elem_of_filter. split; [exact Hown|]. apply list_elem_of_filter. split; [exact Hn|]. eapply list_elem_of_lookup_2; apply Hent.
Qed.

(** Another host is asked to renew. *)
Lemma validate_there_ok t0 l0 host hosts t l es ws0 : at_commit t0 -> held l0 -> validating t0 l0 (host :: hosts) (received (outbox t)) (outbox t) t l ->
  abort_read_validation t = false -> (forall e, e ∈ ws0 -> e ∈ writeSet t) ->
  es = filter (fun e => Sundial.owner_of master_coordinator e = host) (filter (fun e => Sundial.needs_renewal t e = true) (readSet t)) ->
  run (c ← local commit_ts; items ← Sundial.validation_items key_at es; red ← Sundial.redo_items key_at key_bytes ws0;
       assign (ask (ReadValidationAndRedoRequest items red c))) t l
    (fun _ t' l' => validating t0 l0 hosts (received (outbox t')) (outbox t') t' l').
Proof.
  intros Ht HH HV Hf Hws Ees. pose proof (v_self _ _ _ _ _ _ _ HV) as Et. assert (at_commit t) as Ht1 by (rewrite Et; now apply at_commit_valid).
  assert (held l) as HH1 by (eapply held_grows; [exact HH|apply (v_know _ _ _ _ _ _ _ HV)]).
  assert (forall e, e ∈ es -> e ∈ rs /\ Sundial.needs_renewal t e = true) as Hes.
  { intros e He. rewrite Ees in He. apply list_elem_of_filter in He as [_ [Hn He]%list_elem_of_filter]. split; [|exact Hn]. replace rs with (readSet t) by apply Ht1. exact He. }
  apply tsafe_bind, tsafe_local. assert (commit_ts t = ts) as -> by apply Ht1. apply tsafe_bind. eapply tsafe_mono; [apply validation_items_ok|].
  { intros e He. destruct (rs_entry l e HH1 (proj1 (Hes e He))) as (i & e0 & b & Hent). destruct (entry_key l i e0 e b HH1 Hent) as (p & -> & _). eauto. }
  intros ? ? ? (-> & -> & ->). apply tsafe_bind. eapply tsafe_mono; [apply redo_items_ok|].
  { intros e He. split; [eapply write_key; [exact Ht1|]|apply Ht1]; now apply Hws. }
  intros red ? ? (-> & ->). apply tsafe_assign. cbn [outbox ask send on_pending on_outbox]. set (m := ReadValidationAndRedoRequest _ red ts).
  assert (received (outbox t ++ [m]) = received (outbox t) ++ [(m, Received m)]) as Erec by (unfold received; now rewrite fmap_app).
  rewrite Erec. destruct HV as [_ H2 H3 H4]. split.
  - exists (abort_read_validation t), (log t). rewrite length_app. cbn [length]. rewrite Nat2Z.inj_add. change (Z.of_nat 1) with 1. rewrite Z.add_comm. rewrite Et at 1. reflexivity.
  - exact H2.
  - intros m' w Hin. apply elem_of_app in Hin as [Hin|Hin]; [now apply (H3 m')|]. apply list_elem_of_singleton in Hin as [= -> ->]. split; [reflexivity|]. cbn.
    apply Forall_forall. intros x Hx. apply list_elem_of_fmap in Hx as (e & -> & He). destruct (Hes e He) as [Hr Hn]. destruct (rs_entry l e HH1 Hr) as (i & e0 & b & Hent).
    exists i, e0, e, b. split; [exact Hent|]. split; [eapply needs_entry; eassumption|]. destruct (entry_key l i e0 e b HH1 Hent) as (p & Hp & <-). unfold SundialTxn.row_. now rewrite Hp.
  - intros _ i e0 e b Hent Hw Hx. destruct (H4 Hf i e0 e b Hent Hw Hx) as [Hle|[(m' & w & Hin & Hor)|Hin]].
    + now left.
    + right. left. exists m', w. split; [apply elem_of_app; now left|exact Hor].
    + apply elem_of_cons in Hin as [Eh|Hin]; [|right; now right]. destruct (Sundial.needs_renewal t e) eqn:En; [|left; eapply no_need; eassumption].
      right. left. exists m, (Received m). split; [apply elem_of_app; right; now apply list_elem_of_singleton|]. right. cbn. apply list_elem_of_fmap. exists e. split.
      * destruct (entry_key l i e0 e b HH1 Hent) as (p & Hp & <-). unfold SundialTxn.row_. now rewrite Hp.
      * rewrite Ees. apply list_elem_of_filter. split; [exact Eh|]. apply list_elem_of_filter. split; [exact En|]. replace (readSet t) with rs by (symmetry; apply Ht1). eapply list_elem_of_lookup_2; apply Hent.
Qed.

Lemma validate_at_ok t0 l0 host hosts t l : at_commit t0 -> held l0 -> validating t0 l0 (host :: hosts) (received (outbox t)) (outbox t) t l ->
  run (Sundial.validate_at me master_coordinator key_at key_bytes host) t l (fun _ t' l' => validating t0 l0 hosts (received (outbox t')) (outbox t') t' l').
Proof.
  intros Ht HH HV. pose proof (v_self _ _ _ _ _ _ _ HV) as Et. unfold Sundial.validate_at. apply tsafe_bind, tsafe_local. destruct (abort_read_validation t) eqn:Ef.
  { apply tsafe_ret. rewrite Et at 3. eapply v_here; [exact HV|exact Ht|exact HH|apply leases_grow_refl|exact (v_self _ _ _ _ _ _ _ HV)|easy]. }
  apply tsafe_bind, tsafe_local. apply tsafe_bind, tsafe_local. set (es := filter _ (filter _ (readSet t))). set (ws0 := filter _ (writeSet t)).
  assert (forall e, e ∈ ws0 -> e ∈ writeSet t) as Hws by (intros e He; now apply list_elem_of_filter in He as [_ He]).
  destruct (Z.eqb_spec host me) as [->|Hne]; [now apply validate_here_ok|].
  pose proof (validate_there_ok t0 l0 host hosts t l es ws0 Ht HH HV Ef Hws eq_refl) as Hthere.
  destruct es as [|e1 es1] eqn:Ees; [destruct ws0; [|exact Hthere]|exact Hthere]. apply tsafe_ret. rewrite Et at 3.
  eapply v_here; [exact HV|exact Ht|exact HH|apply leases_grow_refl|exact (v_self _ _ _ _ _ _ _ HV)|]. intros _. split; [exact Ef|]. intros i e0 e b Hent Hown Hn. exfalso.
  apply (not_elem_of_nil e). rewrite <- Ees. unfold es. apply list_elem_of_filter. split; [exact Hown|]. apply list_elem_of_filter. split; [exact Hn|].
  rewrite Et. cbn [readSet set_valid]. replace (readSet t0) with rs by (symmetry; apply Ht). eapply list_elem_of_lookup_2; apply Hent.
Qed.

(** A work of the list moves on: every other one stays. *)
Lemma put_work_in i m w o ws : ws !! i = Some (m, w) ->
  (forall x, x ∈ put_work i m o ws -> x ∈ ws \/ exists w', o = Some w' /\ x = (m, w')) /\
  (forall x, x ∈ ws -> x = (m, w) \/ x ∈ put_work i m o ws) /\ (forall w', o = Some w' -> (m, w') ∈ put_work i m o ws).
Proof.
  intros E. pose proof (lookup_lt_Some _ _ _ E) as Hlt. destruct o as [w'|]; cbn [put_work]; (split; [|split]).
  - intros x Hx. apply list_elem_of_lookup in Hx as [j Hj]. destruct (decide (j = i)) as [->|Hne].
    + rewrite list_lookup_insert_eq in Hj by exact Hlt. injection Hj as <-. right. eauto.
    + rewrite list_lookup_insert_ne in Hj by congruence. left. eapply list_elem_of_lookup_2, Hj.
  - intros x Hx. apply list_elem_of_lookup in Hx as [j Hj]. destruct (decide (j = i)) as [->|Hne]; [left; congruence|].
    right. apply list_elem_of_lookup. exists j. rewrite list_lookup_insert_ne by congruence. exact Hj.
  - intros ? [= <-]. apply list_elem_of_lookup. exists i. now apply list_lookup_insert_eq.
  - intros x Hx. left. rewrite (delete_Permutation _ _ _ E). now right.
  - intros x Hx. rewrite (delete_Permutation _ _ _ E) in Hx. apply elem_of_cons in Hx as [? | ?]; auto.
  - easy.
Qed.

Definition valid_net (t0 : stxn) (l0 : know) (ws : list (request * work)) (t : stxn) (l : know) : Prop := validating t0 l0 [] ws [] t l.

(** One work is replaced by what follows it. *)
Lemma valid_put t0 l0 ws t l l' i m w w' : valid_net t0 l0 ws t l -> ws !! i = Some (m, w) -> grows l l' ->
  renewal w' -> Forall item_ok (to_renew w') -> (failed w = true -> failed w' = true) ->
  (forall i e0 e b, entry i e0 e b -> (row_ e0, get_wts e) ∈ to_renew w -> lease_until l' e0 e b \/ failed w' = true \/ (row_ e0, get_wts e) ∈ to_renew w') ->
  valid_net t0 l0 (put_work i m (Some w') ws) t l'.
Proof.
  intros [(f & lg & Et) H2 H3 H4] E Hg Hr Hi Hfw Hl. destruct (put_work_in i m w (Some w') ws E) as (P1 & P2 & P3). split.
  - exists f, lg. cbn. rewrite length_insert. exact Et.
  - eapply grows_trans; eassumption.
  - intros m2 w2 Hin. destruct (P1 _ Hin) as [Hin'|(w3 & [= <-] & [= -> ->])]; [now apply (H3 m2)|easy].
  - intros Hf i' e0 e b Hent Hw Hx. destruct (H4 Hf i' e0 e b Hent Hw Hx) as [Hle|[(m' & w2 & Hin & Hor)|Hin]]; [left; eapply lease_until_grows; eassumption| |now apply elem_of_nil in Hin].
    destruct (P2 _ Hin) as [[= -> ->]|Hin']; [|right; left; eauto]. destruct Hor as [Hfl|Hin2].
    + right. left. exists m, w'. split; [now apply P3|]. left. auto.
    + destruct (Hl _ _ _ _ Hent Hin2) as [?|Hor]; [now left|]. right. left. exists m, w'. split; [now apply P3|]. exact Hor.
Qed.

Lemma valid_net_step t0 l0 ws t l i m w : held l0 -> valid_net t0 l0 ws t l -> ws !! i = Some (m, w) -> answered w = false ->
  step_ok bounded (inv size rows) knows tid l (Sundial.owner_step size field_size tid w) (fun o l' => valid_net t0 l0 (put_work i m o ws) t l').
Proof.
  intros HH HV E Ha. destruct (v_works _ _ _ _ _ _ _ HV m w (list_elem_of_lookup_2 _ _ _ E)) as [Hr Hi].
  assert (held l) as HH1 by (eapply held_grows; [exact HH|apply (v_know _ _ _ _ _ _ _ HV)]).
  assert (forall w', Sundial.owner_step size field_size tid w = mret (Some w') -> renewal w' -> to_renew w' = to_renew w -> failed w' = failed w ->
    step_ok bounded (inv size rows) knows tid l (Sundial.owner_step size field_size tid w) (fun o l' => valid_net t0 l0 (put_work i m o ws) t l')) as Hskip.
  { intros w' -> Hr' Et Ef h s Hb HI HK. exists (Some w'), s, l. split; [reflexivity|]. assert (inv size rows ((tid, s) :: h) s) as HI'.
    { destruct HI as [Hg Hc]. split; [exact Hg|]. cbn. split; [exact Hg|]. split; [apply after_refl|exact Hc]. }
    split; [exact HI'|]. split; [now apply knows_idle|]. split; [intros; now apply knows_idle|].
    eapply valid_put; [exact HV|exact E|apply leases_grow_refl|exact Hr'|now rewrite Et|now rewrite Ef|]. rewrite Et. intros. right. now right. }
  destruct w as [[| |items red c| | |]| |[|[k v] items] c ok|]; try easy.
  - cbn in Hr. now apply (Hskip (Renewing items c true)).
  - now apply (Hskip (Answered (ReadValidationAndRedoResponse ok))).
  - clear Hskip. cbn in Hr. subst c. cbn in Hi. apply Forall_cons in Hi as [(j & e0 & e & b & Hent & Hw & [= -> ->]) Hi]. cbn [Sundial.owner_step Sundial.read_validation_and_redo_request_handler].
    intros h s Hb HI HK. destruct (renew_entry_ok l j e0 e b HH1 Hent Hw h s Hb HI HK) as (x & s' & l' & Em & H1 & H2 & H3 & Hg & Hl).
    exists (Some (Renewing items ts (ok && x))), s', l'. split; [unfold mbind, M_bind; now rewrite Em|]. split; [easy|]. split; [easy|]. split; [easy|].
    eapply valid_put; [exact HV|exact E|exact Hg|reflexivity|exact Hi|destruct ok; cbn; easy|]. intros j' e0' e' b' Hent' Hin. cbn in Hin. apply elem_of_cons in Hin as [Ex|Hin]; [|right; now right]. apply (f_equal fst) in Ex as Er. cbn [fst] in Er.
    destruct (entry_row j' j e0' e' e0 e b' b Hent' Hent Er) as (-> & -> & -> & ->). destruct x; [left; auto|]. right. left. cbn. now rewrite andb_false_r.
Qed.

Lemma valid_net_answer t0 l0 ws t l i m r : valid_net t0 l0 ws t l -> ws !! i = Some (m, Answered r) ->
  run (for_all (fun b => assign (write_log b)) (Sundial.request_log m (match r with ReadValidationAndRedoResponse s => s | _ => true end));; Sundial.handle_response size r) t l
    (fun _ t' l' => valid_net t0 l0 (delete i ws) t' l').
Proof.
  intros HV E. destruct (v_works _ _ _ _ _ _ _ HV m _ (list_elem_of_lookup_2 _ _ _ E)) as [Hr _]. cbn in Hr. destruct r as [| |ok|]; try easy.
  destruct HV as [(f & lg0 & Et) H2 H3 H4]. destruct (put_work_in i m _ None ws E) as (P1 & P2 & _). cbn [put_work] in P1, P2.
  pose proof (delete_Permutation _ _ _ E) as Hp.
  apply tsafe_bind. eapply tsafe_mono; [apply logs_ok|]. intros [] t1 l1 (-> & lg & ->). cbn [Sundial.handle_response]; unfold Sundial.write_response_handler, Sundial.read_validation_and_redo_response_handler. apply tsafe_bind, tsafe_assign.
  set (t2 := on_pending _ _). assert (t2 = set_valid f (Z.of_nat (length (delete i ws))) [] lg t0) as Et2.
  { unfold t2. rewrite Et. unfold on_pending, relog, set_valid. cbn. f_equal. apply Permutation_length in Hp. cbn in Hp. lia. }
  rewrite Et2. clear t2 Et2. destruct ok; cbn [negb when].
  - apply tsafe_ret. split; [eauto|exact H2| |].
    + intros m2 w2 Hin. apply (H3 m2). destruct (P1 _ Hin) as [?|(? & [=] & _)]; easy.
    + intros Hf i' e0 e b Hent Hw Hx. cbn in Hf. subst f. rewrite Et in H4. destruct (H4 eq_refl i' e0 e b Hent Hw Hx) as [Hle|[(m' & w2 & Hin & Hor)|Hin]]; [now left| |now right; right].
      destruct (P2 _ Hin) as [[= -> ->]|Hin']; [|right; left; eauto]. destruct Hor as [Hor|Hor]; [discriminate Hor|now apply elem_of_nil in Hor].
  - apply tsafe_assign. split; [exists true, lg; reflexivity|exact H2| |discriminate].
    intros m2 w2 Hin. apply (H3 m2). destruct (P1 _ Hin) as [?|(? & [=] & _)]; easy.
Qed.

Lemma validate_many_ok t l : at_commit t -> held l -> insertSet t = [] -> deleteSet t = [] -> outbox t = [] -> pendingResponses t = 0 ->
  run (Sundial.validate_many me master_coordinator coordinators size field_size key_at key_bytes) t l (fun _ t' l' => validated t t' l l').
Proof.
  intros Ht HH Hi Hd Ho Hp. unfold Sundial.validate_many. apply tsafe_bind.
  eapply tsafe_mono; [apply (tsafe_for_all _ _ _ _ _ (fun hosts t' l' => validating t l hosts (received (outbox t')) (outbox t') t' l'))|].
  - intros host hosts t' l' HV. now apply validate_at_ok.
  - rewrite Ho. split; [exists (abort_read_validation t), (log t); destruct t; cbn in Ho, Hp; subst; reflexivity|apply leases_grow_refl|intros ? ? Hin; now apply elem_of_nil in Hin|].
    intros _ i e0 e b Hent _ _. right. right. destruct Hent as (A & B & C). destruct (h_entry _ HH i e0 e b A B C) as ((_ & _ & _ & Ep & _) & _).
    unfold Sundial.owner_of. rewrite Ep. apply Hhosts. eapply list_elem_of_lookup_2, A.
  - intros [] t1 l1 HV. unfold Sundial.sync_messages. apply tsafe_bind. apply tsafe_bind, tsafe_local. apply tsafe_bind, tsafe_assign. apply tsafe_bind.
    eapply tsafe_mono; [apply (network_safe size field_size rows tid (valid_net t l))|].
    + intros ws t' l' [(f & lg & ->) _ _ _]. apply Ht.
    + intros. now apply valid_net_answer.
    + intros. now apply valid_net_step.
    + reflexivity.
    + change ((fun m => (m, Received m)) <$> outbox t1) with (received (outbox t1)). destruct HV as [(f & lg & Et) H2 H3 H4]. split; [|exact H2|exact H3|exact H4]. exists f, lg. rewrite Et at 1. reflexivity.
    + intros [] t2 l2 [(f & lg & ->) Hg _ Hl]. cbn [when]. apply tsafe_bind, tsafe_local. cbn [pendingResponses set_valid length Z.of_nat Z.ltb Z.compare when]. apply tsafe_ret.
      apply tsafe_bind, tsafe_local. assert (validated t (set_valid f 0 [] lg t) l l2) as HVd.
      { exists f, lg. split; [easy|]. split; [exact Hg|]. intros -> i e0 e b Hent Hw Hx. destruct (Hl eq_refl i e0 e b Hent Hw Hx) as [?|[(m & w & Hin & _)|Hin]]; [easy|now apply elem_of_nil in Hin..]. }
      cbn [abort_read_validation set_valid]. destruct f; cbn [negb when]; [now apply tsafe_ret|]. now apply no_inserts_or_deletes.
Qed.

(** [validate_read_set_and_redo]. *)
Lemma validate_ok t l : at_commit t -> held l -> insertSet t = [] -> deleteSet t = [] -> outbox t = [] -> pendingResponses t = 0 ->
  abort_read_validation t = false -> abort_lock t = false ->
  run (Sundial.validate_read_set_and_redo me master_coordinator coordinators size field_size key_at key_bytes) t l
    (fun ok t' l' => validated t t' l l' /\ ok = negb (abort_read_validation t')).
Proof.
  intros Ht HH Hi Hd Ho Hp Hf Hal. unfold Sundial.validate_read_set_and_redo. apply tsafe_bind, tsafe_local. apply tsafe_bind.
  destruct (single_partition t).
  - eapply tsafe_mono; [now apply validate_single_ok|]. intros [] t1 l1 HV. apply tsafe_bind, tsafe_local. now apply tsafe_ret.
  - eapply tsafe_mono; [now apply validate_many_ok|]. intros [] t1 l1 HV. apply tsafe_bind, tsafe_local. now apply tsafe_ret.
Qed.
End committing.
