(* ===== verification/SundialSerial.v ===== *)
(** * Sundial: transactions are serializable by their commit timestamps

    A whole transaction ([transaction_ok]), and any number of them, interleaved in
    any way ([sundial_serializable]). *)

From S2P Require Import Prelude Interleave SundialRow SundialSpec Sundial SundialTxn SundialCommit.
Import SundialRow.SundialRWKey.

Section transaction.
Context (size field_size : Z -> nat) (serialize_value : Z -> bytes -> bytes) (rows : gset row_id) (tid : Z).
Context (me : Z) (master_coordinator : Z -> Z) (replicated_on : Z -> Z -> bool) (coordinators : list Z).
Context (key_at : Z -> Z) (key_bytes : Z -> bytes) (read_on_replica : bool) (compute : gmap Z bytes -> gmap Z bytes).
Context (reads0 writes0 : list skey) (mem0 : gmap Z bytes).
Context (Hfield : forall t, field_size t = size t) (Hserialize : forall t v, length v = size t -> serialize_value t v = v).
Context (Hreplicas : forall p h, replicated_on p h = true -> h = master_coordinator p).
Context (Hhosts : forall e0, e0 ∈ reads0 -> Sundial.owner_of master_coordinator e0 ∈ coordinators).
Context (Hq : requests rows key_at reads0) (Hu : updates reads0 writes0).

Abbreviation run := (tsafe bounded (inv size rows) knows tid).
Abbreviation row_ := (row_ key_at).
Abbreviation near := (near me master_coordinator replicated_on read_on_replica).
Abbreviation reads_net := (reads_net size tid me master_coordinator replicated_on key_at read_on_replica reads0 writes0 mem0).
Abbreviation held := (held size key_at reads0).

(** The buffers have the size of the rows, before and after the computation. *)
Definition sized (m : gmap Z bytes) (e : skey) : Prop := exists b, m !! buf e = Some b /\ length b = size (get_table_id e).
Context (Hcompute : forall m, (forall e, e ∈ reads0 -> sized m e) -> (forall p, p ∉ buf <$> reads0 -> m !! p = mem0 !! p) ->
  forall e, e ∈ writes0 -> sized (compute m) e).

Lemma write_of e : e ∈ writes0 -> exists i e0, get_read_set_pos e = Z.of_nat i /\ reads0 !! i = Some e0 /\ wr e0 = true /\ row_ e = row_ e0.
Proof.
  intros He. destruct (u_entry _ _ Hu e He) as (_ & _ & i & e0 & Hpos & He0 & Hw & Ek & Et & Ep). exists i, e0.
  split; [exact Hpos|]. split; [exact He0|]. split; [exact Hw|]. unfold SundialTxn.row_. now rewrite Ek, Et, Ep.
Qed.

Lemma write_at i e0 : reads0 !! i = Some e0 -> wr e0 = true -> exists e, e ∈ writes0 /\ get_read_set_pos e = Z.of_nat i /\ row_ e = row_ e0.
Proof.
  intros He0 Hw. destruct (u_all _ _ Hu i e0 He0 Hw) as (e & He & Hpos). destruct (write_of e He) as (j & e1 & Hpos1 & He1 & _ & Er).
  assert (i = j) as <- by lia. exists e. split; [exact He|]. split; [exact Hpos|]. congruence.
Qed.

Lemma write_rows : NoDup (row_ <$> writes0).
Proof.
  apply NoDup_alt. intros i j k Hi Hj. rewrite list_lookup_fmap in Hi, Hj. destruct (writes0 !! i) as [e|] eqn:Ei; [|discriminate Hi]. destruct (writes0 !! j) as [e'|] eqn:Ej; [|discriminate Hj].
  cbn in Hi, Hj. assert (row_ e = row_ e') as Er by congruence. destruct (write_of e) as (a & e0 & P & A & _ & R); [eapply list_elem_of_lookup_2, Ei|].
  destruct (write_of e') as (a' & e0' & P' & A' & _ & R'); [eapply list_elem_of_lookup_2, Ej|].
  assert (a = a') as <- by (eapply row_inj; [exact Hq|exact A|exact A'|congruence]).
  apply (NoDup_lookup (get_read_set_pos <$> writes0) i j (Z.of_nat a)); [apply (u_once _ _ Hu)|rewrite list_lookup_fmap, Ei; cbn; congruence|rewrite list_lookup_fmap, Ej; cbn; congruence].
Qed.

(** ** After the requests were served *)

Lemma reading_entry t l i e0 : reads_net false [] t l -> reads0 !! i = Some e0 -> exists e, readSet t !! i = Some e /\ same e0 e /\ sized (mem t) e0 /\
  settled key_at l t e0 e /\ (abort_lock t = false -> ready me master_coordinator replicated_on key_at read_on_replica l t e0 e).
Proof.
  intros (HR & _) He0. pose proof (lookup_lt_Some _ _ _ He0) as Hlt. destruct (lookup_lt_is_Some_2 (readSet t) i) as [e He]; [rewrite (rd_len _ _ _ _ _ _ _ _ _ _ _ _ _ _ HR); exact Hlt|].
  destruct (rd_entries _ _ _ _ _ _ _ _ _ _ _ _ _ _ HR i e0 e He0 He) as (Hs & Hb & Hor). exists e. split; [exact He|]. split; [exact Hs|]. split; [exact Hb|].
  destruct Hor as [Hin|[Hset Hor]]; [now apply elem_of_nil in Hin|]. split; [exact Hset|]. intros Ha. destruct Hor as [?|[[? _]|?]]; [easy|lia|congruence].
Qed.

(** The lock of a write is marked in its read entry. *)
Lemma reading_locked t l e : reads_net false [] t l -> e ∈ writes0 -> Sundial.write_locked t e = true <-> is_Some (owned l !! row_ e).
Proof.
  intros HR He. destruct (u_entry _ _ Hu e He) as (_ & Hbit & _). destruct (write_of e He) as (i & e0 & Hpos & He0 & _ & ->).
  destruct (reading_entry t l i e0 HR He0) as (r & Hr & _ & _ & Hset & _). unfold Sundial.write_locked. rewrite Hbit, Hpos. destruct (Z.eqb_spec (Z.of_nat i) (-1)); [lia|].
  rewrite Nat2Z.id, Hr. cbn [orb]. unfold settled in Hset. destruct (get_write_lock_bit r).
  - destruct Hset as (_ & b & Ho & _). rewrite Ho. split; eauto.
  - rewrite Hset. split; [discriminate|]. now intros [].
Qed.

(** A row that is locked is one that will be written. *)
Lemma reading_owned t l k : reads_net false [] t l -> is_Some (owned l !! k) -> k ∈ rows /\ exists e, e ∈ writes0 /\ k = row_ e.
Proof.
  intros HR [x Hx]. pose proof HR as (HRd & _). destruct (rd_owned _ _ _ _ _ _ _ _ _ _ _ _ _ _ HRd k x Hx) as [(e0 & Hin & ->) _]. split; [now apply (q_rows _ _ _ Hq)|].
  apply list_elem_of_lookup in Hin as [i He0]. destruct (reading_entry t l i e0 HR He0) as (r & _ & _ & _ & Hset & _). unfold settled in Hset.
  destruct (get_write_lock_bit r); [|congruence]. destruct Hset as [Hw _]. destruct (write_at i e0 He0 Hw) as (e & He & _ & Er). eauto.
Qed.

Abbreviation abort := (Sundial.abort me master_coordinator size field_size key_at).

Lemma abort_reading t l : reads_net false [] t l ->
  run abort t l (fun _ t' l' => owned l' = ∅ /\ wrote l' = ∅).
Proof.
  intros HR. pose proof HR as (HRd & Hout & _). pose proof (rd_writes _ _ _ _ _ _ _ _ _ _ _ _ _ _ HRd) as Ew. pose proof (rd_rest _ _ _ _ _ _ _ _ _ _ _ _ _ _ HRd) as (_ & Hi & Hd).
  eapply tsafe_mono; [apply abort_ok; [apply HRd|exact Hi|exact Hd|exact Hout|..]; rewrite ?Ew|].
  - intros e He. destruct (u_entry _ _ Hu e He) as (_ & _ & i & e0 & _ & He0 & _ & -> & _). apply (q_key _ _ _ Hq). eapply list_elem_of_lookup_2, He0.
  - eapply sublist_NoDup; [|apply fmap_sublist, sublist_filter]. apply write_rows.
  - intros k. split.
    + intros Hk. destruct (reading_owned t l k HR Hk) as (_ & e & He & ->). apply list_elem_of_fmap. exists e. split; [easy|]. apply list_elem_of_filter. split; [now apply (reading_locked t l)|exact He].
    + intros Hk. apply list_elem_of_fmap in Hk as (e & -> & [Hl He]%list_elem_of_filter). now apply (reading_locked t l).
  - intros k Hk. now apply (reading_owned t l).
  - intros [] t' l' (_ & [_ Hwr] & Ho). split; [exact Ho|]. rewrite Hwr. apply HRd.
Qed.

Definition values (t : stxn) : list bytes := (fun e => default [] (mem t !! buf e)) <$> reads0.

Lemma reading_held t l : reads_net false [] t l -> abort_lock t = false -> held (readSet t) (values t) l.
Proof.
  intros HR Ha. pose proof HR as (HRd & _). split.
  - apply HRd.
  - unfold values. apply length_fmap.
  - intros i e0 e b He0 He Hb. unfold values in Hb. rewrite list_lookup_fmap, He0 in Hb. cbn in Hb. injection Hb as <-.
    destruct (reading_entry t l i e0 HR He0) as (e' & He' & Hs & _ & Hset & Hrd). rewrite He in He'. injection He' as <-. specialize (Hrd Ha). split; [exact Hs|].
    unfold settled in Hset. unfold ready in Hrd. destruct (wr e0).
    + rewrite Hrd in Hset. destruct Hset as (_ & b & Ho & Hm). rewrite Hm. easy.
    + destruct (get_write_lock_bit e); [now destruct Hset|]. destruct Hrd as (b & Hl & Hm & _). rewrite Hm. easy.
  - intros k x Hk. destruct (reading_owned t l k HR) as (_ & e & He & Er); [eauto|]. pose proof (proj2 (rd_owned _ _ _ _ _ _ _ _ _ _ _ _ _ _ HRd _ _ Hk)) as Hf. subst k. destruct (write_of e He) as (i & e0 & _ & He0 & Hw & Er').
    split; [exists e0; split; [eapply list_elem_of_lookup_2, He0|easy]|]. exact Hf.
Qed.

(** ** Commit *)

Definition finished (ok : bool) (t' : stxn) (l' : know) : Prop :=
  owned l' = ∅ /\
  if ok then exists m, mem t' = compute m /\ (forall p, p ∉ buf <$> reads0 -> m !! p = mem0 !! p) /\
    (forall i e0, reads0 !! i = Some e0 -> exists e b, readSet t' !! i = Some e /\ m !! buf e0 = Some b /\
       if wr e0 then exists w v, w ∈ writes0 /\ row_ w = row_ e0 /\ compute m !! buf w = Some v /\ wrote l' !! row_ e0 = Some (get_wts e, b, commit_ts t', v)
       else idx e0 = false -> (exists r, (row_ e0, get_wts e, r, b) ∈ leases l' /\ commit_ts t' <= r) /\ (near e0 = false -> get_wts e <= commit_ts t')) /\
    (forall k x, wrote l' !! k = Some x -> exists e0, e0 ∈ reads0 /\ wr e0 = true /\ k = row_ e0)
  else wrote l' = ∅.

Section commit.
Context (t : stxn) (l : know) (HR : reads_net false [] t l) (Ha : abort_lock t = false).

Abbreviation marks := (set_write_lock_bit <$> writes0).

Lemma marks_rows : row_ <$> marks = row_ <$> writes0.
Proof. rewrite <- list_fmap_compose. apply list_fmap_ext. intros i e _. cbn. now apply same_facts, same_lock. Qed.

Lemma mark_of e : e ∈ marks -> exists w, w ∈ writes0 /\ get_key e = get_key w /\ get_value e = get_value w /\ row_ e = row_ w /\ buf e = buf w /\ get_table_id e = get_table_id w /\ get_write_lock_bit e = true.
Proof.
  intros He. apply list_elem_of_fmap in He as (w & -> & Hw). exists w. split; [exact Hw|]. destruct (same_lock w) as (Ek & Ev & Et & _). destruct (same_facts me master_coordinator replicated_on key_at read_on_replica _ _ (same_lock w)) as (Er & Eb & _).
  repeat split; try assumption. apply get_set_lock.
Qed.

Lemma mark_key e : e ∈ marks -> is_Some (get_key e).
Proof.
  intros He. destruct (mark_of e He) as (w & Hw & -> & _). destruct (u_entry _ _ Hu w Hw) as (_ & _ & i & e0 & _ & He0 & _ & -> & _). apply (q_key _ _ _ Hq). eapply list_elem_of_lookup_2, He0.
Qed.

(** The locked rows are those of the write set. *)
Lemma held_rows l' : owned l' = owned l -> forall k, is_Some (owned l' !! k) <-> k ∈ row_ <$> marks.
Proof.
  intros -> k. rewrite marks_rows. split.
  - intros Hk. destruct (reading_owned t l k HR Hk) as (_ & e & He & ->). now apply list_elem_of_fmap_2.
  - intros Hk. apply list_elem_of_fmap in Hk as (e & -> & He). destruct (write_of e He) as (i & e0 & _ & He0 & Hw & ->).
    pose proof (reading_held t l HR Ha) as HH. destruct (lookup_pair _ _ _ _ _ i e0 l HH He0) as (r & b & Hr & Hb). destruct (h_entry _ _ _ _ _ _ HH i e0 r b He0 Hr Hb) as (_ & _ & Ho). rewrite Hw in Ho. eauto.
Qed.

Lemma held_in_rows l' : owned l' = owned l -> forall k, is_Some (owned l' !! k) -> k ∈ rows.
Proof. intros -> k Hk. now apply (reading_owned t l). Qed.

Definition locking (c : Z) : stxn := set_ts_writes c marks (on_mem compute t).

Lemma written e : e ∈ writes0 -> sized (compute (mem t)) e.
Proof.
  apply Hcompute; [|apply HR]. intros e0 He0. apply list_elem_of_lookup in He0 as [i He0]. destruct (reading_entry t l i e0 HR He0) as (_ & _ & _ & Hs & _). exact Hs.
Qed.

Lemma locking_at c : at_commit tid writes0 (readSet t) c (locking c).
Proof.
  split; [reflexivity|]. split; [reflexivity|]. split; [|split].
  - cbn. apply Forall2_fmap_r, Forall_Forall2_diag, Forall_forall. intros e _. destruct (same_lock e) as (? & ? & ? & ? & ? & ? & ?). repeat split; try assumption. apply get_set_lock.
  - apply HR.
  - intros e He. destruct (mark_of e He) as (w & Hw & _ & Ev & _). destruct (u_entry _ _ Hu w Hw) as ([v Hv] & _). destruct (written w Hw) as (b & Hb & _). unfold buf in Hb. rewrite Hv in Hb. exists v, b. split; [congruence|exact Hb].
Qed.

(** The new values of the rows. *)
Definition new_value (k : row_id) : bytes :=
  default [] (list_to_map (M := gmap row_id bytes) ((fun e => (row_ e, default [] (compute (mem t) !! buf e))) <$> writes0) !! k).

Lemma new_value_of e : e ∈ writes0 -> compute (mem t) !! buf e = Some (new_value (row_ e)) /\ length (new_value (row_ e)) = size (get_table_id e).
Proof.
  intros He. destruct (written e He) as (b & Hb & Hlen). assert (new_value (row_ e) = b) as ->; [|easy]. unfold new_value.
  rewrite (elem_of_list_to_map_1 _ (row_ e) b); [easy| |].
  - rewrite <- list_fmap_compose. apply write_rows.
  - apply list_elem_of_fmap. exists e. now rewrite Hb.
Qed.

(** Validation has failed: all locks are given back. *)
Lemma abort_valid c f lg l' : owned l' = owned l -> wrote l' = wrote l ->
  run abort (set_valid f 0 [] lg (locking c)) l' (fun _ t' l2 => owned l2 = ∅ /\ wrote l2 = ∅).
Proof.
  intros Eo Ew. pose proof HR as (HRd & _). destruct (rd_rest _ _ _ _ _ _ _ _ _ _ _ _ _ _ HRd) as (_ & Hi & Hd).
  assert (forall e, get_write_lock_bit e = true -> Sundial.write_locked (set_valid f 0 [] lg (locking c)) e = true) as Hlk by (intros e E; unfold Sundial.write_locked; now rewrite E).
  eapply tsafe_mono; [apply abort_ok; [apply HRd|exact Hi|exact Hd|reflexivity|..]; cbn [writeSet set_valid set_ts_writes locking]|].
  - apply mark_key.
  - eapply sublist_NoDup; [|apply fmap_sublist, sublist_filter]. rewrite marks_rows. apply write_rows.
  - intros k. rewrite (held_rows l' Eo). rewrite !list_elem_of_fmap. split; intros (e & -> & He); exists e; (split; [easy|]).
    + apply list_elem_of_filter. split; [|exact He]. apply Hlk. destruct (mark_of e He) as (w & _ & _ & _ & _ & _ & _ & E). exact E.
    + now apply list_elem_of_filter in He as [_ He].
  - now apply held_in_rows.
  - intros [] t' l2 (_ & [_ Hwr] & Ho). split; [exact Ho|]. rewrite Hwr, Ew. apply HRd.
Qed.

(** [install]: log, write and release. *)
Lemma install_ok c lg l' : owned l' = owned l -> wrote l' = wrote l ->
  (forall k w r b, owned l !! k = Some (w, r, b) -> r < c) ->
  run (Sundial.install me master_coordinator replicated_on coordinators size field_size serialize_value key_at) (set_valid false 0 [] lg (locking c)) l'
    (fun _ t' l2 => owned l2 = ∅ /\ leases l2 = leases l' /\ same_txn (locking c) t' /\
      (forall k w r b, owned l !! k = Some (w, r, b) -> wrote l2 !! k = Some (w, b, c, new_value k)) /\ (forall k, owned l !! k = None -> wrote l2 !! k = None)).
Proof.
  intros Eo Ew Hrts. pose proof HR as (HRd & _). destruct (rd_rest _ _ _ _ _ _ _ _ _ _ _ _ _ _ HRd) as (_ & Hi & Hd). pose proof (rd_wrote _ _ _ _ _ _ _ _ _ _ _ _ _ _ HRd) as Hwr0.
  unfold Sundial.install. apply tsafe_bind, tsafe_local. apply tsafe_bind. eapply tsafe_mono; [apply logs_ok|]. intros [] t1 l1 (-> & lg1 & ->).
  apply tsafe_bind, tsafe_local. change (insertSet _) with (insertSet t). rewrite Hi. apply tsafe_bind, tsafe_ret. apply tsafe_bind, tsafe_local. change (deleteSet _) with (deleteSet t). rewrite Hd. apply tsafe_bind, tsafe_ret.
  apply tsafe_bind. eapply tsafe_mono; [apply (write_ok size field_size serialize_value rows tid me master_coordinator replicated_on coordinators key_at Hfield Hserialize Hreplicas (owned l) c new_value)|].
  - intros k w r b Hk. split; [eapply Hrts, Hk|]. split; [apply (held_in_rows l eq_refl); eauto|]. destruct (reading_owned t l k HR) as (_ & e & He & ->); [eauto|]. apply (new_value_of e He).
  - apply HRd.
  - reflexivity.
  - reflexivity.
  - reflexivity.
  - exact Eo.
  - now rewrite Ew.
  - cbn [writeSet relog set_valid set_ts_writes locking]. rewrite marks_rows. apply write_rows.
  - apply held_rows. reflexivity.
  - intros e He. split; [now apply mark_key|]. destruct (mark_of e He) as (w & Hw & _ & Ev & -> & _). destruct (u_entry _ _ Hu w Hw) as ([v Hv] & _).
    exists v. split; [congruence|]. destruct (new_value_of w Hw) as [Hn _]. unfold buf in Hn. rewrite Hv in Hn. exact Hn.
  - intros [] t2 l2 (Ht & Hout & Hl & Hown & Hnone). destruct Ht as (Hid & Hts & Hrs & Hws & Hm). cbn [transaction_id commit_ts readSet writeSet mem relog set_valid locking set_ts_writes on_mem] in Hid, Hts, Hrs, Hws, Hm.
    assert (forall k, is_Some (owned l2 !! k) <-> is_Some (owned l !! k)) as Hdom.
    { intros k. destruct (owned l !! k) as [[[w r] b]|] eqn:Ek; [destruct (Hown _ _ _ _ Ek) as [-> _]; split; eauto|]. now destruct (Hnone k Ek) as [-> _]. }
    eapply tsafe_mono; [apply release_ok; rewrite ?Hws|].
    + rewrite Hid. apply HRd.
    + exact Hout.
    + apply mark_key.
    + rewrite marks_rows. apply write_rows.
    + intros k. rewrite Hdom. now apply held_rows.
    + intros k Hk. apply (held_in_rows l eq_refl). now apply Hdom.
    + intros [] t3 l3 (Ht3 & [Hl3 Hw3] & Ho3). split; [exact Ho3|]. split; [congruence|]. split; [|split; [intros k w r b Hk; rewrite Hw3; now apply (Hown _ _ r)|intros k Hk; rewrite Hw3; now apply Hnone]].
      destruct Ht3 as (? & ? & ? & ? & ?). repeat split; cbn; congruence.
Qed.

Lemma marked_locking t1 : marked writes0 (readSet t) (length writes0) (on_mem compute t) t1 ->
  exists c, t1 = locking c /\ commit_ts t <= c /\ forall k w r b, owned l !! k = Some (w, r, b) -> r < c.
Proof.
  intros (c & E & Hc & Hlt). exists c. split; [rewrite E; unfold locking; now rewrite take_ge, drop_ge, app_nil_r by lia|]. split; [exact Hc|]. intros k w r b Hk.
  destruct (reading_owned t l k HR) as (_ & e & He & ->); [eauto|]. destruct (write_of e He) as (i & e0 & Hpos & He0 & Hw & Er). rewrite Er in Hk.
  pose proof (reading_held t l HR Ha) as HH. destruct (lookup_pair _ _ _ _ _ i e0 l HH He0) as (rd & b' & Hr & Hb). destruct (h_entry _ _ _ _ _ _ HH i e0 rd b' He0 Hr Hb) as (_ & _ & Ho). rewrite Hw in Ho.
  apply list_elem_of_lookup in He as [j Hj]. replace r with (get_rts rd) by congruence. apply (Hlt j e rd); [eapply lookup_lt_Some, Hj|exact Hj|]. rewrite Hpos, Nat2Z.id. exact Hr.
Qed.

Abbreviation commit := (Sundial.commit me master_coordinator replicated_on coordinators size field_size serialize_value key_at key_bytes true).

(** What a committed transaction knows at its end. *)
Lemma finished_commit c l' l2 t' : grows l l' -> commit_ts t <= c ->
  (forall i e0 e b, entry reads0 (readSet t) (values t) i e0 e b -> wr e0 = false -> idx e0 = false -> lease_until key_at c l' e0 e b) ->
  owned l2 = ∅ -> leases l2 = leases l' -> same_txn (locking c) t' ->
  (forall k w r b, owned l !! k = Some (w, r, b) -> wrote l2 !! k = Some (w, b, c, new_value k)) -> (forall k, owned l !! k = None -> wrote l2 !! k = None) ->
  finished true t' l2.
Proof.
  intros (Eo & _ & Hl) Hc Hlease Ho2 Hl2 Ht' Hw Hn. pose proof (reading_held t l HR Ha) as HH. pose proof HR as (HRd & _).
  destruct Ht' as (_ & Ets & Ers & _ & Em). cbn [commit_ts readSet mem locking set_ts_writes on_mem] in Ets, Ers, Em. split; [exact Ho2|]. exists (mem t). split; [exact Em|]. split; [apply HRd|]. split.
  - intros i e0 He0. destruct (lookup_pair _ _ _ _ _ i e0 l HH He0) as (e & b & He & Hb). destruct (h_entry _ _ _ _ _ _ HH i e0 e b He0 He Hb) as (Hs & _ & Hown).
    destruct (reading_entry t l i e0 HR He0) as (e1 & He1 & _ & (b1 & Hb1 & _) & _ & Hrd). assert (e1 = e) as -> by congruence. specialize (Hrd Ha).
    assert (b1 = b) as -> by (unfold values in Hb; rewrite list_lookup_fmap, He0 in Hb; cbn in Hb; rewrite Hb1 in Hb; now injection Hb).
    exists e, b. rewrite Ers, Ets. split; [exact He|]. split; [exact Hb1|]. destruct (wr e0) eqn:Hwr.
    + destruct (write_at i e0 He0 Hwr) as (w & Hin & _ & Er). exists w, (new_value (row_ e0)). split; [exact Hin|]. split; [exact Er|]. split; [rewrite <- Er; now apply new_value_of|]. eapply Hw, Hown.
    + intros Hx. split.
      * destruct (Hlease i e0 e b ltac:(easy) Hwr Hx) as (r & Hr & Hle). exists r. rewrite Hl2. easy.
      * intros Hnear. unfold ready in Hrd. rewrite Hwr in Hrd. destruct Hrd as (b' & _ & _ & Hw2). specialize (Hw2 Hnear). lia.
  - intros k x Hk. destruct (owned l !! k) as [y|] eqn:Ek; [|rewrite Hn in Hk by exact Ek; discriminate Hk].
    destruct (h_owned _ _ _ _ _ _ HH k y Ek) as [(e0 & Hin & Hwr & ->) _]. eauto.
Qed.

Lemma commit_ok : run commit (on_mem compute t) l (fun ok t' l' => finished ok t' l').
Proof.
  pose proof HR as (HRd & Hout & _). destruct (rd_rest _ _ _ _ _ _ _ _ _ _ _ _ _ _ HRd) as (_ & Hi & Hd). pose proof (reading_held t l HR Ha) as HH.
  unfold Sundial.commit. apply tsafe_bind, tsafe_local. cbn [abort_lock on_mem]. rewrite Ha. apply tsafe_bind.
  eapply tsafe_mono; [apply (lock_ok size field_size rows tid me master_coordinator key_at reads0 writes0 Hu (readSet t) (values t)); [exact HH|reflexivity|apply HRd|apply HRd|exact Hout|exact Ha]|].
  intros ? t1 l1 (-> & -> & Hm). destruct (marked_locking t1 Hm) as (c & -> & Hc & Hrts). apply tsafe_bind, tsafe_must; [reflexivity|]. apply tsafe_bind.
  eapply tsafe_mono; [eapply (validate_ok size field_size serialize_value rows tid me master_coordinator replicated_on coordinators key_at key_bytes reads0 writes0 Hu Hq (readSet t) (values t) c);
    [exact Hhosts|apply locking_at|exact HH|exact Hi|exact Hd|exact Hout|apply HRd|apply HRd|exact Ha]|].
  intros ok t2 l2 ((f & lg & -> & Hg & Hl) & ->). pose proof Hg as (Eo & Ew & _). cbn [abort_read_validation set_valid]. destruct f; cbn [negb].
  - apply tsafe_bind. eapply tsafe_mono; [now apply abort_valid|]. intros [] t3 l3 H3. apply tsafe_ret. exact H3.
  - apply tsafe_bind. eapply tsafe_mono; [now apply install_ok|]. intros [] t3 l3 (H1 & H2 & H3 & H4 & H5). apply tsafe_ret.
    eapply finished_commit; try eassumption. now apply Hl.
Qed.
End commit.

Abbreviation transaction := (Sundial.transaction me master_coordinator replicated_on coordinators size field_size serialize_value key_at key_bytes read_on_replica true compute).

(** A transaction before its requests are served. *)
Record beginning (t : stxn) : Prop := Beginning {
  b_id : transaction_id t = tid;
  b_sets : readSet t = reads0 /\ writeSet t = writes0 /\ scanSet t = [] /\ insertSet t = [] /\ deleteSet t = [];
  b_flags : abort_lock t = false /\ abort_read_validation t = false /\ abort_insert t = false /\ abort_delete t = false;
  b_ts : 0 <= commit_ts t;
  b_idle : pendingResponses t = 0 /\ outbox t = [];
  b_mem : mem t = mem0;
  b_buffers : forall e, e ∈ reads0 -> sized (mem t) e
}.

Lemma beginning_flying t : beginning t ->
  flying size tid me master_coordinator replicated_on key_at read_on_replica reads0 writes0 mem0 (length reads0) t (Know ∅ [] ∅).
Proof.
  intros [H1 (H2 & H3 & H4 & H5 & H6) (H7 & H8 & H9 & H10) H11 [H12 H13] H14 H15]. unfold flying. rewrite H13. split; try easy.
  - now rewrite H2.
  - apply NoDup_nil_2.
  - intros i e0 e He0 He. rewrite H2 in He. assert (e = e0) as -> by congruence. pose proof (list_elem_of_lookup_2 _ _ _ He0) as Hin. destruct (q_fresh _ _ _ Hq e0 Hin) as [Hp Hl].
    split; [apply same_refl|]. split; [now apply H15|]. right. unfold settled. rewrite Hl. split; [reflexivity|]. right. left. split; [eapply lookup_lt_Some, He0|easy].
  - intros p _. now rewrite H14.
Qed.

(** Whatever the others do, the transaction ends, holds no lock then, and has
    read and written at its timestamp if it has committed. *)
Lemma transaction_ok t : beginning t -> run transaction t (Know ∅ [] ∅) (fun ok t' l' => finished ok t' l').
Proof.
  intros HB. unfold Sundial.transaction. apply tsafe_bind. eapply tsafe_mono; [eapply requests_ok; [exact Hq|now apply beginning_flying|apply HB|apply HB]|].
  intros stop t1 l1 [HR ->]. destruct (abort_lock t1) eqn:Ea.
  - apply tsafe_bind. eapply tsafe_mono; [now apply abort_reading|]. intros [] t2 l2 H2. apply tsafe_ret. exact H2.
  - apply tsafe_bind, tsafe_assign. now apply commit_ok.
Qed.
End transaction.

(** ** Many transactions *)

Section system.
Context (size field_size : Z -> nat) (serialize_value : Z -> bytes -> bytes) (rows : gset row_id).
Context (master_coordinator : Z -> Z) (replicated_on : Z -> Z -> bool) (coordinators : list Z).
Context (key_bytes : Z -> bytes) (read_on_replica : bool).

(** A transaction: its host, what its key pointers refer to, its state when it
    begins, and its computation. *)
Record job := Job { host : Z; pointer : Z -> Z; start : stxn; computation : gmap Z bytes -> gmap Z bytes }.

Definition run_job (j : job) : prog db (bool * stxn) :=
  Sundial.transaction (host j) master_coordinator replicated_on coordinators size field_size serialize_value (pointer j) key_bytes read_on_replica true (computation j) (start j).

Record job_ok (tid : Z) (j : job) : Prop := JobOk {
  j_id : tid <> 0;
  j_hosts : forall e0, e0 ∈ readSet (start j) -> Sundial.owner_of master_coordinator e0 ∈ coordinators;
  j_requests : requests rows (pointer j) (readSet (start j));
  j_updates : updates (readSet (start j)) (writeSet (start j));
  j_compute : forall m, (forall e, e ∈ readSet (start j) -> sized size m e) -> (forall p, p ∉ buf <$> readSet (start j) -> m !! p = mem (start j) !! p) ->
    forall e, e ∈ writeSet (start j) -> sized size (computation j m) e;
  j_start : beginning size tid (readSet (start j)) (writeSet (start j)) (mem (start j)) (start j)
}.

Abbreviation state := (sys db (bool * stxn)).

Definition run_jobs (jobs : gmap Z job) (s : db) : state := Sys [] s (run_job <$> jobs).

(** The transaction [tid] never changed a version. *)
Definition wrote_nothing (tid : Z) (y : state) : Prop :=
  forall d d' k, (tid, d, d') ∈ moves (past y) (now y) -> version d' k = version d k.

Definition holds_no_lock (tid : Z) (y : state) : Prop := forall k w r b, row_at (now y) k w r tid b -> False.

(** [t] has read and written at its commit timestamp: the buffers of the reads
    held, before the computation, the versions that are current just then; of the
    rows it updates, those just before, and its own versions follow them. *)
Definition committed (tid : Z) (j : job) (t : stxn) (y : state) : Prop := exists m, mem t = computation j m /\
  (forall p, p ∉ buf <$> readSet (start j) -> m !! p = mem (start j) !! p) /\
  (forall i e0, readSet (start j) !! i = Some e0 -> exists e b, readSet t !! i = Some e /\ m !! buf e0 = Some b /\
    let k := row_ (pointer j) e0 in
    if wr e0 then latest_at (states y) k (commit_ts t - 1) b /\
      exists w v, w ∈ writeSet (start j) /\ row_ (pointer j) w = k /\ mem t !! buf w = Some v /\ latest_at (states y) k (commit_ts t) v
    else idx e0 = false ->
      (get_wts e <= commit_ts t -> latest_at (states y) k (commit_ts t) b) /\
      (near (host j) master_coordinator replicated_on read_on_replica e0 = false -> get_wts e <= commit_ts t)) /\
  (forall d d' k, (tid, d, d') ∈ moves (past y) (now y) -> version d' k = version d k \/
    exists w v, w ∈ writeSet (start j) /\ k = row_ (pointer j) w /\ mem t !! buf w = Some v /\ version d' k = Some (commit_ts t, v)).

Abbreviation finished_job j := (finished (host j) master_coordinator replicated_on (pointer j) read_on_replica (computation j) (readSet (start j)) (writeSet (start j)) (mem (start j))).

Lemma wrote_latest tid l h s k w b w' b' : inv size rows h s -> knows tid l h s -> wrote l !! k = Some (w, b, w', b') ->
  latest_at (all h s) k (w' - 1) b /\ latest_at (all h s) k w' b'.
Proof.
  intros HI HK Hk. destruct (k_wrote _ _ _ _ HK _ _ _ _ _ Hk) as (Hlt & d & d' & r & o & r' & o' & Hm & Hr & Hr').
  destruct (move_splits size rows h s tid d d' d' HI Hm) as (Hd & Hd' & Ha & _).
  { destruct (move_splits size rows h s tid d d' s HI Hm) as (_ & Hd' & _); [left|exact Hd']. }
  split.
  - eapply replaced_latest; [exact HI|exact Hd|exact Hd'|exact Ha|exact Hr|exact Hr'|exact Hlt|]. intros d2 H2. now apply (move_splits size rows h s tid d d' d2).
  - assert (good size rows d') as Hg. { apply elem_of_cons in Hd' as [->|Hd']; [apply HI|]. now apply (chain_after _ _ _ _ _ (proj2 HI)). }
    eapply lease_latest; [exact HI|exact Hd'|exact Hr'|]. destruct Hg as [Hdom Hg]. assert (k ∈ rows) as Hin by (rewrite <- Hdom; apply elem_of_dom; rewrite Hr'; eauto).
    destruct (Hg k Hin) as (w2 & r2 & o2 & b2 & H2 & ? & _). destruct (row_at_inj _ _ _ _ _ _ _ _ _ _ Hr' H2) as (-> & -> & _). lia.
Qed.

Lemma finished_committed tid j t l y : job_ok tid j -> inv size rows (past y) (now y) -> knows tid l (past y) (now y) ->
  finished_job j true t l -> committed tid j t y.
Proof.
  intros Hj HI HK (_ & m & Hm & Hframe & He & Hw). exists m. split; [exact Hm|]. split; [exact Hframe|]. split.
  - intros i e0 He0. destruct (He i e0 He0) as (e & b & Hre & Hb & Hcase). exists e, b. split; [exact Hre|]. split; [exact Hb|]. cbn zeta. destruct (wr e0).
    + destruct Hcase as (w & v & Hin & Er & Hv & Hwr). destruct (wrote_latest _ _ _ _ _ _ _ _ _ HI HK Hwr) as [H1 H2]. split; [exact H1|].
      exists w, v. split; [exact Hin|]. split; [exact Er|]. split; [now rewrite Hm|exact H2].
    + intros Hx. destruct (Hcase Hx) as ((r & Hl & Hr) & Hn). split; [|exact Hn]. intros Hle.
      destruct (k_leases _ _ _ _ HK _ _ _ _ Hl) as (d & r' & o & Hd & Hrow & Hr'). eapply lease_latest; [exact HI|exact Hd|exact Hrow|lia].
  - intros d d' k Hmv. destruct (k_moves _ _ _ _ HK d d' k Hmv) as [?|(w & b & w' & b' & Hk & Hv)]; [now left|]. right.
    destruct (Hw k _ Hk) as (e0 & Hin & Hwr & ->). apply list_elem_of_lookup in Hin as [i He0]. destruct (He i e0 He0) as (e & b2 & _ & _ & Hcase). rewrite Hwr in Hcase.
    destruct Hcase as (w2 & v & Hin & Er & Hv2 & Hk2). rewrite Hk in Hk2. injection Hk2 as -> -> -> ->. exists w2, v. split; [exact Hin|]. split; [easy|]. split; [now rewrite Hm|exact Hv].
Qed.

(** Rows are sent as they are in memory, and have no replicas. *)
Context (Hfield : forall t, field_size t = size t) (Hserialize : forall t v, length v = size t -> serialize_value t v = v).
Context (Hreplicas : forall p h, replicated_on p h = true -> h = master_coordinator p).

Lemma jobs_safe jobs s : good size rows s -> (forall k w r o b, row_at s k w r o b -> o = 0) -> (forall tid j, jobs !! tid = Some j -> job_ok tid j) ->
  all_safe bounded (inv size rows) knows (fun tid a l => exists j, jobs !! tid = Some j /\ finished_job j a.1 a.2 l) (run_jobs jobs s).
Proof.
  intros Hg Ho Hjobs. split; [split; [exact Hg|exact I]|]. intros tid p Hp. cbn in Hp. rewrite lookup_fmap in Hp. destruct (jobs !! tid) as [j|] eqn:Ej; [|discriminate Hp]. cbn in Hp. injection Hp as <-.
  pose proof (Hjobs tid j Ej) as [H1 H2 H3 H4 H5 H6]. exists (Know ∅ [] ∅). split.
  - split; [exact H1|..]; cbn; try easy.
    intros k w r b Hk. apply Ho in Hk. congruence.
  - pose proof (transaction_ok size field_size serialize_value rows tid (host j) master_coordinator replicated_on coordinators (pointer j) key_bytes read_on_replica (computation j)
      _ _ _ Hfield Hserialize Hreplicas H2 H3 H4 H5 (start j) H6) as Hs. eapply safe_mono; [|exact Hs]. intros [ok t] l Hf. eauto.
Qed.

(** C2: Sundial is serializable by commit timestamps.  For any set of
    transactions, on any hosts, that read distinct rows, update exactly those they
    have read for update (no inserts, deletes or scans), on tables without replicas
    whose values are serialized as their bytes, and run interleaved in any way, the steps of the owners of remote rows
    included: as long as no timestamp runs over, every transaction can take its
    next step (no check of the code fails, no wait is for ever); one that is done
    holds no lock, its unlock requests being served; one that has aborted has changed no version; and one that has
    committed at [commit_ts] has read, of every row it updates, the version that is
    the latest before [commit_ts] in the whole run, its own new version being the
    latest at [commit_ts], and of every other row, reads of local indexes
    excepted, the version that is the latest at [commit_ts], provided that version is
    not newer than [commit_ts], which is so for all reads from other hosts (a local
    read may have a newer version and is excepted then). *)
Theorem sundial_serializable jobs s y :
  good size rows s -> (forall k w r o b, row_at s k w r o b -> o = 0) -> (forall tid j, jobs !! tid = Some j -> job_ok tid j) ->
  reachable bounded (run_jobs jobs s) y ->
  forall tid j p, jobs !! tid = Some j -> threads y !! tid = Some p ->
  match p with
  | Done (true, t) => holds_no_lock tid y /\ committed tid j t y
  | Done (false, t) => holds_no_lock tid y /\ wrote_nothing tid y
  | _ => bounded (now y) -> is_Some (advance tid 0 y)
  end.
Proof.
  intros Hg Ho Hjobs Hr tid j p Hj Hp. destruct (sound _ _ _ _ _ _ (jobs_safe jobs s Hg Ho Hjobs) Hr) as [HI Ht]. specialize (Ht tid p Hp).
  destruct p as [[ok t]|R m k|n k]; [|exact Ht|now intros _].
  destruct Ht as (l & HK & j' & Hj' & Hf). rewrite Hj in Hj'. injection Hj' as <-. pose proof Hf as [Hown _]. cbn [fst snd] in Hf, Hown.
  assert (holds_no_lock tid y) as Hno. { intros k w r b Hk. destruct (k_all _ _ _ _ HK _ _ _ _ Hk) as [x Hx]. now rewrite Hown, lookup_empty in Hx. }
  destruct ok; (split; [exact Hno|]).
  - eapply finished_committed; [now apply Hjobs|exact HI|exact HK|exact Hf].
  - destruct Hf as [_ Hw]. intros d d' k Hm. destruct (k_moves _ _ _ _ HK d d' k Hm) as [?|(w & b & w' & b' & Hk & _)]; [easy|]. now rewrite Hw, lookup_empty in Hk.
Qed.

(** C35: rows stay well formed and time runs forward.  Whatever transactions run that
    read distinct rows and update exactly those they have read for update (no
    inserts, deletes, scans or replicas, values being serialized as their bytes), and
    however they interleave, from valid unlocked rows on, in every state that is reached each row is valid, has
    its latch free and a value of the size of its table, with [wts <= rts]; and of
    any two states of the run, in one of them every row is as late as in the
    other: a newer version begins after the lease of the older one. *)
Theorem sundial_rows_well_formed jobs s y :
  good size rows s -> (forall k w r o b, row_at s k w r o b -> o = 0) -> (forall tid j, jobs !! tid = Some j -> job_ok tid j) ->
  reachable bounded (run_jobs jobs s) y ->
  good size rows (now y) /\ forall d d', d ∈ states y -> d' ∈ states y -> after d d' \/ after d' d.
Proof.
  intros Hg Ho Hjobs Hr. destruct (sound _ _ _ _ _ _ (jobs_safe jobs s Hg Ho Hjobs) Hr) as [HI _]. split; [apply HI|].
  intros d d' Hd Hd'. eapply all_related; [exact HI|exact Hd|exact Hd'].
Qed.
End system.
