(* ===== verification/TwoPL.v ===== *)
(** * Two-phase locking: executing and committing a transaction

    protocol/TwoPL/TwoPLRWKey.h, TwoPLTransaction.h, TwoPLExecutor.h,
    TwoPLMessage.h and TwoPL.h, the protocol for rows that do not move, over the
    operations of [TwoPLHelper].  As in [Sundial], a transaction is a [thread] whose
    steps are the operations on single rows, and the work of the owners of remote
    rows is interleaved with it ([network]).  The shared state is the rows of all
    hosts and what is written to the logs, with the transaction that wrote it;
    the text of the records is left out, as are statistics and time measurements.
    A pointer to a row or to its metadata is the key of the row. *)

From stdpp Require Import sorting.
From S2P Require Import Prelude TwoPLHelper Interleave SundialRow.

(** ** Entries of the read and write sets *)

Module TwoPLRWKey.

Inductive scan_type := SCAN_FOR_READ | SCAN_FOR_UPDATE | SCAN_FOR_INSERT | SCAN_FOR_DELETE.

Record TwoPLRWKey := MkKey {
  key : option Z;
  value : option Z;
  bitvec : Z;
  tid : Z;
  lock_index : Z;
  min_key : option Z;
  max_key : option Z;
  limit : Z;
  scan_results : option Z;
  type : scan_type;
  next_row_entity : option row_id;
  require_lock_next_row : bool;
  is_next_row_locked : bool;
  cached_local_row : option row_id;
  processed : bool
}.

Definition fresh_key : TwoPLRWKey := MkKey None None 0 0 (-1) None None 0 None SCAN_FOR_READ None false false None false.

Definition TABLE_ID_MASK : Z := 0x1f.
Definition TABLE_ID_OFFSET : Z := 57.
Definition GRANULE_ID_MASK : Z := 0x3ffff.
Definition GRANULE_ID_OFFSET : Z := 39.
Definition PARTITION_ID_MASK : Z := 0xfffff.
Definition PARTITION_ID_OFFSET : Z := 19.
Definition WRITE_LOCK_REQUEST_BIT_MASK : Z := 0x1.
Definition WRITE_LOCK_REQUEST_BIT_OFFSET : Z := 4.
Definition READ_LOCK_REQUEST_BIT_MASK : Z := 0x1.
Definition READ_LOCK_REQUEST_BIT_OFFSET : Z := 3.
Definition WRITE_LOCK_BIT_MASK : Z := 0x1.
Definition WRITE_LOCK_BIT_OFFSET : Z := 2.
Definition READ_LOCK_BIT_MASK : Z := 0x1.
Definition READ_LOCK_BIT_OFFSET : Z := 1.
Definition LOCAL_INDEX_READ_BIT_MASK : Z := 0x1.
Definition LOCAL_INDEX_READ_BIT_OFFSET : Z := 0.

Definition set_bitvec (b : Z) (k : TwoPLRWKey) : TwoPLRWKey :=
  MkKey (key k) (value k) b (tid k) (lock_index k) (min_key k) (max_key k) (limit k) (scan_results k) (type k) (next_row_entity k) (require_lock_next_row k) (is_next_row_locked k) (cached_local_row k) (processed k).
Definition clear_field (mask off : Z) (k : TwoPLRWKey) : TwoPLRWKey := set_bitvec (Z.land (bitvec k) (not64 (Z.shiftl mask off))) k.
Definition set_field (mask off v : Z) (k : TwoPLRWKey) : TwoPLRWKey :=
  let k := clear_field mask off k in set_bitvec (Z.lor (bitvec k) (wrap 64 (Z.shiftl v off))) k.
Definition get_field (mask off : Z) (k : TwoPLRWKey) : Z := Z.land (Z.shiftr (bitvec k) off) mask.

Definition clear_local_index_read_bit := clear_field LOCAL_INDEX_READ_BIT_MASK LOCAL_INDEX_READ_BIT_OFFSET.
Definition set_local_index_read_bit := set_field LOCAL_INDEX_READ_BIT_MASK LOCAL_INDEX_READ_BIT_OFFSET LOCAL_INDEX_READ_BIT_MASK.
Definition get_local_index_read_bit := get_field LOCAL_INDEX_READ_BIT_MASK LOCAL_INDEX_READ_BIT_OFFSET.
Definition clear_read_lock_bit := clear_field READ_LOCK_BIT_MASK READ_LOCK_BIT_OFFSET.
Definition set_read_lock_bit := set_field READ_LOCK_BIT_MASK READ_LOCK_BIT_OFFSET READ_LOCK_BIT_MASK.
Definition get_read_lock_bit := get_field READ_LOCK_BIT_MASK READ_LOCK_BIT_OFFSET.
Definition clear_write_lock_bit := clear_field WRITE_LOCK_BIT_MASK WRITE_LOCK_BIT_OFFSET.
Definition set_write_lock_bit := set_field WRITE_LOCK_BIT_MASK WRITE_LOCK_BIT_OFFSET WRITE_LOCK_BIT_MASK.
Definition get_write_lock_bit := get_field WRITE_LOCK_BIT_MASK WRITE_LOCK_BIT_OFFSET.
Definition clear_read_lock_request_bit := clear_field READ_LOCK_REQUEST_BIT_MASK READ_LOCK_REQUEST_BIT_OFFSET.
Definition set_read_lock_request_bit := set_field READ_LOCK_REQUEST_BIT_MASK READ_LOCK_REQUEST_BIT_OFFSET READ_LOCK_REQUEST_BIT_MASK.
Definition get_read_lock_request_bit := get_field READ_LOCK_REQUEST_BIT_MASK READ_LOCK_REQUEST_BIT_OFFSET.
Definition clear_write_lock_request_bit := clear_field WRITE_LOCK_REQUEST_BIT_MASK WRITE_LOCK_REQUEST_BIT_OFFSET.
Definition set_write_lock_request_bit := set_field WRITE_LOCK_REQUEST_BIT_MASK WRITE_LOCK_REQUEST_BIT_OFFSET WRITE_LOCK_REQUEST_BIT_MASK.
Definition get_write_lock_request_bit := get_field WRITE_LOCK_REQUEST_BIT_MASK WRITE_LOCK_REQUEST_BIT_OFFSET.
Definition clear_table_id := clear_field TABLE_ID_MASK TABLE_ID_OFFSET.
Definition set_table_id (table_id : Z) := set_field TABLE_ID_MASK TABLE_ID_OFFSET table_id.
Definition get_table_id := get_field TABLE_ID_MASK TABLE_ID_OFFSET.
Definition clear_partition_id := clear_field PARTITION_ID_MASK PARTITION_ID_OFFSET.
Definition set_partition_id (partition_id : Z) := set_field PARTITION_ID_MASK PARTITION_ID_OFFSET partition_id.
Definition get_partition_id := get_field PARTITION_ID_MASK PARTITION_ID_OFFSET.
Definition clear_granule_id := clear_field GRANULE_ID_MASK GRANULE_ID_OFFSET.
Definition set_granule_id (granule_id : Z) := set_field GRANULE_ID_MASK GRANULE_ID_OFFSET granule_id.
Definition get_granule_id := get_field GRANULE_ID_MASK GRANULE_ID_OFFSET.

Definition get_tid (k : TwoPLRWKey) : Z := tid k.
Definition set_tid (t : Z) (k : TwoPLRWKey) : TwoPLRWKey :=
  MkKey (key k) (value k) (bitvec k) t (lock_index k) (min_key k) (max_key k) (limit k) (scan_results k) (type k) (next_row_entity k) (require_lock_next_row k) (is_next_row_locked k) (cached_local_row k) (processed k).
Definition get_key (k : TwoPLRWKey) : option Z := key k.
Definition set_key (p : option Z) (k : TwoPLRWKey) : TwoPLRWKey :=
  MkKey p (value k) (bitvec k) (tid k) (lock_index k) (min_key k) (max_key k) (limit k) (scan_results k) (type k) (next_row_entity k) (require_lock_next_row k) (is_next_row_locked k) (cached_local_row k) (processed k).
Definition get_value (k : TwoPLRWKey) : option Z := value k.
Definition set_value (p : option Z) (k : TwoPLRWKey) : TwoPLRWKey :=
  MkKey (key k) p (bitvec k) (tid k) (lock_index k) (min_key k) (max_key k) (limit k) (scan_results k) (type k) (next_row_entity k) (require_lock_next_row k) (is_next_row_locked k) (cached_local_row k) (processed k).
Definition get_lock_index (k : TwoPLRWKey) : Z := lock_index k.
Definition set_lock_index (i : Z) (k : TwoPLRWKey) : TwoPLRWKey :=
  MkKey (key k) (value k) (bitvec k) (tid k) i (min_key k) (max_key k) (limit k) (scan_results k) (type k) (next_row_entity k) (require_lock_next_row k) (is_next_row_locked k) (cached_local_row k) (processed k).
Definition get_scan_min_key (k : TwoPLRWKey) : option Z := min_key k.
Definition get_scan_max_key (k : TwoPLRWKey) : option Z := max_key k.
Definition get_scan_limit (k : TwoPLRWKey) : Z := limit k.
Definition get_scan_res_vec (k : TwoPLRWKey) : option Z := scan_results k.
Definition get_request_type (k : TwoPLRWKey) : scan_type := type k.
Definition set_scan_args (mn mx : option Z) (lim : Z) (res : option Z) (ty : scan_type) (k : TwoPLRWKey) : TwoPLRWKey :=
  MkKey (key k) (value k) (bitvec k) (tid k) (lock_index k) mn mx lim res ty (next_row_entity k) (require_lock_next_row k) (is_next_row_locked k) (cached_local_row k) (processed k).
Definition get_next_row_entity (k : TwoPLRWKey) : option row_id := next_row_entity k.
Definition set_next_row_entity (r : option row_id) (k : TwoPLRWKey) : TwoPLRWKey :=
  MkKey (key k) (value k) (bitvec k) (tid k) (lock_index k) (min_key k) (max_key k) (limit k) (scan_results k) (type k) r (require_lock_next_row k) (is_next_row_locked k) (cached_local_row k) (processed k).
Definition get_next_row_locked (k : TwoPLRWKey) : bool := is_next_row_locked k.
Definition set_next_row_locked (k : TwoPLRWKey) : TwoPLRWKey :=
  MkKey (key k) (value k) (bitvec k) (tid k) (lock_index k) (min_key k) (max_key k) (limit k) (scan_results k) (type k) (next_row_entity k) (require_lock_next_row k) true (cached_local_row k) (processed k).
Definition get_require_lock_next_row (k : TwoPLRWKey) : bool := require_lock_next_row k.
Definition set_require_lock_next_row (k : TwoPLRWKey) : TwoPLRWKey :=
  MkKey (key k) (value k) (bitvec k) (tid k) (lock_index k) (min_key k) (max_key k) (limit k) (scan_results k) (type k) (next_row_entity k) true (is_next_row_locked k) (cached_local_row k) (processed k).
Definition get_cached_local_row (k : TwoPLRWKey) : option row_id := cached_local_row k.
Definition set_cached_local_row (r : option row_id) (k : TwoPLRWKey) : TwoPLRWKey :=
  MkKey (key k) (value k) (bitvec k) (tid k) (lock_index k) (min_key k) (max_key k) (limit k) (scan_results k) (type k) (next_row_entity k) (require_lock_next_row k) (is_next_row_locked k) r (processed k).
Definition get_processed (k : TwoPLRWKey) : bool := processed k.
Definition set_processed (k : TwoPLRWKey) : TwoPLRWKey :=
  MkKey (key k) (value k) (bitvec k) (tid k) (lock_index k) (min_key k) (max_key k) (limit k) (scan_results k) (type k) (next_row_entity k) (require_lock_next_row k) (is_next_row_locked k) (cached_local_row k) true.
End TwoPLRWKey.
Import TwoPLRWKey.

Abbreviation tkey := TwoPLRWKey.TwoPLRWKey.

(** ** The shared state *)

Inductive log_type := LogWrite | LogInsert | LogDelete.

(** A redo record, the redo records and the vote of an owner, the commit record of a
    transaction, and the one that an owner writes. *)
Inductive log_entry :=
| LogRedo (ty : log_type) (k : row_id) (value : bytes)
| LogPrepare (redo : list (row_id * bytes)) (vote : bool)
| LogCommit (commit_tid : Z)
| LogOwnerCommit (commit_tid : Z).

(** The log has the youngest record first. *)
Record store := Store { s_rows : gmap row_id TwoPLHelper.row; s_log : list (Z * log_entry) }.

Definition write_log (tid : Z) (e : log_entry) : M store unit := modify (fun s => Store (s_rows s) ((tid, e) :: s_log s)).

(** An operation on a row through a pointer to it. *)
Definition at_row {A} (k : row_id) (m : M TwoPLHelper.row A) : M store A := fun s =>
  match s_rows s !! k with
  | Some r => match m r with Ret a r' => Ret a (Store (<[k := r']> (s_rows s)) (s_log s)) | Spin => Spin | Abort => Abort | Fault => Fault end
  | None => Fault
  end.
(** After a search of the index, whose result is checked. *)
Definition checked_row {A} (k : row_id) (m : M TwoPLHelper.row A) : M store A :=
  found ← gets (fun s => s_rows s !! k);
  CHECK (bool_decide (is_Some found));; at_row k m.

(** Tables (core/Table.h): writing a row, which takes no latch, and rows that come
    and go.  A new row is a placeholder; one that is inserted with next-key locking needs a
    key that follows. *)
Definition put_data (v : bytes) : M TwoPLHelper.row unit := modify (fun r => TwoPLHelper.MkRow (TwoPLHelper.lmeta r) v).
Definition table_update (k : row_id) (v : bytes) : M store unit := checked_row k (put_data v).
Definition put_row (k : row_id) (v : bytes) (is_placeholder : bool) : M store unit :=
  modify (fun s => Store (<[k := TwoPLHelper.MkRow (TwoPLHelper.TwoPLMetadataInit (negb is_placeholder)) v]> (s_rows s)) (s_log s)).
Definition table_insert (k : row_id) (v : bytes) (is_placeholder : bool) : M store bool :=
  found ← gets (fun s => s_rows s !! k);
  match found with
  | Some _ => mret false
  | None => put_row k v is_placeholder;; mret true
  end.
Definition table_remove (k : row_id) : M store bool :=
  found ← gets (fun s => s_rows s !! k);
  match found with
  | Some _ => modify (fun s => Store (delete k (s_rows s)) (s_log s));; mret true
  | None => abort
  end.
(** The keys of a partition in order, from [low] on. *)
Definition keys_from (table_id partition_id low : Z) (s : store) : list Z :=
  merge_sort Z.le (snd <$> filter (fun k : row_id => k.1 = (table_id, partition_id) /\ low <= k.2) (elements (dom (s_rows s)))).
Definition table_insert_lock_next_key (k : row_id) (v : bytes) (processor : row_id -> M store bool) (is_placeholder : bool) : M store (bool * option row_id) :=
  CHECK is_placeholder;;
  found ← gets (fun s => s_rows s !! k);
  match found with
  | Some _ => mret (false, None)
  | None =>
      next ← gets (fun s => head (keys_from k.1.1 k.1.2 (k.2 + 1) s));
      match next with
      | None => abort
      | Some n =>
          let next := (k.1, n) in
          ok ← processor next;
          if ok : bool then put_row k v is_placeholder;; mret (true, Some next) else mret (false, None)
      end
  end.

(** ** Messages, with the key as the receiver finds it *)

Inductive request :=
| ReadLockRequest (k : row_id) (key_offset : nat)
| WriteLockRequest (k : row_id) (key_offset : nat)
| AbortRequest (k : row_id) (write_lock : bool)
| PrepareRequest
| PrepareRedoRequest (redo : list (row_id * bytes))
| WriteRequest (k : row_id) (value : bytes) (commit_tid : Z) (persist_commit_record : bool)
| ReplicationRequest (k : row_id) (value : bytes) (commit_tid : Z) (sync_redo : bool)
| ReleaseReadLockRequest (k : row_id)
| ReleaseWriteLockRequest (k : row_id) (commit_tid : Z).

Inductive response :=
| ReadLockResponse (success : bool) (key_offset : nat) (value : bytes) (tid : Z)
| WriteLockResponse (success : bool) (key_offset : nat) (value : bytes) (tid : Z)
| PrepareResponse
| PrepareRedoResponse (success : bool)
| WriteResponse
| ReplicationResponse
| ReleaseReadLockResponse
| ReleaseWriteLockResponse.

(** Work on a request at its owner: not begun, between two operations, or answered. *)
Inductive work :=
| Received (m : request)
| Locked (k : row_id) (write_lock : bool) (latest_tid : Z) (key_offset : nat)
| Written (commit_tid : Z)
| ReplicaLocked (k : row_id) (value : bytes) (commit_tid : Z)
| ReplicaWritten (k : row_id) (commit_tid : Z)
| Answered (r : response).

(** ** The transaction *)

Record ttxn := Txn {
  readSet : list tkey;
  writeSet : list tkey;
  scanSet : list tkey;
  insertSet : list tkey;
  deleteSet : list tkey;
  abort_lock : bool;
  abort_read_validation : bool;
  abort_insert : bool;
  abort_delete : bool;
  distributed_transaction : bool;
  single_partition : bool;
  pendingResponses : Z;
  (** the last transaction id of the worker *)
  max_tid : Z;
  (** the buffers behind the value pointers, the vectors behind the scan results *)
  mem : gmap Z bytes;
  vec : gmap Z (list row_id);
  outbox : list request
}.

Definition set_sets (r w s i d : list tkey) (t : ttxn) : ttxn := Txn r w s i d (abort_lock t) (abort_read_validation t) (abort_insert t) (abort_delete t) (distributed_transaction t) (single_partition t) (pendingResponses t) (max_tid t) (mem t) (vec t) (outbox t).
Definition with_reads (f : list tkey -> list tkey) (t : ttxn) : ttxn := set_sets (f (readSet t)) (writeSet t) (scanSet t) (insertSet t) (deleteSet t) t.
Definition with_writes (f : list tkey -> list tkey) (t : ttxn) : ttxn := set_sets (readSet t) (f (writeSet t)) (scanSet t) (insertSet t) (deleteSet t) t.
Definition with_scans (f : list tkey -> list tkey) (t : ttxn) : ttxn := set_sets (readSet t) (writeSet t) (f (scanSet t)) (insertSet t) (deleteSet t) t.
Definition with_inserts (f : list tkey -> list tkey) (t : ttxn) : ttxn := set_sets (readSet t) (writeSet t) (scanSet t) (f (insertSet t)) (deleteSet t) t.
Definition with_deletes (f : list tkey -> list tkey) (t : ttxn) : ttxn := set_sets (readSet t) (writeSet t) (scanSet t) (insertSet t) (f (deleteSet t)) t.
Definition set_abort_lock (t : ttxn) : ttxn := Txn (readSet t) (writeSet t) (scanSet t) (insertSet t) (deleteSet t) true (abort_read_validation t) (abort_insert t) (abort_delete t) (distributed_transaction t) (single_partition t) (pendingResponses t) (max_tid t) (mem t) (vec t) (outbox t).
Definition set_abort_insert (t : ttxn) : ttxn := Txn (readSet t) (writeSet t) (scanSet t) (insertSet t) (deleteSet t) (abort_lock t) (abort_read_validation t) true (abort_delete t) (distributed_transaction t) (single_partition t) (pendingResponses t) (max_tid t) (mem t) (vec t) (outbox t).
Definition set_abort_delete (t : ttxn) : ttxn := Txn (readSet t) (writeSet t) (scanSet t) (insertSet t) (deleteSet t) (abort_lock t) (abort_read_validation t) (abort_insert t) true (distributed_transaction t) (single_partition t) (pendingResponses t) (max_tid t) (mem t) (vec t) (outbox t).
Definition set_distributed (t : ttxn) : ttxn := Txn (readSet t) (writeSet t) (scanSet t) (insertSet t) (deleteSet t) (abort_lock t) (abort_read_validation t) (abort_insert t) (abort_delete t) true (single_partition t) (pendingResponses t) (max_tid t) (mem t) (vec t) (outbox t).
Definition on_pending (f : Z -> Z) (t : ttxn) : ttxn := Txn (readSet t) (writeSet t) (scanSet t) (insertSet t) (deleteSet t) (abort_lock t) (abort_read_validation t) (abort_insert t) (abort_delete t) (distributed_transaction t) (single_partition t) (f (pendingResponses t)) (max_tid t) (mem t) (vec t) (outbox t).
Definition set_max_tid (n : Z) (t : ttxn) : ttxn := Txn (readSet t) (writeSet t) (scanSet t) (insertSet t) (deleteSet t) (abort_lock t) (abort_read_validation t) (abort_insert t) (abort_delete t) (distributed_transaction t) (single_partition t) (pendingResponses t) n (mem t) (vec t) (outbox t).
Definition on_mem (f : gmap Z bytes -> gmap Z bytes) (t : ttxn) : ttxn := Txn (readSet t) (writeSet t) (scanSet t) (insertSet t) (deleteSet t) (abort_lock t) (abort_read_validation t) (abort_insert t) (abort_delete t) (distributed_transaction t) (single_partition t) (pendingResponses t) (max_tid t) (f (mem t)) (vec t) (outbox t).
Definition on_vec (f : gmap Z (list row_id) -> gmap Z (list row_id)) (t : ttxn) : ttxn := Txn (readSet t) (writeSet t) (scanSet t) (insertSet t) (deleteSet t) (abort_lock t) (abort_read_validation t) (abort_insert t) (abort_delete t) (distributed_transaction t) (single_partition t) (pendingResponses t) (max_tid t) (mem t) (f (vec t)) (outbox t).
Definition on_outbox (f : list request -> list request) (t : ttxn) : ttxn := Txn (readSet t) (writeSet t) (scanSet t) (insertSet t) (deleteSet t) (abort_lock t) (abort_read_validation t) (abort_insert t) (abort_delete t) (distributed_transaction t) (single_partition t) (pendingResponses t) (max_tid t) (mem t) (vec t) (f (outbox t)).
Definition on_read (i : nat) (f : tkey -> tkey) : ttxn -> ttxn := with_reads (alter f i).
Definition on_scan (i : nat) (f : tkey -> tkey) : ttxn -> ttxn := with_scans (alter f i).
Definition on_insert (i : nat) (f : tkey -> tkey) : ttxn -> ttxn := with_inserts (alter f i).
Definition on_delete (i : nat) (f : tkey -> tkey) : ttxn -> ttxn := with_deletes (alter f i).
Definition send (m : request) : ttxn -> ttxn := on_outbox (fun l => l ++ [m]).
(** A message whose answer is waited for. *)
Definition ask (m : request) (t : ttxn) : ttxn := on_pending (Z.add 1) (send m t).

Abbreviation T := (thread store ttxn).

Module TwoPLTransaction.

Definition reset (t : ttxn) : ttxn := Txn [] [] [] [] [] false false false false false (single_partition t) 0 (max_tid t) (mem t) (vec t) (outbox t).

Definition should_abort (t : ttxn) : bool := abort_lock t || abort_read_validation t || abort_insert t || abort_delete t.

Definition add_to_read_set (e : tkey) : ttxn -> ttxn := with_reads (fun l => l ++ [e]).
Definition add_to_write_set (e : tkey) : ttxn -> ttxn := with_writes (fun l => l ++ [e]).
Definition add_to_scan_set (e : tkey) : ttxn -> ttxn := with_scans (fun l => l ++ [e]).
Definition add_to_insert_set (e : tkey) : ttxn -> ttxn := with_inserts (fun l => l ++ [e]).
Definition add_to_delete_set (e : tkey) : ttxn -> ttxn := with_deletes (fun l => l ++ [e]).

Definition get_read_key (p : option Z) (t : ttxn) : option tkey := snd <$> list_find (fun e => get_key e = p) (readSet t).

Definition tuple_entry (table_id partition_id : Z) (key value : option Z) : tkey :=
  set_value value (set_key key (set_partition_id partition_id (set_table_id table_id fresh_key))).

Definition search_local_index (table_id partition_id key value : Z) : ttxn -> ttxn :=
  add_to_read_set (set_read_lock_request_bit (set_local_index_read_bit (tuple_entry table_id partition_id (Some key) (Some value)))).
Definition search_for_read (table_id partition_id key value : Z) : ttxn -> ttxn :=
  add_to_read_set (set_read_lock_request_bit (tuple_entry table_id partition_id (Some key) (Some value))).
Definition search_for_update (table_id partition_id key value : Z) : ttxn -> ttxn :=
  add_to_read_set (set_write_lock_request_bit (tuple_entry table_id partition_id (Some key) (Some value))).
Definition update (table_id partition_id key value : Z) : ttxn -> ttxn :=
  add_to_write_set (tuple_entry table_id partition_id (Some key) (Some value)).
Definition scan_entry (ty : scan_type) (table_id partition_id min_key max_key limit results : Z) : tkey :=
  set_scan_args (Some min_key) (Some max_key) limit (Some results) ty (set_partition_id partition_id (set_table_id table_id fresh_key)).
Definition scan_for_read (table_id partition_id min_key max_key limit results : Z) : ttxn -> ttxn :=
  add_to_scan_set (scan_entry SCAN_FOR_READ table_id partition_id min_key max_key limit results).
Definition scan_for_update (table_id partition_id min_key max_key limit results : Z) : ttxn -> ttxn :=
  add_to_scan_set (scan_entry SCAN_FOR_UPDATE table_id partition_id min_key max_key limit results).
Definition scan_for_insert (table_id partition_id min_key max_key limit results : Z) : ttxn -> ttxn :=
  add_to_scan_set (scan_entry SCAN_FOR_INSERT table_id partition_id min_key max_key limit results).
Definition scan_for_delete (table_id partition_id min_key max_key limit results : Z) : ttxn -> ttxn :=
  add_to_scan_set (scan_entry SCAN_FOR_DELETE table_id partition_id min_key max_key limit results).
Definition insert_row (table_id partition_id key value : Z) (require_lock_next_key : bool) : ttxn -> ttxn :=
  let e := tuple_entry table_id partition_id (Some key) (Some value) in
  add_to_insert_set (if require_lock_next_key then set_require_lock_next_row e else e).
Definition delete_row (table_id partition_id key : Z) : ttxn -> ttxn := add_to_delete_set (tuple_entry table_id partition_id (Some key) None).
End TwoPLTransaction.

Module TwoPL.
Section twopl.
(** The transaction, its host, the partitioner, the tables, and what key pointers refer to. *)
Context (tid me : Z) (master_coordinator : Z -> Z) (replicated_on : Z -> Z -> bool) (coordinators : list Z).
Context (value_size : Z -> nat) (serialize_value : Z -> bytes -> bytes) (deserialize_value : Z -> bytes -> bytes -> bytes).
Context (key_at : Z -> Z) (read_on_replica has_logger : bool).

Definition has_master_partition (partition_id : Z) : bool := master_coordinator partition_id =? me.
Definition local_here (partition_id : Z) : bool := has_master_partition partition_id || (replicated_on partition_id me && read_on_replica).
Definition owner_of (e : tkey) : Z := master_coordinator (get_partition_id e).

Definition row_of (e : tkey) : T row_id := p ← access (fun _ => get_key e); mret (get_table_id e, get_partition_id e, key_at p).
Definition buffer_of (e : tkey) : T bytes := p ← access (fun _ => get_value e); access (fun t => mem t !! p).
Definition fill_buffer (e : tkey) (b : bytes) : T unit := p ← access (fun _ => get_value e); assign (on_mem (insert p b)).
Definition bit (n : Z) : bool := negb (n =? 0).

(** ** The owners at work: TwoPLMessage.h *)

Definition blank (k : row_id) : bytes := replicate (value_size k.1.1) Byte.x00.

(** Locks the row; when that succeeds it is read in a second operation. *)
Definition read_lock_request_handler (k : row_id) (i : nat) : M store work :=
  '(latest_tid, success) ← checked_row k TwoPLHelper.read_lock;
  mret (if success : bool then Locked k false latest_tid i else Answered (ReadLockResponse false i [] 0)).
Definition write_lock_request_handler (k : row_id) (i : nat) : M store work :=
  '(latest_tid, success) ← checked_row k TwoPLHelper.write_lock;
  mret (if success : bool then Locked k true latest_tid i else Answered (WriteLockResponse false i [] 0)).
Definition read_locked_row (k : row_id) (write_lock : bool) (latest_tid : Z) (i : nat) : M store work :=
  '(_, b) ← at_row k (TwoPLHelper.read (blank k) (value_size k.1.1));
  mret (Answered (if write_lock then WriteLockResponse true i b latest_tid else ReadLockResponse true i b latest_tid)).

Definition abort_request_handler (k : row_id) (write_lock : bool) : M store unit :=
  checked_row k (if write_lock then TwoPLHelper.write_lock_release else TwoPLHelper.read_lock_release).

Definition deserialize_row (k : row_id) (value : bytes) : M store unit :=
  checked_row k (modify (fun r => TwoPLHelper.MkRow (TwoPLHelper.lmeta r) (deserialize_value k.1.1 (TwoPLHelper.data r) value))).

Definition write_request_handler (k : row_id) (value : bytes) (commit_tid : Z) (persist : bool) : M store work :=
  deserialize_row k value;; mret (if persist then Written commit_tid else Answered WriteResponse).

Definition prepare_and_redo_request_handler (redo : list (row_id * bytes)) : M store work :=
  write_log tid (LogPrepare redo true);; mret (Answered (PrepareRedoResponse true)).

Definition replication_request_handler (k : row_id) (value : bytes) (commit_tid : Z) : M store work :=
  checked_row k TwoPLHelper.write_lock_blocking;; mret (ReplicaLocked k value commit_tid).

Definition release_read_lock_request_handler (k : row_id) : M store work :=
  checked_row k TwoPLHelper.read_lock_release;; mret (Answered ReleaseReadLockResponse).
Definition release_write_lock_request_handler (k : row_id) (commit_tid : Z) : M store work :=
  checked_row k (TwoPLHelper.write_lock_release_new commit_tid);; mret (Answered ReleaseWriteLockResponse).

(** One operation of an owner; [None] when it is done and does not answer. *)
Definition owner_step (w : work) : M store (option work) :=
  match w with
  | Received (ReadLockRequest k i) => w ← read_lock_request_handler k i; mret (Some w)
  | Received (WriteLockRequest k i) => w ← write_lock_request_handler k i; mret (Some w)
  | Locked k write_lock latest_tid i => w ← read_locked_row k write_lock latest_tid i; mret (Some w)
  | Received (AbortRequest k write_lock) => abort_request_handler k write_lock;; mret None
  | Received PrepareRequest => mret (Some (Answered PrepareResponse))
  | Received (PrepareRedoRequest redo) => w ← prepare_and_redo_request_handler redo; mret (Some w)
  | Received (WriteRequest k value commit_tid persist) => w ← write_request_handler k value commit_tid persist; mret (Some w)
  | Written commit_tid => write_log tid (LogOwnerCommit commit_tid);; mret (Some (Answered WriteResponse))
  | Received (ReplicationRequest k value commit_tid _) => w ← replication_request_handler k value commit_tid; mret (Some w)
  | ReplicaLocked k value commit_tid => deserialize_row k value;; mret (Some (ReplicaWritten k commit_tid))
  | ReplicaWritten k commit_tid => at_row k (TwoPLHelper.write_lock_release_new commit_tid);; mret (Some (Answered ReplicationResponse))
  | Received (ReleaseReadLockRequest k) => w ← release_read_lock_request_handler k; mret (Some w)
  | Received (ReleaseWriteLockRequest k commit_tid) => w ← release_write_lock_request_handler k commit_tid; mret (Some w)
  | Answered r => mret (Some w)
  end.

(** *** The answers *)

Definition lock_response_handler (success : bool) (i : nat) (value : bytes) (latest_tid : Z) (set_lock_bit : tkey -> tkey) : T unit :=
  (if success then
    e ← access (fun t => readSet t !! i);
    dest ← buffer_of e;
    fill_buffer e (memcpy dest value (value_size (get_table_id e)));;
    assign (on_read i (fun e => TwoPLRWKey.set_tid latest_tid (set_lock_bit e)))
  else assign set_abort_lock);;
  assign (on_pending (fun n => n - 1)).
Definition read_lock_response_handler (success : bool) (i : nat) (value : bytes) (latest_tid : Z) : T unit := lock_response_handler success i value latest_tid set_read_lock_bit.
Definition write_lock_response_handler (success : bool) (i : nat) (value : bytes) (latest_tid : Z) : T unit := lock_response_handler success i value latest_tid set_write_lock_bit.
Definition prepare_response_handler : T unit := assign (on_pending (fun n => n - 1)).
Definition prepare_and_redo_response_handler (success : bool) : T unit := assign (on_pending (fun n => n - 1)).
Definition write_response_handler : T unit := assign (on_pending (fun n => n - 1)).
Definition replication_response_handler : T unit := assign (on_pending (fun n => n - 1)).
(** The answers to releases are not waited for. *)
Definition release_read_lock_response_handler : T unit := mret tt.
Definition release_write_lock_response_handler : T unit := mret tt.

Definition handle_response (r : response) : T unit :=
  match r with
  | ReadLockResponse success i value latest_tid => read_lock_response_handler success i value latest_tid
  | WriteLockResponse success i value latest_tid => write_lock_response_handler success i value latest_tid
  | PrepareResponse => prepare_response_handler
  | PrepareRedoResponse success => prepare_and_redo_response_handler success
  | WriteResponse => write_response_handler
  | ReplicationResponse => replication_response_handler
  | ReleaseReadLockResponse => release_read_lock_response_handler
  | ReleaseWriteLockResponse => release_write_lock_response_handler
  end.

(** The steps that a piece of work needs at most. *)
Definition cost (w : work) : nat :=
  match w with
  | Received (ReplicationRequest _ _ _ _) => 4
  | Received _ => 3
  | ReplicaLocked _ _ _ => 3
  | Locked _ _ _ _ | Written _ | ReplicaWritten _ _ => 2
  | Answered _ => 1
  end.

(** Requests in the hands of their owners and answers on their way: one is picked,
    and does its next step. *)
Fixpoint network (fuel : nat) (ws : list work) : T unit :=
  match fuel, ws with
  | S fuel, _ :: _ =>
      i ← pick (length ws);
      match ws !! i with
      | Some (Answered r) => handle_response r;; network fuel (delete i ws)
      | Some w =>
          o ← atomic (owner_step w);
          network fuel (match o with Some w' => <[i := w']> ws | None => delete i ws end)
      | None => mret tt
      end
  | _, _ => mret tt
  end.

(** [sync_messages]: the outbox is flushed; a thread that waits goes on when no
    answer is pending. *)
Definition sync_messages (wait_response : bool) : T unit :=
  ms ← local outbox;
  assign (on_outbox (fun _ => []));;
  let ws := Received <$> ms in
  network (sum_list_with cost ws) ws;;
  when wait_response (
    n ← local pendingResponses;
    when (0 <? n) (atomic spin)).

(** ** The request handlers: TwoPLExecutor.h *)

(** [TwoPL::search], for indexes that are only read. *)
Definition search (k : row_id) (dest : bytes) : M store (Z * bytes) := at_row k (TwoPLHelper.read dest (value_size k.1.1)).

Definition take_lock_and_read (k : row_id) (write_lock : bool) (dest : bytes) : M store (Z * bool * bytes) :=
  checked_row k (if write_lock then TwoPLHelper.take_write_lock_and_read dest (value_size k.1.1) else TwoPLHelper.take_read_lock_and_read dest (value_size k.1.1)).

(** The transaction id, the cached row, and whether it succeeded and is remote. *)
Definition lock_request_handler (i : nat) (e : tkey) : T (Z * option row_id * bool * bool) :=
  k ← row_of e;
  let write_lock := bit (get_write_lock_request_bit e) in
  if bit (get_local_index_read_bit e) then
    dest ← buffer_of e;
    '(id, b) ← atomic (search k dest);
    fill_buffer e b;;
    mret (id, None, true, false)
  else if has_master_partition (get_partition_id e) then
    dest ← buffer_of e;
    '(id, success, b) ← atomic (take_lock_and_read k write_lock dest);
    fill_buffer e b;;
    mret (if success : bool then id else 0, Some k, success, false)
  else
    assign (ask (if write_lock then WriteLockRequest k i else ReadLockRequest k i));;
    assign set_distributed;;
    mret (0, None, false, true).

(** The processor of a scan, for the keys from [min] on, the last one flagged; it
    locks the rows of the range and the one that follows. *)
Definition scan_lock (ty : scan_type) (k : row_id) : M store bool :=
  '(_, success) ← at_row k (match ty with SCAN_FOR_READ => TwoPLHelper.read_lock | _ => TwoPLHelper.write_lock end);
  mret success.

Fixpoint scan_rows (ty : scan_type) (table : Z * Z) (max limit : Z) (ks : list Z) (results : list row_id) : M store (bool * list row_id * option row_id) :=
  match ks with
  | [] => mret (true, results, None)
  | key :: ks =>
      let k : row_id := (table, key) in
      let locking_next_tuple := match ks with [] => true | _ => false end || (negb (limit =? 0) && (Z.of_nat (length results) =? limit)) || (max <? key) in
      if (match last results with Some q => key <=? q.2 | None => false end) then scan_rows ty table max limit ks results
      else
        success ← scan_lock ty k;
        if negb success then mret (false, results, None)
        else if locking_next_tuple then mret (true, results, Some k)
        else scan_rows ty table max limit ks (results ++ [k])
  end.

Definition scanRequestHandler (e : tkey) : T (bool * option row_id) :=
  mn ← access (fun _ => get_scan_min_key e);
  mx ← access (fun _ => get_scan_max_key e);
  v ← access (fun _ => get_scan_res_vec e);
  old ← access (fun t => vec t !! v : option (list row_id));
  must (local_here (get_partition_id e));;
  '(success, results, next) ← atomic (
    ks ← gets (keys_from (get_table_id e) (get_partition_id e) (key_at mn));
    scan_rows (get_request_type e) (get_table_id e, get_partition_id e) (key_at mx) (get_scan_limit e) ks old);
  assign (on_vec (insert v results));;
  mret (success, next).

Definition insertRequestHandler (e : tkey) : T (bool * option row_id) :=
  k ← row_of e;
  must (local_here (get_partition_id e));;
  v ← buffer_of e;
  '(success, next) ← (if get_require_lock_next_row e
    then atomic (table_insert_lock_next_key k v (scan_lock SCAN_FOR_INSERT) true)
    else ok ← atomic (table_insert k v true); mret (ok, None));
  when (negb success) (assign set_abort_insert);;
  mret (success, next).

Definition deleteRequestHandler (e : tkey) : T bool := must (local_here (get_partition_id e));; mret true.

(** ** [process_requests] of TwoPLTransaction.h *)

Definition process_read (i : nat) (e : tkey) : T bool :=
  '(id, cached_row, success, remote) ← lock_request_handler i e;
  if remote : bool then assign (on_read i set_processed);; mret true
  else
    assign (on_read i (set_cached_local_row cached_row));;
    if success : bool then
      assign (on_read i (TwoPLRWKey.set_tid id));;
      when (bit (get_read_lock_request_bit e) && negb (bit (get_local_index_read_bit e))) (assign (on_read i set_read_lock_bit));;
      when (bit (get_write_lock_request_bit e)) (assign (on_read i set_write_lock_bit));;
      assign (on_read i set_processed);;
      mret true
    else assign set_abort_lock;; mret false.

Definition process_scan (i : nat) (e : tkey) : T bool :=
  '(success, next) ← scanRequestHandler e;
  if success : bool then
    assign (on_scan i (fun e => set_processed (set_next_row_locked (set_next_row_entity next e))));; mret true
  else assign set_abort_lock;; mret false.

Definition process_insert (i : nat) (e : tkey) : T bool :=
  '(success, next) ← insertRequestHandler e;
  if success : bool then
    when (get_require_lock_next_row e) (assign (on_insert i (fun e => set_next_row_locked (set_next_row_entity next e))));;
    assign (on_insert i set_processed);; mret true
  else assign set_abort_insert;; mret false.

Definition process_delete (i : nat) (e : tkey) : T bool :=
  success ← deleteRequestHandler e;
  if success : bool then assign (on_delete i set_processed);; mret true
  else assign set_abort_delete;; mret false.

(** The loops over the four sets, the youngest entry first; they return true when
    they stop the execution. *)
Fixpoint process_set (set : ttxn -> list tkey) (process : nat -> tkey -> T bool) (n : nat) : T bool :=
  match n with
  | O => mret false
  | S i =>
      e ← access (fun t => set t !! i);
      if get_processed e then mret false
      else
        go_on ← process i e;
        if go_on : bool then process_set set process i else mret true
  end.

Definition process_requests : T bool :=
  n ← local (fun t => length (readSet t));
  stop ← process_set readSet process_read n;
  n ← local (fun t => length (scanSet t));
  stop ← (if stop : bool then mret true else process_set scanSet process_scan n);
  n ← local (fun t => length (insertSet t));
  stop ← (if stop : bool then mret true else process_set insertSet process_insert n);
  n ← local (fun t => length (deleteSet t));
  stop ← (if stop : bool then mret true else process_set deleteSet process_delete n);
  n ← local pendingResponses;
  when (0 <? n) (sync_messages true);;
  ab ← local TwoPLTransaction.should_abort;
  mret (stop || ab).

(** ** TwoPL.h *)

(** One more than the ids of the reads and the last id of the worker. *)
Definition generate_tid : T Z :=
  next ← local (fun t => wrap 64 (Z.max (foldl (fun n e => Z.max n (get_tid e)) 0 (readSet t)) (max_tid t) + 1));
  assign (set_max_tid next);;
  mret next.

(** Operations through the pointers in an entry. *)
Definition cached_row (e : tkey) : T row_id :=
  must (bool_decide (is_Some (get_cached_local_row e)));; access (fun _ => get_cached_local_row e).
Definition next_row (e : tkey) : T row_id :=
  must (bool_decide (is_Some (get_next_row_entity e)));; access (fun _ => get_next_row_entity e).
Definition results_of (e : tkey) : T (list row_id) := v ← access (fun _ => get_scan_res_vec e); access (fun t => vec t !! v).

(** *** [abort] *)

Definition rollback_insert (e : tkey) : T unit :=
  if negb (get_processed e) then mret tt
  else
    must (has_master_partition (get_partition_id e));;
    k ← row_of e;
    success ← atomic (table_remove k);
    must success;;
    when (get_next_row_locked e) (n ← next_row e; atomic (at_row n TwoPLHelper.write_lock_release)).

(** Gives a lock back, through the cached row or with a message. *)
Definition release_entry (e : tkey) (here : M TwoPLHelper.row unit) (message : row_id -> request) : T unit :=
  if has_master_partition (get_partition_id e) then k ← cached_row e; atomic (at_row k here)
  else k ← row_of e; assign (send (message k)).

Definition abort_read (e : tkey) : T unit :=
  when (bit (get_read_lock_bit e)) (release_entry e TwoPLHelper.read_lock_release (fun k => AbortRequest k false));;
  when (bit (get_write_lock_bit e)) (release_entry e TwoPLHelper.write_lock_release (fun k => AbortRequest k true)).

Definition scan_release (ty : scan_type) : M TwoPLHelper.row unit :=
  match ty with SCAN_FOR_READ => TwoPLHelper.read_lock_release | _ => TwoPLHelper.write_lock_release end.
Definition release_results (e : tkey) : T unit :=
  must (has_master_partition (get_partition_id e));;
  rs ← results_of e;
  for_all (fun k => atomic (at_row k (scan_release (get_request_type e)))) rs.

Definition abort_scan (e : tkey) : T unit :=
  when (get_next_row_locked e) (n ← next_row e; atomic (at_row n (scan_release (get_request_type e))));;
  release_results e.

Definition abort : T unit :=
  ins ← local insertSet;
  for_all rollback_insert ins;;
  rs ← local readSet;
  for_all abort_read rs;;
  scs ← local scanSet;
  for_all abort_scan scs;;
  sync_messages false.

(** *** Preparing *)

Definition redo (ty : log_type) (e : tkey) : T unit :=
  k ← row_of e;
  v ← (match ty with LogDelete => mret [] | _ => buffer_of e end);
  atomic (write_log tid (LogRedo ty k v)).

Fixpoint redo_items (l : list tkey) : T (list (row_id * bytes)) :=
  match l with
  | [] => mret []
  | e :: l => k ← row_of e; v ← buffer_of e; rest ← redo_items l; mret ((k, v) :: rest)
  end.

(** The writes of the rows of one coordinator. *)
Definition redo_at (host : Z) : T unit :=
  ws ← local (fun t => filter (fun e => owner_of e = host) (writeSet t));
  match ws with
  | [] => mret tt
  | _ =>
      if host =? me then for_all (redo LogWrite) ws
      else items ← redo_items ws; assign (ask (PrepareRedoRequest items))
  end.

Definition prepare_and_redo_for_commit : T unit :=
  single ← local single_partition;
  (if single : bool then ws ← local writeSet; for_all (redo LogWrite) ws
   else for_all redo_at coordinators;; sync_messages true);;
  ins ← local insertSet;
  for_all (redo LogInsert) ins;;
  del ← local deleteSet;
  for_all (redo LogDelete) del.

(** Without a log the owners of remote rows only answer. *)
Definition remote_partitions (t : ttxn) : list Z :=
  elements (list_to_set (C := gset Z) (filter (fun p => has_master_partition p = false) (get_partition_id <$> writeSet t ++ readSet t))).
Definition prepare_for_commit : T unit :=
  ps ← local remote_partitions;
  for_all (fun _ => assign (ask PrepareRequest)) ps;;
  sync_messages true.

(** *** [write_and_replicate] *)

(** The last write for its coordinator carries the commit record. *)
Definition persist_commit_record (e : tkey) (later : list tkey) : bool :=
  has_logger && negb (has_master_partition (get_partition_id e)) && negb (existsb (fun e' => owner_of e' =? owner_of e) later).
Definition persist_replication (e : tkey) (later : list tkey) (host : Z) : bool :=
  has_logger && negb (has_master_partition (get_partition_id e)) &&
  negb (existsb (fun e' => negb (has_master_partition (get_partition_id e')) && replicated_on (get_partition_id e') host && negb (owner_of e' =? host)) later).

Definition replicate_to (commit_tid : Z) (e : tkey) (later : list tkey) (host : Z) : T unit :=
  if negb (replicated_on (get_partition_id e) host) || (host =? owner_of e) then mret tt
  else
    k ← row_of e;
    v ← buffer_of e;
    if host =? me then atomic (table_update k v)
    else assign (ask (ReplicationRequest k (serialize_value (get_table_id e) v) commit_tid (persist_replication e later host))).

Definition write_entry (commit_tid : Z) (e : tkey) (later : list tkey) : T unit :=
  k ← row_of e;
  v ← buffer_of e;
  if has_master_partition (get_partition_id e) then atomic (table_update k v)
  else assign (ask (WriteRequest k (serialize_value (get_table_id e) v) commit_tid (persist_commit_record e later))).

Fixpoint write_entries (commit_tid : Z) (l : list tkey) : T unit :=
  match l with
  | [] => mret tt
  | e :: l => write_entry commit_tid e l;; for_all (replicate_to commit_tid e l) coordinators;; write_entries commit_tid l
  end.

(** The rows of a scan for update are written with what they hold already. *)
Definition write_scan (e : tkey) : T unit :=
  match get_request_type e with
  | SCAN_FOR_UPDATE =>
      must (has_master_partition (get_partition_id e));;
      rs ← results_of e;
      for_all (fun k => atomic (at_row k (d ← gets TwoPLHelper.data; TwoPLHelper.update d (value_size k.1.1)))) rs
  | _ => mret tt
  end.

Definition write_and_replicate (commit_tid : Z) : T unit :=
  ws ← local writeSet;
  write_entries commit_tid ws;;
  scs ← local scanSet;
  for_all write_scan scs;;
  sync_messages true.

(** *** [release_lock] *)

Definition release_read (commit_tid : Z) (e : tkey) : T unit :=
  when (bit (get_read_lock_bit e)) (release_entry e TwoPLHelper.read_lock_release ReleaseReadLockRequest);;
  when (bit (get_write_lock_bit e)) (release_entry e (TwoPLHelper.write_lock_release_new commit_tid) (fun k => ReleaseWriteLockRequest k commit_tid)).

Definition release_insert (commit_tid : Z) (e : tkey) : T unit :=
  when (get_next_row_locked e) (
    must (has_master_partition (get_partition_id e));;
    n ← next_row e;
    atomic (at_row n (TwoPLHelper.write_lock_release_new commit_tid))).

Definition release_scan (e : tkey) : T unit :=
  must (get_next_row_locked e);;
  n ← next_row e;
  atomic (at_row n (scan_release (get_request_type e)));;
  match get_request_type e with SCAN_FOR_DELETE => mret tt | _ => release_results e end.

Definition release_lock (commit_tid : Z) : T unit :=
  rs ← local readSet;
  for_all (release_read commit_tid) rs;;
  ins ← local insertSet;
  for_all (release_insert commit_tid) ins;;
  scs ← local scanSet;
  for_all release_scan scs;;
  sync_messages false.

(** *** [commit] *)

Definition commit_insert (e : tkey) : T unit :=
  must (get_processed e);;
  must (has_master_partition (get_partition_id e));;
  k ← row_of e;
  atomic (checked_row k TwoPLHelper.mark_tuple_as_valid).

Definition commit_delete (e : tkey) : T unit :=
  must (get_processed e);;
  match get_request_type e with
  | SCAN_FOR_DELETE =>
      rs ← results_of e;
      must (match rs with [] => false | _ => true end);;
      must (has_master_partition (get_partition_id e));;
      for_all (fun k => success ← atomic (table_remove k); must success) rs
  | _ => mret tt
  end.

(** A transaction that only reads has no commit record. *)
Definition writes_something (t : ttxn) : bool := match writeSet t, insertSet t, deleteSet t with [], [], [] => false | _, _, _ => true end.

Definition commit : T bool :=
  already ← local abort_lock;
  if already : bool then abort;; mret false
  else
    (if has_logger then prepare_and_redo_for_commit else prepare_for_commit);;
    commit_tid ← generate_tid;
    some ← local writes_something;
    when (some && has_logger) (atomic (write_log tid (LogCommit commit_tid)));;
    ins ← local insertSet;
    for_all commit_insert ins;;
    scs ← local scanSet;
    for_all commit_delete scs;;
    write_and_replicate commit_tid;;
    release_lock commit_tid;;
    mret true.

(** ** A transaction from its requests to its end, as core/Executor.h runs it:
    [compute] is what the workload does to its buffers in between. *)
Definition transaction (compute : gmap Z bytes -> gmap Z bytes) : T bool :=
  stop ← process_requests;
  if stop : bool then abort;; mret false
  else assign (on_mem compute);; commit.
End twopl.
End TwoPL.
