(* ===== verification/TwoPLSpec.v ===== *)
(** * Two-phase locking: the log is a serial order

    What is known of the rows and of the log while transactions of [TwoPL] are
    interleaved.  Who holds the lock of a row is not in its lock word, which has a
    count; [holders] finds it in the history.  [replay] is the database that the log
    describes: the writes of each transaction, all at once, at its commit record.
    A row that nobody has locked for writing is as [replay] has it ([inv]), and what
    a transaction knows of the rows it has locked ([knows]) survives the steps of
    all others. *)

From S2P Require Import Prelude LockWord RWLock TwoPLHelper Interleave SundialRow TwoPL.

#[local] Existing Instance twopl_layout.

(** ** The log *)

Abbreviation log := (list (Z * log_entry)).

Definition redo_of (e : log_entry) : list (row_id * bytes) :=
  match e with LogRedo LogWrite k v => [(k, v)] | LogPrepare redo _ => redo | _ => [] end.

(** The writes that a transaction has logged. *)
Fixpoint writes_of (tid : Z) (lg : log) : list (row_id * bytes) :=
  match lg with
  | [] => []
  | (tid', e) :: lg => if tid' =? tid then redo_of e ++ writes_of tid lg else writes_of tid lg
  end.

Definition is_commit (e : log_entry) : bool := match e with LogCommit _ => true | _ => false end.
(** The number of its commit records. *)
Fixpoint commits (tid : Z) (lg : log) : nat :=
  match lg with [] => 0 | (tid', e) :: lg => if (tid' =? tid) && is_commit e then S (commits tid lg) else commits tid lg end.

Definition as_map (ws : list (row_id * bytes)) : gmap row_id bytes := list_to_map ws.

Section replay.
Context (init : gmap row_id bytes).

Fixpoint replay (lg : log) : gmap row_id bytes :=
  match lg with
  | [] => init
  | (tid, LogCommit _) :: lg => as_map (writes_of tid lg) ∪ replay lg
  | _ :: lg => replay lg
  end.

Lemma replay_other tid e lg : is_commit e = false -> replay ((tid, e) :: lg) = replay lg.
Proof. now destruct e. Qed.
End replay.

Lemma writes_of_other tid tid' e lg : tid' <> tid -> writes_of tid ((tid', e) :: lg) = writes_of tid lg.
Proof. intros Hne. cbn. destruct (Z.eqb_spec tid' tid); [easy|reflexivity]. Qed.
Lemma writes_of_own tid e lg : writes_of tid ((tid, e) :: lg) = redo_of e ++ writes_of tid lg.
Proof. cbn. now rewrite Z.eqb_refl. Qed.
Lemma commits_other tid tid' e lg : tid' <> tid -> commits tid ((tid', e) :: lg) = commits tid lg.
Proof. intros Hne. cbn. destruct (Z.eqb_spec tid' tid); [easy|reflexivity]. Qed.
Lemma commits_own tid e lg : commits tid ((tid, e) :: lg) = if is_commit e then S (commits tid lg) else commits tid lg.
Proof. cbn. now rewrite Z.eqb_refl. Qed.

(** ** The holders of the locks *)

Definition lock_at (s : store) (k : row_id) : rwlock := from_option TwoPLHelper.lock_of (RW 0 false 0) (s_rows s !! k).
Definition data_at (s : store) (k : row_id) : option bytes := TwoPLHelper.data <$> s_rows s !! k.

(** What a step of [tid] from one lock state to another does to the holders. *)
Definition hold_step (tid : Z) (a b : rwlock) (m : gmap Z mode) : gmap Z mode :=
  if readers a <? readers b then <[tid := Rd]> m
  else if readers b <? readers a then delete tid m
  else if negb (writer a) && writer b then <[tid := Wr]> m
  else if writer a && negb (writer b) then delete tid m
  else m.
Fixpoint holders (h : list (Z * store)) (s : store) (k : row_id) : gmap Z mode :=
  match h with
  | [] => ∅
  | (tid, s0) :: h => hold_step tid (lock_at s0 k) (lock_at s k) (holders h s0 k)
  end.

Lemma hold_step_other tid tid' a b m : tid' <> tid -> hold_step tid a b m !! tid' = m !! tid'.
Proof. intros Hne. unfold hold_step. repeat case_match; rewrite ?lookup_insert_ne, ?lookup_delete_ne by congruence; reflexivity. Qed.
Lemma hold_step_same tid a b m : readers a = readers b -> writer a = writer b -> hold_step tid a b m = m.
Proof. intros Er Ew. unfold hold_step. rewrite Er, Ew, Z.ltb_irrefl. now destruct (writer b). Qed.

(** ** The invariant *)

Section invariant.
Context (size : Z -> nat) (rows : gset row_id) (init : gmap row_id bytes).

Definition fine (k : row_id) (r : TwoPLHelper.row) : Prop :=
  TwoPLHelper.wf r /\ TwoPLHelper.is_valid (TwoPLHelper.lmeta r) = true /\ length (TwoPLHelper.data r) = size k.1.1.

Record inv (h : list (Z * store)) (s : store) : Prop := Inv {
  i_dom : dom (s_rows s) = rows;
  i_rows : forall k r, s_rows s !! k = Some r -> fine k r /\ counted_rw (readers (TwoPLHelper.lock_of r)) (writer (TwoPLHelper.lock_of r)) (holders h s k) /\
    (writer (TwoPLHelper.lock_of r) = false -> replay init (s_log s) !! k = Some (TwoPLHelper.data r))
}.

(** No version is the last one. *)
Definition bounded (s : store) : Prop := forall k r, s_rows s !! k = Some r -> seq_no (TwoPLHelper.lock_of r) < 2 ^ 54 - 1.

(** What a transaction knows: the locks it holds with the values it found, the writes
    it has logged, whether it has committed, the rows it has written since, and the log
    at the moment when it had all its locks. *)
Record know := Know { held : gmap row_id (mode * bytes); redone : list (row_id * bytes); committed : bool; written : gset row_id; snap : log }.

Definition new_value (l : know) (k : row_id) (b : bytes) : bytes := default b (as_map (redone l) !! k).

Record knows (tid : Z) (l : know) (h : list (Z * store)) (s : store) : Prop := Knows {
  k_holds : forall k, holders h s k !! tid = fst <$> held l !! k;
  k_data : forall k m b, held l !! k = Some (m, b) ->
    data_at s k = Some (if bool_decide (k ∈ written l) then new_value l k b else b) /\
    replay init (s_log s) !! k = Some (if committed l then new_value l k b else b);
  k_redo : writes_of tid (s_log s) = redone l;
  k_commit : commits tid (s_log s) = if committed l then 1%nat else 0%nat;
  k_snap : snap l `suffix_of` s_log s;
  k_last : committed l = true -> exists c, (tid, LogCommit c) :: snap l `suffix_of` s_log s /\ writes_of tid (snap l) = redone l;
  k_clean : written l = ∅ -> forall d d' k, (tid, d, d') ∈ moves h s -> data_at d' k = data_at d k
}.

Abbreviation op_ok := (step_ok bounded inv knows).

(** The writer of a row is the only one who has locked it. *)
Lemma writer_alone tid tid' l2 h s k m b : inv h s -> knows tid' l2 h s -> tid' <> tid -> holders h s k !! tid = Some Wr -> held l2 !! k = Some (m, b) -> False.
Proof.
  intros HI HK Hne Hw Hk. destruct (k_data _ _ _ _ HK k m b Hk) as [Hd _]. unfold data_at in Hd. destruct (s_rows s !! k) as [r|] eqn:Hr; [|discriminate Hd].
  destruct (i_rows _ _ HI k r Hr) as (_ & (_ & _ & He) & _). apply Hne. symmetry. apply (He tid tid' Hw). rewrite (k_holds _ _ _ _ HK k), Hk. cbn. eauto.
Qed.

Definition set_row (k : row_id) (r : TwoPLHelper.row) (s : store) : store := Store (<[k := r]> (s_rows s)) (s_log s).

Lemma lock_at_set k r s j : lock_at (set_row k r s) j = if decide (j = k) then TwoPLHelper.lock_of r else lock_at s j.
Proof. unfold lock_at, set_row. cbn. case_decide as E; [subst; now rewrite lookup_insert_eq|now rewrite lookup_insert_ne by congruence]. Qed.
Lemma data_at_set k r s j : data_at (set_row k r s) j = if decide (j = k) then Some (TwoPLHelper.data r) else data_at s j.
Proof. unfold data_at, set_row. cbn. case_decide as E; [subst; now rewrite lookup_insert_eq|now rewrite lookup_insert_ne by congruence]. Qed.

(** A step of [tid] that changes one row. *)
Lemma row_step tid l l' h s k r r' (H' := hold_step tid (TwoPLHelper.lock_of r) (TwoPLHelper.lock_of r') (holders h s k)) :
  inv h s -> knows tid l h s -> s_rows s !! k = Some r -> fine k r' ->
  counted_rw (readers (TwoPLHelper.lock_of r')) (writer (TwoPLHelper.lock_of r')) H' ->
  TwoPLHelper.data r' = TwoPLHelper.data r \/ holders h s k !! tid = Some Wr ->
  (writer (TwoPLHelper.lock_of r') = false -> replay init (s_log s) !! k = Some (TwoPLHelper.data r')) ->
  (forall j, j <> k -> held l' !! j = held l !! j) -> H' !! tid = fst <$> held l' !! k ->
  (forall m b, held l' !! k = Some (m, b) -> TwoPLHelper.data r' = (if bool_decide (k ∈ written l') then new_value l' k b else b) /\ replay init (s_log s) !! k = Some (if committed l' then new_value l' k b else b)) ->
  redone l' = redone l -> committed l' = committed l -> snap l' `suffix_of` s_log s -> (committed l = true -> snap l' = snap l) -> (forall j, j <> k -> j ∈ written l' <-> j ∈ written l) ->
  (written l' = ∅ -> written l = ∅ /\ TwoPLHelper.data r' = TwoPLHelper.data r) ->
  inv ((tid, s) :: h) (set_row k r' s) /\ knows tid l' ((tid, s) :: h) (set_row k r' s) /\
  (forall tid' l2, tid' <> tid -> knows tid' l2 h s -> knows tid' l2 ((tid, s) :: h) (set_row k r' s)).
Proof.
  intros HI HK Hr Hf Hc Hd Hrep Hheld Hown Hdat Hredo Hcom Hsnap Hlast Hwr Hclean.
  assert (forall j, holders ((tid, s) :: h) (set_row k r' s) j = if decide (j = k) then H' else holders h s j) as Hho.
  { intros j. cbn [holders]. rewrite lock_at_set. destruct (decide (j = k)) as [E|E]; [subst j; unfold lock_at; now rewrite Hr|]. now apply hold_step_same. }
  assert (TwoPLHelper.data <$> s_rows s !! k = Some (TwoPLHelper.data r)) as Hdr by now rewrite Hr.
  split; [|split].
  - split; cbn.
    + rewrite dom_insert_L. apply elem_of_dom_2 in Hr. rewrite (i_dom _ _ HI) in *. set_solver.
    + intros j rj Hj. change (hold_step _ _ _ _) with (holders ((tid, s) :: h) (set_row k r' s) j). rewrite Hho. destruct (decide (j = k)) as [E|E].
      * subst j. rewrite lookup_insert_eq in Hj. injection Hj as <-. easy.
      * rewrite lookup_insert_ne in Hj by congruence. now apply (i_rows _ _ HI).
  - split.
    + intros j. rewrite Hho. destruct (decide (j = k)) as [E|E]; [now subst j|]. rewrite Hheld by exact E. apply (k_holds _ _ _ _ HK).
    + intros j m b Hj. rewrite data_at_set. destruct (decide (j = k)) as [E|E].
      * subst j. destruct (Hdat m b Hj) as [Hx1 Hx2]. split; [now rewrite Hx1|exact Hx2].
      * rewrite Hheld in Hj by exact E. destruct (k_data _ _ _ _ HK j m b Hj) as [Hx1 Hx2]. unfold new_value in *. rewrite Hredo, Hcom, Hx1. split; [|exact Hx2].
        now rewrite (bool_decide_ext _ _ (Hwr j E)).
    + cbn. rewrite Hredo. apply (k_redo _ _ _ _ HK).
    + cbn. rewrite Hcom. apply (k_commit _ _ _ _ HK).
    + exact Hsnap.
    + rewrite Hcom, Hredo. intros Hx. rewrite (Hlast Hx). now apply (k_last _ _ _ _ HK).
    + intros Hw d d' j [[= -> ->]|Hm]%elem_of_cons.
      * rewrite data_at_set. destruct (decide (j = k)) as [E|E]; [|reflexivity]. subst j. unfold data_at. rewrite Hdr. destruct (Hclean Hw) as [_ ->]. reflexivity.
      * apply (k_clean _ _ _ _ HK); [now apply Hclean|exact Hm].
  - intros tid' l2 Hne HK2. split.
    + intros j. rewrite Hho. destruct (decide (j = k)) as [E|E]; [subst j; unfold H'; rewrite hold_step_other by exact Hne|]; apply (k_holds _ _ _ _ HK2).
    + intros j m b Hj. rewrite data_at_set. destruct (k_data _ _ _ _ HK2 j m b Hj) as [Hx1 Hx2]. destruct (decide (j = k)) as [E|E]; [|easy]. subst j.
      destruct Hd as [Hd|Hd]; [|now destruct (writer_alone tid tid' l2 h s k m b HI HK2 Hne Hd Hj)]. rewrite Hd, <- Hdr. easy.
    + apply (k_redo _ _ _ _ HK2).
    + apply (k_commit _ _ _ _ HK2).
    + apply (k_snap _ _ _ _ HK2).
    + apply (k_last _ _ _ _ HK2).
    + intros Hw d d' j [E|Hm]%elem_of_cons; [congruence|]. now apply (k_clean _ _ _ _ HK2).
Qed.

(** A step of [tid] that writes to the log; at its commit it holds what it has logged. *)
Lemma log_step tid l h s e : inv h s -> knows tid l h s ->
  (is_commit e = true -> redo_of e = [] /\ forall k v, (k, v) ∈ redone l -> exists b, held l !! k = Some (Wr, b)) ->
  let s' := Store (s_rows s) ((tid, e) :: s_log s) in
  let l' := Know (held l) (redo_of e ++ redone l) (is_commit e || committed l) (written l) (if is_commit e then s_log s else snap l) in
  committed l = false /\ written l = ∅ \/ is_commit e = false /\ redo_of e = [] ->
  inv ((tid, s) :: h) s' /\ knows tid l' ((tid, s) :: h) s' /\ (forall tid' l2, tid' <> tid -> knows tid' l2 h s -> knows tid' l2 ((tid, s) :: h) s').
Proof.
  intros HI HK Hcom s' l' Hcase.
  assert (forall j, holders ((tid, s) :: h) s' j = holders h s j) as Hho by (intros j; cbn [holders]; now apply hold_step_same).
  assert (forall j, (if is_commit e then as_map (redone l) !! j = None else True) -> replay init (s_log s') !! j = replay init (s_log s) !! j) as Hrep.
  { intros j Hj. destruct (is_commit e) eqn:Ec; [|unfold s'; cbn [s_log]; now rewrite replay_other by exact Ec]. destruct e; try discriminate Ec. cbn. rewrite lookup_union, (k_redo _ _ _ _ HK), Hj. now destruct (replay init (s_log s) !! j). }
  assert (forall j, is_commit e = true -> (forall b, held l !! j <> Some (Wr, b)) -> as_map (redone l) !! j = None) as Hnone.
  { intros j Ec Hj. apply not_elem_of_list_to_map_1. intros ((k & v) & -> & Hin)%list_elem_of_fmap. destruct (Hcom Ec) as [_ Hh]. destruct (Hh k v Hin) as [b Hb]. now apply (Hj b). }
  assert (forall j, (forall b, held l !! j <> Some (Wr, b)) -> replay init (s_log s') !! j = replay init (s_log s) !! j) as Hsame.
  { intros j Hj. apply Hrep. destruct (is_commit e) eqn:Ec; [now apply Hnone|exact I]. }
  split; [|split].
  - split; cbn; [apply (i_dom _ _ HI)|]. intros j rj Hj. change (hold_step _ _ _ _) with (holders ((tid, s) :: h) s' j). rewrite Hho. destruct (i_rows _ _ HI j rj Hj) as (H1 & H2 & H3).
    split; [exact H1|]. split; [exact H2|]. intros Hw. change (writer (TwoPLHelper.lock_of rj) = false) in Hw. rewrite <- (H3 Hw). apply Hsame. intros b Hb. pose proof (k_holds _ _ _ _ HK j) as Hh. rewrite Hb in Hh. cbn in Hh.
    pose proof (counted_held_write _ _ _ _ H2 Hh). congruence.
  - split.
    + intros j. rewrite Hho. apply (k_holds _ _ _ _ HK).
    + intros j m b Hj. destruct (k_data _ _ _ _ HK j m b Hj) as [H1 H2]. unfold new_value in *. cbn [redone committed written held l'] in *.
      destruct Hcase as [[Hnot Hun]|[Ec Er]]; [|rewrite (Hrep j ltac:(now rewrite Ec)), Ec, Er; easy].
      rewrite Hun in *. rewrite bool_decide_eq_false_2 in H1 |- * by set_solver. split; [exact H1|]. rewrite Hnot in *. rewrite orb_false_r. destruct (is_commit e) eqn:Ec; [|now rewrite (Hrep j I)].
      destruct (Hcom eq_refl) as [-> _]. cbn [app]. destruct e; try discriminate Ec. cbn. rewrite lookup_union, (k_redo _ _ _ _ HK), H2. now destruct (as_map (redone l) !! j).
    + unfold s'. cbn [s_log]. rewrite writes_of_own. now rewrite (k_redo _ _ _ _ HK).
    + unfold s'. cbn [s_log]. rewrite commits_own, (k_commit _ _ _ _ HK). cbn [committed l']. destruct (is_commit e); [|reflexivity]. destruct Hcase as [[-> _]|[Hx _]]; [reflexivity|discriminate Hx].
    + cbn. destruct (is_commit e); [apply suffix_cons_r; reflexivity|]. apply suffix_cons_r, (k_snap _ _ _ _ HK).
    + unfold s', l'. cbn [s_log committed snap redone]. destruct (is_commit e) eqn:Ec.
      * intros _. destruct (Hcom eq_refl) as [-> _]. destruct e; try discriminate Ec. eexists. split; [reflexivity|]. apply (k_redo _ _ _ _ HK).
      * cbn [orb]. intros Hx. destruct (k_last _ _ _ _ HK Hx) as (c & Hc1 & Hc2). exists c. split; [now apply suffix_cons_r|]. destruct Hcase as [[Hy _]|[_ ->]]; [congruence|exact Hc2].
    + intros Hw d d' j [[= -> ->]|Hm]%elem_of_cons; [reflexivity|]. now apply (k_clean _ _ _ _ HK).
  - intros tid' l2 Hne HK2. split.
    + intros j. rewrite Hho. apply (k_holds _ _ _ _ HK2).
    + intros j m b Hj. destruct (k_data _ _ _ _ HK2 j m b Hj) as [H1 H2]. split; [exact H1|]. rewrite Hsame; [exact H2|].
      intros b' Hb'. eapply (writer_alone tid tid' l2 h s j m b HI HK2 Hne); [|exact Hj]. rewrite (k_holds _ _ _ _ HK j), Hb'. reflexivity.
    + unfold s'. cbn [s_log]. rewrite writes_of_other by congruence. apply (k_redo _ _ _ _ HK2).
    + unfold s'. cbn [s_log]. rewrite commits_other by congruence. apply (k_commit _ _ _ _ HK2).
    + apply suffix_cons_r, (k_snap _ _ _ _ HK2).
    + intros Hx. destruct (k_last _ _ _ _ HK2 Hx) as (c & Hc1 & Hc2). exists c. split; [now apply suffix_cons_r|exact Hc2].
    + intros Hw d d' j [E|Hm]%elem_of_cons; [congruence|]. now apply (k_clean _ _ _ _ HK2).
Qed.

(** ** The operations *)

(** At its last lock, and at its commit, the transaction has read what the log says. *)
Definition snapped (l : know) : Prop := forall k m b, held l !! k = Some (m, b) -> replay init (snap l) !! k = Some b.

Definition hold (k : row_id) (m : mode) (b : bytes) (lg : log) (l : know) : know := Know (<[k := (m, b)]> (held l)) (redone l) (committed l) (written l) lg.
Definition unhold (k : row_id) (l : know) : know := Know (delete k (held l)) (redone l) (committed l) (written l) (snap l).

(** Taking a lock that is not held. *)
Section acquire.
Context (tid : Z) (l : know) (h : list (Z * store)) (s : store) (k : row_id) (r : TwoPLHelper.row) (m : mode).
Context (HI : inv h s) (HK : knows tid l h s) (Hr : s_rows s !! k = Some r) (Hk : held l !! k = None) (Hc : committed l = false) (Hw : written l = ∅).

Definition can : bool := match m with Rd => TwoPLHelper.can_read r | Wr => TwoPLHelper.can_write r end.
Definition locked_row : TwoPLHelper.row :=
  if can then TwoPLHelper.with_tid r (match m with Rd => add_reader (TwoPLHelper.tid (TwoPLHelper.lmeta r)) | Wr => add_writer (TwoPLHelper.tid (TwoPLHelper.lmeta r)) end) else r.

Lemma locked_counted : fine k locked_row /\ TwoPLHelper.data locked_row = TwoPLHelper.data r /\
  let H' := hold_step tid (TwoPLHelper.lock_of r) (TwoPLHelper.lock_of locked_row) (holders h s k) in
  counted_rw (readers (TwoPLHelper.lock_of locked_row)) (writer (TwoPLHelper.lock_of locked_row)) H' /\ H' = (if can then <[tid := m]> (holders h s k) else holders h s k) /\
  (writer (TwoPLHelper.lock_of locked_row) = false -> writer (TwoPLHelper.lock_of r) = false) /\ (can = true -> writer (TwoPLHelper.lock_of r) = false).
Proof.
  destruct (i_rows _ _ HI k r Hr) as ((Hwf & Hv & Hlen) & Hcnt & _). pose proof (k_holds _ _ _ _ HK k) as Hh. rewrite Hk in Hh. cbn in Hh.
  unfold locked_row. destruct can eqn:Ec; [|split; [easy|]; split; [easy|]; rewrite hold_step_same by easy; easy]. unfold can in Ec. destruct m.
  - destruct (TwoPLHelper.acquire_read_wf r Hwf Ec) as (Hwf' & El & Ew). rewrite El. unfold hold_step. cbn [readers writer]. destruct (Z.ltb_spec (readers (TwoPLHelper.lock_of r)) (readers (TwoPLHelper.lock_of r) + 1)); [|lia].
    split; [split; [exact Hwf'|split; [exact Hv|exact Hlen]]|]. split; [reflexivity|]. split; [|split; [reflexivity|split; intros; (exact Ew || reflexivity)]]. eapply counted_acquire_read; [exact Hcnt|exact Hh|]. cbn. auto.
  - destruct (TwoPLHelper.acquire_write_wf r Hwf Ec) as (Hwf' & El & Ew & Er). rewrite El. unfold hold_step. cbn [readers writer]. rewrite Er, Ew. cbn.
    split; [split; [exact Hwf'|split; [exact Hv|exact Hlen]]|]. split; [reflexivity|]. split; [|split; [reflexivity|split; intros; (exact Ew || reflexivity)]]. eapply counted_acquire_write; [exact Hcnt|exact Hh|]. rewrite Ew, Er. cbn. auto.
Qed.

Lemma acquire_step (l' := if can then hold k m (TwoPLHelper.data r) (s_log s) l else l) :
  inv ((tid, s) :: h) (set_row k locked_row s) /\ knows tid l' ((tid, s) :: h) (set_row k locked_row s) /\
  (forall tid' l2, tid' <> tid -> knows tid' l2 h s -> knows tid' l2 ((tid, s) :: h) (set_row k locked_row s)) /\ (can = true -> snapped l').
Proof.
  destruct locked_counted as (Hf & Hd & Hcnt & EH & Hwr & Hfree). destruct (i_rows _ _ HI k r Hr) as (_ & _ & Hrep). pose proof (k_holds _ _ _ _ HK k) as Hh. rewrite Hk in Hh. cbn in Hh.
  assert (forall j, j <> k -> held l' !! j = held l !! j) as Hother by (intros j Hj; unfold l'; destruct can; [cbn; now rewrite lookup_insert_ne|reflexivity]).
  assert (forall P Q R S : Prop, P /\ Q /\ R -> S -> P /\ Q /\ R /\ S) as Hand by tauto. apply Hand; clear Hand.
  - apply (row_step tid l l' h s k r locked_row HI HK Hr Hf Hcnt (or_introl Hd)).
    + intros Hx. rewrite Hd. apply Hrep, Hwr, Hx.
    + exact Hother.
    + rewrite EH. unfold l'. destruct can; [cbn; now rewrite !lookup_insert_eq|now rewrite Hh, Hk].
    + intros m' b Hj. unfold l' in *. destruct can; [|congruence]. cbn in Hj. rewrite lookup_insert_eq in Hj. injection Hj as <- <-. cbn [written committed hold]. rewrite Hw, Hc.
      rewrite bool_decide_eq_false_2 by set_solver. split; [exact Hd|]. apply Hrep, Hfree. reflexivity.
    + unfold l'. now destruct can.
    + unfold l'. now destruct can.
    + unfold l'. destruct can; [reflexivity|apply (k_snap _ _ _ _ HK)].
    + intros Hx. congruence.
    + unfold l'. now destruct can.
    + intros _. split; [exact Hw|exact Hd].
  - intros Ec j m' b Hj. unfold l' in *. rewrite Ec in *. cbn in Hj |- *. apply lookup_insert_Some in Hj as [[<- [= <- <-]]|[_ Hj]]; [apply Hrep, Hfree; reflexivity|].
    destruct (k_data _ _ _ _ HK j m' b Hj) as [_ Hx]. now rewrite Hc in Hx.
Qed.
End acquire.

(** Giving a lock back: the value is the one of the log by now. *)
Definition at_rest (l : know) (k : row_id) : Prop := bool_decide (k ∈ written l) = committed l \/ as_map (redone l) !! k = None.

Lemma release_step tid l h s k m b r r' : inv h s -> knows tid l h s -> held l !! k = Some (m, b) -> s_rows s !! k = Some r -> at_rest l k ->
  fine k r' -> TwoPLHelper.data r' = TwoPLHelper.data r -> writer (TwoPLHelper.lock_of r') = false ->
  readers (TwoPLHelper.lock_of r') = readers (TwoPLHelper.lock_of r) - (match m with Rd => 1 | Wr => 0 end) ->
  inv ((tid, s) :: h) (set_row k r' s) /\ knows tid (unhold k l) ((tid, s) :: h) (set_row k r' s) /\
  (forall tid' l2, tid' <> tid -> knows tid' l2 h s -> knows tid' l2 ((tid, s) :: h) (set_row k r' s)).
Proof.
  intros HI HK Hk Hr Hrest Hf Hd Hw Hn. destruct (i_rows _ _ HI k r Hr) as (_ & Hcnt & _). pose proof (k_holds _ _ _ _ HK k) as Hh. rewrite Hk in Hh. cbn in Hh.
  assert (hold_step tid (TwoPLHelper.lock_of r) (TwoPLHelper.lock_of r') (holders h s k) = delete tid (holders h s k)) as EH.
  { unfold hold_step. rewrite Hn, Hw. destruct m.
    - destruct (Z.ltb_spec (readers (TwoPLHelper.lock_of r)) (readers (TwoPLHelper.lock_of r) - 1)); [lia|]. destruct (Z.ltb_spec (readers (TwoPLHelper.lock_of r) - 1) (readers (TwoPLHelper.lock_of r))); [reflexivity|lia].
    - rewrite Z.sub_0_r, Z.ltb_irrefl, (counted_held_write _ _ _ _ Hcnt Hh). reflexivity. }
  apply (row_step tid l (unhold k l) h s k r r' HI HK Hr Hf); rewrite ?EH.
  - rewrite Hn, Hw. destruct m.
    + eapply counted_release_read; [exact Hcnt|exact Hh|reflexivity|]. symmetry. apply (counted_held_read _ _ _ _ Hcnt Hh).
    + eapply counted_release_write; [exact Hcnt|exact Hh|lia|reflexivity].
  - left. exact Hd.
  - intros _. destruct (k_data _ _ _ _ HK k m b Hk) as [Hx1 Hx2]. unfold data_at in Hx1. rewrite Hr in Hx1. cbn in Hx1. injection Hx1 as Hx1. rewrite Hx2, Hd, Hx1. f_equal.
    destruct Hrest as [<-|E]; [reflexivity|]. unfold new_value. rewrite E. cbn. now destruct (committed l), (bool_decide (k ∈ written l)).
  - intros j Hj. cbn. now rewrite lookup_delete_ne.
  - cbn. now rewrite !lookup_delete_eq.
  - cbn. intros m' b' Hx. now rewrite lookup_delete_eq in Hx.
  - reflexivity.
  - reflexivity.
  - apply (k_snap _ _ _ _ HK).
  - reflexivity.
  - reflexivity.
  - intros Hx. split; [exact Hx|exact Hd].
Qed.

(** A row that is written, after the commit record. *)
Definition write (k : row_id) (l : know) : know := Know (held l) (redone l) (committed l) ({[k]} ∪ written l) (snap l).

Lemma write_step tid l h s k b r v : inv h s -> knows tid l h s -> held l !! k = Some (Wr, b) -> s_rows s !! k = Some r -> committed l = true -> as_map (redone l) !! k = Some v -> length v = size k.1.1 ->
  let r' := TwoPLHelper.MkRow (TwoPLHelper.lmeta r) v in
  inv ((tid, s) :: h) (set_row k r' s) /\ knows tid (write k l) ((tid, s) :: h) (set_row k r' s) /\
  (forall tid' l2, tid' <> tid -> knows tid' l2 h s -> knows tid' l2 ((tid, s) :: h) (set_row k r' s)).
Proof.
  intros HI HK Hk Hr Hc Hv Hlen r'. destruct (i_rows _ _ HI k r Hr) as ((Hwf & Hval & _) & Hcnt & _). pose proof (k_holds _ _ _ _ HK k) as Hh. rewrite Hk in Hh. cbn in Hh.
  assert (TwoPLHelper.lock_of r' = TwoPLHelper.lock_of r) as El by reflexivity. destruct (k_data _ _ _ _ HK k Wr b Hk) as [_ Hx2]. rewrite Hc in Hx2. unfold new_value in Hx2. rewrite Hv in Hx2. cbn in Hx2.
  apply (row_step tid l (write k l) h s k r r' HI HK Hr); rewrite ?El, ?(hold_step_same tid _ _ (holders h s k) eq_refl eq_refl).
  - split; [exact Hwf|]. split; [exact Hval|exact Hlen].
  - exact Hcnt.
  - right. exact Hh.
  - intros _. exact Hx2.
  - reflexivity.
  - exact Hh || (rewrite Hh; cbn; now rewrite Hk).
  - intros m' b' Hj. cbn in Hj. rewrite Hk in Hj. injection Hj as <- <-. cbn [written write committed]. rewrite bool_decide_eq_true_2 by set_solver. rewrite Hc. unfold new_value. cbn [redone write]. rewrite Hv. cbn. easy.
  - reflexivity.
  - reflexivity.
  - apply (k_snap _ _ _ _ HK).
  - reflexivity.
  - intros j Hj. cbn. set_solver.
  - cbn. intros Hx. set_solver.
Qed.

(** ** The same as steps of a thread *)

Lemma at_row_run {A} k (op : M TwoPLHelper.row A) s r a r' : s_rows s !! k = Some r -> op r = Ret a r' ->
  at_row k op s = Ret a (set_row k r' s) /\ checked_row k op s = Ret a (set_row k r' s).
Proof.
  intros Hr E. assert (at_row k op s = Ret a (set_row k r' s)) as Ea by (unfold at_row; now rewrite Hr, E). split; [exact Ea|].
  unfold checked_row. mrun. rewrite Hr, bool_decide_eq_true_2 by eauto. exact Ea.
Qed.

Lemma row_there h s k : inv h s -> k ∈ rows -> exists r, s_rows s !! k = Some r.
Proof. intros HI Hk. rewrite <- (i_dom _ _ HI) in Hk. apply elem_of_dom in Hk as [r Hr]. eauto. Qed.
Lemma held_there tid l h s k x : knows tid l h s -> held l !! k = Some x -> exists r, s_rows s !! k = Some r.
Proof. intros HK Hk. destruct x as [m b]. destruct (k_data _ _ _ _ HK k m b Hk) as [Hd _]. unfold data_at in Hd. destruct (s_rows s !! k) as [r|]; [eauto|discriminate Hd]. Qed.

(** The lock was free, or [l] stays as it is. *)
Definition acquired (k : row_id) (m : mode) (l : know) (r : TwoPLHelper.row) (l' : know) : Prop :=
  fine k r /\ 0 <= seq_no (TwoPLHelper.lock_of r) < 2 ^ 54 - 1 /\
  if can r m then (exists lg, l' = hold k m (TwoPLHelper.data r) lg l) /\ snapped l' else l' = l.

Lemma acquire_ok {A} tid l k m (op : M TwoPLHelper.row A) (ans : TwoPLHelper.row -> A) :
  k ∈ rows -> held l !! k = None -> committed l = false -> written l = ∅ -> (forall r, TwoPLHelper.wf r -> op r = Ret (ans r) (locked_row r m)) ->
  op_ok tid l (checked_row k op) (fun a l' => exists r, a = ans r /\ acquired k m l r l').
Proof.
  intros Hin Hk Hc Hw Hop h s Hb HI HK. destruct (row_there h s k HI Hin) as [r Hr]. destruct (i_rows _ _ HI k r Hr) as (Hf & _). pose proof Hf as (Hwf & Hv & Hlen).
  destruct (acquire_step tid l h s k r m HI HK Hr Hk Hc Hw) as (H1 & H2 & H3 & H4). exists (ans r), (set_row k (locked_row r m) s). eexists.
  split; [now apply (at_row_run k op s r _ _ Hr), Hop|]. split; [exact H1|]. split; [exact H2|]. split; [exact H3|]. exists r. split; [reflexivity|]. split; [exact Hf|]. split.
  - split; [|exact (Hb k r Hr)]. destruct Hwf as (_ & Hfit & _). now destruct (view_ok _ Hfit) as [_ [? _]].
  - destruct (can r m); [|reflexivity]. split; [eauto|auto].
Qed.

(** An operation that gives back the lock. *)
Definition releases (m : mode) (op : M TwoPLHelper.row unit) : Prop := forall r, TwoPLHelper.wf r -> TwoPLHelper.is_valid (TwoPLHelper.lmeta r) = true ->
  match m with Rd => 0 < readers (TwoPLHelper.lock_of r) | Wr => writer (TwoPLHelper.lock_of r) = true end ->
  exists r', op r = Ret tt r' /\ TwoPLHelper.wf r' /\ TwoPLHelper.is_valid (TwoPLHelper.lmeta r') = true /\ TwoPLHelper.data r' = TwoPLHelper.data r /\ writer (TwoPLHelper.lock_of r') = false /\
    readers (TwoPLHelper.lock_of r') = readers (TwoPLHelper.lock_of r) - (match m with Rd => 1 | Wr => 0 end).

Lemma release_row_ok tid l k m b op (c : bool) : held l !! k = Some (m, b) -> at_rest l k -> releases m op ->
  op_ok tid l (if c then checked_row k op else at_row k op) (fun _ l' => l' = unhold k l).
Proof.
  intros Hk Hrest Hop h s Hb HI HK. destruct (held_there tid l h s k _ HK Hk) as [r Hr]. destruct (i_rows _ _ HI k r Hr) as ((Hwf & Hv & Hlen) & Hcnt & _).
  pose proof (k_holds _ _ _ _ HK k) as Hh. rewrite Hk in Hh. cbn in Hh. destruct (Hop r Hwf Hv) as (r' & E & Hwf' & Hv' & Hd & Hw & Hn).
  { destruct m; [apply (counted_held_read _ _ _ _ Hcnt Hh)|apply (counted_held_write _ _ _ _ Hcnt Hh)]. }
  assert (fine k r') as Hf by (split; [exact Hwf'|split; [exact Hv'|now rewrite Hd]]).
  destruct (release_step tid l h s k m b r r' HI HK Hk Hr Hrest Hf Hd Hw Hn) as (H1 & H2 & H3). exists tt, (set_row k r' s), (unhold k l).
  split; [destruct (at_row_run k op s r tt r' Hr E); now destruct c|]. split; [exact H1|]. split; [exact H2|]. split; [exact H3|reflexivity].
Qed.

Lemma read_locked_ok tid l k m b : held l !! k = Some (m, b) -> written l = ∅ ->
  op_ok tid l (at_row k (TwoPLHelper.read (replicate (size k.1.1) Byte.x00) (size k.1.1))) (fun a l' => a.2 = b /\ l' = l).
Proof.
  intros Hk Hw h s Hb HI HK. destruct (held_there tid l h s k _ HK Hk) as [r Hr]. destruct (i_rows _ _ HI k r Hr) as ((Hwf & Hv & Hlen) & Hcnt & Hrep).
  destruct (k_data _ _ _ _ HK k m b Hk) as [Hd Hx2]. unfold data_at in Hd. rewrite Hr in Hd. cbn in Hd. rewrite Hw, bool_decide_eq_false_2 in Hd by set_solver. injection Hd as Hd.
  pose proof (TwoPLHelper.read_eq (replicate (size k.1.1) Byte.x00) r Hwf Hv) as E. rewrite length_replicate in E. specialize (E (eq_sym Hlen)).
  exists (seq_no (TwoPLHelper.lock_of r), TwoPLHelper.data r), (set_row k r s), l. split; [now apply (at_row_run _ _ s r)|].
  assert (forall P Q R S : Prop, P /\ Q /\ R -> S -> P /\ Q /\ R /\ S) as Hand by tauto. apply Hand; [|easy].
  apply (row_step tid l l h s k r r HI HK Hr); rewrite ?(hold_step_same tid _ _ (holders h s k) eq_refl eq_refl); try easy.
  - now left.
  - apply (k_holds _ _ _ _ HK).
  - intros m' b' Hj. rewrite Hk in Hj. injection Hj as <- <-. rewrite Hw, bool_decide_eq_false_2 by set_solver. easy.
  - apply (k_snap _ _ _ _ HK).
Qed.

Lemma write_row_ok tid l k b v f (c : bool) : held l !! k = Some (Wr, b) -> committed l = true -> as_map (redone l) !! k = Some v -> length v = size k.1.1 -> (forall d, length d = size k.1.1 -> f d = v) ->
  op_ok tid l (if c then checked_row k (modify (fun r => TwoPLHelper.MkRow (TwoPLHelper.lmeta r) (f (TwoPLHelper.data r)))) else at_row k (modify (fun r => TwoPLHelper.MkRow (TwoPLHelper.lmeta r) (f (TwoPLHelper.data r)))))
    (fun _ l' => l' = write k l).
Proof.
  intros Hk Hc Hv Hlen Hf h s Hb HI HK. destruct (held_there tid l h s k _ HK Hk) as [r Hr]. destruct (i_rows _ _ HI k r Hr) as ((_ & _ & Hl) & _).
  destruct (write_step tid l h s k b r v HI HK Hk Hr Hc Hv Hlen) as (H1 & H2 & H3). exists tt, (set_row k (TwoPLHelper.MkRow (TwoPLHelper.lmeta r) v) s), (write k l).
  split; [|auto]. destruct (at_row_run k (modify (fun r => TwoPLHelper.MkRow (TwoPLHelper.lmeta r) (f (TwoPLHelper.data r)))) s r tt (TwoPLHelper.MkRow (TwoPLHelper.lmeta r) v) Hr); [|now destruct c].
  cbv [modify]. now rewrite Hf.
Qed.

Definition logged (e : log_entry) (l : know) : know := Know (held l) (redo_of e ++ redone l) (committed l) (written l) (snap l).
Lemma log_record_ok tid l e : is_commit e = false -> committed l = false /\ written l = ∅ \/ redo_of e = [] -> op_ok tid l (write_log tid e) (fun _ l' => l' = logged e l).
Proof.
  intros Ec Hcase h s Hb HI HK. exists tt, (Store (s_rows s) ((tid, e) :: s_log s)), (logged e l). split; [reflexivity|].
  destruct (log_step tid l h s e HI HK) as (H1 & H2 & H3); [now rewrite Ec|tauto|]. rewrite Ec in H2. cbn in H2. auto.
Qed.

Lemma commit_record_ok tid l c : committed l = false -> written l = ∅ -> (forall k v, (k, v) ∈ redone l -> exists b, held l !! k = Some (Wr, b)) ->
  op_ok tid l (write_log tid (LogCommit c)) (fun _ l' => exists lg, l' = Know (held l) (redone l) true ∅ lg /\ snapped l').
Proof.
  intros Hc Hw Hh h s Hb HI HK. exists tt, (Store (s_rows s) ((tid, LogCommit c) :: s_log s)). destruct (log_step tid l h s (LogCommit c) HI HK) as (H1 & H2 & H3); [easy|tauto|]. cbn in H2. rewrite Hw in H2.
  eexists. split; [reflexivity|]. split; [exact H1|]. split; [exact H2|]. split; [exact H3|]. eexists. split; [reflexivity|]. intros k m b Hk. cbn in *.
  destruct (k_data _ _ _ _ HK k m b Hk) as [_ Hx]. now rewrite Hc in Hx.
Qed.

(** *** The operations of the helper *)

Lemma read_lock_acquires r : TwoPLHelper.wf r -> TwoPLHelper.read_lock r = Ret (TwoPLHelper.version_seen r, can r Rd) (locked_row r Rd).
Proof. apply TwoPLHelper.read_lock_eq. Qed.
Lemma write_lock_acquires r : TwoPLHelper.wf r -> TwoPLHelper.write_lock r = Ret (TwoPLHelper.version_seen r, can r Wr) (locked_row r Wr).
Proof. apply TwoPLHelper.write_lock_eq. Qed.
Lemma take_lock_acquires (w : bool) (m := if w then Wr else Rd) dest n r : TwoPLHelper.wf r ->
  (if w then TwoPLHelper.take_write_lock_and_read dest n else TwoPLHelper.take_read_lock_and_read dest n) r
  = Ret (TwoPLHelper.version_seen r, can r m, if can r m then memcpy dest (TwoPLHelper.data r) n else dest) (locked_row r m).
Proof. unfold m. destruct w; [apply TwoPLHelper.take_write_eq|apply TwoPLHelper.take_read_eq]. Qed.

(** The operations end by storing another word. *)
Lemma stored_valid (op : M TwoPLHelper.row unit) (f : Z -> Z) r r' :
  (forall t d, op (TwoPLHelper.MkRow (TwoPLHelper.MkMeta false t true) d) = Ret tt (TwoPLHelper.MkRow (TwoPLHelper.MkMeta false (f t) true) d)) ->
  TwoPLHelper.wf r -> TwoPLHelper.is_valid (TwoPLHelper.lmeta r) = true -> op r = Ret tt r' -> TwoPLHelper.is_valid (TwoPLHelper.lmeta r') = true.
Proof.
  intros Hop Hwf Hv E. destruct (TwoPLHelper.wf_latch r Hwf) as (t & v & d & -> & _). cbn in Hv. subst v. rewrite Hop in E. now injection E as <-.
Qed.
Lemma read_release : releases Rd TwoPLHelper.read_lock_release.
Proof.
  intros r Hwf Hv Hn. destruct (TwoPLHelper.read_lock_release_eq r Hwf Hv Hn) as (r' & E & Hwf' & Hd & El).
  exists r'. refine (conj E (conj Hwf' (conj (stored_valid _ sub_reader _ _ (fun _ _ => eq_refl) Hwf Hv E) (conj Hd _)))). rewrite El. split; reflexivity.
Qed.
Lemma write_release : releases Wr TwoPLHelper.write_lock_release.
Proof.
  intros r Hwf Hv Hn. destruct (TwoPLHelper.write_lock_release_eq r Hwf Hv Hn) as (r' & E & Hwf' & Hd & El). pose proof (proj2 (proj2 Hwf) Hn) as He.
  exists r'. refine (conj E (conj Hwf' (conj (stored_valid _ sub_writer _ _ (fun _ _ => eq_refl) Hwf Hv E) (conj Hd _)))). rewrite El, He. split; reflexivity.
Qed.
Lemma write_release_new c : fits 54 c -> releases Wr (TwoPLHelper.write_lock_release_new c).
Proof.
  intros Hc r Hwf Hv Hn. destruct (TwoPLHelper.write_lock_release_new_eq c r Hwf Hv Hc) as (r' & E & Hwf' & Hd & El). pose proof (proj2 (proj2 Hwf) Hn) as He.
  exists r'. refine (conj E (conj Hwf' (conj (stored_valid _ (fun _ => c) _ _ (fun _ _ => eq_refl) Hwf Hv E) (conj Hd _)))). rewrite El, He. split; reflexivity.
Qed.
End invariant.
