(* ===== verification/TwoPLTxn.v ===== *)
(** * Two-phase locking: transactions among others

    The requests of a transaction of [TwoPL], as a thread that runs among other
    transactions: which locks it has, and what it has read, after each of them
    ([reading]).  The work that owners do for it is interleaved too. *)

From S2P Require Import Prelude LockWord RWLock TwoPLHelper Interleave SundialRow TwoPL TwoPLSpec.
Import TwoPLRWKey.

(** ** The entries keep what they refer to *)

Abbreviation rbit e := (TwoPL.bit (get_read_lock_bit e)).
Abbreviation wbit e := (TwoPL.bit (get_write_lock_bit e)).
Abbreviation wr e := (TwoPL.bit (get_write_lock_request_bit e)).
Abbreviation rr e := (TwoPL.bit (get_read_lock_request_bit e)).
Abbreviation idx e := (TwoPL.bit (get_local_index_read_bit e)).
Definition mode_of (e : tkey) : mode := if wr e then Wr else Rd.

(** The same request, whatever has happened to it. *)
Definition same (e0 e : tkey) : Prop :=
  get_key e = get_key e0 /\ get_value e = get_value e0 /\ get_table_id e = get_table_id e0 /\ get_partition_id e = get_partition_id e0 /\
  wr e = wr e0 /\ rr e = rr e0 /\ idx e = idx e0.

Lemma entry_same_refl e : same e e.
Proof. repeat split. Qed.
Lemma entry_same_trans e0 e1 e2 : same e0 e1 -> same e1 e2 -> same e0 e2.
Proof. unfold same. intuition congruence. Qed.

(** Marking a lock. *)
Lemma mark_read e : same e (set_read_lock_bit e) /\ rbit (set_read_lock_bit e) = true /\ wbit (set_read_lock_bit e) = wbit e.
Proof.
  assert (forall n off, 0 <= n -> 0 <= off -> off + n <= 64 -> off + n <= 1 \/ 2 <= off -> get_field (Z.ones n) off (set_read_lock_bit e) = get_field (Z.ones n) off e) as H.
  { intros n off ? ? ? ?. apply (field_set_other (bitvec e) off n 1 1 1); easy || lia. }
  assert (get_field 1 1 (set_read_lock_bit e) = 1) as H1 by exact (field_set_bit (bitvec e) 1 ltac:(lia)).
  split; [split; [reflexivity|split; [reflexivity|split; [apply (H 5 57); lia|split; [apply (H 20 19); lia|split; [|split]]]]]|split]; unfold TwoPL.bit; f_equal; f_equal.
  - apply (H 1 4); lia.
  - apply (H 1 3); lia.
  - apply (H 1 0); lia.
  - change (get_read_lock_bit (set_read_lock_bit e)) with (get_field 1 1 (set_read_lock_bit e)). now rewrite H1.
  - apply (H 1 2); lia.
Qed.
Lemma mark_write e : same e (set_write_lock_bit e) /\ wbit (set_write_lock_bit e) = true /\ rbit (set_write_lock_bit e) = rbit e.
Proof.
  assert (forall n off, 0 <= n -> 0 <= off -> off + n <= 64 -> off + n <= 2 \/ 3 <= off -> get_field (Z.ones n) off (set_write_lock_bit e) = get_field (Z.ones n) off e) as H.
  { intros n off ? ? ? ?. apply (field_set_other (bitvec e) off n 2 1 1); easy || lia. }
  assert (get_field 1 2 (set_write_lock_bit e) = 1) as H1 by exact (field_set_bit (bitvec e) 2 ltac:(lia)).
  split; [split; [reflexivity|split; [reflexivity|split; [apply (H 5 57); lia|split; [apply (H 20 19); lia|split; [|split]]]]]|split]; unfold TwoPL.bit; f_equal; f_equal.
  - apply (H 1 4); lia.
  - apply (H 1 3); lia.
  - apply (H 1 0); lia.
  - change (get_write_lock_bit (set_write_lock_bit e)) with (get_field 1 2 (set_write_lock_bit e)). now rewrite H1.
  - apply (H 1 1); lia.
Qed.

(** ** The owners and the network *)

Section network.
Context (size : Z -> nat) (deserialize_value : Z -> bytes -> bytes -> bytes) (rows : gset row_id) (init : gmap row_id bytes) (tid : Z).

Abbreviation run := (tsafe bounded (inv size rows init) (knows init) tid).
Abbreviation op_ok := (step_ok bounded (inv size rows init) (knows init) tid).
Abbreviation owner_step := (TwoPL.owner_step tid size deserialize_value).

Definition answered (w : work) : bool := match w with Answered _ => true | _ => false end.

Lemma work_gets_cheaper w s o s' : answered w = false -> owner_step w s = Ret o s' -> (sum_list_with TwoPL.cost (option_list o) < TwoPL.cost w)%nat.
Proof.
  destruct w as [[k i|k i|k b| |redo|k v c p|k v c p|k|k c]|k b c i|c|k v c|k c|r]; cbn [TwoPL.owner_step]; intros Ha E; try discriminate Ha;
    unfold TwoPL.read_lock_request_handler, TwoPL.write_lock_request_handler, TwoPL.read_locked_row, TwoPL.prepare_and_redo_request_handler, TwoPL.write_request_handler, TwoPL.replication_request_handler, TwoPL.release_read_lock_request_handler, TwoPL.release_write_lock_request_handler in E;
    cbv [mbind M_bind mret M_ret] in E; repeat case_match; try discriminate E; simplify_eq; cbn; lia.
Qed.

(** What is left of the works when one has done its step. *)
Definition put_work (i : nat) (o : option work) (ws : list work) : list work := match o with Some w => <[i := w]> ws | None => delete i ws end.

Lemma put_work_cheaper i w o ws : ws !! i = Some w -> (sum_list_with TwoPL.cost (option_list o) < TwoPL.cost w)%nat ->
  (sum_list_with TwoPL.cost (put_work i o ws) < sum_list_with TwoPL.cost ws)%nat.
Proof.
  intros E Hc. unfold put_work. destruct o as [w'|]; cbn in Hc.
  - pose proof (sum_insert TwoPL.cost ws i w w' E). lia.
  - pose proof (sum_delete TwoPL.cost ws i w E). lia.
Qed.

(** The network, for an invariant that every step and every answer keeps. *)
Lemma works_safe (NI : list work -> ttxn -> know -> Prop) :
  (forall ws t l i r, NI ws t l -> ws !! i = Some (Answered r) -> run (TwoPL.handle_response size r) t l (fun _ t' l' => NI (delete i ws) t' l')) ->
  (forall ws t l i w, NI ws t l -> ws !! i = Some w -> answered w = false -> op_ok l (owner_step w) (fun o l' => NI (put_work i o ws) t l')) ->
  forall fuel ws t l, (sum_list_with TwoPL.cost ws <= fuel)%nat -> NI ws t l -> run (TwoPL.network tid size deserialize_value fuel ws) t l (fun _ t' l' => NI [] t' l').
Proof.
  intros Hans Hstep. induction fuel as [|fuel IH]; intros ws t l Hf HN.
  - destruct ws as [|w ws]; [exact HN|]. cbn in Hf. exfalso. destruct w as [[]| | | | |]; cbn in Hf; lia.
  - cbn [TwoPL.network]. destruct ws as [|w0 ws0] eqn:Ews; [exact HN|]. rewrite <- Ews in *. assert (0 < length ws)%nat as Hlen by (rewrite Ews; cbn; lia).
    clear Ews. apply tsafe_bind, tsafe_pick; [exact Hlen|]. intros i Hi. destruct (lookup_lt_is_Some_2 ws i Hi) as [w E]. rewrite E. destruct (answered w) eqn:Ha.
    + destruct w as [| | | | |r]; try discriminate Ha. apply tsafe_bind. eapply tsafe_mono; [apply (Hans ws t l i r HN E)|]. intros ? t2 l2 HN'. apply IH; [|exact HN'].
      pose proof (put_work_cheaper i (Answered r) None ws E ltac:(cbn; lia)) as H. change (put_work i None ws) with (delete i ws) in H. lia.
    + assert (run (o ← atomic (owner_step w); TwoPL.network tid size deserialize_value fuel (put_work i o ws)) t l (fun _ t' l' => NI [] t' l')) as Hgo.
      { apply tsafe_bind, tsafe_atomic. specialize (Hstep ws t l i w HN E Ha). intros h s Hb HI HK.
        destruct (Hstep h s Hb HI HK) as (o & s' & l' & Eo & H1 & H2 & H3 & HN'). exists o, s', l'. split; [exact Eo|]. split; [exact H1|]. split; [exact H2|]. split; [exact H3|].
        apply IH; [|exact HN']. pose proof (put_work_cheaper i w o ws E (work_gets_cheaper w s o s' Ha Eo)). lia. }
      destruct w; try discriminate Ha; exact Hgo.
Qed.

(** What follows an operation in the same step. *)
Lemma op_then {A B} l (m : M store A) (c : A -> M store B) (f : A -> B) (Q : B -> know -> Prop) :
  (forall a s, c a s = Ret (f a) s) -> op_ok l m (fun a l' => Q (f a) l') -> op_ok l (m ≫= c) Q.
Proof.
  intros Hc Hm h s Hb HI HK. destruct (Hm h s Hb HI HK) as (a & s' & l' & E & H1 & H2 & H3 & H4). exists (f a), s', l'. split; [|auto].
  cbv [mbind M_bind]. now rewrite E.
Qed.

(** [sync_messages], when the network ends without an answer that is waited for. *)
Lemma sync_safe (NI : list work -> ttxn -> know -> Prop) b t l :
  (forall ws t l i r, NI ws t l -> ws !! i = Some (Answered r) -> run (TwoPL.handle_response size r) t l (fun _ t' l' => NI (delete i ws) t' l')) ->
  (forall ws t l i w, NI ws t l -> ws !! i = Some w -> answered w = false -> op_ok l (owner_step w) (fun o l' => NI (put_work i o ws) t l')) ->
  NI (Received <$> outbox t) (on_outbox (fun _ => []) t) l -> (forall t' l', b = true -> NI [] t' l' -> pendingResponses t' = 0) ->
  run (TwoPL.sync_messages tid size deserialize_value b) t l (fun _ t' l' => NI [] t' l').
Proof.
  intros Hans Hstep HN Hp. unfold TwoPL.sync_messages. apply tsafe_bind, tsafe_local. apply tsafe_bind, tsafe_assign. apply tsafe_bind.
  eapply tsafe_mono; [apply (works_safe NI Hans Hstep); [reflexivity|exact HN]|]. intros [] t' l' HN'. destruct b; [|now apply tsafe_ret]. cbn [when].
  apply tsafe_bind, tsafe_local. rewrite (Hp t' l' eq_refl HN'). now apply tsafe_ret.
Qed.
End network.

(** ** Serving the requests *)

Section reading.
Context (size : Z -> nat) (deserialize_value : Z -> bytes -> bytes -> bytes) (rows : gset row_id) (init : gmap row_id bytes) (tid : Z).
Context (me : Z) (master_coordinator : Z -> Z) (replicated_on : Z -> Z -> bool) (key_at : Z -> Z) (read_on_replica : bool).
(** The entries of the transaction when it starts, its buffers, and the last id of its worker. *)
Context (reads0 writes0 : list tkey) (mem0 : gmap Z bytes) (max0 : Z).

Abbreviation run := (tsafe bounded (inv size rows init) (knows init) tid).
Abbreviation op_ok := (step_ok bounded (inv size rows init) (knows init) tid).

Definition row_ (e : tkey) : row_id := (get_table_id e, get_partition_id e, key_at (default 0 (get_key e))).
Definition buf (e : tkey) : Z := default 0 (get_value e).
Definition near (e : tkey) : bool := TwoPL.has_master_partition me master_coordinator (get_partition_id e).
Definition unmarked (e : tkey) : Prop := rbit e = false /\ wbit e = false.

Record requests : Prop := Requests {
  q_key : forall e, e ∈ reads0 -> is_Some (get_key e);
  q_value : forall e, e ∈ reads0 -> is_Some (get_value e);
  q_rows : forall e, e ∈ reads0 -> row_ e ∈ rows;
  q_fresh : forall e, e ∈ reads0 -> get_processed e = false /\ unmarked e;
  q_lock : forall e, e ∈ reads0 -> rr e = negb (wr e) /\ idx e = false;
  q_distinct : NoDup (row_ <$> reads0);
  q_buffers : NoDup (buf <$> reads0)
}.
Context (Hq : requests).

Lemma same_request e0 e : same e0 e -> row_ e = row_ e0 /\ buf e = buf e0 /\ mode_of e = mode_of e0 /\ near e = near e0.
Proof. unfold row_, buf, near, mode_of. intros (-> & -> & -> & -> & -> & _). easy. Qed.

(** The entry a piece of work is for. *)
Definition offset (w : work) : nat :=
  match w with
  | Received (ReadLockRequest _ i) | Received (WriteLockRequest _ i) | Locked _ _ _ i | Answered (ReadLockResponse _ i _ _) | Answered (WriteLockResponse _ i _ _) => i
  | _ => 0
  end.

Definition version (n : Z) : Prop := 0 <= n < 2 ^ 54 - 1.

(** The answer to a request for a lock. *)
Definition answer_ok (l : know) (e0 : tkey) (success : bool) (v : bytes) (n : Z) : Prop :=
  if success then version n /\ held l !! row_ e0 = Some (mode_of e0, v) else held l !! row_ e0 = None.

Definition flight_ok (l : know) (e0 : tkey) (w : work) : Prop :=
  match w with
  | Received (ReadLockRequest k _) => k = row_ e0 /\ wr e0 = false /\ held l !! row_ e0 = None
  | Received (WriteLockRequest k _) => k = row_ e0 /\ wr e0 = true /\ held l !! row_ e0 = None
  | Locked k b n _ => k = row_ e0 /\ b = wr e0 /\ version n /\ exists v, held l !! row_ e0 = Some (mode_of e0, v)
  | Answered (ReadLockResponse success _ v n) => wr e0 = false /\ answer_ok l e0 success v n
  | Answered (WriteLockResponse success _ v n) => wr e0 = true /\ answer_ok l e0 success v n
  | _ => False
  end.

(** The lock of the entry is marked exactly when it is held, and then the value was read. *)
Definition settled (l : know) (t : ttxn) (e0 e : tkey) : Prop :=
  match held l !! row_ e0 with
  | Some (m, b) => m = mode_of e0 /\ rbit e = negb (wr e0) /\ wbit e = wr e0 /\ mem t !! buf e0 = Some b /\ (near e0 = true -> get_cached_local_row e = Some (row_ e0))
  | None => unmarked e
  end.

(** [n] entries are not served yet; [ws] is on its way. *)
Record reading (n : nat) (ws : list work) (t : ttxn) (l : know) : Prop := Reading {
  rd_writes : writeSet t = writes0;
  rd_rest : scanSet t = [] /\ insertSet t = [] /\ deleteSet t = [];
  rd_flags : abort_read_validation t = false /\ abort_insert t = false /\ abort_delete t = false;
  rd_max : max_tid t = max0;
  rd_pending : pendingResponses t = Z.of_nat (length ws);
  rd_len : length (readSet t) = length reads0;
  rd_offsets : NoDup (offset <$> ws);
  rd_works : forall w, w ∈ ws -> exists e0 e, reads0 !! offset w = Some e0 /\ readSet t !! offset w = Some e /\ flight_ok l e0 w /\ unmarked e /\ near e0 = false;
  rd_entries : forall i e0 e, reads0 !! i = Some e0 -> readSet t !! i = Some e -> same e0 e /\ version (get_tid e) /\
    (exists b, mem t !! buf e0 = Some b /\ length b = size (get_table_id e0)) /\
    (i ∈ offset <$> ws \/ settled l t e0 e /\ (is_Some (held l !! row_ e0) \/ (i < n)%nat \/ abort_lock t = true));
  rd_held : forall k m b, held l !! k = Some (m, b) -> (exists e0, e0 ∈ reads0 /\ k = row_ e0) /\ length b = size k.1.1;
  rd_know : redone l = [] /\ committed l = false /\ written l = ∅;
  rd_snapped : snapped init l;
  rd_mem : forall p, p ∉ buf <$> reads0 -> mem t !! p = mem0 !! p
}.

Lemma entry_row_inj i j e e' : reads0 !! i = Some e -> reads0 !! j = Some e' -> row_ e = row_ e' -> i = j.
Proof. intros Hi Hj E. apply (NoDup_lookup (row_ <$> reads0) i j (row_ e)); [apply (q_distinct Hq)|now rewrite list_lookup_fmap, Hi|rewrite list_lookup_fmap, Hj; cbn; congruence]. Qed.
Lemma entry_buf_inj i j e e' : reads0 !! i = Some e -> reads0 !! j = Some e' -> buf e = buf e' -> i = j.
Proof. intros Hi Hj E. apply (NoDup_lookup (buf <$> reads0) i j (buf e)); [apply (q_buffers Hq)|now rewrite list_lookup_fmap, Hi|rewrite list_lookup_fmap, Hj; cbn; congruence]. Qed.

(** Only what belongs to one entry changes. *)
Record for_entry (i : nat) (e0 e e' : tkey) (t t' : ttxn) (l l' : know) : Prop := ForEntry {
  fe_entry : reads0 !! i = Some e0;
  fe_old : readSet t !! i = Some e;
  fe_new : readSet t' = <[i := e']> (readSet t);
  fe_same : same e e';
  fe_tid : version (get_tid e');
  fe_writes : writeSet t' = writeSet t /\ max_tid t' = max_tid t;
  fe_rest : scanSet t' = scanSet t /\ insertSet t' = insertSet t /\ deleteSet t' = deleteSet t;
  fe_flags : abort_read_validation t' = abort_read_validation t /\ abort_insert t' = abort_insert t /\ abort_delete t' = abort_delete t;
  fe_lock : abort_lock t = true -> abort_lock t' = true;
  fe_mem : forall p, p <> buf e0 -> mem t' !! p = mem t !! p;
  fe_buffer : exists b, mem t' !! buf e0 = Some b /\ length b = size (get_table_id e0);
  fe_held : forall k, k <> row_ e0 -> held l' !! k = held l !! k;
  fe_len : forall m b, held l' !! row_ e0 = Some (m, b) -> length b = size (get_table_id e0);
  fe_know : redone l' = redone l /\ committed l' = committed l /\ written l' = written l;
  fe_snapped : snapped init l'
}.

Lemma flight_elsewhere l l' e1 w : held l' !! row_ e1 = held l !! row_ e1 -> flight_ok l e1 w -> flight_ok l' e1 w.
Proof. intros E. unfold flight_ok, answer_ok. now rewrite E. Qed.

Lemma entry_step n n' ws ws' i e0 e e' t t' l l' :
  reading n ws t l -> for_entry i e0 e e' t t' l l' ->
  pendingResponses t' = Z.of_nat (length ws') -> NoDup (offset <$> ws') ->
  (forall w, w ∈ ws' -> offset w <> i -> w ∈ ws) -> (forall j, j <> i -> j ∈ offset <$> ws -> j ∈ offset <$> ws') ->
  (forall w, w ∈ ws' -> offset w = i -> flight_ok l' e0 w /\ unmarked e' /\ near e0 = false) ->
  (i ∈ offset <$> ws' \/ settled l' t' e0 e' /\ (is_Some (held l' !! row_ e0) \/ (i < n')%nat \/ abort_lock t' = true)) ->
  abort_lock t' = true \/ (forall j, (j < n)%nat -> (j < n')%nat \/ j = i) ->
  reading n' ws' t' l'.
Proof.
  intros [R2 R3 R4 R5 R6 R7 R8 R9 R10 R11 R12 R12' R13] [F1 F2 F3 F4 F5 [F6 F6'] F7 F8 F9 F11 F12 F13 F14 F15 F16] Hp Hnd Hw Hoff Hi Hst Hn.
  assert (i < length (readSet t))%nat as Hlt by (eapply lookup_lt_Some; exact F2).
  split; [congruence|destruct F7 as (-> & -> & ->); exact R3|destruct F8 as (-> & -> & ->); exact R4|congruence|exact Hp|rewrite F3, length_insert; exact R7|exact Hnd| | | |destruct F15 as (-> & -> & ->); exact R12|exact F16|].
  - intros w Hmw. destruct (decide (offset w = i)) as [E|Hne].
    + destruct (Hi w Hmw E) as [H1 H2]. exists e0, e'. rewrite E, F3, list_lookup_insert_eq by exact Hlt. auto.
    + destruct (R9 w (Hw w Hmw Hne)) as (e1 & e2 & H1 & H2 & H3 & H4). exists e1, e2. rewrite F3, list_lookup_insert_ne by congruence.
      split; [exact H1|]. split; [exact H2|]. split; [|exact H4]. eapply flight_elsewhere; [|exact H3]. apply F13. intros E. apply Hne. eapply entry_row_inj; [exact H1|exact F1|exact E].
  - intros j e1 e2 H1 H2. rewrite F3 in H2. destruct (decide (j = i)) as [->|Hne].
    + rewrite list_lookup_insert_eq in H2 by exact Hlt. injection H2 as <-. rewrite F1 in H1. injection H1 as <-.
      destruct (R10 i e0 e F1 F2) as (Hs & _). split; [eapply entry_same_trans; eauto|]. split; [exact F5|]. split; [exact F12|exact Hst].
    + rewrite list_lookup_insert_ne in H2 by congruence. destruct (R10 j e1 e2 H1 H2) as (Hs & Hv & (b & Hb & Hlen) & Hcase).
      assert (row_ e1 <> row_ e0) as Hrow by (intros E; apply Hne; eapply entry_row_inj; eauto).
      assert (buf e1 <> buf e0) as Hbuf by (intros E; apply Hne; eapply entry_buf_inj; eauto).
      split; [exact Hs|]. split; [exact Hv|]. split; [exists b; rewrite F11 by exact Hbuf; auto|]. destruct Hcase as [Hc|[Hc1 Hc2]]; [left; now apply Hoff|]. right. split.
      * unfold settled in *. rewrite F13, F11 by assumption. exact Hc1.
      * rewrite F13 by exact Hrow. destruct Hc2 as [Hc2|[Hc2|Hc2]]; [now left| |right; right; auto]. destruct Hn as [Hn|Hn]; [now right; right|]. destruct (Hn j Hc2); [now right; left|congruence].
  - intros k m b Hk. destruct (decide (k = row_ e0)) as [->|Hne]; [|rewrite F13 in Hk by exact Hne; now apply (R11 k m b)].
    split; [|now apply (F14 m)]. exists e0. split; [|reflexivity]. eapply list_elem_of_lookup_2, F1.
  - intros p Hp'. rewrite F11; [now apply R13|]. intros ->. apply Hp'. apply list_elem_of_fmap. exists e0. split; [reflexivity|]. eapply list_elem_of_lookup_2, F1.
Qed.

(** What serving an entry leaves behind. *)
Definition request_of (e0 : tkey) (i : nat) : request := if wr e0 then WriteLockRequest (row_ e0) i else ReadLockRequest (row_ e0) i.
Definition served (i : nat) (e0 e : tkey) (t : ttxn) (l : know) (ok : bool) (t' : ttxn) (l' : know) : Prop :=
  exists e', for_entry i e0 e e' t t' l l' /\
    if ok then
      (outbox t' = outbox t /\ pendingResponses t' = pendingResponses t /\ settled l' t' e0 e' /\ is_Some (held l' !! row_ e0)) \/
      (outbox t' = outbox t ++ [request_of e0 i] /\ pendingResponses t' = pendingResponses t + 1 /\ held l' !! row_ e0 = None /\ unmarked e' /\ near e0 = false)
    else outbox t' = outbox t /\ pendingResponses t' = pendingResponses t /\ settled l' t' e0 e' /\ abort_lock t' = true.

Lemma on_read_at i f e1 rs t : (i < length rs)%nat -> readSet t = <[i := e1]> rs -> readSet (on_read i f t) = <[i := f e1]> rs.
Proof. intros Hi E. cbn. rewrite E, (alter_at _ _ i e1) by now apply list_lookup_insert_eq. now rewrite list_insert_insert_eq. Qed.

(** The locks that one entry asks for. *)
Lemma entry_acquired e0 l r l' : e0 ∈ reads0 -> acquired size init (row_ e0) (mode_of e0) l r l' -> held l !! row_ e0 = None -> snapped init l ->
  version (TwoPLHelper.version_seen r) /\ snapped init l' /\ (forall k, k <> row_ e0 -> held l' !! k = held l !! k) /\ (redone l' = redone l /\ committed l' = committed l /\ written l' = written l) /\
  length (TwoPLHelper.data r) = size (get_table_id e0) /\ held l' !! row_ e0 = (if can r (mode_of e0) then Some (mode_of e0, TwoPLHelper.data r) else None).
Proof.
  intros Hin ((Hwf & Hv & Hlen) & Hseq & Hc) Hnone Hs. unfold TwoPLHelper.version_seen. rewrite Hv. split; [exact Hseq|]. destruct (can r (mode_of e0)).
  - destruct Hc as ((lg & ->) & Hs'). split; [exact Hs'|]. split; [intros k Hk; cbn; now rewrite lookup_insert_ne|]. split; [auto|]. split; [exact Hlen|]. cbn. apply lookup_insert_eq.
  - subst l'. exact (conj Hs (conj (fun _ _ => eq_refl) (conj (conj eq_refl (conj eq_refl eq_refl)) (conj Hlen Hnone)))).
Qed.

Abbreviation process_read := (TwoPL.process_read me master_coordinator size key_at).

Ltac for_entry_tac e := split; try solve [assumption | reflexivity | split; reflexivity | split; [|split]; reflexivity | exact (entry_same_refl e) | exact id].

Lemma process_read_ok i e0 e t l :
  reads0 !! i = Some e0 -> readSet t !! i = Some e -> same e0 e -> unmarked e -> held l !! row_ e0 = None -> version (get_tid e) ->
  committed l = false -> written l = ∅ -> snapped init l -> (exists b, mem t !! buf e0 = Some b /\ length b = size (get_table_id e0)) ->
  run (process_read i e) t l (served i e0 e t l).
Proof.
  intros He0 He Hs Hun Hnone Hver Hc Hw Hsn (b0 & Hb0 & Hlen0).
  assert (e0 ∈ reads0) as Hin by (eapply list_elem_of_lookup_2, He0). pose proof (lookup_lt_Some _ _ _ He) as Hlt.
  destruct (q_key Hq _ Hin) as [p Hp], (q_value Hq _ Hin) as [v Hv], (q_lock Hq _ Hin) as [Hrr Hidx]. pose proof (q_rows Hq _ Hin) as Hrow.
  destruct (same_request _ _ Hs) as (Er & Eb & Em & En). pose proof Hs as (Hk & Hval & Ht & Hpa & Ewr & Err & Eidx).
  assert ((get_table_id e, get_partition_id e, key_at p) = row_ e0) as Erow by (unfold row_; now rewrite Ht, Hpa, Hp).
  assert (buf e0 = v) as Ebuf by (unfold buf; now rewrite Hv). rewrite Ebuf in Hb0.
  unfold TwoPL.process_read, TwoPL.lock_request_handler. apply tsafe_bind. unfold TwoPL.row_of. apply tsafe_bind, tsafe_bind, (tsafe_access _ _ _ _ _ p); [congruence|]. apply tsafe_ret. rewrite Erow.
  rewrite Ewr, Eidx, Hidx. fold (near e). rewrite En. destruct (near e0) eqn:Enear.
  2: { apply tsafe_bind, tsafe_assign. apply tsafe_bind, tsafe_assign. apply tsafe_ret. apply tsafe_bind, tsafe_assign. apply tsafe_ret. exists (set_processed e). split.
       - for_entry_tac e.
         + cbn. now rewrite (alter_at _ _ _ _ He).
         + cbn. rewrite Ebuf. eauto.
         + intros m b Hx. congruence.
       - right. cbn. rewrite Z.add_comm. unfold request_of. auto. }
  unfold TwoPL.buffer_of, TwoPL.fill_buffer. apply tsafe_bind, tsafe_bind, (tsafe_access _ _ _ _ _ v); [congruence|]. apply (tsafe_access _ _ _ _ _ b0); [exact Hb0|].
  apply tsafe_bind, tsafe_atomic. unfold TwoPL.take_lock_and_read.
  eapply step_ok_mono; [|apply (acquire_ok size rows init tid l (row_ e0) (mode_of e0)); [exact Hrow|exact Hnone|exact Hc|exact Hw|intros r Hwf; apply (take_lock_acquires (wr e0) b0 (size (row_ e0).1.1) r Hwf)]].
  intros a l1 (r & -> & Hacq). cbn beta iota. destruct (entry_acquired e0 l r l1 Hin Hacq Hnone Hsn) as (Hver1 & Hsn1 & Hother & Hknow & Hlen1 & Hheld).
  change (if wr e0 then Wr else Rd) with (mode_of e0). apply tsafe_bind, tsafe_bind, (tsafe_access _ _ _ _ _ v); [congruence|]. apply tsafe_assign. apply tsafe_ret.
  apply tsafe_bind, tsafe_assign. destruct (can r (mode_of e0)).
  - rewrite memcpy_full by (cbn; congruence). apply tsafe_bind, tsafe_assign. rewrite ?Err, ?Hrr, ?Ewr, ?Eidx, ?Hidx. cbn [negb andb]. rewrite andb_true_r.
    assert (forall t1 e1, readSet t1 = <[i := e1]> (readSet t) -> same e e1 -> get_tid e1 = TwoPLHelper.version_seen r -> rbit e1 = negb (wr e0) -> wbit e1 = wr e0 -> get_cached_local_row e1 = Some (row_ e0) ->
      mem t1 = <[v := TwoPLHelper.data r]> (mem t) -> writeSet t1 = writeSet t /\ max_tid t1 = max_tid t -> scanSet t1 = scanSet t /\ insertSet t1 = insertSet t /\ deleteSet t1 = deleteSet t ->
      abort_read_validation t1 = abort_read_validation t /\ abort_insert t1 = abort_insert t /\ abort_delete t1 = abort_delete t -> abort_lock t1 = abort_lock t ->
      outbox t1 = outbox t -> pendingResponses t1 = pendingResponses t -> served i e0 e t l true t1 l1) as Hdone.
    { intros t1 e1 G1 G2 G3 G4 G5 G6 G7 G8 G9 G10 G11 G12 G13. exists e1. split.
      - for_entry_tac e.
        + congruence.
        + congruence.
        + intros q Hne. rewrite G7, lookup_insert_ne; congruence.
        + exists (TwoPLHelper.data r). rewrite G7, Ebuf, lookup_insert_eq. auto.
        + intros m b Hx. rewrite Hheld in Hx. congruence.
      - left. rewrite Hheld. split; [exact G12|]. split; [exact G13|]. split; [|eauto]. unfold settled. rewrite Hheld, G7, Ebuf, lookup_insert_eq. auto. }
    set (e2 := TwoPLRWKey.set_tid (TwoPLHelper.version_seen r) (set_cached_local_row (Some (row_ e0)) e)). set (t2 := on_read i (TwoPLRWKey.set_tid _) _).
    assert (readSet t2 = <[i := e2]> (readSet t)) as E2.
    { unfold t2, e2. apply on_read_at; [exact Hlt|]. cbn. now rewrite (alter_at _ _ _ _ He). }
    destruct Hun as [Hun1 Hun2]. destruct (wr e0) eqn:Ew; cbn [negb when].
    + apply tsafe_bind, tsafe_ret. apply tsafe_bind, tsafe_assign. apply tsafe_bind, tsafe_assign. apply tsafe_ret.
      destruct (mark_write e2) as (Hm1 & Hm2 & Hm3). apply (Hdone _ (set_processed (set_write_lock_bit e2))); try reflexivity; try (split; [|split]; reflexivity); try (split; reflexivity); [|exact Hm1|exact (eq_trans Hm3 Hun1)|exact Hm2].
      apply on_read_at; [exact Hlt|]. now apply on_read_at.
    + apply tsafe_bind, tsafe_assign. apply tsafe_bind, tsafe_ret. apply tsafe_bind, tsafe_assign. apply tsafe_ret.
      destruct (mark_read e2) as (Hm1 & Hm2 & Hm3). apply (Hdone _ (set_processed (set_read_lock_bit e2))); try reflexivity; try (split; [|split]; reflexivity); try (split; reflexivity); [|exact Hm1|exact Hm2|exact (eq_trans Hm3 Hun2)].
      apply on_read_at; [exact Hlt|]. now apply on_read_at.
  - apply tsafe_bind, tsafe_assign. apply tsafe_ret. exists (set_cached_local_row (Some (row_ e0)) e). split.
    + for_entry_tac e.
      * cbn. now rewrite (alter_at _ _ _ _ He).
      * intros q Hne. cbn. rewrite lookup_insert_ne; congruence.
      * exists b0. cbn. rewrite Ebuf, lookup_insert_eq. auto.
      * intros m b Hx. congruence.
    + split; [reflexivity|]. split; [reflexivity|]. split; [|reflexivity]. unfold settled. rewrite Hheld. exact Hun.
Qed.

(** The entries below [n] are as they were. *)
Definition untouched (n : nat) (t : ttxn) : Prop := forall i, (i < n)%nat -> readSet t !! i = reads0 !! i /\ i ∉ offset <$> (Received <$> outbox t).
Definition flying (n : nat) (t : ttxn) (l : know) : Prop := reading n (Received <$> outbox t) t l.

(** One more entry is served. *)
Lemma entry_served i e0 e t l ok t' l' :
  flying (S i) t l -> untouched (S i) t -> reads0 !! i = Some e0 -> readSet t !! i = Some e -> served i e0 e t l ok t' l' ->
  if ok then flying i t' l' /\ untouched i t' else flying 0 t' l' /\ abort_lock t' = true.
Proof.
  intros HR Hu He0 He (e' & Hfe & Hok). destruct (Hu i ltac:(lia)) as [_ Hno]. pose proof (rd_pending _ _ _ _ HR) as Hp.
  assert (forall j, j <> i -> readSet t' !! j = readSet t !! j) as Hother by (intros j Hne; rewrite (fe_new _ _ _ _ _ _ _ _ Hfe); now rewrite list_lookup_insert_ne).
  assert (forall w, w ∈ Received <$> outbox t -> offset w <> i) as Hno' by (intros w Hmw E; apply Hno; rewrite <- E; now apply list_elem_of_fmap_2).
  destruct ok; unfold flying.
  - destruct Hok as [(Ho & Hpe & Hst & Hre)|(Ho & Hpe & Hnone & Hun & Hfar)]; rewrite Ho.
    + split.
      * eapply (entry_step (S i) i _ _ i e0 e e' t _ l l'); [exact HR|exact Hfe|lia|apply (rd_offsets _ _ _ _ HR)|auto|auto| | |right; lia].
        -- intros w Hmw E. exfalso. now apply (Hno' w).
        -- right. split; [exact Hst|]. now left.
      * intros j Hj. rewrite Hother by lia. rewrite Ho. apply Hu. lia.
    + assert (offset (Received (request_of e0 i)) = i) as Eoff by (unfold request_of; now destruct (wr e0)).
      assert (offset <$> (Received <$> outbox t ++ [request_of e0 i]) = (offset <$> (Received <$> outbox t)) ++ [i]) as Eapp by (rewrite !fmap_app; cbn [fmap list_fmap]; now rewrite Eoff).
      split.
      * eapply (entry_step (S i) i _ _ i e0 e e' t _ l l'); [exact HR|exact Hfe| | | | | | |right; lia].
        -- rewrite Hpe, Hp. rewrite !length_fmap, length_app. cbn. lia.
        -- rewrite Eapp. apply NoDup_app. split; [apply (rd_offsets _ _ _ _ HR)|]. split; [|apply NoDup_singleton]. intros j Hj E. apply list_elem_of_singleton in E as ->. now apply Hno.
        -- intros w Hmw Hne. rewrite fmap_app in Hmw. apply elem_of_app in Hmw as [Hmw|Hmw]; [exact Hmw|]. apply list_elem_of_singleton in Hmw as ->. congruence.
        -- intros j _ Hj. rewrite Eapp. apply elem_of_app. now left.
        -- intros w Hmw E. rewrite fmap_app in Hmw. apply elem_of_app in Hmw as [Hmw|Hmw]; [exfalso; now apply (Hno' w)|].
           apply list_elem_of_singleton in Hmw as ->. split; [|auto]. unfold request_of. destruct (wr e0) eqn:Ew; cbn; auto.
        -- left. rewrite Eapp. apply elem_of_app. right. now apply list_elem_of_singleton.
      * intros j Hj. rewrite Hother by lia. rewrite Ho, Eapp. destruct (Hu j ltac:(lia)) as [H1 H2]. split; [exact H1|]. intros Hin. apply elem_of_app in Hin as [Hin|Hin]; [easy|].
        apply list_elem_of_singleton in Hin. lia.
  - destruct Hok as (Ho & Hpe & Hst & Hab). rewrite Ho. split; [|exact Hab].
    eapply (entry_step (S i) 0 _ _ i e0 e e' t _ l l'); [exact HR|exact Hfe|lia|apply (rd_offsets _ _ _ _ HR)|auto|auto| | |now left].
    + intros w Hmw E. exfalso. now apply (Hno' w).
    + right. split; [exact Hst|]. right. now right.
Qed.

(** The loop over the read set. *)
Lemma read_set_loop n t l : (n <= length reads0)%nat -> flying n t l -> untouched n t ->
  run (TwoPL.process_set readSet process_read n) t l (fun stop t' l' => flying 0 t' l' /\ (stop = true -> abort_lock t' = true)).
Proof.
  revert t l. induction n as [|i IH]; intros t l Hn HR Hu; cbn [TwoPL.process_set]; [apply tsafe_ret; easy|].
  destruct (lookup_lt_is_Some_2 reads0 i ltac:(lia)) as [e0 He0]. assert (readSet t !! i = Some e0) as He by (rewrite <- He0; now apply Hu, Nat.lt_succ_diag_r).
  assert (e0 ∈ reads0) as Hin by (eapply list_elem_of_lookup_2, He0). destruct (q_fresh Hq _ Hin) as (Hpr & Hun1 & Hun2).
  apply tsafe_bind, (tsafe_access _ _ _ _ _ e0); [exact He|]. rewrite Hpr. apply tsafe_bind.
  destruct (rd_entries _ _ _ _ HR i e0 e0 He0 He) as (Hs & Hver & Hbuf & Hcase).
  assert (held l !! row_ e0 = None) as Hnone.
  { destruct Hcase as [Hc|[Hc _]]; [destruct (Hu i ltac:(lia)); easy|]. unfold settled in Hc. destruct (held l !! row_ e0) as [[m b]|]; [|reflexivity]. destruct Hc as (_ & Hc1 & Hc2 & _). rewrite Hun1, Hun2 in *. destruct (wr e0); discriminate. }
  pose proof (rd_know _ _ _ _ HR) as (_ & Hc & Hw).
  eapply tsafe_mono; [eapply (process_read_ok i e0 e0); try eassumption; [split; assumption|apply (rd_snapped _ _ _ _ HR)]|].
  intros ok t' l' Hsv. pose proof (entry_served i e0 e0 t l ok t' l' HR Hu He0 He Hsv) as Hst. destruct ok; [apply IH; [lia|easy|easy]|]. apply tsafe_ret. easy.
Qed.

(** *** Work of the owners for one entry *)

Lemma offsets_insert (ws : list work) j w w' : ws !! j = Some w -> offset w' = offset w -> NoDup (offset <$> ws) ->
  (offset <$> <[j := w']> ws) = (offset <$> ws) /\ (forall w2, w2 ∈ <[j := w']> ws -> w2 = w' \/ (w2 ∈ ws /\ offset w2 <> offset w)).
Proof.
  intros E Eo Hnd. split.
  - rewrite list_fmap_insert, Eo. apply list_insert_id. now rewrite list_lookup_fmap, E.
  - intros w2 H. apply list_elem_of_lookup in H as [j2 H]. destruct (decide (j2 = j)) as [->|Hne].
    + left. rewrite list_lookup_insert_eq in H by (eapply lookup_lt_Some; exact E). now injection H as <-.
    + rewrite list_lookup_insert_ne in H by congruence. right. split; [eapply list_elem_of_lookup_2, H|]. intros Eo2. apply Hne.
      eapply (NoDup_lookup (offset <$> ws)); [exact Hnd|rewrite list_lookup_fmap, H; reflexivity|rewrite list_lookup_fmap, E; cbn; congruence].
Qed.

Lemma offsets_delete (ws : list work) j w : ws !! j = Some w -> NoDup (offset <$> ws) ->
  NoDup (offset <$> delete j ws) /\ (offset w ∉ offset <$> delete j ws) /\
  (forall x, x ∈ delete j ws -> x ∈ ws) /\ (forall i, i <> offset w -> i ∈ offset <$> ws -> i ∈ offset <$> delete j ws) /\ length ws = S (length (delete j ws)).
Proof.
  intros E Hnd. assert (ws ≡ₚ w :: delete j ws) as Hp by now apply delete_Permutation.
  assert ((offset <$> ws) ≡ₚ offset w :: (offset <$> delete j ws)) as Hp2 by (rewrite Hp at 1; reflexivity).
  rewrite Hp2 in Hnd. apply NoDup_cons in Hnd as [Hn1 Hn2]. split; [exact Hn2|]. split; [exact Hn1|]. split; [|split].
  - intros x Hx. rewrite Hp. now right.
  - intros i Hne Hi. rewrite Hp2 in Hi. apply elem_of_cons in Hi as [->|Hi]; [congruence|exact Hi].
  - rewrite Hp at 1. reflexivity.
Qed.

(** The work [j] goes on, and its entry with it. *)
Lemma work_goes_on ws j w w' e0 e t l l' :
  reading 0 ws t l -> ws !! j = Some w -> offset w' = offset w -> reads0 !! offset w = Some e0 -> readSet t !! offset w = Some e ->
  unmarked e -> near e0 = false -> flight_ok l' e0 w' ->
  (forall k, k <> row_ e0 -> held l' !! k = held l !! k) -> (forall m b, held l' !! row_ e0 = Some (m, b) -> length b = size (get_table_id e0)) ->
  (redone l' = redone l /\ committed l' = committed l /\ written l' = written l) -> snapped init l' ->
  reading 0 (<[j := w']> ws) t l'.
Proof.
  intros HR E Eo He0 He Hun Hfar Hfl H1 H2 H3 H4. destruct (offsets_insert ws j w w' E Eo (rd_offsets _ _ _ _ HR)) as [Hoff Hmem].
  destruct (rd_entries _ _ _ _ HR _ _ _ He0 He) as (_ & Hver & Hb & _).
  eapply (entry_step 0 0 ws _ (offset w) e0 e e t t l l'); [exact HR| | | | | | | |right; lia].
  - for_entry_tac e. now rewrite list_insert_id.
  - rewrite length_insert. apply (rd_pending _ _ _ _ HR).
  - rewrite Hoff. apply (rd_offsets _ _ _ _ HR).
  - intros w2 Hin Hne. destruct (Hmem w2 Hin) as [->|[? ?]]; [congruence|assumption].
  - rewrite Hoff. auto.
  - intros w2 Hin Ho. destruct (Hmem w2 Hin) as [->|[? ?]]; [auto|congruence].
  - left. rewrite Hoff. apply list_elem_of_fmap_2. eapply list_elem_of_lookup_2, E.
Qed.

(** [ab]: the transaction was to be aborted before. *)
Definition reads_net (ab : bool) (ws : list work) (t : ttxn) (l : know) : Prop := reading 0 ws t l /\ outbox t = [] /\ (ab = true -> abort_lock t = true).

Lemma reads_owner_step ab ws t l j w : reads_net ab ws t l -> ws !! j = Some w -> answered w = false ->
  op_ok l (TwoPL.owner_step tid size deserialize_value w) (fun o l' => reads_net ab (put_work j o ws) t l').
Proof.
  intros (HR & Hout & Hab) E Ha. destruct (rd_works _ _ _ _ HR w) as (e0 & e & He0 & He & Hfl & Hun & Hfar); [eapply list_elem_of_lookup_2, E|].
  assert (e0 ∈ reads0) as Hin by (eapply list_elem_of_lookup_2, He0). pose proof (q_rows Hq _ Hin) as Hrow. pose proof (rd_know _ _ _ _ HR) as (Hredo & Hc & Hw). pose proof (rd_snapped _ _ _ _ HR) as Hsn.
  assert (forall r l' (w' : work), held l !! row_ e0 = None -> acquired size init (row_ e0) (mode_of e0) l r l' -> offset w' = offset w -> flight_ok l' e0 w' -> reads_net ab (<[j := w']> ws) t l') as Hgo.
  { intros r l' w' Hnone Hacq Eo Hfl'. destruct (entry_acquired e0 l r l' Hin Hacq Hnone Hsn) as (_ & Hsn1 & Hother & Hknow & Hlen1 & Hheld). split; [|auto].
    eapply (work_goes_on ws j w w' e0 e); try eassumption. intros m b Hx. rewrite Hheld in Hx. destruct (can r (mode_of e0)); congruence. }
  assert (forall r l' success, held l !! row_ e0 = None -> acquired size init (row_ e0) (mode_of e0) l r l' -> can r (mode_of e0) = success ->
    if success then version (TwoPLHelper.version_seen r) /\ exists v, held l' !! row_ e0 = Some (mode_of e0, v) else held l' !! row_ e0 = None) as Hans.
  { intros r l' success Hnone Hacq <-. destruct (entry_acquired e0 l r l' Hin Hacq Hnone Hsn) as (Hver & _ & _ & _ & _ & Hheld). rewrite Hheld. destruct (can r (mode_of e0)); eauto. }
  destruct w as [[k i|k i|k b| |redo|k v c p|k v c p|k|k c]|k b n i|c|k v c|k c|r]; cbn in Hfl; try tauto; try discriminate Ha; cbn [TwoPL.owner_step].
  - destruct Hfl as (-> & Ew & Hnone). apply (op_then _ _ _ _ _ _ _ Some); [reflexivity|]. unfold TwoPL.read_lock_request_handler.
    apply (op_then _ _ _ _ _ _ _ (fun a : Z * bool => if a.2 then Locked (row_ e0) false a.1 i else Answered (ReadLockResponse false i [] 0))); [now intros [] ?|].
    eapply step_ok_mono; [|apply (acquire_ok size rows init tid l (row_ e0) Rd); [exact Hrow|exact Hnone|exact Hc|exact Hw|apply read_lock_acquires]].
    intros a l' (r & -> & Hacq). cbn [fst snd put_work]. assert (Rd = mode_of e0) as Em by (unfold mode_of; now rewrite Ew). rewrite Em in *.
    specialize (Hans r l' (can r (mode_of e0)) Hnone Hacq eq_refl). destruct (can r (mode_of e0)); (eapply Hgo; [exact Hnone|exact Hacq|reflexivity|]); cbn; auto.
  - destruct Hfl as (-> & Ew & Hnone). apply (op_then _ _ _ _ _ _ _ Some); [reflexivity|]. unfold TwoPL.write_lock_request_handler.
    apply (op_then _ _ _ _ _ _ _ (fun a : Z * bool => if a.2 then Locked (row_ e0) true a.1 i else Answered (WriteLockResponse false i [] 0))); [now intros [] ?|].
    eapply step_ok_mono; [|apply (acquire_ok size rows init tid l (row_ e0) Wr); [exact Hrow|exact Hnone|exact Hc|exact Hw|apply write_lock_acquires]].
    intros a l' (r & -> & Hacq). cbn [fst snd put_work]. assert (Wr = mode_of e0) as Em by (unfold mode_of; now rewrite Ew). rewrite Em in *.
    specialize (Hans r l' (can r (mode_of e0)) Hnone Hacq eq_refl). destruct (can r (mode_of e0)); (eapply Hgo; [exact Hnone|exact Hacq|reflexivity|]); cbn; auto.
  - destruct Hfl as (-> & -> & Hver & v & Hv). apply (op_then _ _ _ _ _ _ _ Some); [reflexivity|]. unfold TwoPL.read_locked_row, TwoPL.blank.
    apply (op_then _ _ _ _ _ _ _ (fun a : Z * bytes => Answered (if wr e0 then WriteLockResponse true i a.2 n else ReadLockResponse true i a.2 n))); [now intros [] ?|].
    eapply step_ok_mono; [|eapply (read_locked_ok size rows init tid l (row_ e0)); [exact Hv|exact Hw]]. intros a l' [-> ->]. cbn [put_work]. split; [|auto].
    eapply (work_goes_on ws j _ _ e0 e); try eassumption; [now destruct (wr e0)|destruct (wr e0) eqn:Ew; cbn; auto|reflexivity| |auto].
    intros m b Hx. apply (rd_held _ _ _ _ HR) in Hx as [_ Hx]. exact Hx.
Qed.

(** An answer is taken in. *)
Lemma reads_response ab ws t l j r : reads_net ab ws t l -> ws !! j = Some (Answered r) ->
  run (TwoPL.handle_response size r) t l (fun _ t' l' => reads_net ab (delete j ws) t' l').
Proof.
  intros (HR & Hout & Hab) E. destruct (rd_works _ _ _ _ HR _ (list_elem_of_lookup_2 _ _ _ E)) as (e0 & e & He0 & He & Hfl & Hun & Hfar).
  destruct (offsets_delete ws j _ E (rd_offsets _ _ _ _ HR)) as (Hnd & Hno & Hsub & Hkeep & Hlen').
  assert (e0 ∈ reads0) as Hin by (eapply list_elem_of_lookup_2, He0). destruct (q_value Hq _ Hin) as [p Hp].
  destruct (rd_entries _ _ _ _ HR _ _ _ He0 He) as (Hs & Hver & (b0 & Hb0 & Hlen0) & _). pose proof Hs as (Hk & Hval & Ht & Hpa & _).
  assert (buf e0 = p) as Ebuf by (unfold buf; now rewrite Hp). rewrite Ebuf in Hb0. pose proof (lookup_lt_Some _ _ _ He) as Hlt.
  assert (forall m b, held l !! row_ e0 = Some (m, b) -> length b = size (get_table_id e0)) as Hlens by (intros m b Hx; apply (rd_held _ _ _ _ HR) in Hx as [_ Hx]; exact Hx).
  pose proof (rd_snapped _ _ _ _ HR) as Hsn.
  set (i := offset (Answered r)) in *.
  assert (forall e' t', for_entry i e0 e e' t t' l l -> pendingResponses t' = pendingResponses t - 1 -> outbox t' = [] ->
    settled l t' e0 e' -> (is_Some (held l !! row_ e0) \/ abort_lock t' = true) -> reads_net ab (delete j ws) t' l) as Hdone.
  { intros e' t' Hfe Hpe Ho Hse Hre. split; [|split; [exact Ho|intros H; apply (fe_lock _ _ _ _ _ _ _ _ Hfe); auto]].
    eapply (entry_step 0 0 ws _ i e0 e e' t t' l l); [exact HR|exact Hfe| |exact Hnd| |exact Hkeep| | |right; lia].
    - rewrite Hpe, (rd_pending _ _ _ _ HR). lia.
    - intros w2 H2 _. now apply Hsub.
    - intros w2 H2 Ho2. exfalso. apply Hno. rewrite <- Ho2. now apply list_elem_of_fmap_2.
    - right. split; [exact Hse|]. tauto. }
  assert (forall success v n (set_bit : tkey -> tkey), answer_ok l e0 success v n -> same e (set_bit e) -> rbit (set_bit e) = negb (wr e0) -> wbit (set_bit e) = wr e0 ->
    run (TwoPL.lock_response_handler size success i v n set_bit) t l (fun _ t' l' => reads_net ab (delete j ws) t' l')) as Hhandle.
  { intros success v n set_bit Hans Hsame Hrb Hwb. unfold TwoPL.lock_response_handler. destruct success; cbn in Hans.
    - destruct Hans as [Hvn Hheld]. apply tsafe_bind, tsafe_bind, (tsafe_access _ _ _ _ _ e); [exact He|]. unfold TwoPL.buffer_of, TwoPL.fill_buffer.
      apply tsafe_bind, tsafe_bind, (tsafe_access _ _ _ _ _ p); [congruence|]. apply (tsafe_access _ _ _ _ _ b0); [exact Hb0|].
      apply tsafe_bind, tsafe_bind, (tsafe_access _ _ _ _ _ p); [congruence|]. apply tsafe_assign. apply tsafe_assign.
      rewrite memcpy_full; [|rewrite Ht; exact Hlen0|rewrite Ht; exact (Hlens _ _ Hheld)]. apply tsafe_assign.
      apply (Hdone (TwoPLRWKey.set_tid n (set_bit e))).
      + for_entry_tac e.
        * cbn. now rewrite (alter_at _ _ _ _ He).
        * intros q Hne. cbn. rewrite lookup_insert_ne; congruence.
        * exists v. cbn. rewrite Ebuf, lookup_insert_eq. eauto.
      + reflexivity.
      + exact Hout.
      + unfold settled. rewrite Hheld. cbn. rewrite Ebuf, lookup_insert_eq. split; [reflexivity|]. split; [exact Hrb|]. split; [exact Hwb|]. split; [reflexivity|congruence].
      + left. eauto.
    - apply tsafe_bind, tsafe_assign. apply tsafe_assign. apply (Hdone e).
      + for_entry_tac e; [now rewrite list_insert_id|]. cbn. rewrite Ebuf. eauto.
      + reflexivity.
      + exact Hout.
      + unfold settled. now rewrite Hans.
      + now right. }
  destruct Hun as [Hun1 Hun2]. destruct r as [success i0 v n|success i0 v n| | | | | |]; cbn in Hfl; try tauto; destruct Hfl as [Ew Hans].
  - destruct (mark_read e) as (Hm1 & Hm2 & Hm3). apply Hhandle; [exact Hans|exact Hm1|now rewrite Ew|rewrite Ew; exact (eq_trans Hm3 Hun2)].
  - destruct (mark_write e) as (Hm1 & Hm2 & Hm3). apply Hhandle; [exact Hans|exact Hm1|rewrite Ew; exact (eq_trans Hm3 Hun1)|now rewrite Ew].
Qed.

Lemma reading_outbox n ws f t l : reading n ws t l -> reading n ws (on_outbox f t) l.
Proof. intros []. split; assumption. Qed.

(** Flushing the requests for rows of other hosts, and waiting. *)
Lemma sync_read_locks t l : flying 0 t l ->
  run (TwoPL.sync_messages tid size deserialize_value true) t l (fun _ t' l' => reads_net (abort_lock t) [] t' l').
Proof.
  intros HR. apply (sync_safe size deserialize_value rows init tid (reads_net (abort_lock t))).
  - intros. now apply reads_response.
  - intros. now apply reads_owner_step.
  - split; [now apply reading_outbox|]. split; [reflexivity|exact id].
  - intros t' l' _ (H & _). apply (rd_pending _ _ _ _ H).
Qed.

(** A loop over an empty set, when the execution was not stopped before. *)
Lemma skip_loop (stop : bool) set h t l (Q : bool -> ttxn -> know -> Prop) : Q stop t l -> run (if stop then mret true else TwoPL.process_set set h 0) t l Q.
Proof. destruct stop; apply tsafe_ret. Qed.

Lemma process_requests_ok t l : flying (length reads0) t l -> readSet t = reads0 -> outbox t = [] ->
  run (TwoPL.process_requests tid me master_coordinator replicated_on size deserialize_value key_at read_on_replica) t l (fun stop t' l' => reads_net false [] t' l' /\ stop = abort_lock t').
Proof.
  intros HR Hreads Hout. unfold TwoPL.process_requests.
  apply tsafe_bind, tsafe_local. rewrite Hreads. apply tsafe_bind. eapply tsafe_mono; [apply read_set_loop; [lia|exact HR|]|].
  { intros i Hi. rewrite Hreads, Hout. split; [reflexivity|]. cbn. apply not_elem_of_nil. }
  intros stop t1 l1 (HR1 & Hstop). destruct (rd_rest _ _ _ _ HR1) as (Hsc1 & Hins1 & Hdel1).
  apply tsafe_bind, tsafe_local. rewrite Hsc1. apply tsafe_bind, skip_loop.
  apply tsafe_bind, tsafe_local. rewrite Hins1. apply tsafe_bind, skip_loop.
  apply tsafe_bind, tsafe_local. rewrite Hdel1. apply tsafe_bind, skip_loop.
  apply tsafe_bind, tsafe_local. apply tsafe_bind.
  eapply tsafe_mono with (Q := fun _ t' l' => reads_net (abort_lock t1) [] t' l').
  - rewrite (rd_pending _ _ _ _ HR1). destruct (outbox t1) as [|m ms] eqn:Eo; [|now apply sync_read_locks].
    apply tsafe_ret. split; [|split; [exact Eo|exact id]]. unfold flying in HR1. now rewrite Eo in HR1.
  - intros ? t2 l2 (H1 & H2 & H4). apply tsafe_bind, tsafe_local, tsafe_ret. split; [split; [exact H1|split; [exact H2|easy]]|].
    destruct (rd_flags _ _ _ _ H1) as (F1 & F2 & F3). unfold TwoPLTransaction.should_abort. rewrite F1, F2, F3, !orb_false_r.
    destruct stop; [|reflexivity]. cbn. symmetry. auto.
Qed.
End reading.
