(* ===== verification/TwoPLCommit.v ===== *)
(** * Two-phase locking: preparing, writing and releasing

    The phases of commit and abort, after the requests of a transaction were
    served ([TwoPLTxn]). *)

From S2P Require Import Prelude LockWord RWLock TwoPLHelper Interleave SundialRow TwoPL TwoPLSpec TwoPLTxn.
Import TwoPLRWKey.

(** ** Giving locks back *)

(** Targets of the works of a list, one of which is done. *)
Lemma omap_done {A} (ps : list (option A)) i x : ps !! i = Some (Some x) ->
  omap id ps ≡ₚ x :: omap id (delete i ps) /\ omap id (<[i := None]> ps) = omap id (delete i ps).
Proof.
  intros E. split.
  - transitivity (omap id (Some x :: delete i ps)); [|reflexivity]. apply omap_Permutation. now apply delete_Permutation.
  - rewrite insert_take_drop by (eapply lookup_lt_Some; exact E). rewrite delete_take_drop, !omap_app. reflexivity.
Qed.

Lemma omap_some {A} (xs : list A) : omap id (Some <$> xs) = xs.
Proof. induction xs as [|x xs IH]; cbn; [reflexivity|]. now f_equal. Qed.

Definition locks_are (l : know) (kms : list (row_id * mode)) : Prop := NoDup kms.*1 /\ forall k m, (exists b, held l !! k = Some (m, b)) <-> (k, m) ∈ kms.
Definition no_locks (l : know) : know := Know ∅ (redone l) (committed l) (written l) (snap l).
Definition reoutbox (ms : list request) (t : ttxn) : ttxn := on_outbox (fun _ => ms) t.

Lemma locks_release l kms kms' k m : locks_are l kms -> kms ≡ₚ (k, m) :: kms' -> locks_are (unhold k l) kms'.
Proof.
  intros [Hnd Hl] Hp. rewrite Hp in Hnd. cbn in Hnd. apply NoDup_cons in Hnd as [Hn1 Hn2]. split; [exact Hn2|]. intros j m'. cbn. destruct (decide (j = k)) as [->|Hne].
  - rewrite lookup_delete_eq. split; [now intros []|]. intros Hin. exfalso. apply Hn1. apply list_elem_of_fmap. now exists (k, m').
  - rewrite lookup_delete_ne by congruence. rewrite Hl, Hp, elem_of_cons. split; [intros [[= ? ?]|?]; [congruence|assumption]|tauto].
Qed.

Definition same_but_locks (l0 l : know) : Prop := redone l = redone l0 /\ committed l = committed l0 /\ written l = written l0 /\ snap l = snap l0.

Lemma at_rest_still l0 l k : at_rest l0 k -> same_but_locks l0 l -> at_rest l k.
Proof. unfold at_rest. intros Hr (-> & -> & -> & _). exact Hr. Qed.

Section releasing.
Context (size : Z -> nat) (deserialize_value : Z -> bytes -> bytes -> bytes) (rows : gset row_id) (init : gmap row_id bytes) (tid : Z).
Context (me : Z) (master_coordinator : Z -> Z) (key_at : Z -> Z).
(** How a lock is given back here, and with a message to its owner. *)
Context (here : mode -> M TwoPLHelper.row unit) (message : mode -> row_id -> request) (reply : mode -> option work).
Context (Hhere : forall m, releases m (here m)).
Context (Hmessage : forall m k s, TwoPL.owner_step tid size deserialize_value (Received (message m k)) s = (checked_row k (here m);; mret (reply m)) s).

(** An answer that changes nothing. *)
Definition ignored (w : work) : Prop := exists r, w = Answered r /\ TwoPL.handle_response size r = mret tt.
Context (Hreply : forall m w, reply m = Some w -> ignored w).

Abbreviation run := (tsafe bounded (inv size rows init) (knows init) tid).
Abbreviation row_ := (row_ key_at).
Abbreviation near := (near me master_coordinator).

Definition give_back (e : tkey) : T unit :=
  when (rbit e) (TwoPL.release_entry me master_coordinator key_at e (here Rd) (message Rd));;
  when (wbit e) (TwoPL.release_entry me master_coordinator key_at e (here Wr) (message Wr)).

Definition locks (e : tkey) : list (row_id * mode) := (if rbit e then [(row_ e, Rd)] else []) ++ (if wbit e then [(row_ e, Wr)] else []).
Section from.
Context (t0 : ttxn) (l0 : know) (Hrest : forall k, at_rest l0 k).

(** One lock is given back. *)
Lemma give_back_row l kms kms' k m (c : bool) : same_but_locks l0 l -> locks_are l kms -> kms ≡ₚ (k, m) :: kms' ->
  step_ok bounded (inv size rows init) (knows init) tid l (if c then checked_row k (here m) else at_row k (here m)) (fun _ l' => same_but_locks l0 l' /\ locks_are l' kms').
Proof.
  intros Hs Hl Hp. destruct (proj2 (proj2 Hl k m)) as [b Hb]; [rewrite Hp; left|].
  eapply step_ok_mono; [|eapply (release_row_ok size rows init tid l k m b (here m) c Hb); [now eapply at_rest_still|apply Hhere]]. intros _ l' ->. split; [exact Hs|]. eapply locks_release; eassumption.
Qed.

(** [todo] are the locks still to be given back here or with a message. *)
Definition unlocking (todo : list (row_id * mode)) (t : ttxn) (l : know) : Prop :=
  exists sent, t = reoutbox ((fun km => message km.2 km.1) <$> sent) t0 /\ same_but_locks l0 l /\ locks_are l (sent ++ todo).

Lemma release_entry_ok e m kms t l : is_Some (get_key e) -> (near e = true -> get_cached_local_row e = Some (row_ e)) -> unlocking ((row_ e, m) :: kms) t l ->
  run (TwoPL.release_entry me master_coordinator key_at e (here m) (message m)) t l (fun _ t' l' => unlocking kms t' l').
Proof.
  intros [p Hp] Hcached (sent & -> & Hs & Hl). assert ((get_table_id e, get_partition_id e, key_at p) = row_ e) as Er by (unfold TwoPLTxn.row_; now rewrite Hp).
  unfold TwoPL.release_entry. fold (TwoPLTxn.near me master_coordinator e). destruct (near e).
  - specialize (Hcached eq_refl). unfold TwoPL.cached_row. apply tsafe_bind, tsafe_bind, tsafe_must; [rewrite Hcached; reflexivity|]. apply (tsafe_access _ _ _ _ _ (row_ e)); [exact Hcached|].
    apply tsafe_atomic. eapply step_ok_mono; [|eapply (give_back_row l _ (sent ++ kms) (row_ e) m false Hs Hl)].
    + intros _ l' [Hs' Hl']. exists sent. auto.
    + symmetry. apply Permutation_middle.
  - unfold TwoPL.row_of. apply tsafe_bind, tsafe_bind, (tsafe_access _ _ _ _ _ p); [exact Hp|]. apply tsafe_ret. rewrite Er. apply tsafe_assign.
    exists (sent ++ [(row_ e, m)]). split; [unfold reoutbox; rewrite fmap_app; reflexivity|]. split; [exact Hs|]. now rewrite <- app_assoc.
Qed.

Lemma give_back_ok e kms t l : is_Some (get_key e) -> (rbit e || wbit e = true -> near e = true -> get_cached_local_row e = Some (row_ e)) -> unlocking (locks e ++ kms) t l ->
  run (give_back e) t l (fun _ t' l' => unlocking kms t' l').
Proof.
  intros Hk Hc Hu. unfold give_back, locks in *. apply tsafe_bind. eapply tsafe_mono with (Q := fun _ t' l' => unlocking ((if wbit e then [(row_ e, Wr)] else []) ++ kms) t' l').
  - destruct (rbit e); cbn [when]; [apply release_entry_ok; [exact Hk|auto|exact Hu]|now apply tsafe_ret].
  - intros [] t1 l1 H1. destruct (wbit e); cbn [when]; [apply release_entry_ok; [exact Hk|apply Hc, orb_true_r|exact H1]|now apply tsafe_ret].
Qed.

(** The messages in the hands of the owners. *)
Definition pending (w : work) (p : option (row_id * mode)) : Prop := match p with Some (k, m) => w = Received (message m k) | None => ignored w end.
Definition unlock_net (ws : list work) (t : ttxn) (l : know) : Prop :=
  t = reoutbox [] t0 /\ same_but_locks l0 l /\ exists ps, Forall2 pending ws ps /\ locks_are l (omap id ps).

Lemma unlock_net_owner ws t l i w : unlock_net ws t l -> ws !! i = Some w -> answered w = false ->
  step_ok bounded (inv size rows init) (knows init) tid l (TwoPL.owner_step tid size deserialize_value w) (fun o l' => unlock_net (put_work i o ws) t l').
Proof.
  intros (Ht & Hs & ps & Hps & Hl) E Ha. destruct (Forall2_lookup_l _ _ _ _ _ Hps E) as (p & Ep & Hp). destruct p as [[k m]|]; [|destruct Hp as (r & -> & _); discriminate Ha].
  cbn in Hp. subst w. destruct (omap_done ps i (k, m) Ep) as [Hperm Hsame].
  intros h s Hb HI HK. destruct (give_back_row l _ _ k m true Hs Hl Hperm h s Hb HI HK) as (x & s' & l' & Em & H1 & H2 & H3 & Hs' & Hl').
  exists (reply m), s', l'. split; [rewrite Hmessage; cbv [mbind M_bind]; now rewrite Em|]. split; [exact H1|]. split; [exact H2|]. split; [exact H3|]. split; [exact Ht|]. split; [exact Hs'|].
  destruct (reply m) as [w|] eqn:Er; cbn [put_work].
  - exists (<[i := None]> ps). rewrite Hsame. split; [|exact Hl']. apply Forall2_insert; [exact Hps|]. now apply (Hreply m).
  - exists (delete i ps). split; [now apply Forall2_delete|exact Hl'].
Qed.

Lemma unlock_net_response ws t l i r : unlock_net ws t l -> ws !! i = Some (Answered r) ->
  run (TwoPL.handle_response size r) t l (fun _ t' l' => unlock_net (delete i ws) t' l').
Proof.
  intros (Ht & Hs & ps & Hps & Hl) E. destruct (Forall2_lookup_l _ _ _ _ _ Hps E) as (p & Ep & Hp).
  assert (forall k m, Answered r <> Received (message m k)) as Hne by discriminate. destruct p as [[k m]|]; [now destruct (Hne k m)|].
  destruct Hp as (r' & [= <-] & ->). apply tsafe_ret. split; [exact Ht|]. split; [exact Hs|]. exists (delete i ps). split; [now apply Forall2_delete|].
  assert (omap id ps ≡ₚ omap id (delete i ps)) as Hperm. { transitivity (omap id (None :: delete i ps)); [|reflexivity]. apply omap_Permutation. now apply delete_Permutation. }
  destruct Hl as [Hnd Hl]. split; [now rewrite <- Hperm|]. intros k m. now rewrite <- Hperm.
Qed.

Lemma unlocking_ends t l : unlocking [] t l ->
  run (TwoPL.sync_messages tid size deserialize_value false) t l (fun _ t' l' => t' = reoutbox [] t0 /\ l' = no_locks l0).
Proof.
  intros (sent & -> & Hs & Hl). rewrite app_nil_r in Hl. eapply tsafe_mono; [apply (sync_safe size deserialize_value rows init tid unlock_net)|].
  - exact unlock_net_response.
  - exact unlock_net_owner.
  - split; [reflexivity|]. split; [exact Hs|]. exists (Some <$> sent). split.
    + cbn [outbox reoutbox on_outbox]. apply Forall2_fmap, Forall2_fmap_l, Forall_Forall2_diag, Forall_forall. intros [k m] _. reflexivity.
    + rewrite omap_some. exact Hl.
  - intros t' l' [=].
  - intros [] t' l' (Ht & (E1 & E2 & E3 & E4) & ps & Hps & Hl'). split; [exact Ht|]. apply Forall2_nil_inv_l in Hps as ->. unfold no_locks. destruct l' as [hl rl cl wl sl]. cbn in E1, E2, E3, E4, Hl'. rewrite E1, E2, E3, E4. f_equal.
    apply map_eq. intros k. rewrite lookup_empty. destruct (hl !! k) as [[m b]|] eqn:Ek; [|reflexivity]. exfalso. eapply not_elem_of_nil, Hl'. eauto.
Qed.

Lemma give_all_back rs : t0 = reoutbox [] t0 -> (forall e, e ∈ rs -> is_Some (get_key e) /\ (rbit e || wbit e = true -> near e = true -> get_cached_local_row e = Some (row_ e))) ->
  locks_are l0 (concat (locks <$> rs)) -> run (for_all give_back rs) t0 l0 (fun _ t' l' => unlocking [] t' l').
Proof.
  intros Ht He Hl. eapply tsafe_mono; [apply (tsafe_for_all _ _ _ _ _ (fun es t' l' => unlocking (concat (locks <$> es)) t' l' /\ forall e, e ∈ es -> e ∈ rs))|].
  - intros e es t1 l1 [Hu Hsub]. destruct (He e) as [Hk Hc]; [apply Hsub; left|]. eapply tsafe_mono; [apply give_back_ok; [exact Hk|exact Hc|exact Hu]|].
    intros [] t2 l2 H2. split; [exact H2|]. intros e' He'. apply Hsub. now right.
  - split; [|auto]. exists []. split; [exact Ht|]. split; [repeat split|exact Hl].
  - now intros [] t1 l1 [Hu _].
Qed.
End from.
End releasing.

(** [abort] and [release_lock] do nothing else. *)
Section ending.
Context (size : Z -> nat) (deserialize_value : Z -> bytes -> bytes -> bytes) (rows : gset row_id) (init : gmap row_id bytes) (tid : Z).
Context (me : Z) (master_coordinator : Z -> Z) (key_at : Z -> Z).

Abbreviation run := (tsafe bounded (inv size rows init) (knows init) tid).

Definition abort_here (m : mode) : M TwoPLHelper.row unit := match m with Rd => TwoPLHelper.read_lock_release | Wr => TwoPLHelper.write_lock_release end.
Definition abort_message (m : mode) (k : row_id) : request := AbortRequest k (match m with Rd => false | Wr => true end).
Definition release_here (c : Z) (m : mode) : M TwoPLHelper.row unit := match m with Rd => TwoPLHelper.read_lock_release | Wr => TwoPLHelper.write_lock_release_new c end.
Definition release_message (c : Z) (m : mode) (k : row_id) : request := match m with Rd => ReleaseReadLockRequest k | Wr => ReleaseWriteLockRequest k c end.
Definition release_reply (m : mode) : option work := Some (Answered (match m with Rd => ReleaseReadLockResponse | Wr => ReleaseWriteLockResponse end)).

(** What both need: the marks of the entries are the locks that are held. *)
Definition may_release (t : ttxn) (l : know) : Prop :=
  scanSet t = [] /\ insertSet t = [] /\ outbox t = [] /\ (forall k, at_rest l k) /\
  (forall e, e ∈ readSet t -> is_Some (get_key e) /\ (rbit e || wbit e = true -> near me master_coordinator e = true -> get_cached_local_row e = Some (row_ key_at e))) /\
  locks_are l (concat (locks key_at <$> readSet t)).

Lemma reoutbox_id t : outbox t = [] -> reoutbox [] t = t.
Proof. destruct t. cbn. now intros ->. Qed.

Lemma abort_gives_back t l : may_release t l ->
  run (TwoPL.abort tid me master_coordinator size deserialize_value key_at) t l (fun _ t' l' => t' = t /\ l' = no_locks l).
Proof.
  intros (Hsc & Hins & Hout & Hrest & He & Hl). unfold TwoPL.abort. apply tsafe_bind, tsafe_local. rewrite Hins. apply tsafe_bind, tsafe_ret. apply tsafe_bind, tsafe_local. apply tsafe_bind.
  assert (forall m, releases m (abort_here m)) as Hh by (intros []; [apply read_release|apply write_release]).
  change (TwoPL.abort_read me master_coordinator key_at) with (give_back me master_coordinator key_at abort_here abort_message).
  eapply tsafe_mono; [apply (give_all_back size rows init tid me master_coordinator key_at abort_here abort_message Hh t l Hrest); [now rewrite reoutbox_id|exact He|exact Hl]|].
  intros [] t1 l1 Hu. apply tsafe_bind, tsafe_local. replace (scanSet t1) with (@nil tkey) by (destruct Hu as (sent & -> & _); exact (eq_sym Hsc)). apply tsafe_bind, tsafe_ret.
  eapply tsafe_mono; [eapply unlocking_ends with (here := abort_here) (message := abort_message) (reply := fun _ => None) (t0 := t) (l0 := l)|].
  - exact Hh.
  - now intros [] k s.
  - discriminate.
  - exact Hrest.
  - exact Hu.
  - intros [] t' l' (-> & ->). now rewrite reoutbox_id.
Qed.

Lemma release_lock_releases c t l : fits 54 c -> may_release t l ->
  run (TwoPL.release_lock tid me master_coordinator size deserialize_value key_at c) t l (fun _ t' l' => t' = t /\ l' = no_locks l).
Proof.
  intros Hfit (Hsc & Hins & Hout & Hrest & He & Hl). unfold TwoPL.release_lock. apply tsafe_bind, tsafe_local. apply tsafe_bind.
  assert (forall m, releases m (release_here c m)) as Hh by (intros []; [apply read_release|now apply write_release_new]).
  change (TwoPL.release_read me master_coordinator key_at c) with (give_back me master_coordinator key_at (release_here c) (release_message c)).
  eapply tsafe_mono; [apply (give_all_back size rows init tid me master_coordinator key_at (release_here c) (release_message c) Hh t l Hrest); [now rewrite reoutbox_id|exact He|exact Hl]|].
  intros [] t1 l1 Hu. apply tsafe_bind, tsafe_local. replace (insertSet t1) with (@nil tkey) by (destruct Hu as (sent & -> & _); exact (eq_sym Hins)). apply tsafe_bind, tsafe_ret.
  apply tsafe_bind, tsafe_local. replace (scanSet t1) with (@nil tkey) by (destruct Hu as (sent & -> & _); exact (eq_sym Hsc)). apply tsafe_bind, tsafe_ret.
  eapply tsafe_mono; [eapply unlocking_ends with (here := release_here c) (message := release_message c) (reply := release_reply) (t0 := t) (l0 := l)|].
  - exact Hh.
  - intros [] k s; cbn [TwoPL.owner_step release_message release_here release_reply]; unfold TwoPL.release_read_lock_request_handler, TwoPL.release_write_lock_request_handler; cbv [mbind M_bind mret M_ret]; now destruct (checked_row _ _ s).
  - intros [] w [= <-]; eexists; (split; [reflexivity|reflexivity]).
  - exact Hrest.
  - exact Hu.
  - intros [] t' l' (-> & ->). now rewrite reoutbox_id.
Qed.
End ending.

(** ** Preparing: the redo records *)

Section preparing.
Context (size : Z -> nat) (deserialize_value : Z -> bytes -> bytes -> bytes) (rows : gset row_id) (init : gmap row_id bytes) (tid : Z).
Context (me : Z) (master_coordinator : Z -> Z) (coordinators : list Z) (key_at : Z -> Z).
Context (t0 : ttxn) (l0 : know).
Context (Hnet : outbox t0 = [] /\ pendingResponses t0 = 0) (Hrest : insertSet t0 = [] /\ deleteSet t0 = []).
Context (Hknow : redone l0 = [] /\ committed l0 = false /\ written l0 = ∅).
Context (Hwrites : forall e, e ∈ writeSet t0 -> is_Some (get_key e) /\ is_Some (get_value e) /\ is_Some (mem t0 !! buf e)).
Context (Hhosts : forall e, e ∈ writeSet t0 -> TwoPL.owner_of master_coordinator e ∈ coordinators).

Abbreviation run := (tsafe bounded (inv size rows init) (knows init) tid).
Abbreviation row_ := (row_ key_at).

(** The row and the value of a write. *)
Definition new_of (m : gmap Z bytes) (e : tkey) : bytes := default [] (m !! buf e).
Definition item (m : gmap Z bytes) (e : tkey) : row_id * bytes := (row_ e, new_of m e).
Definition with_net (n : nat) (out : list request) (t : ttxn) : ttxn := on_pending (fun _ => Z.of_nat n) (on_outbox (fun _ => out) t).
Definition with_redo (redo : list (row_id * bytes)) : know := Know (held l0) redo (committed l0) (written l0) (snap l0).

Lemma with_net_id t : outbox t = [] -> pendingResponses t = 0 -> with_net 0 [] t = t.
Proof. destruct t. cbn. now intros -> ->. Qed.
Lemma with_redo_id : with_redo [] = l0.
Proof. unfold with_redo. destruct Hknow as (E & _). destruct l0. cbn in *. now rewrite E. Qed.

Lemma row_of_ok e t l (Q : row_id -> ttxn -> know -> Prop) : is_Some (get_key e) -> Q (row_ e) t l -> run (TwoPL.row_of key_at e) t l Q.
Proof.
  intros [p Hp] HQ. unfold TwoPL.row_of. apply tsafe_bind, (tsafe_access _ _ _ _ _ p); [exact Hp|]. apply tsafe_ret. unfold TwoPLTxn.row_ in HQ. now rewrite Hp in HQ.
Qed.
Lemma buffer_of_ok e t l (Q : bytes -> ttxn -> know -> Prop) : is_Some (get_value e) -> is_Some (mem t !! buf e) -> Q (new_of (mem t) e) t l -> run (TwoPL.buffer_of e) t l Q.
Proof.
  intros [v Hv] [b Hb] HQ. unfold TwoPL.buffer_of, new_of, buf in *. rewrite Hv in Hb, HQ. cbn in Hb, HQ. apply tsafe_bind, (tsafe_access _ _ _ _ _ v); [exact Hv|]. apply (tsafe_access _ _ _ _ _ b); [exact Hb|]. now rewrite Hb in HQ.
Qed.

(** Records for some of the writes. *)
Lemma redo_ok n out es redo : (forall e, e ∈ es -> e ∈ writeSet t0) ->
  run (for_all (TwoPL.redo tid key_at LogWrite) es) (with_net n out t0) (with_redo redo)
    (fun _ t' l' => t' = with_net n out t0 /\ exists redo', l' = with_redo redo' /\ forall x, x ∈ redo' <-> x ∈ redo \/ x ∈ item (mem t0) <$> es).
Proof.
  revert redo. induction es as [|e es IH]; intros redo Hsub; cbn [for_all].
  - apply tsafe_ret. split; [reflexivity|]. exists redo. split; [reflexivity|]. cbn. intros x. rewrite elem_of_nil. tauto.
  - destruct (Hwrites e (Hsub e ltac:(left))) as (Hk & Hv & Hm). destruct Hknow as (_ & Hc & Hw). unfold TwoPL.redo at 1. apply tsafe_bind. apply tsafe_bind, row_of_ok; [exact Hk|]. apply tsafe_bind, buffer_of_ok; [exact Hv|exact Hm|].
    apply tsafe_atomic. eapply step_ok_mono; [|apply (log_record_ok size rows init); [reflexivity|left; split; [exact Hc|exact Hw]]]. intros [] l' ->.
    change (logged _ (with_redo redo)) with (with_redo (item (mem t0) e :: redo)). eapply tsafe_mono; [apply IH; intros e' He'; apply Hsub; now right|].
    intros [] t' l' (-> & redo' & -> & Hx). split; [reflexivity|]. exists redo'. split; [reflexivity|]. intros x. rewrite Hx. cbn. rewrite !elem_of_cons. tauto.
Qed.

Lemma redo_items_are n out es l : (forall e, e ∈ es -> e ∈ writeSet t0) ->
  run (TwoPL.redo_items key_at es) (with_net n out t0) l (fun r t' l' => r = item (mem t0) <$> es /\ t' = with_net n out t0 /\ l' = l).
Proof.
  induction es as [|e es IH]; intros Hsub; cbn [TwoPL.redo_items]; [now apply tsafe_ret|]. destruct (Hwrites e (Hsub e ltac:(left))) as (Hk & Hv & Hm).
  apply tsafe_bind, row_of_ok; [exact Hk|]. apply tsafe_bind, buffer_of_ok; [exact Hv|exact Hm|]. apply tsafe_bind. eapply tsafe_mono; [apply IH; intros e' He'; apply Hsub; now right|].
  intros r t' l' (-> & -> & ->). now apply tsafe_ret.
Qed.

(** What a work will log. *)
Definition to_log (w : work) : list (row_id * bytes) := match w with Received (PrepareRedoRequest items) => items | _ => [] end.
Definition prepares (w : work) : Prop := match w with Received (PrepareRedoRequest _) | Answered (PrepareRedoResponse _) => True | _ => False end.

(** [hosts] have not been asked yet; [ws] is on its way. *)
Definition preparing (hosts : list Z) (ws : list work) (out : list request) (t : ttxn) (l : know) : Prop :=
  t = with_net (length ws) out t0 /\ Forall prepares ws /\ exists redo, l = with_redo redo /\
  (forall x, x ∈ redo ++ concat (to_log <$> ws) -> x ∈ item (mem t0) <$> writeSet t0) /\
  (forall e, e ∈ writeSet t0 -> item (mem t0) e ∈ redo ++ concat (to_log <$> ws) \/ TwoPL.owner_of master_coordinator e ∈ hosts).

Lemma redo_at_ok host hosts t l : preparing (host :: hosts) (Received <$> outbox t) (outbox t) t l ->
  run (TwoPL.redo_at tid me master_coordinator key_at host) t l (fun _ t' l' => preparing hosts (Received <$> outbox t') (outbox t') t' l').
Proof.
  intros (Et & Hws & redo & -> & Hsub & Hcov). set (out := outbox t) in *. clearbody out. subst t. unfold TwoPL.redo_at. apply tsafe_bind, tsafe_local. cbn [writeSet with_net on_pending on_outbox].
  set (es := filter _ (writeSet t0)). assert (forall e, e ∈ es <-> TwoPL.owner_of master_coordinator e = host /\ e ∈ writeSet t0) as Hes by (intros e; unfold es; now rewrite list_elem_of_filter).
  assert (forall e, e ∈ es -> e ∈ writeSet t0) as Hin by (intros e He; now apply Hes).
  assert (forall redo' out', (forall x, x ∈ redo' ++ concat (to_log <$> (Received <$> out')) <-> x ∈ redo ++ concat (to_log <$> (Received <$> out)) \/ x ∈ item (mem t0) <$> es) -> Forall prepares (Received <$> out') ->
    preparing hosts (Received <$> out') out' (with_net (length (Received <$> out')) out' t0) (with_redo redo')) as Hdone.
  { intros redo' out' Hx Hp. split; [reflexivity|]. split; [exact Hp|]. exists redo'. split; [reflexivity|]. split.
    - intros x [H|H]%Hx; [now apply Hsub|]. apply list_elem_of_fmap in H as (e & -> & He). apply list_elem_of_fmap_2. now apply Hin.
    - intros e He. destruct (Hcov e He) as [H|[E|H]%elem_of_cons]; [left; apply Hx; now left| |now right]. left. apply Hx. right. apply list_elem_of_fmap_2. now apply Hes. }
  assert (run (if host =? me then for_all (TwoPL.redo tid key_at LogWrite) es else (items ← TwoPL.redo_items key_at es; assign (ask (PrepareRedoRequest items)))) (with_net (length (Received <$> out)) out t0) (with_redo redo)
    (fun _ t' l' => preparing hosts (Received <$> outbox t') (outbox t') t' l')) as Hgo.
  { destruct (host =? me).
    - eapply tsafe_mono; [now apply redo_ok|]. intros [] t' l' (-> & redo' & -> & Hx). apply Hdone; [|exact Hws]. intros x. rewrite !elem_of_app, Hx. tauto.
    - apply tsafe_bind. eapply tsafe_mono; [now apply redo_items_are|]. intros r t' l' (-> & -> & ->). apply tsafe_assign.
      replace (ask (PrepareRedoRequest (item (mem t0) <$> es)) (with_net (length (Received <$> out)) out t0)) with (with_net (length (Received <$> out ++ [PrepareRedoRequest (item (mem t0) <$> es)])) (out ++ [PrepareRedoRequest (item (mem t0) <$> es)]) t0).
      2: { unfold with_net, ask, send, on_pending, on_outbox. cbn. f_equal. rewrite !length_fmap, length_app. cbn. lia. }
      apply Hdone.
      + intros x. rewrite !fmap_app, concat_app. cbn. rewrite app_nil_r, !elem_of_app. tauto.
      + rewrite fmap_app. apply Forall_app. split; [exact Hws|]. now repeat constructor. }
  destruct es as [|e1 es1]; [|exact Hgo]. apply tsafe_ret. apply Hdone; [|exact Hws]. intros x. cbn. rewrite elem_of_nil. tauto.
Qed.

Definition prepare_net (ws : list work) (t : ttxn) (l : know) : Prop := preparing [] ws [] t l.

Lemma prepare_owner ws t l i w : prepare_net ws t l -> ws !! i = Some w -> answered w = false ->
  step_ok bounded (inv size rows init) (knows init) tid l (TwoPL.owner_step tid size deserialize_value w) (fun o l' => prepare_net (put_work i o ws) t l').
Proof.
  intros (Et & Hws & redo & -> & Hsub & Hcov) E Ha. pose proof (Forall_lookup_1 _ _ _ _ Hws E) as Hw. destruct w as [[| | | |items| | | |]| | | | |]; try easy.
  destruct Hknow as (_ & Hc & Hwr). cbn [TwoPL.owner_step]. apply (op_then _ _ _ _ _ _ _ Some); [reflexivity|]. unfold TwoPL.prepare_and_redo_request_handler. apply (op_then _ _ _ _ _ _ _ (fun _ => Answered (PrepareRedoResponse true))); [reflexivity|].
  eapply step_ok_mono; [|apply (log_record_ok size rows init); [reflexivity|left; split; [exact Hc|exact Hwr]]]. intros [] l' ->. cbn [put_work].
  change (logged _ (with_redo redo)) with (with_redo (items ++ redo)). split; [now rewrite length_insert|]. split; [now apply Forall_insert|]. exists (items ++ redo). split; [reflexivity|].
  assert (forall x, x ∈ (items ++ redo) ++ concat (to_log <$> <[i := Answered (PrepareRedoResponse true)]> ws) <-> x ∈ redo ++ concat (to_log <$> ws)) as Hx.
  { assert (<[i := Answered (PrepareRedoResponse true)]> ws ≡ₚ Answered (PrepareRedoResponse true) :: delete i ws) as Hp1.
    { rewrite insert_take_drop by (eapply lookup_lt_Some; exact E). rewrite delete_take_drop. symmetry. apply Permutation_middle. }
    intros x. rewrite Hp1. rewrite (delete_Permutation _ _ _ E) at 2. cbn. rewrite !elem_of_app. tauto. }
  split; [intros x; rewrite Hx; apply Hsub|]. intros e He. rewrite Hx. now apply Hcov.
Qed.

Lemma prepare_response ws t l i r : prepare_net ws t l -> ws !! i = Some (Answered r) -> run (TwoPL.handle_response size r) t l (fun _ t' l' => prepare_net (delete i ws) t' l').
Proof.
  intros (Et & Hws & redo & -> & Hsub & Hcov) E. pose proof (Forall_lookup_1 _ _ _ _ Hws E) as Hw. destruct r; try easy. cbn [TwoPL.handle_response]. unfold TwoPL.prepare_and_redo_response_handler.
  apply tsafe_assign. pose proof (delete_Permutation _ _ _ E) as Hp. split; [|split; [now apply Forall_delete|exists redo; split; [reflexivity|]]].
  - rewrite Et. unfold with_net, on_pending. cbn. f_equal. apply Permutation_length in Hp. cbn in Hp. lia.
  - assert (forall x, x ∈ redo ++ concat (to_log <$> delete i ws) <-> x ∈ redo ++ concat (to_log <$> ws)) as Hx by (intros x; rewrite Hp at 2; reflexivity).
    split; [intros x; rewrite Hx; apply Hsub|]. intros e He. rewrite Hx. now apply Hcov.
Qed.

(** [prepare_and_redo_for_commit]: every write has its redo record. *)
Lemma prepare_ok : run (TwoPL.prepare_and_redo_for_commit tid me master_coordinator coordinators size deserialize_value key_at) t0 l0
  (fun _ t' l' => t' = t0 /\ exists redo, l' = with_redo redo /\ forall x, x ∈ redo <-> x ∈ item (mem t0) <$> writeSet t0).
Proof.
  destruct Hnet as [Ho Hp], Hrest as [Hi Hd]. unfold TwoPL.prepare_and_redo_for_commit. apply tsafe_bind, tsafe_local. apply tsafe_bind.
  eapply tsafe_mono with (Q := fun _ t' l' => t' = t0 /\ exists redo, l' = with_redo redo /\ forall x, x ∈ redo <-> x ∈ item (mem t0) <$> writeSet t0).
  - pose proof (with_net_id t0 Ho Hp) as Eid. destruct (single_partition t0).
    + apply tsafe_bind, tsafe_local. pose proof (redo_ok 0 [] (writeSet t0) [] (fun e He => He)) as H. rewrite Eid, with_redo_id in H. eapply tsafe_mono; [exact H|].
      intros [] t' l' (-> & redo & -> & Hx). split; [reflexivity|]. exists redo. split; [reflexivity|]. intros x. rewrite Hx, elem_of_nil. tauto.
    + apply tsafe_bind. eapply tsafe_mono; [apply (tsafe_for_all _ _ _ _ _ (fun hosts t' l' => preparing hosts (Received <$> outbox t') (outbox t') t' l'))|].
      * intros host hosts t' l' HP. now apply redo_at_ok.
      * rewrite Ho. split; [exact (eq_sym Eid)|]. split; [constructor|]. exists []. split; [symmetry; apply with_redo_id|]. split; [intros x Hx; now apply elem_of_nil in Hx|]. intros e He. right. now apply Hhosts.
      * intros [] t1 l1 HP. eapply tsafe_mono; [apply (sync_safe size deserialize_value rows init tid prepare_net)|].
        -- intros. now apply prepare_response.
        -- intros. now apply prepare_owner.
        -- destruct HP as (Et & HP). split; [|exact HP]. rewrite Et at 1. reflexivity.
        -- now intros t' l' _ (-> & _).
        -- intros [] t' l' (-> & _ & redo & -> & Hsub & Hcov). split; [exact Eid|]. exists redo. split; [reflexivity|]. cbn in Hsub, Hcov. rewrite app_nil_r in *. intros x. split; [apply Hsub|].
           intros Hx. apply list_elem_of_fmap in Hx as (e & -> & He). destruct (Hcov e He) as [?|H]; [assumption|now apply elem_of_nil in H].
  - intros [] t1 l1 (-> & Hl). apply tsafe_bind, tsafe_local. rewrite Hi. apply tsafe_bind, tsafe_ret. apply tsafe_bind, tsafe_local. rewrite Hd. now apply tsafe_ret.
Qed.
End preparing.

(** ** Installing the writes *)

Lemma insert_middle {A} (l : list A) i x y : l !! i = Some y -> <[i := x]> l ≡ₚ x :: delete i l.
Proof. intros E. rewrite insert_take_drop by (eapply lookup_lt_Some; exact E). rewrite delete_take_drop. symmetry. apply Permutation_middle. Qed.

Section writing.
Context (size : Z -> nat) (serialize_value : Z -> bytes -> bytes) (deserialize_value : Z -> bytes -> bytes -> bytes) (rows : gset row_id) (init : gmap row_id bytes) (tid : Z).
Context (me : Z) (master_coordinator : Z -> Z) (replicated_on : Z -> Z -> bool) (coordinators : list Z) (key_at : Z -> Z) (has_logger : bool) (commit_tid : Z).
(** What was serialized is read back over any value of the table, and rows have no replicas. *)
Context (Hserialize : forall t d v, length d = size t -> length v = size t -> deserialize_value t d (serialize_value t v) = v).
Context (Hreplicas : forall p h, replicated_on p h = true -> h = master_coordinator p).
Context (t0 : ttxn) (l0 : know).
Context (Hnet : outbox t0 = [] /\ pendingResponses t0 = 0) (Hscan : scanSet t0 = []).

Abbreviation run := (tsafe bounded (inv size rows init) (knows init) tid).
Abbreviation row_ := (row_ key_at).

(** The row is locked for writing, and its new value has been logged and committed. *)
Definition may_write (k : row_id) (v : bytes) : Prop :=
  committed l0 = true /\ (exists b, held l0 !! k = Some (Wr, b)) /\ as_map (redone l0) !! k = Some v /\ length v = size k.1.1.
Context (Hwrites : forall e, e ∈ writeSet t0 -> is_Some (get_key e) /\ is_Some (get_value e) /\ is_Some (mem t0 !! buf e) /\ may_write (row_ e) (new_of (mem t0) e)).

Definition with_written (W : gset row_id) : know := Know (held l0) (redone l0) (committed l0) W (snap l0).

Definition target (w : work) : option row_id := match w with Received (WriteRequest k _ _ _) => Some k | _ => None end.
Definition writes (w : work) : Prop :=
  match w with
  | Received (WriteRequest k v _ _) => exists n, v = serialize_value k.1.1 n /\ may_write k n
  | Written _ | Answered WriteResponse => True
  | _ => False
  end.

Definition writing (todo : list tkey) (ws : list work) (out : list request) (t : ttxn) (l : know) : Prop :=
  t = with_net (length ws) out t0 /\ Forall writes ws /\ exists W, l = with_written W /\
  forall e, e ∈ writeSet t0 -> row_ e ∈ W \/ row_ e ∈ omap target ws \/ e ∈ todo.

Lemma write_entry_writes e later todo t l : e ∈ writeSet t0 -> writing (e :: todo) (Received <$> outbox t) (outbox t) t l ->
  run (TwoPL.write_entry me master_coordinator serialize_value key_at has_logger commit_tid e later) t l (fun _ t' l' => writing todo (Received <$> outbox t') (outbox t') t' l').
Proof.
  intros He (Et & Hws & W & -> & Hcov). set (out := outbox t) in *. clearbody out. subst t. destruct (Hwrites e He) as (Hk & Hv & Hm & Hmay). pose proof Hmay as (Hc & (b & Hb) & Hr & Hlen).
  unfold TwoPL.write_entry. apply tsafe_bind, row_of_ok; [exact Hk|]. apply tsafe_bind, buffer_of_ok; [exact Hv|exact Hm|]. destruct (TwoPL.has_master_partition _ _ _).
  - apply tsafe_atomic. eapply step_ok_mono; [|apply (write_row_ok size rows init tid (with_written W) (row_ e) b (new_of (mem t0) e) (fun _ => new_of (mem t0) e) true Hb Hc Hr Hlen); reflexivity].
    intros [] l' ->. split; [reflexivity|]. split; [exact Hws|]. exists ({[row_ e]} ∪ W). split; [reflexivity|]. intros e' He'. destruct (Hcov e' He') as [?|[?|[->|?]%elem_of_cons]]; [set_solver|now right; left|set_solver|now right; right].
  - apply tsafe_assign. set (m := WriteRequest _ _ _ _). change (outbox (ask m (with_net (length (Received <$> out)) out t0))) with (out ++ [m]). split.
    + unfold with_net, ask, send, on_pending, on_outbox. cbn. f_equal. rewrite !length_fmap, length_app. cbn. lia.
    + rewrite fmap_app. split; [apply Forall_app; split; [exact Hws|]; constructor; [|constructor]; now exists (new_of (mem t0) e)|]. exists W. split; [reflexivity|].
      intros e' He'. rewrite omap_app, elem_of_app. destruct (Hcov e' He') as [?|[?|[->|?]%elem_of_cons]]; [now left|tauto|right; left; right; left|tauto].
Qed.

Lemma replicates_nowhere e later hosts t l (Q : unit -> ttxn -> know -> Prop) : Q tt t l ->
  run (for_all (TwoPL.replicate_to me master_coordinator replicated_on serialize_value key_at has_logger commit_tid e later) hosts) t l Q.
Proof.
  intros HQ. induction hosts as [|h hosts IH]; cbn [for_all]; [now apply tsafe_ret|]. apply tsafe_bind. unfold TwoPL.replicate_to at 1.
  destruct (replicated_on (get_partition_id e) h) eqn:E; cbn [negb orb]; [|apply tsafe_ret, IH].
  rewrite (Hreplicas _ _ E). unfold TwoPL.owner_of. rewrite Z.eqb_refl. apply tsafe_ret, IH.
Qed.

Lemma write_set_written es t l : (forall e, e ∈ es -> e ∈ writeSet t0) -> writing es (Received <$> outbox t) (outbox t) t l ->
  run (TwoPL.write_entries me master_coordinator replicated_on coordinators serialize_value key_at has_logger commit_tid es) t l (fun _ t' l' => writing [] (Received <$> outbox t') (outbox t') t' l').
Proof.
  revert t l. induction es as [|e es IH]; intros t l Hsub HW; cbn [TwoPL.write_entries]; [now apply tsafe_ret|]. apply tsafe_bind.
  eapply tsafe_mono; [apply write_entry_writes; [apply Hsub; left|exact HW]|]. intros [] t1 l1 HW1. apply tsafe_bind, replicates_nowhere. apply IH; [|exact HW1]. intros e' He'. apply Hsub. now right.
Qed.

Definition write_net (ws : list work) (t : ttxn) (l : know) : Prop := writing [] ws [] t l.

Lemma write_net_owner ws t l i w : write_net ws t l -> ws !! i = Some w -> answered w = false ->
  step_ok bounded (inv size rows init) (knows init) tid l (TwoPL.owner_step tid size deserialize_value w) (fun o l' => write_net (put_work i o ws) t l').
Proof.
  intros (Et & Hws & W & -> & Hcov) E Ha. pose proof (Forall_lookup_1 _ _ _ _ Hws E) as Hw. pose proof (delete_Permutation _ _ _ E) as Hp.
  assert (forall w' W', writes w' -> target w' = None -> (forall k, k ∈ W -> k ∈ W') -> (forall k, target w = Some k -> k ∈ W') -> write_net (<[i := w']> ws) t (with_written W')) as Hdone.
  { intros w' W' Hw' Ht' HW' Hk. split; [now rewrite length_insert|]. split; [now apply Forall_insert|]. exists W'. split; [reflexivity|]. intros e He.
    destruct (Hcov e He) as [?|[Hin|?]]; [left; auto| |now right; right]. rewrite Hp in Hin. rewrite (insert_middle ws i w' w E). cbn in *. rewrite Ht'. destruct (target w) as [k|]; [|now right; left].
    apply elem_of_cons in Hin as [->|Hin]; [left; auto|now right; left]. }
  destruct w as [[| | | | |k v c p| | |]| |c| | |]; try easy; cbn [TwoPL.owner_step].
  - destruct Hw as (n & -> & Hc & (b & Hb) & Hr & Hlen). apply (op_then _ _ _ _ _ _ _ Some); [reflexivity|]. unfold TwoPL.write_request_handler. apply (op_then _ _ _ _ _ _ _ (fun _ => if p then Written c else Answered WriteResponse)); [reflexivity|].
    eapply step_ok_mono; [|apply (write_row_ok size rows init tid (with_written W) k b n (fun d => deserialize_value k.1.1 d (serialize_value k.1.1 n)) true Hb Hc Hr Hlen); intros d Hd; now apply Hserialize].
    intros [] l' ->. cbn [put_work]. apply (Hdone _ ({[k]} ∪ W)); [now destruct p|now destruct p|set_solver|]. intros k' [= <-]. set_solver.
  - apply (op_then _ _ _ _ _ _ _ (fun _ => Some (Answered WriteResponse))); [reflexivity|]. eapply step_ok_mono; [|apply (log_record_ok size rows init); [reflexivity|right; reflexivity]].
    intros [] l' ->. cbn [put_work]. change (logged _ (with_written W)) with (with_written W). now apply Hdone.
Qed.

Lemma write_net_response ws t l i r : write_net ws t l -> ws !! i = Some (Answered r) -> run (TwoPL.handle_response size r) t l (fun _ t' l' => write_net (delete i ws) t' l').
Proof.
  intros (Et & Hws & W & -> & Hcov) E. pose proof (Forall_lookup_1 _ _ _ _ Hws E) as Hw. destruct r; try easy. cbn [TwoPL.handle_response]. unfold TwoPL.write_response_handler.
  apply tsafe_assign. pose proof (delete_Permutation _ _ _ E) as Hp. split; [|split; [now apply Forall_delete|exists W; split; [reflexivity|]]].
  - rewrite Et. unfold with_net, on_pending. cbn. f_equal. apply Permutation_length in Hp. cbn in Hp. lia.
  - intros e He. destruct (Hcov e He) as [?|[Hin|?]]; [now left| |now right; right]. rewrite Hp in Hin. cbn in Hin. now right; left.
Qed.

(** [write_and_replicate]: every row has its new value. *)
Lemma write_and_replicate_ok : written l0 = ∅ ->
  run (TwoPL.write_and_replicate tid me master_coordinator replicated_on coordinators size serialize_value deserialize_value key_at has_logger commit_tid) t0 l0
    (fun _ t' l' => t' = t0 /\ exists W, l' = with_written W /\ forall e, e ∈ writeSet t0 -> row_ e ∈ W).
Proof.
  intros Hw. destruct Hnet as [Ho Hp]. unfold TwoPL.write_and_replicate. apply tsafe_bind, tsafe_local. apply tsafe_bind. pose proof (with_net_id t0 Ho Hp) as Eid.
  eapply tsafe_mono; [apply (write_set_written (writeSet t0) t0 l0 (fun e He => He))|].
  - rewrite Ho. split; [exact (eq_sym Eid)|]. split; [constructor|]. exists ∅. split; [|auto]. unfold with_written. rewrite <- Hw. now destruct l0.
  - intros [] t1 l1 HW. apply tsafe_bind, tsafe_local. replace (scanSet t1) with (@nil tkey) by (destruct HW as (-> & _); exact (eq_sym Hscan)). apply tsafe_bind, tsafe_ret.
    eapply tsafe_mono; [apply (sync_safe size deserialize_value rows init tid write_net)|].
    + intros. now apply write_net_response.
    + intros. now apply write_net_owner.
    + destruct HW as (Et & HW). split; [|exact HW]. rewrite Et at 1. reflexivity.
    + now intros t' l' _ (-> & _).
    + intros [] t' l' (-> & _ & W & -> & Hcov). split; [exact Eid|]. exists W. split; [reflexivity|]. intros e He. destruct (Hcov e He) as [?|[H|H]]; [assumption|now apply elem_of_nil in H..].
Qed.
End writing.
