(* ===== verification/TwoPLSerial.v ===== *)
(** * Two-phase locking: transactions are serializable in the order of the log

    A whole transaction ([txn_ok]), and any number of them, interleaved in any way
    ([twopl_serializable]). *)

From S2P Require Import Prelude LockWord RWLock TwoPLHelper Interleave SundialRow TwoPL TwoPLSpec TwoPLTxn TwoPLCommit.
Import TwoPLRWKey.

#[local] Existing Instance twopl_layout.

Section transaction.
Context (size : Z -> nat) (serialize_value : Z -> bytes -> bytes) (deserialize_value : Z -> bytes -> bytes -> bytes) (rows : gset row_id) (init : gmap row_id bytes) (tid : Z).
Context (me : Z) (master_coordinator : Z -> Z) (replicated_on : Z -> Z -> bool) (coordinators : list Z).
Context (key_at : Z -> Z) (read_on_replica : bool) (compute : gmap Z bytes -> gmap Z bytes).
Context (reads0 writes0 : list tkey) (mem0 : gmap Z bytes) (max0 : Z).
Context (Hserialize : forall t d v, length d = size t -> length v = size t -> deserialize_value t d (serialize_value t v) = v).
Context (Hreplicas : forall p h, replicated_on p h = true -> h = master_coordinator p).
Context (Hq : requests rows key_at reads0).

Abbreviation run := (tsafe bounded (inv size rows init) (knows init) tid).
Abbreviation row_ := (row_ key_at).
Abbreviation near := (near me master_coordinator).
Abbreviation reads_net := (reads_net size init me master_coordinator key_at reads0 writes0 mem0 max0).

(** A row that is written was locked for writing; no row is written twice. *)
Record updates : Prop := Updates {
  u_entry : forall e, e ∈ writes0 -> is_Some (get_key e) /\ is_Some (get_value e) /\ exists e0, e0 ∈ reads0 /\ wr e0 = true /\ row_ e = row_ e0;
  u_distinct : NoDup (row_ <$> writes0);
  u_hosts : forall e, e ∈ writes0 -> TwoPL.owner_of master_coordinator e ∈ coordinators
}.
Context (Hu : updates).

(** The buffers have the size of the rows, before and after the computation. *)
Definition sized (m : gmap Z bytes) (e : tkey) : Prop := exists b, m !! buf e = Some b /\ length b = size (get_table_id e).
Context (Hcompute : forall m, (forall e, e ∈ reads0 -> sized m e) -> (forall p, p ∉ buf <$> reads0 -> m !! p = mem0 !! p) ->
  forall e, e ∈ writes0 -> sized (compute m) e).
Context (Hmax : version max0).

(** ** After the requests were served *)

Lemma served_entry t l i e0 : reads_net false [] t l -> reads0 !! i = Some e0 -> exists e, readSet t !! i = Some e /\ same e0 e /\ sized (mem t) e0 /\ version (get_tid e) /\
  settled me master_coordinator key_at l t e0 e /\ (abort_lock t = false -> is_Some (held l !! row_ e0)).
Proof.
  intros (HR & _) He0. pose proof (lookup_lt_Some _ _ _ He0) as Hlt. destruct (lookup_lt_is_Some_2 (readSet t) i) as [e He]; [rewrite (rd_len _ _ _ _ _ _ _ _ _ _ _ _ _ HR); exact Hlt|].
  destruct (rd_entries _ _ _ _ _ _ _ _ _ _ _ _ _ HR i e0 e He0 He) as (Hs & Hv & Hb & Hor). exists e. split; [exact He|]. split; [exact Hs|]. split; [exact Hb|]. split; [exact Hv|].
  destruct Hor as [Hin|[Hset Hor]]; [now apply elem_of_nil in Hin|]. split; [exact Hset|]. intros Ha. destruct Hor as [?|[?|?]]; [assumption|lia|congruence].
Qed.

Lemma served_from t l i e : reads_net false [] t l -> readSet t !! i = Some e -> exists e0, reads0 !! i = Some e0 /\ e0 ∈ reads0 /\ same e0 e /\ version (get_tid e) /\ settled me master_coordinator key_at l t e0 e.
Proof.
  intros HR He. pose proof HR as (HRd & _). pose proof (lookup_lt_Some _ _ _ He) as Hlt. rewrite (rd_len _ _ _ _ _ _ _ _ _ _ _ _ _ HRd) in Hlt. destruct (lookup_lt_is_Some_2 _ _ Hlt) as [e0 He0].
  destruct (served_entry t l i e0 HR He0) as (e' & He' & Hs & _ & Hv & Hset & _). rewrite He in He'. injection He' as <-. exists e0. split; [exact He0|]. split; [eapply list_elem_of_lookup_2, He0|auto].
Qed.

Lemma locks_rows rs : (forall e, e ∈ rs -> rbit e && wbit e = false) -> (concat (locks key_at <$> rs)).*1 `sublist_of` row_ <$> rs.
Proof.
  induction rs as [|e rs IH]; intros H; cbn; [constructor|]. rewrite fmap_app. change (row_ e :: (row_ <$> rs)) with ([row_ e] ++ (row_ <$> rs)). apply sublist_app; [|apply IH; intros e' He'; apply H; now right].
  specialize (H e ltac:(left)). unfold locks. destruct (rbit e), (wbit e); cbn; try discriminate H; repeat constructor.
Qed.

Lemma in_locks k m rs : (k, m) ∈ concat (locks key_at <$> rs) <-> exists e, e ∈ rs /\ k = row_ e /\ match m with Rd => rbit e | Wr => wbit e end = true.
Proof.
  induction rs as [|e rs IH]; cbn.
  - rewrite elem_of_nil. split; [easy|]. intros (e & He & _). now apply elem_of_nil in He.
  - rewrite elem_of_app, IH. setoid_rewrite elem_of_cons. unfold locks. rewrite elem_of_app. split.
    + intros [[H|H]|(e' & ? & ? & ?)]; [..|eauto].
      * destruct (rbit e) eqn:Er; [|now apply elem_of_nil in H]. apply list_elem_of_singleton in H as [= -> ->]. eauto.
      * destruct (wbit e) eqn:Er; [|now apply elem_of_nil in H]. apply list_elem_of_singleton in H as [= -> ->]. eauto.
    + intros (e' & [->|He'] & -> & Hb); [|eauto]. left. destruct m; rewrite Hb; [left|right]; now apply list_elem_of_singleton.
Qed.

Lemma served_rows t l : reads_net false [] t l -> row_ <$> readSet t = row_ <$> reads0.
Proof.
  intros HR. pose proof HR as (HRd & _). apply list_eq. intros i. rewrite !list_lookup_fmap. destruct (reads0 !! i) as [e0|] eqn:He0.
  - destruct (served_entry t l i e0 HR He0) as (e & -> & Hs & _). cbn. f_equal. now apply (same_request me master_coordinator key_at).
  - apply lookup_ge_None in He0. rewrite <- (rd_len _ _ _ _ _ _ _ _ _ _ _ _ _ HRd) in He0. apply lookup_ge_None in He0. now rewrite He0.
Qed.

(** The marks are the locks. *)
Lemma served_locks t l : reads_net false [] t l -> locks_are l (concat (locks key_at <$> readSet t)).
Proof.
  intros HR. pose proof HR as (HRd & _). split.
  - eapply sublist_NoDup; [|apply locks_rows].
    + rewrite (served_rows t l HR). apply (q_distinct _ _ _ Hq).
    + intros e He. apply list_elem_of_lookup in He as [i He]. destruct (served_from t l i e HR He) as (e0 & _ & _ & _ & _ & Hset). unfold settled in Hset.
      destruct (held l !! row_ e0) as [[m b]|]; [destruct Hset as (_ & -> & -> & _); now destruct (wr e0)|]. destruct Hset as [-> ->]. reflexivity.
  - intros k m. rewrite in_locks. split.
    + intros [b Hb]. destruct (rd_held _ _ _ _ _ _ _ _ _ _ _ _ _ HRd k m b Hb) as [(e0 & Hin & ->) _]. apply list_elem_of_lookup in Hin as [i He0].
      destruct (served_entry t l i e0 HR He0) as (e & He & Hs & _ & _ & Hset & _). exists e. split; [eapply list_elem_of_lookup_2, He|]. split; [symmetry; now apply (same_request me master_coordinator key_at)|].
      unfold settled in Hset. rewrite Hb in Hset. destruct Hset as (-> & -> & -> & _). unfold mode_of. now destruct (wr e0).
    + intros (e & He & -> & Hbit). apply list_elem_of_lookup in He as [i He]. destruct (served_from t l i e HR He) as (e0 & _ & _ & Hs & _ & Hset). destruct (same_request me master_coordinator key_at _ _ Hs) as (-> & _).
      unfold settled in Hset. destruct (held l !! row_ e0) as [[m' b]|]; [|destruct Hset as [Hr Hw]; destruct m; congruence].
      destruct Hset as (-> & Hr & Hw & _). exists b. do 2 f_equal. unfold mode_of. destruct m, (wr e0); cbn in Hr; congruence || reflexivity.
Qed.

(** Every lock can be given back, the rest of what is known being at rest. *)
Lemma served_release t l t1 l1 : reads_net false [] t l -> readSet t1 = readSet t -> scanSet t1 = scanSet t -> insertSet t1 = insertSet t -> outbox t1 = outbox t ->
  held l1 = held l -> (forall k, at_rest l1 k) -> may_release me master_coordinator key_at t1 l1.
Proof.
  intros HR E1 E2 E3 E4 E5 Hrest. pose proof HR as (HRd & Hout & _). destruct (rd_rest _ _ _ _ _ _ _ _ _ _ _ _ _ HRd) as (Hsc & Hins & _). unfold may_release, locks_are. rewrite E1, E2, E3, E4, E5.
  split; [exact Hsc|]. split; [exact Hins|]. split; [exact Hout|]. split; [exact Hrest|]. split; [|now apply (served_locks t l)].
  intros e He. apply list_elem_of_lookup in He as [i He]. destruct (served_from t l i e HR He) as (e0 & _ & Hin & Hs & _ & Hset). pose proof Hs as (Ek & _). split; [rewrite Ek; now apply (q_key _ _ _ Hq)|].
  destruct (same_request me master_coordinator key_at _ _ Hs) as (-> & _ & _ & ->). unfold settled in Hset. destruct (held l !! row_ e0) as [[m b]|]; [intros _; apply Hset|]. destruct Hset as [-> ->]. discriminate.
Qed.

Lemma abort_served t l : reads_net false [] t l ->
  run (TwoPL.abort tid me master_coordinator size deserialize_value key_at) t l (fun _ t' l' => held l' = ∅ /\ committed l' = false /\ written l' = ∅).
Proof.
  intros HR. pose proof HR as (HRd & _). destruct (rd_know _ _ _ _ _ _ _ _ _ _ _ _ _ HRd) as (_ & Hc & Hw). eapply tsafe_mono; [apply abort_gives_back|].
  - apply (served_release t l t l HR); try reflexivity. intros k. left. rewrite Hc, Hw. apply bool_decide_eq_false_2. set_solver.
  - intros [] t' l' [_ ->]. split; [reflexivity|]. split; [exact Hc|exact Hw].
Qed.

(** ** Commit *)

(** The ids stay in their field. *)
Lemma next_tid_fits (es : list tkey) (m : Z) : version m -> (forall e, e ∈ es -> version (get_tid e)) ->
  fits 54 (wrap 64 (Z.max (foldl (fun n e => Z.max n (get_tid e)) 0 es) m + 1)).
Proof.
  intros Hm He. assert (forall a, version a -> version (foldl (fun n e => Z.max n (get_tid e)) a es)) as H.
  { induction es as [|e es IH]; intros a Ha; cbn; [exact Ha|]. apply IH; [intros e' He'; apply He; now right|]. specialize (He e ltac:(left)). unfold version in *. lia. }
  specialize (H 0 ltac:(unfold version; lia)). unfold version, fits in *. rewrite wrap_small; [lia|]. unfold fits. change (2 ^ 64) with (1024 * 2 ^ 54). lia.
Qed.

Definition finished (ok : bool) (t' : ttxn) (l' : know) : Prop :=
  held l' = ∅ /\
  if ok then exists m, mem t' = compute m /\ (forall p, p ∉ buf <$> reads0 -> m !! p = mem0 !! p) /\
    (forall e0, e0 ∈ reads0 -> exists b, m !! buf e0 = Some b /\ replay init (snap l') !! row_ e0 = Some b) /\
    (forall e, e ∈ writes0 -> exists v, compute m !! buf e = Some v /\ as_map (redone l') !! row_ e = Some v) /\
    (forall k, k ∉ row_ <$> writes0 -> as_map (redone l') !! k = None) /\ committed l' = match writes0 with [] => false | _ => true end
  else committed l' = false /\ written l' = ∅.

Section commit.
Context (t : ttxn) (l : know) (HR : reads_net false [] t l) (Ha : abort_lock t = false).
Abbreviation HRd := (proj1 HR).

Definition computed : ttxn := on_mem compute t.

Lemma computed_sized e : e ∈ writes0 -> sized (compute (mem t)) e.
Proof.
  apply Hcompute; [|apply HRd]. intros e0 He0. apply list_elem_of_lookup in He0 as [i He0]. destruct (served_entry t l i e0 HR He0) as (_ & _ & _ & Hs & _). exact Hs.
Qed.

Lemma write_locked_row e : e ∈ writes0 -> exists b, held l !! row_ e = Some (Wr, b).
Proof.
  intros He. destruct (u_entry Hu e He) as (_ & _ & e0 & Hin & Hw & ->). apply list_elem_of_lookup in Hin as [i He0]. destruct (served_entry t l i e0 HR He0) as (r & _ & _ & _ & _ & Hset & Hh).
  destruct (Hh Ha) as [[m b] Hb]. unfold settled in Hset. rewrite Hb in Hset. destruct Hset as (-> & _). exists b. rewrite Hb. unfold mode_of. now rewrite Hw.
Qed.

(** The logged writes, as a map. *)
Lemma redo_map redo (e : tkey) : (forall x, x ∈ redo <-> x ∈ item key_at (compute (mem t)) <$> writes0) -> e ∈ writes0 -> as_map redo !! row_ e = Some (new_of (compute (mem t)) e).
Proof.
  intros Hx He. apply elem_of_list_to_map_1'; [|apply Hx; now apply (list_elem_of_fmap_2 (item key_at (compute (mem t))))].
  intros v Hv. apply Hx in Hv. apply list_elem_of_fmap in Hv as (e' & Ei & He'). pose proof (f_equal fst Ei : row_ e = row_ e') as Er. pose proof (f_equal snd Ei : v = new_of _ e') as ->. apply list_elem_of_lookup in He as [i He], He' as [j He'].
  assert (i = j) as <- by (apply (NoDup_lookup (row_ <$> writes0) i j (row_ e)); [apply (u_distinct Hu)|now rewrite list_lookup_fmap, He|rewrite list_lookup_fmap, He'; cbn; congruence]). congruence.
Qed.

(** The locks are kept until here, so the values that were read are those at [lg]. *)
Lemma reads_at l1 : held l1 = held l -> snapped init l1 -> forall e0, e0 ∈ reads0 -> exists b, mem t !! buf e0 = Some b /\ replay init (snap l1) !! row_ e0 = Some b.
Proof.
  intros Eh Hs e0 Hin. apply list_elem_of_lookup in Hin as [i He0]. destruct (served_entry t l i e0 HR He0) as (r & _ & _ & _ & _ & Hset & Hh).
  destruct (Hh Ha) as [[m b] Hb]. unfold settled in Hset. rewrite Hb in Hset. destruct Hset as (_ & _ & _ & Hm & _). exists b. split; [exact Hm|]. apply (Hs _ m). now rewrite Eh.
Qed.

(** From the commit record on. *)
Lemma install_served c t1 l1 : t1 = set_max_tid c computed -> fits 54 c -> held l1 = held l -> written l1 = ∅ -> snapped init l1 ->
  (forall x, x ∈ redone l1 <-> x ∈ item key_at (compute (mem t)) <$> writes0) -> committed l1 = match writes0 with [] => false | _ => true end ->
  run (ins ← local insertSet; for_all (TwoPL.commit_insert me master_coordinator key_at) ins;; scs ← local scanSet; for_all (TwoPL.commit_delete me master_coordinator) scs;;
       TwoPL.write_and_replicate tid me master_coordinator replicated_on coordinators size serialize_value deserialize_value key_at true c;;
       TwoPL.release_lock tid me master_coordinator size deserialize_value key_at c;; mret true) t1 l1 (fun ok t' l' => finished ok t' l').
Proof.
  intros Et Hfit Hheld Hw Hs Hx Hc. destruct (rd_rest _ _ _ _ _ _ _ _ _ _ _ _ _ HRd) as (Hsc & Hins & _). pose proof (rd_writes _ _ _ _ _ _ _ _ _ _ _ _ _ HRd) as Ew. pose proof (rd_pending _ _ _ _ _ _ _ _ _ _ _ _ _ HRd) as Hp. destruct HR as (_ & Hout & _).
  assert (insertSet t1 = [] /\ scanSet t1 = [] /\ outbox t1 = [] /\ pendingResponses t1 = 0 /\ writeSet t1 = writes0 /\ mem t1 = compute (mem t) /\ readSet t1 = readSet t) as (Hi1 & Hs1 & Ho1 & Hp1 & Ew1 & Em1 & Er1) by (rewrite Et; exact (conj Hins (conj Hsc (conj Hout (conj Hp (conj Ew (conj eq_refl eq_refl))))))).
  apply tsafe_bind, tsafe_local. rewrite Hi1. apply tsafe_bind, tsafe_ret. apply tsafe_bind, tsafe_local. rewrite Hs1. apply tsafe_bind, tsafe_ret. apply tsafe_bind.
  eapply tsafe_mono; [apply (write_and_replicate_ok size serialize_value deserialize_value rows init tid me master_coordinator replicated_on coordinators key_at true c Hserialize Hreplicas t1 l1 (conj Ho1 Hp1) Hs1); [|exact Hw]|].
  - rewrite Ew1, Em1. intros e He. destruct (u_entry Hu e He) as (Hk & Hv & _). destruct (computed_sized e He) as (b & Hb & Hlen). destruct (write_locked_row e He) as [b0 Hb0].
    split; [exact Hk|]. split; [exact Hv|]. split; [eauto|]. split; [rewrite Hc; destruct writes0; [now apply elem_of_nil in He|reflexivity]|]. split; [exists b0; now rewrite Hheld|]. split; [now apply redo_map|]. unfold new_of. rewrite Hb. exact Hlen.
  - intros [] t2 l2 (-> & W & -> & HW). rewrite Ew1 in HW. apply tsafe_bind. eapply tsafe_mono; [apply release_lock_releases; [exact Hfit|]|].
    + eapply (served_release t l); [exact HR|exact Er1|congruence|congruence|congruence|exact Hheld|]. intros k. unfold at_rest. cbn [written committed redone with_written].
      destruct (as_map (redone l1) !! k) as [v|] eqn:Ek; [left|now right]. apply elem_of_list_to_map_2 in Ek. apply Hx in Ek. apply list_elem_of_fmap in Ek as (e & [= -> ->] & He).
      rewrite bool_decide_eq_true_2 by now apply HW. rewrite Hc. destruct writes0; [now apply elem_of_nil in He|reflexivity].
    + intros [] t' l' (-> & ->). apply tsafe_ret. split; [reflexivity|]. exists (mem t). split; [exact Em1|]. split; [apply HRd|]. split; [exact (reads_at l1 Hheld Hs)|]. split; [|split; [|exact Hc]].
      * intros e He. destruct (computed_sized e He) as (b & Hb & _). exists b. split; [exact Hb|]. cbn [redone no_locks with_written]. rewrite (redo_map _ e Hx He). unfold new_of. now rewrite Hb.
      * intros k Hk. cbn [redone no_locks with_written]. destruct (as_map (redone l1) !! k) as [v|] eqn:Ek; [|reflexivity]. apply elem_of_list_to_map_2 in Ek. apply Hx in Ek.
        apply list_elem_of_fmap in Ek as (e & [= -> ->] & He). exfalso. apply Hk. now apply list_elem_of_fmap_2.
Qed.

Lemma commit_served : run (TwoPL.commit tid me master_coordinator replicated_on coordinators size serialize_value deserialize_value key_at true) computed l (fun ok t' l' => finished ok t' l').
Proof.
  destruct (rd_rest _ _ _ _ _ _ _ _ _ _ _ _ _ HRd) as (Hsc & Hins & Hdel). destruct (rd_know _ _ _ _ _ _ _ _ _ _ _ _ _ HRd) as (Hredo & Hc & Hw). pose proof (rd_writes _ _ _ _ _ _ _ _ _ _ _ _ _ HRd) as Ew. pose proof (rd_snapped _ _ _ _ _ _ _ _ _ _ _ _ _ HRd) as Hs.
  unfold TwoPL.commit. apply tsafe_bind, tsafe_local. change (abort_lock computed) with (abort_lock t). rewrite Ha. apply tsafe_bind.
  eapply tsafe_mono; [apply (prepare_ok size deserialize_value rows init tid me master_coordinator coordinators key_at computed l)|].
  - split; [apply HR|exact (rd_pending _ _ _ _ _ _ _ _ _ _ _ _ _ HRd)].
  - exact (conj Hins Hdel).
  - exact (conj Hredo (conj Hc Hw)).
  - intros e He. change (e ∈ writeSet t) in He. rewrite Ew in He. destruct (u_entry Hu e He) as (Hk & Hv & _). destruct (computed_sized e He) as (b & Hb & _). split; [exact Hk|]. split; [exact Hv|]. cbn. eauto.
  - intros e He. change (e ∈ writeSet t) in He. rewrite Ew in He. now apply (u_hosts Hu).
  - intros [] t1 l1 (-> & redo & -> & Hx). change (writeSet computed) with (writeSet t) in Hx. rewrite Ew in Hx. unfold TwoPL.generate_tid. apply tsafe_bind, tsafe_bind, tsafe_local. apply tsafe_bind, tsafe_assign, tsafe_ret.
    set (c := wrap 64 _). assert (fits 54 c) as Hfit.
    { apply next_tid_fits; [cbn; rewrite (rd_max _ _ _ _ _ _ _ _ _ _ _ _ _ HRd); exact Hmax|]. intros e He. apply list_elem_of_lookup in He as [i He]. destruct (served_from t l i e HR He) as (_ & _ & _ & _ & Hv & _). exact Hv. }
    apply tsafe_bind, tsafe_local. set (t2 := set_max_tid c computed). assert (TwoPL.writes_something t2 = match writes0 with [] => false | _ => true end) as Esome.
    { unfold TwoPL.writes_something, t2. cbn [writeSet insertSet deleteSet set_max_tid computed on_mem]. rewrite Ew, Hins, Hdel. reflexivity. }
    rewrite Esome, andb_true_r. apply tsafe_bind. destruct (match writes0 with [] => false | _ => true end) eqn:E0; cbn [when].
    + apply tsafe_atomic. eapply step_ok_mono; [|apply (commit_record_ok size rows init); [exact Hc|exact Hw|]].
      * intros [] l2 (lg & -> & Hs2). apply (install_served c t2); try assumption; try reflexivity. now rewrite E0.
      * intros k v Hkv. apply Hx in Hkv. apply list_elem_of_fmap in Hkv as (e & [= -> ->] & He). now apply write_locked_row.
    + apply tsafe_ret. apply (install_served c t2 (with_redo l redo)); try assumption; try reflexivity. now rewrite E0.
Qed.
End commit.

(** A transaction before its requests are served. *)
Record beginning (t : ttxn) : Prop := Beginning {
  b_sets : readSet t = reads0 /\ writeSet t = writes0 /\ scanSet t = [] /\ insertSet t = [] /\ deleteSet t = [];
  b_flags : abort_lock t = false /\ abort_read_validation t = false /\ abort_insert t = false /\ abort_delete t = false;
  b_idle : pendingResponses t = 0 /\ outbox t = [];
  b_mem : mem t = mem0 /\ max_tid t = max0;
  b_tids : forall e, e ∈ reads0 -> version (get_tid e);
  b_buffers : forall e, e ∈ reads0 -> sized (mem t) e
}.

Abbreviation nothing := (Know ∅ [] false ∅ []).

Lemma begins_flying t : beginning t -> flying size init me master_coordinator key_at reads0 writes0 mem0 max0 (length reads0) t nothing.
Proof.
  intros [(H2 & H3 & H4 & H5 & H6) (H7 & H8 & H9 & H10) [H12 H13] [H14 H14'] H11 H15]. unfold flying. rewrite H13. split; try easy.
  - now rewrite H2.
  - apply NoDup_nil_2.
  - intros i e0 e He0 He. rewrite H2 in He. assert (e = e0) as -> by congruence. pose proof (list_elem_of_lookup_2 _ _ _ He0) as Hin. destruct (q_fresh _ _ _ Hq e0 Hin) as [Hp Hl].
    split; [apply entry_same_refl|]. split; [now apply H11|]. split; [now apply H15|]. right. unfold settled. cbn. rewrite lookup_empty. split; [exact Hl|]. right. left. eapply lookup_lt_Some, He0.
  - intros p _. now rewrite H14.
Qed.

(** Whatever the others do, the transaction ends and holds no lock then; if it has
    committed it has read what the log describes at one point, where its own record follows. *)
Lemma txn_ok t : beginning t ->
  run (TwoPL.transaction tid me master_coordinator replicated_on coordinators size serialize_value deserialize_value key_at read_on_replica true compute) t nothing (fun ok t' l' => finished ok t' l').
Proof.
  intros HB. unfold TwoPL.transaction. apply tsafe_bind. eapply tsafe_mono; [eapply process_requests_ok; [exact Hq|now apply begins_flying|apply HB|apply HB]|].
  intros stop t1 l1 [HR ->]. destruct (abort_lock t1) eqn:Ea.
  - apply tsafe_bind. eapply tsafe_mono; [now apply abort_served|]. intros [] t2 l2 H2. apply tsafe_ret. exact H2.
  - apply tsafe_bind, tsafe_assign. now apply commit_served.
Qed.
End transaction.

(** ** Many transactions *)

Section system.
Context (size : Z -> nat) (serialize_value : Z -> bytes -> bytes) (deserialize_value : Z -> bytes -> bytes -> bytes).
Context (master_coordinator : Z -> Z) (replicated_on : Z -> Z -> bool) (coordinators : list Z) (read_on_replica : bool).

(** A transaction: its host, what its key pointers refer to, its state when it
    begins, and its computation. *)
Record job := Job { host : Z; pointer : Z -> Z; start : ttxn; computation : gmap Z bytes -> gmap Z bytes }.

Definition run_job (tid : Z) (j : job) : prog store (bool * ttxn) :=
  TwoPL.transaction tid (host j) master_coordinator replicated_on coordinators size serialize_value deserialize_value (pointer j) read_on_replica true (computation j) (start j).

Record job_ok (rows : gset row_id) (j : job) : Prop := JobOk {
  j_requests : requests rows (pointer j) (readSet (start j));
  j_updates : updates master_coordinator coordinators (pointer j) (readSet (start j)) (writeSet (start j));
  j_compute : forall m, (forall e, e ∈ readSet (start j) -> sized size m e) -> (forall p, p ∉ buf <$> readSet (start j) -> m !! p = mem (start j) !! p) ->
    forall e, e ∈ writeSet (start j) -> sized size (computation j m) e;
  j_worker : version (max_tid (start j));
  j_start : beginning size (readSet (start j)) (writeSet (start j)) (mem (start j)) (max_tid (start j)) (start j)
}.

Abbreviation state := (sys store (bool * ttxn)).

Definition run_jobs (jobs : gmap Z job) (s : store) : state := Sys [] s (map_imap (fun tid j => Some (run_job tid j)) jobs).

(** Rows that nobody has locked, and nothing logged. *)
Definition at_start (s : store) : Prop :=
  s_log s = [] /\ forall k r, s_rows s !! k = Some r -> fine size k r /\ readers (TwoPLHelper.lock_of r) = 0 /\ writer (TwoPLHelper.lock_of r) = false.
Definition values (s : store) : gmap row_id bytes := TwoPLHelper.data <$> s_rows s.

(** The rows between two steps: valid, with as many readers as the lock word says or
    with one writer, and with the values of the log if there is no writer. *)
Definition consistent (init : gmap row_id bytes) (y : state) : Prop :=
  forall k r, s_rows (now y) !! k = Some r -> fine size k r /\
    counted_rw (readers (TwoPLHelper.lock_of r)) (writer (TwoPLHelper.lock_of r)) (holders (past y) (now y) k) /\
    (writer (TwoPLHelper.lock_of r) = false -> replay init (s_log (now y)) !! k = Some (TwoPLHelper.data r)).

Definition unlocked (tid : Z) (y : state) : Prop := forall k, holders (past y) (now y) k !! tid = None.

Definition left_no_trace (tid : Z) (y : state) : Prop :=
  commits tid (s_log (now y)) = 0%nat /\ forall d d' k, (tid, d, d') ∈ moves (past y) (now y) -> data_at d' k = data_at d k.

(** [t] has run as if alone at one point of the log, and its commit record is the next. *)
Definition serialized (init : gmap row_id bytes) (tid : Z) (j : job) (t : ttxn) (y : state) : Prop :=
  exists m lg, mem t = computation j m /\ (forall p, p ∉ buf <$> readSet (start j) -> m !! p = mem (start j) !! p) /\ lg `suffix_of` s_log (now y) /\
  (forall e0, e0 ∈ readSet (start j) -> exists b, m !! buf e0 = Some b /\ replay init lg !! row_ (pointer j) e0 = Some b) /\
  match writeSet (start j) with
  | [] => commits tid (s_log (now y)) = 0%nat
  | _ => commits tid (s_log (now y)) = 1%nat /\ exists c, (tid, LogCommit c) :: lg `suffix_of` s_log (now y) /\
      (forall w, w ∈ writeSet (start j) -> exists v, mem t !! buf w = Some v /\ replay init ((tid, LogCommit c) :: lg) !! row_ (pointer j) w = Some v) /\
      (forall k, k ∉ row_ (pointer j) <$> writeSet (start j) -> replay init ((tid, LogCommit c) :: lg) !! k = replay init lg !! k)
  end.

Abbreviation finished_job s j := (finished (values s) (pointer j) (computation j) (readSet (start j)) (writeSet (start j)) (mem (start j))).

Lemma finished_serialized s tid j t l y : knows (values s) tid l (past y) (now y) -> finished_job s j true t l -> serialized (values s) tid j t y.
Proof.
  intros HK (_ & m & Hm & Hframe & He & Hin & Hout & Hc). exists m, (snap l). split; [exact Hm|]. split; [exact Hframe|]. split; [apply (k_snap _ _ _ _ _ HK)|]. split; [exact He|].
  pose proof (k_commit _ _ _ _ _ HK) as Hn. pose proof (k_last _ _ _ _ _ HK) as Hlast. rewrite Hc in Hn, Hlast. destruct (writeSet (start j)) as [|w0 ws0] eqn:Ew; [exact Hn|]. rewrite <- Ew in *. split; [exact Hn|].
  destruct (Hlast eq_refl) as (c & Hsuf & Hwr). exists c. split; [exact Hsuf|]. cbn [replay]. rewrite Hwr. split.
  - intros w Hw. destruct (Hin w Hw) as (v & Hv & Hr). exists v. split; [now rewrite Hm|]. now apply lookup_union_Some_l.
  - intros k Hk. rewrite lookup_union, (Hout k Hk). now destruct (replay (values s) (snap l) !! k).
Qed.

(** What is serialized is read back over any value of the table, and rows have no replicas. *)
Context (Hserialize : forall t d v, length d = size t -> length v = size t -> deserialize_value t d (serialize_value t v) = v).
Context (Hreplicas : forall p h, replicated_on p h = true -> h = master_coordinator p).

Lemma counted_nobody : counted_rw 0 false (∅ : gmap Z mode).
Proof. split; [reflexivity|]. split; [split; [discriminate|now intros [c Hc]]|]. now intros c c' Hc. Qed.

Lemma all_jobs_safe jobs s : at_start s -> (forall tid j, jobs !! tid = Some j -> job_ok (dom (s_rows s)) j) ->
  all_safe bounded (inv size (dom (s_rows s)) (values s)) (knows (values s)) (fun tid a l => exists j, jobs !! tid = Some j /\ finished_job s j a.1 a.2 l) (run_jobs jobs s).
Proof.
  intros [Hlog Hrows] Hjobs. split.
  - split; [reflexivity|]. intros k r Hr. destruct (Hrows k r Hr) as (Hf & Hn & Hw). split; [exact Hf|]. split; [rewrite Hn, Hw; apply counted_nobody|]. intros _. change (s_rows s !! k = Some r) in Hr. cbn [run_jobs now]. rewrite Hlog. cbn [replay]. unfold values. now rewrite lookup_fmap, Hr.
  - intros tid p Hp. cbn in Hp. rewrite map_lookup_imap in Hp. destruct (jobs !! tid) as [j|] eqn:Ej; [|discriminate Hp]. cbn in Hp. injection Hp as <-.
    destruct (Hjobs tid j Ej) as [H1 H2 H3 H4 H5]. exists (Know ∅ [] false ∅ []). split.
    + split; cbn; rewrite ?Hlog; easy.
    + eapply safe_mono; [|exact (txn_ok size serialize_value deserialize_value (dom (s_rows s)) (values s) tid (host j) master_coordinator replicated_on coordinators (pointer j) read_on_replica (computation j)
        _ _ _ _ Hserialize Hreplicas H1 H2 H3 H4 (start j) H5)]. intros [ok t] l Hf. eauto.
Qed.

(** C3: two-phase locking is serializable, and the log is the serial order.  For
    any set of transactions, on any hosts, that read distinct rows, update rows they
    have read for update (no inserts, deletes or scans), on tables without replicas
    whose values [deserialize_value] reads back, and run interleaved in any way, the steps of the owners of
    remote rows included, as long as no version number runs over: in every state
    the lock words count the holders exactly, and a row that no one has locked for
    writing has the value that the log describes ([replay]).  Every transaction
    can take its next step (no check of the code fails, no wait is for ever).  One
    that is done holds no lock.  One that has aborted has no commit record and has
    changed no value.  One that has committed has read, in all its buffers, the
    values of one point of the log; if it writes, its only commit record is the next one after
    that point, and adds exactly the values of its write set. *)
Theorem twopl_serializable jobs s y :
  at_start s -> (forall tid j, jobs !! tid = Some j -> job_ok (dom (s_rows s)) j) -> reachable bounded (run_jobs jobs s) y ->
  consistent (values s) y /\
  forall tid j p, jobs !! tid = Some j -> threads y !! tid = Some p ->
  match p with
  | Done (true, t) => unlocked tid y /\ serialized (values s) tid j t y
  | Done (false, t) => unlocked tid y /\ left_no_trace tid y
  | _ => bounded (now y) -> is_Some (advance tid 0 y)
  end.
Proof.
  intros Hs Hjobs Hr. destruct (sound _ _ _ _ _ _ (all_jobs_safe jobs s Hs Hjobs) Hr) as [HI Ht]. split; [exact (i_rows _ _ _ _ _ HI)|].
  intros tid j p Hj Hp. specialize (Ht tid p Hp). destruct p as [[ok t]|R m k|n k]; [|exact Ht|now intros _].
  destruct Ht as (l & HK & j' & Hj' & Hf). rewrite Hj in Hj'. injection Hj' as <-. pose proof Hf as [Hheld _].
  assert (unlocked tid y) as Hno by (intros k; now rewrite (k_holds _ _ _ _ _ HK k), Hheld, lookup_empty).
  destruct ok; (split; [exact Hno|]); [eapply finished_serialized; eassumption|].
  destruct Hf as (_ & Hc & Hw). split; [rewrite (k_commit _ _ _ _ _ HK); cbn [fst snd] in Hc; now rewrite Hc|]. intros d d' k. now apply (k_clean _ _ _ _ _ HK).
Qed.
End system.
