(* ===== verification/WAL.v ===== *)
(** * The write-ahead logs

    common/WALLogger.h and common/BufferedFileWriter.h: the file writers, with and
    without a buffer, and the loggers on top of them: [SimpleWALLogger], which
    writes under a mutex; [GroupCommitLogger], whose background thread writes for
    many transactions at once; and the loggers that the system runs with,
    [PashaGroupCommitLoggerSlave], which fills the log buffers of a worker, and
    [PashaGroupCommitLogger], whose thread moves full buffers to the disk in
    epochs.  Times that the clock gives are arguments; latencies and other
    statistics of time are left out, and counters of bytes do not run over. *)

From S2P Require Import Prelude.

(** ** Files *)

(** A system call on a descriptor: [::write] with the bytes it is given, or
    [fdatasync]. *)
Inductive syscall := SysWrite (data : bytes) | SysFdatasync.

(** What became of a file: the data that the calls of [::write] took, oldest first,
    how many of them are on stable storage, and the calls that were issued. *)
Record file := File { written : list bytes; synced : nat; issued : list syscall }.

Definition new_file : file := File [] 0 [].
Definition content (f : file) : bytes := concat (written f).

(** What the operating system answers: the result of the [i]-th write of [n] bytes
    (the bytes that it took, or -1), whether the data reach the disk with a call of
    [fdatasync] after [i] writes, and the [errno] of the thread then. *)
Class Os := {
  os_write : nat -> nat -> Z;
  os_fdatasync : nat -> bool;
  os_errno : nat -> Z
}.

(** A run in which nothing goes wrong: every write takes all its bytes, every sync
    reaches the disk and no error is reported.  The system calls promise none of
    this; only the statements about what is on the disk assume it. *)
Class OsHealthy (os : Os) := {
  full_write i n : os_write i n = Z.of_nat n;
  sync_works i : os_fdatasync i = true;
  no_errno i : os_errno i = 0
}.

Section files.
Context `{os : Os}.

Definition posix_write (data : bytes) : M file Z := fun f =>
  let r := os_write (length (written f)) (length data) in
  Ret r (File (written f ++ [take (Z.to_nat r) data]) (synced f) (issued f ++ [SysWrite data])).
Definition fdatasync : M file unit := fun f =>
  Ret tt (File (written f) (if os_fdatasync (length (written f)) then length (written f) else synced f) (issued f ++ [SysFdatasync])).
Definition get_errno : M file Z := fun f => Ret (os_errno (length (written f))) f.
End files.

(** [memcpy(buffer + off, str, n)] *)
Definition copy_at (off : nat) (str : bytes) (n : nat) (buffer : bytes) : bytes :=
  take off buffer ++ memcpy (drop off buffer) str n.

(** The remainder is an [int], which block sizes fit in. *)
Definition roundUp (numToRound multiple : nat) : nat :=
  if (multiple =? 0)%nat then numToRound
  else
    let remainder := (numToRound mod multiple)%nat in
    if (remainder =? 0)%nat then numToRound else (numToRound + multiple - remainder)%nat.

(** ** [DirectFileWriter] *)

Module DirectFileWriter.
Section writer.
Context `{os : Os} (block_size : nat).

(** [write(str, size)]: the bytes after [str] in memory are written too, up to the
    end of a block; [mem] is what is there.  The result of the call is not looked
    at. *)
Definition write (mem : bytes) (size : nat) : M file unit :=
  let n := roundUp size block_size in
  if (n <=? length mem)%nat then posix_write (take n mem);; mret tt else fault.

Definition sync : M file unit := fdatasync.

(** [close], but for closing the descriptor. *)
Definition close : M file unit := sync.
End writer.
End DirectFileWriter.

(** ** [BufferedDirectFileWriter] *)

Module BufferedDirectFileWriter.
Record writer := Writer { w_file : file; buffer : bytes; bytes_total : nat }.

Definition on_file {A} (m : M file A) : M writer A :=
  lift_with w_file (fun f w => Writer f (buffer w) (bytes_total w)) m.
Definition fill (off : nat) (str : bytes) : M writer unit :=
  modify (fun w => Writer (w_file w) (copy_at off str (length str) (buffer w)) (bytes_total w)).
Definition set_total (n : nat) : M writer unit := modify (fun w => Writer (w_file w) (buffer w) n).

Section writer.
Context `{os : Os} (BUFFER_SIZE block_size : nat) (emulated_persist_latency : Z).

(** The constructor; [mem] is what is in the memory for the buffer. *)
Definition create (mem : bytes) : M unit writer :=
  CHECK (BUFFER_SIZE mod block_size =? 0)%nat;; mret (Writer new_file mem 0).

(** Without emulation the file is open for direct I/O, so whole blocks are written. *)
Definition io_size (s : nat) : M writer nat :=
  if negb (emulated_persist_latency =? 0) then mret s
  else CHECK (roundUp s block_size <=? BUFFER_SIZE)%nat;; mret (roundUp s block_size).

Definition flush : M writer nat :=
  s ← gets bytes_total;
  when_ (0 <? s)%nat (
    n ← io_size s;
    b ← gets buffer;
    err ← on_file (posix_write (take n b));
    on_file fdatasync;;
    errnumber ← on_file get_errno;
    CHECK (0 <=? err);;
    CHECK (errnumber =? 0));;
  set_total 0;;
  mret s.

Definition sync : M writer nat := flush.

Definition write (str : bytes) : M writer unit :=
  let size := length str in
  n ← gets bytes_total;
  if (n + size <? BUFFER_SIZE)%nat then
    fill n str;;
    set_total (n + size)
  else
    let copy_size := (BUFFER_SIZE - n)%nat in
    fill n (take copy_size str);;
    set_total (n + copy_size);;
    flush;;
    let str := drop copy_size str in
    let size := length str in
    if (BUFFER_SIZE <=? size)%nat then abort
    else
      fill 0 str;;
      n ← gets bytes_total;
      set_total (n + size).

(** [close], but for closing the descriptor. *)
Definition close : M writer unit := flush;; mret tt.
End writer.
End BufferedDirectFileWriter.

(** ** [BufferedFileWriter], without direct I/O *)

Module BufferedFileWriter.
Import BufferedDirectFileWriter.
Section writer.
Context `{os : Os} (BUFFER_SIZE : nat) (emulated_persist_latency : Z).

Definition flush : M writer unit :=
  s ← gets bytes_total;
  when_ (0 <? s)%nat (
    b ← gets buffer;
    err ← on_file (posix_write (take s b));
    CHECK (0 <=? err));;
  set_total 0.

Definition write (str : bytes) : M writer unit :=
  let size := length str in
  n ← gets bytes_total;
  if (n + size <? BUFFER_SIZE)%nat then
    fill n str;;
    set_total (n + size)
  else
    let copy_size := (BUFFER_SIZE - n)%nat in
    fill n (take copy_size str);;
    set_total (n + copy_size);;
    flush;;
    let str := drop copy_size str in
    let size := length str in
    if (BUFFER_SIZE <=? size)%nat then
      err ← on_file (posix_write str);
      CHECK (0 <=? err);;
      set_total 0
    else
      fill 0 str;;
      n ← gets bytes_total;
      set_total (n + size).

Definition sync : M writer unit :=
  flush;;
  when_ (emulated_persist_latency =? 0) (on_file fdatasync).

Definition close : M writer unit := flush.
End writer.
End BufferedFileWriter.

(** ** [SimpleWALLogger] and [BlackholeLogger] *)

Module SimpleWALLogger.
Section logger.
Context `{os : Os} (BUFFER_SIZE block_size : nat) (emulated_persist_latency : Z).

(** Each method holds the mutex, so it is one step. *)
Definition write (str : bytes) (persist : bool) : M BufferedDirectFileWriter.writer nat :=
  BufferedDirectFileWriter.write BUFFER_SIZE block_size emulated_persist_latency str;;
  when_ persist (BufferedDirectFileWriter.sync BUFFER_SIZE block_size emulated_persist_latency;; mret tt);;
  mret 0%nat.
Definition sync (lsn : nat) : M BufferedDirectFileWriter.writer unit :=
  BufferedDirectFileWriter.sync BUFFER_SIZE block_size emulated_persist_latency;; mret tt.
Definition close : M BufferedDirectFileWriter.writer unit :=
  BufferedDirectFileWriter.close BUFFER_SIZE block_size emulated_persist_latency.
End logger.
End SimpleWALLogger.

Module BlackholeLogger.
Definition write (str : bytes) (persist : bool) : M BufferedDirectFileWriter.writer nat := mret 0%nat.
Definition sync (lsn : nat) : M BufferedDirectFileWriter.writer unit := mret tt.
Definition close `{os : Os} (BUFFER_SIZE block_size : nat) (emulated_persist_latency : Z) : M BufferedDirectFileWriter.writer unit :=
  BufferedDirectFileWriter.close BUFFER_SIZE block_size emulated_persist_latency.
End BlackholeLogger.

(** ** [GroupCommitLogger] *)

Module GroupCommitLogger.
Import BufferedDirectFileWriter.

Record logger := Logger {
  l_writer : writer;
  write_lsn : nat;
  sync_lsn : nat;
  last_sync_time : Z;
  waiting_syncs : nat
}.

Definition on_writer {A} (m : M writer A) : M logger A :=
  lift_with l_writer (fun w l => Logger w (write_lsn l) (sync_lsn l) (last_sync_time l) (waiting_syncs l)) m.
Definition set_write_lsn (n : nat) : M logger unit :=
  modify (fun l => Logger (l_writer l) n (sync_lsn l) (last_sync_time l) (waiting_syncs l)).
Definition set_sync_lsn (n : nat) : M logger unit :=
  modify (fun l => Logger (l_writer l) (write_lsn l) n (last_sync_time l) (waiting_syncs l)).
Definition set_last_sync_time (t : Z) : M logger unit :=
  modify (fun l => Logger (l_writer l) (write_lsn l) (sync_lsn l) t (waiting_syncs l)).
Definition set_waiting_syncs (n : nat) : M logger unit :=
  modify (fun l => Logger (l_writer l) (write_lsn l) (sync_lsn l) (last_sync_time l) n).

Section logger.
Context `{os : Os} (BUFFER_SIZE block_size : nat) (emulated_persist_latency : Z).
Context (group_commit_latency_us : Z) (group_commit_txn_cnt : nat).

(** The part of [write] under the mutex. *)
Definition append (str : bytes) : M logger nat :=
  start_lsn ← gets write_lsn;
  let end_lsn := (start_lsn + length str)%nat in
  on_writer (write BUFFER_SIZE block_size emulated_persist_latency str);;
  n ← gets write_lsn;
  set_write_lsn (n + length str);;
  mret end_lsn.

(** The two parts of [sync(lsn)]: the count, and a round of its loop, which says
    whether the loop ends. *)
Definition enter_sync : M logger unit := n ← gets waiting_syncs; set_waiting_syncs (n + 1).
Definition sync_done (lsn : nat) : M logger bool := n ← gets sync_lsn; mret (negb (n <? lsn)%nat).

Definition close : M logger unit := on_writer (close BUFFER_SIZE block_size emulated_persist_latency).

(** The test of the background thread at a time, and the same test in [do_sync]. *)
Definition sync_due (now : Z) (l : logger) : bool :=
  (group_commit_txn_cnt <=? waiting_syncs l)%nat || (group_commit_latency_us <=? (now - last_sync_time l) / 1000).

(** [do_sync], under the mutex; [now] is the time of the test and [later] the time
    after the write. *)
Definition do_sync (now later : Z) : M logger unit :=
  due ← gets (sync_due now);
  if negb due then mret tt
  else
    flush_lsn ← gets write_lsn;
    waiting_sync_cnt ← gets waiting_syncs;
    n ← gets sync_lsn;
    when_ (n <? flush_lsn)%nat (on_writer (sync BUFFER_SIZE block_size emulated_persist_latency);; mret tt);;
    set_last_sync_time later;;
    w ← gets waiting_syncs;
    set_waiting_syncs (w - waiting_sync_cnt);;
    set_sync_lsn flush_lsn.
End logger.
End GroupCommitLogger.

(** ** The loggers of the system *)

Module Pasha.

(** [LogBuffer]; [b_bytes] is the array, of which [size] bytes are filled. *)
Record LogBuffer := MkBuffer { b_bytes : bytes; size : nat; txn_start_times : list Z }.

(** A [PashaGroupCommitLoggerSlave] with the queue it shares with the logger, and
    the state of all loggers of a host: the slaves of the workers, the epoch in CXL
    memory, the file and the counters of [PashaGroupCommitLogger]. *)
Record slave := Slave { cur_log_buffer : LogBuffer; last_epoch : Z; log_buffer_queue : list LogBuffer }.

Record loggers := Loggers {
  slaves : list slave;
  cxl_global_epoch : Z;
  file_writer : file;
  disk_sync_cnt : nat;
  disk_sync_size : nat;
  committed_txn_cnt : nat
}.

Section loggers.
Context `{os : Os} (block_size max_buffer_size max_log_buffer_queue_size : nat).
(** What is in the memory of a new [LogBuffer]. *)
Context (fresh : bytes).

Definition new_buffer : LogBuffer := MkBuffer fresh 0 [].
Definition new_slave : slave := Slave new_buffer 0 [].
Definition new_loggers (workers : nat) : loggers := Loggers (replicate workers new_slave) 0 new_file 0 0 0.

(** [LockfreeQueue::push]: it waits for room. *)
Definition push (b : LogBuffer) : M slave unit := fun s =>
  if (length (log_buffer_queue s) <? max_log_buffer_queue_size)%nat
  then Ret tt (Slave (cur_log_buffer s) (last_epoch s) (log_buffer_queue s ++ [b])) else Spin.

Definition set_cur (b : LogBuffer) : M slave unit :=
  modify (fun s => Slave b (last_epoch s) (log_buffer_queue s)).
Definition set_last_epoch (e : Z) : M slave unit :=
  modify (fun s => Slave (cur_log_buffer s) e (log_buffer_queue s)).

(** [memcpy] into the buffer, which must have room for the record. *)
Definition append_record (str : bytes) : M slave unit :=
  b ← gets cur_log_buffer;
  if (size b + length str <=? max_buffer_size)%nat
  then set_cur (MkBuffer (copy_at (size b) str (length str) (b_bytes b)) (size b + length str) (txn_start_times b))
  else fault.

(** [PashaGroupCommitLoggerSlave::write]; [cur_epoch] is what it has loaded and
    [start_time] the time when the transaction has begun. *)
Definition slave_write (cur_epoch : Z) (str : bytes) (persist : bool) (start_time : Z) : M slave nat :=
  b ← gets cur_log_buffer;
  last ← gets last_epoch;
  when_ ((max_buffer_size <? size b + length str)%nat || (last <? cur_epoch)) (
    when_ (0 <? size b)%nat (push b;; set_cur new_buffer);;
    set_last_epoch cur_epoch);;
  append_record str;;
  when_ persist (
    b ← gets cur_log_buffer;
    set_cur (MkBuffer (b_bytes b) (size b) (txn_start_times b ++ [start_time])));;
  mret (length str).

(** The same by the slave of a worker. *)
Definition on_slave {A} (w : nat) (m : M slave A) : M loggers A := fun l =>
  match slaves l !! w with
  | None => Fault
  | Some s =>
      match m s with
      | Ret a s' => Ret a (Loggers (<[w := s']> (slaves l)) (cxl_global_epoch l) (file_writer l)
                             (disk_sync_cnt l) (disk_sync_size l) (committed_txn_cnt l))
      | Spin => Spin | Abort => Abort | Fault => Fault
      end
  end.
Definition write (w : nat) (str : bytes) (persist : bool) (start_time : Z) : M loggers nat :=
  cur_epoch ← gets cxl_global_epoch;
  on_slave w (slave_write cur_epoch str persist start_time).

(** [close] of the logger: the buffers of the workers and the queues stay as they are. *)
Definition close : M loggers unit := fun l =>
  match DirectFileWriter.close (file_writer l) with
  | Ret _ f => Ret tt (Loggers (slaves l) (cxl_global_epoch l) f (disk_sync_cnt l) (disk_sync_size l) (committed_txn_cnt l))
  | Spin => Spin | Abort => Abort | Fault => Fault
  end.

Definition get_global_epoch : M loggers Z := gets cxl_global_epoch.

(** [cxl_global_epoch->fetch_add(1)] by the thread of a host. *)
Definition next_epoch : M loggers unit :=
  modify (fun l => Loggers (slaves l) (wrap 64 (cxl_global_epoch l + 1)) (file_writer l) (disk_sync_cnt l) (disk_sync_size l) (committed_txn_cnt l)).

Definition on_disk {A} (m : M file A) : M loggers A :=
  lift_with file_writer (fun f l => Loggers (slaves l) (cxl_global_epoch l) f (disk_sync_cnt l) (disk_sync_size l) (committed_txn_cnt l)) m.
Definition count_buffer (b : LogBuffer) : M loggers unit :=
  modify (fun l => Loggers (slaves l) (cxl_global_epoch l) (file_writer l) (disk_sync_cnt l + 1) (disk_sync_size l + size b)
                     (committed_txn_cnt l + length (txn_start_times b))).

(** [front] and [pop]. *)
Definition pop_front (w : nat) : M loggers (option LogBuffer) :=
  on_slave w (fun s => match log_buffer_queue s with
                       | [] => Ret None s
                       | b :: q => Ret (Some b) (Slave (cur_log_buffer s) (last_epoch s) q)
                       end).

(** A round of the inner loop of [do_sync]: [false] when the queue is empty. *)
Definition flush_one (w : nat) : M loggers bool :=
  b ← pop_front w;
  match b with
  | None => mret false
  | Some b =>
      on_disk (DirectFileWriter.write block_size (b_bytes b) (size b));;
      on_disk DirectFileWriter.sync;;
      count_buffer b;;
      mret true
  end.

(** The loops of [do_sync] when no worker writes meanwhile; a queue has at most
    [max_log_buffer_queue_size] buffers. *)
Fixpoint flush_queue (fuel w : nat) : M loggers unit :=
  match fuel with
  | O => spin
  | S fuel => more ← flush_one w; if more : bool then flush_queue fuel w else mret tt
  end.
Fixpoint flush_queues (ws : list nat) : M loggers unit :=
  match ws with
  | [] => mret tt
  | w :: ws => flush_queue (S max_log_buffer_queue_size) w;; flush_queues ws
  end.
Definition do_sync : M loggers unit :=
  n ← gets (fun l => length (slaves l));
  flush_queues (seq 0 n).

(** A round of the loop of [start], when the time has come. *)
Definition tick : M loggers unit := next_epoch;; do_sync.
End loggers.
End Pasha.
