(* ===== verification/WALSpec.v ===== *)
(** * What the write-ahead logs promise

    The loggers of [WAL] lose, duplicate and reorder nothing: what a file has, what
    waits in queues and what is in buffers is together what was written, record by
    record; and what is reported as persistent is on the disk if the operating system
    reports no error ([OsHealthy]). *)

From S2P Require Import Prelude WAL.

Lemma runs_gets {S A} (f : S -> A) s Q : Q (f s) s -> runs (gets f) s Q.
Proof. done. Qed.
Lemma runs_modify {S} (f : S -> S) s Q : Q tt (f s) -> runs (modify f) s Q.
Proof. done. Qed.
Lemma runs_lift {S S' A} (get : S -> S') (put : S' -> S -> S) (m : M S' A) s Q :
  runs m (get s) (fun a s' => Q a (put s' s)) -> runs (lift_with get put m) s Q.
Proof. unfold runs, lift_with. now destruct (m (get s)). Qed.

(** ** Blocks and buffers *)

Lemma roundUp_ge n m : (n <= roundUp n m)%nat.
Proof.
  unfold roundUp. destruct (Nat.eqb_spec m 0); [lia|]. cbv zeta. destruct (Nat.eqb_spec (n mod m) 0); [lia|].
  pose proof (Nat.mod_upper_bound n m). lia.
Qed.

Lemma roundUp_le n m b : (b mod m = 0)%nat -> (n <= b)%nat -> (roundUp n m <= b)%nat.
Proof.
  intros Hb Hn. unfold roundUp. destruct (Nat.eqb_spec m 0); [lia|]. cbv zeta. destruct (Nat.eqb_spec (n mod m) 0); [lia|].
  pose proof (Nat.div_mod n m). pose proof (Nat.div_mod b m). pose proof (Nat.mod_upper_bound n m).
  assert (n / m < b / m)%nat; [|nia].
  destruct (Nat.ltb_spec (n / m) (b / m)); [done|]. assert (b / m = n / m)%nat by (pose proof (Nat.Div0.div_le_mono n b m); lia). nia.
Qed.

Lemma copy_at_length off str (b : bytes) : (off + length str <= length b)%nat -> length (copy_at off str (length str) b) = length b.
Proof. intros. unfold copy_at, memcpy. rewrite !length_app, !length_take, !length_drop. lia. Qed.

Lemma copy_at_take off str (b : bytes) : (off + length str <= length b)%nat ->
  take (off + length str) (copy_at off str (length str) b) = take off b ++ str.
Proof.
  intros. unfold copy_at, memcpy. rewrite (take_ge str) by lia. rewrite app_assoc, take_app_le by (rewrite length_app, length_take; lia).
  apply take_ge. rewrite length_app, length_take. lia.
Qed.

(** A write of whole blocks that begins with the data. *)
Definition image_of (block_size : nat) (data image : bytes) : Prop :=
  data `prefix_of` image /\ length image = roundUp (length data) block_size.

Lemma posix_write_full {os : Os} {Hos : OsHealthy os} data f : posix_write data f = Ret (Z.of_nat (length data)) (File (written f ++ [data]) (synced f) (issued f ++ [SysWrite data])).
Proof. unfold posix_write. rewrite full_write, Nat2Z.id, take_ge by lia. done. Qed.

(** ** Buffered writers *)

Module Buffered.
Import BufferedDirectFileWriter.
Section writer.
Context {os : Os} {Hos : OsHealthy os} (BUFFER_SIZE block_size : nat) (emulated_persist_latency : Z).
Context (Hsize : (0 < BUFFER_SIZE)%nat) (Hblock : (BUFFER_SIZE mod block_size = 0)%nat).

Definition image (data img : bytes) : Prop :=
  if emulated_persist_latency =? 0 then image_of block_size data img else img = data.

(** The writes that are on the disk have these data, in blocks. *)
Definition on_disk (f : file) (data : bytes) : Prop :=
  exists chunks, Forall2 image chunks (take (synced f) (written f)) /\ data = concat chunks.

(** The log is what is on the disk and then what is in the buffer. *)
Definition holds (w : writer) (data log : bytes) : Prop :=
  length (buffer w) = BUFFER_SIZE /\ (bytes_total w <= BUFFER_SIZE)%nat /\ synced (w_file w) = length (written (w_file w)) /\
  on_disk (w_file w) data /\ log = data ++ take (bytes_total w) (buffer w).
Definition ready (w : writer) (data log : bytes) : Prop := holds w data log /\ (bytes_total w < BUFFER_SIZE)%nat.

Lemma created mem : length mem = BUFFER_SIZE ->
  runs (create BUFFER_SIZE block_size mem) tt (fun w _ => ready w [] []).
Proof.
  intros Hm. unfold create, runs. mrun. rewrite Hblock. cbn. split; [|cbn; lia]. split_and!; cbn; [done|lia|done| |done]. now exists [].
Qed.

Lemma on_disk_write f data chunk img calls : synced f = length (written f) -> on_disk f data -> image chunk img ->
  on_disk (File (written f ++ [img]) (length (written f ++ [img])) calls) (data ++ chunk).
Proof.
  intros Hs (chunks & Hc & ->) Hi. exists (chunks ++ [chunk]). cbn [written synced]. rewrite take_ge by lia. rewrite take_ge in Hc by lia.
  split; [apply Forall2_app; [done|by constructor]|]. rewrite concat_app. cbn. now rewrite app_nil_r.
Qed.

Definition blocks (n : nat) : nat := if emulated_persist_latency =? 0 then roundUp n block_size else n.

Lemma image_take n (b : bytes) : length b = BUFFER_SIZE -> (n <= BUFFER_SIZE)%nat -> image (take n b) (take (blocks n) b).
Proof.
  intros Hb Hn. unfold image, blocks. destruct (Z.eqb_spec emulated_persist_latency 0); [|done].
  pose proof (roundUp_ge n block_size). pose proof (roundUp_le n block_size _ Hblock Hn). split.
  - exists (take (roundUp n block_size - n) (drop n b)). rewrite take_take_drop. f_equal. lia.
  - rewrite !length_take, (Nat.min_l n) by lia. lia.
Qed.

Lemma io_size_blocks n w : (n <= BUFFER_SIZE)%nat -> io_size BUFFER_SIZE block_size emulated_persist_latency n w = Ret (blocks n) w.
Proof.
  intros Hn. unfold io_size, blocks. destruct (emulated_persist_latency =? 0); [|done]. mrun.
  now rewrite (proj2 (Nat.leb_le _ _) (roundUp_le n block_size _ Hblock Hn)).
Qed.

Lemma buffered_flush w data log : holds w data log ->
  runs (flush BUFFER_SIZE block_size emulated_persist_latency) w (fun s w' =>
    s = bytes_total w /\ ready w' log log /\ bytes_total w' = 0%nat).
Proof.
  intros (Hb & Hn & Hs & Hd & ->). destruct w as [f b n]. cbn in Hb, Hn, Hs, Hd |- *. unfold flush, runs.
  cbv [mbind M_bind gets]. cbn [bytes_total]. destruct (Nat.ltb_spec 0 n) as [Hpos|]; cbv [when_].
  - rewrite io_size_blocks by done. cbv [on_file lift_with]. cbn [w_file buffer bytes_total]. rewrite posix_write_full.
    unfold fdatasync, get_errno. cbn [written synced w_file buffer bytes_total].
    rewrite sync_works. cbn [written synced w_file buffer bytes_total]. rewrite no_errno, (proj2 (Z.leb_le 0 _)) by lia. mrun.
    pose proof (fun calls => on_disk_write f data (take n b) (take (blocks n) b) calls Hs Hd (image_take n b Hb Hn)) as Hw. split_and!; try done.
    split; [|cbn; lia]. split_and!; cbn; [done|lia|done|apply Hw|]. now rewrite app_nil_r.
  - replace n with 0%nat in * by lia. mrun. rewrite app_nil_r. split_and!; try done.
    split; [|cbn; lia]. split_and!; cbn; [done|lia|done|done|]. now rewrite app_nil_r.
Qed.

Lemma filled w data log str : holds w data log -> (bytes_total w + length str <= BUFFER_SIZE)%nat ->
  holds (Writer (w_file w) (copy_at (bytes_total w) str (length str) (buffer w)) (bytes_total w + length str)) data (log ++ str).
Proof.
  intros (Hb & Hn & Hs & Hd & ->) Hl. split_and!; cbn [w_file buffer bytes_total]; [rewrite copy_at_length; lia|lia|done|done|].
  rewrite copy_at_take by lia. now rewrite app_assoc.
Qed.

Lemma buffered_write w data log str : ready w data log -> (length str <= BUFFER_SIZE)%nat ->
  runs (write BUFFER_SIZE block_size emulated_persist_latency str) w (fun _ w' =>
    exists data', ready w' data' (log ++ str) /\ (length data <= length data')%nat).
Proof.
  intros [Hw Hn] Hl. unfold write. apply runs_bind, runs_gets.
  destruct (Nat.ltb_spec (bytes_total w + length str) BUFFER_SIZE) as [Hlt|Hge].
  - unfold runs. mrun. exists data. split; [|done]. split; [|cbn; lia]. apply filled; [done|lia].
  - cbv zeta. set (c := (BUFFER_SIZE - bytes_total w)%nat).
    assert (Hc : length (take c str) = c) by (rewrite length_take; unfold c; lia).
    apply runs_bind, runs_modify.
    apply runs_bind, runs_modify. cbn [w_file buffer bytes_total].
    apply runs_bind. pose proof (filled w data log (take c str) Hw) as Hf. rewrite Hc in Hf |- *. specialize (Hf ltac:(unfold c; lia)).
    refine (runs_mono _ _ _ _ (buffered_flush _ _ _ Hf) _). intros _ w' (_ & [Hw' _] & Hz).
    assert (Hr : length (drop c str) = (bytes_total w + length str - BUFFER_SIZE)%nat) by (rewrite length_drop; unfold c; lia).
    rewrite (proj2 (Nat.leb_gt _ _)) by lia. unfold runs. mrun. rewrite Hz. pose proof (filled w' _ _ (drop c str) Hw') as Hf'.
    rewrite Hz in Hf'. specialize (Hf' ltac:(lia)). cbn [Nat.add] in Hf'. rewrite <- app_assoc, take_drop in Hf'.
    exists (log ++ take c str). split; [split; [exact Hf'|cbn; lia]|]. destruct Hw as (_ & _ & _ & _ & ->). rewrite !length_app. lia.
Qed.

(** [SimpleWALLogger]: a record that is to persist is on the disk, with all before
    it, when its write returns. *)
Lemma simple_write w data log str persist : ready w data log -> (length str <= BUFFER_SIZE)%nat ->
  runs (SimpleWALLogger.write BUFFER_SIZE block_size emulated_persist_latency str persist) w (fun _ w' =>
    exists data', ready w' data' (log ++ str) /\ (length data <= length data')%nat /\ (persist = true -> data' = log ++ str)).
Proof.
  intros Hw Hl. unfold SimpleWALLogger.write. apply runs_bind. refine (runs_mono _ _ _ _ (buffered_write w data log str Hw Hl) _).
  intros _ w1 (data1 & Hw1 & Hlen). destruct persist; [|unfold runs; mrun; exists data1; split_and!; easy].
  apply runs_bind. cbv [when_]. apply runs_bind. refine (runs_mono _ _ _ _ (buffered_flush w1 _ _ (proj1 Hw1)) _).
  intros _ w2 (_ & Hw2 & _). unfold runs. mrun. exists (log ++ str). split_and!; [done| |done].
  destruct Hw as [(_ & _ & _ & _ & ->) _]. rewrite !length_app. lia.
Qed.
End writer.
End Buffered.

(** ** The writer without direct I/O *)

Module Plain.
Import BufferedDirectFileWriter BufferedFileWriter.
#[local] Arguments content : simpl never.
Section writer.
Context {os : Os} {Hos : OsHealthy os} (BUFFER_SIZE : nat) (emulated_persist_latency : Z) (Hsize : (0 < BUFFER_SIZE)%nat).

Definition holds (w : writer) (log : bytes) : Prop :=
  length (buffer w) = BUFFER_SIZE /\ (bytes_total w <= BUFFER_SIZE)%nat /\
  log = content (w_file w) ++ take (bytes_total w) (buffer w).

Lemma content_snoc f data n calls : content (File (written f ++ [data]) n calls) = content f ++ data.
Proof. unfold content. cbn. rewrite concat_app. cbn. now rewrite app_nil_r. Qed.

Lemma plain_flush w log : holds w log ->
  runs flush w (fun _ w' => holds w' log /\ bytes_total w' = 0%nat /\ content (w_file w') = log).
Proof.
  intros (Hb & Hn & ->). destruct w as [f b n]. cbn in Hb, Hn |- *. unfold flush, runs.
  cbv [mbind M_bind gets]. cbn [bytes_total]. destruct (Nat.ltb_spec 0 n) as [Hpos|]; cbv [when_].
  - cbv [on_file lift_with]. cbn [w_file buffer bytes_total]. rewrite posix_write_full. cbn [w_file buffer bytes_total].
    rewrite (proj2 (Z.leb_le 0 _)) by lia. mrun. rewrite content_snoc. split_and!; try done. split_and!; cbn; [done|lia|].
    now rewrite content_snoc, app_nil_r.
  - replace n with 0%nat in * by lia. mrun. rewrite app_nil_r. split_and!; try done. split_and!; cbn; [done|lia|now rewrite app_nil_r].
Qed.

Lemma plain_filled w log str : holds w log -> (bytes_total w + length str <= BUFFER_SIZE)%nat ->
  holds (Writer (w_file w) (copy_at (bytes_total w) str (length str) (buffer w)) (bytes_total w + length str)) (log ++ str).
Proof.
  intros (Hb & Hn & ->) Hl. split_and!; cbn [w_file buffer bytes_total]; [rewrite copy_at_length; lia|lia|].
  rewrite copy_at_take by lia. now rewrite app_assoc.
Qed.

(** Records of any size: what is in the file and in the buffer is what was written. *)
Lemma plain_write w log str : holds w log -> (bytes_total w < BUFFER_SIZE)%nat ->
  runs (write BUFFER_SIZE str) w (fun _ w' => holds w' (log ++ str) /\ (bytes_total w' < BUFFER_SIZE)%nat).
Proof.
  intros Hw Hn. unfold write. apply runs_bind, runs_gets.
  destruct (Nat.ltb_spec (bytes_total w + length str) BUFFER_SIZE) as [Hlt|Hge].
  - unfold runs. mrun. split; [apply plain_filled; [done|lia]|lia].
  - cbv zeta. set (c := (BUFFER_SIZE - bytes_total w)%nat).
    assert (Hc : length (take c str) = c) by (rewrite length_take; unfold c; lia).
    apply runs_bind, runs_modify. apply runs_bind, runs_modify. cbn [w_file buffer bytes_total].
    apply runs_bind. pose proof (plain_filled w log (take c str) Hw) as Hf. rewrite Hc in Hf |- *. specialize (Hf ltac:(unfold c; lia)).
    refine (runs_mono _ _ _ _ (plain_flush _ _ Hf) _). intros _ w' (Hw' & Hz & Ec).
    destruct (Nat.leb_spec BUFFER_SIZE (length (drop c str))) as [Hbig|Hsmall].
    + unfold runs. cbv [mbind M_bind on_file lift_with]. rewrite posix_write_full. rewrite (proj2 (Z.leb_le 0 _)) by lia. mrun.
      split; [|lia]. destruct Hw' as (Hb' & _). split_and!; cbn; [done|lia|]. rewrite content_snoc, Ec, app_nil_r, <- app_assoc, take_drop. done.
    + unfold runs. mrun. rewrite Hz. pose proof (plain_filled w' _ (drop c str) Hw') as Hf'.
      rewrite Hz in Hf'. specialize (Hf' ltac:(lia)). cbn [Nat.add] in Hf'. rewrite <- app_assoc, take_drop in Hf'. split; [exact Hf'|cbn; lia].
Qed.

Lemma plain_sync w log : holds w log -> emulated_persist_latency = 0 ->
  runs (sync emulated_persist_latency) w (fun _ w' =>
    holds w' log /\ content (w_file w') = log /\ synced (w_file w') = length (written (w_file w'))).
Proof.
  intros Hw ->. unfold sync. apply runs_bind. refine (runs_mono _ _ _ _ (plain_flush w log Hw) _). intros _ w' ((Hb & Hn & El) & Hz & Ec).
  unfold runs. cbv [when_ on_file lift_with fdatasync]. cbn. rewrite sync_works. cbn. split_and!; try done.
Qed.
End writer.
End Plain.

(** ** Group commit *)

Module GroupCommit.
Import BufferedDirectFileWriter GroupCommitLogger Buffered.
Section group_commit.
Context {os : Os} {Hos : OsHealthy os} (BUFFER_SIZE block_size : nat) (emulated_persist_latency : Z).
Context (group_commit_latency_us : Z) (group_commit_txn_cnt : nat).
Context (Hsize : (0 < BUFFER_SIZE)%nat) (Hblock : (BUFFER_SIZE mod block_size = 0)%nat).

Local Abbreviation append := (append BUFFER_SIZE block_size emulated_persist_latency).
Local Abbreviation do_sync := (do_sync BUFFER_SIZE block_size emulated_persist_latency group_commit_latency_us group_commit_txn_cnt).
Local Abbreviation sync_due := (sync_due group_commit_latency_us group_commit_txn_cnt).
Local Abbreviation on_disk := (on_disk block_size emulated_persist_latency).
Local Abbreviation ready := (ready BUFFER_SIZE block_size emulated_persist_latency).

(** A call of [write] that is to persist has appended its record, or is in the loop
    of [sync]. *)
Inductive call := Entering (lsn : nat) | Waiting (lsn : nat).

(** The logger, the calls that have not returned, the records in the order in which
    they were appended, and the results of the calls that have returned. *)
Record system := System { s_logger : logger; calls : gmap Z call; history : list bytes; persisted : list nat }.

Inductive step : system -> system -> Prop :=
| step_append tid str lsn l l' c h p :
    c !! tid = None -> (length str <= BUFFER_SIZE)%nat -> append str l = Ret lsn l' ->
    step (System l c h p) (System l' c (h ++ [str]) p)
| step_append_persist tid str lsn l l' c h p :
    c !! tid = None -> (length str <= BUFFER_SIZE)%nat -> append str l = Ret lsn l' ->
    step (System l c h p) (System l' (<[tid := Entering lsn]> c) (h ++ [str]) p)
| step_enter tid lsn l l' c h p :
    c !! tid = Some (Entering lsn) -> enter_sync l = Ret tt l' ->
    step (System l c h p) (System l' (<[tid := Waiting lsn]> c) h p)
| step_return tid lsn l l' c h p :
    c !! tid = Some (Waiting lsn) -> sync_done lsn l = Ret true l' ->
    step (System l c h p) (System l' (delete tid c) h (p ++ [lsn]))
| step_sync now later l l' c h p :
    do_sync now later l = Ret tt l' ->
    step (System l c h p) (System l' c h p).

Definition start (w : writer) (now : Z) : system := System (Logger w 0 0 now 0) ∅ [] [].

Definition call_lsn (c : call) : nat := match c with Entering lsn | Waiting lsn => lsn end.

Definition inv (s : system) : Prop :=
  let l := s_logger s in
  let log := concat (history s) in
  write_lsn l = length log /\ (sync_lsn l <= write_lsn l)%nat /\
  (exists data, ready (l_writer l) data log /\ (sync_lsn l <= length data)%nat) /\
  (forall lsn, lsn ∈ persisted s -> (lsn <= sync_lsn l)%nat) /\
  (forall tid c, calls s !! tid = Some c -> (call_lsn c <= write_lsn l)%nat).

Lemma append_spec l str data log : write_lsn l = length log -> ready (l_writer l) data log -> (length str <= BUFFER_SIZE)%nat ->
  runs (append str) l (fun lsn l' => lsn = length (log ++ str) /\ write_lsn l' = lsn /\ sync_lsn l' = sync_lsn l /\
    exists data', ready (l_writer l') data' (log ++ str) /\ (length data <= length data')%nat).
Proof.
  intros Hl Hw Hs. unfold GroupCommitLogger.append. apply runs_bind, runs_gets. apply runs_bind, runs_lift.
  refine (runs_mono _ _ _ _ (buffered_write _ _ _ Hsize Hblock _ _ _ _ Hw Hs) _). intros _ w' Hw'. unfold runs. mrun.
  rewrite Hl, length_app. split_and!; easy.
Qed.

Lemma do_sync_spec l now later data log : write_lsn l = length log -> ready (l_writer l) data log -> (sync_lsn l <= length data)%nat ->
  runs (do_sync now later) l (fun _ l' => write_lsn l' = write_lsn l /\ (sync_lsn l <= write_lsn l -> sync_lsn l <= sync_lsn l')%nat /\
    (sync_due now l = true -> sync_lsn l' = write_lsn l) /\ (sync_lsn l' <= write_lsn l \/ sync_lsn l' = sync_lsn l)%nat /\
    exists data', ready (l_writer l') data' log /\ (sync_lsn l' <= length data')%nat).
Proof.
  intros Hl Hw Hd. unfold GroupCommitLogger.do_sync. apply runs_bind, runs_gets.
  destruct (sync_due now l); cbn [negb]; [|unfold runs; mrun; split_and!; try done; [by right|by exists data]].
  apply runs_bind, runs_gets. apply runs_bind, runs_gets. apply runs_bind, runs_gets. apply runs_bind. cbv [when_].
  destruct (Nat.ltb_spec (sync_lsn l) (write_lsn l)).
  - apply runs_bind, runs_lift. refine (runs_mono _ _ _ _ (buffered_flush _ _ _ Hsize Hblock _ _ _ (proj1 Hw)) _). intros _ w' (_ & Hw' & _).
    unfold runs. mrun. split_and!; try (lia || done). exists log. split; [done|lia].
  - unfold runs. mrun. split_and!; try (lia || done). exists data. split; [done|lia].
Qed.

Lemma group_inv_step s s' : inv s -> step s s' -> inv s'.
Proof.
  intros (Hl & Hsl & (data & Hw & Hd) & Hp & Hc) Hstep.
  inversion Hstep as [? str ? ? ? ? ? ? ? Hs E|? str ? ? ? ? ? ? ? Hs E|? lsn ? ? ? ? ? Ec E|? lsn ? ? ? ? ? Ec E|? ? ? ? ? ? ? E]; subst s s'; cbn in *.
  - pose proof (runs_inv _ _ _ _ _ (append_spec _ str _ _ Hl Hw Hs) E) as (-> & El & Es & data' & Hw' & Hd').
    rewrite length_app in El. unfold inv. cbn. rewrite concat_app. cbn. rewrite app_nil_r, El, Es, length_app. split_and!; [lia|lia| |done|].
    + exists data'. split; [done|lia].
    + intros tid' c' Hc'. specialize (Hc tid' c' Hc'). lia.
  - pose proof (runs_inv _ _ _ _ _ (append_spec _ str _ _ Hl Hw Hs) E) as (-> & El & Es & data' & Hw' & Hd').
    unfold inv. cbn. rewrite concat_app. cbn. rewrite app_nil_r, El, Es, length_app. split_and!; [lia|lia| |done|].
    + exists data'. split; [done|lia].
    + intros tid' c' [[<- <-]|[_ Hc']]%lookup_insert_Some; [cbn; lia|]. specialize (Hc tid' c' Hc'). lia.
  - injection E as <-. unfold inv. cbn. split_and!; try done; [by exists data|].
    intros tid' c' [[<- <-]|[_ Hc']]%lookup_insert_Some; [exact (Hc _ _ Ec)|exact (Hc _ _ Hc')].
  - unfold sync_done in E. cbv [mbind M_bind gets mret M_ret] in E. injection E as Et <-. apply negb_true_iff, Nat.ltb_ge in Et.
    unfold inv. cbn. split_and!; try done; [by exists data| |].
    + intros n [Hn| ->%list_elem_of_singleton]%elem_of_app; auto.
    + intros tid' c' [_ Hc']%lookup_delete_Some. eauto.
  - pose proof (runs_inv _ _ _ _ _ (do_sync_spec _ _ _ _ _ Hl Hw Hd) E) as (El & Hmono & _ & Hle & data' & Hw' & Hd').
    unfold inv. cbn. rewrite El. split_and!; [done|lia|by exists data'| |done]. intros n Hn. specialize (Hp n Hn). lia.
Qed.

Lemma inv_reachable w now s : ready w [] [] -> rtc step (start w now) s -> inv s.
Proof.
  intros Hw Hs. assert (H0 : inv (start w now)).
  { unfold inv, start. cbn. split_and!; [done|lia|by exists []| |]; [intros ? Hn; now apply elem_of_nil in Hn|easy]. }
  clear Hw. induction Hs; [done|]. eauto using group_inv_step.
Qed.

(** Group commit is durable.  Whatever the interleaving of the calls of [write] and
    the background thread: a call that was to persist and has returned a log
    position has all of the log up to there on the disk; appending a record never
    fails; and when a synchronization is due it writes, and every call that waits
    can then return. *)
Theorem group_commit_durable mem w now s :
  length mem = BUFFER_SIZE -> create BUFFER_SIZE block_size mem tt = Ret w tt -> rtc step (start w now) s ->
  (forall lsn, lsn ∈ persisted s -> exists data, on_disk (w_file (l_writer (s_logger s))) data /\
    take lsn (concat (history s)) `prefix_of` data) /\
  (forall str, (length str <= BUFFER_SIZE)%nat ->
    runs (append str) (s_logger s) (fun lsn _ => lsn = length (concat (history s ++ [str])))) /\
  (forall now later, sync_due now (s_logger s) = true ->
    runs (do_sync now later) (s_logger s) (fun _ l' =>
      forall tid lsn, calls s !! tid = Some (Waiting lsn) -> sync_done lsn l' = Ret true l')).
Proof.
  intros Hm Ew Hs. pose proof (created BUFFER_SIZE block_size emulated_persist_latency Hsize Hblock mem Hm) as Hw. unfold runs in Hw. rewrite Ew in Hw.
  destruct (inv_reachable w now s Hw Hs) as (Hl & Hsl & (data & Hr & Hd) & Hp & Hc). split_and!.
  - intros lsn Hlsn. specialize (Hp lsn Hlsn). exists data. destruct Hr as [(_ & _ & _ & Hdisk & Elog) _]. split; [done|].
    rewrite Elog, take_app_le by lia. apply prefix_take.
  - intros str Hstr. refine (runs_mono _ _ _ _ (append_spec _ str _ _ Hl Hr Hstr) _). intros lsn l' [-> _].
    rewrite concat_app. cbn. now rewrite app_nil_r.
  - intros now' later Hdue. refine (runs_mono _ _ _ _ (do_sync_spec _ now' later _ _ Hl Hr Hd) _).
    intros _ l' (El & _ & Hs' & _) tid lsn Hcall. specialize (Hc _ _ Hcall). cbn in Hc. unfold sync_done. cbv [mbind M_bind gets mret M_ret].
    rewrite (Hs' Hdue), (proj2 (Nat.ltb_ge _ _)) by lia. done.
Qed.
End group_commit.
End GroupCommit.
