(* ===== verification/WALPasha.v ===== *)
(** * The log of a host: workers, queues and the logger thread

    What [WAL.Pasha] does with any interleaving of the workers' writes, the epochs
    and the work of the logger thread: which system calls it issues, whatever the
    operating system answers, since the answers are ignored. *)

From S2P Require Import Prelude WAL WALSpec.
Import Pasha.

Section pasha_log.
Context {os : Os} (block_size max_buffer_size max_log_buffer_queue_size : nat) (fresh : bytes).
Context (Hblock : (max_buffer_size mod block_size = 0)%nat) (Hfresh : length fresh = max_buffer_size).

Local Abbreviation slave_write := (slave_write max_buffer_size max_log_buffer_queue_size fresh).
Local Abbreviation write := (write max_buffer_size max_log_buffer_queue_size fresh).
Local Abbreviation flush_one := (flush_one block_size).
Local Abbreviation flush_queue := (flush_queue block_size).
Local Abbreviation flush_queues := (flush_queues block_size max_log_buffer_queue_size).
Local Abbreviation do_sync := (do_sync block_size max_log_buffer_queue_size).
Local Abbreviation tick := (tick block_size max_log_buffer_queue_size).
Local Abbreviation new_loggers := (new_loggers fresh).

(** What happens in the host, in any order: a worker writes a record, having loaded
    the epoch some epochs ago; the epoch grows; the logger writes the first buffer
    of a queue to the disk. *)
Inductive event :=
| Write (w : nat) (lag : nat) (str : bytes) (persist : bool) (start_time : Z)
| NextEpoch
| Flush (w : nat).

Definition exec (e : event) : M loggers unit :=
  match e with
  | Write w lag str persist start_time =>
      epoch ← gets cxl_global_epoch;
      on_slave w (slave_write (Z.max 0 (epoch - Z.of_nat lag)) str persist start_time);; mret tt
  | NextEpoch => next_epoch
  | Flush w => flush_one w;; mret tt
  end.
Fixpoint exec_all (es : list event) : M loggers unit :=
  match es with [] => mret tt | e :: es => exec e;; exec_all es end.

(** The events that make sense with [n] workers. *)
Definition event_ok (n : nat) (e : event) : Prop :=
  match e with
  | Write w _ str _ _ => (w < n)%nat /\ (length str <= max_buffer_size)%nat
  | NextEpoch => True
  | Flush w => (w < n)%nat
  end.

(** The records of a worker: their bytes, and whether they end a transaction. *)
Definition record : Type := bytes * bool.
Definition records (w : nat) (es : list event) : list record :=
  omap (fun e => match e with Write w' _ str persist _ => if (w =? w')%nat then Some (str, persist) else None | _ => None end) es.

(** A buffer that has these records, one after the other. *)
Definition payload (b : LogBuffer) : bytes := take (size b) (b_bytes b).
Definition packs (b : LogBuffer) (rs : list record) : Prop :=
  length (b_bytes b) = max_buffer_size /\ (size b <= max_buffer_size)%nat /\ payload b = concat rs.*1 /\
  length (txn_start_times b) = length (filter (fun r => r.2 = true) rs).

(** The buffers of a worker, [old] ones that have left its queue first, have its
    records, and no record is cut in two. *)
Definition slave_has (old : list LogBuffer) (s : slave) (rs : list record) : Prop :=
  exists gs cur, rs = concat gs ++ cur /\ Forall2 packs (old ++ log_buffer_queue s) gs /\ packs (cur_log_buffer s) cur.

Definition image (b : LogBuffer) : bytes := take (roundUp (size b) block_size) (b_bytes b).
Definition of_worker (w : nat) (bs : list (nat * LogBuffer)) : list LogBuffer := (filter (fun p => p.1 = w) bs).*2.

(** The calls that take a buffer to the disk. *)
Definition calls_for (b : LogBuffer) : list syscall := [SysWrite (image b); SysFdatasync].

(** The calls for the buffers [bs] were issued, in blocks; what each worker has
    written is there, in its queue and in its buffer; and the counters are right. *)
Definition exact (l : loggers) (recs : nat -> list record) (bs : list (nat * LogBuffer)) : Prop :=
  issued (file_writer l) = (bs ≫= calls_for ∘ snd) /\
  disk_sync_cnt l = length bs /\ disk_sync_size l = sum_list_with (size ∘ snd) bs /\
  committed_txn_cnt l = sum_list_with (length ∘ txn_start_times ∘ snd) bs /\
  forall w s, slaves l !! w = Some s ->
    slave_has (of_worker w bs) s (recs w) /\ (length (log_buffer_queue s) <= max_log_buffer_queue_size)%nat.

(** No worker is ahead of the epoch, and the counter has not run over. *)
Definition epochs_ok (l : loggers) (n : nat) : Prop :=
  0 <= cxl_global_epoch l <= Z.of_nat n /\ forall w s, slaves l !! w = Some s -> last_epoch s <= cxl_global_epoch l.

Lemma packs_new : packs (new_buffer fresh) [].
Proof. unfold packs, payload, new_buffer. cbn. split_and!; [done|lia|done|done]. Qed.

Lemma packs_append b rs str (p : bool) times : packs b rs -> (size b + length str <= max_buffer_size)%nat ->
  length times = (length (txn_start_times b) + if p then 1 else 0)%nat ->
  packs (MkBuffer (copy_at (size b) str (length str) (b_bytes b)) (size b + length str) times) (rs ++ [(str, p)]).
Proof.
  intros (Hl & Hs & Hp & Ht) Hsz Etimes. unfold packs, payload. cbn [b_bytes size txn_start_times]. split_and!.
  - rewrite copy_at_length; lia.
  - lia.
  - rewrite copy_at_take by lia. fold (payload b). rewrite Hp, fmap_app, concat_app. cbn. now rewrite app_nil_r.
  - rewrite Etimes, Ht, filter_app, length_app. f_equal. now destruct p.
Qed.

Lemma append_record_spec b e q rs str (p : bool) t : packs b rs -> (size b + length str <= max_buffer_size)%nat ->
  runs (append_record max_buffer_size str;;
        when_ p (b ← gets cur_log_buffer; set_cur (MkBuffer (b_bytes b) (size b) (txn_start_times b ++ [t])));;
        mret (length str)) (Slave b e q) (fun _ s' =>
    last_epoch s' = e /\ log_buffer_queue s' = q /\ packs (cur_log_buffer s') (rs ++ [(str, p)])).
Proof.
  intros Hb Hl. apply runs_bind. unfold append_record. apply runs_bind, runs_gets. cbn [cur_log_buffer]. rewrite (proj2 (Nat.leb_le _ _)) by done.
  apply runs_modify. cbn [last_epoch log_buffer_queue]. destruct p; unfold runs; mrun; (split_and!; [done|done|]); apply packs_append; try done; cbn; rewrite ?length_app; cbn; lia.
Qed.

(** A write by a slave adds its record; it waits only for a full queue. *)
Lemma slave_write_spec old s rs e str p t : slave_has old s rs -> (length str <= max_buffer_size)%nat ->
  match slave_write e str p t s with
  | Ret _ s' => slave_has old s' (rs ++ [(str, p)]) /\ last_epoch s' <= last_epoch s `max` e /\
      (length (log_buffer_queue s') <= max max_log_buffer_queue_size (length (log_buffer_queue s)))%nat
  | Spin => (max_log_buffer_queue_size <= length (log_buffer_queue s))%nat
  | _ => False
  end.
Proof.
  intros (gs & cur & -> & Hq & Hc) Hl. destruct s as [b last q]. cbn [log_buffer_queue cur_log_buffer last_epoch] in *.
  assert (Hin : forall gs' cur' b' e' q', concat gs' ++ cur' = concat gs ++ cur -> Forall2 packs (old ++ q') gs' -> packs b' cur' ->
    (size b' + length str <= max_buffer_size)%nat -> e' <= last `max` e ->
    (length q' <= max max_log_buffer_queue_size (length q))%nat ->
    runs (append_record max_buffer_size str;;
          when_ p (b ← gets cur_log_buffer; set_cur (MkBuffer (b_bytes b) (size b) (txn_start_times b ++ [t])));;
          mret (length str)) (Slave b' e' q') (fun _ s' =>
      slave_has old s' ((concat gs ++ cur) ++ [(str, p)]) /\ last_epoch s' <= last `max` e /\
      (length (log_buffer_queue s') <= max max_log_buffer_queue_size (length q))%nat)).
  { intros gs' cur' b' e' q' Erec Hq' Hc' Hsz He Hlen. refine (runs_mono _ _ _ _ (append_record_spec b' e' q' cur' str p t Hc' Hsz) _).
    intros _ s' (-> & Eq & Hp). split_and!; [|done|by rewrite Eq]. exists gs', (cur' ++ [(str, p)]). rewrite Eq, app_assoc, Erec. done. }
  assert (Hruns : forall s1 (Q : nat -> slave -> Prop) (R : Prop) (m : M slave nat), runs m s1 Q -> match m s1 with Ret a s' => Q a s' | Spin => R | _ => False end).
  { intros s1 Q R m Hm. unfold runs in Hm. now destruct (m s1). }
  unfold Pasha.slave_write. cbv [mbind M_bind gets]. cbn [cur_log_buffer last_epoch].
  destruct ((max_buffer_size <? size b + length str)%nat || (last <? e)) eqn:Efull; cbv [when_].
  - destruct (Nat.ltb_spec 0 (size b)) as [Hpos|Hzero].
    + unfold push. cbn [log_buffer_queue]. destruct (Nat.ltb_spec (length q) max_log_buffer_queue_size) as [Hroom|Hfull]; [|mrun; lia].
      cbv [set_cur set_last_epoch modify]. cbn [cur_log_buffer last_epoch log_buffer_queue].
      refine (Hruns _ _ _ _ (Hin (gs ++ [cur]) [] (new_buffer fresh) e (q ++ [b]) _ _ packs_new _ _ _)); cbn; [| |lia|lia|rewrite length_app; cbn; lia].
      * rewrite concat_app. cbn. now rewrite !app_nil_r.
      * rewrite app_assoc. apply Forall2_app; [done|by constructor].
    + cbv [set_last_epoch modify mret M_ret]. cbn [cur_log_buffer log_buffer_queue].
      refine (Hruns _ _ _ _ (Hin gs cur b e q eq_refl Hq Hc _ _ _)); lia.
  - cbv [mret M_ret]. apply orb_false_iff in Efull as [Ef He]. apply Nat.ltb_ge in Ef.
    refine (Hruns _ _ _ _ (Hin gs cur b last q eq_refl Hq Hc _ _ _)); lia.
Qed.

Lemma records_snoc w es e : records w (es ++ [e]) = records w es ++ records w [e].
Proof. unfold records. now rewrite omap_app. Qed.

Lemma exact_write l recs bs w s lag str p t : exact l recs bs -> slaves l !! w = Some s -> (length str <= max_buffer_size)%nat ->
  match exec (Write w lag str p t) l with
  | Ret _ l' => exact l' (fun w' => recs w' ++ records w' [Write w lag str p t]) bs /\ length (slaves l') = length (slaves l)
  | Spin => (max_log_buffer_queue_size <= length (log_buffer_queue s))%nat
  | _ => False
  end.
Proof.
  intros (H1 & H3 & H4 & H5 & Hs) Hw Hl. pose proof (Hs w s Hw) as (Hhas & Hq).
  unfold exec. cbv [mbind M_bind gets]. unfold on_slave. rewrite Hw.
  pose proof (slave_write_spec _ s _ (Z.max 0 (cxl_global_epoch l - Z.of_nat lag)) str p t Hhas Hl) as Hsw.
  destruct (slave_write (Z.max 0 (cxl_global_epoch l - Z.of_nat lag)) str p t s) as [a s'| | |] eqn:E; cbn; try done.
  destruct Hsw as (Hhas' & He' & Hq'). split; [|now rewrite length_insert]. split_and!; try done.
  intros w' s1 Hw'. cbn [slaves] in Hw'. destruct (decide (w' = w)) as [->|Hne].
  - rewrite list_lookup_insert_eq in Hw' by (apply lookup_lt_is_Some; eauto). injection Hw' as <-. cbn. rewrite Nat.eqb_refl.
    split; [done|lia].
  - rewrite list_lookup_insert_ne in Hw' by done. cbn. rewrite (proj2 (Nat.eqb_neq _ _)) by done. rewrite app_nil_r. eauto.
Qed.

Lemma image_full b rs : packs b rs -> (roundUp (size b) block_size <= length (b_bytes b))%nat.
Proof. intros (Hl & Hs & _). rewrite Hl. now apply roundUp_le. Qed.

Lemma of_worker_snoc w w' bs b : of_worker w (bs ++ [(w', b)]) = of_worker w bs ++ (if decide (w' = w) then [b] else []).
Proof.
  unfold of_worker. rewrite filter_app, fmap_app. f_equal. destruct (decide (w' = w)).
  - rewrite filter_cons_True by done. done.
  - rewrite filter_cons_False by done. done.
Qed.

(** The logger takes the first buffer of a queue to the disk. *)
Lemma exact_flush l recs bs w s : exact l recs bs -> slaves l !! w = Some s ->
  match log_buffer_queue s with
  | [] => flush_one w l = Ret false l
  | b :: q => exists l', flush_one w l = Ret true l' /\ exact l' recs (bs ++ [(w, b)]) /\
      slaves l' = <[w := Slave (cur_log_buffer s) (last_epoch s) q]> (slaves l) /\ cxl_global_epoch l' = cxl_global_epoch l
  end.
Proof.
  intros (H1 & H3 & H4 & H5 & Hs) Hw. pose proof (Hs w s Hw) as (Hhas & Hq).
  unfold Pasha.flush_one, pop_front, on_slave. cbv [mbind M_bind]. rewrite Hw. destruct s as [cur last q0]. cbn [log_buffer_queue cur_log_buffer last_epoch] in *.
  destruct q0 as [|b q]; [cbv [mret M_ret]; destruct l; cbn in *; now rewrite list_insert_id|].
  destruct Hhas as (gs & c & Erec & Hgs & Hc). cbn [log_buffer_queue cur_log_buffer] in *.
  assert (Hb : exists g, packs b g). { apply Forall2_app_inv_l in Hgs as (? & ? & _ & Hgs & _). inversion Hgs; eauto. } destruct Hb as [g Hb].
  cbv [on_disk lift_with DirectFileWriter.write DirectFileWriter.sync count_buffer modify mret M_ret]. cbn [file_writer].
  rewrite (proj2 (Nat.leb_le _ _) (image_full b g Hb)). cbv [mbind M_bind mret M_ret posix_write fdatasync]. cbn [issued].
  cbn [slaves cxl_global_epoch file_writer disk_sync_cnt disk_sync_size committed_txn_cnt written synced issued]. eexists. split; [done|]. split_and!; try done.
  unfold exact. cbn [slaves cxl_global_epoch file_writer disk_sync_cnt disk_sync_size committed_txn_cnt issued].
  rewrite H1, bind_app, !length_app, !sum_list_with_app, H3, H4, H5. cbn. split_and!; try lia; [now rewrite <- app_assoc|].
  intros w' s1 Hw'. rewrite of_worker_snoc. destruct (decide (w = w')) as [<-|Hne].
  - rewrite list_lookup_insert_eq in Hw' by (apply lookup_lt_is_Some; eauto). injection Hw' as <-. cbn [log_buffer_queue last_epoch]. split; [|cbn in Hq; lia].
    exists gs, c. cbn [log_buffer_queue cur_log_buffer]. rewrite <- app_assoc. done.
  - rewrite list_lookup_insert_ne in Hw' by done. rewrite app_nil_r. eauto.
Qed.

Lemma exact_ext l recs recs' bs : (forall w, recs w = recs' w) -> exact l recs bs -> exact l recs' bs.
Proof. intros E (H1 & H3 & H4 & H5 & Hs). split_and!; try done. intros w s Hw. rewrite <- E. eauto. Qed.

Lemma exact_step l recs bs n e l' : exact l recs bs -> length (slaves l) = n -> event_ok n e -> exec e l = Ret tt l' ->
  length (slaves l') = n /\ exists bs', exact l' (fun w => recs w ++ records w [e]) bs'.
Proof.
  intros Hex Hn Hok E. destruct e as [w lag str p t| |w]; cbn [event_ok] in Hok.
  - destruct Hok as [Hw Hl]. destruct (lookup_lt_is_Some_2 (slaves l) w) as [s Hs]; [lia|].
    pose proof (exact_write l recs bs w s lag str p t Hex Hs Hl) as Hwr. rewrite E in Hwr. destruct Hwr as [? Hlen]. split; [lia|eauto].
  - injection E as <-. cbn. split; [done|]. exists bs. destruct Hex as (H1 & H3 & H4 & H5 & Hs). split_and!; try done.
    intros w s Hw. rewrite app_nil_r. exact (Hs w s Hw).
  - destruct (lookup_lt_is_Some_2 (slaves l) w) as [s Hs]; [lia|]. pose proof (exact_flush l recs bs w s Hex Hs) as Hf.
    unfold exec in E. cbv [mbind M_bind mret M_ret] in E. assert (Hr : forall w', recs w' = recs w' ++ records w' [Flush w]) by (intros; now rewrite app_nil_r).
    destruct (log_buffer_queue s) as [|b q].
    + rewrite Hf in E. injection E as <-. split; [done|]. exists bs. exact (exact_ext _ _ _ _ Hr Hex).
    + destruct Hf as (l1 & Ef & Hf & Esl & _). rewrite Ef in E. injection E as <-. rewrite Esl, length_insert. split; [done|].
      eexists. exact (exact_ext _ _ _ _ Hr Hf).
Qed.

Lemma exact_new n : exact (new_loggers n) (fun _ => []) [].
Proof.
  split_and!; try done. intros w s [-> _]%lookup_replicate. cbn. split; [|lia]. exists [], []. split_and!; [done|constructor|exact packs_new].
Qed.

Lemma exact_run n es : forall es0 l l' bs, exact l (fun w => records w es0) bs -> length (slaves l) = n -> Forall (event_ok n) es ->
  exec_all es l = Ret tt l' -> length (slaves l') = n /\ exists bs', exact l' (fun w => records w (es0 ++ es)) bs'.
Proof.
  induction es as [|e es IH]; intros es0 l l' bs Hex Hn Hok E; cbn in E.
  - injection E as <-. rewrite app_nil_r. eauto.
  - apply bind_inv in E as ([] & l1 & E1 & E). apply Forall_cons in Hok as [He Hok].
    destruct (exact_step l _ bs n e l1 Hex Hn He E1) as (Hn1 & bs1 & Hex1).
    replace (es0 ++ e :: es) with ((es0 ++ [e]) ++ es) by now rewrite <- app_assoc.
    refine (IH (es0 ++ [e]) l1 l' bs1 _ Hn1 Hok E). refine (exact_ext _ _ _ _ _ Hex1). intros w. now rewrite records_snoc.
Qed.

(** C38: the log of a host is exact.  Whatever the order of the writes of the workers,
    the epochs and the work of the logger, and whatever the operating system answers:
    the calls issued on the log file are, for one buffer after the other, a [write]
    of the buffer in whole blocks and an [fdatasync]; for every worker, the
    buffers handed to [write], those in its queue and the one it fills have together
    the records it has written, in order, each in one piece; the counters of buffers,
    bytes and committed transactions are those of the buffers handed to [write]; and a
    write of a record fails for no record that fits, it only waits while the queue is
    full. *)
Theorem pasha_log_exact n es l :
  Forall (event_ok n) es -> exec_all es (new_loggers n) = Ret tt l ->
  (exists bs, exact l (fun w => records w es) bs) /\
  forall e, event_ok n e ->
    (exists l', exec e l = Ret tt l') \/
    (exec e l = Spin /\ exists w lag str p t s, e = Write w lag str p t /\ slaves l !! w = Some s /\
      length (log_buffer_queue s) = max_log_buffer_queue_size).
Proof.
  intros Hok E. destruct (exact_run n es [] _ l [] (exact_new n) (length_replicate n _) Hok E) as (Hn & bs & Hex). split; [by exists bs|].
  intros e He. destruct e as [w lag str p t| |w]; cbn in He.
  - destruct He as [Hw Hl]. destruct (lookup_lt_is_Some_2 (slaves l) w) as [s Hs]; [lia|].
    pose proof (exact_write l _ bs w s lag str p t Hex Hs Hl) as Hwr.
    destruct (exec (Write w lag str p t) l) as [[] l'| | |] eqn:Ew; [left; eauto| |done|done]. right. split; [done|].
    exists w, lag, str, p, t, s. split_and!; try done. destruct Hex as (_ & _ & _ & _ & Hsl). specialize (Hsl w s Hs) as (_ & ?). lia.
  - left. eexists. reflexivity.
  - destruct (lookup_lt_is_Some_2 (slaves l) w) as [s Hs]; [lia|]. pose proof (exact_flush l _ bs w s Hex Hs) as Hf. left. unfold exec.
    destruct (log_buffer_queue s) as [|b q]; [rewrite (bind_Ret _ _ _ _ _ Hf); eexists; reflexivity|].
    destruct Hf as (l1 & Ef & _). rewrite (bind_Ret _ _ _ _ _ Ef). eexists. reflexivity.
Qed.

(** ** The loops of the logger end *)

Definition drained (s : slave) : slave := Slave (cur_log_buffer s) (last_epoch s) [].

Lemma flush_queue_spec w recs fuel : forall l bs s, exact l recs bs -> slaves l !! w = Some s -> (length (log_buffer_queue s) < fuel)%nat ->
  exists l', flush_queue fuel w l = Ret tt l' /\ (exists bs', exact l' recs bs') /\ slaves l' = <[w := drained s]> (slaves l) /\
    cxl_global_epoch l' = cxl_global_epoch l.
Proof.
  induction fuel as [|fuel IH]; intros l bs s Hex Hs Hq; [lia|]. pose proof (exact_flush l recs bs w s Hex Hs) as Hf. cbn [Pasha.flush_queue].
  destruct s as [cur last q0]. cbn [log_buffer_queue cur_log_buffer last_epoch] in *. destruct q0 as [|b q].
  - rewrite (bind_Ret _ _ _ _ _ Hf). exists l. split_and!; [done|by exists bs| |done]. unfold drained. cbn. now rewrite list_insert_id.
  - destruct Hf as (l1 & Ef & Hex1 & Esl & Eep). rewrite (bind_Ret _ _ _ _ _ Ef).
    assert (Hw : (w < length (slaves l))%nat) by (apply lookup_lt_is_Some; eauto).
    destruct (IH l1 _ (Slave cur last q) Hex1) as (l' & E & Hb & Es' & Ee'); [rewrite Esl; now apply list_lookup_insert_eq|cbn in *; lia|].
    exists l'. split_and!; [done|done| |congruence]. rewrite Es', Esl, list_insert_insert_eq. done.
Qed.

Lemma flush_queues_spec recs ws : forall l bs, exact l recs bs -> Forall (fun w => w < length (slaves l))%nat ws ->
  exists l', flush_queues ws l = Ret tt l' /\ (exists bs', exact l' recs bs') /\ length (slaves l') = length (slaves l) /\
    cxl_global_epoch l' = cxl_global_epoch l /\
    forall w s, slaves l !! w = Some s -> slaves l' !! w = Some (if decide (w ∈ ws) then drained s else s).
Proof.
  induction ws as [|w ws IH]; intros l bs Hex Hws; cbn [Pasha.flush_queues]; [exists l; split_and!; eauto|].
  apply Forall_cons in Hws as [Hw Hws]. destruct (lookup_lt_is_Some_2 _ _ Hw) as [s Hs].
  destruct (flush_queue_spec w recs (S max_log_buffer_queue_size) l bs s Hex Hs) as (l1 & E1 & (bs1 & Hex1) & Es1 & Ee1).
  { destruct Hex as (_ & _ & _ & _ & Hsl). specialize (Hsl w s Hs) as (_ & ?). lia. }
  destruct (IH l1 bs1 Hex1) as (l' & E & Hb & Hlen & Ee & Hsl); [now rewrite Es1, length_insert|].
  rewrite (bind_Ret _ _ _ _ _ E1). exists l'. split_and!; [done|done|now rewrite Hlen, Es1, length_insert|congruence|].
  intros w' s' Hs'. destruct (decide (w' = w)) as [->|Hne].
  - replace s' with s by congruence. rewrite decide_True by now left. specialize (Hsl w (drained s)). rewrite Es1, list_lookup_insert_eq in Hsl by done.
    rewrite (Hsl eq_refl). now destruct (decide (w ∈ ws)).
  - specialize (Hsl w' s'). rewrite Es1, list_lookup_insert_ne in Hsl by done. rewrite (Hsl Hs'). f_equal.
    destruct (decide (w' ∈ ws)), (decide (w' ∈ w :: ws)); set_solver.
Qed.

Lemma do_sync_exact l recs bs : exact l recs bs ->
  exists l', do_sync l = Ret tt l' /\ (exists bs', exact l' recs bs') /\ length (slaves l') = length (slaves l) /\
    cxl_global_epoch l' = cxl_global_epoch l /\ forall w s, slaves l !! w = Some s -> slaves l' !! w = Some (drained s).
Proof.
  intros Hex. destruct (flush_queues_spec recs (seq 0 (length (slaves l))) l bs Hex) as (l' & E & Hb & Hlen & Ee & Hsl).
  { apply Forall_forall. intros w Hw. apply elem_of_seq in Hw. lia. }
  exists l'. split_and!; try done. intros w s Hs. rewrite (Hsl w s Hs), decide_True; [done|]. apply elem_of_seq.
  assert (w < length (slaves l))%nat by (apply lookup_lt_is_Some; eauto). lia.
Qed.

(** In a new epoch a write begins a new buffer. *)
Lemma slave_write_new_epoch s e str p t : log_buffer_queue s = [] -> (0 < max_log_buffer_queue_size)%nat -> last_epoch s < e ->
  length (b_bytes (cur_log_buffer s)) = max_buffer_size -> (length str <= max_buffer_size)%nat ->
  runs (slave_write e str p t) s (fun _ s' => payload (cur_log_buffer s') = str).
Proof.
  intros Hq Hroom He Hb Hl. destruct s as [b last q]. cbn in Hq, He, Hb |- *. subst q. unfold Pasha.slave_write, runs. cbv [mbind M_bind gets].
  cbn [cur_log_buffer last_epoch]. rewrite (proj2 (Z.ltb_lt _ _) He), orb_true_r. cbv [when_].
  assert (Hcopy : forall (c : bytes), length c = max_buffer_size -> take (length str) (copy_at 0 str (length str) c) = str).
  { intros c Hc. apply (copy_at_take 0 str c). lia. }
  destruct (Nat.ltb_spec 0 (size b)).
  - unfold push. cbn [log_buffer_queue length]. rewrite (proj2 (Nat.ltb_lt _ _) Hroom). cbv [set_cur set_last_epoch modify append_record mbind M_bind gets].
    cbn [cur_log_buffer last_epoch log_buffer_queue size new_buffer Nat.add b_bytes txn_start_times]. rewrite (proj2 (Nat.leb_le _ _) Hl).
    destruct p; cbv [mret M_ret]; unfold payload; cbn; now apply Hcopy.
  - cbv [set_cur set_last_epoch modify append_record mbind M_bind gets mret M_ret]. cbn [cur_log_buffer last_epoch log_buffer_queue].
    replace (size b) with 0%nat by lia. cbn [Nat.add]. rewrite (proj2 (Nat.leb_le _ _) Hl).
    destruct p; cbv [mret M_ret]; unfold payload; cbn; now apply Hcopy.
Qed.

(** *** Epochs *)

Lemma slave_write_epoch e str p t s s' a : slave_write e str p t s = Ret a s' -> last_epoch s' = last_epoch s \/ last_epoch s' = e.
Proof.
  destruct s as [b last q]. unfold Pasha.slave_write. cbv [mbind M_bind gets when_ push set_cur set_last_epoch modify append_record mret M_ret fault].
  cbn. repeat (match goal with |- context [if ?c then _ else _] => destruct c end; cbn; try discriminate); intros [= _ <-]; cbn; auto.
Qed.

Lemma epochs_step l n e l' : epochs_ok l n -> Z.of_nat n < 2 ^ 64 - 1 -> exec e l = Ret tt l' -> epochs_ok l' (S n).
Proof.
  intros [He Hs] Hn E. destruct e as [w lag str p t| |w].
  - unfold exec in E. cbv [mbind M_bind gets mret M_ret] in E. unfold on_slave in E. destruct (slaves l !! w) as [s|] eqn:Ew; [|discriminate E].
    destruct (slave_write _ str p t s) as [a s1| | |] eqn:E1; try discriminate E. injection E as <-. split; [cbn; lia|]. cbn. intros w' s' Hw'.
    destruct (decide (w' = w)) as [->|Hne]; [|rewrite list_lookup_insert_ne in Hw' by done; eauto].
    rewrite list_lookup_insert_eq in Hw' by (apply lookup_lt_is_Some; eauto). injection Hw' as <-. specialize (Hs w s Ew).
    destruct (slave_write_epoch _ _ _ _ _ _ _ E1) as [-> | ->]; lia.
  - injection E as <-. unfold epochs_ok. cbn. rewrite wrap_small by (unfold fits; lia). split; [lia|]. intros w s Hw. specialize (Hs w s Hw). lia.
  - assert (H : cxl_global_epoch l' = cxl_global_epoch l /\ forall w' s', slaves l' !! w' = Some s' -> exists s, slaves l !! w' = Some s /\ last_epoch s' = last_epoch s).
    { unfold exec, Pasha.flush_one, pop_front, on_slave in E. cbv [mbind M_bind mret M_ret] in E. destruct (slaves l !! w) as [s|] eqn:Ew; [|discriminate E].
      assert (Hin : forall s2, last_epoch s2 = last_epoch s -> forall w' s', <[w := s2]> (slaves l) !! w' = Some s' -> exists s, slaves l !! w' = Some s /\ last_epoch s' = last_epoch s).
      { intros s2 E2 w' s' Hw'. destruct (decide (w' = w)) as [->|Hne]; [|rewrite list_lookup_insert_ne in Hw' by done; eauto].
        rewrite list_lookup_insert_eq in Hw' by (apply lookup_lt_is_Some; eauto). injection Hw' as <-. eauto. }
      destruct (log_buffer_queue s) as [|b q]; [injection E as <-; split; [done|]; now apply Hin|].
      unfold on_disk, lift_with, DirectFileWriter.write, DirectFileWriter.sync, count_buffer in E. cbv [mbind M_bind mret M_ret posix_write fdatasync modify fault] in E.
      cbn in E. destruct (_ <=? _)%nat; [|discriminate E]. injection E as <-. split; [done|]. cbn. now apply Hin. }
    destruct H as [Ee H]. split; [lia|]. rewrite Ee. intros w' s' Hw'. destruct (H w' s' Hw') as (s & Hs0 & ->). eauto.
Qed.

Lemma epochs_run es : forall l n l', epochs_ok l n -> Z.of_nat (n + length es) < 2 ^ 64 -> exec_all es l = Ret tt l' -> epochs_ok l' (n + length es).
Proof.
  induction es as [|e es IH]; intros l n l' He Hn E; cbn in E.
  - injection E as <-. now rewrite Nat.add_0_r.
  - apply bind_inv in E as ([] & l1 & E1 & E). cbn [length] in *. rewrite <- Nat.add_succ_comm in *. apply (IH l1); [|done|done]. apply (epochs_step l n e); [done|lia|done].
Qed.

(** *** On the disk *)

Lemma exec_file (P : file -> Prop) e l l' :
  (forall f, P f -> forall data r f1, posix_write data f = Ret r f1 -> forall f2, fdatasync f1 = Ret tt f2 -> P f2) ->
  P (file_writer l) -> exec e l = Ret tt l' -> P (file_writer l').
Proof.
  intros HP Hl E. destruct e as [w lag str p t| |w].
  - unfold exec in E. cbv [mbind M_bind gets mret M_ret] in E. unfold on_slave in E. destruct (slaves l !! w) as [s|]; [|discriminate E].
    destruct (slave_write _ str p t s); try discriminate E. now injection E as <-.
  - now injection E as <-.
  - unfold exec, Pasha.flush_one, pop_front, on_slave in E. cbv [mbind M_bind mret M_ret] in E. destruct (slaves l !! w) as [s|]; [|discriminate E].
    destruct (log_buffer_queue s) as [|b q]; [now injection E as <-|].
    unfold on_disk, lift_with, DirectFileWriter.write, DirectFileWriter.sync, count_buffer in E. cbv [mbind M_bind mret M_ret modify fault] in E.
    cbn in E. destruct (_ <=? _)%nat; [|discriminate E]. injection E as <-. cbn. eapply HP; [exact Hl|reflexivity|reflexivity].
Qed.

Definition data_of (calls : list syscall) : list bytes := omap (fun c => match c with SysWrite data => Some data | SysFdatasync => None end) calls.

(** If nothing goes wrong in the operating system, the buffers handed to [write] are
    what the file has, and all of it is on the disk. *)
Lemma pasha_log_on_disk `{!OsHealthy os} n es l :
  exec_all es (new_loggers n) = Ret tt l ->
  written (file_writer l) = data_of (issued (file_writer l)) /\ synced (file_writer l) = length (written (file_writer l)).
Proof.
  set (P := fun f => written f = data_of (issued f) /\ synced f = length (written f)).
  enough (H : forall es l0 l1, P (file_writer l0) -> exec_all es l0 = Ret tt l1 -> P (file_writer l1)) by (intros E; now apply (H es (new_loggers n) l)).
  clear es l. induction es as [|e es IH]; intros l0 l1 HP E; cbn in E; [now injection E as <-|].
  apply bind_inv in E as ([] & l2 & E1 & E). apply (IH l2); [|done]. apply (exec_file P e l0); [|done|done].
  intros f [H1 H2] data r f1 Ew f2 Es. rewrite posix_write_full in Ew. injection Ew as <- <-. unfold fdatasync in Es. rewrite sync_works in Es. injection Es as <-.
  unfold P, data_of. cbn. rewrite !omap_app, H1. split; [|done]. cbn. now rewrite app_nil_r.
Qed.

(** C39: records get handed over.  From every state that the loggers can get to in less
    than 2^64 - 1 steps, when the logger begins an epoch and empties the queues, a
    worker then writes a record, and the logger empties the queues again, all of this
    returns, and everything that this worker had written before has been passed to
    [write], in order, with an [fdatasync] after each buffer. *)
Theorem pasha_records_issued n es l w str p t :
  Forall (event_ok n) es -> Z.of_nat (length es) < 2 ^ 64 - 1 -> exec_all es (new_loggers n) = Ret tt l -> (w < n)%nat -> (length str <= max_buffer_size)%nat ->
  (0 < max_log_buffer_queue_size)%nat ->
  runs (tick;; write w str p t;; do_sync) l (fun _ l' =>
    exists bs, issued (file_writer l') = (bs ≫= calls_for ∘ snd) /\ concat (payload <$> of_worker w bs) = concat (records w es).*1).
Proof.
  intros Hok Hlen E Hw Hl Hroom. destruct (exact_run n es [] _ l [] (exact_new n) (length_replicate n _) Hok E) as (Hn & bs & Hex). cbn [app] in Hex.
  apply runs_bind. unfold Pasha.tick.
  destruct (exact_step l _ bs n NextEpoch _ Hex Hn I eq_refl) as (Hn1 & bs1 & Hex1).
  destruct (do_sync_exact _ _ bs1 Hex1) as (l2 & E2 & (bs2 & Hex2) & Hn2 & Ee2 & Hs2).
  destruct (lookup_lt_is_Some_2 (slaves l) w) as [s Hs]; [lia|].
  assert (He2 : last_epoch s < cxl_global_epoch l2 /\ 0 <= cxl_global_epoch l2).
  { rewrite Ee2. cbn. destruct (epochs_run es (new_loggers n) 0 l) as [Hep Hls]; [|lia|exact E|].
    - split; [cbn; lia|]. intros w' s' [-> _]%lookup_replicate. cbn. lia.
    - rewrite wrap_small by (unfold fits; lia). specialize (Hls w s Hs). lia. }
  destruct He2 as [He2 Hep2].
  unfold runs at 1. cbn [next_epoch modify]. cbv [mbind M_bind]. cbn. rewrite E2. specialize (Hs2 w s Hs).
  pose proof (exact_write l2 _ bs2 w _ 0 str p t Hex2 Hs2 Hl) as Hwr.
  assert (Hnew : runs (slave_write (cxl_global_epoch l2) str p t) (drained s) (fun _ s' => payload (cur_log_buffer s') = str)).
  { apply slave_write_new_epoch; try done. destruct Hex as (_ & _ & _ & _ & Hsl). specialize (Hsl w s Hs) as ((gs & cur & _ & _ & Hp) & _). apply Hp. }
  unfold exec in Hwr. cbv [mbind M_bind gets] in Hwr. rewrite Z.sub_0_r, Z.max_r in Hwr by exact Hep2. unfold on_slave in Hwr. rewrite Hs2 in Hwr. unfold runs in Hnew.
  cbv [Pasha.write mbind M_bind gets runs]. unfold on_slave. rewrite Hs2.
  destruct (slave_write (cxl_global_epoch l2) str p t (drained s)) as [a s'| | |]; try done. destruct Hwr as [Hex3 Hn3]. cbv [mret M_ret] in Hex3, Hn3.
  destruct (do_sync_exact _ _ bs2 Hex3) as (l4 & E4 & (bs4 & Hex4) & _ & _ & Hs4). rewrite E4. exists bs4.
  specialize (Hs4 w s'). cbn [slaves] in Hs4. rewrite list_lookup_insert_eq in Hs4 by (rewrite Hn2; cbn; lia). specialize (Hs4 eq_refl).
  destruct Hex4 as (Hwr & _ & _ & _ & Hsl). split; [done|]. specialize (Hsl w _ Hs4) as ((gs & cur & Erec & Hgs & (_ & _ & Hp & _)) & _).
  cbn [drained log_buffer_queue cur_log_buffer] in Hgs, Hp. rewrite app_nil_r in Hgs. rewrite Hnew in Hp. cbn in Erec. rewrite Nat.eqb_refl, app_nil_r in Erec.
  assert (Ebytes : concat (records w es).*1 ++ str = concat (payload <$> of_worker w bs4) ++ str); [|now apply app_inv_tail in Ebytes].
  transitivity (concat (records w es ++ [(str, p)]).*1); [rewrite fmap_app, concat_app; cbn; now rewrite app_nil_r|].
  rewrite Erec, fmap_app, concat_app, <- Hp. f_equal. clear -Hgs. induction Hgs as [|b g bs gs (_ & _ & Hb & _) _ IH]; [done|].
  cbn. rewrite fmap_app, concat_app, Hb. f_equal. exact IH.
Qed.
End pasha_log.
