(* ===== verification/SundialPasha.v ===== *)
(** * SundialPasha: rows with a lease that move between hosts and CXL memory

    protocol/SundialPasha/SundialPashaHelper.h and SundialPashaHelper.cpp, and the
    coherence managers of protocol/Pasha (SCCManager.h, SCCWriteThrough.h,
    SCCNonTemporal.h, SCCNoOP.h).  A row is in the memory of the host of its partition,
    where only that host has access to it, or it is migrated, and all hosts work on
    the object in CXL memory that the CXL index has for it.  Calls of the migration
    policy (see [Policy]) and statistics are left out; the data of an object in CXL
    memory is what the last writer wrote (see [SCC]). *)

From S2P Require Import Prelude PashaState SundialRow.

(** ** Coherence managers *)

(** Their effect on the metadata word of a row; [None] when a [CHECK] fails. *)
Record SundialSCC := MkSundialSCC {
  init_scc_metadata : Z -> Z -> option Z;
  do_read : Z -> Z -> option Z;
  do_write : Z -> Z -> option Z
}.

Module SCCWriteThrough.
Definition bits_per_word : Z := 16.
Definition set_bit (bitmap bit_index : Z) : option Z :=
  if bit_index <? bits_per_word then Some (wrap 16 (Z.lor bitmap (Z.shiftl 1 bit_index))) else None.
Definition clear_bit (bitmap bit_index : Z) : option Z :=
  if bit_index <? bits_per_word then Some (wrap 16 (Z.land bitmap (Z.lnot (Z.shiftl 1 bit_index)))) else None.
Definition clear_all_bits (bitmap : Z) : Z := 0.
Definition is_bit_set (bitmap bit_index : Z) : option bool :=
  if bit_index <? bits_per_word then Some (negb (Z.land bitmap (Z.shiftl 1 bit_index) =? 0)) else None.

Definition init_scc_metadata (scc_meta cur_host_id : Z) : option Z := set_bit (clear_all_bits scc_meta) cur_host_id.
Definition do_read (scc_meta cur_host_id : Z) : option Z :=
  b ← is_bit_set scc_meta cur_host_id;
  if b : bool then Some scc_meta else set_bit scc_meta cur_host_id.
Definition do_write (scc_meta cur_host_id : Z) : option Z :=
  b ← is_bit_set scc_meta cur_host_id;
  if b : bool then set_bit (clear_all_bits scc_meta) cur_host_id else None.

Definition manager : SundialSCC := MkSundialSCC init_scc_metadata do_read do_write.
End SCCWriteThrough.

Definition SCCNonTemporal : SundialSCC := MkSundialSCC (fun w _ => Some w) (fun w _ => Some w) (fun w _ => Some w).
Definition SCCNoOP : SundialSCC := MkSundialSCC (fun w _ => Some w) (fun w _ => Some w) (fun w _ => Some w).

(** ** The state *)

Record SundialPashaMetadataLocal := MkPLocal {
  l_latch : bool; l_wts : Z; l_rts : Z; l_owner : Z; l_is_migrated : bool; l_migrated_row : option Z; l_is_valid : bool }.
Record SundialPashaMetadataShared := MkPShared {
  s_latch : bool; s_wts : Z; s_rts : Z; s_owner : Z; s_ref_cnt : Z; s_is_valid : bool; s_scc_meta : Z; s_is_next_key_real : bool }.

Definition SundialPashaMetadataLocalInit (is_tuple_valid : bool) : SundialPashaMetadataLocal := MkPLocal false 0 0 0 false None is_tuple_valid.
Definition SundialPashaMetadataSharedInit : SundialPashaMetadataShared := MkPShared false 0 0 0 0 false 0 false.

Record prow := MkPRow { p_meta : SundialPashaMetadataLocal; p_data : bytes }.
Record srow := MkSRow { sr_meta : SundialPashaMetadataShared; sr_data : bytes }.

Record pworld := PWorld {
  p_rows : gmap row_id prow;
  (** the objects in CXL memory, by address; freed ones are there until the allocator
      hands out their memory again *)
  p_cxl : gmap Z srow;
  p_freed : gset Z;
  p_index : gmap row_id Z;
  num_data_move_in : Z;
  num_data_move_out : Z
}.

Definition on_rows (f : gmap row_id prow -> gmap row_id prow) (w : pworld) : pworld :=
  PWorld (f (p_rows w)) (p_cxl w) (p_freed w) (p_index w) (num_data_move_in w) (num_data_move_out w).
Definition on_cxl (f : gmap Z srow -> gmap Z srow) (w : pworld) : pworld :=
  PWorld (p_rows w) (f (p_cxl w)) (p_freed w) (p_index w) (num_data_move_in w) (num_data_move_out w).
Definition on_index (f : gmap row_id Z -> gmap row_id Z) (w : pworld) : pworld :=
  PWorld (p_rows w) (p_cxl w) (p_freed w) (f (p_index w)) (num_data_move_in w) (num_data_move_out w).
Definition new_row (p : Z) (s : srow) (w : pworld) : pworld :=
  PWorld (p_rows w) (<[p := s]> (p_cxl w)) (p_freed w ∖ {[p]}) (p_index w) (num_data_move_in w) (num_data_move_out w).
Definition free_row (p : Z) (w : pworld) : pworld :=
  PWorld (p_rows w) (p_cxl w) ({[p]} ∪ p_freed w) (p_index w) (num_data_move_in w) (num_data_move_out w).
Definition count_move_in (w : pworld) : pworld :=
  PWorld (p_rows w) (p_cxl w) (p_freed w) (p_index w) (wrap 64 (num_data_move_in w + 1)) (num_data_move_out w).
Definition count_move_out (w : pworld) : pworld :=
  PWorld (p_rows w) (p_cxl w) (p_freed w) (p_index w) (num_data_move_in w) (wrap 64 (num_data_move_out w + 1)).

(** Fields of the metadata. *)
Definition l_lock (b : bool) (m : SundialPashaMetadataLocal) : SundialPashaMetadataLocal := MkPLocal b (l_wts m) (l_rts m) (l_owner m) (l_is_migrated m) (l_migrated_row m) (l_is_valid m).
Definition l_set_times (w r : Z) (m : SundialPashaMetadataLocal) : SundialPashaMetadataLocal := MkPLocal (l_latch m) w r (l_owner m) (l_is_migrated m) (l_migrated_row m) (l_is_valid m).
Definition l_set_owner (o : Z) (m : SundialPashaMetadataLocal) : SundialPashaMetadataLocal := MkPLocal (l_latch m) (l_wts m) (l_rts m) o (l_is_migrated m) (l_migrated_row m) (l_is_valid m).
Definition l_set_migrated (p : option Z) (m : SundialPashaMetadataLocal) : SundialPashaMetadataLocal := MkPLocal (l_latch m) (l_wts m) (l_rts m) (l_owner m) (bool_decide (is_Some p)) p (l_is_valid m).
Definition l_set_valid (b : bool) (m : SundialPashaMetadataLocal) : SundialPashaMetadataLocal := MkPLocal (l_latch m) (l_wts m) (l_rts m) (l_owner m) (l_is_migrated m) (l_migrated_row m) b.
Definition s_lock (b : bool) (m : SundialPashaMetadataShared) : SundialPashaMetadataShared := MkPShared b (s_wts m) (s_rts m) (s_owner m) (s_ref_cnt m) (s_is_valid m) (s_scc_meta m) (s_is_next_key_real m).
Definition s_set_times (w r : Z) (m : SundialPashaMetadataShared) : SundialPashaMetadataShared := MkPShared (s_latch m) w r (s_owner m) (s_ref_cnt m) (s_is_valid m) (s_scc_meta m) (s_is_next_key_real m).
Definition s_set_owner (o : Z) (m : SundialPashaMetadataShared) : SundialPashaMetadataShared := MkPShared (s_latch m) (s_wts m) (s_rts m) o (s_ref_cnt m) (s_is_valid m) (s_scc_meta m) (s_is_next_key_real m).
Definition s_add_ref (d : Z) (m : SundialPashaMetadataShared) : SundialPashaMetadataShared := MkPShared (s_latch m) (s_wts m) (s_rts m) (s_owner m) (wrap 64 (s_ref_cnt m + d)) (s_is_valid m) (s_scc_meta m) (s_is_next_key_real m).
Definition s_set_valid (b : bool) (m : SundialPashaMetadataShared) : SundialPashaMetadataShared := MkPShared (s_latch m) (s_wts m) (s_rts m) (s_owner m) (s_ref_cnt m) b (s_scc_meta m) (s_is_next_key_real m).
Definition s_set_scc (z : Z) (m : SundialPashaMetadataShared) : SundialPashaMetadataShared := MkPShared (s_latch m) (s_wts m) (s_rts m) (s_owner m) (s_ref_cnt m) (s_is_valid m) z (s_is_next_key_real m).
Definition s_set_next_key_real (b : bool) (m : SundialPashaMetadataShared) : SundialPashaMetadataShared := MkPShared (s_latch m) (s_wts m) (s_rts m) (s_owner m) (s_ref_cnt m) (s_is_valid m) (s_scc_meta m) b.

(** The allocator of CXL memory: an address that is not in use, or null. *)
Class SundialAlloc := {
  pasha_malloc : gset Z -> option Z;
  pasha_malloc_fresh used p : pasha_malloc used = Some p -> p ∉ used
}.

Inductive migration_result := SUCCESS | FAIL_ALREADY_IN_CXL | FAIL_OOM.

Module SundialPashaHelper.
Section helper.
Context (scc : SundialSCC) (coordinator_id : Z) `{SundialAlloc}.
(** Whether a table is an ordered one, and the sizes of the values. *)
Context (is_btree : Z -> bool) (value_size : Z -> nat).

Abbreviation MW := (M pworld).

Definition get_prow (k : row_id) : MW prow := deref (fun w => p_rows w !! k).
Definition mod_lmeta (k : row_id) (f : SundialPashaMetadataLocal -> SundialPashaMetadataLocal) : MW unit :=
  r ← get_prow k; modify (on_rows (insert k (MkPRow (f (p_meta r)) (p_data r)))).
Definition mod_ldata (k : row_id) (f : bytes -> bytes) : MW unit :=
  r ← get_prow k; modify (on_rows (insert k (MkPRow (p_meta r) (f (p_data r))))).
Definition get_srow (p : Z) : MW srow := deref (fun w => p_cxl w !! p).
Definition mod_smeta (p : Z) (f : SundialPashaMetadataShared -> SundialPashaMetadataShared) : MW unit :=
  r ← get_srow p; modify (on_cxl (insert p (MkSRow (f (sr_meta r)) (sr_data r)))).
Definition mod_sdata (p : Z) (f : bytes -> bytes) : MW unit :=
  r ← get_srow p; modify (on_cxl (insert p (MkSRow (sr_meta r) (f (sr_data r))))).

Definition lmeta_lock (k : row_id) : MW unit := r ← get_prow k; if l_latch (p_meta r) then spin else mod_lmeta k (l_lock true).
Definition lmeta_unlock (k : row_id) : MW unit := mod_lmeta k (l_lock false).
Definition smeta_lock (p : Z) : MW unit := r ← get_srow p; if s_latch (sr_meta r) then spin else mod_smeta p (s_lock true).
Definition smeta_unlock (p : Z) : MW unit := mod_smeta p (s_lock false).
Definition migrated_row (k : row_id) : MW Z := r ← get_prow k; deref (fun _ => l_migrated_row (p_meta r)).

(** Calls of the coherence manager, with the copy they do. *)
Definition scc_word (p : Z) (f : Z -> Z -> option Z) : MW unit :=
  r ← get_srow p;
  match f (s_scc_meta (sr_meta r)) coordinator_id with
  | Some z => mod_smeta p (s_set_scc z)
  | None => abort
  end.
Definition scc_read (p : Z) (dest : bytes) (size : nat) : MW bytes :=
  scc_word p (do_read scc);;
  r ← get_srow p;
  mret (memcpy dest (sr_data r) size).
Definition scc_write (p : Z) (src : bytes) (size : nat) : MW unit :=
  scc_word p (do_write scc);;
  mod_sdata p (fun d => memcpy d src size).

(** ** Reads *)

Definition read (k : row_id) (dest : bytes) (size : nat) : MW (Z * Z * bytes) :=
  lmeta_lock k;;
  r ← get_prow k;
  if negb (l_is_migrated (p_meta r)) then
    lmeta_unlock k;;
    mret (l_wts (p_meta r), l_rts (p_meta r), memcpy dest (p_data r) size)
  else
    p ← migrated_row k;
    smeta_lock p;;
    s ← get_srow p;
    CHECK (s_is_valid (sr_meta s));;
    b ← scc_read p dest size;
    smeta_unlock p;;
    lmeta_unlock k;;
    mret (s_wts (sr_meta s), s_rts (sr_meta s), b).

Definition remote_read (p : Z) (dest : bytes) (size : nat) : MW (Z * Z * bytes) :=
  smeta_lock p;;
  s ← get_srow p;
  CHECK (s_is_valid (sr_meta s));;
  CHECK (0 <? s_ref_cnt (sr_meta s));;
  b ← scc_read p dest size;
  smeta_unlock p;;
  mret (s_wts (sr_meta s), s_rts (sr_meta s), b).

(** ** Locks and leases *)

Definition write_lock (k : row_id) (transaction_id : Z) : MW (bool * (Z * Z)) :=
  lmeta_lock k;;
  r ← get_prow k;
  let m := p_meta r in
  if negb (l_is_valid m) then lmeta_unlock k;; mret (false, (0, 0))
  else if negb (l_is_migrated m) then
    let success := (l_owner m =? 0) || (l_owner m =? transaction_id) in
    when_ success (mod_lmeta k (l_set_owner transaction_id));;
    lmeta_unlock k;;
    mret (success, (l_wts m, l_rts m))
  else
    p ← migrated_row k;
    smeta_lock p;;
    s ← get_srow p;
    let m := sr_meta s in
    CHECK (s_is_valid m);;
    let success := (s_owner m =? 0) || (s_owner m =? transaction_id) in
    when_ success (mod_smeta p (s_set_owner transaction_id));;
    smeta_unlock p;;
    lmeta_unlock k;;
    mret (success, (s_wts m, s_rts m)).

Definition remote_write_lock (p : Z) (transaction_id : Z) : MW (bool * (Z * Z)) :=
  smeta_lock p;;
  s ← get_srow p;
  let m := sr_meta s in
  CHECK (s_is_valid m);;
  CHECK (0 <? s_ref_cnt m);;
  let success := (s_owner m =? 0) || (s_owner m =? transaction_id) in
  when_ success (mod_smeta p (s_set_owner transaction_id));;
  smeta_unlock p;;
  mret (success, (s_wts m, s_rts m)).

Definition renew_lease (k : row_id) (wts commit_ts : Z) : MW bool :=
  lmeta_lock k;;
  r ← get_prow k;
  let m := p_meta r in
  if negb (l_is_valid m) then lmeta_unlock k;; mret false
  else if negb (l_is_migrated m) then
    let fails := negb (wts =? l_wts m) || ((l_rts m <? commit_ts) && negb (l_owner m =? 0)) in
    when_ (negb fails) (mod_lmeta k (l_set_times (l_wts m) (Z.max (l_rts m) commit_ts)));;
    lmeta_unlock k;;
    mret (negb fails)
  else
    p ← migrated_row k;
    smeta_lock p;;
    s ← get_srow p;
    let m := sr_meta s in
    CHECK (s_is_valid m);;
    let fails := negb (wts =? s_wts m) || ((s_rts m <? commit_ts) && negb (s_owner m =? 0)) in
    when_ (negb fails) (mod_smeta p (s_set_times (s_wts m) (Z.max (s_rts m) commit_ts)));;
    smeta_unlock p;;
    lmeta_unlock k;;
    mret (negb fails).

Definition remote_renew_lease (p : Z) (wts commit_ts : Z) : MW bool :=
  smeta_lock p;;
  s ← get_srow p;
  let m := sr_meta s in
  CHECK (s_is_valid m);;
  CHECK (0 <? s_ref_cnt m);;
  let fails := negb (wts =? s_wts m) || ((s_rts m <? commit_ts) && negb (s_owner m =? 0)) in
  when_ (negb fails) (mod_smeta p (s_set_times (s_wts m) (Z.max (s_rts m) commit_ts)));;
  smeta_unlock p;;
  mret (negb fails).

Definition replica_update : MW unit := abort.
Definition remote_replica_update : MW unit := abort.

(** ** Writes *)

Definition update (k : row_id) (value : bytes) (value_size : nat) (commit_ts transaction_id : Z) : MW unit :=
  lmeta_lock k;;
  r ← get_prow k;
  let m := p_meta r in
  CHECK (l_is_valid m);;
  if negb (l_is_migrated m) then
    CHECK (l_owner m =? transaction_id);;
    mod_ldata k (fun d => memcpy d value value_size);;
    mod_lmeta k (l_set_times commit_ts commit_ts);;
    lmeta_unlock k
  else
    p ← migrated_row k;
    smeta_lock p;;
    s ← get_srow p;
    CHECK (s_is_valid (sr_meta s));;
    CHECK (s_owner (sr_meta s) =? transaction_id);;
    scc_write p value value_size;;
    mod_smeta p (s_set_times commit_ts commit_ts);;
    smeta_unlock p;;
    lmeta_unlock k.

Definition remote_update (p : Z) (value : bytes) (value_size : nat) (commit_ts transaction_id : Z) : MW unit :=
  smeta_lock p;;
  s ← get_srow p;
  CHECK (s_is_valid (sr_meta s));;
  CHECK (0 <? s_ref_cnt (sr_meta s));;
  CHECK (s_owner (sr_meta s) =? transaction_id);;
  scc_write p value value_size;;
  mod_smeta p (s_set_times commit_ts commit_ts);;
  smeta_unlock p.

Definition unlock (k : row_id) (transaction_id : Z) : MW unit :=
  lmeta_lock k;;
  r ← get_prow k;
  let m := p_meta r in
  CHECK (l_is_valid m);;
  if negb (l_is_migrated m) then
    CHECK (l_owner m =? transaction_id);;
    mod_lmeta k (l_set_owner 0);;
    lmeta_unlock k
  else
    p ← migrated_row k;
    smeta_lock p;;
    s ← get_srow p;
    CHECK (s_is_valid (sr_meta s));;
    CHECK (s_owner (sr_meta s) =? transaction_id);;
    mod_smeta p (s_set_owner 0);;
    smeta_unlock p;;
    lmeta_unlock k.

Definition remote_unlock (p : Z) (transaction_id : Z) : MW unit :=
  smeta_lock p;;
  s ← get_srow p;
  CHECK (s_is_valid (sr_meta s));;
  CHECK (0 <? s_ref_cnt (sr_meta s));;
  CHECK (s_owner (sr_meta s) =? transaction_id);;
  mod_smeta p (s_set_owner 0);;
  smeta_unlock p.

Definition mark_tuple_as_valid (k : row_id) : MW unit :=
  lmeta_lock k;;
  r ← get_prow k;
  CHECK (negb (l_is_valid (p_meta r)));;
  (if negb (l_is_migrated (p_meta r)) then mod_lmeta k (l_set_valid true) else abort);;
  lmeta_unlock k.

(** ** References to migrated rows *)

Definition index_search (k : row_id) : MW (option Z) := gets (fun w => p_index w !! k).
Definition index_insert (k : row_id) (p : Z) : MW bool :=
  o ← index_search k;
  match o with
  | Some _ => mret false
  | None => modify (on_index (insert k p));; mret true
  end.
Definition index_remove (k : row_id) : MW bool :=
  o ← index_search k;
  match o with
  | Some _ => modify (on_index (delete k));; mret true
  | None => mret false
  end.

Definition get_migrated_row (k : row_id) (inc_ref_cnt : bool) : MW (option Z) :=
  o ← index_search k;
  match o with
  | None => mret None
  | Some p =>
      smeta_lock p;;
      s ← get_srow p;
      let valid := s_is_valid (sr_meta s) in
      when_ (valid && inc_ref_cnt) (mod_smeta p (s_add_ref 1));;
      smeta_unlock p;;
      mret (if valid then Some p else None)
  end.

Definition release_migrated_row (k : row_id) : MW unit :=
  o ← index_search k;
  match o with
  | None => abort
  | Some p =>
      smeta_lock p;;
      s ← get_srow p;
      CHECK (s_is_valid (sr_meta s));;
      CHECK (0 <? s_ref_cnt (sr_meta s));;
      mod_smeta p (s_add_ref (-1));;
      smeta_unlock p
  end.

(** ** Moving a row to CXL memory *)

(** What both kinds of tables do under the latch of the row; [next_real] is set for
    ordered tables. *)
Definition move_in_row (k : row_id) (inc_ref_cnt : bool) (next_real : option bool) : MW migration_result :=
  lmeta_lock k;;
  r ← get_prow k;
  let m := p_meta r in
  CHECK (l_is_valid m);;
  res ← (if negb (l_is_migrated m) then
    o ← gets (fun w => pasha_malloc (dom (p_cxl w) ∖ p_freed w));
    p ← deref (fun _ => o);
    modify (new_row p (MkSRow SundialPashaMetadataSharedInit (replicate (value_size k.1.1) Byte.x00)));;
    scc_word p (init_scc_metadata scc);;
    smeta_lock p;;
    mod_smeta p (s_set_times (l_wts m) (l_rts m));;
    mod_smeta p (s_set_owner (l_owner m));;
    scc_write p (p_data r) (value_size k.1.1);;
    mod_smeta p (s_set_valid true);;
    when_ inc_ref_cnt (mod_smeta p (s_add_ref 1));;
    (match next_real with Some b => mod_smeta p (s_set_next_key_real b) | None => mret tt end);;
    insert_ret ← index_insert k p;
    CHECK insert_ret;;
    mod_lmeta k (l_set_migrated (Some p));;
    smeta_unlock p;;
    mret SUCCESS
  else
    when_ inc_ref_cnt (
      p ← migrated_row k;
      smeta_lock p;;
      s ← get_srow p;
      CHECK (s_is_valid (sr_meta s));;
      mod_smeta p (s_add_ref 1);;
      smeta_unlock p);;
    mret FAIL_ALREADY_IN_CXL);
  lmeta_unlock k;;
  mret res.

Definition move_from_hashmap_to_shared_region (k : row_id) (inc_ref_cnt : bool) : MW migration_result := move_in_row k inc_ref_cnt None.

(** The neighbours of a key in an ordered table. *)
Definition prev_of (k : row_id) (w : pworld) : option row_id := neighbour Z.ltb Z.gtb k (elements (dom (p_rows w))).
Definition next_of (k : row_id) (w : pworld) : option row_id := neighbour Z.gtb Z.ltb k (elements (dom (p_rows w))).

(** The next-key information of the row before. *)
Definition tell_previous (prev : option row_id) (b : bool) : MW unit :=
  match prev with
  | None => mret tt
  | Some k =>
      lmeta_lock k;;
      r ← get_prow k;
      when_ (l_is_migrated (p_meta r)) (
        p ← migrated_row k;
        smeta_lock p;;
        mod_smeta p (s_set_next_key_real b);;
        smeta_unlock p);;
      lmeta_unlock k
  end.

Definition next_key_migrated (next : option row_id) : MW bool :=
  match next with
  | Some n => lmeta_lock n;; r ← get_prow n; lmeta_unlock n;; mret (l_is_migrated (p_meta r))
  | None => mret true
  end.

Definition move_from_btree_to_shared_region (k : row_id) (inc_ref_cnt : bool) : MW migration_result :=
  prev ← gets (prev_of k);
  next ← gets (next_of k);
  next_migrated ← next_key_migrated next;
  res ← move_in_row k inc_ref_cnt (Some next_migrated);
  (match res with SUCCESS => tell_previous prev true | _ => mret tt end);;
  mret res.

Definition move_from_partition_to_shared_region (k : row_id) (inc_ref_cnt : bool) : MW migration_result :=
  res ← (if is_btree k.1.1 then move_from_btree_to_shared_region k inc_ref_cnt else move_from_hashmap_to_shared_region k inc_ref_cnt);
  (match res with SUCCESS => modify count_move_in | _ => mret tt end);;
  mret res.

(** ** Moving it back *)

(** [true] when the row was moved; the object is freed before its latch is. *)
Definition move_out_row (k : row_id) : MW bool :=
  lmeta_lock k;;
  r ← get_prow k;
  CHECK (l_is_valid (p_meta r));;
  if l_is_migrated (p_meta r) then
    p ← migrated_row k;
    smeta_lock p;;
    s ← get_srow p;
    let m := sr_meta s in
    CHECK (s_is_valid m);;
    if 0 <? s_ref_cnt m then smeta_unlock p;; lmeta_unlock k;; mret false
    else
      mod_lmeta k (l_set_times (s_wts m) (s_rts m));;
      mod_lmeta k (l_set_owner (s_owner m));;
      b ← scc_read p (p_data r) (value_size k.1.1);
      mod_ldata k (fun _ => b);;
      mod_smeta p (s_set_valid false);;
      ret ← index_remove k;
      CHECK ret;;
      mod_lmeta k (l_set_migrated None);;
      modify (free_row p);;
      smeta_unlock p;;
      lmeta_unlock k;;
      mret true
  else abort.

Definition move_from_hashmap_to_partition (k : row_id) : MW bool := move_out_row k.

Definition move_from_btree_to_partition (k : row_id) : MW bool :=
  prev ← gets (prev_of k);
  ok ← move_out_row k;
  when_ ok (tell_previous prev false);;
  mret ok.

Definition move_from_shared_region_to_partition (k : row_id) : MW bool :=
  ok ← (if is_btree k.1.1 then move_from_btree_to_partition k else move_from_hashmap_to_partition k);
  when_ ok (modify count_move_out);;
  mret ok.

Definition delete_and_update_next_key_info : MW bool := abort.
End helper.
End SundialPashaHelper.
