(* ===== verification/SundialPashaSpec.v ===== *)
(** * SundialPasha: migration is invisible to the protocol

    The rows of SundialPasha, wherever they are, are the rows of Sundial: the
    operations of the home host on a row and those of other hosts on a migrated row
    are the operations of [SundialHelper] on the row that [abs] shows, as long as
    other hosts hold a reference, and migration does not change what is shown. *)

From S2P Require Import Prelude SundialRow SundialPasha.
Import SundialPashaHelper.

(** ** Operations *)

Inductive rop := ORead (dest : bytes) | OWriteLock (tid : Z) | ORenew (wts ts : Z) | OUpdate (value : bytes) (ts tid : Z) | OUnlock (tid : Z) | OMark.
Inductive answer := AnsRead (x : Z * Z * bytes) | AnsLock (x : bool * (Z * Z)) | AnsBool (b : bool) | AnsUnit.
#[export] Instance answer_eq_dec : EqDecision answer.
Proof. solve_decision. Defined.

Section operations.
Context (value_size : Z -> nat).

(** As Sundial does them, *)
Definition run_op (k : row_id) (o : rop) : M SundialHelper.db answer :=
  let size := value_size k.1.1 in
  match o with
  | ORead dest => x ← SundialHelper.read k dest size; mret (AnsRead x)
  | OWriteLock tid => x ← SundialHelper.write_lock k tid; mret (AnsLock x)
  | ORenew wts ts => x ← SundialHelper.renew_lease k wts ts; mret (AnsBool x)
  | OUpdate v ts tid => SundialHelper.update k v size ts tid;; mret AnsUnit
  | OUnlock tid => SundialHelper.unlock k tid;; mret AnsUnit
  | OMark => SundialHelper.mark_tuple_as_valid k;; mret AnsUnit
  end.

(** the home host does them, *)
Definition local_op (scc : SundialSCC) (h : Z) (k : row_id) (o : rop) : M pworld answer :=
  let size := value_size k.1.1 in
  match o with
  | ORead dest => x ← read scc h k dest size; mret (AnsRead x)
  | OWriteLock tid => x ← write_lock k tid; mret (AnsLock x)
  | ORenew wts ts => x ← renew_lease k wts ts; mret (AnsBool x)
  | OUpdate v ts tid => update scc h k v size ts tid;; mret AnsUnit
  | OUnlock tid => unlock k tid;; mret AnsUnit
  | OMark => mark_tuple_as_valid k;; mret AnsUnit
  end.

(** and other hosts, with the address of the migrated row; only the home host marks
    a row as valid. *)
Definition remote_op (scc : SundialSCC) (h : Z) (k : row_id) (p : Z) (o : rop) : M pworld answer :=
  let size := value_size k.1.1 in
  match o with
  | ORead dest => x ← remote_read scc h p dest size; mret (AnsRead x)
  | OWriteLock tid => x ← remote_write_lock p tid; mret (AnsLock x)
  | ORenew wts ts => x ← remote_renew_lease p wts ts; mret (AnsBool x)
  | OUpdate v ts tid => remote_update scc h p v size ts tid;; mret AnsUnit
  | OUnlock tid => remote_unlock p tid;; mret AnsUnit
  | OMark => abort
  end.

(** What they all do to the fields of a row. *)
Record cell := Cell { c_wts : Z; c_rts : Z; c_owner : Z; c_valid : bool; c_data : bytes }.

Definition op_spec (size : nat) (o : rop) (c : cell) : option (answer * cell) :=
  let '(Cell w r ow v b) := c in
  match o with
  | ORead dest => Some (AnsRead (w, r, memcpy dest b size), c)
  | OWriteLock tid =>
      if v then let ok := (ow =? 0) || (ow =? tid) in Some (AnsLock (ok, (w, r)), Cell w r (if ok then tid else ow) v b)
      else Some (AnsLock (false, (0, 0)), c)
  | ORenew wts ts =>
      if v then let fails := negb (wts =? w) || ((r <? ts) && negb (ow =? 0)) in Some (AnsBool (negb fails), Cell w (if fails then r else Z.max r ts) ow v b)
      else Some (AnsBool false, c)
  | OUpdate d ts tid => if v && (ow =? tid) then Some (AnsUnit, Cell ts ts ow v (memcpy b d size)) else None
  | OUnlock tid => if v && (ow =? tid) then Some (AnsUnit, Cell w r 0 v b) else None
  | OMark => if v then None else Some (AnsUnit, Cell w r ow true b)
  end.

Definition result {S} (x : option (answer * cell)) (put : cell -> S) : outcome S answer :=
  match x with Some (a, c) => Ret a (put c) | None => Abort end.

Definition cell_row (c : cell) : SundialHelper.row :=
  SundialHelper.Row (Some (SundialHelper.MkMeta false (c_wts c) (c_rts c) (c_owner c) (c_valid c))) (c_data c).

Lemma cell_row_inj c c' : cell_row c = cell_row c' -> c = c'.
Proof. destruct c, c'. cbn. now intros [= -> -> -> -> ->]. Qed.

(** Compute an operation with the equations of the state. *)
Ltac go Hk Ha Hb := repeat first [progress cbn | rewrite Hk | rewrite Ha | rewrite Hb | rewrite lookup_insert_eq].

(** The operations of Sundial. *)
Lemma run_op_spec k o d c : d !! k = Some (cell_row c) -> run_op k o d = result (op_spec (value_size k.1.1) o c) (fun c' => <[k := cell_row c']> d).
Proof.
  intros Hk. destruct c as [w r ow v b]. unfold cell_row in Hk. cbn in Hk.
  assert (forall f : SundialHelper.row -> SundialHelper.row, alter f k d = <[k := f (cell_row (Cell w r ow v b))]> d) as Ha.
  { intros f. apply map_eq. intros j. destruct (decide (j = k)) as [->|]; [now rewrite lookup_alter_eq, lookup_insert_eq, Hk|now rewrite lookup_alter_ne, lookup_insert_ne by congruence]. }
  assert (forall (f : SundialHelper.row -> SundialHelper.row) x, alter f k (<[k := x]> d) = <[k := f x]> d) as Hb.
  { intros f x. apply map_eq. intros j. destruct (decide (j = k)) as [->|]; [now rewrite lookup_alter_eq, !lookup_insert_eq|now rewrite lookup_alter_ne, !lookup_insert_ne by congruence]. }
  unfold run_op, SundialHelper.read, SundialHelper.write_lock, SundialHelper.renew_lease, SundialHelper.update, SundialHelper.unlock, SundialHelper.mark_tuple_as_valid, SundialHelper.set_valid, SundialHelper.get_or_install_meta, SundialHelper.lock, SundialHelper.unlatch, SundialHelper.set_owner, SundialHelper.set_rts, SundialHelper.set_wts_rts, SundialHelper.get_meta, SundialHelper.put_meta, SundialHelper.put_data, SundialHelper.get_row.
  destruct o; cbn [op_spec]; mrun; go Hk Ha Hb.
  - reflexivity.
  - destruct v; go Hk Ha Hb; [|reflexivity]. destruct ((ow =? 0) || (ow =? tid)); go Hk Ha Hb; reflexivity.
  - destruct v; go Hk Ha Hb; [|reflexivity]. destruct (negb (wts =? w) || _); go Hk Ha Hb; reflexivity.
  - destruct v; go Hk Ha Hb; [|reflexivity]. destruct (ow =? tid); go Hk Ha Hb; reflexivity.
  - destruct v; go Hk Ha Hb; [|reflexivity]. destruct (ow =? tid); go Hk Ha Hb; reflexivity.
  - destruct v; go Hk Ha Hb; reflexivity.
Qed.

(** ** The operations on the two kinds of rows *)

Context (scc : SundialSCC) (h : Z).

Lemma rows_rows k x y w : on_rows (insert k x) (on_rows (insert k y) w) = on_rows (insert k x) w.
Proof. unfold on_rows. cbn. now rewrite insert_insert_eq. Qed.
Lemma cxl_cxl p x y w : on_cxl (insert p x) (on_cxl (insert p y) w) = on_cxl (insert p x) w.
Proof. unfold on_cxl. cbn. now rewrite insert_insert_eq. Qed.
Lemma rows_cxl f g w : on_cxl f (on_rows g w) = on_rows g (on_cxl f w).
Proof. reflexivity. Qed.
Lemma rows_id k x w : p_rows w !! k = Some x -> on_rows (insert k x) w = w.
Proof. intros Hk. destruct w. unfold on_rows. cbn in *. now rewrite insert_id. Qed.

Ltac unfold_ops := unfold local_op, remote_op, read, write_lock, renew_lease, update, unlock, mark_tuple_as_valid, remote_read, remote_write_lock, remote_renew_lease, remote_update, remote_unlock,
  scc_read, scc_write, scc_word, lmeta_lock, lmeta_unlock, smeta_lock, smeta_unlock, migrated_row, mod_lmeta, mod_ldata, mod_smeta, mod_sdata, get_prow, get_srow.
Ltac goes := repeat first [progress cbn | rewrite lookup_insert_eq | match goal with H : ?x = Some _ |- context [?x] => rewrite H end | rewrite rows_rows | rewrite cxl_cxl | rewrite rows_cxl].

Lemma local_op_unmigrated k o w a r ow ptr v b : p_rows w !! k = Some (MkPRow (MkPLocal false a r ow false ptr v) b) ->
  local_op scc h k o w = result (op_spec (value_size k.1.1) o (Cell a r ow v b))
    (fun c => on_rows (insert k (MkPRow (MkPLocal false (c_wts c) (c_rts c) (c_owner c) false ptr (c_valid c)) (c_data c))) w).
Proof.
  intros Hk. unfold_ops. destruct o; cbn [op_spec]; mrun; goes.
  - reflexivity.
  - destruct v; goes; [|reflexivity]. destruct ((ow =? 0) || (ow =? tid)); goes; reflexivity.
  - destruct v; goes; [|reflexivity]. destruct (negb (wts =? a) || _); goes; reflexivity.
  - destruct v; goes; [|reflexivity]. destruct (ow =? tid); goes; reflexivity.
  - destruct v; goes; [|reflexivity]. destruct (ow =? tid); goes; reflexivity.
  - destruct v; goes; reflexivity.
Qed.

(** What an operation does to the word of the coherence manager. *)
Definition scc_effect (o : rop) (z : Z) : option Z :=
  match o with ORead _ => do_read scc z h | OUpdate _ _ _ => do_write scc z h | _ => Some z end.

Definition put_shared (p n z : Z) (nx : bool) (w : pworld) (c : cell) : pworld :=
  on_cxl (insert p (MkSRow (MkPShared false (c_wts c) (c_rts c) (c_owner c) n true z nx) (c_data c))) w.

Definition shared_result (o : rop) (p n z : Z) (nx : bool) (w : pworld) (x : option (answer * cell)) : outcome pworld answer :=
  match x, scc_effect o z with
  | Some (a, c), Some z' => Ret a (put_shared p n z' nx w c)
  | _, _ => Abort
  end.

Lemma local_op_migrated k o w a0 r0 o0 b0 p a r ow n z nx b :
  p_rows w !! k = Some (MkPRow (MkPLocal false a0 r0 o0 true (Some p) true) b0) -> p_cxl w !! p = Some (MkSRow (MkPShared false a r ow n true z nx) b) ->
  local_op scc h k o w = shared_result o p n z nx w (op_spec (value_size k.1.1) o (Cell a r ow true b)).
Proof.
  intros Hk Hp. unfold_ops. unfold shared_result. destruct o; cbn [op_spec scc_effect]; mrun; goes.
  - destruct (do_read scc z h) as [z'|]; goes; [|reflexivity]. now rewrite rows_id.
  - destruct ((ow =? 0) || (ow =? tid)); goes; now rewrite rows_id.
  - destruct (negb (wts =? a) || _); goes; now rewrite rows_id.
  - destruct (ow =? tid); goes; [|reflexivity]. destruct (do_write scc z h) as [z'|]; goes; [|reflexivity]. now rewrite rows_id.
  - destruct (ow =? tid); goes; [|reflexivity]. now rewrite rows_id.
  - reflexivity.
Qed.

Lemma remote_op_spec k o w p a r ow n z nx b : p_cxl w !! p = Some (MkSRow (MkPShared false a r ow n true z nx) b) -> 0 < n ->
  remote_op scc h k p o w = shared_result o p n z nx w (op_spec (value_size k.1.1) o (Cell a r ow true b)).
Proof.
  intros Hp Hn. apply Z.ltb_lt in Hn. unfold_ops. unfold shared_result. destruct o; cbn [op_spec scc_effect]; mrun; goes; rewrite ?Hn; goes.
  - destruct (do_read scc z h) as [z'|]; goes; reflexivity.
  - destruct ((ow =? 0) || (ow =? tid)); goes; reflexivity.
  - destruct (negb (wts =? a) || _); goes; reflexivity.
  - destruct (ow =? tid); goes; [|reflexivity]. destruct (do_write scc z h) as [z'|]; goes; reflexivity.
  - destruct (ow =? tid); goes; reflexivity.
  - reflexivity.
Qed.
End operations.

(** Compute the operations that move rows. *)
Ltac unfold_moves := unfold tell_previous, move_in_row, move_out_row, get_migrated_row, release_migrated_row, index_insert, index_remove, index_search,
  scc_read, scc_write, scc_word, lmeta_lock, lmeta_unlock, smeta_lock, smeta_unlock, migrated_row, mod_lmeta, mod_ldata, mod_smeta, mod_sdata, get_prow, get_srow.
Ltac goes_all := repeat first [progress cbn | rewrite lookup_insert_eq | match goal with H : ?x = Some _ |- context [?x] => rewrite H end | match goal with H : ?x = None |- context [?x] => rewrite H end | rewrite rows_rows | rewrite cxl_cxl | rewrite rows_cxl].

(** ** What a coherence manager promises *)

(** A host that is ready for a row can write it: it has read it since the last write
    of another host. *)
Class SundialSCCLaws (scc : SundialSCC) := {
  scc_host : Z -> Prop;
  scc_ready : Z -> Z -> Prop;
  scc_init_ok z h : scc_host h -> exists z', init_scc_metadata scc z h = Some z' /\ scc_ready z' h;
  scc_read_ok z h : scc_host h -> exists z', do_read scc z h = Some z' /\ scc_ready z' h /\ forall h', scc_ready z h' -> scc_ready z' h';
  scc_write_ok z h : scc_host h -> scc_ready z h -> exists z', do_write scc z h = Some z' /\ scc_ready z' h
}.

Lemma bit_set_testbit z h : 0 <= h -> negb (Z.land z (Z.shiftl 1 h) =? 0) = Z.testbit z h.
Proof.
  intros Hh. rewrite Z.shiftl_1_l. destruct (Z.testbit z h) eqn:E.
  - apply negb_true_iff, Z.eqb_neq. intros E0. apply (f_equal (fun x => Z.testbit x h)) in E0. rewrite Z.land_spec, E, Z.pow2_bits_true, Z.bits_0 in E0 by lia. discriminate.
  - apply negb_false_iff, Z.eqb_eq, Z.bits_inj'. intros i Hi. rewrite Z.land_spec, Z.bits_0, Z.pow2_bits_eqb by lia. destruct (Z.eqb_spec h i) as [->|]; [now rewrite E|apply andb_false_r].
Qed.

Lemma set_bit_testbit z h i : 0 <= h < 16 -> 0 <= i < 16 -> exists z', SCCWriteThrough.set_bit z h = Some z' /\ Z.testbit z' i = Z.testbit z i || (h =? i).
Proof.
  intros Hh Hi. unfold SCCWriteThrough.set_bit, SCCWriteThrough.bits_per_word. destruct (Z.ltb_spec h 16); [|lia]. eexists. split; [reflexivity|].
  unfold wrap. rewrite Z.mod_pow2_bits_low, Z.lor_spec, Z.shiftl_1_l, Z.pow2_bits_eqb by lia. reflexivity.
Qed.

#[export] Program Instance write_through_laws : SundialSCCLaws SCCWriteThrough.manager := {
  scc_host h := 0 <= h < 16;
  scc_ready z h := 0 <= h < 16 /\ Z.testbit z h = true
}.
Next Obligation.
  intros z h Hh. cbn in Hh. destruct (set_bit_testbit 0 h h Hh Hh) as (z' & E & Hb). exists z'. split; [exact E|]. split; [exact Hh|]. rewrite Hb, Z.eqb_refl. apply orb_true_r.
Qed.
Next Obligation.
  intros z h Hh. cbn in Hh |- *. unfold SCCWriteThrough.do_read, SCCWriteThrough.is_bit_set, SCCWriteThrough.bits_per_word. destruct (Z.ltb_spec h 16); [|lia]. cbn. rewrite bit_set_testbit by lia.
  destruct (Z.testbit z h) eqn:E; [exists z; easy|]. destruct (set_bit_testbit z h h Hh Hh) as (z' & E' & Hb). exists z'. split; [exact E'|]. split; [split; [exact Hh|]; rewrite Hb, Z.eqb_refl; apply orb_true_r|].
  intros h' [Hh' Hr]. split; [exact Hh'|]. destruct (set_bit_testbit z h h' Hh Hh') as (z2 & E2 & Hb2). assert (z2 = z') as -> by congruence. now rewrite Hb2, Hr.
Qed.
Next Obligation.
  intros z h Hh [_ Hr]. cbn in Hh |- *. unfold SCCWriteThrough.do_write, SCCWriteThrough.is_bit_set, SCCWriteThrough.bits_per_word. destruct (Z.ltb_spec h 16); [|lia]. cbn. rewrite bit_set_testbit, Hr by lia.
  destruct (set_bit_testbit 0 h h Hh Hh) as (z' & E & Hb). exists z'. split; [exact E|]. split; [exact Hh|]. rewrite Hb, Z.eqb_refl. apply orb_true_r.
Qed.

#[export] Program Instance non_temporal_laws : SundialSCCLaws SCCNonTemporal := { scc_host _ := True; scc_ready _ _ := True }.
Next Obligation. eauto. Qed.
Next Obligation. eauto. Qed.
Next Obligation. eauto. Qed.
#[export] Program Instance no_op_laws : SundialSCCLaws SCCNoOP := { scc_host _ := True; scc_ready _ _ := True }.
Next Obligation. eauto. Qed.
Next Obligation. eauto. Qed.
Next Obligation. eauto. Qed.

(** ** The rows that are shown *)

Section refinement.
Context (scc : SundialSCC) {laws : SundialSCCLaws scc} {alloc : SundialAlloc} (is_btree : Z -> bool) (value_size : Z -> nat) (home : row_id -> Z).
Context (Hhome : forall k, scc_host (home k)).

Definition cell_of (w : pworld) (r : prow) : cell :=
  let m := p_meta r in
  match (if l_is_migrated m then p ← l_migrated_row m; p_cxl w !! p else None) with
  | Some s => Cell (s_wts (sr_meta s)) (s_rts (sr_meta s)) (s_owner (sr_meta s)) (l_is_valid m) (sr_data s)
  | None => Cell (l_wts m) (l_rts m) (l_owner m) (l_is_valid m) (p_data r)
  end.
Definition abs (w : pworld) : SundialHelper.db := (fun r => cell_row (cell_of w r)) <$> p_rows w.

(** The references that other hosts hold, and the hosts that have read a row since
    another host has written it. *)
Record ghost := Ghost { pins : list (Z * row_id * Z); seen : gset (Z * row_id) }.

Definition pins_of (k : row_id) (g : ghost) : Z := Z.of_nat (length (filter (fun x : Z * row_id * Z => x.1.2 = k) (pins g))).

Record wf_migrated (g : ghost) (w : pworld) (k : row_id) (p : Z) : Prop := {
  m_index : p_index w !! k = Some p;
  m_shared : exists a r ow z nx b, p_cxl w !! p = Some (MkSRow (MkPShared false a r ow (pins_of k g) true z nx) b) /\ length b = value_size k.1.1 /\
    forall h, (h, k) ∈ seen g -> scc_ready z h
}.

Definition wf_row (g : ghost) (w : pworld) (k : row_id) (r : prow) : Prop :=
  l_latch (p_meta r) = false /\ length (p_data r) = value_size k.1.1 /\
  if l_is_migrated (p_meta r) then l_is_valid (p_meta r) = true /\ exists p, l_migrated_row (p_meta r) = Some p /\ wf_migrated g w k p
  else p_index w !! k = None /\ pins_of k g = 0 /\ forall h, (h, k) ∈ seen g -> h = home k.

Record wf (g : ghost) (w : pworld) : Prop := {
  wf_rows : forall k r, p_rows w !! k = Some r -> wf_row g w k r;
  wf_index : forall k p, p_index w !! k = Some p -> is_Some (p_rows w !! k);
  wf_inj : forall k k' p, p_index w !! k = Some p -> p_index w !! k' = Some p -> k = k';
  wf_live : forall k p, p_index w !! k = Some p -> p ∉ p_freed w;
  wf_pins : forall h k p, (h, k, p) ∈ pins g -> p_index w !! k = Some p
}.

Lemma abs_lookup w k r : p_rows w !! k = Some r -> abs w !! k = Some (cell_row (cell_of w r)).
Proof. intros Hk. unfold abs. now rewrite lookup_fmap, Hk. Qed.

Lemma abs_rows w k r : abs (on_rows (insert k r) w) = <[k := cell_row (cell_of w r)]> (abs w).
Proof. unfold abs. cbn. now rewrite fmap_insert. Qed.

(** An index entry belongs to a migrated row. *)
Lemma indexed g w k p : wf g w -> p_index w !! k = Some p -> exists a0 r0 o0 b0, p_rows w !! k = Some (MkPRow (MkPLocal false a0 r0 o0 true (Some p) true) b0) /\ wf_migrated g w k p.
Proof.
  intros Hwf Hi. destruct (wf_index _ _ Hwf k p Hi) as [[[la a0 r0 o0 mi ptr v] b0] Hk]. destruct (wf_rows _ _ Hwf k _ Hk) as (Hl & Hlen & Hm). cbn in Hl, Hm. subst la.
  destruct mi; [|destruct Hm; congruence]. destruct Hm as (-> & p' & -> & Hm). assert (p' = p) as -> by (destruct Hm; congruence). eauto 10.
Qed.

Lemma shown_cxl g w k p s v : wf g w -> p_index w !! k = Some p -> v = true ->
  abs (on_cxl (insert p s) w) = <[k := cell_row (Cell (s_wts (sr_meta s)) (s_rts (sr_meta s)) (s_owner (sr_meta s)) v (sr_data s))]> (abs w).
Proof.
  intros Hwf Hi ->. destruct (indexed g w k p Hwf Hi) as (a0 & r0 & o0 & b0 & Hk & _). apply map_eq. intros j. unfold abs. cbn. rewrite lookup_fmap.
  destruct (decide (j = k)) as [->|Hne].
  - rewrite Hk, lookup_insert_eq. cbn. unfold cell_of. cbn. now rewrite lookup_insert_eq.
  - rewrite lookup_insert_ne, lookup_fmap by congruence. destruct (p_rows w !! j) as [r|] eqn:Hj; [|reflexivity]. cbn. f_equal. unfold cell_of. cbn.
    destruct (l_is_migrated (p_meta r)) eqn:Em; [|reflexivity]. destruct (wf_rows _ _ Hwf j r Hj) as (_ & _ & Hm). rewrite Em in Hm. destruct Hm as (_ & p' & -> & Hm'). cbn.
    rewrite lookup_insert_ne; [reflexivity|]. intros <-. apply Hne. eapply wf_inj; [exact Hwf|apply Hm'|exact Hi].
Qed.

(** ** Keeping the state well formed *)

(** The two views of what is known differ at [k] only. *)
Record differ_at (k : row_id) (g g' : ghost) : Prop := {
  d_pins : forall j, j <> k -> pins_of j g' = pins_of j g;
  d_seen : forall h j, j <> k -> (h, j) ∈ seen g' -> (h, j) ∈ seen g;
  d_new : forall h j p, (h, j, p) ∈ pins g' -> (h, j, p) ∈ pins g \/ j = k
}.

Lemma differ_refl k g : differ_at k g g.
Proof. split; auto. Qed.

Lemma wf_row_ext g g' w w' j r : pins_of j g' = pins_of j g -> (forall h, (h, j) ∈ seen g' -> (h, j) ∈ seen g) -> wf_row g w j r ->
  p_index w' !! j = p_index w !! j -> (forall p, p_index w !! j = Some p -> p_cxl w' !! p = p_cxl w !! p) -> wf_row g' w' j r.
Proof.
  intros Hp Hs (H1 & H2 & H3) Hi Hc. split; [exact H1|]. split; [exact H2|]. destruct (l_is_migrated (p_meta r)).
  - destruct H3 as (Hv & p & Ep & [Mi Ms]). split; [exact Hv|]. exists p. split; [exact Ep|]. split; [now rewrite Hi|]. rewrite (Hc p Mi), Hp.
    destruct Ms as (a & rr & ow & z & nx & b & E & Hlen & Hrd). exists a, rr, ow, z, nx, b. split; [exact E|]. split; [exact Hlen|]. eauto.
  - rewrite Hi, Hp. destruct H3 as (A & B & C). split; [exact A|]. split; [exact B|]. eauto.
Qed.

(** A row of the state after a change of the row [k] that leaves the others. *)
Lemma wf_row_other g g' w w' k j r : differ_at k g g' -> j <> k -> wf_row g w j r ->
  p_index w' !! j = p_index w !! j -> (forall p, p_index w !! j = Some p -> p_cxl w' !! p = p_cxl w !! p) -> wf_row g' w' j r.
Proof. intros [Hp Hs _] Hne. eauto using wf_row_ext. Qed.

Lemma wf_local g g' w k r r' : wf g w -> p_rows w !! k = Some r -> l_is_migrated (p_meta r) = false -> differ_at k g g' -> pins g' = pins g ->
  l_latch (p_meta r') = false -> length (p_data r') = value_size k.1.1 -> l_is_migrated (p_meta r') = false -> (forall h, (h, k) ∈ seen g' -> h = home k) ->
  wf g' (on_rows (insert k r') w).
Proof.
  intros Hwf Hk Hm Hd Hpe Hl Hlen Hm' Hs. destruct (wf_rows _ _ Hwf k r Hk) as (_ & _ & Hr). rewrite Hm in Hr. destruct Hr as (Hi & Hpk & _).
  split; cbn.
  - intros j rj Hj. destruct (decide (j = k)) as [->|Hne].
    + rewrite lookup_insert_eq in Hj. injection Hj as <-. split; [exact Hl|]. split; [exact Hlen|]. rewrite Hm'. cbn. split; [exact Hi|]. split; [unfold pins_of in *; now rewrite Hpe|exact Hs].
    + rewrite lookup_insert_ne in Hj by congruence. eapply (wf_row_other g g' w); [exact Hd|exact Hne|now apply (wf_rows _ _ Hwf)|easy|easy].
  - intros j p Hj. destruct (decide (j = k)) as [->|Hne]; [rewrite lookup_insert_eq; eauto|rewrite lookup_insert_ne by congruence; eapply wf_index; eassumption].
  - apply (wf_inj _ _ Hwf).
  - apply (wf_live _ _ Hwf).
  - rewrite Hpe. apply (wf_pins _ _ Hwf).
Qed.

Lemma wf_shared g g' w k p a r ow z nx b : wf g w -> p_index w !! k = Some p -> differ_at k g g' -> (forall h p', (h, k, p') ∈ pins g' -> p' = p) ->
  length b = value_size k.1.1 -> (forall h, (h, k) ∈ seen g' -> scc_ready z h) ->
  wf g' (on_cxl (insert p (MkSRow (MkPShared false a r ow (pins_of k g') true z nx) b)) w).
Proof.
  intros Hwf Hi Hd Hpk Hlen Hs. destruct (indexed g w k p Hwf Hi) as (a0 & r0 & o0 & b0 & Hk & _). split; cbn.
  - intros j rj Hj. destruct (decide (j = k)) as [->|Hne].
    + rewrite Hk in Hj. injection Hj as <-. destruct (wf_rows _ _ Hwf k _ Hk) as (H1 & H2 & _). split; [exact H1|]. split; [exact H2|]. cbn. split; [reflexivity|]. exists p. split; [reflexivity|].
      split; [exact Hi|]. cbn. exists a, r, ow, z, nx, b. rewrite lookup_insert_eq. easy.
    + eapply (wf_row_other g g' w); [exact Hd|exact Hne|now apply (wf_rows _ _ Hwf)|easy|]. intros p' Hp'. cbn. apply lookup_insert_ne. intros <-. apply Hne. eapply wf_inj; eassumption.
  - apply (wf_index _ _ Hwf).
  - apply (wf_inj _ _ Hwf).
  - apply (wf_live _ _ Hwf).
  - intros h j p' Hin. destruct (d_new _ _ _ Hd h j p' Hin) as [Hin'| ->]; [eapply wf_pins; eassumption|]. rewrite (Hpk h p' Hin). exact Hi.
Qed.

(** ** The operations *)

(** What the operation of the host [h] changes in the ghost state. *)
Definition see (h : Z) (k : row_id) (o : rop) (g : ghost) : ghost :=
  match o with
  | ORead _ => Ghost (pins g) ({[(h, k)]} ∪ seen g)
  | OUpdate _ _ _ => Ghost (pins g) (filter (fun x => x.2 = k -> x.1 = h) (seen g))
  | _ => g
  end.

Lemma see_differ h k o g : differ_at k g (see h k o g) /\ pins (see h k o g) = pins g.
Proof.
  destruct o; cbn; (split; [|reflexivity]); try apply differ_refl; (split; [reflexivity| |cbn; auto]); cbn; intros h' j Hne Hin.
  - apply elem_of_union in Hin as [Hin|Hin]; [|exact Hin]. apply elem_of_singleton in Hin. congruence.
  - now apply elem_of_filter in Hin as [_ Hin].
Qed.

(** An update has a value of the right size, and the host has read the row. *)
Definition op_allowed (h : Z) (k : row_id) (o : rop) (g : ghost) : Prop :=
  match o with OUpdate v _ _ => length v = value_size k.1.1 /\ (h, k) ∈ seen g | _ => True end.

Lemma op_spec_length k o c a c' h g : op_allowed h k o g -> op_spec (value_size k.1.1) o c = Some (a, c') -> length (c_data c) = value_size k.1.1 ->
  length (c_data c') = value_size k.1.1 /\ (c_valid c = true -> c_valid c' = true).
Proof.
  destruct c as [w r ow v b]. destruct o; cbn; intros Ha E Hlen; repeat case_match; try discriminate E; injection E as <- <-; cbn; try easy.
  rewrite memcpy_length by lia. easy.
Qed.

(** The coherence manager lets the operation pass. *)
Lemma scc_effect_ok h k o g z : scc_host h -> op_allowed h k o g -> (forall h', (h', k) ∈ seen g -> scc_ready z h') ->
  exists z', scc_effect scc h o z = Some z' /\ forall h', (h', k) ∈ seen (see h k o g) -> scc_ready z' h'.
Proof.
  intros Hh Ha Hs. destruct o; cbn; eauto.
  - destruct (scc_read_ok z h Hh) as (z' & E & Hr & Hk). exists z'. split; [exact E|]. intros h' Hin. apply elem_of_union in Hin as [Hin|Hin]; [|auto]. apply elem_of_singleton in Hin. now injection Hin as ->.
  - destruct Ha as [_ Hin]. destruct (scc_write_ok z h Hh (Hs h Hin)) as (z' & E & Hr). exists z'. split; [exact E|]. intros h' Hin'. apply elem_of_filter in Hin' as [Hx _]. specialize (Hx eq_refl). cbn in Hx. now subst h'.
Qed.

(** [m] does what Sundial's operation does to the rows that are shown. *)
Definition simulates (k : row_id) (o : rop) (m : M pworld answer) (g' : ghost) (w : pworld) : Prop :=
  match run_op value_size k o (abs w) with
  | Ret a d => exists w', m w = Ret a w' /\ abs w' = d /\ wf g' w'
  | _ => m w = Abort
  end.

(** An operation on an object in CXL memory. *)
Lemma shared_sim g w h k p o m : wf g w -> p_index w !! k = Some p -> scc_host h -> op_allowed h k o g ->
  (forall a r ow z nx b, p_cxl w !! p = Some (MkSRow (MkPShared false a r ow (pins_of k g) true z nx) b) ->
    m w = shared_result scc h o p (pins_of k g) z nx w (op_spec (value_size k.1.1) o (Cell a r ow true b))) ->
  simulates k o m (see h k o g) w.
Proof.
  intros Hwf Hi Hh Ha Hm. destruct (indexed g w k p Hwf Hi) as (a0 & r0 & o0 & b0 & Hk & [_ (a & r & ow & z & nx & b & Hp & Hlen & Hs)]). specialize (Hm _ _ _ _ _ _ Hp).
  assert (abs w !! k = Some (cell_row (Cell a r ow true b))) as Habs by (rewrite (abs_lookup w k _ Hk); unfold cell_of; cbn; now rewrite Hp).
  unfold simulates. rewrite (run_op_spec value_size k o _ _ Habs), Hm. unfold shared_result. destruct (op_spec (value_size k.1.1) o (Cell a r ow true b)) as [[x c]|] eqn:E; [|reflexivity]. cbn.
  destruct (scc_effect_ok h k o g z Hh Ha Hs) as (z' & -> & Hs'). destruct (op_spec_length k o _ x c h g Ha E Hlen) as [Hlen' Hv]. specialize (Hv eq_refl).
  eexists. split; [reflexivity|]. destruct (see_differ h k o g) as [Hd Hpe]. split.
  - unfold put_shared. rewrite (shown_cxl g w k p _ true Hwf Hi eq_refl). cbn. destruct c as [w1 r1 ow1 v1 b1]. cbn in Hv. now subst v1.
  - unfold put_shared. replace (pins_of k g) with (pins_of k (see h k o g)) by (unfold pins_of; now rewrite Hpe).
    eapply wf_shared; [exact Hwf|exact Hi|exact Hd| |exact Hlen'|exact Hs']. intros h' p' Hin. rewrite Hpe in Hin. pose proof (wf_pins _ _ Hwf _ _ _ Hin). congruence.
Qed.

Lemma local_sim g w h k o : wf g w -> is_Some (p_rows w !! k) -> h = home k -> op_allowed h k o g -> simulates k o (local_op value_size scc h k o) (see h k o g) w.
Proof.
  intros Hwf [[[la a r ow mi ptr v] b] Hk] -> Ha. pose proof (wf_rows _ _ Hwf k _ Hk) as (Hl & Hlen & Hr). cbn in Hl, Hlen, Hr. subst la. destruct mi.
  - destruct Hr as (-> & p & -> & Hm). eapply (shared_sim g w (home k) k p); [exact Hwf|apply Hm|apply Hhome|exact Ha|]. intros. now apply (local_op_migrated _ _ _ _ _ _ a r ow b).
  - destruct Hr as (Hi & Hpk & Hs). unfold simulates. assert (abs w !! k = Some (cell_row (Cell a r ow v b))) as Habs by (now rewrite (abs_lookup w k _ Hk)).
    rewrite (run_op_spec value_size k o _ _ Habs), (local_op_unmigrated value_size scc (home k) k o w a r ow ptr v b Hk).
    destruct (op_spec (value_size k.1.1) o (Cell a r ow v b)) as [[x c]|] eqn:E; [|reflexivity]. cbn. destruct (op_spec_length k o _ x c (home k) g Ha E Hlen) as [Hlen' _].
    eexists. split; [reflexivity|]. destruct (see_differ (home k) k o g) as [Hd Hpe]. split.
    + rewrite abs_rows. unfold cell_of. cbn. now destruct c.
    + eapply wf_local; [exact Hwf|exact Hk|reflexivity|exact Hd|exact Hpe|reflexivity|exact Hlen'|reflexivity|]. intros h Hin. destruct o; cbn in Hin; auto.
      * apply elem_of_union in Hin as [Hin|Hin]; [|auto]. apply elem_of_singleton in Hin. now injection Hin.
      * apply elem_of_filter in Hin as [_ Hin]. auto.
Qed.

Lemma remote_sim g w h k p o : wf g w -> (h, k, p) ∈ pins g -> scc_host h -> op_allowed h k o g -> simulates k o (remote_op value_size scc h k p o) (see h k o g) w.
Proof.
  intros Hwf Hpin Hh Ha. apply (shared_sim g w h k p); [exact Hwf|eapply wf_pins; eassumption|exact Hh|exact Ha|]. intros. apply remote_op_spec; [assumption|].
  unfold pins_of. assert ((h, k, p) ∈ filter (fun x : Z * row_id * Z => x.1.2 = k) (pins g)) as Hin by (apply list_elem_of_filter; easy). destruct (filter _ _); [now apply elem_of_nil in Hin|cbn; lia].
Qed.

(** ** References *)

Definition add_pin (x : Z * row_id * Z) (g : ghost) : ghost := Ghost (x :: pins g) (seen g).

Lemma pins_of_perm k x g g' : pins g ≡ₚ x :: pins g' -> pins_of k g = pins_of k g' + (if decide (x.1.2 = k) then 1 else 0).
Proof. intros E. unfold pins_of. rewrite E, filter_cons. case_decide; cbn [length]; lia. Qed.

Lemma pin_differ x g g' : pins g ≡ₚ x :: pins g' -> seen g = seen g' -> differ_at x.1.2 g g' /\ differ_at x.1.2 g' g.
Proof.
  intros E Es. split; (split; [intros j Hne; rewrite (pins_of_perm j x g g' E); case_decide; [congruence|lia]|rewrite Es; auto|]).
  - intros h j p Hin. left. rewrite E. now right.
  - intros h j p Hin. rewrite E in Hin. apply elem_of_cons in Hin as [<-|Hin]; auto.
Qed.

(** Only the bookkeeping of a shared object changes. *)
Lemma shared_same g g' w k p a r ow n z nx b n' nx' : wf g w -> p_index w !! k = Some p -> p_cxl w !! p = Some (MkSRow (MkPShared false a r ow n true z nx) b) ->
  differ_at k g g' -> (forall h, (h, k) ∈ seen g' -> (h, k) ∈ seen g) -> (forall h p', (h, k, p') ∈ pins g' -> p' = p) -> n' = pins_of k g' ->
  let w' := on_cxl (insert p (MkSRow (MkPShared false a r ow n' true z nx') b)) w in abs w' = abs w /\ wf g' w'.
Proof.
  intros Hwf Hi Hp Hd Hs Hpk -> w'. destruct (indexed g w k p Hwf Hi) as (a0 & r0 & o0 & b0 & Hk & [_ (a1 & r1 & ow1 & z1 & nx1 & b1 & Hp1 & Hlen & Hr)]). rewrite Hp in Hp1. injection Hp1 as <- <- <- -> <- <- <-.
  unfold w'. split.
  - rewrite (shown_cxl g w k p _ true Hwf Hi eq_refl). apply insert_id. rewrite (abs_lookup w k _ Hk). unfold cell_of. cbn. now rewrite Hp.
  - eapply wf_shared; [exact Hwf|exact Hi|exact Hd|exact Hpk|exact Hlen|]. auto.
Qed.

Lemma pin_ok g w h k : wf g w -> pins_of k g + 1 < 2 ^ 64 ->
  exists w', get_migrated_row k true w = Ret (p_index w !! k) w' /\ abs w' = abs w /\
    wf (match p_index w !! k with Some p => add_pin (h, k, p) g | None => g end) w'.
Proof.
  intros Hwf Hlt. unfold_moves. mrun. destruct (p_index w !! k) as [p|] eqn:Hi; [|exists w; easy].
  destruct (indexed g w k p Hwf Hi) as (a0 & r0 & o0 & b0 & Hk & [_ (a & r & ow & z & nx & b & Hp & Hlen & Hr)]).
  goes_all. eexists. split; [reflexivity|]. cbn. assert (0 <= pins_of k g) by (unfold pins_of; lia).
  destruct (pin_differ (h, k, p) (add_pin (h, k, p) g) g (reflexivity _) eq_refl) as [_ Hd]. cbn in Hd.
  eapply (shared_same g _ w k p a r ow (pins_of k g) z nx b _ nx Hwf Hi Hp Hd); [auto| |].
  - intros h' p' Hin. apply elem_of_cons in Hin as [[= _ ->]|Hin]; [easy|]. pose proof (wf_pins _ _ Hwf _ _ _ Hin). congruence.
  - cbn. rewrite wrap_small by (split; lia). rewrite (pins_of_perm k (h, k, p) (add_pin (h, k, p) g) g (reflexivity _)). cbn. case_decide; [lia|easy].
Qed.

Lemma unpin_ok g g' w h k p : wf g w -> pins g ≡ₚ (h, k, p) :: pins g' -> seen g' = seen g -> pins_of k g < 2 ^ 64 ->
  exists w', release_migrated_row k w = Ret tt w' /\ abs w' = abs w /\ wf g' w'.
Proof.
  intros Hwf E Es Hlt. assert (p_index w !! k = Some p) as Hi by (eapply wf_pins; [exact Hwf|rewrite E; left]).
  destruct (indexed g w k p Hwf Hi) as (a0 & r0 & o0 & b0 & Hk & [_ (a & r & ow & z & nx & b & Hp & Hlen & Hr)]).
  pose proof (pins_of_perm k (h, k, p) g g' E) as Hn. cbn in Hn. case_decide; [|easy]. assert (0 <= pins_of k g') by (unfold pins_of; lia).
  unfold_moves. mrun. goes_all. destruct (Z.ltb_spec 0 (pins_of k g)); [|lia]. goes_all. eexists. split; [reflexivity|]. cbn.
  destruct (pin_differ (h, k, p) g g' E (eq_sym Es)) as [Hd _]. cbn in Hd.
  eapply (shared_same g _ w k p a r ow (pins_of k g) z nx b _ nx Hwf Hi Hp Hd); [now rewrite Es| |].
  - intros h' p' Hin. assert (p_index w !! k = Some p') by (eapply wf_pins; [exact Hwf|rewrite E; right; exact Hin]). congruence.
  - cbn. rewrite wrap_small by (split; lia). lia.
Qed.
End refinement.
