(* ===== verification/SundialPashaMove.v ===== *)
(** * SundialPasha: moving rows keeps what is shown

    The second half of the refinement: rows move to CXL memory and back, with or
    without references of other hosts, and every run of calls of [SundialPashaHelper]
    is a run of the operations of Sundial. *)

From S2P Require Import Prelude PashaState LocalIndex SundialRow SundialPasha SundialPashaSpec.
Import SundialPashaHelper.

Section moves.
Context (scc : SundialSCC) {laws : SundialSCCLaws scc} {alloc : SundialAlloc} (is_btree : Z -> bool) (value_size : Z -> nat) (home : row_id -> Z).
Context (Hhome : forall k, scc_host (home k)).

Abbreviation wf := (wf scc value_size home).
Abbreviation wf_row := (wf_row scc value_size home).
Abbreviation move_in_row := (move_in_row scc).
Abbreviation move_out_row := (move_out_row scc).

(** ** A row that moves in *)

Lemma wf_counts g w w' : p_rows w' = p_rows w -> p_cxl w' = p_cxl w -> p_index w' = p_index w -> p_freed w' = p_freed w -> wf g w -> wf g w' /\ abs w' = abs w.
Proof.
  intros Er Ec Ei Ef Hwf. split.
  - split; rewrite ?Er, ?Ei, ?Ef; [|apply Hwf..]. intros k r Hk. eapply (wf_row_ext _ _ _ g g w); [easy|easy|now apply Hwf|now rewrite Ei|now rewrite Ec].
  - unfold abs, cell_of. now rewrite Er, Ec.
Qed.

Definition moved_in (k : row_id) (p a r ow n z : Z) (nx : bool) (b : bytes) (w : pworld) : pworld :=
  on_rows (insert k (MkPRow (MkPLocal false a r ow true (Some p) true) b)) (on_index (insert k p) (new_row p (MkSRow (MkPShared false a r ow n true z nx) b) w)).

Lemma indexed_address g w k p : wf g w -> p_index w !! k = Some p -> p ∈ dom (p_cxl w) ∖ p_freed w.
Proof.
  intros Hwf Hi. destruct (indexed _ _ _ g w k p Hwf Hi) as (a0 & r0 & o0 & b0 & Hk & [_ (a & r & ow & z & nx & b & Hp & _)]).
  apply elem_of_difference. split; [apply elem_of_dom; eauto|eapply wf_live; eassumption].
Qed.

Lemma moved_in_ok g g' w k p a r ow ptr b z nx : wf g w -> p_rows w !! k = Some (MkPRow (MkPLocal false a r ow false ptr true) b) -> p ∉ dom (p_cxl w) ∖ p_freed w ->
  scc_ready z (home k) -> differ_at k g g' -> seen g' = seen g -> (forall h p', (h, k, p') ∈ pins g' -> p' = p) ->
  let w' := moved_in k p a r ow (pins_of k g') z nx b w in abs w' = abs w /\ wf g' w'.
Proof.
  intros Hwf Hk Hfresh Hz Hd Hs Hpk w'. pose proof (wf_rows _ _ _ _ _ Hwf k _ Hk) as (_ & Hlen & Hi & _ & Hseen). cbn in Hlen.
  assert (forall j p', p_index w !! j = Some p' -> p' <> p) as Hne by (intros j p' Hj ->; apply Hfresh; eapply indexed_address; eassumption).
  split.
  - apply map_eq. intros j. unfold abs. cbn. rewrite !lookup_fmap. destruct (decide (j = k)) as [->|Hjk].
    + rewrite lookup_insert_eq, Hk. cbn. unfold cell_of. cbn. now rewrite lookup_insert_eq.
    + rewrite lookup_insert_ne by congruence. destruct (p_rows w !! j) as [rj|] eqn:Hj; [|reflexivity]. cbn. unfold cell_of. cbn.
      destruct (wf_rows _ _ _ _ _ Hwf j rj Hj) as (_ & _ & Hm). destruct (l_is_migrated (p_meta rj)); [|reflexivity]. destruct Hm as (_ & p' & -> & Hm). cbn. rewrite lookup_insert_ne; [reflexivity|].
      intros <-. eapply Hne; [apply Hm|reflexivity].
  - split; cbn.
    + intros j rj Hj. destruct (decide (j = k)) as [->|Hjk].
      * rewrite lookup_insert_eq in Hj. injection Hj as <-. split; [reflexivity|]. split; [exact Hlen|]. cbn. split; [reflexivity|]. exists p. split; [reflexivity|]. split; [apply lookup_insert_eq|].
        cbn. exists a, r, ow, z, nx, b. rewrite lookup_insert_eq, Hs. split; [reflexivity|]. split; [exact Hlen|]. intros h Hin. now rewrite (Hseen h Hin).
      * rewrite lookup_insert_ne in Hj by congruence. eapply (wf_row_other _ _ _ g g' w); [exact Hd|exact Hjk|now apply (wf_rows _ _ _ _ _ Hwf)|cbn; now apply lookup_insert_ne|].
        intros p' Hp'. cbn. apply lookup_insert_ne. intros <-. eapply Hne; [exact Hp'|reflexivity].
    + intros j p' Hj. destruct (decide (j = k)) as [->|Hjk]; [rewrite lookup_insert_eq; eauto|]. rewrite lookup_insert_ne in Hj by congruence. rewrite lookup_insert_ne by congruence. eapply wf_index; eassumption.
    + intros j j' p' [[<- <-]|[Hjk Hj]]%lookup_insert_Some [[<- E]|[Hjk' Hj']]%lookup_insert_Some; [reflexivity| | |eapply wf_inj; eassumption].
      * now destruct (Hne _ _ Hj').
      * subst p'. now destruct (Hne _ _ Hj).
    + intros j p' Hj. apply not_elem_of_difference. destruct (decide (j = k)) as [->|Hjk].
      * rewrite lookup_insert_eq in Hj. injection Hj as <-. right. now apply elem_of_singleton.
      * rewrite lookup_insert_ne in Hj by congruence. left. eapply wf_live; eassumption.
    + intros h j p' Hin. destruct (decide (j = k)) as [->|Hjk]; [rewrite lookup_insert_eq; f_equal; symmetry; eauto|]. rewrite lookup_insert_ne by congruence.
      destruct (d_new _ _ _ Hd h j p' Hin) as [Hin'| ->]; [|easy]. eapply wf_pins; eassumption.
Qed.

Definition pin_if (inc : bool) (x : Z * row_id * Z) (g : ghost) : ghost := if inc then add_pin x g else g.

Lemma pin_if_ok inc h k p g : differ_at k g (pin_if inc (h, k, p) g) /\ seen (pin_if inc (h, k, p) g) = seen g /\ pins_of k (pin_if inc (h, k, p) g) = pins_of k g + (if inc then 1 else 0) /\ forall h' p', (h', k, p') ∈ pins (pin_if inc (h, k, p) g) -> p' = p \/ (h', k, p') ∈ pins g.
Proof.
  destruct inc; cbn; [|split; [apply differ_refl|]; rewrite Z.add_0_r; auto]. destruct (pin_differ (h, k, p) (add_pin (h, k, p) g) g (reflexivity _) eq_refl) as [_ Hd].
  split; [exact Hd|]. split; [reflexivity|]. split.
  - rewrite (pins_of_perm k (h, k, p) (add_pin (h, k, p) g) g (reflexivity _)). cbn. now case_decide.
  - intros h' p' Hin. apply elem_of_cons in Hin as [[= _ ->]|Hin]; auto.
Qed.

(** A row that is not migrated moves in. *)
Lemma move_in_new g w k h inc nr a r ow ptr b p : wf g w -> p_rows w !! k = Some (MkPRow (MkPLocal false a r ow false ptr true) b) -> pasha_malloc (dom (p_cxl w) ∖ p_freed w) = Some p ->
  exists w', move_in_row (home k) value_size k inc nr w = Ret SUCCESS w' /\ abs w' = abs w /\ wf (pin_if inc (h, k, p) g) w' /\ p_index w' = <[k := p]> (p_index w) /\ dom (p_rows w') = dom (p_rows w).
Proof.
  intros Hwf Hk Hp. pose proof (wf_rows _ _ _ _ _ Hwf k _ Hk) as (_ & Hlen & Hi & Hpk & Hseen). cbn in Hlen.
  destruct (scc_init_ok 0 (home k) (Hhome k)) as (z1 & E1 & Hz1). destruct (scc_write_ok z1 (home k) (Hhome k) Hz1) as (z2 & E2 & Hz2).
  destruct (pin_if_ok inc h k p g) as (Hd & Hs & Hn & Hin). rewrite Hpk in Hn.
  assert (forall h' p', (h', k, p') ∈ pins (pin_if inc (h, k, p) g) -> p' = p) as Hin' by (intros h' p' Hx; destruct (Hin h' p' Hx) as [->|Hx']; [easy|]; pose proof (wf_pins _ _ _ _ _ Hwf _ _ _ Hx'); congruence).
  destruct (moved_in_ok g (pin_if inc (h, k, p) g) w k p a r ow ptr b z2 (default false nr) Hwf Hk (pasha_malloc_fresh _ _ Hp) Hz2 Hd Hs Hin') as [Ha Hw].
  eexists. split; [|split; [exact Ha|split; [exact Hw|]]].
  - rewrite Hn. unfold_moves. mrun. goes_all. destruct inc, nr; goes_all; rewrite memcpy_full by (rewrite ?length_replicate; lia);
      unfold moved_in, on_rows, on_cxl, on_index, new_row; cbn; now rewrite !insert_insert_eq.
  - split; [reflexivity|]. cbn. rewrite dom_insert_L. apply elem_of_dom_2 in Hk. set_solver.
Qed.

(** A row that is migrated already only gets the reference. *)
Lemma move_in_old g w k h inc nr p : wf g w -> p_index w !! k = Some p -> pins_of k g + 1 < 2 ^ 64 ->
  exists w', move_in_row (home k) value_size k inc nr w = Ret FAIL_ALREADY_IN_CXL w' /\ abs w' = abs w /\ wf (pin_if inc (h, k, p) g) w' /\ p_index w' = p_index w /\ dom (p_rows w') = dom (p_rows w).
Proof.
  intros Hwf Hi Hlt. destruct (indexed _ _ _ g w k p Hwf Hi) as (a0 & r0 & o0 & b0 & Hk & [_ (a & r & ow & z & nx & b & Hp & Hlen & Hr)]).
  destruct inc.
  - destruct (pin_ok scc value_size home g w h k Hwf Hlt) as (w' & E & Ha & Hw). rewrite Hi in Hw. exists w'. revert E. unfold_moves. mrun. rewrite Hi. goes_all. intros [= <-].
    split; [|now split_and!]. unfold l_lock. cbn. now rewrite rows_id.
  - exists w. unfold_moves. mrun. goes_all. rewrite rows_id by exact Hk. now split_and!.
Qed.

(** ** The neighbours in an ordered table *)

Lemma prev_row k w j : prev_of k w = Some j -> is_Some (p_rows w !! j).
Proof.
  intros E. pose proof (neighbour_spec Z.gtb ltac:(intros; lia) ltac:(intros; lia) ltac:(intros; lia) Z.ltb k (elements (dom (p_rows w)))) as H. unfold prev_of in E. rewrite E in H.
  apply elem_of_dom, elem_of_elements, H.
Qed.
Lemma next_row k w j : next_of k w = Some j -> is_Some (p_rows w !! j).
Proof.
  intros E. pose proof (neighbour_spec Z.ltb ltac:(intros; lia) ltac:(intros; lia) ltac:(intros; lia) Z.gtb k (elements (dom (p_rows w)))) as H. unfold next_of in E. rewrite E in H.
  apply elem_of_dom, elem_of_elements, H.
Qed.

Lemma tell_previous_ok g w o b : wf g w -> (forall j, o = Some j -> is_Some (p_rows w !! j)) ->
  exists w', tell_previous o b w = Ret tt w' /\ abs w' = abs w /\ wf g w' /\ p_index w' = p_index w /\ dom (p_rows w') = dom (p_rows w).
Proof.
  intros Hwf Ho. destruct o as [j|]; [|exists w; easy]. destruct (Ho j eq_refl) as [[[la a r ow mi ptr v] d] Hj].
  pose proof (wf_rows _ _ _ _ _ Hwf j _ Hj) as (Hl & _ & Hm). cbn in Hl, Hm. subst la. destruct mi.
  - destruct Hm as (-> & p & -> & [Hi (a1 & r1 & ow1 & z1 & nx1 & b1 & Hp & _)]).
    destruct (shared_same _ _ _ g g w j p a1 r1 ow1 _ z1 nx1 b1 (pins_of j g) b Hwf Hi Hp (differ_refl j g)) as [Ha Hw]; [auto| |reflexivity|].
    { intros h p' Hin. pose proof (wf_pins _ _ _ _ _ Hwf _ _ _ Hin). congruence. }
    eexists. split; [|split; [exact Ha|split; [exact Hw|easy]]]. unfold_moves. mrun. goes_all. now rewrite rows_id.
  - exists w. unfold_moves. mrun. goes_all. now rewrite rows_id.
Qed.

(** The home host moves a row in, for the host [h] when [inc] is set. *)
Definition moves_in (g : ghost) (w : pworld) (h : Z) (k : row_id) (inc : bool) (m : M pworld migration_result) : Prop :=
  exists w' res p, m w = Ret res w' /\ abs w' = abs w /\ wf (pin_if inc (h, k, p) g) w' /\ p_index w' !! k = Some p /\ dom (p_rows w') = dom (p_rows w) /\
    (res = FAIL_ALREADY_IN_CXL /\ p_index w' = p_index w \/ res = SUCCESS /\ p_index w !! k = None).

(** The allocator has memory, and the row is there and valid. *)
Definition can_move_in (g : ghost) (w : pworld) (k : row_id) : Prop :=
  is_Some (pasha_malloc (dom (p_cxl w) ∖ p_freed w)) /\ pins_of k g + 1 < 2 ^ 64 /\ exists r, p_rows w !! k = Some r /\ l_is_valid (p_meta r) = true.

Lemma move_in_row_ok g w h k inc nr : wf g w -> can_move_in g w k -> moves_in g w h k inc (move_in_row (home k) value_size k inc nr).
Proof.
  intros Hwf ([p Hp] & Hlt & [[la a r ow mi ptr v] b] & Hk & Hv). cbn in Hv. subst v. pose proof (wf_rows _ _ _ _ _ Hwf k _ Hk) as (Hl & _ & Hm). cbn in Hl, Hm. subst la. destruct mi.
  - destruct Hm as (_ & q & -> & [Hi _]). destruct (move_in_old g w k h inc nr q Hwf Hi Hlt) as (w' & E & Ha & Hw & Ei & Ed). exists w', FAIL_ALREADY_IN_CXL, q. rewrite Ei. split_and!; auto.
  - destruct (move_in_new g w k h inc nr a r ow ptr b p Hwf Hk Hp) as (w' & E & Ha & Hw & Ei & Ed). exists w', SUCCESS, p. rewrite Ei, lookup_insert_eq. split_and!; auto. right. now destruct Hm.
Qed.

Lemma next_key_ok g w o : wf g w -> (forall n, o = Some n -> is_Some (p_rows w !! n)) -> exists b, next_key_migrated o w = Ret b w.
Proof.
  intros Hwf Ho. destruct o as [n|]; [|now exists true]. destruct (Ho n eq_refl) as [[[la a r ow mi ptr v] d] Hn]. exists mi.
  destruct (wf_rows _ _ _ _ _ Hwf n _ Hn) as (Hl & _). cbn in Hl. subst la. unfold next_key_migrated. unfold_moves. mrun. goes_all. now rewrite rows_id.
Qed.

Lemma move_in_btree_ok g w h k inc : wf g w -> can_move_in g w k -> moves_in g w h k inc (move_from_btree_to_shared_region scc (home k) value_size k inc).
Proof.
  intros Hwf Hc. unfold moves_in, move_from_btree_to_shared_region. mrun.
  destruct (next_key_ok g w (next_of k w) Hwf (next_row k w)) as [b ->]. destruct (move_in_row_ok g w h k inc (Some b) Hwf Hc) as (w' & res & p & -> & Ha & Hw & Hi & Hd & [(-> & Ei)|(-> & Ei)]).
  - exists w', FAIL_ALREADY_IN_CXL, p. split_and!; auto.
  - destruct (tell_previous_ok _ w' (prev_of k w) true Hw) as (w2 & -> & Ha2 & Hw2 & Ei2 & Ed2).
    { intros j Hj. apply elem_of_dom. rewrite Hd. apply elem_of_dom. eapply prev_row, Hj. }
    exists w2, SUCCESS, p. split_and!; auto; congruence.
Qed.

Lemma move_in_ok g w h k inc : wf g w -> can_move_in g w k -> moves_in g w h k inc (move_from_partition_to_shared_region scc (home k) is_btree value_size k inc).
Proof.
  intros Hwf Hc. unfold moves_in, move_from_partition_to_shared_region. mrun.
  destruct (is_btree k.1.1); [destruct (move_in_btree_ok g w h k inc Hwf Hc) as (w' & res & p & -> & Ha & Hw & Hi & Hd & Hres)|
    unfold move_from_hashmap_to_shared_region; destruct (move_in_row_ok g w h k inc None Hwf Hc) as (w' & res & p & -> & Ha & Hw & Hi & Hd & Hres)].
  all: destruct Hres as [(-> & Ei)|(-> & Ei)]; [exists w', FAIL_ALREADY_IN_CXL, p; split_and!; auto|].
  all: destruct (wf_counts _ w' (count_move_in w') eq_refl eq_refl eq_refl eq_refl Hw) as [Hw2 Ha2].
  all: exists (count_move_in w'), SUCCESS, p; split_and!; auto; congruence.
Qed.

(** ** A row that moves out *)

Definition moved_out (k : row_id) (p a r ow n z : Z) (nx : bool) (b : bytes) (w : pworld) : pworld :=
  on_rows (insert k (MkPRow (MkPLocal false a r ow false None true) b))
    (on_index (delete k) (free_row p (on_cxl (insert p (MkSRow (MkPShared false a r ow n false z nx) b)) w))).

(** Other hosts have to read the row again. *)
Definition forget (k : row_id) (g : ghost) : ghost := Ghost (pins g) (filter (fun x => x.2 = k -> x.1 = home k) (seen g)).

Lemma moved_out_ok g w k p a r ow n z nx b a0 r0 o0 b0 : wf g w -> p_rows w !! k = Some (MkPRow (MkPLocal false a0 r0 o0 true (Some p) true) b0) -> p_index w !! k = Some p ->
  p_cxl w !! p = Some (MkSRow (MkPShared false a r ow n true z nx) b) -> pins_of k g = 0 -> forall z', let w' := moved_out k p a r ow n z' nx b w in abs w' = abs w /\ wf (forget k g) w'.
Proof.
  intros Hwf Hk Hi Hp Hpk z' w'.
  assert (forall j p', j <> k -> p_index w !! j = Some p' -> p' <> p) as Hne by (intros j p' Hjk Hj ->; apply Hjk; eapply wf_inj; eassumption).
  assert (length b = value_size k.1.1) as Hlen by (destruct (wf_rows _ _ _ _ _ Hwf k _ Hk) as (_ & _ & _ & q & [= <-] & [_ (a1 & r1 & ow1 & z1 & nx1 & b1 & Hp1 & Hlen & _)]); congruence).
  split.
  - apply map_eq. intros j. unfold abs. cbn. rewrite !lookup_fmap. destruct (decide (j = k)) as [->|Hjk].
    + rewrite lookup_insert_eq, Hk. cbn. unfold cell_of. cbn. now rewrite Hp.
    + rewrite lookup_insert_ne by congruence. destruct (p_rows w !! j) as [rj|] eqn:Hj; [|reflexivity]. cbn. unfold cell_of. cbn.
      destruct (wf_rows _ _ _ _ _ Hwf j rj Hj) as (_ & _ & Hm). destruct (l_is_migrated (p_meta rj)); [|reflexivity]. destruct Hm as (_ & p' & -> & Hm). cbn. rewrite lookup_insert_ne; [reflexivity|].
      intros <-. eapply Hne; [exact Hjk|apply Hm|reflexivity].
  - split; cbn.
    + intros j rj Hj. destruct (decide (j = k)) as [->|Hjk].
      * rewrite lookup_insert_eq in Hj. injection Hj as <-. split; [reflexivity|]. split; [exact Hlen|]. cbn. split; [apply lookup_delete_eq|]. split; [exact Hpk|].
        intros h Hin. apply elem_of_filter in Hin as [Hx _]. now apply Hx.
      * rewrite lookup_insert_ne in Hj by congruence. eapply (wf_row_ext _ _ _ g (forget k g) w); [reflexivity| |now apply (wf_rows _ _ _ _ _ Hwf)|cbn; now apply lookup_delete_ne|].
        -- intros h Hin. now apply elem_of_filter in Hin as [_ Hin].
        -- intros p' Hp'. cbn. apply lookup_insert_ne. intros <-. eapply Hne; [exact Hjk|exact Hp'|reflexivity].
    + intros j p' [Hjk Hj]%lookup_delete_Some. rewrite lookup_insert_ne by congruence. eapply wf_index; eassumption.
    + intros j j' p' [_ Hj]%lookup_delete_Some [_ Hj']%lookup_delete_Some. eapply wf_inj; eassumption.
    + intros j p' [Hjk Hj]%lookup_delete_Some. pose proof (wf_live _ _ _ _ _ Hwf _ _ Hj). pose proof (Hne j p' ltac:(congruence) Hj). set_solver.
    + intros h j p' Hin. pose proof (wf_pins _ _ _ _ _ Hwf _ _ _ Hin) as Hj. rewrite lookup_delete_ne; [exact Hj|]. intros ->.
      unfold pins_of in Hpk. assert ((h, j, p') ∈ filter (fun x : Z * row_id * Z => x.1.2 = j) (pins g)) as Hf by (apply list_elem_of_filter; easy). destruct (filter _ _); [now apply elem_of_nil in Hf|cbn in Hpk; lia].
Qed.

(** The home host moves a row out, unless another host has a reference. *)
Definition moves_out (g : ghost) (w : pworld) (k : row_id) (m : M pworld bool) : Prop :=
  exists w' ok, m w = Ret ok w' /\ abs w' = abs w /\ wf (if ok then forget k g else g) w' /\ ok = bool_decide (pins_of k g = 0) /\ dom (p_rows w') = dom (p_rows w).

Lemma move_out_row_ok g w k : wf g w -> is_Some (p_index w !! k) -> moves_out g w k (move_out_row (home k) value_size k).
Proof.
  intros Hwf [p Hi]. destruct (indexed _ _ _ g w k p Hwf Hi) as (a0 & r0 & o0 & b0 & Hk & [_ (a & r & ow & z & nx & b & Hp & Hlen & Hr)]).
  pose proof (wf_rows _ _ _ _ _ Hwf k _ Hk) as (_ & Hlen0 & _). cbn in Hlen0. assert (0 <= pins_of k g) by (unfold pins_of; lia). destruct (Z.ltb_spec 0 (pins_of k g)) as [Hpos|Hpos].
  - exists w, false. rewrite bool_decide_eq_false_2 by lia. split; [|easy]. unfold_moves. mrun. goes_all. destruct (Z.ltb_spec 0 (pins_of k g)); [|lia]. goes_all.
    unfold s_lock, l_lock, on_cxl, on_rows. cbn. rewrite !insert_id by assumption. now destruct w.
  - assert (pins_of k g = 0) as E0 by lia. rewrite E0 in Hp. destruct (scc_read_ok z (home k) (Hhome k)) as (z' & E & _).
    destruct (moved_out_ok g w k p a r ow 0 z nx b a0 r0 o0 b0 Hwf Hk Hi Hp E0 z') as [Ha Hw]. eexists _, true. rewrite bool_decide_eq_true_2 by exact E0.
    split; [|split; [exact Ha|split; [exact Hw|split; [reflexivity|cbn; rewrite dom_insert_L; apply elem_of_dom_2 in Hk; set_solver]]]].
    unfold_moves. mrun. goes_all. rewrite memcpy_full by lia. unfold moved_out, on_rows, on_cxl, on_index, free_row. cbn. now rewrite !insert_insert_eq.
Qed.

Lemma move_out_btree_ok g w k : wf g w -> is_Some (p_index w !! k) -> moves_out g w k (move_from_btree_to_partition scc (home k) value_size k).
Proof.
  intros Hwf Hi. unfold moves_out, move_from_btree_to_partition. mrun. destruct (move_out_row_ok g w k Hwf Hi) as (w' & ok & -> & Ha & Hw & Hok & Hd).
  destruct ok; [|exists w', false; auto]. destruct (tell_previous_ok _ w' (prev_of k w) false Hw) as (w2 & -> & Ha2 & Hw2 & _ & Hd2).
  { intros j Hj. apply elem_of_dom. rewrite Hd. apply elem_of_dom. eapply prev_row, Hj. }
  exists w2, true. split_and!; auto; congruence.
Qed.

Lemma move_out_ok g w k : wf g w -> is_Some (p_index w !! k) -> moves_out g w k (move_from_shared_region_to_partition scc (home k) is_btree value_size k).
Proof.
  intros Hwf Hi. unfold moves_out, move_from_shared_region_to_partition, move_from_hashmap_to_partition. mrun.
  destruct (is_btree k.1.1); [destruct (move_out_btree_ok g w k Hwf Hi) as (w' & ok & -> & Ha & Hw & Hok & Hd)|destruct (move_out_row_ok g w k Hwf Hi) as (w' & ok & -> & Ha & Hw & Hok & Hd)].
  all: destruct ok; [|exists w', false; auto]; destruct (wf_counts _ w' (count_move_out w') eq_refl eq_refl eq_refl eq_refl Hw) as [Hw2 Ha2].
  all: exists (count_move_out w'), true; split_and!; auto; congruence.
Qed.

(** ** Runs of the helper *)

(** The calls of the hosts: an operation of the home host on its row or of another host
    on the object it has a reference to, taking such a reference and giving it back, and
    the moves that the home host does, in with a reference for the host that asked. *)
Inductive pcall := CLocal (k : row_id) (o : rop) | CRemote (h : Z) (k : row_id) (p : Z) (o : rop) | CGet (h : Z) (k : row_id) | CRelease (h : Z) (k : row_id) (p : Z)
  | CMoveIn (h : Z) (k : row_id) (inc : bool) | CMoveOut (k : row_id).
Inductive presult := RAnswer (a : answer) | RAddress (p : option Z) | RUnit | RMoved (r : migration_result) | RMovedOut (b : bool).

Definition pcall_run (c : pcall) : M pworld presult :=
  match c with
  | CLocal k o => a ← local_op value_size scc (home k) k o; mret (RAnswer a)
  | CRemote h k p o => a ← remote_op value_size scc h k p o; mret (RAnswer a)
  | CGet h k => p ← get_migrated_row k true; mret (RAddress p)
  | CRelease h k p => release_migrated_row k;; mret RUnit
  | CMoveIn h k inc => r ← move_from_partition_to_shared_region scc (home k) is_btree value_size k inc; mret (RMoved r)
  | CMoveOut k => b ← move_from_shared_region_to_partition scc (home k) is_btree value_size k; mret (RMovedOut b)
  end.

(** What the callers keep to: they call with references that they have, a row that is
    moved is there, one that is moved out is in CXL memory, and no more than [2^64]
    references are taken. *)
Definition pcall_enabled (g : ghost) (w : pworld) (c : pcall) : Prop :=
  match c with
  | CLocal k o => is_Some (p_rows w !! k) /\ op_allowed value_size (home k) k o g
  | CRemote h k p o => (h, k, p) ∈ pins g /\ scc_host h /\ op_allowed value_size h k o g
  | CGet h k => pins_of k g + 1 < 2 ^ 64
  | CRelease h k p => (h, k, p) ∈ pins g /\ pins_of k g < 2 ^ 64
  | CMoveIn h k inc => can_move_in g w k
  | CMoveOut k => is_Some (p_index w !! k)
  end.

Fixpoint remove_pin (x : Z * row_id * Z) (l : list (Z * row_id * Z)) : list (Z * row_id * Z) :=
  match l with [] => [] | y :: l => if decide (x = y) then l else y :: remove_pin x l end.

(** What is known after a call. *)
Definition pcall_ghost (c : pcall) (r : presult) (w' : pworld) (g : ghost) : ghost :=
  match c, r with
  | CLocal k o, _ => see (home k) k o g
  | CRemote h k p o, _ => see h k o g
  | CGet h k, RAddress (Some p) => add_pin (h, k, p) g
  | CRelease h k p, _ => Ghost (remove_pin (h, k, p) (pins g)) (seen g)
  | CMoveIn h k inc, _ => match p_index w' !! k with Some p => pin_if inc (h, k, p) g | None => g end
  | CMoveOut k, RMovedOut true => forget k g
  | _, _ => g
  end.

(** The operation of Sundial that a call is. *)
Definition pcall_op (c : pcall) : option (row_id * rop) := match c with CLocal k o | CRemote _ k _ o => Some (k, o) | _ => None end.

Lemma remove_pin_perm x l : x ∈ l -> l ≡ₚ x :: remove_pin x l.
Proof.
  induction l as [|y l IH]; cbn; [now intros ?%elem_of_nil|]. intros [<-|Hin]%elem_of_cons; [now rewrite decide_True by reflexivity|]. case_decide as E; [now rewrite E|].
  rewrite (IH Hin) at 1. constructor.
Qed.

(** An enabled call returns, and does what the operation of Sundial does to the rows that
    are shown; it fails where that operation fails. *)
Definition pcall_refines (g : ghost) (w : pworld) (c : pcall) : Prop :=
  match pcall_op c with
  | Some (k, o) =>
      match run_op value_size k o (abs w) with
      | Ret a d => exists w', pcall_run c w = Ret (RAnswer a) w' /\ abs w' = d /\ wf (pcall_ghost c (RAnswer a) w' g) w'
      | _ => pcall_run c w = Abort
      end
  | None => exists r w', pcall_run c w = Ret r w' /\ abs w' = abs w /\ wf (pcall_ghost c r w' g) w'
  end.

Lemma pcall_ok g w c : wf g w -> pcall_enabled g w c -> pcall_refines g w c.
Proof.
  intros Hwf He. unfold pcall_refines, pcall_run. destruct c as [k o|h k p o|h k|h k p|h k inc|k]; cbn [pcall_op pcall_enabled pcall_ghost] in *.
  - destruct He as [Hk Ho]. pose proof (local_sim scc value_size home Hhome g w (home k) k o Hwf Hk eq_refl Ho) as Hs. unfold simulates in Hs.
    destruct (run_op _ k o (abs w)); [destruct Hs as (w' & E & Ha & Hw); exists w'|..]; mrun; now rewrite ?E, ?Hs.
  - destruct He as (Hp & Hh & Ho). pose proof (remote_sim scc value_size home g w h k p o Hwf Hp Hh Ho) as Hs. unfold simulates in Hs.
    destruct (run_op _ k o (abs w)); [destruct Hs as (w' & E & Ha & Hw); exists w'|..]; mrun; now rewrite ?E, ?Hs.
  - destruct (pin_ok scc value_size home g w h k Hwf He) as (w' & E & Ha & Hw). exists (RAddress (p_index w !! k)), w'. mrun. rewrite E. split; [reflexivity|]. split; [exact Ha|]. now destruct (p_index w !! k).
  - destruct He as [Hp Hlt]. destruct (unpin_ok scc value_size home g (Ghost (remove_pin (h, k, p) (pins g)) (seen g)) w h k p Hwf (remove_pin_perm _ _ Hp) eq_refl Hlt) as (w' & E & Ha & Hw).
    exists RUnit, w'. mrun. now rewrite E.
  - destruct (move_in_ok g w h k inc Hwf He) as (w' & res & p & E & Ha & Hw & Hi & _). exists (RMoved res), w'. mrun. rewrite E, Hi. auto.
  - destruct (move_out_ok g w k Hwf He) as (w' & ok & E & Ha & Hw & Hok & _). exists (RMovedOut ok), w'. mrun. rewrite E. split; [reflexivity|]. split; [exact Ha|]. now destruct ok.
Qed.

(** Runs: calls that are enabled, one after the other. *)
Inductive psteps : ghost -> pworld -> list (pcall * presult) -> ghost -> pworld -> Prop :=
| psteps_nil g w : psteps g w [] g w
| psteps_cons g w c r w1 tr g2 w2 : pcall_enabled g w c -> pcall_run c w = Ret r w1 -> psteps (pcall_ghost c r w1 g) w1 tr g2 w2 -> psteps g w ((c, r) :: tr) g2 w2.

(** The run of Sundial that a run is: the operations in it, with their answers. *)
Fixpoint sundial_run (tr : list (pcall * presult)) (d : SundialHelper.db) : option SundialHelper.db :=
  match tr with
  | [] => Some d
  | (c, r) :: tr =>
      match pcall_op c, r with
      | Some (k, o), RAnswer a => match run_op value_size k o d with Ret a' d' => if decide (a' = a) then sundial_run tr d' else None | _ => None end
      | _, _ => sundial_run tr d
      end
  end.

Lemma psteps_run g w tr g' w' : psteps g w tr g' w' -> wf g w -> sundial_run tr (abs w) = Some (abs w') /\ wf g' w'.
Proof.
  induction 1 as [g w|g w c r w1 tr g2 w2 He Hr _ IH]; intros Hwf; [easy|]. pose proof (pcall_ok g w c Hwf He) as Hc. unfold pcall_refines in Hc. cbn [sundial_run]. destruct (pcall_op c) as [[k o]|] eqn:Eo.
  - destruct (run_op value_size k o (abs w)) as [a d| | |] eqn:Er; [|congruence..]. destruct Hc as (w' & E & Ha & Hw). rewrite Hr in E. injection E as -> ->. rewrite decide_True by reflexivity.
    subst d. now apply IH.
  - destruct Hc as (r' & w' & E & Ha & Hw). rewrite Hr in E. injection E as -> ->. rewrite <- Ha. now apply IH.
Qed.

(** C4: Migration is invisible to the protocol of Sundial.  In every run of calls of
    [SundialPashaHelper], by the home hosts and by others with references, with rows that
    move to CXL memory and back in between, the operations on rows return what Sundial's
    own operations return when they run in that order on the rows that are shown, a row
    wherever it is, and leave those rows the same; getting and giving back references and
    moving rows changes nothing that is shown.  In every state that is reached the next
    call returns where Sundial's does, without a failing CHECK, also when the memory of
    rows that moved out is used again. *)
Theorem sundial_pasha_refines g w tr g' w' : wf g w -> psteps g w tr g' w' ->
  sundial_run tr (abs w) = Some (abs w') /\ forall c, pcall_enabled g' w' c -> pcall_refines g' w' c.
Proof. intros Hwf Hs. destruct (psteps_run _ _ _ _ _ Hs Hwf) as [Hr Hw]. split; [exact Hr|]. intros c. now apply pcall_ok. Qed.

(** ** What fails *)

(** C37: What the helper of SundialPasha refuses.  An operation of another host on an object
    that is not valid any more or that nobody has a reference to fails a CHECK and does
    nothing else, whatever the operation; a row that is not in the index has no address and
    its reference cannot be given back; a row that is not valid or not in CXL memory
    cannot be moved out, and one that is not valid cannot be moved in; and when the
    allocator has no memory left, moving a row in dereferences null. *)
Theorem sundial_pasha_errors h k p o inc w :
  (forall s, p_cxl w !! p = Some s -> s_latch (sr_meta s) = false -> s_is_valid (sr_meta s) = false \/ s_ref_cnt (sr_meta s) <= 0 -> remote_op value_size scc h k p o w = Abort) /\
  (p_index w !! k = None -> get_migrated_row k inc w = Ret None w /\ release_migrated_row k w = Abort) /\
  (forall r nr, p_rows w !! k = Some r -> l_latch (p_meta r) = false ->
    (l_is_valid (p_meta r) = false -> move_in_row h value_size k inc nr w = Abort /\ move_out_row h value_size k w = Abort) /\
    (l_is_valid (p_meta r) = true -> l_is_migrated (p_meta r) = false ->
      move_out_row h value_size k w = Abort /\ (pasha_malloc (dom (p_cxl w) ∖ p_freed w) = None -> move_in_row h value_size k inc nr w = Fault))).
Proof.
  split; [|split].
  - intros s Hp Hl Hs. unfold remote_op, remote_read, remote_write_lock, remote_renew_lease, remote_update, remote_unlock. unfold_moves. destruct s as [[la a r ow n v z nx] b]. cbn in Hl, Hs. subst la.
    assert (v && (0 <? n) = false) as Hv by (destruct Hs as [->|Hs]; [reflexivity|apply andb_false_intro2; lia]).
    destruct o; mrun; goes_all; destruct v; goes_all; cbn in Hv; rewrite ?Hv; reflexivity.
  - intros Hi. unfold_moves. mrun. now rewrite Hi.
  - intros [[la a r ow mi ptr v] b] nr Hk Hl. cbn in Hl |- *. subst la. unfold_moves. split.
    + intros ->. mrun. goes_all. easy.
    + intros -> ->. mrun. goes_all. split; [reflexivity|]. intros E. now rewrite E.
Qed.
End moves.
