(* ===== verification/Witness.v ===== *)
(** * Concrete runs

    An allocator, a policy and a small partition that satisfy what the
    components assume, and runs of the operations on them.  Each lemma applies
    one theorem of the development at such a run. *)

From stdpp Require Import functions.
From Stdlib Require Import Init.Byte.
From S2P Require Import Prelude LockWord RWLock TwoPLHelper SharedWord SCC CXLMemory PashaState PashaHelper PashaMigration PashaRow PashaOps PashaMove PashaTable.

(** ** An allocator of 64 objects and a policy without metadata *)

Definition first_free (used : gset Z) : option Z :=
  snd <$> list_find (fun p => p ∉ used) (seqZ 1 64).

#[export] Program Instance small_alloc : CxlAlloc := {|
  cxlalloc_malloc used _ := first_free used;
  cxlalloc_content _ n := MkScc 0 0 0 [] (replicate n x00)
|}.
Next Obligation.
  intros used sz p H. unfold first_free in H.
  apply fmap_Some in H as ([i q] & Hf & ->). apply list_find_Some in Hf as (Hl & Hq & _).
  apply lookup_seqZ in Hl as [-> Hi]. split; [exact Hq|]. cbn. lia.
Qed.
Next Obligation. intros. cbn. apply length_replicate. Qed.
Next Obligation. intros. unfold fits; cbn; lia. Qed.
Next Obligation. intros. unfold fits; cbn; lia. Qed.

#[export] Instance no_policy_meta : PolicyMeta := {|
  init_migration_policy_metadata _ := [];
  access_row b := b
|}.

Definition test_cfg : config := Config true true true false.

Lemma test_cfg_ok :
  enable_scc test_cfg = true \/ enable_migration_optimization test_cfg = false.
Proof. now left. Defined.

Definition test_owner : Z := 0.
Lemma test_owner_ok : host_ok test_owner.
Proof. unfold host_ok, test_owner. lia. Defined.

Definition test_size (_ : rkey) : nat := 2.

(** Two valid, unlocked rows. *)
Definition key_a : rkey := (1, 0, 10).
Definition key_b : rkey := (1, 0, 20).
Definition row_a : PashaState.lrow := PashaState.MkRow (TwoPLPashaMetadataLocalInit true) [x61; x61].
Definition row_b : PashaState.lrow := PashaState.MkRow (TwoPLPashaMetadataLocalInit true) [x62; x62].

Definition world0 : world :=
  World {[ key_a := row_a; key_b := row_b ]} ∅ ∅ ∅ (MkCounters (MkStats 0 0 0 0 0 0) 0 0) [].

Lemma world0_rows k r : w_rows world0 !! k = Some r -> r = row_a \/ r = row_b.
Proof.
  cbn. intros [[_ <-]|[_ H]]%lookup_insert_Some; [now left|].
  apply lookup_singleton_Some in H as [_ <-]. now right.
Qed.

(** A freshly inserted row satisfies the invariant. *)
Lemma fresh_row_ok n w k valid value :
  length value = n -> w_tbl w !! k = None ->
  row_ok n w k (PashaState.MkRow (TwoPLPashaMetadataLocalInit valid) value).
Proof.
  intros Hn Ht. unfold row_ok; cbn. split; [|split; [exact Ht|]].
  - split; [split; [reflexivity|split; [unfold fits; cbn; lia|exact Hn]]|].
    split; [reflexivity|split; [reflexivity|]]. intros H. reflexivity.
  - split; [reflexivity|]. intros o H. discriminate H.
Qed.

Lemma world0_inv : winv test_size world0.
Proof.
  constructor.
  - intros k r [-> | ->]%world0_rows; now apply fresh_row_ok.
  - intros k k' r r' p [-> | ->]%world0_rows _ H; discriminate H.
  - intros k k' r r' p [-> | ->]%world0_rows _ H; discriminate H.
  - intros k p H. discriminate H.
Qed.

Lemma world0_abs k :
  abs k world0 = None \/ abs k world0 = Some (home_tuple row_a) \/
  abs k world0 = Some (home_tuple row_b).
Proof.
  destruct (w_rows world0 !! k) as [r|] eqn:E.
  - right. rewrite (abs_home k world0 r E); apply world0_rows in E as [-> | ->]; auto.
  - left. unfold abs. now rewrite E.
Qed.

Lemma world0_unlocked :
  @unlocked (shared_table write_through test_cfg test_owner test_owner_ok test_cfg_ok test_size) world0.
Proof.
  intros k. change (readers_of k world0 = 0 /\ writer_of k world0 = false).
  unfold readers_of, writer_of.
  destruct (world0_abs k) as [-> | [-> | ->]]; split; reflexivity.
Qed.

(** ** Two hosts and one row

    The owner moves row [key_a] into CXL memory; client 1, on host 1, takes
    its write lock through the CXL index. *)

#[local] Abbreviation table :=
  (shared_table write_through test_cfg test_owner test_owner_ok test_cfg_ok test_size).

Definition final {A} (m : M world A) (w : world) : world :=
  match m w with Ret _ w' => w' | _ => w end.

Lemma host1_ok : host_ok 1.
Proof. unfold host_ok. lia. Defined.

Definition move_in_a : @lop table := exist _ (key_a, MoveIn false) I.
Definition lock_a : @lop table :=
  exist _ (key_a, RemoteTakeWrite 1 [x00; x00] true) (conj host1_ok eq_refl).

Definition world1 : world := final (@lexec table move_in_a) world0.
Definition world2 : world := final (@lexec table lock_a) world1.

Definition sys1 : @sys table := Sys (O := table) world1 (fun _ => ∅).
Definition sys2 : @sys table := Sys (O := table) world2 (<[@lkey_of table lock_a := <[1%nat := Wr]> ∅]> (fun _ => ∅)).

Lemma step1 : sys_step (O := table) None (Sys (O := table) world0 (fun _ => ∅)) sys1.
Proof.
  eapply (internal (O := table) world0 world1 _ move_in_a true None); [reflexivity|].
  vm_compute. reflexivity.
Qed.

Lemma step2 : sys_step (O := table) None sys1 sys2.
Proof.
  eapply (acquire_write (O := table) world1 world2 (fun _ => ∅) 1%nat lock_a (Some [x61; x61])); [reflexivity..|].
  vm_compute. reflexivity.
Qed.

Lemma sys2_reachable : reachable (O := table) world0 sys2.
Proof.
  eapply reach_step; [|exact step2]. eapply reach_step; [|exact step1]. apply reach_init.
Qed.

Lemma world1_inv : winv test_size world1.
Proof.
  refine (proj1 (reachable_counted (O := table) world0 sys1 world0_inv world0_unlocked _)).
  eapply reach_step; [|exact step1]. apply reach_init.
Qed.

Lemma mutual_exclusion_witness : s_held sys2 key_a !! 2%nat = None.
Proof.
  apply (mutual_exclusion write_through test_cfg test_owner test_owner_ok test_cfg_ok test_size
    world0 sys2 key_a 1 2).
  - exact world0_inv.
  - exact world0_unlocked.
  - exact sys2_reachable.
  - reflexivity.
  - discriminate.
Defined.

(** The owner asks for a read lock while client 1 holds the write lock: the
    request is refused, and the value that client 1 read stays. *)
Definition probe_a : @lop table := exist _ (key_a, TakeRead [x00; x00]) eq_refl.
Definition world3 : world := final (@lexec table probe_a) world2.
Definition sys3 : @sys table := Sys (O := table) world3 (s_held sys2).

Lemma step3 : sys_step (O := table) None sys2 sys3.
Proof.
  eapply (acquire_fail (O := table) world2 world3 _ probe_a None); [now left|].
  vm_compute. reflexivity.
Qed.

Lemma repeatable_reads_witness : value_of key_a world3 = Some [x61; x61].
Proof.
  destruct (repeatable_reads write_through test_cfg test_owner test_owner_ok test_cfg_ok test_size
    world0 sys2 sys3 key_a 1 []) as [_ H].
  - exact world0_inv.
  - exact world0_unlocked.
  - exact sys2_reachable.
  - eapply (holding_cons (O := table) 1 key_a None []); [eexists; reflexivity|exact step3|].
    apply holding_nil.
  - etransitivity; [exact (H eq_refl)|]. vm_compute. reflexivity.
Defined.

Lemma lock_state_exact_witness :
  writer_of key_a world2 = true <-> exists c, s_held sys2 key_a !! c = Some Wr.
Proof.
  apply (lock_state_exact write_through test_cfg test_owner test_owner_ok test_cfg_ok test_size
    world0 sys2 key_a).
  - exact world0_inv.
  - exact world0_unlocked.
  - exact sys2_reachable.
Defined.

(** The owner reads a row in its partition. *)
Lemma locking_read_current_witness : value_of key_b world0 = Some [x62; x62].
Proof.
  apply (locking_read_current write_through test_cfg test_owner test_owner_ok test_cfg_ok test_size
    key_b (TakeRead [x00; x00]) world0 true [x62; x62]
    (final (run write_through test_cfg test_owner test_size key_b (TakeRead [x00; x00])) world0)).
  - reflexivity.
  - exact world0_inv.
  - exact I.
  - vm_compute. reflexivity.
  - discriminate.
Defined.

Lemma move_in_transparent_witness :
  exists res o w', Migration.move_from_hashmap_to_shared_region write_through test_cfg test_owner
    key_a 2 false world0 = Ret (res, o) w' /\ abs key_b w' = abs key_b world0.
Proof.
  destruct (move_in_transparent write_through test_cfg test_owner test_owner_ok test_cfg_ok test_size
    world0 key_a (home_tuple row_a) false) as (res & o & w' & E & _ & H & _).
  - exact world0_inv.
  - vm_compute. reflexivity.
  - exists res, o, w'. split; [exact E|apply H].
Defined.

Lemma move_out_transparent_witness :
  exists b w', Migration.move_from_hashmap_to_partition write_through test_cfg test_owner
    key_a 2 world1 = Ret b w' /\ abs key_a w' = Some (home_tuple row_a).
Proof.
  destruct (move_out_transparent write_through test_cfg test_owner test_owner_ok test_size
    world1 key_a (home_tuple row_a)) as (b & w' & E & _ & H & _).
  - exact world1_inv.
  - vm_compute. reflexivity.
  - exists b, w'. split; [exact E|]. etransitivity; [apply H|]. vm_compute. reflexivity.
Defined.
