(* ===== verification/IndexWitness.v ===== *)
(** * Concrete indexes

    A hash table, a B+ tree of three levels and runs of the optimistic lock, on
    which the theorems about the indexes are applied; and the trees and runs on
    which the [pre_] links and the iterators fail. *)

From S2P Require Import Prelude SharedWord SCC CXLMemory PashaState HashTable BTreeNode BTree BTreeInv BTreeInsert BTreeTree BTreeRemove BTreeSpec BTreeScan BTreeAdjacent LocalIndex NodeLock BTreeCXL BTreeCXLSpec Witness.

(** ** The hash table *)

Definition no_usage : cxl_stats := MkStats 0 0 0 0 0 0.
Definition two_buckets : option CCHashTable.table := CCHashTable.new_table test_cfg 2 no_usage.

Definition some_calls : list CCHashTable.call :=
  [CCHashTable.Insert 5 1; CCHashTable.Insert 7 2; CCHashTable.Search 7; CCHashTable.Remove 5 1].

(** The run returns, so its answers are those of the map. *)
Lemma hash_table_refines_witness : exists t answers t' m',
  two_buckets = Some t /\ CCHashTable.calls (CCHashTable.call_of test_cfg) some_calls t = Ret answers t' /\
  CCHashTable.calls CCHashTable.spec_of some_calls ∅ = Ret answers m' /\ answers = [CCHashTable.Done true; CCHashTable.Done true; CCHashTable.Found (Some 2); CCHashTable.Done true].
Proof.
  destruct two_buckets as [t|] eqn:Ht; [|discriminate Ht]. exists t.
  pose proof (CCHashTable.hash_table_refines test_cfg 2 no_usage t some_calls ltac:(lia) Ht) as H. revert H. unfold CCHashTable.refines, CCSet.sim.
  injection Ht as <-. destruct (CCHashTable.calls _ some_calls _) as [answers t'| | |] eqn:E; try (vm_compute in E; discriminate E).
  destruct (CCHashTable.calls CCHashTable.spec_of some_calls ∅) as [answers' m'| | |] eqn:E'; try easy. intros [-> _].
  exists answers', t', m'. do 3 (split; [first [exact E | reflexivity]|]). vm_compute in E. now injection E as <- _.
Defined.

Lemma empty_indexes t : two_buckets = Some t -> CCHashTable.indexes 1 0 0 world0 t.
Proof.
  intros Ht. exists ∅. pose proof (CCHashTable.new_table_ok test_cfg 2 no_usage t ltac:(lia) Ht) as H. split; [|easy].
  injection Ht as <-. exact H.
Defined.

(** An empty index: the key is not found, can be inserted, and is not removed. *)
Lemma cxl_index_refines_witness : exists t, two_buckets = Some t /\
  CCHashTable.indexes 1 0 0 world0 t /\
  CCHashTable.index_step 1 0 0 (CCHashTable.no_memory t) (CCHashTable.map_insert test_cfg (fun k : Z => k) 10 3 false t) (cxl_insert key_a 3 world0).
Proof.
  eexists. split; [reflexivity|]. pose proof (empty_indexes _ eq_refl) as Hi. split; [exact Hi|].
  destruct (CCHashTable.cxl_index_refines test_cfg (fun k : Z => k) 1 0 0 world0 _ 10 3 Hi) as (_ & H & _). apply H. reflexivity.
Defined.

(** ** The tree in CXL memory *)

(** The index of an empty partition: a row is inserted, and found by a scan. *)
Lemma cxl_ordered_index_refines_witness :
  tree_indexes 3 5 1 0 no_usage world0 (BPlusTreeCXL.new_tree test_cfg no_usage) /\
  tree_step 3 5 1 0 no_usage (CXLTableBTreeOLC.insert 3 5 test_cfg 10 3 false (BPlusTreeCXL.new_tree test_cfg no_usage)) (cxl_insert key_a 3 world0).
Proof.
  assert (Hi : tree_indexes 3 5 1 0 no_usage world0 (BPlusTreeCXL.new_tree test_cfg no_usage)) by (apply new_tree_indexes; reflexivity).
  split; [exact Hi|]. destruct (cxl_ordered_index_refines 3 5 test_cfg 1 0 ltac:(lia) ltac:(lia) no_usage world0 _ 10 3 Hi) as (_ & H & _). exact H.
Defined.

(** Seven rows in nodes for three keys: after the insertions the tree has a root and
    five leaves; when rows are removed pages are retired, and the counter follows. *)
Definition fill_and_drain (ins del : list Z) : M (BPlusTreeCXL.state CXLTableBTreeOLC.BTreeOLCValue) unit :=
  foldr (fun k m => CXLTableBTreeOLC.insert 3 5 test_cfg k k false;; m) (foldr (fun k m => CXLTableBTreeOLC.remove 3 5 test_cfg k k;; m) (mret tt) del) ins.

Definition pages_after (ins del : list Z) : option (Z * Z * Z) :=
  match fill_and_drain ins del (BPlusTreeCXL.new_tree test_cfg no_usage) with
  | Ret _ c => Some (size_index_usage (BPlusTreeCXL.c_stats c), tree_pages c, BPlusTreeCXL.retired c)
  | _ => None
  end.

Example pages_grow : pages_after [1; 2; 3; 4; 5; 6; 7] [] = Some (6 * 4096, 6, 0).
Proof. vm_compute. reflexivity. Qed.
Example pages_shrink : pages_after [1; 2; 3; 4; 5; 6; 7] [3; 4; 5; 6; 7; 2] = Some (4096, 1, 5).
Proof. vm_compute. reflexivity. Qed.

(** ** Searching in a node *)

Definition odd_keys : list Z := [1; 3; 5].

Lemma lower_bound_correct_witness : ascending odd_keys /\
  lowerBound odd_keys 4 = linear_search odd_keys 4 /\ (lowerBound odd_keys 4 <= length odd_keys)%nat /\
  forall i x, odd_keys !! i = Some x -> (i < lowerBound odd_keys 4)%nat <-> x < 4.
Proof.
  assert (H : ascending odd_keys) by (repeat constructor; lia). split; [exact H|]. exact (lower_bound_correct odd_keys 4 H).
Defined.

(** ** A tree of three levels *)

Definition inserts (ks : list Z) : list (op (V := Z)) := (fun k => Insert k (k * 10)) <$> ks.

Lemma btree_refines_witness : exists t,
  exec_all 3 5 (inserts (seqZ 1 12) ++ [Remove 4; Remove 5; Lookup 6]) new_tree =
    Some (replicate 14 (Success true) ++ [Found (Some 60)], t) /\
  tree_entries t = (fun k => (k, k * 10)) <$> [1; 2; 3; 6; 7; 8; 9; 10; 11; 12] /\ tree_ok 3 5 t.
Proof.
  destruct (btree_refines (V := Z) 3 5 ltac:(lia) ltac:(lia) (inserts (seqZ 1 12) ++ [Remove 4; Remove 5; Lookup 6])) as (t & E & El & Ht).
  exists t. split; [rewrite E; reflexivity|]. split; [rewrite El; reflexivity|exact Ht].
Defined.

(** The tree after ascending insertions, whose [pre_] links are right. *)
Definition sample : tree (V := Z) := match exec_all 3 5 (inserts (seqZ 1 12)) new_tree with Some (_, t) => t | None => new_tree end.
Definition sample_entries : list (Z * Z) := (fun k => (k, k * 10)) <$> seqZ 1 12.

Lemma sample_height : height sample = 2%nat.
Proof. vm_compute. reflexivity. Qed.

Lemma sample_facts : exists t, t = sample /\ tree_ok 3 5 t /\ back_linked None (tree_leaves t) /\ tree_entries t = sample_entries.
Proof.
  exists sample. split; [easy|]. split; [|split].
  - destruct (exec_all_ok (V := Z) 3 5 ltac:(lia) ltac:(lia) (inserts (seqZ 1 12)) new_tree (new_tree_ok 3 5)) as (t & E & Ht & _).
    unfold sample. rewrite E. exact Ht.
  - vm_compute. repeat split.
  - vm_compute. reflexivity.
Qed.

Definition collect (s : list Z) (k v : Z) (last : bool) : bool * list Z := (k =? 8, s ++ [k]).

Lemma scan_shows_sample : exists t, t = sample /\ tree_ok 3 5 t /\ scanForUpdate collect 4 t [] = Some [4; 5; 6; 7; 8].
Proof.
  destruct sample_facts as (t & Es & Ht & _ & E). exists t. split; [exact Es|]. split; [exact Ht|].
  rewrite (scan_shows 3 5 collect t 4 [] Ht), E. reflexivity.
Defined.

Definition allow (s : list Z) (e : Z * Z) : bool * list Z := (true, s ++ [fst e]).

(** The next key of 0 is the first of the tree. *)
Lemma insert_next_key_shows_sample : exists t, t = sample /\ tree_ok 3 5 t /\
  exists t', insert_lock_next_key 3 5 0 7 allow t [] = Some (true, t', [1]) /\ tree_ok 3 5 t' /\ tree_entries t' = (0, 7) :: sample_entries.
Proof.
  destruct sample_facts as (t & Es & Ht & _ & E). exists t. split; [exact Es|]. split; [exact Ht|].
  pose proof (insert_next_key_shows 3 5 ltac:(lia) ltac:(lia) 0 7 allow t [] Ht) as H. rewrite E in H. exact H.
Defined.

Definition show (s : list Z) (e : option (Z * Z) * (Z * Z) * option (Z * Z)) : bool * list Z := (true, s ++ [fst e.1.2]).

Lemma adjacent_keys_shown_witness : exists t, t = sample /\ (tree_ok 3 5 t /\ back_linked None (tree_leaves t)) /\
  lookupForNextKeyUpdate 7 t = Some (Some (Some (6, 60), (7, 70), Some (8, 80))) /\
  exists t', remove_and_process_adjacent_tuples 3 5 7 show t [] = Some (true, t', [7]) /\ tree_ok 3 5 t' /\ tree_entries t' = del 7 sample_entries.
Proof.
  destruct sample_facts as (t & Es & Ht & Hb & E). exists t. split; [exact Es|]. split; [exact (conj Ht Hb)|].
  pose proof (adjacent_keys_shown 3 5 ltac:(lia) ltac:(lia) 7 show t [] Ht Hb) as H. cbv zeta in H. rewrite E in H. exact H.
Defined.

(** ** The index of a table *)

(** The two rows of [world0] in a tree. *)
Definition table_tree : tree (V := Z) := match exec_all 3 5 [Insert 10 1; Insert 20 2] new_tree with Some (_, t) => t | None => new_tree end.

Lemma table_tree_ok : tree_ok 3 5 table_tree.
Proof.
  destruct (exec_all_ok (V := Z) 3 5 ltac:(lia) ltac:(lia) [Insert 10 1; Insert 20 2] new_tree (new_tree_ok 3 5)) as (t & E & Ht & _).
  unfold table_tree. rewrite E. exact Ht.
Qed.

Lemma table_tree_index : local_index 1 0 world0 table_tree.
Proof.
  intros k. assert (E : fst <$> tree_entries table_tree = [10; 20]) by (vm_compute; reflexivity). rewrite E. cbn [world0 w_rows].
  rewrite dom_insert_L, dom_singleton_L. unfold row_key, key_a, key_b. set_solver.
Qed.

Lemma local_index_neighbours_witness : (tree_ok 3 5 table_tree /\ local_index 1 0 world0 table_tree) /\
  next_key key_a world0 = Some key_b /\
  exists prev v next, lookupForNextKeyUpdate 20 table_tree = Some (Some (prev, (20, v), next)) /\
    (fun e : Z * Z => row_key 1 0 (fst e)) <$> prev = prev_key key_b world0.
Proof.
  split; [exact (conj table_tree_ok table_tree_index)|]. split.
  - destruct (local_index_neighbours 3 5 1 0 world0 table_tree 10 table_tree_ok table_tree_index) as [H _]. change (row_key 1 0 10) with key_a in H.
    rewrite <- H. vm_compute. reflexivity.
  - destruct (local_index_neighbours 3 5 1 0 world0 table_tree 20 table_tree_ok table_tree_index) as [_ H].
    destruct H as (prev & v & next & H1 & H2 & _).
    + vm_compute. repeat split.
    + apply (table_tree_index 20). assert (E : fst <$> tree_entries table_tree = [10; 20]) by (vm_compute; reflexivity). rewrite E. right. now left.
    + exists prev, v, next. now split.
Defined.

(** ** The [pre_] links *)

Definition answered (os : list (op (V := Z))) : tree (V := Z) := match exec_all 3 5 os new_tree with Some (_, t) => t | None => new_tree end.

(** A split that is not at the last leaf leaves the leaf after it with a link to
    the old leaf instead of the new one: the entry before 30 is 20, the one that
    is shown is 11. *)
Lemma stale_back_link :
  let t := answered (inserts [10; 20; 30; 40; 11; 12; 13]) in
  last (smaller 30 (tree_entries t)) = Some (20, 200) /\
  lookupForNextKeyUpdate 30 t = Some (Some (Some (11, 110), (30, 300), Some (40, 400))).
Proof. vm_compute. now split. Qed.

(** When the old leaf is then merged away, the link leads nowhere. *)
Lemma dangling_back_link :
  let t := answered (inserts [10; 20; 30; 40; 50; 21; 22; 23] ++ [Remove 23; Remove 21]) in
  lookup 40 t = Some (Some 400) /\ lookupForNextKeyUpdate 40 t = None.
Proof. vm_compute. now split. Qed.

(** ** The lock of a node *)

Lemma run_at s0 n s i p w' c' p' s' :
  NodeLock.run s0 n s -> NodeLock.threads s !! i = Some p -> NodeLock.tstep (NodeLock.word s) (NodeLock.content s) p w' c' p' ->
  NodeLock.State w' c' (<[i := p']> (NodeLock.threads s)) = s' -> NodeLock.run s0 (S n) s'.
Proof. intros Hr Hp Ht <-. eapply NodeLock.run_S; [exact Hr|]. econstructor; eassumption. Qed.

Definition reading_and_writing : NodeLock.state := NodeLock.State 3072 7 [NodeLock.Reading 2048 7; NodeLock.Writing].

(** Thread 1 reads the node, and goes on to lock it. *)
Lemma locks s n d : NodeLock.run (NodeLock.start 7 2) n (NodeLock.State 2048 7 [d; s]) -> s = NodeLock.Out ->
  NodeLock.run (NodeLock.start 7 2) (3 + n) (NodeLock.State 3072 7 [d; NodeLock.Writing]).
Proof.
  intros Hr ->. eapply (run_at _ _ (NodeLock.State 2048 7 [d; NodeLock.Upgrading 2048 7]) 1); [|reflexivity|apply (NodeLock.t_lock _ _ 2048 7 3072 3072)|]; [|reflexivity|reflexivity].
  eapply (run_at _ _ (NodeLock.State 2048 7 [d; NodeLock.Reading 2048 7]) 1); [|reflexivity|apply NodeLock.t_test|]; [|reflexivity|reflexivity].
  eapply (run_at _ _ _ 1); [exact Hr|reflexivity|apply NodeLock.t_read|]; reflexivity.
Qed.

Lemma reading_and_writing_run : NodeLock.run (NodeLock.start 7 2) 4 reading_and_writing.
Proof.
  apply (locks NodeLock.Out 1); [|reflexivity]. eapply (run_at _ _ _ 0); [apply NodeLock.run_0|reflexivity|apply NodeLock.t_read|]; reflexivity.
Qed.

(** The reader is told that the node has been locked. *)
Lemma optimistic_lock_safe_witness :
  NodeLock.run (NodeLock.start 7 2) 4 reading_and_writing /\
  (forall i, NodeLock.threads reading_and_writing !! i = Some NodeLock.Writing -> i = 1%nat) /\
  NodeLock.readUnlockOrRestart 2048 (NodeLock.word reading_and_writing) = true.
Proof.
  destruct (NodeLock.optimistic_lock_safe 7 2 4 reading_and_writing ltac:(lia) ltac:(lia) reading_and_writing_run) as [H1 H2].
  split; [exact reading_and_writing_run|]. split.
  - intros i Hi. apply H1; [exact Hi|reflexivity].
  - destruct (NodeLock.readUnlockOrRestart 2048 (NodeLock.word reading_and_writing)) eqn:E; [easy|]. exfalso.
    destruct (H2 0%nat 2048 7 eq_refl E) as [_ H]. apply (H 1%nat). reflexivity.
Defined.

(** An iterator looks at the lock bit before it counts itself in: a writer can
    lock the node in between, and both are in. *)
Lemma iterator_not_excluded : exists s, NodeLock.run (NodeLock.start 7 2) 5 s /\
  NodeLock.threads s !! 0%nat = Some NodeLock.Inside /\ NodeLock.threads s !! 1%nat = Some NodeLock.Writing.
Proof.
  exists (NodeLock.State 3073 7 [NodeLock.Inside; NodeLock.Writing]). split; [|now split].
  eapply (run_at _ _ (NodeLock.State 3072 7 [NodeLock.Entering; NodeLock.Writing]) 0); [|reflexivity|apply NodeLock.t_enter|reflexivity].
  apply (locks NodeLock.Out 1); [|reflexivity]. eapply (run_at _ _ _ 0); [apply NodeLock.run_0|reflexivity|apply NodeLock.t_seen|]; reflexivity.
Qed.
