(* ===== verification/TableWitness.v ===== *)
(** * Tables, on concrete inputs *)

From S2P Require Import Prelude BTreeNode BTree BTreeInv BTreeInsert BTreeTree BTreeScan Table TableSpec HashMap HashMapSpec HashTables HashTableSpec.
From Stdlib Require Import Init.Byte.

(** ** An unordered map with two buckets *)

Definition two_buckets {V} (u : gmap Z V) (j : Z) : list (Z * V) :=
  omap (fun k => pair k <$> u !! k) (filter (fun k => k mod 2 = j) (elements (dom u))).

#[local] Instance gmap_unordered {V} : UnorderedMap V (gmap Z V) := {|
  u_empty := ∅; u_find k u := u !! k; u_put k v u := <[k := v]> u; u_erase k u := delete k u;
  u_buckets u := [two_buckets u 0; two_buckets u 1] |}.

Lemma two_buckets_keys {V} (u : gmap Z V) j : fst <$> two_buckets u j = filter (fun k => k mod 2 = j) (elements (dom u)).
Proof.
  unfold two_buckets. assert (Ha : Forall (fun k => is_Some (u !! k)) (filter (fun k => k mod 2 = j) (elements (dom u)))).
  { apply Forall_forall. intros k [_ Hk]%list_elem_of_filter. now apply elem_of_elements, elem_of_dom in Hk. }
  induction Ha as [|k l [v Hv] _ IH]; [done|]. cbn. rewrite Hv. cbn. now f_equal.
Qed.

Lemma two_buckets_in {V} (u : gmap Z V) j k v : (k, v) ∈ two_buckets u j <-> k mod 2 = j /\ u !! k = Some v.
Proof.
  unfold two_buckets. rewrite list_elem_of_omap. split.
  - intros (k' & [Hj _]%list_elem_of_filter & E). destruct (u !! k') as [v'|] eqn:Ev; [|done]. injection E as <- <-. done.
  - intros [Hj Hv]. exists k. rewrite Hv. split; [|done]. apply list_elem_of_filter. split; [done|]. apply elem_of_elements, elem_of_dom. eauto.
Qed.

#[local] Instance gmap_unordered_laws {V} : UnorderedMapLaws V (gmap Z V).
Proof.
  split.
  - intros k. apply lookup_empty.
  - intros k k' v u. cbn. destruct (decide (k' = k)) as [->|]; [apply lookup_insert_eq|now apply lookup_insert_ne].
  - intros k k' u. cbn. destruct (decide (k' = k)) as [->|]; [apply lookup_delete_eq|now apply lookup_delete_ne].
  - intros u k v. unfold elements_of. cbn. rewrite app_nil_r, elem_of_app, !two_buckets_in. pose proof (Z.mod_pos_bound k 2). assert (k mod 2 = 0 \/ k mod 2 = 1) by lia. naive_solver.
  - intros u. unfold elements_of. cbn. rewrite app_nil_r, fmap_app, !two_buckets_keys. apply NoDup_app. split_and!; try apply NoDup_filter, NoDup_elements.
    intros k [H0 _]%list_elem_of_filter [H1 _]%list_elem_of_filter. lia.
  - intros k v v' u E. cbn in E |- *. unfold keys_in. cbn. pose proof (two_buckets_keys (<[k := v]> u)) as H1. pose proof (two_buckets_keys u) as H2. unfold fmap, list_fmap in H1, H2.
    assert (Ed : dom (<[k := v]> u) = dom u) by now apply dom_insert_lookup_L; eauto.
    f_equal; [|f_equal]; (etransitivity; [apply H1|]); rewrite Ed; symmetry; apply H2.
Qed.

(** ** A checkpoint *)

Definition no_data : bytes := [].
#[local] Abbreviation tables := (HStoreCOWTable.cow_table (gmap Z (Z * bytes))).

Lemma new_cow_idle : idle 2 (fun k => k) (HStoreCOWTable.new_table (U := gmap Z (Z * bytes)) 2) ∅.
Proof. split; [|done..]. exists ∅. split; [apply new_map_denotes; lia|apply fmap_empty]. Qed.

(** A table with two rows. *)
Definition two_rows : M tables bool :=
  HStoreCOWTable.insert 2 (fun k => k) no_data 1 [x01] false;; HStoreCOWTable.insert 2 (fun k => k) no_data 2 [x02] false.
Definition row_data : gmap Z bytes := <[2 := [x02]]> (<[1 := [x01]]> ∅).

Lemma two_rows_idle : exists t, two_rows (HStoreCOWTable.new_table 2) = Ret true t /\ idle 2 (fun k => k) t row_data.
Proof.
  destruct (idle_insert 2 (fun k => k) no_data ltac:(lia) _ _ 1 [x01] new_cow_idle) as (t1 & E1 & H1).
  destruct (idle_insert 2 (fun k => k) no_data ltac:(lia) _ _ 2 [x02] H1) as (t2 & E2 & H2). exists t2. split; [|exact H2].
  unfold two_rows. now rewrite (bind_Ret _ _ _ _ _ E1).
Qed.

(** Row 3 is inserted and row 1 updated before the dump starts, which it does between the
    two parts of the update; row 2 is updated while the dump passes it; and row 1
    again while the dump goes through the shadow map. *)
Definition schedule : list action :=
  [Insert 3 [x03]; Begin 1 [x0a]; Dump; End; Begin 2 [x0b]; Dump; Dump; End] ++ replicate 12 Dump ++ [Begin 1 [x0c]; Dump; End] ++ replicate 27 Dump.

(** The dump, and the rows in the end. *)
Definition run_schedule (t : tables) : option (HStoreCOWTable.dump_phase * list (Z * bytes) * list (option (bytes))) :=
  match HStoreCOWTable.turn_on_cow 2 t with
  | Ret _ t1 => (fun c => (ck_phase c, ck_log c, (fun k => snd <$> HashMap.element (Z.to_nat (k mod 2)) k (HStoreCOWTable.map_ (ck_table c))) <$> [1; 2; 3]))
                <$> acts 2 (fun k => k) no_data schedule (begun t1)
  | _ => None
  end.

Example checkpoint_log : match two_rows (HStoreCOWTable.new_table 2) with Ret _ t => run_schedule t | _ => None end =
  Some (HStoreCOWTable.Dumped, [(2, [x02]); (3, [x03]); (1, [x0a]); (2, [x02]); (1, [x01])], [Some [x0c]; Some [x0b]; Some [x03]]).
Proof. vm_compute. reflexivity. Qed.

(** What is read from that dump are the rows from the start. *)
Lemma cow_checkpoint_witness : exists t t1 c, two_rows (HStoreCOWTable.new_table 2) = Ret true t /\ HStoreCOWTable.turn_on_cow 2 t = Ret tt t1 /\
  acts 2 (fun k => k) no_data schedule (begun t1) = Some c /\ ck_phase c = HStoreCOWTable.Dumped /\
  replay (ck_log c) !! 1 = Some [x01] /\ replay (ck_log c) !! 2 = Some [x02] /\ replay (ck_log c) !! 4 = None.
Proof.
  destruct two_rows_idle as (t & E & Hi). destruct (cow_checkpoint 2 (fun k => k) no_data ltac:(lia) t row_data Hi) as (t1 & E1 & H).
  destruct (acts 2 (fun k => k) no_data schedule (begun t1)) as [c|] eqn:Ea.
  2: { exfalso. vm_compute in E. injection E as <-. vm_compute in E1. injection E1 as <-. vm_compute in Ea. discriminate Ea. }
  assert (Hd : ck_phase c = HStoreCOWTable.Dumped).
  { vm_compute in E. injection E as <-. vm_compute in E1. injection E1 as <-. vm_compute in Ea. injection Ea as <-. reflexivity. }
  assert (Hh : 4 ∉ (ck_history c).*1).
  { vm_compute in E. injection E as <-. vm_compute in E1. injection E1 as <-. vm_compute in Ea. injection Ea as <-. cbn. set_solver. }
  destruct (H c (acts_steps 2 (fun k => k) no_data _ _ _ Ea)) as (_ & _ & _ & _ & Hdone). destruct (Hdone Hd) as [Hlog _].
  exists t, t1, c. split_and!; try assumption; rewrite Hlog; try reflexivity; [left; vm_compute; eauto|left; vm_compute; eauto|right; exact Hh].
Defined.

(** ** An ordered table *)

Definition sample_row (is_tuple_valid : bool) (v : bytes) : bool * bytes := (is_tuple_valid, v).
Definition sample_set (v : bytes) (r : bool * bytes) : bool * bytes := (r.1, v).
Definition refuse (n : Z) (r : bool * bytes) (st : list Z) : bool * (bool * bytes) * list Z := (false, r, n :: st).
Definition show (st : list Z) (k : Z) (r : bool * bytes) (is_last : bool) : bool * (bool * bytes) * list Z := (is_last, r, k :: st).
Definition old_row (k : Z) (r : bool * bytes) (st : list Z) : list Z := k :: st.

(** Two rows are inserted; then key 2 is new and has 3 as its next key. *)
Lemma table_refines_witness : exists t m, represents (R := bool * bytes) 3 5 t m /\ m !! 3 = Some (true, [x03]) /\
  TableBTreeOLC.update sample_set 2 [x07] old_row [] t = Abort /\
  exists t', TableBTreeOLC.insert_lock_next_key sample_row 3 5 2 [] refuse true [] t = Ret (false, [3]) t' /\ represents 3 5 t' m.
Proof.
  destruct (insert_rows sample_row 3 5 ltac:(lia) ltac:(lia) _ _ 1 [x01] false (new_table_represents 3 5)) as (t1 & _ & H1).
  destruct (insert_rows sample_row 3 5 ltac:(lia) ltac:(lia) _ _ 3 [x03] false H1) as (t2 & _ & H2).
  change (represents 3 5 t2 (<[3 := (true, [x03])]> (<[1 := (true, [x01])]> ∅))) in H2.
  set (m := <[3 := (true, [x03])]> _) in H2. exists t2, m. split; [exact H2|]. split; [reflexivity|].
  destruct (table_refines sample_row sample_set 3 5 ltac:(lia) ltac:(lia) t2 m 2 [] true old_row show refuse [] H2) as (_ & _ & _ & _ & _ & Hl). cbv zeta in Hl. destruct Hl as [Hl _].
  split.
  - pose proof (table_refines sample_row sample_set 3 5 ltac:(lia) ltac:(lia) t2 m 2 [x07] true old_row show refuse [] H2) as (_ & _ & _ & Hu' & _). exact Hu'.
  - replace (m !! 2) with (None : option (bool * bytes)) in Hl by reflexivity. destruct Hl as [Hl _].
    assert (Hn : next_of m 2 3).
    { split; [lia|]. split; [vm_compute; eauto|]. intros x Hx [r Hr]. destruct (decide (3 <= x)) as [|Hlt]; [done|]. exfalso. assert (x < 3) by lia. lia. }
    specialize (Hl 3 _ Hn eq_refl). cbn in Hl. rewrite insert_id in Hl by reflexivity. exact Hl.
Defined.
