(* ===== verification/CommitWitness.v ===== *)
(** * A transaction on another host

    A transaction of host 1 that updates row [key_a] and reads row [key_b], both
    in the partition of host 0, which moves them into CXL memory. *)

From Stdlib Require Import Init.Byte.
From S2P Require Import Prelude LockWord RWLock SharedWord SCC CXLMemory PashaState PashaHelper PashaMigration PashaRow PashaOps PashaMove PashaTable RWKey Commit Execute ExecuteSpec Scan Witness.
Import RWKey.TwoPLPashaRWKey TwoPLPasha TwoPLPashaTransaction TwoPLPashaExecutor.

(** Pointers 10 and 20 are the keys, 7 and 8 the value buffers. *)
Definition ex_start : execution :=
  search_for_read 1 0 20 8 (search_for_update 1 0 10 7
    (Execution world0 (Txn [] [] [] [] [] false []) {[ 7 := [x00; x00]; 8 := [x00; x00] ]} ∅ false false false false 0 [])).

(** Addresses of rows. *)
Definition ex_row_addr (k : rkey) : Z := Zpos (countable.encode k).
Definition ex_row_at (p : Z) : rkey := default key_a (countable.decode (Z.to_pos p)).
Lemma ex_addr k : ex_row_at (ex_row_addr k) = k.
Proof. unfold ex_row_at, ex_row_addr. cbn [Z.to_pos]. now rewrite countable.decode_encode. Qed.

#[local] Abbreviation ex_size := (fun _ : Z => 2%nat).
Definition ex_exchange : list request -> M world (list response) :=
  TwoPLPashaMessageHandler.serve_all false
    (fun k inc => res ← Migration.move_from_hashmap_to_shared_region write_through test_cfg test_owner k 2 inc; mret res.1) (fun _ => mret tt).

Lemma ex_owners : owners write_through 1 ex_size ex_exchange.
Proof. apply (serve_all_owners ex_size), (hashmap_moves_in ex_size write_through test_cfg test_owner test_owner_ok test_cfg_ok). Qed.

#[local] Abbreviation ex_requests := (process_requests write_through 1 ex_size (fun _ => 0) (fun p => p) ex_row_addr (fun _ => 0) (fun _ => 0) (fun p => p)
  false true true (fun _ => false) ex_exchange).
#[local] Abbreviation ex_commit := (commit_of write_through 1 ex_size (fun _ => 0) (fun p => p) ex_row_at true true false (fun _ => []) (fun _ => mret tt) (fun _ => mret tt)).

Lemma ex_start_inv : exec_inv write_through 1 ex_size (fun _ => 0) (fun p => p) ex_row_at world0 [key_a; key_b] [7; 8] [] ex_start.
Proof.
  constructor.
  - exact world0_inv.
  - reflexivity.
  - assert (H : forall e k v, (e = set_write_lock_request_bit (tuple_entry 1 0 (Some 10) (Some 7)) /\ k = key_a /\ v = 7) \/
      (e = set_read_lock_request_bit (tuple_entry 1 0 (Some 20) (Some 8)) /\ k = key_b /\ v = 8) ->
      entry_inv write_through 1 (fun _ => 0) (fun p => p) ex_row_at world0 world0 e k /\ get_value e = Some v).
    { intros e k v [(-> & -> & ->)|(-> & -> & ->)]; (split; [|reflexivity]); constructor;
        try (intros H; vm_compute in H; discriminate H); try (vm_compute; reflexivity); try (vm_compute; split; congruence);
        eexists; (split; [vm_compute; reflexivity|]); try reflexivity; split_and!; try (intros H; vm_compute in H; discriminate H); vm_compute; reflexivity. }
    intros [|[|i]] e k He Hk; cbn in He, Hk; try discriminate; injection He as <-; injection Hk as <-; apply H; auto.
  - reflexivity.
  - intros i Hi. now apply elem_of_nil in Hi.
  - constructor.
Qed.

Lemma ex_to_do : to_do ex_size [key_a; key_b] 0 2 ex_start.
Proof.
  intros [|[|i]] e k _ He Hk; cbn in He, Hk; try discriminate; injection He as <-; injection Hk as <-;
    (split; [reflexivity|]); (split; [split_and!; [vm_compute; split; congruence|reflexivity..]|]); do 3 (split; [reflexivity|]);
    eexists; eexists; split_and!; [reflexivity|vm_compute; reflexivity|reflexivity|reflexivity|vm_compute; reflexivity|reflexivity].
Qed.

(** The execution succeeds, and a commit that writes [zz] through pointer 7 gives
    row [key_a] that value and the first version of epoch 3. *)
Lemma ex_result : exists x1 e, ex_requests ex_start = Ret false x1 /\ readSet (x_txn x1) !! 0%nat = Some e /\ writes e = true /\ get_tid e = 0 /\ get_value e = Some 7 /\
  exists e2, readSet (x_txn x1) = [e; e2] /\ writes e2 = false.
Proof.
  do 2 eexists. split; [vm_compute; reflexivity|]. split; [reflexivity|]. split; [vm_compute; reflexivity|]. split; [reflexivity|]. split; [reflexivity|].
  eexists. split; [reflexivity|]. vm_compute. reflexivity.
Qed.

Lemma ex_version : fits 58 (generate_epoch_version 0 3).
Proof. vm_compute. now split. Qed.

Lemma ex_buffers x1 e e2 : readSet (x_txn x1) = [e; e2] -> writes e2 = false -> get_tid e = 0 -> get_value e = Some 7 ->
  buffers_ok ex_size [key_a; key_b] {[ 7 := [x7a; x7a] ]} 3 x1.
Proof.
  intros Hrs Hwr2 Htid Hv [|[|i]] e' k' He' Hk' Hw'; rewrite Hrs in He'; cbn in He', Hk'; try discriminate; injection He' as <-; injection Hk' as <-; [|congruence].
  split; [|rewrite Htid; exact ex_version]. exists 7, [x7a; x7a]. split; [exact Hv|split; reflexivity].
Qed.

Lemma transaction_atomic_witness : exists x1, ex_requests ex_start = Ret false x1 /\
  oks false (ex_commit {[ 7 := [x7a; x7a] ]} [] 0 3 x1) (x_world x1) (fun res w' => ok res = true /\
    abs key_a w' = Some (Tuple (RW 0 false (3 * 2 ^ 32)) [x7a; x7a] true) /\ abs key_b w' = abs key_b world0).
Proof.
  destruct ex_result as (x1 & e & Hret & He & Hwr & Htid & Hv & e2 & Hrs & Hwr2). exists x1. split; [exact Hret|].
  pose proof (transaction_atomic write_through 1 host1_ok ex_size (fun _ => 0) (fun p => p) ex_row_at ex_row_addr ex_addr true true (fun _ => 0) (fun _ => 0) (fun p => p)
    false (fun _ => false) ex_exchange ex_owners (fun _ => []) (fun _ => mret tt) (fun _ => mret tt)
    world0 [key_a; key_b] [7; 8] 0 ex_start world0_inv) as H.
  specialize (H ltac:(apply (bool_decide_unpack _); reflexivity) ltac:(apply (bool_decide_unpack _); reflexivity) ex_start_inv ltac:(lia) I ex_to_do ltac:(now split_and!) eq_refl eq_refl eq_refl ltac:(constructor)).
  pose proof (oks_inv _ _ _ _ _ _ H Hret) as Hc. cbv beta iota in Hc. destruct Hc as [_ Hc]. clear H. rename Hc into H.
  eapply oks_mono; [apply (H {[ 7 := [x7a; x7a] ]} [] 0 3); [constructor|]|].
  - exact (ex_buffers x1 e e2 Hrs Hwr2 Htid Hv).
  - intros res w' (Hok & _ & Hin & _). split; [exact Hok|]. split.
    + rewrite (Hin 0%nat e key_a (home_tuple row_a)); [|exact He|reflexivity|vm_compute; reflexivity]. unfold installed. rewrite Hwr, Hv, Htid. reflexivity.
    + rewrite (Hin 1%nat e2 key_b (home_tuple row_b)); [|rewrite Hrs; reflexivity|reflexivity|vm_compute; reflexivity]. unfold installed. rewrite Hwr2. reflexivity.
Defined.

(** A write of row [key_a], for the versions. *)
Definition entry_a : rwkey := set_tid 0 (set_write_lock_bit (tuple_entry 1 0 (Some 10) (Some 7))).
Definition ex_txn : txn := Txn [entry_a] [entry_a] [] [] [] false [0].

Lemma versions_grow_witness :
  5 < generate_tid 5 ex_txn /\ Forall (fun e => get_tid e < generate_tid 5 ex_txn) (readSet ex_txn) /\
  9 < generate_epoch_version 9 3 /\ 3 <= Z.shiftr (generate_epoch_version 9 3) 32 /\ fits 58 (generate_epoch_version 9 3).
Proof. apply (versions_grow 5 ex_txn 9 3); [repeat constructor; now vm_compute|lia..]. Defined.

(** ** A scan

    Host 0 scans the keys from 5 to 15 of its partition: row [key_a] is the result
    and [key_b] the row after the range, so 15 cannot be inserted. *)
Definition scan_entry : rwkey :=
  set_scan_args (Some 5) (Some 15) 0 (Some 1) SCAN_FOR_READ (set_partition_id 0 (set_table_id 1 fresh_key)).
Definition scan_start : execution :=
  Execution world0 (Txn [] [] [] [] [scan_entry] false []) ∅ {[ 1 := [] ]} false false false false 0 [].

#[local] Abbreviation ex_scan := (scanRequestHandler_next_key write_through test_owner ex_size (fun _ => 0) (fun p => p)
  (fun _ => 0) (fun _ => 0) snd (fun p => p) (fun _ => false)).

Lemma scan_start_request : scan_request test_owner (fun p => p) scan_entry 1 5 15 (fun _ => 0) (fun _ => false) scan_start.
Proof. split; [reflexivity|]. split; [now exists 5|]. split; [now exists 15|]. now split. Qed.

Lemma scan_result : exists s x', ex_scan 0%nat scan_entry scan_start = Ret s x' /\ sc_success s = true /\
  x_vec x' !! 1 = Some [RowEntity (Some 10) (Some 0) (Some 0)] /\ keys_in scan_entry 5 (x_world scan_start) = [10; 20] /\ w_rows (x_world x') !! (1, 0, 15) = None.
Proof. do 2 eexists. split; [vm_compute; reflexivity|]. split_and!; vm_compute; reflexivity. Qed.

Lemma scan_locks_range_witness : exists s x', ex_scan 0%nat scan_entry scan_start = Ret s x' /\
  oks false (Migration.insert_and_update_next_key_info write_through test_owner (1, 0, 15) [x63; x63] true) (x_world x') (fun res w' =>
    res = (false, None) /\ forall k, abs k w' = abs k (x_world x')).
Proof.
  destruct scan_result as (s & x' & Hret & Hs & Hv & Hks & Hnone). exists s, x'. split; [exact Hret|].
  pose proof (scan_locks_range write_through test_owner test_owner_ok ex_size (fun p => p) (fun _ => 0) (fun _ => 0) snd (fun _ => eq_refl)
    scan_entry 1 5 15 eq_refl (fun _ => 0) (fun _ => false) (fun p => p) 0 scan_start world0_inv scan_start_request) as H.
  pose proof (oks_inv _ _ _ _ _ _ H Hret) as (pre & _ & Hv' & _ & _ & Hins). rewrite Hv in Hv'. injection Hv' as Hpre.
  destruct pre as [|k [|]]; try discriminate Hpre. injection Hpre as <-.
  exact (Hins 20 [] 15 [x63; x63] Hs Hks ltac:(lia) Hnone).
Defined.
