(* ===== verification/SundialWitness.v ===== *)
(** * Sundial: runs

    Concrete runs of the transactions of [Sundial]: one in which two transactions
    of different hosts conflict and both commit, for [sundial_serializable], and
    the runs that show its hypotheses and exceptions to be needed. *)

From S2P Require Import Prelude Interleave SundialRow SundialSpec Sundial SundialTxn SundialCommit SundialSerial.
Import SundialRow.SundialRWKey Sundial.SundialTransaction.

(** Two hosts, each with one partition; table 0 has values of one byte. *)
Definition one_byte (t : Z) : nat := 1.
Definition as_it_is (t : Z) (v : bytes) : bytes := v.
Definition master (p : Z) : Z := p.
Definition stored_at (p h : Z) : bool := p =? h.
Definition no_bytes (p : Z) : bytes := [].

Definition fresh_txn (tid : Z) (buffers : list (Z * bytes)) : stxn :=
  Txn tid 0 [] [] [] [] [] false false false false false false 0 (list_to_map buffers) ∅ [] [].
Definition old_row (b : Byte.byte) : SundialHelper.row := SundialHelper.Row (Some (SundialHelper.SundialMetadataInit true)) [b].

Definition boundedb (s : db) : bool :=
  forallb (fun kr : row_id * SundialHelper.row => match SundialHelper.meta kr.2 with Some m => SundialHelper.rts m <? 2 ^ 64 - 1 | None => true end) (map_to_list s).

Lemma boundedb_ok s : boundedb s = true -> bounded s.
Proof.
  unfold boundedb. rewrite forallb_forall. intros H k w r o b Hk. apply elem_of_map_to_list, list_elem_of_In, H in Hk. now apply Z.ltb_lt in Hk.
Qed.

Definition system (jobs : gmap Z job) (s : db) : sys db (bool * stxn) :=
  run_jobs one_byte one_byte as_it_is master stored_at [0; 1] no_bytes false jobs s.
Definition steps (tid : Z) (n : nat) : list (Z * nat) := replicate n (tid, 0%nat).
Definition outcome (tid : Z) (y : sys db (bool * stxn)) : option (bool * stxn) :=
  match threads y !! tid with Some (Done a) => Some a | _ => None end.

(** The transaction 1 of host 0 copies the row of host 1 to its own; transaction 2
    of host 1 updates the row of host 1. *)
Definition copy_job : job := Job 0 (fun _ => 0)
  (update 0 0 10 102 (search_for_read 0 1 11 101 (search_for_update 0 0 10 100 (fresh_txn 1 [(100, [Byte.x00]); (101, [Byte.x00]); (102, [Byte.x00])]))))
  (fun m => <[102 := default [] (m !! 101)]> m).
Definition update_job : job := Job 1 (fun _ => 0)
  (update 0 1 11 201 (search_for_update 0 1 11 200 (fresh_txn 2 [(200, [Byte.x00]); (201, [Byte.x07])])))
  id.
Definition two_jobs : gmap Z job := {[1 := copy_job; 2 := update_job]}.
Definition two_rows : db := {[(0, 0, 0) := old_row Byte.x05; (0, 1, 0) := old_row Byte.x06]}.

(** The reads of the first, then the second, then the rest. *)
Definition both_run (a b c : nat) : option (sys db (bool * stxn)) := schedule boundedb (steps 1 a ++ steps 2 b ++ steps 1 c) (system two_jobs two_rows).

Ltac computed := match goal with |- ?P => refine (bool_decide_unpack P _); vm_compute; exact I end.

(** The contract of a transaction of the examples. *)
Section example_job.
Context (rows : gset row_id) (tid : Z) (j : job).
Abbreviation reads := (readSet (start j)).
Abbreviation writes := (writeSet (start j)).

Lemma example_requests : Forall (fun e => is_Some (get_key e) /\ is_Some (get_value e) /\ row_ (pointer j) e ∈ rows /\ get_processed e = false /\ get_write_lock_bit e = false) reads ->
  NoDup (row_ (pointer j) <$> reads) -> NoDup (buf <$> reads) -> requests rows (pointer j) reads.
Proof. rewrite Forall_forall. intros H H1 H2. split; try assumption; intros e He; apply H in He; tauto. Qed.

(** The entry that is updated is the first one. *)
Lemma example_updates e0 w rest : reads = e0 :: rest -> writes = [w] -> wr e0 = true -> Forall (fun e => wr e = false) rest -> is_Some (get_value w) -> get_write_lock_bit w = false ->
  get_read_set_pos w = 0 -> get_key w = get_key e0 -> get_table_id w = get_table_id e0 -> get_partition_id w = get_partition_id e0 -> NoDup (get_key <$> reads) -> updates reads writes.
Proof.
  intros Hr Hw Hwr Hrest Hv Hb Hp Hk Ht Hpa Hnd. split; [..|exact Hnd]; rewrite Hw.
  - intros e He. apply list_elem_of_singleton in He as ->. split; [exact Hv|]. split; [exact Hb|]. exists 0%nat, e0. now rewrite Hr.
  - apply NoDup_singleton.
  - intros [|i] e Hi Hwe; rewrite Hr in Hi; cbn in Hi; [exists w; split; [now apply list_elem_of_singleton|easy]|].
    rewrite (Forall_lookup_1 _ _ _ _ Hrest Hi) in Hwe. discriminate Hwe.
Qed.
End example_job.

Lemma copy_ok : job_ok one_byte (dom two_rows) master [0; 1] 1 copy_job.
Proof.
  split.
  - easy.
  - intros e0. revert e0. apply Forall_forall. computed.
  - apply example_requests; computed.
  - eapply example_updates; [reflexivity|reflexivity|..]; computed.
  - intros m Hm _ e He. apply list_elem_of_singleton in He as ->. destruct (Hm _ (list_elem_of_lookup_2 (readSet (start copy_job)) 1 _ eq_refl)) as (b & Hb & Hl).
    change (m !! 101 = Some b) in Hb. exists b. split; [|exact Hl]. change (<[102 := default [] (m !! 101)]> m !! 102 = Some b). now rewrite lookup_insert_eq, Hb.
  - split; try easy. intros e He. repeat (apply elem_of_cons in He as [-> | He]; [eexists; split; [vm_compute; reflexivity|reflexivity]|]). now apply elem_of_nil in He.
Qed.

Lemma update_ok' : job_ok one_byte (dom two_rows) master [0; 1] 2 update_job.
Proof.
  split.
  - easy.
  - intros e0. revert e0. apply Forall_forall. computed.
  - apply example_requests; computed.
  - eapply example_updates; [reflexivity|reflexivity|..]; computed.
  - intros m _ Hm e He. apply list_elem_of_singleton in He as ->. exists [Byte.x07]. split; [|reflexivity]. change (m !! 201 = Some [Byte.x07]). rewrite Hm by computed. reflexivity.
  - split; try easy. intros e He. repeat (apply elem_of_cons in He as [-> | He]; [eexists; split; [vm_compute; reflexivity|reflexivity]|]). now apply elem_of_nil in He.
Qed.

Lemma two_jobs_ok tid j : two_jobs !! tid = Some j -> job_ok one_byte (dom two_rows) master [0; 1] tid j.
Proof.
  intros Hj. unfold two_jobs in Hj. apply lookup_insert_Some in Hj as [[<- <-]|[_ Hj]]; [apply copy_ok|]. apply lookup_singleton_Some in Hj as [<- <-]. apply update_ok'.
Qed.

Lemma two_rows_good : good one_byte (dom two_rows) two_rows /\ forall k w r o b, row_at two_rows k w r o b -> o = 0.
Proof.
  assert (forall k x, two_rows !! k = Some x -> exists b, x = old_row b) as H.
  { intros k x Hx. unfold two_rows in Hx. apply lookup_insert_Some in Hx as [[_ <-]|[_ Hx]]; [eauto|]. apply lookup_singleton_Some in Hx as [_ <-]. eauto. }
  split; [split; [reflexivity|]|].
  - intros k [x Hx]%elem_of_dom. destruct (H k x Hx) as [b ->]. exists 0, 0, 0, [b]. split; [exact Hx|]. split; [lia|reflexivity].
  - intros k w r o b Hk. destruct (H _ _ Hk) as [b' E]. now injection E as -> -> -> ->.
Qed.

(** Transaction 2 overwrites what transaction 1 has read before transaction 1
    is done, and comes after it. *)
Lemma sundial_serializable_witness : exists y t, both_run 9 4 5 = Some y /\ outcome 1 y = Some (true, t) /\ commit_ts t = 1 /\
  latest_at (states y) (0, 1, 0) 1 [Byte.x06] /\ latest_at (states y) (0, 0, 0) 0 [Byte.x05] /\ latest_at (states y) (0, 0, 0) 1 [Byte.x06].
Proof.
  assert ((fun y => (fun a => (a.1, commit_ts a.2, mem a.2 !! 100, mem a.2 !! 102, get_wts <$> readSet a.2)) <$> outcome 1 y) <$> both_run 9 4 5
    = Some (Some (true, 1, Some [Byte.x05], Some [Byte.x06], [0; 0]))) as E by (vm_compute; reflexivity).
  destruct (both_run 9 4 5) as [y|] eqn:Ey; [|discriminate E]. cbn in E. destruct (outcome 1 y) as [[ok t]|] eqn:Eo; [|discriminate E]. cbn in E. injection E as -> Hts H100 H102 Hw.
  exists y, t. split; [easy|]. split; [easy|]. split; [exact Hts|].
  assert (threads y !! 1 = Some (Done (true, t))) as Ht. { unfold outcome in Eo. destruct (threads y !! 1) as [[a| |]|]; congruence. }
  destruct two_rows_good as [Hg Ho].
  assert (reachable bounded (system two_jobs two_rows) y) as Hreach by (eapply (schedule_reachable _ boundedb); [exact boundedb_ok|apply reach_here|exact Ey]).
  destruct (sundial_serializable one_byte one_byte as_it_is (dom two_rows) master stored_at [0; 1] no_bytes false (fun _ => eq_refl) (fun _ _ _ => eq_refl)
    (fun p h H => eq_sym (proj1 (Z.eqb_eq p h) H)) two_jobs two_rows y Hg Ho two_jobs_ok Hreach 1 copy_job _ eq_refl Ht) as [_ (m & Hm & _ & He & _)].
  rewrite Hm in H100, H102. change (computation copy_job m) with (<[102 := default [] (m !! 101)]> m) in H100, H102, Hm.
  rewrite lookup_insert_ne in H100 by discriminate. rewrite lookup_insert_eq in H102.
  destruct (He 0%nat _ eq_refl) as (e & b & Hr0 & Hb & Hl). destruct (He 1%nat _ eq_refl) as (e1 & b1 & Hr1 & Hb1 & Hl1).
  change (m !! 100 = Some b) in Hb. change (m !! 101 = Some b1) in Hb1. rewrite Hb1 in H102. cbn in H102. rewrite H100 in Hb. injection Hb as <-. injection H102 as ->.
  rewrite Hts in Hl, Hl1. assert (get_wts e1 = 0) as E1. { apply (f_equal (fun l => l !! 1%nat)) in Hw. rewrite list_lookup_fmap, Hr1 in Hw. cbn in Hw. congruence. }
  split; [apply (Hl1 eq_refl); lia|]. destruct Hl as [Hl (w & v & Hin & _ & Hv & Hl')]. apply list_elem_of_singleton in Hin as ->. split; [exact Hl|].
  rewrite Hm in Hv. change (<[102 := default [] (m !! 101)]> m !! 102 = Some v) in Hv. rewrite lookup_insert_eq, Hb1 in Hv. cbn in Hv. injection Hv as <-. exact Hl'.
Defined.

Lemma sundial_rows_well_formed_witness : exists y, both_run 9 4 5 = Some y /\ good one_byte (dom two_rows) (now y) /\
  forall d, d ∈ states y -> after d (now y) \/ after (now y) d.
Proof.
  assert (match both_run 9 4 5 with Some _ => true | None => false end = true) as E by (vm_compute; reflexivity).
  destruct (both_run 9 4 5) as [y|] eqn:Ey; [|discriminate E]. exists y. split; [reflexivity|].
  destruct two_rows_good as [Hg Ho].
  destruct (sundial_rows_well_formed one_byte one_byte as_it_is (dom two_rows) master stored_at [0; 1] no_bytes false (fun _ => eq_refl) (fun _ _ _ => eq_refl)
    (fun p h H => eq_sym (proj1 (Z.eqb_eq p h) H)) two_jobs two_rows y Hg Ho two_jobs_ok) as [Hg' Hrel].
  - eapply (schedule_reachable _ boundedb); [exact boundedb_ok|apply reach_here|exact Ey].
  - split; [exact Hg'|]. intros d Hd. apply Hrel; [exact Hd|left].
Defined.

(** ** What goes wrong *)

(** Transaction 1 only reads two rows of its host; transaction 2 updates both. *)
Definition read_job : job := Job 0 (fun p => p - 10)
  (search_for_read 0 0 11 101 (search_for_read 0 0 10 100 (fresh_txn 1 [(100, [Byte.x00]); (101, [Byte.x00])])))
  id.
Definition write_job : job := Job 0 (fun p => p - 10)
  (update 0 0 11 203 (update 0 0 10 202 (search_for_update 0 0 11 201 (search_for_update 0 0 10 200
    (fresh_txn 2 [(200, [Byte.x00]); (201, [Byte.x00]); (202, [Byte.x07]); (203, [Byte.x07])])))))
  id.
Definition skew_rows : db := {[(0, 0, 0) := old_row Byte.x05; (0, 0, 1) := old_row Byte.x05]}.
Definition skew_run := schedule boundedb (steps 1 1 ++ steps 2 8 ++ steps 1 1) (system {[1 := read_job; 2 := write_job]} skew_rows).

(** A local read does not raise the commit timestamp to the version it has seen.
    Transaction 1 reads one row before and the other one after transaction 2, and
    commits at timestamp 0, although the version of the first one begins at 1. *)
Theorem sundial_read_skew : from_option (fun y => exists t1 t2, outcome 1 y = Some (true, t1) /\ outcome 2 y = Some (true, t2) /\
  commit_ts t1 = 0 /\ get_wts <$> readSet t1 = [1; 0] /\ mem t1 !! 100 = Some [Byte.x07] /\ mem t1 !! 101 = Some [Byte.x05]) False skew_run.
Proof. vm_compute. do 2 eexists. repeat split. Qed.

(** Transaction 1 updates a row that it has read without locking it. *)
Definition leak_job : job := Job 0 (fun p => p - 10)
  (update 0 0 10 101 (search_for_read 0 0 10 100 (fresh_txn 1 [(100, [Byte.x00]); (101, [Byte.x09])])))
  id.
Definition leak_run := schedule boundedb (steps 1 1 ++ steps 2 8 ++ steps 1 1) (system {[1 := leak_job; 2 := write_job]} skew_rows).

(** [lock_write_set] locks the row, finds that it has changed since it was read,
    and does not mark the lock, so [abort] keeps it. *)
Theorem sundial_lock_leak :
  from_option (fun y => exists t, outcome 1 y = Some (false, t) /\ row_at (now y) (0, 0, 0) 1 1 1 [Byte.x07]) False leak_run.
Proof. vm_compute. eexists. repeat split. Qed.

Definition remote_job : job := Job 1 (fun p => p - 10) (start leak_job) id.

(** When the row belongs to another host, the lock is asked for, and the check
    that no answer is pending fails. *)
Theorem sundial_remote_lock_fails :
  from_option (fun y => outcome 1 y = None /\ advance 1 0 y = None) False (schedule boundedb (steps 1 3) (system {[1 := remote_job]} skew_rows)).
Proof. vm_compute. repeat split. Qed.
