(* ===== verification/SundialPashaWitness.v ===== *)
(** * SundialPasha: a run

    A row of an ordered table that moves to CXL memory for another host, is written
    there, and moves back. *)

From S2P Require Import Prelude PashaState SundialRow SundialPasha SundialPashaSpec SundialPashaMove.

(** An allocator with three blocks. *)
#[export] Program Instance three_blocks : SundialAlloc := { pasha_malloc used := list_find (.∉ used) [100; 200; 300] ≫= fun x => Some x.2 }.
Next Obligation.
  intros used p Hp. apply bind_Some in Hp as ([i x] & Hf & [= <-]). now apply list_find_Some in Hf as (_ & Hx & _).
Qed.

Section calls.
Context (scc : SundialSCC) {laws : SundialSCCLaws scc} {alloc : SundialAlloc} (is_btree : Z -> bool) (value_size : Z -> nat) (home : row_id -> Z).

(** The calls are enabled one after the other, with these results. *)
Fixpoint calls_run (cs : list (pcall * presult)) (g : ghost) (w : pworld) (P : ghost -> pworld -> Prop) : Prop :=
  match cs with
  | [] => P g w
  | (c, r) :: cs => pcall_enabled scc value_size home g w c /\
      match pcall_run scc is_btree value_size home c w with
      | Ret r' w' => r' = r /\ calls_run cs (pcall_ghost home c r w' g) w' P
      | _ => False
      end
  end.

Lemma calls_psteps cs P : forall g w, calls_run cs g w P -> exists g' w', psteps scc is_btree value_size home g w cs g' w' /\ P g' w'.
Proof.
  induction cs as [|[c r] cs IH]; intros g w; cbn [calls_run]; [intros HP; exists g, w; split; [constructor|exact HP]|].
  intros [He Hr]. destruct (pcall_run _ _ _ _ c w) as [r' w'| | |] eqn:E; [|easy..]. destruct Hr as [-> Hr]. destruct (IH _ _ Hr) as (g' & w2 & Hs & HP). exists g', w2. split; [|exact HP]. econstructor; eassumption.
Qed.
End calls.

Definition pasha_home (k : row_id) : Z := 0.
Definition pasha_row (b : Byte.byte) : prow := MkPRow (MkPLocal false 0 0 0 false None true) [b].
Definition pasha_rows : pworld := PWorld {[(0, 0, 4) := pasha_row Byte.x04; (0, 0, 5) := pasha_row Byte.x05]} ∅ ∅ ∅ 0 0.
Definition the_row : row_id := (0, 0, 5).
Definition pasha_calls : list (pcall * presult) := [
  (CMoveIn 1 (0, 0, 4) false, RMoved SUCCESS);
  (CMoveIn 1 the_row true, RMoved SUCCESS);
  (CRemote 1 the_row 200 (ORead [Byte.x00]), RAnswer (AnsRead (0, 0, [Byte.x05])));
  (CRemote 1 the_row 200 (OWriteLock 7), RAnswer (AnsLock (true, (0, 0))));
  (CLocal the_row (OWriteLock 8), RAnswer (AnsLock (false, (0, 0))));
  (CRemote 1 the_row 200 (OUpdate [Byte.x09] 1 7), RAnswer AnsUnit);
  (CRemote 1 the_row 200 (OUnlock 7), RAnswer AnsUnit);
  (CMoveOut the_row, RMovedOut false);
  (CRelease 1 the_row 200, RUnit);
  (CMoveOut the_row, RMovedOut true);
  (CGet 1 the_row, RAddress None);
  (CLocal the_row (ORenew 1 3), RAnswer (AnsBool true));
  (CMoveIn 1 the_row true, RMoved SUCCESS);
  (CRemote 1 the_row 200 (ORead [Byte.x00]), RAnswer (AnsRead (1, 3, [Byte.x09])))].

Lemma pasha_rows_wf : wf SCCWriteThrough.manager (fun _ => 1%nat) pasha_home (Ghost [] ∅) pasha_rows.
Proof.
  split; cbn; try easy.
  - intros k r [[<- <-]|[_ [<- <-]%lookup_singleton_Some]]%lookup_insert_Some; repeat split; easy.
Qed.

Lemma pasha_calls_ok : calls_run SCCWriteThrough.manager (fun _ => true) (fun _ => 1%nat) pasha_home pasha_calls (Ghost [] ∅) pasha_rows
  (fun g w => pcall_enabled SCCWriteThrough.manager (fun _ => 1%nat) pasha_home g w (CRemote 1 the_row 200 (OWriteLock 8)) /\ abs w !! the_row = Some (cell_row (Cell 1 3 0 true [Byte.x09]))).
Proof. vm_compute. repeat first [split | eexists | exact I | discriminate | constructor]. Qed.

Lemma sundial_pasha_refines_witness : exists g' w', psteps SCCWriteThrough.manager (fun _ => true) (fun _ => 1%nat) pasha_home (Ghost [] ∅) pasha_rows pasha_calls g' w' /\
  sundial_run (fun _ => 1%nat) pasha_calls (abs pasha_rows) = Some (abs w') /\ abs w' !! the_row = Some (cell_row (Cell 1 3 0 true [Byte.x09])) /\
  pcall_refines SCCWriteThrough.manager (fun _ => true) (fun _ => 1%nat) pasha_home g' w' (CRemote 1 the_row 200 (OWriteLock 8)).
Proof.
  destruct (calls_psteps _ _ _ _ _ _ _ _ pasha_calls_ok) as (g' & w' & Hs & He & Hrow). exists g', w'. split; [exact Hs|].
  assert (forall k : row_id, scc_host (SundialSCCLaws := write_through_laws) (pasha_home k)) as Hhome by (intros k; cbn; unfold pasha_home; lia).
  destruct (sundial_pasha_refines SCCWriteThrough.manager (fun _ => true) (fun _ => 1%nat) pasha_home Hhome (Ghost [] ∅) pasha_rows pasha_calls g' w' pasha_rows_wf Hs) as [Hr Hc].
  split; [exact Hr|]. split; [exact Hrow|]. apply Hc, He.
Defined.
