(* ===== verification/TwoPLWitness.v ===== *)
(** * Two-phase locking: runs

    Concrete runs of the transactions of [TwoPL]: one in which two transactions of
    different hosts work on the same rows and both commit, for
    [twopl_serializable], one in which a lock is refused, and a scan that cannot
    give back what it has not locked. *)

From S2P Require Import Prelude LockWord RWLock TwoPLHelper Interleave SundialRow TwoPL TwoPLSpec TwoPLTxn TwoPLCommit TwoPLSerial.
Import TwoPLRWKey TwoPLTransaction.

#[local] Existing Instance twopl_layout.

(** Two hosts, each with one partition; table 0 has values of one byte. *)
Definition one_byte (t : Z) : nat := 1.
Definition as_it_is (t : Z) (v : bytes) : bytes := v.
Definition over (t : Z) (d v : bytes) : bytes := v.
Definition master (p : Z) : Z := p.
Definition stored_at (p h : Z) : bool := p =? h.

Definition fresh_txn (buffers : list (Z * bytes)) : ttxn := Txn [] [] [] [] [] false false false false false false 0 0 (list_to_map buffers) ∅ [].
Definition old_row (b : Byte.byte) : TwoPLHelper.row := TwoPLHelper.MkRow (TwoPLHelper.TwoPLMetadataInit true) [b].

Definition boundedb (s : store) : bool := forallb (fun kr : row_id * TwoPLHelper.row => seq_no (TwoPLHelper.lock_of kr.2) <? 2 ^ 54 - 1) (map_to_list (s_rows s)).

Lemma boundedb_bounded s : boundedb s = true -> bounded s.
Proof. unfold boundedb. rewrite forallb_forall. intros H k r Hk. apply elem_of_map_to_list, list_elem_of_In, H in Hk. now apply Z.ltb_lt in Hk. Qed.

Definition system (jobs : gmap Z job) (s : store) : sys store (bool * ttxn) := run_jobs one_byte as_it_is over master stored_at [0; 1] false jobs s.
Definition steps (tid : Z) (n : nat) : list (Z * nat) := replicate n (tid, 0%nat).
Definition outcome (tid : Z) (y : sys store (bool * ttxn)) : option (bool * ttxn) := match threads y !! tid with Some (Done a) => Some a | _ => None end.

(** The transaction 1 of host 0 copies the row of host 1 to its own; transaction 2
    of host 1 updates the row of host 1. *)
Definition copy_job : job := Job 0 (fun _ => 0)
  (update 0 0 10 102 (search_for_read 0 1 11 101 (search_for_update 0 0 10 100 (fresh_txn [(100, [Byte.x00]); (101, [Byte.x00]); (102, [Byte.x00])]))))
  (fun m => <[102 := default [] (m !! 101)]> m).
Definition update_job : job := Job 1 (fun _ => 0)
  (update 0 1 11 201 (search_for_update 0 1 11 200 (fresh_txn [(200, [Byte.x00]); (201, [Byte.x07])])))
  id.
Definition two_jobs : gmap Z job := {[1 := copy_job; 2 := update_job]}.
Definition two_rows : store := Store {[(0, 0, 0) := old_row Byte.x05; (0, 1, 0) := old_row Byte.x06]} [].

Definition both_run (a b c : nat) : option (sys store (bool * ttxn)) := schedule boundedb (steps 1 a ++ steps 2 b ++ steps 1 c) (system two_jobs two_rows).

Ltac computed := match goal with |- ?P => refine (bool_decide_unpack P _); vm_compute; exact I end.

(** The contract of a transaction of the examples. *)
Section example_job.
Context (rows : gset row_id) (j : job).
Abbreviation reads := (readSet (start j)).
Abbreviation writes := (writeSet (start j)).

Lemma small_requests : Forall (fun e => is_Some (get_key e) /\ is_Some (get_value e) /\ row_ (pointer j) e ∈ rows /\ (get_processed e = false /\ rbit e = false /\ wbit e = false) /\ rr e = negb (wr e) /\ idx e = false) reads ->
  NoDup (row_ (pointer j) <$> reads) -> NoDup (buf <$> reads) -> requests rows (pointer j) reads.
Proof. rewrite Forall_forall. intros H H1 H2. split; try assumption; intros e He; apply H in He; unfold unmarked; tauto. Qed.

(** The entry that is updated is the first one. *)
Lemma small_updates e0 w rest : reads = e0 :: rest -> writes = [w] -> wr e0 = true -> is_Some (get_key w) -> is_Some (get_value w) -> row_ (pointer j) w = row_ (pointer j) e0 ->
  TwoPL.owner_of master w ∈ [0; 1] -> updates master [0; 1] (pointer j) reads writes.
Proof.
  intros Hr Hw Hwr Hk Hv Hrow Ho. split; rewrite Hw.
  - intros e He. apply list_elem_of_singleton in He as ->. split; [exact Hk|]. split; [exact Hv|]. exists e0. rewrite Hr. split; [left|]. split; [exact Hwr|exact Hrow].
  - apply NoDup_singleton.
  - intros e He. apply list_elem_of_singleton in He as ->. exact Ho.
Qed.

Lemma small_start : reads = readSet (start j) -> scanSet (start j) = [] /\ insertSet (start j) = [] /\ deleteSet (start j) = [] ->
  (abort_lock (start j) = false /\ abort_read_validation (start j) = false /\ abort_insert (start j) = false /\ abort_delete (start j) = false) ->
  pendingResponses (start j) = 0 /\ outbox (start j) = [] -> Forall (fun e => get_tid e = 0 /\ length <$> (mem (start j) !! buf e) = Some 1%nat) reads ->
  beginning one_byte reads writes (mem (start j)) (max_tid (start j)) (start j).
Proof.
  rewrite Forall_forall. intros _ Hs Hf Hn He. split; try assumption; try (repeat split; reflexivity); try tauto.
  - intros e Hin. destruct (He e Hin) as [-> _]. split; [lia|reflexivity].
  - intros e Hin. destruct (He e Hin) as [_ Hl]. destruct (mem (start j) !! buf e) as [b|] eqn:Eb; [|discriminate Hl]. exists b. split; [exact Eb|]. now injection Hl.
Qed.
End example_job.

Lemma copy_job_ok : job_ok one_byte master [0; 1] (dom (s_rows two_rows)) copy_job.
Proof.
  split.
  - apply small_requests; computed.
  - eapply small_updates; [reflexivity|reflexivity|..]; computed.
  - intros m Hm _ e He. apply list_elem_of_singleton in He as ->. destruct (Hm _ (list_elem_of_lookup_2 (readSet (start copy_job)) 1 _ eq_refl)) as (b & Hb & Hl).
    change (m !! 101 = Some b) in Hb. exists b. split; [|exact Hl]. change (<[102 := default [] (m !! 101)]> m !! 102 = Some b). now rewrite lookup_insert_eq, Hb.
  - split; [apply Z.le_refl|reflexivity].
  - apply small_start; [reflexivity|computed..].
Qed.

Lemma update_job_ok : job_ok one_byte master [0; 1] (dom (s_rows two_rows)) update_job.
Proof.
  split.
  - apply small_requests; computed.
  - eapply small_updates; [reflexivity|reflexivity|..]; computed.
  - intros m _ Hm e He. apply list_elem_of_singleton in He as ->. exists [Byte.x07]. split; [|reflexivity]. change (m !! 201 = Some [Byte.x07]). rewrite Hm by computed. reflexivity.
  - split; [apply Z.le_refl|reflexivity].
  - apply small_start; [reflexivity|computed..].
Qed.

Lemma both_jobs_ok tid j : two_jobs !! tid = Some j -> job_ok one_byte master [0; 1] (dom (s_rows two_rows)) j.
Proof.
  intros Hj. unfold two_jobs in Hj. apply lookup_insert_Some in Hj as [[<- <-]|[_ Hj]]; [apply copy_job_ok|]. apply lookup_singleton_Some in Hj as [<- <-]. apply update_job_ok.
Qed.

Lemma two_rows_start : at_start one_byte two_rows.
Proof.
  split; [reflexivity|]. intros k r Hr. assert (exists b, r = old_row b) as [b ->].
  { cbn in Hr. apply lookup_insert_Some in Hr as [[_ <-]|[_ Hr]]; [eauto|]. apply lookup_singleton_Some in Hr as [_ <-]. eauto. }
  split; [|split; reflexivity]. split; [|split; reflexivity]. split; [reflexivity|]. split; [split; [apply Z.le_refl|reflexivity]|]. intros _. reflexivity.
Qed.

(** Transaction 1 has locked its own row, transaction 2 runs, and transaction 1 reads
    and copies what it has left. *)
Lemma twopl_serializable_witness : exists y t, both_run 1 5 12 = Some y /\ outcome 1 y = Some (true, t) /\ unlocked 1 y /\ serialized (values two_rows) 1 copy_job t y /\
  replay (values two_rows) (s_log (now y)) !! (0, 0, 0) = Some [Byte.x07].
Proof.
  assert ((fun y => (fst <$> outcome 1 y, replay (values two_rows) (s_log (now y)) !! (0, 0, 0))) <$> both_run 1 5 12 = Some (Some true, Some [Byte.x07])) as E by (vm_compute; reflexivity).
  destruct (both_run 1 5 12) as [y|] eqn:Ey; [|discriminate E]. cbn [fmap option_fmap option_map] in E. injection E as Eo Er. destruct (outcome 1 y) as [[ok t]|] eqn:Eout; [|discriminate Eo]. cbn in Eo. injection Eo as ->.
  exists y, t. assert (threads y !! 1 = Some (Done (true, t))) as Ht. { unfold outcome in Eout. destruct (threads y !! 1) as [[a| |]|]; congruence. }
  assert (reachable bounded (system two_jobs two_rows) y) as Hreach by (eapply (schedule_reachable _ boundedb); [exact boundedb_bounded|apply reach_here|exact Ey]).
  destruct (twopl_serializable one_byte as_it_is over master stored_at [0; 1] false (fun _ _ _ _ _ => eq_refl) (fun p h H => eq_sym (proj1 (Z.eqb_eq p h) H))
    two_jobs two_rows y two_rows_start both_jobs_ok Hreach) as [_ Hall].
  destruct (Hall 1 copy_job _ eq_refl Ht) as [Hno Hser]. split; [reflexivity|]. split; [exact Eout|]. split; [exact Hno|]. split; [exact Hser|exact Er].
Defined.

(** ** A lock is refused *)

(** Transaction 1 has read the row of host 1 when transaction 2 asks for it. *)
Example refused_run : from_option (fun y => exists t1 t2, outcome 1 y = Some (true, t1) /\ outcome 2 y = Some (false, t2) /\
  data_at (now y) (0, 1, 0) = Some [Byte.x06] /\ commits 2 (s_log (now y)) = 0%nat) False (both_run 5 1 8).
Proof. vm_compute. do 2 eexists. repeat split. Qed.

(** ** A scan without a next row *)

Definition scan_job : job := Job 0 (fun p => p) (scan_for_read 0 0 10 20 0 300 (on_vec (fun _ => {[300 := []]}) (fresh_txn []))) id.

(** The range begins after the last key: the scan succeeds without having locked a
    next row, and giving it back fails a check of [release_lock]. *)
Theorem twopl_empty_scan_fails :
  from_option (fun y => outcome 1 y = None /\ advance 1 0 y = None) False (schedule boundedb (steps 1 1) (system {[1 := scan_job]} two_rows)).
Proof. vm_compute. repeat split. Qed.
