(* ===== verification/WALWitness.v ===== *)
(** * Concrete logs

    Runs of the loggers of [WAL] with small buffers on which the theorems are
    applied, and runs that show what the log of a host does not promise. *)

From S2P Require Import Prelude WAL WALSpec WALPasha.
Import Byte.

#[export] Instance good_os : Os := { os_write := fun _ n => Z.of_nat n; os_fdatasync := fun _ => true; os_errno := fun _ => 0 }.
#[export] Instance good_os_healthy : OsHealthy good_os.
Proof. now constructor. Qed.

(** ** Group commit *)

Module GroupCommitRun.
Import BufferedDirectFileWriter GroupCommitLogger GroupCommit.

Definition mem : bytes := replicate 8 x00.
Definition writer0 : writer := Writer new_file mem 0.

(** A call appends a record that is to persist, another one does too; the
    background thread synchronizes after 10 microseconds. *)
Definition final : system :=
  System (Logger (Writer (File [[x01; x02; x03; x04; x05; x00; x00; x00]] 1 [SysWrite [x01; x02; x03; x04; x05; x00; x00; x00]; SysFdatasync]) [x01; x02; x03; x04; x05; x00; x00; x00] 0) 5 5 20000 0)
    {[2 := Entering 5]} [[x01; x02; x03]; [x04; x05]] [3%nat].

Lemma run : rtc (step 8 4 0 10 2) (start writer0 0) final.
Proof.
  eapply rtc_l; [apply (step_append_persist _ _ _ _ _ 1 [x01; x02; x03] 3); [reflexivity|cbn; lia|vm_compute; reflexivity]|].
  eapply rtc_l; [apply (step_enter _ _ _ _ _ 1 3); [reflexivity|reflexivity]|].
  eapply rtc_l; [apply (step_append_persist _ _ _ _ _ 2 [x04; x05] 5); [reflexivity|cbn; lia|vm_compute; reflexivity]|].
  eapply rtc_l; [apply (step_sync _ _ _ _ _ 15000 20000); vm_compute; reflexivity|].
  eapply rtc_l; [apply (step_return _ _ _ _ _ 1 3); vm_compute; reflexivity|].
  apply rtc_refl.
Qed.

Lemma group_commit_durable_witness :
  exists data, Buffered.on_disk 4 0 (w_file (l_writer (s_logger final))) data /\ [x01; x02; x03] `prefix_of` data.
Proof.
  refine (proj1 (group_commit_durable 8 4 0 10 2 _ _ mem writer0 0 final _ _ run) 3%nat _); [lia|reflexivity|reflexivity|reflexivity|].
  cbn. now left.
Defined.
End GroupCommitRun.

(** ** The log of a host *)

Module PashaRun.
Import Pasha.

Definition fresh : bytes := replicate 8 xff.

(** Two workers; a block has 4 bytes, a buffer 8 and a queue 2 places.  The second
    record of the first worker does not fit in its buffer. *)
Definition events : list event :=
  [Write 0 0 [x01; x02; x03; x04; x05] true 7; Write 1 0 [x0a] false 8; Write 0 0 [x06; x07; x08; x09] true 9; NextEpoch; Flush 0].

Definition after : loggers :=
  Loggers
    [Slave (MkBuffer [x06; x07; x08; x09; xff; xff; xff; xff] 4 [9]) 0 [];
     Slave (MkBuffer [x0a; xff; xff; xff; xff; xff; xff; xff] 1 []) 0 []]
    1 (File [[x01; x02; x03; x04; x05; xff; xff; xff]] 1 [SysWrite [x01; x02; x03; x04; x05; xff; xff; xff]; SysFdatasync]) 1 5 1.

Lemma events_run : exec_all 4 8 2 fresh events (new_loggers fresh 2) = Ret tt after.
Proof. vm_compute. reflexivity. Qed.

Lemma events_ok : Forall (event_ok 8 2) events.
Proof. repeat constructor; cbn; lia. Qed.

Lemma pasha_log_exact_witness : exists bs, exact 4 8 2 after (fun w => records w events) bs.
Proof. refine (proj1 (pasha_log_exact 4 8 2 fresh _ _ 2 events after events_ok events_run)); reflexivity. Defined.

Lemma pasha_records_issued_witness :
  runs (tick 4 2;; write 8 2 fresh 0 [x0b] false 10;; do_sync 4 2) after (fun _ l' =>
    exists bs, issued (file_writer l') = (bs ≫= calls_for 4 ∘ snd) /\ concat (payload <$> of_worker 0 bs) = [x01; x02; x03; x04; x05; x06; x07; x08; x09]).
Proof. refine (pasha_records_issued 4 8 2 fresh _ _ 2 events after 0 [x0b] false 10 events_ok _ events_run _ _ _); [reflexivity|reflexivity|cbn; lia|lia|cbn; lia|lia]. Defined.

(** *** What is not promised *)

(** Worker 0 commits a transaction and then has nothing to write.  Worker 1 commits
    one in the same epoch, which may have read what the first has written, and goes
    on in the next epoch.  When the logger has done its work for two epochs, the
    second transaction is on the disk and counted as committed, and the first one is
    not. *)
Definition out_of_order : list event :=
  [Write 0 0 [x01] true 1; Write 1 0 [x02] true 2; NextEpoch; Flush 0; Flush 1; Write 1 0 [x03] false 3; NextEpoch; Flush 0; Flush 1].

Theorem commit_order_not_kept :
  exists l, exec_all 4 8 2 fresh out_of_order (new_loggers fresh 2) = Ret tt l /\
    committed_txn_cnt l = 1%nat /\ content (file_writer l) = [x02; xff; xff; xff] /\
    payload <$> (cur_log_buffer <$> slaves l) = [[x01]; [x03]].
Proof. eexists. split; [vm_compute; reflexivity|]. split_and!; reflexivity. Qed.

(** However many epochs pass, what a worker that does not write any more has in its
    buffer stays there. *)
Theorem idle_worker_not_flushed (n : nat) :
  exists l, exec_all 4 8 2 fresh (Write 0 0 [x01] true 1 :: concat (replicate n [NextEpoch; Flush 0])) (new_loggers fresh 1) = Ret tt l /\
    committed_txn_cnt l = 0%nat /\ written (file_writer l) = [].
Proof.
  assert (H : forall e, exists l, exec_all 4 8 2 fresh (concat (replicate n [NextEpoch; Flush 0]))
    (Loggers [Slave (MkBuffer [x01; xff; xff; xff; xff; xff; xff; xff] 1 [1]) 0 []] e new_file 0 0 0) = Ret tt l /\
    committed_txn_cnt l = 0%nat /\ written (file_writer l) = []).
  { induction n as [|n IH]; intros e; [eexists; split_and!; reflexivity|]. exact (IH (wrap 64 (e + 1))). }
  exact (H 0).
Qed.

(** The results of the calls are ignored: when every [write] fails, the transaction
    is counted as committed all the same, and the file is empty. *)
Definition full_disk : Os := {| os_write := fun _ _ => -1; os_fdatasync := fun _ => true; os_errno := fun _ => 28 |}.

Theorem failed_write_counted :
  exists l, exec_all (os := full_disk) 4 8 2 fresh [Write 0 0 [x01] true 1; NextEpoch; Write 0 0 [x02] false 2; Flush 0] (new_loggers fresh 1) = Ret tt l /\
    committed_txn_cnt l = 1%nat /\ content (file_writer l) = [].
Proof. eexists. split; [vm_compute; reflexivity|]. split; reflexivity. Qed.
End PashaRun.
