(* ===== verification/Findings.v ===== *)
(** * Runs that go wrong

    Concrete runs of the operations in which the code does not do what it means
    to: the conditions that the theorems of the other files exclude are there
    for a reason. *)

From Stdlib Require Import Init.Byte.
From S2P Require Import Prelude LockWord SharedWord SCC CXLMemory PashaState PashaHelper PashaMigration PashaRow PashaMove PashaTable RWKey Commit Execute Witness.

#[local] Existing Instance pasha_layout.

Fixpoint run_all {S A} (ms : list (M S A)) : M S unit :=
  match ms with [] => mret tt | m :: ms => m;; run_all ms end.

(** The value of a program run from [world0]. *)
Definition outcome_of {A} (m : M world A) : option A :=
  match m world0 with Ret a _ => Some a | _ => None end.

#[local] Abbreviation on_a cfg := (run write_through cfg test_owner test_size key_a).

(** The owner can see a stale version.  Host 1 updates a migrated row under
    its write lock; before it publishes the new version and releases the lock,
    the owner asks for the lock and is refused, but refreshes its copy and
    clears the modified flag.  Afterwards the owner takes the read lock and is
    given version 0, although the version of the row is 9. *)
Theorem owner_version_stale :
  outcome_of (
    run_all (map (on_a test_cfg) [MoveIn false; RemoteTakeWrite 1 [x00; x00] true; RemoteUpdate [x7a; x7a];
      WriteLock; RemoteWriteReleaseNew 1 9]);;
    r ← Pasha.read_lock write_through test_owner key_a 2;
    v ← gets (abs key_a);
    mret (r, (fun t => seq_no (t_lock t)) <$> v))
  = Some ((0, true), Some 9).
Proof. vm_compute. reflexivity. Qed.

(** The end of a value is not written back.  Releasing the write lock passes the
    size of the shared metadata plus the size of the value to [finish_write],
    but the value lies behind the larger header of the data object.  For a
    value of 48 bytes in an object at the start of a cache line, the value ends
    in the second line, and only the first is written back: host 0 writes 7 and 8
    over 5 and 6 in the two lines and ends its write, and host 1, which flushes
    both lines before it reads, is given 7 and 6. *)
Theorem tail_not_written_back :
  let pod0 := Cache.Pod 0 [Cache.Line 5 ∅; Cache.Line 6 ∅] None [5; 6] in
  exists p, rtc (Cache.step 0 (sizeof_MetadataShared + 48) write_through) pod0 p /\
    Cache.writing p = None /\ Cache.latest p = [7; 8] /\
    Cache.lines_covered 0 (sizeof_SharedDataSCC + 48) = 2%nat /\
    exists p', Cache.read_section 0 write_through 1 (sizeof_SharedDataSCC + 48) p = Some ([7; 6], p').
Proof.
  cbv zeta. eexists. split.
  { eapply rtc_l.
    { eapply (Cache.step_begin_write _ _ write_through 0 (sizeof_SharedDataSCC + 48));
        [unfold host_ok; lia|vm_compute; congruence|reflexivity|vm_compute; reflexivity]. }
    eapply rtc_l; [apply (Cache.step_store _ _ write_through 0 0 7); reflexivity|].
    eapply rtc_l; [apply (Cache.step_store _ _ write_through 0 1 8); reflexivity|].
    eapply rtc_l; [|apply rtc_refl].
    apply (Cache.step_end_write _ _ write_through 0 (sizeof_MetadataShared + 48));
      [vm_compute; congruence|reflexivity|vm_compute; reflexivity]. }
  do 3 (split; [vm_compute; reflexivity|]). eexists. vm_compute. reflexivity.
Qed.

(** Without software coherence, the migration optimisation loses data.  A
    row is moved in, moved out and moved in again without being modified: its
    second data object is never written, and a reader on another host gets the
    contents of fresh memory. *)
Theorem unmodified_row_lost :
  outcome_of (
    run_all (map (on_a (Config false true true false)) [MoveIn false; MoveOut; MoveIn false]);;
    on_a (Config false true true false) (RemoteTakeRead 1 [x01; x01] false))
  = Some (true, Some [x00; x00]) /\
  value_of key_a world0 = Some [x61; x61].
Proof. vm_compute. split; reflexivity. Qed.

(** The reference count of a row is a byte.  After 256 pins a row is moved
    out although every one of them is still held. *)
Theorem ref_cnt_wraps :
  outcome_of (
    run_all (repeat (on_a test_cfg (MoveIn true)) 256);;
    Migration.move_from_hashmap_to_partition write_through test_cfg test_owner key_a 2) = Some true /\
  outcome_of (
    run_all (repeat (on_a test_cfg (MoveIn true)) 255);;
    Migration.move_from_hashmap_to_partition write_through test_cfg test_owner key_a 2) = Some false.
Proof. vm_compute. split; reflexivity. Qed.

(** [read] on a migrated row passes a null pointer to [prepare_read], which
    the write-through managers follow. *)
Theorem read_migrated_faults :
  (run_all [on_a test_cfg (MoveIn false)];;
   Pasha.read write_through test_owner key_a [x00; x00] 2) world0 = Fault /\
  outcome_of (Pasha.read write_through test_owner key_a [x00; x00] 2) = Some (0, [x61; x61]).
Proof. vm_compute. split; reflexivity. Qed.

(** The owner that is asked for the rows of a range answers with [success] false,
    whatever it has moved in; the handler of the answer asserts that it is
    true. *)
Theorem scan_answer_is_failure on_demand move_in move_out t p min max limit i w r w' :
  TwoPLPashaMessageHandler.data_migration_request_for_scan_handler on_demand move_in move_out t p min max limit i w = Ret r w' ->
  r = DataMigrationResponseForScan t p false i.
Proof.
  unfold TwoPLPashaMessageHandler.data_migration_request_for_scan_handler. mrun.
  destruct (scan_keys _ _ _ _) as [res w1| | |]; try easy. destruct (for_each _ _ _) as [? w2| | |]; try easy.
  destruct on_demand; [destruct (move_out p w2); try easy|]; now intros [= <- _].
Qed.

Import RWKey.TwoPLPashaRWKey.

(** An insertion into another host's partition locks nothing at execution time,
    but when next-key locking is asked for, its entry is marked as having locked a
    row, with a null pointer for it: the commit follows that pointer. *)
Definition remote_insert_entry : rwkey :=
  set_require_lock_next_row (TwoPLPashaTransaction.tuple_entry 1 0 (Some 15) (Some 7)).
Definition remote_insert_start : execution :=
  Execution world0 (Txn [] [] [remote_insert_entry] [] [] false []) {[ 7 := [x63; x63] ]} ∅ false false false false 0 [].

Theorem remote_insert_null_next_row :
  exists e x', TwoPLPashaExecutor.process_inserts write_through 1 (fun _ => 0) (fun p => p) (fun _ => 0) true (fun _ => false) 1 remote_insert_start = Ret false x' /\
    insertSet (x_txn x') = [e] /\ get_next_row_locked e = true /\ get_next_row_entity e = None /\
    forall w, TwoPLPasha.publish_insert write_through 1 (fun _ => 2%nat) (fun _ => 0) (fun _ => key_a) 5 e w = Fault.
Proof.
  eexists _, _. split; [vm_compute; reflexivity|]. split; [reflexivity|]. split; [reflexivity|]. split; [reflexivity|]. intros w. reflexivity.
Qed.
