(* ===== verification/PolicyWitness.v ===== *)
(** * The policies on concrete partitions

    A host that stores the migrated rows in a map, with room for a few rows,
    gives the functions a policy is built from; the theorems on the policies
    are applied to it. *)

From S2P Require Import Prelude CXLMemory PashaState PashaHelper Tracker Policy LRU Clock Queue.

Record store := Store { st_rows : gmap rkey Z; st_pins : gset rkey; st_next : Z }.

Definition store_move_in (k : rkey) (inc_ref_cnt : bool) : M store (migration_result * option Z) :=
  s ← gets id;
  match st_rows s !! k with
  | Some _ => mret (FAIL_ALREADY_IN_CXL, None)
  | None =>
      if 8 <=? st_next s then mret (FAIL_OOM, None)
      else modify (fun _ => Store (<[k := st_next s]> (st_rows s)) (st_pins s) (st_next s + 1));;
           mret (SUCCESS, Some (st_next s))
  end.

Definition store_move_out (k : rkey) : M store bool :=
  s ← gets id;
  if bool_decide (k ∈ st_pins s) then mret false
  else modify (fun _ => Store (delete k (st_rows s)) (st_pins s) (st_next s));; mret true.

Definition store_delete (k : rkey) (is_delete_local : bool) : M store (bool * bool * option Z) :=
  s ← gets id;
  modify (fun _ => Store (delete k (st_rows s)) (st_pins s) (st_next s));;
  mret (true, bool_decide (is_Some (st_rows s !! k)), st_rows s !! k).

#[export] Instance store_ops : MoverOps store := {
  move_from_partition_to_shared_region := store_move_in;
  move_from_shared_region_to_partition := store_move_out;
  delete_and_update_next_key_info := store_delete;
  total_hw_cc_usage := fun s => 100 * Z.of_nat (size (st_rows s))
}.

Definition store_inv (s : store) : Prop := map_Forall (fun _ o => o < st_next s) (st_rows s).

#[export] Instance store_mover : Mover store.
Proof.
  refine {| mover_inv := store_inv; cxl_rows := st_rows;
            pinned := fun s k => bool_decide (k ∈ st_pins s) |}.
  - intros h k b Hi. cbn. unfold store_move_in, runs. mrun.
    destruct (st_rows h !! k) eqn:Ek; [now split|].
    destruct (Z.leb_spec 8 (st_next h)); mrun; [now split|]. split.
    + intros k' o. cbn. intros [[<- <-]|[_ Ho]]%lookup_insert_Some; [lia|]. specialize (Hi _ _ Ho). cbn in *. lia.
    + split_and!; try easy. intros k' Ho. specialize (Hi _ _ Ho). cbn in *. lia.
  - intros h k Hi _. cbn. unfold store_move_out, runs. mrun.
    case_bool_decide; mrun; split_and!; try easy.
    intros k' o. cbn. intros [_ Ho]%lookup_delete_Some. exact (Hi _ _ Ho).
Defined.

#[export] Instance store_deleter : Deleter store.
Proof.
  constructor. intros h k b Hi. cbn. split_and!; try easy.
  intros k' o. cbn. intros [_ Ho]%lookup_delete_Some. exact (Hi _ _ Ho).
Defined.

Definition k1 : rkey := (0, 0, 1).
Definition k2 : rkey := (0, 0, 2).
Definition k3 : rkey := (0, 0, 3).
Definition empty_store (pins : gset rkey) : store := Store ∅ pins 1.
Definition empty_tracker : tracker := Tracker false None None None ∅.

Lemma empty_repr : repr empty_tracker [].
Proof. split_and!; try easy; apply NoDup_nil_2. Qed.

(** The value a program returns and the state it leaves. *)
Definition result {S A} (m : M S A) (s : S) : option A :=
  match m s with Ret a _ => Some a | _ => None end.
Definition state_after {S A} (m : M S A) (s : S) : S :=
  match m s with Ret _ s' => s' | _ => s end.

(** ** LRU *)
Definition lru0 : pst PolicyLRU.lru store := Pst (PolicyLRU.Lru empty_tracker ∅) (empty_store {[k1]}).
Definition lru3 : pst PolicyLRU.lru store :=
  state_after (PolicyLRU.move_row_in k3 false)
    (state_after (PolicyLRU.move_row_in k2 false) (state_after (PolicyLRU.move_row_in k1 true) lru0)).

Lemma lru0_ok : PolicyLRU.lru_ok lru0 [].
Proof.
  split; [|easy]. unfold PolicyLRU.linked.
  split_and!; [apply empty_repr|apply NoDup_nil_2| |easy|easy].
  intros k o. cbn. rewrite elem_of_nil. easy.
Qed.

Lemma lru_move_in_result s l k b :
  PolicyLRU.lru_ok s l -> result (PolicyLRU.move_row_in k b) s = Some SUCCESS ->
  exists o, PolicyLRU.lru_ok (state_after (PolicyLRU.move_row_in k b) s) (l ++ [(k, o)]).
Proof.
  intros Hs Hr. pose proof (PolicyLRU.lru_move_row_in_ok s l k b Hs) as H.
  unfold result, state_after, runs in *. destruct (PolicyLRU.move_row_in k b s); [|easy..].
  injection Hr as ->. destruct H as (l' & Hl & _ & o & ->). eauto.
Qed.

Lemma lru3_ok : exists o1 o2 o3, PolicyLRU.lru_ok lru3 [(k1, o1); (k2, o2); (k3, o3)].
Proof.
  destruct (lru_move_in_result lru0 [] k1 true lru0_ok eq_refl) as [o1 H1].
  destruct (lru_move_in_result _ _ k2 false H1 eq_refl) as [o2 H2].
  destruct (lru_move_in_result _ _ k3 false H2 eq_refl) as [o3 H3]. now exists o1, o2, o3.
Qed.

(** Two rows come in, the first is accessed, rows are moved out, one is deleted. *)
Lemma lru_tracks_migrated_witness :
  runs (PolicyLRU.exec_all 150 [PolicyLRU.MoveIn k1 true; PolicyLRU.MoveIn k2 false;
      PolicyLRU.Access k1; PolicyLRU.MoveOut; PolicyLRU.Delete k1 true]) lru0
    (fun _ s => exists l, PolicyLRU.lru_ok s l).
Proof. exact (PolicyLRU.lru_tracks_migrated 150 _ lru0 lru0_ok). Defined.

(** Three rows and room for two: the oldest is in use, so the second leaves. *)
Lemma lru_evicts_oldest_witness :
  result (PolicyLRU.move_row_out 250 (PolicyLRU.enough_steps lru3)) lru3 = Some true /\
  exists o1 o2 o3, runs (PolicyLRU.move_row_out 250 (PolicyLRU.enough_steps lru3)) lru3
    (fun b s' => exists l', PolicyLRU.lru_ok s' l' /\
      if total_hw_cc_usage (host lru3) <? 250
      then b = false /\ l' = [(k1, o1); (k2, o2); (k3, o3)] /\ host s' = host lru3
      else PolicyLRU.swept (host lru3) [(k1, o1); (k2, o2); (k3, o3)] l' b /\
           (b = true -> total_hw_cc_usage (host s') < 250)).
Proof.
  split; [vm_compute; reflexivity|]. destruct lru3_ok as (o1 & o2 & o3 & H). exists o1, o2, o3.
  exact (PolicyLRU.lru_evicts_oldest 250 lru3 _ H).
Defined.

(** ** Clock *)
Definition clock0 (pins : gset rkey) : pst PolicyClock.clock store :=
  Pst (PolicyClock.Clk empty_tracker ∅ ∅) (empty_store pins).
Definition clock_in (k : rkey) (s : pst PolicyClock.clock store) : pst PolicyClock.clock store :=
  state_after (PolicyClock.move_row_in k false) s.
Definition clock3 (pins : gset rkey) := clock_in k3 (clock_in k2 (clock_in k1 (clock0 pins))).

Lemma clock0_ok pins : PolicyClock.clock_ok (clock0 pins) [].
Proof.
  split; [|split; [easy|now exists [], []]]. unfold PolicyClock.linked.
  split_and!; [apply empty_repr|apply NoDup_nil_2|apply NoDup_nil_2| |easy|easy].
  intros k o. cbn. rewrite elem_of_nil. easy.
Qed.

Lemma clock_move_in_result s l k :
  PolicyClock.clock_ok s l -> result (PolicyClock.move_row_in k false) s = Some SUCCESS ->
  exists p o, PolicyClock.clock_ok (clock_in k s) (l ++ [(p, (k, o))]).
Proof.
  intros Hs Hr. pose proof (PolicyClock.clock_move_row_in_ok s l k false Hs) as H.
  unfold clock_in, result, state_after, runs in *. destruct (PolicyClock.move_row_in k false s); [|easy..].
  injection Hr as ->. destruct H as (l' & Hl & _ & p & o & ->). eauto.
Qed.

Lemma clock1_ok : exists p o, PolicyClock.clock_ok (clock_in k1 (clock0 ∅)) [(p, (k1, o))].
Proof. exact (clock_move_in_result _ [] k1 (clock0_ok ∅) eq_refl). Qed.

Lemma clock_tracks_migrated_witness :
  runs (PolicyClock.exec_all 150 [PolicyClock.MoveIn k1 true; PolicyClock.MoveIn k2 false;
      PolicyClock.Access k1; PolicyClock.MoveOut; PolicyClock.MoveOut]) (clock0 ∅)
    (fun _ s => exists l, PolicyClock.clock_ok s l).
Proof. exact (PolicyClock.clock_tracks_migrated 150 _ (clock0 ∅) (clock0_ok ∅)). Defined.

Lemma clock_move_out_witness :
  result (PolicyClock.move_row_out 50 (PolicyClock.enough_steps (clock_in k1 (clock0 ∅))))
    (clock_in k1 (clock0 ∅)) = Some true /\
  exists l, runs (PolicyClock.move_row_out 50 (PolicyClock.enough_steps (clock_in k1 (clock0 ∅))))
    (clock_in k1 (clock0 ∅)) (fun b s' => exists l', PolicyClock.clock_ok s' l' /\
    if total_hw_cc_usage (host (clock_in k1 (clock0 ∅))) <? 50
    then b = false /\ l' = l /\ host s' = host (clock_in k1 (clock0 ∅))
    else PolicyClock.clock_swept (host (clock_in k1 (clock0 ∅))) l l' /\
         (b = true -> total_hw_cc_usage (host s') < 50)).
Proof.
  split; [vm_compute; reflexivity|]. destruct clock1_ok as (p & o & H). eexists.
  exact (PolicyClock.clock_move_out 50 _ _ H).
Defined.

(** One accessed row, found at address 1. *)
Definition clock1a : pst PolicyClock.clock store :=
  state_after (PolicyClock.access_row 1) (clock_in k1 (clock0 ∅)).

Lemma clock1a_ok : exists p, PolicyClock.clock_ok clock1a [(p, (k1, 1))].
Proof.
  destruct clock1_ok as (p & o & H).
  assert (o = 1) as ->.
  { destruct H as ((_ & _ & _ & Hm & _) & _).
    apply (f_equal (fun m : gmap rkey Z => m !! k1)) in Hm. vm_compute in Hm. congruence. }
  exists p. pose proof (PolicyClock.clock_access_row_ok _ _ k1 1 H eq_refl) as Ha.
  unfold runs in Ha. unfold clock1a, state_after.
  destruct (PolicyClock.access_row 1 _); easy.
Qed.

Lemma clock_second_chance_witness :
  exists p, runs (PolicyClock.move_row_out 50 2) clock1a (fun b s' => b = false /\
    host s' = host clock1a /\ PolicyClock.clock_ok s' [(p, (k1, 1))] /\
    forall p' k o, (p', (k, o)) ∈ [(p, (k1, 1))] -> PolicyClock.second_chance (pol s') !! o = Some 0).
Proof.
  destruct clock1a_ok as (p & H). exists p.
  refine (PolicyClock.clock_second_chance 50 clock1a [(p, (k1, 1))] H _ _ _).
  - vm_compute. reflexivity.
  - intros p' k o [= -> -> ->]%list_elem_of_singleton. vm_compute. reflexivity.
  - vm_compute. discriminate.
Defined.

Lemma clock_delete_aborts_witness :
  PolicyClock.delete_specific_row_and_move_out k1 true (clock_in k1 (clock0 ∅)) = Abort.
Proof.
  destruct clock1_ok as (p & o & H).
  refine (PolicyClock.clock_delete_aborts _ _ k1 true H _). vm_compute. eauto.
Defined.

(** The clock skips the row after a victim.  Of three rows that all could
    leave, with no second chances, one call of [move_row_out] over the budget
    moves out the first and the third: the cursor is advanced once when a
    victim leaves and once more to fetch the next one. *)
Theorem clock_skips_next :
  let s := clock3 ∅ in
  result (PolicyClock.move_row_out 150 (PolicyClock.enough_steps s)) s = Some true /\
  st_rows (host s) = {[k1 := 1; k2 := 2; k3 := 3]} /\
  st_rows (host (state_after (PolicyClock.move_row_out 150 (PolicyClock.enough_steps s)) s)) = {[k2 := 2]}.
Proof. vm_compute. split; [reflexivity|split; reflexivity]. Qed.

(** ** Queues *)
Definition queue0 (pins : gset rkey) : pst queue store := Pst (Queue false [] ∅) (empty_store pins).
Definition queue3 (pins : gset rkey) : pst queue store :=
  state_after (move_row_in k3 false)
    (state_after (move_row_in k2 false) (state_after (move_row_in k1 false) (queue0 pins))).

Lemma queue0_ok pins : queue_ok (queue0 pins) [].
Proof. split; [easy|]. split; [easy|]. split; [apply NoDup_nil_2|easy]. Qed.

Lemma queue_move_in_result s l k :
  queue_ok s l -> result (move_row_in k false) s = Some SUCCESS ->
  queue_ok (state_after (move_row_in k false) s) (l ++ [k]).
Proof.
  intros Hs Hr. pose proof (queue_move_row_in_ok s l k false Hs) as H.
  unfold result, state_after, runs in *. destruct (move_row_in k false s); [|easy..].
  injection Hr as ->. destruct H as (l' & Hl & _ & ->). exact Hl.
Qed.

Lemma queue3_ok : queue_ok (queue3 {[k1]}) [k1; k2; k3].
Proof.
  pose proof (queue_move_in_result _ [] k1 (queue0_ok {[k1]}) eq_refl) as H1.
  pose proof (queue_move_in_result _ _ k2 H1 eq_refl) as H2.
  exact (queue_move_in_result _ _ k3 H2 eq_refl).
Qed.

Lemma queue_tracks_migrated_witness :
  runs (exec_all [MoveIn k1 true; MoveIn k2 false; MoveOutFIFO 150; Delete k2 true; MoveOutEagerly])
    (queue0 ∅) (fun _ s => exists l, queue_ok s l).
Proof.
  apply (queue_tracks_migrated _ (queue0 ∅) (queue0_ok ∅)). intros k k' Hk Hk'. cbn in Hk, Hk'.
  apply elem_of_cons in Hk as [->|Hk%list_elem_of_singleton], Hk' as [->|Hk'%list_elem_of_singleton]; subst; vm_compute; congruence.
Defined.

(** A delete can untrack another row.  Two rows with the same table and key
    in two partitions of the host are migrated; when the second is deleted, the
    queue loses the first one, which stays in CXL memory and is never moved out, and
    keeps the deleted one. *)
Definition ka : rkey := (1, 0, 7).
Definition kb : rkey := (1, 1, 7).
Theorem delete_untracks_other_partition :
  let s := state_after (exec_all [MoveIn ka false; MoveIn kb false; Delete kb true]) (queue0 ∅) in
  result (exec_all [MoveIn ka false; MoveIn kb false; Delete kb true]) (queue0 ∅) = Some tt /\
  fifo_queue (pol s) = [kb] /\ dom (st_rows (host s)) = {[ka]}.
Proof. vm_compute. split_and!; reflexivity. Qed.

(** The oldest row is in use: the second leaves. *)
Lemma fifo_evicts_oldest_witness :
  fifo_queue (pol (state_after (PolicyFIFO.move_row_out 250) (queue3 {[k1]}))) = [k1; k3] /\
  runs (PolicyFIFO.move_row_out 250) (queue3 {[k1]}) (fun _ s' => exists l', queue_ok s' l' /\
    if total_hw_cc_usage (host (queue3 {[k1]})) <? 250
    then l' = [k1; k2; k3] /\ host s' = host (queue3 {[k1]})
    else swept (fun h => total_hw_cc_usage h <? 250) (host (queue3 {[k1]})) (host s') [k1; k2; k3] l').
Proof.
  split; [vm_compute; reflexivity|]. exact (fifo_evicts_oldest 250 _ _ queue3_ok).
Defined.

Lemma eagerly_moves_out_all_witness :
  refused (host (queue3 {[k1]})) [k1; k2; k3] = [k1] /\
  runs PolicyEagerly.move_row_out (queue3 {[k1]}) (fun b s' => b = true /\
    queue_ok s' (refused (host (queue3 {[k1]})) [k1; k2; k3])).
Proof.
  split; [vm_compute; reflexivity|]. exact (eagerly_moves_out_all _ _ queue3_ok).
Defined.
